(* ===== verification/_CoqProject ===== *)
-Q . S2P
Prelude.v
FastDiv.v
Rmq.v
NirOpcodes.v
NirIdivConst.v
NirLowerInt64.v
NirDominance.v
NirDomPaths.v
NirDomAlgo.v
NirDomFrontier.v
NirDomForest.v
NirDomTree.v
NirDomCorrect.v
NirDomLca.v
NirPhiBuilder.v
NirPhiPlacement.v
NirPhiCorrect.v
NirParallelCopy.v
Worklist.v
NirLiveness.v
NirInterfere.v
NirMergeSets.v
NirCoalesce.v
Vma.v
Idalloc.v
ProbeTable.v
HashTable.v
HashSet.v
Blob.v
Dag.v
DagTraverse.v
UVector.v
RegSet.v
RegAlloc.v
RegBuild.v
RegSerialize.v
RbTree.v
RbInsert.v
RbRemove.v
RbQuery.v
IntervalTree.v
RbPayload.v
DenseBits.v
SparseBitset.v
SparseTree.v
SparseOps.v
SparseIter.v
SparseRefine.v
Ralloc.v
RallocTree.v
RallocResize.v
RallocOps.v
RallocString.v
LinearAlloc.v
