(* ===== verification/Prelude.v ===== *)
(** * Verification of the core of Mesa's utility library and of passes of NIR

    Mesa (the repository under src/) is a collection of graphics drivers over a shared
    utility library (src/util) and a shared compiler intermediate representation, NIR
    (src/compiler/nir).  This development models parts of these two that every driver
    relies on, with their machine arithmetic, assertions, allocation failures and
    loops, and proves that they do what their comments promise.

    ** Files, and what they model

    - Prelude.v (this file): machine words, the [assert!] notation, the tactics and
      hint databases, lemmas on powers of two, two's complement, masks, and loops.
    - FastDiv.v: util/fast_idiv_by_const.c and .h and fast_urem_by_const.h, the magic
      numbers for division and remainder by constants.  They are used by the hash
      tables (remainder by the table size) and by the pass nir_opt_idiv_const.
    - Rmq.v: util/range_minimum_query.c, tables for minima of ranges.
    - NirOpcodes.v: the integer opcodes of compiler/nir/nir_opcodes.py, on bit patterns.
    - NirIdivConst.v: compiler/nir/nir_opt_idiv_const.c on one instruction; the values
      it builds are terms, with the opcodes as their semantics.
    - NirLowerInt64.v: the integer instructions of compiler/nir/nir_lower_int64.c.
    - NirDominance.v: compiler/nir/nir_dominance.c with the metadata functions it uses
      (nir_index_blocks, nir_metadata_require), and the specification: paths through the
      control-flow graph.  The proofs are in NirDomPaths.v (paths and the tree of
      immediate dominators), NirDomAlgo.v (the iteration), NirDomFrontier.v,
      NirDomForest.v (depth-first numberings and Euler tours of a tree), NirDomTree.v
      (children and numbers in memory) and NirDomCorrect.v (the pass and its queries).
      NirDomLca.v: compiler/nir/nir_dominance_lca.c, over the tables of Rmq.v.
    - NirPhiBuilder.v: compiler/nir/nir_phi_builder.c, which repairs SSA form, over the
      dominance metadata.  NirPhiPlacement.v: where it puts phis.  NirPhiCorrect.v: what the code
      it builds computes along the paths of the control-flow graph.
    - NirLiveness.v and NirInterfere.v: compiler/nir/nir_liveness.c, liveness of SSA values over
      the work lists of Worklist.v, and their interference.
    - compiler/nir/nir_from_ssa.c, the pass out of SSA form: NirMergeSets.v has its merge sets and the coalescing,
      proved against an interface ([DomOrder]) for order, dominance and interference; NirCoalesce.v shows that
      dominance and liveness are an instance.  NirParallelCopy.v: the resolution of parallel copies.
    - Vma.v: util/vma.c, the allocator of GPU virtual addresses.  A heap is the list of
      its holes; the contract is about the set of free addresses ([is_free]).
    - Idalloc.v: util/u_idalloc.c, the allocators of numbers: plain, sparse and
      thread-safe.  The contract is about the set of numbers in use.
    - ProbeTable.v: the table of sizes and the probing loops that hash_table.c and set.c
      have in common, over a class [Slot] of what an entry provides.
    - HashTable.v: util/hash_table.c.  HashSet.v: util/set.c.
    - Blob.v: util/blob.c, buffers for serialisation, writer and reader.
    - Dag.v: the directed acyclic graphs of util/dag.c, with which the schedulers of the
      drivers work: building, and pruning of heads.  DagTraverse.v: its traversal and validation.
    - UVector.v: util/u_vector.c, growable circular buffers.  Worklist.v: util/u_worklist.c,
      double-ended queues of indices, over the bitsets of util/bitset.h.
    - RegSet.v: the register sets and classes of util/register_allocate.c with their
      conflicts, p and q values.  RegAlloc.v: its interference graphs, simplification and
      selection.  RegBuild.v: the operations that build a graph, and the allocator's
      contract for built graphs.  RegSerialize.v: ra_set_serialize and
      ra_set_deserialize, over the buffers of Blob.v.
    - RbTree.v, RbInsert.v, RbRemove.v, RbQuery.v: the red-black trees of util/rb_tree.c
      and rb_tree.h.  Nodes are cells of a memory, with links to children and
      parent; the relation [zip] says which tree, seen from which place, a memory holds.
      The callback of augmented trees is a class, [Augmented], that IntervalTree.v (the
      interval trees of the same source files) instantiates; the comparison functions
      of clients are the class [TreeOrder].  RbPayload.v: what trees leave alone.
    - The sparse bitsets of util/sparse_bitset.h, in which nir_liveness.c keeps its sets:
      SparseBitset.v has the operations, over red-black trees and the arrays of words of
      DenseBits.v (util/bitset.h).  SparseTree.v: the invariant of the trees.  SparseOps.v and
      SparseIter.v: each operation against a finite set.  SparseRefine.v: whole programs.
    - Ralloc.v: the hierarchical allocator of util/ralloc.c, on which most of Mesa's
      data lives: headers in a heap, and the forest they represent ([links]).
      RallocTree.v: freeing and adopting.  RallocResize.v: reallocation, as a renaming
      of the forest.  RallocOps.v: the specification as a step relation on forests, and
      the refinement.  RallocString.v: contents of blocks, strings and zeroed memory.
      LinearAlloc.v: linear contexts, clients of the tree allocator.

    ** How code becomes definitions

    Definitions keep the names of the C functions.  A [w]-bit unsigned object is a
    number with its wrap-around written out ([wrap], [u32], [u64]); [signed] reads a
    pattern in two's complement.  A struct is a [Record], an array a list, a pointer
    into an array a position in it.  An operation that can trip an assertion, read or
    write out of an array, or run for ever, returns an [option], and [None] is this
    failure: a theorem that gives a result also says that none of it happens.  What
    malloc and realloc return is an argument, so that a theorem says what happens when
    an allocation fails; where one assumes that it succeeds, its comment says so.  Functions the code receives from its clients (hash and
    equality functions, callbacks) are variables of the section, with their documented
    requirements as hypotheses.

    ** What the theorems show

    - Arithmetic: the unsigned magic numbers give the quotient for every width up to 64, divisor
      and numerator, and the signed ones for every width from 2 to 64 and every divisor of the width but 0, 1, -1
      (which an assertion refuses) and -2^63 (whose negation overflows).  nir_opt_idiv_const preserves the value of
      each instruction, except for the least integer divided by -1, and so does nir_lower_int64, except for that, for
      zero divisors and for bytes, words and bit fields outside of what the constant expressions of the opcodes look
      at ([alu64_ok]).
    - Control flow: the iteration of the dominance analysis terminates and finds
      exactly the dominators, the dominance frontiers and the unreachable blocks; the
      constant-time queries on its numbering are exact; a lowest common dominator is
      the nearest one; metadata whose flags are set stay valid.  The phi builder puts
      phis at the iterated dominance frontier, and what it returns for a block has, on
      every path to it, the value of the last definition on the path.  Liveness is exactly what may
      be read on some path, and interference is that of SSA form; the set that nir_get_live_defs returns for a cursor is characterised, with
      the values read only by the condition of a following if that it leaves out.  When SSA form is left, values that
      are coalesced never interfere, the linear comparison of two sets finds every interference, and the
      moves that replace a parallel copy have its effect.
    - Containers: a sequence of at most 2^30 operations on a hash table (hash set) is simulated
      by a finite map (a set of keys), through rehashes and deletions, if its allocations succeed.  If
      some fail it still runs, and follows a weaker contract ([map_step], [set_step]) that says when
      entries are lost or an insertion fails.
    - Graphs: a client that prunes heads in any order sees every node of an acyclic graph once, after
      its parents, and the traversal sees it once, after its children; validation finds
      exactly the cycles below the heads.
    - Sparse bitsets: every program with sets in one memory has the results of the same program on
      finite sets, and loses no node; this justifies the finite sets of NirLiveness.v.
    - Queues: the work lists are double-ended queues, through wrap-arounds of the
      ring.  The circular buffers are queues, through moves to larger buffers, exactly if no full buffer has to grow
      while its bytes cross index 2^32 ([vec_safe]), as is so for up to 2^31 bytes in total, or when the
      buffer never needs to grow.
    - Allocators: vma and idalloc return free ranges and numbers and change exactly
      these (a bitmap of idalloc has fewer than 2^27 words; the sparse variant does so while the segment it picks has room, and
      can return a number twice when it has not).  Without a no-span constraint vma fails only if no range is free; with one
      this holds only from the bottom and without a hole at the top of the address space ([alloc_complete]).
    - Trees: insertion and removal succeed on every red-black tree in memory and keep the
      invariant, the order and the augmented data; iteration, also while nodes are
      removed, search and validation are exact; the descents of searches and insertion are logarithmic (the
      walk to the first of several matches is not); interval trees
      refine the sorted list of their intervals, if the starts are less than 2^31 apart.
    - Memory: every allowed sequence of ralloc calls is simulated by the specified
      forest, with the same destructor calls and releases; freeing releases exactly a
      subtree, bottom up; strings grow by concatenation when their blocks move; linear
      allocations never overlap.
    - Buffers: what is written is read back; errors are sticky; overwrites stay in
      bounds.
    - Register allocation: q is exactly the worst-case number of conflicts; building keeps
      the representations of the graph consistent, within the limits stated there (sizes, order of the calls, and
      the q total that a reset leaves behind); simplification terminates; a
      true result of ra_allocate is a valid colouring; every graph that some order of the
      pq test simplifies is coloured, if the fixed registers respect the q values ([forced_within_q]); stored register sets are read back.

    The theorems that state where code and documentation differ are listed as
    findings in the manifest; they are evaluated examples.

    ** Bounds and fuel

    Loops that are not structural take fuel: the doubling loop of the magic numbers
    (its bound is the width), the probing loops (the size of the table: the step is
    coprime to the prime size, so every slot is visited), and the simplification loop
    (one more than the number of nodes), and the loops of the red-black trees (one more
    than the number of cells in memory; likewise the loops of ralloc), and the loops of the
    dominance analysis (climbing: one more than the number of blocks; rounds: two more,
    since a path without repetition retreats less often than there are blocks; the phi builder: one more than the number of
    blocks for its work list, two more for the crawls up the dominance tree and for finishing).  Its keys are
    32 bits wide, so that its theorems are about functions of at most 2^30 blocks.  The traversal of
    a graph takes one more round than there are nodes (each round visits one), and its
    descents and the recursion of the validation are as deep as a path without repetition.  The liveness
    analysis visits each block at most once more than values become live at its end.  Resolving a
    parallel copy takes two more rounds than there are copies, and each round fills at most every value.  Iterating over
    a sparse bitset takes at most one round for each bit of its nodes.  In each
    case a theorem shows that this fuel is enough.  Table sizes and counts are bounded by 32-bit types as in the code.

    ** Not modelled

    Spill heuristics (floating point), the float conversions and the subgroup
    intrinsics of nir_lower_int64, of the pass out of SSA form the insertion of the copies that isolate phis
    and the rewriting of uses, the ralloc contexts of sparse bitsets, and the rest of the repository: drivers, front
    ends, the GL state machine, window systems, caches, formats, generated and bundled
    code.  They are input/output, hardware protocols, or large translations whose
    specifications are outside the repository.  The
    garbage-collected contexts of ralloc, the slab and sparse-array allocators, the
    remap ranges of util and the conversions of half floats are not modelled either. *)

From Stdlib Require Import ZArith Lia.
From stdpp Require Import base list gmap numbers option.

Declare Scope c_scope.
Delimit Scope c_scope with C.
Local Open Scope Z_scope.

(** ** Machine words *)

(** [wrap w z] is the value a [w]-bit unsigned C object holds after [z] is stored. *)
Definition wrap (w z : Z) : Z := z mod 2 ^ w.

Definition u32 (z : Z) : Z := wrap 32 z.
Definition u64 (z : Z) : Z := wrap 64 z.

(** [signed w z]: the two's-complement value of the [w]-bit pattern [z]. *)
Definition signed (w z : Z) : Z := if z >=? 2 ^ (w - 1) then z - 2 ^ w else z.

(** [fits w z]: [z] is a value of a [w]-bit unsigned type. *)
Definition fits (w z : Z) : Prop := 0 <= z < 2 ^ w.

(** The macros of util/macros.h on values that are already of the C type. *)
Definition MAX2 (a b : Z) : Z := if a >? b then a else b.
Definition MIN2 (a b : Z) : Z := if a <? b then a else b.
Definition IS_POT64 (v : Z) : bool := Z.land v (u64 (v - 1)) =? 0.

Definition UINT64_MAX : Z := 2 ^ 64 - 1.
Definition UINT32_MAX : Z := 2 ^ 32 - 1.
Definition BITFIELD64_BIT (b : Z) : Z := u64 (Z.shiftl 1 b).
Definition BITFIELD64_MASK (b : Z) : Z :=
  if b =? 64 then UINT64_MAX else u64 (u64 (Z.shiftl 1 (Z.land b 63)) - 1).

(** [~x] on 64-bit and 32-bit unsigned operands. *)
Definition not64 (x : Z) : Z := Z.lxor x UINT64_MAX.
Definition not32 (x : Z) : Z := Z.lxor x UINT32_MAX.

(** The number of words of a bitset *)
Definition BITSET_WORDS (bits : Z) : Z := (bits + 31) / 32.

(** ** Assertions

    An operation of the C code that can trip an [assert] returns [None] in that
    case; the notation sequences a check before the rest of the body. *)
Notation "'assert!' b ';;' k" := (if (b : bool) then k else None)
  (at level 100, b at level 99, k at level 200, right associativity,
   format "'assert!'  b  ';;' '//' k") : c_scope.
Open Scope c_scope.

(** util/u_math.h *)
Definition align64 (value alignment : Z) : option Z :=
  assert! negb (alignment =? 0) && IS_POT64 alignment ;;
  Some (Z.land (u64 (u64 (value + alignment) - 1)) (not64 (u64 (alignment - 1)))).

(** ** Tactics *)

(** Split the condition of an [if] or the scrutinee of a [match], keeping the equation. *)
Ltac case_if_eqn :=
  match goal with
  | |- context [if ?b then _ else _] => let E := fresh "E" in destruct b eqn:E
  end.

Ltac case_hyp_if :=
  match goal with
  | H : context [if ?b then _ else _] |- _ => let E := fresh "E" in destruct b eqn:E
  end.

(** Turn an equation between boolean tests on [Z] into the propositions it stands for. *)
Ltac zbool :=
  repeat match goal with
  | H : (_ <? _) = true |- _ => apply Z.ltb_lt in H
  | H : (_ <? _) = false |- _ => apply Z.ltb_ge in H
  | H : (_ <=? _) = true |- _ => apply Z.leb_le in H
  | H : (_ <=? _) = false |- _ => apply Z.leb_gt in H
  | H : (_ >? _) = true |- _ => rewrite Z.gtb_ltb in H
  | H : (_ >? _) = false |- _ => rewrite Z.gtb_ltb in H
  | H : (_ >=? _) = true |- _ => rewrite Z.geb_leb in H
  | H : (_ >=? _) = false |- _ => rewrite Z.geb_leb in H
  | H : (_ =? _) = true |- _ => apply Z.eqb_eq in H
  | H : (_ =? _) = false |- _ => apply Z.eqb_neq in H
  | H : negb _ = true |- _ => apply negb_true_iff in H
  | H : negb _ = false |- _ => apply negb_false_iff in H
  | H : (_ && _)%bool = true |- _ => apply andb_true_iff in H; destruct H
  | H : (_ || _)%bool = false |- _ => apply orb_false_iff in H; destruct H
  end.

(** [lia] for goals with division and remainder by constants. *)
Ltac dlia := Z.div_mod_to_equations; lia.

(** Side conditions: arithmetic and [fits]. *)
Ltac side := first [assumption | lia | unfold fits in *; lia].

(** Discharge the [assert!]s of the goal with [tac]. *)
Ltac passert tac :=
  repeat match goal with
  | |- context [if ?b then _ else None] =>
      let E := fresh "E" in
      assert (b = true) as E by tac; rewrite E; clear E; cbv iota
  end.

(** ** Lemmas on machine words *)

Create HintDb words.
Create Rewrite HintDb words.

Lemma wrap_small w z : fits w z -> wrap w z = z.
Proof. intros H. apply Z.mod_small, H. Qed.

Lemma wrap_fits w z : 0 <= w -> fits w (wrap w z).
Proof. intros. apply Z.mod_pos_bound, Z.pow_pos_nonneg; lia. Qed.

Lemma u64_small z : 0 <= z < 2 ^ 64 -> u64 z = z.
Proof. apply wrap_small. Qed.

Lemma u32_small z : 0 <= z < 2 ^ 32 -> u32 z = z.
Proof. apply wrap_small. Qed.

Lemma u64_fits z : 0 <= u64 z < 2 ^ 64.
Proof. apply wrap_fits. lia. Qed.

Lemma u32_fits z : 0 <= u32 z < 2 ^ 32.
Proof. apply wrap_fits. lia. Qed.

Lemma u64_over z : 2 ^ 64 <= z < 2 * 2 ^ 64 -> u64 z = z - 2 ^ 64.
Proof.
  intros H. unfold u64, wrap. symmetry.
  apply Z.mod_unique_pos with 1; lia.
Qed.

Lemma u32_over z : 2 ^ 32 <= z < 2 * 2 ^ 32 -> u32 z = z - 2 ^ 32.
Proof.
  intros H. unfold u32, wrap. symmetry.
  apply Z.mod_unique_pos with 1; lia.
Qed.

#[export] Hint Resolve u64_fits u32_fits : words.

(** [u64_norm] removes the wrap-arounds that the hypotheses show not to happen. *)
Ltac u64_norm :=
  repeat match goal with
  | |- context [u64 ?z] => rewrite (u64_small z) by lia
  | H : context [u64 ?z] |- _ => rewrite (u64_small z) in H by lia
  | |- context [u32 ?z] => rewrite (u32_small z) by lia
  | H : context [u32 ?z] |- _ => rewrite (u32_small z) in H by lia
  end.

Lemma MAX2_max a b : MAX2 a b = Z.max a b.
Proof. unfold MAX2. case_if_eqn; zbool; lia. Qed.

Lemma MIN2_min a b : MIN2 a b = Z.min a b.
Proof. unfold MIN2. case_if_eqn; zbool; lia. Qed.

#[export] Hint Rewrite MAX2_max MIN2_min : words.

(** *** Powers of two *)

Lemma pow2_pos k : 0 <= k -> 0 < 2 ^ k.
Proof. intros. apply Z.pow_pos_nonneg; lia. Qed.

Lemma pow2_le a b : 0 <= a <= b -> 2 ^ a <= 2 ^ b.
Proof. intros. apply Z.pow_le_mono_r; lia. Qed.

Lemma pow2_lt a b : 0 <= a < b -> 2 ^ a < 2 ^ b.
Proof. intros. apply Z.pow_lt_mono_r; lia. Qed.

Lemma pow2_add a b : 0 <= a -> 0 <= b -> 2 ^ (a + b) = 2 ^ a * 2 ^ b.
Proof. intros. apply Z.pow_add_r; lia. Qed.

Lemma pow2_succ a : 0 <= a -> 2 ^ (a + 1) = 2 * 2 ^ a.
Proof. intros. rewrite pow2_add by lia. lia. Qed.

#[export] Hint Resolve pow2_pos : words.

(** [v & (v - 1)] clears the lowest set bit: it is zero exactly for zero and
    the powers of two. *)
Lemma land_pred_pow2 k : 0 <= k -> Z.land (2 ^ k) (2 ^ k - 1) = 0.
Proof.
  intros. replace (2 ^ k - 1) with (Z.ones k) by (rewrite Z.ones_equiv; lia).
  rewrite Z.land_ones by lia. apply Z.mod_same. pose proof (pow2_pos k). lia.
Qed.

Lemma land_pred_not_pow2 v :
  0 < v -> Z.land v (v - 1) = 0 -> v = 2 ^ Z.log2 v.
Proof.
  intros Hv H.
  destruct (Z.log2_spec v Hv) as [Hlo Hhi].
  destruct (Z.eq_dec v (2 ^ Z.log2 v)) as [|Hne]; [done|exfalso].
  assert (Hl : 0 <= Z.log2 v) by apply Z.log2_nonneg.
  assert (Z.log2 (v - 1) = Z.log2 v) as Hlog.
  { apply Z.log2_unique; lia. }
  assert (Z.testbit (Z.land v (v - 1)) (Z.log2 v) = true) as Hb.
  { rewrite Z.land_spec, Z.bit_log2 by lia.
    rewrite <- Hlog at 1. apply Z.bit_log2. rewrite <- Hlog in Hlo.
    destruct (Z.eq_dec v 1) as [->|]; [|lia]. cbn in Hne. lia. }
  rewrite H, Z.testbit_0_l in Hb. done.
Qed.

Lemma IS_POT64_spec v : 0 < v < 2 ^ 64 -> IS_POT64 v = true <-> v = 2 ^ Z.log2 v.
Proof.
  intros Hv. unfold IS_POT64. rewrite u64_small, Z.eqb_eq by lia. split.
  - apply land_pred_not_pow2. lia.
  - intros ->. apply land_pred_pow2, Z.log2_nonneg.
Qed.

Lemma pow2_not_small k : 0 <= k -> 2 ^ k <> 0.
Proof. intros. pose proof (pow2_pos k). lia. Qed.

Lemma shiftl_1 k : 0 <= k -> Z.shiftl 1 k = 2 ^ k.
Proof. intros. rewrite Z.shiftl_mul_pow2 by lia. lia. Qed.

Lemma div_pow2_shiftr x k : 0 <= k -> Z.shiftr x k = x / 2 ^ k.
Proof. apply Z.shiftr_div_pow2. Qed.

Lemma land_1_even x : Z.land x 1 = x mod 2.
Proof. change 1 with (Z.ones 1). rewrite Z.land_ones by lia. done. Qed.

(** *** Modular arithmetic *)

Lemma wrap_wrap_add w a b : 0 <= w -> wrap w (wrap w a + b) = wrap w (a + b).
Proof. intros. apply Zplus_mod_idemp_l. Qed.

Lemma wrap_wrap_mul w a b : 0 <= w -> wrap w (wrap w a * b) = wrap w (a * b).
Proof. intros. apply Zmult_mod_idemp_l. Qed.

(** A quotient is determined by bounds on the dividend. *)
Lemma div_between a b q : 0 < b -> q * b <= a < (q + 1) * b -> a / b = q.
Proof. intros Hb H. symmetry. apply Z.div_unique with (a - q * b); lia. Qed.

(** Truncated division in terms of absolute values. *)
Lemma quot_abs n d :
  d <> 0 ->
  Z.quot n d =
  (if Bool.eqb (n <? 0) (d <? 0) then Z.abs n / Z.abs d else - (Z.abs n / Z.abs d)).
Proof.
  intros Hd. destruct (Z.ltb_spec n 0), (Z.ltb_spec d 0); cbn [Bool.eqb].
  - rewrite <- (Z.opp_involutive n), <- (Z.opp_involutive d) at 1.
    rewrite Z.quot_opp_opp, Z.quot_div_nonneg by lia. f_equal; lia.
  - rewrite <- (Z.opp_involutive n) at 1.
    rewrite Z.quot_opp_l, Z.quot_div_nonneg by lia. do 2 f_equal; lia.
  - rewrite <- (Z.opp_involutive d) at 1.
    rewrite Z.quot_opp_r, Z.quot_div_nonneg by lia. do 2 f_equal; lia.
  - rewrite Z.quot_div_nonneg by lia. f_equal; lia.
Qed.

(** *** Two's complement *)

Lemma pow2_half w : 1 <= w -> 2 ^ w = 2 * 2 ^ (w - 1).
Proof. intros. rewrite <- pow2_succ by lia. f_equal. lia. Qed.

Lemma signed_range w a : 1 <= w -> fits w a -> - 2 ^ (w - 1) <= signed w a < 2 ^ (w - 1).
Proof.
  intros Hw Ha. unfold signed, fits in *. rewrite (pow2_half w) in * by lia.
  case_if_eqn; zbool; lia.
Qed.

Lemma wrap_signed w a : 1 <= w -> fits w a -> wrap w (signed w a) = a.
Proof.
  intros Hw Ha. unfold signed, fits, wrap in *. case_if_eqn; [|apply Z.mod_small; lia].
  symmetry. apply Z.mod_unique_pos with (-1); lia.
Qed.

Lemma signed_wrap w s : 1 <= w -> - 2 ^ (w - 1) <= s < 2 ^ (w - 1) -> signed w (wrap w s) = s.
Proof.
  intros Hw Hs. unfold signed, wrap. pose proof (pow2_half w Hw).
  destruct (Z_lt_le_dec s 0).
  - replace (s mod 2 ^ w) with (s + 2 ^ w) by (apply Z.mod_unique_pos with (-1); lia).
    case_if_eqn; zbool; lia.
  - rewrite Z.mod_small by lia. case_if_eqn; zbool; lia.
Qed.

Lemma signed_eq_min w a : 1 <= w -> fits w a -> signed w a = - 2 ^ (w - 1) <-> a = 2 ^ (w - 1).
Proof.
  intros Hw Ha. unfold signed, fits in *. pose proof (pow2_half w Hw).
  case_if_eqn; zbool; lia.
Qed.

Lemma wrap_eq w a b : 0 <= w -> (exists k, a = b + k * 2 ^ w) -> wrap w a = wrap w b.
Proof. intros Hw [k ->]. apply Z.mod_add. pose proof (pow2_pos w). lia. Qed.

Lemma wrap_wrap_sub_r w a b : 0 <= w -> wrap w (a - wrap w b) = wrap w (a - b).
Proof. intros. apply Zminus_mod_idemp_r. Qed.

Lemma wrap_idem w a : 0 <= w -> wrap w (wrap w a) = wrap w a.
Proof. intros. apply wrap_small, wrap_fits. done. Qed.

(** Truncating twice is truncating to the smaller width. *)
Lemma wrap_wrap_le v w a : 0 <= v <= w -> wrap v (wrap w a) = wrap v a.
Proof.
  intros H. unfold wrap. replace w with (v + (w - v)) by lia.
  rewrite pow2_add by lia. apply Z.mod_mod_divide.
  exists (2 ^ (w - v)). lia.
Qed.

(** Masking with [2^w - 2^k] keeps the bits from [k] on. *)
Lemma land_high_mask w k a :
  0 <= k <= w -> fits w a -> Z.land a (2 ^ w - 2 ^ k) = a / 2 ^ k * 2 ^ k.
Proof.
  intros Hk Ha.
  assert (Hm : 2 ^ w - 2 ^ k = Z.land (- 2 ^ k) (Z.ones w)).
  { rewrite Z.land_ones by lia. pose proof (pow2_pos k ltac:(lia)). pose proof (pow2_le k w Hk).
    apply Z.mod_unique_pos with (-1); lia. }
  rewrite Hm, (Z.land_comm (- _)), Z.land_assoc, Z.land_ones by lia.
  rewrite (Z.mod_small a) by done.
  replace (- 2 ^ k) with (Z.lnot (Z.ones k)) by (rewrite Z.ones_equiv; unfold Z.lnot; lia).
  rewrite <- Z.ldiff_land, Z.ldiff_ones_r, Z.shiftl_mul_pow2, Z.shiftr_div_pow2 by lia. done.
Qed.

Lemma lor_high_mask w k a :
  0 <= k <= w -> fits w a -> Z.lor a (2 ^ w - 2 ^ k) = 2 ^ w - 2 ^ k + a mod 2 ^ k.
Proof.
  intros Hk Ha. pose proof (Z.add_lor_land a (2 ^ w - 2 ^ k)) as E.
  rewrite (land_high_mask w k a Hk Ha) in E.
  pose proof (Z.div_mod a (2 ^ k) (pow2_not_small k ltac:(lia))). lia.
Qed.

Lemma rem_quot n d : d <> 0 -> Z.rem n d = n - d * Z.quot n d.
Proof. intros. pose proof (Z.quot_rem n d). lia. Qed.

(** [Z.rem] follows the dividend, [Z.modulo] the divisor. *)
Lemma mod_of_rem n d :
  d <> 0 ->
  n mod d = (if (Z.rem n d =? 0) || Bool.eqb (n >=? 0) (d >=? 0) then Z.rem n d else Z.rem n d + d).
Proof.
  intros Hd. pose proof (Z.quot_rem n d Hd) as E. pose proof (Z.rem_bound_abs n d Hd).
  pose proof (Z.rem_sign_nz n d Hd) as Hs.
  destruct (Z.eqb_spec (Z.rem n d) 0) as [E0|E0]; cbn [orb].
  { rewrite E0 in *. rewrite E, Z.add_0_r, Z.mul_comm. apply Z.mod_mul. done. }
  specialize (Hs E0). symmetry.
  destruct (Z.geb_spec n 0), (Z.geb_spec d 0); cbn [Bool.eqb];
    [apply Z.mod_unique with (Z.quot n d)|apply Z.mod_unique with (Z.quot n d - 1)
    |apply Z.mod_unique with (Z.quot n d - 1)|apply Z.mod_unique with (Z.quot n d)]; lia.
Qed.

Lemma mod_opp_divisor n d :
  0 < d -> n mod (- d) = (if n mod d =? 0 then 0 else n mod d - d).
Proof.
  intros Hd. destruct (Z.eqb_spec (n mod d) 0) as [E|E].
  - by apply Z.mod_opp_r_z; [lia|].
  - by apply Z.mod_opp_r_nz; [lia|].
Qed.

(** *** Bit masks *)

Lemma lxor_ones_sub w a : 0 <= w -> fits w a -> Z.lxor a (2 ^ w - 1) = 2 ^ w - 1 - a.
Proof.
  intros Hw Ha. replace (2 ^ w - 1) with (Z.ones w) by (rewrite Z.ones_equiv; lia).
  assert (Hl : Z.land (Z.lxor a (Z.ones w)) a = 0).
  { apply Z.bits_inj'. intros i Hi. rewrite Z.land_spec, Z.lxor_spec, Z.bits_0.
    destruct (Z_lt_le_dec i w).
    - rewrite Z.ones_spec_low by lia. by destruct (Z.testbit a i).
    - rewrite <- (Z.mod_small a (2 ^ w)), Z.mod_pow2_bits_high by (try lia; done).
      by rewrite andb_false_r. }
  pose proof (Z.add_lor_land (Z.lxor a (Z.ones w)) a) as E. rewrite Hl in E.
  assert (Ho : Z.lor (Z.lxor a (Z.ones w)) a = Z.ones w).
  { apply Z.bits_inj'. intros i Hi. rewrite Z.lor_spec, Z.lxor_spec.
    destruct (Z_lt_le_dec i w).
    - rewrite Z.ones_spec_low by lia. by destruct (Z.testbit a i).
    - rewrite Z.ones_spec_high by lia.
      rewrite <- (Z.mod_small a (2 ^ w)), Z.mod_pow2_bits_high by (try lia; done). done. }
  rewrite Ho in E. lia.
Qed.

Lemma not64_sub a : 0 <= a < 2 ^ 64 -> not64 a = 2 ^ 64 - 1 - a.
Proof. intros. apply (lxor_ones_sub 64); [lia|done]. Qed.

Lemma not32_sub a : 0 <= a < 2 ^ 32 -> not32 a = 2 ^ 32 - 1 - a.
Proof. intros. apply (lxor_ones_sub 32); [lia|done]. Qed.

Lemma not32_testbit s j : 0 <= j < 32 -> Z.testbit (not32 s) j = negb (Z.testbit s j).
Proof.
  intros Hj. unfold not32. rewrite Z.lxor_spec. change UINT32_MAX with (Z.ones 32).
  rewrite Z.ones_spec_low by lia. by destruct (Z.testbit s j).
Qed.

Lemma BITFIELD64_MASK_ones b : 0 <= b <= 64 -> BITFIELD64_MASK b = 2 ^ b - 1.
Proof.
  intros Hb. unfold BITFIELD64_MASK, UINT64_MAX. case_if_eqn; zbool; [by subst|].
  change 63 with (Z.ones 6). rewrite Z.land_ones, Z.mod_small by lia.
  pose proof (pow2_lt b 64 ltac:(lia)). pose proof (pow2_pos b ltac:(lia)).
  rewrite shiftl_1, !u64_small by (rewrite ?u64_small by lia; lia). done.
Qed.

(** [x & ~mask]: round down to a multiple of [2^k]. *)
Lemma land_not_mask k a :
  0 <= k <= 64 -> 0 <= a < 2 ^ 64 ->
  Z.land a (not64 (BITFIELD64_MASK k)) = a / 2 ^ k * 2 ^ k.
Proof.
  intros Hk Ha. pose proof (pow2_le k 64 ltac:(lia)). pose proof (pow2_pos k ltac:(lia)).
  rewrite BITFIELD64_MASK_ones, not64_sub by lia.
  replace (2 ^ 64 - 1 - (2 ^ k - 1)) with (2 ^ 64 - 2 ^ k) by lia.
  apply land_high_mask; [lia|done].
Qed.

Lemma last_addr x : 0 < x <= 2 ^ 64 -> u64 (u64 x - 1) = x - 1.
Proof.
  intros. transitivity (u64 (x - 1)); [apply (wrap_wrap_add 64 x (-1)); lia|apply u64_small; lia].
Qed.

Lemma align64_pow2 v k : 0 <= v -> 0 <= k <= 63 -> v + 2 ^ k <= 2 ^ 64 ->
  align64 v (2 ^ k) = Some ((v + 2 ^ k - 1) / 2 ^ k * 2 ^ k).
Proof.
  intros Hv Hk Hb. pose proof (pow2_pos k ltac:(lia)). pose proof (pow2_le k 63 ltac:(lia)). unfold align64.
  rewrite (proj2 (IS_POT64_spec (2 ^ k) ltac:(lia))) by (by rewrite Z.log2_pow2 by lia).
  destruct (Z.eqb_spec (2 ^ k) 0); [lia|]. cbn [negb andb]. rewrite last_addr by lia. f_equal.
  replace (u64 (2 ^ k - 1)) with (BITFIELD64_MASK k) by (rewrite BITFIELD64_MASK_ones, u64_small by lia; done).
  apply land_not_mask; lia.
Qed.

(** A position in a circular buffer *)
Lemma mod_add_wrap a i m : 0 < m -> 0 <= i < m -> (a + i) mod m = if decide (a mod m + i < m) then a mod m + i else a mod m + i - m.
Proof.
  intros Hm Hi. pose proof (Z.mod_pos_bound a m Hm). pose proof (Z.div_mod a m ltac:(lia)).
  destruct (decide _); symmetry; [apply Z.mod_unique_pos with (a / m)|apply Z.mod_unique_pos with (a / m + 1)]; lia.
Qed.

(** One bit of a word *)
Lemma land_pow2_testbit v k : (0 <= k) -> negb (Z.land v (2 ^ k) =? 0) = Z.testbit v k.
Proof.
  intros Hk. destruct (Z.testbit v k) eqn:E.
  - apply negb_true_iff, Z.eqb_neq. intros H. apply (f_equal (fun z => Z.testbit z k)) in H.
    by rewrite Z.land_spec, E, Z.pow2_bits_true, Z.bits_0 in H by done.
  - apply negb_false_iff, Z.eqb_eq. apply Z.bits_inj'. intros j Hj. rewrite Z.land_spec, Z.bits_0, Z.pow2_bits_eqb by done.
    destruct (Z.eqb_spec k j) as [->|]; [by rewrite E|by rewrite andb_false_r].
Qed.

(** ** Sums *)

Lemma sum_insert {A} (f : A -> nat) l i a b : l !! i = Some a ->
  (sum_list_with f (<[i := b]> l) + f a = sum_list_with f l + f b)%nat.
Proof.
  revert i. induction l as [|x l IH]; intros [|i] H; [done..| |].
  { injection H as ->. cbn. lia. }
  specialize (IH i H). change (<[S i := b]> (x :: l)) with (x :: <[i := b]> l). cbn [sum_list_with]. lia.
Qed.

(** ** Loops *)

(** [for] over the elements of a list, threading a state; the body may fail. *)
Fixpoint for_each {A S : Type} (body : A -> S -> option S) (l : list A) (s : S) : option S :=
  match l with
  | [] => Some s
  | x :: l => s ← body x s; for_each body l s
  end.

Lemma for_each_app {A S : Type} (f : A -> S -> option S) l k s : for_each f (l ++ k) s = (for_each f l s) ≫= for_each f k.
Proof. revert s. induction l as [|x l IH]; intros s; cbn; [done|]. destruct (f x s); cbn; [apply IH|done]. Qed.

(** The rule for such a loop: [I] relates the elements already visited to the state. *)
Lemma for_each_rule {A S : Type} (I : list A -> S -> Prop) body l s :
  I [] s ->
  (forall pre x post s, l = pre ++ x :: post -> I pre s -> exists s', body x s = Some s' /\ I (pre ++ [x]) s') ->
  exists s', for_each body l s = Some s' /\ I l s'.
Proof.
  intros H0 Hstep. cut (forall post pre s, l = pre ++ post -> I pre s ->
    exists s', for_each body post s = Some s' /\ I l s').
  { intros H. apply (H l [] s); done. }
  clear H0 s. induction post as [|x post IH]; intros pre s Hl HI; cbn [for_each].
  - rewrite app_nil_r in Hl. subst. eauto.
  - destruct (Hstep pre x post s Hl HI) as (s' & -> & HI'). cbn.
    apply (IH (pre ++ [x])); [by rewrite <- app_assoc|done].
Qed.
