(* ===== verification/FastDiv.v ===== *)
(** * Division and remainder by constants (src/util)

    [fast_idiv_by_const.c]: the magic numbers for unsigned and signed division,
    [fast_idiv_by_const.h]: their 32-bit users, [fast_urem_by_const.h]: the
    remainder used by the hash tables.  Every [uint64_t] computation keeps its
    wrap-around; a loop whose bound is not structural takes fuel, and the
    theorems show that the fuel given here suffices. *)

From Stdlib Require Import ZArith Lia.
From stdpp Require Import base list numbers option.
From S2P Require Import Prelude.
Local Open Scope Z_scope.

(** ** util/u_math.h, util/macros.h *)

(** [util_logbase2_64], the portable branch. *)
Definition util_logbase2_64 (n : Z) : Z :=
  let step (k : Z) (st : Z * Z) :=
    let '(n, pos) := st in
    if n >=? Z.shiftl 1 k then (Z.shiftr n k, pos + k) else (n, pos) in
  let '(n, pos) := step 2 (step 4 (step 8 (step 16 (step 32 (n, 0))))) in
  if n >=? Z.shiftl 1 1 then pos + 1 else pos.

Definition u_uintN_max (bit_size : Z) : Z := Z.shiftr UINT64_MAX (64 - bit_size).

(** [(int64_t)(val << shift) >> shift] with [shift = 64 - width]. *)
Definition util_mask_sign_extend (val width : Z) : option Z :=
  assert! (0 <? width) && (width <=? 64) ;;
  let shift := 64 - width in
  Some (Z.shiftr (signed 64 (u64 (Z.shiftl val shift))) shift).

Definition util_sign_extend (val width : Z) : option Z :=
  assert! (width =? 64) || (val <? u64 (Z.shiftl 1 width)) ;;
  util_mask_sign_extend val width.

(** ** Unsigned division: [util_compute_fast_udiv_info] *)

Record util_fast_udiv_info := UdivInfo {
  multiplier : Z;
  pre_shift : Z;
  post_shift : Z;
  increment : Z;
}.

(** [for (tmp = D; tmp > 0; tmp >>= 1) ceil_log_2_D += 1;] *)
Fixpoint ceil_log_2_loop (fuel : nat) (tmp acc : Z) : Z :=
  match fuel with
  | O => acc
  | S fuel => if tmp >? 0 then ceil_log_2_loop fuel (Z.shiftr tmp 1) (acc + 1) else acc
  end.

(** The variables the exponent search updates. *)
Record udiv_search := UdivSearch {
  us_exponent : Z;
  us_quotient : Z;
  us_remainder : Z;
  us_down_multiplier : Z;
  us_down_exponent : Z;
  us_has_magic_down : bool;
}.

(** The head of the loop body: quotient and remainder for the next exponent. *)
Definition udiv_double (D : Z) (q r : Z) : Z * Z :=
  if r >=? u64 (D - r)
  then (u64 (q * 2 + 1), u64 (r * 2 - D))
  else (u64 (q * 2), u64 (r * 2)).

(** The loop [for (exponent = 0; ; exponent++)]; [None] when the fuel runs out. *)
Fixpoint udiv_search_loop (fuel : nat) (D extra_shift ceil_log_2_D : Z)
    (st : udiv_search) : option udiv_search :=
  match fuel with
  | O => None
  | S fuel =>
      let '(quotient, remainder) := udiv_double D (us_quotient st) (us_remainder st) in
      let e := us_exponent st in
      if (u32 (e + extra_shift) >=? ceil_log_2_D)
         || (u64 (D - remainder) <=? u64 (Z.shiftl 1 (u32 (e + extra_shift))))
      then Some (UdivSearch e quotient remainder
                   (us_down_multiplier st) (us_down_exponent st) (us_has_magic_down st))
      else
        let set_down := negb (us_has_magic_down st)
                        && (remainder <=? u64 (Z.shiftl 1 (u32 (e + extra_shift)))) in
        udiv_search_loop fuel D extra_shift ceil_log_2_D
          (UdivSearch (e + 1) quotient remainder
             (if set_down then quotient else us_down_multiplier st)
             (if set_down then e else us_down_exponent st)
             (if set_down then true else us_has_magic_down st))
  end.

(** [while ((shifted_D & 1) == 0) { shifted_D >>= 1; pre_shift += 1; }] *)
Fixpoint shift_out_twos (fuel : nat) (shifted_D pre : Z) : Z * Z :=
  match fuel with
  | O => (shifted_D, pre)
  | S fuel =>
      if Z.land shifted_D 1 =? 0
      then shift_out_twos fuel (Z.shiftr shifted_D 1) (pre + 1)
      else (shifted_D, pre)
  end.

(** The function itself; [depth] bounds the self-call of the even branch. *)
Fixpoint udiv_info_rec (depth : nat) (D num_bits UINT_BITS : Z)
    : option util_fast_udiv_info :=
  match depth with
  | O => None
  | S depth =>
      assert! (0 <? num_bits) && (num_bits <=? UINT_BITS) ;;
      assert! negb (D =? 0) ;;
      if IS_POT64 D then
        let div_shift := util_logbase2_64 D in
        if negb (div_shift =? 0)
        then Some (UdivInfo (u64 (Z.shiftl 1 (UINT_BITS - div_shift))) 0 0 0)
        else Some (UdivInfo (u_uintN_max UINT_BITS) 0 0 1)
      else
        let extra_shift := u32 (UINT_BITS - num_bits) in
        let initial_power_of_2 := u64 (Z.shiftl 1 (UINT_BITS - 1)) in
        let ceil_log_2_D := ceil_log_2_loop 64 D 0 in
        res ← udiv_search_loop 66 D extra_shift ceil_log_2_D
                (UdivSearch 0 (initial_power_of_2 / D) (initial_power_of_2 mod D) 0 0 false);
        if us_exponent res <? ceil_log_2_D then
          Some (UdivInfo (u64 (us_quotient res + 1)) 0 (us_exponent res) 0)
        else if negb (Z.land D 1 =? 0) then
          assert! us_has_magic_down res ;;
          Some (UdivInfo (us_down_multiplier res) 0 (us_down_exponent res) 1)
        else
          let '(shifted_D, pre) := shift_out_twos 64 D 0 in
          result ← udiv_info_rec depth shifted_D (u32 (num_bits - pre)) UINT_BITS;
          assert! (increment result =? 0) && (pre_shift result =? 0) ;;
          Some (UdivInfo (multiplier result) pre (post_shift result) (increment result))
  end.

Definition util_compute_fast_udiv_info (D num_bits UINT_BITS : Z) : option util_fast_udiv_info :=
  udiv_info_rec 2 D num_bits UINT_BITS.

(** ** The 32-bit users of fast_idiv_by_const.h *)

Definition util_fast_udiv32 (n : Z) (info : util_fast_udiv_info) : Z :=
  let n := Z.shiftr n (pre_shift info) in
  let n := u32 (Z.shiftr (u64 (u64 (n + increment info) * multiplier info)) 32) in
  Z.shiftr n (post_shift info).

Definition util_fast_udiv32_nuw (n : Z) (info : util_fast_udiv_info) : option Z :=
  assert! negb (n =? 2 ^ 32 - 1) ;;
  let n := Z.shiftr n (pre_shift info) in
  let n := u32 (n + increment info) in
  let n := u32 (Z.shiftr (u64 (n * multiplier info)) 32) in
  Some (Z.shiftr n (post_shift info)).

Definition util_fast_udiv32_u31_d_not_one (n : Z) (info : util_fast_udiv_info) : option Z :=
  assert! pre_shift info =? 0 ;;
  assert! increment info =? 0 ;;
  let n := u32 (Z.shiftr (u64 (n * multiplier info)) 32) in
  Some (Z.shiftr n (post_shift info)).

(** ** Signed division: [util_compute_fast_sdiv_info] *)

Record util_fast_sdiv_info := SdivInfo {
  s_multiplier : Z;
  s_shift : Z;
}.

(** The variables of the [do ... while] loop. *)
Record sdiv_search := SdivSearch {
  ss_exponent : Z;
  ss_quotient1 : Z;
  ss_remainder1 : Z;
  ss_quotient2 : Z;
  ss_remainder2 : Z;
}.

(** [q *= 2; r *= 2; if (r >= d) { q += 1; r -= d; }] *)
Definition sdiv_double (d q r : Z) : Z * Z :=
  let q := u64 (q * 2) in
  let r := u64 (r * 2) in
  if r >=? d then (u64 (q + 1), u64 (r - d)) else (q, r).

Fixpoint sdiv_search_loop (fuel : nat) (abs_d abs_test_numer : Z) (st : sdiv_search)
    : option sdiv_search :=
  match fuel with
  | O => None
  | S fuel =>
      let exponent := ss_exponent st + 1 in
      let '(quotient1, remainder1) :=
        sdiv_double abs_test_numer (ss_quotient1 st) (ss_remainder1 st) in
      let '(quotient2, remainder2) :=
        sdiv_double abs_d (ss_quotient2 st) (ss_remainder2 st) in
      let delta := u64 (abs_d - remainder2) in
      let st := SdivSearch exponent quotient1 remainder1 quotient2 remainder2 in
      if (quotient1 <? delta) || ((quotient1 =? delta) && (remainder1 =? 0))
      then sdiv_search_loop fuel abs_d abs_test_numer st
      else Some st
  end.

Definition util_compute_fast_sdiv_info (D SINT_BITS : Z) : option util_fast_sdiv_info :=
  assert! negb (D =? 0) ;;
  assert! negb (D =? 1) && negb (D =? -1) ;;
  let abs_d := u64 (if D <? 0 then - D else D) in
  let exponent := SINT_BITS - 1 in
  let initial_power_of_2 := u64 (Z.shiftl 1 exponent) in
  let tmp := u64 (initial_power_of_2 + (if D <? 0 then 1 else 0)) in
  let abs_test_numer := u64 (tmp - 1 - tmp mod abs_d) in
  res ← sdiv_search_loop 64 abs_d abs_test_numer
          (SdivSearch exponent
             (initial_power_of_2 / abs_test_numer) (initial_power_of_2 mod abs_test_numer)
             (initial_power_of_2 / abs_d) (initial_power_of_2 mod abs_d));
  m ← util_sign_extend (u64 (ss_quotient2 res + 1)) SINT_BITS;
  Some (SdivInfo (if D <? 0 then - m else m) (ss_exponent res - SINT_BITS)).

(** ** Remainder: fast_urem_by_const.h *)

Definition REMAINDER_MAGIC (divisor : Z) : Z := u64 (UINT64_MAX / divisor + 1).

(** The branch without [__uint128_t]. *)
Definition _mul32by64_hi (a b : Z) : Z :=
  let b0 := u32 b in
  let b1 := u32 (Z.shiftr b 32) in
  u32 (Z.shiftr (u64 (Z.shiftr (u64 (a * b0)) 32 + u64 (a * b1))) 32).

(** The branch with [__uint128_t]. *)
Definition _mul32by64_hi_u128 (a b : Z) : Z := u32 (Z.shiftr (wrap 128 (b * a)) 64).

Definition util_fast_urem32 (n d magic : Z) : Z :=
  let lowbits := u64 (magic * n) in
  _mul32by64_hi d lowbits.
(** * Proofs: unsigned division *)

Lemma logbase2_step n k pos st :
  0 < n -> 0 < k ->
  st = (if n >=? Z.shiftl 1 k then (Z.shiftr n k, pos + k) else (n, pos)) ->
  0 < fst st /\ Z.log2 (fst st) + snd st = Z.log2 n + pos
  /\ (Z.log2 n < 2 * k -> Z.log2 (fst st) < k).
Proof.
  intros Hn Hk ->. rewrite shiftl_1 by lia. case_if_eqn; zbool; cbn [fst snd].
  - assert (k <= Z.log2 n) by (apply Z.log2_le_pow2; lia).
    rewrite Z.log2_shiftr by lia.
    rewrite Z.shiftr_div_pow2 by lia. repeat split; [|lia|lia].
    apply Z.div_str_pos. pose proof (pow2_pos k). lia.
  - assert (Z.log2 n < k) by (apply Z.log2_lt_pow2; lia). lia.
Qed.

Lemma util_logbase2_64_log2 n : 0 < n < 2 ^ 64 -> util_logbase2_64 n = Z.log2 n.
Proof.
  intros Hn. unfold util_logbase2_64.
  assert (H0 : Z.log2 n < 64) by (apply Z.log2_lt_pow2; lia).
  destruct (logbase2_step n 32 0 _ ltac:(lia) ltac:(lia) eq_refl) as (P1 & E1 & L1).
  destruct (if n >=? _ then _ else _) as [n1 p1]; cbn [fst snd] in *.
  destruct (logbase2_step n1 16 p1 _ ltac:(lia) ltac:(lia) eq_refl) as (P2 & E2 & L2).
  destruct (if n1 >=? _ then _ else _) as [n2 p2]; cbn [fst snd] in *.
  destruct (logbase2_step n2 8 p2 _ ltac:(lia) ltac:(lia) eq_refl) as (P3 & E3 & L3).
  destruct (if n2 >=? _ then _ else _) as [n3 p3]; cbn [fst snd] in *.
  destruct (logbase2_step n3 4 p3 _ ltac:(lia) ltac:(lia) eq_refl) as (P4 & E4 & L4).
  destruct (if n3 >=? _ then _ else _) as [n4 p4]; cbn [fst snd] in *.
  destruct (logbase2_step n4 2 p4 _ ltac:(lia) ltac:(lia) eq_refl) as (P5 & E5 & L5).
  destruct (if n4 >=? _ then _ else _) as [n5 p5]; cbn [fst snd] in *.
  pose proof (Z.log2_nonneg n5).
  change (Z.shiftl 1 1) with 2. case_if_eqn; zbool.
  - assert (1 <= Z.log2 n5) by (apply Z.log2_le_pow2; lia). lia.
  - assert (n5 = 1) as -> by lia. change (Z.log2 1) with 0 in *. lia.
Qed.

(** The arithmetic of the "round up" magic number: [m] is at most one off
    [P / D], and [n] is small enough for the error not to reach the quotient. *)
Lemma magic_up P D m n delta :
  0 < D -> 0 <= n -> 0 < P -> 0 <= delta ->
  m * D = P + delta -> n * delta < P -> (m * n) / P = n / D.
Proof.
  intros HD Hn HP Hd Hm Hb. apply div_between; [lia|].
  pose proof (Z.div_mod n D ltac:(lia)) as E.
  pose proof (Z.mod_pos_bound n D HD) as B.
  set (q := n / D) in *. set (s := n mod D) in *.
  assert (D * (m * n - q * P) = s * P + n * delta) by nia.
  split; apply (Z.mul_le_mono_pos_l _ _ D) || apply (Z.mul_lt_mono_pos_l D); nia.
Qed.

(** The "round down" magic number, applied to the incremented dividend. *)
Lemma magic_down P D m n r :
  0 < D -> 0 <= n -> 0 < P -> 0 < r ->
  m * D = P - r -> (n + 1) * r <= P -> (m * (n + 1)) / P = n / D.
Proof.
  intros HD Hn HP Hr Hm Hb. apply div_between; [lia|].
  pose proof (Z.div_mod n D ltac:(lia)) as E.
  pose proof (Z.mod_pos_bound n D HD) as B.
  set (q := n / D) in *. set (s := n mod D) in *.
  assert (D * (m * (n + 1) - q * P) = (s + 1) * P - (n + 1) * r) by nia.
  split; apply (Z.mul_le_mono_pos_l _ _ D) || apply (Z.mul_lt_mono_pos_l D); nia.
Qed.

(** The same magic number without the increment, when the dividend is not a
    multiple of [D]: what a saturating increment computes at the maximum. *)
Lemma magic_down_sat P D m n r :
  0 < D -> 0 <= n -> 0 < P -> 0 < r ->
  m * D = P - r -> n * r <= P -> n mod D <> 0 -> (m * n) / P = n / D.
Proof.
  intros HD Hn HP Hr Hm Hb Hs. apply div_between; [lia|].
  pose proof (Z.div_mod n D ltac:(lia)) as E.
  pose proof (Z.mod_pos_bound n D HD) as B.
  set (q := n / D) in *. set (s := n mod D) in *.
  assert (D * (m * n - q * P) = s * P - n * r) by nia.
  assert (0 < n) by (destruct (Z.eq_dec n 0) as [->|]; [unfold s in Hs; rewrite Z.mod_0_l in Hs |]; lia).
  assert (0 < n * r) by nia.
  split; apply (Z.mul_le_mono_pos_l _ _ D) || apply (Z.mul_lt_mono_pos_l D); nia.
Qed.

(** Doubling a quotient and its remainder. *)
Lemma udiv_double_spec D X :
  0 < D < 2 ^ 64 -> 0 <= X ->
  udiv_double D (u64 (X / D)) (X mod D) = (u64 (2 * X / D), (2 * X) mod D).
Proof.
  intros HD HX. unfold udiv_double.
  pose proof (Z.div_mod X D ltac:(lia)) as E.
  pose proof (Z.mod_pos_bound X D ltac:(lia)) as B.
  set (q := X / D) in *. set (r := X mod D) in *.
  rewrite (u64_small (D - r)) by lia.
  case_if_eqn; zbool.
  - assert (2 * X / D = 2 * q + 1) as -> by (apply div_between; nia).
    assert ((2 * X) mod D = 2 * r - D) as ->
      by (symmetry; apply Z.mod_unique_pos with (2 * q + 1); nia).
    rewrite (u64_small (r * 2 - D)) by lia. unfold u64.
    rewrite <- wrap_wrap_add, wrap_wrap_mul, wrap_wrap_add by lia.
    f_equal; [f_equal; lia|lia].
  - assert (2 * X / D = 2 * q) as -> by (apply div_between; nia).
    assert ((2 * X) mod D = 2 * r) as ->
      by (symmetry; apply Z.mod_unique_pos with (2 * q); nia).
    rewrite (u64_small (r * 2)) by lia. unfold u64. rewrite wrap_wrap_mul by lia.
    f_equal; [f_equal; lia|lia].
Qed.

Lemma ceil_log_2_loop_spec fuel tmp acc :
  0 <= tmp -> tmp < 2 ^ Z.of_nat fuel ->
  ceil_log_2_loop fuel tmp acc = acc + (if tmp =? 0 then 0 else Z.log2 tmp + 1).
Proof.
  revert tmp acc. induction fuel as [|fuel IH]; intros tmp acc H0 Hlt.
  - cbn in *. replace tmp with 0 by lia. cbn. lia.
  - cbn [ceil_log_2_loop]. case_if_eqn; zbool.
    + rewrite Nat2Z.inj_succ, Z.pow_succ_r in Hlt by lia.
      rewrite Z.shiftr_div_pow2 by lia. change (2 ^ 1) with 2.
      rewrite IH by (try apply Z.div_pos; try apply Z.div_lt_upper_bound; lia).
      destruct (Z.eqb_spec tmp 0); [lia|].
      destruct (Z.eqb_spec (tmp / 2) 0) as [Hz|Hz].
      * assert (tmp = 1) as -> by dlia. cbn. lia.
      * replace (tmp / 2) with (Z.shiftr tmp 1) by (rewrite Z.shiftr_div_pow2 by lia; done).
        rewrite Z.log2_shiftr by lia.
        assert (1 <= Z.log2 tmp) by (apply Z.log2_le_pow2; dlia). lia.
    + replace tmp with 0 by lia. cbn. lia.
Qed.

Section udiv_search_facts.
Context (N D extra L : Z).
Hypothesis (HN : 1 <= N <= 64) (HD : 1 < D < 2 ^ N) (HL : L = Z.log2 D + 1)
  (Hextra : 0 <= extra <= N).

Let rem_at (k : Z) : Z := 2 ^ (N + k) mod D.
Let quo_at (k : Z) : Z := 2 ^ (N + k) / D.

(** What holds at the top of the loop for exponent [e]. *)
Record search_inv (st : udiv_search) : Prop := {
  si_exp : 0 <= us_exponent st;
  si_quo : us_quotient st = u64 (2 ^ (N - 1 + us_exponent st) / D);
  si_rem : us_remainder st = 2 ^ (N - 1 + us_exponent st) mod D;
  si_fail : forall k, 0 <= k < us_exponent st ->
    k + extra < L /\ 2 ^ (k + extra) < D - rem_at k;
  si_down : us_has_magic_down st = true ->
    0 <= us_down_exponent st < us_exponent st
    /\ us_down_multiplier st = u64 (quo_at (us_down_exponent st))
    /\ rem_at (us_down_exponent st) <= 2 ^ (us_down_exponent st + extra);
  si_no_down : us_has_magic_down st = false ->
    forall k, 0 <= k < us_exponent st -> 2 ^ (k + extra) < rem_at k;
}.

(** What holds after the [break]. *)
Record search_post (st : udiv_search) : Prop := {
  sp_exp : 0 <= us_exponent st;
  sp_quo : us_quotient st = u64 (quo_at (us_exponent st));
  sp_stop : L <= us_exponent st + extra \/ D - rem_at (us_exponent st) <= 2 ^ (us_exponent st + extra);
  sp_fail : forall k, 0 <= k < us_exponent st ->
    k + extra < L /\ 2 ^ (k + extra) < D - rem_at k;
  sp_down : us_has_magic_down st = true ->
    0 <= us_down_exponent st < us_exponent st
    /\ us_down_multiplier st = u64 (quo_at (us_down_exponent st))
    /\ rem_at (us_down_exponent st) <= 2 ^ (us_down_exponent st + extra);
  sp_no_down : us_has_magic_down st = false ->
    forall k, 0 <= k < us_exponent st -> 2 ^ (k + extra) < rem_at k;
}.

Lemma search_L_range : 1 <= L <= 64.
Proof.
  assert (Z.log2 D < N) by (apply Z.log2_lt_pow2; lia).
  pose proof (Z.log2_nonneg D). lia.
Qed.

Lemma search_D64 : 0 < D < 2 ^ 64.
Proof. pose proof (pow2_le N 64). lia. Qed.

(** Splitting the range of exponents already tried at its last element. *)
Lemma search_extend (P : Z -> Prop) e :
  0 <= e -> (forall k, 0 <= k < e -> P k) -> P e -> forall k, 0 <= k < e + 1 -> P k.
Proof. intros He H1 H2 k Hk. destruct (Z.eq_dec k e) as [->|]; [done|apply H1; lia]. Qed.

Lemma udiv_search_loop_spec fuel st :
  search_inv st -> us_exponent st <= L -> L - us_exponent st < Z.of_nat fuel ->
  exists res, udiv_search_loop fuel D extra L st = Some res /\ search_post res.
Proof.
  pose proof search_L_range as HLr. pose proof search_D64 as HD64.
  revert st. induction fuel as [|fuel IH]; intros st [He Hq Hr Hf Hd Hnd] Hle Hfuel; [lia|].
  cbn [udiv_search_loop]. set (e := us_exponent st) in *.
  rewrite Hq, Hr, udiv_double_spec by (try apply Z.pow_nonneg; lia).
  rewrite <- Z.pow_succ_r by lia.
  replace (Z.succ (N - 1 + e)) with (N + e) by lia.
  change (2 ^ (N + e) mod D) with (rem_at e). change (2 ^ (N + e) / D) with (quo_at e).
  assert (Hrem : 0 <= rem_at e < D) by (apply Z.mod_pos_bound; lia).
  rewrite (u32_small (e + extra)) by lia.
  rewrite (u64_small (D - rem_at e)) by lia.
  destruct (Z.geb_spec (e + extra) L) as [Hge|Hlt]; cbn [orb].
  { eexists; split; [done|]. constructor; cbn; auto. }
  rewrite shiftl_1 by lia.
  assert (Hp : 2 ^ (e + extra) < 2 ^ 64) by (apply pow2_lt; lia).
  pose proof (pow2_pos (e + extra)).
  rewrite (u64_small (2 ^ (e + extra))) by lia.
  destruct (Z.leb_spec (D - rem_at e) (2 ^ (e + extra))) as [Hst|Hst].
  { eexists; split; [done|]. constructor; cbn; auto. }
  apply IH; cbn [us_exponent]; [|lia|lia].
  assert (Hnext : N - 1 + (e + 1) = N + e) by lia.
  destruct (us_has_magic_down st) eqn:Ehd; cbn [negb andb];
    [|destruct (Z.leb_spec (rem_at e) (2 ^ (e + extra)))];
    constructor; cbn -[Z.pow]; rewrite ?Hnext; try done; try lia;
    try (apply search_extend; by auto).
  - intros _. apply search_extend; auto.
Qed.

Lemma search_initial :
  search_inv (UdivSearch 0 (2 ^ (N - 1) / D) (2 ^ (N - 1) mod D) 0 0 false).
Proof.
  constructor; cbn -[Z.pow]; rewrite ?Z.add_0_r; try done; try lia.
  symmetry. apply u64_small. split; [apply Z.div_pos; [apply Z.pow_nonneg|]; lia|].
  apply Z.le_lt_trans with (2 ^ (N - 1)); [|apply pow2_lt; lia].
  apply Z.div_le_upper_bound; [lia|]. pose proof (pow2_pos (N - 1)). nia.
Qed.
End udiv_search_facts.

(** The code sequence the header documents for the emitted division. *)
Definition udiv_sequence (N : Z) (info : util_fast_udiv_info) (n : Z) : Z :=
  let n := Z.shiftr n (pre_shift info) in
  Z.shiftr (Z.shiftr (multiplier info * (n + increment info)) N) (post_shift info).

(** The contract of the magic numbers for a divisor [D] at width [N], with
    dividends of [nb] bits. *)
Record udiv_info_ok (N nb D : Z) (info : util_fast_udiv_info) : Prop := {
  ui_mult : 0 < multiplier info < 2 ^ N;
  ui_pre : 0 <= pre_shift info < N;
  ui_post : 0 <= post_shift info < N;
  ui_inc : increment info = 0 \/ (increment info = 1 /\ pre_shift info = 0);
  ui_div : forall n, 0 <= n < 2 ^ nb -> udiv_sequence N info n = n / D;
  ui_sat : D <> 1 -> nb = N -> increment info = 1 ->
    Z.shiftr (Z.shiftr (multiplier info * (2 ^ N - 1)) N) (post_shift info) = (2 ^ N - 1) / D;
  ui_small : D <> 1 -> nb < N -> increment info = 0 /\ pre_shift info = 0;
}.

Lemma shiftr_shiftr_div x a b :
  0 <= a -> 0 <= b -> Z.shiftr (Z.shiftr x a) b = x / 2 ^ (a + b).
Proof. intros. rewrite Z.shiftr_shiftr, Z.shiftr_div_pow2 by lia. done. Qed.

Lemma odd_pow2_rem D k : 1 < D -> D mod 2 = 1 -> 0 <= k -> 0 < 2 ^ k mod D.
Proof.
  intros HD Hodd Hk. pose proof (Z.mod_pos_bound (2 ^ k) D ltac:(lia)) as B.
  destruct (Z.eq_dec (2 ^ k mod D) 0) as [E|]; [exfalso|lia].
  apply Z.mod_divide in E; [|lia]. clear B. revert k Hk E.
  apply (natlike_ind (fun k => (D | 2 ^ k) -> False)).
  - intros Hdiv. apply Z.divide_1_r_nonneg in Hdiv; lia.
  - intros k Hk IH HE. rewrite Z.pow_succ_r in HE by lia. apply IH.
    apply Z.gauss with 2; [done|].
    rewrite Z.gcd_comm, <- Z.gcd_mod, Hodd by lia. done.
Qed.

Section udiv_nonpot.
Context (N nb D : Z).
Hypothesis (HN : 1 <= N <= 64) (Hnb : 1 <= nb <= N) (HD : 1 < D < 2 ^ N)
  (Hnpot : D <> 2 ^ Z.log2 D).

Let extra := N - nb.
Let L := Z.log2 D + 1.

Lemma npot_bounds : 2 ^ (L - 1) < D < 2 ^ L /\ 1 <= L <= N.
Proof.
  destruct (Z.log2_spec D ltac:(lia)).
  assert (Z.log2 D < N) by (apply Z.log2_lt_pow2; lia). pose proof (Z.log2_nonneg D).
  unfold L. replace (Z.log2 D + 1 - 1) with (Z.log2 D) by lia.
  replace (Z.log2 D + 1) with (Z.succ (Z.log2 D)) by lia. lia.
Qed.

(** The quotients of the exponents below [L] leave room for the increment. *)
Lemma npot_quo k : 0 <= k < L -> 0 < 2 ^ (N + k) / D < 2 ^ N - 1.
Proof.
  intros Hk. destruct npot_bounds as [HB HLN]. pose proof (pow2_pos k).
  assert (2 ^ k <= 2 ^ (L - 1)) by (apply pow2_le; lia).
  assert (HLN' : 2 ^ (L - 1) <= 2 ^ (N - 1)) by (apply pow2_le; lia).
  assert (E : 2 ^ N = 2 * 2 ^ (N - 1)) by (rewrite <- pow2_succ by lia; f_equal; lia).
  pose proof (pow2_pos N). pose proof (pow2_pos (L - 1)).
  assert (HX : 2 ^ (N + k) = 2 ^ N * 2 ^ k) by (apply pow2_add; lia). split.
  - apply Z.div_str_pos. nia.
  - apply Z.div_lt_upper_bound; [lia|]. rewrite HX.
    assert (1 < L) by (destruct (Z.eq_dec L 1) as [E1|]; [rewrite E1 in HB; cbn in HB|]; lia).
    assert (2 <= 2 ^ (L - 1)) by (pose proof (pow2_le 1 (L - 1)); lia). nia.
Qed.

Lemma npot_up res :
  search_post N D extra L res -> us_exponent res < L ->
  udiv_info_ok N nb D (UdivInfo (u64 (us_quotient res + 1)) 0 (us_exponent res) 0).
Proof.
  intros [He Hq Hst _ _ _] HeL. destruct npot_bounds as [HB HLN].
  set (e := us_exponent res) in *.
  pose proof (npot_quo e ltac:(lia)) as Bq.
  pose proof (pow2_le N 64 ltac:(lia)).
  pose proof (Z.mod_pos_bound (2 ^ (N + e)) D ltac:(lia)) as Br.
  pose proof (Z.div_mod (2 ^ (N + e)) D ltac:(lia)) as E.
  set (quo := 2 ^ (N + e) / D) in *. set (rem := 2 ^ (N + e) mod D) in *.
  rewrite Hq. rewrite (u64_small quo), (u64_small (quo + 1)) by lia.
  assert (Hdelta : D - rem <= 2 ^ (e + extra)).
  { destruct Hst as [Hst|Hst]; [|done].
    pose proof (pow2_le L (e + extra) ltac:(lia)). lia. }
  constructor; cbn; try lia.
  intros n Hn. unfold udiv_sequence; cbn.
  rewrite shiftr_shiftr_div by lia. rewrite Z.add_0_r.
  apply magic_up with (D - rem); try lia.
  apply Z.lt_le_trans with (2 ^ nb * 2 ^ (e + extra)); [nia|].
  rewrite <- pow2_add by lia. apply pow2_le. lia.
Qed.

(** Reaching [L] means that no bits are to spare, and that a round-down number exists. *)
Lemma npot_no_extra res :
  search_post N D extra L res -> L <= us_exponent res -> extra = 0.
Proof.
  intros Hp HeL. destruct npot_bounds. destruct (sp_fail _ _ _ _ _ Hp (L - 1)); lia.
Qed.

Lemma npot_has_down res :
  search_post N D extra L res -> L <= us_exponent res -> us_has_magic_down res = true.
Proof.
  intros Hp HeL. destruct npot_bounds as [HB ?].
  destruct (us_has_magic_down res) eqn:Ed; [done|exfalso].
  pose proof (npot_no_extra res Hp HeL) as Ex.
  destruct (sp_fail _ _ _ _ _ Hp (L - 1) ltac:(lia)) as [_ H1].
  pose proof (sp_no_down _ _ _ _ _ Hp Ed (L - 1) ltac:(lia)) as H2.
  rewrite Ex, Z.add_0_r in *.
  assert (2 ^ L = 2 * 2 ^ (L - 1)) by (rewrite <- pow2_succ by lia; f_equal; lia). lia.
Qed.

Lemma npot_down res :
  D mod 2 = 1 -> search_post N D extra L res -> L <= us_exponent res ->
  udiv_info_ok N nb D (UdivInfo (us_down_multiplier res) 0 (us_down_exponent res) 1).
Proof.
  intros Hodd Hp HeL. destruct npot_bounds as [HB HLN].
  pose proof (npot_has_down res Hp HeL) as Ed.
  pose proof (npot_no_extra res Hp HeL) as Ex. assert (Enb : nb = N) by lia.
  destruct (sp_down _ _ _ _ _ Hp Ed) as (Hk & Hm & Hr).
  assert (HkL : us_down_exponent res < L).
  { destruct (sp_fail _ _ _ _ _ Hp (us_down_exponent res) Hk). lia. }
  set (k := us_down_exponent res) in *. rewrite Ex, Z.add_0_r in Hr.
  pose proof (npot_quo k ltac:(lia)) as Bq. pose proof (pow2_le N 64 ltac:(lia)).
  pose proof (odd_pow2_rem D (N + k) ltac:(lia) Hodd ltac:(lia)) as Hpos.
  pose proof (Z.div_mod (2 ^ (N + k)) D ltac:(lia)) as E.
  rewrite Hm, u64_small by lia.
  set (quo := 2 ^ (N + k) / D) in *. set (rem := 2 ^ (N + k) mod D) in *.
  assert (HX : 2 ^ (N + k) = 2 ^ N * 2 ^ k) by (apply pow2_add; lia).
  pose proof (pow2_pos k ltac:(lia)). pose proof (pow2_pos (N + k) ltac:(lia)).
  constructor; cbn; try lia.
  - intros n Hn. unfold udiv_sequence; cbn. rewrite shiftr_shiftr_div by lia.
    apply magic_down with rem; try lia. rewrite Enb in Hn. nia.
  - intros _ _ _. rewrite shiftr_shiftr_div by lia.
    apply magic_down_sat with rem; try lia; [nia|]. intros Hdiv.
    (* D divides 2^N - 1, so exponent L - 1 would have worked for rounding up *)
    destruct (sp_fail _ _ _ _ _ Hp (L - 1) ltac:(lia)) as [_ Hf].
    rewrite Ex, Z.add_0_r in Hf.
    assert (Hrem : 2 ^ (N + (L - 1)) mod D = 2 ^ (L - 1)).
    { rewrite pow2_add by lia.
      replace (2 ^ N * 2 ^ (L - 1)) with ((2 ^ N - 1) * 2 ^ (L - 1) + 2 ^ (L - 1)) by lia.
      rewrite <- Zplus_mod_idemp_l, <- Zmult_mod_idemp_l, Hdiv by lia.
      rewrite Z.mul_0_l, Zmod_0_l, Z.add_0_l. apply Z.mod_small.
      pose proof (pow2_pos (L - 1)). lia. }
    assert (2 ^ L = 2 * 2 ^ (L - 1)) by (rewrite <- pow2_succ by lia; f_equal; lia). lia.
Qed.
End udiv_nonpot.

Lemma shift_out_twos_spec fuel x pre :
  0 < x < 2 ^ Z.of_nat fuel ->
  exists y k, shift_out_twos fuel x pre = (y, pre + k) /\ 0 <= k /\ x = y * 2 ^ k
    /\ y mod 2 = 1 /\ 0 < y.
Proof.
  revert x pre. induction fuel as [|fuel IH]; intros x pre Hx; [cbn in Hx; lia|].
  cbn [shift_out_twos]. rewrite land_1_even. case_if_eqn; zbool.
  - rewrite Nat2Z.inj_succ, Z.pow_succ_r in Hx by lia.
    rewrite Z.shiftr_div_pow2 by lia. change (2 ^ 1) with 2.
    destruct (IH (x / 2) (pre + 1)) as (y & k & Heq & Hk & Hxk & Hy & Hpos); [dlia|].
    exists y, (k + 1). rewrite Heq. repeat split; try lia; [f_equal; lia|].
    rewrite pow2_succ by lia. dlia.
  - exists x, 0. repeat split; [f_equal; lia|lia|lia|dlia|lia].
Qed.

Section udiv_info.
Context (N : Z) (HN : 1 <= N <= 64).

(** The search run by [udiv_info_rec] for a divisor that is no power of two. *)
Lemma udiv_search_runs nb D :
  1 <= nb <= N -> 1 < D < 2 ^ N ->
  exists res,
    udiv_search_loop 66 D (u32 (N - nb)) (ceil_log_2_loop 64 D 0)
      (UdivSearch 0 (u64 (Z.shiftl 1 (N - 1)) / D) (u64 (Z.shiftl 1 (N - 1)) mod D) 0 0 false)
    = Some res /\ ceil_log_2_loop 64 D 0 = Z.log2 D + 1
    /\ search_post N D (N - nb) (Z.log2 D + 1) res.
Proof.
  intros Hnb HD. pose proof (pow2_le N 64 ltac:(lia)).
  assert (HL : Z.log2 D < 64) by (apply Z.log2_lt_pow2; lia). pose proof (Z.log2_nonneg D).
  rewrite ceil_log_2_loop_spec by lia. destruct (Z.eqb_spec D 0); [lia|].
  rewrite shiftl_1, (u64_small (2 ^ (N - 1))), u32_small
    by first [lia | split; [apply Z.pow_nonneg|apply pow2_lt]; lia].
  rewrite Z.add_0_l.
  destruct (udiv_search_loop_spec N D (N - nb) (Z.log2 D + 1) HN HD eq_refl ltac:(lia) 66
              _ (search_initial N D (N - nb) (Z.log2 D + 1) HN HD ltac:(lia))) as (res & Hres & Hpost);
    cbn [us_exponent]; try lia.
  exists res. auto.
Qed.

Lemma npot_not_pot D : 1 < D < 2 ^ N -> D <> 2 ^ Z.log2 D -> IS_POT64 D = false.
Proof.
  intros HD Hnp. pose proof (pow2_le N 64 ltac:(lia)).
  destruct (IS_POT64 D) eqn:E; [|done]. apply IS_POT64_spec in E; lia.
Qed.

(** With bits to spare the search always ends in the round-up number. *)
Lemma udiv_info_rec_extra depth nb D :
  1 <= nb < N -> 1 < D < 2 ^ N -> D <> 2 ^ Z.log2 D ->
  exists info, udiv_info_rec (S depth) D nb N = Some info
    /\ increment info = 0 /\ pre_shift info = 0 /\ udiv_info_ok N nb D info.
Proof.
  intros Hnb HD Hnp. cbn [udiv_info_rec].
  passert ltac:(lia). rewrite npot_not_pot by done.
  destruct (udiv_search_runs nb D ltac:(lia) HD) as (res & -> & -> & Hp). cbn [mbind option_bind].
  assert (HeL : us_exponent res < Z.log2 D + 1).
  { destruct (Z_lt_le_dec (us_exponent res) (Z.log2 D + 1)) as [|Hle]; [done|].
    pose proof (npot_no_extra N nb D HN ltac:(lia) HD Hnp res Hp Hle). lia. }
  destruct (Z.ltb_spec (us_exponent res) (Z.log2 D + 1)); [|lia].
  eexists. repeat split; try done.
  all: apply (npot_up N nb D HN ltac:(lia) HD Hnp res Hp HeL).
Qed.

Lemma udiv_info_even nb D shifted_D pre info :
  nb = N -> 1 <= pre < N -> D = shifted_D * 2 ^ pre -> 0 < shifted_D ->
  increment info = 0 -> pre_shift info = 0 -> udiv_info_ok N (N - pre) shifted_D info ->
  udiv_info_ok N nb D (UdivInfo (multiplier info) pre (post_shift info) (increment info)).
Proof.
  intros -> Hpre HDs Hs Hi Hps [Hm _ Hpost _ Hdiv _ _]. constructor; cbn; try lia.
  intros n Hn. unfold udiv_sequence; cbn.
  assert (Hsn : 0 <= Z.shiftr n pre < 2 ^ (N - pre)).
  { rewrite Z.shiftr_div_pow2 by lia. pose proof (pow2_pos pre ltac:(lia)).
    split; [apply Z.div_pos; lia|]. apply Z.div_lt_upper_bound; [lia|].
    rewrite <- pow2_add by lia. replace (pre + (N - pre)) with N by lia. lia. }
  specialize (Hdiv _ Hsn). unfold udiv_sequence in Hdiv. rewrite Hps, Z.shiftr_0_r in Hdiv.
  rewrite Hdiv, Z.shiftr_div_pow2, Z.div_div by (try apply pow2_pos; lia).
  f_equal. lia.
Qed.

Lemma udiv_info_pot nb D :
  1 <= nb <= N -> 1 <= D < 2 ^ N -> D = 2 ^ Z.log2 D ->
  exists info, util_compute_fast_udiv_info D nb N = Some info /\ udiv_info_ok N nb D info.
Proof.
  intros Hnb HD Hp. pose proof (pow2_le N 64 ltac:(lia)).
  unfold util_compute_fast_udiv_info. cbn [udiv_info_rec].
  passert ltac:(lia). rewrite (proj2 (IS_POT64_spec D ltac:(lia)) Hp).
  rewrite util_logbase2_64_log2 by lia.
  assert (HkN : Z.log2 D < N) by (apply Z.log2_lt_pow2; lia). pose proof (Z.log2_nonneg D).
  set (k := Z.log2 D) in *.
  destruct (Z.eqb_spec k 0) as [Hk|Hk]; cbn [negb]; eexists; (split; [done|]).
  - rewrite Hk in Hp. change (2 ^ 0) with 1 in Hp. unfold u_uintN_max, UINT64_MAX.
    assert (EM : Z.shiftr (2 ^ 64 - 1) (64 - N) = 2 ^ N - 1).
    { rewrite Z.shiftr_div_pow2 by lia. apply div_between; [apply pow2_pos; lia|].
      replace (2 ^ 64) with (2 ^ N * 2 ^ (64 - N))
        by (rewrite <- pow2_add by lia; f_equal; lia).
      pose proof (pow2_pos (64 - N) ltac:(lia)). lia. }
    rewrite EM. pose proof (pow2_le 1 N ltac:(lia)).
    constructor; cbn; try lia.
    intros n Hn. unfold udiv_sequence; cbn. rewrite shiftr_shiftr_div, Z.add_0_r by lia.
    pose proof (pow2_le nb N ltac:(lia)). rewrite Hp, Z.div_1_r, Z.shiftr_0_r. apply div_between; [lia|]. nia.
  - rewrite shiftl_1 by lia.
    rewrite u64_small by (split; [apply Z.pow_nonneg|apply pow2_lt]; lia).
    pose proof (pow2_pos (N - k) ltac:(lia)). pose proof (pow2_lt (N - k) N ltac:(lia)).
    constructor; cbn; try lia.
    intros n Hn. unfold udiv_sequence; cbn. rewrite shiftr_shiftr_div, !Z.add_0_r, Z.shiftr_0_r by lia.
    replace (2 ^ N) with (2 ^ (N - k) * 2 ^ k) by (rewrite <- pow2_add by lia; f_equal; lia).
    rewrite <- Hp, Z.div_mul_cancel_l by lia. done.
Qed.

Lemma udiv_info_npot nb D :
  1 <= nb <= N -> 1 < D < 2 ^ N -> D <> 2 ^ Z.log2 D ->
  exists info, util_compute_fast_udiv_info D nb N = Some info /\ udiv_info_ok N nb D info.
Proof.
  intros Hnb HD Hnp. pose proof (pow2_le N 64 ltac:(lia)).
  unfold util_compute_fast_udiv_info. remember 1%nat as depth eqn:Edepth.
  cbn [udiv_info_rec].
  passert ltac:(lia). rewrite npot_not_pot by done.
  destruct (udiv_search_runs nb D ltac:(lia) HD) as (res & -> & -> & Hp). cbn [mbind option_bind].
  destruct (Z.ltb_spec (us_exponent res) (Z.log2 D + 1)) as [HeL|HeL].
  { eexists. split; [done|]. by apply npot_up. }
  rewrite land_1_even. pose proof (npot_no_extra N nb D HN Hnb HD Hnp res Hp HeL) as Hx.
  destruct (Z.eqb_spec (D mod 2) 0) as [Heven|Hodd]; cbn [negb].
  - destruct (shift_out_twos_spec 64 D 0 ltac:(lia)) as (sD & k & -> & Hk & HDk & Hsodd & Hspos).
    rewrite Z.add_0_l. assert (k <> 0) by (intros ->; change (2 ^ 0) with 1 in HDk; dlia).
    assert (HsD : sD <> 1).
    { intros ->. rewrite Z.mul_1_l in HDk. rewrite HDk, Z.log2_pow2 in Hnp by lia. done. }
    pose proof (pow2_pos k ltac:(lia)).
    assert (k < N) by (apply (Z.pow_lt_mono_r_iff 2); nia).
    rewrite (u32_small (nb - k)) by lia. replace (nb - k) with (N - k) by lia.
    destruct (udiv_info_rec_extra 0 (N - k) sD) as (info & E & Hi & Hps & Hok).
    { lia. } { nia. }
    { intros Hpow. apply HsD. pose proof (Z.log2_nonneg sD).
      destruct (Z.eq_dec (Z.log2 sD) 0) as [E0|E0]; [rewrite E0 in Hpow; done|exfalso].
      replace (Z.log2 sD) with (Z.log2 sD - 1 + 1) in Hpow by lia.
      rewrite pow2_succ in Hpow by lia. dlia. }
    rewrite Edepth, E. cbn [mbind option_bind].
    rewrite Hi, Hps. cbn [Z.eqb andb]. eexists. split; [done|].
    rewrite <- Hi. eapply udiv_info_even; eauto; lia.
  - rewrite (npot_has_down N nb D HN Hnb HD Hnp res Hp HeL).
    eexists. split; [done|]. apply npot_down; auto. dlia.
Qed.

Lemma udiv_info_correct nb D :
  1 <= nb <= N -> 1 <= D < 2 ^ N ->
  exists info, util_compute_fast_udiv_info D nb N = Some info /\ udiv_info_ok N nb D info.
Proof.
  intros Hnb HD. destruct (Z.eq_dec D (2 ^ Z.log2 D)) as [E|E]; [by apply udiv_info_pot|].
  apply udiv_info_npot; try done.
  destruct (Z.eq_dec D 1) as [->|]; [done|lia].
Qed.
End udiv_info.

(** * Proofs: signed division *)

(** The code sequence the header documents for the emitted signed division. *)
Definition sdiv_high (N D : Z) (info : util_fast_sdiv_info) (n : Z) : Z :=
  let result := Z.shiftr (s_multiplier info * n) N in
  let result := if (D >? 0) && (s_multiplier info <? 0) then result + n else result in
  if (D <? 0) && (s_multiplier info >? 0) then result - n else result.

Definition sdiv_sequence (N D : Z) (info : util_fast_sdiv_info) (n : Z) : Z :=
  let result := Z.shiftr (sdiv_high N D info n) (s_shift info) in
  result + (if result <? 0 then 1 else 0).

Record sdiv_info_ok (N D : Z) (info : util_fast_sdiv_info) : Prop := {
  si_mult : - 2 ^ (N - 1) < s_multiplier info < 2 ^ (N - 1);
  si_shift : 0 <= s_shift info < N;
  si_high : forall n, - 2 ^ (N - 1) <= n < 2 ^ (N - 1) ->
    - 2 ^ (N - 1) <= sdiv_high N D info n < 2 ^ (N - 1);
  si_quot : forall n, - 2 ^ (N - 1) <= n < 2 ^ (N - 1) ->
    sdiv_sequence N D info n = Z.quot n D;
}.

Lemma pow2_rem_pos d k : 0 < d -> d <> 2 ^ Z.log2 d -> 0 <= k -> 0 < 2 ^ k mod d.
Proof.
  intros Hd Hnp Hk. pose proof (Z.mod_pos_bound (2 ^ k) d Hd).
  destruct (Z.eq_dec (2 ^ k mod d) 0) as [E|]; [exfalso|lia].
  assert (Hd2 : d < 2 ^ Z.of_nat (Z.to_nat (Z.log2 d + 1))).
  { pose proof (Z.log2_nonneg d). rewrite Z2Nat.id by lia. apply Z.log2_lt_pow2; lia. }
  destruct (shift_out_twos_spec _ d 0 (conj Hd Hd2)) as (y & j & _ & Hj & Hdj & Hodd & Hy).
  destruct (Z.eq_dec y 1) as [->|Hy1].
  { apply Hnp. rewrite Hdj, Z.mul_1_l, Z.log2_pow2 by lia. done. }
  pose proof (odd_pow2_rem y k ltac:(lia) Hodd Hk) as Hr.
  apply Z.mod_divide in E; [|lia]. destruct E as [z Hz].
  rewrite Hz, Hdj in Hr. replace (z * (y * 2 ^ j)) with (z * 2 ^ j * y) in Hr by lia.
  rewrite Z.mod_mul in Hr; lia.
Qed.

Lemma sdiv_double_spec d X :
  0 < d <= 2 ^ 63 -> 0 <= X -> 2 * X / d < 2 ^ 64 ->
  sdiv_double d (X / d) (X mod d) = (2 * X / d, (2 * X) mod d).
Proof.
  intros Hd HX Hlt. unfold sdiv_double.
  pose proof (Z.div_mod X d ltac:(lia)) as E.
  pose proof (Z.mod_pos_bound X d ltac:(lia)) as B.
  pose proof (Z.div_pos X d ltac:(lia) ltac:(lia)) as Bq.
  assert (HX2 : 2 * (X / d) <= 2 * X / d) by (apply Z.div_le_lower_bound; nia).
  set (q := X / d) in *. set (r := X mod d) in *.
  rewrite (u64_small (q * 2)), (u64_small (r * 2)) by lia. case_if_eqn; zbool.
  - assert (Eq : 2 * X / d = 2 * q + 1) by (apply div_between; nia).
    assert ((2 * X) mod d = 2 * r - d) as ->
      by (symmetry; apply Z.mod_unique_pos with (2 * q + 1); nia).
    rewrite Eq in *. rewrite (u64_small (q * 2 + 1)), (u64_small (r * 2 - d)) by lia.
    f_equal; lia.
  - assert (2 * X / d = 2 * q) as -> by (apply div_between; nia).
    assert ((2 * X) mod d = 2 * r) as ->
      by (symmetry; apply Z.mod_unique_pos with (2 * q); nia).
    f_equal; lia.
Qed.

(** The loop's exit test, as the inequality it decides. *)
Lemma sdiv_exit_test X nc d : 0 < nc ->
  (X / nc <? d) || ((X / nc =? d) && (X mod nc =? 0)) = (X <=? nc * d).
Proof.
  intros Hnc. pose proof (Z.div_mod X nc ltac:(lia)) as E. pose proof (Z.mod_pos_bound X nc Hnc) as B.
  set (q := X / nc) in *. set (r := X mod nc) in *. apply Bool.eq_true_iff_eq.
  rewrite orb_true_iff, andb_true_iff, Z.ltb_lt, !Z.eqb_eq, Z.leb_le. split.
  - intros [Hlt|[-> ->]]; nia.
  - intros Hle. destruct (Z.lt_trichotomy q d) as [|[Heq|]]; [auto|right|nia].
    split; [done|]. nia.
Qed.

Section sdiv_search_facts.
(** [tmp] is [2^(N-1)], plus one for a negative divisor. *)
Context (N ad tmp : Z).
Hypothesis (HN : 2 <= N <= 64) (Had : 1 < ad < 2 ^ (N - 1)) (Hnp : ad <> 2 ^ Z.log2 ad)
  (Htmp : tmp = 2 ^ (N - 1) \/ tmp = 2 ^ (N - 1) + 1).

Let nc : Z := tmp - 1 - tmp mod ad.
Let delta (p : Z) : Z := ad - 2 ^ p mod ad.

Lemma sdiv_ad_3 : 3 <= ad.
Proof. destruct (Z.eq_dec ad 2) as [->|]; [cbn in Hnp|]; lia. Qed.

Lemma sdiv_nc_eq : nc + 1 = ad * (tmp / ad).
Proof. unfold nc. pose proof (Z.div_mod tmp ad ltac:(lia)). lia. Qed.

Lemma sdiv_nc_range : ad - 1 <= nc <= 2 ^ (N - 1).
Proof.
  pose proof sdiv_nc_eq. pose proof (Z.mod_pos_bound tmp ad ltac:(lia)).
  assert (1 <= tmp / ad) by (apply Z.div_le_lower_bound; lia).
  split; [nia|]. unfold nc. lia.
Qed.

Lemma sdiv_delta p : 0 <= p -> 0 < delta p < ad.
Proof.
  intros. unfold delta. pose proof (Z.mod_pos_bound (2 ^ p) ad ltac:(lia)).
  pose proof (pow2_rem_pos ad p ltac:(lia) Hnp). lia.
Qed.

Lemma sdiv_width : 2 ^ N = 2 * 2 ^ (N - 1) /\ 2 ^ (N - 1) <= 2 ^ 63.
Proof.
  split; [|apply pow2_le; lia].
  rewrite <- pow2_succ by lia. f_equal. lia.
Qed.

(** At the top of the loop, with [p] the exponent already computed. *)
Definition sdiv_inv (p : Z) : Prop :=
  N - 1 <= p /\ (p = N - 1 \/ 2 ^ p <= nc * delta p).

Lemma sdiv_inv_bound p : sdiv_inv p -> 2 * 2 ^ p / nc < 2 ^ 64 /\ 2 * 2 ^ p / ad < 2 ^ 64.
Proof.
  intros [Hp Hc]. pose proof sdiv_nc_range. pose proof (sdiv_delta p ltac:(lia)).
  destruct sdiv_width as [_ ?]. pose proof (pow2_pos p ltac:(lia)).
  assert (nc * delta p <= 2 ^ 63 * delta p) by (apply Z.mul_le_mono_nonneg_r; lia).
  assert (nc * delta p <= nc * (2 ^ 63 - 1)) by (apply Z.mul_le_mono_nonneg_l; lia).
  pose proof sdiv_ad_3.
  destruct Hc as [->|Hc]; split; apply Z.div_lt_upper_bound; lia.
Qed.

Definition sdiv_state (p : Z) : sdiv_search :=
  SdivSearch p (2 ^ p / nc) (2 ^ p mod nc) (2 ^ p / ad) (2 ^ p mod ad).

Lemma sdiv_search_loop_spec fuel p :
  sdiv_inv p -> 2 * N - 2 - p < Z.of_nat fuel -> p < 2 * N - 2 ->
  exists p', sdiv_search_loop fuel ad nc (sdiv_state p) = Some (sdiv_state p')
    /\ p < p' <= 2 * N - 2 /\ nc * delta p' < 2 ^ p' /\ sdiv_inv (p' - 1).
Proof.
  pose proof sdiv_nc_range as Hnc. destruct sdiv_width as [HW H63].
  revert p. induction fuel as [|fuel IH]; intros p Hinv Hfuel Hlt; [lia|].
  destruct (sdiv_inv_bound p Hinv) as [B1 B2]. destruct Hinv as [Hp Hc] eqn:Ei; clear Ei.
  cbn [sdiv_search_loop sdiv_state ss_quotient1 ss_remainder1 ss_quotient2 ss_remainder2
       ss_exponent].
  pose proof (pow2_pos p ltac:(lia)).
  rewrite !sdiv_double_spec by lia. rewrite <- pow2_succ in * by lia.
  pose proof (sdiv_delta (p + 1) ltac:(lia)) as Hd. fold (delta (p + 1)).
  rewrite u64_small by lia. rewrite sdiv_exit_test by lia.
  destruct (Z.leb_spec (2 ^ (p + 1)) (nc * delta (p + 1))) as [Hle|Hgt].
  - assert (p + 1 <> 2 * N - 2).
    { intros Heq. rewrite Heq in Hle at 1.
      replace (2 * N - 2) with (N - 1 + (N - 1)) in Hle by lia.
      rewrite pow2_add in Hle by lia. nia. }
    destruct (IH (p + 1)) as (p' & ? & ? & ? & ?); [split; [lia|auto]|lia|lia|].
    exists p'. auto with lia.
  - exists (p + 1). replace (p + 1 - 1) with p by lia. auto with lia.
Qed.

Section stopped.
Context (p : Z).
Hypothesis (Hp : N <= p <= 2 * N - 2) (Hstop : nc * delta p < 2 ^ p)
  (Hprev : sdiv_inv (p - 1)).

Let M : Z := 2 ^ p / ad + 1.

Lemma sdiv_M_eq : M * ad = 2 ^ p + delta p.
Proof. unfold M, delta. pose proof (Z.div_mod (2 ^ p) ad ltac:(lia)). lia. Qed.

Lemma sdiv_M_range : 0 < M < 2 ^ N /\ M <> 2 ^ (N - 1).
Proof.
  pose proof sdiv_M_eq as E. pose proof sdiv_nc_range. pose proof sdiv_ad_3.
  pose proof (sdiv_delta p ltac:(lia)). destruct sdiv_width as [HW _].
  pose proof (sdiv_delta (p - 1) ltac:(lia)) as Hd'.
  assert (H2p : 2 ^ p = 2 * 2 ^ (p - 1)) by (rewrite <- pow2_succ by lia; f_equal; lia).
  pose proof (pow2_pos (p - 1) ltac:(lia)).
  assert (0 < M) by (apply (Z.mul_pos_cancel_r M ad); lia).
  repeat split; [done| |].
  - apply (Z.mul_lt_mono_pos_r ad); [lia|]. rewrite E.
    destruct Hprev as [_ [Heq|Hle]].
    + assert (2 ^ p = 2 ^ N) by (f_equal; lia).
      assert (2 ^ N * 3 <= 2 ^ N * ad) by (apply Z.mul_le_mono_nonneg_l; lia). lia.
    + assert (nc * delta (p - 1) <= 2 ^ (N - 1) * (ad - 1)) by (apply Z.mul_le_mono_nonneg; lia).
      lia.
  - intros EM. rewrite EM in E.
    replace p with (N - 1 + (p - (N - 1))) in E at 1 by lia.
    rewrite pow2_add in E by lia. clear H2p Hprev Hstop EM.
    destruct (Z_le_gt_dec ad (2 ^ (p - (N - 1)))); nia.
Qed.

(** The largest dividend with the same remainder as [n] bounds the error term. *)
Lemma sdiv_error n :
  0 < n <= tmp -> (n = tmp -> n mod ad <> ad - 1) -> n * delta p < (ad - n mod ad) * 2 ^ p.
Proof.
  intros Hn Hlast. pose proof sdiv_nc_eq as Enc. pose proof sdiv_nc_range.
  pose proof (sdiv_delta p ltac:(lia)). pose proof (pow2_pos p ltac:(lia)).
  pose proof (Z.div_mod n ad ltac:(lia)) as E. pose proof (Z.mod_pos_bound n ad ltac:(lia)).
  assert (Hq : n / ad <= tmp / ad) by (apply Z.div_le_mono; lia).
  set (s := n mod ad) in *. set (q := n / ad) in *.
  destruct (Z.eq_dec s (ad - 1)) as [Hs|Hs].
  - assert (n <= nc).
    { assert (n < tmp) by (destruct (Z.eq_dec n tmp); [tauto|lia]).
      pose proof (Z.div_mod tmp ad ltac:(lia)). pose proof (Z.mod_pos_bound tmp ad ltac:(lia)).
      assert (q + 1 <= tmp / ad) by (apply Z.div_le_lower_bound; lia). nia. }
    rewrite Hs. replace (ad - (ad - 1)) with 1 by lia. nia.
  - assert (n <= 2 * nc) by nia. assert (2 <= ad - s) by lia. nia.
Qed.

Lemma sdiv_bounds n :
  0 < n <= tmp -> (n = tmp -> n mod ad <> ad - 1) ->
  n / ad * 2 ^ p < M * n < (n / ad + 1) * 2 ^ p.
Proof.
  intros Hn Hlast. pose proof (sdiv_error n Hn Hlast) as He. pose proof sdiv_M_eq as EM.
  pose proof (sdiv_delta p ltac:(lia)). pose proof (pow2_pos p ltac:(lia)).
  pose proof (Z.div_mod n ad ltac:(lia)) as E. pose proof (Z.mod_pos_bound n ad ltac:(lia)).
  set (s := n mod ad) in *. set (q := n / ad) in *.
  assert (ad * (M * n - q * 2 ^ p) = s * 2 ^ p + n * delta p) by nia.
  split; apply (Z.mul_lt_mono_pos_l ad); nia.
Qed.

(** The most negative dividend of a positive divisor. *)
Lemma sdiv_bounds_min :
  tmp = 2 ^ (N - 1) -> tmp / ad * 2 ^ p < M * tmp <= (tmp / ad + 1) * 2 ^ p.
Proof.
  intros Ht. destruct (Z.eq_dec (tmp mod ad) (ad - 1)) as [Hs|Hs].
  2: { pose proof (sdiv_bounds tmp). lia. }
  pose proof sdiv_M_eq as EM. pose proof (sdiv_delta p ltac:(lia)) as Hd.
  pose proof (Z.div_mod tmp ad ltac:(lia)) as E.
  assert (Hk : 2 ^ p = tmp * 2 ^ (p - (N - 1))).
  { rewrite Ht, <- pow2_add by lia. f_equal. lia. }
  pose proof (pow2_pos (p - (N - 1)) ltac:(lia)). set (k := 2 ^ (p - (N - 1))) in *.
  assert (Hdk : delta p <= k).
  { assert (Hdm : delta p = k mod ad).
    { unfold delta. rewrite Hk.
      apply Z.mod_unique_pos with ((tmp / ad + 1) * k - tmp * k / ad - 1).
      - unfold delta in Hd. rewrite <- Hk. lia.
      - pose proof (Z.div_mod (tmp * k) ad ltac:(lia)). nia. }
    rewrite Hdm. apply Z.mod_le; lia. }
  assert (Hmain : ad * (M * tmp - tmp / ad * 2 ^ p) = (ad - 1) * 2 ^ p + tmp * delta p).
  { rewrite Hs in E. transitivity (M * ad * tmp - ad * (tmp / ad) * 2 ^ p); [lia|].
    rewrite EM. replace (ad * (tmp / ad)) with (tmp - (ad - 1)) by lia. lia. }
  assert (tmp * delta p <= 2 ^ p) by (rewrite Hk; apply Z.mul_le_mono_nonneg_l; lia).
  pose proof (pow2_pos p ltac:(lia)).
  assert (0 < tmp * delta p) by (apply Z.mul_pos_pos; lia).
  clear Hs Hdk EM. generalize dependent (tmp / ad). intros q _ Hmain.
  split; [apply (Z.mul_lt_mono_pos_l ad)|apply (Z.mul_le_mono_pos_l _ _ ad)]; nia.
Qed.
End stopped.
End sdiv_search_facts.

(** Sign extension of a value that fits. *)
Lemma util_sign_extend_spec v w :
  1 <= w <= 64 -> 0 <= v < 2 ^ w -> util_sign_extend v w = Some (signed w v).
Proof.
  intros Hw Hv. unfold util_sign_extend, util_mask_sign_extend.
  assert (Hg : (w =? 64) || (v <? u64 (Z.shiftl 1 w)) = true).
  { destruct (Z.eqb_spec w 64); [done|]. cbn [orb]. rewrite shiftl_1 by lia.
    pose proof (pow2_lt w 64 ltac:(lia)). rewrite u64_small by lia. lia. }
  rewrite Hg. passert ltac:(lia). f_equal. pose proof (pow2_pos (64 - w) ltac:(lia)).
  assert (E64 : 2 ^ 64 = 2 ^ w * 2 ^ (64 - w)) by (rewrite <- pow2_add by lia; f_equal; lia).
  assert (E63 : 2 ^ (64 - 1) = 2 ^ (w - 1) * 2 ^ (64 - w))
    by (rewrite <- pow2_add by lia; f_equal; lia).
  rewrite Z.shiftl_mul_pow2, u64_small by nia. unfold signed.
  rewrite Z.shiftr_div_pow2, E63, E64 by lia. clear E63 E64 Hg.
  generalize dependent (2 ^ (64 - w)). intros c Hc.
  destruct (Z.geb_spec v (2 ^ (w - 1))), (Z.geb_spec (v * c) (2 ^ (w - 1) * c)); try nia.
  - rewrite <- Z.mul_sub_distr_r. apply Z.div_mul. lia.
  - apply Z.div_mul. lia.
Qed.

(** Rounding towards zero, from the bounds on the scaled product. *)
Lemma trunc_pos M P n q : 0 < P -> q * P < M * n < (q + 1) * P -> 0 <= q ->
  (let t := M * n / P in t + (if t <? 0 then 1 else 0)) = q.
Proof.
  intros HP HB Hq. rewrite (div_between (M * n) P q) by lia. cbv zeta.
  destruct (Z.ltb_spec q 0); lia.
Qed.

Lemma trunc_neg M P n q : 0 < P -> q * P < M * n <= (q + 1) * P -> 0 <= q ->
  (let t := - (M * n) / P in t + (if t <? 0 then 1 else 0)) = - q.
Proof.
  intros HP HB Hq. rewrite (div_between (- (M * n)) P (- q - 1)) by lia. cbv zeta.
  destruct (Z.ltb_spec (- q - 1) 0); lia.
Qed.

Section sdiv_info.
Context (N D : Z).
Hypothesis (HN : 2 <= N <= 64).

Let ad := Z.abs D.
Let tmp := 2 ^ (N - 1) + (if D <? 0 then 1 else 0).

Lemma sdiv_tmp : tmp = 2 ^ (N - 1) \/ tmp = 2 ^ (N - 1) + 1.
Proof. unfold tmp. case_if_eqn; lia. Qed.

(** With [K] the exact multiplier, the sequence computes [K * n / 2^p] and
    adds one to a negative result. *)
Lemma sdiv_sequence_exact p M n :
  D <> 0 -> N <= p -> 0 < M < 2 ^ N -> M <> 2 ^ (N - 1) ->
  let K := if D <? 0 then - M else M in
  let m := signed N M in
  let info := SdivInfo (if D <? 0 then - m else m) (p - N) in
  sdiv_high N D info n = K * n / 2 ^ N
  /\ sdiv_sequence N D info n
     = (let t := K * n / 2 ^ p in t + (if t <? 0 then 1 else 0)).
Proof.
  intros HD0 Hp HM HM' K m info.
  assert (Hh : sdiv_high N D info n = K * n / 2 ^ N).
  { unfold sdiv_high, info, m, K, signed; cbn [s_multiplier s_shift].
    rewrite Z.shiftr_div_pow2 by lia. pose proof (pow2_pos N ltac:(lia)).
    assert (2 ^ N = 2 * 2 ^ (N - 1)) by (rewrite <- pow2_succ by lia; f_equal; lia).
    assert (E1 : (M - 2 ^ N) * n = M * n + (- n) * 2 ^ N) by lia.
    assert (E2 : - (M - 2 ^ N) * n = - M * n + n * 2 ^ N) by lia.
    destruct (Z.geb_spec M (2 ^ (N - 1))), (Z.ltb_spec D 0); cbn [andb];
      repeat case_if_eqn; zbool; try lia; rewrite ?E1, ?E2, ?Z.div_add by lia; lia. }
  split; [done|]. unfold sdiv_sequence. rewrite Hh. cbn [s_shift info].
  rewrite Z.shiftr_div_pow2, Z.div_div, <- pow2_add by (try apply pow2_pos; lia).
  replace (N + (p - N)) with p by lia. done.
Qed.

(** Bounds on the scaled product of the absolute values give the quotient rounded towards zero. *)
Lemma sdiv_trunc P M n : 0 < P -> 1 < ad -> n <> 0 ->
  Z.abs n / ad * P < M * Z.abs n <= (Z.abs n / ad + 1) * P ->
  (Bool.eqb (D <? 0) (n <? 0) = true -> M * Z.abs n < (Z.abs n / ad + 1) * P) ->
  (let t := (if D <? 0 then - M else M) * n / P in t + (if t <? 0 then 1 else 0)) = Z.quot n D.
Proof.
  intros HP Hd Hn0 HB HA. pose proof (Z.div_pos (Z.abs n) ad ltac:(lia) ltac:(lia)) as Hq.
  unfold ad in *. rewrite quot_abs by lia.
  destruct (Z.ltb_spec D 0), (Z.ltb_spec n 0); cbn [Bool.eqb] in *; try specialize (HA eq_refl).
  - replace (- M * n) with (M * Z.abs n) by lia. apply trunc_pos; [done|lia|done].
  - replace (- M * n) with (- (M * Z.abs n)) by lia. by apply trunc_neg.
  - replace (M * n) with (- (M * Z.abs n)) by lia. by apply trunc_neg.
  - replace (M * n) with (M * Z.abs n) by lia. apply trunc_pos; [done|lia|done].
Qed.

(** What the multiplier and the exponent must satisfy *)
Lemma sdiv_info_ok_intro p M : D <> 0 -> N <= p < 2 * N -> 0 < M < 2 ^ N -> M <> 2 ^ (N - 1) ->
  (forall n, - 2 ^ (N - 1) <= n < 2 ^ (N - 1) ->
    (let t := (if D <? 0 then - M else M) * n / 2 ^ p in t + (if t <? 0 then 1 else 0)) = Z.quot n D) ->
  sdiv_info_ok N D (SdivInfo (if D <? 0 then - signed N M else signed N M) (p - N)).
Proof.
  intros HD0 Hp HM HM' Hquot. pose proof (pow2_pos (N - 1) ltac:(lia)).
  assert (HW : 2 ^ N = 2 * 2 ^ (N - 1)) by (rewrite <- pow2_succ by lia; f_equal; lia).
  pose proof (fun n => sdiv_sequence_exact p _ n HD0 ltac:(lia) HM HM') as Hseq.
  constructor; cbn [s_multiplier s_shift].
  - unfold signed. destruct (Z.geb_spec M (2 ^ (N - 1))); case_if_eqn; lia.
  - lia.
  - intros n Hn. destruct (Hseq n) as [-> _]. case_if_eqn.
    + split; [apply Z.div_le_lower_bound|apply Z.div_lt_upper_bound]; nia.
    + split; [apply Z.div_le_lower_bound|apply Z.div_lt_upper_bound]; nia.
  - intros n Hn. destruct (Hseq n) as [_ ->]. by apply Hquot.
Qed.

(** The numbers the search starts from *)
Lemma sdiv_compute_unfold : 1 < ad <= tmp -> ad < 2 ^ 63 ->
  let nc := tmp - 1 - tmp mod ad in
  util_compute_fast_sdiv_info D N =
  (res ← sdiv_search_loop 64 ad nc (SdivSearch (N - 1) (2 ^ (N - 1) / nc) (2 ^ (N - 1) mod nc) (2 ^ (N - 1) / ad) (2 ^ (N - 1) mod ad));
   m ← util_sign_extend (u64 (ss_quotient2 res + 1)) N;
   Some (SdivInfo (if D <? 0 then - m else m) (ss_exponent res - N))).
Proof.
  intros Had H63. pose proof (pow2_le (N - 1) 63 ltac:(lia)). pose proof (pow2_pos (N - 1) ltac:(lia)).
  pose proof (Z.mod_pos_bound tmp ad ltac:(lia)). pose proof sdiv_tmp.
  unfold util_compute_fast_sdiv_info. unfold ad in * |-. passert ltac:(lia).
  rewrite shiftl_1, (u64_small (2 ^ (N - 1))) by lia.
  replace (u64 (if D <? 0 then - D else D)) with ad
    by (unfold ad; case_if_eqn; zbool; rewrite u64_small; lia).
  replace (u64 (2 ^ (N - 1) + (if D <? 0 then 1 else 0))) with tmp
    by (unfold tmp; case_if_eqn; rewrite u64_small; lia).
  unfold ad. rewrite (u64_small (tmp - 1 - tmp mod Z.abs D)) by lia. done.
Qed.

Section not_pow2.
Hypothesis (HD : 1 < Z.abs D < 2 ^ (N - 1)) (Hnp : Z.abs D <> 2 ^ Z.log2 (Z.abs D)).

Lemma sdiv_quot p n :
  let M := 2 ^ p / ad + 1 in
  N <= p <= 2 * N - 2 -> (tmp - 1 - tmp mod ad) * (ad - 2 ^ p mod ad) < 2 ^ p ->
  sdiv_inv N ad tmp (p - 1) -> - 2 ^ (N - 1) <= n < 2 ^ (N - 1) ->
  (let t := (if D <? 0 then - M else M) * n / 2 ^ p in t + (if t <? 0 then 1 else 0))
  = Z.quot n D.
Proof.
  intros M Hp Hstop Hprev Hn.
  pose proof (sdiv_bounds N ad tmp HN HD Hnp sdiv_tmp p Hp Hstop) as HA.
  pose proof (sdiv_bounds_min N ad tmp HN HD Hnp sdiv_tmp p Hp Hstop) as HB.
  fold M in HA, HB. pose proof (pow2_pos p ltac:(lia)) as HP.
  destruct (Z.eq_dec n 0) as [->|Hn0].
  { rewrite Z.mul_0_r, Z.div_0_l, Z.quot_0_l by lia. done. }
  assert (Htmp : tmp = 2 ^ (N - 1) + (if D <? 0 then 1 else 0)) by done. clearbody tmp.
  apply sdiv_trunc; [done|unfold ad; lia|done| |]; destruct (Z.ltb_spec D 0).
  - pose proof (HA (Z.abs n)). lia.
  - rewrite Z.add_0_r in Htmp. specialize (HB Htmp). pose proof (HA (Z.abs n)).
    destruct (Z.eq_dec (Z.abs n) tmp) as [->|]; lia.
  - intros _. apply HA; lia.
  - intros Hs. apply HA; [lia|]. destruct (Z.ltb_spec n 0); [done|lia].
Qed.

Lemma sdiv_info_correct :
  exists info, util_compute_fast_sdiv_info D N = Some info /\ sdiv_info_ok N D info.
Proof.
  pose proof (pow2_le (N - 1) 63 ltac:(lia)) as H63. pose proof (pow2_pos (N - 1) ltac:(lia)). pose proof sdiv_tmp.
  rewrite sdiv_compute_unfold by (unfold ad; lia). unfold ad.
  assert (Hinv : sdiv_inv N (Z.abs D) tmp (N - 1)) by (split; auto with lia).
  destruct (sdiv_search_loop_spec N (Z.abs D) tmp HN HD Hnp sdiv_tmp 64 (N - 1)
              Hinv ltac:(lia) ltac:(lia)) as (p & E & Hp & Hstop & Hprev).
  unfold sdiv_state in E. rewrite E. cbn [mbind option_bind ss_quotient2 ss_exponent].
  destruct (sdiv_M_range N (Z.abs D) tmp HN HD Hnp sdiv_tmp p ltac:(lia) Hprev) as [HM HM'].
  pose proof (pow2_le N 64 ltac:(lia)). rewrite u64_small by lia.
  rewrite util_sign_extend_spec by lia. cbn [mbind option_bind].
  eexists. split; [done|]. apply sdiv_info_ok_intro; [lia|lia|done|done|]. intros n Hn. apply sdiv_quot; auto. lia.
Qed.
End not_pow2.

(** A power of two: the search stops [k] steps later, with the multiplier [2^(N-1) + 1]. *)
Section pow2.
Context (k : Z).
Hypothesis (Hk : 1 <= k) (Hpow : Z.abs D = 2 ^ k) (HDr : - 2 ^ (N - 1) <= D < 2 ^ (N - 1)) (HD63 : - 2 ^ 63 < D).

Let nc : Z := 2 ^ (N - 1) - 1.

Lemma sdiv_pow2_k : k <= N - 1 /\ k < 63.
Proof.
  pose proof (pow2_le (N - 1) 63 ltac:(lia)).
  split; [apply (Z.pow_le_mono_r_iff 2)|apply (Z.pow_lt_mono_r_iff 2)]; lia.
Qed.

Lemma sdiv_pow2_split : 2 ^ (N - 1) = 2 ^ (N - 1 - k) * 2 ^ k /\ 1 <= 2 ^ (N - 1 - k) /\ 2 <= 2 ^ k.
Proof.
  destruct sdiv_pow2_k. split; [rewrite <- pow2_add by lia; f_equal; lia|].
  pose proof (pow2_pos (N - 1 - k) ltac:(lia)). pose proof (pow2_le 1 k ltac:(lia)). lia.
Qed.

Lemma sdiv_pow2_nc : tmp - 1 - tmp mod 2 ^ k = nc.
Proof.
  destruct sdiv_pow2_split as (E & H1 & H2). unfold nc, tmp.
  assert (E0 : 2 ^ (N - 1) mod 2 ^ k = 0) by (rewrite E; apply Z.mod_mul; lia).
  rewrite <- Zplus_mod_idemp_l, E0, Z.add_0_l. case_if_eqn; rewrite Z.mod_small by lia; lia.
Qed.

Lemma sdiv_pow2_loop fuel p : N - 1 <= p < N - 1 + k -> N - 1 + k - p <= Z.of_nat fuel ->
  exists st, sdiv_search_loop fuel (2 ^ k) nc (SdivSearch p (2 ^ p / nc) (2 ^ p mod nc) (2 ^ p / 2 ^ k) (2 ^ p mod 2 ^ k)) = Some st /\
    ss_exponent st = N - 1 + k /\ ss_quotient2 st = 2 ^ (N - 1).
Proof.
  destruct sdiv_pow2_k as [Hk1 Hk2]. pose proof (pow2_le (N - 1) 63 ltac:(lia)). pose proof (pow2_le k 63 ltac:(lia)).
  pose proof (pow2_pos (N - 2) ltac:(lia)).
  assert (HN2 : 2 ^ (N - 1) = 2 * 2 ^ (N - 2)) by (rewrite <- pow2_succ by lia; f_equal; lia).
  assert (Hnc : 2 ^ (N - 2) <= nc < 2 ^ 63) by (unfold nc; lia).
  revert p. induction fuel as [|fuel IH]; intros p Hp Hfuel; [lia|].
  cbn [sdiv_search_loop ss_quotient1 ss_remainder1 ss_quotient2 ss_remainder2 ss_exponent].
  pose proof (pow2_pos p ltac:(lia)). pose proof (pow2_pos k ltac:(lia)).
  assert (E : 2 ^ (p + 1) = 2 ^ (p + 1 - k) * 2 ^ k) by (rewrite <- pow2_add by lia; f_equal; lia).
  assert (Hq1 : 2 * 2 ^ p / nc < 2 ^ 64).
  { rewrite <- pow2_succ by lia. apply Z.div_lt_upper_bound; [lia|]. pose proof (pow2_lt (p + 1) (N - 2 + 64) ltac:(lia)) as Hlt.
    rewrite (pow2_add (N - 2) 64) in Hlt by lia. assert (2 ^ (N - 2) * 2 ^ 64 <= nc * 2 ^ 64) by (apply Z.mul_le_mono_nonneg_r; lia). lia. }
  assert (Hq2 : 2 * 2 ^ p / 2 ^ k < 2 ^ 64).
  { rewrite <- pow2_succ, E, Z.div_mul by lia. apply pow2_lt. lia. }
  rewrite !sdiv_double_spec by lia. rewrite <- pow2_succ by lia. rewrite (u64_small (_ - _ mod _)) by (rewrite E, Z.mod_mul; lia).
  assert (E0 : 2 ^ (p + 1) mod 2 ^ k = 0) by (rewrite E; apply Z.mod_mul; lia). rewrite sdiv_exit_test, E0, Z.sub_0_r, <- E0 by lia.
  destruct (Z.leb_spec (2 ^ (p + 1)) (nc * 2 ^ k)) as [Hle|Hgt].
  - apply IH; [|lia]. split; [lia|]. destruct (Z.eq_dec (p + 1) (N - 1 + k)) as [Ep|]; [exfalso|lia].
    rewrite Ep, pow2_add in Hle by lia. unfold nc in Hle. lia.
  - assert (Ep : p + 1 = N - 1 + k).
    { destruct (Z.eq_dec (p + 1) (N - 1 + k)); [done|exfalso]. pose proof (pow2_le (p + 1) (N - 2 + k) ltac:(lia)) as Hle.
      rewrite (pow2_add (N - 2)) in Hle by lia. assert (2 ^ (N - 2) * 2 ^ k <= nc * 2 ^ k) by (apply Z.mul_le_mono_nonneg_r; lia). lia. }
    eexists. split; [done|]. cbn [ss_exponent ss_quotient2]. split; [done|]. rewrite E, Z.div_mul by lia. f_equal. lia.
Qed.

Lemma sdiv_pow2_quot n : - 2 ^ (N - 1) <= n < 2 ^ (N - 1) ->
  (let t := (if D <? 0 then - (2 ^ (N - 1) + 1) else 2 ^ (N - 1) + 1) * n / 2 ^ (N - 1 + k) in t + (if t <? 0 then 1 else 0)) = Z.quot n D.
Proof.
  intros Hn. destruct sdiv_pow2_split as (E & H1 & H2). destruct sdiv_pow2_k.
  destruct (Z.eq_dec n 0) as [->|Hn0]; [rewrite Z.mul_0_r, Z.div_0_l, Z.quot_0_l by (try apply Z.pow_nonzero; lia); done|].
  assert (Hb : Z.abs n / 2 ^ k * 2 ^ (N - 1 + k) < (2 ^ (N - 1) + 1) * Z.abs n < (Z.abs n / 2 ^ k + 1) * 2 ^ (N - 1 + k)).
  { rewrite pow2_add by lia. pose proof (Z.div_mod (Z.abs n) (2 ^ k) ltac:(lia)) as Ed. pose proof (Z.mod_pos_bound (Z.abs n) (2 ^ k) ltac:(lia)).
    destruct (Z.eq_dec (Z.abs n) (2 ^ (N - 1))) as [Emin|].
    - rewrite Emin. assert (Eq : 2 ^ (N - 1) / 2 ^ k = 2 ^ (N - 1 - k)) by (rewrite E; apply Z.div_mul; lia). rewrite Eq. clear Ed Eq.
      set (P := 2 ^ (N - 1)) in *. set (K := 2 ^ k) in *. set (Q := 2 ^ (N - 1 - k)) in *.
      assert (Q * (P * K) = P * P) by (rewrite E at 2; lia). assert (P * 2 <= P * K) by (apply Z.mul_le_mono_nonneg_l; nia). nia.
    - assert (Z.abs n < 2 ^ (N - 1)) by lia. set (P := 2 ^ (N - 1)) in *. set (q := Z.abs n / 2 ^ k) in *. set (K := 2 ^ k) in *. nia. }
  apply sdiv_trunc; unfold ad; rewrite ?Hpow; [apply pow2_pos; lia|lia|done|lia|lia].
Qed.

Lemma sdiv_info_pow2 : exists info, util_compute_fast_sdiv_info D N = Some info /\ sdiv_info_ok N D info.
Proof.
  destruct sdiv_pow2_k. destruct sdiv_pow2_split as (E & H1 & H2). pose proof (pow2_le (N - 1) 63 ltac:(lia)).
  assert (HW : 2 ^ N = 2 * 2 ^ (N - 1)) by (rewrite <- pow2_succ by lia; f_equal; lia). pose proof (pow2_le N 64 ltac:(lia)).
  pose proof sdiv_tmp. rewrite sdiv_compute_unfold by (unfold ad; lia). unfold ad. rewrite Hpow, sdiv_pow2_nc.
  destruct (sdiv_pow2_loop 64 (N - 1)) as (st & -> & Hex & Hq); [lia|lia|]. cbn [mbind option_bind].
  rewrite Hex, Hq, u64_small, util_sign_extend_spec by nia. cbn [mbind option_bind].
  eexists. split; [done|]. apply sdiv_info_ok_intro; [lia|lia|nia|lia|]. exact sdiv_pow2_quot.
Qed.
End pow2.
End sdiv_info.

(** * Proofs: remainder *)

Lemma mul32by64_hi_spec a b :
  0 <= a < 2 ^ 32 -> 0 <= b < 2 ^ 64 -> _mul32by64_hi a b = a * b / 2 ^ 64.
Proof.
  intros Ha Hb. unfold _mul32by64_hi. rewrite !Z.shiftr_div_pow2 by lia.
  unfold u32 at 2. unfold wrap.
  assert (Hb1 : 0 <= b / 2 ^ 32 < 2 ^ 32) by dlia.
  rewrite (u32_small (b / 2 ^ 32)) by done.
  pose proof (Z.div_mod b (2 ^ 32) ltac:(lia)) as E.
  pose proof (Z.mod_pos_bound b (2 ^ 32) ltac:(lia)).
  set (b1 := b / 2 ^ 32) in *. set (b0 := b mod 2 ^ 32) in *.
  rewrite (u64_small (a * b0)), (u64_small (a * b1)) by nia.
  assert (0 <= a * b0 / 2 ^ 32 < 2 ^ 32).
  { split; [apply Z.div_pos; nia|apply Z.div_lt_upper_bound; nia]. }
  rewrite (u64_small (_ + _)) by nia.
  replace (2 ^ 64) with (2 ^ 32 * 2 ^ 32) by lia. rewrite <- Z.div_div by lia.
  replace (a * b) with (a * b0 + a * b1 * 2 ^ 32) by nia.
  rewrite Z.div_add by lia. apply u32_small.
  split; [apply Z.div_pos; nia|apply Z.div_lt_upper_bound; nia].
Qed.

Lemma mul32by64_hi_u128_spec a b :
  0 <= a < 2 ^ 32 -> 0 <= b < 2 ^ 64 -> _mul32by64_hi_u128 a b = a * b / 2 ^ 64.
Proof.
  intros Ha Hb. unfold _mul32by64_hi_u128.
  rewrite wrap_small by (unfold fits; nia). rewrite Z.shiftr_div_pow2 by lia.
  rewrite Z.mul_comm. apply u32_small.
  split; [apply Z.div_pos; nia|apply Z.div_lt_upper_bound; nia].
Qed.

Lemma fast_urem32_mod n d :
  0 <= n < 2 ^ 32 -> 1 <= d < 2 ^ 32 ->
  util_fast_urem32 n d (REMAINDER_MAGIC d) = n mod d.
Proof.
  intros Hn Hd. unfold util_fast_urem32.
  rewrite mul32by64_hi_spec by (auto with words; lia).
  unfold REMAINDER_MAGIC, UINT64_MAX.
  destruct (Z.eq_dec d 1) as [->|Hd1].
  { rewrite Z.mod_1_r. change (u64 ((2 ^ 64 - 1) / 1 + 1)) with 0. done. }
  pose proof (Z.div_mod (2 ^ 64 - 1) d ltac:(lia)) as E.
  pose proof (Z.mod_pos_bound (2 ^ 64 - 1) d ltac:(lia)).
  set (m := (2 ^ 64 - 1) / d) in *. set (rho := (2 ^ 64 - 1) mod d) in *.
  assert (0 <= m < 2 ^ 63).
  { unfold m. split; [apply Z.div_pos; lia|apply Z.div_lt_upper_bound; lia]. }
  rewrite (u64_small (m + 1)) by lia.
  pose proof (Z.div_mod n d ltac:(lia)) as En. pose proof (Z.mod_pos_bound n d ltac:(lia)).
  set (q := n / d) in *. set (s := n mod d) in *.
  (* (m + 1) * d = 2^64 + e with e < d, so the low 64 bits of (m + 1) * n are
     (s * 2^64 + n * e) / d *)
  set (e := d - 1 - rho) in *.
  assert (Hlow : u64 ((m + 1) * n) = (m + 1) * n - q * 2 ^ 64).
  { unfold u64, wrap. symmetry. apply Z.mod_unique_pos with q; [|lia].
    assert (Hx : d * ((m + 1) * n - q * 2 ^ 64) = s * 2 ^ 64 + n * e) by (unfold e; nia).
    assert (n * e < 2 ^ 64) by (unfold e; nia). assert (0 <= n * e) by (unfold e; nia).
    split; [apply (Z.mul_le_mono_pos_l _ _ d)|apply (Z.mul_lt_mono_pos_l d)]; nia. }
  rewrite Hlow.
  assert (Hx : d * ((m + 1) * n - q * 2 ^ 64) = s * 2 ^ 64 + n * e) by (unfold e; nia).
  rewrite Hx. assert (0 <= n * e < 2 ^ 64) by (unfold e; nia).
  apply div_between; lia.
Qed.

(** * Properties *)

(** C30: for every width up to 64 bits, every non-zero divisor and every dividend
    of the announced size, [util_compute_fast_udiv_info] returns (no assertion
    fires, every loop ends) and the documented multiply/shift sequence with its
    magic numbers computes the quotient; the multiplier fits the width, and
    pre-shift and increment are never both in use. *)
Theorem util_compute_fast_udiv_info_correct (N nb D : Z) :
  1 <= N <= 64 -> 1 <= nb <= N -> 1 <= D < 2 ^ N ->
  exists info, util_compute_fast_udiv_info D nb N = Some info
    /\ 0 < multiplier info < 2 ^ N
    /\ (increment info = 0 \/ increment info = 1 /\ pre_shift info = 0)
    /\ forall n, 0 <= n < 2 ^ nb -> udiv_sequence N info n = n / D.
Proof.
  intros HN Hnb HD. destruct (udiv_info_correct N HN nb D Hnb HD) as (info & E & [? ? ? ? ? ? ?]).
  exists info. auto.
Qed.

Lemma util_compute_fast_udiv_info_correct_witness :
  exists info, util_compute_fast_udiv_info 28 16 16 = Some info
    /\ udiv_sequence 16 info 65535 = 65535 / 28.
Proof.
  destruct (util_compute_fast_udiv_info_correct 16 16 28) as (info & E & _ & _ & H);
    [lia|lia|lia|].
  exists info. split; [exact E|apply H; lia].
Defined.

(** the 32-bit division helpers of [fast_idiv_by_const.h] compute [n / D] for
    every 32-bit dividend and every non-zero 32-bit divisor: the full version
    always, the no-unsigned-wrap version for every dividend but [UINT32_MAX]. *)
Theorem util_fast_udiv32_correct (D n : Z) :
  1 <= D < 2 ^ 32 -> 0 <= n < 2 ^ 32 ->
  exists info, util_compute_fast_udiv_info D 32 32 = Some info
    /\ util_fast_udiv32 n info = n / D
    /\ (n <> 2 ^ 32 - 1 -> util_fast_udiv32_nuw n info = Some (n / D)).
Proof.
  intros HD Hn.
  destruct (udiv_info_correct 32 ltac:(lia) 32 D ltac:(lia) HD)
    as (info & E & [Hm Hpre Hpost Hinc Hdiv _ _]).
  exists info. split; [done|]. specialize (Hdiv n Hn). unfold udiv_sequence in Hdiv.
  assert (Hs : 0 <= Z.shiftr n (pre_shift info) <= n).
  { rewrite Z.shiftr_div_pow2 by lia. pose proof (pow2_pos (pre_shift info) ltac:(lia)).
    split; [apply Z.div_pos; lia|apply Z.div_le_upper_bound; nia]. }
  set (x := Z.shiftr n (pre_shift info)) in *.
  assert (Hprod : 0 <= multiplier info * (x + increment info) < 2 ^ 64) by nia.
  assert (Hhi : 0 <= multiplier info * (x + increment info) / 2 ^ 32 < 2 ^ 32).
  { split; [apply Z.div_pos; lia|apply Z.div_lt_upper_bound; lia]. }
  rewrite (Z.shiftr_div_pow2 _ 32) in Hdiv by lia. split.
  - unfold util_fast_udiv32. fold x.
    rewrite (u64_small (x + increment info)), (u64_small (_ * _)) by lia.
    rewrite (Z.mul_comm (x + _)). rewrite (Z.shiftr_div_pow2 _ 32), u32_small by lia. done.
  - intros Hne. unfold util_fast_udiv32_nuw. passert ltac:(lia). fold x.
    rewrite (u32_small (x + increment info)), u64_small by lia.
    rewrite (Z.mul_comm (x + _)). rewrite (Z.shiftr_div_pow2 _ 32), u32_small by lia.
    by rewrite Hdiv.
Qed.

Lemma util_fast_udiv32_correct_witness :
  exists info, util_compute_fast_udiv_info 7 32 32 = Some info
    /\ util_fast_udiv32 4294967295 info = 613566756.
Proof.
  destruct (util_fast_udiv32_correct 7 4294967295) as (info & E & H & _); [lia|lia|].
  exists info. split; [exact E|exact H].
Defined.

(** magic numbers computed for 31-bit dividends never need the pre-shift or
    the increment, so the fast path that skips them does not assert and divides
    correctly. *)
Theorem util_fast_udiv32_u31_correct (D n : Z) :
  2 <= D < 2 ^ 32 -> 0 <= n < 2 ^ 31 ->
  exists info, util_compute_fast_udiv_info D 31 32 = Some info
    /\ util_fast_udiv32_u31_d_not_one n info = Some (n / D).
Proof.
  intros HD Hn.
  destruct (udiv_info_correct 32 ltac:(lia) 31 D ltac:(lia) ltac:(lia))
    as (info & E & [Hm Hpre Hpost Hinc Hdiv _ Hsmall]).
  exists info. split; [done|]. specialize (Hdiv n Hn). unfold udiv_sequence in Hdiv.
  destruct Hsmall as [Hi Hp]; [lia|lia|].
  unfold util_fast_udiv32_u31_d_not_one. rewrite Hi, Hp in *. cbn [Z.eqb].
  rewrite Z.shiftr_0_r, Z.add_0_r in Hdiv. rewrite (Z.shiftr_div_pow2 _ 32) in Hdiv by lia.
  rewrite (Z.mul_comm n), u64_small by nia. rewrite (Z.shiftr_div_pow2 _ 32) by lia.
  rewrite u32_small; [by rewrite Hdiv|].
  split; [apply Z.div_pos; nia|apply Z.div_lt_upper_bound; nia].
Qed.

Lemma util_fast_udiv32_u31_correct_witness :
  exists info, util_compute_fast_udiv_info 7 31 32 = Some info
    /\ util_fast_udiv32_u31_d_not_one 2147483647 info = Some 306783378.
Proof.
  destruct (util_fast_udiv32_u31_correct 7 2147483647) as (info & E & H); [lia|lia|].
  exists info. split; [exact E|exact H].
Defined.

(** [util_fast_urem32] with [REMAINDER_MAGIC(d)] is the remainder, for every
    32-bit dividend and every non-zero 32-bit divisor, and both branches of
    [_mul32by64_hi] compute the same bits. *)
Theorem util_fast_urem32_correct (n d : Z) :
  0 <= n < 2 ^ 32 -> 1 <= d < 2 ^ 32 ->
  util_fast_urem32 n d (REMAINDER_MAGIC d) = n mod d
  /\ let lowbits := u64 (REMAINDER_MAGIC d * n) in
     _mul32by64_hi d lowbits = _mul32by64_hi_u128 d lowbits.
Proof.
  intros Hn Hd. split; [by apply fast_urem32_mod|]. cbv zeta.
  rewrite mul32by64_hi_spec, mul32by64_hi_u128_spec by (auto with words; lia). done.
Qed.

Lemma util_fast_urem32_correct_witness :
  util_fast_urem32 4294967295 19 (REMAINDER_MAGIC 19) = 5.
Proof. apply (util_fast_urem32_correct 4294967295 19); lia. Defined.

(** C31: for every width from 2 to 64 bits and every divisor of that width other than [0], [1] and [-1], which the
    assertions refuse, powers of two and the most negative number included (but for the most negative 64-bit number,
    whose negation overflows), [util_compute_fast_sdiv_info] returns and the documented
    signed sequence computes the quotient rounded towards zero for every
    dividend of the width, the most negative one included, without the
    intermediate high product leaving the signed range.  For [0], [1] and [-1] an assertion fails. *)
Theorem util_compute_fast_sdiv_info_correct (N D : Z) :
  2 <= N <= 64 -> - 2 ^ (N - 1) <= D < 2 ^ (N - 1) -> - 2 ^ 63 < D ->
  if Z.abs D <=? 1 then util_compute_fast_sdiv_info D N = None
  else exists info, util_compute_fast_sdiv_info D N = Some info
    /\ forall n, - 2 ^ (N - 1) <= n < 2 ^ (N - 1) ->
         sdiv_sequence N D info n = Z.quot n D
         /\ - 2 ^ (N - 1) <= sdiv_high N D info n < 2 ^ (N - 1).
Proof.
  intros HN HD H63. destruct (Z.leb_spec (Z.abs D) 1) as [Hsmall|Hbig].
  { assert (D = 0 \/ D = 1 \/ D = -1) as [-> | [-> | ->]] by lia; reflexivity. }
  assert (Hinfo : exists info, util_compute_fast_sdiv_info D N = Some info /\ sdiv_info_ok N D info).
  { destruct (Z.eq_dec (Z.abs D) (2 ^ Z.log2 (Z.abs D))) as [E|Hnp].
    - apply (sdiv_info_pow2 N D HN (Z.log2 (Z.abs D))); [|done..]. pose proof (Z.log2_pos (Z.abs D)). lia.
    - apply sdiv_info_correct; [done| |done]. destruct (Z.eq_dec (Z.abs D) (2 ^ (N - 1))) as [E|]; [|lia].
      destruct Hnp. rewrite E, Z.log2_pow2 by lia. done. }
  destruct Hinfo as (info & E & [? ? ? ?]). exists info. auto.
Qed.

Lemma util_compute_fast_sdiv_info_correct_witness :
  exists info, util_compute_fast_sdiv_info (-7) 32 = Some info
    /\ sdiv_sequence 32 (-7) info (-2147483648) = 306783378.
Proof.
  destruct (util_compute_fast_sdiv_info_correct 32 (-7)) as (info & E & H); [lia|lia|lia|].
  exists info. split; [exact E|apply (H (-2147483648)); lia].
Defined.
