(* ===== verification/Rmq.v ===== *)
(** * Range minimum queries (src/util/range_minimum_query.c)

    Row [level] of the table holds, at index [i], the minimum of the [2 ^ level] input
    values from [i] on; row 0 is the input.  The rows share one array of cells; a cell
    that was not written since it was allocated is [None], and reading it (or past the
    end of the array) fails. *)

From Stdlib Require Import ZArith Lia.
From stdpp Require Import base list gmap numbers option.
From S2P Require Import Prelude FastDiv.
Local Open Scope Z_scope.

Record range_minimum_query_table := RmqTable { table : list (option Z); width : Z; height : Z }.

Definition range_minimum_query_table_init : range_minimum_query_table := RmqTable [] 0 0.

(** Access to the cells of an array *)
Definition load {A} (l : list (option A)) (i : Z) : option A :=
  if i <? 0 then None else mjoin (l !! Z.to_nat i).
Definition store {A} (l : list (option A)) (i : Z) (v : A) : option (list (option A)) :=
  if (0 <=? i) && (i <? Z.of_nat (length l)) then Some (<[Z.to_nat i := Some v]> l) else None.

Definition range_minimum_query_table_resize (t : range_minimum_query_table) (width : Z) : option range_minimum_query_table :=
  let height := util_logbase2_64 width + 1 in
  let size := u64 (width * height) in
  assert! size <? UINT32_MAX ;;
  Some (RmqTable (resize (Z.to_nat size) None (table t)) width (u32 height)).

(** [out], [a] and [b] are indices into the one array [t] *)
Definition elementwise_minimum (out a b count : Z) (t : list (option Z)) : option (list (option Z)) :=
  for_each (fun i t => va ← load t (a + i); vb ← load t (b + i); store t (out + i) (MIN2 va vb)) (seqZ 0 count) t.

Definition rmq_distance (level : Z) : Z := u32 (Z.shiftl 1 level).

Definition range_minimum_query_table_preprocess (t : range_minimum_query_table) : option range_minimum_query_table :=
  cells ← for_each (fun i cells =>
      let in_distance := rmq_distance (i - 1) in
      let out_distance := rmq_distance i in
      let in_row := u32 (width t * (i - 1)) in
      let out_row := u32 (width t * i) in
      elementwise_minimum out_row in_row (in_row + in_distance)
        (u32 (width t - out_distance + 1)) cells)
    (seqZ 1 (height t - 1)) (table t);
  Some (RmqTable cells (width t) (height t)).

(** [util_logbase2] of util/u_math.h, the portable branch *)
Definition util_logbase2 (n : Z) : Z :=
  let step (k : Z) (st : Z * Z) :=
    let '(n, pos) := st in
    if n >=? Z.shiftl 1 k then (Z.shiftr n k, pos + k) else (n, pos) in
  let '(n, pos) := step 2 (step 4 (step 8 (step 16 (n, 0)))) in
  if n >=? Z.shiftl 1 1 then pos + 1 else pos.

Definition range_minimum_query (t : range_minimum_query_table) (left_idx right_idx : Z) : option Z :=
  assert! left_idx <? right_idx ;;
  assert! right_idx <=? width t ;;
  let distance := u32 (right_idx - left_idx) in
  let level := util_logbase2 distance in
  assert! rmq_distance level <=? distance ;;
  assert! distance <? u32 (2 * rmq_distance level) ;;
  assert! level <? height t ;;
  let row := u32 (width t * level) in
  left ← load (table t) (row + left_idx);
  right ← load (table t) (row + u32 (right_idx - rmq_distance level));
  Some (MIN2 left right).

(** ** Cells *)

Lemma load_store {A} (l l' : list (option A)) i v j : store l i v = Some l' ->
  load l' j = if decide (j = i) then Some v else load l j.
Proof.
  unfold store, load. intros H. case_hyp_if; [|done]. zbool. injection H as <-.
  destruct (decide (j = i)) as [->|Hne].
  - destruct (Z.ltb_spec i 0); [lia|]. by rewrite list_lookup_insert_eq by lia.
  - destruct (Z.ltb_spec j 0); [done|]. by rewrite list_lookup_insert_ne by lia.
Qed.

Lemma store_length {A} (l l' : list (option A)) i v : store l i v = Some l' -> length l' = length l.
Proof. unfold store. intros H. case_hyp_if; [|done]. injection H as <-. apply length_insert. Qed.

Lemma cell_store_ok {A} (l : list (option A)) i v : 0 <= i < Z.of_nat (length l) -> exists l', store l i v = Some l'.
Proof. intros Hi. unfold store. passert ltac:(lia). eauto. Qed.

(** A loop over [a, a + 1, ...]; [I k] holds before the element [k]. *)
Lemma for_each_seqZ_rule {S : Type} (I : Z -> S -> Prop) body a n s :
  0 <= n -> I a s ->
  (forall k s, a <= k < a + n -> I k s -> exists s', body k s = Some s' /\ I (k + 1) s') ->
  exists s', for_each body (seqZ a n) s = Some s' /\ I (a + n) s'.
Proof.
  intros Hn H0 Hstep. destruct (for_each_rule (fun pre s => I (a + Z.of_nat (length pre)) s) body (seqZ a n) s)
    as (s' & E & H).
  - cbn [length]. by rewrite Z.add_0_r.
  - intros pre x post s1 E HI. assert (x = a + Z.of_nat (length pre)) as ->.
    { assert (Hx : seqZ a n !! length pre = Some x) by (rewrite E; apply list_lookup_middle; done).
      apply lookup_seqZ in Hx. lia. }
    apply Hstep in HI as (s' & ? & ?).
    + exists s'. split; [done|]. rewrite length_app. cbn. by replace (a + Z.of_nat (length pre + 1)) with (a + Z.of_nat (length pre) + 1) by lia.
    + apply (f_equal length) in E. rewrite length_seqZ, length_app in E. cbn in E. lia.
  - exists s'. split; [done|]. rewrite length_seqZ in H. by rewrite Z2Nat.id in H by lia.
Qed.

(** Apply the rule to the loop in the goal. *)
Ltac seqZ_loop I :=
  match goal with
  | |- context [for_each ?body (seqZ ?a ?n) ?s] =>
      let s' := fresh "s'" in let E := fresh "Es'" in let H := fresh "Hs'" in
      destruct (for_each_seqZ_rule I body a n s) as (s' & E & H)
  end.

Lemma util_logbase2_log2 n : 0 < n < 2 ^ 32 -> util_logbase2 n = Z.log2 n.
Proof.
  intros Hn. assert (E : util_logbase2 n = util_logbase2_64 n).
  { unfold util_logbase2_64. replace (n >=? Z.shiftl 1 32) with false; [done|].
    symmetry. rewrite Z.geb_leb. apply Z.leb_gt. rewrite shiftl_1 by lia. lia. }
  rewrite E. apply util_logbase2_64_log2. lia.
Qed.

(** ** Minima of ranges *)

Definition is_min (vs : list Z) (left right m : Z) : Prop :=
  (exists i, left <= i < right /\ 0 <= i /\ vs !! Z.to_nat i = Some m) /\
  (forall i v, left <= i < right -> vs !! Z.to_nat i = Some v -> m <= v).

Lemma is_min_merge vs l r l' r' a b : l <= l' <= r -> r <= r' -> is_min vs l r a -> is_min vs l' r' b ->
  is_min vs l r' (MIN2 a b).
Proof.
  intros Hl Hr [(i & Hi & Hi0 & Ea) Ha] [(j & Hj & Hj0 & Eb) Hb]. rewrite MIN2_min. split.
  - destruct (Z.min_spec a b) as [[_ ->]|[_ ->]]; [exists i|exists j]; auto with lia.
  - intros k v Hk E. destruct (decide (k < r)).
    + pose proof (Ha k v ltac:(lia) E). lia.
    + pose proof (Hb k v ltac:(lia) E). lia.
Qed.

Lemma is_min_unique vs l r a b : is_min vs l r a -> is_min vs l r b -> a = b.
Proof.
  intros [(i & Hi & _ & Ea) Ha] [(j & Hj & _ & Eb) Hb].
  pose proof (Ha _ _ Hj Eb). pose proof (Hb _ _ Hi Ea). lia.
Qed.

Lemma elementwise_minimum_ok t out a b count (f : Z -> Z) :
  0 <= count -> 0 <= a -> 0 <= b -> a + count <= out -> b + count <= out ->
  out + count <= Z.of_nat (length t) ->
  (forall i, 0 <= i < count -> exists va vb, load t (a + i) = Some va /\ load t (b + i) = Some vb /\ f i = MIN2 va vb) ->
  exists t', elementwise_minimum out a b count t = Some t' /\ length t' = length t /\
    forall j, load t' j = if decide (out <= j < out + count) then Some (f (j - out)) else load t j.
Proof.
  intros Hc Ha Hb Hao Hbo Hlen Hf. unfold elementwise_minimum.
  seqZ_loop (fun k t' => length t' = length t /\
    forall j, load t' j = if decide (out <= j < out + k) then Some (f (j - out)) else load t j).
  - exact Hc.
  - split; [done|]. intros j. rewrite decide_False by lia. done.
  - intros k s Hk [Hl Hs]. destruct (Hf k ltac:(lia)) as (va & vb & Ea & Eb & Ef).
    rewrite (Hs (a + k)), (Hs (b + k)), !decide_False by lia. rewrite Ea, Eb. cbn [mbind option_bind].
    destruct (cell_store_ok s (out + k) (MIN2 va vb)) as [s' Es]; [lia|]. exists s'.
    split; [done|]. rewrite (store_length _ _ _ _ Es). split; [done|]. intros j.
    rewrite (load_store _ _ _ _ j Es), Hs.
    destruct (decide (j = out + k)) as [->|]; repeat case_decide; try lia; [|done..].
    rewrite <- Ef. f_equal. f_equal. lia.
  - rewrite Z.add_0_l in Hs'. eauto.
Qed.

(** ** The table *)

Record rmq_shape (t : range_minimum_query_table) : Prop := {
  rmq_width : 0 < width t;
  rmq_size : width t * height t < 2 ^ 32 - 1;
  rmq_height : height t = Z.log2 (width t) + 1;
  rmq_cells : Z.of_nat (length (table t)) = width t * height t }.

(** The first row holds the values [vs]. *)
Definition rmq_input (t : range_minimum_query_table) (vs : list Z) : Prop :=
  Z.of_nat (length vs) = width t /\
  forall i v, 0 <= i -> vs !! Z.to_nat i = Some v -> load (table t) i = Some v.

Definition row_ok (cells : list (option Z)) (w : Z) (vs : list Z) (level : Z) : Prop :=
  forall i, 0 <= i -> i + 2 ^ level <= w ->
  exists m, load cells (w * level + i) = Some m /\ is_min vs i (i + 2 ^ level) m.

(** Every row is computed: the table is ready for queries. *)
Record rmq_ready (t : range_minimum_query_table) (vs : list Z) : Prop := {
  ready_shape : rmq_shape t;
  ready_rows : forall level, 0 <= level < height t -> row_ok (table t) (width t) vs level }.

Lemma rmq_shape_level t level : rmq_shape t -> 0 <= level < height t -> 2 ^ level <= width t /\ level < 32 /\ width t < 2 ^ 32.
Proof.
  intros [Hw Hs Hh _] Hl. pose proof (Z.log2_nonneg (width t)). assert (width t < 2 ^ 32) by nia.
  assert (Z.log2 (width t) < 32) by (apply Z.log2_lt_pow2; lia).
  split; [|lia]. transitivity (2 ^ Z.log2 (width t)); [apply pow2_le; lia|]. apply Z.log2_spec. done.
Qed.

Lemma rmq_distance_pow2 level : 0 <= level < 32 -> rmq_distance level = 2 ^ level.
Proof.
  intros Hl. unfold rmq_distance. rewrite shiftl_1 by lia.
  pose proof (pow2_lt level 32). pose proof (pow2_pos level). apply u32_small. lia.
Qed.

Lemma row_offset t level : rmq_shape t -> 0 <= level <= height t -> u32 (width t * level) = width t * level.
Proof. intros [Hw Hs Hh _] Hl. apply u32_small. nia. Qed.

Lemma row_ok_input t vs : rmq_shape t -> rmq_input t vs -> row_ok (table t) (width t) vs 0.
Proof.
  intros Hs [Hl Hi] i Hi0 Hiw. change (2 ^ 0) with 1 in *.
  destruct (lookup_lt_is_Some_2 vs (Z.to_nat i)) as [v Hv]; [lia|].
  exists v. rewrite Z.mul_0_r, Z.add_0_l. split; [by apply Hi|].
  split; [exists i; auto with lia|]. intros j u Hj Hu. assert (j = i) as -> by lia. assert (u = v) by congruence. lia.
Qed.

Lemma row_ok_ext cells cells' w vs level : 0 <= level -> 0 < w ->
  (forall j, 0 <= j < w * (level + 1) -> load cells' j = load cells j) ->
  row_ok cells w vs level -> row_ok cells' w vs level.
Proof.
  intros Hl Hw Hext H i Hi Hiw. destruct (H i Hi Hiw) as (m & E & Hm). exists m. split; [|done].
  pose proof (pow2_pos level Hl). rewrite Hext; [done|nia].
Qed.

(** One row from the row before it *)
Lemma next_row_ok cells w h vs k : Z.of_nat (length cells) = w * h -> 1 <= k < h -> 2 ^ k <= w ->
  row_ok cells w vs (k - 1) ->
  exists cells', elementwise_minimum (w * k) (w * (k - 1)) (w * (k - 1) + 2 ^ (k - 1)) (w - 2 ^ k + 1) cells = Some cells' /\
    length cells' = length cells /\ (forall j, 0 <= j < w * k -> load cells' j = load cells j) /\
    row_ok cells' w vs k.
Proof.
  intros Hlen Hk Hw Hrow. assert (Hp : 2 ^ k = 2 * 2 ^ (k - 1)) by (apply pow2_half; lia).
  pose proof (pow2_pos (k - 1) ltac:(lia)).
  pose (f i := MIN2 (default 0 (load cells (w * (k - 1) + i))) (default 0 (load cells (w * (k - 1) + 2 ^ (k - 1) + i)))).
  assert (Hf : forall i, 0 <= i < w - 2 ^ k + 1 -> exists a b, load cells (w * (k - 1) + i) = Some a /\
    load cells (w * (k - 1) + 2 ^ (k - 1) + i) = Some b /\ f i = MIN2 a b /\ is_min vs i (i + 2 ^ k) (f i)).
  { intros i Hi. destruct (Hrow i) as (a & Ea & Ha); [lia..|].
    destruct (Hrow (2 ^ (k - 1) + i)) as (b & Eb & Hb); [lia..|]. rewrite Z.add_assoc in Eb.
    exists a, b. unfold f. rewrite Ea, Eb. cbn [default from_option]. do 3 (split; [done|]).
    replace (i + 2 ^ k) with (2 ^ (k - 1) + i + 2 ^ (k - 1)) by lia. eapply is_min_merge; [| |exact Ha|exact Hb]; lia. }
  destruct (elementwise_minimum_ok cells (w * k) (w * (k - 1)) (w * (k - 1) + 2 ^ (k - 1)) (w - 2 ^ k + 1) f)
    as (cells' & E & Hl & Hload); [nia..| |].
  { intros i Hi. destruct (Hf i Hi) as (a & b & ? & ? & ? & _). eauto. }
  exists cells'. split; [done|]. split; [done|]. split.
  - intros j Hj. rewrite Hload, decide_False by lia. done.
  - intros i Hi Hiw. destruct (Hf i ltac:(lia)) as (_ & _ & _ & _ & _ & Hm).
    exists (f i). rewrite Hload, decide_True by lia. split; [do 2 f_equal; lia|done].
Qed.

Lemma preprocess_ok t vs : rmq_shape t -> rmq_input t vs ->
  exists t', range_minimum_query_table_preprocess t = Some t' /\ rmq_ready t' vs /\ width t' = width t.
Proof.
  intros Hs Hin. pose proof Hs as [Hw Hsz Hh Hc]. pose proof (Z.log2_nonneg (width t)).
  unfold range_minimum_query_table_preprocess.
  seqZ_loop (fun k cells => length cells = length (table t) /\
    forall level, 0 <= level < k -> row_ok cells (width t) vs level).
  - lia.
  - split; [done|]. intros level Hl. assert (level = 0) as -> by lia. by apply row_ok_input.
  - intros k cells Hk [Hlen Hrows].
    destruct (rmq_shape_level t k Hs) as (Hk1 & Hk2 & Hk3); [lia|].
    rewrite !rmq_distance_pow2, !row_offset by (done || lia).
    pose proof (pow2_pos k ltac:(lia)). rewrite (u32_small (_ - _ + 1)) by lia.
    destruct (next_row_ok cells (width t) (height t) vs k) as (cells' & E & Hl' & Hext & Hr); [lia..| |].
    { apply Hrows. lia. }
    exists cells'. split; [done|]. split; [congruence|]. intros level Hlev.
    destruct (decide (level = k)) as [->|]; [done|].
    eapply row_ok_ext; [| | |apply Hrows]; [lia| lia | |lia]. intros j Hj. apply Hext. nia.
  - rewrite Es'. cbn [mbind option_bind]. eexists. split; [done|]. destruct Hs' as [Hl' Hr].
    split; [|done]. split; cbn [width height table].
    + split; cbn [width height table]; congruence || lia.
    + intros level Hl. apply Hr. lia.
Qed.

Lemma query_ok t vs l r : rmq_ready t vs -> 0 <= l < r -> r <= width t ->
  exists m, range_minimum_query t l r = Some m /\ is_min vs l r m.
Proof.
  intros [Hs Hrows] Hl Hr. pose proof Hs as [Hw Hsz Hh Hc].
  destruct (rmq_shape_level t 0 Hs) as (_ & _ & Hw32); [pose proof (Z.log2_nonneg (width t)); lia|].
  unfold range_minimum_query. rewrite u32_small by lia. rewrite util_logbase2_log2 by lia.
  set (k := Z.log2 (r - l)). pose proof (Z.log2_nonneg (r - l)).
  destruct (Z.log2_spec (r - l)) as [H1 H2]; [lia|]. fold k in H1, H2, H.
  assert (Hk : k < height t) by (pose proof (Z.log2_le_mono (r - l) (width t) ltac:(lia)); lia).
  destruct (rmq_shape_level t k Hs) as (Hk1 & Hk2 & _); [lia|]. rewrite rmq_distance_pow2 by lia.
  rewrite <- Z.add_1_r, pow2_succ in H2 by lia.
  assert (Hu : r - l < u32 (2 * 2 ^ k)).
  { destruct (decide (k = 31)) as [->|]; [|pose proof (pow2_lt k 31); rewrite u32_small; lia].
    assert (2 ^ 31 * 32 <= width t * height t) by (apply Z.mul_le_mono_nonneg; lia). lia. }
  rewrite row_offset by (done || lia). rewrite (u32_small (r - 2 ^ k)) by lia.
  passert ltac:(lia).
  destruct (Hrows k ltac:(lia) l) as (a & Ea & Ha); [lia..|].
  destruct (Hrows k ltac:(lia) (r - 2 ^ k)) as (b & Eb & Hb); [lia..|].
  rewrite Ea. cbn [mbind option_bind]. rewrite Eb. cbn [mbind option_bind]. exists (MIN2 a b). split; [done|].
  rewrite Z.sub_add in Hb. eapply is_min_merge; [| |exact Ha|exact Hb]; lia.
Qed.

(** [range_minimum_query_table_resize] gives a table of the right shape and keeps the first cells. *)
Lemma resize_ok t w : 0 < w -> w * (Z.log2 w + 1) < 2 ^ 32 - 1 ->
  exists t', range_minimum_query_table_resize t w = Some t' /\ rmq_shape t' /\ width t' = w /\
    forall i, 0 <= i < w * (Z.log2 w + 1) -> load (table t') i = load (table t) i.
Proof.
  intros Hw Hs. pose proof (Z.log2_nonneg w). assert (w < 2 ^ 32) by nia.
  unfold range_minimum_query_table_resize. rewrite util_logbase2_64_log2 by lia.
  unfold UINT32_MAX. rewrite u64_small, u32_small by nia. passert ltac:(lia).
  eexists. split; [done|]. split; [split; cbn [width height table]; rewrite ?length_resize; lia|]. split; [done|].
  intros i Hi. cbn [table]. unfold load. destruct (Z.ltb_spec i 0); [lia|].
  destruct (decide (Z.to_nat i < length (table t))%nat).
  - by rewrite lookup_resize by lia.
  - rewrite lookup_resize_new by lia. by rewrite lookup_ge_None_2 by lia.
Qed.

(** range minimum queries are exact.  A table resized to the number of values (at
    least one, and few enough for the size assertion), whose first row is then filled with
    the values and preprocessed, answers every query on a non-empty range within the
    table with the smallest of the values of that range: no assertion fails and no
    cell is read that was not computed. *)
Theorem range_minimum_query_correct t vs : 0 < Z.of_nat (length vs) ->
  Z.of_nat (length vs) * (Z.log2 (Z.of_nat (length vs)) + 1) < 2 ^ 32 - 1 ->
  exists t1, range_minimum_query_table_resize t (Z.of_nat (length vs)) = Some t1 /\
  forall t2, width t2 = width t1 -> height t2 = height t1 -> length (table t2) = length (table t1) -> rmq_input t2 vs ->
  exists t3, range_minimum_query_table_preprocess t2 = Some t3 /\
  forall l r, 0 <= l < r -> r <= Z.of_nat (length vs) ->
  exists m, range_minimum_query t3 l r = Some m /\ is_min vs l r m.
Proof.
  intros H0 H1. destruct (resize_ok t _ H0 H1) as (t1 & E1 & [Hs1 Hs2 Hs3 Hs4] & Hw & _).
  exists t1. split; [done|]. intros t2 Ew Eh El Hin.
  destruct (preprocess_ok t2 vs) as (t3 & E3 & Hr & Hw3); [split; congruence|done|].
  exists t3. split; [done|]. intros l r Hl Hr'. apply query_ok; [done..|congruence].
Qed.

Definition example_values : list Z := [5; 3; 8; 1; 9; 2].

Lemma range_minimum_query_correct_witness : exists t1,
  range_minimum_query_table_resize range_minimum_query_table_init 6 = Some t1 /\
  exists t3, range_minimum_query_table_preprocess
    (RmqTable (map Some example_values ++ drop 6 (table t1)) (width t1) (height t1)) = Some t3 /\
  range_minimum_query t3 0 3 = Some 3 /\ range_minimum_query t3 4 6 = Some 2 /\
  exists m, range_minimum_query t3 1 6 = Some m /\ is_min example_values 1 6 m.
Proof.
  destruct (range_minimum_query_correct range_minimum_query_table_init example_values) as (t1 & E1 & H);
    [vm_compute; reflexivity..|].
  exists t1. split; [exact E1|]. vm_compute in E1. injection E1 as <-.
  destruct (H (RmqTable (map Some example_values ++ repeat None 12) 6 3)) as (t3 & E3 & H3); [reflexivity..| |].
  - split; [reflexivity|]. intros i v Hi Hv. unfold load. destruct (Z.ltb_spec i 0); [lia|].
    destruct (Z.to_nat i) as [|[|[|[|[|[|]]]]]]; vm_compute in Hv |- *; first [exact Hv|discriminate Hv].
  - exists t3. split; [exact E3|]. assert (E3' := E3). vm_compute in E3'. injection E3' as <-.
    split; [reflexivity|]. split; [reflexivity|]. apply H3; cbn; lia.
Defined.
