(* ===== verification/NirOpcodes.v ===== *)
(** * The integer opcodes of NIR (src/compiler/nir/nir_opcodes.py)

    What the constant expressions of nir_opcodes.py compute, on bit patterns: an
    [N]-bit value is a number below [2^N], and the opcodes with signed sources read it
    in two's complement.  NirIdivConst.v and NirLowerInt64.v state the correctness of
    their passes with these. *)

From Stdlib Require Import ZArith Lia.
From stdpp Require Import base list numbers option.
From S2P Require Import Prelude.
Local Open Scope Z_scope.

Inductive nir_alu1 := nir_op_ineg | nir_op_iabs | nir_op_isign | nir_op_inot.
Inductive nir_alu2 :=
  nir_op_iadd | nir_op_isub | nir_op_imul | nir_op_uadd_sat | nir_op_umul_high
| nir_op_imul_high | nir_op_iand | nir_op_ior | nir_op_ixor
| nir_op_imin | nir_op_imax | nir_op_umin | nir_op_umax.
Inductive nir_shift := nir_op_ishl | nir_op_ishr | nir_op_ushr.
Inductive nir_cmp := nir_op_ieq | nir_op_ine | nir_op_ilt | nir_op_ige | nir_op_ult | nir_op_uge.

(** ** Arithmetic, shifts and comparisons *)

Definition eval_alu1 (N : Z) (op : nir_alu1) (a : Z) : Z :=
  let s := signed N a in
  match op with
  | nir_op_ineg => if s =? - 2 ^ (N - 1) then a else wrap N (- s)
  | nir_op_iabs => wrap N (if s <? 0 then - s else s)
  | nir_op_isign => wrap N (if s =? 0 then 0 else if s >? 0 then 1 else -1)
  | nir_op_inot => Z.lxor a (2 ^ N - 1)
  end.

Definition eval_alu2 (N : Z) (op : nir_alu2) (a b : Z) : Z :=
  match op with
  | nir_op_iadd => wrap N (a + b)
  | nir_op_isub => wrap N (a - b)
  | nir_op_imul => wrap N (a * b)
  | nir_op_uadd_sat => if a + b >=? 2 ^ N then 2 ^ N - 1 else a + b
  | nir_op_umul_high => Z.shiftr (a * b) N
  | nir_op_imul_high => wrap N (Z.shiftr (signed N a * signed N b) N)
  | nir_op_iand => Z.land a b
  | nir_op_ior => Z.lor a b
  | nir_op_ixor => Z.lxor a b
  | nir_op_imin => wrap N (MIN2 (signed N a) (signed N b))
  | nir_op_imax => wrap N (MAX2 (signed N a) (signed N b))
  | nir_op_umin => MIN2 a b
  | nir_op_umax => MAX2 a b
  end.

Definition eval_shift (N : Z) (op : nir_shift) (a s : Z) : Z :=
  let k := Z.land s (N - 1) in
  match op with
  | nir_op_ishl => wrap N (Z.shiftl a k)
  | nir_op_ishr => wrap N (Z.shiftr (signed N a) k)
  | nir_op_ushr => Z.shiftr a k
  end.

Definition eval_cmp (N : Z) (op : nir_cmp) (a b : Z) : bool :=
  match op with
  | nir_op_ieq => a =? b
  | nir_op_ine => negb (a =? b)
  | nir_op_ilt => signed N a <? signed N b
  | nir_op_ige => signed N a >=? signed N b
  | nir_op_ult => a <? b
  | nir_op_uge => a >=? b
  end.

(** ** Division, with the cases nir_opcodes.py spells out *)
Inductive nir_div_op := nir_op_udiv | nir_op_idiv | nir_op_umod | nir_op_imod | nir_op_irem.

Definition eval_div (N : Z) (op : nir_div_op) (src0 src1 : Z) : Z :=
  let s0 := signed N src0 in
  let s1 := signed N src1 in
  let skip := (s1 =? 0) || ((s0 =? - 2 ^ (N - 1)) && (s1 =? -1)) in
  match op with
  | nir_op_udiv => if src1 =? 0 then 0 else src0 / src1
  | nir_op_umod => if src1 =? 0 then 0 else src0 mod src1
  | nir_op_idiv => if skip then 0 else wrap N (Z.quot s0 s1)
  | nir_op_irem => if skip then 0 else wrap N (Z.rem s0 s1)
  | nir_op_imod =>
      if skip then 0
      else if (Z.rem s0 s1 =? 0) || Bool.eqb (s0 >=? 0) (s1 >=? 0)
      then wrap N (Z.rem s0 s1)
      else wrap N (Z.rem s0 s1 + s1)
  end.


(** ** Bits and fields *)

(** The loops over the bits of the source: the highest one, the lowest one, their
    number, and their reversal. *)
Fixpoint msb_loop (n : nat) (a : Z) : Z :=
  match n with
  | O => -1
  | S n => if Z.testbit a (Z.of_nat n) then Z.of_nat n else msb_loop n a
  end.
Definition eval_ufind_msb (N a : Z) : Z := wrap 32 (msb_loop (Z.to_nat N) a).

Fixpoint lsb_loop (l : list Z) (a : Z) : Z :=
  match l with
  | [] => -1
  | bit :: l => if Z.testbit a bit then bit else lsb_loop l a
  end.
Definition eval_find_lsb (N a : Z) : Z := wrap 32 (lsb_loop (seqZ 0 N) a).

Fixpoint count_loop (l : list Z) (a dst : Z) : Z :=
  match l with
  | [] => dst
  | bit :: l => count_loop l a (if Z.testbit a bit then dst + 1 else dst)
  end.
Definition eval_bit_count (N a : Z) : Z := count_loop (seqZ 0 N) a 0.

Definition eval_bitfield_reverse (N a : Z) : Z :=
  foldl (fun dst bit => Z.lor dst (Z.shiftl (Z.b2z (Z.testbit a bit)) (N - 1 - bit))) 0 (seqZ 0 N).

Definition eval_bitfield_select (N mask a b : Z) : Z :=
  Z.lor (Z.land mask a) (Z.land (Z.lxor mask (2 ^ N - 1)) b).

(** [extract_u8], [extract_i8], [extract_u16] and [extract_i16]: [width] is 8 or 16. *)
Definition eval_extract (N : Z) (sign : bool) (width a chunk : Z) : Z :=
  if chunk * width >=? N then 0
  else
    let v := wrap width (Z.shiftr a (chunk * width)) in
    if sign then wrap N (signed width v) else v.

(** [pack_64_2x32_split], [unpack_64_2x32_split_x] and [_y], [u2uN], [i2iN] *)
Definition eval_pack (lo hi : Z) : Z := Z.lor lo (Z.shiftl hi 32).
Definition eval_unpack_x (a : Z) : Z := wrap 32 a.
Definition eval_unpack_y (a : Z) : Z := Z.shiftr a 32.
Definition eval_u2u (dst a : Z) : Z := wrap dst a.
Definition eval_i2i (src dst a : Z) : Z := wrap dst (signed src a).

(** [umul_2x32_64] and [imul_2x32_64] *)
Definition eval_mul_2x32_64 (sign : bool) (a b : Z) : Z :=
  if sign then wrap 64 (signed 32 a * signed 32 b) else a * b.

(** [ubitfield_extract] and [ibitfield_extract]; [offset] and [bits] are signed 32-bit
    values.  The base is copied to an [unsigned] or an [int] of 32 bits first, so that a
    field of a 64-bit base that reaches beyond bit 31 is lost, or shifts by more than
    the width, which C leaves undefined. *)
Definition eval_ubitfield_extract (N a offset bits : Z) : Z :=
  let base := wrap 32 a in
  if bits =? 0 then 0
  else if (bits <? 0) || (offset <? 0) || (offset + bits >? N) then 0
  else Z.land (Z.shiftr base offset) (2 ^ bits - 1).
Definition eval_ibitfield_extract (N a offset bits : Z) : Z :=
  let base := wrap 32 a in
  if bits =? 0 then 0
  else if (offset <? 0) || (bits <? 0) || (offset + bits >? N) then 0
  else wrap N (Z.shiftr (signed 32 (wrap 32 (Z.shiftl base (32 - offset - bits)))) (32 - bits)).
