(* ===== verification/NirIdivConst.v ===== *)
(** * The NIR pass nir_opt_idiv_const (src/compiler/nir/nir_opt_idiv_const.c)

    The pass replaces integer division and remainder by a constant with shifts,
    masks and multiplications.  NIR SSA values built by the pass are terms of
    [nir_def] over one free SSA value (the numerator channel); [eval] gives them
    the meaning nir_opcodes.py assigns to the opcodes.  The theorems state that
    evaluating what the pass builds gives what the original opcode evaluates to. *)

From Stdlib Require Import ZArith Lia.
From stdpp Require Import base list numbers option.
From S2P Require Import Prelude FastDiv NirOpcodes.
Local Open Scope Z_scope.

(** ** NIR values *)

(** [nir_def] are values of the numerator's bit size, [nir_bool] 1-bit values;
    the second source of a shift is always a 32-bit immediate here. *)
Inductive nir_def : Type :=
| nir_ssa
| nir_imm (x : Z)
| nir_unop (op : nir_alu1) (a : nir_def)
| nir_binop (op : nir_alu2) (a b : nir_def)
| nir_shiftop (op : nir_shift) (a : nir_def) (s : Z)
| nir_b2iN (c : nir_bool)
| nir_bcsel (c : nir_bool) (a b : nir_def)
with nir_bool : Type :=
| nir_cmpop (op : nir_cmp) (a b : nir_def)
| nir_inot (c : nir_bool)
| nir_ior1 (c d : nir_bool).

(** ** Evaluation *)

Fixpoint eval (N x : Z) (e : nir_def) : Z :=
  match e with
  | nir_ssa => x
  | nir_imm v => wrap N v
  | nir_unop op a => eval_alu1 N op (eval N x a)
  | nir_binop op a b => eval_alu2 N op (eval N x a) (eval N x b)
  | nir_shiftop op a s => eval_shift N op (eval N x a) s
  | nir_b2iN c => if eval_bool N x c then 1 else 0
  | nir_bcsel c a b => if eval_bool N x c then eval N x a else eval N x b
  end
with eval_bool (N x : Z) (c : nir_bool) : bool :=
  match c with
  | nir_cmpop op a b => eval_cmp N op (eval N x a) (eval N x b)
  | nir_inot c => negb (eval_bool N x c)
  | nir_ior1 c d => eval_bool N x c || eval_bool N x d
  end.

(** ** Builder helpers (nir_builder.h) *)

Definition INT64_MAX : Z := 2 ^ 63 - 1.
Definition u_intN_max (bit_size : Z) : Z := Z.shiftr INT64_MAX (64 - bit_size).
Definition u_intN_min (bit_size : Z) : Z := - u_intN_max bit_size - 1.

(** [nir_imm_intN_t]: the constant is truncated when it is evaluated; a negative
    [int64_t] argument is converted to [uint64_t] first. *)
Definition nir_imm_intN_t (x : Z) : nir_def := nir_imm (u64 x).

Definition nir_ushr_imm (x : nir_def) (y : Z) : nir_def :=
  if y =? 0 then x else nir_shiftop nir_op_ushr x y.

Definition nir_ishr_imm (x : nir_def) (y : Z) : nir_def :=
  if y =? 0 then x else nir_shiftop nir_op_ishr x y.

Definition nir_iadd_imm (bit_size : Z) (x : nir_def) (y : Z) : nir_def :=
  let y := Z.land (u64 y) (BITFIELD64_MASK bit_size) in
  if y =? 0 then x else nir_binop nir_op_iadd x (nir_imm_intN_t y).

Definition nir_iand_imm (bit_size : Z) (x : nir_def) (y : Z) : nir_def :=
  let y := Z.land (u64 y) (BITFIELD64_MASK bit_size) in
  if y =? 0 then nir_imm_intN_t 0
  else if y =? BITFIELD64_MASK bit_size then x
  else nir_binop nir_op_iand x (nir_imm_intN_t y).

(** [lower_bitops] is the option of nir_shader_compiler_options the helper reads. *)
Definition nir_imul_imm (lower_bitops : bool) (bit_size : Z) (x : nir_def) (y : Z) : nir_def :=
  let y := Z.land (u64 y) (BITFIELD64_MASK bit_size) in
  if y =? 0 then nir_imm_intN_t 0
  else if y =? 1 then x
  else if negb lower_bitops && IS_POT64 y
  then nir_shiftop nir_op_ishl x (util_logbase2_64 y)
  else nir_binop nir_op_imul x (nir_imm_intN_t y).

Definition nir_ieq_imm (a : nir_def) (y : Z) : nir_bool := nir_cmpop nir_op_ieq a (nir_imm_intN_t y).
Definition nir_ilt_imm (a : nir_def) (y : Z) : nir_bool := nir_cmpop nir_op_ilt a (nir_imm_intN_t y).
Definition nir_uge_imm (a : nir_def) (y : Z) : nir_bool := nir_cmpop nir_op_uge a (nir_imm_intN_t y).

(** ** The pass *)

(** [d] is a [uint64_t]. *)
Definition build_udiv (bit_size : Z) (n : nir_def) (d : Z) : option nir_def :=
  let uint_max := u_uintN_max bit_size in
  if d =? 0 then Some (nir_imm_intN_t 0)
  else if d =? uint_max then Some (nir_b2iN (nir_ieq_imm n uint_max))
  else if d >? uint_max / 2 then Some (nir_b2iN (nir_uge_imm n d))
  else if IS_POT64 d then Some (nir_ushr_imm n (util_logbase2_64 d))
  else
    m ← util_compute_fast_udiv_info d bit_size bit_size;
    let n := if negb (pre_shift m =? 0) then nir_ushr_imm n (pre_shift m) else n in
    let n := if negb (increment m =? 0)
             then nir_binop nir_op_uadd_sat n (nir_imm_intN_t (increment m)) else n in
    let n := nir_binop nir_op_umul_high n (nir_imm_intN_t (multiplier m)) in
    Some (if negb (post_shift m =? 0) then nir_ushr_imm n (post_shift m) else n).

Definition build_umod (lower_bitops : bool) (bit_size : Z) (n : nir_def) (d : Z) : option nir_def :=
  if d =? 0 then Some (nir_imm_intN_t 0)
  else if IS_POT64 d then Some (nir_iand_imm bit_size n (d - 1))
  else
    q ← build_udiv bit_size n d;
    Some (nir_binop nir_op_isub n (nir_imul_imm lower_bitops bit_size q d)).

(** [d] is an [int64_t]. *)
Definition build_idiv (bit_size : Z) (n : nir_def) (d : Z) : option nir_def :=
  let int_min := u_intN_min bit_size in
  if d =? int_min then Some (nir_b2iN (nir_ieq_imm n int_min))
  else
    let abs_d := u64 (if d <? 0 then - d else d) in
    if d =? 0 then Some (nir_imm_intN_t 0)
    else if d =? 1 then Some n
    else if d =? -1 then Some (nir_unop nir_op_ineg n)
    else if IS_POT64 abs_d then
      let uq := nir_ushr_imm (nir_unop nir_op_iabs n) (util_logbase2_64 abs_d) in
      let n_neg := nir_ilt_imm n 0 in
      let neg := if d <? 0 then nir_inot n_neg else n_neg in
      Some (nir_bcsel neg (nir_unop nir_op_ineg uq) uq)
    else
      m ← util_compute_fast_sdiv_info d bit_size;
      let res := nir_binop nir_op_imul_high n (nir_imm_intN_t (s_multiplier m)) in
      let res := if (d >? 0) && (s_multiplier m <? 0) then nir_binop nir_op_iadd res n else res in
      let res := if (d <? 0) && (s_multiplier m >? 0) then nir_binop nir_op_isub res n else res in
      let res := if negb (s_shift m =? 0) then nir_ishr_imm res (s_shift m) else res in
      Some (nir_binop nir_op_iadd res (nir_ushr_imm res (bit_size - 1))).

Definition build_irem (lower_bitops : bool) (bit_size : Z) (n : nir_def) (d : Z) : option nir_def :=
  let int_min := u_intN_min bit_size in
  if d =? 0 then Some (nir_imm_intN_t 0)
  else if d =? int_min then
    Some (nir_bcsel (nir_ieq_imm n int_min) (nir_imm_intN_t 0) n)
  else
    let d := if d <? 0 then - d else d in
    if IS_POT64 d then
      let tmp := nir_bcsel (nir_ilt_imm n 0) (nir_iadd_imm bit_size n (d - 1)) n in
      Some (nir_binop nir_op_isub n (nir_iand_imm bit_size tmp (- d)))
    else
      q ← build_idiv bit_size n d;
      Some (nir_binop nir_op_isub n (nir_imul_imm lower_bitops bit_size q d)).

Definition build_imod (lower_bitops : bool) (bit_size : Z) (n : nir_def) (d : Z) : option nir_def :=
  let int_min := u_intN_min bit_size in
  if d =? 0 then Some (nir_imm_intN_t 0)
  else if d =? int_min then
    let int_min_def := nir_imm_intN_t int_min in
    let is_neg_not_int_min := nir_cmpop nir_op_ult int_min_def n in
    let is_zero := nir_ieq_imm n 0 in
    Some (nir_bcsel (nir_ior1 is_neg_not_int_min is_zero) n
            (nir_binop nir_op_iadd int_min_def n))
  else if (d >? 0) && IS_POT64 d then Some (nir_iand_imm bit_size n (d - 1))
  else if (d <? 0) && IS_POT64 (- d) then
    let d_def := nir_imm_intN_t d in
    let res := nir_binop nir_op_ior n d_def in
    Some (nir_bcsel (nir_cmpop nir_op_ieq res d_def) (nir_imm_intN_t 0) res)
  else
    rem ← build_irem lower_bitops bit_size n d;
    let zero := nir_imm_intN_t 0 in
    let sign_same := if d <? 0 then nir_cmpop nir_op_ilt n zero else nir_cmpop nir_op_ige n zero in
    let rem_zero := nir_cmpop nir_op_ieq rem zero in
    Some (nir_bcsel (nir_ior1 rem_zero sign_same) rem (nir_iadd_imm bit_size rem d)).

(** One component of [nir_opt_idiv_const_instr]: [c] is the constant's bit
    pattern, read sign-extended by [nir_src_comp_as_int] and masked again for the
    unsigned opcodes. *)
Definition idiv_const_comp (lower_bitops : bool) (bit_size : Z) (op : nir_div_op)
    (n : nir_def) (c : Z) : option nir_def :=
  let d := signed bit_size c in
  let d_uint := u64 (if bit_size <? 64 then Z.land (u64 d) (u64 (u64 (Z.shiftl 1 bit_size) - 1)) else d) in
  match op with
  | nir_op_udiv => build_udiv bit_size n d_uint
  | nir_op_idiv => build_idiv bit_size n d
  | nir_op_umod => build_umod lower_bitops bit_size n d_uint
  | nir_op_imod => build_imod lower_bitops bit_size n d
  | nir_op_irem => build_irem lower_bitops bit_size n d
  end.

(** An ALU instruction with one of the five opcodes: its result size, the
    channels of the first source and the constant channels of the second, if it
    is constant, with the swizzles that select them. *)
Record nir_alu_instr := NirAluInstr {
  alu_op : nir_div_op;
  alu_def_bit_size : Z;
  alu_num_components : nat;
  alu_src0 : list nir_def;
  alu_src0_swizzle : list nat;
  alu_src1 : option (list Z);
  alu_src1_swizzle : list nat;
}.

(** [nir_opt_idiv_const_instr] on such an instruction.  The outer option is the
    assertions of the builder, the inner one the pass's progress: the channels of
    the vector that replaces the result. *)
Definition nir_opt_idiv_const_instr (lower_bitops : bool) (min_bit_size : Z)
    (alu : nir_alu_instr) : option (option (list nir_def)) :=
  if alu_def_bit_size alu <? min_bit_size then Some None
  else
    match alu_src1 alu with
    | None => Some None
    | Some consts =>
        let comp (i : nat) : option nir_def :=
          s0 ← alu_src0_swizzle alu !! i;
          n ← alu_src0 alu !! s0;
          s1 ← alu_src1_swizzle alu !! i;
          c ← consts !! s1;
          idiv_const_comp lower_bitops (alu_def_bit_size alu) (alu_op alu) n c in
        q ← mapM comp (seq 0 (alu_num_components alu));
        Some (Some q)
    end.

(** * Evaluating the builder helpers *)

(** The bit sizes of NIR integers the pass can see. *)
Definition nir_int_size (N : Z) : Prop := N = 8 \/ N = 16 \/ N = 32 \/ N = 64.

Section with_size.
Context (N x : Z) (HN : nir_int_size N).

Lemma size_range : 8 <= N <= 64.
Proof. unfold nir_int_size in HN. lia. Qed.

Lemma size_pow : 2 ^ N = 2 * 2 ^ (N - 1) /\ 0 < 2 ^ (N - 1) /\ 2 ^ N <= 2 ^ 64.
Proof.
  pose proof size_range. split; [apply pow2_half; lia|].
  split; [apply pow2_pos|apply pow2_le]; lia.
Qed.

Lemma shift_mask y : 0 <= y < N -> Z.land y (N - 1) = y.
Proof.
  intros Hy.
  assert (Hm : N - 1 = Z.ones (Z.log2 N) /\ 2 ^ Z.log2 N = N)
    by (destruct HN as [->|[->|[->| ->]]]; done).
  destruct Hm as [-> Hl]. rewrite Z.land_ones by apply Z.log2_nonneg.
  rewrite Hl. apply Z.mod_small. done.
Qed.

Lemma mask_wrap y : Z.land (u64 y) (BITFIELD64_MASK N) = wrap N y.
Proof.
  pose proof size_range.
  assert (HM : BITFIELD64_MASK N = Z.ones N) by (destruct HN as [->|[->|[->| ->]]]; done).
  rewrite HM, Z.land_ones by lia. change (u64 y mod 2 ^ N) with (wrap N (wrap 64 y)).
  apply wrap_wrap_le. lia.
Qed.

Lemma uintN_max_eq : u_uintN_max N = 2 ^ N - 1.
Proof. destruct HN as [->|[->|[->| ->]]]; done. Qed.

Lemma intN_min_eq : u_intN_min N = - 2 ^ (N - 1).
Proof. destruct HN as [->|[->|[->| ->]]]; done. Qed.

Lemma eval_imm y : eval N x (nir_imm_intN_t y) = wrap N y.
Proof. pose proof size_range. cbn. apply wrap_wrap_le. lia. Qed.

Lemma eval_ushr_imm e y : 0 <= y < N -> eval N x (nir_ushr_imm e y) = Z.shiftr (eval N x e) y.
Proof.
  intros Hy. unfold nir_ushr_imm. destruct (Z.eqb_spec y 0) as [->|].
  - by rewrite Z.shiftr_0_r.
  - cbn. by rewrite shift_mask.
Qed.

Lemma eval_ishr_imm e y :
  0 <= y < N -> fits N (eval N x e) ->
  eval N x (nir_ishr_imm e y) = wrap N (Z.shiftr (signed N (eval N x e)) y).
Proof.
  intros Hy He. pose proof size_range. unfold nir_ishr_imm.
  destruct (Z.eqb_spec y 0) as [->|].
  - by rewrite Z.shiftr_0_r, wrap_signed by side.
  - cbn. by rewrite shift_mask.
Qed.

Lemma eval_iadd_imm e y :
  fits N (eval N x e) -> eval N x (nir_iadd_imm N e y) = wrap N (eval N x e + y).
Proof.
  intros He. pose proof size_range. unfold nir_iadd_imm. rewrite mask_wrap.
  destruct (Z.eqb_spec (wrap N y) 0) as [E|E].
  - rewrite Z.add_comm, <- wrap_wrap_add, E, Z.add_0_l by lia. symmetry. by apply wrap_small.
  - cbn [eval eval_alu2]. rewrite eval_imm, wrap_idem, !(Z.add_comm (eval N x e)), wrap_wrap_add by lia.
    done.
Qed.

Lemma eval_iand_imm e y :
  fits N (eval N x e) -> eval N x (nir_iand_imm N e y) = Z.land (eval N x e) (wrap N y).
Proof.
  intros He. pose proof size_range. unfold nir_iand_imm. rewrite mask_wrap.
  destruct (Z.eqb_spec (wrap N y) 0) as [E|E].
  { rewrite E, Z.land_0_r, eval_imm. apply wrap_small. split; [lia|apply pow2_pos; lia]. }
  case_if_eqn; zbool.
  - assert (HM : BITFIELD64_MASK N = Z.ones N) by (destruct HN as [->|[->|[->| ->]]]; done).
    rewrite E0, HM, Z.land_ones by lia. symmetry. by apply Z.mod_small.
  - cbn [eval eval_alu2]. by rewrite eval_imm, wrap_idem by lia.
Qed.

Lemma eval_imul_imm lb e y :
  fits N (eval N x e) -> eval N x (nir_imul_imm lb N e y) = wrap N (eval N x e * y).
Proof.
  intros He. pose proof size_range. pose proof size_pow. unfold nir_imul_imm. rewrite mask_wrap.
  rewrite (Z.mul_comm _ y), <- (wrap_wrap_mul N y) by lia.
  pose proof (wrap_fits N y ltac:(lia)) as [Hlo Hhi]. set (m := wrap N y) in *.
  destruct (Z.eqb_spec m 0) as [->|Hm0].
  { rewrite Z.mul_0_l. apply eval_imm. }
  destruct (Z.eqb_spec m 1) as [->|Hm1].
  { rewrite Z.mul_1_l, wrap_small by side. done. }
  destruct (negb lb && IS_POT64 m) eqn:Ep.
  - zbool. match goal with H : IS_POT64 m = true |- _ => apply IS_POT64_spec in H; [|lia];
      rename H into Hp end.
    rewrite util_logbase2_64_log2 by lia. cbn [eval eval_shift].
    pose proof (Z.log2_nonneg m).
    assert (Z.log2 m < N) by (apply Z.log2_lt_pow2; lia).
    rewrite shift_mask, Z.shiftl_mul_pow2, <- Hp, Z.mul_comm by lia. done.
  - cbn [eval eval_alu2]. rewrite eval_imm, (wrap_small N m) by side. by rewrite Z.mul_comm.
Qed.

(** * The unsigned opcodes *)

Context (n : nir_def).
Let v := eval N x n.
Hypothesis Hv : fits N v.

Lemma b2i_div d : 2 ^ (N - 1) <= d < 2 ^ N -> v / d = if v >=? d then 1 else 0.
Proof.
  intros Hd. pose proof size_pow as (E & Hp & _). unfold fits in Hv. case_if_eqn; zbool.
  - apply div_between; lia.
  - apply Z.div_small. lia.
Qed.

Lemma build_udiv_magic d :
  1 < d < 2 ^ N -> d <> 2 ^ Z.log2 d ->
  exists q, (m ← util_compute_fast_udiv_info d N N;
    let n := if negb (pre_shift m =? 0) then nir_ushr_imm n (pre_shift m) else n in
    let n := if negb (increment m =? 0)
             then nir_binop nir_op_uadd_sat n (nir_imm_intN_t (increment m)) else n in
    let n := nir_binop nir_op_umul_high n (nir_imm_intN_t (multiplier m)) in
    Some (if negb (post_shift m =? 0) then nir_ushr_imm n (post_shift m) else n)) = Some q
    /\ eval N x q = v / d.
Proof.
  intros Hd Hnp. pose proof size_range. unfold fits in Hv.
  destruct (udiv_info_correct N ltac:(lia) N d ltac:(lia) ltac:(lia))
    as (m & -> & [Hm Hpre Hpost Hinc Hdiv Hsat _]). cbn [mbind option_bind].
  eexists. split; [done|]. specialize (Hdiv v Hv). unfold udiv_sequence in Hdiv.
  assert (Epre : eval N x (if negb (pre_shift m =? 0) then nir_ushr_imm n (pre_shift m) else n)
                 = Z.shiftr v (pre_shift m)).
  { destruct (Z.eqb_spec (pre_shift m) 0) as [->|]; cbn [negb].
    - by rewrite Z.shiftr_0_r.
    - by apply eval_ushr_imm. }
  set (n1 := if negb (pre_shift m =? 0) then nir_ushr_imm n (pre_shift m) else n) in *.
  assert (Epost : forall e, eval N x (if negb (post_shift m =? 0) then nir_ushr_imm e (post_shift m) else e)
                 = Z.shiftr (eval N x e) (post_shift m)).
  { intros e. destruct (Z.eqb_spec (post_shift m) 0) as [->|]; cbn [negb].
    - by rewrite Z.shiftr_0_r.
    - by apply eval_ushr_imm. }
  rewrite Epost. cbn [eval eval_alu2]. rewrite eval_imm, (wrap_small N (multiplier m)) by side.
  destruct Hinc as [Hi|[Hi Hp0]]; rewrite Hi in *; cbn [Z.eqb negb].
  - rewrite Epre, Z.mul_comm. by rewrite Z.add_0_r in Hdiv.
  - cbn [eval eval_alu2]. rewrite eval_imm, Epre, Hp0, Z.shiftr_0_r in *.
    rewrite wrap_small by (unfold fits; pose proof (pow2_le 1 N ltac:(lia)); lia).
    destruct (Z.geb_spec (v + 1) (2 ^ N)).
    + replace v with (2 ^ N - 1) by lia. rewrite Z.mul_comm. apply Hsat; lia.
    + by rewrite Z.mul_comm.
Qed.

Lemma build_udiv_spec d :
  0 <= d < 2 ^ N ->
  exists q, build_udiv N n d = Some q /\ eval N x q = (if d =? 0 then 0 else v / d).
Proof.
  intros Hd. pose proof size_range. pose proof size_pow as (E2 & Hp & H64).
  unfold build_udiv. rewrite uintN_max_eq.
  destruct (Z.eqb_spec d 0) as [->|Hd0].
  { eexists; split; [done|]. rewrite eval_imm. apply wrap_small. unfold fits; lia. }
  destruct (Z.eqb_spec d (2 ^ N - 1)) as [->|Hdm].
  { eexists; split; [done|]. cbn [eval eval_bool nir_ieq_imm eval_cmp].
    rewrite eval_imm, wrap_small, b2i_div by side. fold v. unfold fits in Hv.
    destruct (Z.eqb_spec v (2 ^ N - 1)), (Z.geb_spec v (2 ^ N - 1)); lia. }
  destruct (Z.gtb_spec d ((2 ^ N - 1) / 2)) as [Hgt|Hle].
  { eexists; split; [done|]. cbn [eval eval_bool nir_uge_imm eval_cmp].
    rewrite eval_imm, wrap_small, b2i_div by (unfold fits; dlia). done. }
  destruct (IS_POT64 d) eqn:Ep.
  { apply IS_POT64_spec in Ep; [|lia]. rewrite util_logbase2_64_log2 by lia.
    pose proof (Z.log2_nonneg d). assert (Z.log2 d < N) by (apply Z.log2_lt_pow2; lia).
    eexists; split; [done|].
    rewrite eval_ushr_imm, Z.shiftr_div_pow2, <- Ep by lia. done. }
  apply build_udiv_magic.
  - destruct (Z.eq_dec d 1) as [->|]; [done|lia].
  - intros E. apply IS_POT64_spec in E; [congruence|lia].
Qed.

Lemma build_umod_spec lb d :
  0 <= d < 2 ^ N ->
  exists q, build_umod lb N n d = Some q /\ eval N x q = (if d =? 0 then 0 else v mod d).
Proof.
  intros Hd. pose proof size_range. pose proof size_pow as (E2 & Hp & H64). unfold build_umod.
  destruct (Z.eqb_spec d 0) as [->|Hd0].
  { eexists; split; [done|]. rewrite eval_imm. apply wrap_small. unfold fits; lia. }
  destruct (IS_POT64 d) eqn:Ep.
  { apply IS_POT64_spec in Ep; [|lia]. eexists; split; [done|].
    rewrite eval_iand_imm, wrap_small by side.
    rewrite Ep at 1. replace (2 ^ Z.log2 d - 1) with (Z.ones (Z.log2 d)) by (rewrite Z.ones_equiv; lia).
    rewrite Z.land_ones, <- Ep by apply Z.log2_nonneg. done. }
  destruct (build_udiv_spec d Hd) as (q & -> & Hq). cbn [mbind option_bind].
  destruct (Z.eqb_spec d 0); [lia|]. eexists; split; [done|].
  assert (Hqf : fits N (eval N x q)).
  { rewrite Hq. unfold fits in *. split; [apply Z.div_pos; lia|].
    apply Z.le_lt_trans with v; [apply Z.div_le_upper_bound; nia|lia]. }
  cbn [eval eval_alu2]. rewrite eval_imul_imm by done. fold v.
  rewrite Hq, wrap_wrap_sub_r by lia.
  pose proof (Z.div_mod v d Hd0). pose proof (Z.mod_pos_bound v d ltac:(lia)).
  replace (v - v / d * d) with (v mod d) by lia. apply wrap_small. unfold fits; lia.
Qed.

(** * The signed opcodes *)

Let s := signed N v.

Lemma s_range : - 2 ^ (N - 1) <= s < 2 ^ (N - 1).
Proof. pose proof size_range. apply signed_range; [lia|done]. Qed.

Lemma wrap_s : wrap N s = v.
Proof. pose proof size_range. apply wrap_signed; [lia|done]. Qed.

Lemma eval_lt0 : eval_bool N x (nir_ilt_imm n 0) = (s <? 0).
Proof.
  pose proof size_range. pose proof size_pow.
  unfold nir_ilt_imm. cbn [eval_bool eval_cmp]. rewrite eval_imm, signed_wrap by lia. done.
Qed.

Lemma eval_ineg e :
  fits N (eval N x e) -> eval N x (nir_unop nir_op_ineg e) = wrap N (- signed N (eval N x e)).
Proof.
  intros He. pose proof size_range. pose proof size_pow as (E2 & _).
  cbn [eval eval_alu1]. case_if_eqn; [|done]. zbool.
  pose proof E as Em. apply signed_eq_min in Em; [|lia|done]. rewrite E, Z.opp_involutive, Em.
  symmetry. apply wrap_small. unfold fits; lia.
Qed.

Lemma eval_iabs : eval N x (nir_unop nir_op_iabs n) = Z.abs s.
Proof.
  pose proof s_range. pose proof size_range. pose proof size_pow.
  cbn [eval eval_alu1]. fold v s.
  rewrite wrap_small by (unfold fits; case_if_eqn; lia). case_if_eqn; zbool; lia.
Qed.

Lemma abs_div_range d : 1 < d -> 0 <= Z.abs s / d < 2 ^ (N - 1).
Proof.
  intros Hd. pose proof s_range. split; [apply Z.div_pos; lia|].
  apply Z.div_lt_upper_bound; [lia|]. pose proof size_pow. nia.
Qed.

Lemma build_idiv_pot d :
  1 < Z.abs d < 2 ^ (N - 1) -> Z.abs d = 2 ^ Z.log2 (Z.abs d) ->
  let uq := nir_ushr_imm (nir_unop nir_op_iabs n) (util_logbase2_64 (Z.abs d)) in
  let n_neg := nir_ilt_imm n 0 in
  let neg := if d <? 0 then nir_inot n_neg else n_neg in
  eval N x (nir_bcsel neg (nir_unop nir_op_ineg uq) uq) = wrap N (Z.quot s d).
Proof.
  intros Hd Hp uq n_neg neg. pose proof size_range. pose proof size_pow as (E2 & _ & H64).
  pose proof (abs_div_range (Z.abs d) ltac:(lia)) as Hq.
  assert (Z.log2 (Z.abs d) < N) by (apply Z.log2_lt_pow2; lia).
  pose proof (Z.log2_nonneg (Z.abs d)).
  assert (Euq : eval N x uq = Z.abs s / Z.abs d).
  { unfold uq. rewrite util_logbase2_64_log2, eval_ushr_imm, eval_iabs by lia.
    rewrite Z.shiftr_div_pow2, <- Hp by lia. done. }
  assert (Eneg : eval_bool N x neg = xorb (d <? 0) (s <? 0)).
  { unfold neg, n_neg. destruct (d <? 0); cbn [eval_bool xorb]; rewrite eval_lt0; by destruct (s <? 0). }
  cbn [eval]. rewrite Eneg. change (eval_alu1 N nir_op_ineg (eval N x uq))
    with (eval N x (nir_unop nir_op_ineg uq)).
  rewrite eval_ineg, Euq, quot_abs by (try rewrite Euq; side).
  unfold signed. destruct (Z.geb_spec (Z.abs s / Z.abs d) (2 ^ (N - 1))); [lia|].
  destruct (d <? 0), (s <? 0); cbn [xorb Bool.eqb]; try done; symmetry; apply wrap_small; side.
Qed.

Lemma build_idiv_magic d :
  1 < Z.abs d < 2 ^ (N - 1) -> Z.abs d <> 2 ^ Z.log2 (Z.abs d) ->
  exists q, (m ← util_compute_fast_sdiv_info d N;
    let res := nir_binop nir_op_imul_high n (nir_imm_intN_t (s_multiplier m)) in
    let res := if (d >? 0) && (s_multiplier m <? 0) then nir_binop nir_op_iadd res n else res in
    let res := if (d <? 0) && (s_multiplier m >? 0) then nir_binop nir_op_isub res n else res in
    let res := if negb (s_shift m =? 0) then nir_ishr_imm res (s_shift m) else res in
    Some (nir_binop nir_op_iadd res (nir_ushr_imm res (N - 1)))) = Some q
    /\ eval N x q = wrap N (Z.quot s d).
Proof.
  intros Hd Hnp. pose proof size_range. pose proof size_pow as (E2 & Hp & H64).
  pose proof s_range as Hs.
  destruct (sdiv_info_correct N d ltac:(lia) Hd Hnp) as (m & -> & [Hm Hsh Hhigh Hquot]).
  cbn [mbind option_bind]. eexists. split; [done|].
  specialize (Hhigh s Hs). specialize (Hquot s Hs). unfold sdiv_sequence in Hquot.
  set (res0 := nir_binop nir_op_imul_high n (nir_imm_intN_t (s_multiplier m))).
  set (res1 := if (d >? 0) && (s_multiplier m <? 0) then nir_binop nir_op_iadd res0 n else res0).
  set (res2 := if (d <? 0) && (s_multiplier m >? 0) then nir_binop nir_op_isub res1 n else res1).
  assert (Ev : exists k, v = s + k * 2 ^ N).
  { unfold s, signed. case_if_eqn; [exists 1|exists 0]; lia. }
  destruct Ev as [k Ev].
  assert (E0 : eval N x res0 = wrap N (Z.shiftr (s_multiplier m * s) N)).
  { unfold res0. cbn [eval eval_alu2]. rewrite eval_imm, signed_wrap by lia. fold v s.
    by rewrite Z.mul_comm. }
  assert (E2' : eval N x res2 = wrap N (sdiv_high N d m s)).
  { unfold res2, res1, sdiv_high.
    destruct ((d >? 0) && (s_multiplier m <? 0)) eqn:C1,
             ((d <? 0) && (s_multiplier m >? 0)) eqn:C2; try lia.
    - cbn [eval eval_alu2]. rewrite E0, wrap_wrap_add by lia. fold v.
      apply wrap_eq; [lia|]. exists k. lia.
    - cbn [eval eval_alu2]. fold v. rewrite E0. unfold Z.sub. rewrite wrap_wrap_add by lia.
      apply wrap_eq; [lia|]. exists (- k). lia. }
  set (t := Z.shiftr (sdiv_high N d m s) (s_shift m)) in *.
  assert (Ht : - 2 ^ (N - 1) <= t < 2 ^ (N - 1)).
  { unfold t. rewrite Z.shiftr_div_pow2 by lia. pose proof (pow2_pos (s_shift m) ltac:(lia)).
    split; [apply Z.div_le_lower_bound|apply Z.div_lt_upper_bound]; nia. }
  set (res3 := if negb (s_shift m =? 0) then nir_ishr_imm res2 (s_shift m) else res2).
  assert (E3 : eval N x res3 = wrap N t).
  { unfold res3, t. destruct (Z.eqb_spec (s_shift m) 0) as [->|]; cbn [negb].
    - by rewrite Z.shiftr_0_r.
    - rewrite eval_ishr_imm by (try rewrite E2'; try apply wrap_fits; lia).
      by rewrite E2', signed_wrap by lia. }
  cbn [eval eval_alu2]. rewrite eval_ushr_imm, E3, wrap_wrap_add, <- Hquot by lia. f_equal. f_equal.
  rewrite Z.shiftr_div_pow2 by lia. destruct (Z.ltb_spec t 0).
  - apply div_between; [lia|]. rewrite (wrap_eq N t (t + 2 ^ N)) by (try exists (-1); lia).
    rewrite wrap_small by side. lia.
  - rewrite wrap_small by side. apply Z.div_small. lia.
Qed.

Lemma build_idiv_spec d :
  - 2 ^ (N - 1) <= d < 2 ^ (N - 1) ->
  exists q, build_idiv N n d = Some q
    /\ eval N x q = (if d =? 0 then 0 else wrap N (Z.quot s d)).
Proof.
  intros Hd. pose proof size_range. pose proof size_pow as (E2 & Hp & H64).
  pose proof s_range as Hs. unfold build_idiv. rewrite intN_min_eq.
  destruct (Z.eqb_spec d (- 2 ^ (N - 1))) as [->|Hmin].
  { eexists; split; [done|]. destruct (Z.eqb_spec (- 2 ^ (N - 1)) 0); [lia|].
    unfold nir_ieq_imm. cbn [eval eval_bool eval_cmp]. rewrite eval_imm. fold v.
    rewrite quot_abs by lia. replace (Z.abs (- 2 ^ (N - 1))) with (2 ^ (N - 1)) by lia.
    destruct (Z.ltb_spec (- 2 ^ (N - 1)) 0); [|lia].
    assert (Ew : wrap N (- 2 ^ (N - 1)) = 2 ^ (N - 1)).
    { rewrite (wrap_eq N _ (2 ^ (N - 1))) by (try exists (-1); lia). apply wrap_small. side. }
    rewrite Ew. pose proof (signed_eq_min N v ltac:(lia) Hv) as Hiff. fold s in Hiff.
    destruct (Z.eqb_spec v (2 ^ (N - 1))) as [Ev|Ev].
    - assert (Es : s = - 2 ^ (N - 1)) by tauto.
      destruct (Z.ltb_spec s 0); [|lia]. cbn [Bool.eqb].
      replace (Z.abs s) with (2 ^ (N - 1)) by lia. rewrite Z.div_same by lia.
      symmetry. apply wrap_small. side.
    - assert (Hs2 : s <> - 2 ^ (N - 1)) by tauto.
      rewrite Z.div_small by lia. destruct (s <? 0); cbn; symmetry; apply wrap_small; side. }
  destruct (Z.eqb_spec d 0) as [->|Hd0].
  { eexists; split; [done|]. rewrite eval_imm. apply wrap_small. side. }
  destruct (Z.eqb_spec d 1) as [->|Hd1].
  { eexists; split; [done|]. by rewrite Z.quot_1_r, wrap_s. }
  destruct (Z.eqb_spec d (-1)) as [->|Hdm1].
  { eexists; split; [done|]. rewrite eval_ineg by done. fold v s.
    change (-1) with (- (1)). by rewrite Z.quot_opp_r, Z.quot_1_r by lia. }
  replace (u64 (if d <? 0 then - d else d)) with (Z.abs d)
    by (case_if_eqn; zbool; rewrite u64_small; lia).
  destruct (IS_POT64 (Z.abs d)) eqn:Ep.
  - apply IS_POT64_spec in Ep; [|lia]. eexists; split; [done|]. apply build_idiv_pot; [lia|done].
  - apply build_idiv_magic; [lia|]. intros E. apply IS_POT64_spec in E; [congruence|lia].
Qed.

Lemma wrap_neg_pow k : 0 <= k <= N - 1 -> wrap N (- 2 ^ k) = 2 ^ N - 2 ^ k.
Proof.
  intros Hk. pose proof size_range. pose proof (pow2_pos k ltac:(lia)).
  pose proof (pow2_le k N ltac:(lia)).
  rewrite (wrap_eq N _ (2 ^ N - 2 ^ k)) by (try exists (-1); lia). apply wrap_small. side.
Qed.

Lemma v_s : exists k, v = s + k * 2 ^ N.
Proof. unfold s, signed. case_if_eqn; [exists 1|exists 0]; lia. Qed.

(** Rounding a pattern down to a multiple of [2^k] commutes with the wrap-around. *)
Lemma round_down_wrap k a :
  0 <= k <= N -> wrap N (wrap N a / 2 ^ k * 2 ^ k) = wrap N (a / 2 ^ k * 2 ^ k).
Proof.
  intros Hk. pose proof size_range. pose proof (pow2_pos k ltac:(lia)).
  assert (E : 2 ^ N = 2 ^ (N - k) * 2 ^ k) by (rewrite <- pow2_add by lia; f_equal; lia).
  apply wrap_eq; [lia|]. exists (- (a / 2 ^ N)).
  pose proof (Z.div_mod a (2 ^ N) ltac:(lia)) as Ea. unfold wrap.
  set (P := a / 2 ^ N) in *. set (R := a mod 2 ^ N) in *.
  assert (Hq : a / 2 ^ k = R / 2 ^ k + P * 2 ^ (N - k)).
  { rewrite <- Z.div_add by lia. f_equal. rewrite Ea, E. lia. }
  rewrite Hq, E. lia.
Qed.

Lemma build_irem_pot d :
  0 <= d < N - 1 ->
  let tmp := nir_bcsel (nir_ilt_imm n 0) (nir_iadd_imm N n (2 ^ d - 1)) n in
  eval N x (nir_binop nir_op_isub n (nir_iand_imm N tmp (- 2 ^ d))) = wrap N (Z.rem s (2 ^ d)).
Proof.
  intros Hd tmp. pose proof size_range. pose proof size_pow as (E2 & Hp & H64).
  pose proof (pow2_pos d ltac:(lia)). destruct v_s as [k Ev].
  assert (Et : eval N x tmp = wrap N (if s <? 0 then s + 2 ^ d - 1 else s)).
  { unfold tmp. cbn [eval]. rewrite eval_lt0. destruct (s <? 0); [|fold v; by rewrite wrap_s].
    rewrite eval_iadd_imm by done. fold v. apply wrap_eq; [lia|]. exists k. lia. }
  cbn [eval eval_alu2]. fold v.
  rewrite eval_iand_imm by (rewrite Et; apply wrap_fits; lia).
  rewrite Et, wrap_neg_pow, land_high_mask by (try apply wrap_fits; lia).
  rewrite <- wrap_wrap_sub_r, round_down_wrap, wrap_wrap_sub_r by lia.
  rewrite rem_quot, quot_abs by lia. rewrite (Z.abs_eq (2 ^ d)) by lia.
  apply wrap_eq; [lia|]. exists k. rewrite Ev.
  destruct (Z.ltb_spec (2 ^ d) 0); [lia|]. destruct (Z.ltb_spec s 0); cbn [Bool.eqb].
  - assert ((s + 2 ^ d - 1) / 2 ^ d = - (Z.abs s / 2 ^ d)) as ->; [|lia].
    replace (Z.abs s) with (- s) by lia. apply div_between; [lia|].
    pose proof (Z.div_mod (- s) (2 ^ d) ltac:(lia)).
    pose proof (Z.mod_pos_bound (- s) (2 ^ d) ltac:(lia)). lia.
  - rewrite Z.abs_eq by lia. lia.
Qed.

Lemma build_irem_spec lb d :
  - 2 ^ (N - 1) <= d < 2 ^ (N - 1) ->
  exists q, build_irem lb N n d = Some q
    /\ eval N x q = (if d =? 0 then 0 else wrap N (Z.rem s d)).
Proof.
  intros Hd. pose proof size_range. pose proof size_pow as (E2 & Hp & H64).
  pose proof s_range as Hs. unfold build_irem. rewrite intN_min_eq.
  destruct (Z.eqb_spec d 0) as [->|Hd0].
  { eexists; split; [done|]. rewrite eval_imm. apply wrap_small. side. }
  destruct (Z.eqb_spec d (- 2 ^ (N - 1))) as [->|Hmin].
  { eexists; split; [done|]. unfold nir_ieq_imm. cbn [eval eval_bool eval_cmp].
    rewrite !eval_imm. fold v. rewrite wrap_neg_pow by lia.
    replace (2 ^ N - 2 ^ (N - 1)) with (2 ^ (N - 1)) by lia.
    pose proof (signed_eq_min N v ltac:(lia) Hv) as Hiff. fold s in Hiff.
    destruct (Z.eqb_spec v (2 ^ (N - 1))) as [Ev|Ev].
    - assert (Es : s = - 2 ^ (N - 1)) by tauto. rewrite Es, Z.rem_same by lia. done.
    - assert (Hs2 : s <> - 2 ^ (N - 1)) by tauto.
      rewrite (proj2 (Z.rem_small_iff s (- 2 ^ (N - 1)) ltac:(lia))) by lia. by rewrite wrap_s. }
  replace (if d <? 0 then - d else d) with (Z.abs d) by (case_if_eqn; zbool; lia).
  rewrite <- (Z.rem_abs_r s d) by done.
  destruct (IS_POT64 (Z.abs d)) eqn:Ep.
  - apply IS_POT64_spec in Ep; [|lia]. eexists; split; [done|].
    pose proof (Z.log2_nonneg (Z.abs d)).
    assert (Z.log2 (Z.abs d) < N - 1) by (apply Z.log2_lt_pow2; lia).
    rewrite Ep. apply build_irem_pot. lia.
  - destruct (build_idiv_spec (Z.abs d)) as (q & -> & Hq); [lia|]. cbn [mbind option_bind].
    destruct (Z.eqb_spec (Z.abs d) 0); [lia|]. eexists; split; [done|].
    cbn [eval eval_alu2]. rewrite eval_imul_imm by (rewrite Hq; apply wrap_fits; lia).
    fold v. rewrite Hq, wrap_wrap_mul, wrap_wrap_sub_r, rem_quot by lia.
    destruct v_s as [k Ev]. apply wrap_eq; [lia|]. exists k. lia.
Qed.

Lemma mod_v_s k : 0 <= k <= N -> v mod 2 ^ k = s mod 2 ^ k.
Proof.
  intros Hk. destruct v_s as [j Ev]. pose proof (pow2_pos k ltac:(lia)).
  rewrite Ev. replace N with (N - k + k) by lia. rewrite pow2_add, Z.mul_assoc by lia.
  apply Z.mod_add. lia.
Qed.

Lemma build_imod_pot_neg k :
  0 <= k < N - 1 ->
  let d_def := nir_imm_intN_t (- 2 ^ k) in
  let res := nir_binop nir_op_ior n d_def in
  eval N x (nir_bcsel (nir_cmpop nir_op_ieq res d_def) (nir_imm_intN_t 0) res)
  = wrap N (s mod (- 2 ^ k)).
Proof.
  intros Hk d_def res. pose proof size_range. pose proof size_pow as (E2 & Hp & H64).
  pose proof (pow2_pos k ltac:(lia)). pose proof (pow2_lt k (N - 1) ltac:(lia)).
  assert (Er : eval N x res = 2 ^ N - 2 ^ k + s mod 2 ^ k).
  { unfold res, d_def. cbn [eval eval_alu2]. rewrite eval_imm, wrap_neg_pow by lia. fold v.
    rewrite lor_high_mask by (try done; lia). rewrite mod_v_s by lia. done. }
  pose proof (Z.mod_pos_bound s (2 ^ k) ltac:(lia)).
  cbn [eval eval_bool eval_cmp]. rewrite Er. unfold d_def. rewrite !eval_imm, wrap_neg_pow by lia.
  rewrite mod_opp_divisor by lia.
  destruct (Z.eqb_spec (2 ^ N - 2 ^ k + s mod 2 ^ k) (2 ^ N - 2 ^ k)),
           (Z.eqb_spec (s mod 2 ^ k) 0); try lia.
  rewrite (wrap_eq N _ (2 ^ N - 2 ^ k + s mod 2 ^ k)) by (try exists (-1); lia).
  symmetry. apply wrap_small. side.
Qed.

Lemma build_imod_min :
  let int_min_def := nir_imm_intN_t (- 2 ^ (N - 1)) in
  let is_neg_not_int_min := nir_cmpop nir_op_ult int_min_def n in
  let is_zero := nir_ieq_imm n 0 in
  eval N x (nir_bcsel (nir_ior1 is_neg_not_int_min is_zero) n
             (nir_binop nir_op_iadd int_min_def n)) = wrap N (s mod (- 2 ^ (N - 1))).
Proof.
  intros int_min_def is_neg is_zero. pose proof size_range. pose proof size_pow as (E2 & Hp & H64).
  assert (Ei : eval N x int_min_def = 2 ^ (N - 1)).
  { unfold int_min_def. rewrite eval_imm, wrap_neg_pow by lia. lia. }
  unfold is_neg, is_zero, nir_ieq_imm. cbn [eval eval_bool eval_cmp eval_alu2].
  rewrite Ei, eval_imm, (wrap_small N 0) by side. fold v.
  rewrite mod_opp_divisor, <- mod_v_s by lia. unfold fits in Hv.
  assert (Hvm : v mod 2 ^ (N - 1) = if v <? 2 ^ (N - 1) then v else v - 2 ^ (N - 1)).
  { case_if_eqn; zbool; [apply Z.mod_small; lia|].
    symmetry. apply Z.mod_unique_pos with 1; lia. }
  rewrite Hvm. destruct (Z.ltb_spec v (2 ^ (N - 1)));
    destruct (Z.ltb_spec (2 ^ (N - 1)) v), (Z.eqb_spec v 0); cbn [orb]; try lia;
    try case_if_eqn; zbool; try lia.
  - symmetry. rewrite wrap_small; side.
  - apply wrap_eq; [lia|]. exists 1. lia.
  - rewrite (wrap_eq N _ v) by (try exists (-1); lia). symmetry. apply wrap_small. side.
  - apply wrap_eq; [lia|]. exists 1. lia.
Qed.

Lemma build_imod_spec lb d :
  - 2 ^ (N - 1) <= d < 2 ^ (N - 1) ->
  exists q, build_imod lb N n d = Some q
    /\ eval N x q = (if d =? 0 then 0 else wrap N (s mod d)).
Proof.
  intros Hd. pose proof size_range. pose proof size_pow as (E2 & Hp & H64).
  pose proof s_range as Hs. unfold build_imod. rewrite intN_min_eq.
  destruct (Z.eqb_spec d 0) as [->|Hd0].
  { eexists; split; [done|]. rewrite eval_imm. apply wrap_small. side. }
  destruct (Z.eqb_spec d (- 2 ^ (N - 1))) as [->|Hmin].
  { eexists; split; [done|]. apply build_imod_min. }
  destruct ((d >? 0) && IS_POT64 d) eqn:Ep1.
  { zbool. match goal with H : IS_POT64 d = true |- _ => apply IS_POT64_spec in H; [|lia];
      rename H into Hpd end.
    pose proof (Z.log2_nonneg d). assert (Z.log2 d < N - 1) by (apply Z.log2_lt_pow2; lia).
    eexists; split; [done|]. pose proof (Z.mod_pos_bound s d ltac:(lia)).
    rewrite eval_iand_imm, wrap_small by side. rewrite (wrap_small N (s mod d)) by side.
    rewrite Hpd. replace (2 ^ Z.log2 d - 1) with (Z.ones (Z.log2 d)) by (rewrite Z.ones_equiv; lia).
    rewrite Z.land_ones by lia. apply mod_v_s. lia. }
  destruct ((d <? 0) && IS_POT64 (- d)) eqn:Ep2.
  { zbool. match goal with H : IS_POT64 (- d) = true |- _ => apply IS_POT64_spec in H; [|lia];
      rename H into Hpd end.
    pose proof (Z.log2_nonneg (- d)). assert (Z.log2 (- d) < N - 1) by (apply Z.log2_lt_pow2; lia).
    eexists; split; [done|]. replace d with (- 2 ^ Z.log2 (- d)) by lia.
    apply build_imod_pot_neg. lia. }
  destruct (build_irem_spec lb d Hd) as (r & -> & Hr). cbn [mbind option_bind].
  destruct (Z.eqb_spec d 0); [lia|]. eexists; split; [done|].
  pose proof (Z.rem_bound_abs s d Hd0) as Hrb.
  assert (Hrf : fits N (eval N x r)) by (rewrite Hr; apply wrap_fits; lia).
  assert (Hz : (wrap N (Z.rem s d) =? 0) = (Z.rem s d =? 0)).
  { destruct (Z.eqb_spec (Z.rem s d) 0) as [->|Hne]; [done|].
    apply Z.eqb_neq. intros E. apply Hne. rewrite <- (signed_wrap N (Z.rem s d)), E by lia.
    unfold signed. destruct (Z.geb_spec 0 (2 ^ (N - 1))); lia. }
  assert (Hsame : eval_bool N x (if d <? 0 then nir_cmpop nir_op_ilt n (nir_imm_intN_t 0)
                                 else nir_cmpop nir_op_ige n (nir_imm_intN_t 0))
                  = Bool.eqb (s >=? 0) (d >=? 0)).
  { destruct (Z.ltb_spec d 0), (Z.geb_spec d 0); try lia; cbn [eval_bool eval_cmp];
      rewrite eval_imm, signed_wrap by lia; fold v s;
      destruct (Z.geb_spec s 0), (Z.ltb_spec s 0); try lia; done. }
  cbn [eval eval_bool]. rewrite Hsame. cbn [eval_cmp].
  rewrite eval_iadd_imm, eval_imm, (wrap_small N 0), Hr, Hz, wrap_wrap_add, mod_of_rem by side.
  by destruct (_ || _).
Qed.
End with_size.

(** * The pass *)

Lemma idiv_const_comp_spec lb N x op n c :
  nir_int_size N -> fits N (eval N x n) -> fits N c ->
  ~ (op = nir_op_idiv /\ signed N (eval N x n) = - 2 ^ (N - 1) /\ signed N c = -1) ->
  exists q, idiv_const_comp lb N op n c = Some q
    /\ eval N x q = eval_div N op (eval N x n) c.
Proof.
  intros HN Hv Hc Hskip. pose proof (size_range N HN). pose proof (size_pow N HN) as (E2 & Hp & H64).
  pose proof (signed_range N c ltac:(lia) Hc) as Hd.
  assert (Hz : (signed N c =? 0) = (c =? 0)).
  { unfold signed, fits in *. destruct (Z.geb_spec c (2 ^ (N - 1))), (Z.eqb_spec c 0); lia. }
  assert (Hu : u64 (if N <? 64 then Z.land (u64 (signed N c)) (u64 (u64 (Z.shiftl 1 N) - 1))
                    else signed N c) = c).
  { destruct (Z.ltb_spec N 64).
    - pose proof (pow2_lt N 64 ltac:(lia)).
      rewrite shiftl_1, (u64_small (2 ^ N)), (u64_small (2 ^ N - 1)) by lia.
      replace (2 ^ N - 1) with (Z.ones N) by (rewrite Z.ones_equiv; lia).
      rewrite Z.land_ones by lia.
      change (u64 (signed N c) mod 2 ^ N) with (wrap N (wrap 64 (signed N c))).
      rewrite wrap_wrap_le, wrap_signed by (try done; lia). apply u64_small. side.
    - replace N with 64 in * by lia. by apply wrap_signed. }
  unfold idiv_const_comp. rewrite Hu. destruct op; cbn [eval_div].
  - by apply build_udiv_spec.
  - destruct (build_idiv_spec N x HN n Hv _ Hd) as (q & Hq & He). exists q. split; [done|].
    rewrite He, Hz. destruct (Z.eqb_spec c 0); cbn [orb]; [done|]. case_if_eqn; [|done]. zbool. tauto.
  - by apply build_umod_spec.
  - destruct (build_imod_spec N x HN n Hv lb _ Hd) as (q & Hq & He). exists q. split; [done|].
    rewrite He. destruct (Z.eqb_spec (signed N c) 0) as [|Hne]; cbn [orb]; [done|].
    case_if_eqn; zbool.
    + match goal with H : signed N c = -1 |- _ => rewrite H end.
      rewrite mod_of_rem by lia. change (-1) with (- (1)). rewrite Z.rem_opp_r, Z.rem_1_r by lia. done.
    + rewrite mod_of_rem by done. by destruct (_ || _).
  - destruct (build_irem_spec N x HN n Hv lb _ Hd) as (q & Hq & He). exists q. split; [done|].
    rewrite He. destruct (Z.eqb_spec (signed N c) 0); cbn [orb]; [done|].
    case_if_eqn; zbool; [|done].
    match goal with H : signed N c = -1 |- _ => rewrite H end.
    change (-1) with (- (1)). rewrite Z.rem_opp_r, Z.rem_1_r by lia. done.
Qed.

(** Channel [i] of an instruction: the numerator and the constant its swizzles select. *)
Definition alu_channel (alu : nir_alu_instr) (consts : list Z) (i : nat) (n : nir_def) (c : Z) : Prop :=
  exists s0 s1, alu_src0_swizzle alu !! i = Some s0 /\ alu_src0 alu !! s0 = Some n
    /\ alu_src1_swizzle alu !! i = Some s1 /\ consts !! s1 = Some c.

(** C18: [nir_opt_idiv_const] preserves the value of every channel.  On an
    instruction of an integer size with a constant second source and in-range
    swizzles, the pass makes progress without tripping an assertion and channel
    [i] of the replacement evaluates to what [udiv], [idiv], [umod], [imod] or
    [irem] evaluates to on that channel (division by zero included), for every
    value of the numerator; the one exception is [INT_MIN idiv -1]. *)
Theorem nir_opt_idiv_const_instr_correct (lb : bool) (min_bit_size x : Z)
    (alu : nir_alu_instr) (consts : list Z) :
  let N := alu_def_bit_size alu in
  nir_int_size N -> min_bit_size <= N -> alu_src1 alu = Some consts ->
  (forall i, (i < alu_num_components alu)%nat -> exists n c,
     alu_channel alu consts i n c /\ fits N (eval N x n) /\ fits N c
     /\ ~ (alu_op alu = nir_op_idiv /\ signed N (eval N x n) = - 2 ^ (N - 1) /\ signed N c = -1)) ->
  exists q, nir_opt_idiv_const_instr lb min_bit_size alu = Some (Some q)
    /\ length q = alu_num_components alu
    /\ forall i n c, (i < alu_num_components alu)%nat -> alu_channel alu consts i n c ->
       exists e, q !! i = Some e /\ eval N x e = eval_div N (alu_op alu) (eval N x n) c.
Proof.
  intros N HN Hmin Hc Hchan. unfold nir_opt_idiv_const_instr. fold N.
  destruct (Z.ltb_spec N min_bit_size); [lia|]. rewrite Hc.
  set (comp := fun i : nat => s0 ← alu_src0_swizzle alu !! i; n ← alu_src0 alu !! s0;
                 s1 ← alu_src1_swizzle alu !! i; c ← consts !! s1;
                 idiv_const_comp lb N (alu_op alu) n c).
  assert (Hcomp : forall i n c, alu_channel alu consts i n c ->
            comp i = idiv_const_comp lb N (alu_op alu) n c).
  { intros i n c (s0 & s1 & E0 & E1 & E2 & E3). unfold comp.
    rewrite E0; cbn. rewrite E1; cbn. rewrite E2; cbn. by rewrite E3. }
  assert (Hone : forall i, (i < alu_num_components alu)%nat -> exists n c e,
            alu_channel alu consts i n c /\ comp i = Some e
            /\ eval N x e = eval_div N (alu_op alu) (eval N x n) c).
  { intros i Hi. destruct (Hchan i Hi) as (n & c & Hch & Hv & Hcf & Hex).
    destruct (idiv_const_comp_spec lb N x (alu_op alu) n c HN Hv Hcf Hex) as (e & He & Hev).
    exists n, c, e. rewrite (Hcomp i n c Hch). auto. }
  destruct (mapM comp (seq 0 (alu_num_components alu))) as [q|] eqn:Eq; cbn [mbind option_bind].
  2: { exfalso. apply eq_None_not_Some in Eq. apply Eq, mapM_is_Some_2, Forall_forall.
       intros i Hi%in_seq. destruct (Hone i) as (n & c & e & _ & He & _); [lia|]. exists e. exact He. }
  exists q. apply mapM_Some_1 in Eq. split; [done|]. split.
  { rewrite <- (Forall2_length Eq), length_seq. done. }
  intros i n c Hi Hch.
  destruct (Forall2_lookup_l _ _ _ i i Eq) as (e & He & Hce).
  { apply lookup_seq. lia. }
  exists e. split; [done|]. destruct (Hone i Hi) as (n' & c' & e' & Hch' & He' & Hev).
  destruct Hch as (s0 & s1 & ? & ? & ? & ?), Hch' as (s0' & s1' & ? & ? & ? & ?).
  simplify_eq. done.
Qed.

(** A two-channel 32-bit [idiv] of [v.yx] by [(7, -3)]. *)
Definition example_alu : nir_alu_instr :=
  NirAluInstr nir_op_idiv 32 2 [nir_ssa; nir_imm 100] [1; 0]%nat
    (Some [7; 4294967293]) [0; 1]%nat.

Lemma nir_opt_idiv_const_instr_correct_witness :
  exists q, nir_opt_idiv_const_instr false 0 example_alu = Some (Some q)
    /\ exists e, q !! 1%nat = Some e /\ eval 32 4294967000 e = 98.
Proof.
  destruct (nir_opt_idiv_const_instr_correct false 0 4294967000 example_alu [7; 4294967293])
    as (q & Hq & _ & Hv).
  - unfold nir_int_size. cbn. lia.
  - cbn. lia.
  - reflexivity.
  - intros [|[|i]] Hi; [| |cbn in Hi; lia].
    + exists (nir_imm 100), 7. split; [exists 1%nat, 0%nat; repeat split|].
      split; [vm_compute; split; congruence|]. split; [vm_compute; split; congruence|].
      intros (_ & _ & H). vm_compute in H. discriminate.
    + exists nir_ssa, 4294967293. split; [exists 0%nat, 1%nat; repeat split|].
      split; [vm_compute; split; congruence|]. split; [vm_compute; split; congruence|].
      intros (_ & H & _). vm_compute in H. discriminate.
  - exists q. split; [exact Hq|]. destruct (Hv 1%nat nir_ssa 4294967293) as (e & He & Hev).
    + cbn. lia.
    + exists 0%nat, 1%nat. repeat split.
    + exists e. split; [exact He|]. exact Hev.
Defined.

(** The exception is real: for [INT_MIN idiv -1] the pass builds a negation
    that evaluates to [INT_MIN], where the opcode's definition (used by constant
    folding) gives 0. *)
Theorem build_idiv_int_min_minus_one (lb : bool) (N : Z) :
  nir_int_size N ->
  exists q, idiv_const_comp lb N nir_op_idiv nir_ssa (2 ^ N - 1) = Some q
    /\ eval N (2 ^ (N - 1)) q = 2 ^ (N - 1)
    /\ eval_div N nir_op_idiv (2 ^ (N - 1)) (2 ^ N - 1) = 0.
Proof.
  intros HN. exists (nir_unop nir_op_ineg nir_ssa).
  destruct HN as [->|[->|[->| ->]]]; repeat split; vm_compute; reflexivity.
Qed.

Lemma build_idiv_int_min_minus_one_witness :
  exists q, idiv_const_comp true 32 nir_op_idiv nir_ssa (2 ^ 32 - 1) = Some q
    /\ eval 32 (2 ^ 31) q = 2 ^ 31.
Proof.
  destruct (build_idiv_int_min_minus_one true 32) as (q & H1 & H2 & _).
  - right; right; left; reflexivity.
  - exists q. split; [exact H1|exact H2].
Defined.
