(* ===== verification/NirLowerInt64.v ===== *)
(** * The NIR pass nir_lower_int64 (src/compiler/nir/nir_lower_int64.c)

    For hardware without 64-bit integers the pass replaces 64-bit ALU instructions by
    instructions on the 32-bit halves.  A builder call is modelled by the value of the
    instruction it inserts (NirOpcodes.v), so that the lowered code is a function of
    the source values; the bit size that the builder reads from its sources is an
    argument.  One channel of a vector is modelled; where the pass looks at all
    channels (the branch in the division), the answer is an argument.  The theorems
    say that the lowered code computes what the opcode computes.  The conversions
    between integers and floats are not modelled. *)

From Stdlib Require Import ZArith Lia.
From stdpp Require Import base list numbers option sets.
From S2P Require Import Prelude NirOpcodes.
Local Open Scope Z_scope.

(** ** Builder calls (nir_builder.h) *)

Definition nir_imm_intN_t (N x : Z) : Z := wrap N (u64 x).
Definition nir_imm_int (x : Z) : Z := nir_imm_intN_t 32 x.
Definition nir_imm_int64 (x : Z) : Z := nir_imm_intN_t 64 x.

Definition nir_iadd (N x y : Z) : Z := eval_alu2 N nir_op_iadd x y.
Definition nir_isub (N x y : Z) : Z := eval_alu2 N nir_op_isub x y.
Definition nir_imul (N x y : Z) : Z := eval_alu2 N nir_op_imul x y.
Definition nir_umul_high (N x y : Z) : Z := eval_alu2 N nir_op_umul_high x y.
Definition nir_imul_high (N x y : Z) : Z := eval_alu2 N nir_op_imul_high x y.
Definition nir_iand (x y : Z) : Z := Z.land x y.
Definition nir_ior (x y : Z) : Z := Z.lor x y.
Definition nir_ixor (x y : Z) : Z := Z.lxor x y.
Definition nir_ineg (N x : Z) : Z := eval_alu1 N nir_op_ineg x.
Definition nir_iabs (N x : Z) : Z := eval_alu1 N nir_op_iabs x.
Definition nir_inot (N x : Z) : Z := eval_alu1 N nir_op_inot x.
Definition nir_ishl (N x s : Z) : Z := eval_shift N nir_op_ishl x s.
Definition nir_ishr (N x s : Z) : Z := eval_shift N nir_op_ishr x s.
Definition nir_ushr (N x s : Z) : Z := eval_shift N nir_op_ushr x s.
Definition nir_cmpop (N : Z) (op : nir_cmp) (x y : Z) : bool := eval_cmp N op x y.
Definition nir_bcsel {A} (c : bool) (x y : A) : A := if c then x else y.
Definition nir_b2i32 (c : bool) : Z := if c then 1 else 0.
Definition nir_imax (N x y : Z) : Z := eval_alu2 N nir_op_imax x y.
Definition nir_umin (N x y : Z) : Z := eval_alu2 N nir_op_umin x y.
Definition nir_umul_2x32_64 (x y : Z) : Z := eval_mul_2x32_64 false x y.
Definition nir_pack_64_2x32_split (lo hi : Z) : Z := eval_pack lo hi.
Definition nir_unpack_64_2x32_split_x (x : Z) : Z := eval_unpack_x x.
Definition nir_unpack_64_2x32_split_y (x : Z) : Z := eval_unpack_y x.

Definition nir_iadd_imm (N x y : Z) : Z :=
  let y := Z.land (u64 y) (BITFIELD64_MASK N) in
  if y =? 0 then x else nir_iadd N x (nir_imm_intN_t N y).
Definition nir_iand_imm (N x y : Z) : Z :=
  let y := Z.land (u64 y) (BITFIELD64_MASK N) in
  if y =? 0 then nir_imm_intN_t N 0
  else if y =? BITFIELD64_MASK N then x
  else nir_iand x (nir_imm_intN_t N y).
Definition nir_ior_imm (N x y : Z) : Z :=
  let y := Z.land (u64 y) (BITFIELD64_MASK N) in
  if y =? 0 then x
  else if y =? BITFIELD64_MASK N then nir_imm_intN_t N y
  else nir_ior x (nir_imm_intN_t N y).
(** [y < bit_size] is asserted. *)
Definition nir_ishl_imm (N x y : Z) : Z := if y =? 0 then x else nir_ishl N x (nir_imm_int y).
Definition nir_ishr_imm (N x y : Z) : Z := if y =? 0 then x else nir_ishr N x (nir_imm_int y).
Definition nir_ushr_imm (N x y : Z) : Z := if y =? 0 then x else nir_ushr N x (nir_imm_int y).
Definition nir_isub_imm (N y x : Z) : Z := nir_isub N (nir_imm_intN_t N y) x.
Definition nir_cmp_imm (N : Z) (op : nir_cmp) (x y : Z) : bool := nir_cmpop N op x (nir_imm_intN_t N y).
(** [nir_ile_imm] is [nir_ige] with the sources exchanged. *)
Definition nir_ile_imm (N x y : Z) : bool := nir_cmpop N nir_op_ige (nir_imm_intN_t N y) x.
Definition nir_i2b (N x : Z) : bool := nir_cmp_imm N nir_op_ine x 0.

Notation lo32 x := (nir_unpack_64_2x32_split_x x).
Notation hi32 x := (nir_unpack_64_2x32_split_y x).
Notation pack x y := (nir_pack_64_2x32_split x y).

(** ** Conversions *)

Definition lower_b2i64 (x : bool) : Z := pack (nir_b2i32 x) (nir_imm_int 0).
Definition lower_i2i8 (x : Z) : Z := eval_i2i 32 8 (lo32 x).
Definition lower_i2i16 (x : Z) : Z := eval_i2i 32 16 (lo32 x).
Definition lower_i2i32 (x : Z) : Z := lo32 x.
Definition lower_i2i64 (bit_size x : Z) : Z :=
  let x32 := if bit_size =? 32 then x else eval_i2i bit_size 32 x in
  pack x32 (nir_ishr_imm 32 x32 31).
Definition lower_u2u8 (x : Z) : Z := eval_u2u 8 (lo32 x).
Definition lower_u2u16 (x : Z) : Z := eval_u2u 16 (lo32 x).
Definition lower_u2u32 (x : Z) : Z := lo32 x.
Definition lower_u2u64 (bit_size x : Z) : Z :=
  let x32 := if bit_size =? 32 then x else eval_u2u 32 x in
  pack x32 (nir_imm_int 0).

(** ** Logic *)

Definition lower_bcsel64 (cond : bool) (x y : Z) : Z :=
  pack (nir_bcsel cond (lo32 x) (lo32 y)) (nir_bcsel cond (hi32 x) (hi32 y)).
Definition lower_bitfield_select64 (cond x y : Z) : Z :=
  pack (eval_bitfield_select 32 (lo32 cond) (lo32 x) (lo32 y))
       (eval_bitfield_select 32 (hi32 cond) (hi32 x) (hi32 y)).
Definition lower_inot64 (x : Z) : Z := pack (nir_inot 32 (lo32 x)) (nir_inot 32 (hi32 x)).
Definition lower_iand64 (x y : Z) : Z := pack (nir_iand (lo32 x) (lo32 y)) (nir_iand (hi32 x) (hi32 y)).
Definition lower_ior64 (x y : Z) : Z := pack (nir_ior (lo32 x) (lo32 y)) (nir_ior (hi32 x) (hi32 y)).
Definition lower_ixor64 (x y : Z) : Z := pack (nir_ixor (lo32 x) (lo32 y)) (nir_ixor (hi32 x) (hi32 y)).

(** ** Shifts *)

Definition lower_ishl64 (x y : Z) : Z :=
  let x_lo := lo32 x in
  let x_hi := hi32 x in
  let y := nir_iand_imm 32 y 63 in
  let reverse_count := nir_iabs 32 (nir_iadd_imm 32 y (-32)) in
  let lo_shifted := nir_ishl 32 x_lo y in
  let hi_shifted := nir_ishl 32 x_hi y in
  let lo_shifted_hi := nir_ushr 32 x_lo reverse_count in
  let res_if_lt_32 := pack lo_shifted (nir_ior hi_shifted lo_shifted_hi) in
  let res_if_ge_32 := pack (nir_imm_int 0) (nir_ishl 32 x_lo reverse_count) in
  nir_bcsel (nir_cmp_imm 32 nir_op_ieq y 0) x
    (nir_bcsel (nir_cmp_imm 32 nir_op_uge y 32) res_if_ge_32 res_if_lt_32).

Definition lower_ishr64 (x y : Z) : Z :=
  let x_lo := lo32 x in
  let x_hi := hi32 x in
  let y := nir_iand_imm 32 y 63 in
  let reverse_count := nir_iabs 32 (nir_iadd_imm 32 y (-32)) in
  let lo_shifted := nir_ushr 32 x_lo y in
  let hi_shifted := nir_ishr 32 x_hi y in
  let hi_shifted_lo := nir_ishl 32 x_hi reverse_count in
  let res_if_lt_32 := pack (nir_ior lo_shifted hi_shifted_lo) hi_shifted in
  let res_if_ge_32 := pack (nir_ishr 32 x_hi reverse_count) (nir_ishr_imm 32 x_hi 31) in
  nir_bcsel (nir_cmp_imm 32 nir_op_ieq y 0) x
    (nir_bcsel (nir_cmp_imm 32 nir_op_uge y 32) res_if_ge_32 res_if_lt_32).

Definition lower_ushr64 (x y : Z) : Z :=
  let x_lo := lo32 x in
  let x_hi := hi32 x in
  let y := nir_iand_imm 32 y 63 in
  let reverse_count := nir_iabs 32 (nir_iadd_imm 32 y (-32)) in
  let lo_shifted := nir_ushr 32 x_lo y in
  let hi_shifted := nir_ushr 32 x_hi y in
  let hi_shifted_lo := nir_ishl 32 x_hi reverse_count in
  let res_if_lt_32 := pack (nir_ior lo_shifted hi_shifted_lo) hi_shifted in
  let res_if_ge_32 := pack (nir_ushr 32 x_hi reverse_count) (nir_imm_int 0) in
  nir_bcsel (nir_cmp_imm 32 nir_op_ieq y 0) x
    (nir_bcsel (nir_cmp_imm 32 nir_op_uge y 32) res_if_ge_32 res_if_lt_32).

(** ** Addition and comparison *)

Definition lower_iadd64 (x y : Z) : Z :=
  let res_lo := nir_iadd 32 (lo32 x) (lo32 y) in
  let carry := nir_b2i32 (nir_cmpop 32 nir_op_ult res_lo (lo32 x)) in
  let res_hi := nir_iadd 32 carry (nir_iadd 32 (hi32 x) (hi32 y)) in
  pack res_lo res_hi.

Definition lower_isub64 (x y : Z) : Z :=
  let res_lo := nir_isub 32 (lo32 x) (lo32 y) in
  let borrow := nir_ineg 32 (nir_b2i32 (nir_cmpop 32 nir_op_ult (lo32 x) (lo32 y))) in
  let res_hi := nir_iadd 32 (nir_isub 32 (hi32 x) (hi32 y)) borrow in
  pack res_lo res_hi.

Definition lower_ineg64 (x : Z) : Z := lower_isub64 (nir_imm_int64 0) x.

Definition lower_iabs64 (x : Z) : Z :=
  nir_bcsel (nir_cmp_imm 32 nir_op_ilt (hi32 x) 0) (nir_ineg 64 x) x.

Definition lower_ult64 (x y : Z) : bool :=
  nir_cmpop 32 nir_op_ult (hi32 x) (hi32 y)
  || (nir_cmpop 32 nir_op_ieq (hi32 x) (hi32 y) && nir_cmpop 32 nir_op_ult (lo32 x) (lo32 y)).
Definition lower_ilt64 (x y : Z) : bool :=
  nir_cmpop 32 nir_op_ilt (hi32 x) (hi32 y)
  || (nir_cmpop 32 nir_op_ieq (hi32 x) (hi32 y) && nir_cmpop 32 nir_op_ult (lo32 x) (lo32 y)).

Definition lower_int64_compare (op : nir_cmp) (x y : Z) : bool :=
  match op with
  | nir_op_ieq => nir_cmpop 32 nir_op_ieq (hi32 x) (hi32 y) && nir_cmpop 32 nir_op_ieq (lo32 x) (lo32 y)
  | nir_op_ine => nir_cmpop 32 nir_op_ine (hi32 x) (hi32 y) || nir_cmpop 32 nir_op_ine (lo32 x) (lo32 y)
  | nir_op_ult => lower_ult64 x y
  | nir_op_ilt => lower_ilt64 x y
  | nir_op_uge => negb (lower_ult64 x y)
  | nir_op_ige => negb (lower_ilt64 x y)
  end.

(** [COND_LOWER_CMP]: [lower_icmp] is the option of the shader. *)
Definition cond_lower_cmp (lower_icmp : bool) (op : nir_cmp) (x y : Z) : bool :=
  if lower_icmp then lower_int64_compare op x y else nir_cmpop 64 op x y.

Definition lower_umax64 (lower_icmp : bool) (x y : Z) : Z := nir_bcsel (cond_lower_cmp lower_icmp nir_op_ult x y) y x.
Definition lower_imax64 (lower_icmp : bool) (x y : Z) : Z := nir_bcsel (cond_lower_cmp lower_icmp nir_op_ilt x y) y x.
Definition lower_umin64 (lower_icmp : bool) (x y : Z) : Z := nir_bcsel (cond_lower_cmp lower_icmp nir_op_ult x y) x y.
Definition lower_imin64 (lower_icmp : bool) (x y : Z) : Z := nir_bcsel (cond_lower_cmp lower_icmp nir_op_ilt x y) x y.

(** ** Multiplication *)

Definition lower_mul_2x32_64 (x y : Z) (sign_extend : bool) : Z :=
  let res_hi := if sign_extend then nir_imul_high 32 x y else nir_umul_high 32 x y in
  pack (nir_imul 32 x y) res_hi.

Definition lower_imul64 (x y : Z) : Z :=
  let mul_lo := nir_umul_2x32_64 (lo32 x) (lo32 y) in
  let res_hi := nir_iadd 32 (hi32 mul_lo)
                  (nir_iadd 32 (nir_imul 32 (lo32 x) (hi32 y)) (nir_imul 32 (hi32 x) (lo32 y))) in
  pack (lo32 mul_lo) res_hi.

(** The four dwords of a source of [lower_mul_high64]. *)
Definition dwords (x : Z) (sign_extend : bool) : list Z :=
  let ext := if sign_extend then nir_ishr_imm 32 (hi32 x) 31 else nir_imm_int 0 in
  [lo32 x; hi32 x; ext; ext].

(** The loop over [j]: [res] is the array from [res[i]] on, [None] being NULL. *)
Fixpoint mul_row (x : Z) (ys : list Z) (res : list (option Z)) (carry : option Z) : list (option Z) :=
  match ys with
  | [] => (match carry with Some c => Some (eval_u2u 32 c) | None => None end) :: tail res
  | y :: ys =>
      let tmp := nir_umul_2x32_64 x y in
      let tmp := match res with Some r :: _ => nir_iadd 64 tmp (eval_u2u 64 r) | _ => tmp end in
      let tmp := match carry with Some c => nir_iadd 64 tmp c | None => tmp end in
      Some (eval_u2u 32 tmp) :: mul_row x ys (tail res) (Some (nir_ushr_imm 64 tmp 32))
  end.

(** The loop over [i]. *)
Fixpoint mul_rows (xs ys : list Z) (res : list (option Z)) : list (option Z) :=
  match xs with
  | [] => res
  | x :: xs =>
      match mul_row x ys res None with
      | r :: res => r :: mul_rows xs ys res
      | [] => []
      end
  end.

Definition lower_mul_high64 (x y : Z) (sign_extend : bool) : option Z :=
  let res := mul_rows (dwords x sign_extend) (dwords y sign_extend) (replicate 8 None) in
  match res !! 2%nat, res !! 3%nat with
  | Some (Some r2), Some (Some r3) => Some (pack r2 r3)
  | _, _ => None
  end.

Definition lower_isign64 (x : Z) : Z :=
  let is_non_zero := nir_i2b 32 (nir_ior (lo32 x) (hi32 x)) in
  let res_hi := nir_ishr_imm 32 (hi32 x) 31 in
  let res_lo := nir_ior res_hi (nir_b2i32 is_non_zero) in
  pack res_lo res_hi.

(** ** Division *)

(** The loop [for (int i = 31; i >= 0; i--)] on the high half: the state is [n_hi] and
    [q_hi]. *)
Definition high_step (need_high_div : bool) (d_lo log2_d_lo : Z) (s : Z * Z) (i : Z) : Z * Z :=
  let '(n_hi, q_hi) := s in
  let d_shift := nir_ishl_imm 32 d_lo i in
  let new_n_hi := nir_isub 32 n_hi d_shift in
  let new_q_hi := nir_ior_imm 32 q_hi (Z.shiftl 1 i) in
  let cond := need_high_div && nir_cmpop 32 nir_op_uge n_hi d_shift in
  let cond := if negb (i =? 0) then cond && nir_ile_imm 32 log2_d_lo (31 - i) else cond in
  (nir_bcsel cond new_n_hi n_hi, nir_bcsel cond new_q_hi q_hi).

(** The loop on the whole of [n]: the state is [n] and [q_lo]. *)
Definition low_step (d log2_denom : Z) (s : Z * Z) (i : Z) : Z * Z :=
  let '(n, q_lo) := s in
  let d_shift := nir_ishl_imm 64 d i in
  let new_n := nir_isub 64 n d_shift in
  let new_q_lo := nir_ior_imm 32 q_lo (Z.shiftl 1 i) in
  let cond := nir_cmpop 64 nir_op_uge n d_shift in
  let cond := if negb (i =? 0) then cond && nir_ile_imm 32 log2_denom (31 - i) else cond in
  (nir_bcsel cond new_n n, nir_bcsel cond new_q_lo q_lo).

Definition bits_down : list Z := reverse (seqZ 0 32).

(** [any] is [nir_bany(need_high_div)] over the channels, [scalar] says that there is
    only one. *)
Definition lower_udiv64_mod64 (scalar any : bool) (n d : Z) : Z * Z :=
  let n_lo := lo32 n in
  let n_hi := hi32 n in
  let d_lo := lo32 d in
  let d_hi := hi32 d in
  let need_high_div := nir_cmp_imm 32 nir_op_ieq d_hi 0 && nir_cmpop 32 nir_op_uge n_hi d_lo in
  let '(n_hi, q_hi) :=
    if any then
      let need_high_div := if scalar then true else need_high_div in
      foldl (high_step need_high_div d_lo (eval_ufind_msb 32 d_lo)) (n_hi, 0) bits_down
    else (n_hi, 0) in
  let n := pack n_lo n_hi in
  let d := pack d_lo d_hi in
  let '(n, q_lo) := foldl (low_step d (eval_ufind_msb 32 d_hi)) (n, 0) bits_down in
  (pack q_lo q_hi, n).

(** For a channel [need_high_div] and [any] are related like this. *)
Definition need_high_div (n d : Z) : bool :=
  nir_cmp_imm 32 nir_op_ieq (hi32 d) 0 && nir_cmpop 32 nir_op_uge (hi32 n) (lo32 d).
Definition branch_ok (scalar any : bool) (n d : Z) : Prop :=
  if scalar then any = need_high_div n d else need_high_div n d = true -> any = true.

Section division.
Context (scalar any : bool).

Definition lower_udiv64 (n d : Z) : Z := fst (lower_udiv64_mod64 scalar any n d).
Definition lower_umod64 (n d : Z) : Z := snd (lower_udiv64_mod64 scalar any n d).

Definition lower_idiv64 (n d : Z) : Z :=
  let negate := xorb (nir_cmp_imm 32 nir_op_ilt (hi32 n) 0) (nir_cmp_imm 32 nir_op_ilt (hi32 d) 0) in
  let '(q, r) := lower_udiv64_mod64 scalar any (nir_iabs 64 n) (nir_iabs 64 d) in
  nir_bcsel negate (nir_ineg 64 q) q.

Definition lower_imod64 (n d : Z) : Z :=
  let n_is_neg := nir_cmp_imm 32 nir_op_ilt (hi32 n) 0 in
  let d_is_neg := nir_cmp_imm 32 nir_op_ilt (hi32 d) 0 in
  let '(q, r) := lower_udiv64_mod64 scalar any (nir_iabs 64 n) (nir_iabs 64 d) in
  let rem := nir_bcsel n_is_neg (nir_ineg 64 r) r in
  nir_bcsel (nir_cmp_imm 64 nir_op_ieq r 0) (nir_imm_int64 0)
    (nir_bcsel (Bool.eqb n_is_neg d_is_neg) rem (nir_iadd 64 rem d)).

Definition lower_irem64 (n d : Z) : Z :=
  let n_is_neg := nir_cmp_imm 32 nir_op_ilt (hi32 n) 0 in
  let '(q, r) := lower_udiv64_mod64 scalar any (nir_iabs 64 n) (nir_iabs 64 d) in
  nir_bcsel n_is_neg (nir_ineg 64 r) r.
End division.

(** ** Bits and fields *)

Definition lower_extract (sign : bool) (chunk_bits x chunk : Z) : Z :=
  let num_chunks_in_32 := 32 / chunk_bits in
  let extract32 :=
    if chunk <? num_chunks_in_32 then eval_extract 32 sign chunk_bits (lo32 x) (nir_imm_int chunk)
    else eval_extract 32 sign chunk_bits (hi32 x) (nir_imm_int (chunk - num_chunks_in_32)) in
  if sign then lower_i2i64 32 extract32 else lower_u2u64 32 extract32.

Definition lower_ufind_msb64 (x : Z) : Z :=
  nir_imax 32 (eval_ufind_msb 32 (lo32 x)) (nir_ior_imm 32 (eval_ufind_msb 32 (hi32 x)) 32).
Definition lower_find_lsb64 (x : Z) : Z :=
  nir_umin 32 (eval_find_lsb 32 (lo32 x)) (nir_ior_imm 32 (eval_find_lsb 32 (hi32 x)) 32).
Definition lower_bit_count64 (x : Z) : Z :=
  nir_iadd 32 (eval_bit_count 32 (lo32 x)) (eval_bit_count 32 (hi32 x)).
Definition lower_bitfield_reverse64 (x : Z) : Z :=
  pack (eval_bitfield_reverse 32 (hi32 x)) (eval_bitfield_reverse 32 (lo32 x)).

Definition lower_bitfield_extract64 (base offset bits : Z) (is_signed : bool) : Z :=
  let tmp0 := nir_isub_imm 32 64 bits in
  let tmp1 := nir_isub 32 tmp0 offset in
  let tmp2 := nir_ishl 64 base tmp1 in
  let res := if is_signed then nir_ishr 64 tmp2 tmp0 else nir_ushr 64 tmp2 tmp0 in
  nir_bcsel (nir_cmp_imm 32 nir_op_ieq bits 0) (nir_imm_int64 0) res.

(** ** The instructions the pass rewrites *)

Inductive alu64 :=
| alu_un (op : nir_alu1) (x : Z)
| alu_bin (op : nir_alu2) (x y : Z)
| alu_shift (op : nir_shift) (x y : Z)
| alu_cmp (op : nir_cmp) (x y : Z)
| alu_div (op : nir_div_op) (x y : Z)
| alu_mul_2x32_64 (sign : bool) (x y : Z)
| alu_b2i64 (x : bool)
| alu_i2i (dst x : Z)
| alu_u2u (dst x : Z)
| alu_i2i64 (src x : Z)
| alu_u2u64 (src x : Z)
| alu_bcsel (cond : bool) (x y : Z)
| alu_bitfield_select (cond x y : Z)
| alu_extract (sign : bool) (width x chunk : Z)
| alu_ufind_msb (x : Z)
| alu_find_lsb (x : Z)
| alu_bit_count (x : Z)
| alu_bitfield_reverse (x : Z)
| alu_bitfield_extract (sign : bool) (base offset bits : Z).

(** What the opcode computes, by its constant expression in nir_opcodes.py; a 1-bit
    result is 0 or 1. *)
Definition eval_alu64 (i : alu64) : Z :=
  match i with
  | alu_un op x => eval_alu1 64 op x
  | alu_bin op x y => eval_alu2 64 op x y
  | alu_shift op x y => eval_shift 64 op x y
  | alu_cmp op x y => Z.b2z (eval_cmp 64 op x y)
  | alu_div op x y => eval_div 64 op x y
  | alu_mul_2x32_64 sign x y => eval_mul_2x32_64 sign x y
  | alu_b2i64 x => Z.b2z x
  | alu_i2i dst x => eval_i2i 64 dst x
  | alu_u2u dst x => eval_u2u dst x
  | alu_i2i64 src x => eval_i2i src 64 x
  | alu_u2u64 src x => eval_u2u 64 x
  | alu_bcsel c x y => if c then x else y
  | alu_bitfield_select c x y => eval_bitfield_select 64 c x y
  | alu_extract sign width x chunk => eval_extract 64 sign width x chunk
  | alu_ufind_msb x => eval_ufind_msb 64 x
  | alu_find_lsb x => eval_find_lsb 64 x
  | alu_bit_count x => eval_bit_count 64 x
  | alu_bitfield_reverse x => eval_bitfield_reverse 64 x
  | alu_bitfield_extract sign base offset bits =>
      if sign then eval_ibitfield_extract 64 base offset bits else eval_ubitfield_extract 64 base offset bits
  end.

(** [lower_int64_alu_instr]; [None] is the UNREACHABLE of the default case. *)
Definition lower_int64_alu_instr (lower_icmp scalar any : bool) (i : alu64) : option Z :=
  match i with
  | alu_un nir_op_ineg x => Some (lower_ineg64 x)
  | alu_un nir_op_iabs x => Some (lower_iabs64 x)
  | alu_un nir_op_isign x => Some (lower_isign64 x)
  | alu_un nir_op_inot x => Some (lower_inot64 x)
  | alu_bin nir_op_iadd x y => Some (lower_iadd64 x y)
  | alu_bin nir_op_isub x y => Some (lower_isub64 x y)
  | alu_bin nir_op_imul x y => Some (lower_imul64 x y)
  | alu_bin nir_op_umul_high x y => lower_mul_high64 x y false
  | alu_bin nir_op_imul_high x y => lower_mul_high64 x y true
  | alu_bin nir_op_iand x y => Some (lower_iand64 x y)
  | alu_bin nir_op_ior x y => Some (lower_ior64 x y)
  | alu_bin nir_op_ixor x y => Some (lower_ixor64 x y)
  | alu_bin nir_op_imin x y => Some (lower_imin64 lower_icmp x y)
  | alu_bin nir_op_imax x y => Some (lower_imax64 lower_icmp x y)
  | alu_bin nir_op_umin x y => Some (lower_umin64 lower_icmp x y)
  | alu_bin nir_op_umax x y => Some (lower_umax64 lower_icmp x y)
  | alu_bin nir_op_uadd_sat x y => None
  | alu_shift nir_op_ishl x y => Some (lower_ishl64 x y)
  | alu_shift nir_op_ishr x y => Some (lower_ishr64 x y)
  | alu_shift nir_op_ushr x y => Some (lower_ushr64 x y)
  | alu_cmp op x y => Some (Z.b2z (lower_int64_compare op x y))
  | alu_div nir_op_udiv x y => Some (lower_udiv64 scalar any x y)
  | alu_div nir_op_umod x y => Some (lower_umod64 scalar any x y)
  | alu_div nir_op_idiv x y => Some (lower_idiv64 scalar any x y)
  | alu_div nir_op_imod x y => Some (lower_imod64 scalar any x y)
  | alu_div nir_op_irem x y => Some (lower_irem64 scalar any x y)
  | alu_mul_2x32_64 sign x y => Some (lower_mul_2x32_64 x y sign)
  | alu_b2i64 x => Some (lower_b2i64 x)
  | alu_i2i dst x => if dst =? 8 then Some (lower_i2i8 x) else if dst =? 16 then Some (lower_i2i16 x)
                     else if dst =? 32 then Some (lower_i2i32 x) else None
  | alu_u2u dst x => if dst =? 8 then Some (lower_u2u8 x) else if dst =? 16 then Some (lower_u2u16 x)
                     else if dst =? 32 then Some (lower_u2u32 x) else None
  | alu_i2i64 src x => Some (lower_i2i64 src x)
  | alu_u2u64 src x => Some (lower_u2u64 src x)
  | alu_bcsel c x y => Some (lower_bcsel64 c x y)
  | alu_bitfield_select c x y => Some (lower_bitfield_select64 c x y)
  | alu_extract sign width x chunk => Some (lower_extract sign width x chunk)
  | alu_ufind_msb x => Some (lower_ufind_msb64 x)
  | alu_find_lsb x => Some (lower_find_lsb64 x)
  | alu_bit_count x => Some (lower_bit_count64 x)
  | alu_bitfield_reverse x => Some (lower_bitfield_reverse64 x)
  | alu_bitfield_extract sign base offset bits => Some (lower_bitfield_extract64 base offset bits sign)
  end.

(** * Halves *)

Lemma lo32_bit x i : 0 <= i -> Z.testbit (lo32 x) i = (i <? 32) && Z.testbit x i.
Proof.
  intros Hi. unfold nir_unpack_64_2x32_split_x, eval_unpack_x, wrap. destruct (Z.ltb_spec i 32).
  - by rewrite Z.mod_pow2_bits_low by lia.
  - by rewrite Z.mod_pow2_bits_high by lia.
Qed.

Lemma hi32_bit x i : 0 <= i -> Z.testbit (hi32 x) i = Z.testbit x (i + 32).
Proof. intros Hi. unfold nir_unpack_64_2x32_split_y, eval_unpack_y. by rewrite Z.shiftr_spec. Qed.

Lemma fits_high N x i : 0 <= N <= i -> fits N x -> Z.testbit x i = false.
Proof.
  intros Hi Hx. rewrite <- (Z.mod_small x (2 ^ N)) by exact Hx. apply Z.mod_pow2_bits_high. lia.
Qed.

Lemma pack_bit l h i : fits 32 l -> 0 <= i -> Z.testbit (pack l h) i = if i <? 32 then Z.testbit l i else Z.testbit h (i - 32).
Proof.
  intros Hl Hi. unfold nir_pack_64_2x32_split, eval_pack. rewrite Z.lor_spec, Z.shiftl_spec by lia.
  destruct (Z.ltb_spec i 32).
  - rewrite (Z.testbit_neg_r h) by lia. apply orb_false_r.
  - by rewrite (fits_high 32 l) by (lia || done).
Qed.

Lemma lo32_fits x : fits 32 (lo32 x).
Proof. apply wrap_fits. lia. Qed.

Lemma hi32_fits x : fits 64 x -> fits 32 (hi32 x).
Proof.
  unfold fits, nir_unpack_64_2x32_split_y, eval_unpack_y. intros Hx. rewrite Z.shiftr_div_pow2 by lia. dlia.
Qed.

Lemma halves x : x = lo32 x + 2 ^ 32 * hi32 x.
Proof.
  unfold nir_unpack_64_2x32_split_x, nir_unpack_64_2x32_split_y, eval_unpack_x, eval_unpack_y, wrap.
  rewrite Z.shiftr_div_pow2 by lia. dlia.
Qed.

Lemma pack_value l h : fits 32 l -> pack l h = l + 2 ^ 32 * h.
Proof.
  intros Hl. unfold nir_pack_64_2x32_split, eval_pack.
  assert (H0 : Z.land l (Z.shiftl h 32) = 0).
  { apply Z.bits_inj'. intros i Hi. rewrite Z.land_spec, Z.shiftl_spec, Z.bits_0 by lia.
    destruct (Z_lt_le_dec i 32); [rewrite (Z.testbit_neg_r h) by lia; apply andb_false_r|].
    by rewrite (fits_high 32 l) by (lia || done). }
  pose proof (Z.add_lor_land l (Z.shiftl h 32)) as E. rewrite H0, Z.shiftl_mul_pow2 in * by lia. lia.
Qed.

Lemma pack_fits l h : fits 32 l -> fits 32 h -> fits 64 (pack l h).
Proof. intros Hl Hh. rewrite pack_value by done. unfold fits in *. lia. Qed.

Lemma pack_halves x : pack (lo32 x) (hi32 x) = x.
Proof. rewrite pack_value by apply lo32_fits. symmetry. apply halves. Qed.

Lemma lo32_pack l h : fits 32 l -> lo32 (pack l h) = l.
Proof.
  intros Hl. rewrite pack_value by done. unfold nir_unpack_64_2x32_split_x, eval_unpack_x, wrap, fits in *. dlia.
Qed.
Lemma hi32_pack l h : fits 32 l -> hi32 (pack l h) = h.
Proof.
  intros Hl. rewrite pack_value by done. unfold nir_unpack_64_2x32_split_y, eval_unpack_y, fits in *.
  rewrite Z.shiftr_div_pow2 by lia. dlia.
Qed.

Lemma wrap_bit N x i : 0 <= N -> 0 <= i -> Z.testbit (wrap N x) i = (i <? N) && Z.testbit x i.
Proof.
  intros HN Hi. unfold wrap. destruct (Z.ltb_spec i N).
  - by rewrite Z.mod_pow2_bits_low by lia.
  - by rewrite Z.mod_pow2_bits_high by lia.
Qed.

(** The sign bit fills the higher bits. *)
Lemma signed_bit N x i : 1 <= N -> fits N x -> 0 <= i -> Z.testbit (signed N x) i = Z.testbit x (Z.min i (N - 1)).
Proof.
  intros HN Hx Hi. unfold signed. pose proof (pow2_half N HN) as Hp. unfold fits in Hx.
  assert (Htop : Z.testbit x (N - 1) = (x >=? 2 ^ (N - 1))).
  { destruct (Z.geb_spec x (2 ^ (N - 1))) as [Hge|Hlt].
    - apply Z.testbit_true; [lia|]. rewrite (div_between x (2 ^ (N - 1)) 1); [done|apply pow2_pos; lia|lia].
    - apply Z.testbit_false; [lia|]. rewrite Z.div_small by lia. done. }
  destruct (Z.geb_spec x (2 ^ (N - 1))) as [Hge|Hlt].
  - destruct (Z_lt_le_dec i (N - 1)).
    + rewrite Z.min_l by lia. rewrite <- (Z.mod_pow2_bits_low (x - 2 ^ N) N) by lia.
      rewrite <- (Z.mod_pow2_bits_low x N) by lia. f_equal.
      replace (x - 2 ^ N) with (x + (-1) * 2 ^ N) by lia. apply Z.mod_add. lia.
    + rewrite Z.min_r by lia. rewrite Htop. destruct (Z.geb_spec x (2 ^ (N - 1))); [|lia].
      replace (x - 2 ^ N) with (- (2 ^ N - x - 1) - 1) by lia.
      replace (- (2 ^ N - x - 1) - 1) with (Z.lnot (2 ^ N - x - 1)) by (unfold Z.lnot; lia).
      rewrite Z.lnot_spec by lia. apply negb_true_iff. apply (fits_high (N - 1)); [lia|]. unfold fits. lia.
  - destruct (Z_lt_le_dec i (N - 1)); [by rewrite Z.min_l by lia|]. rewrite Z.min_r by lia. rewrite Htop.
    destruct (Z.geb_spec x (2 ^ (N - 1))); [lia|]. apply (fits_high (N - 1)); [lia|]. unfold fits. lia.
Qed.

Lemma fits_bits N x : 0 <= N -> (forall i, N <= i -> Z.testbit x i = false) -> fits N x.
Proof.
  intros HN H. assert (E : wrap N x = x).
  { apply Z.bits_inj'. intros i Hi. rewrite wrap_bit by lia. destruct (Z.ltb_spec i N); [done|]. by rewrite H. }
  rewrite <- E. by apply wrap_fits.
Qed.

Lemma fits_land N a b : 0 <= N -> fits N a -> fits N (Z.land a b).
Proof. intros HN Ha. apply fits_bits; [done|]. intros i Hi. by rewrite Z.land_spec, (fits_high N a) by (lia || done). Qed.
Lemma fits_lor N a b : 0 <= N -> fits N a -> fits N b -> fits N (Z.lor a b).
Proof.
  intros HN Ha Hb. apply fits_bits; [done|]. intros i Hi.
  by rewrite Z.lor_spec, (fits_high N a), (fits_high N b) by (lia || done).
Qed.
Lemma fits_lxor N a b : 0 <= N -> fits N a -> fits N b -> fits N (Z.lxor a b).
Proof.
  intros HN Ha Hb. apply fits_bits; [done|]. intros i Hi.
  by rewrite Z.lxor_spec, (fits_high N a), (fits_high N b) by (lia || done).
Qed.
Lemma fits_ones N : 0 <= N -> fits N (2 ^ N - 1).
Proof. intros HN. pose proof (pow2_pos N HN). unfold fits. lia. Qed.

Create HintDb fits.
#[export] Hint Resolve lo32_fits hi32_fits pack_fits fits_land fits_lor fits_lxor fits_ones wrap_fits : fits.
#[export] Hint Extern 3 (_ <= _) => lia : fits.

(** An operation on each bit can be done on the halves. *)
Lemma pack_bitwise (f : Z -> bool) x y r :
  fits 32 x -> (forall i, 0 <= i < 32 -> Z.testbit x i = f i) -> (forall i, 0 <= i -> Z.testbit y i = f (i + 32)) ->
  (forall i, 0 <= i -> Z.testbit r i = f i) -> pack x y = r.
Proof.
  intros Hx Hlo Hhi Hr. apply Z.bits_inj'. intros i Hi. rewrite pack_bit, Hr by done.
  destruct (Z.ltb_spec i 32); [apply Hlo; lia|]. rewrite Hhi by lia. f_equal. lia.
Qed.

(** The bits of the halves of the sources. *)
Ltac half_bits :=
  intros; rewrite ?Z.land_spec, ?Z.lor_spec, ?Z.lxor_spec, ?lo32_bit, ?hi32_bit by lia;
  repeat match goal with |- context [?i <? 32] => destruct (Z.ltb_spec i 32); [|lia] end; try done.

Lemma iand64_correct x y : lower_iand64 x y = Z.land x y.
Proof.
  apply (pack_bitwise (fun i => Z.testbit x i && Z.testbit y i)); [unfold nir_iand; auto with fits|unfold nir_iand; half_bits..].
Qed.
Lemma ior64_correct x y : lower_ior64 x y = Z.lor x y.
Proof.
  apply (pack_bitwise (fun i => Z.testbit x i || Z.testbit y i)); [unfold nir_ior; auto with fits|unfold nir_ior; half_bits..].
Qed.
Lemma ixor64_correct x y : lower_ixor64 x y = Z.lxor x y.
Proof.
  apply (pack_bitwise (fun i => xorb (Z.testbit x i) (Z.testbit y i))); [unfold nir_ixor; auto with fits|unfold nir_ixor; half_bits..].
Qed.

Lemma bcsel64_correct c x y : lower_bcsel64 c x y = if c then x else y.
Proof. unfold lower_bcsel64, nir_bcsel. destruct c; apply pack_halves. Qed.

(** [~x]: the ones of the width flip every bit. *)
Lemma ones_bit N i : 0 <= N -> 0 <= i -> Z.testbit (2 ^ N - 1) i = (i <? N).
Proof.
  intros HN Hi. replace (2 ^ N - 1) with (Z.ones N) by (rewrite Z.ones_equiv; lia).
  destruct (Z.ltb_spec i N); [apply Z.ones_spec_low|apply Z.ones_spec_high]; lia.
Qed.

Lemma inot64_correct x : fits 64 x -> lower_inot64 x = eval_alu1 64 nir_op_inot x.
Proof.
  intros Hx. unfold lower_inot64, nir_inot, eval_alu1.
  apply (pack_bitwise (fun i => xorb (Z.testbit x i) (i <? 64))); [auto with fits|..].
  - intros i Hi. rewrite Z.lxor_spec, lo32_bit, !ones_bit by lia. destruct (Z.ltb_spec i 32); [|lia].
    destruct (Z.ltb_spec i 64); [done|lia].
  - intros i Hi. rewrite Z.lxor_spec, hi32_bit, ones_bit by lia. f_equal.
    destruct (Z.ltb_spec i 32), (Z.ltb_spec (i + 32) 64); done || lia.
  - intros i Hi. by rewrite Z.lxor_spec, ones_bit by lia.
Qed.

Lemma bitfield_select64_correct c x y :
  fits 64 c -> fits 64 y -> lower_bitfield_select64 c x y = eval_bitfield_select 64 c x y.
Proof.
  intros Hc Hy. unfold lower_bitfield_select64, eval_bitfield_select.
  apply (pack_bitwise (fun i => (Z.testbit c i && Z.testbit x i) || (xorb (Z.testbit c i) (i <? 64) && Z.testbit y i)));
    [auto 6 with fits|..].
  - intros i Hi. rewrite Z.lor_spec, !Z.land_spec, Z.lxor_spec, !lo32_bit, ones_bit by lia.
    destruct (Z.ltb_spec i 32); [|lia]. destruct (Z.ltb_spec i 64); [done|lia].
  - intros i Hi. rewrite Z.lor_spec, !Z.land_spec, Z.lxor_spec, !hi32_bit, ones_bit by lia. do 3 f_equal.
    destruct (Z.ltb_spec i 32), (Z.ltb_spec (i + 32) 64); done || lia.
  - intros i Hi. by rewrite Z.lor_spec, !Z.land_spec, Z.lxor_spec, ones_bit by lia.
Qed.

(** ** Conversions *)

Lemma signed_cases N x : signed N x = x \/ signed N x = x - 2 ^ N.
Proof. unfold signed. destruct (x >=? 2 ^ (N - 1)); auto. Qed.

Lemma wrap_signed_le d N x : 0 <= d <= N -> wrap d (signed N x) = wrap d x.
Proof.
  intros Hd. destruct (signed_cases N x) as [->| ->]; [done|]. apply wrap_eq; [lia|].
  exists (- 2 ^ (N - d)). replace N with (d + (N - d)) at 1 by lia. rewrite pow2_add by lia. lia.
Qed.

Lemma b2i64_correct c : lower_b2i64 c = Z.b2z c.
Proof. by destruct c. Qed.

Lemma i2i_correct dst x : 0 <= dst <= 32 -> eval_i2i 32 dst (lo32 x) = eval_i2i 64 dst x.
Proof.
  intros Hd. unfold eval_i2i. rewrite !wrap_signed_le by lia.
  unfold nir_unpack_64_2x32_split_x, eval_unpack_x. by rewrite wrap_wrap_le by lia.
Qed.

Lemma i2i32_correct x : lower_i2i32 x = eval_i2i 64 32 x.
Proof. unfold lower_i2i32, eval_i2i. by rewrite wrap_signed_le by lia. Qed.

Lemma u2u_correct dst x : 0 <= dst <= 32 -> eval_u2u dst (lo32 x) = eval_u2u dst x.
Proof. intros Hd. unfold eval_u2u, nir_unpack_64_2x32_split_x, eval_unpack_x. by rewrite wrap_wrap_le by lia. Qed.

(** The sign of a 32-bit value, in all its bits. *)
Lemma ishr31 x : fits 32 x -> nir_ishr_imm 32 x 31 = if x >=? 2 ^ 31 then 2 ^ 32 - 1 else 0.
Proof.
  intros Hx. unfold nir_ishr_imm, nir_ishr, eval_shift. change (31 =? 0) with false. cbn [negb].
  change (Z.land (nir_imm_int 31) (32 - 1)) with 31. rewrite Z.shiftr_div_pow2 by lia. unfold signed, fits in *.
  change (32 - 1) with 31. destruct (Z.geb_spec x (2 ^ 31)).
  - rewrite (div_between (x - 2 ^ 32) (2 ^ 31) (-1)) by lia. done.
  - by rewrite Z.div_small by lia.
Qed.

(** Sign extension of a value in the range of the smaller type. *)
Lemma sign_extend_pack s : - 2 ^ 31 <= s < 2 ^ 31 -> pack (wrap 32 s) (nir_ishr_imm 32 (wrap 32 s) 31) = wrap 64 s.
Proof.
  intros Hs. pose proof (wrap_fits 32 s ltac:(lia)) as Hw. rewrite ishr31, pack_value by done.
  unfold wrap, fits in *. destruct (Z_lt_le_dec s 0).
  - replace (s mod 2 ^ 32) with (s + 2 ^ 32) by (apply (Z.mod_unique _ _ (-1)); lia).
    replace (s mod 2 ^ 64) with (s + 2 ^ 64) by (apply (Z.mod_unique _ _ (-1)); lia).
    destruct (Z.geb_spec (s + 2 ^ 32) (2 ^ 31)); lia.
  - rewrite !Z.mod_small by lia. destruct (Z.geb_spec s (2 ^ 31)); lia.
Qed.

Lemma i2i64_correct src x : 1 <= src <= 32 -> fits src x -> lower_i2i64 src x = eval_i2i src 64 x.
Proof.
  intros Hsrc Hx. unfold lower_i2i64, eval_i2i. pose proof (signed_range src x ltac:(lia) Hx) as Hs.
  pose proof (pow2_le (src - 1) 31 ltac:(lia)).
  replace (if src =? 32 then x else wrap 32 (signed src x)) with (wrap 32 (signed src x)).
  - apply sign_extend_pack. lia.
  - destruct (Z.eqb_spec src 32) as [->|]; [|done]. by apply wrap_signed.
Qed.

Lemma u2u64_correct src x : 0 <= src <= 32 -> fits src x -> lower_u2u64 src x = eval_u2u 64 x.
Proof.
  intros Hsrc Hx. unfold lower_u2u64, eval_u2u. pose proof (pow2_le src 32 ltac:(lia)). unfold fits in Hx.
  assert (Hf : fits 32 x) by (unfold fits; lia). rewrite (wrap_small 32) by done.
  replace (if src =? 32 then x else x) with x by (by destruct (src =? 32)).
  rewrite pack_value by done. change (nir_imm_int 0) with 0. rewrite wrap_small by (unfold fits; lia). lia.
Qed.

(** ** Addition *)

Lemma wrap_sum a b N : 0 <= N -> fits N a -> fits N b -> wrap N (a + b) = if a + b <? 2 ^ N then a + b else a + b - 2 ^ N.
Proof.
  intros HN Ha Hb. unfold wrap, fits in *. destruct (Z.ltb_spec (a + b) (2 ^ N)); [by rewrite Z.mod_small by lia|].
  symmetry. apply (Z.mod_unique _ _ 1); lia.
Qed.

Lemma wrap_diff a b N : 0 <= N -> fits N a -> fits N b -> wrap N (a - b) = if a <? b then a - b + 2 ^ N else a - b.
Proof.
  intros HN Ha Hb. unfold wrap, fits in *. destruct (Z.ltb_spec a b); [|by rewrite Z.mod_small by lia].
  symmetry. apply (Z.mod_unique _ _ (-1)); lia.
Qed.

Lemma wrap_wrap_add_r w a b : 0 <= w -> wrap w (a + wrap w b) = wrap w (a + b).
Proof. intros Hw. rewrite Z.add_comm, wrap_wrap_add by done. by rewrite Z.add_comm. Qed.

(** A result is determined by its halves modulo the width. *)
Lemma pack_wrap l h v : 0 <= l < 2 ^ 32 -> v = l + 2 ^ 32 * h -> pack l (wrap 32 h) = wrap 64 v.
Proof.
  intros Hl ->. rewrite pack_value by done. unfold wrap. change (2 ^ 64) with (2 ^ 32 * 2 ^ 32). dlia.
Qed.

Lemma iadd64_correct x y : lower_iadd64 x y = eval_alu2 64 nir_op_iadd x y.
Proof.
  unfold lower_iadd64, nir_iadd, nir_cmpop, eval_cmp, eval_alu2, nir_b2i32.
  pose proof (halves x) as Hx. pose proof (halves y) as Hy. pose proof (lo32_fits x) as Hxl. pose proof (lo32_fits y) as Hyl.
  rewrite (wrap_wrap_add_r 32 _ (hi32 x + hi32 y)), (wrap_sum (lo32 x)) by (done || lia).
  unfold fits in *. destruct (Z.ltb_spec (lo32 x + lo32 y) (2 ^ 32)).
  - destruct (Z.ltb_spec (lo32 x + lo32 y) (lo32 x)); [lia|]. apply pack_wrap; lia.
  - destruct (Z.ltb_spec (lo32 x + lo32 y - 2 ^ 32) (lo32 x)); [|lia]. apply pack_wrap; lia.
Qed.

Lemma ineg_wrap N x : 1 <= N -> fits N x -> eval_alu1 N nir_op_ineg x = wrap N (- x).
Proof.
  intros HN Hx. unfold eval_alu1. pose proof (signed_eq_min N x HN Hx) as Hmin.
  destruct (Z.eqb_spec (signed N x) (- 2 ^ (N - 1))) as [E|_].
  - apply Hmin in E. rewrite E. pose proof (pow2_half N HN). pose proof (pow2_pos (N - 1) ltac:(lia)).
    unfold wrap. apply (Z.mod_unique _ _ (-1)); lia.
  - destruct (signed_cases N x) as [->| ->]; [done|]. apply wrap_eq; [lia|]. exists 1. lia.
Qed.

Lemma isub64_correct x y : lower_isub64 x y = eval_alu2 64 nir_op_isub x y.
Proof.
  unfold lower_isub64, nir_isub, nir_iadd, nir_ineg, nir_cmpop, eval_cmp, eval_alu2, nir_b2i32.
  pose proof (halves x) as Hx. pose proof (halves y) as Hy. pose proof (lo32_fits x) as Hxl. pose proof (lo32_fits y) as Hyl.
  rewrite (wrap_diff (lo32 x)) by (done || lia). unfold fits in *. destruct (Z.ltb_spec (lo32 x) (lo32 y)).
  - rewrite ineg_wrap by (unfold fits; lia). rewrite wrap_wrap_add_r, wrap_wrap_add by lia. apply pack_wrap; lia.
  - rewrite ineg_wrap by (unfold fits; lia). rewrite wrap_wrap_add_r, wrap_wrap_add by lia. apply pack_wrap; lia.
Qed.

Lemma ineg64_correct x : fits 64 x -> lower_ineg64 x = eval_alu1 64 nir_op_ineg x.
Proof. intros Hx. unfold lower_ineg64. rewrite isub64_correct, ineg_wrap by (done || lia). done. Qed.

(** The sign is in the high half. *)
Lemma hi_sign x : fits 64 x -> nir_cmp_imm 32 nir_op_ilt (hi32 x) 0 = (signed 64 x <? 0).
Proof.
  intros Hx. unfold nir_cmp_imm, nir_cmpop, eval_cmp. change (nir_imm_intN_t 32 0) with 0.
  pose proof (halves x). pose proof (lo32_fits x). pose proof (hi32_fits x Hx). unfold signed, fits in *.
  change (64 - 1) with 63. change (32 - 1) with 31. change (0 >=? 2 ^ 31) with false. cbn match.
  destruct (Z.geb_spec (hi32 x) (2 ^ 31)), (Z.geb_spec x (2 ^ 63)); try lia;
    destruct (Z.ltb_spec (hi32 x - 2 ^ 32) 0), (Z.ltb_spec (x - 2 ^ 64) 0), (Z.ltb_spec (hi32 x) 0), (Z.ltb_spec x 0); done || lia.
Qed.

Lemma iabs64_correct x : fits 64 x -> lower_iabs64 x = eval_alu1 64 nir_op_iabs x.
Proof.
  intros Hx. unfold lower_iabs64, nir_bcsel, nir_ineg. rewrite hi_sign, ineg_wrap by (done || lia). unfold eval_alu1.
  destruct (Z.ltb_spec (signed 64 x) 0) as [Hn|Hp].
  - destruct (signed_cases 64 x) as [->| ->]; [done|]. apply wrap_eq; [lia|]. exists (-1). lia.
  - symmetry. by apply wrap_signed.
Qed.

(** ** Comparison *)

Lemma ult64_correct x y : lower_ult64 x y = (x <? y).
Proof.
  unfold lower_ult64, nir_cmpop, eval_cmp. pose proof (halves x). pose proof (halves y).
  pose proof (lo32_fits x). pose proof (lo32_fits y). unfold fits in *. apply eq_iff_eq_true.
  rewrite orb_true_iff, andb_true_iff, !Z.ltb_lt, Z.eqb_eq. lia.
Qed.

Lemma signed_halves x : fits 64 x -> signed 64 x = lo32 x + 2 ^ 32 * signed 32 (hi32 x).
Proof.
  intros Hx. pose proof (halves x). pose proof (lo32_fits x). pose proof (hi32_fits x Hx). unfold signed, fits in *.
  change (64 - 1) with 63. change (32 - 1) with 31.
  destruct (Z.geb_spec x (2 ^ 63)), (Z.geb_spec (hi32 x) (2 ^ 31)); lia.
Qed.

Lemma ilt64_correct x y : fits 64 x -> fits 64 y -> lower_ilt64 x y = (signed 64 x <? signed 64 y).
Proof.
  intros Hx Hy. unfold lower_ilt64, nir_cmpop, eval_cmp. pose proof (signed_halves x Hx). pose proof (signed_halves y Hy).
  pose proof (lo32_fits x). pose proof (lo32_fits y). pose proof (hi32_fits x Hx). pose proof (hi32_fits y Hy).
  unfold fits in *. apply eq_iff_eq_true. rewrite orb_true_iff, andb_true_iff, !Z.ltb_lt, Z.eqb_eq.
  assert (signed 32 (hi32 x) = signed 32 (hi32 y) <-> hi32 x = hi32 y).
  { split; [|congruence]. unfold signed. change (32 - 1) with 31.
    destruct (Z.geb_spec (hi32 x) (2 ^ 31)), (Z.geb_spec (hi32 y) (2 ^ 31)); lia. }
  lia.
Qed.

Lemma compare64_correct op x y : fits 64 x -> fits 64 y -> lower_int64_compare op x y = eval_cmp 64 op x y.
Proof.
  intros Hx Hy. pose proof (halves x). pose proof (halves y). pose proof (lo32_fits x). pose proof (lo32_fits y).
  unfold fits in *. destruct op; cbn [lower_int64_compare eval_cmp]; unfold nir_cmpop, eval_cmp.
  - apply eq_iff_eq_true. rewrite andb_true_iff, !Z.eqb_eq. lia.
  - apply eq_iff_eq_true. rewrite orb_true_iff, !negb_true_iff, !Z.eqb_neq. lia.
  - by apply ilt64_correct.
  - rewrite ilt64_correct by done. by rewrite Z.geb_leb, Z.leb_antisym.
  - apply ult64_correct.
  - rewrite ult64_correct. by rewrite Z.geb_leb, Z.leb_antisym.
Qed.

Lemma cond_cmp_correct b op x y : fits 64 x -> fits 64 y -> cond_lower_cmp b op x y = eval_cmp 64 op x y.
Proof. intros Hx Hy. unfold cond_lower_cmp. destruct b; [by apply compare64_correct|done]. Qed.

Lemma minmax64_correct b x y :
  fits 64 x -> fits 64 y ->
  lower_umax64 b x y = eval_alu2 64 nir_op_umax x y /\ lower_umin64 b x y = eval_alu2 64 nir_op_umin x y
  /\ lower_imax64 b x y = eval_alu2 64 nir_op_imax x y /\ lower_imin64 b x y = eval_alu2 64 nir_op_imin x y.
Proof.
  intros Hx Hy. unfold lower_umax64, lower_umin64, lower_imax64, lower_imin64, nir_bcsel.
  rewrite !cond_cmp_correct by done. cbn [eval_cmp eval_alu2]. unfold MAX2, MIN2. rewrite !Z.gtb_ltb.
  split_and!.
  - destruct (Z.ltb_spec x y), (Z.ltb_spec y x); lia.
  - done.
  - pose proof (wrap_signed 64 x ltac:(lia) Hx) as Ex. pose proof (wrap_signed 64 y ltac:(lia) Hy) as Ey.
    destruct (Z.ltb_spec (signed 64 x) (signed 64 y)) as [H1|H1], (Z.ltb_spec (signed 64 y) (signed 64 x)) as [H2|H2]; try lia.
    replace (signed 64 y) with (signed 64 x) by lia. by rewrite Ex.
  - destruct (Z.ltb_spec (signed 64 x) (signed 64 y)); symmetry; by apply wrap_signed.
Qed.

(** ** Shifts *)

Lemma iand63 y : nir_iand_imm 32 y 63 = Z.land y 63.
Proof. reflexivity. Qed.

Lemma land63_range y : 0 <= Z.land y 63 < 64.
Proof. change 63 with (Z.ones 6). rewrite Z.land_ones by lia. apply Z.mod_pos_bound. lia. Qed.

Lemma reverse_count k : 0 <= k < 64 -> nir_iabs 32 (nir_iadd_imm 32 k (-32)) = Z.abs (k - 32).
Proof.
  intros Hk. change (nir_iadd_imm 32 k (-32)) with (wrap 32 (k + (2 ^ 32 - 32))).
  replace (wrap 32 (k + (2 ^ 32 - 32))) with (wrap 32 (k - 32)) by (apply wrap_eq; [lia|exists (-1); lia]).
  unfold nir_iabs, eval_alu1. rewrite signed_wrap by lia. rewrite wrap_small by (unfold fits; destruct (Z.ltb_spec (k - 32) 0); lia).
  destruct (Z.ltb_spec (k - 32) 0); lia.
Qed.

Lemma shift_count N s : (N = 32 \/ N = 64) -> 0 <= s < N -> Z.land s (N - 1) = s.
Proof.
  intros [->| ->] Hs; [change (32 - 1) with (Z.ones 5)|change (64 - 1) with (Z.ones 6)];
    rewrite Z.land_ones by lia; apply Z.mod_small; lia.
Qed.

Lemma ishl_bit N a s i : (N = 32 \/ N = 64) -> 0 <= s < N -> 0 <= i ->
  Z.testbit (nir_ishl N a s) i = (i <? N) && Z.testbit a (i - s).
Proof.
  intros HN Hs Hi. unfold nir_ishl, eval_shift. rewrite shift_count, wrap_bit, Z.shiftl_spec by (done || lia). done.
Qed.
Lemma ushr_bit N a s i : (N = 32 \/ N = 64) -> 0 <= s < N -> 0 <= i -> Z.testbit (nir_ushr N a s) i = Z.testbit a (i + s).
Proof. intros HN Hs Hi. unfold nir_ushr, eval_shift. rewrite shift_count, Z.shiftr_spec by (done || lia). done. Qed.
Lemma ishr_bit N a s i : (N = 32 \/ N = 64) -> fits N a -> 0 <= s < N -> 0 <= i ->
  Z.testbit (nir_ishr N a s) i = (i <? N) && Z.testbit a (Z.min (i + s) (N - 1)).
Proof.
  intros HN Ha Hs Hi. unfold nir_ishr, eval_shift. rewrite shift_count, wrap_bit, Z.shiftr_spec by (done || lia).
  by rewrite signed_bit by (done || lia).
Qed.

Lemma ishl_fits N a s : (N = 32 \/ N = 64) -> fits N (nir_ishl N a s).
Proof. intros HN. unfold nir_ishl, eval_shift. apply wrap_fits. lia. Qed.
Lemma ishr_fits N a s : (N = 32 \/ N = 64) -> fits N (nir_ishr N a s).
Proof. intros HN. unfold nir_ishr, eval_shift. apply wrap_fits. lia. Qed.
Lemma ushr_fits N a s : (N = 32 \/ N = 64) -> fits N a -> 0 <= s < N -> fits N (nir_ushr N a s).
Proof.
  intros HN Ha Hs. apply fits_bits; [lia|]. intros i Hi. rewrite ushr_bit by (done || lia).
  apply (fits_high N); [lia|done].
Qed.
#[local] Hint Resolve ishl_fits ishr_fits ushr_fits : fits.

Lemma lo32_bit_all x i : Z.testbit (lo32 x) i = (i <? 32) && Z.testbit x i.
Proof.
  destruct (Z_lt_le_dec i 0); [|by apply lo32_bit]. rewrite !Z.testbit_neg_r by done. by rewrite andb_false_r.
Qed.
Lemma hi32_bit_all x i : Z.testbit (hi32 x) i = (0 <=? i) && Z.testbit x (i + 32).
Proof.
  destruct (Z.leb_spec 0 i); [by apply hi32_bit|]. by rewrite Z.testbit_neg_r.
Qed.

(** Every comparison of indices in the goal is decided. *)
Ltac index_cases :=
  repeat match goal with
  | |- context [?a <? ?b] => destruct (Z.ltb_spec a b)
  | |- context [?a <=? ?b] => destruct (Z.leb_spec a b)
  end; cbn [andb orb]; rewrite ?andb_false_r, ?orb_false_r, ?andb_true_r; try lia; try done.

(** The same bit, written with another index. *)
Ltac same_bit := solve [done | f_equal; lia | rewrite Z.testbit_neg_r by lia; done | symmetry; rewrite Z.testbit_neg_r by lia; done].

Lemma ishl64_correct x y : fits 64 x -> lower_ishl64 x y = eval_shift 64 nir_op_ishl x y.
Proof.
  intros Hx. unfold lower_ishl64. rewrite iand63. pose proof (land63_range y) as Hk.
  change (eval_shift 64 nir_op_ishl x y) with (wrap 64 (Z.shiftl x (Z.land y 63))). set (k := Z.land y 63) in *.
  rewrite reverse_count by done. unfold nir_cmp_imm, nir_cmpop, eval_cmp, nir_bcsel, nir_ior.
  change (nir_imm_intN_t 32 0) with 0. change (nir_imm_intN_t 32 32) with 32.
  assert (Hr : forall i, 0 <= i -> Z.testbit (wrap 64 (Z.shiftl x k)) i = (i <? 64) && Z.testbit x (i - k))
    by (intros i Hi; by rewrite wrap_bit, Z.shiftl_spec by lia).
  destruct (Z.eqb_spec k 0) as [->|]; [rewrite Z.shiftl_0_r; symmetry; by apply wrap_small|].
  destruct (Z.geb_spec k 32).
  - apply (pack_bitwise (fun i => (i <? 64) && Z.testbit x (i - k))); [change (nir_imm_int 0) with 0; unfold fits; lia|..|done].
    + intros i Hi. change (nir_imm_int 0) with 0. rewrite Z.bits_0. index_cases. same_bit.
    + intros i Hi. rewrite ishl_bit, lo32_bit_all by lia. index_cases; same_bit.
  - apply (pack_bitwise (fun i => (i <? 64) && Z.testbit x (i - k))); [auto with fits|..|done].
    + intros i Hi. rewrite ishl_bit, lo32_bit_all by lia. index_cases; same_bit.
    + intros i Hi. rewrite Z.lor_spec, ishl_bit, ushr_bit, hi32_bit_all, lo32_bit_all by lia. index_cases; same_bit.
Qed.

Lemma ushr64_correct x y : fits 64 x -> lower_ushr64 x y = eval_shift 64 nir_op_ushr x y.
Proof.
  intros Hx. unfold lower_ushr64. rewrite iand63. pose proof (land63_range y) as Hk.
  change (eval_shift 64 nir_op_ushr x y) with (Z.shiftr x (Z.land y 63)). set (k := Z.land y 63) in *.
  rewrite reverse_count by done. unfold nir_cmp_imm, nir_cmpop, eval_cmp, nir_bcsel, nir_ior.
  change (nir_imm_intN_t 32 0) with 0. change (nir_imm_intN_t 32 32) with 32. pose proof (hi32_fits x Hx) as Hh.
  assert (Hr : forall i, 0 <= i -> Z.testbit (Z.shiftr x k) i = (i + k <? 64) && Z.testbit x (i + k)).
  { intros i Hi. rewrite Z.shiftr_spec by lia. destruct (Z.ltb_spec (i + k) 64); [done|].
    by rewrite (fits_high 64) by (lia || done). }
  destruct (Z.eqb_spec k 0) as [->|]; [by rewrite Z.shiftr_0_r|].
  destruct (Z.geb_spec k 32).
  - apply (pack_bitwise (fun i => (i + k <? 64) && Z.testbit x (i + k))); [apply ushr_fits; (done || lia)|..|done].
    + intros i Hi. rewrite ushr_bit, hi32_bit by lia. index_cases; try same_bit. apply (fits_high 64); [lia|done].
    + intros i Hi. change (nir_imm_int 0) with 0. rewrite Z.bits_0. index_cases.
  - apply (pack_bitwise (fun i => (i + k <? 64) && Z.testbit x (i + k))); [auto with fits|..|done].
    + intros i Hi. rewrite Z.lor_spec, ushr_bit, ishl_bit, hi32_bit_all, lo32_bit_all by lia. index_cases; same_bit.
    + intros i Hi. rewrite ushr_bit, hi32_bit by lia. index_cases; try same_bit. apply (fits_high 64); [lia|done].
Qed.

Lemma ishr64_correct x y : fits 64 x -> lower_ishr64 x y = eval_shift 64 nir_op_ishr x y.
Proof.
  intros Hx. unfold lower_ishr64. rewrite iand63. pose proof (land63_range y) as Hk.
  change (eval_shift 64 nir_op_ishr x y) with (wrap 64 (Z.shiftr (signed 64 x) (Z.land y 63))). set (k := Z.land y 63) in *.
  rewrite reverse_count by done. unfold nir_cmp_imm, nir_cmpop, eval_cmp, nir_bcsel, nir_ior.
  change (nir_imm_intN_t 32 0) with 0. change (nir_imm_intN_t 32 32) with 32. pose proof (hi32_fits x Hx) as Hh.
  change (nir_ishr_imm 32 (hi32 x) 31) with (nir_ishr 32 (hi32 x) 31).
  set (f := fun i => (i <? 64) && Z.testbit x (Z.min (i + k) 63)).
  assert (Hr : forall i, 0 <= i -> Z.testbit (wrap 64 (Z.shiftr (signed 64 x) k)) i = f i).
  { intros i Hi. unfold f. by rewrite wrap_bit, Z.shiftr_spec, signed_bit by (done || lia). }
  destruct (Z.eqb_spec k 0) as [->|]; [rewrite Z.shiftr_0_r, wrap_signed by (done || lia); done|].
  destruct (Z.geb_spec k 32).
  - apply (pack_bitwise f); [auto with fits|..|done]; unfold f.
    + intros i Hi. rewrite ishr_bit, hi32_bit by (done || lia). index_cases; same_bit.
    + intros i Hi. rewrite ishr_bit, hi32_bit by (done || lia). index_cases; same_bit.
  - apply (pack_bitwise f); [auto with fits|..|done]; unfold f.
    + intros i Hi. rewrite Z.lor_spec, ushr_bit, ishl_bit, hi32_bit_all, lo32_bit_all by lia. index_cases; same_bit.
    + intros i Hi. rewrite ishr_bit, hi32_bit by (done || lia). index_cases; same_bit.
Qed.

(** ** Multiplication *)

Lemma wrap_wrap_mul_r w a b : 0 <= w -> wrap w (a * wrap w b) = wrap w (a * b).
Proof. intros Hw. rewrite Z.mul_comm, wrap_wrap_mul by done. by rewrite Z.mul_comm. Qed.

Lemma mul_fits x y : fits 32 x -> fits 32 y -> fits 64 (x * y).
Proof. unfold fits. intros. change (2 ^ 64) with (2 ^ 32 * 2 ^ 32). nia. Qed.

Lemma mul_2x32_64_correct sign x y : fits 32 x -> fits 32 y -> lower_mul_2x32_64 x y sign = eval_mul_2x32_64 sign x y.
Proof.
  intros Hx Hy. unfold lower_mul_2x32_64, eval_mul_2x32_64, nir_imul, nir_imul_high, nir_umul_high, eval_alu2.
  assert (Hl : fits 32 (wrap 32 (x * y))) by auto with fits. destruct sign.
  - rewrite Z.shiftr_div_pow2 by lia. apply pack_wrap; [done|].
    replace (wrap 32 (x * y)) with (wrap 32 (signed 32 x * signed 32 y)).
    + unfold wrap. pose proof (Z.div_mod (signed 32 x * signed 32 y) (2 ^ 32)). lia.
    + destruct (signed_cases 32 x) as [-> | ->], (signed_cases 32 y) as [-> | ->]; try done; apply wrap_eq; try lia.
      * exists (- x). lia.
      * exists (- y). lia.
      * exists (2 ^ 32 - x - y). lia.
  - rewrite pack_value, Z.shiftr_div_pow2 by (done || lia). unfold wrap.
    pose proof (Z.div_mod (x * y) (2 ^ 32)). lia.
Qed.

Lemma wrap_wrap_add3 w a b c : 0 <= w -> wrap w (a + wrap w (wrap w b + wrap w c)) = wrap w (a + b + c).
Proof.
  intros Hw. rewrite wrap_wrap_add_r, Z.add_assoc, wrap_wrap_add_r by done.
  replace (a + wrap w b + c) with (a + c + wrap w b) by lia. rewrite wrap_wrap_add_r by done. f_equal. lia.
Qed.

Lemma imul64_correct x y : lower_imul64 x y = eval_alu2 64 nir_op_imul x y.
Proof.
  unfold lower_imul64, nir_umul_2x32_64, eval_mul_2x32_64, nir_iadd, nir_imul, eval_alu2.
  pose proof (halves (lo32 x * lo32 y)) as Hm. pose proof (halves x) as Hx. pose proof (halves y) as Hy.
  pose proof (lo32_fits (lo32 x * lo32 y)) as Hl. rewrite wrap_wrap_add3 by lia.
  erewrite pack_wrap by done. apply wrap_eq; [lia|]. exists (- (hi32 x * hi32 y)). change (2 ^ 64) with (2 ^ 32 * 2 ^ 32).
  generalize dependent (lo32 (lo32 x * lo32 y)). generalize dependent (hi32 (lo32 x * lo32 y)).
  generalize dependent (lo32 x). generalize dependent (hi32 x). generalize dependent (lo32 y). generalize dependent (hi32 y).
  intros. subst x y. lia.
Qed.

(** The schoolbook product of [lower_mul_high64]: the number that dwords stand for, a
    NULL dword being 0. *)
Definition value (l : list Z) : Z := foldr (fun d acc => d + 2 ^ 32 * acc) 0 l.
Definition dval (l : list (option Z)) : Z := value (map (default 0) l).
Definition dwords_fit (l : list (option Z)) : Prop := Forall (fun o => fits 32 (default 0 o)) l.

Lemma dval_cons o l : dval (o :: l) = default 0 o + 2 ^ 32 * dval l.
Proof. done. Qed.

(** The sum of a column fits in 64 bits. *)
Lemma column_fits x y r c :
  fits 32 x -> fits 32 y -> fits 32 r -> fits 32 c -> fits 64 (x * y + r + c).
Proof. unfold fits. intros. change (2 ^ 64) with (2 ^ 32 * 2 ^ 32). nia. Qed.

Lemma column_sum x y r c :
  fits 32 x -> fits 32 y -> fits 32 (default 0 r) -> fits 32 (default 0 c) ->
  (let tmp := nir_umul_2x32_64 x y in
   let tmp := match r with Some r => nir_iadd 64 tmp (eval_u2u 64 r) | None => tmp end in
   match c with Some c => nir_iadd 64 tmp c | None => tmp end) = x * y + default 0 r + default 0 c.
Proof.
  intros Hx Hy Hr Hc. pose proof (column_fits x y (default 0 r) (default 0 c) Hx Hy Hr Hc) as H.
  unfold nir_umul_2x32_64, eval_mul_2x32_64, nir_iadd, eval_alu2, eval_u2u. cbv zeta.
  assert (H0 : forall a, fits 32 a -> fits 64 a) by (unfold fits; lia). unfold fits in *.
  assert (0 <= x * y) by nia.
  destruct r as [r|], c as [c|]; cbn [default] in *; unfold id in *;
    rewrite ?(wrap_small 64 r), ?wrap_small by (unfold fits; rewrite ?(wrap_small 64) by (unfold fits; lia); lia); lia.
Qed.

Lemma mul_row_spec x ys : forall res carry,
  fits 32 x -> Forall (fits 32) ys -> dwords_fit res -> fits 32 (default 0 carry) ->
  (length ys < length res)%nat -> default None (res !! length ys) = None ->
  dval (mul_row x ys res carry) = x * value ys + dval res + default 0 carry
  /\ dwords_fit (mul_row x ys res carry)
  /\ length (mul_row x ys res carry) = length res
  /\ (forall j, (length ys < j)%nat -> mul_row x ys res carry !! j = res !! j).
Proof.
  induction ys as [|y ys IH]; intros [|o res] carry Hx Hys Hres Hc Hlen Hnone; try (cbn in Hlen; lia).
  - cbn in Hnone. subst o. cbn [mul_row tail].
    assert (E : default 0 (match carry with Some c => Some (eval_u2u 32 c) | None => None end) = default 0 carry).
    { destruct carry as [c|]; [|done]. by apply wrap_small. }
    split_and!; [rewrite !dval_cons, E; cbn; lia|constructor; [by rewrite E|by inversion Hres]|done|].
    intros [|j] Hj; [cbn in Hj; lia|done].
  - inversion Hys as [|? ? Hy Hys']; subst. inversion Hres as [|? ? Ho Hres']; subst. cbn [length] in Hlen.
    pose proof (column_fits x y (default 0 o) (default 0 carry) Hx Hy Ho Hc) as Hfit.
    set (t := x * y + default 0 o + default 0 carry) in *.
    assert (E : mul_row x (y :: ys) (o :: res) carry
      = Some (eval_u2u 32 t) :: mul_row x ys res (Some (nir_ushr_imm 64 t 32))).
    { pose proof (column_sum x y o carry Hx Hy Ho Hc) as Es. cbv zeta in Es. fold t in Es. cbn [mul_row tail].
      by rewrite Es. }
    assert (Esh : nir_ushr_imm 64 t 32 = t / 2 ^ 32).
    { change (nir_ushr_imm 64 t 32) with (Z.shiftr t 32). by rewrite Z.shiftr_div_pow2 by lia. }
    rewrite E, Esh. clear E Esh.
    destruct (IH res (Some (t / 2 ^ 32)) Hx Hys' Hres') as (Hv & Hf & Hl & Hj).
    + unfold fits in *. cbn. unfold id. dlia.
    + lia.
    + exact Hnone.
    + cbn [default] in Hv. unfold id in Hv. split_and!.
      * rewrite !dval_cons, Hv. cbn [default value foldr]. unfold id, eval_u2u, wrap. fold (value ys).
        pose proof (Z.div_mod t (2 ^ 32) ltac:(lia)). assert (Ht : t = x * y + default 0 o + default 0 carry) by done.
        clearbody t. unfold id in *. lia.
      * constructor; [|done]. apply wrap_fits. lia.
      * cbn [length]. by rewrite Hl.
      * intros [|j] Hjl; cbn [length] in Hjl; [lia|]. cbn. apply Hj. lia.
Qed.

Lemma mul_row_head x y ys res carry : exists r l, mul_row x (y :: ys) res carry = Some r :: l.
Proof. cbn. eauto. Qed.

Lemma mul_rows_spec ys xs : forall res,
  Forall (fits 32) xs -> Forall (fits 32) ys -> ys <> [] -> dwords_fit res ->
  length res = (length xs + length ys)%nat -> (forall j, (length ys <= j)%nat -> default None (res !! j) = None) ->
  dval (mul_rows xs ys res) = value xs * value ys + dval res
  /\ dwords_fit (mul_rows xs ys res)
  /\ (forall i, (i < length xs)%nat -> exists v, mul_rows xs ys res !! i = Some (Some v)).
Proof.
  induction xs as [|x xs IH]; intros res Hxs Hys Hne Hres Hlen Hnone.
  - cbn [mul_rows value foldr length]. split_and!; [lia|done|lia].
  - inversion Hxs as [|? ? Hx Hxs']; subst. cbn [length] in Hlen.
    destruct (mul_row_spec x ys res None Hx Hys Hres) as (Hv & Hf & Hl & Hj);
      [cbn; unfold fits; lia|lia|by apply Hnone|].
    destruct ys as [|y ys']; [done|]. destruct (mul_row_head x y ys' res None) as (r & l & E).
    cbn [mul_rows]. rewrite E in *. cbn [length] in Hl. inversion Hf as [|? ? Hr Hl']; subst.
    destruct (IH l Hxs' Hys Hne Hl') as (Hv' & Hf' & Hs).
    + cbn [length] in *. lia.
    + intros j Hjl. cbn [length] in Hjl. specialize (Hj (S j) ltac:(cbn [length]; lia)). change (l !! j = res !! S j) in Hj. rewrite Hj.
      apply (Hnone (S j)). cbn [length]. lia.
    + split_and!.
      * rewrite dval_cons in *. rewrite Hv'. cbn [value foldr] in *. fold (value xs) in *. cbn [default] in *. unfold id in *. lia.
      * by apply Forall_cons.
      * intros [|i] Hi; cbn [length] in Hi; [by exists r|]. apply (Hs i). lia.
Qed.

(** The dwords of a source stand for its value, modulo [2^128] when it is signed. *)
Lemma dwords_value sign x : fits 64 x ->
  exists k, value (dwords x sign) = (if sign then signed 64 x else x) + k * 2 ^ 128.
Proof.
  intros Hx. pose proof (hi32_fits x Hx) as Hh. pose proof (halves x) as E. pose proof (lo32_fits x).
  unfold dwords. cbn [value foldr]. destruct sign.
  - rewrite ishr31 by done. rewrite (signed_halves x Hx). unfold signed. change (32 - 1) with 31.
    destruct (hi32 x >=? 2 ^ 31); [exists 1|exists 0]; lia.
  - change (nir_imm_int 0) with 0. exists 0. lia.
Qed.

Lemma dwords_bounds sign x : fits 64 x -> Forall (fits 32) (dwords x sign).
Proof.
  intros Hx. pose proof (hi32_fits x Hx) as Hh.
  assert (He : fits 32 (if sign then nir_ishr_imm 32 (hi32 x) 31 else nir_imm_int 0)).
  { destruct sign; [apply ishr_fits; by left|]. change (nir_imm_int 0) with 0. unfold fits. lia. }
  unfold dwords. do 4 (constructor; [by auto with fits|]). constructor.
Qed.

(** The dwords 2 and 3 of a number. *)
Lemma dval_middle l r2 r3 : dwords_fit l -> l !! 2%nat = Some (Some r2) -> l !! 3%nat = Some (Some r3) ->
  wrap 64 (dval l / 2 ^ 64) = r2 + 2 ^ 32 * r3.
Proof.
  intros Hf H2 H3. destruct l as [|o0 [|o1 [|o2 [|o3 l]]]]; try done. cbn in H2, H3. simplify_eq.
  inversion Hf as [|? ? F0 Hf1]; subst. inversion Hf1 as [|? ? F1 Hf2]; subst.
  inversion Hf2 as [|? ? F2 Hf3]; subst. inversion Hf3 as [|? ? F3 Hf4]; subst.
  rewrite !dval_cons. cbn [default] in *. unfold fits, id, wrap in *.
  rewrite (div_between _ (2 ^ 64) (r2 + 2 ^ 32 * (r3 + 2 ^ 32 * dval l))) by lia.
  symmetry. apply (Z.mod_unique _ _ (dval l)); lia.
Qed.

(** Bits 64 to 127 of a product only depend on it modulo [2^128]. *)
Lemma wrap_high_128 a b : (exists k, a = b + k * 2 ^ 128) -> wrap 64 (a / 2 ^ 64) = wrap 64 (b / 2 ^ 64).
Proof.
  intros [k ->]. replace (b + k * 2 ^ 128) with (b + (k * 2 ^ 64) * 2 ^ 64) by lia. rewrite Z.div_add by lia.
  apply wrap_eq; [lia|]. by exists k.
Qed.

Lemma mul_high64_correct sign x y : fits 64 x -> fits 64 y ->
  lower_mul_high64 x y sign = Some (eval_alu2 64 (if sign then nir_op_imul_high else nir_op_umul_high) x y).
Proof.
  intros Hx Hy. unfold lower_mul_high64. set (l := mul_rows _ _ _).
  destruct (mul_rows_spec (dwords y sign) (dwords x sign) (replicate 8 None)) as (Hv & Hf & Hs).
  1,2: by apply dwords_bounds.
  { by destruct sign. } 
  { repeat constructor; cbn; lia. }
  { done. }
  { intros j Hj. destruct (replicate 8 None !! j) eqn:E; [|done]. apply lookup_replicate in E. by destruct E. }
  fold l in Hv, Hf, Hs. destruct (Hs 2%nat) as [r2 E2]; [cbn; lia|]. destruct (Hs 3%nat) as [r3 E3]; [cbn; lia|].
  rewrite E2, E3. f_equal.
  assert (F2 : fits 32 r2).
  { unfold dwords_fit in Hf. rewrite Forall_lookup in Hf. apply (Hf _ _ E2). }
  rewrite pack_value by done. rewrite <- (dval_middle l r2 r3) by done.
  transitivity (wrap 64 ((if sign then signed 64 x * signed 64 y else x * y) / 2 ^ 64)).
  - apply wrap_high_128. destruct (dwords_value sign x Hx) as [a Ea]. destruct (dwords_value sign y Hy) as [b Eb].
    rewrite Hv, Ea, Eb. change (dval (replicate 8 None)) with 0. destruct sign; eexists.
    + instantiate (1 := a * signed 64 y + signed 64 x * b + a * b * 2 ^ 128). lia.
    + instantiate (1 := a * y + x * b + a * b * 2 ^ 128). lia.
  - destruct sign; unfold eval_alu2; rewrite Z.shiftr_div_pow2 by lia; [done|]. apply wrap_small.
    unfold fits in *. split; [apply Z.div_pos; nia|apply Z.div_lt_upper_bound; nia].
Qed.

Lemma isign64_correct x : fits 64 x -> lower_isign64 x = eval_alu1 64 nir_op_isign x.
Proof.
  intros Hx. unfold lower_isign64, nir_i2b, nir_cmp_imm, nir_cmpop, eval_cmp, eval_alu1.
  change (nir_imm_intN_t 32 0) with 0. pose proof (hi32_fits x Hx) as Hh. pose proof (lo32_fits x) as Hl.
  rewrite ishr31 by done. pose proof (signed_halves x Hx) as Hs. pose proof (halves x) as Hv.
  assert (E : (nir_ior (lo32 x) (hi32 x) =? 0) = (signed 64 x =? 0)).
  { apply eq_iff_eq_true. rewrite !Z.eqb_eq. unfold nir_ior. rewrite Z.lor_eq_0_iff.
    rewrite Hs. unfold signed, fits in *. change (32 - 1) with 31.
    destruct (Z.geb_spec (hi32 x) (2 ^ 31)); lia. }
  rewrite E. rewrite Hs. unfold signed, fits in *. change (32 - 1) with 31.
  destruct (Z.geb_spec (hi32 x) (2 ^ 31)).
  - destruct (Z.eqb_spec (lo32 x + 2 ^ 32 * (hi32 x - 2 ^ 32)) 0); [lia|]. destruct (Z.gtb_spec (lo32 x + 2 ^ 32 * (hi32 x - 2 ^ 32)) 0); [lia|].
    done.
  - destruct (Z.eqb_spec (lo32 x + 2 ^ 32 * hi32 x) 0); [done|]. destruct (Z.gtb_spec (lo32 x + 2 ^ 32 * hi32 x) 0); [done|lia].
Qed.

(** ** Division *)

Lemma msb_loop_spec n a : fits (Z.of_nat n) a -> msb_loop n a = if a =? 0 then -1 else Z.log2 a.
Proof.
  induction n as [|n IH]; intros Ha.
  - unfold fits in Ha. cbn in Ha. by replace a with 0 by lia.
  - cbn [msb_loop]. destruct (Z.testbit a (Z.of_nat n)) eqn:E.
    + assert (a <> 0) by (intros ->; by rewrite Z.bits_0 in E). destruct (Z.eqb_spec a 0); [done|].
      unfold fits in Ha. rewrite Nat2Z.inj_succ in Ha.
      destruct (Z.lt_trichotomy (Z.log2 a) (Z.of_nat n)) as [Hlt|[Heq|Hgt]]; [|done|].
      * rewrite Z.bits_above_log2 in E by lia. done.
      * assert (Z.log2 a < Z.succ (Z.of_nat n)) by (apply Z.log2_lt_pow2; lia). lia.
    + apply IH. apply fits_bits; [lia|]. intros i Hi. destruct (Z.eq_dec i (Z.of_nat n)) as [->|]; [done|].
      apply (fits_high (Z.of_nat (S n))); [lia|done].
Qed.

Lemma ufind_msb_signed N a : 1 <= N <= 64 -> fits N a ->
  signed 32 (eval_ufind_msb N a) = if a =? 0 then -1 else Z.log2 a.
Proof.
  intros HN Ha. unfold eval_ufind_msb. rewrite msb_loop_spec by (rewrite Z2Nat.id by lia; done).
  apply signed_wrap; [lia|]. destruct (Z.eqb_spec a 0); [lia|]. pose proof (Z.log2_nonneg a).
  unfold fits in Ha. pose proof (proj1 (Z.log2_lt_pow2 a N ltac:(lia)) ltac:(lia)). lia.
Qed.

(** The test on the logarithm says that the shifted divisor does not overflow. *)
Lemma log2_test a i : fits 32 a -> 0 <= i < 32 ->
  nir_ile_imm 32 (eval_ufind_msb 32 a) (31 - i) = (a * 2 ^ i <? 2 ^ 32).
Proof.
  intros Ha Hi. unfold nir_ile_imm, nir_cmpop, eval_cmp. rewrite ufind_msb_signed by (done || lia).
  replace (signed 32 (nir_imm_intN_t 32 (31 - i))) with (31 - i).
  2:{ unfold nir_imm_intN_t. rewrite u64_small, signed_wrap by lia. done. }
  assert (E : 2 ^ 32 = 2 ^ (32 - i) * 2 ^ i) by (rewrite <- pow2_add by lia; f_equal; lia).
  pose proof (pow2_pos i ltac:(lia)). pose proof (pow2_pos (32 - i) ltac:(lia)). apply eq_iff_eq_true.
  rewrite Z.geb_leb, Z.leb_le, Z.ltb_lt, E, <- Z.mul_lt_mono_pos_r by done.
  destruct (Z.eqb_spec a 0) as [->|]; [lia|]. unfold fits in Ha. pose proof (Z.log2_lt_pow2 a (32 - i) ltac:(lia)). lia.
Qed.

(** A step of restoring division on [N]-bit dividends. *)
Definition is_div_step (N : Z) (step : Z * Z -> Z -> Z * Z) (d : Z) : Prop :=
  forall n q i, 0 <= i < 32 -> fits N n -> (2 ^ (i + 1) | q) ->
  step (n, q) i = if d * 2 ^ i <=? n then (n - d * 2 ^ i, q + 2 ^ i) else (n, q).

Lemma restoring_division N step d k : 0 < d -> is_div_step N step d -> (k <= 32)%nat -> forall n q,
  fits N n -> n < d * 2 ^ Z.of_nat k -> (2 ^ Z.of_nat k | q) ->
  foldl step (n, q) (reverse (seqZ 0 (Z.of_nat k))) = (n mod d, q + n / d).
Proof.
  intros Hd Hstep. induction k as [|k IH]; intros Hk n q Hf Hn Hq; unfold fits in Hf.
  - change (2 ^ Z.of_nat 0) with 1 in Hn. rewrite Z.mod_small, Z.div_small by lia. by rewrite Z.add_0_r.
  - rewrite seqZ_S, reverse_snoc, Z.add_0_l. cbn [foldl].
    replace (Z.of_nat (S k)) with (Z.of_nat k + 1) in * by lia.
    rewrite Hstep by (done || lia). rewrite (pow2_succ (Z.of_nat k)) in * by lia.
    pose proof (pow2_pos (Z.of_nat k) ltac:(lia)) as Hp.
    destruct Hq as [c ->]. destruct (Z.leb_spec (d * 2 ^ Z.of_nat k) n).
    + rewrite IH; [|lia|unfold fits; nia|lia|exists (2 * c + 1); lia].
      replace n with (n - d * 2 ^ Z.of_nat k + 2 ^ Z.of_nat k * d) at 3 4 by lia.
      rewrite Z.mod_add, Z.div_add by lia. f_equal. lia.
    + rewrite IH; [done|lia|done|lia|exists (2 * c); lia].
Qed.

Lemma div_loop N step d n : 0 < d -> is_div_step N step d -> fits N n -> n < d * 2 ^ 32 ->
  foldl step (n, 0) bits_down = (n mod d, n / d).
Proof.
  intros Hd Hstep Hf Hn. unfold bits_down. change 32 with (Z.of_nat 32).
  by rewrite (restoring_division N step d 32) by (done || lia || apply Z.divide_0_r).
Qed.

Lemma ior_imm_bit q i : 0 <= i < 32 -> (2 ^ (i + 1) | q) -> nir_ior_imm 32 q (Z.shiftl 1 i) = q + 2 ^ i.
Proof.
  intros Hi [c ->]. pose proof (pow2_pos i ltac:(lia)). pose proof (pow2_lt i 32 ltac:(lia)).
  pose proof (pow2_le i 31 ltac:(lia)).
  unfold nir_ior_imm, nir_imm_intN_t. rewrite shiftl_1, u64_small by lia. change (BITFIELD64_MASK 32) with (Z.ones 32).
  rewrite Z.land_ones, Z.mod_small by lia. destruct (Z.eqb_spec (2 ^ i) 0); [lia|].
  change (Z.ones 32) with (2 ^ 32 - 1). destruct (Z.eqb_spec (2 ^ i) (2 ^ 32 - 1)); [lia|].
  rewrite u64_small, wrap_small by (unfold fits; lia). unfold nir_ior.
  assert (Hz : Z.land (c * 2 ^ (i + 1)) (2 ^ i) = 0).
  { apply Z.bits_inj'. intros j Hj. rewrite Z.land_spec, Z.pow2_bits_eqb, Z.bits_0 by lia.
    destruct (Z.eqb_spec i j) as [->|]; [|apply andb_false_r]. by rewrite Z.mul_pow2_bits_low by lia. }
  pose proof (Z.add_lor_land (c * 2 ^ (i + 1)) (2 ^ i)). lia.
Qed.

(** Shifting by a constant below the width. *)
Lemma ishl_imm_value N a i : (N = 32 \/ N = 64) -> 0 <= i < 32 -> fits N a -> nir_ishl_imm N a i = wrap N (a * 2 ^ i).
Proof.
  intros HN Hi Ha. unfold nir_ishl_imm. destruct (Z.eqb_spec i 0) as [->|].
  - rewrite Z.mul_1_r. symmetry. by apply wrap_small.
  - unfold nir_ishl, eval_shift, nir_imm_int, nir_imm_intN_t. rewrite u64_small by lia. rewrite (wrap_small 32) by (unfold fits; lia).
    rewrite shift_count by (done || lia). by rewrite Z.shiftl_mul_pow2 by lia.
Qed.

(** The condition of a step: without overflow the comparison is exact, and with it the
    test on the logarithm fails. *)
Lemma step_cond N n d i (nooverflow : bool) :
  0 <= N -> 0 <= i -> fits N n -> fits N d -> (nooverflow = true <-> d * 2 ^ i < 2 ^ N) ->
  (let c := n >=? wrap N (d * 2 ^ i) in if negb (i =? 0) then c && nooverflow else c) = (d * 2 ^ i <=? n).
Proof.
  intros HN Hi Hn Hd Ho. unfold fits in *. cbv zeta. destruct (Z.eqb_spec i 0) as [->|]; cbn [negb].
  - rewrite Z.mul_1_r, wrap_small by done. apply Z.geb_leb.
  - pose proof (pow2_pos i Hi). destruct nooverflow.
    + rewrite andb_true_r, wrap_small by (unfold fits; nia). apply Z.geb_leb.
    + rewrite andb_false_r. symmetry. apply Z.leb_gt. destruct (Z_lt_le_dec (d * 2 ^ i) (2 ^ N)); [|lia].
      by apply Ho in l.
Qed.

Lemma isub_exact N a b : 0 <= N -> fits N a -> 0 <= b <= a -> nir_isub N a (wrap N b) = a - b.
Proof.
  intros HN Ha Hb. unfold nir_isub, eval_alu2, fits in *. rewrite (wrap_small N b), wrap_small by (unfold fits; lia). done.
Qed.

Lemma high_step_div d : fits 32 d -> is_div_step 32 (high_step true d (eval_ufind_msb 32 d)) d.
Proof.
  intros Hd n q i Hi Hn Hq. unfold high_step. rewrite ior_imm_bit, ishl_imm_value, log2_test by (done || lia).
  unfold nir_cmpop, eval_cmp. cbn [andb].
  pose proof (step_cond 32 n d i (d * 2 ^ i <? 2 ^ 32) ltac:(lia) ltac:(lia) Hn Hd (Z.ltb_lt _ _)) as E.
  cbv zeta in E. rewrite E. unfold nir_bcsel. destruct (Z.leb_spec (d * 2 ^ i) n); [|done].
  rewrite isub_exact; [done|lia|done|]. unfold fits in Hd. split; [|done]. apply Z.mul_nonneg_nonneg; [lia|]. apply Z.pow_nonneg. lia.
Qed.

(** The high loop does nothing in a channel that does not need it. *)
Lemma high_steps_off d m l s : foldl (high_step false d m) s l = s.
Proof.
  induction l as [|i l IH]; [done|]. cbn [foldl]. replace (high_step false d m s i) with s; [done|].
  destruct s as [n q]. unfold high_step. cbn [andb]. by destruct (negb (i =? 0)).
Qed.

Lemma low_step_div d : fits 64 d -> is_div_step 64 (low_step d (eval_ufind_msb 32 (hi32 d))) d.
Proof.
  intros Hd n q i Hi Hn Hq. unfold low_step.
  rewrite ior_imm_bit, ishl_imm_value, log2_test by (done || lia || by apply hi32_fits).
  unfold nir_cmpop, eval_cmp. pose proof (pow2_pos i ltac:(lia)) as Hp.
  assert (Ho : (hi32 d * 2 ^ i <? 2 ^ 32) = true <-> d * 2 ^ i < 2 ^ 64).
  { rewrite Z.ltb_lt. pose proof (halves d) as E. pose proof (lo32_fits d) as Hl. unfold fits in *.
    assert (E32 : 2 ^ 32 = 2 ^ (32 - i) * 2 ^ i) by (rewrite <- pow2_add by lia; f_equal; lia).
    replace (2 ^ 64) with (2 ^ 32 * 2 ^ (32 - i) * 2 ^ i) by (rewrite <- !pow2_add by lia; f_equal; lia).
    rewrite E32 at 1. rewrite <- !Z.mul_lt_mono_pos_r by done. lia. }
  pose proof (step_cond 64 n d i _ ltac:(lia) ltac:(lia) Hn Hd Ho) as E.
  cbv zeta in E. rewrite E. unfold nir_bcsel. destruct (Z.leb_spec (d * 2 ^ i) n); [|done].
  rewrite isub_exact; [done|lia|done|]. unfold fits in Hd. split; [|done]. apply Z.mul_nonneg_nonneg; lia.
Qed.

(** The high loop: the quotient and remainder of the high half where they are needed. *)
Lemma high_loop scalar any n d : fits 64 n -> fits 64 d -> d <> 0 -> branch_ok scalar any n d ->
  (if any then foldl (high_step (if scalar then true else need_high_div n d) (lo32 d) (eval_ufind_msb 32 (lo32 d)))
                 (hi32 n, 0) bits_down
   else (hi32 n, 0))
  = if need_high_div n d then (hi32 n mod d, hi32 n / d) else (hi32 n, 0).
Proof.
  intros Hn Hd H0 Hb. pose proof (halves d) as Ed. pose proof (lo32_fits d) as Fl. pose proof (hi32_fits n Hn) as Fn.
  destruct (need_high_div n d) eqn:E.
  - replace any with true by (unfold branch_ok in Hb; rewrite E in Hb; destruct scalar; [done|symmetry; by apply Hb]).
    replace (if scalar then true else true) with true by (by destruct scalar).
    unfold need_high_div, nir_cmp_imm, nir_cmpop, eval_cmp in E. change (nir_imm_intN_t 32 0) with 0 in E. zbool.
    replace (lo32 d) with d by lia. assert (Fd : fits 32 d) by (unfold fits in *; lia).
    apply (div_loop 32); [unfold fits in *; lia|by apply high_step_div|done|]. unfold fits in *. lia.
  - destruct any; [|done]. unfold branch_ok in Hb. rewrite E in Hb. destruct scalar; [done|]. apply high_steps_off.
Qed.

Lemma udiv64_mod64_correct scalar any n d : fits 64 n -> fits 64 d -> d <> 0 -> branch_ok scalar any n d ->
  lower_udiv64_mod64 scalar any n d = (n / d, n mod d).
Proof.
  intros Hn Hd H0 Hb. pose proof (high_loop scalar any n d Hn Hd H0 Hb) as Hh.
  unfold lower_udiv64_mod64. fold (need_high_div n d). cbv zeta. rewrite Hh. clear Hh.
  rewrite (pack_halves d). pose proof (halves n) as En. pose proof (lo32_fits n) as Fl. pose proof (hi32_fits n Hn) as Fn.
  pose proof (halves d) as Ed. pose proof (lo32_fits d) as Fdl. pose proof (hi32_fits d Hd) as Fdh.
  assert (Hpos : 0 < d) by (unfold fits in Hd; lia).
  assert (Hlow : forall h, fits 32 h -> lo32 n + 2 ^ 32 * h < d * 2 ^ 32 ->
    foldl (low_step d (eval_ufind_msb 32 (hi32 d))) (pack (lo32 n) h, 0) bits_down
    = ((lo32 n + 2 ^ 32 * h) mod d, (lo32 n + 2 ^ 32 * h) / d)).
  { intros h Fh Hlt. rewrite (pack_value (lo32 n) h) by done.
    apply (div_loop 64); [done|by apply low_step_div|unfold fits in *; lia|done]. }
  destruct (need_high_div n d) eqn:E; unfold need_high_div, nir_cmp_imm, nir_cmpop, eval_cmp in E;
    change (nir_imm_intN_t 32 0) with 0 in E.
  - zbool. pose proof (Z.mod_pos_bound (hi32 n) d Hpos) as Hm. pose proof (Z.div_mod (hi32 n) d H0) as Hq.
    assert (hi32 n mod d <= hi32 n) by (apply Z.mod_le; unfold fits in *; lia).
    rewrite Hlow by (unfold fits in *; lia).
    assert (Hql : fits 32 ((lo32 n + 2 ^ 32 * (hi32 n mod d)) / d)).
    { unfold fits in *. split; [apply Z.div_pos; lia|]. apply Z.div_lt_upper_bound; lia. }
    rewrite pack_value by done.
    replace n with (lo32 n + 2 ^ 32 * (hi32 n mod d) + 2 ^ 32 * (hi32 n / d) * d) at 6 7 by lia.
    rewrite Z.div_add, Z.mod_add by done. done.
  - apply andb_false_iff in E. rewrite Hlow; [|done|].
    + rewrite <- En. rewrite pack_value; [f_equal; lia|]. unfold fits in *.
      split; [apply Z.div_pos; lia|]. apply Z.div_lt_upper_bound; [done|]. destruct E; zbool; lia.
    + unfold fits in *. destruct E; zbool; lia.
Qed.

(** *** Signed division *)

Lemma iabs_value x : fits 64 x -> nir_iabs 64 x = Z.abs (signed 64 x) /\ fits 64 (Z.abs (signed 64 x)).
Proof.
  intros Hx. pose proof (signed_range 64 x ltac:(lia) Hx) as Hs. change (64 - 1) with 63 in Hs.
  assert (Hf : fits 64 (Z.abs (signed 64 x))) by (unfold fits; lia). split; [|done].
  unfold nir_iabs, eval_alu1. rewrite <- (wrap_small 64 _ Hf). f_equal. destruct (Z.ltb_spec (signed 64 x) 0); lia.
Qed.

Lemma signed_zero N x : 1 <= N -> fits N x -> (signed N x =? 0) = (x =? 0).
Proof.
  intros HN Hx. apply eq_iff_eq_true. rewrite !Z.eqb_eq. split; [|intros ->].
  - intros E. rewrite <- (wrap_signed N x) by done. rewrite E. apply wrap_small. pose proof (pow2_pos N). unfold fits. lia.
  - unfold signed. pose proof (pow2_pos (N - 1) ltac:(lia)). by destruct (Z.geb_spec 0 (2 ^ (N - 1))); [lia|].
Qed.

(** The quotient and remainder of the magnitudes. *)
Lemma udivmod_abs scalar any n d : fits 64 n -> fits 64 d -> d <> 0 -> branch_ok scalar any (nir_iabs 64 n) (nir_iabs 64 d) ->
  lower_udiv64_mod64 scalar any (nir_iabs 64 n) (nir_iabs 64 d)
  = (Z.abs (signed 64 n) / Z.abs (signed 64 d), Z.abs (signed 64 n) mod Z.abs (signed 64 d)).
Proof.
  intros Hn Hd H0 Hb. destruct (iabs_value n Hn) as [En Fn]. destruct (iabs_value d Hd) as [Ed Fd]. rewrite En, Ed in *.
  apply udiv64_mod64_correct; [done..| |done].
  assert (signed 64 d <> 0); [|lia]. rewrite <- Z.eqb_neq in *. by rewrite signed_zero.
Qed.

Lemma ineg_fits_wrap q : fits 64 q -> nir_ineg 64 q = wrap 64 (- q).
Proof. apply ineg_wrap. lia. Qed.

Section signed_division.
Context (scalar any : bool) (n d : Z).
Context (Hn : fits 64 n) (Hd : fits 64 d) (H0 : d <> 0) (Hb : branch_ok scalar any (nir_iabs 64 n) (nir_iabs 64 d)).

Lemma sd_nonzero : signed 64 d <> 0.
Proof using Hd H0. rewrite <- Z.eqb_neq in *. by rewrite signed_zero. Qed.

Lemma abs_div_bound : 0 <= Z.abs (signed 64 n) / Z.abs (signed 64 d) <= 2 ^ 63.
Proof using Hn Hd H0.
  pose proof (signed_range 64 n ltac:(lia) Hn) as Hs. change (64 - 1) with 63 in Hs. pose proof sd_nonzero.
  split; [apply Z.div_pos; lia|]. apply Z.div_le_upper_bound; lia.
Qed.

Lemma abs_mod_bound : 0 <= Z.abs (signed 64 n) mod Z.abs (signed 64 d) < 2 ^ 63.
Proof using Hn Hd H0.
  pose proof (signed_range 64 d ltac:(lia) Hd) as Hs. change (64 - 1) with 63 in Hs. pose proof sd_nonzero.
  pose proof (Z.mod_pos_bound (Z.abs (signed 64 n)) (Z.abs (signed 64 d))). lia.
Qed.

Lemma idiv64_correct : ~ (n = 2 ^ 63 /\ d = 2 ^ 64 - 1) -> lower_idiv64 scalar any n d = eval_div 64 nir_op_idiv n d.
Proof using Hn Hd H0 Hb.
  intros Hexc. unfold lower_idiv64. rewrite udivmod_abs, !hi_sign by done. unfold nir_bcsel, eval_div.
  pose proof sd_nonzero as Hs. pose proof abs_div_bound as Hq.
  assert (Hskip : (signed 64 d =? 0) || ((signed 64 n =? - 2 ^ (64 - 1)) && (signed 64 d =? -1)) = false).
  { apply orb_false_iff. split; [by apply Z.eqb_neq|]. apply andb_false_iff. rewrite !Z.eqb_neq.
    destruct (Z.eq_dec (signed 64 n) (- 2 ^ (64 - 1))) as [E|]; [|by left]. right. intros Ed. apply Hexc. split.
    - by apply (signed_eq_min 64) in E.
    - rewrite <- (wrap_signed 64 d) by (done || lia). by rewrite Ed. }
  rewrite Hskip. rewrite quot_abs by done. rewrite ineg_fits_wrap by (unfold fits; lia).
  destruct (signed 64 n <? 0), (signed 64 d <? 0); cbn [xorb Bool.eqb]; try done; symmetry; apply wrap_small; unfold fits; lia.
Qed.

(** The remainder follows the sign of the dividend. *)
Lemma rem_sign : Z.rem (signed 64 n) (signed 64 d)
  = if signed 64 n <? 0 then - (Z.abs (signed 64 n) mod Z.abs (signed 64 d)) else Z.abs (signed 64 n) mod Z.abs (signed 64 d).
Proof using Hd H0.
  pose proof sd_nonzero as Hs. pose proof (Z.div_mod (Z.abs (signed 64 n)) (Z.abs (signed 64 d)) ltac:(lia)) as E.
  rewrite rem_quot, quot_abs by done.
  destruct (Z.ltb_spec (signed 64 n) 0), (Z.ltb_spec (signed 64 d) 0); cbn [Bool.eqb]; lia.
Qed.

(** Where the opcode has a special case besides the zero divisor, it agrees. *)
Lemma skip_rem : (signed 64 d =? 0) || ((signed 64 n =? - 2 ^ (64 - 1)) && (signed 64 d =? -1)) = true ->
  Z.abs (signed 64 n) mod Z.abs (signed 64 d) = 0.
Proof using Hd H0.
  intros E. pose proof sd_nonzero as Hs. apply orb_true_iff in E as [E|E]; zbool; [done|].
  match goal with H : signed 64 d = -1 |- _ => rewrite H end. apply Z.mod_1_r.
Qed.

Lemma irem_value : wrap 64 (Z.rem (signed 64 n) (signed 64 d))
  = nir_bcsel (signed 64 n <? 0) (nir_ineg 64 (Z.abs (signed 64 n) mod Z.abs (signed 64 d))) (Z.abs (signed 64 n) mod Z.abs (signed 64 d)).
Proof using Hn Hd H0.
  pose proof abs_mod_bound as Hr. rewrite rem_sign, ineg_fits_wrap by (unfold fits; lia). unfold nir_bcsel.
  destruct (signed 64 n <? 0); [done|]. apply wrap_small. unfold fits. lia.
Qed.

Lemma irem64_correct : lower_irem64 scalar any n d = eval_div 64 nir_op_irem n d.
Proof using Hn Hd H0 Hb.
  unfold lower_irem64. rewrite udivmod_abs, hi_sign by done. rewrite <- irem_value. unfold eval_div.
  destruct (_ || _) eqn:E; [|done]. apply skip_rem in E. rewrite rem_sign, E. by destruct (signed 64 n <? 0).
Qed.

Lemma imod64_correct : lower_imod64 scalar any n d = eval_div 64 nir_op_imod n d.
Proof using Hn Hd H0 Hb.
  unfold lower_imod64. rewrite udivmod_abs, !hi_sign by done. cbv zeta. rewrite <- irem_value.
  pose proof rem_sign as Er. pose proof abs_mod_bound as Hr. unfold nir_cmp_imm, nir_cmpop, eval_cmp, eval_div, nir_bcsel.
  change (nir_imm_intN_t 64 0) with 0. change (nir_imm_int64 0) with 0.
  destruct (Z.eqb_spec (Z.abs (signed 64 n) mod Z.abs (signed 64 d)) 0) as [E0|E0].
  - destruct (_ || (_ && _)); [done|]. rewrite E0 in Er. replace (Z.rem _ _) with 0 by (by destruct (signed 64 n <? 0)). done.
  - destruct ((signed 64 d =? 0) || _) eqn:E; [by apply skip_rem in E|].
    assert (Z.rem (signed 64 n) (signed 64 d) <> 0) as Hz by (destruct (signed 64 n <? 0); lia).
    apply Z.eqb_neq in Hz. rewrite Hz. cbn [orb]. rewrite !Z.geb_leb, !Z.leb_antisym.
    replace (Bool.eqb (negb (signed 64 n <? 0)) (negb (signed 64 d <? 0))) with (Bool.eqb (signed 64 n <? 0) (signed 64 d <? 0))
      by (by destruct (signed 64 n <? 0), (signed 64 d <? 0)).
    destruct (Bool.eqb _ _); [done|]. unfold nir_iadd, eval_alu2. rewrite wrap_wrap_add by lia.
    destruct (signed_cases 64 d) as [->| ->]; [done|]. apply wrap_eq; [lia|]. exists 1. lia.
Qed.
End signed_division.

(** ** Bits and fields *)

Lemma extract_correct sign width x chunk :
  (width = 8 \/ width = 16) -> fits 64 x -> 0 <= chunk -> chunk * width < 64 ->
  lower_extract sign width x chunk = eval_extract 64 sign width x chunk.
Proof.
  intros Hw Hx Hc Hlt. assert (Hk : exists k, 0 < k /\ 32 = k * width /\ 32 / width = k).
  { destruct Hw as [->| ->]; [exists 4|exists 2]; done. }
  destruct Hk as (k & Hk & E32 & Ediv). unfold lower_extract. rewrite Ediv.
  assert (Himm : forall c, 0 <= c < 2 ^ 32 -> nir_imm_int c = c).
  { intros c Hcr. unfold nir_imm_int, nir_imm_intN_t. rewrite u64_small by lia. by apply wrap_small. }
  set (v := wrap width (Z.shiftr x (chunk * width))).
  assert (Fv : fits width v) by (apply wrap_fits; lia). pose proof (pow2_le width 16 ltac:(lia)) as Hp.
  assert (Ev : (if chunk <? k then eval_extract 32 sign width (lo32 x) (nir_imm_int chunk)
                else eval_extract 32 sign width (hi32 x) (nir_imm_int (chunk - k)))
               = if sign then wrap 32 (signed width v) else v).
  { unfold eval_extract, v. destruct (Z.ltb_spec chunk k); rewrite Himm by nia.
    - destruct (Z.geb_spec (chunk * width) 32); [nia|].
      replace (wrap width (Z.shiftr (lo32 x) (chunk * width))) with (wrap width (Z.shiftr x (chunk * width))); [done|].
      apply Z.bits_inj'. intros i Hi. rewrite !wrap_bit by lia. destruct (Z.ltb_spec i width); [|done].
      rewrite !Z.shiftr_spec, lo32_bit by nia. cbn [andb]. destruct (Z.ltb_spec (i + chunk * width) 32); [done|nia].
    - destruct (Z.geb_spec ((chunk - k) * width) 32); [nia|].
      replace (Z.shiftr (hi32 x) ((chunk - k) * width)) with (Z.shiftr x (chunk * width)); [done|].
      unfold nir_unpack_64_2x32_split_y, eval_unpack_y. rewrite Z.shiftr_shiftr by nia. f_equal. lia. }
  rewrite Ev. unfold eval_extract. destruct (Z.geb_spec (chunk * width) 64); [lia|]. fold v. destruct sign.
  - pose proof (signed_range width v ltac:(lia) Fv) as Hs. pose proof (pow2_le (width - 1) 15 ltac:(lia)).
    unfold lower_i2i64. cbn [Z.eqb Pos.eqb]. apply sign_extend_pack. lia.
  - rewrite u2u64_correct by (unfold fits in *; lia). apply wrap_small. unfold fits in *. lia.
Qed.

Lemma ior32 v : nir_ior_imm 32 v 32 = Z.lor v 32.
Proof. reflexivity. Qed.

Lemma lor32_small v : 0 <= v < 32 -> Z.lor v 32 = v + 32.
Proof.
  intros Hv. assert (E : Z.land v 32 = 0).
  { apply Z.bits_inj'. intros i Hi. rewrite Z.land_spec, Z.bits_0. change 32 with (2 ^ 5). rewrite Z.pow2_bits_eqb by lia.
    destruct (Z.eqb_spec 5 i) as [<-|]; [|apply andb_false_r]. rewrite andb_true_r. apply (fits_high 5); [lia|done]. }
  pose proof (Z.add_lor_land v 32). lia.
Qed.

(** The index of a bit, or -1, as a 32-bit pattern, moved to the high half. *)
Lemma ior32_index r : r = -1 \/ 0 <= r < 32 -> nir_ior_imm 32 (wrap 32 r) 32 = wrap 32 (if r =? -1 then -1 else r + 32).
Proof.
  intros Hr. rewrite ior32. destruct (Z.eqb_spec r (-1)) as [->|]; [done|]. rewrite wrap_small by (unfold fits; lia).
  rewrite lor32_small by lia. symmetry. apply wrap_small. unfold fits. lia.
Qed.

Lemma ufind_msb64_correct x : fits 64 x -> lower_ufind_msb64 x = eval_ufind_msb 64 x.
Proof.
  intros Hx. pose proof (halves x) as E. pose proof (lo32_fits x) as Fl. pose proof (hi32_fits x Hx) as Fh.
  unfold lower_ufind_msb64, eval_ufind_msb. change (Z.to_nat 32) with 32%nat. change (Z.to_nat 64) with 64%nat.
  rewrite !msb_loop_spec by done. set (l := lo32 x) in *. set (h := hi32 x) in *. clearbody l h. unfold fits in *.
  assert (Hl : (if l =? 0 then -1 else Z.log2 l) = -1 \/ 0 <= (if l =? 0 then -1 else Z.log2 l) < 32).
  { destruct (Z.eqb_spec l 0); [by left|right]. split; [apply Z.log2_nonneg|]. apply Z.log2_lt_pow2; lia. }
  assert (Hh : (if h =? 0 then -1 else Z.log2 h) = -1 \/ 0 <= (if h =? 0 then -1 else Z.log2 h) < 32).
  { destruct (Z.eqb_spec h 0); [by left|right]. split; [apply Z.log2_nonneg|]. apply Z.log2_lt_pow2; lia. }
  rewrite ior32_index by done. unfold nir_imax, eval_alu2. rewrite !signed_wrap by (lia || destruct (_ =? -1); lia).
  f_equal. rewrite MAX2_max. destruct (Z.eqb_spec h 0) as [->|].
  - replace x with l by lia. destruct (Z.eqb_spec (-1) (-1)); [lia|done].
  - destruct (Z.eqb_spec x 0); [lia|]. assert (Ex : Z.log2 x = Z.log2 h + 32).
    { apply Z.log2_unique'  with (x - 2 ^ 32 * 2 ^ Z.log2 h); [pose proof (Z.log2_nonneg h); lia| |].
      all: destruct (Z.log2_spec h ltac:(lia)); rewrite ?pow2_add, ?Z.pow_succ_r in * by (pose proof (Z.log2_nonneg h); lia); lia. }
    pose proof (Z.log2_nonneg h). destruct (Z.eqb_spec (Z.log2 h) (-1)); lia.
Qed.

(** A loop over a list of bits only reads those bits. *)
Lemma lsb_loop_app l1 l2 a : Forall (fun i => 0 <= i) l1 ->
  lsb_loop (l1 ++ l2) a = if lsb_loop l1 a =? -1 then lsb_loop l2 a else lsb_loop l1 a.
Proof.
  induction 1 as [|i l Hi Hl IH]; [done|]. cbn [app lsb_loop]. destruct (Z.testbit a i); [|done].
  destruct (Z.eqb_spec i (-1)); [lia|done].
Qed.
Lemma lsb_loop_ext l a b : Forall (fun i => Z.testbit a i = Z.testbit b i) l -> lsb_loop l a = lsb_loop l b.
Proof. induction 1 as [|i l Hi Hl IH]; [done|]. cbn [lsb_loop]. by rewrite Hi, IH. Qed.
Lemma lsb_loop_in l a : lsb_loop l a = -1 \/ lsb_loop l a ∈ l.
Proof.
  induction l as [|i l IH]; [by left|]. cbn [lsb_loop]. destruct (Z.testbit a i); [right; left|].
  destruct IH; [by left|right; by right].
Qed.
Lemma lsb_loop_shift l a b : Forall (fun i => 0 <= i /\ Z.testbit a (i + 32) = Z.testbit b i) l ->
  lsb_loop (map (fun i => i + 32) l) a = if lsb_loop l b =? -1 then -1 else lsb_loop l b + 32.
Proof.
  induction 1 as [|i l [Hi Hb] Hl IH]; [done|]. cbn [lsb_loop map]. rewrite Hb, IH. destruct (Z.testbit b i); [|done].
  destruct (Z.eqb_spec i (-1)); [lia|done].
Qed.

Lemma bits_split : seqZ 0 64 = seqZ 0 32 ++ map (fun i => i + 32) (seqZ 0 32).
Proof. reflexivity. Qed.
Lemma low_bits x : Forall (fun i => Z.testbit x i = Z.testbit (lo32 x) i) (seqZ 0 32).
Proof.
  apply Forall_seqZ. intros i Hi. rewrite lo32_bit by lia. destruct (Z.ltb_spec i 32); [done|lia].
Qed.
Lemma high_bits x : Forall (fun i => 0 <= i /\ Z.testbit x (i + 32) = Z.testbit (hi32 x) i) (seqZ 0 32).
Proof. apply Forall_seqZ. intros i Hi. rewrite hi32_bit by lia. split; [lia|done]. Qed.

Lemma lsb_index a : lsb_loop (seqZ 0 32) a = -1 \/ 0 <= lsb_loop (seqZ 0 32) a < 32.
Proof. destruct (lsb_loop_in (seqZ 0 32) a) as [|H%elem_of_seqZ]; [by left|right; lia]. Qed.

Lemma find_lsb64_correct x : lower_find_lsb64 x = eval_find_lsb 64 x.
Proof.
  unfold lower_find_lsb64, eval_find_lsb. rewrite bits_split, lsb_loop_app, (lsb_loop_shift _ x _ (high_bits x)).
  2:{ apply Forall_seqZ. intros i Hi. lia. }
  rewrite (lsb_loop_ext _ x _ (low_bits x)). pose proof (lsb_index (lo32 x)) as Hl. pose proof (lsb_index (hi32 x)) as Hh.
  rewrite ior32_index by done. generalize dependent (lsb_loop (seqZ 0 32) (lo32 x)). intros l Hl.
  generalize dependent (lsb_loop (seqZ 0 32) (hi32 x)). intros h Hh. unfold nir_umin, eval_alu2. rewrite MIN2_min.
  assert (Hw : forall r, 0 <= r < 64 -> wrap 32 r = r) by (intros; apply wrap_small; unfold fits; lia).
  destruct (Z.eqb_spec l (-1)) as [->|], (Z.eqb_spec h (-1)) as [->|]; change (wrap 32 (-1)) with (2 ^ 32 - 1);
    rewrite ?Hw by lia; lia.
Qed.

Lemma count_loop_acc l a dst : count_loop l a dst = dst + count_loop l a 0.
Proof.
  revert dst. induction l as [|i l IH]; intros dst; cbn [count_loop]; [lia|].
  rewrite IH, (IH (if Z.testbit a i then 0 + 1 else 0)). destruct (Z.testbit a i); lia.
Qed.
Lemma count_loop_app l1 l2 a : forall dst, count_loop (l1 ++ l2) a dst = count_loop l2 a (count_loop l1 a dst).
Proof. induction l1 as [|i l1 IH]; intros dst; [done|]. cbn. apply IH. Qed.
Lemma count_loop_ext l a b : Forall (fun i => Z.testbit a i = Z.testbit b i) l -> forall dst, count_loop l a dst = count_loop l b dst.
Proof. induction 1 as [|i l Hi Hl IH]; intros dst; [done|]. cbn [count_loop]. by rewrite Hi, IH. Qed.
Lemma count_loop_shift l a b : Forall (fun i => 0 <= i /\ Z.testbit a (i + 32) = Z.testbit b i) l ->
  forall dst, count_loop (map (fun i => i + 32) l) a dst = count_loop l b dst.
Proof. induction 1 as [|i l [Hi Hb] Hl IH]; intros dst; [done|]. cbn [count_loop map]. by rewrite Hb, IH. Qed.
Lemma count_loop_bound l a : forall dst, dst <= count_loop l a dst <= dst + Z.of_nat (length l).
Proof.
  induction l as [|i l IH]; intros dst; cbn [count_loop length]; [lia|].
  specialize (IH (if Z.testbit a i then dst + 1 else dst)). destruct (Z.testbit a i); lia.
Qed.

Lemma bit_count64_correct x : lower_bit_count64 x = eval_bit_count 64 x.
Proof.
  unfold lower_bit_count64, eval_bit_count. rewrite bits_split, count_loop_app, (count_loop_shift _ x _ (high_bits x)).
  rewrite (count_loop_ext _ x _ (low_bits x)), (count_loop_acc _ (hi32 x) (count_loop _ _ _)).
  unfold nir_iadd, eval_alu2. apply wrap_small.
  pose proof (count_loop_bound (seqZ 0 32) (lo32 x) 0). pose proof (count_loop_bound (seqZ 0 32) (hi32 x) 0).
  rewrite length_seqZ in *. unfold fits. lia.
Qed.

(** Reversal: bit [j] of the result is bit [N - 1 - j] of the source. *)
Lemma reverse_fold_bit N a j l : 0 <= j -> Forall (fun i => 0 <= i < N) l -> forall dst,
  Z.testbit (foldl (fun dst bit => Z.lor dst (Z.shiftl (Z.b2z (Z.testbit a bit)) (N - 1 - bit))) dst l) j
  = Z.testbit dst j || (bool_decide (N - 1 - j ∈ l) && Z.testbit a (N - 1 - j)).
Proof.
  intros Hj. induction 1 as [|i l Hi Hl IH]; intros dst; cbn [foldl].
  - by rewrite orb_false_r.
  - rewrite IH, Z.lor_spec, Z.shiftl_spec by lia. destruct (Z.eq_dec i (N - 1 - j)) as [->|Hne].
    + replace (j - (N - 1 - (N - 1 - j))) with 0 by lia. rewrite Z.b2z_bit0.
      rewrite (bool_decide_true (_ ∈ _ :: _)) by (by left). by destruct (Z.testbit dst j), (Z.testbit a (N - 1 - j)), (bool_decide _).
    + replace (Z.testbit (Z.b2z (Z.testbit a i)) (j - (N - 1 - i))) with false.
      * rewrite orb_false_r. do 2 f_equal. apply bool_decide_ext. rewrite elem_of_cons. naive_solver lia.
      * symmetry. destruct (Z_lt_le_dec (j - (N - 1 - i)) 0); [by apply Z.testbit_neg_r|].
        apply (fits_high 1); [lia|]. unfold fits. destruct (Z.testbit a i); cbn; lia.
Qed.

Lemma bitfield_reverse_bit N a j : 0 <= N -> 0 <= j -> Z.testbit (eval_bitfield_reverse N a) j = (j <? N) && Z.testbit a (N - 1 - j).
Proof.
  intros HN Hj. unfold eval_bitfield_reverse. rewrite reverse_fold_bit, Z.bits_0.
  - cbn [orb]. f_equal. apply eq_iff_eq_true. rewrite bool_decide_eq_true, elem_of_seqZ, Z.ltb_lt. lia.
  - done.
  - apply Forall_seqZ. intros i Hi. lia.
Qed.

Lemma bitfield_reverse64_correct x : lower_bitfield_reverse64 x = eval_bitfield_reverse 64 x.
Proof.
  apply (pack_bitwise (fun i => (i <? 64) && Z.testbit x (64 - 1 - i))).
  - apply fits_bits; [lia|]. intros i Hi. rewrite bitfield_reverse_bit by lia. destruct (Z.ltb_spec i 32); [lia|done].
  - intros i Hi. rewrite bitfield_reverse_bit, hi32_bit by lia. index_cases. same_bit.
  - intros i Hi. rewrite bitfield_reverse_bit, lo32_bit_all by lia. index_cases; same_bit.
  - intros i Hi. by apply bitfield_reverse_bit.
Qed.

(** The field of [bits] bits of [base] from [offset] on, extended to 64 bits. *)
Definition bitfield64 (sign : bool) (base offset bits : Z) : Z :=
  let field := wrap bits (Z.shiftr base offset) in
  if bits =? 0 then 0 else if sign then wrap 64 (signed bits field) else field.

Lemma bitfield_extract64_field sign base offset bits :
  fits 64 base -> 0 <= offset -> 0 <= bits -> offset + bits <= 64 ->
  lower_bitfield_extract64 base offset bits sign = bitfield64 sign base offset bits.
Proof.
  intros Hb Ho Hbits Hle. unfold lower_bitfield_extract64, bitfield64, nir_cmp_imm, nir_cmpop, eval_cmp, nir_bcsel.
  change (nir_imm_intN_t 32 0) with 0. destruct (Z.eqb_spec bits 0); [done|].
  assert (E0 : nir_isub_imm 32 64 bits = 64 - bits).
  { unfold nir_isub_imm, nir_isub, eval_alu2. change (nir_imm_intN_t 32 64) with 64. apply wrap_small. unfold fits. lia. }
  assert (E1 : nir_isub 32 (64 - bits) offset = 64 - bits - offset).
  { unfold nir_isub, eval_alu2. apply wrap_small. unfold fits. lia. }
  rewrite E0, E1. pose proof (ishl_fits 64 base (64 - bits - offset) ltac:(by right)) as Hf.
  assert (Hbit : forall j, 0 <= j < 64 -> Z.testbit (nir_ishl 64 base (64 - bits - offset)) j = Z.testbit base (j - (64 - bits - offset))).
  { intros j Hj. rewrite ishl_bit by lia. destruct (Z.ltb_spec j 64); [done|lia]. }
  apply Z.bits_inj'. intros i Hi. destruct sign.
  - rewrite ishr_bit, wrap_bit, signed_bit, wrap_bit, Z.shiftr_spec by (lia || done || (apply wrap_fits; lia)).
    destruct (Z.ltb_spec i 64); [|done]. rewrite Hbit by lia. cbn [andb].
    destruct (Z.ltb_spec (Z.min i (bits - 1)) bits); [|lia]. cbn [andb]. f_equal. lia.
  - rewrite ushr_bit, wrap_bit, Z.shiftr_spec by lia. destruct (Z.ltb_spec i bits).
    + rewrite Hbit by lia. cbn [andb]. f_equal. lia.
    + apply (fits_high 64); [lia|done].
Qed.

(** For a field of the low half, the opcode's constant expression is the field. *)
Lemma eval_bitfield_extract_field sign base offset bits :
  0 <= offset -> 0 <= bits -> offset + bits <= 32 ->
  eval_alu64 (alu_bitfield_extract sign base offset bits) = bitfield64 sign base offset bits.
Proof.
  intros Ho Hb Hle. cbn [eval_alu64]. unfold eval_ibitfield_extract, eval_ubitfield_extract, bitfield64.
  destruct (Z.eqb_spec bits 0); [by destruct sign|].
  destruct (Z.ltb_spec offset 0); [lia|]. destruct (Z.ltb_spec bits 0); [lia|].
  destruct (Z.gtb_spec (offset + bits) 64); [lia|]. cbn [orb].
  apply Z.bits_inj'. intros i Hi. destruct sign.
  - rewrite !wrap_bit, Z.shiftr_spec, !signed_bit, !wrap_bit, Z.shiftl_spec, wrap_bit, Z.shiftr_spec
      by (lia || (apply wrap_fits; lia)).
    destruct (Z.ltb_spec i 64); [|done]. cbn [andb].
    destruct (Z.ltb_spec (Z.min (i + (32 - bits)) (32 - 1)) 32); [|lia].
    destruct (Z.ltb_spec (Z.min i (bits - 1)) bits); [|lia]. cbn [andb].
    replace (Z.min (i + (32 - bits)) (32 - 1) - (32 - offset - bits)) with (Z.min i (bits - 1) + offset) by lia.
    destruct (Z.ltb_spec (Z.min i (bits - 1) + offset) 32); [done|lia].
  - rewrite wrap_bit, Z.land_spec, ones_bit, !Z.shiftr_spec, wrap_bit by lia.
    destruct (Z.ltb_spec i bits); [|by rewrite andb_false_r].
    destruct (Z.ltb_spec (i + offset) 32); [|lia]. cbn [andb]. by rewrite andb_true_r.
Qed.

Lemma bitfield_extract64_correct sign base offset bits :
  fits 64 base -> 0 <= offset -> 0 <= bits -> offset + bits <= 32 ->
  lower_bitfield_extract64 base offset bits sign = eval_alu64 (alu_bitfield_extract sign base offset bits).
Proof.
  intros. rewrite eval_bitfield_extract_field by done. apply bitfield_extract64_field; done || lia.
Qed.

(** ** The pass *)

(** The instructions the pass is meant for: the sources have their widths, divisors are
    not zero and the quotient can be represented, an extracted byte or word is inside the
    source, an extracted field inside its low half, and the division's branch was
    taken if a channel needs it. *)
Definition alu64_ok (scalar any : bool) (i : alu64) : Prop :=
  match i with
  | alu_un _ x | alu_ufind_msb x | alu_find_lsb x | alu_bit_count x | alu_bitfield_reverse x => fits 64 x
  | alu_bin op x y => op <> nir_op_uadd_sat /\ fits 64 x /\ fits 64 y
  | alu_shift _ x y => fits 64 x /\ fits 32 y
  | alu_cmp _ x y => fits 64 x /\ fits 64 y
  | alu_div op x y =>
      fits 64 x /\ fits 64 y /\ y <> 0
      /\ match op with
         | nir_op_udiv | nir_op_umod => branch_ok scalar any x y
         | nir_op_idiv => branch_ok scalar any (nir_iabs 64 x) (nir_iabs 64 y) /\ ~ (x = 2 ^ 63 /\ y = 2 ^ 64 - 1)
         | _ => branch_ok scalar any (nir_iabs 64 x) (nir_iabs 64 y)
         end
  | alu_mul_2x32_64 _ x y => fits 32 x /\ fits 32 y
  | alu_b2i64 _ => True
  | alu_i2i dst x | alu_u2u dst x => dst ∈ [8; 16; 32] /\ fits 64 x
  | alu_i2i64 src x | alu_u2u64 src x => src ∈ [8; 16; 32] /\ fits src x
  | alu_bcsel _ x y => fits 64 x /\ fits 64 y
  | alu_bitfield_select c x y => fits 64 c /\ fits 64 x /\ fits 64 y
  | alu_extract _ width x chunk => width ∈ [8; 16] /\ fits 64 x /\ 0 <= chunk /\ chunk * width < 64
  | alu_bitfield_extract _ base offset bits => fits 64 base /\ 0 <= offset /\ 0 <= bits /\ offset + bits <= 32
  end.

Lemma alu_un_lowered lower_icmp scalar any op x : fits 64 x ->
  lower_int64_alu_instr lower_icmp scalar any (alu_un op x) = Some (eval_alu1 64 op x).
Proof.
  intros Hx. destruct op; cbn [lower_int64_alu_instr]; f_equal;
    [by apply ineg64_correct|by apply iabs64_correct|by apply isign64_correct|by apply inot64_correct].
Qed.

Lemma alu_bin_lowered lower_icmp scalar any op x y : op <> nir_op_uadd_sat -> fits 64 x -> fits 64 y ->
  lower_int64_alu_instr lower_icmp scalar any (alu_bin op x y) = Some (eval_alu2 64 op x y).
Proof.
  intros Hop Hx Hy. destruct (minmax64_correct lower_icmp x y Hx Hy) as (H1 & H2 & H3 & H4).
  destruct op; cbn [lower_int64_alu_instr]; try done; try (by rewrite mul_high64_correct); f_equal; try done.
  - apply iadd64_correct.
  - apply isub64_correct.
  - apply imul64_correct.
  - apply iand64_correct.
  - apply ior64_correct.
  - apply ixor64_correct.
Qed.

Lemma alu_div_lowered lower_icmp scalar any op x y : alu64_ok scalar any (alu_div op x y) ->
  lower_int64_alu_instr lower_icmp scalar any (alu_div op x y) = Some (eval_div 64 op x y).
Proof.
  intros (Hx & Hy & H0 & Hb). apply Z.eqb_neq in H0 as E0. destruct op; cbn [lower_int64_alu_instr]; f_equal.
  - unfold lower_udiv64. rewrite udiv64_mod64_correct by done. cbn [eval_div fst]. by rewrite E0.
  - destruct Hb. by apply idiv64_correct.
  - unfold lower_umod64. rewrite udiv64_mod64_correct by done. cbn [eval_div snd]. by rewrite E0.
  - by apply imod64_correct.
  - by apply irem64_correct.
Qed.

Lemma alu_convert_lowered lower_icmp scalar any dst x : dst ∈ [8; 16; 32] ->
  lower_int64_alu_instr lower_icmp scalar any (alu_i2i dst x) = Some (eval_i2i 64 dst x)
  /\ lower_int64_alu_instr lower_icmp scalar any (alu_u2u dst x) = Some (eval_u2u dst x).
Proof.
  intros Hd. repeat (apply elem_of_cons in Hd as [->|Hd]); [..|by apply not_elem_of_nil in Hd];
    split; cbn [lower_int64_alu_instr Z.eqb Pos.eqb]; f_equal.
  - by apply i2i_correct.
  - by apply u2u_correct.
  - by apply i2i_correct.
  - by apply u2u_correct.
  - apply i2i32_correct.
Qed.



(** The division code computes the quotient and the remainder: whatever the other
    channels do, the high loop and the low loop together give [q] and [r] with
    [n = d * q + r] and [r < d], both of 64 bits. *)
Theorem lower_udiv64_mod64_division scalar any n d :
  fits 64 n -> fits 64 d -> d <> 0 -> branch_ok scalar any n d ->
  exists q r, lower_udiv64_mod64 scalar any n d = (q, r) /\ n = d * q + r /\ 0 <= r < d /\ fits 64 q.
Proof.
  intros Hn Hd H0 Hb. exists (n / d), (n mod d). rewrite udiv64_mod64_correct by done. unfold fits in *.
  split_and!; [done|by apply Z.div_mod|apply Z.mod_pos_bound; lia..|apply Z.div_pos; lia|].
  apply Z.div_lt_upper_bound; nia.
Qed.

Lemma lower_udiv64_mod64_witness :
  (exists q r, lower_udiv64_mod64 true true (2 ^ 64 - 1) 10 = (q, r) /\ 2 ^ 64 - 1 = 10 * q + r /\ 0 <= r < 10 /\ fits 64 q)
  /\ (exists q r, lower_udiv64_mod64 true false 12 (2 ^ 40) = (q, r) /\ 12 = 2 ^ 40 * q + r /\ 0 <= r < 2 ^ 40 /\ fits 64 q).
Proof.
  split; apply lower_udiv64_mod64_division; try (unfold fits; lia); vm_compute; reflexivity.
Defined.

(** ** Where the lowered code and the opcode differ *)

(** With a zero divisor every step of the loops succeeds. *)
Lemma lowered_division_by_zero :
  lower_int64_alu_instr true true true (alu_div nir_op_udiv 7 0) = Some (2 ^ 64 - 1) /\ eval_alu64 (alu_div nir_op_udiv 7 0) = 0
  /\ lower_int64_alu_instr true true true (alu_div nir_op_umod 7 0) = Some 7 /\ eval_alu64 (alu_div nir_op_umod 7 0) = 0.
Proof. split_and!; vm_compute; reflexivity. Qed.

Lemma lowered_idiv_int_min :
  lower_int64_alu_instr true true true (alu_div nir_op_idiv (2 ^ 63) (2 ^ 64 - 1)) = Some (2 ^ 63)
  /\ eval_alu64 (alu_div nir_op_idiv (2 ^ 63) (2 ^ 64 - 1)) = 0.
Proof. split; vm_compute; reflexivity. Qed.

(** The constant expression of [ubitfield_extract] loses the high half of the base. *)
Lemma bitfield_extract_narrowed :
  lower_bitfield_extract64 (2 ^ 40 + 2 ^ 41 + 7) 39 4 false = 6
  /\ eval_ubitfield_extract 64 (2 ^ 40 + 2 ^ 41 + 7) 39 4 = 0.
Proof. split; vm_compute; reflexivity. Qed.
