(* ===== verification/NirDominance.v ===== *)
(** * Dominance of blocks (src/compiler/nir/nir_dominance.c)

    The blocks of a function are a list, in the order of [nir_foreach_block_unstructured];
    a pointer to a block is its position in the list, and position 0 is the start block.
    The end block, which is not part of the program, is not in the list (these passes do not
    read its index).  The field [index] is read where the code compares indices; [nir_index_blocks] sets
    it.  The arrays of children are lists of cells, [None] where nothing was written; the set
    [dom_frontier] is a [gset] (HashSet.v relates the table of util/set.c to a set).

    This file has the data, the operations, and what they are specified against: paths
    from the start block, and dominance as a statement about all paths. *)

From Stdlib Require Import ZArith Lia.
From stdpp Require Import base list gmap numbers option.
From S2P Require Import Prelude Rmq.
Local Open Scope Z_scope.

(** ** Data *)

Record nir_block := NirBlock {
  index : Z;
  predecessors : list nat;
  imm_dom : option nat;
  num_dom_children : Z;
  dom_children : list (option nat);
  dom_frontier : gset nat;
  dom_pre_index : Z;
  dom_post_index : Z }.

Record nir_function_impl := NirImpl {
  blocks : list nir_block;
  num_blocks : Z;
  valid_metadata : Z;
  dom_lca_table : range_minimum_query_table;
  block_from_idx : list (option nat) }.

Definition nir_metadata_block_index : Z := 1.
Definition nir_metadata_dominance : Z := 2.
Definition nir_metadata_dominance_lca : Z := 128.

(** Updates of one field *)
Definition set_index v b := NirBlock v (predecessors b) (imm_dom b) (num_dom_children b) (dom_children b) (dom_frontier b) (dom_pre_index b) (dom_post_index b).
Definition set_imm_dom v b := NirBlock (index b) (predecessors b) v (num_dom_children b) (dom_children b) (dom_frontier b) (dom_pre_index b) (dom_post_index b).
Definition set_num_dom_children v b := NirBlock (index b) (predecessors b) (imm_dom b) v (dom_children b) (dom_frontier b) (dom_pre_index b) (dom_post_index b).
Definition set_dom_children v b := NirBlock (index b) (predecessors b) (imm_dom b) (num_dom_children b) v (dom_frontier b) (dom_pre_index b) (dom_post_index b).
Definition set_dom_frontier v b := NirBlock (index b) (predecessors b) (imm_dom b) (num_dom_children b) (dom_children b) v (dom_pre_index b) (dom_post_index b).
Definition set_dom_pre_index v b := NirBlock (index b) (predecessors b) (imm_dom b) (num_dom_children b) (dom_children b) (dom_frontier b) v (dom_post_index b).
Definition set_dom_post_index v b := NirBlock (index b) (predecessors b) (imm_dom b) (num_dom_children b) (dom_children b) (dom_frontier b) (dom_pre_index b) v.

Definition set_blocks v i := NirImpl v (num_blocks i) (valid_metadata i) (dom_lca_table i) (block_from_idx i).
Definition set_valid_metadata v i := NirImpl (blocks i) (num_blocks i) v (dom_lca_table i) (block_from_idx i).

(** The block at [p] becomes [f] of it; a pointer that is not to a block fails *)
Definition update (p : nat) (f : nir_block -> nir_block) (bs : list nir_block) : option (list nir_block) :=
  b ← bs !! p; Some (<[p := f b]> bs).

Definition foreach_block {S} (body : nat -> S -> option S) (bs : list nir_block) (s : S) : option S :=
  for_each body (seq 0 (length bs)) s.

Definition nir_start_block : nat := 0.

(** ** nir.c *)

Definition nir_index_blocks (impl : nir_function_impl) : option nir_function_impl :=
  if negb (Z.land (valid_metadata impl) nir_metadata_block_index =? 0) then Some impl else
  '(bs, index) ← foreach_block (fun p '(bs, index) =>
       bs ← update p (set_index index) bs; Some (bs, u32 (index + 1)))
     (blocks impl) (blocks impl, 0);
  Some (NirImpl bs index (valid_metadata impl) (dom_lca_table impl) (block_from_idx impl)).

(** ** nir_metadata.c *)

Definition NEEDS_UPDATE (required : Z) (impl : nir_function_impl) (x : Z) : bool :=
  negb (Z.land (Z.land required (not32 (valid_metadata impl))) x =? 0).

(** [nir_metadata_require(impl, nir_metadata_block_index)] *)
Definition require_block_index (impl : nir_function_impl) : option nir_function_impl :=
  impl ← (if NEEDS_UPDATE nir_metadata_block_index impl nir_metadata_block_index
          then nir_index_blocks impl else Some impl);
  Some (set_valid_metadata (Z.lor (valid_metadata impl) nir_metadata_block_index) impl).

(** ** nir_dominance.c *)

Definition init_block (p : nat) (bs : list nir_block) : option (list nir_block) :=
  bs ← update p (set_imm_dom (if decide (p = nir_start_block) then Some p else None)) bs;
  bs ← update p (set_num_dom_children 0) bs;
  bs ← update p (set_dom_pre_index UINT32_MAX) bs;
  bs ← update p (set_dom_post_index 0) bs;
  update p (set_dom_frontier ∅) bs.

(** [while (b->index > limit) b = b->imm_dom] *)
Fixpoint climb (fuel : nat) (bs : list nir_block) (b : nat) (limit : Z) : option nat :=
  match fuel with
  | O => None
  | S fuel =>
      blk ← bs !! b;
      if index blk >? limit then p ← imm_dom blk; climb fuel bs p limit else Some b
  end.

Fixpoint intersect_loop (fuel : nat) (bs : list nir_block) (b1 b2 : nat) : option nat :=
  match fuel with
  | O => None
  | S fuel =>
      if decide (b1 = b2) then Some b1 else
      blk2 ← bs !! b2;
      b1 ← climb (S (length bs)) bs b1 (index blk2);
      blk1 ← bs !! b1;
      b2 ← climb (S (length bs)) bs b2 (index blk1);
      intersect_loop fuel bs b1 b2
  end.

Definition intersect (bs : list nir_block) (b1 b2 : nat) : option nat := intersect_loop (S (length bs)) bs b1 b2.

Definition calc_new_idom (bs : list nir_block) (preds : list nat) : option (option nat) :=
  for_each (fun pred new_idom =>
      b ← bs !! pred;
      match imm_dom b, new_idom with
      | None, _ => Some new_idom
      | Some _, Some n => m ← intersect bs pred n; Some (Some m)
      | Some _, None => Some (Some pred)
      end) preds None.

Definition calc_dominance (p : nat) (bs : list nir_block) : option (list nir_block * bool) :=
  block ← bs !! p;
  new_idom ← calc_new_idom bs (predecessors block);
  if decide (imm_dom block = new_idom) then Some (bs, false) else
  bs ← update p (set_imm_dom new_idom) bs;
  Some (bs, true).

(** One round of the loop of [nir_calc_dominance_impl], and the loop *)
Definition dominance_round (bs : list nir_block) : option (list nir_block * bool) :=
  foreach_block (fun p '(bs, progress) =>
      if decide (p = nir_start_block) then Some (bs, progress) else
      '(bs, r) ← calc_dominance p bs; Some (bs, progress || r))
    bs (bs, false).

Fixpoint dominance_loop (fuel : nat) (bs : list nir_block) : option (list nir_block) :=
  match fuel with
  | O => None
  | S fuel => '(bs, progress) ← dominance_round bs; if progress : bool then dominance_loop fuel bs else Some bs
  end.

(** [while (runner != block->imm_dom)]; [stop] is [block->imm_dom] *)
Fixpoint frontier_loop (fuel : nat) (block : nat) (stop runner : option nat) (bs : list nir_block) : option (list nir_block) :=
  match fuel with
  | O => None
  | S fuel =>
      if decide (runner = stop) then Some bs else
      r ← runner;
      b ← bs !! r;
      bs ← update r (set_dom_frontier ({[block]} ∪ dom_frontier b)) bs;
      frontier_loop fuel block stop (imm_dom b) bs
  end.

Definition calc_dom_frontier (p : nat) (bs : list nir_block) : option (list nir_block) :=
  block ← bs !! p;
  if (1 <? length (predecessors block))%nat then
    for_each (fun runner bs =>
        b ← bs !! runner;
        match imm_dom b with
        | None => Some bs
        | Some _ => frontier_loop (S (S (length bs))) p (imm_dom block) (Some runner) bs
        end) (predecessors block) bs
  else Some bs.

Definition count_child (p : nat) (bs : list nir_block) : option (list nir_block) :=
  block ← bs !! p;
  match imm_dom block with
  | None => Some bs
  | Some d => b ← bs !! d; update d (set_num_dom_children (u32 (num_dom_children b + 1))) bs
  end.

Definition alloc_children (p : nat) (bs : list nir_block) : option (list nir_block) :=
  block ← bs !! p;
  if num_dom_children block =? 0 then update p (set_dom_children []) bs else
  bs ← update p (set_dom_children
         (if num_dom_children block <=? 3 then replicate 3 None
          else replicate (Z.to_nat (num_dom_children block)) None)) bs;
  update p (set_num_dom_children 0) bs.

Definition add_dom_child (p : nat) (bs : list nir_block) : option (list nir_block) :=
  block ← bs !! p;
  match imm_dom block with
  | None => Some bs
  | Some d =>
      b ← bs !! d;
      cells ← store (dom_children b) (num_dom_children b) p;
      bs ← update d (set_dom_children cells) bs;
      update d (set_num_dom_children (u32 (num_dom_children b + 1))) bs
  end.

Definition calc_dom_children (bs : list nir_block) : option (list nir_block) :=
  bs ← foreach_block count_child bs bs;
  bs ← foreach_block alloc_children bs bs;
  foreach_block add_dom_child bs bs.

Fixpoint calc_dfs_indices (fuel : nat) (p : nat) (st : list nir_block * Z) : option (list nir_block * Z) :=
  match fuel with
  | O => None
  | S fuel =>
      let '(bs, idx) := st in
      assert! idx <? UINT32_MAX - 2 ;;
      block ← bs !! p;
      bs ← update p (set_dom_pre_index idx) bs;
      '(bs, idx) ← for_each (fun i st => c ← load (dom_children block) i; calc_dfs_indices fuel c st)
                     (seqZ 0 (num_dom_children block)) (bs, u32 (idx + 1));
      bs ← update p (set_dom_post_index idx) bs;
      Some (bs, u32 (idx + 1))
  end.

Definition nir_calc_dominance_impl (impl : nir_function_impl) : option nir_function_impl :=
  if negb (Z.land (valid_metadata impl) nir_metadata_dominance =? 0) then Some impl else
  impl ← require_block_index impl;
  let bs := blocks impl in
  bs ← foreach_block init_block bs bs;
  bs ← dominance_loop (S (S (length bs))) bs;
  bs ← foreach_block calc_dom_frontier bs bs;
  bs ← update nir_start_block (set_imm_dom None) bs;
  bs ← calc_dom_children bs;
  '(bs, _) ← calc_dfs_indices (S (length bs)) nir_start_block (bs, 1);
  Some (set_blocks bs impl).

(** A shader is the list of its function implementations. *)
Definition nir_calc_dominance (shader : list nir_function_impl) : option (list nir_function_impl) :=
  mapM nir_calc_dominance_impl shader.

(** [nir_metadata_require(impl, nir_metadata_block_index | nir_metadata_dominance)] *)
Definition require_dominance (impl : nir_function_impl) : option nir_function_impl :=
  let required := Z.lor nir_metadata_block_index nir_metadata_dominance in
  impl ← (if NEEDS_UPDATE required impl nir_metadata_block_index then nir_index_blocks impl else Some impl);
  impl ← (if NEEDS_UPDATE required impl nir_metadata_dominance then nir_calc_dominance_impl impl else Some impl);
  Some (set_valid_metadata (Z.lor (valid_metadata impl) required) impl).

Definition nir_block_dominates (impl : nir_function_impl) (parent child : nat) : option bool :=
  assert! negb (Z.land (valid_metadata impl) nir_metadata_dominance =? 0) ;;
  parent ← blocks impl !! parent;
  child ← blocks impl !! child;
  Some ((dom_pre_index child >=? dom_pre_index parent) && (dom_post_index child <=? dom_post_index parent)).

Definition nir_block_is_unreachable (impl : nir_function_impl) (p : nat) : option bool :=
  assert! negb (Z.land (valid_metadata impl) nir_metadata_dominance =? 0) ;;
  assert! negb (Z.land (valid_metadata impl) nir_metadata_block_index =? 0) ;;
  block ← blocks impl !! p;
  Some ((index block >? 0) && bool_decide (imm_dom block = None)).

(** nir.h *)
Definition nir_block_is_reachable (b : nir_block) : bool := negb (dom_post_index b =? 0).

(** ** Specification *)

(** A graph is the list of the predecessors of each block. *)
Notation graph := (list (list nat)).

Definition edge (g : graph) (p b : nat) : Prop := exists ps, g !! b = Some ps /\ p ∈ ps.

(** [cfg_path g b π]: [π] is the list of the blocks of a path from the start block to
    [b], last block first. *)
Inductive cfg_path (g : graph) : nat -> list nat -> Prop :=
| path_start : cfg_path g nir_start_block [nir_start_block]
| path_step p b π : cfg_path g p π -> edge g p b -> cfg_path g b (b :: π).

Definition reachable (g : graph) (b : nat) : Prop := exists π, cfg_path g b π.

(** Every path from the start block to [b] passes through [a]. *)
Definition dominates (g : graph) (a b : nat) : Prop := forall π, cfg_path g b π -> a ∈ π.

(** What the passes rely on: the start block has no predecessors (nir_validate.c
    checks it), predecessors are blocks of the function, and blocks are indexed from beginning to end: a reachable block other than the start block
    has a reachable predecessor before it. *)
Record cfg_ok (g : graph) : Prop := {
  cfg_start : (0 < length g)%nat;
  cfg_entry : g !! nir_start_block = Some [];
  cfg_preds : forall p b, edge g p b -> (p < length g)%nat;
  cfg_order : forall b, reachable g b -> b <> nir_start_block -> exists p, edge g p b /\ (p < b)%nat /\ reachable g p;
  cfg_size : 2 * Z.of_nat (length g) + 4 < 2 ^ 32 }.

Definition graph_of (bs : list nir_block) : graph := map predecessors bs.
