(* ===== verification/NirDomPaths.v ===== *)
(** * Paths, retreating edges and the tree of immediate dominators

    Facts about [cfg_path] and [dominates] that do not mention the algorithm, and
    about the relation that the fields [imm_dom] define. *)

From Stdlib Require Import ZArith Lia.
From stdpp Require Import base list gmap numbers option relations.
From S2P Require Import Prelude Rmq NirDominance.

Implicit Types (g : graph) (bs : list nir_block) (π : list nat).

(** ** Paths *)

Lemma path_head g b π : cfg_path g b π -> exists π', π = b :: π'.
Proof. destruct 1; eauto. Qed.

Lemma path_target_in g b π : cfg_path g b π -> b ∈ π.
Proof. intros [π' ->]%path_head. apply list_elem_of_here. Qed.

(** A path through [x] has a prefix that ends in [x]. *)
Lemma path_prefix g b π x : cfg_path g b π -> x ∈ π -> exists π1 π2, π = π1 ++ π2 /\ cfg_path g x π2.
Proof.
  induction 1 as [|p b π Hp IH He]; intros Hx.
  - apply list_elem_of_singleton in Hx as ->. exists [], [nir_start_block]. split; [done|constructor].
  - apply elem_of_cons in Hx as [->|Hx].
    + exists [], (b :: π). split; [done|]. by econstructor.
    + destruct (IH Hx) as (π1 & π2 & -> & Hq). by exists (b :: π1), π2.
Qed.

Lemma path_reachable g b π x : cfg_path g b π -> x ∈ π -> reachable g x.
Proof. intros Hp Hx. destruct (path_prefix g b π x Hp Hx) as (_ & π2 & _ & H). by exists π2. Qed.

Lemma reachable_step g p b : reachable g p -> edge g p b -> reachable g b.
Proof. intros [π Hp] He. exists (b :: π). by econstructor. Qed.

Lemma reachable_start g : reachable g nir_start_block.
Proof. exists [nir_start_block]. constructor. Qed.

Lemma path_in_range g b π : cfg_ok g -> cfg_path g b π -> Forall (fun x => x < length g) π.
Proof.
  intros Hg. induction 1 as [|p b π Hp IH (ps & Hb & He)]; constructor; try done.
  - apply Hg.
  - by eapply lookup_lt_Some.
Qed.

Lemma reachable_in_range g b : cfg_ok g -> reachable g b -> b < length g.
Proof.
  intros Hg [π Hp]. pose proof (path_in_range g b π Hg Hp) as H. rewrite Forall_forall in H.
  by apply H, path_target_in with g.
Qed.

(** The number of edges of a path to a block that is not later than their origin *)
Fixpoint retreats (π : list nat) : nat :=
  match π with
  | b :: ((p :: _) as π') => (if decide (b <= p) then 1 else 0) + retreats π'
  | _ => 0
  end.

Lemma retreats_app π1 π2 : retreats π2 <= retreats (π1 ++ π2).
Proof.
  induction π1 as [|b π1 IH]; [done|]. cbn [app]. etransitivity; [exact IH|].
  destruct (π1 ++ π2); cbn; lia.
Qed.

Lemma retreats_step g p b π : cfg_path g p π ->
  retreats (b :: π) = (if decide (b <= p) then 1 else 0) + retreats π.
Proof. intros [π' ->]%path_head. done. Qed.

Lemma retreats_length π : retreats π <= length π - 1.
Proof.
  induction π as [|b [|p π] IH]; cbn [retreats length] in *; [lia..|]. destruct (decide (b <= p)); lia.
Qed.

(** Without repetition, a path retreats less often than there are blocks. *)
Lemma simple_path g b π : cfg_path g b π -> exists π', cfg_path g b π' /\ NoDup π' /\ π' ⊆ π.
Proof.
  induction 1 as [|p b π Hp (π' & Hp' & Hnd & Hsub) He].
  - exists [nir_start_block]. split; [constructor|]. split; [apply NoDup_singleton|done].
  - destruct (decide (b ∈ π')) as [Hin|Hin].
    + destruct (path_prefix g p π' b Hp' Hin) as (π1 & π2 & -> & Hq). exists π2. split; [done|].
      apply NoDup_app in Hnd as (_ & _ & Hnd). split; [done|]. intros x Hx. apply elem_of_cons. right. apply Hsub, elem_of_app. auto.
    + exists (b :: π'). split; [by econstructor|]. split; [by constructor|].
      intros x [->|Hx]%elem_of_cons; apply elem_of_cons; auto.
Qed.

Lemma simple_path_retreats g b π : cfg_ok g -> cfg_path g b π -> exists π', cfg_path g b π' /\ π' ⊆ π /\ retreats π' < length g.
Proof.
  intros Hg Hp. destruct (simple_path g b π Hp) as (π' & Hp' & Hnd & Hsub). exists π'. do 2 (split; [done|]).
  assert (length π' <= length (seq 0 (length g))).
  { apply submseteq_length, NoDup_submseteq; [done|]. intros x Hx. apply elem_of_seq.
    pose proof (path_in_range g b π' Hg Hp') as H. rewrite Forall_forall in H. specialize (H x Hx). lia. }
  rewrite length_seq in *. pose proof (retreats_length π'). destruct Hg. lia.
Qed.

(** ** Dominance *)

Lemma dominates_start g d : dominates g d nir_start_block -> d = nir_start_block.
Proof. intros H. specialize (H _ (path_start g)). by apply list_elem_of_singleton in H. Qed.

Lemma dominates_refl g b : dominates g b b.
Proof. intros π Hp. by eapply path_target_in. Qed.

Lemma dominates_trans g a b c : dominates g a b -> dominates g b c -> dominates g a c.
Proof.
  intros Hab Hbc π Hp. destruct (path_prefix g c π b Hp (Hbc π Hp)) as (π1 & π2 & -> & Hq).
  apply elem_of_app. auto.
Qed.

Lemma dominates_pred g d b p : dominates g d b -> d <> b -> edge g p b -> dominates g d p.
Proof.
  intros Hd Hne He π Hp. assert (H : d ∈ b :: π) by (apply Hd; by econstructor).
  apply elem_of_cons in H as [?|?]; done.
Qed.

Lemma dominates_preds g d b : b <> nir_start_block ->
  (forall p, edge g p b -> reachable g p -> dominates g d p) -> dominates g d b.
Proof.
  intros Hb Hd π Hp. destruct Hp as [|p b π Hp He]; [done|]. apply elem_of_cons. right. apply (Hd p He); [by exists π|done].
Qed.

Lemma dominates_reachable g d b : reachable g b -> dominates g d b -> reachable g d.
Proof. intros [π Hp] Hd. eapply path_reachable; [exact Hp|]. by apply Hd. Qed.

(** ** Immediate dominators *)

Definition idom bs (b : nat) : option nat := bs !! b ≫= imm_dom.

(** [tree bs b a]: [a] is [b] or one of its ancestors. *)
Definition parent bs (b a : nat) : Prop := idom bs b = Some a.
Definition tree bs : nat -> nat -> Prop := rtc (parent bs).

(** Blocks keep their indices and predecessors. *)
Definition frame g bs : Prop :=
  length bs = length g /\
  forall p b, bs !! p = Some b -> index b = Z.of_nat p /\ g !! p = Some (predecessors b).

(** Chains of immediate dominators lead to the start block, downwards. *)
Record tree_ok bs : Prop := {
  tree_start : forall p, idom bs nir_start_block = Some p -> p = nir_start_block;
  tree_down : forall b p, b <> nir_start_block -> idom bs b = Some p -> p < b;
  tree_closed : forall b p, idom bs b = Some p -> is_Some (idom bs p) }.

Lemma tree_le bs b a : tree_ok bs -> tree bs b a -> a <= b.
Proof.
  intros Ht. induction 1 as [|b p a Hp _ IH]; [done|]. destruct (decide (b = nir_start_block)) as [->|Hb].
  - apply tree_start in Hp; [|done]. by subst.
  - apply tree_down in Hp; [lia|done..].
Qed.

Lemma tree_linear bs b a c : tree bs b a -> tree bs b c -> tree bs a c \/ tree bs c a.
Proof.
  intros Ha. revert c. induction Ha as [b|b p a Hp Ha IH]; intros c Hc; [by left|].
  apply rtc_inv in Hc as [<-|(q & Hq & Hc)].
  - right. by eapply rtc_l.
  - unfold parent in *. assert (p = q) as <- by congruence. auto.
Qed.

Lemma tree_antisym bs a b : tree_ok bs -> tree bs a b -> tree bs b a -> a = b.
Proof. intros Ht H1%tree_le H2%tree_le; [lia|done..]. Qed.

Lemma tree_is_Some bs b a : tree_ok bs -> is_Some (idom bs b) -> tree bs b a -> is_Some (idom bs a).
Proof. intros Ht Hb. induction 1 as [|b p a Hp _ IH]; [done|]. apply IH. by eapply tree_closed. Qed.

(** The first step of a chain that is not empty *)
Lemma tree_parent bs b p a : idom bs b = Some p -> tree bs b a -> a <> b -> tree bs p a.
Proof. intros Hp [<-|(q & Hq & Ha)]%rtc_inv Hne; [done|]. unfold parent in Hq. rewrite Hp in Hq. injection Hq as ->. done. Qed.

(** Climbing from [b] to an ancestor [m], [d] beyond [m] is not met before. *)
Lemma tree_between bs b m d : tree_ok bs -> tree bs b m -> tree bs m d -> b <> m -> d <> b.
Proof. intros Ht H1 H2 Hne ->. by destruct Hne; apply (tree_antisym bs). Qed.
