(* ===== verification/NirDomAlgo.v ===== *)
(** * The iteration of nir_calc_dominance_impl finds the dominators

    [intersect] finds the nearest common ancestor; a round of [calc_dominance] keeps
    the invariant [dom_inv]; after [k] rounds the chain of a block is on all
    paths to it with fewer than [k] retreating edges, so that the loop ends; when it
    ends, the chain of a block consists of its dominators. *)

From Stdlib Require Import ZArith Lia.
From stdpp Require Import base list gmap numbers option relations.
From S2P Require Import Prelude Rmq NirDominance NirDomPaths.

Implicit Types (g : graph) (bs : list nir_block) (π : list nat).

(** ** Updates *)

Lemma update_lookup p f bs bs' x : update p f bs = Some bs' ->
  bs' !! x = if decide (x = p) then f <$> bs !! x else bs !! x.
Proof.
  unfold update. destruct (bs !! p) as [b|] eqn:E; [|done]. cbn. intros [= <-].
  destruct (decide (x = p)) as [->|]; [|by rewrite list_lookup_insert_ne by done].
  rewrite E. apply list_lookup_insert_eq. by eapply lookup_lt_Some.
Qed.

Lemma update_length p f bs bs' : update p f bs = Some bs' -> length bs' = length bs.
Proof. unfold update. destruct (bs !! p); [|done]. cbn. intros [= <-]. apply length_insert. Qed.

Lemma update_ok p f bs : p < length bs -> exists bs', update p f bs = Some bs'.
Proof. intros [b E]%lookup_lt_is_Some_2. unfold update. rewrite E. cbn. eauto. Qed.

Lemma update_idom p v bs bs' x : update p (set_imm_dom v) bs = Some bs' ->
  idom bs' x = if decide (x = p) then v else idom bs x.
Proof.
  intros E. unfold idom. rewrite (update_lookup _ _ _ _ x E).
  destruct (decide (x = p)) as [->|]; [|done]. unfold update in E. by destruct (bs !! p).
Qed.

(** An update of another field *)
Lemma frame_update g p f bs bs' : update p f bs = Some bs' ->
  (forall b, index (f b) = index b /\ predecessors (f b) = predecessors b) -> frame g bs -> frame g bs'.
Proof.
  intros E Hf [Hl Hb]. split; [by rewrite (update_length _ _ _ _ E)|]. intros x b Hx.
  rewrite (update_lookup _ _ _ _ x E) in Hx. destruct (decide (x = p)); [|auto].
  apply fmap_Some in Hx as (b' & Hb' & ->). destruct (Hf b') as [-> ->]. auto.
Qed.

Lemma frame_index g bs p b : frame g bs -> bs !! p = Some b -> index b = Z.of_nat p.
Proof. intros [_ H] Hb. by apply H. Qed.

Lemma idom_lookup bs b p : idom bs b = Some p -> exists blk, bs !! b = Some blk /\ imm_dom blk = Some p.
Proof. unfold idom. destruct (bs !! b); [|done]. cbn. eauto. Qed.

Lemma idom_lt bs b : is_Some (idom bs b) -> b < length bs.
Proof. intros [p (blk & E & _)%idom_lookup]. by eapply lookup_lt_Some. Qed.

(** ** Nearest common ancestors *)

Section ancestors.
Context (g : graph) (bs : list nir_block) (Hf : frame g bs) (Ht : tree_ok bs).
Local Open Scope nat_scope.

Lemma climb_ok fuel b l : b < fuel -> is_Some (idom bs b) ->
  exists m, climb fuel bs b (Z.of_nat l) = Some m /\ tree bs b m /\ m <= l /\ is_Some (idom bs m) /\
    forall a, tree bs b a -> a <= l -> tree bs m a.
Proof using Hf Ht.
  revert b. induction fuel as [|fuel IH]; intros b Hb [p Hp]; [lia|]. cbn [climb].
  destruct (idom_lookup bs b p Hp) as (blk & E & Ei). rewrite E. cbn [mbind option_bind].
  rewrite (frame_index g bs b blk Hf E). destruct (Z.of_nat b >? Z.of_nat l)%Z eqn:Hgt; zbool.
  - rewrite Ei. cbn [mbind option_bind]. assert (Hb0 : b <> nir_start_block) by (unfold nir_start_block; lia).
    pose proof (tree_down bs Ht b p Hb0 Hp).
    destruct (IH p) as (m & Em & Hm & Hle & Hs & Ha); [lia|by eapply tree_closed|].
    exists m. split; [done|]. split; [by eapply rtc_l|]. split; [done|]. split; [done|].
    intros a Hba Hal. apply Ha; [|done]. apply (tree_parent bs b); [done..|lia].
  - exists b. split; [done|]. split; [apply rtc_refl|]. split; [lia|]. split; [by eexists|auto].
Qed.

Definition is_nca (b1 b2 m : nat) : Prop :=
  tree bs b1 m /\ tree bs b2 m /\ is_Some (idom bs m) /\ forall a, tree bs b1 a -> tree bs b2 a -> tree bs m a.

Lemma intersect_loop_ok fuel b1 b2 : b1 < fuel -> b2 < fuel -> is_Some (idom bs b1) -> is_Some (idom bs b2) ->
  exists m, intersect_loop fuel bs b1 b2 = Some m /\ is_nca b1 b2 m.
Proof using Hf Ht.
  revert b1 b2. induction fuel as [|fuel IH]; intros b1 b2 H1 H2 S1 S2; [lia|]. cbn [intersect_loop].
  destruct (decide (b1 = b2)) as [<-|Hne].
  { exists b1. split; [done|]. repeat split; auto using rtc_refl. apply rtc_refl. apply rtc_refl. }
  pose proof (idom_lt bs b1 S1). pose proof (idom_lt bs b2 S2).
  destruct (lookup_lt_is_Some_2 bs b2) as [blk2 E2]; [done|]. rewrite E2. cbn [mbind option_bind].
  rewrite (frame_index g bs b2 blk2 Hf E2).
  destruct (climb_ok (S (length bs)) b1 b2) as (c1 & Ec1 & Hc1 & Hle1 & Sc1 & Ha1); [lia|done|].
  rewrite Ec1. cbn [mbind option_bind].
  destruct (lookup_lt_is_Some_2 bs c1) as [blk1 E1]; [by apply idom_lt|]. rewrite E1. cbn [mbind option_bind].
  rewrite (frame_index g bs c1 blk1 Hf E1).
  destruct (climb_ok (S (length bs)) b2 c1) as (c2 & Ec2 & Hc2 & Hle2 & Sc2 & Ha2); [lia|done|].
  rewrite Ec2. cbn [mbind option_bind].
  pose proof (tree_le bs b1 c1 Ht Hc1). pose proof (tree_le bs b2 c2 Ht Hc2).
  destruct (IH c1 c2) as (m & Em & Hm1 & Hm2 & Sm & Hma); [lia..|done|done|].
  exists m. split; [done|]. split; [by etransitivity|]. split; [by etransitivity|]. split; [done|].
  intros a Ha Hb. assert (a <= b2) by (by apply tree_le with bs). assert (Hca : tree bs c1 a) by auto.
  apply Hma; [done|]. apply Ha2; [done|]. by apply tree_le with bs.
Qed.

Lemma intersect_ok b1 b2 : is_Some (idom bs b1) -> is_Some (idom bs b2) ->
  exists m, intersect bs b1 b2 = Some m /\ is_nca b1 b2 m.
Proof using Hf Ht.
  intros S1 S2. pose proof (idom_lt bs b1 S1). pose proof (idom_lt bs b2 S2).
  apply intersect_loop_ok; [lia..|done|done].
Qed.

(** The nearest common ancestor of the predecessors with a dominator *)
Definition is_meet (ps : list nat) (m : nat) : Prop :=
  is_Some (idom bs m) /\
  (exists p, p ∈ ps /\ is_Some (idom bs p)) /\
  (forall p, p ∈ ps -> is_Some (idom bs p) -> tree bs p m) /\
  (forall a, (forall p, p ∈ ps -> is_Some (idom bs p) -> tree bs p a) -> tree bs m a).

Lemma is_meet_snoc ps n p m : is_meet ps n -> is_Some (idom bs p) -> is_nca p n m -> is_meet (ps ++ [p]) m.
Proof using Ht.
  intros (Sn & (q & Hq & Sq) & Hn & Ha) Sp (Hpm & Hnm & Sm & Hc). split; [done|]. split.
  { exists q. rewrite elem_of_app. auto. }
  split.
  - intros x [Hx|Hx%list_elem_of_singleton]%elem_of_app Sx; [|by subst]. etransitivity; [by apply Hn|done].
  - intros a Hall. apply Hc; [apply Hall; [rewrite elem_of_app, list_elem_of_singleton; auto|done]|].
    apply Ha. intros x Hx Sx. apply Hall; [rewrite elem_of_app; auto|done].
Qed.

Lemma calc_new_idom_ok ps : Forall (fun p => p < length bs) ps ->
  exists r, calc_new_idom bs ps = Some r /\
  match r with None => forall p, p ∈ ps -> idom bs p = None | Some m => is_meet ps m end.
Proof using Hf Ht.
  intros Hps. unfold calc_new_idom.
  apply (for_each_rule (fun pre r => match r with None => forall p, p ∈ pre -> idom bs p = None | Some m => is_meet pre m end)).
  { intros p Hp. by apply not_elem_of_nil in Hp. }
  intros pre p post r Eps Hr. rewrite Eps, Forall_app, Forall_cons in Hps. destruct Hps as (_ & Hp & _).
  destruct (lookup_lt_is_Some_2 bs p Hp) as [b Eb]. rewrite Eb. cbn [mbind option_bind].
  assert (Ei : idom bs p = imm_dom b) by (unfold idom; by rewrite Eb).
  destruct (imm_dom b) as [d|] eqn:Ed.
  2:{ exists r. split; [done|]. destruct r as [n|].
    - destruct Hr as (Sn & (q & Hq & Sq) & Hn & Ha). split; [done|]. split; [exists q; rewrite elem_of_app; auto|]. split.
      + intros x [Hx|Hx%list_elem_of_singleton]%elem_of_app Sx; [auto|]. subst. rewrite Ei in Sx. by destruct Sx.
      + intros a Hall. apply Ha. intros x Hx. apply Hall. rewrite elem_of_app. auto.
    - intros x [Hx|Hx%list_elem_of_singleton]%elem_of_app; [auto|congruence]. }
  assert (Sp : is_Some (idom bs p)) by (rewrite Ei; by eexists).
  destruct r as [n|].
  - destruct (intersect_ok p n) as (m & Em & Hm); [done|by apply Hr|]. rewrite Em. cbn [mbind option_bind].
    exists (Some m). split; [done|]. by apply (is_meet_snoc pre n).
  - exists (Some p). split; [done|]. split; [done|]. split; [exists p; rewrite elem_of_app, list_elem_of_singleton; auto|]. split.
    + intros x [Hx|Hx%list_elem_of_singleton]%elem_of_app Sx; [|subst; apply rtc_refl].
      rewrite (Hr x Hx) in Sx. by destruct Sx.
    + intros a Hall. apply Hall; [|done]. rewrite elem_of_app, list_elem_of_singleton. auto.
Qed.
End ancestors.

(** ** The invariant of the iteration *)

Record dom_inv g bs : Prop := {
  inv_frame : frame g bs;
  inv_tree : tree_ok bs;
  inv_start : idom bs nir_start_block = Some nir_start_block;
  inv_reach : forall b, is_Some (idom bs b) -> reachable g b;
  inv_sound : forall b p, b <> nir_start_block -> idom bs b = Some p ->
    forall d, dominates g d b -> d <> b -> dominates g d p }.

(** The dominators of a block are on its chain. *)
Lemma dominators_in_tree g bs b d : dom_inv g bs -> is_Some (idom bs b) -> dominates g d b -> tree bs b d.
Proof.
  intros Hi. revert d. induction (lt_wf b) as [b _ IH]. intros d [p Hp] Hd.
  destruct (decide (d = b)) as [->|Hne]; [apply rtc_refl|].
  destruct (decide (b = nir_start_block)) as [->|Hb]; [by apply dominates_start in Hd|].
  apply rtc_l with p; [done|]. apply IH.
  - by apply (tree_down bs); [apply Hi|..].
  - by eapply tree_closed; [apply Hi|].
  - by apply (inv_sound g bs Hi b).
Qed.

(** A dominator of [b] beyond [m] dominates [m]. *)
Lemma dominates_climb g bs b m d : dom_inv g bs -> tree bs b m -> tree bs m d -> dominates g d b -> dominates g d m.
Proof.
  intros Hi Hbm Hmd. pose proof (inv_tree g bs Hi) as Ht. revert Hmd. induction Hbm as [b|b p m Hp Hpm IH]; intros Hmd Hd; [done|].
  apply IH; [done|]. destruct (decide (b = nir_start_block)) as [->|Hb].
  - apply tree_start in Hp; [by subst|done].
  - apply (inv_sound g bs Hi b p Hb Hp d Hd). intros ->.
    pose proof (tree_down bs Ht b p Hb Hp). pose proof (tree_le bs p m Ht Hpm). pose proof (tree_le bs m b Ht Hmd). lia.
Qed.

Record round_inv g (k j : nat) bs : Prop := {
  ri_inv : dom_inv g bs;
  ri_done : forall x, reachable g x -> x < j \/ 1 < k -> is_Some (idom bs x);
  ri_paths : forall x π a, cfg_path g x π -> retreats π + (if decide (x < j) then 0 else 1) < k -> tree bs x a -> a ∈ π }.

(** The chain of [j] consists of [j] and what the chains of its predecessors share. *)
Definition fixed g bs (j : nat) : Prop :=
  forall p a, edge g p j -> is_Some (idom bs p) -> tree bs j a -> a = j \/ tree bs p a.

Section set_idom.
Context (g : graph) (bs bs' : list nir_block) (k j m : nat) (ps : list nat).
Context (Hg : cfg_ok g) (Hk : 1 <= k) (Hri : round_inv g k j bs).
Context (Hj : j <> nir_start_block) (Hps : g !! j = Some ps) (Hm : is_meet bs ps m).

Lemma meet_reachable : reachable g j.
Proof using Hri Hps Hm.
  destruct Hm as (_ & (p & Hp & Sp) & _). apply (reachable_step g p); [by apply (inv_reach g bs (ri_inv _ _ _ _ Hri))|].
  by exists ps.
Qed.

Lemma meet_lt : m < j.
Proof using Hg Hk Hri Hj Hps Hm.
  destruct (cfg_order g Hg j meet_reachable Hj) as (p & (ps' & Eps & Hp) & Hlt & Rp). rewrite Hps in Eps. injection Eps as <-.
  destruct Hm as (_ & _ & Ha & _). pose proof (tree_le bs p m (inv_tree _ _ (ri_inv _ _ _ _ Hri))
    (Ha p Hp (ri_done _ _ _ _ Hri p Rp (or_introl Hlt)))). lia.
Qed.

Context (Hfr : frame g bs') (Hset : forall x, idom bs' x = if decide (x = j) then Some m else idom bs x).

Lemma set_is_Some x : is_Some (idom bs x) -> is_Some (idom bs' x).
Proof using Hset. rewrite Hset. by destruct (decide (x = j)). Qed.

Lemma set_tree_split x a : tree bs' x a -> tree bs x a \/ (tree bs x j /\ tree bs' j a).
Proof using Hset.
  induction 1 as [x|x q a Hq Ha IH]; [left; apply rtc_refl|].
  destruct (decide (x = j)) as [->|Hx]; [right; split; [apply rtc_refl|by eapply rtc_l]|].
  unfold parent in Hq. rewrite Hset, decide_False in Hq by done.
  destruct IH as [IH|[IH1 IH2]]; [left|right; split; [|done]]; by apply rtc_l with q.
Qed.

Lemma set_tree_low x a : x < j -> tree bs' x a -> tree bs x a.
Proof using Hk Hri Hj Hset.
  intros Hx [H|[H _]]%set_tree_split; [done|]. apply tree_le in H; [lia|]. apply (inv_tree g), Hri.
Qed.

Lemma set_tree_self a : tree bs' j a -> a = j \/ tree bs m a.
Proof using Hg Hk Hri Hj Hps Hm Hset.
  intros [<-|(q & Hq & Ha)]%rtc_inv; [by left|right]. unfold parent in Hq. rewrite Hset, decide_True in Hq by done.
  injection Hq as <-. apply set_tree_low; [apply meet_lt|done].
Qed.

Lemma set_inv : dom_inv g bs'.
Proof using Hg Hk Hri Hj Hps Hm Hfr Hset.
  pose proof (ri_inv _ _ _ _ Hri) as Hi. pose proof (inv_tree _ _ Hi) as Ht. pose proof meet_lt as Hlt.
  destruct Hm as (Sm & _ & Hall & Hmax).
  split; [done| | | |].
  - split.
    + intros p. rewrite Hset, decide_False by done. by apply Ht.
    + intros b p Hb. rewrite Hset. destruct (decide (b = j)) as [->|]; [intros [= <-]; done|]. by apply Ht.
    + intros b p. rewrite Hset. destruct (decide (b = j)) as [->|]; intros Hp; apply set_is_Some.
      * by injection Hp as <-.
      * by eapply (tree_closed bs Ht).
  - rewrite Hset, decide_False by done. apply Hi.
  - intros b. rewrite Hset. destruct (decide (b = j)) as [->|]; [intros _; apply meet_reachable|apply Hi].
  - intros b p Hb. rewrite Hset. destruct (decide (b = j)) as [->|]; [|by apply Hi].
    intros [= <-] d Hd Hne. assert (Hdp : forall p, p ∈ ps -> dominates g d p).
    { intros p Hp. apply (dominates_pred g d j p Hd Hne). by exists ps. }
    destruct (cfg_order g Hg j meet_reachable Hj) as (p & (ps' & Eps & Hp) & Hpj & Rp).
    rewrite Hps in Eps. injection Eps as <-. pose proof (ri_done _ _ _ _ Hri p Rp (or_introl Hpj)) as Sp.
    apply (dominates_climb g bs p m d Hi); [by apply Hall| |by apply Hdp].
    apply Hmax. intros q Hq Sq. apply (dominators_in_tree g bs q d Hi Sq). by apply Hdp.
Qed.

(** The chain of [j] is on the paths with fewer than [k] retreating edges. *)
Lemma set_paths_self π a : cfg_path g j π -> retreats π < k -> tree bs' j a -> a ∈ π.
Proof using Hg Hk Hri Hj Hps Hm Hset.
  intros Hp Hr [->|Ha]%set_tree_self; [by eapply path_target_in|].
  destruct Hp as [|p b π Hp (ps' & Eps & Hpin)]; [done|]. rewrite Hps in Eps. injection Eps as <-.
  rewrite (retreats_step g p) in Hr by done. apply elem_of_cons. right.
  assert (Rp : reachable g p) by (by exists π).
  assert (Sp : is_Some (idom bs p)).
  { apply (ri_done _ _ _ _ Hri p Rp). destruct (decide (b <= p)); lia. }
  apply (ri_paths _ _ _ _ Hri p π a Hp).
  - destruct (decide (b <= p)), (decide (p < b)); lia.
  - destruct Hm as (_ & _ & Hall & _). etransitivity; [by apply Hall|done].
Qed.

Lemma set_round_inv : round_inv g k (S j) bs'.
Proof using Hg Hk Hri Hj Hps Hm Hfr Hset.
  split; [apply set_inv| |].
  - intros x Rx Hx. destruct (decide (x = j)) as [->|Hne].
    + rewrite Hset, decide_True by done. by eexists.
    + apply set_is_Some, (ri_done _ _ _ _ Hri x Rx). lia.
  - intros x π a Hp Hr Ha. destruct (decide (x = j)) as [->|Hne].
    { apply set_paths_self; [done| |done]. destruct (decide (j < S j)); lia. }
    assert (Hr' : retreats π + (if decide (x < j) then 0 else 1) < k).
    { destruct (decide (x < j)), (decide (x < S j)); lia. }
    destruct (set_tree_split x a Ha) as [H|[H1 H2]]; [by apply (ri_paths _ _ _ _ Hri x π a)|].
    pose proof (ri_paths _ _ _ _ Hri x π j Hp Hr' H1) as Hjin.
    destruct (path_prefix g x π j Hp Hjin) as (π1 & π2 & -> & Hp2). apply elem_of_app. right.
    apply set_paths_self; [done| |done]. pose proof (retreats_app π1 π2).
    destruct (decide (x < j)); lia.
Qed.
End set_idom.

(** ** Rounds *)

Lemma foreach_block_rule {S : Type} (I : nat -> S -> Prop) body bs s :
  I 0 s -> (forall p s, p < length bs -> I p s -> exists s', body p s = Some s' /\ I (Datatypes.S p) s') ->
  exists s', foreach_block body bs s = Some s' /\ I (length bs) s'.
Proof.
  intros H0 Hstep. unfold foreach_block.
  destruct (for_each_rule (fun pre s => I (length pre) s) body (seq 0 (length bs)) s) as (s' & E & H).
  - done.
  - intros pre x post s1 E HI. assert (x = length pre) as ->.
    { assert (Hx : seq 0 (length bs) !! length pre = Some x) by (rewrite E; by apply list_lookup_middle).
      apply lookup_seq in Hx. lia. }
    apply Hstep in HI as (s' & ? & ?).
    + exists s'. split; [done|]. rewrite length_app. cbn. by rewrite Nat.add_1_r.
    + apply (f_equal length) in E. rewrite length_seq, length_app in E. cbn in E. lia.
  - exists s'. split; [done|]. by rewrite length_seq in H.
Qed.

(** Nothing but [imm_dom] differs. *)
Definition same_rest bs bs' : Prop := forall p, set_imm_dom None <$> bs' !! p = set_imm_dom None <$> bs !! p.

Lemma same_rest_update p v bs bs' : update p (set_imm_dom v) bs = Some bs' -> same_rest bs bs'.
Proof.
  intros E x. rewrite (update_lookup _ _ _ _ x E). destruct (decide (x = p)); [|done]. by destruct (bs !! x).
Qed.

Lemma same_rest_trans bs1 bs2 bs3 : same_rest bs1 bs2 -> same_rest bs2 bs3 -> same_rest bs1 bs3.
Proof. intros H1 H2 p. by rewrite H2, H1. Qed.

Lemma frame_set_imm_dom g p v bs bs' : update p (set_imm_dom v) bs = Some bs' -> frame g bs -> frame g bs'.
Proof. intros E. by apply (frame_update g p (set_imm_dom v)). Qed.

(** After more rounds than there are blocks, chains are dominators. *)
Lemma tree_dominates g k j bs x a : cfg_ok g -> round_inv g k j bs -> length g < k -> tree bs x a -> dominates g a x.
Proof.
  intros Hg Hri Hk Ha π Hp. destruct (simple_path_retreats g x π Hg Hp) as (π' & Hp' & Hsub & Hr). apply Hsub.
  apply (ri_paths _ _ _ _ Hri x π' a Hp'); [|done]. destruct (decide (x < j)); lia.
Qed.

Lemma stable_idom g k j bs ps m : cfg_ok g -> round_inv g k j bs -> length g < k -> 1 <= k -> j <> nir_start_block ->
  g !! j = Some ps -> is_meet bs ps m -> idom bs j = Some m.
Proof.
  intros Hg Hri Hn Hk Hj Hps Hm. pose proof (ri_inv _ _ _ _ Hri) as Hi. pose proof (inv_tree _ _ Hi) as Ht.
  pose proof (meet_reachable g bs k j m ps Hri Hps Hm) as Rj. pose proof (meet_lt g bs k j m ps Hg Hk Hri Hj Hps Hm) as Hlt.
  destruct (ri_done _ _ _ _ Hri j Rj) as [q Hq]; [right; destruct Hg; lia|]. rewrite Hq. f_equal.
  assert (Hqj : q < j) by (by apply (tree_down bs)). destruct Hm as (Sm & _ & Hall & Hmax).
  apply (tree_antisym bs); [done| |].
  - apply (tree_parent bs j); [done| |lia]. apply (dominators_in_tree g bs j m Hi); [by eexists|].
    apply dominates_preds; [done|]. intros p (ps' & Eps & Hp) Rp. rewrite Hps in Eps. injection Eps as <-.
    apply (tree_dominates g k j bs p m Hg Hri Hn), Hall; [done|]. apply (ri_done _ _ _ _ Hri p Rp). right. destruct Hg; lia.
  - apply Hmax. intros p Hp Sp. apply (dominators_in_tree g bs p q Hi Sp). apply (dominates_pred g q j).
    + apply (tree_dominates g k j bs j q Hg Hri Hn). by apply rtc_once.
    + lia.
    + by exists ps.
Qed.

Lemma calc_dominance_ok g k j bs : cfg_ok g -> 1 <= k -> round_inv g k j bs -> j <> nir_start_block -> j < length g ->
  exists bs' r, calc_dominance j bs = Some (bs', r) /\ round_inv g k (S j) bs' /\ same_rest bs bs' /\
    (r = false -> bs' = bs /\ fixed g bs j) /\ (length g < k -> r = false).
Proof.
  intros Hg Hk Hri Hj Hlt. pose proof (ri_inv _ _ _ _ Hri) as Hi. pose proof (inv_frame _ _ Hi) as Hf. pose proof (inv_tree _ _ Hi) as Ht.
  destruct (lookup_lt_is_Some_2 bs j) as [blk E]; [destruct Hf; lia|]. unfold calc_dominance. rewrite E. cbn [mbind option_bind].
  pose proof (proj2 Hf j blk E) as [_ Hps]. assert (Ei : idom bs j = imm_dom blk) by (unfold idom; by rewrite E).
  destruct (calc_new_idom_ok g bs Hf Ht (predecessors blk)) as (r & Er & Hr).
  { apply Forall_forall. intros p Hp. rewrite (proj1 Hf). apply (cfg_preds g Hg p j). by exists (predecessors blk). }
  rewrite Er. cbn [mbind option_bind]. rewrite <- Ei. destruct r as [m|].
  - destruct (decide (idom bs j = Some m)) as [Hsame|Hnew].
    + exists bs, false. split; [done|]. assert (Hset : forall x, idom bs x = if decide (x = j) then Some m else idom bs x).
      { intros x. by destruct (decide (x = j)) as [->|]. }
      split; [by apply (set_round_inv g bs bs k j m (predecessors blk))|]. split; [done|]. split; [|done]. intros _. split; [done|].
      intros p a (ps & Eps & Hp) Sp Ha. rewrite Hps in Eps. injection Eps as <-.
      destruct (set_tree_self g bs bs k j m (predecessors blk) Hg Hk Hri Hj Hps Hr Hset a Ha) as [|Hma]; [by left|right].
      destruct Hr as (_ & _ & Hall & _). etransitivity; [by apply Hall|done].
    + destruct (update_ok j (set_imm_dom (Some m)) bs) as [bs' Eu]; [destruct Hf; lia|]. rewrite Eu. cbn [mbind option_bind].
      exists bs', true. split; [done|]. split.
      { apply (set_round_inv g bs bs' k j m (predecessors blk)); try done; [by eapply frame_set_imm_dom|].
        intros x. by apply update_idom. }
      split; [by eapply same_rest_update|]. split; [done|]. intros Hn. destruct Hnew.
      by apply (stable_idom g k j bs (predecessors blk)).
  - assert (Hun : ~ reachable g j).
    { intros Rj. destruct (cfg_order g Hg j Rj Hj) as (p & (ps & Eps & Hp) & Hpj & Rp). rewrite Hps in Eps. injection Eps as <-.
      destruct (ri_done _ _ _ _ Hri p Rp (or_introl Hpj)) as [q Hq]. by rewrite (Hr p Hp) in Hq. }
    assert (Hnone : idom bs j = None).
    { destruct (idom bs j) eqn:Eq; [|done]. destruct Hun. apply (inv_reach g bs Hi). by eexists. }
    rewrite decide_True by done. exists bs, false. split; [done|]. split; [split; [done| |]|split; [done|split; [|done]]].
    + intros x Rx Hx. apply (ri_done _ _ _ _ Hri x Rx). destruct (decide (x = j)) as [->|]; [done|lia].
    + intros x π a Hp Hrt Ha. apply (ri_paths _ _ _ _ Hri x π a Hp); [|done].
      destruct (decide (x = j)) as [->|]; [destruct Hun; by exists π|].
      destruct (decide (x < j)), (decide (x < S j)); lia.
    + intros _. split; [done|]. intros p a (ps & Eps & Hp) Sp. rewrite Hps in Eps. injection Eps as <-.
      rewrite (Hr p Hp) in Sp. by destruct Sp.
Qed.

Lemma tree_of_start bs a : tree_ok bs -> tree bs nir_start_block a -> a = nir_start_block.
Proof. intros Ht H%tree_le; [|done]. unfold nir_start_block in *. lia. Qed.

(** The start block is not visited. *)
Lemma round_inv_skip_start g k bs : round_inv g k 0 bs -> round_inv g k 1 bs.
Proof.
  intros Hri. pose proof (ri_inv _ _ _ _ Hri) as Hi. split; [done| |].
  - intros x Rx Hx. destruct (decide (x = nir_start_block)) as [->|]; [rewrite (inv_start g bs Hi); by eexists|].
    apply (ri_done _ _ _ _ Hri x Rx). unfold nir_start_block in *. lia.
  - intros x π a Hp Hr Ha. destruct (decide (x = nir_start_block)) as [->|Hx].
    + apply tree_of_start in Ha as ->; [|apply Hi]. by eapply path_target_in.
    + apply (ri_paths _ _ _ _ Hri x π a Hp); [|done]. unfold nir_start_block in *.
      destruct (decide (x < 0)), (decide (x < 1)); lia.
Qed.

Lemma round_inv_next g k bs : cfg_ok g -> 1 <= k -> round_inv g k (length g) bs -> round_inv g (S k) 0 bs.
Proof.
  intros Hg Hk Hri. split; [apply Hri| |].
  - intros x Rx _. apply (ri_done _ _ _ _ Hri x Rx). left. by apply reachable_in_range.
  - intros x π a Hp Hr Ha. apply (ri_paths _ _ _ _ Hri x π a Hp); [|done].
    assert (x < length g) by (apply reachable_in_range; [done|by exists π]).
    destruct (decide (x < 0)), (decide (x < length g)); lia.
Qed.

Lemma dominance_round_ok g k bs : cfg_ok g -> 1 <= k -> round_inv g k 0 bs ->
  exists bs' r, dominance_round bs = Some (bs', r) /\ round_inv g k (length g) bs' /\ same_rest bs bs' /\
    (r = false -> bs' = bs /\ forall j, j < length g -> j <> nir_start_block -> fixed g bs j) /\ (length g < k -> r = false).
Proof.
  intros Hg Hk Hri. assert (Hlen : length bs = length g) by apply (inv_frame _ _ (ri_inv _ _ _ _ Hri)).
  unfold dominance_round. rewrite <- Hlen.
  destruct (foreach_block_rule (fun j '(bs', r) => round_inv g k j bs' /\ same_rest bs bs' /\
    (r = false -> bs' = bs /\ forall i, i < j -> i <> nir_start_block -> fixed g bs i) /\ (length g < k -> r = false))
    (fun p '(bs, progress) => if decide (p = nir_start_block) then Some (bs, progress) else
      '(bs, r) ← calc_dominance p bs; Some (bs, progress || r)) bs (bs, false)) as ([bs' r] & E & H).
  - split; [done|]. split; [done|]. split; [|done]. intros _. split; [done|lia].
  - intros p [bs1 r1] Hp (H1 & H2 & H3 & H4). destruct (decide (p = nir_start_block)) as [->|Hp0].
    + eexists. split; [done|]. split; [by apply round_inv_skip_start|]. split; [done|]. split; [|done].
      intros Hr. destruct (H3 Hr) as [-> Hfix]. split; [done|]. intros i Hi. unfold nir_start_block in *. lia.
    + destruct (calc_dominance_ok g k p bs1) as (bs2 & r2 & -> & G1 & G2 & G3 & G4); [done..|lia|].
      cbn [mbind option_bind]. eexists. split; [done|]. split; [done|]. split; [by eapply same_rest_trans|]. split.
      * intros [Hr1 Hr2]%orb_false_iff. destruct (H3 Hr1) as [-> Hfix]. destruct (G3 Hr2) as [-> Hfixp]. split; [done|].
        intros i Hi Hi0. destruct (decide (i = p)) as [->|]; [done|]. apply Hfix; [lia|done].
      * intros Hn. rewrite H4, G4 by done. done.
  - exists bs', r. by rewrite Hlen in *.
Qed.

(** The chains of immediate dominators are exactly the dominators. *)
Record dom_tree g bs : Prop := {
  dt_inv : dom_inv g bs;
  dt_reach : forall x, reachable g x -> is_Some (idom bs x);
  dt_tree : forall x a, reachable g x -> tree bs x a <-> dominates g a x }.

Lemma fixed_dom_tree g k bs : cfg_ok g -> 1 <= k -> round_inv g k (length g) bs ->
  (forall j, j < length g -> j <> nir_start_block -> fixed g bs j) -> dom_tree g bs.
Proof.
  intros Hg Hk Hri Hfix. pose proof (ri_inv _ _ _ _ Hri) as Hi.
  assert (Hall : forall x, reachable g x -> is_Some (idom bs x)).
  { intros x Rx. apply (ri_done _ _ _ _ Hri x Rx). left. by apply reachable_in_range. }
  split; [done|done|]. intros x a Rx. split; [|by apply dominators_in_tree, Hall].
  intros Ha π Hp. clear Rx. induction Hp as [|p b π Hp IH He] in a, Ha |- *.
  - apply tree_of_start in Ha as ->; [|apply Hi]. apply list_elem_of_here.
  - destruct (decide (b = nir_start_block)) as [->|Hb].
    { apply tree_of_start in Ha as ->; [|apply Hi]. apply list_elem_of_here. }
    assert (Rp : reachable g p) by (by exists π).
    apply elem_of_cons. destruct (Hfix b) with p a as [->|Hpa]; auto.
    apply reachable_in_range; [done|]. by apply (reachable_step g p).
Qed.

Lemma dominance_loop_ok g fuel k bs : cfg_ok g -> 1 <= k <= S (length g) -> S (S (length g)) <= fuel + k ->
  round_inv g k 0 bs -> exists bs', dominance_loop fuel bs = Some bs' /\ same_rest bs bs' /\ dom_tree g bs'.
Proof.
  intros Hg. revert k bs. induction fuel as [|fuel IH]; intros k bs Hk Hfk Hri; [lia|]. cbn [dominance_loop].
  destruct (dominance_round_ok g k bs) as (bs' & r & -> & H1 & H2 & H3 & H4); [done|lia|done|].
  cbn [mbind option_bind]. destruct r.
  - assert (k <= length g) by (destruct (decide (length g < k)) as [Hn|]; [by specialize (H4 Hn)|lia]).
    destruct (IH (S k) bs') as (bs2 & E & G1 & G2); [lia..|apply round_inv_next; [done|lia|done]|].
    exists bs2. split; [done|]. split; [by eapply same_rest_trans|done].
  - exists bs'. split; [done|]. split; [done|]. destruct (H3 eq_refl) as [-> Hfix].
    apply (fixed_dom_tree g k); [done|lia|done|done].
Qed.

(** ** Initialisation *)

Definition init_of (p : nat) (b : nir_block) : nir_block :=
  NirBlock (index b) (predecessors b) (if decide (p = nir_start_block) then Some p else None) 0
    (dom_children b) ∅ UINT32_MAX 0.

Lemma init_block_lookup p bs bs' x : init_block p bs = Some bs' ->
  bs' !! x = if decide (x = p) then init_of p <$> bs !! x else bs !! x.
Proof.
  unfold init_block. intros H. do 4 (apply bind_Some in H as (? & ? & H)).
  rewrite (update_lookup _ _ _ _ x H). repeat match goal with E : update _ _ _ = Some ?b |- context [?b !! x] => rewrite (update_lookup _ _ _ _ x E) end.
  destruct (decide (x = p)); [|done]. by destruct (bs !! x).
Qed.

Lemma init_block_ok p bs : p < length bs -> exists bs', init_block p bs = Some bs' /\ length bs' = length bs.
Proof.
  intros Hp. unfold init_block.
  repeat match goal with
  | |- context [update p ?f ?b ≫= _] =>
      let b' := fresh "b" in let E := fresh "E" in
      destruct (update_ok p f b) as [b' E]; [rewrite ?(update_length _ _ _ _ ltac:(eassumption)); congruence|];
      apply update_length in E as ?; rewrite E; cbn [mbind option_bind]
  end.
  edestruct update_ok as [b' E']; [|exists b'; split; [exact E'|apply update_length in E'; congruence]]. congruence.
Qed.

Lemma init_blocks_ok bs : exists bs', foreach_block init_block bs bs = Some bs' /\ length bs' = length bs /\
  forall x, bs' !! x = init_of x <$> bs !! x.
Proof.
  destruct (foreach_block_rule (fun j bs' => length bs' = length bs /\
    forall x, bs' !! x = if decide (x < j) then init_of x <$> bs !! x else bs !! x) init_block bs bs) as (bs' & E & Hl & H).
  - done.
  - intros p bs1 Hp (Hl & H). destruct (init_block_ok p bs1) as (bs2 & E & Hl2); [lia|].
    exists bs2. split; [done|]. split; [lia|]. intros x. rewrite (init_block_lookup _ _ _ x E), H.
    destruct (decide (x = p)) as [->|]; [by rewrite decide_False, decide_True by lia|].
    destruct (decide (x < p)), (decide (x < S p)); lia || done.
  - exists bs'. split; [done|]. split; [done|]. intros x. rewrite H. destruct (decide (x < length bs)); [done|].
    by rewrite lookup_ge_None_2 by lia.
Qed.

Lemma init_round_inv g bs bs' : cfg_ok g -> frame g bs -> length bs' = length bs ->
  (forall x, bs' !! x = init_of x <$> bs !! x) -> round_inv g 1 0 bs'.
Proof.
  intros Hg [Hl Hf] Hl' Hx.
  assert (Hid : forall x p, idom bs' x = Some p -> x = nir_start_block /\ p = nir_start_block).
  { intros x p. unfold idom. rewrite Hx. destruct (bs !! x); [|done]. cbn.
    destruct (decide (x = nir_start_block)) as [->|]; [by intros [= <-]|done]. }
  assert (H0 : idom bs' nir_start_block = Some nir_start_block).
  { unfold idom. rewrite Hx. destruct (lookup_lt_is_Some_2 bs nir_start_block) as [b ->]; [|done]. rewrite Hl. apply Hg. }
  split; [split|intros x _ Hx0; lia|intros x π a _ Hr; destruct (decide (x < 0)); lia].
  - split; [congruence|]. intros p b. rewrite Hx, fmap_Some. intros (b' & Hb & ->). cbn. by apply (Hf p b').
  - split; [by intros p [_ ->]%Hid|by intros b p Hb [-> _]%Hid|]. intros b p [_ ->]%Hid. by eexists.
  - done.
  - intros b [p [-> _]%Hid]. apply reachable_start.
  - by intros b p Hb [-> _]%Hid.
Qed.
