(* ===== verification/NirDomFrontier.v ===== *)
(** * The dominance frontiers (nir_dominance.c: calc_dom_frontier)

    Relative to a tree of dominators, the walks from the predecessors of the join
    points put a block into exactly the frontiers it belongs to. *)

From Stdlib Require Import ZArith Lia.
From stdpp Require Import base list gmap numbers option relations.
From S2P Require Import Prelude Rmq NirDominance NirDomPaths NirDomAlgo.

Implicit Types (g : graph) (bs : list nir_block).

(** [b] is in the frontier of [x]: [x] dominates a reachable predecessor of [b] but
    does not strictly dominate [b]. *)
Definition in_frontier g (x b : nat) : Prop :=
  (exists p, edge g p b /\ reachable g p /\ dominates g x p) /\ ~ (dominates g x b /\ x <> b).

Definition front bs (x : nat) : gset nat := from_option dom_frontier ∅ (bs !! x).

(** Nothing but the frontiers differs. *)
Definition same_front bs bs' : Prop := forall x, set_dom_frontier ∅ <$> bs' !! x = set_dom_frontier ∅ <$> bs !! x.

Lemma same_front_lookup bs bs' x b' : same_front bs bs' -> bs' !! x = Some b' ->
  exists b, bs !! x = Some b /\ b' = set_dom_frontier (dom_frontier b') b.
Proof.
  intros H E. specialize (H x). rewrite E in H. destruct (bs !! x) as [b|]; [|done]. exists b. split; [done|].
  destruct b, b'. cbn in *. unfold set_dom_frontier in *. cbn in *. congruence.
Qed.

Lemma same_front_idom bs bs' x : same_front bs bs' -> idom bs' x = idom bs x.
Proof.
  intros H. specialize (H x). unfold idom. destruct (bs' !! x), (bs !! x); try done. cbn in *. unfold set_dom_frontier in H. congruence.
Qed.

Lemma same_front_length bs bs' : same_front bs bs' -> length bs' = length bs.
Proof.
  intros H. apply Nat.le_antisymm; apply Nat.nlt_ge; intros Hlt.
  - destruct (lookup_lt_is_Some_2 _ _ Hlt) as [b E]. specialize (H (length bs)).
    by rewrite E, (lookup_ge_None_2 bs) in H by lia.
  - destruct (lookup_lt_is_Some_2 _ _ Hlt) as [b E]. specialize (H (length bs')).
    by rewrite E, (lookup_ge_None_2 bs') in H by lia.
Qed.

Lemma add_front bs r b block : bs !! r = Some b ->
  exists bs', update r (set_dom_frontier ({[block]} ∪ dom_frontier b)) bs = Some bs' /\ same_front bs bs' /\
  forall x y, y ∈ front bs' x <-> y ∈ front bs x \/ (y = block /\ x = r).
Proof.
  intros E. destruct (update_ok r (set_dom_frontier ({[block]} ∪ dom_frontier b)) bs) as [bs' Eu]; [by eapply lookup_lt_Some|].
  exists bs'. split; [done|]. split.
  - intros x. rewrite (update_lookup _ _ _ _ x Eu). destruct (decide (x = r)); [|done]. by destruct (bs !! x).
  - intros x y. unfold front. rewrite (update_lookup _ _ _ _ x Eu). destruct (decide (x = r)) as [->|].
    + rewrite E. cbn. rewrite elem_of_union, elem_of_singleton. tauto.
    + tauto.
Qed.

Lemma same_front_trans bs1 bs2 bs3 : same_front bs1 bs2 -> same_front bs2 bs3 -> same_front bs1 bs3.
Proof. intros H1 H2 x. by rewrite H2, H1. Qed.

Section walk.
Context (bs0 : list nir_block) (Ht : tree_ok bs0) (block s : nat).

Lemma frontier_loop_ok fuel r bs : same_front bs0 bs -> r < fuel -> is_Some (idom bs0 r) -> tree bs0 r s ->
  exists bs', frontier_loop fuel block (Some s) (Some r) bs = Some bs' /\ same_front bs0 bs' /\
  forall x y, y ∈ front bs' x <-> y ∈ front bs x \/ (y = block /\ tree bs0 r x /\ ~ tree bs0 s x).
Proof using Ht.
  revert r bs. induction fuel as [|fuel IH]; intros r bs Hs Hr [p Hp] Hrs; [lia|]. cbn [frontier_loop].
  destruct (decide (Some r = Some s)) as [Heq|Hne].
  { injection Heq as ->. exists bs. split; [done|]. split; [done|]. intros x y. tauto. }
  cbn [mbind option_bind]. assert (Hrne : r <> s) by congruence.
  rewrite <- (same_front_idom bs0 bs r Hs) in Hp. destruct (idom_lookup bs r p Hp) as (b & E & Ei).
  rewrite (same_front_idom bs0 bs r Hs) in Hp. rewrite E. cbn [mbind option_bind].
  destruct (add_front bs r b block E) as (bs1 & -> & Hs1 & Hf1). cbn [mbind option_bind]. rewrite Ei.
  assert (Hr0 : r <> nir_start_block).
  { intros ->. apply tree_of_start in Hrs; [by destruct Hrne|done]. }
  pose proof (tree_down bs0 Ht r p Hr0 Hp). pose proof (tree_parent bs0 r p s Hp Hrs (not_eq_sym Hrne)) as Hps.
  destruct (IH p bs1) as (bs2 & E2 & Hs2 & Hf2); [by eapply same_front_trans|lia|by eapply tree_closed|done|].
  exists bs2. split; [done|]. split; [done|]. intros x y. rewrite Hf2, Hf1.
  assert (Hx : tree bs0 r x /\ ~ tree bs0 s x <-> x = r \/ tree bs0 p x /\ ~ tree bs0 s x).
  { split.
    - intros [H1 H2]. destruct (decide (x = r)); [by left|right]. split; [by apply (tree_parent bs0 r)|done].
    - intros [->|[H1 H2]]; [|split; [by apply rtc_l with p|done]]. split; [apply rtc_refl|]. intros H1.
      by apply Hrne, (tree_antisym bs0). }
  rewrite Hx. tauto.
Qed.
End walk.

Section frontier.
Context (g : graph) (bs0 : list nir_block) (Hg : cfg_ok g) (Hd : dom_tree g bs0) (Hstart : g !! nir_start_block = Some []).
Let Ht : tree_ok bs0 := inv_tree g bs0 (dt_inv g bs0 Hd).

Lemma idom_reachable x : is_Some (idom bs0 x) <-> reachable g x.
Proof using Hd. split; [apply (inv_reach g bs0 (dt_inv g bs0 Hd))|apply Hd]. Qed.

Lemma strictly_dominates j s x : j <> nir_start_block -> idom bs0 j = Some s -> tree bs0 s x <-> dominates g x j /\ x <> j.
Proof using Hd.
  intros Hj Hs. assert (Rj : reachable g j) by (apply idom_reachable; by eexists).
  rewrite <- (dt_tree g bs0 Hd j x Rj). pose proof (tree_down bs0 Ht j s Hj Hs). split.
  - intros Hx. split; [by apply rtc_l with s|]. apply (tree_le bs0 s x Ht) in Hx. lia.
  - intros [Hx Hne]. by apply (tree_parent bs0 j).
Qed.

(** The immediate dominator is an ancestor of each reachable predecessor. *)
Lemma pred_tree_idom p j s : edge g p j -> reachable g p -> j <> nir_start_block -> idom bs0 j = Some s -> tree bs0 p s.
Proof using Hd.
  intros He Rp Hj Hs. apply (dt_tree g bs0 Hd p s Rp). destruct (proj1 (strictly_dominates j s s Hj Hs)) as [H1 H2]; [apply rtc_refl|]. by apply (dominates_pred g s j).
Qed.

(** A block with one predecessor is in no frontier. *)
Lemma single_pred_frontier x j ps : g !! j = Some ps -> length ps <= 1 -> ~ in_frontier g x j.
Proof using Hg Hd Hstart.
  intros Eps Hlen [(p & (ps' & Eps' & Hp) & Rp & Hx) Hns]. rewrite Eps in Eps'. injection Eps' as <-.
  destruct ps as [|q [|]]; [by apply not_elem_of_nil in Hp| |cbn in Hlen; lia]. apply list_elem_of_singleton in Hp as ->.
  assert (He : edge g q j) by (exists [q]; by rewrite list_elem_of_singleton).
  destruct (decide (j = nir_start_block)) as [->|Hj]; [congruence|].
  assert (Hxj : dominates g x j).
  { apply dominates_preds; [done|]. intros p (ps & Eps' & Hp) _. rewrite Eps in Eps'. injection Eps' as <-.
    by apply list_elem_of_singleton in Hp as ->. }
  destruct (decide (x = j)) as [->|]; [|by destruct Hns].
  destruct (cfg_order g Hg j (reachable_step g q j Rp He) Hj) as (p & (ps & Eps' & Hp) & Hlt & _).
  rewrite Eps in Eps'. injection Eps' as <-. apply list_elem_of_singleton in Hp as ->.
  apply (dt_tree g bs0 Hd q j Rp), (tree_le bs0 q j Ht) in Hx. lia.
Qed.

Lemma calc_dom_frontier_ok j bs : j < length g -> same_front bs0 bs ->
  exists bs', calc_dom_frontier j bs = Some bs' /\ same_front bs0 bs' /\
  forall x y, y ∈ front bs' x <-> y ∈ front bs x \/ (y = j /\ in_frontier g x j).
Proof using Hg Hd Hstart.
  intros Hj Hs. pose proof (inv_frame g bs0 (dt_inv g bs0 Hd)) as [Hlen Hfr].
  destruct (lookup_lt_is_Some_2 bs j) as [blk E]; [rewrite (same_front_length bs0 bs Hs); lia|].
  destruct (same_front_lookup bs0 bs j blk Hs E) as (blk0 & E0 & Eblk). destruct (Hfr j blk0 E0) as [_ Hps].
  assert (Epreds : predecessors blk = predecessors blk0) by (rewrite Eblk; done).
  unfold calc_dom_frontier. rewrite E. cbn [mbind option_bind]. rewrite Epreds.
  destruct (Nat.ltb_spec 1 (length (predecessors blk0))) as [Hmany|Hone].
  2:{ exists bs. split; [done|]. split; [done|]. intros x y. pose proof (single_pred_frontier x j _ Hps Hone). tauto. }
  destruct (decide (j = nir_start_block)) as [->|Hj0].
  { rewrite Hstart in Hps. injection Hps as Hnil. rewrite <- Hnil in Hmany. cbn in Hmany. lia. }
  assert (Ei : imm_dom blk = idom bs0 j) by (rewrite <- (same_front_idom bs0 bs j Hs); unfold idom; by rewrite E).
  rewrite Ei.
  match goal with |- context [for_each ?b ?l bs] => destruct (for_each_rule (fun pre bs' => same_front bs0 bs' /\
    forall x y, y ∈ front bs' x <-> y ∈ front bs x \/
      (y = j /\ (exists p, p ∈ pre /\ reachable g p /\ dominates g x p) /\ ~ (dominates g x j /\ x <> j))) b l bs)
    as (bs' & E' & Hs' & Hf') end.
  - split; [done|]. intros x y. split; [auto|]. intros [?|(_ & (p & Hp & _) & _)]; [done|by apply not_elem_of_nil in Hp].
  - intros pre p post bs1 Eps [Hs1 Hf1]. assert (He : edge g p j).
    { exists (predecessors blk0). split; [done|]. rewrite Eps, elem_of_app, elem_of_cons. auto. }
    pose proof (cfg_preds g Hg p j He) as Hp.
    destruct (lookup_lt_is_Some_2 bs1 p) as [b Eb]; [rewrite (same_front_length bs0 bs1 Hs1); lia|].
    rewrite Eb. cbn [mbind option_bind].
    assert (Eib : imm_dom b = idom bs0 p) by (rewrite <- (same_front_idom bs0 bs1 p Hs1); unfold idom; by rewrite Eb).
    rewrite Eib. destruct (idom bs0 p) as [d|] eqn:Edp.
    + assert (Rp : reachable g p) by (apply idom_reachable; rewrite Edp; by eexists).
      destruct (proj2 (idom_reachable j) (reachable_step g p j Rp He)) as [s Es]. rewrite Es.
      destruct (frontier_loop_ok bs0 Ht j s (S (S (length bs1))) p bs1 Hs1) as (bs2 & E2 & Hs2 & Hf2).
      * rewrite (same_front_length bs0 bs1 Hs1). lia.
      * rewrite Edp. by eexists.
      * by apply (pred_tree_idom p j).
      * exists bs2. split; [done|]. split; [done|]. intros x y. rewrite Hf2, Hf1, (dt_tree g bs0 Hd p x Rp), (strictly_dominates j s x Hj0 Es).
        setoid_rewrite elem_of_app. setoid_rewrite list_elem_of_singleton. naive_solver.
    + exists bs1. split; [done|]. split; [done|]. assert (~ reachable g p).
      { intros [q Hq]%idom_reachable. congruence. }
      intros x y. rewrite Hf1. setoid_rewrite elem_of_app. setoid_rewrite list_elem_of_singleton. naive_solver.
  - exists bs'. split; [done|]. split; [done|]. intros x y. rewrite Hf'. unfold in_frontier, edge. naive_solver.
Qed.

Lemma calc_dom_frontiers_ok : (forall x, front bs0 x = ∅) ->
  exists bs', foreach_block calc_dom_frontier bs0 bs0 = Some bs' /\ same_front bs0 bs' /\
  forall x y, y ∈ front bs' x <-> in_frontier g x y.
Proof using Hg Hd Hstart.
  intros H0. pose proof (inv_frame g bs0 (dt_inv g bs0 Hd)) as [Hlen _].
  destruct (foreach_block_rule (fun j bs' => same_front bs0 bs' /\ forall x y, y ∈ front bs' x <-> y < j /\ in_frontier g x y)
    calc_dom_frontier bs0 bs0) as (bs' & E & Hs & Hf).
  - split; [done|]. intros x y. rewrite H0, elem_of_empty. lia.
  - intros j bs Hj [Hs Hf]. destruct (calc_dom_frontier_ok j bs) as (bs' & E & Hs' & Hf'); [lia|done|].
    exists bs'. split; [done|]. split; [done|]. intros x y. rewrite Hf', Hf.
    split; [intros [[? ?]|[-> ?]]; auto with lia|]. intros [Hy Hin]. destruct (decide (y = j)) as [->|]; [auto|left; split; [lia|done]].
  - exists bs'. split; [done|]. split; [done|]. intros x y. rewrite Hf. split; [tauto|]. intros Hin. split; [|done].
    destruct Hin as [(p & (ps & Eps & _) & _) _]. rewrite Hlen. by eapply lookup_lt_Some.
Qed.
End frontier.
