(* ===== verification/NirDomForest.v ===== *)
(** * Forests, depth-first numbering and Euler tours

    A tree given by the parent of each node is unfolded into a forest (first child, next
    sibling); the numbering of [calc_dfs_indices] and the tour of
    [generate_euler_tour] are functions on it.  Intervals of the numbering nest exactly along
    the tree, and the tour between two nodes passes through their nearest common
    ancestor. *)

From Stdlib Require Import ZArith Lia.
From stdpp Require Import base list gmap numbers option relations.
From S2P Require Import Prelude.

Inductive dforest := FNil | FNode (p : nat) (children rest : dforest).

Fixpoint roots (F : dforest) : list nat :=
  match F with FNil => [] | FNode p _ R => p :: roots R end.
Fixpoint nodes (F : dforest) : list nat :=
  match F with FNil => [] | FNode p C R => p :: nodes C ++ nodes R end.
Definition size (F : dforest) : nat := length (nodes F).

Lemma size_node p C R : size (FNode p C R) = S (size C + size R).
Proof. unfold size. cbn. by rewrite length_app. Qed.

(** The two numbers of each node, numbering from [i] *)
Fixpoint times (i : Z) (F : dforest) : list (nat * (Z * Z)) :=
  match F with
  | FNil => []
  | FNode p C R =>
      let j := (i + 1 + 2 * Z.of_nat (size C))%Z in
      (p, (i, j)) :: times (i + 1) C ++ times (j + 1) R
  end.

(** What a tour of the children of [q] visits *)
Fixpoint tour (q : nat) (F : dforest) : list nat :=
  match F with
  | FNil => []
  | FNode p C R => p :: tour p C ++ q :: tour q R
  end.

Lemma tour_length q F : length (tour q F) = 2 * size F.
Proof.
  revert q. induction F as [|p C IHC R IHR]; intros q; [done|]. rewrite size_node. cbn.
  rewrite length_app. cbn. rewrite IHC, IHR. lia.
Qed.

Lemma times_fst i F : (times i F).*1 = nodes F.
Proof.
  revert i. induction F as [|p C IHC R IHR]; intros i; [done|]. cbn. by rewrite fmap_app, IHC, IHR.
Qed.

Lemma times_bounds i F x a b : (x, (a, b)) ∈ times i F -> (i <= a < b /\ b < i + 2 * Z.of_nat (size F))%Z.
Proof.
  revert i. induction F as [|p C IHC R IHR]; intros i; cbn [times]; [by intros ?%not_elem_of_nil|].
  rewrite size_node. intros [Heq|[H|H]%elem_of_app]%elem_of_cons.
  - injection Heq as -> -> ->. lia.
  - apply IHC in H. lia.
  - apply IHR in H. lia.
Qed.

(** The intervals are nested or disjoint, and begin at different numbers. *)
Lemma times_laminar i F x y a b c d : (x, (a, b)) ∈ times i F -> (y, (c, d)) ∈ times i F -> (a <= c)%Z -> ((c < b -> d <= b) /\ (a = c -> x = y))%Z.
Proof.
  revert i. induction F as [|p C IHC R IHR]; intros i; cbn [times]; [by intros ?%not_elem_of_nil|].
  intros [Hx|[Hx|Hx]%elem_of_app]%elem_of_cons [Hy|[Hy|Hy]%elem_of_app]%elem_of_cons Hac; try (injection Hx as -> -> ->); try (injection Hy as -> -> ->); [done|..];
    try (by apply (IHC _ Hx Hy Hac)); try (by apply (IHR _ Hx Hy Hac)); try (apply times_bounds in Hx); try (apply times_bounds in Hy); split; lia.
Qed.

Lemma times_in i F x t : (x, t) ∈ times i F -> x ∈ nodes F.
Proof. intros H. rewrite <- (times_fst i F). by apply (list_elem_of_fmap_2 fst _ (x, t)). Qed.

Lemma in_times i F x : x ∈ nodes F -> exists t, (x, t) ∈ times i F.
Proof. rewrite <- (times_fst i F). intros ([y t] & -> & H)%list_elem_of_fmap. by exists t. Qed.

Section tree.
Context (par : nat -> option nat) (n : nat).
Context (Hdown : forall b p, par b = Some p -> p < b) (Hrange : forall b p, par b = Some p -> b < n).

Definition anc : nat -> nat -> Prop := rtc (fun b p => par b = Some p).
Definition kids (p : nat) : list nat := filter (fun b => par b = Some p) (seq 0 n).

Fixpoint unfolds (F : dforest) : Prop :=
  match F with FNil => True | FNode p C R => roots C = kids p /\ unfolds C /\ unfolds R end.

Lemma elem_of_kids c p : c ∈ kids p <-> par c = Some p.
Proof using Hrange.
  unfold kids. rewrite list_elem_of_filter, elem_of_seq. split; [tauto|]. intros H. split; [done|]. apply Hrange in H. lia.
Qed.

Lemma anc_le x a : anc x a -> a <= x.
Proof using Hdown. induction 1 as [|x p a Hp _ IH]; [done|]. apply Hdown in Hp. lia. Qed.

Lemma anc_antisym x y : anc x y -> anc y x -> x = y.
Proof using Hdown. intros H1%anc_le H2%anc_le. lia. Qed.

Lemma anc_inv_r y p : anc y p <-> y = p \/ exists c, c ∈ kids p /\ anc y c.
Proof using Hrange.
  setoid_rewrite elem_of_kids. split.
  - intros H. apply rtc_inv_r in H as [->|(c & H & Hc)]; [by left|right; eauto].
  - intros [->|(c & Hc & H)]; [apply rtc_refl|]. by eapply rtc_r.
Qed.

(** Two roots are unrelated. *)
Definition unrelated (l : list nat) : Prop := NoDup l /\ forall r r', r ∈ l -> r' ∈ l -> anc r r' -> r = r'.

Lemma kids_unrelated p : unrelated (kids p).
Proof using Hdown Hrange.
  split; [apply NoDup_filter, NoDup_seq|]. intros r r' Hr%elem_of_kids Hr'%elem_of_kids H.
  apply rtc_inv in H as [->|(q & Hq & H)]; [done|]. assert (p = q) as <- by congruence.
  apply anc_le in H. apply Hdown in Hr'. lia.
Qed.

Lemma unfold_exists l : exists F, roots F = l /\ unfolds F.
Proof using Hdown Hrange.
  assert (Hone : forall k p, n - p <= k -> exists C, roots C = kids p /\ unfolds C).
  { induction k as [|k IH]; intros p Hp.
    - exists FNil. split; [|done]. cbn. symmetry. destruct (kids p) as [|c l'] eqn:El; [done|exfalso]. assert (Hc : c ∈ kids p) by (rewrite El; left). apply elem_of_kids in Hc.
      apply Hdown in Hc as ?. apply Hrange in Hc. lia.
    - assert (H : forall l, (forall c, c ∈ l -> par c = Some p) -> exists C, roots C = l /\ unfolds C).
      { intros l'. induction l' as [|c l' IHl]; intros Hl; [by exists FNil|].
        destruct IHl as (R & HR & UR); [intros c' ?; apply Hl, elem_of_cons; auto|].
        assert (par c = Some p) by (apply Hl, list_elem_of_here).
        destruct (IH c) as (C & HC & UC).
        { apply Hdown in H as ?. apply Hrange in H. lia. }
        exists (FNode c C R). cbn. by rewrite HR. }
      apply H. intros c. apply elem_of_kids. }
  induction l as [|p l (R & HR & UR)]; [by exists FNil|]. destruct (Hone (n - p) p ltac:(lia)) as (C & HC & UC).
  exists (FNode p C R). cbn. by rewrite HR.
Qed.

Lemma elem_of_nodes F y : unfolds F -> y ∈ nodes F <-> exists r, r ∈ roots F /\ anc y r.
Proof using Hrange.
  induction F as [|p C IHC R IHR]; cbn [unfolds nodes roots].
  { intros _. split; [by intros ?%not_elem_of_nil|by intros (r & ?%not_elem_of_nil & _)]. }
  intros (HC & UC & UR). rewrite elem_of_cons, elem_of_app, IHC, IHR by done. rewrite HC.
  setoid_rewrite elem_of_cons. pose proof (anc_inv_r y p) as Hp. split.
  - intros [->|[H|(r & Hr & H)]]; [exists p; split; [auto|apply rtc_refl]| |eauto].
    exists p. split; [auto|]. apply Hp. auto.
  - intros (r & [->|Hr] & H); [|eauto]. apply Hp in H as [->|H]; eauto.
Qed.

(** The subtree of a node of the forest *)
Lemma elem_of_subtree p C y : unfolds C -> roots C = kids p -> y ∈ p :: nodes C <-> anc y p.
Proof using Hrange. intros UC HC. rewrite elem_of_cons, (elem_of_nodes C y UC), HC. symmetry. apply anc_inv_r. Qed.

Lemma unrelated_cons p l : unrelated (p :: l) -> unrelated l /\ forall y r, r ∈ l -> anc y p -> anc y r -> False.
Proof using Hdown.
  intros [Hnd Hun]. apply NoDup_cons in Hnd as [Hp Hnd]. split.
  - split; [done|]. intros r r' Hr Hr'. apply Hun; by right.
  - intros y r Hr Hyp Hyr.
    assert (Hlin : anc p r \/ anc r p).
    { clear -Hyp Hyr. revert r Hyr. induction Hyp as [y|y q p Hq Hp IH]; intros r Hyr; [by left|].
      apply rtc_inv in Hyr as [<-|(q' & Hq' & H)]; [right; by eapply rtc_l|]. assert (q = q') as <- by congruence. auto. }
    assert (p = r) as <-; [|done].
    destruct Hlin as [H|H]; [apply Hun; [by left|by right|done]|symmetry; apply Hun; [by right|by left|done]].
Qed.

Lemma nodes_NoDup F : unfolds F -> unrelated (roots F) -> NoDup (nodes F).
Proof using Hdown Hrange.
  induction F as [|p C IHC R IHR]; cbn [unfolds nodes roots]; [intros; constructor|].
  intros (HC & UC & UR) Hun. destruct (unrelated_cons p (roots R) Hun) as [HunR Hdis].
  assert (Hsep : forall y, y ∈ p :: nodes C -> y ∈ nodes R -> False).
  { intros y Hy%(elem_of_subtree p C y UC HC) (r & Hr & H)%(elem_of_nodes R y UR). eauto. }
  apply NoDup_cons. split.
  - rewrite elem_of_app. intros [H|H]; [|by apply (Hsep p); [left|]].
    apply (elem_of_nodes C p UC) in H as (r & Hr & H). rewrite HC, elem_of_kids in Hr. apply Hdown in Hr. apply anc_le in H. lia.
  - apply NoDup_app. split; [apply IHC; [done|rewrite HC; apply kids_unrelated]|]. split; [|by apply IHR].
    intros y Hy Hy'. apply (Hsep y); [by right|done].
Qed.

(** Intervals nest exactly when the nodes are related. *)
Lemma times_nested F i x y a b c d : unfolds F -> NoDup (nodes F) ->
  (x, (a, b)) ∈ times i F -> (y, (c, d)) ∈ times i F -> (a <= c /\ d <= b)%Z <-> anc y x.
Proof using Hdown Hrange.
  revert i. induction F as [|p C IHC R IHR]; intros i; cbn [unfolds nodes times]; [by intros _ _ ?%not_elem_of_nil|].
  intros (HC & UC & UR) (Hp & Hnd)%NoDup_cons Hx Hy. apply NoDup_app in Hnd as (HndC & Hsep & HndR).
  rewrite elem_of_app in Hp. assert (Hsub : forall y, anc y p <-> y = p \/ y ∈ nodes C).
  { intros z. rewrite <- (elem_of_subtree p C z UC HC). apply elem_of_cons. }
  assert (HR : forall y x, x ∈ nodes R -> anc y x -> y ∈ nodes R).
  { intros z z'. rewrite !(elem_of_nodes R _ UR). intros (r & Hr & H) H'. exists r. split; [done|]. by etransitivity. }
  assert (HC' : forall y x, x ∈ nodes C -> anc y x -> y ∈ nodes C).
  { intros z z'. rewrite !(elem_of_nodes C _ UC). intros (r & Hr & H) H'. exists r. split; [done|]. by etransitivity. }
  apply elem_of_cons in Hx as [Hx|[Hx|Hx]%elem_of_app]; apply elem_of_cons in Hy as [Hy|[Hy|Hy]%elem_of_app];
    try (injection Hx as -> -> ->); try (injection Hy as -> -> ->);
    repeat match goal with
    | H : (?z, _) ∈ times _ ?G |- _ =>
        lazymatch goal with
        | _ : z ∈ nodes G |- _ => fail
        | |- _ => pose proof (times_in _ _ _ _ H); pose proof (times_bounds _ _ _ _ _ H)
        end
    end.
  - split; [intros _; apply rtc_refl|lia].
  - split; [intros _; apply Hsub; auto|lia].
  - split; [lia|]. intros [->|H']%Hsub; exfalso; [tauto|by eapply Hsep].
  - split; [lia|]. intros H'. exfalso. apply Hp. left. by apply (HC' p x).
  - by apply (IHC (i + 1)%Z).
  - split; [lia|]. intros H'. exfalso. apply (Hsep y); [by apply (HC' y x)|done].
  - split; [lia|]. intros H'. exfalso. apply Hp. right. by apply (HR p x).
  - split; [lia|]. intros H'. exfalso. apply (Hsep y); [done|by apply (HR y x)].
  - by apply (IHR (i + 1 + 2 * Z.of_nat (size C) + 1)%Z).
Qed.
(** ** Tours *)

(** Position [t] of a tour that starts at position [i] *)
Definition visit (q : nat) (F : dforest) (i t : Z) (v : nat) : Prop :=
  (i <= t)%Z /\ tour q F !! Z.to_nat (t - i) = Some v.

Lemma visit_bounds q F i t v : visit q F i t v -> (i <= t < i + 2 * Z.of_nat (size F))%Z.
Proof using. intros [Ht H%lookup_lt_Some]. rewrite tour_length in H. lia. Qed.

Lemma visit_node q p C R i t v : visit q (FNode p C R) i t v <->
  (t = i /\ v = p) \/ visit p C (i + 1) t v \/ (t = i + 1 + 2 * Z.of_nat (size C) /\ v = q)%Z
  \/ visit q R (i + 1 + 2 * Z.of_nat (size C) + 1) t v.
Proof using.
  unfold visit. cbn [tour]. set (j := (i + 1 + 2 * Z.of_nat (size C))%Z).
  assert (Hlen : length (tour p C) = Z.to_nat (j - i - 1)) by (rewrite tour_length; lia).
  destruct (decide (t < i)%Z); [lia|]. destruct (decide (t = i)) as [->|].
  { rewrite Z.sub_diag. cbn. split; [intros [_ [= ->]]; auto|]. intros [[_ ->]|H]; [done|lia]. }
  replace (Z.to_nat (t - i)) with (S (Z.to_nat (t - (i + 1)))) by lia. rewrite lookup_cons.
  destruct (decide (t < j)%Z).
  { rewrite lookup_app_l by lia. split; [intros [_ H]; right; left; split; [lia|done]|].
    intros [H|[[_ H]|[H|H]]]; try lia. split; [lia|done]. }
  rewrite lookup_app_r by lia. rewrite Hlen. destruct (decide (t = j)) as [->|].
  { replace (_ - _)%nat with 0%nat by lia. cbn. split; [intros [_ [= ->]]; auto|].
    intros [H|[[_ H%lookup_lt_Some]|[[_ ->]|H]]]; [lia|lia|split; [lia|done]|lia]. }
  replace (Z.to_nat (t - (i + 1)) - Z.to_nat (j - i - 1))%nat with (S (Z.to_nat (t - (j + 1)))) by lia. rewrite lookup_cons.
  split; [intros [_ H]; right; right; right; split; [lia|done]|].
  intros [H|[[_ H%lookup_lt_Some]|[H|[_ H]]]]; [lia|lia|lia|split; [lia|done]].
Qed.

Lemma visit_in q F i t v : visit q F i t v -> v = q \/ v ∈ nodes F.
Proof using.
  revert q i. induction F as [|p C IHC R IHR]; intros q i; [by intros [_ H]|].
  rewrite visit_node. cbn [nodes]. rewrite elem_of_cons, elem_of_app.
  intros [[_ ->]|[H%IHC|[[_ ->]|H%IHR]]]; tauto.
Qed.

(** A node is visited at its first number. *)
Lemma visit_first q F i x a b : (x, (a, b)) ∈ times i F -> visit q F i a x.
Proof using.
  revert q i. induction F as [|p C IHC R IHR]; intros q i; cbn [times]; [by intros ?%not_elem_of_nil|].
  rewrite visit_node. intros [Heq|[H|H]%elem_of_app]%elem_of_cons; [|eauto..]. injection Heq as -> -> ->. auto.
Qed.

(** Between its two numbers, the tour is in the subtree of a node. *)
Lemma visit_subtree q F i x a b t v : unfolds F -> (x, (a, b)) ∈ times i F -> (a <= t < b)%Z -> visit q F i t v -> anc v x.
Proof using Hrange.
  revert q i. induction F as [|p C IHC R IHR]; intros q i; cbn [times unfolds]; [by intros _ ?%not_elem_of_nil|].
  intros (HC & UC & UR) Hx Ht. rewrite visit_node.
  apply elem_of_cons in Hx as [Heq|[Hx|Hx]%elem_of_app]; [injection Heq as -> -> ->|apply times_bounds in Hx as Hb..];
    intros [[Et ->]|[H|[[Et ->]|H]]]; try (apply visit_bounds in H as Hv); try lia.
  - apply rtc_refl.
  - apply (elem_of_subtree p C v UC HC). apply elem_of_cons. by eapply visit_in.
  - by apply (IHC p (i + 1)%Z).
  - by apply (IHR q (i + 1 + 2 * Z.of_nat (size C) + 1)%Z).
Qed.

(** Between the first visits of two nodes, a common ancestor of them is visited. *)
Lemma visit_common q F i x y a b c d : unfolds F -> (forall r, r ∈ roots F -> par r = Some q) ->
  (x, (a, b)) ∈ times i F -> (y, (c, d)) ∈ times i F -> (a <= c)%Z ->
  exists t v, (a <= t <= c)%Z /\ visit q F i t v /\ anc x v /\ anc y v.
Proof using Hrange.
  revert q i. induction F as [|p C IHC R IHR]; intros q i; cbn [times unfolds roots]; [by intros _ _ ?%not_elem_of_nil|].
  intros (HC & UC & UR) Hq Hx Hy Hle. set (j := (i + 1 + 2 * Z.of_nat (size C))%Z) in *.
  assert (Hsub : forall z s e, (z, (s, e)) ∈ times (i + 1) C -> anc z p).
  { intros z s e H%times_in. apply (elem_of_subtree p C z UC HC). by right. }
  assert (Hp : anc p q) by (apply rtc_once, Hq; left).
  assert (HR : forall z s e, (z, (s, e)) ∈ times (j + 1) R -> anc z q).
  { intros z s e H%times_in. apply (elem_of_nodes R z UR) in H as (r & Hr & H). eapply rtc_r; [done|]. apply Hq. by right. }
  setoid_rewrite visit_node.
  apply elem_of_cons in Hx as [Heq|[Hx|Hx]%elem_of_app]; apply elem_of_cons in Hy as [Heq'|[Hy|Hy]%elem_of_app];
    try (injection Heq as -> -> ->); try (injection Heq' as -> -> ->);
    try (apply times_bounds in Hx as Hbx); try (apply times_bounds in Hy as Hby); try lia.
  - exists i, p. split; [lia|]. split; [auto|]. split; apply rtc_refl.
  - exists i, p. split; [lia|]. split; [auto|]. split; [apply rtc_refl|eauto].
  - exists j, q. split; [lia|]. split; [auto|]. split; [done|eauto].
  - destruct (IHC p (i + 1)%Z) as (t & v & Ht & Hv & H); [done| |done..|].
    { intros r Hr. rewrite HC in Hr. by apply elem_of_kids. }
    exists t, v. auto.
  - exists j, q. split; [lia|]. split; [auto|]. split; [|eauto]. etransitivity; [eauto|done].
  - destruct (IHR q (j + 1)%Z) as (t & v & Ht & Hv & H); [done| |done..|].
    { intros r Hr. apply Hq. by right. }
    exists t, v. split; [done|]. split; [|done]. do 3 right. exact Hv.
Qed.
End tree.
