(* ===== verification/NirDomTree.v ===== *)
(** * The dominance tree in memory (nir_dominance.c: calc_dom_children, calc_dfs_indices)

    The arrays of children list exactly the blocks whose immediate dominator a block is, in
    order; the depth-first numbering of the tree is [times] of the forest it unfolds to. *)

From Stdlib Require Import ZArith Lia.
From stdpp Require Import base list gmap numbers option relations.
From S2P Require Import Prelude Rmq NirDominance NirDomPaths NirDomAlgo NirDomForest.

Implicit Types (bs : list nir_block).

(** ** Updates that keep a part of each block *)

Definition same_on {A} (f : nir_block -> A) bs bs' : Prop := forall x, f <$> bs' !! x = f <$> bs !! x.

Lemma same_on_refl {A} (f : nir_block -> A) bs : same_on f bs bs.
Proof. by intros x. Qed.

Lemma same_on_trans {A} (f : nir_block -> A) bs1 bs2 bs3 : same_on f bs1 bs2 -> same_on f bs2 bs3 -> same_on f bs1 bs3.
Proof. intros H1 H2 x. by rewrite H2, H1. Qed.

Lemma same_on_update {A} (f : nir_block -> A) p u bs bs' : update p u bs = Some bs' -> (forall b, f (u b) = f b) -> same_on f bs bs'.
Proof.
  intros E Hu x. rewrite (update_lookup _ _ _ _ x E). destruct (decide (x = p)); [|done].
  destruct (bs !! x); cbn; [by rewrite Hu|done].
Qed.

Lemma same_on_lookup {A} (f : nir_block -> A) bs bs' x b' : same_on f bs bs' -> bs' !! x = Some b' ->
  exists b, bs !! x = Some b /\ f b' = f b.
Proof. intros H E. specialize (H x). rewrite E in H. destruct (bs !! x) as [b|]; [|done]. exists b. split; [done|]. by injection H. Qed.

Lemma same_on_lookup_inv {A} (f : nir_block -> A) bs bs' x b : same_on f bs bs' -> bs !! x = Some b ->
  exists b', bs' !! x = Some b' /\ f b' = f b.
Proof. intros H E. specialize (H x). rewrite E in H. destruct (bs' !! x) as [b'|]; [|done]. exists b'. split; [done|]. by injection H. Qed.

Lemma same_on_length {A} (f : nir_block -> A) bs bs' : same_on f bs bs' -> length bs' = length bs.
Proof.
  intros H. apply Nat.le_antisymm; apply Nat.nlt_ge; intros Hlt; destruct (lookup_lt_is_Some_2 _ _ Hlt) as [b E].
  - apply (same_on_lookup _ _ _ _ _ H) in E as (b' & E & _). apply lookup_lt_Some in E. lia.
  - apply (same_on_lookup_inv _ _ _ _ _ H) in E as (b' & E & _). apply lookup_lt_Some in E. lia.
Qed.

(** Everything but the array of children *)
Definition core (b : nir_block) : nir_block := set_num_dom_children 0 (set_dom_children [] b).
(** Everything but the two numbers *)
Definition shape (b : nir_block) : nir_block := set_dom_pre_index 0 (set_dom_post_index 0 b).

Lemma core_imm_dom b b' : core b = core b' -> imm_dom b = imm_dom b'.
Proof. unfold core, set_num_dom_children, set_dom_children. cbn. congruence. Qed.

Lemma same_core_idom bs bs' x : same_on core bs bs' -> idom bs' x = idom bs x.
Proof.
  intros H. unfold idom. specialize (H x). destruct (bs' !! x), (bs !! x); try done. cbn. apply core_imm_dom, (inj Some). exact H.
Qed.

Lemma kids_S par j p : kids par (S j) p = kids par j p ++ (if decide (par j = Some p) then [j] else []).
Proof. unfold kids. rewrite seq_S, filter_app. cbn. by destruct (decide (par j = Some p)). Qed.

Lemma kids_length par j p : length (kids par j p) <= j.
Proof. unfold kids. etransitivity; [apply length_filter|]. by rewrite length_seq. Qed.

(** ** Children *)

Section children.
Context (bs0 : list nir_block).
Notation par := (idom bs0).
Notation n := (length bs0).
Context (Hpar : forall b p, par b = Some p -> p < n) (Hn : (Z.of_nat n < 2 ^ 32)%Z).
Context (H0 : forall p b, bs0 !! p = Some b -> num_dom_children b = 0%Z).

Local Open Scope Z_scope.

Lemma parent_block bs j d : same_on core bs0 bs -> par j = Some d -> exists b, bs !! d = Some b.
Proof using Hpar.
  intros Hs Hd. apply lookup_lt_is_Some_2. rewrite (same_on_length core bs0 bs Hs). by apply (Hpar j).
Qed.

Lemma block_parent bs j b : same_on core bs0 bs -> bs !! j = Some b -> imm_dom b = par j.
Proof using. intros Hs E. rewrite <- (same_core_idom bs0 bs j Hs). unfold idom. by rewrite E. Qed.

Lemma count_children_ok : exists bs, foreach_block count_child bs0 bs0 = Some bs /\ same_on core bs0 bs /\
  forall p b, bs !! p = Some b -> num_dom_children b = Z.of_nat (length (kids par n p)).
Proof using Hpar Hn H0.
  apply (foreach_block_rule (fun j bs => same_on core bs0 bs /\
    forall p b, bs !! p = Some b -> num_dom_children b = Z.of_nat (length (kids par j p)))).
  - split; [apply same_on_refl|]. intros p b E. rewrite (H0 p b E). done.
  - intros j bs Hj [Hs Hc]. unfold count_child.
    destruct (lookup_lt_is_Some_2 bs j) as [b E]; [by rewrite (same_on_length core bs0 bs Hs)|]. rewrite E. cbn [mbind option_bind].
    rewrite (block_parent bs j b Hs E). destruct (par j) as [d|] eqn:Ed.
    + destruct (parent_block bs j d Hs Ed) as [bd Eb]. rewrite Eb. cbn [mbind option_bind].
      destruct (update_ok d (set_num_dom_children (u32 (num_dom_children bd + 1))) bs) as [bs' Eu]; [by eapply lookup_lt_Some|].
      exists bs'. split; [done|]. split; [eapply same_on_trans; [done|by eapply same_on_update]|].
      intros p b' Eb'. rewrite (update_lookup _ _ _ _ p Eu) in Eb'. rewrite kids_S, Ed, length_app.
      pose proof (kids_length par j p). destruct (decide (p = d)) as [->|Hne].
      * rewrite Eb in Eb'. injection Eb' as <-. cbn [num_dom_children set_num_dom_children].
        rewrite (Hc d bd Eb), decide_True by done. cbn [length]. rewrite u32_small; lia.
      * rewrite decide_False by congruence. cbn [length]. rewrite (Hc p b' Eb'). lia.
    + exists bs. split; [done|]. split; [done|]. intros p b' E'. rewrite kids_S, Ed, decide_False by done.
      rewrite app_nil_r. by apply Hc.
Qed.

(** The capacity of the array *)
Definition capacity (k : Z) : Z := if k =? 0 then 0 else if k <=? 3 then 3 else k.

Lemma alloc_child_ok j bs b : bs !! j = Some b -> 0 <= num_dom_children b ->
  exists bs' b', alloc_children j bs = Some bs' /\ same_on core bs bs' /\ bs' !! j = Some b' /\
    num_dom_children b' = 0 /\ Z.of_nat (length (dom_children b')) = capacity (num_dom_children b) /\
    forall x, x <> j -> bs' !! x = bs !! x.
Proof using bs0.
  intros E Hk. unfold alloc_children, capacity. rewrite E. cbn [mbind option_bind].
  destruct (Z.eqb_spec (num_dom_children b) 0) as [Hz|Hnz].
  - destruct (update_ok j (set_dom_children []) bs) as [bs' Eu]; [by eapply lookup_lt_Some|]. rewrite Eu.
    exists bs', (set_dom_children [] b). split; [done|]. split; [by eapply same_on_update|].
    split; [rewrite (update_lookup _ _ _ _ j Eu), decide_True, E by done; done|]. split; [done|]. split; [done|].
    intros x Hx. by rewrite (update_lookup _ _ _ _ x Eu), decide_False by done.
  - set (cells := if num_dom_children b <=? 3 then _ else _).
    destruct (update_ok j (set_dom_children cells) bs) as [bs1 E1]; [by eapply lookup_lt_Some|]. rewrite E1. cbn [mbind option_bind].
    destruct (update_ok j (set_num_dom_children 0) bs1) as [bs2 E2].
    { rewrite (update_length _ _ _ _ E1). by eapply lookup_lt_Some. }
    rewrite E2. exists bs2, (set_num_dom_children 0 (set_dom_children cells b)).
    split; [done|]. split; [eapply same_on_trans; by eapply same_on_update|].
    split; [by rewrite (update_lookup _ _ _ _ j E2), (update_lookup _ _ _ _ j E1), !decide_True, E by done|].
    split; [done|]. split.
    + cbn [dom_children set_num_dom_children set_dom_children]. subst cells. destruct (_ <=? 3); rewrite length_replicate; lia.
    + intros x Hx. by rewrite (update_lookup _ _ _ _ x E2), (update_lookup _ _ _ _ x E1), !decide_False by done.
Qed.

Lemma alloc_all_ok bs1 : same_on core bs0 bs1 ->
  (forall p b, bs1 !! p = Some b -> num_dom_children b = Z.of_nat (length (kids par n p))) ->
  exists bs, foreach_block alloc_children bs1 bs1 = Some bs /\ same_on core bs0 bs /\
  forall p b, bs !! p = Some b -> num_dom_children b = 0 /\
    Z.of_nat (length (kids par n p)) <= Z.of_nat (length (dom_children b)).
Proof using.
  intros Hs1 Hc. destruct (foreach_block_rule (fun j bs => same_on core bs1 bs /\
    (forall p, (j <= p)%nat -> bs !! p = bs1 !! p) /\
    forall p b, (p < j)%nat -> bs !! p = Some b -> num_dom_children b = 0 /\
      Z.of_nat (length (kids par n p)) <= Z.of_nat (length (dom_children b))) alloc_children bs1 bs1) as (bs & E & Hs & _ & H).
  - split; [apply same_on_refl|]. split; [done|lia].
  - intros j bs Hj (Hs & Hrest & H). destruct (lookup_lt_is_Some_2 bs1 j Hj) as [b E1].
    assert (E : bs !! j = Some b) by (by rewrite Hrest). pose proof (Hc j b E1) as Hnum.
    destruct (alloc_child_ok j bs b E) as (bs' & b' & E' & Hs' & Eb' & Hz & Hcap & Hx); [lia|].
    exists bs'. split; [done|]. split; [by eapply same_on_trans|]. split.
    + intros p Hp. rewrite Hx by lia. apply Hrest. lia.
    + intros p b2 Hp Eb2. destruct (decide (p = j)) as [->|]; [|rewrite Hx in Eb2 by done; apply H; [lia|done]].
      rewrite Eb' in Eb2. injection Eb2 as <-. split; [done|]. rewrite Hcap, <- Hnum. unfold capacity.
      destruct (Z.eqb_spec (num_dom_children b) 0); [lia|]. destruct (Z.leb_spec (num_dom_children b) 3); lia.
  - exists bs. split; [done|]. split; [by eapply same_on_trans|]. intros p b Eb. apply H; [|done].
    apply lookup_lt_Some in Eb. by rewrite (same_on_length core bs1 bs Hs) in Eb.
Qed.

(** The array of [p] starts with the blocks [l]. *)
Definition lists_children (b : nir_block) (l : list nat) : Prop :=
  num_dom_children b = Z.of_nat (length l) /\
  forall i c, l !! i = Some c -> load (dom_children b) (Z.of_nat i) = Some c.

Lemma add_child_ok bs2 : same_on core bs0 bs2 ->
  (forall p b, bs2 !! p = Some b -> num_dom_children b = 0 /\
    Z.of_nat (length (kids par n p)) <= Z.of_nat (length (dom_children b))) ->
  exists bs, foreach_block add_dom_child bs2 bs2 = Some bs /\ same_on core bs0 bs /\
  forall p b, bs !! p = Some b -> lists_children b (kids par n p).
Proof using Hpar Hn.
  intros Hs2 Hc.
  destruct (foreach_block_rule (fun j bs => same_on core bs0 bs /\
    forall p b, bs !! p = Some b -> lists_children b (kids par j p) /\
      Z.of_nat (length (kids par n p)) <= Z.of_nat (length (dom_children b))) add_dom_child bs2 bs2) as (bs & E & Hs & H).
  - split; [done|]. intros p b E. destruct (Hc p b E) as [Hz Hcap]. split; [|done]. split; [done|]. intros i c Hi. done.
  - intros j bs Hj [Hs H]. unfold add_dom_child. rewrite (same_on_length core bs0 bs2 Hs2) in Hj.
    destruct (lookup_lt_is_Some_2 bs j) as [b E]; [by rewrite (same_on_length core bs0 bs Hs)|]. rewrite E. cbn [mbind option_bind].
    rewrite (block_parent bs j b Hs E). destruct (par j) as [d|] eqn:Ed.
    2:{ exists bs. split; [done|]. split; [done|]. intros p b' E'. rewrite kids_S, Ed, decide_False, app_nil_r by done. by apply H. }
    destruct (parent_block bs j d Hs Ed) as [bd Eb]. rewrite Eb. cbn [mbind option_bind].
    destruct (H d bd Eb) as [[Hnum Hl] Hcap].
    assert (Hlt : Z.of_nat (length (kids par j d)) < Z.of_nat (length (kids par n d))).
    { enough (length (kids par (S j) d) <= length (kids par n d))%nat as Hle.
      { rewrite kids_S, Ed, decide_True, length_app in Hle by done. cbn in Hle. lia. }
      unfold kids. replace n with (S j + (n - S j))%nat by lia. rewrite (seq_app (S j)), filter_app, length_app. lia. }
    destruct (cell_store_ok (dom_children bd) (num_dom_children bd) j) as [cells Ec]; [lia|]. rewrite Ec. cbn [mbind option_bind].
    destruct (update_ok d (set_dom_children cells) bs) as [bs3 E3]; [by eapply lookup_lt_Some|]. rewrite E3. cbn [mbind option_bind].
    destruct (update_ok d (set_num_dom_children (u32 (num_dom_children bd + 1))) bs3) as [bs4 E4].
    { rewrite (update_length _ _ _ _ E3). by eapply lookup_lt_Some. }
    exists bs4. split; [done|]. split.
    { eapply same_on_trans; [exact Hs|]. eapply same_on_trans; by eapply same_on_update. }
    intros p b' Eb'. rewrite (update_lookup _ _ _ _ p E4), (update_lookup _ _ _ _ p E3) in Eb'.
    rewrite kids_S, Ed. destruct (decide (p = d)) as [->|Hne].
    2:{ rewrite decide_False, app_nil_r by congruence. by apply H. }
    rewrite Eb in Eb'. injection Eb' as <-. rewrite decide_True by done. pose proof (kids_length par j d).
    split; [|cbn [dom_children set_num_dom_children set_dom_children]; by rewrite (store_length _ _ _ _ Ec)].
    split; cbn [num_dom_children dom_children set_num_dom_children set_dom_children].
    { rewrite length_app, u32_small; cbn [length]; lia. }
    intros i c. rewrite (load_store _ _ _ _ (Z.of_nat i) Ec), Hnum.
    destruct (decide (Z.of_nat i = Z.of_nat (length (kids par j d)))) as [Hi|Hi].
    + apply Nat2Z.inj in Hi as ->. by rewrite list_lookup_middle.
    + intros Hlk. apply Hl. apply lookup_snoc_Some in Hlk as [[_ ?]|[? _]]; [done|lia].
  - rewrite (same_on_length core bs0 bs2 Hs2) in *. exists bs. split; [done|]. split; [done|]. intros p b E'. by apply H.
Qed.

Lemma calc_dom_children_ok : exists bs, calc_dom_children bs0 = Some bs /\ same_on core bs0 bs /\
  forall p b, bs !! p = Some b -> lists_children b (kids par n p).
Proof using Hpar Hn H0.
  unfold calc_dom_children. destruct count_children_ok as (bs1 & -> & Hs1 & Hc1). cbn [mbind option_bind].
  destruct (alloc_all_ok bs1 Hs1 Hc1) as (bs2 & -> & Hs2 & Hc2). cbn [mbind option_bind]. by apply add_child_ok.
Qed.
End children.

(** ** Numbering *)

Lemma update_alter p f bs : p < length bs -> update p f bs = Some (alter f p bs).
Proof.
  intros Hp. destruct (update_ok p f bs Hp) as [bs' E]. rewrite E. f_equal. apply list_eq. intros x.
  rewrite (update_lookup _ _ _ _ x E). destruct (decide (x = p)) as [->|].
  - by rewrite list_lookup_alter_eq.
  - by rewrite list_lookup_alter_ne.
Qed.

(** The loop over the array of children is a loop over the children. *)
Lemma for_each_children {St : Type} (f : nat -> St -> option St) b l s : lists_children b l ->
  for_each (fun i st => c ← load (dom_children b) i; f c st) (seqZ 0 (num_dom_children b)) s = for_each f l s.
Proof.
  intros [-> Hl]. cut (forall post pre s, l = pre ++ post ->
    for_each (fun i st => c ← load (dom_children b) i; f c st) (seqZ (Z.of_nat (length pre)) (Z.of_nat (length post))) s = for_each f post s).
  { intros H. by apply (H l [] s). }
  intros post. induction post as [|c post IH]; intros pre s' E; [done|].
  rewrite seqZ_cons by (cbn; lia). cbn [for_each length]. rewrite (Hl (length pre) c) by (rewrite E; by apply list_lookup_middle).
  cbn [mbind option_bind]. destruct (f c s') as [s2|]; [|done]. cbn [mbind option_bind].
  rewrite <- (IH (pre ++ [c]) s2) by (rewrite <- app_assoc; done). rewrite length_app. cbn [length].
  f_equal. f_equal; lia.
Qed.

(** The numbers [calc_dfs_indices] assigns *)
Fixpoint number (i : Z) (F : dforest) bs : list nir_block :=
  match F with
  | FNil => bs
  | FNode p C R =>
      let j := (i + 1 + 2 * Z.of_nat (size C))%Z in
      number (j + 1) R (alter (set_dom_post_index j) p (number (i + 1) C (alter (set_dom_pre_index i) p bs)))
  end.

Lemma same_shape_alter p u bs : (forall b, shape (u b) = shape b) -> same_on shape bs (alter u p bs).
Proof.
  intros Hu x. destruct (decide (x = p)) as [->|]; [|by rewrite list_lookup_alter_ne].
  rewrite list_lookup_alter_eq. destruct (bs !! p); cbn; [by rewrite Hu|done].
Qed.

Lemma number_shape i F bs : same_on shape bs (number i F bs).
Proof.
  revert i bs. induction F as [|p C IHC R IHR]; intros i bs; [done|]. cbn [number].
  eapply same_on_trans; [|apply IHR]. eapply same_on_trans; [|by apply same_shape_alter].
  eapply same_on_trans; [|apply IHC]. by apply same_shape_alter.
Qed.

Lemma number_outside i F bs x : x ∉ nodes F -> number i F bs !! x = bs !! x.
Proof.
  revert i bs. induction F as [|p C IHC R IHR]; intros i bs; [done|]. cbn [number nodes].
  rewrite elem_of_cons, elem_of_app. intros Hx. rewrite IHR by tauto. rewrite list_lookup_alter_ne by (intros ->; tauto).
  rewrite IHC by tauto. by rewrite list_lookup_alter_ne by (intros ->; tauto).
Qed.

Lemma number_inside i F bs x a b : NoDup (nodes F) -> (x, (a, b)) ∈ times i F ->
  number i F bs !! x = (fun blk => set_dom_post_index b (set_dom_pre_index a blk)) <$> bs !! x.
Proof.
  revert i bs. induction F as [|p C IHC R IHR]; intros i bs; cbn [nodes times number]; [by intros _ ?%not_elem_of_nil|].
  rewrite NoDup_cons, NoDup_app. intros (Hp & HndC & Hsep & HndR) Hx. rewrite elem_of_app in Hp.
  apply elem_of_cons in Hx as [Heq|[Hx|Hx]%elem_of_app].
  - injection Heq as -> -> ->. rewrite number_outside by tauto. rewrite list_lookup_alter_eq, number_outside by tauto.
    rewrite list_lookup_alter_eq. by destruct (bs !! p).
  - pose proof (times_in _ _ _ _ Hx) as Hin. rewrite number_outside by (by apply Hsep).
    rewrite list_lookup_alter_ne by (intros ->; tauto). rewrite IHC by done. by rewrite list_lookup_alter_ne by (intros ->; tauto).
  - pose proof (times_in _ _ _ _ Hx) as Hin. rewrite IHR by done. rewrite list_lookup_alter_ne by (intros ->; tauto).
    rewrite number_outside by (intros HC; by apply (Hsep x)). by rewrite list_lookup_alter_ne by (intros ->; tauto).
Qed.

Lemma lists_children_shape b b' l : shape b = shape b' -> lists_children b' l -> lists_children b l.
Proof.
  unfold shape, lists_children, set_dom_pre_index, set_dom_post_index. cbn. intros [= _ _ _ -> -> _]. done.
Qed.

Section dfs.
Context (par : nat -> option nat) (bs0 : list nir_block).
Notation n := (length bs0).
Context (Hch : forall p b, bs0 !! p = Some b -> lists_children b (kids par n p)).

Lemma dfs_forest F fuel i bs : unfolds par n F -> (forall x, x ∈ nodes F -> x < n) -> same_on shape bs0 bs ->
  size F <= fuel -> (0 <= i)%Z -> (i + 2 * Z.of_nat (size F) < 2 ^ 32 - 3)%Z ->
  for_each (calc_dfs_indices fuel) (roots F) (bs, i) = Some (number i F bs, (i + 2 * Z.of_nat (size F))%Z).
Proof using Hch.
  revert fuel i bs. induction F as [|p C IHC R IHR]; intros fuel i bs; cbn [unfolds nodes roots].
  { intros _ _ _ _ _ _. cbn. do 2 f_equal. lia. }
  intros (HC & UC & UR) Hin Hs. rewrite size_node. intros Hfuel Hi Hb. cbn [for_each number].
  destruct fuel as [|fuel]; [lia|]. cbn [calc_dfs_indices].
  assert (E0 : (i <? UINT32_MAX - 2)%Z = true) by (apply Z.ltb_lt; unfold UINT32_MAX; lia). rewrite E0. clear E0.
  assert (Hp : p < n) by (apply Hin; left). pose proof (same_on_length shape bs0 bs Hs) as Hlen.
  destruct (lookup_lt_is_Some_2 bs p) as [b E]; [lia|]. rewrite E. cbn [mbind option_bind].
  rewrite update_alter by lia. cbn [mbind option_bind]. destruct (same_on_lookup shape bs0 bs p b Hs E) as (b0 & E0 & Hsh).
  rewrite (for_each_children _ b (kids par n p)) by (by apply (lists_children_shape b b0), Hch).
  rewrite <- HC, u32_small by lia.
  assert (Hs1 : same_on shape bs0 (alter (set_dom_pre_index i) p bs)) by (eapply same_on_trans; [done|by apply same_shape_alter]).
  rewrite (IHC fuel (i + 1)%Z); [|done|intros x Hx; apply Hin; right; apply elem_of_app; auto|done|lia..].
  cbn [mbind option_bind]. set (j := (i + 1 + 2 * Z.of_nat (size C))%Z). set (bsC := number (i + 1) C _).
  assert (Hs2 : same_on shape bs0 bsC) by (eapply same_on_trans; [exact Hs1|apply number_shape]).
  rewrite update_alter by (rewrite (same_on_length shape bs0 bsC Hs2); lia). cbn [mbind option_bind].
  rewrite u32_small by lia. rewrite (IHR (S fuel) (j + 1)%Z); [do 2 f_equal; lia|done| | |lia..].
  - intros x Hx. apply Hin. right. apply elem_of_app. auto.
  - eapply same_on_trans; [exact Hs2|by apply same_shape_alter].
Qed.

Lemma dfs_root p C fuel i : unfolds par n (FNode p C FNil) -> (forall x, x ∈ nodes (FNode p C FNil) -> x < n) ->
  size (FNode p C FNil) <= fuel -> (0 <= i)%Z -> (i + 2 * Z.of_nat (size (FNode p C FNil)) < 2 ^ 32 - 3)%Z ->
  calc_dfs_indices fuel p (bs0, i) = Some (number i (FNode p C FNil) bs0, (i + 2 * Z.of_nat (size (FNode p C FNil)))%Z).
Proof using Hch.
  intros U Hin Hf Hi Hb. pose proof (dfs_forest (FNode p C FNil) fuel i bs0 U Hin (same_on_refl _ _) Hf Hi Hb) as H.
  cbn [roots for_each] in H. by destruct (calc_dfs_indices fuel p (bs0, i)).
Qed.
End dfs.
