(* ===== verification/NirDomCorrect.v ===== *)
(** * nir_calc_dominance_impl is correct

    The stages of the pass composed, the metadata flags, and the queries: the
    functions that other passes call answer questions about paths. *)

From Stdlib Require Import ZArith Lia.
From stdpp Require Import base list gmap numbers option relations.
From S2P Require Import Prelude Rmq NirDominance NirDomPaths NirDomAlgo NirDomFrontier NirDomForest NirDomTree.

Implicit Types (g : graph) (bs : list nir_block).

(** ** What the stages leave alone *)

Lemma same_on_weaken {A B} (f : nir_block -> A) (h : nir_block -> B) bs bs' :
  (forall b b', f b = f b' -> h b = h b') -> same_on f bs bs' -> same_on h bs bs'.
Proof.
  intros Hw H x. specialize (H x). destruct (bs' !! x), (bs !! x); cbn in *; try done.
  f_equal. apply Hw. congruence.
Qed.

Lemma frame_same_on g bs bs' : same_on (fun b => (index b, predecessors b)) bs bs' -> frame g bs -> frame g bs'.
Proof.
  intros H [Hl Hf]. split; [by rewrite (same_on_length _ _ _ H)|]. intros p b E.
  destruct (same_on_lookup _ _ _ _ _ H E) as (b0 & E0 & Heq). injection Heq as -> ->. by apply Hf.
Qed.

Lemma idom_same_on bs bs' x : same_on imm_dom bs bs' -> idom bs' x = idom bs x.
Proof. intros H. specialize (H x). unfold idom. destruct (bs' !! x), (bs !! x); cbn in *; try done. congruence. Qed.

Lemma front_same_on bs bs' x : same_on dom_frontier bs bs' -> front bs' x = front bs x.
Proof. intros H. specialize (H x). unfold front. destruct (bs' !! x), (bs !! x); cbn in *; try done. congruence. Qed.

Ltac fields := unfold core, shape, set_imm_dom, set_num_dom_children, set_dom_children, set_dom_frontier,
  set_dom_pre_index, set_dom_post_index in *; cbn in *; congruence.

(** Discharge [same_on h bs bs'] from a stage that keeps more than [h]. *)
Ltac weaken := match goal with H : same_on _ ?b ?c |- same_on _ ?b ?c => refine (same_on_weaken _ _ _ _ _ H); intros; fields end.

(** ** The result *)

(** [F] is the dominance tree, and the blocks carry its numbering. *)
Record numbered bs (F : dforest) : Prop := {
  nb_nodup : NoDup (nodes F);
  nb_inside : forall x a b, (x, (a, b)) ∈ times 1 F -> exists blk, bs !! x = Some blk /\ dom_pre_index blk = a /\ dom_post_index blk = b;
  nb_outside : forall x blk, bs !! x = Some blk -> x ∉ nodes F -> dom_pre_index blk = UINT32_MAX /\ dom_post_index blk = 0%Z }.

Record dom_result g bs (C : dforest) : Prop := {
  dr_frame : frame g bs;
  dr_down : forall b p, idom bs b = Some p -> p < b;
  dr_idom : forall b, is_Some (idom bs b) <-> reachable g b /\ b <> nir_start_block;
  dr_anc : forall x a, reachable g x -> anc (idom bs) x a <-> dominates g a x;
  dr_front : forall x y, y ∈ front bs x <-> in_frontier g x y;
  dr_children : forall p b, bs !! p = Some b -> lists_children b (kids (idom bs) (length bs) p);
  dr_unfolds : unfolds (idom bs) (length bs) (FNode nir_start_block C FNil);
  dr_nodes : forall x, x ∈ nodes (FNode nir_start_block C FNil) <-> reachable g x;
  dr_numbered : numbered bs (FNode nir_start_block C FNil) }.

Lemma start_dominates g x : dominates g nir_start_block x.
Proof. induction 1; [apply list_elem_of_here|by right]. Qed.

(** Removing the loop at the start block *)
Lemma anc_of_tree bs par x a : tree_ok bs -> (forall x, par x = if decide (x = nir_start_block) then None else idom bs x) ->
  anc par x a <-> tree bs x a.
Proof.
  intros Ht Hpar. split; (induction 1 as [|x p a Hp _ IH]; [apply rtc_refl|]).
  - rewrite Hpar in Hp. destruct (decide (x = nir_start_block)); [done|]. by eapply rtc_l.
  - destruct (decide (x = nir_start_block)) as [->|Hx].
    + apply tree_start in Hp; [|done]. by subst.
    + eapply rtc_l; [|exact IH]. by rewrite Hpar, decide_False.
Qed.

Lemma single_tree F p : roots F = [p] -> exists C, F = FNode p C FNil.
Proof. destruct F as [|q C [|]]; cbn; intros [= ->]. eauto. Qed.

Lemma kids_ext par par' m p : (forall x, par' x = par x) -> kids par' m p = kids par m p.
Proof. intros H. unfold kids. apply list_filter_iff. intros x. by rewrite H. Qed.

Lemma unfolds_ext par par' m F : (forall x, par' x = par x) -> unfolds par m F -> unfolds par' m F.
Proof.
  intros H. induction F as [|p C IHC R IHR]; [done|]. cbn. rewrite (kids_ext par par' m p H). tauto.
Qed.

Lemma anc_ext par par' x a : (forall x, par' x = par x) -> anc par' x a <-> anc par x a.
Proof.
  intros H. split; (induction 1 as [|x p a Hp _ IH]; [apply rtc_refl|]); (eapply rtc_l; [|exact IH]).
  - cbn in *. by rewrite <- H.
  - cbn in *. by rewrite H.
Qed.

(** ** Stages *)

Section stages.
Context (g : graph) (Hg : cfg_ok g).

(** The loop and the frontiers *)
Lemma loop_stage bs : frame g bs -> exists bs1 bs2 bs3,
  foreach_block init_block bs bs = Some bs1 /\
  dominance_loop (S (S (length bs1))) bs1 = Some bs2 /\
  foreach_block calc_dom_frontier bs2 bs2 = Some bs3 /\
  dom_tree g bs2 /\ same_front bs2 bs3 /\ (forall x y, y ∈ front bs3 x <-> in_frontier g x y) /\
  forall x b, bs3 !! x = Some b -> num_dom_children b = 0%Z /\ dom_pre_index b = UINT32_MAX /\ dom_post_index b = 0%Z.
Proof using Hg.
  intros Hf. destruct (init_blocks_ok bs) as (bs1 & E1 & Hl1 & H1).
  pose proof (init_round_inv g bs bs1 Hg Hf Hl1 H1) as Hri.
  assert (Hl : length bs1 = length g) by (rewrite Hl1; apply Hf).
  destruct (dominance_loop_ok g (S (S (length bs1))) 1 bs1 Hg) as (bs2 & E2 & Hs2 & Hd); [lia|lia|done|].
  assert (Hinit : forall x b, bs1 !! x = Some b -> num_dom_children b = 0%Z /\ dom_pre_index b = UINT32_MAX /\ dom_post_index b = 0%Z /\ dom_frontier b = ∅).
  { intros x b E. rewrite H1 in E. destruct (bs !! x); [|done]. by injection E as <-. }
  destruct (calc_dom_frontiers_ok g bs2 Hg Hd (cfg_entry g Hg)) as (bs3 & E3 & Hs3 & Hf3).
  { intros x. unfold front. destruct (bs2 !! x) as [b|] eqn:E; [|done].
    destruct (same_on_lookup (set_imm_dom None) bs1 bs2 x b Hs2 E) as (b1 & Eb1 & Heq).
    destruct (Hinit x b1 Eb1) as (_ & _ & _ & H). cbn. fields. }
  exists bs1, bs2, bs3. do 6 (split; [done|]). intros x b E.
  destruct (same_on_lookup (set_dom_frontier ∅) bs2 bs3 x b Hs3 E) as (b2 & E2' & Heq2).
  destruct (same_on_lookup (set_imm_dom None) bs1 bs2 x b2 Hs2 E2') as (b1 & Eb1 & Heq1).
  destruct (Hinit x b1 Eb1) as (? & ? & ? & _). repeat split; fields.
Qed.

(** The immediate dominators, without the one of the start block *)
Lemma parents_ok bs2 par : dom_tree g bs2 -> (forall x, par x = if decide (x = nir_start_block) then None else idom bs2 x) ->
  (forall b p, par b = Some p -> p < b) /\ (forall b p, par b = Some p -> b < length g) /\
  (forall b, is_Some (par b) <-> reachable g b /\ b <> nir_start_block) /\
  (forall x a, reachable g x -> anc par x a <-> dominates g a x) /\ (forall x, anc par x nir_start_block <-> reachable g x).
Proof using Hg.
  intros Hd Hpar. pose proof (dt_inv g bs2 Hd) as Hi. pose proof (inv_tree g bs2 Hi) as Ht.
  assert (Hanc : forall x a, reachable g x -> anc par x a <-> dominates g a x).
  { intros x a Rx. rewrite (anc_of_tree bs2 par x a Ht Hpar). by apply Hd. }
  assert (Hsome : forall b, is_Some (par b) <-> reachable g b /\ b <> nir_start_block).
  { intros b. rewrite Hpar. destruct (decide (b = nir_start_block)) as [->|]; [split; [by intros []|tauto]|].
    rewrite (idom_reachable g bs2 Hd). tauto. }
  split; [|split; [|split; [done|split; [done|]]]].
  - intros b p. rewrite Hpar. destruct (decide (b = nir_start_block)); [done|]. by apply Ht.
  - intros b p Hp. apply reachable_in_range; [done|]. apply Hsome. by eexists.
  - intros x. split; [|intros Rx; apply Hanc; [done|apply start_dominates]].
    intros [->|(p & Hp & _)]%rtc_inv; [apply reachable_start|]. apply Hsome. by eexists.
Qed.

(** The dominance tree *)
Lemma dom_forest_ok par m : length g <= m -> (forall b p, par b = Some p -> p < b) -> (forall b p, par b = Some p -> b < m) ->
  (forall x, anc par x nir_start_block <-> reachable g x) ->
  exists C, unfolds par m (FNode nir_start_block C FNil) /\
    (forall x, x ∈ nodes (FNode nir_start_block C FNil) <-> reachable g x) /\
    NoDup (nodes (FNode nir_start_block C FNil)) /\ size (FNode nir_start_block C FNil) <= m.
Proof using Hg.
  intros Hm Hdown Hrange Hroot. destruct (unfold_exists par m Hdown Hrange [nir_start_block]) as (F & HF & UF).
  destruct (single_tree F _ HF) as [C ->]. exists C. split; [done|].
  assert (Hnodes : forall x, x ∈ nodes (FNode nir_start_block C FNil) <-> reachable g x).
  { intros x. rewrite (elem_of_nodes par m Hrange _ x UF), <- Hroot. cbn [roots]. split.
    - by intros (r & ->%list_elem_of_singleton & H).
    - intros H. exists nir_start_block. by rewrite list_elem_of_singleton. }
  assert (Hnd : NoDup (nodes (FNode nir_start_block C FNil))).
  { apply (nodes_NoDup par m Hdown Hrange _ UF). split; [apply NoDup_singleton|].
    by intros r r' ->%list_elem_of_singleton ->%list_elem_of_singleton. }
  split; [done|]. split; [done|]. rewrite <- (length_seq m 0). apply submseteq_length, NoDup_submseteq; [done|].
  intros x Hx%Hnodes. apply elem_of_seq. apply (reachable_in_range g x Hg) in Hx. lia.
Qed.

Definition fresh_numbers bs : Prop :=
  forall x b, bs !! x = Some b -> dom_pre_index b = UINT32_MAX /\ dom_post_index b = 0%Z.

Lemma number_numbered bs F : NoDup (nodes F) -> (forall x, x ∈ nodes F -> x < length bs) -> fresh_numbers bs -> numbered (number 1 F bs) F.
Proof using.
  intros Hnd Hin Hfresh. split; [done| |].
  - intros x a b Hx. rewrite (number_inside 1 F bs x a b Hnd Hx).
    destruct (lookup_lt_is_Some_2 bs x) as [blk ->]; [by eapply Hin, times_in|]. eexists. split; [done|]. done.
  - intros x blk E Hx. rewrite number_outside in E by done. by apply (Hfresh x).
Qed.

Lemma tree_stage bs2 bs3 : dom_tree g bs2 -> same_front bs2 bs3 -> (forall x y, y ∈ front bs3 x <-> in_frontier g x y) ->
  (forall x b, bs3 !! x = Some b -> num_dom_children b = 0%Z /\ dom_pre_index b = UINT32_MAX /\ dom_post_index b = 0%Z) ->
  exists bs4 bs5 bs6 i C,
  update nir_start_block (set_imm_dom None) bs3 = Some bs4 /\ calc_dom_children bs4 = Some bs5 /\
  calc_dfs_indices (S (length bs5)) nir_start_block (bs5, 1%Z) = Some (bs6, i) /\ dom_result g bs6 C.
Proof using Hg.
  intros Hd Hs3 Hf3 Hinit. pose proof (inv_frame g bs2 (dt_inv g bs2 Hd)) as Hfr2. pose proof (cfg_size g Hg) as Hsz.
  assert (Hfr3 : frame g bs3) by (revert Hfr2; apply frame_same_on; refine (same_on_weaken _ _ _ _ _ Hs3); intros; fields).
  destruct (update_ok nir_start_block (set_imm_dom None) bs3) as [bs4 E4]; [rewrite (proj1 Hfr3); apply Hg|].
  assert (Hs4 : same_on (set_imm_dom None) bs3 bs4) by (by apply (same_rest_update nir_start_block None)).
  destruct (parents_ok bs2 (idom bs4) Hd) as (Hdown & Hrange & Hsome & Hanc & Hroot).
  { intros x. rewrite (update_idom _ _ _ _ x E4). by rewrite (same_front_idom bs2 bs3 x Hs3). }
  pose proof (frame_set_imm_dom g _ _ _ _ E4 Hfr3) as Hfr4. pose proof (proj1 Hfr4) as Hl4.
  destruct (calc_dom_children_ok bs4) as (bs5 & E5 & Hs5 & Hch).
  { intros b p Hp. apply Hdown in Hp as ?. apply Hrange in Hp. lia. }
  { lia. }
  { intros p b E. destruct (same_on_lookup _ _ _ _ _ Hs4 E) as (b3 & E3 & Heq). destruct (Hinit p b3 E3). fields. }
  pose proof (same_on_length core bs4 bs5 Hs5) as Hl5. rewrite <- Hl5 in Hch.
  destruct (dom_forest_ok (idom bs4) (length bs5)) as (C & UF & Hnodes & Hnd & Hsize); [lia|done| |done|].
  { intros b p Hp. apply Hrange in Hp. lia. }
  assert (Hlt : forall x, x ∈ nodes (FNode nir_start_block C FNil) -> x < length bs5).
  { intros x Hx%Hnodes. apply (reachable_in_range g x Hg) in Hx. lia. }
  set (F := FNode nir_start_block C FNil) in *. exists bs4, bs5, (number 1 F bs5), (1 + 2 * Z.of_nat (size F))%Z, C.
  split; [done|]. split; [done|]. split; [apply (dfs_root (idom bs4) bs5 Hch); [done|done|fold F; lia..]|].
  pose proof (number_shape 1 F bs5) as Hs6.
  assert (Hid : forall x, idom (number 1 F bs5) x = idom bs4 x).
  { intros x. rewrite (idom_same_on bs5) by weaken. apply idom_same_on. weaken. }
  assert (Hl6 : length (number 1 F bs5) = length bs5) by apply (same_on_length _ _ _ Hs6).
  split; rewrite ?Hl6.
  - apply (frame_same_on g bs5); [weaken|]. apply (frame_same_on g bs4); [weaken|done].
  - intros b p. rewrite Hid. apply Hdown.
  - intros b. rewrite Hid. apply Hsome.
  - intros x a Rx. rewrite (anc_ext _ _ x a Hid). by apply Hanc.
  - intros x y. rewrite (front_same_on bs5), (front_same_on bs4), (front_same_on bs3) by weaken. apply Hf3.
  - intros p b E. rewrite (kids_ext _ _ _ _ Hid). destruct (same_on_lookup _ _ _ _ _ Hs6 E) as (b5 & E5' & Heq).
    by apply (lists_children_shape b b5), Hch.
  - by apply (unfolds_ext (idom bs4)).
  - done.
  - apply number_numbered; [done|done|]. intros x b E.
    destruct (same_on_lookup _ _ _ _ _ Hs5 E) as (b4 & E4' & Heq4). destruct (same_on_lookup _ _ _ _ _ Hs4 E4') as (b3 & E3 & Heq3).
    destruct (Hinit x b3 E3) as (_ & ? & ?). split; fields.
Qed.
End stages.

(** ** Metadata *)

Lemma needs_update required impl k : (0 <= k < 32)%Z ->
  NEEDS_UPDATE required impl (2 ^ k) = Z.testbit required k && negb (Z.testbit (valid_metadata impl) k).
Proof. intros Hk. unfold NEEDS_UPDATE. by rewrite land_pow2_testbit, Z.land_spec, not32_testbit by lia. Qed.

(** The flag of the metadata with the value [2 ^ k] *)
Definition has (impl : nir_function_impl) (k : Z) : bool := Z.testbit (valid_metadata impl) k.

(** The metadata whose flags are set are valid; dominance is only kept with block indices. *)
Record dom_meta g (impl : nir_function_impl) : Prop := {
  dm_graph : graph_of (blocks impl) = g;
  dm_index : has impl 0 = true -> frame g (blocks impl) /\ num_blocks impl = Z.of_nat (length g);
  dm_dom : has impl 1 = true -> has impl 0 = true /\ exists C, dom_result g (blocks impl) C }.

Lemma frame_graph_of g bs : frame g bs -> graph_of bs = g.
Proof.
  intros [Hl Hf]. apply list_eq. intros x. unfold graph_of. rewrite list_lookup_fmap.
  destruct (bs !! x) as [b|] eqn:E; cbn; [by destruct (Hf x b E) as [_ ->]|].
  symmetry. apply lookup_ge_None. rewrite <- Hl. by apply lookup_ge_None.
Qed.

Lemma nir_index_blocks_ok g impl : graph_of (blocks impl) = g -> (Z.of_nat (length g) < 2 ^ 32)%Z -> has impl 0 = false ->
  exists bs, nir_index_blocks impl = Some (NirImpl bs (Z.of_nat (length g)) (valid_metadata impl) (dom_lca_table impl) (block_from_idx impl)) /\
    frame g bs.
Proof.
  intros Hgr Hn Hbit. unfold nir_index_blocks. change nir_metadata_block_index with (2 ^ 0)%Z.
  rewrite land_pow2_testbit by done. unfold has in Hbit. rewrite Hbit.
  assert (Hl : length (blocks impl) = length g) by (rewrite <- Hgr; unfold graph_of; by rewrite length_map).
  destruct (foreach_block_rule (fun j '(bs, i) => i = Z.of_nat j /\ same_on predecessors (blocks impl) bs /\
    forall p b, p < j -> bs !! p = Some b -> index b = Z.of_nat p)
    (fun p '(bs, index) => bs ← update p (set_index index) bs; Some (bs, u32 (index + 1))) (blocks impl) (blocks impl, 0%Z)) as ([bs i] & E & Hi & Hs & Hx).
  - split; [done|]. split; [apply same_on_refl|lia].
  - intros p [bs i] Hp (-> & Hs & Hx). destruct (update_ok p (set_index (Z.of_nat p)) bs) as [bs' Eu].
    { by rewrite (same_on_length _ _ _ Hs). }
    rewrite Eu. cbn [mbind option_bind]. eexists. split; [done|]. split; [rewrite u32_small; lia|].
    split; [eapply same_on_trans; [done|by eapply same_on_update]|]. intros q b Hq. rewrite (update_lookup _ _ _ _ q Eu).
    destruct (decide (q = p)) as [->|]; [|apply Hx; lia]. destruct (bs !! p); [|done]. by intros [= <-].
  - rewrite E. cbn [mbind option_bind]. exists bs. rewrite Hi, Hl. split; [done|].
    split; [by rewrite (same_on_length _ _ _ Hs)|]. intros p b Eb. split.
    + apply Hx; [|done]. apply lookup_lt_Some in Eb. by rewrite (same_on_length _ _ _ Hs) in Eb.
    + destruct (same_on_lookup _ _ _ _ _ Hs Eb) as (b0 & E0 & Heq). rewrite <- Hgr. unfold graph_of. by rewrite list_lookup_fmap, E0, Heq.
Qed.

(** What requiring the metadata does to the function *)
Lemma index_step g impl required : cfg_ok g -> dom_meta g impl -> Z.testbit required 0 = true ->
  exists bs, (if NEEDS_UPDATE required impl nir_metadata_block_index then nir_index_blocks impl else Some impl)
      = Some (NirImpl bs (Z.of_nat (length g)) (valid_metadata impl) (dom_lca_table impl) (block_from_idx impl)) /\ frame g bs /\
    (has impl 0 = true -> bs = blocks impl).
Proof.
  intros Hg Hm Hreq. change nir_metadata_block_index with (2 ^ 0)%Z. rewrite needs_update, Hreq by done. fold (has impl 0).
  destruct (has impl 0) eqn:E; cbn [negb andb].
  - destruct (dm_index g impl Hm E) as [Hf Hnum]. exists (blocks impl). rewrite <- Hnum. split; [by destruct impl|]. auto.
  - destruct (nir_index_blocks_ok g impl) as (bs & -> & Hf); [apply Hm|pose proof (cfg_size g Hg); lia|done|]. by exists bs.
Qed.

Lemma nir_calc_dominance_impl_ok g impl : cfg_ok g -> dom_meta g impl -> has impl 1 = false ->
  exists bs C, nir_calc_dominance_impl impl = Some (NirImpl bs (Z.of_nat (length g)) (Z.lor (valid_metadata impl) 1)
      (dom_lca_table impl) (block_from_idx impl)) /\ dom_result g bs C.
Proof.
  intros Hg Hm Hbit. unfold nir_calc_dominance_impl. change nir_metadata_dominance with (2 ^ 1)%Z.
  rewrite land_pow2_testbit by done. unfold has in Hbit. rewrite Hbit. unfold require_block_index.
  destruct (index_step g impl nir_metadata_block_index Hg Hm eq_refl) as (bs & -> & Hf & _). cbn [mbind option_bind].
  unfold set_valid_metadata. cbn [blocks valid_metadata num_blocks dom_lca_table block_from_idx].
  destruct (loop_stage g Hg bs Hf) as (bs1 & bs2 & bs3 & E1 & E2 & E3 & Hd & Hs & Hfr & Hinit). rewrite E1. cbn [mbind option_bind].
  rewrite E2. cbn [mbind option_bind]. rewrite E3. cbn [mbind option_bind].
  destruct (tree_stage g Hg bs2 bs3 Hd Hs Hfr Hinit) as (bs4 & bs5 & bs6 & i & C & E4 & E5 & E6 & Hres).
  rewrite E4. cbn [mbind option_bind]. rewrite E5. cbn [mbind option_bind]. rewrite E6. cbn [mbind option_bind].
  exists bs6, C. by split.
Qed.

Lemma dom_step g bs v t f required : cfg_ok g -> frame g bs -> Z.testbit required 1 = true ->
  (Z.testbit v 1 = true -> exists C, dom_result g bs C) ->
  exists bs' C v', (if NEEDS_UPDATE required (NirImpl bs (Z.of_nat (length g)) v t f) nir_metadata_dominance
      then nir_calc_dominance_impl (NirImpl bs (Z.of_nat (length g)) v t f) else Some (NirImpl bs (Z.of_nat (length g)) v t f))
    = Some (NirImpl bs' (Z.of_nat (length g)) v' t f) /\ dom_result g bs' C /\ (v' = v \/ v' = Z.lor v 1) /\ (Z.testbit v 1 = true -> bs' = bs).
Proof.
  intros Hg Hf Hreq Hdom. change nir_metadata_dominance with (2 ^ 1)%Z. rewrite needs_update, Hreq by done. cbn [andb valid_metadata].
  destruct (Z.testbit v 1) eqn:E1; cbn [negb].
  - destruct (Hdom eq_refl) as [C HC]. exists bs, C, v. auto.
  - destruct (nir_calc_dominance_impl_ok g (NirImpl bs (Z.of_nat (length g)) v t f)) as (bs2 & C & -> & HC); [done| |done|].
    { split; [by apply frame_graph_of|auto|]. intros H1. unfold has in *. cbn [valid_metadata] in *. congruence. }
    exists bs2, C, (Z.lor v 1). split; [done|]. split; [done|]. split; [by right|done].
Qed.

Lemma require_dominance_ok g impl : cfg_ok g -> dom_meta g impl ->
  exists bs C, require_dominance impl = Some (NirImpl bs (Z.of_nat (length g)) (Z.lor (valid_metadata impl) 3)
      (dom_lca_table impl) (block_from_idx impl)) /\ dom_result g bs C /\ (has impl 1 = true -> bs = blocks impl).
Proof.
  intros Hg Hm. unfold require_dominance. change (Z.lor nir_metadata_block_index nir_metadata_dominance) with 3%Z.
  destruct (index_step g impl 3 Hg Hm eq_refl) as (bs & -> & Hf & Hsame). cbn [mbind option_bind].
  destruct (dom_step g bs (valid_metadata impl) (dom_lca_table impl) (block_from_idx impl) 3) as (bs2 & C & v & -> & HC & Hv & Hb);
    [done|done|done| |].
  { intros H1. destruct (dm_dom g impl Hm H1) as [H0 HC]. by rewrite (Hsame H0). }
  cbn [mbind option_bind]. exists bs2, C. unfold set_valid_metadata. cbn [blocks valid_metadata num_blocks dom_lca_table block_from_idx].
  split; [|split; [done|]].
  - destruct Hv as [->| ->]; [done|]. by rewrite <- Z.lor_assoc.
  - intros H1. rewrite (Hb H1). apply Hsame. by apply (dm_dom g impl Hm H1).
Qed.

(** ** Queries *)

Section queries.
Context (g : graph) (bs : list nir_block) (C : dforest) (Hg : cfg_ok g) (Hr : dom_result g bs C).
Let F := FNode nir_start_block C FNil.

Lemma dr_length : length bs = length g.
Proof using Hr. apply (dr_frame g bs C Hr). Qed.

Lemma dr_range b p : idom bs b = Some p -> b < length bs.
Proof using Hr. intros H. apply idom_lt. by eexists. Qed.

(** The numbers of a reachable block *)
Lemma reachable_numbers x blk : bs !! x = Some blk -> reachable g x ->
  (x, (dom_pre_index blk, dom_post_index blk)) ∈ times 1 F /\
  (1 <= dom_pre_index blk < dom_post_index blk /\ dom_post_index blk < 2 ^ 32 - 3)%Z.
Proof using Hg Hr.
  intros E Rx%(dr_nodes g bs C Hr). destruct (in_times 1 F x Rx) as [[a b] Ht].
  destruct (nb_inside bs F (dr_numbered g bs C Hr) x a b Ht) as (blk' & E' & <- & <-).
  rewrite E in E'. injection E' as <-. split; [done|]. apply times_bounds in Ht.
  assert (size F <= length g); [|pose proof (cfg_size g Hg); lia].
  unfold size. rewrite <- (length_seq (length g) 0). apply submseteq_length, NoDup_submseteq; [apply (dr_numbered g bs C Hr)|].
  intros y Hy%(dr_nodes g bs C Hr). apply elem_of_seq. apply (reachable_in_range g y Hg) in Hy. lia.
Qed.

Lemma unreachable_numbers x blk : bs !! x = Some blk -> ~ reachable g x -> dom_pre_index blk = UINT32_MAX /\ dom_post_index blk = 0%Z.
Proof using Hr. intros E Hx. apply (nb_outside bs F (dr_numbered g bs C Hr) x blk E). by intros ?%(dr_nodes g bs C Hr). Qed.

Lemma reachable_dec x : reachable g x \/ ~ reachable g x.
Proof using Hr.
  destruct (decide (x ∈ nodes F)) as [H|H]; [left|right; intros Rx; apply H]; by apply (dr_nodes g bs C Hr).
Qed.

Lemma dominates_numbers a b ba bb : bs !! a = Some ba -> bs !! b = Some bb ->
  (dom_pre_index ba <= dom_pre_index bb /\ dom_post_index bb <= dom_post_index ba)%Z <-> dominates g a b.
Proof using Hg Hr.
  intros Ea Eb. destruct (reachable_dec b) as [Rb|Nb].
  - destruct (reachable_numbers b bb Eb Rb) as [Hb Hbb]. rewrite <- (dr_anc g bs C Hr b a Rb).
    destruct (reachable_dec a) as [Ra|Na].
    + destruct (reachable_numbers a ba Ea Ra) as [Ha _].
      apply (times_nested (idom bs) (length bs) (dr_down g bs C Hr) dr_range F 1 a b); [apply (dr_unfolds g bs C Hr)|apply (dr_numbered g bs C Hr)|done..].
    + destruct (unreachable_numbers a ba Ea Na) as [-> _]. split; [unfold UINT32_MAX; lia|].
      intros H%(dr_anc g bs C Hr b a Rb). destruct Na. by apply (dominates_reachable g a b).
  - destruct (unreachable_numbers b bb Eb Nb) as [-> ->]. split; [intros _ π Hp; destruct Nb; by exists π|intros _].
    destruct (reachable_dec a) as [Ra|Na].
    + destruct (reachable_numbers a ba Ea Ra) as [_ Ha]. unfold UINT32_MAX. lia.
    + by destruct (unreachable_numbers a ba Ea Na) as [-> ->].
Qed.

(** A block whose number is between those of a block and of a block it dominates is dominated too. *)
Lemma numbers_between x y z bx bY bz : bs !! x = Some bx -> bs !! y = Some bY -> bs !! z = Some bz -> reachable g x -> reachable g y -> reachable g z ->
  dominates g x z -> (dom_pre_index bx <= dom_pre_index bY <= dom_pre_index bz)%Z -> dominates g x y.
Proof using Hg Hr.
  intros Ex Ey Ez Rx Ry Rz Hd Hle. apply (dominates_numbers x z bx bz Ex Ez) in Hd. apply (dominates_numbers x y bx bY Ex Ey). split; [lia|].
  destruct (reachable_numbers x bx Ex Rx) as [Tx Bx], (reachable_numbers y bY Ey Ry) as [Ty By], (reachable_numbers z bz Ez Rz) as [Tz Bz].
  apply (times_laminar _ _ _ _ _ _ _ _ Tx Ty ltac:(lia)). lia.
Qed.

Lemma numbers_distinct x y bx bY : bs !! x = Some bx -> bs !! y = Some bY -> reachable g x -> reachable g y -> dom_pre_index bx = dom_pre_index bY -> x = y.
Proof using Hg Hr.
  intros Ex Ey Rx Ry E. destruct (reachable_numbers x bx Ex Rx) as [Tx _], (reachable_numbers y bY Ey Ry) as [Ty _].
  by apply (times_laminar _ _ _ _ _ _ _ _ Tx Ty ltac:(lia)).
Qed.

(** The nearest strict dominator *)
Definition is_idom (p b : nat) : Prop :=
  dominates g p b /\ p <> b /\ forall d, dominates g d b -> d <> b -> dominates g d p.

Lemma idom_spec b p : b < length g -> idom bs b = Some p <-> reachable g b /\ b <> nir_start_block /\ is_idom p b.
Proof using Hr.
  intros Hb. pose proof (dr_idom g bs C Hr b) as Hs. pose proof (dr_anc g bs C Hr) as Hanc.
  assert (Hone : forall q, idom bs b = Some q -> reachable g b /\ is_idom q b).
  { intros q Hq. destruct (proj1 Hs) as [Rb Hb0]; [by eexists|]. split; [done|].
    assert (Hqb : dominates g q b) by (apply Hanc; [done|by apply rtc_once]).
    split; [done|]. pose proof (dr_down g bs C Hr b q Hq). split; [lia|]. intros d Hd Hne.
    apply Hanc in Hd as [->|(q' & Hq' & Hqd)]%rtc_inv; [done| |done]. assert (q = q') as <- by congruence.
    apply Hanc; [|done]. by apply (dominates_reachable g q b). }
  split; [intros Hp; destruct (Hone p Hp) as [Rb Hi]; split; [done|split; [apply Hs; by eexists|done]]|].
  intros (Rb & Hb0 & Hpb & Hpne & Hpmax). destruct (proj2 Hs (conj Rb Hb0)) as [q Hq]. rewrite Hq. f_equal.
  destruct (Hone q Hq) as (_ & Hqb & Hqne & Hqmax).
  apply (anc_antisym (idom bs) (dr_down g bs C Hr)); (apply Hanc; [by eapply dominates_reachable|auto]).
Qed.
End queries.

Lemma dom_result_meta g bs C v t f : dom_result g bs C -> dom_meta g (NirImpl bs (Z.of_nat (length g)) (Z.lor v 3) t f).
Proof.
  intros HC. pose proof (dr_frame g bs C HC) as Hf. split.
  - by apply frame_graph_of.
  - intros _. done.
  - intros _. split; [unfold has; cbn [valid_metadata]; rewrite Z.lor_spec; apply orb_true_r|by exists C].
Qed.

Lemma has_dominance bs n v t f : (Z.land (valid_metadata (NirImpl bs n (Z.lor v 3) t f)) nir_metadata_dominance =? 0)%Z = false /\
  (Z.land (valid_metadata (NirImpl bs n (Z.lor v 3) t f)) nir_metadata_block_index =? 0)%Z = false.
Proof.
  cbn [valid_metadata]. split; apply negb_true_iff; [change nir_metadata_dominance with (2 ^ 1)%Z|change nir_metadata_block_index with (2 ^ 0)%Z];
    rewrite land_pow2_testbit by done; rewrite Z.lor_spec; apply orb_true_r.
Qed.

(** C3: dominance queries are exact.  For a function whose blocks are indexed from
    beginning to end, and whatever part of the metadata is already valid, requiring
    dominance succeeds (the iteration ends, no assertion fails, no NULL is
    followed), leaves valid metadata, and then nir_block_dominates(a, b) is true exactly if
    every path from the start block to b passes through a; in particular an
    unreachable block is dominated by every block and dominates only unreachable ones. *)
Theorem nir_block_dominates_correct g impl : cfg_ok g -> dom_meta g impl ->
  exists impl', require_dominance impl = Some impl' /\ dom_meta g impl' /\
  forall a b, a < length g -> b < length g ->
  exists r, nir_block_dominates impl' a b = Some r /\ (r = true <-> dominates g a b).
Proof.
  intros Hg Hm. destruct (require_dominance_ok g impl Hg Hm) as (bs & C & E & HC & _).
  eexists. split; [exact E|]. split; [by apply (dom_result_meta g bs C)|]. intros a b Ha Hb.
  unfold nir_block_dominates. rewrite (proj1 (has_dominance _ _ _ _ _)). cbn [negb blocks].
  rewrite <- (dr_length g bs C HC) in Ha, Hb. destruct (lookup_lt_is_Some_2 bs a Ha) as [ba Ea]. destruct (lookup_lt_is_Some_2 bs b Hb) as [bb Eb].
  rewrite Ea, Eb. cbn [mbind option_bind]. eexists. split; [done|].
  rewrite <- (dominates_numbers g bs C Hg HC a b ba bb Ea Eb), andb_true_iff, Z.geb_le, Z.leb_le. done.
Qed.

(** C21: the dominance metadata is exact.  After dominance has been required, imm_dom of
    each block is its nearest strict dominator (NULL for the start block and for unreachable
    blocks), nir_block_is_unreachable tells whether no path leads to the block, and
    dom_frontier is the set of blocks with a reachable predecessor that the block dominates but which it
    does not strictly dominate. *)
Theorem nir_calc_dominance_correct g impl : cfg_ok g -> dom_meta g impl ->
  exists impl', require_dominance impl = Some impl' /\
  forall b, b < length g -> exists blk, blocks impl' !! b = Some blk /\
    (forall p, imm_dom blk = Some p <-> reachable g b /\ b <> nir_start_block /\ is_idom g p b) /\
    (exists r, nir_block_is_unreachable impl' b = Some r /\ (r = true <-> ~ reachable g b)) /\
    (forall y, y ∈ dom_frontier blk <-> in_frontier g b y).
Proof.
  intros Hg Hm. destruct (require_dominance_ok g impl Hg Hm) as (bs & C & E & HC & _).
  eexists. split; [exact E|]. intros b Hb. pose proof Hb as Hb'. rewrite <- (dr_length g bs C HC) in Hb'.
  destruct (lookup_lt_is_Some_2 bs b Hb') as [blk Eb]. exists blk. cbn [blocks]. split; [done|].
  assert (Ei : idom bs b = imm_dom blk) by (unfold idom; by rewrite Eb). split; [|split].
  - intros p. rewrite <- Ei. by apply (idom_spec g bs C).
  - unfold nir_block_is_unreachable. destruct (has_dominance bs (Z.of_nat (length g)) (valid_metadata impl) (dom_lca_table impl) (block_from_idx impl)) as [-> ->].
    cbn [negb blocks]. rewrite Eb. cbn [mbind option_bind]. eexists. split; [done|].
    rewrite (frame_index g bs b blk (dr_frame g bs C HC) Eb), <- Ei, andb_true_iff, bool_decide_eq_true, Z.gtb_lt.
    pose proof (dr_idom g bs C HC b) as Hs. split.
    + intros [Hpos Hnone] Rb. destruct (proj2 Hs) as [q Hq]; [split; [done|unfold nir_start_block; lia]|congruence].
    + intros Nb. split.
      * destruct b; [destruct Nb; apply reachable_start|lia].
      * destruct (idom bs b) eqn:Eq; [|done]. destruct Nb. by apply Hs.
  - intros y. rewrite <- (dr_front g bs C HC b y). unfold front. by rewrite Eb.
Qed.

(** ** A function with a loop around a diamond, and an unreachable block *)

Definition example_graph : graph := [[]; [0; 4]; [1]; [1]; [2; 3]; [4; 6]; []].
Definition example_impl : nir_function_impl :=
  NirImpl (map (fun ps => NirBlock 0 ps (Some 3) 7 [] {[5]} 9 9) example_graph) 0 0 range_minimum_query_table_init [].

Lemma example_edge p b ps : example_graph !! b = Some ps -> bool_decide (p ∈ ps) = true -> edge example_graph p b.
Proof. intros Hb Hp%bool_decide_eq_true. by exists ps. Qed.

Ltac example_reach := repeat first
  [ apply reachable_start
  | match goal with
    | |- reachable _ 1 => apply (reachable_step _ 0)
    | |- reachable _ 2 => apply (reachable_step _ 1)
    | |- reachable _ 3 => apply (reachable_step _ 1)
    | |- reachable _ 4 => apply (reachable_step _ 2)
    | |- edge _ _ _ => eapply example_edge; [reflexivity|vm_compute; reflexivity]
    end ].

Lemma example_unreachable b : reachable example_graph b -> b <> 0 -> b < 6.
Proof.
  intros [π Hp] Hb. destruct Hp as [|p b π _ (ps & Eps & Hin)]; [done|].
  do 7 (destruct b as [|b]; [first [lia|injection Eps as <-; by apply not_elem_of_nil in Hin]|]). done.
Qed.

Lemma example_cfg_ok : cfg_ok example_graph.
Proof.
  split.
  - cbn. lia.
  - reflexivity.
  - intros p b (ps & Eps & Hin). cbn [length example_graph].
    do 7 (destruct b as [|b]; [injection Eps as <-; rewrite ?elem_of_cons, elem_of_nil in Hin; lia|]). done.
  - intros b Rb Hb. pose proof (example_unreachable b Rb Hb). unfold nir_start_block in *.
    destruct b as [|[|[|[|[|[|b]]]]]]; [done|exists 0|exists 1|exists 1|exists 2|exists 4|lia];
      (split; [|split; [lia|]]); example_reach.
  - vm_compute. reflexivity.
Qed.

Lemma example_dom_meta : dom_meta example_graph example_impl.
Proof. split; [reflexivity|done|done]. Qed.

Lemma nir_block_dominates_correct_witness : exists impl', require_dominance example_impl = Some impl' /\
  nir_block_dominates impl' 1 4 = Some true /\ nir_block_dominates impl' 2 4 = Some false /\
  nir_block_dominates impl' 3 6 = Some true /\
  exists r, nir_block_dominates impl' 1 5 = Some r /\ (r = true <-> dominates example_graph 1 5).
Proof.
  destruct (nir_block_dominates_correct example_graph example_impl example_cfg_ok example_dom_meta) as (impl' & E & _ & H).
  exists impl'. split; [exact E|]. assert (E' := E). vm_compute in E'. injection E' as <-.
  do 3 (split; [vm_compute; reflexivity|]). apply H; cbn; lia.
Defined.

Lemma nir_calc_dominance_correct_witness : exists impl', require_dominance example_impl = Some impl' /\
  exists blk, blocks impl' !! 4 = Some blk /\ imm_dom blk = Some 1 /\ (1 ∈ dom_frontier blk <-> in_frontier example_graph 4 1).
Proof.
  destruct (nir_calc_dominance_correct example_graph example_impl example_cfg_ok example_dom_meta) as (impl' & E & H).
  exists impl'. split; [exact E|]. destruct (H 4 ltac:(cbn; lia)) as (blk & Eb & _ & _ & Hf). exists blk. split; [exact Eb|].
  split; [|apply Hf]. vm_compute in E. injection E as <-. vm_compute in Eb. injection Eb as <-. reflexivity.
Defined.
