(* ===== verification/NirDomLca.v ===== *)
(** * Lowest common ancestors in the dominance tree (src/compiler/nir/nir_dominance_lca.c)

    The pass stores an Euler tour of the dominance tree as the first row of a table for range
    minimum queries; the rest of the table serves as the stack of the
    depth-first search.  A pointer into the table is an index of its array of cells. *)

From Stdlib Require Import ZArith Lia.
From stdpp Require Import base list gmap numbers option relations.
From S2P Require Import Prelude Rmq NirDominance NirDomPaths NirDomAlgo NirDomFrontier NirDomForest NirDomTree NirDomCorrect.
Local Open Scope Z_scope.

(** ** Definitions *)

Definition set_lca (t : range_minimum_query_table) (from : list (option nat)) (impl : nir_function_impl) : nir_function_impl :=
  NirImpl (blocks impl) (num_blocks impl) (valid_metadata impl) t from.

Definition realloc_info (impl : nir_function_impl) : option nir_function_impl :=
  let euler_tour_size := u32 (num_blocks impl * 2 - 1) in
  t ← range_minimum_query_table_resize (dom_lca_table impl) euler_tour_size;
  Some (set_lca t (resize (Z.to_nat (num_blocks impl)) None (block_from_idx impl)) impl).

Definition dom_lca_representative (block : nir_block) : Z := u32 (dom_pre_index block - 1).

Record tour_state := TourState {
  ts_table : list (option Z);
  ts_from : list (option nat);
  cur_block : option nat;
  cur_stack : Z;
  first_visit : bool }.

(** The first half of the loop's body: the visit of [cur_block] *)
Definition tour_visit (bs : list nir_block) (dfs_stack i : Z) (st : tour_state) : option tour_state :=
  assert! cur_stack st >=? dfs_stack ;;
  cur ← cur_block st;
  block ← bs !! cur;
  t ← store (ts_table st) i (index block);
  if first_visit st then
    t ← store t (cur_stack st) 0;
    assert! i =? dom_lca_representative block ;;
    from ← store (ts_from st) (index block) cur;
    Some (TourState t from (Some cur) (cur_stack st) (first_visit st))
  else Some (TourState t (ts_from st) (Some cur) (cur_stack st) (first_visit st)).

(** The second half: to the next child, or back to the parent *)
Definition tour_move (bs : list nir_block) (st : tour_state) : option tour_state :=
  cur ← cur_block st;
  block ← bs !! cur;
  top ← load (ts_table st) (cur_stack st);
  if top <? num_dom_children block then
    child ← load (dom_children block) top;
    t ← store (ts_table st) (cur_stack st) (u32 (top + 1));
    Some (TourState t (ts_from st) (Some child) (cur_stack st + 1) true)
  else
    assert! top =? num_dom_children block ;;
    Some (TourState (ts_table st) (ts_from st) (imm_dom block) (cur_stack st - 1) false).

(** [for (i = 0; i < width; i++)] with the [break]; [n] iterations are left *)
Fixpoint tour_loop (n : nat) (bs : list nir_block) (dfs_stack i : Z) (st : tour_state) : option (Z * tour_state) :=
  match n with
  | O => Some (i, st)
  | S n =>
      match cur_block st with
      | None => Some (i, st)
      | Some _ =>
          st ← tour_visit bs dfs_stack i st;
          st ← tour_move bs st;
          tour_loop n bs dfs_stack (i + 1) st
      end
  end.

Definition generate_euler_tour (impl : nir_function_impl) : option nir_function_impl :=
  let t := dom_lca_table impl in
  if num_blocks impl =? 1 then
    cells ← store (table t) 0 0;
    from ← store (block_from_idx impl) 0 nir_start_block;
    Some (set_lca (RmqTable cells (width t) (height t)) from impl)
  else
    assert! height t >=? 2 ;;
    let dfs_stack := width t in
    '(i, st) ← tour_loop (Z.to_nat (width t)) (blocks impl) dfs_stack 0
       (TourState (table t) (block_from_idx impl) (Some nir_start_block) dfs_stack true);
    assert! bool_decide (cur_block st = None) ;;
    let t := RmqTable (ts_table st) (width t) (height t) in
    t ← (if negb (i =? width t) then range_minimum_query_table_resize t i else Some t);
    Some (set_lca t (ts_from st) impl).

Definition nir_calc_dominance_lca_impl (impl : nir_function_impl) : option nir_function_impl :=
  if negb (Z.land (valid_metadata impl) nir_metadata_dominance_lca =? 0) then Some impl else
  impl ← require_dominance impl;
  impl ← realloc_info impl;
  impl ← generate_euler_tour impl;
  t ← range_minimum_query_table_preprocess (dom_lca_table impl);
  Some (set_lca t (block_from_idx impl) impl).

(** [nir_metadata_require] for the three kinds of metadata about control flow *)
Definition nir_metadata_require (impl : nir_function_impl) (required : Z) : option nir_function_impl :=
  impl ← (if NEEDS_UPDATE required impl nir_metadata_block_index then nir_index_blocks impl else Some impl);
  impl ← (if NEEDS_UPDATE required impl nir_metadata_dominance then nir_calc_dominance_impl impl else Some impl);
  impl ← (if NEEDS_UPDATE required impl nir_metadata_dominance_lca then nir_calc_dominance_lca_impl impl else Some impl);
  Some (set_valid_metadata (Z.lor (valid_metadata impl) required) impl).

Definition nir_metadata_control_flow : Z :=
  Z.lor (Z.lor nir_metadata_block_index nir_metadata_dominance) nir_metadata_dominance_lca.

Definition block_return_if_reachable (impl : nir_function_impl) (b : option nat) : option (option nat) :=
  match b with
  | None => Some None
  | Some p => block ← blocks impl !! p; Some (if nir_block_is_reachable block then Some p else None)
  end.

Definition is_lca (impl : nir_function_impl) (result b1 b2 : nat) : option bool :=
  d1 ← nir_block_dominates impl result b1;
  d2 ← nir_block_dominates impl result b2;
  if negb d1 || negb d2 then Some false else
  block ← blocks impl !! result;
  for_each (fun i (ok : bool) =>
      if ok then
        child ← load (dom_children block) i;
        d1 ← nir_block_dominates impl child b1;
        d2 ← nir_block_dominates impl child b2;
        Some (negb (d1 && d2))
      else Some false) (seqZ 0 (num_dom_children block)) true.

Definition nir_dominance_lca (impl : nir_function_impl) (b1 b2 : option nat) : option (option nat) :=
  r1 ← block_return_if_reachable impl b1;
  match r1 with
  | None => block_return_if_reachable impl b2
  | Some p1 =>
      r2 ← block_return_if_reachable impl b2;
      match r2 with
      | None => block_return_if_reachable impl b1
      | Some p2 =>
          assert! negb (Z.land (valid_metadata impl) nir_metadata_dominance_lca =? 0) ;;
          block1 ← blocks impl !! p1;
          block2 ← blocks impl !! p2;
          let i1 := dom_lca_representative block1 in
          let i2 := dom_lca_representative block2 in
          let '(i1, i2) := if i1 >? i2 then (i2, i1) else (i1, i2) in
          index ← range_minimum_query (dom_lca_table impl) i1 (u32 (i2 + 1));
          result ← load (block_from_idx impl) index;
          ok ← is_lca impl result p1 p2;
          assert! ok ;;
          Some (Some result)
      end
  end.

(** ** The tour *)

(** The cells of a tour from those of its parts *)
Lemma tour_cells t i p c C R : load t i = Some (Z.of_nat p) ->
  (forall j v, (c :: tour c C) !! j = Some v -> load t (i + 1 + Z.of_nat j) = Some (Z.of_nat v)) ->
  (forall j v, (p :: tour p R) !! j = Some v -> load t (i + 1 + 1 + 2 * Z.of_nat (size C) + Z.of_nat j) = Some (Z.of_nat v)) ->
  forall j v, (p :: tour p (FNode c C R)) !! j = Some v -> load t (i + Z.of_nat j) = Some (Z.of_nat v).
Proof.
  intros H0 HC HR [|j] v; [intros [= <-]; by rewrite Z.add_0_r|]. rewrite lookup_cons. cbn [tour]. rewrite app_comm_cons.
  intros [Hj|[Hlen Hj]]%lookup_app_Some.
  - apply HC in Hj. by replace (i + Z.of_nat (S j)) with (i + 1 + Z.of_nat j) by lia.
  - apply HR in Hj. cbn [length] in *. rewrite tour_length in *.
    by replace (i + Z.of_nat (S j)) with (i + 1 + 1 + 2 * Z.of_nat (size C) + Z.of_nat (j - S (2 * size C))) by lia.
Qed.

Section tour.
Context (g : graph) (bs : list nir_block) (w : Z) (Hf : frame g bs) (Hsize : Z.of_nat (length bs) < 2 ^ 32) (Hw : 0 < w < 2 ^ 32).
Context (Hch : forall p b, bs !! p = Some b -> lists_children b (kids (idom bs) (length bs) p)).
Implicit Type st : tour_state.

(** The stack cell of the current block counts the children already visited: 0 before the first visit. *)
Definition visited st (k : Z) : Prop :=
  if first_visit st then k = 0 else load (ts_table st) (cur_stack st) = Some k.

Lemma tour_visit_ok i st p b k : cur_block st = Some p -> bs !! p = Some b -> visited st k ->
  w <= cur_stack st < Z.of_nat (length (ts_table st)) -> 0 <= i < w -> (p < length (ts_from st))%nat ->
  (first_visit st = true -> dom_pre_index b = i + 1) ->
  exists t from, tour_visit bs w i st = Some (TourState t from (Some p) (cur_stack st) (first_visit st)) /\
    length t = length (ts_table st) /\ length from = length (ts_from st) /\
    (forall j, load t j = if decide (j = i) then Some (Z.of_nat p) else if decide (j = cur_stack st) then Some k else load (ts_table st) j) /\
    (forall j, load from j = if decide (first_visit st = true /\ j = Z.of_nat p) then Some p else load (ts_from st) j).
Proof using Hf Hsize Hw.
  intros Ec Eb Hk Hs Hi Hp Hpre. unfold tour_visit, visited in *. passert ltac:(lia). rewrite Ec. cbn [mbind option_bind].
  rewrite Eb. cbn [mbind option_bind]. rewrite (frame_index g bs p b Hf Eb).
  destruct (cell_store_ok (ts_table st) i (Z.of_nat p)) as [t1 E1]; [lia|]. rewrite E1. cbn [mbind option_bind].
  pose proof (store_length _ _ _ _ E1) as Hl1. destruct (first_visit st) eqn:Efv.
  - subst k. destruct (cell_store_ok t1 (cur_stack st) 0) as [t2 E2]; [lia|]. rewrite E2. cbn [mbind option_bind].
    unfold dom_lca_representative. rewrite (Hpre eq_refl), u32_small by lia. passert ltac:(lia).
    destruct (cell_store_ok (ts_from st) (Z.of_nat p) p) as [from E3]; [lia|]. rewrite E3. cbn [mbind option_bind].
    exists t2, from. split; [done|]. split; [by rewrite (store_length _ _ _ _ E2)|]. split; [by apply store_length in E3|]. split.
    + intros j. rewrite (load_store _ _ _ _ j E2), (load_store _ _ _ _ j E1).
      destruct (decide (j = cur_stack st)), (decide (j = i)); try lia; done.
    + intros j. rewrite (load_store _ _ _ _ j E3). destruct (decide (j = Z.of_nat p)) as [->|].
      * by rewrite decide_True.
      * by rewrite decide_False by (intros [_ ?]; done).
  - exists t1, (ts_from st). split; [done|]. split; [done|]. split; [done|]. split.
    + intros j. rewrite (load_store _ _ _ _ j E1). destruct (decide (j = i)); [done|]. destruct (decide (j = cur_stack st)) as [->|]; done.
    + intros j. by rewrite decide_False by (intros [? _]; done).
Qed.

Lemma tour_move_down st p b k c : cur_block st = Some p -> bs !! p = Some b -> kids (idom bs) (length bs) p !! k = Some c ->
  load (ts_table st) (cur_stack st) = Some (Z.of_nat k) -> 0 <= cur_stack st < Z.of_nat (length (ts_table st)) ->
  exists t, tour_move bs st = Some (TourState t (ts_from st) (Some c) (cur_stack st + 1) true) /\
    length t = length (ts_table st) /\
    forall j, load t j = if decide (j = cur_stack st) then Some (Z.of_nat (S k)) else load (ts_table st) j.
Proof using Hsize Hch.
  intros Ec Eb Hc Hk Hs. destruct (Hch p b Eb) as [Hnum Hl]. apply lookup_lt_Some in Hc as Hlt. unfold tour_move.
  rewrite Ec. cbn [mbind option_bind]. rewrite Eb. cbn [mbind option_bind]. rewrite Hk. cbn [mbind option_bind].
  destruct (Z.ltb_spec (Z.of_nat k) (num_dom_children b)); [|lia]. rewrite (Hl k c Hc). cbn [mbind option_bind].
  pose proof (kids_length (idom bs) (length bs) p). rewrite u32_small by lia.
  destruct (cell_store_ok (ts_table st) (cur_stack st) (Z.of_nat k + 1)) as [t Et]; [done|]. rewrite Et. cbn [mbind option_bind].
  exists t. split; [done|]. split; [by apply store_length in Et|]. intros j. rewrite (load_store _ _ _ _ j Et).
  destruct (decide (j = cur_stack st)); [|done]. f_equal. lia.
Qed.

Lemma tour_move_up st p b : cur_block st = Some p -> bs !! p = Some b ->
  load (ts_table st) (cur_stack st) = Some (Z.of_nat (length (kids (idom bs) (length bs) p))) ->
  tour_move bs st = Some (TourState (ts_table st) (ts_from st) (idom bs p) (cur_stack st - 1) false).
Proof using Hch.
  intros Ec Eb Hk. destruct (Hch p b Eb) as [Hnum _]. unfold tour_move.
  rewrite Ec. cbn [mbind option_bind]. rewrite Eb. cbn [mbind option_bind]. rewrite Hk. cbn [mbind option_bind].
  rewrite <- Hnum. rewrite Z.ltb_irrefl, Z.eqb_refl. unfold idom. by rewrite Eb.
Qed.

(** From the visit of [p] on, with the children in [C] still to come, the tour writes [tour p C]
    after [p] and returns to the parent of [p]. *)
Lemma tour_forest C : forall p i st k rest, unfolds (idom bs) (length bs) C ->
  (exists pre, kids (idom bs) (length bs) p = pre ++ roots C /\ k = length pre) ->
  (forall x, x ∈ p :: nodes C -> (x < length bs)%nat /\ (x < length (ts_from st))%nat) ->
  (forall x a e b, (x, (a, e)) ∈ times (i + 2) C -> bs !! x = Some b -> dom_pre_index b = a) ->
  (forall b, first_visit st = true -> bs !! p = Some b -> dom_pre_index b = i + 1) ->
  cur_block st = Some p -> visited st (Z.of_nat k) ->
  w <= cur_stack st -> cur_stack st + Z.of_nat (size C) < Z.of_nat (length (ts_table st)) ->
  0 <= i -> i + 2 * Z.of_nat (size C) < w ->
  exists t from, tour_loop (S (2 * size C) + rest) bs w i st
      = tour_loop rest bs w (i + 1 + 2 * Z.of_nat (size C)) (TourState t from (idom bs p) (cur_stack st - 1) false) /\
    length t = length (ts_table st) /\ length from = length (ts_from st) /\
    (forall j v, (p :: tour p C) !! j = Some v -> load t (i + Z.of_nat j) = Some (Z.of_nat v)) /\
    (forall j, j < i \/ (w <= j < cur_stack st) -> load t j = load (ts_table st) j) /\
    (forall x, x ∈ nodes C \/ (first_visit st = true /\ x = p) -> load from (Z.of_nat x) = Some x) /\
    (forall x, load (ts_from st) (Z.of_nat x) = Some x -> load from (Z.of_nat x) = Some x).
Proof using Hf Hsize Hw Hch.
  induction C as [|c C IHC R IHR]; intros p i st k rest U (pre & Hkids & ->) Hin Htimes Hpre Ec Hk Hs Hlen Hi Hiw;
    (destruct (lookup_lt_is_Some_2 bs p) as [b Eb]; [apply Hin; left|]);
    (destruct (tour_visit_ok i st p b (Z.of_nat (length pre)) Ec Eb Hk) as (t1 & from1 & E1 & Hl1 & Hlf1 & Ht1 & Hf1); [lia|lia|apply Hin; left|auto|]).
  - cbn [size nodes length Nat.mul Nat.add tour_loop]. rewrite Ec, E1. cbn [mbind option_bind].
    rewrite (tour_move_up _ p b); [|done|done|]; cbn [ts_table ts_from cur_stack].
    2:{ rewrite Ht1, decide_False, decide_True by lia. rewrite Hkids. cbn [roots]. by rewrite app_nil_r. }
    cbn [mbind option_bind]. exists t1, from1. split; [f_equal; lia|]. split; [done|]. split; [done|]. split; [|split; [|split]].
    + intros [|j] v; [|done]. intros [= <-]. rewrite Ht1, decide_True by lia. done.
    + intros j Hj. rewrite Ht1, !decide_False by lia. done.
    + intros x [H|[Hfv ->]]; [by apply not_elem_of_nil in H|]. rewrite Hf1, decide_True by done. done.
    + intros x Hx. rewrite Hf1. destruct (decide _) as [[_ Heq]|]; [|done]. f_equal. lia.
  - destruct U as (HC & UC & UR). rewrite size_node in *. cbn [nodes times] in *.
    assert (Hc : kids (idom bs) (length bs) p !! length pre = Some c) by (rewrite Hkids; by apply list_lookup_middle).
    assert (Hcp : idom bs c = Some p) by (apply list_elem_of_lookup_2 in Hc; unfold kids in Hc; by apply list_elem_of_filter in Hc as [? _]).
    replace (S (2 * S (size C + size R)) + rest)%nat with (S (S (2 * size C) + (S (2 * size R) + rest)))%nat by lia.
    cbn [tour_loop]. rewrite Ec, E1. cbn [mbind option_bind].
    destruct (tour_move_down (TourState t1 from1 (Some p) (cur_stack st) (first_visit st)) p b (length pre) c) as (t2 & E2 & Hl2 & Ht2); [done|done|done| | |];
      cbn [ts_table ts_from cur_stack] in *; [rewrite Ht1, decide_False, decide_True by lia; done|lia|].
    rewrite E2. cbn [mbind option_bind].
    destruct (IHC c (i + 1) (TourState t2 from1 (Some c) (cur_stack st + 1) true) 0%nat (S (2 * size R) + rest)%nat) as (t3 & from3 & E3 & Hl3 & Hlf3 & Htour3 & Hframe3 & Hin3 & Hmono3);
      cbn [ts_table ts_from cur_stack cur_block first_visit] in *; [done|by exists []| | | |done|done|lia..|].
    { intros x Hx. rewrite Hlf1. apply Hin. right. rewrite elem_of_cons in Hx. rewrite elem_of_cons, elem_of_app. tauto. }
    { intros x a e b' Hx. apply (Htimes x a e). right. apply elem_of_app. left. by replace (i + 2 + 1) with (i + 1 + 2) by lia. }
    { intros b' _ Eb'. rewrite (Htimes c _ _ b' (list_elem_of_here _ _) Eb'). lia. }
    rewrite E3, Hcp.
    destruct (IHR p (i + 1 + 1 + 2 * Z.of_nat (size C)) (TourState t3 from3 (Some p) (cur_stack st + 1 - 1) false) (S (length pre)) rest)
      as (t4 & from4 & E4 & Hl4 & Hlf4 & Htour4 & Hframe4 & Hin4 & Hmono4);
      cbn [ts_table ts_from cur_stack cur_block first_visit] in *; [done| | | |done|done| |lia..|].
    { exists (pre ++ [c]). rewrite <- app_assoc, length_app. cbn [app length roots] in *. split; [done|lia]. }
    { intros x Hx. rewrite Hlf3, Hlf1. apply Hin. rewrite elem_of_cons in Hx. rewrite !elem_of_cons, elem_of_app. tauto. }
    { intros x a e b' Hx. apply (Htimes x a e). right. apply elem_of_app. right.
      by replace (i + 2 + 1 + 2 * Z.of_nat (size C) + 1) with (i + 1 + 1 + 2 * Z.of_nat (size C) + 2) by lia. }
    { unfold visited. cbn [ts_table cur_stack first_visit]. rewrite Hframe3 by lia. rewrite Ht2, decide_True by lia. done. }
    exists t4, from4. rewrite E4. split; [f_equal; [lia|f_equal; lia]|]. split; [lia|]. split; [lia|]. split; [|split; [|split]].
    + apply (tour_cells t4); [rewrite Hframe4, Hframe3, Ht2, Ht1, decide_False, decide_True by lia; done| |].
      * intros j v Hj. pose proof (lookup_lt_Some _ _ _ Hj) as Hlt. cbn [length] in Hlt. rewrite tour_length in Hlt.
        rewrite Hframe4 by lia. by apply Htour3.
      * intros j v Hj. by apply Htour4.
    + intros j Hj. rewrite Hframe4, Hframe3, Ht2, Ht1, !decide_False by lia. done.
    + intros x Hx. rewrite elem_of_cons, elem_of_app in Hx. destruct Hx as [[->|[Hx|Hx]]|[Hfv ->]]; [auto|auto|auto|].
      apply Hmono4, Hmono3. rewrite Hf1, decide_True by done. done.
    + intros x Hx. apply Hmono4, Hmono3. rewrite Hf1. destruct (decide _) as [[_ Heq]|]; [f_equal; lia|done].
Qed.
End tour.

Lemma tour_loop_stop n bs s i st : cur_block st = None -> tour_loop n bs s i st = Some (i, st).
Proof. destruct n; cbn [tour_loop]; [done|]. by intros ->. Qed.

(** ** The table *)

(** The size assertion of [range_minimum_query_table_resize] for the tour *)
Definition tour_fits (n : Z) : Prop := (2 * n - 1) * (Z.log2 (2 * n - 1) + 1) < 2 ^ 32 - 1.

Lemma size_fits a b : 0 < a <= b -> b * (Z.log2 b + 1) < 2 ^ 32 - 1 -> a * (Z.log2 a + 1) < 2 ^ 32 - 1.
Proof.
  intros Hab Hb. pose proof (Z.log2_le_mono a b ltac:(lia)). pose proof (Z.log2_nonneg a).
  apply Z.le_lt_trans with (b * (Z.log2 b + 1)); [|done]. apply Z.mul_le_mono_nonneg; lia.
Qed.

(** The values of the tour from the start block *)
Definition tour_values (C : dforest) : list Z := map Z.of_nat (nir_start_block :: tour nir_start_block C).

Lemma tour_values_length C : Z.of_nat (length (tour_values C)) = 1 + 2 * Z.of_nat (size C).
Proof. unfold tour_values. rewrite length_map. cbn [length]. rewrite tour_length. lia. Qed.

(** The table holds the tour of the dominance tree [C]. *)
Record tour_table (C : dforest) (t : range_minimum_query_table) (from : list (option nat)) : Prop := {
  tt_shape : rmq_shape t;
  tt_input : rmq_input t (tour_values C);
  tt_from : forall x, x ∈ nodes (FNode nir_start_block C FNil) -> load from (Z.of_nat x) = Some x }.

Lemma tour_input C t : width t = 1 + 2 * Z.of_nat (size C) ->
  (forall j v, (nir_start_block :: tour nir_start_block C) !! j = Some v -> load (table t) (Z.of_nat j) = Some (Z.of_nat v)) ->
  rmq_input t (tour_values C).
Proof.
  intros Hw H. split; [by rewrite tour_values_length|]. intros i v Hi. unfold tour_values. rewrite list_lookup_fmap, fmap_Some.
  intros (x & Hx & ->). apply H in Hx. by rewrite Z2Nat.id in Hx by done.
Qed.

Section build.
Context (g : graph) (bs : list nir_block) (C : dforest) (Hg : cfg_ok g) (Hr : dom_result g bs C).
Notation n := (Z.of_nat (length g)).
Context (Hfit : tour_fits n).

Lemma dr_size : Z.of_nat (size C) < n.
Proof using Hg Hr.
  assert (S (size C) <= length g)%nat; [|lia]. replace (S (size C)) with (size (FNode nir_start_block C FNil)) by (rewrite size_node; cbn; lia).
  unfold size. rewrite <- (length_seq (length g) 0). apply submseteq_length, NoDup_submseteq; [apply (dr_numbered g bs C Hr)|].
  intros y Hy%(dr_nodes g bs C Hr). apply elem_of_seq. apply (reachable_in_range g y Hg) in Hy. lia.
Qed.

Lemma pre_index_of x a e b : (x, (a, e)) ∈ times 1 (FNode nir_start_block C FNil) -> bs !! x = Some b -> dom_pre_index b = a.
Proof using Hr.
  intros Hx Eb. destruct (nb_inside bs _ (dr_numbered g bs C Hr) x a e Hx) as (b' & Eb' & Ha & _). congruence.
Qed.

Lemma realloc_info_ok v t f : exists t' f', realloc_info (NirImpl bs n v t f) = Some (NirImpl bs n v t' f') /\
  rmq_shape t' /\ width t' = 2 * n - 1 /\ length f' = length g.
Proof using Hg Hfit.
  unfold realloc_info. cbn [num_blocks dom_lca_table block_from_idx]. pose proof (cfg_size g Hg). pose proof (cfg_start g Hg).
  rewrite u32_small by lia. rewrite (Z.mul_comm n 2). destruct (resize_ok t (2 * n - 1)) as (t' & -> & Hs & Hw & _); [lia|done|].
  cbn [mbind option_bind]. eexists _, _. split; [done|]. split; [done|]. split; [done|]. rewrite length_resize. lia.
Qed.

Lemma generate_single v t f : length g = 1%nat -> rmq_shape t -> width t = 1 -> length f = 1%nat ->
  exists t' f', generate_euler_tour (NirImpl bs n v t f) = Some (NirImpl bs n v t' f') /\ tour_table C t' f'.
Proof using Hg Hr.
  intros Hn1 [H1 H2 H3 H4] Hw Hlf. pose proof dr_size. assert (C = FNil) as -> by (destruct C as [|? ? ?]; [done|rewrite size_node in *; lia]).
  unfold generate_euler_tour. cbn [num_blocks dom_lca_table block_from_idx]. rewrite Hn1. cbn [Z.eqb Z.of_nat Pos.of_succ_nat].
  rewrite Hw in H1, H2, H3, H4. change (Z.log2 1) with 0 in H3.
  destruct (cell_store_ok (table t) 0 0) as [t' Et]; [lia|]. destruct (cell_store_ok f 0 nir_start_block) as [f' Ef]; [lia|].
  cbn. rewrite Et. cbn. rewrite Ef. cbn. eexists _, _. split; [done|]. pose proof (store_length _ _ _ _ Et). split.
  - split; cbn [width height table]; rewrite ?Hw; try change (Z.log2 1) with 0; lia.
  - apply tour_input; [done|]. intros [|j] x; [|done]. intros [= <-]. cbn [table]. by rewrite (load_store _ _ _ _ _ Et).
  - intros x Hx. apply list_elem_of_singleton in Hx as ->. by rewrite (load_store _ _ _ _ _ Ef).
Qed.

(** The stack fits behind the first row, and the loop ends at the start block's parent. *)
Lemma tour_run t f w : rmq_shape t -> w = width t -> w = 2 * n - 1 -> 2 <= height t -> length f = length g ->
  exists cells from, tour_loop (Z.to_nat w) bs w 0 (TourState (table t) f (Some nir_start_block) w true)
      = Some (1 + 2 * Z.of_nat (size C), TourState cells from None (w - 1) false) /\
    length cells = length (table t) /\
    (forall j v, (nir_start_block :: tour nir_start_block C) !! j = Some v -> load cells (Z.of_nat j) = Some (Z.of_nat v)) /\
    (forall x, x ∈ nodes (FNode nir_start_block C FNil) -> load from (Z.of_nat x) = Some x).
Proof using Hg Hr.
  intros [H1 H2 H3 H4] -> Hw Hh Hlf. pose proof dr_size as Hsz. pose proof (cfg_size g Hg) as Hcs.
  pose proof (dr_length g bs C Hr) as Hlen. pose proof (dr_unfolds g bs C Hr) as (Hk & UC & _).
  assert (Hroot : idom bs nir_start_block = None).
  { destruct (idom bs nir_start_block) eqn:E; [|done]. destruct (proj1 (dr_idom g bs C Hr nir_start_block)) as [_ []]; [by eexists|done]. }
  replace (Z.to_nat (width t)) with (S (2 * size C) + (Z.to_nat (width t) - S (2 * size C)))%nat by lia.
  destruct (tour_forest g bs (width t) (dr_frame g bs C Hr) ltac:(lia) ltac:(lia) (dr_children g bs C Hr) C nir_start_block 0
    (TourState (table t) f (Some nir_start_block) (width t) true) 0%nat (Z.to_nat (width t) - S (2 * size C)))
    as (cells & from & E & Hl & _ & Htour & _ & Hin & _); cbn [ts_table ts_from cur_stack cur_block first_visit] in *;
    [done|by exists []| | | |done|done|lia|nia|lia|lia|].
  - intros x Hx. rewrite Hlen, Hlf. enough (x < length g)%nat by done. apply (reachable_in_range g x Hg), (dr_nodes g bs C Hr).
    cbn [nodes]. by rewrite app_nil_r.
  - intros x a e b Hx. apply (pre_index_of x a e). cbn [times]. right. apply elem_of_app. by left.
  - intros b _. apply (pre_index_of nir_start_block _ (1 + 1 + 2 * Z.of_nat (size C))). cbn [times]. left.
  - rewrite E, Hroot, tour_loop_stop by done. exists cells, from. split; [do 2 f_equal; lia|]. split; [done|]. split.
    + intros j v Hj. by apply (Htour j v).
    + intros x. cbn [nodes]. rewrite app_nil_r, elem_of_cons. intros [->|Hx]; apply Hin; auto.
Qed.

Lemma generate_euler_tour_ok v t f : rmq_shape t -> width t = 2 * n - 1 -> length f = length g ->
  exists t' f', generate_euler_tour (NirImpl bs n v t f) = Some (NirImpl bs n v t' f') /\ tour_table C t' f'.
Proof using Hg Hr Hfit.
  intros Hs Hw Hlf. pose proof (cfg_start g Hg) as H0. pose proof dr_size as Hsz. destruct (decide (length g = 1)%nat) as [H1|H1].
  { apply generate_single; [done|done|lia|lia]. }
  unfold generate_euler_tour. cbn [num_blocks dom_lca_table block_from_idx blocks]. destruct (Z.eqb_spec n 1) as [|Hn1]; [lia|].
  assert (Hh : 2 <= height t).
  { rewrite (rmq_height t Hs), Hw. assert (1 <= Z.log2 (2 * n - 1)); [|lia]. apply Z.log2_le_pow2; lia. }
  passert ltac:(lia). destruct (tour_run t f (width t) Hs eq_refl Hw Hh Hlf) as (cells & from & -> & Hl & Htour & Hfrom).
  cbn [mbind option_bind cur_block]. rewrite bool_decide_eq_true_2 by done. cbn [ts_table ts_from].
  pose proof Hs as [S1 S2 S3 S4]. set (t1 := RmqTable cells (width t) (height t)).
  assert (Hs1 : rmq_shape t1) by (split; cbn [width height table t1]; congruence || lia).
  destruct (Z.eqb_spec (1 + 2 * Z.of_nat (size C)) (width t1)) as [Heq|Hne]; cbn [negb].
  - cbn [mbind option_bind]. eexists _, _. split; [done|]. split; [done| |done]. by apply tour_input.
  - cbn [width t1] in Hne. destruct (resize_ok t1 (1 + 2 * Z.of_nat (size C))) as (t2 & E2 & Hs2 & Hw2 & Hload); [lia| |].
    { apply (size_fits _ (2 * n - 1)); [lia|done]. }
    rewrite E2. cbn [mbind option_bind]. eexists _, _. split; [done|]. split; [done| |done].
    apply tour_input; [done|]. intros j x Hj. pose proof (lookup_lt_Some _ _ _ Hj) as Hlt. cbn [length] in Hlt. rewrite tour_length in Hlt.
    rewrite Hload; [by apply Htour|]. pose proof (Z.log2_nonneg (1 + 2 * Z.of_nat (size C))). nia.
Qed.
End build.

(** ** Queries *)

Section query.
Context (g : graph) (bs : list nir_block) (C : dforest) (Hg : cfg_ok g) (Hr : dom_result g bs C).
Let F := FNode nir_start_block C FNil.
Notation par := (idom bs).

Lemma tour_value_visit j v : 0 <= j -> tour_values C !! Z.to_nat j = Some v ->
  exists x, v = Z.of_nat x /\ visit nir_start_block F 1 (j + 1) x.
Proof using.
  intros Hj. unfold tour_values. rewrite list_lookup_fmap, fmap_Some. intros (x & Hx & ->). exists x. split; [done|].
  split; [lia|]. replace (j + 1 - 1) with j by lia. cbn [tour F]. rewrite app_comm_cons. by apply lookup_app_l_Some.
Qed.

Lemma visit_tour_value t x : visit nir_start_block F 1 t x -> t < 2 + 2 * Z.of_nat (size C) ->
  tour_values C !! Z.to_nat (t - 1) = Some (Z.of_nat x).
Proof using.
  intros [Ht Hx] Hlt. unfold tour_values. rewrite list_lookup_fmap. cbn [tour F] in Hx. rewrite app_comm_cons in Hx.
  rewrite lookup_app_l in Hx by (cbn [length]; rewrite tour_length; lia). by rewrite Hx.
Qed.

(** Between the first visits of two blocks, a common ancestor is visited. *)
Lemma common_visit x y a b c d : (x, (a, b)) ∈ times 1 F -> (y, (c, d)) ∈ times 1 F -> a <= c ->
  exists t v, a <= t <= c /\ visit nir_start_block F 1 t v /\ anc par x v /\ anc par y v.
Proof using Hr.
  intros Hx Hy Hac. pose proof (dr_unfolds g bs C Hr) as (HC & UC & _).
  assert (Hroot : forall z t, (z, t) ∈ times 1 F -> anc par z nir_start_block).
  { intros z t Hz%times_in. apply (elem_of_subtree par (length bs) (dr_range g bs C Hr) nir_start_block C z UC HC).
    cbn [nodes F] in Hz. by rewrite app_nil_r in Hz. }
  pose proof (Hroot x _ Hx) as Hx0. pose proof (Hroot y _ Hy) as Hy0. unfold F. setoid_rewrite visit_node.
  unfold F in Hx, Hy. cbn [times] in Hx, Hy. rewrite app_nil_r in Hx, Hy.
  apply elem_of_cons in Hx as [Heq|Hx].
  { injection Heq as -> -> ->. exists 1, nir_start_block. split; [lia|]. split; [auto|]. split; [apply rtc_refl|done]. }
  apply elem_of_cons in Hy as [Heq|Hy]; [injection Heq as -> -> ->; apply times_bounds in Hx; lia|].
  destruct (visit_common par (length bs) (dr_range g bs C Hr) nir_start_block C (1 + 1) x y a b c d UC) as (t & v & Ht & Hv & H); [|done..|].
  { intros r Hrt. rewrite HC in Hrt. by apply (elem_of_kids par (length bs) (dr_range g bs C Hr)). }
  exists t, v. auto.
Qed.

Lemma lca_of_min x y a b c d m : (x, (a, b)) ∈ times 1 F -> (y, (c, d)) ∈ times 1 F -> a <= c ->
  is_min (tour_values C) (a - 1) c m ->
  exists z, m = Z.of_nat z /\ anc par x z /\ anc par y z /\ forall e, anc par x e -> anc par y e -> anc par z e.
Proof using Hr Hg.
  intros Hx Hy Hac [(j & Hj & Hj0 & Ej) Hmin]. destruct (tour_value_visit j m Hj0 Ej) as (z & -> & Hz). exists z. split; [done|].
  pose proof (times_bounds _ _ _ _ _ Hx) as Hbx. pose proof (times_bounds _ _ _ _ _ Hy) as Hby. unfold F in Hbx, Hby. rewrite size_node in Hbx, Hby.
  assert (Hall : forall e t v, anc par x e -> anc par y e -> a <= t <= c -> visit nir_start_block F 1 t v -> anc par v e).
  { intros e t v Hxe Hye Ht Hv. assert (Re : e ∈ nodes F).
    { apply (dr_nodes g bs C Hr). pose proof (proj1 (dr_nodes g bs C Hr x) (times_in _ _ _ _ Hx)) as Rx.
      apply (dominates_reachable g e x Rx). by apply (dr_anc g bs C Hr). }
    destruct (in_times 1 F e Re) as [[s f] He].
    pose proof (dr_unfolds g bs C Hr) as UF. pose proof (nb_nodup _ _ (dr_numbered g bs C Hr)) as Hnd.
    apply (times_nested par (length bs) (dr_down g bs C Hr) (dr_range g bs C Hr) F 1 e x s f a b UF Hnd He Hx) in Hxe.
    apply (times_nested par (length bs) (dr_down g bs C Hr) (dr_range g bs C Hr) F 1 e y s f c d UF Hnd He Hy) in Hye.
    apply (visit_subtree par (length bs) (dr_range g bs C Hr) nir_start_block F 1 e s f t v UF He); [lia|done]. }
  destruct (common_visit x y a b c d Hx Hy Hac) as (t0 & v0 & Ht0 & Hv0 & Hxv & Hyv).
  assert (z = v0) as ->.
  { pose proof (Hall v0 (j + 1) z Hxv Hyv ltac:(lia) Hz) as Hle%(anc_le par (dr_down g bs C Hr)).
    assert (Z.of_nat z <= Z.of_nat v0); [|lia]. apply (Hmin (t0 - 1)); [lia|]. apply visit_tour_value; [done|]. cbn [size nodes length] in *. lia. }
  split; [done|]. split; [done|]. intros e Hxe Hye. by apply (Hall e (j + 1)); [..|lia|].
Qed.
End query.

(** ** Metadata *)

(** The table answers queries about the dominance tree [C]. *)
Record lca_ready (C : dforest) (t : range_minimum_query_table) (from : list (option nat)) : Prop := {
  lr_rmq : rmq_ready t (tour_values C);
  lr_width : width t = 1 + 2 * Z.of_nat (size C);
  lr_from : forall x, x ∈ nodes (FNode nir_start_block C FNil) -> load from (Z.of_nat x) = Some x }.

Record lca_meta (g : graph) (impl : nir_function_impl) : Prop := {
  lm_dom : dom_meta g impl;
  lm_lca : has impl 7 = true -> has impl 1 = true /\
    exists C, dom_result g (blocks impl) C /\ lca_ready C (dom_lca_table impl) (block_from_idx impl) }.

Lemma nir_calc_dominance_lca_impl_ok g impl : cfg_ok g -> tour_fits (Z.of_nat (length g)) -> dom_meta g impl -> has impl 7 = false ->
  exists bs C t f, nir_calc_dominance_lca_impl impl = Some (NirImpl bs (Z.of_nat (length g)) (Z.lor (valid_metadata impl) 3) t f) /\
    dom_result g bs C /\ lca_ready C t f.
Proof.
  intros Hg Hfit Hm H7. unfold nir_calc_dominance_lca_impl. change nir_metadata_dominance_lca with (2 ^ 7).
  rewrite land_pow2_testbit by done. fold (has impl 7). rewrite H7.
  destruct (require_dominance_ok g impl Hg Hm) as (bs & C & -> & HC & _). cbn [mbind option_bind].
  destruct (realloc_info_ok g bs Hg Hfit (Z.lor (valid_metadata impl) 3) (dom_lca_table impl) (block_from_idx impl)) as (t1 & f1 & -> & Hs1 & Hw1 & Hf1).
  cbn [mbind option_bind].
  destruct (generate_euler_tour_ok g bs C Hg HC Hfit (Z.lor (valid_metadata impl) 3) t1 f1 Hs1 Hw1 Hf1) as (t2 & f2 & -> & [Hs2 Hin2 Hfrom2]).
  cbn [mbind option_bind dom_lca_table block_from_idx].
  destruct (preprocess_ok t2 (tour_values C) Hs2 Hin2) as (t3 & -> & Hready & Hw3). cbn [mbind option_bind].
  exists bs, C, t3, f2. split; [done|]. split; [done|]. split; [done| |done]. rewrite Hw3. destruct Hin2 as [<- _]. apply tour_values_length.
Qed.

Lemma require_control_flow_ok g impl : cfg_ok g -> tour_fits (Z.of_nat (length g)) -> lca_meta g impl ->
  exists bs C t f, nir_metadata_require impl nir_metadata_control_flow
      = Some (NirImpl bs (Z.of_nat (length g)) (Z.lor (valid_metadata impl) 131) t f) /\ dom_result g bs C /\ lca_ready C t f.
Proof.
  intros Hg Hfit [Hm Hlca]. unfold nir_metadata_require. change nir_metadata_control_flow with 131.
  destruct (index_step g impl 131 Hg Hm eq_refl) as (bs & -> & Hf & Hsame). cbn [mbind option_bind].
  destruct (dom_step g bs (valid_metadata impl) (dom_lca_table impl) (block_from_idx impl) 131) as (bs2 & C & v & -> & HC & Hv & Hb);
    [done|done|done| |].
  { intros H1. destruct (dm_dom g impl Hm H1) as [H0 HC]. by rewrite (Hsame H0). }
  cbn [mbind option_bind]. change nir_metadata_dominance_lca with (2 ^ 7). rewrite needs_update by done. cbn [valid_metadata].
  change (Z.testbit 131 7) with true. cbn [andb].
  assert (Hv7 : Z.testbit v 7 = has impl 7) by (destruct Hv as [->| ->]; [done|]; rewrite Z.lor_spec; apply orb_false_r).
  assert (Hlor : forall u, u = 0 \/ u = 3 -> Z.lor (Z.lor v u) 131 = Z.lor (valid_metadata impl) 131).
  { intros u Hu. destruct Hv as [->| ->], Hu as [->| ->]; rewrite <- ?Z.lor_assoc; done. }
  rewrite Hv7. destruct (has impl 7) eqn:H7; cbn [negb].
  - cbn [mbind option_bind]. destruct (Hlca eq_refl) as (H1 & C' & HC' & Hready). rewrite <- (Hsame (proj1 (dm_dom g impl Hm H1))) in HC'.
    rewrite <- (Hb H1) in HC'. exists bs2, C', (dom_lca_table impl), (block_from_idx impl). split; [|done].
    unfold set_valid_metadata. cbn [blocks valid_metadata num_blocks dom_lca_table block_from_idx]. do 2 f_equal.
    rewrite <- (Hlor 0) by auto. by rewrite Z.lor_0_r.
  - destruct (nir_calc_dominance_lca_impl_ok g (NirImpl bs2 (Z.of_nat (length g)) v (dom_lca_table impl) (block_from_idx impl)))
      as (bs3 & C3 & t & f & -> & HC3 & Hready); [done|done| |done|].
    { pose proof (dr_frame g bs2 C HC) as Hf2. split; [by apply frame_graph_of|done|]. unfold has. cbn [valid_metadata]. intros H1.
      assert (H1' : Z.testbit (valid_metadata impl) 1 = true) by (destruct Hv as [->| ->]; [done|]; rewrite Z.lor_spec in H1; by rewrite orb_false_r in H1).
      split; [|by exists C]. destruct (dm_dom g impl Hm H1') as [H0 _]. unfold has in H0. destruct Hv as [->| ->]; [done|]. rewrite Z.lor_spec, H0. done. }
    cbn [mbind option_bind]. exists bs3, C3, t, f. split; [|done]. unfold set_valid_metadata. cbn [blocks valid_metadata num_blocks dom_lca_table block_from_idx].
    do 2 f_equal. by apply Hlor; right.
Qed.

(** The two calls inside the passes are instances of [nir_metadata_require]. *)
Lemma nir_metadata_require_instances impl :
  nir_metadata_require impl nir_metadata_block_index = require_block_index impl /\
  nir_metadata_require impl (Z.lor nir_metadata_block_index nir_metadata_dominance) = require_dominance impl.
Proof.
  assert (H7 : forall required i, Z.testbit required 7 = false -> NEEDS_UPDATE required i nir_metadata_dominance_lca = false).
  { intros required i H. change nir_metadata_dominance_lca with (2 ^ 7). by rewrite needs_update, H by done. }
  assert (H1 : forall i, NEEDS_UPDATE nir_metadata_block_index i nir_metadata_dominance = false).
  { intros i. change nir_metadata_dominance with (2 ^ 1). by rewrite needs_update. }
  unfold nir_metadata_require, require_block_index, require_dominance. split.
  - destruct (if NEEDS_UPDATE _ _ _ then _ else _); [|done]. cbn [mbind option_bind]. rewrite H1. cbn [mbind option_bind]. by rewrite H7.
  - destruct (if NEEDS_UPDATE _ _ _ then _ else _); [|done]. cbn [mbind option_bind].
    destruct (if NEEDS_UPDATE _ _ _ then _ else _); [|done]. cbn [mbind option_bind]. by rewrite H7.
Qed.

Lemma has_control_flow v k : Z.testbit 131 k = true -> Z.testbit (Z.lor v 131) k = true.
Proof. intros H. by rewrite Z.lor_spec, H, orb_true_r. Qed.

(** ** Answers *)

(** What [nir_dominance_lca] returns; NULL and unreachable blocks are neutral. *)
Definition lca_answer (g : graph) (b1 b2 r : option nat) : Prop :=
  let live b := exists x, b = Some x /\ reachable g x in
  (live b1 -> ~ live b2 -> r = b1) /\ (~ live b1 -> live b2 -> r = b2) /\ (~ live b1 -> ~ live b2 -> r = None) /\
  (forall x y, b1 = Some x -> b2 = Some y -> reachable g x -> reachable g y ->
    exists m, r = Some m /\ dominates g m x /\ dominates g m y /\ forall d, dominates g d x -> dominates g d y -> dominates g d m).

Section answers.
Context (g : graph) (bs : list nir_block) (C : dforest) (Hg : cfg_ok g) (Hr : dom_result g bs C).
Context (t : range_minimum_query_table) (f : list (option nat)) (Hl : lca_ready C t f) (v : Z).
Notation impl := (NirImpl bs (Z.of_nat (length g)) (Z.lor v 131) t f).

Lemma return_if_reachable_ok b : (forall x, b = Some x -> (x < length g)%nat) ->
  exists r, block_return_if_reachable impl b = Some r /\
    ((r = b /\ exists x, b = Some x /\ reachable g x) \/ (r = None /\ ~ exists x, b = Some x /\ reachable g x)).
Proof using Hg Hr.
  intros Hb. destruct b as [x|]; [|eexists; split; [done|]; right; split; [done|]; by intros (? & ? & _)].
  unfold block_return_if_reachable, nir_block_is_reachable. cbn [blocks]. rewrite <- (dr_length g bs C Hr) in Hb.
  destruct (lookup_lt_is_Some_2 bs x) as [blk Eb]; [by apply Hb|]. rewrite Eb. cbn [mbind option_bind]. eexists. split; [done|].
  destruct (reachable_dec g bs C Hr x) as [Rx|Nx].
  - left. destruct (reachable_numbers g bs C Hg Hr x blk Eb Rx) as [_ H]. destruct (Z.eqb_spec (dom_post_index blk) 0); [lia|]. eauto.
  - right. destruct (unreachable_numbers g bs C Hr x blk Eb Nx) as [_ ->]. split; [done|]. by intros (y & [= ->] & Ry).
Qed.

Lemma block_dominates_ok a b : (a < length bs)%nat -> (b < length bs)%nat ->
  exists r, nir_block_dominates impl a b = Some r /\ (r = true <-> dominates g a b).
Proof using Hg Hr.
  intros Ha Hb. unfold nir_block_dominates. change nir_metadata_dominance with (2 ^ 1). rewrite land_pow2_testbit by done.
  cbn [valid_metadata blocks]. rewrite has_control_flow by done.
  destruct (lookup_lt_is_Some_2 bs a Ha) as [ba Ea]. destruct (lookup_lt_is_Some_2 bs b Hb) as [bb Eb].
  rewrite Ea. cbn [mbind option_bind]. rewrite Eb. cbn [mbind option_bind]. eexists. split; [done|].
  rewrite <- (dominates_numbers g bs C Hg Hr a b ba bb Ea Eb), andb_true_iff, Z.geb_le, Z.leb_le. done.
Qed.

(** The assertion on the result *)
Lemma is_lca_ok m x y : reachable g x -> reachable g y -> dominates g m x -> dominates g m y ->
  (forall d, dominates g d x -> dominates g d y -> dominates g d m) -> is_lca impl m x y = Some true.
Proof using Hg Hr.
  intros Rx Ry Hmx Hmy Hmax. assert (Hlt : forall z, reachable g z -> (z < length bs)%nat).
  { intros z Rz. rewrite (dr_length g bs C Hr). by apply reachable_in_range. }
  pose proof (dominates_reachable g m x Rx Hmx) as Rm. unfold is_lca.
  destruct (block_dominates_ok m x) as (d1 & -> & H1); [auto..|]. destruct (block_dominates_ok m y) as (d2 & -> & H2); [auto..|].
  cbn [mbind option_bind]. assert (d1 = true) as -> by tauto. assert (d2 = true) as -> by tauto. cbn [negb orb blocks].
  destruct (lookup_lt_is_Some_2 bs m) as [bm Em]; [auto|]. rewrite Em. cbn [mbind option_bind].
  destruct (dr_children g bs C Hr m bm Em) as [Hnum Hkids].
  seqZ_loop (fun (_ : Z) (ok : bool) => ok = true); [lia|done| |by subst].
  intros i ok Hi ->. destruct (lookup_lt_is_Some_2 (kids (idom bs) (length bs) m) (Z.to_nat i)) as [c Hc]; [lia|].
  pose proof (Hkids _ _ Hc) as Eload. rewrite Z2Nat.id in Eload by lia. rewrite Eload. cbn [mbind option_bind].
  apply list_elem_of_lookup_2, (elem_of_kids (idom bs) (length bs) (dr_range g bs C Hr)) in Hc. pose proof (dr_range g bs C Hr c m Hc) as Hcl.
  destruct (block_dominates_ok c x) as (e1 & -> & G1); [auto..|]. destruct (block_dominates_ok c y) as (e2 & -> & G2); [auto..|].
  cbn [mbind option_bind]. eexists. split; [done|]. destruct e1, e2; try done. exfalso.
  assert (Hcm : dominates g c m) by (apply Hmax; tauto). apply (dr_anc g bs C Hr m c Rm), (anc_le (idom bs) (dr_down g bs C Hr)) in Hcm.
  apply (dr_down g bs C Hr) in Hc. lia.
Qed.

(** The query for two reachable blocks, the first of which is visited first *)
Lemma query_lca x y bx b_y : reachable g x -> reachable g y -> bs !! x = Some bx -> bs !! y = Some b_y ->
  dom_lca_representative bx <= dom_lca_representative b_y ->
  exists m, range_minimum_query t (dom_lca_representative bx) (u32 (dom_lca_representative b_y + 1)) = Some (Z.of_nat m) /\
    load f (Z.of_nat m) = Some m /\ dominates g m x /\ dominates g m y /\
    forall d, dominates g d x -> dominates g d y -> dominates g d m.
Proof using Hg Hr Hl.
  intros Rx Ry Ex Ey. destruct (reachable_numbers g bs C Hg Hr x bx Ex Rx) as [Tx Hx].
  destruct (reachable_numbers g bs C Hg Hr y b_y Ey Ry) as [Ty Hy].
  unfold dom_lca_representative. rewrite !(u32_small (_ - 1)) by lia. intros Hle. rewrite u32_small by lia.
  replace (dom_pre_index b_y - 1 + 1) with (dom_pre_index b_y) by lia.
  pose proof (times_bounds _ _ _ _ _ Ty) as Hb. rewrite size_node in Hb. cbn [size nodes length] in Hb.
  destruct (query_ok t (tour_values C) (dom_pre_index bx - 1) (dom_pre_index b_y) (lr_rmq C t f Hl)) as (m & Em & Hm);
    [lia|rewrite (lr_width C t f Hl); lia|].
  destruct (lca_of_min g bs C Hg Hr x y _ _ _ _ m Tx Ty ltac:(lia) Hm) as (z & -> & Hxz & Hyz & Hmax).
  pose proof (dr_anc g bs C Hr) as Hanc. assert (Hzx : dominates g z x) by (by apply Hanc).
  pose proof (dominates_reachable g z x Rx Hzx) as Rz. exists z. split; [done|].
  split; [by apply (lr_from C t f Hl), (dr_nodes g bs C Hr)|]. split; [done|]. split; [by apply Hanc|].
  intros d Hd1 Hd2. apply Hanc; [done|]. apply Hmax; by apply Hanc.
Qed.

Lemma nir_dominance_lca_ok b1 b2 : (forall x, b1 = Some x -> (x < length g)%nat) -> (forall x, b2 = Some x -> (x < length g)%nat) ->
  exists r, nir_dominance_lca impl b1 b2 = Some r /\ lca_answer g b1 b2 r.
Proof using Hg Hr Hl.
  intros Hb1 Hb2. unfold nir_dominance_lca, lca_answer.
  destruct (return_if_reachable_ok b1 Hb1) as (r1 & E1 & H1). destruct (return_if_reachable_ok b2 Hb2) as (r2 & E2 & H2).
  rewrite E1, E2. cbn [mbind option_bind]. destruct H1 as [(-> & x & -> & Rx)|[-> N1]].
  2:{ exists r2. split; [done|]. split; [tauto|]. split; [by destruct H2 as [[-> _]|[-> ?]]|]. split; [by destruct H2 as [[-> ?]|[-> _]]|].
    intros x y -> _ Rx. destruct N1. eauto. }
  destruct H2 as [(-> & y & -> & Ry)|[-> N2]].
  2:{ exists (Some x). split; [done|]. split; [done|]. split; [by intros _ ?|]. split; [intros []; eauto|].
    intros x' y _ -> _ Ry. destruct N2. eauto. }
  change nir_metadata_dominance_lca with (2 ^ 7). rewrite land_pow2_testbit by done.
  cbn [valid_metadata blocks dom_lca_table block_from_idx]. rewrite has_control_flow by done.
  destruct (lookup_lt_is_Some_2 bs x) as [bx Ex]; [rewrite (dr_length g bs C Hr); by apply Hb1|].
  destruct (lookup_lt_is_Some_2 bs y) as [b_y Ey]; [rewrite (dr_length g bs C Hr); by apply Hb2|].
  rewrite Ex, Ey. cbn [mbind option_bind].
  assert (Hq : exists i1 i2 m, (if dom_lca_representative bx >? dom_lca_representative b_y
      then (dom_lca_representative b_y, dom_lca_representative bx) else (dom_lca_representative bx, dom_lca_representative b_y)) = (i1, i2) /\
    range_minimum_query t i1 (u32 (i2 + 1)) = Some (Z.of_nat m) /\ load f (Z.of_nat m) = Some m /\ dominates g m x /\ dominates g m y /\
    forall d, dominates g d x -> dominates g d y -> dominates g d m).
  { destruct (_ >? _) eqn:Hgt; zbool; eexists _, _.
    - destruct (query_lca y x b_y bx Ry Rx Ey Ex ltac:(lia)) as (m & ? & ? & ? & ? & ?). exists m. auto 10.
    - destruct (query_lca x y bx b_y Rx Ry Ex Ey ltac:(lia)) as (m & ? & ? & ? & ? & ?). exists m. auto 10. }
  destruct Hq as (i1 & i2 & m & -> & -> & Hload & Hmx & Hmy & Hmax). cbn [mbind option_bind]. rewrite Hload. cbn [mbind option_bind].
  rewrite (is_lca_ok m x y) by done. cbn [mbind option_bind]. exists (Some m). split; [done|].
  split; [intros _ []; eauto|]. split; [intros []; eauto|]. split; [intros []; eauto|].
  intros x' y' [= <-] [= <-] _ _. eauto.
Qed.
End answers.

(** C4: lowest common ancestors.  For a function whose blocks are indexed from beginning
    to end and whose tour fits the table, and whatever part of the metadata is already valid,
    requiring the control-flow metadata succeeds and leaves valid metadata; then
    nir_dominance_lca of two reachable blocks is the block that dominates both and is
    dominated by every other block that does, and a NULL or unreachable argument is
    ignored.  None of the assertions fails, among them the one that checks the
    result and the one that ties the tour to the numbering, and the stack of the tour stays
    inside the table. *)
Theorem nir_dominance_lca_correct g impl : cfg_ok g -> tour_fits (Z.of_nat (length g)) -> lca_meta g impl ->
  exists impl', nir_metadata_require impl nir_metadata_control_flow = Some impl' /\ lca_meta g impl' /\
  forall b1 b2, (forall x, b1 = Some x -> (x < length g)%nat) -> (forall x, b2 = Some x -> (x < length g)%nat) ->
  exists r, nir_dominance_lca impl' b1 b2 = Some r /\ lca_answer g b1 b2 r.
Proof.
  intros Hg Hfit Hm. destruct (require_control_flow_ok g impl Hg Hfit Hm) as (bs & C & t & f & E & HC & Hready).
  eexists. split; [exact E|]. split.
  - pose proof (dr_frame g bs C HC) as Hf. split; [split|].
    + by apply frame_graph_of.
    + intros _. done.
    + intros _. split; [by apply has_control_flow|by exists C].
    + intros _. split; [by apply has_control_flow|by exists C].
  - intros b1 b2 H1 H2. by apply (nir_dominance_lca_ok g bs C Hg HC).
Qed.

Lemma example_lca_meta : lca_meta example_graph example_impl.
Proof. split; [apply example_dom_meta|done]. Qed.

Lemma nir_dominance_lca_correct_witness : exists impl', nir_metadata_require example_impl nir_metadata_control_flow = Some impl' /\
  nir_dominance_lca impl' (Some 2%nat) (Some 3%nat) = Some (Some 1%nat) /\
  nir_dominance_lca impl' (Some 5%nat) (Some 4%nat) = Some (Some 4%nat) /\
  nir_dominance_lca impl' (Some 6%nat) (Some 3%nat) = Some (Some 3%nat) /\
  exists r, nir_dominance_lca impl' (Some 5%nat) (Some 2%nat) = Some r /\ lca_answer example_graph (Some 5%nat) (Some 2%nat) r.
Proof.
  destruct (nir_dominance_lca_correct example_graph example_impl example_cfg_ok ltac:(vm_compute; reflexivity) example_lca_meta) as (impl' & E & _ & H).
  exists impl'. split; [exact E|]. assert (E' := E). vm_compute in E'. injection E' as <-.
  do 3 (split; [vm_compute; reflexivity|]). apply H; intros x [= <-]; cbn; lia.
Defined.
