(* ===== verification/NirPhiBuilder.v ===== *)
(** * The phi builder (src/compiler/nir/nir_phi_builder.c)

    Blocks are as in NirDominance.v.  An SSA definition is a number, the position of its
    type (number of components and bit size) in the table of definitions; a phi
    instruction has its definition, its block and its sources.  The list of pending phis of
    a value is in the order of the linked list.  The hash table of a value is a finite map
    from the keys [INDEX_TO_KEY] (HashTable.v relates util/hash_table.c to one).  The end
    block of a function has the position behind the last block. *)

From Stdlib Require Import ZArith Lia.
From stdpp Require Import base list gmap numbers option.
From S2P Require Import Prelude Rmq NirDominance.
Local Open Scope Z_scope.

(** ** Data *)

Inductive block_def := NEEDS_PHI | Ssa (def : nat).

Record nir_phi_instr := PhiInstr { phi_def : nat; phi_block : nat; phi_srcs : list (nat * nat) }.

Record nir_phi_builder_value := PhiValue {
  num_components : Z;
  bit_size : Z;
  phis : list nir_phi_instr;
  ht : gmap Z block_def }.

(** What the builder changes of the shader: the definitions, the undefined values at the start of the
    function, and the phis at the starts of blocks *)
Record ssa_code := SsaCode {
  ssa_defs : list (Z * Z);
  undefs : list nat;
  placed : list nir_phi_instr }.

Record nir_phi_builder := PhiBuilder {
  pb_num_blocks : Z;
  pb_blocks : list (option nat);
  iter_count : Z;
  work : list (option Z);
  pb_W : list (option nat) }.

Definition end_block (bs : list nir_block) : nat := length bs.

Definition INDEX_TO_KEY (x : Z) : Z := u32 (u32 (Z.shiftl x 2) + 1).

Definition set_ht (t : gmap Z block_def) (val : nir_phi_builder_value) : nir_phi_builder_value :=
  PhiValue (num_components val) (bit_size val) (phis val) t.
Definition set_phis (l : list nir_phi_instr) (val : nir_phi_builder_value) : nir_phi_builder_value :=
  PhiValue (num_components val) (bit_size val) l (ht val).

(** ** Building *)

Definition nir_phi_builder_create (impl : nir_function_impl) : option nir_phi_builder :=
  assert! negb (Z.land (valid_metadata impl) (Z.lor nir_metadata_block_index nir_metadata_dominance) =? 0) ;;
  let n := Z.to_nat (num_blocks impl) in
  blocks_array ← foreach_block (fun p cells => b ← blocks impl !! p; store cells (index b) p)
    (blocks impl) (replicate n None);
  Some (PhiBuilder (num_blocks impl) blocks_array 0 (replicate n (Some 0)) (replicate n None)).

Section value.
Context (bs : list nir_block).

(** [assert]s of [nir_phi_builder_value_set_block_def] on the type of the definition *)
Definition has_type (code : ssa_code) (val : nir_phi_builder_value) (d : block_def) : bool :=
  match d with
  | NEEDS_PHI => true
  | Ssa def => bool_decide (ssa_defs code !! def = Some (num_components val, bit_size val))
  end.

Definition nir_phi_builder_value_set_block_def (code : ssa_code) (val : nir_phi_builder_value) (block : nat) (def : block_def)
    : option nir_phi_builder_value :=
  assert! has_type code val def ;;
  b ← bs !! block;
  Some (set_ht (<[INDEX_TO_KEY (index b) := def]> (ht val)) val).

(** [BITSET_FOREACH_SET] of [nir_phi_builder_add_value]; [defs] is the set of the bits *)
Definition push_defs (defs : nat -> bool) (pb : nir_phi_builder) : option (list (option Z) * list (option nat) * Z) :=
  for_each (fun i '(work, w, w_end) =>
      if defs i then
        x ← load work (Z.of_nat i);
        '(w, w_end) ← (if x <? iter_count pb then
                         b ← load (pb_blocks pb) (Z.of_nat i);
                         w ← store w w_end b;
                         Some (w, w_end + 1)
                       else Some (w, w_end));
        work ← store work (Z.of_nat i) (iter_count pb);
        Some (work, w, w_end)
      else Some (work, w, w_end))
    (seq 0 (Z.to_nat (pb_num_blocks pb))) (work pb, pb_W pb, 0).

Record worklist := WorkList { wl_work : list (option Z); wl_W : list (option nat); w_end : Z; wl_val : nir_phi_builder_value }.

(** The body of [set_foreach] over a dominance frontier *)
Definition visit_frontier (code : ssa_code) (iter_count : Z) (next : nat) (wl : worklist) : option worklist :=
  if decide (next = end_block bs) then Some wl else
  b ← bs !! next;
  match ht (wl_val wl) !! INDEX_TO_KEY (index b) with
  | Some _ => Some wl
  | None =>
      val ← nir_phi_builder_value_set_block_def code (wl_val wl) next NEEDS_PHI;
      x ← load (wl_work wl) (index b);
      if x <? iter_count then
        work ← store (wl_work wl) (index b) iter_count;
        w ← store (wl_W wl) (w_end wl) next;
        Some (WorkList work w (w_end wl + 1) val)
      else Some (WorkList (wl_work wl) (wl_W wl) (w_end wl) val)
  end.

(** [while (w_start != w_end)] *)
Fixpoint placement_loop (fuel : nat) (code : ssa_code) (iter_count w_start : Z) (wl : worklist) : option worklist :=
  match fuel with
  | O => None
  | S fuel =>
      if w_start =? w_end wl then Some wl else
      cur ← load (wl_W wl) w_start;
      b ← bs !! cur;
      wl ← for_each (visit_frontier code iter_count) (elements (dom_frontier b)) wl;
      placement_loop fuel code iter_count (w_start + 1) wl
  end.

Definition nir_phi_builder_add_value (code : ssa_code) (pb : nir_phi_builder) (num_components bit_size : Z) (defs : nat -> bool)
    : option (nir_phi_builder * nir_phi_builder_value) :=
  let val := PhiValue num_components bit_size [] ∅ in
  let pb := PhiBuilder (pb_num_blocks pb) (pb_blocks pb) (u32 (iter_count pb + 1)) (work pb) (pb_W pb) in
  '(work, w, w_end) ← push_defs defs pb;
  wl ← placement_loop (S (length bs)) code (iter_count pb) 0 (WorkList work w w_end val);
  Some (PhiBuilder (pb_num_blocks pb) (pb_blocks pb) (iter_count pb) (wl_work wl) (wl_W wl), wl_val wl).

(** The first loop of [nir_phi_builder_value_get_block_def]: the closest dominator with an entry *)
Fixpoint find_def (fuel : nat) (val : nir_phi_builder_value) (dom : option nat) : option (option (nat * block_def)) :=
  match fuel, dom with
  | O, _ => None
  | S _, None => Some None
  | S fuel, Some p =>
      b ← bs !! p;
      match ht val !! INDEX_TO_KEY (index b) with
      | Some d => Some (Some (p, d))
      | None => find_def fuel val (imm_dom b)
      end
  end.

(** Its last loop *)
Fixpoint stash_def (fuel : nat) (code : ssa_code) (val : nir_phi_builder_value) (dom : option nat) (def : nat) : option nir_phi_builder_value :=
  match fuel, dom with
  | O, _ => None
  | S _, None => Some val
  | S fuel, Some p =>
      b ← bs !! p;
      match ht val !! INDEX_TO_KEY (index b) with
      | Some _ => Some val
      | None =>
          val ← nir_phi_builder_value_set_block_def code val p (Ssa def);
          stash_def fuel code val (imm_dom b) def
      end
  end.

Definition new_def (code : ssa_code) (val : nir_phi_builder_value) : nat * list (Z * Z) :=
  (length (ssa_defs code), ssa_defs code ++ [(num_components val, bit_size val)]).

Definition nir_phi_builder_value_get_block_def (code : ssa_code) (val : nir_phi_builder_value) (block : nat)
    : option (ssa_code * nir_phi_builder_value * nat) :=
  he ← find_def (S (S (length bs))) val (Some block);
  '(code, val, def) ←
    match he with
    | None =>
        let '(def, defs) := new_def code val in
        Some (SsaCode defs (undefs code ++ [def]) (placed code), val, def)
    | Some (dom, NEEDS_PHI) =>
        let '(def, defs) := new_def code val in
        b ← bs !! dom;
        Some (SsaCode defs (undefs code) (placed code),
              set_ht (<[INDEX_TO_KEY (index b) := Ssa def]> (ht val)) (set_phis (phis val ++ [PhiInstr def dom []]) val), def)
    | Some (_, Ssa def) => Some (code, val, def)
    end;
  val ← stash_def (S (S (length bs))) code val (Some block) def;
  Some (code, val, def).

(** The body of the loop of [nir_phi_builder_finish]: one phi, removed from the list, gets its sources *)
Definition finish_phi (phi : nir_phi_instr) (code : ssa_code) (val : nir_phi_builder_value) : option (ssa_code * nir_phi_builder_value) :=
  b ← bs !! phi_block phi;
  '(code, val, srcs) ← for_each (fun pred '(code, val, srcs) =>
      '(code, val, def) ← nir_phi_builder_value_get_block_def code val pred;
      Some (code, val, srcs ++ [(pred, def)])) (predecessors b) (code, val, phi_srcs phi);
  Some (SsaCode (ssa_defs code) (undefs code) (placed code ++ [PhiInstr (phi_def phi) (phi_block phi) srcs]), val).

Fixpoint finish_value (fuel : nat) (code : ssa_code) (val : nir_phi_builder_value) : option (ssa_code * nir_phi_builder_value) :=
  match fuel with
  | O => None
  | S fuel =>
      match phis val with
      | [] => Some (code, val)
      | phi :: l => '(code, val) ← finish_phi phi code (set_phis l val); finish_value fuel code val
      end
  end.

Definition nir_phi_builder_finish (code : ssa_code) (values : list nir_phi_builder_value) : option ssa_code :=
  for_each (fun val code => '(code, _) ← finish_value (S (S (length bs))) code val; Some code) values code.
End value.
