(* ===== verification/NirPhiPlacement.v ===== *)
(** * Where the phi builder puts phis

    The worklist of [nir_phi_builder_add_value] marks exactly the iterated dominance frontier of
    the blocks with definitions, and on every path the definition that reaches a block is the
    one of its closest dominator with a mark or a definition. *)

From Stdlib Require Import ZArith Lia.
From stdpp Require Import base list gmap numbers option relations.
From S2P Require Import Prelude Rmq NirDominance NirDomPaths NirDomAlgo NirDomFrontier NirDomForest NirDomTree NirDomCorrect NirPhiBuilder.
Local Open Scope Z_scope.

(** ** Keys *)

Definition key (x : nat) : Z := INDEX_TO_KEY (Z.of_nat x).

Lemma key_spec x : Z.of_nat x < 2 ^ 30 -> key x = 4 * Z.of_nat x + 1.
Proof.
  intros Hx. unfold key, INDEX_TO_KEY. rewrite Z.shiftl_mul_pow2 by lia. change (2 ^ 2) with 4.
  rewrite (u32_small (_ * 4)) by lia. rewrite u32_small by lia. lia.
Qed.

Lemma key_inj x y : Z.of_nat x < 2 ^ 30 -> Z.of_nat y < 2 ^ 30 -> key x = key y -> x = y.
Proof. intros Hx Hy. rewrite !key_spec by done. lia. Qed.

(** ** The iterated dominance frontier *)

Inductive idf (g : graph) (D : nat -> Prop) : nat -> Prop :=
| idf_def d b : D d -> in_frontier g d b -> idf g D b
| idf_phi c b : idf g D c -> in_frontier g c b -> idf g D b.

Section placement.
Context (g : graph) (bs : list nir_block) (C : dforest) (Hg : cfg_ok g) (Hr : dom_result g bs C).
Context (Hkeys : Z.of_nat (length bs) <= 2 ^ 30).
Notation n := (length bs).

Lemma block_index p b : bs !! p = Some b -> index b = Z.of_nat p.
Proof using Hr. apply (frame_index g bs p b), (dr_frame g bs C Hr). Qed.

Lemma frontier_spec x b y : bs !! x = Some b -> y ∈ dom_frontier b <-> in_frontier g x y.
Proof using Hr. intros E. rewrite <- (dr_front g bs C Hr x y). unfold front. by rewrite E. Qed.

Lemma frontier_range x y : in_frontier g x y -> (y < n)%nat.
Proof using Hr. intros [(p & (ps & E & _) & _) _]. rewrite (dr_length g bs C Hr). by eapply lookup_lt_Some. Qed.

(** The blocks [K] are marked. *)
Definition marks (val : nir_phi_builder_value) (K : gset nat) : Prop :=
  forall x, (x < n)%nat -> ht val !! key x = if decide (x ∈ K) then Some NEEDS_PHI else None.

(** [l] is the list of the blocks put on the work list so far. *)
Record worklist_ok (ic : Z) (l : list nat) (work : list (option Z)) (w : list (option nat)) (w_end : Z) : Prop := {
  wo_end : w_end = Z.of_nat (length l);
  wo_cells : forall i x, l !! i = Some x -> load w (Z.of_nat i) = Some x;
  wo_nodup : NoDup l;
  wo_range : forall x, x ∈ l -> (x < n)%nat;
  wo_W : length w = n;
  wo_lwork : length work = n;
  wo_work : forall x, (x < n)%nat -> exists v, load work (Z.of_nat x) = Some v /\ v <= ic /\ (v = ic <-> x ∈ l) }.

Lemma worklist_length ic l work w w_end : worklist_ok ic l work w w_end -> (length l <= n)%nat.
Proof using.
  intros H. rewrite <- (length_seq n 0). apply submseteq_length, NoDup_submseteq; [apply H|].
  intros x Hx. apply elem_of_seq. apply H in Hx. lia.
Qed.

Lemma worklist_push ic l work w w_end x : worklist_ok ic l work w w_end -> (x < n)%nat -> x ∉ l ->
  exists work' w', store work (Z.of_nat x) ic = Some work' /\ store w w_end x = Some w' /\ worklist_ok ic (l ++ [x]) work' w' (w_end + 1).
Proof using.
  intros H Hx Hnew. pose proof H as [He Hc Hnd Hrg HW Hlw Hwk].
  assert (Hnd' : NoDup (l ++ [x])) by (apply NoDup_app; split; [done|]; split; [intros y Hy ->%list_elem_of_singleton; done|apply NoDup_singleton]).
  assert (Hlen : (length (l ++ [x]) <= n)%nat).
  { rewrite <- (length_seq n 0). apply submseteq_length, NoDup_submseteq; [done|]. intros y Hy. apply elem_of_seq.
    apply elem_of_app in Hy as [Hy| ->%list_elem_of_singleton]; [apply Hrg in Hy|]; lia. }
  rewrite length_app in Hlen. cbn in Hlen.
  destruct (cell_store_ok work (Z.of_nat x) ic) as [work' E1]; [lia|]. destruct (cell_store_ok w w_end x) as [w' E2]; [lia|].
  exists work', w'. split; [done|]. split; [done|]. split.
  - rewrite length_app. cbn. lia.
  - intros i y Hi. rewrite (load_store _ _ _ _ (Z.of_nat i) E2). apply lookup_snoc_Some in Hi as [[Hi Ei]|[-> ->]].
    + rewrite decide_False by lia. by apply Hc.
    + by rewrite decide_True by lia.
  - done.
  - intros y [Hy| ->%list_elem_of_singleton]%elem_of_app; [auto|done].
  - by rewrite (store_length _ _ _ _ E2).
  - by rewrite (store_length _ _ _ _ E1).
  - intros y Hy. rewrite (load_store _ _ _ _ (Z.of_nat y) E1). destruct (decide (Z.of_nat y = Z.of_nat x)) as [Heq|Hne].
    + apply Nat2Z.inj in Heq as ->. exists ic. rewrite elem_of_app, list_elem_of_singleton. split; [done|]. split; [lia|tauto].
    + destruct (Hwk y Hy) as (v & Ev & Hv & Hiff). exists v. split; [done|]. split; [done|]. rewrite elem_of_app, list_elem_of_singleton, Hiff.
      split; [auto|]. intros [?| ->]; [done|lia].
Qed.

Lemma set_block_def_ok code val x d : (x < n)%nat -> has_type code val d = true ->
  nir_phi_builder_value_set_block_def bs code val x d = Some (set_ht (<[key x := d]> (ht val)) val).
Proof using Hr.
  intros Hx Ht. unfold nir_phi_builder_value_set_block_def. rewrite Ht.
  destruct (lookup_lt_is_Some_2 bs x Hx) as [b E]. rewrite E. cbn [mbind option_bind]. by rewrite (block_index x b E).
Qed.

Lemma marks_insert val K x : (x < n)%nat -> marks val K -> marks (set_ht (<[key x := NEEDS_PHI]> (ht val)) val) ({[x]} ∪ K).
Proof using Hg Hr Hkeys.
  intros Hx HK y Hy. cbn [ht set_ht]. destruct (decide (y = x)) as [->|Hne].
  - rewrite lookup_insert_eq, decide_True by set_solver. done.
  - rewrite lookup_insert_ne by (intros Hk; apply key_inj in Hk; [done|lia..]). rewrite (HK y Hy).
    destruct (decide (y ∈ K)); [rewrite decide_True by set_solver|rewrite decide_False by set_solver]; done.
Qed.

Lemma visit_frontier_ok code ic x l K wl : (x < n)%nat -> (forall y, y ∈ K -> y ∈ l) ->
  worklist_ok ic l (wl_work wl) (wl_W wl) (w_end wl) -> marks (wl_val wl) K ->
  exists wl' l', visit_frontier bs code ic x wl = Some wl' /\ worklist_ok ic (l ++ l') (wl_work wl') (wl_W wl') (w_end wl') /\
    marks (wl_val wl') ({[x]} ∪ K) /\ (forall y, y ∈ l ++ l' <-> y ∈ l \/ y = x) /\
    set_ht ∅ (wl_val wl') = set_ht ∅ (wl_val wl).
Proof using Hg Hr Hkeys.
  intros Hx HKl Hw HK. unfold visit_frontier. rewrite decide_False by (unfold end_block; lia).
  destruct (lookup_lt_is_Some_2 bs x Hx) as [b E]. rewrite E. cbn [mbind option_bind]. rewrite (block_index x b E). fold (key x).
  rewrite (HK x Hx). destruct (decide (x ∈ K)) as [HxK|HxK].
  - exists wl, []. rewrite app_nil_r. split; [done|]. split; [done|]. split.
    + intros y Hy. rewrite (HK y Hy). destruct (decide (y ∈ K)); [rewrite decide_True by set_solver|rewrite decide_False by set_solver]; done.
    + split; [|done]. intros y. split; [auto|]. intros [?| ->]; auto.
  - rewrite set_block_def_ok by done. cbn [mbind option_bind]. destruct (wo_work ic l _ _ _ Hw x Hx) as (v & Ev & Hv & Hiff).
    rewrite Ev. cbn [mbind option_bind]. pose proof (marks_insert (wl_val wl) K x Hx HK) as HK'. destruct (Z.ltb_spec v ic).
    + destruct (worklist_push ic l _ _ _ x Hw Hx) as (work' & w' & -> & E2 & Hw'); [intros H'; apply Hiff in H'; lia|].
      cbn [mbind option_bind]. rewrite E2. cbn [mbind option_bind]. eexists _, [x]. split; [done|]. split; [done|]. split; [done|].
      split; [|done]. intros y. by rewrite elem_of_app, list_elem_of_singleton.
    + eexists _, []. rewrite app_nil_r. split; [done|]. split; [done|]. split; [done|]. split; [|done]. intros y. split; [auto|].
      intros [?| ->]; [done|]. apply Hiff. lia.
Qed.

(** All blocks of a frontier *)
Lemma visit_frontiers_ok code ic fs l K wl : (forall y, y ∈ fs -> (y < n)%nat) -> (forall y, y ∈ K -> y ∈ l) ->
  worklist_ok ic l (wl_work wl) (wl_W wl) (w_end wl) -> marks (wl_val wl) K ->
  exists wl' l', for_each (visit_frontier bs code ic) fs wl = Some wl' /\ worklist_ok ic (l ++ l') (wl_work wl') (wl_W wl') (w_end wl') /\
    marks (wl_val wl') (list_to_set fs ∪ K) /\ (forall y, y ∈ l ++ l' <-> y ∈ l \/ y ∈ fs) /\ set_ht ∅ (wl_val wl') = set_ht ∅ (wl_val wl).
Proof using Hg Hr Hkeys.
  revert l K wl. induction fs as [|x fs IH]; intros l K wl Hfs HKl Hw HK; cbn [for_each].
  { exists wl, []. rewrite app_nil_r. split; [done|]. split; [done|]. split; [by rewrite list_to_set_nil, union_empty_l_L|]. split; [|done].
    intros y. rewrite elem_of_nil. tauto. }
  destruct (visit_frontier_ok code ic x l K wl) as (wl1 & l1 & -> & Hw1 & HK1 & Hl1 & Hv1); [apply Hfs; left|done..|].
  cbn [mbind option_bind]. destruct (IH (l ++ l1) ({[x]} ∪ K) wl1) as (wl2 & l2 & -> & Hw2 & HK2 & Hl2 & Hv2); [|intros y Hy|done..|].
  { intros y Hy. apply Hfs. by right. }
  { apply Hl1. rewrite elem_of_union, elem_of_singleton in Hy. destruct Hy; auto. }
  rewrite <- app_assoc in *. exists wl2, (l1 ++ l2). split; [done|]. split; [done|]. split; [|split; [|congruence]].
  - cbn [list_to_set]. replace ({[x]} ∪ list_to_set fs ∪ K) with (list_to_set fs ∪ ({[x]} ∪ K) : gset nat); [done|].
    clear. set_solver.
  - intros y. rewrite (Hl2 y), (Hl1 y), elem_of_cons. tauto.
Qed.

(** [K] is the union of the frontiers of the blocks in [l]. *)
Definition frontiers_of (l : list nat) (K : gset nat) : Prop := forall x, x ∈ K <-> exists c, c ∈ l /\ in_frontier g c x.

Lemma placement_loop_ok code ic (D : nat -> Prop) fuel : forall k l K wl, (n < fuel + k)%nat -> (k <= length l)%nat ->
  worklist_ok ic l (wl_work wl) (wl_W wl) (w_end wl) -> marks (wl_val wl) K -> frontiers_of (take k l) K ->
  (forall y, y ∈ l <-> D y \/ y ∈ K) -> (forall y, y ∈ K -> idf g D y) ->
  exists wl' l' K', placement_loop bs fuel code ic (Z.of_nat k) wl = Some wl' /\
    worklist_ok ic l' (wl_work wl') (wl_W wl') (w_end wl') /\ marks (wl_val wl') K' /\ (forall x, x ∈ K' <-> idf g D x) /\
    set_ht ∅ (wl_val wl') = set_ht ∅ (wl_val wl).
Proof using Hg Hr Hkeys.
  induction fuel as [|fuel IH]; intros k l K wl Hfuel Hk Hw HK HF Hl Hidf.
  { pose proof (worklist_length _ _ _ _ _ Hw). lia. }
  pose proof (wo_end _ _ _ _ _ Hw) as He. cbn [placement_loop]. destruct (Z.eqb_spec (Z.of_nat k) (w_end wl)) as [Heq|Hne].
  { assert (k = length l) as -> by lia. rewrite take_ge in HF by lia. exists wl, l, K. split; [done|]. split; [done|]. split; [done|].
    split; [|done]. intros x. split; [auto|]. intros Hx. induction Hx as [d b Hd Hf|c b Hc IHc Hf]; apply HF.
    - exists d. split; [apply Hl; auto|done].
    - exists c. split; [apply Hl; auto|done]. }
  destruct (lookup_lt_is_Some_2 l k) as [cur Ec]; [lia|]. rewrite (wo_cells _ _ _ _ _ Hw k cur Ec). cbn [mbind option_bind].
  pose proof (list_elem_of_lookup_2 _ _ _ Ec) as Hcur. pose proof (wo_range _ _ _ _ _ Hw cur Hcur) as Hlt.
  destruct (lookup_lt_is_Some_2 bs cur Hlt) as [b Eb]. rewrite Eb. cbn [mbind option_bind].
  assert (Hfs : forall y, y ∈ elements (dom_frontier b) <-> in_frontier g cur y).
  { intros y. rewrite elem_of_elements. by apply frontier_spec. }
  destruct (visit_frontiers_ok code ic (elements (dom_frontier b)) l K wl) as (wl1 & l1 & -> & Hw1 & HK1 & Hl1 & Hv1); [|intros y Hy|done..|].
  { intros y Hy%Hfs. by apply (frontier_range cur). }
  { apply Hl. auto. }
  cbn [mbind option_bind]. replace (Z.of_nat k + 1) with (Z.of_nat (S k)) by lia.
  assert (Hin : forall y, y ∈ (list_to_set (elements (dom_frontier b)) ∪ K : gset nat) <-> in_frontier g cur y \/ y ∈ K).
  { intros y. by rewrite elem_of_union, elem_of_list_to_set, Hfs. }
  destruct (IH (S k) (l ++ l1) (list_to_set (elements (dom_frontier b)) ∪ K) wl1) as (wl2 & l2 & K2 & E & H1 & H2 & H3 & H4);
    [lia|rewrite length_app; lia|done|done| | | |].
  - intros x. rewrite Hin, (HF x). rewrite take_app_le by lia. rewrite (take_S_r l k cur Ec). setoid_rewrite elem_of_app.
    setoid_rewrite list_elem_of_singleton. split.
    + intros [Hx|(c & Hc & Hx)]; eauto.
    + intros (c & [Hc| ->] & Hx); eauto.
  - intros y. rewrite Hl1, Hl, Hin, Hfs. tauto.
  - intros y [Hy|Hy]%Hin; [|auto]. apply Hl in Hcur as [Hd|Hcur]; [by apply (idf_def g D cur)|by apply (idf_phi g D cur); [apply Hidf|]].
  - exists wl2, l2, K2. split; [done|]. split; [done|]. split; [done|]. split; [done|congruence].
Qed.

(** ** The builder *)

Record builder_ok (pb : nir_phi_builder) : Prop := {
  bo_num : pb_num_blocks pb = Z.of_nat n;
  bo_blocks : forall x, (x < n)%nat -> load (pb_blocks pb) (Z.of_nat x) = Some x;
  bo_lwork : length (work pb) = n;
  bo_work : forall x, (x < n)%nat -> exists v, load (work pb) (Z.of_nat x) = Some v /\ v <= iter_count pb;
  bo_W : length (pb_W pb) = n;
  bo_count : 0 <= iter_count pb }.

Lemma push_defs_ok defs pb : builder_ok pb -> iter_count pb + 1 < 2 ^ 32 ->
  exists work1 w w_end, push_defs defs (PhiBuilder (pb_num_blocks pb) (pb_blocks pb) (iter_count pb + 1) (work pb) (pb_W pb)) = Some (work1, w, w_end) /\
    worklist_ok (iter_count pb + 1) (filter (fun i => defs i = true) (seq 0 n)) work1 w w_end.
Proof using Hg Hr Hkeys.
  intros Hb Hic. unfold push_defs. cbn [pb_num_blocks pb_blocks iter_count NirPhiBuilder.work pb_W]. rewrite (bo_num pb Hb), Nat2Z.id.
  match goal with |- context [for_each ?body ?l ?s] => destruct (for_each_rule (fun pre '(work1, w, w_end) =>
    worklist_ok (iter_count pb + 1) (filter (fun i => defs i = true) pre) work1 w w_end) body l s) as ([[work1 w] w_end] & E & H) end.
  - split; try done.
    + constructor.
    + by intros x ?%not_elem_of_nil.
    + apply Hb.
    + apply Hb.
    + intros x Hx. destruct (bo_work pb Hb x Hx) as (v & Ev & Hv). exists v. split; [done|]. split; [lia|]. rewrite elem_of_nil. lia.
  - intros pre x post [[work1 w] w_end] Hs Hw. assert (Hx : (x < n)%nat).
    { assert (x ∈ seq 0 n) by (rewrite Hs, elem_of_app, elem_of_cons; auto). apply elem_of_seq in H. lia. }
    assert (Hnew : x ∉ pre).
    { intros Hin. pose proof (NoDup_seq 0 n) as Hnd. rewrite Hs in Hnd. apply NoDup_app in Hnd as (_ & Hnd & _). apply (Hnd x Hin). left. }
    rewrite filter_app. cbn [filter list_filter]. destruct (defs x) eqn:Ed.
    2:{ eexists. split; [done|]. rewrite decide_False, app_nil_r by done. done. }
    destruct (wo_work _ _ _ _ _ Hw x Hx) as (v & Ev & Hv & Hiff). rewrite Ev. cbn [mbind option_bind].
    destruct (Z.ltb_spec v (iter_count pb + 1)) as [Hlt|Hge].
    2:{ exfalso. assert (v = iter_count pb + 1) as Hv' by lia. apply Hiff in Hv'. apply list_elem_of_filter in Hv' as [_ ?]. done. }
    rewrite (bo_blocks pb Hb x Hx). cbn [mbind option_bind].
    destruct (worklist_push _ _ _ _ _ x Hw Hx) as (work' & w' & E1 & -> & Hw'); [intros [_ ?]%list_elem_of_filter; done|].
    cbn [mbind option_bind]. rewrite E1. cbn [mbind option_bind]. eexists. split; [done|]. by rewrite decide_True.
  - exists work1, w, w_end. split; done.
Qed.

Lemma nir_phi_builder_add_value_ok code pb nc bit_size defs : builder_ok pb -> iter_count pb + 1 < 2 ^ 32 ->
  exists pb' val K, nir_phi_builder_add_value bs code pb nc bit_size defs = Some (pb', val) /\ builder_ok pb' /\
    iter_count pb' = iter_count pb + 1 /\ marks val K /\ (forall x, x ∈ K <-> idf g (fun d => (d < n)%nat /\ defs d = true) x) /\
    set_ht ∅ val = PhiValue nc bit_size [] ∅.
Proof using Hg Hr Hkeys.
  intros Hb Hic. pose proof (bo_count pb Hb) as H0. unfold nir_phi_builder_add_value. rewrite u32_small by lia.
  destruct (push_defs_ok defs pb Hb Hic) as (work1 & w & w_end & -> & Hw). cbn [mbind option_bind].
  destruct (placement_loop_ok code (iter_count pb + 1) (fun d => (d < n)%nat /\ defs d = true) (S n) 0 (filter (fun i => defs i = true) (seq 0 n)) ∅ (WorkList work1 w w_end (PhiValue nc bit_size [] ∅)))
    as (wl & l & K & E & H1 & H2 & H3 & H4); cbn [wl_work wl_W NirPhiBuilder.w_end wl_val iter_count]; [lia|lia|exact Hw| | | | |].
  - intros x Hx. rewrite decide_False by set_solver. cbn [ht]. apply lookup_empty.
  - intros x. rewrite elem_of_empty. cbn [take]. split; [done|]. by intros (c & ?%not_elem_of_nil & _).
  - intros y. rewrite list_elem_of_filter, elem_of_seq, elem_of_empty. split; [intros [? ?]; left; split; [lia|done]|intros [[? ?]|[]]; split; [done|lia]].
  - by intros y ?%elem_of_empty.
  - change (Z.of_nat 0) with 0 in E. rewrite E. cbn [mbind option_bind]. eexists _, (wl_val wl), K. split; [done|]. split.
    + split; cbn [pb_num_blocks pb_blocks iter_count NirPhiBuilder.work pb_W]; [apply Hb|apply Hb|apply H1| |apply H1|lia].
      intros x Hx. destruct (wo_work _ _ _ _ _ H1 x Hx) as (v & ? & ? & _). eauto.
    + split; [done|]. split; [done|]. split; [done|]. done.
Qed.

Lemma nir_phi_builder_create_ok impl : blocks impl = bs -> num_blocks impl = Z.of_nat n ->
  has impl 1 = true -> exists pb, nir_phi_builder_create impl = Some pb /\ builder_ok pb /\ iter_count pb = 0.
Proof using Hg Hr Hkeys.
  intros Hb Hn H1. unfold nir_phi_builder_create. rewrite Hb, Hn, Nat2Z.id.
  assert (E0 : (Z.land (valid_metadata impl) (Z.lor nir_metadata_block_index nir_metadata_dominance) =? 0) = false).
  { apply Z.eqb_neq. intros H. apply (f_equal (fun z => Z.testbit z 1)) in H. rewrite Z.land_spec, Z.bits_0 in H.
    unfold has in H1. rewrite H1 in H. done. }
  rewrite E0. cbn [negb].
  match goal with |- context [foreach_block ?body bs ?s] => destruct (foreach_block_rule (fun j cells => length cells = n /\
    forall x, (x < j)%nat -> load cells (Z.of_nat x) = Some x) body bs s) as (cells & E & Hl & Hc) end.
  - split; [apply length_replicate|lia].
  - intros p cells Hp [Hl Hc]. destruct (lookup_lt_is_Some_2 bs p Hp) as [b Eb]. rewrite Eb. cbn [mbind option_bind].
    rewrite (block_index p b Eb). destruct (cell_store_ok cells (Z.of_nat p) p) as [cells' Ec]; [lia|]. exists cells'.
    split; [done|]. split; [by rewrite (store_length _ _ _ _ Ec)|]. intros x Hx. rewrite (load_store _ _ _ _ _ Ec).
    destruct (decide (Z.of_nat x = Z.of_nat p)); [f_equal; lia|]. apply Hc. lia.
  - rewrite E. cbn [mbind option_bind]. eexists. split; [done|]. split; [|done]. split; cbn [pb_num_blocks pb_blocks iter_count work pb_W];
      [done|done|apply length_replicate| |apply length_replicate|lia].
    intros x Hx. exists 0. split; [|lia]. unfold load. destruct (Z.ltb_spec (Z.of_nat x) 0); [lia|].
    rewrite Nat2Z.id, lookup_replicate_2 by done. done.
Qed.
End placement.

(** ** Paths and frontiers *)

Lemma path_replace g b π1 y π2 π' : cfg_path g b (π1 ++ y :: π2) -> cfg_path g y (y :: π') -> cfg_path g b (π1 ++ y :: π').
Proof.
  revert b. induction π1 as [|x π1 IH]; intros b Hp Hy; cbn [app] in *.
  - by destruct (path_head g b _ Hp) as [? [= -> ->]].
  - inversion Hp as [Hs E|p b' π Hp' He Eb]; subst; [by destruct π1|]. econstructor; [by apply IH|done].
Qed.

(** A strict dominator of [a] can be reached without [a]. *)
Lemma path_avoids g y a π : cfg_path g y π -> dominates g y a -> y <> a -> exists π', cfg_path g y π' /\ a ∉ π'.
Proof.
  intros Hp Hd Hne. remember (length π) as k eqn:Hk. revert π Hp Hk. induction (lt_wf k) as [k _ IH]. intros π Hp ->.
  destruct (decide (a ∈ π)) as [Hin|Hin]; [|by exists π].
  destruct (path_prefix g y π a Hp Hin) as (π1 & π2 & -> & Hp2). destruct (path_prefix g a π2 y Hp2 (Hd π2 Hp2)) as (π3 & π4 & -> & Hp4).
  apply (IH (length π4)) with π4; [|done|done]. rewrite !length_app.
  destruct π1; [|cbn; lia]. cbn in *. destruct (path_head g y _ Hp) as [l1 E1]. destruct (path_head g a _ Hp2) as [l2 E2]. congruence.
Qed.

Section reaching.
Context (g : graph) (bs : list nir_block) (C : dforest) (Hg : cfg_ok g) (Hr : dom_result g bs C).

Lemma dominates_dec a b : reachable g a -> reachable g b -> dominates g a b \/ ~ dominates g a b.
Proof using Hg Hr.
  intros Ra Rb. apply (reachable_in_range g a Hg) in Ra. apply (reachable_in_range g b Hg) in Rb. rewrite <- (dr_length g bs C Hr) in Ra, Rb.
  destruct (lookup_lt_is_Some_2 bs a Ra) as [ba Ea]. destruct (lookup_lt_is_Some_2 bs b Rb) as [bb Eb].
  pose proof (dominates_numbers g bs C Hg Hr a b ba bb Ea Eb) as H. rewrite <- H.
  destruct (decide (dom_pre_index ba <= dom_pre_index bb)); [|right; tauto]. destruct (decide (dom_post_index bb <= dom_post_index ba)); [left|right]; tauto.
Qed.

(** A path from [y] either stays dominated by [y] or crosses its frontier. *)
Lemma path_crosses_frontier b π1 y π2 : cfg_path g b (π1 ++ y :: π2) -> dominates g y b \/ exists z, z ∈ π1 /\ in_frontier g y z.
Proof using Hg Hr.
  revert b. induction π1 as [|x π1 IH]; intros b Hp; cbn [app] in *.
  - destruct (path_head g b _ Hp) as [? [= -> _]]. left. apply dominates_refl.
  - assert (Ry : reachable g y) by (apply (path_reachable g b _ y Hp); rewrite elem_of_cons, elem_of_app, elem_of_cons; auto).
    assert (Rb : reachable g b) by (by eexists). inversion Hp as [Hs E|p b' π Hp' He Eb]; subst; [by destruct π1|].
    destruct (IH p Hp') as [Hd|(z & Hz & Hf)]; [|right; exists z; split; [by right|done]].
    destruct (dominates_dec y x Ry Rb) as [Hdx|Hdx]; [by left|]. right. exists x. split; [left|]. split; [|tauto].
    exists p. split; [done|]. split; [by exists (π1 ++ y :: π2)|done].
Qed.

(** A set of blocks that is closed under frontiers *)
Context (P : nat -> Prop) (Hdec : forall x, Decision (P x)) (Hclosed : forall y z, P y -> in_frontier g y z -> P z).

(** The last block of a path that is in the set dominates its end. *)
Lemma last_in_set_dominates b π y : cfg_path g b π -> y ∈ π -> P y ->
  exists π1 x π2, π = π1 ++ x :: π2 /\ P x /\ dominates g x b /\ (forall z, z ∈ π1 -> ~ P z) /\ (forall l1 l2, π = l1 ++ l2 -> y ∈ l1 -> x ∈ l1).
Proof using Hg Hr Hdec Hclosed.
  intros Hp Hy HP. assert (Hfirst : forall l, y ∈ l -> exists l1 x l2, l = l1 ++ x :: l2 /\ P x /\ forall z, z ∈ l1 -> ~ P z).
  { induction l as [|x l IH]; [by intros ?%not_elem_of_nil|]. intros Hin. destruct (decide (P x)) as [Hx|Hx].
    - exists [], x, l. split; [done|]. split; [done|]. by intros z ?%not_elem_of_nil.
    - apply elem_of_cons in Hin as [->|Hin]; [done|]. destruct (IH Hin) as (l1 & x' & l2 & -> & Hx' & Hl1).
      exists (x :: l1), x', l2. split; [done|]. split; [done|]. intros z [->|Hz]%elem_of_cons; auto. }
  destruct (Hfirst π Hy) as (π1 & x & π2 & -> & Hx & Hno). exists π1, x, π2. split; [done|]. split; [done|].
  split; [|split; [done|]].
  - destruct (path_crosses_frontier b π1 x π2 Hp) as [Hd|(z & Hz & Hf)]; [done|]. destruct (Hno z Hz). by apply (Hclosed x).
  - intros l1 l2 E Hin. apply app_eq_app in E as (l & [[-> ->]|[-> E]]).
    + destruct (Hno y); [apply elem_of_app; auto|done].
    + destruct l as [|x' l]; cbn in E; [rewrite app_nil_r in Hin; by destruct (Hno y)|]. injection E as -> ->. rewrite elem_of_app, elem_of_cons. auto.
Qed.

(** [a] is the closest dominator of [b] in the set. *)
Definition nearest (b a : nat) : Prop := dominates g a b /\ P a /\ forall c, dominates g c b -> P c -> dominates g c a.

Lemma no_entry_after b a π1 π2 : cfg_path g b (π1 ++ a :: π2) -> a ∉ π1 -> nearest b a -> forall y, y ∈ π1 -> ~ P y.
Proof using Hg Hr Hdec Hclosed.
  intros Hp Ha (Hab & HPa & Hmax) y Hy HP.
  destruct (last_in_set_dominates b _ y Hp) as (l1 & x & l2 & E & HPx & Hxb & Hno & Hin); [apply elem_of_app; auto|done|].
  assert (Hx : x ∈ π1) by (by apply (Hin π1 (a :: π2))). assert (Hxa : x <> a) by (intros ->; done).
  pose proof (Hmax x Hxb HPx) as Hda.
  assert (Hpx : exists π, cfg_path g x π).
  { apply (path_reachable g b _ x Hp). apply elem_of_app. auto. }
  destruct Hpx as [πx Hpx]. destruct (path_avoids g x a πx Hpx Hda Hxa) as (π' & Hp' & Hav).
  destruct (path_head g x π' Hp') as [π'' ->]. rewrite E in Hp. pose proof (path_replace g b l1 x l2 π'' Hp Hp') as Hnew.
  apply Hab in Hnew. apply elem_of_app in Hnew as [Hn|Hn]; [exact (Hno a Hn HPa)|done].
Qed.

Lemma no_entry b π : cfg_path g b π -> (forall c, dominates g c b -> ~ P c) -> forall y, y ∈ π -> ~ P y.
Proof using Hg Hr Hdec Hclosed.
  intros Hp Hno y Hy HP. destruct (last_in_set_dominates b π y Hp Hy HP) as (_ & x & _ & _ & HPx & Hd & _). by apply (Hno x).
Qed.
End reaching.
