(* ===== verification/NirPhiCorrect.v ===== *)
(** * The phi builder builds SSA form

    After definitions have been registered, a definition that
    [nir_phi_builder_value_get_block_def] returns has, on every path through the
    control-flow graph, the value of the last definition on that path, once
    [nir_phi_builder_finish] has given the phis their sources. *)

From Stdlib Require Import ZArith Lia.
From stdpp Require Import base list gmap numbers option relations.
From S2P Require Import Prelude Rmq NirDominance NirDomPaths NirDomAlgo NirDomFrontier NirDomForest NirDomTree NirDomCorrect NirPhiBuilder NirPhiPlacement.
Local Open Scope nat_scope.

(** ** The meaning of the code *)

(** The phi that defines [d] *)
Definition find_phi (code : ssa_code) (d : nat) : option nir_phi_instr :=
  snd <$> list_find (fun phi => phi_def phi = d) (placed code).

Definition phi_src (phi : nir_phi_instr) (p : nat) : option nat :=
  snd <$> (snd <$> list_find (fun s => s.1 = p) (phi_srcs phi)).

(** The value of [d] when control has followed [π] (the last block first): a phi has the value of
    the source for the predecessor through which its block was last entered. *)
Fixpoint ssa_value (code : ssa_code) (d : nat) (π : list nat) : option nat :=
  match find_phi code d with
  | None => if decide (d ∈ undefs code) then None else Some d
  | Some phi =>
      match π with
      | [] => None
      | b :: π' =>
          if decide (b = phi_block phi) then
            s ← head π' ≫= phi_src phi; ssa_value code s π'
          else ssa_value code d π'
      end
  end.

Lemma NoDup_insert_mid {A} (l1 l2 : list A) x : NoDup (l1 ++ l2) -> x ∉ l1 ++ l2 -> NoDup ((l1 ++ [x]) ++ l2).
Proof.
  intros H Hx. rewrite <- app_assoc. cbn. assert (Hp : l1 ++ x :: l2 ≡ₚ x :: l1 ++ l2) by (symmetry; apply Permutation_middle).
  rewrite Hp. by constructor.
Qed.

Section correct.
Context (g : graph) (bs : list nir_block) (C : dforest) (Hg : cfg_ok g) (Hr : dom_result g bs C).
Context (Hkeys : (Z.of_nat (length bs) <= 2 ^ 30)%Z).
Notation n := (length bs).
(** The blocks with definitions, the marked blocks, and the definition of each block *)
Context (defs : nat -> bool) (K : gset nat) (u : nat -> nat) (n0 : nat).
Definition defines (x : nat) : Prop := x < n /\ defs x = true.
Context (HK : forall x, x ∈ K <-> idf g defines x).
Definition entry (x : nat) : Prop := defines x \/ x ∈ K.

(** The last definition on a path *)
Fixpoint reaching (π : list nat) : option nat :=
  match π with
  | [] => None
  | b :: π => if decide (defines b) then Some (u b) else reaching π
  end.

Notation up := (anc (idom bs)).

(** ** Closest dominators with an entry *)

Definition near (b a : nat) : Prop := up b a /\ entry a /\ forall c, up b c -> entry c -> up a c.

Lemma up_le x a : up x a -> a <= x.
Proof using Hr. apply anc_le, (dr_down g bs C Hr). Qed.

Lemma up_antisym x y : up x y -> up y x -> x = y.
Proof using Hr. apply anc_antisym, (dr_down g bs C Hr). Qed.

Lemma up_linear x a c : up x a -> up x c -> up a c \/ up c a.
Proof using Hr.
  intros Ha. revert c. induction Ha as [x|x p a Hp Ha IH]; intros c Hc; [by left|].
  apply rtc_inv in Hc as [<-|(q & Hq & Hc)]; [right; by eapply rtc_l|]. assert (p = q) as <- by congruence. auto.
Qed.

Lemma up_range x a : x < n -> up x a -> a < n.
Proof using Hr. intros Hx H%up_le. lia. Qed.

Lemma near_unique b a a' : near b a -> near b a' -> a = a'.
Proof using Hr. intros (H1 & H2 & H3) (G1 & G2 & G3). apply up_antisym; auto. Qed.

(** Blocks below the closest entry have the same one. *)
Lemma near_between b c a : up b c -> up c a -> near b a -> near c a.
Proof using Hr.
  intros Hbc Hca (_ & Ha & Hmax). split; [done|]. split; [done|]. intros e He. apply Hmax. by etransitivity.
Qed.

Lemma near_extend b c a : up b c -> (forall e, up b e -> up e c -> e <> c -> ~ entry e) -> near c a -> near b a.
Proof using Hr.
  intros Hbc Hno (Hca & Ha & Hmax). split; [by etransitivity|]. split; [done|]. intros e He HP.
  destruct (up_linear b c e Hbc He) as [H|H]; [by apply Hmax|]. destruct (decide (e = c)) as [->|Hne]; [by apply Hmax; [apply rtc_refl|]|].
  by destruct (Hno e He H Hne).
Qed.

Lemma entry_closed y z : entry y -> in_frontier g y z -> entry z.
Proof using HK. intros [Hd|Hk] Hf; right; apply HK; [by apply (idf_def _ _ y)|]. apply (idf_phi _ _ y); [by apply HK|done]. Qed.

Lemma near_nearest b a : reachable g b -> near b a -> nearest g entry b a.
Proof using Hr.
  intros Rb (Hba & Ha & Hmax). pose proof (dr_anc g bs C Hr) as Hanc. assert (Hd : dominates g a b) by (by apply Hanc).
  split; [done|]. split; [done|]. intros c Hc HP. apply Hanc; [by apply (dominates_reachable g a b)|].
  apply Hmax; [by apply Hanc|done].
Qed.

(** A marked block is reachable and is not the start block. *)
Lemma marked_block x : x ∈ K -> x <> nir_start_block /\ x < n.
Proof using Hg Hr HK.
  intros Hx%HK. assert (Hf : exists y, in_frontier g y x) by (destruct Hx; eauto). destruct Hf as (y & (p & He & _) & _).
  split; [|rewrite (dr_length g bs C Hr); destruct He as (ps & E & _); by eapply lookup_lt_Some].
  intros ->. destruct He as (ps & E & Hp). rewrite (cfg_entry g Hg) in E. injection E as <-. by apply not_elem_of_nil in Hp.
Qed.

(** ** The invariant *)

Definition at_ (val : nir_phi_builder_value) (x : nat) : option block_def := ht val !! key x.

Definition resolved (code : ssa_code) (val : nir_phi_builder_value) (x d : nat) : Prop :=
  (exists a, near x a /\ at_ val a = Some (Ssa d)) \/ ((forall c, up x c -> ~ entry c) /\ d ∈ undefs code).

(** [cur] are the phis that are being finished, [reg] the blocks whose definition is registered. *)
Record phi_inv (reg : nat -> Prop) (cur : list nir_phi_instr) (code : ssa_code) (val : nir_phi_builder_value) : Prop := {
  pi_reg : forall x, reg x -> defines x /\ at_ val x = Some (Ssa (u x));
  pi_unreg : forall x, defines x -> ~ reg x -> at_ val x = if decide (x ∈ K) then Some NEEDS_PHI else None;
  pi_mark : forall x, x ∈ K -> ~ defines x -> at_ val x = Some NEEDS_PHI \/
    exists phi, phi ∈ placed code ++ cur ++ phis val /\ phi_block phi = x /\ at_ val x = Some (Ssa (phi_def phi));
  pi_cached : forall x, x < n -> ~ entry x -> at_ val x = None \/ exists d, at_ val x = Some (Ssa d) /\ resolved code val x d;
  pi_types : forall x d, at_ val x = Some (Ssa d) -> x < n -> ssa_defs code !! d = Some (num_components val, bit_size val);
  pi_phis : forall phi, phi ∈ placed code ++ cur ++ phis val -> phi_block phi ∈ K /\ ~ defines (phi_block phi) /\
    at_ val (phi_block phi) = Some (Ssa (phi_def phi)) /\ n0 <= phi_def phi;
  pi_new : forall phi, phi ∈ phis val -> phi_srcs phi = [];
  pi_undefs : forall d, d ∈ undefs code -> n0 <= d < length (ssa_defs code);
  pi_fresh : n0 <= length (ssa_defs code);
  pi_ids : NoDup (map phi_def (placed code ++ cur ++ phis val) ++ undefs code);
  pi_places : NoDup (map phi_block (placed code ++ cur ++ phis val)) }.

(** Fields that a step does not change *)
Ltac same_field Hi := first [ exact (pi_reg _ _ _ _ Hi)
  | exact (pi_unreg _ _ _ _ Hi)
  | exact (pi_mark _ _ _ _ Hi)
  | exact (pi_cached _ _ _ _ Hi)
  | exact (pi_types _ _ _ _ Hi)
  | exact (pi_phis _ _ _ _ Hi)
  | exact (pi_new _ _ _ _ Hi)
  | exact (pi_undefs _ _ _ _ Hi)
  | exact (pi_fresh _ _ _ _ Hi)
  | exact (pi_ids _ _ _ _ Hi)
  | exact (pi_places _ _ _ _ Hi) ].

(** Later states know more. *)
Record extends (code : ssa_code) (val : nir_phi_builder_value) (code' : ssa_code) (val' : nir_phi_builder_value) : Prop := {
  ex_at : forall x d, x < n -> at_ val x = Some (Ssa d) -> at_ val' x = Some (Ssa d);
  ex_undefs : forall d, d ∈ undefs code -> d ∈ undefs code';
  ex_defs : forall d ty, ssa_defs code !! d = Some ty -> ssa_defs code' !! d = Some ty;
  ex_comp : num_components val' = num_components val;
  ex_bits : bit_size val' = bit_size val }.

Lemma extends_refl code val : extends code val code val.
Proof using. split; auto. Qed.

Lemma extends_trans c1 v1 c2 v2 c3 v3 : extends c1 v1 c2 v2 -> extends c2 v2 c3 v3 -> extends c1 v1 c3 v3.
Proof using. intros [H1 H2 H3 H4 H5] [G1 G2 G3 G4 G5]. split; auto; congruence. Qed.

Lemma resolved_extends code val code' val' x d : x < n -> extends code val code' val' -> resolved code val x d -> resolved code' val' x d.
Proof using Hr.
  intros Hx [H1 H2 _ _ _] [(a & Ha & Hd)|[Hno Hd]]; [left|right; auto]. exists a. split; [done|]. apply H1; [|done].
  apply (up_range x); [done|apply Ha].
Qed.

(** ** The loops of [nir_phi_builder_value_get_block_def] *)

Lemma at_insert val x d y : x < n -> y < n ->
  at_ (set_ht (<[key x := d]> (ht val)) val) y = if decide (y = x) then Some d else at_ val y.
Proof using Hkeys.
  intros Hx Hy. unfold at_. cbn [ht set_ht]. destruct (decide (y = x)) as [->|Hne]; [apply lookup_insert_eq|].
  apply lookup_insert_ne. intros Hk. apply key_inj in Hk; [done|lia..].
Qed.

Lemma up_step x p c : idom bs x = Some p -> up x c -> c = x \/ up p c.
Proof using. intros Hp [->|(q & Hq & H)]%rtc_inv; [by left|right]. assert (p = q) as <- by congruence. done. Qed.

Lemma up_root x c : idom bs x = None -> up x c -> c = x.
Proof using. intros Hp [->|(q & Hq & _)]%rtc_inv; [done|congruence]. Qed.

Lemma block_entry x val : x < n -> exists b, bs !! x = Some b /\ imm_dom b = idom bs x /\ ht val !! INDEX_TO_KEY (index b) = at_ val x.
Proof using Hr.
  intros Hx. destruct (lookup_lt_is_Some_2 bs x Hx) as [b E]. exists b. split; [done|].
  split; [unfold idom; by rewrite E|]. by rewrite (block_index g bs C Hr x b E).
Qed.

Lemma find_def_ok fuel val x : x < n -> S x < fuel -> exists r, find_def bs fuel val (Some x) = Some r /\
  match r with
  | None => forall c, up x c -> at_ val c = None
  | Some (a, d) => up x a /\ at_ val a = Some d /\ forall c, up x c -> up c a -> c <> a -> at_ val c = None
  end.
Proof using Hr.
  revert x. induction fuel as [|fuel IH]; intros x Hx Hf; [lia|]. cbn [find_def].
  destruct (block_entry x val Hx) as (b & -> & Ei & Ek). cbn [mbind option_bind]. rewrite Ek, Ei.
  destruct (at_ val x) as [d|] eqn:E.
  - exists (Some (x, d)). split; [done|]. split; [apply rtc_refl|]. split; [done|]. intros c H1 H2 Hne. by destruct Hne; apply up_antisym.
  - destruct (idom bs x) as [p|] eqn:Ep.
    + pose proof (dr_down g bs C Hr x p Ep) as Hlt. destruct (IH p) as (r & -> & Hres); [lia|lia|]. exists r. split; [done|].
      destruct r as [[a d]|].
      * destruct Hres as (Ha & Hd & Hno). split; [by eapply rtc_l|]. split; [done|]. intros c Hc Hca Hne.
        apply (up_step x p c Ep) in Hc as [->|Hc]; [done|by apply Hno].
      * intros c Hc. apply (up_step x p c Ep) in Hc as [->|Hc]; [done|by apply Hres].
    + destruct fuel; [lia|]. exists None. split; [done|]. intros c Hc. apply (up_root x c Ep) in Hc as ->. done.
Qed.

(** The blocks up to the first one with an entry get one; the others keep theirs. *)
Lemma stash_def_ok fuel code val x d : x < n -> S x < fuel -> has_type code val (Ssa d) = true ->
  exists val', stash_def bs fuel code val (Some x) d = Some val' /\ set_ht ∅ val' = set_ht ∅ val /\
    (forall y, y < n -> at_ val' y = at_ val y \/ (at_ val' y = Some (Ssa d) /\ up x y /\ forall c, up x c -> up c y -> at_ val c = None)).
Proof using Hr Hkeys.
  revert val x. induction fuel as [|fuel IH]; intros val x Hx Hf Ht; [lia|]. cbn [stash_def].
  destruct (block_entry x val Hx) as (b & -> & Ei & Ek). cbn [mbind option_bind]. rewrite Ek, Ei.
  destruct (at_ val x) as [d'|] eqn:E; [exists val; auto|].
  rewrite (set_block_def_ok g bs C Hr) by done. cbn [mbind option_bind]. set (val1 := set_ht _ val).
  assert (H1 : forall y, y < n -> at_ val1 y = if decide (y = x) then Some (Ssa d) else at_ val y) by (intros y Hy; by apply at_insert).
  destruct (idom bs x) as [p|] eqn:Ep.
  - pose proof (dr_down g bs C Hr x p Ep) as Hlt. destruct (IH val1 p) as (val' & -> & Hsame & Hat); [lia|lia|done|].
    exists val'. split; [done|]. split; [done|]. intros y Hy. destruct (Hat y Hy) as [->|(Hy1 & Hy2 & Hno)].
    + rewrite H1 by done. destruct (decide (y = x)) as [->|]; [right|by left]. split; [done|]. split; [apply rtc_refl|].
      intros c Hc1 Hc2. assert (c = x) as -> by (by apply up_antisym). done.
    + right. split; [done|]. split; [by eapply rtc_l|]. intros c Hc1 Hc2. apply (up_step x p c Ep) in Hc1 as [->|Hc1]; [done|].
      specialize (Hno c Hc1 Hc2). apply up_le in Hc1. rewrite H1, decide_False in Hno by lia. done.
  - destruct fuel; [lia|]. exists val1. split; [done|]. split; [done|]. intros y Hy. rewrite H1 by done.
    destruct (decide (y = x)) as [->|]; [right|by left]. split; [done|]. split; [apply rtc_refl|].
    intros c Hc _. apply (up_root x c Ep) in Hc as ->. done.
Qed.

(** ** Steps of the builder *)

Section steps.
Context (reg : nat -> Prop) (cur : list nir_phi_instr).
  Implicit Types (code : ssa_code) (val : nir_phi_builder_value).

(** The definitions of the dominators of [x] are registered. *)
Definition registered (x : nat) : Prop := forall c, up x c -> defines c -> reg c.

Lemma blank_no_entry code val x c : phi_inv reg cur code val -> registered x -> up x c -> at_ val c = None -> ~ entry c.
Proof using.
  intros Hi Hreg Hc Hn [Hd|Hk].
  - destruct (pi_reg _ _ _ _ Hi c (Hreg c Hc Hd)) as [_ E]. congruence.
  - destruct (decide (defines c)) as [Hd|Hd].
    + destruct (pi_reg _ _ _ _ Hi c (Hreg c Hc Hd)) as [_ E]. congruence.
    + destruct (pi_mark _ _ _ _ Hi c Hk Hd) as [E|(phi & _ & _ & E)]; congruence.
Qed.

Lemma resolved_between code val x y d : x < n -> registered x -> phi_inv reg cur code val -> up x y ->
  (forall c, up x c -> up c y -> at_ val c = None) -> resolved code val x d -> resolved code val y d.
Proof using Hr.
  intros Hx Hreg Hi Hy Hno [(a & Ha & Hd)|[Hne Hd]].
  - left. exists a. split; [|done]. destruct (up_linear x y a Hy (proj1 Ha)) as [H|H]; [by apply (near_between x)|].
    specialize (Hno a (proj1 Ha) H). congruence.
  - right. split; [|done]. intros c Hc. apply Hne. by etransitivity.
Qed.

Lemma def_bound code val x d : phi_inv reg cur code val -> x < n -> at_ val x = Some (Ssa d) -> d < length (ssa_defs code).
Proof using. intros Hi Hx Hd. apply (pi_types _ _ _ _ Hi) in Hd; [|done]. by eapply lookup_lt_Some. Qed.

(** A new number is not in use. *)
Lemma new_def_fresh code val : phi_inv reg cur code val ->
  length (ssa_defs code) ∉ map phi_def (placed code ++ cur ++ phis val) ++ undefs code.
Proof using Hg Hr HK.
  intros Hi. rewrite elem_of_app. intros [H|H].
  - apply list_elem_of_fmap in H as (phi & E & Hphi). destruct (pi_phis _ _ _ _ Hi phi Hphi) as (Hk & _ & Hat & _).
    apply (def_bound code val) in Hat; [lia|done|by apply marked_block].
  - apply (pi_undefs _ _ _ _ Hi) in H. lia.
Qed.

Lemma stash_inv code val val' x d : phi_inv reg cur code val -> x < n -> registered x -> resolved code val x d ->
  has_type code val (Ssa d) = true -> set_ht ∅ val' = set_ht ∅ val ->
  (forall y, y < n -> at_ val' y = at_ val y \/ (at_ val' y = Some (Ssa d) /\ up x y /\ forall c, up x c -> up c y -> at_ val c = None)) ->
  phi_inv reg cur code val' /\ extends code val code val'.
Proof using Hg Hr HK.
  intros Hi Hx Hreg Hres Hty Hsame Hat.
  assert (Hph : phis val' = phis val) by apply (f_equal phis Hsame). assert (Hnc : num_components val' = num_components val) by apply (f_equal num_components Hsame).
  assert (Hbs : bit_size val' = bit_size val) by apply (f_equal bit_size Hsame).
  assert (Hext : extends code val code val').
  { split; [|done..]. intros y e Hy E. destruct (Hat y Hy) as [->|(_ & Hu & Hno)]; [done|]. specialize (Hno y Hu (rtc_refl _ _)). congruence. }
  assert (Hentry : forall y, y < n -> entry y -> at_ val' y = at_ val y).
  { intros y Hy He. destruct (Hat y Hy) as [->|(_ & Hu & Hno)]; [done|]. specialize (Hno y Hu (rtc_refl _ _)).
    by destruct (blank_no_entry code val x y Hi Hreg Hu Hno). }
  split; [|done]. split; rewrite ?Hph; try same_field Hi.
  - intros y Hy. destruct (pi_reg _ _ _ _ Hi y Hy) as [Hd E]. split; [done|]. rewrite Hentry; [done|apply Hd|by left].
  - intros y Hy Hn. rewrite Hentry by (apply Hy || by left). by apply Hi.
  - intros y Hy Hn. rewrite Hentry by (apply marked_block, Hy || by right). by apply Hi.
  - intros y Hy Hn. destruct (Hat y Hy) as [->|(E & Hu & Hno)].
    + destruct (pi_cached _ _ _ _ Hi y Hy Hn) as [|(e & E & Hres')]; [by left|right]. exists e. split; [done|].
      by apply resolved_extends with code val.
    + right. exists d. split; [done|]. apply resolved_extends with code val; [done..|]. by apply (resolved_between code val x).
  - intros y e E Hy. rewrite Hnc, Hbs. destruct (Hat y Hy) as [E'|(E' & _)]; [rewrite E' in E; by apply (pi_types _ _ _ _ Hi y)|].
    rewrite E' in E. injection E as <-. by apply bool_decide_eq_true in Hty.
  - intros phi Hphi. destruct (pi_phis _ _ _ _ Hi phi Hphi) as (Hk & Hn & E & Hb). split; [done|]. split; [done|]. split; [|done].
    rewrite Hentry; [done|by apply marked_block|by right].
Qed.

(** A new undefined value *)
Lemma new_undef_inv code val x : phi_inv reg cur code val -> x < n -> registered x -> (forall c, up x c -> at_ val c = None) ->
  let d := length (ssa_defs code) in
  let code' := SsaCode (ssa_defs code ++ [(num_components val, bit_size val)]) (undefs code ++ [d]) (placed code) in
  phi_inv reg cur code' val /\ extends code val code' val /\ resolved code' val x d /\ has_type code' val (Ssa d) = true.
Proof using Hg Hr HK.
  intros Hi Hx Hreg Hno d code'. assert (Hext : extends code val code' val).
  { split; try done; intros e He; cbn [undefs ssa_defs code']; [apply elem_of_app; auto|]. intros E. by apply lookup_app_l_Some. }
  split; [|split; [done|split]].
  - split; cbn [placed undefs ssa_defs code']; try same_field Hi.
    + intros y Hy Hn. destruct (pi_cached _ _ _ _ Hi y Hy Hn) as [|(e & E & Hres)]; [by left|right]. exists e. split; [done|].
      by apply resolved_extends with code val.
    + intros y e E Hy. apply lookup_app_l_Some. by apply (pi_types _ _ _ _ Hi y).
    + intros e He. rewrite length_app. cbn. pose proof (pi_fresh _ _ _ _ Hi). apply elem_of_app in He as [He| ->%list_elem_of_singleton];
        [apply (pi_undefs _ _ _ _ Hi) in He|unfold d]; lia.
    + rewrite length_app. pose proof (pi_fresh _ _ _ _ Hi). lia.
    + rewrite app_assoc, <- (app_nil_r (_ ++ [d])). apply NoDup_insert_mid; rewrite app_nil_r; [apply Hi|by apply (new_def_fresh code val)].
  - right. split; [intros c Hc; by apply (blank_no_entry code val x c Hi Hreg Hc), Hno|]. cbn [undefs code']. apply elem_of_app. right. by apply list_elem_of_singleton.
  - cbn [has_type ssa_defs code']. apply bool_decide_eq_true. by apply list_lookup_middle.
Qed.

(** A new phi *)
Lemma new_phi_inv code val x a : phi_inv reg cur code val -> x < n -> registered x -> up x a -> at_ val a = Some NEEDS_PHI ->
  (forall c, up x c -> up c a -> c <> a -> at_ val c = None) ->
  let d := length (ssa_defs code) in
  let code' := SsaCode (ssa_defs code ++ [(num_components val, bit_size val)]) (undefs code) (placed code) in
  let val' := set_ht (<[key a := Ssa d]> (ht val)) (set_phis (phis val ++ [PhiInstr d a []]) val) in
  phi_inv reg cur code' val' /\ extends code val code' val' /\ resolved code' val' x d /\ has_type code' val' (Ssa d) = true.
Proof using Hg Hr HK Hkeys.
  intros Hi Hx Hreg Ha Hat Hno d code' val'. assert (Han : a < n) by (by apply (up_range x)).
  assert (Hea : entry a).
  { destruct (decide (defines a)) as [|Hd]; [by left|]. destruct (decide (a ∈ K)); [by right|]. exfalso.
    destruct (pi_cached _ _ _ _ Hi a Han) as [E|(e & E & _)]; [intros [?|?]; done|congruence..]. }
  assert (Hnd : ~ defines a) by (intros Hd; destruct (pi_reg _ _ _ _ Hi a (Hreg a Ha Hd)); congruence).
  assert (Hak : a ∈ K) by (by destruct Hea).
  assert (Hat' : forall y, y < n -> at_ val' y = if decide (y = a) then Some (Ssa d) else at_ val y).
  { intros y Hy. unfold val'. rewrite (at_insert (set_phis _ val) a (Ssa d) y Han Hy). done. }
  assert (Hext : extends code val code' val').
  { split; try done.
    - intros y e Hy E. rewrite Hat' by done. destruct (decide (y = a)) as [->|]; [congruence|done].
    - intros e ty E. by apply lookup_app_l_Some. }
  assert (Hall : placed code ++ cur ++ phis val ++ [PhiInstr d a []] = (placed code ++ cur ++ phis val) ++ [PhiInstr d a []]) by (by rewrite <- !app_assoc).
  assert (Hold : forall phi, phi ∈ placed code ++ cur ++ phis val -> phi_block phi <> a).
  { intros phi Hphi Hb. destruct (pi_phis _ _ _ _ Hi phi Hphi) as (_ & _ & E & _). rewrite Hb in E. congruence. }
  assert (Hnear : near x a).
  { split; [done|]. split; [done|]. intros c Hc He. destruct (up_linear x a c Ha Hc) as [H|H]; [done|].
    destruct (decide (c = a)) as [->|Hne]; [apply rtc_refl|]. by destruct (blank_no_entry code val x c Hi Hreg Hc (Hno c Hc H Hne)). }
  split; [|split; [done|split]].
  - split; cbn [placed undefs ssa_defs code' phis num_components bit_size val' set_ht set_phis]; rewrite ?Hall; try same_field Hi.
    + intros y Hy. destruct (pi_reg _ _ _ _ Hi y Hy) as [Hd E]. split; [done|]. rewrite Hat' by apply Hd. by rewrite decide_False by (intros ->; done).
    + intros y Hy Hn. rewrite Hat' by apply Hy. rewrite decide_False by (intros ->; done). by apply Hi.
    + intros y Hy Hn. rewrite Hat' by (by apply marked_block). destruct (decide (y = a)) as [->|Hne].
      * right. exists (PhiInstr d a []). split; [apply elem_of_app; right; by apply list_elem_of_singleton|done].
      * destruct (pi_mark _ _ _ _ Hi y Hy Hn) as [|(phi & Hphi & Hb & E)]; [by left|right]. exists phi. split; [apply elem_of_app; auto|done].
    + intros y Hy Hn. rewrite Hat' by done. rewrite decide_False by (intros ->; done).
      destruct (pi_cached _ _ _ _ Hi y Hy Hn) as [|(e & E & Hres)]; [by left|right]. exists e. split; [done|].
      by apply resolved_extends with code val.
    + intros y e E Hy. rewrite Hat' in E by done. destruct (decide (y = a)) as [->|].
      * injection E as <-. by apply list_lookup_middle.
      * apply lookup_app_l_Some. by apply (pi_types _ _ _ _ Hi y).
    + intros phi [Hphi| ->%list_elem_of_singleton]%elem_of_app.
      * destruct (pi_phis _ _ _ _ Hi phi Hphi) as (Hk & Hn & E & Hb). split; [done|]. split; [done|]. split; [|done].
        rewrite Hat' by (by apply marked_block). by rewrite decide_False by (by apply Hold).
      * cbn. split; [done|]. split; [done|]. split; [by rewrite Hat', decide_True by done|]. exact (pi_fresh _ _ _ _ Hi).
    + intros phi [Hphi| ->%list_elem_of_singleton]%elem_of_app; [by apply (pi_new _ _ _ _ Hi)|done].
    + intros e He%(pi_undefs _ _ _ _ Hi). rewrite length_app. lia.
    + rewrite length_app. pose proof (pi_fresh _ _ _ _ Hi). lia.
    + rewrite map_app. cbn [map phi_def]. apply NoDup_insert_mid; [apply Hi|by apply (new_def_fresh code val)].
    + rewrite map_app. cbn [map phi_block]. rewrite <- (app_nil_r (_ ++ [a])). apply NoDup_insert_mid; rewrite app_nil_r; [apply Hi|].
      intros (phi & E & Hphi)%list_elem_of_fmap. by apply (Hold phi Hphi).
  - left. exists a. split; [done|]. by rewrite Hat', decide_True by done.
  - cbn [has_type ssa_defs code' num_components bit_size val' set_ht set_phis]. apply bool_decide_eq_true. by apply list_lookup_middle.
Qed.

(** The definition for a block, after the first loop found [r] *)
Lemma choose_def_ok code val x r : phi_inv reg cur code val -> x < n -> registered x ->
  match r with
  | None => forall c, up x c -> at_ val c = None
  | Some (a, d) => up x a /\ at_ val a = Some d /\ forall c, up x c -> up c a -> c <> a -> at_ val c = None
  end ->
  exists code1 val1 d, (match r with
      | None => let '(def, defs) := new_def code val in Some (SsaCode defs (undefs code ++ [def]) (placed code), val, def)
      | Some (dom, NEEDS_PHI) => let '(def, defs) := new_def code val in b ← bs !! dom;
          Some (SsaCode defs (undefs code) (placed code),
              set_ht (<[INDEX_TO_KEY (index b) := Ssa def]> (ht val)) (set_phis (phis val ++ [PhiInstr def dom []]) val), def)
      | Some (_, Ssa def) => Some (code, val, def) end) = Some (code1, val1, d) /\
    phi_inv reg cur code1 val1 /\ extends code val code1 val1 /\ resolved code1 val1 x d /\ has_type code1 val1 (Ssa d) = true /\
    placed code1 = placed code.
Proof using Hg Hr HK Hkeys.
  intros Hi Hx Hreg Hfind. destruct r as [[a [|d]]|]; cbn [new_def].
  - destruct Hfind as (Ha & Hat & Hno). assert (Han : a < n) by (by apply (up_range x)).
    destruct (lookup_lt_is_Some_2 bs a Han) as [b Eb]. rewrite Eb. cbn [mbind option_bind]. rewrite (block_index g bs C Hr a b Eb).
    destruct (new_phi_inv code val x a Hi Hx Hreg Ha Hat Hno) as (H1 & H2 & H3 & H4). by eexists _, _, _.
  - destruct Hfind as (Ha & Hat & Hno). assert (Han : a < n) by (by apply (up_range x)).
    assert (Hbelow : forall e, up x e -> up e a -> e <> a -> ~ entry e) by (intros e He1 He2 Hne; by apply (blank_no_entry code val x), Hno).
    exists code, val, d. split; [done|]. split; [done|]. split; [apply extends_refl|]. split; [|split; [|done]].
    + destruct (decide (entry a)) as [He|He].
      * left. exists a. split; [|done]. apply (near_extend x a); [done|done|]. split; [apply rtc_refl|]. done.
      * destruct (pi_cached _ _ _ _ Hi a Han He) as [E|(e & E & Hres)]; [congruence|]. assert (e = d) as -> by congruence.
        destruct Hres as [(a' & Ha' & Hat')|[Hne Hd]]; [left|right].
        -- exists a'. split; [by apply (near_extend x a)|done].
        -- split; [|done]. intros c Hc He'. destruct (up_linear x a c Ha Hc) as [H|H]; [by apply (Hne c)|].
           destruct (decide (c = a)) as [->|Hca]; [done|]. by apply (Hbelow c).
    + apply bool_decide_eq_true. by apply (pi_types _ _ _ _ Hi a).
  - destruct (new_undef_inv code val x Hi Hx Hreg Hfind) as (H1 & H2 & H3 & H4). by eexists _, _, _.
Qed.

Lemma get_block_def_ok code val x : phi_inv reg cur code val -> x < n -> registered x ->
  exists code' val' d, nir_phi_builder_value_get_block_def bs code val x = Some (code', val', d) /\
    phi_inv reg cur code' val' /\ extends code val code' val' /\ resolved code' val' x d /\ placed code' = placed code.
Proof using Hg Hr HK Hkeys.
  intros Hi Hx Hreg. unfold nir_phi_builder_value_get_block_def.
  destruct (find_def_ok (S (S n)) val x) as (r & -> & Hfind); [done|lia|]. cbn [mbind option_bind].
  destruct (choose_def_ok code val x r Hi Hx Hreg Hfind) as (code1 & val1 & d & -> & H1 & H2 & H3 & H4 & H5). cbn [mbind option_bind].
  destruct (stash_def_ok (S (S n)) code1 val1 x d) as (val' & -> & Hsame & Hat); [done|lia|done|]. cbn [mbind option_bind].
  destruct (stash_inv code1 val1 val' x d H1 Hx Hreg H3 H4 Hsame Hat) as [H1' H2'].
  exists code1, val', d. split; [done|]. split; [done|]. split; [by eapply extends_trans|].
  split; [by apply resolved_extends with code1 val1|done].
Qed.
End steps.

(** ** Registering definitions *)

Lemma set_block_def_inv reg cur code val x : phi_inv reg cur code val -> defines x -> ~ reg x ->
  ssa_defs code !! u x = Some (num_components val, bit_size val) ->
  exists val', nir_phi_builder_value_set_block_def bs code val x (Ssa (u x)) = Some val' /\
    phi_inv (fun y => reg y \/ y = x) cur code val' /\ extends code val code val'.
Proof using Hg Hr HK Hkeys.
  intros Hi Hd Hnr Hty. pose proof (proj1 Hd) as Hx. rewrite (set_block_def_ok g bs C Hr) by (done || by apply bool_decide_eq_true).
  set (val' := set_ht _ val). exists val'. split; [done|].
  assert (Hat : forall y, y < n -> at_ val' y = if decide (y = x) then Some (Ssa (u x)) else at_ val y) by (intros y Hy; by apply at_insert).
  assert (Hext : extends code val code val').
  { split; [|done..]. intros y e Hy E. rewrite Hat by done. destruct (decide (y = x)) as [->|]; [|done].
    rewrite (pi_unreg _ _ _ _ Hi x Hd Hnr) in E. by destruct (decide (x ∈ K)). }
  split; [|done]. split; cbn [phis val' set_ht]; try same_field Hi.
  - intros y [Hy| ->]; [|split; [done|by rewrite Hat, decide_True by done]]. destruct (pi_reg _ _ _ _ Hi y Hy) as [Hdy E].
    split; [done|]. rewrite Hat by apply Hdy. by rewrite decide_False by (intros ->; done).
  - intros y Hy Hn. rewrite Hat by apply Hy. rewrite decide_False by tauto. apply (pi_unreg _ _ _ _ Hi); tauto.
  - intros y Hy Hn. rewrite Hat by (by apply marked_block). rewrite decide_False by (intros ->; done). by apply (pi_mark _ _ _ _ Hi).
  - intros y Hy Hn. rewrite Hat by done. rewrite decide_False by (intros ->; apply Hn; by left).
    destruct (pi_cached _ _ _ _ Hi y Hy Hn) as [|(e & E & Hres)]; [by left|right]. exists e. split; [done|].
    by apply resolved_extends with code val.
  - intros y e E Hy. rewrite Hat in E by done. destruct (decide (y = x)); [by injection E as <-|by apply (pi_types _ _ _ _ Hi y)].
  - intros phi Hphi. destruct (pi_phis _ _ _ _ Hi phi Hphi) as (Hk & Hn & E & Hb). split; [done|]. split; [done|]. split; [|done].
    rewrite Hat by (by apply marked_block). by rewrite decide_False by (intros Heq; by rewrite Heq in Hn).
Qed.

(** The state after [nir_phi_builder_add_value] *)
Lemma initial_inv code val : marks bs val K -> phis val = [] -> placed code = [] -> undefs code = [] -> n0 = length (ssa_defs code) ->
  phi_inv (fun _ => False) [] code val.
Proof using Hg Hr HK.
  intros Hm Hp Hpl Hu Hn0. split; rewrite ?Hp, ?Hpl, ?Hu.
  - done.
  - intros x [Hx _] _. by apply Hm.
  - intros x Hx _. left. rewrite <- (decide_True (P := x ∈ K) (Some NEEDS_PHI) None) by done. apply Hm. by apply marked_block.
  - intros x Hx Hn. left. rewrite <- (decide_False (P := x ∈ K) (Some NEEDS_PHI) None) by (intros ?; apply Hn; by right). by apply Hm.
  - intros x d E Hx. unfold at_ in E. rewrite (Hm x Hx) in E. by destruct (decide (x ∈ K)).
  - by intros phi ?%not_elem_of_nil.
  - by intros phi ?%not_elem_of_nil.
  - by intros d ?%not_elem_of_nil.
  - lia.
  - constructor.
  - constructor.
Qed.

(** ** Finishing *)

Definition complete (code : ssa_code) (val : nir_phi_builder_value) (phi : nir_phi_instr) : Prop :=
  g !! phi_block phi = Some (map fst (phi_srcs phi)) /\ forall p s, (p, s) ∈ phi_srcs phi -> resolved code val p s.

Lemma complete_extends code val code' val' phi : extends code val code' val' -> complete code val phi -> complete code' val' phi.
Proof using Hg Hr.
  intros Hext [H1 H2]. split; [done|]. intros p s Hs. apply resolved_extends with code val; [|done|by apply H2].
  rewrite (dr_length g bs C Hr). apply (cfg_preds g Hg p (phi_block phi)). eexists. split; [exact H1|]. by apply (list_elem_of_fmap_2 fst _ (p, s)).
Qed.

Section finish.
Context (reg : nat -> Prop) (Hreg : forall x, defines x -> reg x).

Lemma all_registered x : registered reg x.
Proof using Hreg. intros c _. apply Hreg. Qed.

(** A phi is taken off the list, *)
Lemma take_phi_inv phi l code val : phi_inv reg [] code val -> phis val = phi :: l -> phi_inv reg [phi] code (set_phis l val).
Proof using.
  intros Hi Hphis. split; cbn [phis set_phis num_components bit_size app]; try exact (pi_undefs _ _ _ _ Hi); try exact (pi_fresh _ _ _ _ Hi).
  - intros x. apply (pi_reg _ _ _ _ Hi x).
  - intros x. apply (pi_unreg _ _ _ _ Hi x).
  - intros x. pose proof (pi_mark _ _ _ _ Hi x) as H. rewrite Hphis in H. exact H.
  - intros x. apply (pi_cached _ _ _ _ Hi x).
  - intros x. apply (pi_types _ _ _ _ Hi x).
  - pose proof (pi_phis _ _ _ _ Hi) as H. rewrite Hphis in H. exact H.
  - intros p Hp. apply (pi_new _ _ _ _ Hi p). rewrite Hphis. by right.
  - pose proof (pi_ids _ _ _ _ Hi) as H. rewrite Hphis in H. exact H.
  - pose proof (pi_places _ _ _ _ Hi) as H. rewrite Hphis in H. exact H.
Qed.

(** gets a source for each predecessor, *)
Lemma phi_sources_ok phi code val ps : phi_inv reg [phi] code val -> (forall p, p ∈ ps -> p < n) ->
  exists code' val' srcs, for_each (fun pred '(code, val, srcs) =>
      '(code, val, def) ← nir_phi_builder_value_get_block_def bs code val pred;
      Some (code, val, srcs ++ [(pred, def)])) ps (code, val, []) = Some (code', val', srcs) /\
    phi_inv reg [phi] code' val' /\ extends code val code' val' /\ placed code' = placed code /\ map fst srcs = ps /\
    forall p d, (p, d) ∈ srcs -> resolved code' val' p d.
Proof using Hg Hr HK Hkeys Hreg.
  intros Hi Hps. match goal with |- context [for_each ?body ps ?st] => destruct (for_each_rule (fun pre '(code1, val1, srcs) =>
    phi_inv reg [phi] code1 val1 /\ extends code val code1 val1 /\ placed code1 = placed code /\ map fst srcs = pre /\
    forall p d, (p, d) ∈ srcs -> resolved code1 val1 p d) body ps st) as ([[code1 val1] srcs] & E & H) end; [| |by exists code1, val1, srcs].
  - split; [done|]. split; [apply extends_refl|]. split; [done|]. split; [done|]. by intros p d ?%not_elem_of_nil.
  - intros pre p post [[code1 val1] srcs] Eps (H1 & H2 & H3 & H4 & H5).
    assert (Hp : p < n) by (apply Hps; rewrite Eps, elem_of_app, elem_of_cons; auto).
    destruct (get_block_def_ok reg [phi] code1 val1 p H1 Hp (all_registered p)) as (code2 & val2 & d & -> & G1 & G2 & G3 & G4).
    cbn [mbind option_bind]. eexists. split; [done|]. split; [done|]. split; [by eapply extends_trans|]. split; [congruence|].
    split; [rewrite map_app; cbn; congruence|]. intros q e [Hq|Heq%list_elem_of_singleton]%elem_of_app; [|by injection Heq as -> ->].
    apply resolved_extends with code1 val1; [|done|by apply H5]. apply Hps. rewrite Eps, elem_of_app, <- H4. left.
    by apply (list_elem_of_fmap_2 fst _ (q, e)).
Qed.

(** and is placed. *)
Lemma place_phi_inv phi code val srcs : phi_inv reg [phi] code val ->
  phi_inv reg [] (SsaCode (ssa_defs code) (undefs code) (placed code ++ [PhiInstr (phi_def phi) (phi_block phi) srcs])) val.
Proof using.
  intros Hi. set (phi' := PhiInstr _ _ srcs).
  assert (Hmem : forall q, q ∈ (placed code ++ [phi']) ++ [] ++ phis val <-> q = phi' \/ q ∈ placed code \/ q ∈ phis val).
  { intros q. rewrite !elem_of_app, list_elem_of_singleton, elem_of_nil. tauto. }
  assert (Hmem' : forall q, q ∈ placed code ++ [phi] ++ phis val <-> q = phi \/ q ∈ placed code \/ q ∈ phis val).
  { intros q. rewrite !elem_of_app, list_elem_of_singleton. tauto. }
  split; cbn [placed undefs ssa_defs]; try same_field Hi.
  - intros x Hx Hn. destruct (pi_mark _ _ _ _ Hi x Hx Hn) as [|(q & Hq & Hb & Hat)]; [by left|right].
    apply Hmem' in Hq as [->|Hq]; [exists phi'|exists q]; (split; [apply Hmem; auto|done]).
  - intros q [->|Hq]%Hmem; [apply (pi_phis _ _ _ _ Hi phi)|apply (pi_phis _ _ _ _ Hi q)]; apply Hmem'; auto.
  - pose proof (pi_ids _ _ _ _ Hi) as H. rewrite <- !app_assoc in *. rewrite !map_app in *. exact H.
  - pose proof (pi_places _ _ _ _ Hi) as H. rewrite <- !app_assoc in *. rewrite !map_app in *. exact H.
Qed.

Lemma finish_phi_ok phi l code val : phi_inv reg [] code val -> phis val = phi :: l -> (forall p, p ∈ placed code -> complete code val p) ->
  exists code' val', finish_phi bs phi code (set_phis l val) = Some (code', val') /\ phi_inv reg [] code' val' /\
    extends code val code' val' /\ (forall p, p ∈ placed code' -> complete code' val' p) /\ length (placed code') = S (length (placed code)).
Proof using Hg Hr HK Hkeys Hreg.
  intros Hi Hphis Hdone. unfold finish_phi. pose proof (take_phi_inv phi l code val Hi Hphis) as Hi0.
  destruct (pi_phis _ _ _ _ Hi phi) as (Hk & _); [rewrite Hphis; apply elem_of_app; right; left|].
  destruct (marked_block (phi_block phi) Hk) as [_ Hlt]. destruct (lookup_lt_is_Some_2 bs (phi_block phi) Hlt) as [b Eb].
  rewrite Eb. cbn [mbind option_bind]. assert (Hpreds : g !! phi_block phi = Some (predecessors b)) by (by apply (dr_frame g bs C Hr)).
  rewrite (pi_new _ _ _ _ Hi phi) by (rewrite Hphis; left).
  destruct (phi_sources_ok phi code (set_phis l val) (predecessors b) Hi0) as (code1 & val1 & srcs & -> & H1 & H2 & H3 & H4 & H5).
  { intros p Hp. rewrite (dr_length g bs C Hr). apply (cfg_preds g Hg p (phi_block phi)). by exists (predecessors b). }
  cbn [mbind option_bind]. eexists _, val1. split; [done|]. split; [by apply place_phi_inv|].
  assert (Hext0 : extends code val code1 val1) by (destruct H2; by split).
  assert (Hext : forall pl, extends code1 val1 (SsaCode (ssa_defs code1) (undefs code1) pl) val1) by (by split).
  split; [by eapply extends_trans|]. split; [|cbn [placed]; rewrite length_app, H3; cbn; lia].
  intros q [Hq| ->%list_elem_of_singleton]%elem_of_app.
  - apply (complete_extends code val); [by eapply extends_trans|]. apply Hdone. congruence.
  - apply (complete_extends code1 val1); [done|]. split; [cbn [phi_block phi_srcs]; by rewrite H4|done].
Qed.

Lemma phis_bound code val : phi_inv reg [] code val -> length (placed code) + length (phis val) <= n.
Proof using Hg Hr HK.
  intros Hi. rewrite <- length_app, <- (length_map phi_block), <- (length_seq n 0).
  apply submseteq_length, NoDup_submseteq; [exact (pi_places _ _ _ _ Hi)|].
  intros x (phi & -> & Hphi)%list_elem_of_fmap. apply elem_of_seq. destruct (pi_phis _ _ _ _ Hi phi Hphi) as (Hk & _).
  destruct (marked_block _ Hk). lia.
Qed.

Lemma finish_value_ok fuel : forall code val, phi_inv reg [] code val -> (forall p, p ∈ placed code -> complete code val p) ->
  n < fuel + length (placed code) ->
  exists code' val', finish_value bs fuel code val = Some (code', val') /\ phi_inv reg [] code' val' /\ extends code val code' val' /\
    (forall p, p ∈ placed code' -> complete code' val' p) /\ phis val' = [].
Proof using Hg Hr HK Hkeys Hreg.
  induction fuel as [|fuel IH]; intros code val Hi Hdone Hf.
  { pose proof (phis_bound code val Hi). lia. }
  cbn [finish_value]. destruct (phis val) as [|phi l] eqn:Ep.
  { exists code, val. split; [done|]. split; [done|]. split; [apply extends_refl|]. done. }
  destruct (finish_phi_ok phi l code val Hi Ep Hdone) as (code1 & val1 & -> & H1 & H2 & H3 & H4). cbn [mbind option_bind].
  destruct (IH code1 val1 H1 H3 ltac:(lia)) as (code2 & val2 & -> & G1 & G2 & G3 & G4). exists code2, val2.
  split; [done|]. split; [done|]. split; [by eapply extends_trans|]. done.
Qed.

(** ** Values *)

Section values.
Context (code : ssa_code) (val : nir_phi_builder_value) (Hi : phi_inv reg [] code val).
Context (Hdone : forall p, p ∈ placed code -> complete code val p) (Hnone : phis val = []) (Hu : forall x, defines x -> u x < n0).

Lemma find_phi_None d : (forall phi, phi ∈ placed code -> phi_def phi <> d) -> find_phi code d = None.
Proof using. intros H. unfold find_phi. rewrite (proj2 (list_find_None _ _)); [done|]. by apply Forall_forall. Qed.

Lemma find_phi_Some phi : phi ∈ placed code -> find_phi code (phi_def phi) = Some phi.
Proof using Hi.
  intros Hin. unfold find_phi. destruct (list_find_elem_of (fun q => phi_def q = phi_def phi) (placed code) phi Hin eq_refl) as [[i q] E].
  rewrite E. cbn. f_equal. apply list_find_Some in E as (Eq & Hd & _). apply list_elem_of_lookup in Hin as [j Ej].
  pose proof (pi_ids _ _ _ _ Hi) as Hnd. rewrite map_app, <- app_assoc in Hnd. apply NoDup_app in Hnd as [Hnd _].
  assert (i = j) as ->; [|congruence]. eapply (NoDup_lookup (map phi_def (placed code)) i j (phi_def phi)); [done|..]; rewrite list_lookup_fmap.
  - rewrite Eq. cbn. by rewrite Hd.
  - by rewrite Ej.
Qed.

Lemma value_user d π : d < n0 -> ssa_value code d π = Some d.
Proof using Hi.
  intros Hd. assert (E : find_phi code d = None).
  { apply find_phi_None. intros phi Hphi Heq. destruct (pi_phis _ _ _ _ Hi phi) as (_ & _ & _ & ?); [apply elem_of_app; auto|lia]. }
  destruct π; cbn [ssa_value]; rewrite E; (destruct (decide (d ∈ undefs code)) as [H|]; [apply (pi_undefs _ _ _ _ Hi) in H; lia|done]).
Qed.

Lemma value_undef d π : d ∈ undefs code -> ssa_value code d π = None.
Proof using Hi.
  intros Hd. assert (E : find_phi code d = None).
  { apply find_phi_None. intros phi Hphi Heq. pose proof (pi_ids _ _ _ _ Hi) as Hnd. apply NoDup_app in Hnd as (_ & Hnd & _).
    apply (Hnd d); [|done]. rewrite <- Heq. apply list_elem_of_fmap_2, elem_of_app. auto. }
  destruct π; cbn [ssa_value]; rewrite E; by rewrite decide_True.
Qed.

Lemma value_skip d phi π1 π2 : find_phi code d = Some phi -> phi_block phi ∉ π1 -> ssa_value code d (π1 ++ π2) = ssa_value code d π2.
Proof using.
  intros E. induction π1 as [|b π1 IH]; [done|]. rewrite not_elem_of_cons. intros [Hb Hn]. cbn [app ssa_value].
  rewrite E, decide_False by congruence. by apply IH.
Qed.

Lemma reaching_skip π1 π2 : (forall y, y ∈ π1 -> ~ entry y) -> reaching (π1 ++ π2) = reaching π2.
Proof using.
  induction π1 as [|b π1 IH]; [done|]. intros H. cbn [app reaching]. rewrite decide_False.
  - apply IH. intros y Hy. apply H. by right.
  - intros Hd. apply (H b); [left|by left].
Qed.

(** The source of a phi for a predecessor *)
Lemma phi_src_ok phi p : phi ∈ placed code -> edge g p (phi_block phi) -> exists s, phi_src phi p = Some s /\ resolved code val p s.
Proof using Hdone.
  intros Hphi (ps & Eps & Hp). destruct (Hdone phi Hphi) as [H1 H2]. rewrite H1 in Eps. injection Eps as <-.
  apply list_elem_of_fmap in Hp as ([q s] & -> & Hs). unfold phi_src.
  destruct (list_find_elem_of (fun s => s.1 = q) (phi_srcs phi) (q, s) Hs eq_refl) as [[i [q' s']] E]. cbn [fst]. rewrite E. cbn.
  exists s'. split; [done|]. apply list_find_Some in E as (E & <- & _). apply H2. by eapply list_elem_of_lookup_2.
Qed.

Lemma path_suffix b π1 a π2 : cfg_path g b (π1 ++ a :: π2) -> cfg_path g a (a :: π2).
Proof using.
  revert b. induction π1 as [|x π1 IH]; intros b Hp; cbn [app] in *.
  - by destruct (path_head g b _ Hp) as [? [= -> _]].
  - inversion Hp as [Hs E|p b' π Hp' He Eb]; subst; [by destruct π1|]. by apply (IH p).
Qed.

Lemma entry_Decision x : Decision (entry x).
Proof using. unfold entry. apply _. Defined.

Lemma resolved_value k : forall π x d, length π = k -> cfg_path g x π -> resolved code val x d -> ssa_value code d π = reaching π.
Proof using Hg Hr HK Hreg Hi Hdone Hnone Hu.
  induction (lt_wf k) as [k _ IH]. intros π x d Hk Hp [(a & Ha & Hat)|[Hno Hd]]; assert (Rx : reachable g x) by (by exists π).
  2:{ rewrite (value_undef d π Hd). rewrite <- (app_nil_r π), reaching_skip; [done|].
    apply (no_entry g bs C Hg Hr entry entry_Decision entry_closed x π Hp).
    intros c Hc. apply Hno. by apply (dr_anc g bs C Hr). }
  pose proof (near_nearest x a Rx Ha) as Hnear. destruct (list_elem_of_split_l π a (proj1 Hnear π Hp)) as (π1 & π2 & -> & Hn1).
  rewrite reaching_skip by (by apply (no_entry_after g bs C Hg Hr entry entry_Decision entry_closed x a π1 π2)).
  pose proof (path_suffix x π1 a π2 Hp) as Hpa. cbn [reaching]. destruct (decide (defines a)) as [Hd|Hd].
  - destruct (pi_reg _ _ _ _ Hi a (Hreg a Hd)) as [_ E]. assert (d = u a) as -> by congruence. apply value_user. by apply Hu.
  - assert (HaK : a ∈ K) by (by destruct (proj1 (proj2 Ha))).
    destruct (pi_mark _ _ _ _ Hi a HaK Hd) as [E|(phi & Hphi & Hb & E)]; [congruence|]. assert (d = phi_def phi) as -> by congruence.
    rewrite Hnone, !app_nil_r in Hphi. pose proof (find_phi_Some phi Hphi) as Hfind.
    rewrite (value_skip _ phi) by (done || congruence). cbn [ssa_value]. rewrite Hfind, decide_True by done.
    inversion Hpa as [Hs Eq|p b' π' Hp' He Eb]; subst; [by destruct (marked_block _ HaK)|].
    destruct (path_head g p π2 Hp') as [π3 ->]. cbn [head mbind option_bind].
    destruct (phi_src_ok phi p Hphi) as (s & -> & Hs); [done|]. cbn [mbind option_bind].
    apply (IH (length (p :: π3))) with p; [|done|done|done]. rewrite length_app. cbn [length]. lia.
Qed.
End values.
End finish.
End correct.

(** ** Clients *)

(** A client registers the definition of a block, or asks for the one that reaches the end of a block. *)
Inductive builder_call := SetDef (x : nat) | GetDef (x : nat).

(** The calls in order, with the answers; [u] gives the definition of each block. *)
Fixpoint run_builder_calls (bs : list nir_block) (u : nat -> nat) (calls : list builder_call) (code : ssa_code) (val : nir_phi_builder_value)
    : option (ssa_code * nir_phi_builder_value * list (nat * nat)) :=
  match calls with
  | [] => Some (code, val, [])
  | SetDef x :: calls =>
      val ← nir_phi_builder_value_set_block_def bs code val x (Ssa (u x));
      run_builder_calls bs u calls code val
  | GetDef x :: calls =>
      '(code, val, d) ← nir_phi_builder_value_get_block_def bs code val x;
      '(code, val, log) ← run_builder_calls bs u calls code val;
      Some (code, val, (x, d) :: log)
  end.

(** Each definition is registered once, and before the question about a block those of
    its dominators are. *)
Fixpoint legal_calls (g : graph) (bs : list nir_block) (defs : nat -> bool) (reg : list nat) (calls : list builder_call) : Prop :=
  match calls with
  | [] => forall x, defines bs defs x -> x ∈ reg
  | SetDef x :: calls => defines bs defs x /\ x ∉ reg /\ legal_calls g bs defs (x :: reg) calls
  | GetDef x :: calls => x < length bs /\ (forall c, dominates g c x -> defines bs defs c -> c ∈ reg) /\ legal_calls g bs defs reg calls
  end.

Section clients.
Context (g : graph) (bs : list nir_block) (C : dforest) (Hg : cfg_ok g) (Hr : dom_result g bs C).
Context (Hkeys : (Z.of_nat (length bs) <= 2 ^ 30)%Z).
Context (defs : nat -> bool) (K : gset nat) (u : nat -> nat) (n0 : nat) (HK : forall x, x ∈ K <-> idf g (defines bs defs) x).

Lemma up_dominates x c : anc (idom bs) x c -> dominates g c x.
Proof using Hr.
  intros H. destruct (reachable_dec g bs C Hr x) as [Rx|Nx]; [by apply (dr_anc g bs C Hr)|].
  intros π Hp. destruct Nx. by exists π.
Qed.

Lemma phi_inv_ext (reg reg' : nat -> Prop) cur code val : (forall x, reg x <-> reg' x) ->
  phi_inv bs defs K u n0 reg cur code val -> phi_inv bs defs K u n0 reg' cur code val.
Proof using.
  intros H Hi. split; try first [exact (pi_mark _ _ _ _ _ _ _ _ _ Hi)|exact (pi_cached _ _ _ _ _ _ _ _ _ Hi)|exact (pi_types _ _ _ _ _ _ _ _ _ Hi)
    |exact (pi_phis _ _ _ _ _ _ _ _ _ Hi)|exact (pi_new _ _ _ _ _ _ _ _ _ Hi)|exact (pi_undefs _ _ _ _ _ _ _ _ _ Hi)
    |exact (pi_fresh _ _ _ _ _ _ _ _ _ Hi)|exact (pi_ids _ _ _ _ _ _ _ _ _ Hi)|exact (pi_places _ _ _ _ _ _ _ _ _ Hi)].
  - intros x Hx%H. by apply (pi_reg _ _ _ _ _ _ _ _ _ Hi).
  - intros x Hx Hn. rewrite <- H in Hn. by apply (pi_unreg _ _ _ _ _ _ _ _ _ Hi).
Qed.

Lemma run_builder_calls_ok calls : forall reg code val, phi_inv bs defs K u n0 (fun x => x ∈ reg) [] code val -> placed code = [] ->
  legal_calls g bs defs reg calls -> (forall x, defines bs defs x -> ssa_defs code !! u x = Some (num_components val, bit_size val)) ->
  exists code' val' log (reg' : list nat), run_builder_calls bs u calls code val = Some (code', val', log) /\
    phi_inv bs defs K u n0 (fun x => x ∈ reg') [] code' val' /\ extends bs code val code' val' /\ placed code' = [] /\
    (forall x, defines bs defs x -> x ∈ reg') /\
    forall x d, (x, d) ∈ log -> x < length bs /\ resolved bs defs K code' val' x d.
Proof using Hg Hr HK Hkeys.
  induction calls as [|[x|x] calls IH]; intros reg code val Hi Hpl Hl Hty; cbn [run_builder_calls legal_calls] in *.
  - exists code, val, [], reg. split; [done|]. split; [done|]. split; [apply extends_refl|]. split; [done|]. split; [done|].
    by intros x d ?%not_elem_of_nil.
  - destruct Hl as (Hd & Hn & Hl).
    destruct (set_block_def_inv g bs C Hg Hr Hkeys defs K u n0 HK (fun x => x ∈ reg) [] code val x Hi Hd Hn (Hty x Hd)) as (val1 & -> & H1 & H2).
    cbn [mbind option_bind]. destruct (IH (x :: reg) code val1) as (code' & val' & log & reg' & -> & G1 & G2 & G3 & G4 & G5); [|done|done|by rewrite (ex_comp _ _ _ _ _ H2), (ex_bits _ _ _ _ _ H2)|].
    { revert H1. apply phi_inv_ext. intros y. rewrite elem_of_cons. tauto. }
    exists code', val', log, reg'. split; [done|]. split; [done|]. split; [by eapply extends_trans|]. done.
  - destruct Hl as (Hx & Hreg & Hl).
    destruct (get_block_def_ok g bs C Hg Hr Hkeys defs K u n0 HK (fun x => x ∈ reg) [] code val x Hi Hx) as (code1 & val1 & d & -> & H1 & H2 & H3 & H4).
    { intros c Hc Hd. apply Hreg; [by apply up_dominates|done]. }
    cbn [mbind option_bind]. destruct (IH reg code1 val1) as (code' & val' & log & reg' & -> & G1 & G2 & G3 & G4 & G5); [done|congruence|done| |].
    { intros y Hy. rewrite (ex_comp _ _ _ _ _ H2), (ex_bits _ _ _ _ _ H2). by apply (ex_defs _ _ _ _ _ H2), Hty. }
    cbn [mbind option_bind]. exists code', val', ((x, d) :: log), reg'. split; [done|]. split; [done|]. split; [by eapply extends_trans|].
    split; [done|]. split; [done|]. intros y e [Heq|Hin]%elem_of_cons; [|by apply G5]. injection Heq as -> ->. split; [done|].
    by apply (resolved_extends g bs C Hr) with code1 val1.
Qed.
End clients.

(** C22: phi placement.  For a function with valid dominance metadata, the worklist of
    nir_phi_builder_add_value terminates within its array of num_blocks entries, keeps the
    builder usable for further values, and marks exactly the blocks of the iterated
    dominance frontier of the blocks with definitions. *)
Theorem nir_phi_builder_add_value_correct g impl code pb nc bits defs : cfg_ok g -> dom_meta g impl -> has impl 1 = true ->
  (Z.of_nat (length g) <= 2 ^ 30)%Z -> builder_ok (blocks impl) pb -> (iter_count pb + 1 < 2 ^ 32)%Z ->
  exists pb' val, nir_phi_builder_add_value (blocks impl) code pb nc bits defs = Some (pb', val) /\ builder_ok (blocks impl) pb' /\
  forall x, x < length g ->
    (ht val !! key x = Some NEEDS_PHI /\ idf g (defines (blocks impl) defs) x) \/
    (ht val !! key x = None /\ ~ idf g (defines (blocks impl) defs) x).
Proof.
  intros Hg Hm H1 Hn Hb Hic. destruct (dm_dom g impl Hm H1) as (_ & C & HC). pose proof (dr_length g _ C HC) as Hlen.
  destruct (nir_phi_builder_add_value_ok g (blocks impl) C Hg HC ltac:(lia) code pb nc bits defs Hb Hic) as (pb' & val & K & E & Hb' & _ & HmK & HK & _).
  exists pb', val. split; [done|]. split; [done|]. intros x Hx. rewrite <- Hlen in Hx. rewrite (HmK x Hx), <- (HK x).
  destruct (decide (x ∈ K)); auto.
Qed.


(** ** The example of NirDomCorrect.v, with definitions in the start block and on one side of the
    diamond: phis at the join and at the loop header *)

Definition example_dom_impl : nir_function_impl := default example_impl (require_dominance example_impl).
Definition example_defs (x : nat) : bool := bool_decide (x = 0 \/ x = 2).
Definition example_code : ssa_code := SsaCode [(1, 32); (1, 32)]%Z [] [].
Definition example_u (x : nat) : nat := if decide (x = 0) then 0 else 1.
Definition example_calls : list builder_call := [SetDef 0; SetDef 2; GetDef 5; GetDef 3].

Lemma example_dom_impl_ok : dom_meta example_graph example_dom_impl /\ has example_dom_impl 1 = true.
Proof.
  destruct (require_dominance_ok example_graph example_impl example_cfg_ok example_dom_meta) as (bs & C & E & HC & _).
  unfold example_dom_impl. rewrite E. split; [by apply (dom_result_meta example_graph bs C)|]. reflexivity.
Qed.

Lemma example_defined x : defines (blocks example_dom_impl) example_defs x -> x = 0 \/ x = 2.
Proof. intros [_ H]. unfold example_defs in H. by apply bool_decide_eq_true in H. Qed.

Lemma example_legal : legal_calls example_graph (blocks example_dom_impl) example_defs [] example_calls.
Proof.
  assert (Hd : forall x, x = 0 \/ x = 2 -> defines (blocks example_dom_impl) example_defs x).
  { intros x [->| ->]; split; vm_compute; try reflexivity; lia. }
  assert (Hin : forall x, defines (blocks example_dom_impl) example_defs x -> x ∈ [2; 0]).
  { intros x [->| ->]%example_defined; rewrite !elem_of_cons; auto. }
  assert (Hlen : length (blocks example_dom_impl) = 7) by (vm_compute; reflexivity).
  cbn [legal_calls example_calls]. rewrite Hlen. split; [auto|]. split; [by apply not_elem_of_nil|]. split; [auto|].
  split; [by intros ?%list_elem_of_singleton|]. split; [lia|]. split; [auto|]. split; [lia|]. auto.
Qed.


Lemma nir_phi_builder_add_value_correct_witness : exists pb pb' val,
  nir_phi_builder_create example_dom_impl = Some pb /\
  nir_phi_builder_add_value (blocks example_dom_impl) example_code pb 1 32 example_defs = Some (pb', val) /\
  ht val !! key 4 = Some NEEDS_PHI /\ ht val !! key 5 = None /\
  forall x, x < length example_graph ->
    (ht val !! key x = Some NEEDS_PHI /\ idf example_graph (defines (blocks example_dom_impl) example_defs) x) \/
    (ht val !! key x = None /\ ~ idf example_graph (defines (blocks example_dom_impl) example_defs) x).
Proof.
  destruct example_dom_impl_ok as [Hm H1]. destruct (dm_dom _ _ Hm H1) as (_ & C & HC).
  destruct (nir_phi_builder_create_ok example_graph (blocks example_dom_impl) C example_cfg_ok HC ltac:(vm_compute; discriminate) example_dom_impl eq_refl)
    as (pb & E1 & Hb & Hic); [vm_compute; reflexivity|exact H1|].
  destruct (nir_phi_builder_add_value_correct example_graph example_dom_impl example_code pb 1 32 example_defs example_cfg_ok Hm H1
    ltac:(vm_compute; discriminate) Hb ltac:(rewrite Hic; lia)) as (pb' & val & E2 & _ & H).
  exists pb, pb', val. split; [exact E1|]. split; [exact E2|]. clear -E1 E2 H. vm_compute in E1. injection E1 as <-.
  vm_compute in E2. injection E2 as <- <-. split; [vm_compute; reflexivity|]. split; [vm_compute; reflexivity|]. exact H.
Defined.
