(* ===== verification/NirParallelCopy.v ===== *)
(** * Parallel copies (src/compiler/nir/nir_from_ssa.c, resolve_parallel_copy)

    When a function leaves SSA form, the phis between two blocks become copies that are meant to
    happen at once.  [resolve_parallel_copy] puts them in an order, with temporary registers for
    cycles.  Registers and SSA values are numbered by their positions in the tables of their
    declarations; the code it emits is a list of moves to registers.  The arrays of the
    function are cells, as in Rmq.v: reading one that was not written, or outside of it, fails
    (also in [values], which the code clears, so that no reader could take a cleared cell for a value). *)

From Stdlib Require Import ZArith Lia.
From stdpp Require Import base list gmap numbers option relations.
From S2P Require Import Prelude Rmq.
Local Open Scope Z_scope.

(** ** Data *)

Record copy_value := CopyValue { is_reg : bool; cv_ssa : nat }.

#[global] Instance copy_value_eq_dec : EqDecision copy_value.
Proof. solve_decision. Defined.

(** The declaration of a register, or the definition of an SSA value; numbers of components and bit sizes fit in a byte. *)
Record decl := Decl { num_components : Z; bit_size : Z; divergent : bool }.

(** A parallel copy: its source and its destination *)
Record pcopy := PCopy { src : copy_value; dst : copy_value }.

(** What the pass changes of the function: register declarations and moves *)
Record copy_code := CopyCode { regs : list decl; defs : list decl; moves : list (nat * copy_value) }.

Definition value_info (c : copy_code) (v : copy_value) : option decl :=
  if is_reg v then regs c !! cv_ssa v else defs c !! cv_ssa v.

Definition copy_value_is_divergent (c : copy_code) (v : copy_value) : option bool := divergent <$> value_info c v.

Definition nir_decl_reg (c : copy_code) (num_components bit_size : Z) : copy_code * copy_value :=
  (CopyCode (regs c ++ [Decl num_components bit_size true]) (defs c) (moves c), CopyValue true (length (regs c))).

Definition set_reg_divergent (c : copy_code) (reg : copy_value) (div : bool) : copy_code :=
  CopyCode (alter (fun d => Decl (num_components d) (bit_size d) div) (cv_ssa reg) (regs c)) (defs c) (moves c).

(** The local variables of [resolve_parallel_copy] *)
Record resolve := Resolve {
  values : list (option copy_value);
  loc : list (option Z);
  pred : list (option Z);
  to_do : list (option Z);
  to_do_idx : Z;
  ready : list (option Z);
  ready_idx : Z;
  num_vals : Z;
  code : copy_code }.

Section resolve.
Context (consider_divergence : bool).

Definition copy_values (c : copy_code) (dest src : copy_value) : option copy_code :=
  s ← copy_value_is_divergent c src;
  d ← copy_value_is_divergent c dest;
  assert! negb consider_divergence || negb s || d ;;
  assert! is_reg dest ;;
  Some (CopyCode (regs c) (defs c) (moves c ++ [(cv_ssa dest, src)])).

Definition is_no_op (c : pcopy) : bool := is_reg (src c) && bool_decide (cv_ssa (src c) = cv_ssa (dst c)).

(** The loops that look for a value; the second one checks that a destination is new. *)
Definition find_src (r : resolve) (v : copy_value) : option Z :=
  for_each (fun i idx => x ← load (values r) i; Some (if decide (x = v) then i else idx)) (seqZ 0 (num_vals r)) (-1).

Definition find_dest (r : resolve) (v : copy_value) : option Z :=
  for_each (fun i idx => x ← load (values r) i;
      if decide (x = v) then p ← load (pred r) i; assert! p =? -1 ;; Some i else Some idx) (seqZ 0 (num_vals r)) (-1).

Definition add_value (r : resolve) (idx : Z) (v : copy_value) : option (resolve * Z) :=
  if idx <? 0 then
    values ← store (values r) (num_vals r) v;
    Some (Resolve values (loc r) (pred r) (to_do r) (to_do_idx r) (ready r) (ready_idx r) (num_vals r + 1) (code r), num_vals r)
  else Some (r, idx).

Definition setup_copy (c : pcopy) (r : resolve) : option resolve :=
  if is_no_op c then Some r else
  src_idx ← find_src r (src c);
  '(r, src_idx) ← add_value r src_idx (src c);
  dest_idx ← find_dest r (dst c);
  '(r, dest_idx) ← add_value r dest_idx (dst c);
  loc ← store (loc r) src_idx src_idx;
  pred ← store (pred r) dest_idx src_idx;
  to_do ← store (to_do r) (to_do_idx r + 1) dest_idx;
  Some (Resolve (values r) loc pred to_do (to_do_idx r + 1) (ready r) (ready_idx r) (num_vals r) (code r)).

Definition push_ready (r : resolve) (i : Z) : option resolve :=
  ready ← store (ready r) (ready_idx r + 1) i;
  Some (Resolve (values r) (loc r) (pred r) (to_do r) (to_do_idx r) ready (ready_idx r + 1) (num_vals r) (code r)).

(** Destinations that are not sources are ready. *)
Definition init_ready (r : resolve) : option resolve :=
  for_each (fun i r => p ← load (pred r) i; l ← load (loc r) i;
      if negb (p =? -1) && (l =? -1) then push_ready r i else Some r) (seqZ 0 (num_vals r)) r.

Definition same_divergence (c : copy_code) (a b : copy_value) : option bool :=
  if consider_divergence then
    x ← copy_value_is_divergent c a; y ← copy_value_is_divergent c b; Some (eqb x y)
  else Some true.

(** The body of the inner loop *)
Definition fill_step (r : resolve) : option resolve :=
  b ← load (ready r) (ready_idx r);
  a ← load (pred r) b;
  vb ← load (values r) b;
  la ← load (loc r) a;
  v ← load (values r) la;
  c ← copy_values (code r) vb v;
  pred ← store (pred r) b (-1);
  let r := Resolve (values r) (loc r) pred (to_do r) (to_do_idx r) (ready r) (ready_idx r - 1) (num_vals r) c in
  va ← load (values r) a;
  same ← same_divergence c va vb;
  if same : bool then
    p ← load pred a;
    if p =? -1 then Some r else
    loc ← store (loc r) a b;
    push_ready (Resolve (values r) loc pred (to_do r) (to_do_idx r) (ready r) (ready_idx r) (num_vals r) c) a
  else Some r.

Fixpoint fill_loop (fuel : nat) (r : resolve) : option resolve :=
  match fuel with
  | O => None
  | S fuel => if ready_idx r <? 0 then Some r else r ← fill_step r; fill_loop fuel r
  end.

(** A register for the value [v] *)
Definition declare_temp (c : copy_code) (v : copy_value) : option (copy_code * copy_value) :=
  info ← value_info c v;
  let '(c, reg) := nir_decl_reg c (num_components info) (bit_size info) in
  if consider_divergence then d ← copy_value_is_divergent c v; Some (set_reg_divergent c reg d, reg)
  else Some (c, reg).

(** Breaking a cycle at [b] *)
Definition break_cycle (num_copies b : Z) (r : resolve) : option resolve :=
  assert! num_vals r <? num_copies * 2 ;;
  vb ← load (values r) b;
  '(c, reg) ← declare_temp (code r) vb;
  vals ← store (values r) (num_vals r) reg;
  c ← copy_values c reg vb;
  lc ← store (loc r) b (num_vals r);
  push_ready (Resolve vals lc (pred r) (to_do r) (to_do_idx r) (ready r) (ready_idx r) (num_vals r + 1) c) b.

(** [while (1)] *)
Fixpoint resolve_loop (fuel : nat) (num_copies : Z) (r : resolve) : option resolve :=
  match fuel with
  | O => None
  | S fuel =>
      r ← fill_loop (S (length (ready r))) r;
      if to_do_idx r <? 0 then Some r else
      b ← load (to_do r) (to_do_idx r);
      let r := Resolve (values r) (loc r) (pred r) (to_do r) (to_do_idx r - 1) (ready r) (ready_idx r) (num_vals r) (code r) in
      p ← load (pred r) b;
      if p =? -1 then resolve_loop fuel num_copies r
      else r ← break_cycle num_copies b r; resolve_loop fuel num_copies r
  end.

Definition resolve_parallel_copy (copies : list pcopy) (c : copy_code) : option copy_code :=
  num_copies ← for_each (fun p n => assert! is_reg (dst p) ;; Some (if is_no_op p then n else n + 1)) copies 0;
  if num_copies =? 0 then Some c else
  let n := Z.to_nat (num_copies * 2) in
  r ← for_each setup_copy copies
    (Resolve (replicate n None) (replicate n (Some (-1))) (replicate n (Some (-1))) (replicate n None) (-1) (replicate n None) (-1) 0 c);
  r ← init_ready r;
  r ← resolve_loop (S (S (Z.to_nat num_copies))) num_copies r;
  Some (code r).
End resolve.

(** ** What the code computes *)

Section semantics.
Context {V : Type} (ssa_value : nat -> V).

Definition eval (env : nat -> V) (v : copy_value) : V := if is_reg v then env (cv_ssa v) else ssa_value (cv_ssa v).

Definition exec_move (m : nat * copy_value) (env : nat -> V) : nat -> V :=
  let x := eval env m.2 in fun r => if decide (r = m.1) then x else env r.

Definition exec (ms : list (nat * copy_value)) (env : nat -> V) : nat -> V := foldl (fun env m => exec_move m env) env ms.
End semantics.

(** ** Setting up *)

(** The element of a list at an index of the arrays *)
Definition at_index {A} (l : list A) (i : Z) : option A := if i <? 0 then None else l !! Z.to_nat i.

Lemma at_index_app {A} (l : list A) x i : at_index (l ++ [x]) i = if decide (i = Z.of_nat (length l)) then Some x else at_index l i.
Proof.
  unfold at_index. destruct (Z.ltb_spec i 0) as [Hi|Hi]; [destruct (decide _); [lia|done]|].
  destruct (decide (i = Z.of_nat (length l))) as [->|Hne]; [rewrite Nat2Z.id; by apply list_lookup_middle|].
  destruct (decide (i < Z.of_nat (length l))) as [Hlt|Hge]; [by rewrite lookup_app_l by lia|].
  rewrite !lookup_ge_None_2; [done|lia|rewrite length_app; cbn; lia].
Qed.

Lemma at_index_lt {A} (l : list A) i x : at_index l i = Some x -> 0 <= i < Z.of_nat (length l).
Proof. unfold at_index. destruct (Z.ltb_spec i 0); [done|]. intros ?%lookup_lt_Some. lia. Qed.

Lemma at_index_is_Some {A} (l : list A) i : 0 <= i < Z.of_nat (length l) -> exists x, at_index l i = Some x.
Proof. intros Hi. unfold at_index. destruct (Z.ltb_spec i 0); [lia|]. apply lookup_lt_is_Some_2. lia. Qed.

Lemma at_index_elem {A} (l : list A) x : x ∈ l <-> exists i, at_index l i = Some x.
Proof.
  split.
  - intros [k Hk]%list_elem_of_lookup. exists (Z.of_nat k). unfold at_index. destruct (Z.ltb_spec (Z.of_nat k) 0); [lia|]. by rewrite Nat2Z.id.
  - intros [i Hi]. unfold at_index in Hi. destruct (i <? 0); [done|]. by eapply list_elem_of_lookup_2.
Qed.

Lemma at_index_inj {A} (l : list A) i j x : NoDup l -> at_index l i = Some x -> at_index l j = Some x -> i = j.
Proof.
  unfold at_index. intros Hnd. destruct (Z.ltb_spec i 0), (Z.ltb_spec j 0); try done. intros H1 H2.
  pose proof (NoDup_lookup _ _ _ _ Hnd H1 H2). lia.
Qed.

Section setup.
Context (n : Z) (c0 : copy_code).

(** The values found so far *)
Record vals_ok (vs : list copy_value) (r : resolve) : Prop := {
  vo_lengths : Z.of_nat (length (values r)) = 2 * n /\ Z.of_nat (length (loc r)) = 2 * n /\ Z.of_nat (length (pred r)) = 2 * n /\
    Z.of_nat (length (to_do r)) = 2 * n /\ Z.of_nat (length (ready r)) = 2 * n;
  vo_num : num_vals r = Z.of_nat (length vs);
  vo_values : forall i, 0 <= i < Z.of_nat (length vs) -> load (values r) i = at_index vs i;
  vo_nodup : NoDup vs }.

Lemma find_src_ok vs r v : vals_ok vs r ->
  exists idx, find_src r v = Some idx /\ ((idx = -1 /\ v ∉ vs) \/ at_index vs idx = Some v).
Proof.
  intros Hr. unfold find_src. rewrite (vo_num _ _ Hr).
  destruct (for_each_seqZ_rule (fun k idx => (idx = -1 /\ forall i, i < k -> at_index vs i <> Some v) \/ at_index vs idx = Some v)
    (fun i idx => x ← load (values r) i; Some (if decide (x = v) then i else idx)) 0 (Z.of_nat (length vs)) (-1)) as (idx & -> & Hidx).
  - lia.
  - left. split; [done|]. intros i Hi H%at_index_lt. lia.
  - intros k idx Hk HI. rewrite (vo_values _ _ Hr) by lia. destruct (at_index_is_Some vs k ltac:(lia)) as [x Hx]. rewrite Hx. cbn.
    eexists. split; [done|]. destruct (decide (x = v)) as [->|Hne]; [by right|]. destruct HI as [[-> HI]|HI]; [|by right].
    left. split; [done|]. intros i Hi. destruct (decide (i = k)) as [->|]; [congruence|apply HI; lia].
  - exists idx. split; [done|]. destruct Hidx as [[-> H]|?]; [|by right]. left. split; [done|].
    intros [i Hi]%at_index_elem. pose proof (at_index_lt _ _ _ Hi). by apply (H i); [lia|].
Qed.

Lemma find_dest_ok vs r v : vals_ok vs r -> (forall i, at_index vs i = Some v -> load (pred r) i = Some (-1)) -> find_dest r v = find_src r v.
Proof.
  intros Hr Hnew. unfold find_dest, find_src. rewrite (vo_num _ _ Hr). generalize (-1) at 2 3 as idx.
  assert (Hin : forall i, i ∈ seqZ 0 (Z.of_nat (length vs)) -> 0 <= i < Z.of_nat (length vs)) by (intros i ?%elem_of_seqZ; lia).
  revert Hin. induction (seqZ 0 (Z.of_nat (length vs))) as [|k l IH]; intros Hin idx; [done|]. cbn [for_each].
  rewrite (vo_values _ _ Hr) by (apply Hin; left). destruct (at_index vs k) as [x|] eqn:Hx; [|done]. cbn.
  destruct (decide (x = v)) as [->|].
  - rewrite (Hnew k Hx). cbn. apply IH. intros i Hi. apply Hin. by right.
  - cbn. apply IH. intros i Hi. apply Hin. by right.
Qed.

Lemma add_value_ok vs r idx v : vals_ok vs r -> ((idx = -1 /\ v ∉ vs) \/ at_index vs idx = Some v) -> Z.of_nat (length vs) < 2 * n ->
  exists r' vs' i, add_value r idx v = Some (r', i) /\ vals_ok vs' r' /\ at_index vs' i = Some v /\ (vs' = vs \/ vs' = vs ++ [v]) /\
    loc r' = loc r /\ pred r' = pred r /\ to_do r' = to_do r /\ to_do_idx r' = to_do_idx r /\ ready_idx r' = ready_idx r /\ code r' = code r.
Proof.
  intros Hr Hidx Hcap. unfold add_value. destruct Hidx as [[-> Hnew]|Hat].
  - destruct (vo_lengths _ _ Hr) as (Hl & Hrest). cbn. destruct (cell_store_ok (values r) (num_vals r) v) as [vals Hs]; [rewrite (vo_num _ _ Hr); lia|].
    rewrite Hs. cbn. eexists _, (vs ++ [v]), _. split; [done|]. split; [|split; [|split; [by right|done]]].
    + split; cbn; [by rewrite (store_length _ _ _ _ Hs)|rewrite (vo_num _ _ Hr), length_app; cbn; lia| |].
      * intros i Hi. rewrite (load_store _ _ _ _ _ Hs), at_index_app, (vo_num _ _ Hr). destruct (decide _); [done|].
        apply (vo_values _ _ Hr). rewrite length_app in Hi. cbn in Hi. lia.
      * apply NoDup_app. split; [apply (vo_nodup _ _ Hr)|]. split; [|apply NoDup_singleton]. by intros x Hx ->%list_elem_of_singleton.
    + rewrite at_index_app, (vo_num _ _ Hr). by rewrite decide_True.
  - destruct (Z.ltb_spec idx 0); [apply at_index_lt in Hat; lia|]. exists r, vs, idx. split_and!; auto.
Qed.

Record setup_ok (cs : list pcopy) (vs : list copy_value) (r : resolve) : Prop := {
  su_vals : vals_ok vs r;
  su_cap : (length vs <= 2 * length cs)%nat;
  su_elem : forall v, v ∈ vs <-> exists c, c ∈ cs /\ (v = src c \/ v = dst c);
  su_src : forall i c, c ∈ cs -> at_index vs i = Some (src c) -> load (loc r) i = Some i;
  su_not_src : forall i, 0 <= i < 2 * n -> (forall c, c ∈ cs -> at_index vs i <> Some (src c)) -> load (loc r) i = Some (-1);
  su_dst : forall i c, c ∈ cs -> at_index vs i = Some (dst c) -> exists p, load (pred r) i = Some p /\ at_index vs p = Some (src c);
  su_not_dst : forall i, 0 <= i < 2 * n -> (forall c, c ∈ cs -> at_index vs i <> Some (dst c)) -> load (pred r) i = Some (-1);
  su_to_do : to_do_idx r = Z.of_nat (length cs) - 1;
  su_to_do_sound : forall j, 0 <= j <= to_do_idx r -> exists i c, load (to_do r) j = Some i /\ c ∈ cs /\ at_index vs i = Some (dst c);
  su_to_do_complete : forall c, c ∈ cs -> exists i j, 0 <= j <= to_do_idx r /\ load (to_do r) j = Some i /\ at_index vs i = Some (dst c);
  su_rest : ready_idx r = -1 /\ code r = c0 }.

Lemma at_index_grow {A} (l l' : list A) x i y : l' = l \/ l' = l ++ [x] -> at_index l i = Some y -> at_index l' i = Some y.
Proof. intros [->| ->] H; [done|]. rewrite at_index_app. apply at_index_lt in H as ?. by rewrite decide_False by lia. Qed.

Lemma setup_copy_ok cs vs r c : setup_ok cs vs r -> dst c ∉ map dst cs -> Z.of_nat (length cs) < n -> is_no_op c = false ->
  exists vs' r', setup_copy c r = Some r' /\ setup_ok (cs ++ [c]) vs' r'.
Proof.
  intros Hr Hnew Hcs Hop. unfold setup_copy. rewrite Hop. pose proof (su_vals _ _ _ Hr) as Hv. pose proof (su_cap _ _ _ Hr) as Hcap.
  destruct (find_src_ok vs r (src c) Hv) as (i0 & -> & Hi0). cbn [mbind option_bind].
  destruct (add_value_ok vs r i0 (src c) Hv Hi0 ltac:(lia)) as (r1 & vs1 & si & -> & Hv1 & Hsi & Hvs1 & El1 & Ep1 & Et1 & Eti1 & Eri1 & Ec1). cbn [mbind option_bind].
  assert (Hlen1 : (length vs1 <= S (length vs))%nat) by (destruct Hvs1 as [->| ->]; rewrite ?length_app; cbn; lia).
  assert (Hpred : forall i, at_index vs1 i = Some (dst c) -> load (pred r1) i = Some (-1)).
  { intros i Hi. rewrite Ep1. apply (su_not_dst _ _ _ Hr); [apply at_index_lt in Hi; lia|]. intros c' Hc' Hi'.
    pose proof (at_index_grow vs vs1 (src c) i (dst c') Hvs1 Hi') as E. apply Hnew. assert (dst c = dst c') as -> by congruence. apply list_elem_of_fmap. eauto. }
  rewrite (find_dest_ok vs1 r1 (dst c) Hv1 Hpred). destruct (find_src_ok vs1 r1 (dst c) Hv1) as (i1 & -> & Hi1). cbn [mbind option_bind].
  destruct (add_value_ok vs1 r1 i1 (dst c) Hv1 Hi1 ltac:(lia)) as (r2 & vs2 & di & -> & Hv2 & Hdi & Hvs2 & El2 & Ep2 & Et2 & Eti2 & Eri2 & Ec2). cbn [mbind option_bind].
  assert (Hsi2 : at_index vs2 si = Some (src c)) by (by eapply at_index_grow).
  assert (Hold : forall i v, at_index vs i = Some v -> at_index vs2 i = Some v) by (intros i v Hi; do 2 (eapply at_index_grow; [done|]); done).
  assert (Hlen2 : (length vs2 <= S (length vs1))%nat) by (destruct Hvs2 as [->| ->]; rewrite ?length_app; cbn; lia).
  assert (Hel : forall v, v ∈ vs2 <-> v ∈ vs \/ v = src c \/ v = dst c).
  { intros v. assert (src c ∈ vs1) by (apply at_index_elem; eauto). assert (dst c ∈ vs2) by (apply at_index_elem; eauto).
    clear - Hvs1 Hvs2 H H0. destruct Hvs1 as [->| ->], Hvs2 as [->| ->]; rewrite ?elem_of_app, ?list_elem_of_singleton in *; naive_solver. }
  assert (Hback : forall i v, at_index vs2 i = Some v -> v ∈ vs -> at_index vs i = Some v).
  { intros i v Hi [k Hk]%at_index_elem. by rewrite (at_index_inj vs2 i k v (vo_nodup _ _ Hv2) Hi (Hold k v Hk)). }
  pose proof (at_index_lt _ _ _ Hsi2) as Hsib. pose proof (at_index_lt _ _ _ Hdi) as Hdib.
  destruct (vo_lengths _ _ Hv2) as (HL1 & HL2 & HL3 & HL4 & HL5).
  destruct (cell_store_ok (loc r2) si si) as [lc Hlc]; [lia|]. destruct (cell_store_ok (pred r2) di si) as [pr Hpr]; [lia|].
  destruct (cell_store_ok (to_do r2) (to_do_idx r2 + 1) di) as [td Htd]; [rewrite Eti2, Eti1, (su_to_do _ _ _ Hr); lia|].
  rewrite Hlc. cbn [mbind option_bind]. rewrite Hpr. cbn [mbind option_bind]. rewrite Htd. cbn [mbind option_bind].
  assert (Hin : forall c', c' ∈ cs -> src c' ∈ vs /\ dst c' ∈ vs) by (intros c' Hc'; split; apply (su_elem _ _ _ Hr); eauto).
  rewrite El2, El1 in Hlc. rewrite Ep2, Ep1 in Hpr. rewrite Et2, Et1, Eti2, Eti1 in Htd.
  eexists vs2, _. split; [done|]. split; cbn [values loc pred to_do to_do_idx ready ready_idx num_vals code].
  - destruct Hv2 as [G1 G2 G3 G4]. split; cbn; [|done..]. rewrite (store_length _ _ _ _ Hlc), (store_length _ _ _ _ Hpr), (store_length _ _ _ _ Htd). by rewrite <- El1, <- El2, <- Ep1, <- Ep2, <- Et1, <- Et2.
  - rewrite length_app. cbn. lia.
  - intros v. rewrite Hel, (su_elem _ _ _ Hr). setoid_rewrite elem_of_app. setoid_rewrite list_elem_of_singleton. naive_solver.
  - intros i c' Hc' Hi. rewrite (load_store _ _ _ _ _ Hlc). destruct (decide (i = si)) as [->|Hne]; [done|].
    apply elem_of_app in Hc' as [Hc'| ->%list_elem_of_singleton].
    + apply (su_src _ _ _ Hr i c' Hc'), Hback; [done|by apply Hin].
    + exfalso. apply Hne. by apply (at_index_inj vs2 i si (src c) (vo_nodup _ _ Hv2)).
  - intros i Hi Hno. rewrite (load_store _ _ _ _ _ Hlc). destruct (decide (i = si)) as [->|Hne]; [exfalso; apply (Hno c); [apply elem_of_app; right; left|done]|].
    apply (su_not_src _ _ _ Hr); [done|]. intros c' Hc' Hi'. apply (Hno c'); [apply elem_of_app; by left|auto].
  - intros i c' Hc' Hi. rewrite (load_store _ _ _ _ _ Hpr). apply elem_of_app in Hc' as [Hc'| ->%list_elem_of_singleton].
    + destruct (decide (i = di)) as [->|Hne].
      { exfalso. apply Hnew. assert (dst c = dst c') as -> by congruence. apply list_elem_of_fmap. eauto. }
      destruct (su_dst _ _ _ Hr i c' Hc') as (q & Hq & Hqs); [apply Hback; [done|by apply Hin]|]. exists q. auto.
    + rewrite decide_True by (by apply (at_index_inj vs2 i di (dst c) (vo_nodup _ _ Hv2))). eauto.
  - intros i Hi Hno. rewrite (load_store _ _ _ _ _ Hpr). destruct (decide (i = di)) as [->|Hne]; [exfalso; apply (Hno c); [apply elem_of_app; right; left|done]|].
    apply (su_not_dst _ _ _ Hr); [done|]. intros c' Hc' Hi'. apply (Hno c'); [apply elem_of_app; by left|auto].
  - rewrite Eti2, Eti1, (su_to_do _ _ _ Hr), length_app. cbn. lia.
  - intros j Hj. rewrite (load_store _ _ _ _ _ Htd). rewrite Eti2, Eti1 in Hj. destruct (decide (j = to_do_idx r + 1)) as [->|Hne].
    + exists di, c. split; [done|]. split; [apply elem_of_app; right; left|done].
    + destruct (su_to_do_sound _ _ _ Hr j ltac:(lia)) as (i & c' & ? & ? & ?). exists i, c'. split; [done|]. split; [apply elem_of_app; by left|auto].
  - intros c' Hc'. apply elem_of_app in Hc' as [Hc'| ->%list_elem_of_singleton].
    + destruct (su_to_do_complete _ _ _ Hr c' Hc') as (i & j & Hj & Hl & Hi). exists i, j. rewrite Eti2, Eti1. split; [lia|].
      rewrite (load_store _ _ _ _ _ Htd), decide_False by lia. auto.
    + exists di, (to_do_idx r + 1). rewrite Eti2, Eti1. pose proof (su_to_do _ _ _ Hr). split; [lia|]. rewrite (load_store _ _ _ _ _ Htd), decide_True; done.
  - rewrite Eri2, Eri1, Ec2, Ec1. apply (su_rest _ _ _ Hr).
Qed.
End setup.

(** ** Resolving *)

Definition same_type (d d' : decl) : Prop := num_components d = num_components d' /\ bit_size d = bit_size d'.

(** More registers may have been declared. *)
Definition extends_code (c c' : copy_code) : Prop := (exists ex, regs c' = regs c ++ ex) /\ defs c' = defs c.

Lemma extends_info c c' v d : extends_code c c' -> value_info c v = Some d -> value_info c' v = Some d.
Proof. intros [[ex Hr] Hd]. unfold value_info. destruct (is_reg v); [|by rewrite Hd]. intros H. rewrite Hr. by apply lookup_app_l_Some. Qed.

Lemma filter_le {A} (Q Q' : A -> Prop) `{!forall x, Decision (Q x)} `{!forall x, Decision (Q' x)} (l : list A) :
  (forall x, x ∈ l -> Q' x -> Q x) -> (length (filter Q' l) <= length (filter Q l))%nat.
Proof.
  induction l as [|x l IH]; intros Hs; [done|]. rewrite !filter_cons. specialize (IH (fun y Hy => Hs y (list_elem_of_further _ _ _ Hy))).
  destruct (decide (Q' x)) as [HQ|HQ]; [rewrite decide_True by (apply Hs; [left|done]); cbn; lia|]. destruct (decide (Q x)); cbn; lia.
Qed.

Lemma filter_lt {A} (Q Q' : A -> Prop) `{!forall x, Decision (Q x)} `{!forall x, Decision (Q' x)} (l : list A) b :
  (forall x, x ∈ l -> Q' x -> Q x) -> b ∈ l -> Q b -> ~ Q' b -> (length (filter Q' l) < length (filter Q l))%nat.
Proof.
  intros Hs Hb HQ HQ'. induction l as [|x l IH]; [by apply not_elem_of_nil in Hb|]. rewrite !filter_cons.
  assert (Hle : (length (filter Q' l) <= length (filter Q l))%nat) by (apply filter_le; intros y Hy; apply Hs; by right).
  apply elem_of_cons in Hb as [<-|Hb]; [rewrite decide_False, decide_True by done; cbn; lia|].
  specialize (IH (fun y Hy => Hs y (list_elem_of_further _ _ _ Hy)) Hb).
  destruct (decide (Q' x)) as [Hx|Hx]; [rewrite decide_True by (apply Hs; [left|done]); cbn; lia|]. destruct (decide (Q x)); cbn; lia.
Qed.

Section invariant.
Context (consider : bool) {V : Type} (sv : nat -> V) (env0 : nat -> V) (c0 : copy_code).
Context (n : Z) (vs : list copy_value) (P : Z -> Z) (Src : Z -> Prop) {HS : forall i, Decision (Src i)}.
Context (HP : forall b, P b <> -1 -> 0 <= b < Z.of_nat (length vs) /\ 0 <= P b < Z.of_nat (length vs) /\ Src (P b)).
Context (Hreg : forall b v, P b <> -1 -> at_index vs b = Some v -> is_reg v = true).
Context (Hinfo : forall v, v ∈ vs -> exists d, value_info c0 v = Some d).
Context (Hcopy : forall b va vb da db, P b <> -1 -> at_index vs (P b) = Some va -> at_index vs b = Some vb -> value_info c0 va = Some da -> value_info c0 vb = Some db ->
  same_type da db /\ (consider = true -> divergent da = true -> divergent db = true)).
Context (Hnodup : NoDup vs).
Notation m := (Z.of_nat (length vs)).
Notation old i := (eval sv env0 <$> at_index vs i).

(** [v] holds what [vs] had at [i]. *)
Definition holds (c : copy_code) (env : nat -> V) (i : Z) (v : copy_value) : Prop :=
  Some (eval sv env v) = old i /\ exists w d d', at_index vs i = Some w /\ value_info c0 w = Some d /\ value_info c v = Some d' /\
    same_type d' d /\ (consider = true -> divergent d' = divergent d).

Record inv (k : Z) (F : gset Z) (st : list Z) (ms : list (nat * copy_value)) (r : resolve) : Prop := {
  iv_lengths : Z.of_nat (length (values r)) = 2 * n /\ Z.of_nat (length (loc r)) = 2 * n /\ Z.of_nat (length (pred r)) = 2 * n /\ Z.of_nat (length (ready r)) = 2 * n;
  iv_code : extends_code c0 (code r) /\ moves (code r) = moves c0 ++ ms;
  iv_num : m <= num_vals r;
  iv_values : forall i, 0 <= i < m -> load (values r) i = at_index vs i;
  iv_temps : forall t, m <= t < num_vals r -> exists reg, load (values r) t = Some (CopyValue true reg) /\ (length (regs c0) <= reg < length (regs (code r)))%nat;
  iv_filled : forall b, b ∈ F -> P b <> -1;
  iv_pred : forall i, 0 <= i < m -> load (pred r) i = Some (if decide (i ∈ F) then -1 else P i);
  iv_loc : forall i, 0 <= i < m -> Src i -> exists l v, load (loc r) i = Some l /\ load (values r) l = Some v /\ (l = i \/ l ∈ F \/ m <= l < num_vals r) /\
    holds (code r) (exec sv ms env0) i v;
  iv_not_src : forall i, 0 <= i < m -> ~ Src i -> load (loc r) i = Some (-1);
  iv_env : forall i v, at_index vs i = Some v -> Some (eval sv (exec sv ms env0) v) = old (if decide (i ∈ F) then P i else i);
  iv_stack : ready_idx r = Z.of_nat (length st) - 1 /\ forall j, 0 <= j < Z.of_nat (length st) -> load (ready r) j = at_index st j;
  iv_stack_nodup : NoDup st;
  iv_stack_sound : forall b, b ∈ st -> P b <> -1 /\ b ∉ F /\ load (loc r) b <> Some b;
  iv_stack_src : forall st' b x, st = st' ++ [b] -> x ∈ st' -> ~ Src x;
  iv_stack_complete : forall b, P b <> -1 -> b ∉ F -> load (loc r) b <> Some b -> b ∈ st;
  iv_bound : num_vals r + Z.of_nat (length (filter (fun i => load (loc r) i = Some i /\ P i <> -1 /\ i ∉ F) (seqZ 0 m))) <= 2 * n + k;
  iv_frame : forall reg, (reg < length (regs c0))%nat -> (forall b, P b <> -1 -> at_index vs b <> Some (CopyValue true reg)) -> exec sv ms env0 reg = env0 reg;
  iv_typed : forall reg v, (reg, v) ∈ ms -> exists d d', regs (code r) !! reg = Some d /\ value_info (code r) v = Some d' /\ same_type d' d }.

Lemma exec_snoc ms x : exec sv (ms ++ [x]) env0 = exec_move sv x (exec sv ms env0).
Proof. unfold exec. by rewrite foldl_snoc. Qed.

(** A move to a register leaves the other values. *)
Lemma eval_move reg w env v : v <> CopyValue true reg -> eval sv (exec_move sv (reg, w) env) v = eval sv env v.
Proof.
  intros H. unfold eval, exec_move. destruct v as [ir x]. cbn in *. destruct ir; [|done]. rewrite decide_False; [done|]. intros ->. by apply H.
Qed.

Lemma eval_moved reg w env : eval sv (exec_move sv (reg, w) env) (CopyValue true reg) = eval sv env w.
Proof. unfold eval at 1, exec_move. cbn. by rewrite decide_True. Qed.

Lemma holds_move c c' reg w env i v : holds c env i v -> extends_code c c' -> v <> CopyValue true reg -> holds c' (exec_move sv (reg, w) env) i v.
Proof.
  intros [He (u & d & d' & H1 & H2 & H3 & H4)] Hx Hv. split; [by rewrite eval_move|]. exists u, d, d'. split; [done|]. split; [done|].
  split; [by eapply extends_info|done].
Qed.

Lemma copy_values_ok c dest w d d' : is_reg dest = true -> value_info c w = Some d -> value_info c dest = Some d' ->
  (consider = true -> divergent d = true -> divergent d' = true) ->
  copy_values consider c dest w = Some (CopyCode (regs c) (defs c) (moves c ++ [(cv_ssa dest, w)])).
Proof.
  intros Hr Hd Hd' Hdiv. unfold copy_values, copy_value_is_divergent. rewrite Hd, Hd'. cbn. rewrite Hr.
  destruct consider, (divergent d), (divergent d'); try done. by specialize (Hdiv eq_refl eq_refl).
Qed.

Lemma reg_eta v : is_reg v = true -> v = CopyValue true (cv_ssa v).
Proof. destruct v; cbn. by intros ->. Qed.

Lemma at_values k F st ms r i : inv k F st ms r -> 0 <= i < m -> exists v d, at_index vs i = Some v /\ load (values r) i = Some v /\ value_info c0 v = Some d /\ value_info (code r) v = Some d.
Proof.
  intros Hi Hb. destruct (at_index_is_Some vs i Hb) as [v Hv]. destruct (Hinfo v) as [d Hd]; [apply at_index_elem; eauto|]. exists v, d.
  split; [done|]. split; [by rewrite (iv_values _ _ _ _ _ Hi)|]. split; [done|]. by eapply extends_info; [apply (iv_code _ _ _ _ _ Hi)|].
Qed.

(** The register of a destination is not the one of another value. *)
Lemma other_value k F st ms r b vb l v : inv k F st ms r -> P b <> -1 -> at_index vs b = Some vb -> load (values r) l = Some v ->
  (0 <= l < m \/ m <= l < num_vals r) -> l <> b -> v <> CopyValue true (cv_ssa vb).
Proof.
  intros Hi HPb Hvb Hl Hr Hne ->. pose proof (Hreg b vb HPb Hvb) as Hrb. destruct Hr as [Hr|Hr].
  - rewrite (iv_values _ _ _ _ _ Hi) in Hl by done. rewrite <- (reg_eta vb Hrb) in Hl. apply Hne. by apply (at_index_inj vs l b vb Hnodup).
  - destruct (iv_temps _ _ _ _ _ Hi l Hr) as (reg & Hreg' & Hlt). assert (reg = cv_ssa vb) as -> by congruence.
    destruct (Hinfo vb) as [d Hd]; [apply at_index_elem; eauto|]. unfold value_info in Hd. rewrite Hrb in Hd. apply lookup_lt_Some in Hd. lia.
Qed.

Lemma inv_fill k F st b ms r : inv k F (st ++ [b]) ms r -> exists va vb la v pr,
  load (ready r) (ready_idx r) = Some b /\ load (pred r) b = Some (P b) /\ load (values r) b = Some vb /\ load (values r) (P b) = Some va /\
  load (loc r) (P b) = Some la /\ load (values r) la = Some v /\
  copy_values consider (code r) vb v = Some (CopyCode (regs (code r)) (defs (code r)) (moves (code r) ++ [(cv_ssa vb, v)])) /\
  store (pred r) b (-1) = Some pr /\ P b <> -1 /\ b ∉ F /\ at_index vs b = Some vb /\ at_index vs (P b) = Some va /\
  inv k ({[b]} ∪ F) st (ms ++ [(cv_ssa vb, v)]) (Resolve (values r) (loc r) pr (to_do r) (to_do_idx r) (ready r) (ready_idx r - 1) (num_vals r)
    (CopyCode (regs (code r)) (defs (code r)) (moves (code r) ++ [(cv_ssa vb, v)]))).
Proof.
  intros Hi. destruct (iv_stack_sound _ _ _ _ _ Hi b) as (HPb & HbF & Hlb); [apply elem_of_app; right; left|].
  destruct (HP b HPb) as (Hb & Ha & HSa). destruct (iv_stack _ _ _ _ _ Hi) as [Hidx Hst]. rewrite length_app in *. cbn in Hidx.
  destruct (at_values _ _ _ _ _ b Hi Hb) as (vb & db & Hvb & Hlvb & Hdb & Hdb'). destruct (at_values _ _ _ _ _ (P b) Hi Ha) as (va & da & Hva & Hlva & Hda & _).
  destruct (iv_loc _ _ _ _ _ Hi (P b) Ha HSa) as (la & v & Hla & Hv & Hwhere & Hholds). pose proof Hholds as [Hev (w & d & d' & Hw & Hd & Hd' & Hty & Hdiv)].
  assert (w = va) as -> by congruence. assert (d = da) as -> by congruence.
  destruct (Hcopy b va vb da db HPb Hva Hvb Hda Hdb) as [Hty2 Hdiv2]. pose proof (iv_lengths _ _ _ _ _ Hi) as (HL1 & HL2 & HL3 & HL4).
  pose proof (iv_num _ _ _ _ _ Hi) as Hnum. pose proof (iv_bound _ _ _ _ _ Hi) as Hbound.
  destruct (cell_store_ok (pred r) b (-1)) as [pr Hpr].
  { unfold load in Hlvb. destruct (Z.ltb_spec b 0); [done|]. destruct (values r !! Z.to_nat b) eqn:E; [|done]. apply lookup_lt_Some in E. lia. }
  exists va, vb, la, v, pr. split; [rewrite Hidx, Hst by (cbn; lia); rewrite at_index_app, decide_True by lia; done|].
  split; [rewrite (iv_pred _ _ _ _ _ Hi), decide_False by done; done|]. do 4 (split; [done|]).
  split; [apply copy_values_ok with d' db; [by eapply Hreg|done|done|]; intros Hc Hdd; apply Hdiv2; [done|by rewrite <- (Hdiv Hc)]|].
  do 5 (split; [done|]).
  assert (Hother : forall l x, load (values r) l = Some x -> (0 <= l < m \/ m <= l < num_vals r) -> l <> b -> x <> CopyValue true (cv_ssa vb)).
  { intros l x Hl Hr Hne. by apply (other_value k F (st ++ [b]) ms r b vb l x Hi). }
  assert (Hx : extends_code (code r) (CopyCode (regs (code r)) (defs (code r)) (moves (code r) ++ [(cv_ssa vb, v)]))).
  { split; [exists []; by rewrite app_nil_r|done]. }
  pose proof (reg_eta vb (Hreg b vb HPb Hvb)) as Eta.
  split; cbn [values loc pred to_do to_do_idx ready ready_idx num_vals code moves regs defs]; rewrite ?exec_snoc.
  - by rewrite (store_length _ _ _ _ Hpr).
  - destruct (iv_code _ _ _ _ _ Hi) as [[[ex Hex] Hdf] Hms]. split; [split; [by exists ex|done]|]. by rewrite Hms, app_assoc.
  - done.
  - apply (iv_values _ _ _ _ _ Hi).
  - apply (iv_temps _ _ _ _ _ Hi).
  - intros x [->%elem_of_singleton|Hx']%elem_of_union; [done|by apply (iv_filled _ _ _ _ _ Hi)].
  - intros i Hi'. rewrite (load_store _ _ _ _ _ Hpr). destruct (decide (i = b)) as [->|Hne]; [rewrite decide_True by set_solver; done|].
    rewrite (iv_pred _ _ _ _ _ Hi) by done. f_equal. destruct (decide (i ∈ F)); [rewrite decide_True by set_solver|rewrite decide_False by set_solver]; done.
  - intros i Hi' HSi. destruct (iv_loc _ _ _ _ _ Hi i Hi' HSi) as (l & x & Hl & Hx' & Hw' & Hh). exists l, x. split; [done|]. split; [done|].
    split; [destruct Hw' as [->|[?|?]]; [by left|right; left; set_solver|by right; right]|]. apply (holds_move (code r)); [done|done|].
    apply (Hother l); [done| |intros ->; destruct Hw' as [->|[?|?]]; [by apply Hlb|done|lia]].
    destruct Hw' as [->|[Hl'%(iv_filled _ _ _ _ _ Hi)|?]]; [by left|left; by apply HP|by right].
  - apply (iv_not_src _ _ _ _ _ Hi).
  - intros i x Hix. destruct (decide (i = b)) as [->|Hne].
    + rewrite decide_True by set_solver. assert (x = vb) as -> by congruence. pose proof (eval_moved (cv_ssa vb) v (exec sv ms env0)) as E. rewrite <- Eta in E. by rewrite E.
    + rewrite eval_move; [|apply (Hother i); [rewrite (iv_values _ _ _ _ _ Hi); [done|by eapply at_index_lt]|left; by eapply at_index_lt|done]].
      rewrite (iv_env _ _ _ _ _ Hi i x Hix). destruct (decide (i ∈ F)); [rewrite decide_True by set_solver|rewrite decide_False by set_solver]; done.
  - split; [lia|]. intros j Hj. rewrite Hst by (cbn; lia). rewrite at_index_app, decide_False by lia. done.
  - pose proof (iv_stack_nodup _ _ _ _ _ Hi) as Hnd. by apply NoDup_app in Hnd as [? _].
  - intros x Hx'. destruct (iv_stack_sound _ _ _ _ _ Hi x) as (? & ? & ?); [apply elem_of_app; by left|]. split; [done|]. split; [|done].
    intros [->%elem_of_singleton|?]%elem_of_union; [|done]. pose proof (iv_stack_nodup _ _ _ _ _ Hi) as Hnd.
    apply NoDup_app in Hnd as (_ & Hno & _). apply (Hno b Hx'). left.
  - intros st' y x -> Hx'. apply (iv_stack_src _ _ _ _ _ Hi (st' ++ [y]) b x); [done|apply elem_of_app; by left].
  - intros x HPx [Hxb Hxf]%not_elem_of_union Hlx. pose proof (iv_stack_complete _ _ _ _ _ Hi x HPx Hxf Hlx) as [?| ->%list_elem_of_singleton]%elem_of_app; [done|].
    exfalso. apply Hxb. by apply elem_of_singleton.
  - etrans; [|exact Hbound]. apply Z.add_le_mono_l, inj_le, filter_le. intros x _ (? & ? & [_ ?]%not_elem_of_union). done.
  - intros reg Hlt Hno. unfold exec_move. cbn [fst]. rewrite decide_False; [by apply (iv_frame _ _ _ _ _ Hi)|]. intros ->. apply (Hno b HPb). by rewrite <- Eta.
  - intros reg x [Hin|[= -> ->]%list_elem_of_singleton]%elem_of_app; [apply (iv_typed _ _ _ _ _ Hi reg x Hin)|].
    exists db, d'. split; [unfold value_info in Hdb'; by rewrite (Hreg b vb HPb Hvb) in Hdb'|]. split; [done|]. unfold same_type in *. split; etrans; [apply Hty|apply Hty2|apply Hty|apply Hty2].
Qed.

(** The value of [a] has moved to [l], which makes [a] ready. *)
Lemma inv_relocate k k' F st ms r a l v : inv k F st ms r -> Src a -> P a <> -1 -> a ∉ F -> (forall x, x ∈ st -> ~ Src x) ->
  l ∈ F \/ m <= l < num_vals r -> load (values r) l = Some v -> holds (code r) (exec sv ms env0) a v ->
  k' = k \/ (k' = k - 1 /\ load (loc r) a = Some a) -> (length st < 2 * Z.to_nat n)%nat ->
  exists lc r', store (loc r) a l = Some lc /\
    push_ready (Resolve (values r) lc (pred r) (to_do r) (to_do_idx r) (ready r) (ready_idx r) (num_vals r) (code r)) a = Some r' /\
    inv k' F (st ++ [a]) ms r' /\ to_do r' = to_do r /\ to_do_idx r' = to_do_idx r /\ num_vals r' = num_vals r.
Proof.
  intros Hi HSa HPa HaF Hst Hl Hv Hh Hk Hroom. destruct (HP a HPa) as (Ha & _). pose proof (iv_lengths _ _ _ _ _ Hi) as (HL1 & HL2 & HL3 & HL4).
  destruct (iv_stack _ _ _ _ _ Hi) as [Hidx Hstk].
  assert (Hla : l <> a) by (intros ->; destruct Hl; [done|lia]).
  destruct (iv_loc _ _ _ _ _ Hi a Ha HSa) as (l0 & v0 & Hl0 & _). destruct (cell_store_ok (loc r) a l) as [lc Hlc].
  { unfold load in Hl0. destruct (Z.ltb_spec a 0); [done|]. destruct (loc r !! Z.to_nat a) eqn:E; [|done]. apply lookup_lt_Some in E. lia. }
  destruct (cell_store_ok (ready r) (ready_idx r + 1) a) as [rd Hrd]; [lia|].
  eexists lc, _. split; [done|]. unfold push_ready. cbn [ready ready_idx values loc pred to_do to_do_idx num_vals code]. rewrite Hrd. cbn [mbind option_bind].
  split; [done|]. split; [|done].
  assert (Hload : forall i, load lc i = if decide (i = a) then Some l else load (loc r) i) by (intros i; by rewrite (load_store _ _ _ _ _ Hlc)).
  split; cbn [values loc pred to_do to_do_idx ready ready_idx num_vals code].
  - by rewrite (store_length _ _ _ _ Hlc), (store_length _ _ _ _ Hrd).
  - apply (iv_code _ _ _ _ _ Hi).
  - apply (iv_num _ _ _ _ _ Hi).
  - apply (iv_values _ _ _ _ _ Hi).
  - apply (iv_temps _ _ _ _ _ Hi).
  - apply (iv_filled _ _ _ _ _ Hi).
  - apply (iv_pred _ _ _ _ _ Hi).
  - intros i Hi' HSi. rewrite Hload. destruct (decide (i = a)) as [->|]; [|by apply (iv_loc _ _ _ _ _ Hi)]. exists l, v. split_and!; auto.
  - intros i Hi' HSi. rewrite Hload, decide_False by (by intros ->). by apply (iv_not_src _ _ _ _ _ Hi).
  - apply (iv_env _ _ _ _ _ Hi).
  - rewrite length_app. cbn. split; [lia|]. intros j Hj. rewrite (load_store _ _ _ _ _ Hrd), at_index_app. destruct (decide (j = ready_idx r + 1)) as [->|Hj'].
    + by rewrite decide_True by lia.
    + rewrite decide_False by lia. apply Hstk. lia.
  - apply NoDup_app. split; [apply (iv_stack_nodup _ _ _ _ _ Hi)|]. split; [|apply NoDup_singleton]. intros x Hx ->%list_elem_of_singleton. by apply (Hst a).
  - intros b [Hb| ->%list_elem_of_singleton]%elem_of_app.
    + destruct (iv_stack_sound _ _ _ _ _ Hi b Hb) as (? & ? & ?). split; [done|]. split; [done|]. rewrite Hload, decide_False; [done|]. intros ->. by apply (Hst a).
    + split; [done|]. split; [done|]. rewrite Hload, decide_True by done. congruence.
  - intros st' b x E Hx. apply app_inj_tail in E as [-> ->]. by apply Hst.
  - intros b HPb HbF. rewrite Hload. destruct (decide (b = a)) as [->|]; intros Hlb; apply elem_of_app; [right; left|left]. by apply (iv_stack_complete _ _ _ _ _ Hi).
  - pose proof (iv_bound _ _ _ _ _ Hi) as Hbound. destruct Hk as [->|[-> Hlaa]].
    + etrans; [|exact Hbound]. apply Z.add_le_mono_l, inj_le, filter_le. intros x _. rewrite Hload. destruct (decide (x = a)) as [->|]; [|done]. intros ([= ->] & _); done.
    + assert (Hlt : (length (filter (fun i => load lc i = Some i /\ P i <> (-1)%Z /\ i ∉ F) (seqZ 0 m)) <
        length (filter (fun i => load (loc r) i = Some i /\ P i <> (-1)%Z /\ i ∉ F) (seqZ 0 m)))%nat); [|lia].
      apply filter_lt with a.
      * intros x _. rewrite Hload. destruct (decide (x = a)) as [->|]; [|done]. intros ([= ->] & _); done.
      * apply elem_of_seqZ. lia.
      * done.
      * rewrite Hload, decide_True by done. intros ([= ->] & _). done.
  - apply (iv_frame _ _ _ _ _ Hi).
  - apply (iv_typed _ _ _ _ _ Hi).
Qed.

Lemma stack_room F st ms r a : inv 0 F st ms r -> 0 <= a < m -> a ∉ st -> (length st < 2 * Z.to_nat n)%nat.
Proof.
  intros Hi Ha Hnew. assert (Hle : (length (a :: st) <= length (seqZ 0 m))%nat).
  { apply submseteq_length, NoDup_submseteq; [constructor; [done|apply (iv_stack_nodup _ _ _ _ _ Hi)]|].
    intros x Hx. apply elem_of_seqZ. apply elem_of_cons in Hx as [->|Hx]; [lia|]. destruct (iv_stack_sound _ _ _ _ _ Hi x Hx) as [HPx _]. destruct (HP x HPx). lia. }
  rewrite length_seqZ in Hle. cbn in Hle. pose proof (iv_num _ _ _ _ _ Hi). pose proof (iv_bound _ _ _ _ _ Hi). lia.
Qed.

Lemma fill_step_ok F st b ms r : inv 0 F (st ++ [b]) ms r ->
  exists r' st' ms', fill_step consider r = Some r' /\ inv 0 ({[b]} ∪ F) st' ms' r' /\ to_do r' = to_do r /\ to_do_idx r' = to_do_idx r /\ (forall x, x ∈ st -> x ∈ st').
Proof using HP HS Hreg Hinfo Hcopy Hnodup.
  intros Hi. destruct (inv_fill 0 F st b ms r Hi) as (va & vb & la & v & pr & E1 & E2 & E3 & E4 & E5 & E6 & E7 & E8 & HPb & HbF & Hvb & Hva & Hi').
  unfold fill_step. rewrite E1. cbn [mbind option_bind]. rewrite E2. cbn [mbind option_bind]. rewrite E3. cbn [mbind option_bind]. rewrite E5. cbn [mbind option_bind].
  rewrite E6. cbn [mbind option_bind]. rewrite E7. cbn [mbind option_bind]. rewrite E8. cbn [mbind option_bind values]. rewrite E4. cbn [mbind option_bind].
  set (c := CopyCode _ _ _) in *. destruct (HP b HPb) as (Hb & Ha & HSa).
  destruct (at_values _ _ _ _ _ b Hi' Hb) as (vb' & db & Hvb' & _ & Hdb & Hdbc). assert (vb' = vb) as -> by congruence.
  destruct (at_values _ _ _ _ _ (P b) Hi' Ha) as (va' & da & Hva' & _ & Hda & Hdac). assert (va' = va) as -> by congruence. cbn [code] in Hdbc, Hdac.
  assert (Hsame : exists same, same_divergence consider c va vb = Some same /\ (same = true -> consider = true -> divergent da = divergent db)).
  { unfold same_divergence, copy_value_is_divergent. rewrite Hdac, Hdbc. cbn. destruct consider; [|exists true; split; [done|done]].
    eexists. split; [done|]. intros ?%eqb_prop. done. }
  destruct Hsame as (same & -> & Hsame). cbn [mbind option_bind].
  destruct same; [|eexists _, st, _; split; [done|]; split; [exact Hi'|done]].
  pose proof (iv_pred _ _ _ _ _ Hi' (P b) Ha) as Epa. cbn [pred] in Epa. rewrite Epa. cbn [mbind option_bind].
  destruct (decide (P b ∈ {[b]} ∪ F)) as [HaF|HaF]; [eexists _, st, _; split; [done|]; split; [exact Hi'|done]|].
  destruct (Z.eqb_spec (P (P b)) (-1)) as [HPa|HPa]; [eexists _, st, _; split; [done|]; split; [exact Hi'|done]|].
  assert (Hst : forall x, x ∈ st -> ~ Src x) by (intros x Hx; by apply (iv_stack_src _ _ _ _ _ Hi st b x)).
  destruct (inv_relocate 0 0 ({[b]} ∪ F) st _ _ (P b) b vb Hi' HSa HPa HaF Hst) as (lc & r' & Elc & Er' & Hir & Et & Eti & _); cbn [values loc num_vals code] in *.
  - left. set_solver.
  - done.
  - split.
    + rewrite (iv_env _ _ _ _ _ Hi' b vb Hvb). by rewrite decide_True by set_solver.
    + exists va, da, db. split; [done|]. split; [done|]. split; [done|]. destruct (Hcopy b va vb da db HPb Hva Hvb Hda Hdb) as [[Hty1 Hty2] _].
      split; [by split|]. intros Hc. symmetry. by apply Hsame.
  - by left.
  - apply (stack_room _ _ _ _ (P b) Hi' Ha). intros Hx. by apply (Hst (P b)).
  - cbn [pred to_do to_do_idx ready ready_idx] in *. rewrite Elc. cbn [mbind option_bind]. eexists r', _, _. split; [exact Er'|]. split; [exact Hir|]. split; [done|]. split; [done|].
    intros x Hx. apply elem_of_app. by left.
Qed.

Definition unfilled (F : gset Z) : list Z := filter (fun b => P b <> -1 /\ b ∉ F) (seqZ 0 m).

Lemma fill_loop_ok fuel : forall F st ms r, inv 0 F st ms r -> (length (unfilled F) < fuel)%nat ->
  exists r' F' ms', fill_loop consider fuel r = Some r' /\ inv 0 F' [] ms' r' /\ to_do r' = to_do r /\ to_do_idx r' = to_do_idx r /\
    (forall x, x ∈ F -> x ∈ F') /\ forall x, x ∈ st -> x ∈ F'.
Proof using HP HS Hreg Hinfo Hcopy Hnodup.
  induction fuel as [|fuel IH]; intros F st ms r Hi Hf; [lia|]. cbn [fill_loop]. destruct (iv_stack _ _ _ _ _ Hi) as [Hidx _].
  destruct st as [|b st _] using rev_ind.
  - destruct (Z.ltb_spec (ready_idx r) 0); [|cbn in Hidx; lia]. exists r, F, ms. split; [done|]. split; [done|]. do 3 (split; [done|]). by intros x ?%not_elem_of_nil.
  - destruct (Z.ltb_spec (ready_idx r) 0); [rewrite length_app in Hidx; cbn in Hidx; lia|].
    destruct (fill_step_ok F st b ms r Hi) as (r1 & st1 & ms1 & -> & Hi1 & Et & Eti & Hst). cbn [mbind option_bind].
    destruct (iv_stack_sound _ _ _ _ _ Hi b) as (HPb & HbF & _); [apply elem_of_app; right; left|].
    destruct (IH ({[b]} ∪ F) st1 ms1 r1 Hi1) as (r' & F' & ms' & E & Hi' & Et' & Eti' & HF & Hs).
    { assert (Hlt : (length (unfilled ({[b]} ∪ F)) < length (unfilled F))%nat); [|lia]. unfold unfilled. apply filter_lt with b; [|apply elem_of_seqZ; destruct (HP b HPb); lia|done|set_solver].
      intros x _ [? ?%not_elem_of_union]. split; [done|tauto]. }
    exists r', F', ms'. split; [done|]. split; [done|]. split; [congruence|]. split; [congruence|]. split; [intros x Hx; apply HF; set_solver|].
    intros x [Hx| ->%list_elem_of_singleton]%elem_of_app; [auto|]. apply HF. set_solver.
Qed.

Lemma declare_temp_ok c v d : value_info c v = Some d ->
  declare_temp consider c v = Some (CopyCode (regs c ++ [Decl (num_components d) (bit_size d) (if consider then divergent d else true)]) (defs c) (moves c), CopyValue true (length (regs c))).
Proof.
  intros Hd. unfold declare_temp. rewrite Hd. cbn [mbind option_bind nir_decl_reg]. destruct consider; [|done].
  set (c1 := CopyCode (regs c ++ [Decl _ _ true]) _ _). assert (Hx : extends_code c c1) by (split; [by eexists|done]).
  unfold copy_value_is_divergent. rewrite (extends_info _ _ _ _ Hx Hd). cbn. unfold set_reg_divergent. cbn.
  replace (length (regs c)) with (length (regs c) + 0)%nat at 1 by lia. by rewrite alter_app_r.
Qed.

(** A move of [vb] to a temporary keeps the invariant. *)
Lemma inv_temp F ms r vb d nd vals : let reg := length (regs (code r)) in inv 0 F [] ms r -> value_info (code r) vb = Some d -> same_type d nd ->
  store (values r) (num_vals r) (CopyValue true reg) = Some vals ->
  inv 1 F [] (ms ++ [(reg, vb)]) (Resolve vals (loc r) (pred r) (to_do r) (to_do_idx r) (ready r) (ready_idx r) (num_vals r + 1)
    (CopyCode (regs (code r) ++ [nd]) (defs (code r)) (moves (code r) ++ [(reg, vb)]))).
Proof using HP Hinfo.
  intros reg Hi Hdc Hty Hvals. set (c2 := CopyCode _ _ _). pose proof (iv_num _ _ _ _ _ Hi) as Hmn.
  assert (Hload : forall i, load vals i = if decide (i = num_vals r) then Some (CopyValue true reg) else load (values r) i) by (intros i; by rewrite (load_store _ _ _ _ _ Hvals)).
  assert (Hfresh : forall v dv, value_info (code r) v = Some dv -> v <> CopyValue true (length (regs (code r)))).
  { intros v dv Hv ->. unfold value_info in Hv. cbn in Hv. apply lookup_lt_Some in Hv. lia. }
  assert (Hx2 : extends_code (code r) c2) by (split; [by exists [nd]|done]).
  destruct (iv_code _ _ _ _ _ Hi) as [[[ex Hex] Hdf] Hms].
  split; cbn [values loc pred to_do to_do_idx ready ready_idx num_vals code c2 moves regs defs]; rewrite ?exec_snoc.
  - rewrite (store_length _ _ _ _ Hvals). apply (iv_lengths _ _ _ _ _ Hi).
  - split; [split; [exists (ex ++ [nd]); cbn; by rewrite Hex, app_assoc|done]|]. by rewrite Hms, app_assoc.
  - lia.
  - intros i Hii. rewrite Hload, decide_False by lia. by apply (iv_values _ _ _ _ _ Hi).
  - intros t Ht. rewrite Hload. destruct (decide (t = num_vals r)) as [->|].
    + exists (length (regs (code r))). split; [done|]. rewrite Hex, !length_app. cbn. lia.
    + destruct (iv_temps _ _ _ _ _ Hi t ltac:(lia)) as (rg & ? & ?). exists rg. split; [done|]. rewrite length_app. lia.
  - apply (iv_filled _ _ _ _ _ Hi).
  - apply (iv_pred _ _ _ _ _ Hi).
  - intros i Hii HSi. destruct (iv_loc _ _ _ _ _ Hi i Hii HSi) as (l & v & Hl & Hv & Hw & Hh). exists l, v. split; [done|].
    split; [rewrite Hload, decide_False; [done|]; intros E; destruct Hw as [Hw|[Hf%(iv_filled _ _ _ _ _ Hi)|Hw]]; [lia|destruct (HP _ Hf); lia|lia]|].
    split; [destruct Hw as [?|[?|?]]; [by left|by right; left|right; right; lia]|].
    apply (holds_move (code r)); [done|done|]. destruct Hh as [_ (? & ? & dv & _ & _ & Hdv & _)]. by eapply Hfresh.
  - apply (iv_not_src _ _ _ _ _ Hi).
  - intros i v Hv. destruct (at_values _ _ _ _ _ i Hi (at_index_lt _ _ _ Hv)) as (v' & dv & Hv' & _ & _ & Hdv). assert (v' = v) as -> by congruence.
    rewrite eval_move by (by eapply Hfresh). by apply (iv_env _ _ _ _ _ Hi).
  - apply (iv_stack _ _ _ _ _ Hi).
  - constructor.
  - by intros x ?%not_elem_of_nil.
  - intros st' x y E. by destruct st'.
  - apply (iv_stack_complete _ _ _ _ _ Hi).
  - pose proof (iv_bound _ _ _ _ _ Hi). lia.
  - intros rg Hrg Hno. unfold exec_move. cbn [fst]. rewrite decide_False by (unfold reg; rewrite Hex, length_app; lia). by apply (iv_frame _ _ _ _ _ Hi).
  - intros rg v [Hin|[= -> ->]%list_elem_of_singleton]%elem_of_app.
    + destruct (iv_typed _ _ _ _ _ Hi rg v Hin) as (d1 & d2 & H1 & H2 & H3). exists d1, d2. split; [by apply lookup_app_l_Some|]. split; [by eapply extends_info|done].
    + exists nd, d. split; [by apply list_lookup_middle|]. split; [by eapply extends_info|done].
Qed.

Lemma break_cycle_ok F ms r b : inv 0 F [] ms r -> P b <> -1 -> b ∉ F ->
  exists r' ms', break_cycle consider n b r = Some r' /\ inv 0 F [b] ms' r' /\ to_do r' = to_do r /\ to_do_idx r' = to_do_idx r.
Proof using HP HS Hreg Hinfo Hcopy Hnodup.
  intros Hi HPb HbF. destruct (HP b HPb) as (Hb & _). destruct (at_values _ _ _ _ _ b Hi Hb) as (vb & d & Hvb & Hlvb & Hd & Hdc).
  assert (Hlb : load (loc r) b = Some b).
  { destruct (decide (load (loc r) b = Some b)) as [|Hne]; [done|]. pose proof (iv_stack_complete _ _ _ _ _ Hi b HPb HbF Hne) as Hin. by apply not_elem_of_nil in Hin. }
  assert (HSb : Src b).
  { destruct (decide (Src b)) as [|Hno]; [done|]. rewrite (iv_not_src _ _ _ _ _ Hi b Hb Hno) in Hlb. injection Hlb. lia. }
  assert (Hnum : num_vals r < 2 * n).
  { pose proof (iv_bound _ _ _ _ _ Hi) as Hbd. assert (Hin : b ∈ filter (fun i => load (loc r) i = Some i /\ P i <> -1 /\ i ∉ F) (seqZ 0 m)).
    { apply list_elem_of_filter. split; [done|]. apply elem_of_seqZ. lia. }
    destruct (filter _ _); [by apply not_elem_of_nil in Hin|]. cbn [length] in Hbd. lia. }
  pose proof (iv_lengths _ _ _ _ _ Hi) as (HL1 & HL2 & HL3 & HL4). pose proof (iv_num _ _ _ _ _ Hi) as Hmn.
  unfold break_cycle. passert ltac:(lia). rewrite Hlvb. cbn [mbind option_bind]. rewrite (declare_temp_ok _ _ _ Hdc). cbn [mbind option_bind].
  set (nd := Decl (num_components d) (bit_size d) (if consider then divergent d else true)). set (reg := CopyValue true (length (regs (code r)))).
  set (c1 := CopyCode (regs (code r) ++ [nd]) (defs (code r)) (moves (code r))).
  destruct (cell_store_ok (values r) (num_vals r) reg) as [vals Hvals]; [lia|]. rewrite Hvals. cbn [mbind option_bind].
  assert (Hext : extends_code (code r) c1) by (split; [by exists [nd]|done]).
  assert (Hreginfo : value_info c1 reg = Some nd) by (unfold value_info; cbn; by apply list_lookup_middle).
  rewrite (copy_values_ok c1 reg vb d nd eq_refl (extends_info _ _ _ _ Hext Hdc) Hreginfo) by (intros ->; done). cbn [mbind option_bind regs defs moves c1 cv_ssa reg].
  set (c2 := CopyCode _ _ _). set (r1 := Resolve vals (loc r) (pred r) (to_do r) (to_do_idx r) (ready r) (ready_idx r) (num_vals r + 1) c2).
  assert (Hload : forall i, load vals i = if decide (i = num_vals r) then Some reg else load (values r) i) by (intros i; by rewrite (load_store _ _ _ _ _ Hvals)).
  pose proof (inv_temp F ms r vb d nd vals Hi Hdc ltac:(done) Hvals) as Hi1. fold reg in Hi1.
  destruct (inv_relocate 1 0 F [] _ r1 b (num_vals r) reg Hi1 HSb HPb HbF) as (lc & r' & Elc & Er' & Hir & Et & Eti & _).
  - by intros x ?%not_elem_of_nil.
  - right. cbn. lia.
  - cbn. by rewrite Hload, decide_True.
  - split.
    + rewrite exec_snoc. unfold reg. rewrite eval_moved, (iv_env _ _ _ _ _ Hi b vb Hvb). by rewrite decide_False.
    + exists vb, d, nd. split; [done|]. split; [done|]. split; [exact Hreginfo|]. split; [done|]. by intros ->.
  - right. split; [lia|done].
  - cbn. lia.
  - cbn [loc r1] in Elc. rewrite Elc. cbn [mbind option_bind]. exists r', (ms ++ [(length (regs (code r)), vb)]). split; [exact Er'|]. split; [exact Hir|done].
Qed.

Lemma unfilled_length F st ms r : inv 0 F st ms r -> (length (unfilled F) < S (length (ready r)))%nat.
Proof.
  intros Hi. pose proof (iv_lengths _ _ _ _ _ Hi) as (_ & _ & _ & HL4). pose proof (iv_num _ _ _ _ _ Hi). pose proof (iv_bound _ _ _ _ _ Hi).
  assert (length (unfilled F) <= length (seqZ 0 m))%nat by (unfold unfilled; apply length_filter). rewrite length_seqZ in *. lia.
Qed.

Lemma resolve_loop_ok fuel : forall F st ms r, inv 0 F st ms r -> (forall b, P b <> -1 -> b ∉ F -> b ∈ st \/ exists j, 0 <= j <= to_do_idx r /\ load (to_do r) j = Some b) ->
  (forall j, 0 <= j <= to_do_idx r -> exists b, load (to_do r) j = Some b /\ P b <> -1) -> -1 <= to_do_idx r -> to_do_idx r + 1 < Z.of_nat fuel ->
  exists r' F' ms', resolve_loop consider fuel n r = Some r' /\ inv 0 F' [] ms' r' /\ forall b, P b <> -1 -> b ∈ F'.
Proof using HP HS Hreg Hinfo Hcopy Hnodup.
  induction fuel as [|fuel IH]; intros F st ms r Hi Hpend Htd Hidx Hf; [lia|]. cbn [resolve_loop].
  destruct (fill_loop_ok (S (length (ready r))) F st ms r Hi (unfilled_length _ _ _ _ Hi)) as (r1 & F1 & ms1 & -> & Hi1 & Et & Eti & HF & Hs). cbn [mbind option_bind].
  assert (Hpend1 : forall b, P b <> -1 -> b ∉ F1 -> exists j, 0 <= j <= to_do_idx r /\ load (to_do r) j = Some b).
  { intros b HPb HbF. destruct (Hpend b HPb) as [Hin|?]; [by intros ?%HF|by apply Hs in Hin|done]. }
  rewrite Eti, Et. destruct (Z.ltb_spec (to_do_idx r) 0) as [Hlt|Hge].
  { exists r1, F1, ms1. split; [done|]. split; [done|]. intros b HPb. destruct (decide (b ∈ F1)) as [|HbF]; [done|]. destruct (Hpend1 b HPb HbF) as (j & Hj & _). lia. }
  destruct (Htd (to_do_idx r) ltac:(lia)) as (b & Hb & HPb). rewrite Hb. cbn [mbind option_bind pred].
  destruct (HP b HPb) as (Hbr & _). rewrite (iv_pred _ _ _ _ _ Hi1) by done. cbn [mbind option_bind].
  set (r2 := Resolve _ _ _ _ _ _ _ _ _).
  assert (Hi2 : inv 0 F1 [] ms1 r2) by (destruct Hi1; by split).
  destruct (decide (b ∈ F1)) as [HbF|HbF].
  - apply (IH F1 [] ms1 r2 Hi2).
    + intros x HPx HxF. right. destruct (Hpend1 x HPx HxF) as (j & Hj & Hl). exists j. split; [|done]. cbn. assert (j <> to_do_idx r) by (intros ->; congruence). lia.
    + intros j Hj. apply Htd. cbn in Hj. lia.
    + cbn. lia.
    + cbn. lia.
  - destruct (Z.eqb_spec (P b) (-1)); [done|].
    destruct (break_cycle_ok F1 ms1 r2 b Hi2 HPb HbF) as (r3 & ms3 & -> & Hi3 & Et3 & Eti3). cbn [mbind option_bind].
    apply (IH F1 [b] ms3 r3 Hi3).
    + intros x HPx HxF. destruct (Hpend1 x HPx HxF) as (j & Hj & Hl). destruct (decide (j = to_do_idx r)) as [->|]; [left; assert (x = b) as -> by congruence; left|].
      right. exists j. rewrite Et3, Eti3. split; [cbn; lia|done].
    + intros j Hj. rewrite Et3. apply Htd. rewrite Eti3 in Hj. cbn in Hj. lia.
    + rewrite Eti3. cbn. lia.
    + rewrite Eti3. cbn. lia.
Qed.
End invariant.

(** ** From the set-up to the invariant *)

Lemma filter_union {A} (Q R : A -> Prop) `{HQ : forall x, Decision (Q x)} `{HR : forall x, Decision (R x)} (l : list A) : (forall x, x ∈ l -> Q x \/ R x) ->
  (length l + length (filter (fun x => Q x /\ R x) l) = length (filter Q l) + length (filter R l))%nat.
Proof.
  induction l as [|x l IH]; intros Hl; [done|]. specialize (IH (fun y Hy => Hl y (list_elem_of_further _ _ _ Hy))).
  rewrite !filter_cons. destruct (decide (Q x)) as [q|q], (decide (R x)) as [r|r].
  - rewrite decide_True by done. cbn. lia.
  - rewrite decide_False by tauto. cbn. lia.
  - rewrite decide_False by tauto. cbn. lia.
  - exfalso. destruct (Hl x); [left|done..].
Qed.

Lemma filter_indices {A} (Q : Z -> Prop) (R : A -> Prop) `{HQ : forall x, Decision (Q x)} `{HR : forall x, Decision (R x)} (l : list A) :
  (forall i v, at_index l i = Some v -> Q i -> R v) -> (length (filter Q (seqZ 0 (Z.of_nat (length l)))) <= length (filter R l))%nat.
Proof.
  induction l as [|v l IH] using rev_ind; intros Hl; [done|]. rewrite length_app. cbn [length].
  rewrite Nat.add_1_r, seqZ_S. rewrite !filter_app, !length_app.
  assert (IH' : (length (filter Q (seqZ 0 (Z.of_nat (length l)))) <= length (filter R l))%nat).
  { apply IH. intros i w Hi. apply Hl. rewrite at_index_app. pose proof (at_index_lt _ _ _ Hi). by rewrite decide_False by lia. }
  rewrite !filter_cons, !filter_nil. destruct (decide (Q _)) as [q|q]; [|destruct (decide (R v)); cbn; lia].
  rewrite decide_True; [cbn; lia|]. apply (Hl (0 + Z.of_nat (length l))); [|done]. by rewrite at_index_app, decide_True.
Qed.

Lemma filter_member {A} `{EqDecision A} (l k : list A) : NoDup l -> (length (filter (fun x => x ∈ k) l) <= length k)%nat.
Proof. intros Hnd. apply submseteq_length, NoDup_submseteq; [by apply NoDup_filter|]. by intros x [? _]%list_elem_of_filter. Qed.

Section start.
Context (consider : bool) {V : Type} (sv : nat -> V) (env0 : nat -> V) (c0 : copy_code) (n : Z) (cs : list pcopy).
Context (Hn : n = Z.of_nat (length cs)) (Hdst : NoDup (map dst cs)).
Context (Hcs : forall c, c ∈ cs -> is_reg (dst c) = true /\ exists d d', value_info c0 (src c) = Some d /\ value_info c0 (dst c) = Some d' /\
  same_type d d' /\ (consider = true -> divergent d = true -> divergent d' = true)).
Context (vs : list copy_value) (r : resolve) (Hr : setup_ok n c0 cs vs r).
Notation m := (Z.of_nat (length vs)).

Definition P0 (i : Z) : Z := if decide (0 <= i < m) then default (-1) (load (pred r) i) else -1.
Definition S0 (i : Z) : Prop := load (loc r) i = Some i.

Lemma vs_cap : m <= 2 * n.
Proof using Hn Hr. pose proof (su_cap _ _ _ _ _ Hr). lia. Qed.

Lemma P0_dst b : P0 b <> -1 -> exists c, c ∈ cs /\ at_index vs b = Some (dst c) /\ at_index vs (P0 b) = Some (src c).
Proof using Hn Hr.
  unfold P0. destruct (decide (0 <= b < m)) as [Hb|]; [|done]. pose proof vs_cap. intros Hp.
  destruct (decide (Exists (fun c => at_index vs b = Some (dst c)) cs)) as [(c & Hc & Hbc)%Exists_exists|Hno].
  - exists c. destruct (su_dst _ _ _ _ _ Hr b c Hc Hbc) as (p & -> & Hps). done.
  - rewrite (su_not_dst _ _ _ _ _ Hr) in Hp; [done|lia|]. intros c Hc Hbc. apply Hno, Exists_exists. eauto.
Qed.

Lemma dst_P0 b c : c ∈ cs -> at_index vs b = Some (dst c) -> P0 b <> -1.
Proof using Hr.
  intros Hc Hb. pose proof (at_index_lt _ _ _ Hb). unfold P0. rewrite decide_True by done.
  destruct (su_dst _ _ _ _ _ Hr b c Hc Hb) as (p & -> & Hps). cbn. apply at_index_lt in Hps. lia.
Qed.

Lemma P0_range b : P0 b <> -1 -> 0 <= b < m /\ 0 <= P0 b < m /\ S0 (P0 b).
Proof using Hn Hr.
  intros Hb. destruct (P0_dst b Hb) as (c & Hc & Hbc & Hsc). split; [by eapply at_index_lt|]. split; [by eapply at_index_lt|]. by apply (su_src _ _ _ _ _ Hr _ c).
Qed.

Lemma S0_src i : 0 <= i < m -> S0 i \/ load (loc r) i = Some (-1) /\ P0 i <> -1.
Proof using Hn Hr.
  intros Hi. pose proof vs_cap. destruct (decide (Exists (fun c => at_index vs i = Some (src c)) cs)) as [(c & Hc & Hic)%Exists_exists|Hno].
  - left. by apply (su_src _ _ _ _ _ Hr i c).
  - right. split; [apply (su_not_src _ _ _ _ _ Hr); [lia|]; intros c Hc Hic; apply Hno, Exists_exists; eauto|].
    destruct (at_index_is_Some vs i Hi) as [v Hv]. destruct (proj1 (su_elem _ _ _ _ _ Hr v)) as (c & Hc & [->| ->]); [apply at_index_elem; eauto| |by apply (dst_P0 i c)].
    exfalso. apply Hno, Exists_exists. eauto.
Qed.

Lemma vs_info v : v ∈ vs -> exists d, value_info c0 v = Some d.
Proof using Hcs Hr. intros (c & Hc & [->| ->])%(su_elem _ _ _ _ _ Hr); destruct (Hcs c Hc) as (_ & d & d' & ? & ? & _); eauto. Qed.

Lemma start_bound : m + Z.of_nat (length (filter (fun i => load (loc r) i = Some i /\ P0 i <> -1 /\ i ∉ (∅ : gset Z)) (seqZ 0 m))) <= 2 * n.
Proof using Hn Hr.
  assert (H1 : (length (filter (fun i => load (loc r) i = Some i /\ P0 i <> (-1)%Z /\ i ∉ (∅ : gset Z)) (seqZ 0 m)) <=
    length (filter (fun v => v ∈ map src cs /\ v ∈ map dst cs) vs))%nat).
  { apply filter_indices. intros i v Hv (Hl & Hp & _). pose proof (at_index_lt _ _ _ Hv). pose proof vs_cap. split.
    - destruct (decide (Exists (fun c => at_index vs i = Some (src c)) cs)) as [(c & Hc & Hic)%Exists_exists|Hno].
      + apply list_elem_of_fmap. exists c. split; [congruence|done].
      + rewrite (su_not_src _ _ _ _ _ Hr) in Hl; [injection Hl; lia|lia|]. intros c Hc Hic. apply Hno, Exists_exists. eauto.
    - destruct (P0_dst i Hp) as (c & Hc & Hbc & _). apply list_elem_of_fmap. exists c. split; [congruence|done]. }
  pose proof (vo_nodup _ _ _ (su_vals _ _ _ _ _ Hr)) as Hnd.
  assert (H2 : (length vs + length (filter (fun v => v ∈ map src cs /\ v ∈ map dst cs) vs) =
    length (filter (fun v => v ∈ map src cs) vs) + length (filter (fun v => v ∈ map dst cs) vs))%nat).
  { apply filter_union. intros v (c & Hc & [->| ->])%(su_elem _ _ _ _ _ Hr); [left|right]; apply list_elem_of_fmap; eauto. }
  pose proof (filter_member vs (map src cs) Hnd) as H3. pose proof (filter_member vs (map dst cs) Hnd) as H4. rewrite !length_map in *. lia.
Qed.

Definition with_ready (rd : list (option Z)) (st : list Z) : resolve :=
  Resolve (values r) (loc r) (pred r) (to_do r) (to_do_idx r) rd (Z.of_nat (length st) - 1) (num_vals r) (code r).

Definition starts (i : Z) : Prop := P0 i <> -1 /\ load (loc r) i = Some (-1).

Lemma init_ready_ok : exists rd st, init_ready r = Some (with_ready rd st) /\ st = filter starts (seqZ 0 m) /\ Z.of_nat (length rd) = 2 * n /\
  forall j, 0 <= j < Z.of_nat (length st) -> load rd j = at_index st j.
Proof using Hn Hr.
  pose proof (su_vals _ _ _ _ _ Hr) as Hv. pose proof (vo_lengths _ _ _ Hv) as (_ & _ & _ & _ & HL). pose proof vs_cap as Hcap.
  unfold init_ready. rewrite (vo_num _ _ _ Hv).
  destruct (for_each_seqZ_rule (fun k s => exists rd st, s = with_ready rd st /\ st = filter starts (seqZ 0 k) /\ Z.of_nat (length rd) = 2 * n /\
      forall j, 0 <= j < Z.of_nat (length st) -> load rd j = at_index st j)
    (fun i r => p ← load (pred r) i; l ← load (loc r) i; if negb (p =? -1) && (l =? -1) then push_ready r i else Some r) 0 m r) as (s & -> & Hs).
  - lia.
  - exists (ready r), []. split; [|split; [done|split; [done|cbn; lia]]]. destruct (su_rest _ _ _ _ _ Hr) as [Hi Hc]. unfold with_ready. cbn. destruct r. cbn in *. by subst.
  - intros k s Hk (rd & st & -> & Est & Hrd & Hst). cbn [with_ready pred loc].
    assert (Hpk : load (pred r) k = Some (P0 k)).
    { unfold P0. rewrite decide_True by lia. destruct (decide (Exists (fun c => at_index vs k = Some (dst c)) cs)) as [(c & Hc & Hbc)%Exists_exists|Hno].
      - by destruct (su_dst _ _ _ _ _ Hr k c Hc Hbc) as (p & -> & _).
      - rewrite (su_not_dst _ _ _ _ _ Hr); [done|lia|]. intros c Hc Hbc. apply Hno, Exists_exists. eauto. }
    assert (Hlk : exists l, load (loc r) k = Some l /\ (l = -1 <-> load (loc r) k = Some (-1))).
    { destruct (S0_src k ltac:(lia)) as [Hl|[Hl _]]; unfold S0 in *; rewrite Hl; eexists; (split; [done|]); split; congruence. }
    destruct Hlk as (l & Hl & Hl1). rewrite Hpk. cbn [mbind option_bind]. rewrite Hl. cbn [mbind option_bind].
    assert (Eseq : seqZ 0 (k + 1) = seqZ 0 k ++ [k]) by (replace (k + 1) with (Z.of_nat (S (Z.to_nat k))) by lia; rewrite seqZ_S; f_equal; [f_equal; lia|f_equal; lia]).
    destruct (decide (starts k)) as [Hstart|Hstart].
    + destruct Hstart as [Hp1 Hp2]. destruct (Z.eqb_spec (P0 k) (-1)); [done|]. destruct (Z.eqb_spec l (-1)); [|tauto]. cbn [negb andb].
      assert (Hroom : (length st <= Z.to_nat k)%nat) by (rewrite Est; etrans; [apply length_filter|]; by rewrite length_seqZ).
      unfold push_ready. cbn [with_ready ready ready_idx]. destruct (cell_store_ok rd (Z.of_nat (length st) - 1 + 1) k) as [rd' Hrd']; [lia|]. rewrite Hrd'. cbn [mbind option_bind].
      eexists. split; [done|]. exists rd', (st ++ [k]). split; [unfold with_ready; cbn; f_equal; rewrite length_app; cbn; lia|].
      split; [rewrite Eseq, filter_app, Est, filter_cons, filter_nil, decide_True; done|]. split; [by rewrite (store_length _ _ _ _ Hrd')|].
      intros j Hj. rewrite length_app in Hj. cbn in Hj. rewrite (load_store _ _ _ _ _ Hrd'), at_index_app. destruct (decide (j = Z.of_nat (length st) - 1 + 1)).
      * by rewrite decide_True by lia.
      * rewrite decide_False by lia. apply Hst. lia.
    + assert (E : negb (P0 k =? -1) && (l =? -1) = false).
      { destruct (Z.eqb_spec (P0 k) (-1)); [done|]. destruct (Z.eqb_spec l (-1)) as [->|]; [|done]. exfalso. apply Hstart. split; [done|by apply Hl1]. }
      rewrite E. eexists. split; [done|]. exists rd, st. split; [done|]. split; [rewrite Eseq, filter_app, filter_cons, filter_nil, decide_False, app_nil_r; done|done].
  - destruct Hs as (rd & st & -> & Est & ? & ?). exists rd, st. rewrite Z.add_0_l in Est. auto.
Qed.

Lemma start_inv rd st : st = filter starts (seqZ 0 m) -> Z.of_nat (length rd) = 2 * n -> (forall j, 0 <= j < Z.of_nat (length st) -> load rd j = at_index st j) ->
  inv consider sv env0 c0 n vs P0 S0 0 ∅ st [] (with_ready rd st).
Proof using Hn Hcs Hr.
  intros Est Hrd Hst. pose proof (su_vals _ _ _ _ _ Hr) as Hv. pose proof (vo_lengths _ _ _ Hv) as (HL1 & HL2 & HL3 & HL4 & HL). pose proof vs_cap as Hcap.
  destruct (su_rest _ _ _ _ _ Hr) as [_ Hc]. split; cbn [with_ready values loc pred to_do to_do_idx ready ready_idx num_vals code].
  - done.
  - rewrite Hc. split; [|by rewrite app_nil_r]. split; [exists []; by rewrite app_nil_r|done].
  - rewrite (vo_num _ _ _ Hv). lia.
  - apply (vo_values _ _ _ Hv).
  - intros t Ht. rewrite (vo_num _ _ _ Hv) in Ht. lia.
  - intros b Hb. by apply not_elem_of_empty in Hb.
  - intros i Hi. rewrite decide_False by apply not_elem_of_empty. unfold P0. rewrite decide_True by done.
    destruct (decide (Exists (fun c => at_index vs i = Some (dst c)) cs)) as [(c & Hc' & Hbc)%Exists_exists|Hno].
    + by destruct (su_dst _ _ _ _ _ Hr i c Hc' Hbc) as (p & -> & _).
    + rewrite (su_not_dst _ _ _ _ _ Hr); [done|lia|]. intros c Hc' Hbc. apply Hno, Exists_exists. eauto.
  - intros i Hi HSi. destruct (at_index_is_Some vs i Hi) as [v Hvi]. exists i, v. split; [exact HSi|]. split; [by rewrite (vo_values _ _ _ Hv)|]. split; [by left|].
    split; [by rewrite Hvi|]. destruct (vs_info v) as [d Hd]; [apply at_index_elem; eauto|]. exists v, d, d. rewrite Hc. done.
  - intros i Hi HSi. by destruct (S0_src i Hi) as [?|[? _]].
  - intros i v Hiv. rewrite decide_False by apply not_elem_of_empty. by rewrite Hiv.
  - done.
  - rewrite Est. apply NoDup_filter, NoDup_seqZ.
  - intros b Hb. rewrite Est in Hb. apply list_elem_of_filter in Hb as [[Hb1 Hb2] Hb3]. split; [done|]. split; [apply not_elem_of_empty|].
    rewrite Hb2. intros [= E]. apply elem_of_seqZ in Hb3. lia.
  - intros st' b x E Hx HSx. assert (Hin : x ∈ st) by (rewrite E; apply elem_of_app; by left). rewrite Est in Hin.
    apply list_elem_of_filter in Hin as [[_ Hx2] Hx3]. unfold S0 in HSx. rewrite Hx2 in HSx. injection HSx as E'. apply elem_of_seqZ in Hx3. lia.
  - intros b HPb _ Hlb. destruct (P0_range b HPb) as (Hb & _). rewrite Est. apply list_elem_of_filter. split; [|apply elem_of_seqZ; lia].
    destruct (S0_src b Hb) as [?|[? _]]; [done|]. by split.
  - rewrite (vo_num _ _ _ Hv), Z.add_0_r. etrans; [|apply start_bound]. apply Z.add_le_mono_l, inj_le, filter_le. by intros x _ ?.
  - done.
  - intros reg v Hin. by apply not_elem_of_nil in Hin.
Qed.

Lemma start_copy b va vb da db : P0 b <> -1 -> at_index vs (P0 b) = Some va -> at_index vs b = Some vb -> value_info c0 va = Some da -> value_info c0 vb = Some db ->
  same_type da db /\ (consider = true -> divergent da = true -> divergent db = true).
Proof using Hn Hcs Hr.
  intros HPb Hva Hvb Hda Hdb. destruct (P0_dst b HPb) as (c & Hc & Hbc & Hsc). assert (va = src c) as -> by congruence. assert (vb = dst c) as -> by congruence.
  destruct (Hcs c Hc) as (_ & d & d' & H1 & H2 & H3). assert (d = da) as -> by congruence. assert (d' = db) as -> by congruence. done.
Qed.
End start.

Lemma setup_all_ok n c0 copies : forall cs vs r, setup_ok n c0 cs vs r -> NoDup (map dst (cs ++ filter (fun c => is_no_op c = false) copies)) ->
  Z.of_nat (length (cs ++ filter (fun c => is_no_op c = false) copies)) <= n ->
  exists vs' r', for_each setup_copy copies r = Some r' /\ setup_ok n c0 (cs ++ filter (fun c => is_no_op c = false) copies) vs' r'.
Proof.
  induction copies as [|c copies IH]; intros cs vs r Hr Hnd Hn.
  - cbn [for_each]. exists vs, r. rewrite filter_nil, app_nil_r. done.
  - cbn [for_each]. rewrite filter_cons in *. destruct (decide (is_no_op c = false)) as [Hop|Hop].
    + destruct (setup_copy_ok n c0 cs vs r c Hr) as (vs1 & r1 & -> & Hr1); [| |done|].
      * rewrite map_app in Hnd. apply NoDup_app in Hnd as (_ & Hno & _). intros Hin. apply (Hno _ Hin). cbn. left.
      * rewrite !length_app in Hn. cbn in Hn. lia.
      * cbn [mbind option_bind]. replace (cs ++ c :: filter (fun c => is_no_op c = false) copies) with ((cs ++ [c]) ++ filter (fun c => is_no_op c = false) copies) in * by (by rewrite <- app_assoc).
        by apply (IH (cs ++ [c]) vs1 r1).
    + assert (Hsk : setup_copy c r = Some r) by (unfold setup_copy; by destruct (is_no_op c)). rewrite Hsk. cbn [mbind option_bind]. by apply (IH cs vs r).
Qed.

Lemma count_copies_ok copies : forall k, (forall c, c ∈ copies -> is_reg (dst c) = true) ->
  for_each (fun p n => assert! is_reg (dst p) ;; Some (if is_no_op p then n else n + 1)) copies k = Some (k + Z.of_nat (length (filter (fun c => is_no_op c = false) copies))).
Proof.
  induction copies as [|c copies IH]; intros k Hc; cbn [for_each]; [rewrite filter_nil; cbn; f_equal; lia|].
  rewrite Hc by left. cbn [mbind option_bind]. rewrite IH by (intros c' ?; apply Hc; by right). rewrite filter_cons.
  destruct (is_no_op c); [rewrite decide_False by done|rewrite decide_True by done; cbn [length]]; f_equal; lia.
Qed.

(** ** Correctness *)

Definition real_copies (copies : list pcopy) : list pcopy := filter (fun c => is_no_op c = false) copies.

(** What the pass gives [resolve_parallel_copy]: copies to distinct registers, of the type of their sources, that do not make a divergent value convergent. *)
Record copies_ok (consider : bool) (c0 : copy_code) (copies : list pcopy) : Prop := {
  co_nodup : NoDup (map dst copies);
  co_typed : forall c, c ∈ copies -> is_reg (dst c) = true /\ exists d d', value_info c0 (src c) = Some d /\ value_info c0 (dst c) = Some d' /\
    same_type d d' /\ (consider = true -> divergent d = true -> divergent d' = true) }.

Lemma real_copies_nodup copies : NoDup (map dst copies) -> NoDup (map dst (real_copies copies)).
Proof.
  unfold real_copies. induction copies as [|c copies IH]; [done|]. cbn [map]. intros [Hno Hnd]%NoDup_cons. rewrite filter_cons.
  destruct (decide (is_no_op c = false)); [|by apply IH]. cbn [map]. apply NoDup_cons. split; [|by apply IH].
  intros (c' & E & [_ Hin]%list_elem_of_filter)%list_elem_of_fmap. apply Hno, list_elem_of_fmap. eauto.
Qed.

Lemma setup_start c0 k : 0 <= k -> let l {A} (x : option A) := replicate (Z.to_nat (k * 2)) x in
  setup_ok k c0 [] [] (Resolve (l None) (l (Some (-1))) (l (Some (-1))) (l None) (-1) (l None) (-1) 0 c0).
Proof.
  intros Hk l. assert (Hl : forall A (x : option A), Z.of_nat (length (l A x)) = 2 * k) by (intros; unfold l; rewrite length_replicate; lia).
  assert (Hload : forall i, 0 <= i < 2 * k -> load (l Z (Some (-1))) i = Some (-1)).
  { intros i Hi. unfold load, l. destruct (Z.ltb_spec i 0); [lia|]. rewrite lookup_replicate_2 by lia. done. }
  split; cbn [values loc pred to_do to_do_idx ready ready_idx num_vals code].
  - split; cbn; [by rewrite !Hl|done|intros; lia|constructor].
  - done.
  - intros v. split; [by intros ?%not_elem_of_nil|]. by intros (c & ?%not_elem_of_nil & _).
  - by intros i c ?%not_elem_of_nil.
  - auto.
  - by intros i c ?%not_elem_of_nil.
  - auto.
  - done.
  - intros j Hj. lia.
  - by intros c ?%not_elem_of_nil.
  - done.
Qed.

Lemma distinct_dst copies c c' : NoDup (map dst copies) -> c ∈ copies -> c' ∈ copies -> dst c = dst c' -> c = c'.
Proof.
  intros Hnd [i Hi]%list_elem_of_lookup [j Hj]%list_elem_of_lookup E.
  assert (i = j) as ->; [|congruence]. eapply (NoDup_lookup (map dst copies)); [done|rewrite list_lookup_fmap, Hi; done|rewrite list_lookup_fmap, Hj; cbn; by rewrite E].
Qed.

Section correct.
Context (consider : bool) {V : Type} (sv : nat -> V) (env0 : nat -> V) (c0 : copy_code).

(** The moves [ms] do the copies at once. *)
Record parallel (copies : list pcopy) (c' : copy_code) (ms : list (nat * copy_value)) : Prop := {
  pa_code : extends_code c0 c' /\ moves c' = moves c0 ++ ms;
  pa_dst : forall c, c ∈ copies -> exec sv ms env0 (cv_ssa (dst c)) = eval sv env0 (src c);
  pa_frame : forall reg, (reg < length (regs c0))%nat -> CopyValue true reg ∉ map dst copies -> exec sv ms env0 reg = env0 reg;
  pa_typed : forall reg v, (reg, v) ∈ ms -> exists d d', regs c' !! reg = Some d /\ value_info c' v = Some d' /\ same_type d' d }.

(** After the set-up, the loops do the copies that were found. *)
Lemma resolve_ready_ok cs vs r : let n := Z.of_nat (length cs) in setup_ok n c0 cs vs r -> copies_ok consider c0 cs ->
  exists r1 r2 ms, init_ready r = Some r1 /\ resolve_loop consider (S (S (length cs))) n r1 = Some r2 /\ parallel cs (code r2) ms.
Proof.
  intros n Hr [Hnd Hty]. pose proof (vo_nodup _ _ _ (su_vals _ _ _ _ _ Hr)) as Hvs.
  destruct (init_ready_ok c0 n cs eq_refl vs r Hr) as (rd & st & E1 & Est & Hrd & Hst).
  pose proof (start_inv consider sv env0 c0 n cs eq_refl Hty vs r Hr rd st Est Hrd Hst) as Hi.
  assert (HS : forall i, Decision (S0 r i)) by (intros i; unfold S0; apply _).
  destruct (resolve_loop_ok consider sv env0 c0 n vs (P0 vs r) (S0 r)) with (fuel := S (S (length cs))) (F := ∅ : gset Z) (st := st) (ms := [] : list (nat * copy_value)) (r := with_ready r rd st)
    as (r2 & F & ms & E2 & Hi2 & Hall).
  - intros b Hb. by apply (P0_range c0 n cs eq_refl vs r Hr).
  - intros b v Hb Hv. destruct (P0_dst c0 n cs eq_refl vs r Hr b Hb) as (c & Hc & Hbc & _). assert (v = dst c) as -> by congruence. by apply Hty.
  - by apply (vs_info consider c0 n cs Hty vs r Hr).
  - intros b va vb da db. by apply (start_copy consider c0 n cs eq_refl Hty vs r Hr).
  - done.
  - exact Hi.
  - intros b Hb _. right. destruct (P0_dst c0 n cs eq_refl vs r Hr b Hb) as (c & Hc & Hbc & _).
    destruct (su_to_do_complete _ _ _ _ _ Hr c Hc) as (i & j & Hj & Hl & Hic). exists j. split; [done|]. by rewrite (at_index_inj vs b i (dst c) Hvs Hbc Hic).
  - intros j Hj. destruct (su_to_do_sound _ _ _ _ _ Hr j Hj) as (i & c & Hl & Hc & Hic). exists i. split; [done|]. by apply (dst_P0 c0 n cs vs r Hr i c).
  - cbn. pose proof (su_to_do _ _ _ _ _ Hr). lia.
  - cbn. pose proof (su_to_do _ _ _ _ _ Hr). lia.
  - exists (with_ready r rd st), r2, ms. split; [done|]. split; [done|]. split.
    + apply (iv_code _ _ _ _ _ _ _ _ _ _ _ _ _ Hi2).
    + intros c Hc. assert (Hin : dst c ∈ vs) by (apply (su_elem _ _ _ _ _ Hr); eauto). apply at_index_elem in Hin as [i Hic].
      pose proof (dst_P0 c0 n cs vs r Hr i c Hc Hic) as HPi. pose proof (iv_env _ _ _ _ _ _ _ _ _ _ _ _ _ Hi2 i (dst c) Hic) as He. rewrite decide_True in He by auto.
      destruct (P0_dst c0 n cs eq_refl vs r Hr i HPi) as (c' & Hc' & Hic' & Hs). rewrite (distinct_dst cs c c' Hnd Hc Hc' ltac:(congruence)) in *. rewrite Hs in He. injection He as He.
      rewrite <- He. unfold eval. by rewrite (proj1 (Hty c' Hc')).
    + intros reg Hreg Hno. apply (iv_frame _ _ _ _ _ _ _ _ _ _ _ _ _ Hi2); [done|]. intros b Hb Hbr. apply Hno.
      destruct (P0_dst c0 n cs eq_refl vs r Hr b Hb) as (c & Hc & Hbc & _). apply list_elem_of_fmap. exists c. split; [congruence|done].
    + apply (iv_typed _ _ _ _ _ _ _ _ _ _ _ _ _ Hi2).
Qed.

Lemma parallel_real copies c' ms : copies_ok consider c0 copies -> parallel (real_copies copies) c' ms -> parallel copies c' ms.
Proof.
  intros [Hnd Hty] [H1 H2 H3 H4]. split; [done| | |done].
  - intros c Hc. destruct (is_no_op c) eqn:Hop; [|by apply H2, list_elem_of_filter].
    pose proof Hop as [Hsr Hse%bool_decide_eq_true]%andb_true_iff. destruct (Hty c Hc) as (Hr & d & d' & _ & Hd' & _).
    unfold eval. rewrite Hsr, Hse. apply H3; [unfold value_info in Hd'; rewrite Hr in Hd'; by apply lookup_lt_Some in Hd'|].
    intros (c2 & E & [Hop2 Hc2]%list_elem_of_filter)%list_elem_of_fmap.
    rewrite (distinct_dst copies c c2 Hnd Hc Hc2) in Hop; [congruence|]. rewrite <- E. destruct (dst c). cbn in *. by subst.
  - intros reg Hreg Hno. apply H3; [done|]. intros (c & E & [_ Hc]%list_elem_of_filter)%list_elem_of_fmap. apply Hno, list_elem_of_fmap. eauto.
Qed.

Lemma real_copies_ok copies : copies_ok consider c0 copies -> copies_ok consider c0 (real_copies copies).
Proof. intros [Hnd Hty]. split; [by apply real_copies_nodup|]. intros c [_ Hc]%list_elem_of_filter. auto. Qed.
End correct.

(** C6: resolve_parallel_copy never fails one of its assertions or reads outside of its arrays, and the moves it emits do the copies at once: every destination gets the value its source
    had before them, every other register the function had keeps its value, the SSA values and old registers keep their declarations, and every move is between values of one type.
    Chains, fan-outs, cycles (by a temporary) and convergent sources of divergent destinations are all allowed. *)
Theorem resolve_parallel_copy_correct consider {V} (sv env0 : nat -> V) copies c0 : copies_ok consider c0 copies ->
  exists c' ms, resolve_parallel_copy consider copies c0 = Some c' /\ parallel sv env0 c0 copies c' ms.
Proof.
  intros Hok. pose proof (real_copies_ok consider c0 copies Hok) as Hok'. set (cs := real_copies copies) in *. set (n := Z.of_nat (length cs)).
  unfold resolve_parallel_copy. rewrite count_copies_ok by (intros c Hc; by apply (co_typed _ _ _ Hok)). cbn [mbind option_bind]. rewrite Z.add_0_l. fold (real_copies copies). fold cs. fold n.
  destruct (setup_all_ok n c0 copies [] [] _ (setup_start c0 n ltac:(lia))) as (vs & r & Es & Hr); [apply (co_nodup _ _ _ Hok')|done|]. rewrite app_nil_l in Hr. fold (real_copies copies) in Hr. fold cs in Hr.
  destruct (resolve_ready_ok consider sv env0 c0 cs vs r Hr Hok') as (r1 & r2 & ms & E1 & E2 & Hp). destruct (Z.eqb_spec n 0) as [Hz|Hz].
  - exists c0, []. split; [done|]. assert (Hcs : cs = []) by (apply nil_length_inv; lia). apply (parallel_real consider); [done|]. fold cs. rewrite Hcs.
    split; [|by intros c ?%not_elem_of_nil|done|by intros reg v ?%not_elem_of_nil]. split; [|by rewrite app_nil_r]. split; [exists []; by rewrite app_nil_r|done].
  - rewrite Es. cbn [mbind option_bind]. rewrite E1. cbn [mbind option_bind]. replace (Z.to_nat n) with (length cs) by lia. fold n in E2. rewrite E2. cbn [mbind option_bind].
    exists (code r2), ms. split; [done|]. by apply (parallel_real consider).
Qed.

(** A rotation of three registers and a fourth that also gets one of them *)
Definition example_code : copy_code := CopyCode (replicate 5 (Decl 4 32 true)) [Decl 4 32 false] [].
Definition example_copy (s d : nat) : pcopy := PCopy (CopyValue true s) (CopyValue true d).
Definition example_copies : list pcopy := [example_copy 0 1; example_copy 1 2; example_copy 2 0; example_copy 1 3; PCopy (CopyValue false 0) (CopyValue true 4)].

Example resolve_example : moves <$> resolve_parallel_copy true [example_copy 0 1; example_copy 1 0] example_code =
  Some [(5%nat, CopyValue true 0); (0%nat, CopyValue true 1); (1%nat, CopyValue true 5)].
Proof. vm_compute. reflexivity. Qed.

Lemma resolve_parallel_copy_correct_witness : copies_ok true example_code example_copies /\
  exists c' ms, resolve_parallel_copy true example_copies example_code = Some c' /\ parallel (fun x => x) (fun x => 10 + x)%nat example_code example_copies c' ms.
Proof.
  assert (Hok : copies_ok true example_code example_copies).
  { split; [apply (bool_decide_unpack _); vm_compute; exact I|]. unfold example_copies. intros c Hc.
    repeat (apply elem_of_cons in Hc as [->|Hc]; [split; [done|]; eexists _, _; done|]). by apply not_elem_of_nil in Hc. }
  split; [exact Hok|]. apply resolve_parallel_copy_correct. exact Hok.
Defined.
