(* ===== verification/Worklist.v ===== *)
(** * Work lists (src/util/u_worklist.c)

    A work list is a ring of pointers to indices, with a bitset of the indices that are in
    it.  A pointer is a number; [idx] is the memory of the indices, which does not change while
    their pointers are in the list.  The contract is a double-ended queue without
    repetition. *)

From Stdlib Require Import ZArith Lia.
From stdpp Require Import base list gmap numbers option.
From S2P Require Import Prelude FastDiv Rmq.
Local Open Scope Z_scope.

(** ** Bitsets (util/bitset.h), as lists of words *)

Definition BITSET_BIT (b : Z) : Z := u32 (Z.shiftl 1 (b mod 32)).
Definition BITSET_BITWORD (b : Z) : nat := Z.to_nat (b / 32).

Definition BITSET_TEST (x : list Z) (b : Z) : option bool :=
  w ← x !! BITSET_BITWORD b; Some (negb (Z.land w (BITSET_BIT b) =? 0)).
Definition BITSET_SET (x : list Z) (b : Z) : option (list Z) :=
  w ← x !! BITSET_BITWORD b; Some (<[BITSET_BITWORD b := Z.lor w (BITSET_BIT b)]> x).
Definition BITSET_CLEAR (x : list Z) (b : Z) : option (list Z) :=
  w ← x !! BITSET_BITWORD b; Some (<[BITSET_BITWORD b := Z.land w (not32 (BITSET_BIT b))]> x).

(** ** The work list *)

Record u_worklist := UWorklist { wl_size : Z; wl_count : Z; wl_start : Z; wl_present : list Z; wl_entries : list (option nat) }.

Definition u_worklist_init (num_entries : Z) : u_worklist :=
  UWorklist num_entries 0 0 (replicate (Z.to_nat (BITSET_WORDS num_entries)) 0) (replicate (Z.to_nat num_entries) None).

Definition u_worklist_is_empty (w : u_worklist) : bool := wl_count w =? 0.

Section indices.
Context (idx : nat -> Z).

Definition u_worklist_push_head_index (w : u_worklist) (index : nat) : option u_worklist :=
  b ← BITSET_TEST (wl_present w) (idx index);
  if b : bool then Some w else
  assert! wl_count w <? wl_size w ;;
  let start := if wl_start w =? 0 then u32 (wl_size w - 1) else u32 (wl_start w - 1) in
  entries ← store (wl_entries w) start index;
  present ← BITSET_SET (wl_present w) (idx index);
  Some (UWorklist (wl_size w) (u32 (wl_count w + 1)) start present entries).

Definition u_worklist_peek_head_index (w : u_worklist) : option nat :=
  assert! 0 <? wl_count w ;; load (wl_entries w) (wl_start w).

Definition u_worklist_pop_head_index (w : u_worklist) : option (u_worklist * nat) :=
  assert! 0 <? wl_count w ;;
  let head := wl_start w in
  index ← load (wl_entries w) head;
  present ← BITSET_CLEAR (wl_present w) (idx index);
  Some (UWorklist (wl_size w) (u32 (wl_count w - 1)) (u32 (wl_start w + 1) mod wl_size w) present (wl_entries w), index).

Definition u_worklist_push_tail_index (w : u_worklist) (index : nat) : option u_worklist :=
  b ← BITSET_TEST (wl_present w) (idx index);
  if b : bool then Some w else
  assert! wl_count w <? wl_size w ;;
  let count := u32 (wl_count w + 1) in
  let tail := u32 (u32 (wl_start w + count) - 1) mod wl_size w in
  entries ← store (wl_entries w) tail index;
  present ← BITSET_SET (wl_present w) (idx index);
  Some (UWorklist (wl_size w) count (wl_start w) present entries).

Definition u_worklist_peek_tail_index (w : u_worklist) : option nat :=
  assert! 0 <? wl_count w ;;
  let tail := u32 (u32 (wl_start w + wl_count w) - 1) mod wl_size w in
  load (wl_entries w) tail.

Definition u_worklist_pop_tail_index (w : u_worklist) : option (u_worklist * nat) :=
  assert! 0 <? wl_count w ;;
  let tail := u32 (u32 (wl_start w + wl_count w) - 1) mod wl_size w in
  index ← load (wl_entries w) tail;
  present ← BITSET_CLEAR (wl_present w) (idx index);
  Some (UWorklist (wl_size w) (u32 (wl_count w - 1)) (wl_start w) present (wl_entries w), index).

(** ** The contract *)

Inductive wl_op := PushHead (p : nat) | PushTail (p : nat) | PeekHead | PeekTail | PopHead | PopTail | IsEmpty.
Inductive wl_result := Done | Entry (p : nat) | Bool (b : bool).

Definition wl_step (op : wl_op) (w : u_worklist) : option (u_worklist * wl_result) :=
  match op with
  | PushHead p => w ← u_worklist_push_head_index w p; Some (w, Done)
  | PushTail p => w ← u_worklist_push_tail_index w p; Some (w, Done)
  | PeekHead => p ← u_worklist_peek_head_index w; Some (w, Entry p)
  | PeekTail => p ← u_worklist_peek_tail_index w; Some (w, Entry p)
  | PopHead => '(w, p) ← u_worklist_pop_head_index w; Some (w, Entry p)
  | PopTail => '(w, p) ← u_worklist_pop_tail_index w; Some (w, Entry p)
  | IsEmpty => Some (w, Bool (u_worklist_is_empty w))
  end.

Definition deque_step (op : wl_op) (q : list nat) : option (list nat * wl_result) :=
  match op with
  | PushHead p => Some (if decide (idx p ∈ map idx q) then q else p :: q, Done)
  | PushTail p => Some (if decide (idx p ∈ map idx q) then q else q ++ [p], Done)
  | PeekHead => match q with [] => None | p :: _ => Some (q, Entry p) end
  | PeekTail => match q !! pred (length q) with None => None | Some p => Some (q, Entry p) end
  | PopHead => match q with [] => None | p :: q => Some (q, Entry p) end
  | PopTail => match q !! pred (length q) with None => None | Some p => Some (take (pred (length q)) q, Entry p) end
  | IsEmpty => Some (q, Bool (bool_decide (q = [])))
  end.

Fixpoint run_list {S : Type} (step : wl_op -> S -> option (S * wl_result)) (ops : list wl_op) (s : S) : option (S * list wl_result) :=
  match ops with
  | [] => Some (s, [])
  | op :: ops => '(s, r) ← step op s; '(s, rs) ← run_list step ops s; Some (s, r :: rs)
  end.
End indices.

(** ** Bits *)

Definition bit (x : list Z) (b : Z) : bool := Z.testbit (default 0 (x !! BITSET_BITWORD b)) (b mod 32).

Lemma bitset_bit b : BITSET_BIT b = 2 ^ (b mod 32).
Proof.
  unfold BITSET_BIT. pose proof (Z.mod_pos_bound b 32 ltac:(lia)).
  pose proof (pow2_pos (b mod 32) ltac:(lia)). pose proof (pow2_lt (b mod 32) 32 ltac:(lia)). by rewrite shiftl_1, u32_small by lia.
Qed.

Lemma bitset_word (x : list Z) b n : 0 <= b < n -> Z.of_nat (length x) = BITSET_WORDS n -> exists w, x !! BITSET_BITWORD b = Some w.
Proof.
  intros Hb Hx. apply lookup_lt_is_Some_2. unfold BITSET_BITWORD. unfold BITSET_WORDS in Hx.
  assert (b / 32 < (n + 31) / 32) by dlia. assert (0 <= b / 32) by dlia. lia.
Qed.

Lemma bitset_test x b n : 0 <= b < n -> Z.of_nat (length x) = BITSET_WORDS n -> BITSET_TEST x b = Some (bit x b).
Proof.
  intros Hb Hx. destruct (bitset_word x b n Hb Hx) as [w Hw]. unfold BITSET_TEST, bit. rewrite Hw. cbn. rewrite bitset_bit.
  pose proof (Z.mod_pos_bound b 32 ltac:(lia)). by rewrite land_pow2_testbit by lia.
Qed.

Lemma same_bit b b' : 0 <= b -> 0 <= b' -> BITSET_BITWORD b = BITSET_BITWORD b' -> b mod 32 = b' mod 32 -> b = b'.
Proof. unfold BITSET_BITWORD. intros H H' Hw Hm. assert (b / 32 = b' / 32) by (apply Z2Nat.inj; [dlia|dlia|done]). dlia. Qed.

(** Both changes of a bit: the word becomes [f w], which differs in one bit *)
Lemma bit_insert x b w f v : 0 <= b -> x !! BITSET_BITWORD b = Some w -> (forall j, 0 <= j < 32 -> Z.testbit f j = if decide (j = b mod 32) then v else Z.testbit w j) ->
  forall b', 0 <= b' -> bit (<[BITSET_BITWORD b := f]> x) b' = if decide (b' = b) then v else bit x b'.
Proof.
  intros Hb Hw Hf b' Hb'. unfold bit. pose proof (Z.mod_pos_bound b' 32 ltac:(lia)) as Hm.
  destruct (decide (BITSET_BITWORD b' = BITSET_BITWORD b)) as [E|E].
  - rewrite E, list_lookup_insert_eq, Hw by (by eapply lookup_lt_Some). cbn. rewrite Hf by done.
    destruct (decide (b' mod 32 = b mod 32)) as [E2|E2]; [rewrite decide_True by (by apply same_bit); done|].
    rewrite decide_False by congruence. done.
  - rewrite list_lookup_insert_ne by done. rewrite decide_False by congruence. done.
Qed.

Lemma bitset_set x b n : 0 <= b < n -> Z.of_nat (length x) = BITSET_WORDS n ->
  exists x', BITSET_SET x b = Some x' /\ length x' = length x /\ forall b', 0 <= b' -> bit x' b' = if decide (b' = b) then true else bit x b'.
Proof.
  intros Hb Hx. destruct (bitset_word x b n Hb Hx) as [w Hw]. unfold BITSET_SET. rewrite Hw. cbn. eexists. split; [done|]. split; [apply length_insert|].
  apply bit_insert with w; [lia|done|]. intros j Hj. rewrite Z.lor_spec, bitset_bit, Z.pow2_bits_eqb by (pose proof (Z.mod_pos_bound b 32); lia).
  destruct (decide (j = b mod 32)) as [->|]; [by rewrite Z.eqb_refl, orb_true_r|]. destruct (Z.eqb_spec (b mod 32) j); [congruence|apply orb_false_r].
Qed.

Lemma bitset_clear x b n : 0 <= b < n -> Z.of_nat (length x) = BITSET_WORDS n ->
  exists x', BITSET_CLEAR x b = Some x' /\ length x' = length x /\ forall b', 0 <= b' -> bit x' b' = if decide (b' = b) then false else bit x b'.
Proof.
  intros Hb Hx. destruct (bitset_word x b n Hb Hx) as [w Hw]. unfold BITSET_CLEAR. rewrite Hw. cbn. eexists. split; [done|]. split; [apply length_insert|].
  apply bit_insert with w; [lia|done|]. intros j Hj. rewrite Z.land_spec, not32_testbit, bitset_bit, Z.pow2_bits_eqb by (pose proof (Z.mod_pos_bound b 32); lia).
  destruct (decide (j = b mod 32)) as [->|]; [by rewrite Z.eqb_refl, andb_false_r|]. destruct (Z.eqb_spec (b mod 32) j); [congruence|apply andb_true_r].
Qed.

(** ** The invariant *)

Section refinement.
Context (idx : nat -> Z) (n : Z) (Hn : 0 <= n <= 2 ^ 31).

Record wl_ok (w : u_worklist) (q : list nat) : Prop := {
  wk_size : wl_size w = n;
  wk_count : wl_count w = Z.of_nat (length q);
  wk_start : 0 <= wl_start w /\ (0 < n -> wl_start w < n);
  wk_words : Z.of_nat (length (wl_present w)) = BITSET_WORDS n;
  wk_bits : forall b, 0 <= b -> bit (wl_present w) b = true <-> b ∈ map idx q;
  wk_range : forall p, p ∈ q -> 0 <= idx p < n;
  wk_nodup : NoDup (map idx q);
  wk_length : Z.of_nat (length (wl_entries w)) = n;
  wk_entries : forall i, 0 <= i < Z.of_nat (length q) -> load (wl_entries w) ((wl_start w + i) mod n) = q !! Z.to_nat i }.

(** There is room for an index that is not in the list. *)
Lemma wl_room q p : (forall x, x ∈ q -> 0 <= idx x < n) -> NoDup (map idx q) -> 0 <= idx p < n -> idx p ∉ map idx q -> Z.of_nat (length q) < n.
Proof.
  intros Hr Hnd Hp Hnew. assert (Hle : (length (idx p :: map idx q) <= length (seqZ 0 n))%nat).
  { apply submseteq_length, NoDup_submseteq; [by constructor|]. intros b. rewrite elem_of_seqZ.
    intros [->|(x & -> & Hx)%list_elem_of_fmap]%elem_of_cons; [lia|]. specialize (Hr x Hx). lia. }
  rewrite length_seqZ in Hle. cbn in Hle. rewrite length_map in Hle. lia.
Qed.

Lemma wl_init_ok : wl_ok (u_worklist_init n) [].
Proof using Hn.
  split; cbn; try done.
  - rewrite length_replicate. assert (0 <= BITSET_WORDS n) by (unfold BITSET_WORDS; dlia). lia.
  - intros b Hb. rewrite elem_of_nil. unfold bit.
    assert (E : default 0 (replicate (Z.to_nat (BITSET_WORDS n)) 0 !! BITSET_BITWORD b) = 0).
    { destruct (replicate _ _ !! _) as [z|] eqn:E; [|done]. apply lookup_replicate in E as [-> _]. done. }
    rewrite E, Z.bits_0. done.
  - by intros p ?%not_elem_of_nil.
  - constructor.
  - rewrite length_replicate. lia.
  - lia.
Qed.

Lemma ring_pos s i : 0 <= s < n -> 0 <= i < n -> (s + i) mod n = if decide (s + i < n) then s + i else s + i - n.
Proof. intros Hs Hi. rewrite mod_add_wrap by lia. by rewrite (Z.mod_small s) by lia. Qed.

Lemma wl_test_ok w q p : wl_ok w q -> 0 <= idx p < n -> BITSET_TEST (wl_present w) (idx p) = Some (bool_decide (idx p ∈ map idx q)).
Proof.
  intros Hw Hp. rewrite (bitset_test _ _ n Hp (wk_words _ _ Hw)). f_equal. apply eq_bool_prop_intro.
  rewrite bool_decide_spec, <- (wk_bits _ _ Hw (idx p)) by lia. by destruct (bit _ _).
Qed.

(** A new entry at position [pos] of the ring, next to the others *)
Lemma wl_push_ok w q p pos start q' : wl_ok w q -> 0 <= idx p < n -> idx p ∉ map idx q -> 0 <= pos < n -> 0 <= start < n -> q' ≡ₚ p :: q ->
  (forall i, 0 <= i < Z.of_nat (length q') -> ((start + i) mod n = pos /\ q' !! Z.to_nat i = Some p) \/
     exists k, 0 <= k < Z.of_nat (length q) /\ (start + i) mod n = (wl_start w + k) mod n /\ (wl_start w + k) mod n <> pos /\ q' !! Z.to_nat i = q !! Z.to_nat k) ->
  exists entries present, store (wl_entries w) pos p = Some entries /\ BITSET_SET (wl_present w) (idx p) = Some present /\
    wl_ok (UWorklist (wl_size w) (Z.of_nat (length q')) start present entries) q'.
Proof.
  intros Hw Hp Hnew Hpos Hstart Hperm Hent. destruct (cell_store_ok (wl_entries w) pos p) as [es Hes]; [by rewrite (wk_length _ _ Hw)|].
  destruct (bitset_set _ _ n Hp (wk_words _ _ Hw)) as (pr & Hpr & Hlen & Hbits). exists es, pr. split; [done|]. split; [done|].
  assert (Hmap : map idx q' ≡ₚ idx p :: map idx q) by (change (idx p :: map idx q) with (map idx (p :: q)); by apply Permutation_map).
  split; cbn [wl_size wl_count wl_start wl_present wl_entries].
  - apply (wk_size _ _ Hw).
  - done.
  - lia.
  - rewrite Hlen. apply (wk_words _ _ Hw).
  - intros b Hb. rewrite Hbits, Hmap, elem_of_cons, <- (wk_bits _ _ Hw b Hb) by done. destruct (decide (b = idx p)); naive_solver.
  - intros x. rewrite Hperm, elem_of_cons. intros [->|Hx]; [done|by apply (wk_range _ _ Hw)].
  - rewrite Hmap. constructor; [done|apply (wk_nodup _ _ Hw)].
  - rewrite (store_length _ _ _ _ Hes). apply (wk_length _ _ Hw).
  - intros i Hi. rewrite (load_store _ _ _ _ _ Hes). destruct (Hent i Hi) as [[-> ->]|(k & Hk & -> & Hne & ->)]; [by rewrite decide_True|].
    rewrite decide_False by done. by apply (wk_entries _ _ Hw).
Qed.

Lemma push_head_ok w q p : wl_ok w q -> 0 <= idx p < n ->
  exists w', u_worklist_push_head_index idx w p = Some w' /\ wl_ok w' (if decide (idx p ∈ map idx q) then q else p :: q).
Proof using Hn.
  intros Hw Hp. unfold u_worklist_push_head_index. rewrite (wl_test_ok w q p Hw Hp). cbn [mbind option_bind].
  destruct (decide (idx p ∈ map idx q)) as [Hin|Hnew]; [rewrite bool_decide_true by done; by exists w|]. rewrite bool_decide_false by done.
  pose proof (wl_room q p (wk_range _ _ Hw) (wk_nodup _ _ Hw) Hp Hnew) as Hroom. rewrite (wk_count _ _ Hw), (wk_size _ _ Hw). passert ltac:(lia).
  destruct (wk_start _ _ Hw) as [Hs0 Hs]. set (start := if wl_start w =? 0 then _ else _).
  assert (Hst : start = if decide (wl_start w = 0) then n - 1 else wl_start w - 1).
  { unfold start. destruct (Z.eqb_spec (wl_start w) 0); [rewrite decide_True by done|rewrite decide_False by done]; apply u32_small; lia. }
  destruct (wl_push_ok w q p start start (p :: q) Hw Hp Hnew) as (es & pr & -> & Epr & Hok); [destruct (decide (wl_start w = 0)); lia..|done| |].
  { intros i Hi. cbn in Hi. destruct (decide (i = 0)) as [->|Hi0].
    - left. split; [|done]. rewrite Z.add_0_r. apply Z.mod_small. destruct (decide (wl_start w = 0)); lia.
    - right. exists (i - 1). split; [lia|]. rewrite !ring_pos by (destruct (decide (wl_start w = 0)); lia).
      replace (Z.to_nat i) with (S (Z.to_nat (i - 1))) by lia. split; [|split; [|done]]; destruct (decide (wl_start w = 0)); repeat (destruct (decide _)); lia. }
  cbn [mbind option_bind]. rewrite Epr. cbn [mbind option_bind]. rewrite u32_small by lia. eexists. split; [done|].
  rewrite (wk_size _ _ Hw) in Hok. replace (Z.of_nat (length q) + 1) with (Z.of_nat (length (p :: q))) by (cbn; lia). done.
Qed.

Lemma push_tail_ok w q p : wl_ok w q -> 0 <= idx p < n ->
  exists w', u_worklist_push_tail_index idx w p = Some w' /\ wl_ok w' (if decide (idx p ∈ map idx q) then q else q ++ [p]).
Proof using Hn.
  intros Hw Hp. unfold u_worklist_push_tail_index. rewrite (wl_test_ok w q p Hw Hp). cbn [mbind option_bind].
  destruct (decide (idx p ∈ map idx q)) as [Hin|Hnew]; [rewrite bool_decide_true by done; by exists w|]. rewrite bool_decide_false by done.
  pose proof (wl_room q p (wk_range _ _ Hw) (wk_nodup _ _ Hw) Hp Hnew) as Hroom. rewrite (wk_count _ _ Hw), (wk_size _ _ Hw). passert ltac:(lia).
  destruct (wk_start _ _ Hw) as [Hs0 Hs]. rewrite !u32_small by (rewrite ?u32_small by lia; lia).
  replace (wl_start w + (Z.of_nat (length q) + 1) - 1) with (wl_start w + Z.of_nat (length q)) by lia.
  destruct (wl_push_ok w q p ((wl_start w + Z.of_nat (length q)) mod n) (wl_start w) (q ++ [p]) Hw Hp Hnew) as (es & pr & -> & Epr & Hok);
    [apply Z.mod_pos_bound; lia|lia|by rewrite Permutation_app_comm| |].
  { intros i Hi. rewrite length_app in Hi. cbn in Hi. destruct (decide (i = Z.of_nat (length q))) as [->|Hi0].
    - left. split; [done|]. rewrite Nat2Z.id. by apply list_lookup_middle.
    - right. exists i. split; [lia|]. split; [done|]. rewrite lookup_app_l by lia. split; [|done]. rewrite !ring_pos by lia. repeat (destruct (decide _)); lia. }
  cbn [mbind option_bind]. rewrite Epr. cbn [mbind option_bind]. eexists. split; [done|].
  rewrite (wk_size _ _ Hw) in Hok. replace (Z.of_nat (length q) + 1) with (Z.of_nat (length (q ++ [p]))) by (rewrite length_app; cbn; lia). done.
Qed.

Lemma wl_pop_ok w q p start q' : wl_ok w q -> q ≡ₚ p :: q' -> 0 <= start < n ->
  (forall i, 0 <= i < Z.of_nat (length q') -> exists k, 0 <= k < Z.of_nat (length q) /\ (start + i) mod n = (wl_start w + k) mod n /\ q' !! Z.to_nat i = q !! Z.to_nat k) ->
  exists present, BITSET_CLEAR (wl_present w) (idx p) = Some present /\ wl_ok (UWorklist (wl_size w) (Z.of_nat (length q')) start present (wl_entries w)) q'.
Proof.
  intros Hw Hperm Hstart Hent. assert (Hp : 0 <= idx p < n) by (apply (wk_range _ _ Hw); rewrite Hperm; left).
  destruct (bitset_clear _ _ n Hp (wk_words _ _ Hw)) as (pr & Hpr & Hlen & Hbits). exists pr. split; [done|].
  assert (Hmap : map idx q ≡ₚ idx p :: map idx q') by (change (idx p :: map idx q') with (map idx (p :: q')); by apply Permutation_map).
  pose proof (wk_nodup _ _ Hw) as Hnd'. rewrite Hmap in Hnd'. inversion_clear Hnd' as [|? ? Hnew Hnd].
  split; cbn [wl_size wl_count wl_start wl_present wl_entries].
  - apply (wk_size _ _ Hw).
  - done.
  - lia.
  - rewrite Hlen. apply (wk_words _ _ Hw).
  - intros b Hb. pose proof (wk_bits _ _ Hw b Hb) as Hwb. rewrite Hmap, elem_of_cons in Hwb. rewrite Hbits by done. destruct (decide (b = idx p)) as [->|]; naive_solver.
  - intros x Hx. apply (wk_range _ _ Hw). rewrite Hperm. by right.
  - done.
  - apply (wk_length _ _ Hw).
  - intros i Hi. destruct (Hent i Hi) as (k & Hk & -> & ->). by apply (wk_entries _ _ Hw).
Qed.

Lemma wl_nonempty w q : wl_ok w q -> q <> [] -> 0 < n /\ 0 < wl_count w <= n /\ 0 <= wl_start w < n.
Proof.
  intros Hw Hq. destruct q as [|p q]; [done|]. destruct (wk_range _ _ Hw p ltac:(left)) as [? ?]. pose proof (wk_start _ _ Hw) as [? Hs].
  assert (Hlen : (length (map idx (p :: q)) <= length (seqZ 0 n))%nat).
  { apply submseteq_length, NoDup_submseteq; [apply (wk_nodup _ _ Hw)|]. intros b (x & -> & Hx)%list_elem_of_fmap. apply elem_of_seqZ. pose proof (wk_range _ _ Hw x Hx). lia. }
  rewrite length_seqZ, length_map in Hlen. rewrite (wk_count _ _ Hw). cbn in *. lia.
Qed.

Lemma wl_front w p q : wl_ok w (p :: q) -> load (wl_entries w) (wl_start w) = Some p.
Proof.
  intros Hw. destruct (wl_nonempty w (p :: q) Hw ltac:(done)) as (_ & _ & Hs). pose proof (wk_entries _ _ Hw 0 ltac:(cbn; lia)) as E.
  rewrite Z.add_0_r, Z.mod_small in E by lia. done.
Qed.

Lemma wl_back w p q : wl_ok w (q ++ [p]) -> load (wl_entries w) (u32 (u32 (wl_start w + wl_count w) - 1) mod n) = Some p.
Proof using Hn.
  intros Hw. destruct (wl_nonempty w (q ++ [p]) Hw ltac:(by destruct q)) as (Hn0 & Hc & Hs). pose proof (wk_count _ _ Hw) as E. rewrite length_app in E. cbn in E.
  rewrite !u32_small by (rewrite ?u32_small by lia; lia). replace (wl_start w + wl_count w - 1) with (wl_start w + Z.of_nat (length q)) by lia.
  rewrite (wk_entries _ _ Hw) by (rewrite length_app; cbn; lia). rewrite Nat2Z.id. by apply list_lookup_middle.
Qed.

Lemma pop_head_ok w p q : wl_ok w (p :: q) -> exists w', u_worklist_pop_head_index idx w = Some (w', p) /\ wl_ok w' q.
Proof using Hn.
  intros Hw. destruct (wl_nonempty w (p :: q) Hw ltac:(done)) as (Hn0 & Hc & Hs). unfold u_worklist_pop_head_index. passert ltac:(lia).
  rewrite (wl_front w p q Hw). cbn [mbind option_bind]. rewrite (u32_small (wl_start w + 1)), (wk_size _ _ Hw) by lia.
  destruct (wl_pop_ok w (p :: q) p ((wl_start w + 1) mod n) q Hw) as (pr & -> & Hok); [done|apply Z.mod_pos_bound; lia| |].
  - intros i Hi. exists (i + 1). split; [cbn; lia|]. split; [rewrite Z.add_mod_idemp_l by lia; f_equal; lia|].
    replace (Z.to_nat (i + 1)) with (S (Z.to_nat i)) by lia. done.
  - cbn [mbind option_bind]. eexists. split; [done|]. rewrite (wk_size _ _ Hw) in Hok. rewrite (wk_count _ _ Hw) in *. cbn [length] in *.
    rewrite u32_small by lia. replace (Z.of_nat (S (length q)) - 1) with (Z.of_nat (length q)) by lia. done.
Qed.

Lemma pop_tail_ok w p q : wl_ok w (q ++ [p]) -> exists w', u_worklist_pop_tail_index idx w = Some (w', p) /\ wl_ok w' q.
Proof using Hn.
  intros Hw. destruct (wl_nonempty w (q ++ [p]) Hw ltac:(by destruct q)) as (Hn0 & Hc & Hs). unfold u_worklist_pop_tail_index. passert ltac:(lia).
  rewrite (wk_size _ _ Hw), (wl_back w p q Hw). cbn [mbind option_bind].
  destruct (wl_pop_ok w (q ++ [p]) p (wl_start w) q Hw) as (pr & -> & Hok); [by rewrite Permutation_app_comm|lia| |].
  - intros i Hi. exists i. rewrite length_app. split; [lia|]. split; [done|]. by rewrite lookup_app_l by lia.
  - cbn [mbind option_bind]. eexists. split; [done|]. rewrite (wk_size _ _ Hw) in Hok. rewrite (wk_count _ _ Hw) in *. rewrite length_app in *. cbn [length] in *.
    rewrite u32_small by lia. replace (Z.of_nat (length q + 1) - 1) with (Z.of_nat (length q)) by lia. done.
Qed.

Lemma wl_empty w : wl_ok w [] -> wl_count w = 0.
Proof. intros Hw. apply (wk_count _ _ Hw). Qed.

(** Each operation does what the queue does, failures included. *)
Lemma wl_step_ok op w q : wl_ok w q -> (forall p, op = PushHead p \/ op = PushTail p -> 0 <= idx p < n) ->
  match deque_step idx op q with
  | None => wl_step idx op w = None
  | Some (q', r) => exists w', wl_step idx op w = Some (w', r) /\ wl_ok w' q'
  end.
Proof using Hn.
  intros Hw Hop. destruct op as [p|p| | | | |]; cbn [deque_step wl_step].
  - destruct (push_head_ok w q p Hw) as (w' & -> & Hw'); [auto|]. by exists w'.
  - destruct (push_tail_ok w q p Hw) as (w' & -> & Hw'); [auto|]. by exists w'.
  - unfold u_worklist_peek_head_index. destruct q as [|p q]; [by rewrite (wl_empty w Hw)|].
    destruct (wl_nonempty w _ Hw ltac:(done)) as (_ & ? & _). passert ltac:(lia). rewrite (wl_front w p q Hw). by exists w.
  - unfold u_worklist_peek_tail_index. destruct q as [|p q _] using rev_ind; [by rewrite (wl_empty w Hw)|].
    destruct (wl_nonempty w _ Hw ltac:(by destruct q)) as (_ & ? & _). passert ltac:(lia). rewrite (wk_size _ _ Hw), (wl_back w p q Hw).
    rewrite length_app, Nat.add_1_r. cbn [pred]. rewrite list_lookup_middle by done. by exists w.
  - destruct q as [|p q]; [unfold u_worklist_pop_head_index; by rewrite (wl_empty w Hw)|].
    destruct (pop_head_ok w p q Hw) as (w' & -> & Hw'). by exists w'.
  - destruct q as [|p q _] using rev_ind; [unfold u_worklist_pop_tail_index; by rewrite (wl_empty w Hw)|].
    destruct (pop_tail_ok w p q Hw) as (w' & -> & Hw'). rewrite length_app, Nat.add_1_r. cbn [pred]. rewrite list_lookup_middle, take_app_length by done. by exists w'.
  - exists w. split; [|done]. unfold u_worklist_is_empty. rewrite (wk_count _ _ Hw). by destruct q.
Qed.

Lemma run_list_ok ops w q : wl_ok w q -> (forall p, PushHead p ∈ ops \/ PushTail p ∈ ops -> 0 <= idx p < n) ->
  (snd <$> run_list (wl_step idx) ops w) = (snd <$> run_list (deque_step idx) ops q).
Proof using Hn.
  revert w q. induction ops as [|op ops IH]; intros w q Hw Hops; [done|]. cbn [run_list].
  pose proof (wl_step_ok op w q Hw) as Hstep. destruct (deque_step idx op q) as [[q' r]|].
  - destruct Hstep as (w' & -> & Hw'); [intros p [->| ->]; apply Hops; [left|right]; left|]. cbn [mbind option_bind].
    assert (Hops' : forall p, PushHead p ∈ ops \/ PushTail p ∈ ops -> 0 <= idx p < n) by (intros p [?|?]; apply Hops; [left|right]; by right).
    specialize (IH w' q' Hw' Hops'). destruct (run_list (wl_step idx) ops w') as [[w1 rs1]|], (run_list (deque_step idx) ops q') as [[q1 rs2]|]; cbn in *; congruence.
  - rewrite Hstep; [done|]. intros p [->| ->]; apply Hops; [left|right]; left.
Qed.
End refinement.

(** C28: u_worklist is a double-ended queue without repetition.  From an initialised list for at most 2^31 indices, any
    sequence of operations on entries with indices in range has the results of the queue: pushing an index that is in the list
    changes nothing, and the assertions and accesses fail exactly if the list is empty at a pop or peek. *)
Theorem u_worklist_refines idx n ops : 0 <= n <= 2 ^ 31 -> (forall p, PushHead p ∈ ops \/ PushTail p ∈ ops -> 0 <= idx p < n) ->
  (snd <$> run_list (wl_step idx) ops (u_worklist_init n)) = (snd <$> run_list (deque_step idx) ops []).
Proof. intros Hn Hops. apply (run_list_ok idx n Hn ops _ []); [by apply wl_init_ok|done]. Qed.

Definition example_idx (p : nat) : Z := Z.of_nat p mod 3.
Definition example_wl_ops : list wl_op := [PushTail 0; PushHead 1; PushTail 2; PushTail 4; PeekTail; PopHead; PushHead 4; PeekHead; PopTail; PopTail; PopTail; IsEmpty].

Lemma u_worklist_refines_witness : (snd <$> run_list (wl_step example_idx) example_wl_ops (u_worklist_init 3)) = (snd <$> run_list (deque_step example_idx) example_wl_ops []).
Proof.
  apply (u_worklist_refines example_idx 3 example_wl_ops); [lia|]. intros p _. unfold example_idx. apply Z.mod_pos_bound. lia.
Defined.
