(* ===== verification/NirLiveness.v ===== *)
(** * Liveness of SSA values (src/compiler/nir/nir_liveness.c)

    A function is a list of blocks; a block has its instructions, the condition of the if
    that follows it, and its predecessors.  A pointer to a block is its position, which is also its
    index.  The sparse bitsets of live values are finite sets of the indices of definitions, which
    SparseRefine.v justifies.  The specification, [live_out], is about the
    paths of the control-flow graph: it says that a value may still be read. *)

From Stdlib Require Import ZArith Lia.
From stdpp Require Import base list gmap numbers option relations.
From S2P Require Import Prelude Rmq Worklist NirDominance.
Local Open Scope nat_scope.

(** ** Data *)

(** A phi has a source for each predecessor; the other instructions that matter here are those
    of undefined values. *)
Inductive nir_instr :=
| PhiInstr (def : nat) (srcs : list (nat * nat))
| UndefInstr (def : nat)
| OtherInstr (def : option nat) (srcs : list nat).

Record code_block := CodeBlock { instrs : list nir_instr; if_condition : option nat; block_preds : list nat }.

Definition is_phi (i : nir_instr) : bool := match i with PhiInstr _ _ => true | _ => false end.

(** What [nir_foreach_def] and [nir_foreach_src] visit *)
Definition instr_def (i : nir_instr) : option nat :=
  match i with PhiInstr d _ => Some d | UndefInstr d => Some d | OtherInstr d _ => d end.
Definition instr_srcs (i : nir_instr) : list nat :=
  match i with PhiInstr _ srcs => srcs.*2 | UndefInstr _ => [] | OtherInstr _ srcs => srcs end.

(** [nir_foreach_phi] *)
Fixpoint leading_phis (l : list nir_instr) : list (nat * list (nat * nat)) :=
  match l with
  | PhiInstr d srcs :: l => (d, srcs) :: leading_phis l
  | _ => []
  end.

Record live_defs_state := LiveState { ls_in : list (gset nat); ls_out : list (gset nat); ls_worklist : u_worklist }.

Section liveness.
Context (f : list code_block).

Definition nir_def_is_undef (d : nat) : bool :=
  existsb (fun b => existsb (fun i => match i with UndefInstr x => Nat.eqb x d | _ => false end) (instrs b)) f.

Definition set_src_live (d : nat) (live : gset nat) : gset nat := if nir_def_is_undef d then live else {[d]} ∪ live.
Definition set_ssa_def_dead (d : nat) (live : gset nat) : gset nat := live ∖ {[d]}.

Definition nir_block_worklist_push_head := u_worklist_push_head_index Z.of_nat.
Definition nir_block_worklist_push_tail := u_worklist_push_tail_index Z.of_nat.
Definition nir_block_worklist_pop_head := u_worklist_pop_head_index Z.of_nat.

Definition init_liveness_block (block : nat) (st : live_defs_state) : option live_defs_state :=
  w ← nir_block_worklist_push_head (ls_worklist st) block;
  Some (LiveState (<[block := ∅]> (ls_in st)) (<[block := ∅]> (ls_out st)) w).

(** The source of a phi for an edge *)
Fixpoint phi_src (pred : nat) (srcs : list (nat * nat)) : option nat :=
  match srcs with
  | [] => None
  | (p, d) :: srcs => if decide (p = pred) then Some d else phi_src pred srcs
  end.

Definition kill_phis (phis : list (nat * list (nat * nat))) (live : gset nat) : gset nat :=
  foldl (fun l phi => set_ssa_def_dead phi.1 l) live phis.
Definition gen_phi_srcs (pred : nat) (phis : list (nat * list (nat * nat))) (live : gset nat) : gset nat :=
  foldl (fun l phi => match phi_src pred phi.2 with Some d => set_src_live d l | None => l end) live phis.

Definition propagate_across_edge (pred succ : nat) (st : live_defs_state) : option (live_defs_state * bool) :=
  s ← f !! succ;
  live ← ls_in st !! succ;
  let live := gen_phi_srcs pred (leading_phis (instrs s)) (kill_phis (leading_phis (instrs s)) live) in
  out ← ls_out st !! pred;
  Some (LiveState (ls_in st) (<[pred := out ∪ live]> (ls_out st)) (ls_worklist st), negb (bool_decide (live ⊆ out))).

(** An instruction, from its end to its beginning *)
Definition instr_live (i : nir_instr) (live : gset nat) : gset nat :=
  foldl (fun l d => set_src_live d l) (match instr_def i with Some d => set_ssa_def_dead d live | None => live end) (instr_srcs i).

(** [nir_foreach_instr_reverse], until a phi *)
Fixpoint walk_reverse (l : list nir_instr) (live : gset nat) : gset nat :=
  match l with
  | [] => live
  | i :: l => if is_phi i then live else walk_reverse l (instr_live i live)
  end.

Definition block_live_in (b : code_block) (out : gset nat) : gset nat :=
  walk_reverse (reverse (instrs b)) (match if_condition b with Some d => set_src_live d out | None => out end).

(** The body of the loop *)
Definition liveness_step (block : nat) (st : live_defs_state) : option live_defs_state :=
  b ← f !! block;
  out ← ls_out st !! block;
  let st := LiveState (<[block := block_live_in b out]> (ls_in st)) (ls_out st) (ls_worklist st) in
  for_each (fun pred st =>
      '(st, progress) ← propagate_across_edge pred block st;
      if progress : bool then
        w ← nir_block_worklist_push_tail (ls_worklist st) pred;
        Some (LiveState (ls_in st) (ls_out st) w)
      else Some st) (block_preds b) st.

Fixpoint liveness_loop (fuel : nat) (st : live_defs_state) : option live_defs_state :=
  match fuel with
  | O => None
  | S fuel =>
      if u_worklist_is_empty (ls_worklist st) then Some st else
      '(w, block) ← nir_block_worklist_pop_head (ls_worklist st);
      st ← liveness_step block (LiveState (ls_in st) (ls_out st) w);
      liveness_loop fuel st
  end.

(** [ins] and [outs] are what the fields of the blocks held before. *)
Definition nir_live_defs_impl (ssa_alloc : nat) (ins outs : list (gset nat)) : option live_defs_state :=
  st ← for_each init_liveness_block (seq 0 (length f)) (LiveState ins outs (u_worklist_init (Z.of_nat (length f))));
  liveness_loop (S (length f * S ssa_alloc)) st.

(** ** Specification *)

Definition cfg : graph := map block_preds f.

(** The instructions after the phis *)
Definition body (b : code_block) : list nir_instr := filter (fun i => is_phi i = false) (instrs b).
Definition phi_defs (b : code_block) : list nat := (leading_phis (instrs b)).*1.

(** [d] is read by the instructions [l], or the condition [c] after them, before it is defined. *)
Inductive reads (d : nat) : list nir_instr -> option nat -> Prop :=
| reads_cond : reads d [] (Some d)
| reads_here i l c : d ∈ instr_srcs i -> reads d (i :: l) c
| reads_later i l c : instr_def i <> Some d -> reads d l c -> reads d (i :: l) c.

Definition defines (d : nat) (l : list nir_instr) : Prop := Some d ∈ map instr_def l.

(** The value of [d] at the end of block [p] may be read: by a phi on an edge to a successor [s],
    in [s], or after [s]. *)
Inductive live_out : nat -> nat -> Prop :=
| live_phi p s blk phi d : f !! s = Some blk -> p ∈ block_preds blk -> phi ∈ leading_phis (instrs blk) -> phi_src p phi.2 = Some d ->
    nir_def_is_undef d = false -> live_out p d
| live_read p s blk d : f !! s = Some blk -> p ∈ block_preds blk -> d ∉ phi_defs blk -> reads d (body blk) (if_condition blk) ->
    nir_def_is_undef d = false -> live_out p d
| live_pass p s blk d : f !! s = Some blk -> p ∈ block_preds blk -> d ∉ phi_defs blk -> ~ defines d (body blk) -> live_out s d -> live_out p d.

(** The value of [d] may be read at or after the instructions [l], with which block [b] ends. *)
Definition live_at (b : nat) (l : list nir_instr) (d : nat) : Prop :=
  nir_def_is_undef d = false /\ exists blk, f !! b = Some blk /\ (reads d l (if_condition blk) \/ (~ defines d l /\ live_out b d)).

Definition live_in (b d : nat) : Prop := exists blk, f !! b = Some blk /\ live_at b (body blk) d.
End liveness.

(** ** Transfer functions *)

Section transfer.
Context (f : list code_block).
Notation undef := (nir_def_is_undef f).

(** The phis of a block come first (nir_validate.c checks it). *)
Definition phis_first (l : list nir_instr) : Prop := exists l1 l2, l = l1 ++ l2 /\ Forall (fun i => is_phi i = true) l1 /\ Forall (fun i => is_phi i = false) l2.

Lemma set_src_live_spec d live x : x ∈ set_src_live f d live <-> (x = d /\ undef x = false) \/ x ∈ live.
Proof. unfold set_src_live. destruct (undef d) eqn:E; [|set_solver]. split; [by right|]. intros [[-> ?]|?]; congruence. Qed.

Lemma instr_live_spec i live x : x ∈ instr_live f i live <-> (x ∈ instr_srcs i /\ undef x = false) \/ (x ∈ live /\ instr_def i <> Some x).
Proof.
  unfold instr_live. assert (H : forall srcs l, x ∈ foldl (fun l d => set_src_live f d l) l srcs <-> (x ∈ srcs /\ undef x = false) \/ x ∈ l).
  { induction srcs as [|d srcs IH]; intros l; cbn; [split; [by right|]; by intros [[?%not_elem_of_nil _]|?]|].
    rewrite IH, set_src_live_spec, elem_of_cons. tauto. }
  rewrite H. destruct (instr_def i) as [d|]; [|naive_solver]. unfold set_ssa_def_dead. rewrite elem_of_difference, elem_of_singleton. naive_solver.
Qed.

Lemma walk_reverse_app l k live : Forall (fun i => is_phi i = false) l -> walk_reverse f (l ++ k) live = walk_reverse f k (walk_reverse f l live).
Proof. intros Hl. revert live. induction Hl as [|i l Hi _ IH]; intros live; [done|]. cbn. rewrite Hi. apply IH. Qed.

(** What the walk computes for the instructions [l], from the set [live] after them *)
Lemma walk_reverse_spec l c out x : Forall (fun i => is_phi i = false) l ->
  x ∈ walk_reverse f (reverse l) (match c with Some d => set_src_live f d out | None => out end) <->
  (undef x = false /\ reads x l c) \/ (~ defines x l /\ x ∈ out).
Proof.
  intros Hl. induction Hl as [|i l Hi Hl IH].
  - cbn. assert (Hd : ~ defines x []) by (by intros ?%not_elem_of_nil). destruct c as [d|].
    + rewrite set_src_live_spec. split; [intros [[-> Hu]|Hx]; [left; split; [done|constructor]|by right]|]. intros [[Hu Hr]|[_ ?]]; [left|by right]. inversion Hr; subst; auto.
    + split; [by right|]. intros [[_ Hr]|[_ ?]]; [inversion Hr|done].
  - rewrite reverse_cons, walk_reverse_app by (by apply Forall_reverse). cbn. rewrite Hi, instr_live_spec, IH. unfold defines. cbn. rewrite elem_of_cons. split.
    + intros [[? ?]|[[[? ?]|[? ?]] Hne]]; [left; split; [done|by constructor]|left; split; [done|by apply reads_later]|]. right. split; [|done]. intros [E|E]; [by apply Hne|done].
    + intros [[Hu Hr]|[Hd Ho]]; [inversion Hr; subst; [by left|tauto]|]. right. split; [right; split; [tauto|done]|]. intros E. apply Hd. by left.
Qed.

Lemma body_split l1 l2 c ps : Forall (fun i => is_phi i = true) l1 -> Forall (fun i => is_phi i = false) l2 -> body (CodeBlock (l1 ++ l2) c ps) = l2.
Proof.
  intros H1 H2. unfold body. cbn. rewrite filter_app.
  assert (filter (fun i => is_phi i = false) l1 = []) as ->; [|assert (filter (fun i => is_phi i = false) l2 = l2) as ->; [|done]].
  - induction H1 as [|i l1 Hi _ IH]; [done|]. rewrite filter_cons, decide_False by congruence. done.
  - induction H2 as [|i l2 Hi _ IH]; [done|]. rewrite filter_cons, decide_True by done. by f_equal.
Qed.

Lemma block_live_in_spec b out x : phis_first (instrs b) ->
  x ∈ block_live_in f b out <-> (undef x = false /\ reads x (body b) (if_condition b)) \/ (~ defines x (body b) /\ x ∈ out).
Proof.
  destruct b as [l c ps]. cbn [instrs]. intros (l1 & l2 & -> & H1 & H2). rewrite (body_split l1 l2 c ps H1 H2), <- walk_reverse_spec by done.
  unfold block_live_in. cbn [instrs if_condition]. rewrite reverse_app, walk_reverse_app by (by apply Forall_reverse). set (live := walk_reverse f (reverse l2) _).
  assert (E : walk_reverse f (reverse l1) live = live); [|by rewrite E]. apply Forall_reverse in H1. destruct H1 as [|i l Hi _]; [done|]. cbn. by rewrite Hi.
Qed.

(** What an edge to block [b] needs at the end of [p], from the live values [live] after its phis *)
Definition edge_live (p : nat) (b : code_block) (live : gset nat) : gset nat := gen_phi_srcs f p (leading_phis (instrs b)) (kill_phis (leading_phis (instrs b)) live).

Lemma edge_live_spec p b live x :
  x ∈ edge_live p b live <-> (exists phi, phi ∈ leading_phis (instrs b) /\ phi_src p phi.2 = Some x /\ undef x = false) \/ (x ∈ live /\ x ∉ phi_defs b).
Proof.
  unfold edge_live, phi_defs. generalize (leading_phis (instrs b)) as phis. intros phis.
  assert (Hk : forall l, x ∈ kill_phis phis l <-> x ∈ l /\ x ∉ phis.*1).
  { unfold kill_phis. induction phis as [|phi phis IH]; intros l; cbn; [set_solver|]. rewrite IH. unfold set_ssa_def_dead. rewrite elem_of_cons. set_solver. }
  assert (Hg : forall l, x ∈ gen_phi_srcs f p phis l <-> (exists phi, phi ∈ phis /\ phi_src p phi.2 = Some x /\ undef x = false) \/ x ∈ l).
  { clear Hk. unfold gen_phi_srcs. induction phis as [|phi phis IH]; intros l; cbn; [split; [by right|]; by intros [(phi & ?%not_elem_of_nil & _)|?]|].
    rewrite IH. setoid_rewrite elem_of_cons. destruct (phi_src p phi.2) as [d|] eqn:E; [rewrite set_src_live_spec|]; naive_solver. }
  by rewrite Hg, Hk.
Qed.
End transfer.

(** ** The work list reaches the least solution *)

(** What the pass relies on (nir_validate.c): phis come first, predecessors are blocks of the
    function, and the indices of definitions are below [ssa_alloc]. *)
Record code_ok (f : list code_block) (ssa_alloc : nat) : Prop := {
  ck_size : (Z.of_nat (length f) <= 2 ^ 31)%Z;
  ck_alloc : (Z.of_nat ssa_alloc < 2 ^ 32)%Z;
  ck_phis : forall b blk, f !! b = Some blk -> phis_first (instrs blk);
  ck_preds : forall b blk p, f !! b = Some blk -> p ∈ block_preds blk -> p < length f;
  ck_defs : forall b blk i d, f !! b = Some blk -> i ∈ instrs blk -> instr_def i = Some d -> d < ssa_alloc;
  ck_srcs : forall b blk i d, f !! b = Some blk -> i ∈ instrs blk -> d ∈ instr_srcs i -> d < ssa_alloc;
  ck_cond : forall b blk d, f !! b = Some blk -> if_condition blk = Some d -> d < ssa_alloc }.

Section loop.
Context (f : list code_block) (ssa_alloc : nat) (Hok : code_ok f ssa_alloc).
Notation n := (Z.of_nat (length f)).

Lemma reads_range d l c : (forall i, i ∈ l -> d ∈ instr_srcs i -> d < ssa_alloc) -> (c = Some d -> d < ssa_alloc) -> reads d l c -> d < ssa_alloc.
Proof.
  intros Hl Hc. induction 1 as [|i l c Hi|i l c Hi _ IH]; [by apply Hc|by apply (Hl i); [left|]|]. apply IH; [|done]. intros j Hj. apply Hl. by right.
Qed.

Lemma phi_src_in p srcs d : phi_src p srcs = Some d -> (p, d) ∈ srcs.
Proof.
  induction srcs as [|[q x] srcs IH]; cbn; [done|]. destruct (decide (q = p)) as [->|]; [intros [= ->]; left|]. intros H. right. by apply IH.
Qed.

Lemma leading_phis_in l d srcs : (d, srcs) ∈ leading_phis l -> PhiInstr d srcs ∈ l.
Proof.
  induction l as [|[x ss|x|x ss] l IH]; cbn; try by intros ?%not_elem_of_nil. intros [[= -> ->]|H]%elem_of_cons; [left|right; by apply IH].
Qed.

Lemma live_out_range p d : live_out f p d -> d < ssa_alloc.
Proof using Hok.
  induction 1 as [p s blk [x srcs] d Hs Hp Hphi Hsrc _|p s blk d Hs Hp _ Hr _|]; [| |done].
  - apply (ck_srcs _ _ Hok s blk (PhiInstr x srcs)); [done|by apply leading_phis_in|]. cbn. apply list_elem_of_fmap. exists (p, d). split; [done|by apply phi_src_in].
  - apply (reads_range d (body blk) (if_condition blk)); [|by apply (ck_cond _ _ Hok s)|done].
    intros i [_ Hi]%list_elem_of_filter. by apply (ck_srcs _ _ Hok s blk).
Qed.

(** The sets of block [b] satisfy its equations. *)
Definition settled (st : live_defs_state) (b : nat) : Prop := forall blk out, f !! b = Some blk -> ls_out st !! b = Some out ->
  ls_in st !! b = Some (block_live_in f blk out) /\
  forall p, p ∈ block_preds blk -> exists o, ls_out st !! p = Some o /\ edge_live f p blk (block_live_in f blk out) ⊆ o.

Record sound (st : live_defs_state) (q : list nat) : Prop := {
  so_lengths : length (ls_in st) = length f /\ length (ls_out st) = length f;
  so_worklist : wl_ok Z.of_nat n (ls_worklist st) q;
  so_in : forall b s d, ls_in st !! b = Some s -> d ∈ s -> live_in f b d;
  so_out : forall b s d, ls_out st !! b = Some s -> d ∈ s -> live_out f b d }.

(** What is left to add, and to visit *)
Definition room (s : gset nat) : nat := ssa_alloc - size s.
Definition todo (st : live_defs_state) (q : list nat) : nat := sum_list_with room (ls_out st) + length q.

Lemma live_out_undef p d : live_out f p d -> nir_def_is_undef f d = false.
Proof. by induction 1. Qed.

Lemma block_live_in_sound b blk out : f !! b = Some blk -> (forall d, d ∈ out -> live_out f b d) -> forall d, d ∈ block_live_in f blk out -> live_in f b d.
Proof using Hok.
  intros Hb Hout d Hd. apply block_live_in_spec in Hd; [|by apply (ck_phis _ _ Hok b)]. exists blk. split; [done|].
  destruct Hd as [[Hu Hr]|[Hn Hd%Hout]]; (split; [done || by apply (live_out_undef b)|exists blk; auto]).
Qed.

Lemma edge_live_sound p b blk live : f !! b = Some blk -> p ∈ block_preds blk -> (forall d, d ∈ live -> live_in f b d) -> forall d, d ∈ edge_live f p blk live -> live_out f p d.
Proof.
  intros Hb Hp Hlive d [(phi & Hphi & Hs & Hu)|[Hd Hno]]%edge_live_spec; [by eapply live_phi|].
  destruct (Hlive d Hd) as (blk1 & Hb1 & Hu & blk2 & Hb2 & Hr). assert (blk1 = blk) as -> by congruence. assert (blk2 = blk) as -> by congruence.
  destruct Hr as [Hr|[Hnd Hl]]; [by eapply live_read|by eapply live_pass].
Qed.

Lemma out_size (outs : list (gset nat)) b s : (forall b s d, outs !! b = Some s -> d ∈ s -> live_out f b d) -> outs !! b = Some s -> size s <= ssa_alloc.
Proof using Hok.
  intros Hs Hb. rewrite <- (size_set_seq (C := gset nat) 0 ssa_alloc). apply subseteq_size. intros d Hd.
  apply elem_of_set_seq. pose proof (live_out_range b d (Hs b s d Hb Hd)). lia.
Qed.

Lemma of_nat_in (p : nat) q : Z.of_nat p ∈ map Z.of_nat q <-> p ∈ q.
Proof. rewrite list_elem_of_fmap. split; [intros (x & E & Hx); by replace p with x by lia|by exists p]. Qed.

(** One edge of the loop over predecessors *)
Lemma propagate_ok b blk p st q : f !! b = Some blk -> p ∈ block_preds blk -> sound st q -> (forall c, c ∉ q -> c <> b -> settled st c) -> b < length (ls_in st) ->
  exists st' q' live o, ('(st, progress) ← propagate_across_edge f p b st;
      if progress : bool then w ← nir_block_worklist_push_tail (ls_worklist st) p; Some (LiveState (ls_in st) (ls_out st) w) else Some st) = Some st' /\
    sound st' q' /\ (forall c, c ∉ q' -> c <> b -> settled st' c) /\ todo st' q' <= todo st q /\ ls_in st' = ls_in st /\ ls_in st !! b = Some live /\
    ls_out st !! p = Some o /\ ls_out st' = <[p := o ∪ edge_live f p blk live]> (ls_out st) /\ q ⊆ q' /\ (p ∉ q' -> ls_out st' = ls_out st).
Proof using Hok.
  intros Hb Hp Hs Hset Hbl. unfold propagate_across_edge. rewrite Hb. cbn [mbind option_bind].
  destruct (lookup_lt_is_Some_2 (ls_in st) b Hbl) as [live Hlive]. rewrite Hlive. cbn [mbind option_bind].
  destruct (so_lengths _ _ Hs) as [HLi HLo]. pose proof (ck_preds _ _ Hok b blk p Hb Hp) as Hpl.
  destruct (lookup_lt_is_Some_2 (ls_out st) p ltac:(lia)) as [o Ho]. rewrite Ho. cbn [mbind option_bind]. fold (edge_live f p blk live).
  pose proof (edge_live_sound p b blk live Hb Hp (fun d => so_in _ _ Hs b live d Hlive)) as Hel.
  destruct (bool_decide_reflect (edge_live f p blk live ⊆ o)) as [Hsub|Hnew]; cbn [negb].
  - assert (E : <[p := o ∪ edge_live f p blk live]> (ls_out st) = ls_out st) by (apply list_insert_id; rewrite Ho; f_equal; set_solver).
    rewrite E. exists st, q, live, o. destruct st. cbn in *. auto 20.
  - cbn [ls_worklist ls_in ls_out].
    destruct (push_tail_ok Z.of_nat n ltac:(pose proof (ck_size _ _ Hok); lia) (ls_worklist st) q p (so_worklist _ _ Hs) ltac:(lia)) as (w & Ew & Hw).
    unfold nir_block_worklist_push_tail. rewrite Ew. cbn [mbind option_bind]. set (q' := if decide _ then q else q ++ [p]) in Hw.
    assert (Hq : q ⊆ q' /\ p ∈ q' /\ length q' <= S (length q)).
    { unfold q'. destruct (decide _) as [Hin%of_nat_in|]; [auto|]. split; [set_solver|]. split; [set_solver|]. rewrite length_app. cbn. lia. }
    destruct Hq as (Hq1 & Hq2 & Hq3). eexists _, q', live, o. split; [done|].
    assert (Hso : forall c s d, <[p := o ∪ edge_live f p blk live]> (ls_out st) !! c = Some s -> d ∈ s -> live_out f c d).
    { intros c s d. destruct (decide (c = p)) as [->|Hne]; [|rewrite list_lookup_insert_ne by done; apply (so_out _ _ Hs)].
      rewrite list_lookup_insert_eq by lia. intros [= <-] [Hd|Hd]%elem_of_union; [by apply (so_out _ _ Hs p o)|auto]. }
    split; [split; cbn; [by rewrite length_insert|done|apply (so_in _ _ Hs)|exact Hso]|]. cbn [ls_in ls_out]. split; [|split; [|split_and!; auto]].
    + intros c Hc Hcb blk' out Hblk Hout. cbn in *. rewrite list_lookup_insert_ne in Hout by set_solver.
      destruct (Hset c ltac:(set_solver) Hcb blk' out Hblk Hout) as [Hin Hpr]. split; [done|]. intros p' Hp'. destruct (Hpr p' Hp') as (o' & Ho' & Hsub').
      destruct (decide (p' = p)) as [->|]; [|by exists o'; rewrite list_lookup_insert_ne]. rewrite list_lookup_insert_eq by lia. eexists. split; [done|].
      assert (o' = o) as -> by congruence. set_solver.
    + unfold todo. cbn [ls_out]. pose proof (sum_insert room (ls_out st) p o (o ∪ edge_live f p blk live) Ho) as E.
      assert (Hlt : size o < size (o ∪ edge_live f p blk live)).
      { destruct (decide (size (o ∪ edge_live f p blk live) <= size o)) as [Hle|]; [|lia]. exfalso. apply Hnew.
        rewrite (set_subseteq_size_eq o (o ∪ edge_live f p blk live)) by (done || set_solver). set_solver. }
      pose proof (out_size _ p (o ∪ edge_live f p blk live) Hso ltac:(by rewrite list_lookup_insert_eq by lia)). unfold room in *. lia.
    + done.
Qed.

Lemma liveness_step_ok b st q : b < length f -> b ∉ q -> sound st q -> (forall c, c ∉ q -> c <> b -> settled st c) ->
  exists st' q', liveness_step f b st = Some st' /\ sound st' q' /\ (forall c, c ∉ q' -> settled st' c) /\ todo st' q' <= todo st q.
Proof using Hok.
  intros Hbl Hbq Hs Hset. unfold liveness_step. destruct (lookup_lt_is_Some_2 f b Hbl) as [blk Hb]. rewrite Hb. cbn [mbind option_bind].
  destruct (so_lengths _ _ Hs) as [HLi HLo]. destruct (lookup_lt_is_Some_2 (ls_out st) b ltac:(lia)) as [out Hout]. rewrite Hout. cbn [mbind option_bind].
  set (st0 := LiveState (<[b := block_live_in f blk out]> (ls_in st)) (ls_out st) (ls_worklist st)).
  assert (Hin0 : ls_in st0 !! b = Some (block_live_in f blk out)) by (cbn; apply list_lookup_insert_eq; lia).
  assert (Hs0 : sound st0 q).
  { destruct Hs as [H1 H2 H3 H4]. split; cbn; [by rewrite length_insert|done| |done]. intros c s d. destruct (decide (c = b)) as [->|]; [|rewrite list_lookup_insert_ne by done; apply H3].
    rewrite list_lookup_insert_eq by lia. intros [= <-]. apply (block_live_in_sound b blk out Hb). intros d' Hd'. by apply (H4 b out). }
  assert (Hset0 : forall c, c ∉ q -> c <> b -> settled st0 c).
  { intros c Hc Hcb blk' out' Hblk' Hout'. cbn in *. rewrite list_lookup_insert_ne by done. by apply Hset. }
  destruct (for_each_rule (fun pre s => exists q', sound s q' /\ (forall c, c ∉ q' -> c <> b -> settled s c) /\ todo s q' <= todo st q /\ ls_in s !! b = Some (block_live_in f blk out) /\
      (forall p, p ∈ pre -> exists o, ls_out s !! p = Some o /\ edge_live f p blk (block_live_in f blk out) ⊆ o) /\ (b ∉ q' -> ls_out s !! b = Some out))
    (fun pred st => '(st, progress) ← propagate_across_edge f pred b st;
      if progress : bool then w ← nir_block_worklist_push_tail (ls_worklist st) pred; Some (LiveState (ls_in st) (ls_out st) w) else Some st)
    (block_preds blk) st0) as (s & -> & q' & H1 & H2 & H3 & H4 & H5 & H6).
  - exists q. split_and!; try done. by intros p ?%not_elem_of_nil.
  - intros pre p post s E (q1 & H1 & H2 & H3 & H4 & H5 & H6). assert (Hp : p ∈ block_preds blk) by (rewrite E; apply elem_of_app; right; left).
    destruct (propagate_ok b blk p s q1 Hb Hp H1 H2) as (s' & q' & live & o & Es & G1 & G2 & G3 & Ei & El & Eo & Eo' & Hq & Hsame); [by eapply lookup_lt_Some|].
    exists s'. split; [exact Es|]. exists q'. assert (live = block_live_in f blk out) as -> by congruence. pose proof (lookup_lt_Some _ _ _ Eo) as Hlt. split_and!; [done|done|lia|congruence| |].
    + intros p' [Hp'| ->%list_elem_of_singleton]%elem_of_app; rewrite Eo'.
      * destruct (H5 p' Hp') as (o' & Ho' & Hsub). destruct (decide (p' = p)) as [->|]; [|exists o'; by rewrite list_lookup_insert_ne].
        rewrite list_lookup_insert_eq by done. eexists. split; [done|]. assert (o' = o) as -> by congruence. set_solver.
      * rewrite list_lookup_insert_eq by done. eexists. split; [done|]. set_solver.
    + intros Hbq'. destruct (decide (b = p)) as [->|Hne]; [rewrite (Hsame Hbq'); apply H6; set_solver|]. rewrite Eo', list_lookup_insert_ne by done. apply H6. set_solver.
  - exists s, q'. split; [done|]. split; [done|]. split; [|done]. intros c Hc. destruct (decide (c = b)) as [->|]; [|by apply H2].
    intros blk' out' Hblk' Hout'. assert (blk' = blk) as -> by congruence. rewrite (H6 Hc) in Hout'. injection Hout' as <-. split; [done|]. apply H5.
Qed.

Lemma liveness_loop_ok fuel : forall st q, sound st q -> (forall c, c ∉ q -> settled st c) -> todo st q < fuel ->
  exists st', liveness_loop f fuel st = Some st' /\ sound st' [] /\ forall c, settled st' c.
Proof using Hok.
  assert (Hn : (0 <= n <= 2 ^ 31)%Z) by (pose proof (ck_size _ _ Hok); lia).
  induction fuel as [|fuel IH]; intros st q Hs Hset Hf; [lia|]. cbn [liveness_loop]. unfold u_worklist_is_empty. rewrite (wk_count _ _ _ _ (so_worklist _ _ Hs)).
  destruct q as [|b q]; [exists st; split; [done|]; split; [done|]; intros c; apply Hset, not_elem_of_nil|]. cbn [length].
  destruct (Z.eqb_spec (Z.of_nat (S (length q))) 0) as [E0|E0]; [lia|].
  destruct (pop_head_ok Z.of_nat n Hn (ls_worklist st) b q (so_worklist _ _ Hs)) as (w & Ew & Hw). unfold nir_block_worklist_pop_head. rewrite Ew. cbn [mbind option_bind].
  pose proof (wk_range _ _ _ _ (so_worklist _ _ Hs) b ltac:(left)) as Hb. pose proof (wk_nodup _ _ _ _ (so_worklist _ _ Hs)) as Hnd. cbn in Hnd. apply NoDup_cons in Hnd as [Hbq _].
  rewrite of_nat_in in Hbq. destruct (liveness_step_ok b (LiveState (ls_in st) (ls_out st) w) q) as (st' & q' & -> & Hs' & Hset' & Ht); [lia|done| | |].
  - destruct Hs. by split.
  - intros c Hc Hcb. apply (Hset c). rewrite elem_of_cons. tauto.
  - cbn [mbind option_bind]. apply (IH st' q'); [done|done|]. unfold todo in *. cbn in *. lia.
Qed.

(** The sets that settle contain every live value. *)
Lemma settled_complete st p d : sound st [] -> (forall c, settled st c) -> live_out f p d -> exists o, ls_out st !! p = Some o /\ d ∈ o.
Proof using Hok.
  intros Hs Hset Hl. destruct (so_lengths _ _ Hs) as [HLi HLo].
  assert (Hedge : forall p s blk x, f !! s = Some blk -> p ∈ block_preds blk -> (forall out, ls_out st !! s = Some out -> x ∈ edge_live f p blk (block_live_in f blk out)) ->
    exists o, ls_out st !! p = Some o /\ x ∈ o).
  { intros p' s blk x Hb Hp Hx. pose proof (lookup_lt_Some _ _ _ Hb). destruct (lookup_lt_is_Some_2 (ls_out st) s ltac:(lia)) as [out Hout].
    destruct (proj2 (Hset s blk out Hb Hout) p' Hp) as (o & Ho & Hsub). exists o. split; [done|]. by apply Hsub, Hx. }
  induction Hl as [p s blk phi d Hb Hp Hphi Hsrc Hu|p s blk d Hb Hp Hno Hr Hu|p s blk d Hb Hp Hno Hnd Hl IH]; apply (Hedge p s blk d Hb Hp); intros out Hout; apply edge_live_spec; [by left; exists phi|..];
    right; (split; [|done]); (apply block_live_in_spec; [by apply (ck_phis _ _ Hok s)|]).
  - by left.
  - right. split; [done|]. destruct IH as (o & Ho & Hd). congruence.
Qed.

Lemma init_liveness_ok ins outs : length ins = length f -> length outs = length f ->
  exists st, for_each init_liveness_block (seq 0 (length f)) (LiveState ins outs (u_worklist_init n)) = Some st /\
    sound st (reverse (seq 0 (length f))) /\ todo st (reverse (seq 0 (length f))) = length f * S ssa_alloc.
Proof using Hok.
  intros Hi Ho. assert (Hn : (0 <= n <= 2 ^ 31)%Z) by (pose proof (ck_size _ _ Hok); lia).
  destruct (for_each_rule (fun pre st => length (ls_in st) = length f /\ length (ls_out st) = length f /\ wl_ok Z.of_nat n (ls_worklist st) (reverse pre) /\
      forall b, b ∈ pre -> ls_in st !! b = Some ∅ /\ ls_out st !! b = Some ∅) init_liveness_block (seq 0 (length f)) (LiveState ins outs (u_worklist_init n))) as (st & E & H1 & H2 & H3 & H4).
  - split_and!; [done|done|by apply wl_init_ok|]. by intros b ?%not_elem_of_nil.
  - intros pre b post st El (H1 & H2 & H3 & H4). unfold init_liveness_block. assert (Hb : b < length f) by (apply (elem_of_seq 0 (length f)); rewrite El; apply elem_of_app; right; left).
    assert (Hnew : b ∉ pre). { pose proof (NoDup_seq 0 (length f)) as Hnd. rewrite El in Hnd. apply NoDup_app in Hnd as (_ & Hd & _). intros Hin. apply (Hd b Hin). left. }
    destruct (push_head_ok Z.of_nat n Hn (ls_worklist st) (reverse pre) b H3 ltac:(lia)) as (w & Ew & Hw). unfold nir_block_worklist_push_head. rewrite Ew. cbn [mbind option_bind].
    rewrite decide_False in Hw by (by rewrite of_nat_in, elem_of_reverse). eexists. split; [done|]. cbn. rewrite !length_insert, reverse_snoc. split_and!; [done|done|done|].
    intros c [Hc| ->%list_elem_of_singleton]%elem_of_app; [|split; apply list_lookup_insert_eq; lia]. rewrite !list_lookup_insert_ne by (intros ->; done). by apply H4.
  - assert (Hemp : forall (l : list (gset nat)), length l = length f -> (forall b, b ∈ seq 0 (length f) -> l !! b = Some ∅) -> l = replicate (length f) ∅).
    { intros l Hl Hb. apply list_eq. intros k. destruct (decide (k < length f)); [rewrite lookup_replicate_2 by done; apply Hb, elem_of_seq; lia|].
      rewrite !lookup_ge_None_2; [done|rewrite length_replicate; lia|lia]. }
    assert (Ei : ls_in st = replicate (length f) ∅) by (apply Hemp; [done|]; intros b Hb; by apply H4).
    assert (Eo : ls_out st = replicate (length f) ∅) by (apply Hemp; [done|]; intros b Hb; by apply H4).
    exists st. split; [done|]. split.
    + split; [done|done|rewrite Ei|rewrite Eo]; intros b s d [-> _]%lookup_replicate Hd; by apply not_elem_of_empty in Hd.
    + unfold todo. rewrite Eo, length_reverse, length_seq. assert (E0 : sum_list_with room (replicate (length f) ∅) = length f * ssa_alloc); [|lia].
      generalize (length f) as k. induction k as [|k IH]; [done|]. cbn. unfold room at 1. rewrite size_empty. lia.
Qed.
End loop.

(** ** The pass *)

Lemma nir_live_defs_impl_spec f ssa_alloc ins outs : code_ok f ssa_alloc -> length ins = length f -> length outs = length f ->
  exists st, nir_live_defs_impl f ssa_alloc ins outs = Some st /\
  forall b, b < length f -> exists li lo, ls_in st !! b = Some li /\ ls_out st !! b = Some lo /\
    (forall d, d ∈ lo <-> live_out f b d) /\ (forall d, d ∈ li <-> live_in f b d).
Proof.
  intros Hok Hi Ho. unfold nir_live_defs_impl. destruct (init_liveness_ok f ssa_alloc Hok ins outs Hi Ho) as (st0 & -> & Hs0 & Ht). cbn [mbind option_bind].
  destruct (liveness_loop_ok f ssa_alloc Hok (S (length f * S ssa_alloc)) st0 (reverse (seq 0 (length f))) Hs0) as (st & -> & Hs & Hset).
  - intros c Hc blk out Hblk. apply lookup_lt_Some in Hblk. destruct Hc. apply elem_of_reverse, elem_of_seq. lia.
  - lia.
  - exists st. split; [done|]. intros b Hb. destruct (so_lengths _ _ _ Hs) as [HLi HLo].
    destruct (lookup_lt_is_Some_2 f b Hb) as [blk Hblk]. destruct (lookup_lt_is_Some_2 (ls_out st) b ltac:(lia)) as [lo Hlo].
    destruct (Hset b blk lo Hblk Hlo) as [Hli _]. exists (block_live_in f blk lo), lo. split; [done|]. split; [done|].
    assert (Hout : forall d, d ∈ lo <-> live_out f b d).
    { intros d. split; [by apply (so_out _ _ _ Hs b)|]. intros Hd. destruct (settled_complete f ssa_alloc Hok st b d Hs Hset Hd) as (o & E & ?). congruence. }
    split; [done|]. intros d. split; [by apply (so_in _ _ _ Hs b)|]. intros (blk1 & E1 & Hu & blk2 & E2 & Hr).
    assert (blk1 = blk) as -> by congruence. assert (blk2 = blk) as -> by congruence.
    apply block_live_in_spec; [by apply (ck_phis _ _ Hok b)|]. rewrite Hout. naive_solver.
Qed.

(** C9: liveness analysis.  For any function whose phis come first, whatever the fields of the blocks held before, the work list becomes empty after at most
    num_blocks * (ssa_alloc + 1) blocks, no assertion of the work list fails, and then live_out of a block is exactly the set of values that may still be read on a path
    from its end (phis read their sources on the edges), and live_in the set of those that may be read from the first instruction after its phis on. *)
Theorem nir_live_defs_impl_correct f ssa_alloc ins outs : code_ok f ssa_alloc -> length ins = length f -> length outs = length f ->
  exists st, nir_live_defs_impl f ssa_alloc ins outs = Some st /\
  forall b, b < length f -> exists li lo, ls_in st !! b = Some li /\ ls_out st !! b = Some lo /\
    (forall d, d ∈ lo <-> live_out f b d) /\ (forall d, d ∈ li <-> live_in f b d).
Proof. apply nir_live_defs_impl_spec. Qed.

(** ** Live values at a cursor *)

(** An instruction is a block and a position in it. *)
Inductive nir_cursor := BeforeBlock (b : nat) | AfterBlock (b : nat) | BeforeInstr (b k : nat) | AfterInstr (b k : nat).

Section cursor.
Context (f : list code_block) (st : live_defs_state).

(** [nir_foreach_instr_reverse], with the positions of the instructions *)
Fixpoint cursor_walk (after : bool) (k : nat) (l : list (nat * nir_instr)) (live : gset nat) : option (gset nat) :=
  match l with
  | [] => Some live
  | (j, i) :: l =>
      if after && bool_decide (j = k) then Some live else
      assert! negb (is_phi i) ;;
      let live := instr_live f i live in
      if negb after && bool_decide (j = k) then Some live else cursor_walk after k l live
  end.

Definition mid_block (after : bool) (b k : nat) : option (gset nat) :=
  blk ← f !! b;
  out ← ls_out st !! b;
  cursor_walk after k (reverse (imap pair (instrs blk))) out.

Definition nir_get_live_defs (c : nir_cursor) : option (gset nat) :=
  match c with
  | BeforeBlock b => ls_in st !! b
  | AfterBlock b => ls_out st !! b
  | BeforeInstr b k => if decide (k = 0) then ls_in st !! b else mid_block false b k
  | AfterInstr b k => blk ← f !! b; if decide (S k = length (instrs blk)) then ls_out st !! b else mid_block true b k
  end.

(** The value of [d] may be read by the instructions [l] or after the block; a read by the condition of the following if is not counted. *)
Definition live_before_if (b : nat) (l : list nir_instr) (d : nat) : Prop :=
  nir_def_is_undef f d = false /\ (reads d l None \/ (~ defines d l /\ live_out f b d)).

Lemma cursor_walk_app after k l l' live : (forall j i, (j, i) ∈ l -> j <> k /\ is_phi i = false) ->
  cursor_walk after k (l ++ l') live = cursor_walk after k l' (walk_reverse f l.*2 live).
Proof.
  revert live. induction l as [|[j i] l IH]; intros live Hl; [done|]. cbn [app cursor_walk]. destruct (Hl j i ltac:(left)) as [Hj Hi].
  rewrite bool_decide_false by done. rewrite !andb_false_r, Hi. cbn. rewrite Hi. apply IH. intros j' i' Hin. apply Hl. by right.
Qed.

Lemma imap_pair_split (l : list nir_instr) k : reverse (imap pair l) = reverse (imap (fun j i => (k + j, i)) (drop k l)) ++ reverse (imap pair (take k l)).
Proof.
  rewrite <- reverse_app. f_equal. rewrite <- (take_drop k l) at 1. rewrite imap_app. f_equal. destruct (decide (k <= length l)).
  - rewrite length_take_le by done. done.
  - by rewrite drop_ge by lia.
Qed.

Lemma imap_snd (l : list nir_instr) k : (reverse (imap (fun j i => (k + j, i)) l)).*2 = reverse l.
Proof.
  rewrite fmap_reverse. f_equal. apply list_eq. intros j. rewrite list_lookup_fmap, list_lookup_imap. by destruct (l !! j).
Qed.

Lemma in_imap (l : list nir_instr) k j i : (j, i) ∈ reverse (imap (fun j i => (k + j, i)) l) -> k <= j /\ i ∈ l.
Proof.
  rewrite elem_of_reverse. intros [x Hx]%list_elem_of_lookup. rewrite list_lookup_imap in Hx. destruct (l !! x) as [y|] eqn:E; [|done].
  cbn in Hx. injection Hx as <- <-. split; [lia|by eapply list_elem_of_lookup_2].
Qed.

Lemma mid_block_ok (after : bool) b k blk out : f !! b = Some blk -> ls_out st !! b = Some out -> (forall d, d ∈ out <-> live_out f b d) -> k < length (instrs blk) ->
  let l := drop (if after then S k else k) (instrs blk) in Forall (fun i => is_phi i = false) l ->
  exists s, mid_block after b k = Some s /\ forall d, d ∈ s <-> live_before_if b l d.
Proof.
  intros Hb Ho Hout Hk l Hl. unfold mid_block. rewrite Hb, Ho. cbn [mbind option_bind]. exists (walk_reverse f (reverse l) out). split.
  - destruct (lookup_lt_is_Some_2 (instrs blk) k Hk) as [i Hi]. pose proof (drop_S (instrs blk) i k Hi) as Ed. pose proof (take_S_r (instrs blk) k i Hi) as Et.
    assert (Hrest : forall x, x ∈ drop (S k) (instrs blk) -> is_phi x = false).
    { rewrite Forall_forall in Hl. intros x Hx. apply Hl. unfold l. destruct after; [done|]. rewrite Ed. by right. }
    rewrite (imap_pair_split (instrs blk) (S k)), cursor_walk_app, imap_snd by (intros j x [Hj Hx]%in_imap; split; [lia|auto]).
    rewrite Et, imap_app, reverse_app, length_take_le by lia. cbn. rewrite Nat.add_0_r, bool_decide_true by done. destruct after; [done|]. cbn.
    unfold l in *. rewrite Ed in *. apply Forall_cons in Hl as [Hpi Hl]. rewrite Hpi. cbn [negb].
    rewrite reverse_cons, walk_reverse_app by (by apply Forall_reverse). cbn. by rewrite Hpi.
  - intros d. pose proof (walk_reverse_spec f l None out d Hl) as E. cbn in E. rewrite E, Hout. unfold live_before_if.
    split; [intros [[? ?]|[? Hd]]; [auto|]; split; [by eapply live_out_undef|auto]|]. naive_solver.
Qed.
End cursor.

(** The block of a cursor, whether the cursor is in it, the instructions that follow it (before a block: after its phis), and
    whether it is before the first of them *)
Definition cursor_block (c : nir_cursor) : nat := match c with BeforeBlock b | AfterBlock b | BeforeInstr b _ | AfterInstr b _ => b end.
Definition cursor_in (c : nir_cursor) (blk : code_block) : Prop :=
  match c with BeforeBlock _ | AfterBlock _ => True | BeforeInstr _ k | AfterInstr _ k => k < length (instrs blk) end.
Definition cursor_rest (c : nir_cursor) (blk : code_block) : list nir_instr :=
  match c with BeforeBlock _ => body blk | AfterBlock _ => [] | BeforeInstr _ k => drop k (instrs blk) | AfterInstr _ k => drop (S k) (instrs blk) end.
Definition cursor_first (c : nir_cursor) : bool := match c with BeforeBlock _ | BeforeInstr _ 0 => true | _ => false end.

Lemma live_before_if_exact f b blk l d : f !! b = Some blk -> if_condition blk = None -> live_before_if f b l d <-> live_at f b l d.
Proof.
  intros Hb Hc. unfold live_before_if, live_at. split.
  - intros [Hu H]. split; [done|]. exists blk. by rewrite Hc.
  - intros [Hu (blk' & Hb' & H)]. replace blk' with blk in H by congruence. rewrite Hc in H. by split.
Qed.

Lemma live_out_before_if f b d : live_out f b d <-> live_before_if f b [] d.
Proof.
  split.
  - intros Hd. split; [by eapply live_out_undef|]. right. split; [by intros ?%not_elem_of_nil|done].
  - intros [_ [Hr|[_ Hd]]]; [inversion Hr|done].
Qed.

(** The fields of the blocks, for the cursors that are answered by them *)
Lemma live_in_body f b blk d : f !! b = Some blk -> live_in f b d <-> live_at f b (body blk) d.
Proof. intros Hb. unfold live_in. split; [intros (blk' & E & H); by replace blk with blk' by congruence|eauto]. Qed.

(** C23: nir_get_live_defs.  For every cursor (before or after a block, before or after an instruction) that no phi follows, the function succeeds after the analysis, and its result is
    exactly characterised.  Before a block or before its first instruction it is the set of the values that may be read by the instructions of the block, by the condition of an if that
    follows the block, or after it.  At the other cursors it is the set of the values that may be read by the rest of the block or after the block and the if's condition, without the values
    that only the condition of a following if reads.  So the result is the live set at the cursor, as the comment of the function says, at every cursor of a block that no if follows, and
    at the beginning of any block; [condition_not_reported] is a cursor where it is not. *)
Theorem nir_get_live_defs_correct f ssa_alloc ins outs : code_ok f ssa_alloc -> length ins = length f -> length outs = length f ->
  exists st, nir_live_defs_impl f ssa_alloc ins outs = Some st /\
  forall c blk, f !! cursor_block c = Some blk -> cursor_in c blk -> Forall (fun i => is_phi i = false) (cursor_rest c blk) ->
  exists s, nir_get_live_defs f st c = Some s /\
    (forall d, d ∈ s <-> if cursor_first c then live_at f (cursor_block c) (cursor_rest c blk) d else live_before_if f (cursor_block c) (cursor_rest c blk) d) /\
    (if_condition blk = None -> forall d, d ∈ s <-> live_at f (cursor_block c) (cursor_rest c blk) d).
Proof.
  intros Hok Hi Ho. destruct (nir_live_defs_impl_spec f ssa_alloc ins outs Hok Hi Ho) as (st & E & Hst). exists st. split; [done|].
  intros c blk Hb Hk Hl. destruct (Hst _ (lookup_lt_Some _ _ _ Hb)) as (li & lo & Hli & Hlo & Hout & Hin).
  cut (exists s, nir_get_live_defs f st c = Some s /\
    forall d, d ∈ s <-> if cursor_first c then live_at f (cursor_block c) (cursor_rest c blk) d else live_before_if f (cursor_block c) (cursor_rest c blk) d).
  { intros (s & Es & Hs). exists s. split_and!; [done|done|]. intros Hc d. rewrite Hs. destruct (cursor_first c); [done|by eapply live_before_if_exact]. }
  pose proof (fun (after : bool) k => mid_block_ok f st after (cursor_block c) k blk lo Hb Hlo Hout) as Hmid.
  destruct c as [b|b|b k|b k]; cbn [cursor_block cursor_in cursor_rest nir_get_live_defs] in *; rewrite ?Hb; cbn [mbind option_bind].
  - exists li. split; [done|]. intros d. rewrite Hin. by apply live_in_body.
  - exists lo. split; [done|]. intros d. rewrite Hout. apply live_out_before_if.
  - destruct k as [|k]; [|exact (Hmid false (S k) Hk Hl)]. exists li. split; [done|]. intros d. rewrite Hin, live_in_body by done.
    cbn [drop cursor_first]. replace (instrs blk) with (body blk); [done|]. destruct blk as [l c ps]. by apply (body_split [] l c ps).
  - destruct (decide (S k = length (instrs blk))) as [Hlast|]; [|exact (Hmid true k Hk Hl)].
    exists lo. split; [done|]. intros d. rewrite Hout, drop_ge by lia. apply live_out_before_if.
Qed.

(** ** A loop, whose phis have been isolated by copies *)

Definition loop_code : list code_block :=
  [CodeBlock [OtherInstr (Some 0) []; OtherInstr (Some 1) [0]] None [];
   CodeBlock [PhiInstr 2 [(0, 1); (2, 5)]; OtherInstr (Some 3) [2]; OtherInstr (Some 6) [3]] (Some 6) [0; 2];
   CodeBlock [OtherInstr (Some 4) [3]; OtherInstr (Some 5) [4]] None [1];
   CodeBlock [OtherInstr None [3]] None [1]].

(** Case analysis on a block of the example, and on the members of concrete lists *)
Ltac loop_blocks H := match type of H with loop_code !! ?b = Some _ => destruct b as [|[|[|[|?]]]]; [injection H as <-..|done] end.
Ltac list_cases := repeat match goal with
  | H : _ ∈ [] |- _ => by apply not_elem_of_nil in H
  | H : _ ∈ _ :: _ |- _ => apply elem_of_cons in H as [H|H]; try (injection H as ? ?); subst; cbn in *
  end.

Example loop_live_out : (fun st => elements <$> ls_out st) <$> nir_live_defs_impl loop_code 7 (replicate 4 {[9]}) (replicate 4 ∅) = Some [[1]; [3]; [5]; []].
Proof. vm_compute. reflexivity. Qed.

Lemma loop_code_ok : code_ok loop_code 7.
Proof.
  split.
  - vm_compute. done.
  - vm_compute. done.
  - intros b blk H. loop_blocks H; [eexists [], _|exists [PhiInstr 2 [(0, 1); (2, 5)]], [OtherInstr (Some 3) [2]; OtherInstr (Some 6) [3]]|eexists [], _|eexists [], _]; repeat constructor.
  - intros b blk p H Hp. loop_blocks H; cbn in Hp; list_cases; cbn; lia.
  - intros b blk i d H Hi Hd. loop_blocks H; cbn in Hi; list_cases; try congruence; injection Hd as <-; lia.
  - intros b blk i d H Hi Hd. loop_blocks H; cbn in Hi; list_cases; lia.
  - intros b blk d H Hd. loop_blocks H; cbn in Hd; congruence || (injection Hd as <-; lia).
Qed.

Lemma nir_live_defs_impl_correct_witness : exists st lo, nir_live_defs_impl loop_code 7 (replicate 4 {[9]}) (replicate 4 ∅) = Some st /\
  ls_out st !! 2 = Some lo /\ (forall d, d ∈ lo <-> live_out loop_code 2 d).
Proof.
  destruct (nir_live_defs_impl_correct loop_code 7 (replicate 4 {[9]}) (replicate 4 ∅) loop_code_ok eq_refl eq_refl) as (st & E & H).
  destruct (H 2 ltac:(cbn; lia)) as (li & lo & _ & Hlo & Hout & _). exists st, lo. split; [exact E|]. split; [exact Hlo|exact Hout].
Defined.

Lemma nir_get_live_defs_correct_witness : exists st s, nir_live_defs_impl loop_code 7 (replicate 4 {[9]}) (replicate 4 ∅) = Some st /\
  nir_get_live_defs loop_code st (AfterInstr 2 0) = Some s /\ forall d, d ∈ s <-> live_at loop_code 2 [OtherInstr (Some 5) [4]] d.
Proof.
  destruct (nir_get_live_defs_correct loop_code 7 (replicate 4 {[9]}) (replicate 4 ∅) loop_code_ok eq_refl eq_refl) as (st & E & H).
  destruct (H (AfterInstr 2 0) _ eq_refl) as (s & Hs & _ & Hd); [cbn; lia|repeat constructor|]. exists st, s. split; [exact E|]. split; [exact Hs|exact (Hd eq_refl)].
Defined.

(** In a block that an if follows, the condition is read after the last instruction, but [nir_get_live_defs] does not report it. *)
Example condition_not_reported :
  let f := [CodeBlock [OtherInstr (Some 0) []; OtherInstr (Some 1) []; OtherInstr None [1]] (Some 0) []] in
  (fun st => elements <$> nir_get_live_defs f st (AfterInstr 0 1)) <$> nir_live_defs_impl f 2 [∅] [∅] = Some (Some [1]) /\
  live_at f 0 [OtherInstr None [1]] 0.
Proof.
  split; [vm_compute; reflexivity|]. split; [reflexivity|]. eexists. split; [reflexivity|]. left. apply reads_later; [done|constructor].
Qed.
