(* ===== verification/NirInterfere.v ===== *)
(** * Interference of SSA values (src/compiler/nir/nir_liveness.c, nir_defs_interfere)

    Two values interfere if the one that is defined first may be read after the definition of the
    other.  The file has nir_index_instrs, the queries on the results of the liveness analysis, what it means for a
    function to be in SSA form, and that the queries are exact. *)

From Stdlib Require Import ZArith Lia.
From stdpp Require Import base list gmap numbers option relations.
From S2P Require Import Prelude Rmq Worklist NirDominance NirDomPaths NirLiveness.
Local Open Scope nat_scope.

(** ** nir_index_instrs (nir.c) *)

Record block_ips := BlockIps { start_ip : Z; ips : list Z; end_ip : Z }.

Fixpoint index_instr_list (l : list nir_instr) (index : Z) : list Z * Z :=
  match l with
  | [] => ([], index)
  | _ :: l => let '(xs, index') := index_instr_list l (u32 (index + 1)) in (index :: xs, index')
  end.

Fixpoint nir_index_instrs (f : list code_block) (index : Z) : list block_ips * Z :=
  match f with
  | [] => ([], index)
  | b :: f =>
      let start := index in
      let '(xs, index) := index_instr_list (instrs b) (u32 (index + 1)) in
      let '(bs, index') := nir_index_instrs f (u32 (index + 1)) in
      (BlockIps start xs index :: bs, index')
  end.

(** ** Definitions of values *)

Section defs.
Context (f : list code_block).

Fixpoint find_def_instr (d : nat) (l : list nir_instr) (k : nat) : option nat :=
  match l with
  | [] => None
  | i :: l => if decide (instr_def i = Some d) then Some k else find_def_instr d l (S k)
  end.

Fixpoint find_def_block (d : nat) (bs : list code_block) (b : nat) : option (nat * nat) :=
  match bs with
  | [] => None
  | blk :: bs => match find_def_instr d (instrs blk) 0 with Some k => Some (b, k) | None => find_def_block d bs (S b) end
  end.

(** [nir_def_instr]: the block and the position of the instruction that defines a value *)
Definition nir_def_instr (d : nat) : option (nat * nat) := find_def_block d f 0.

Definition instr_index (bs : list block_ips) (p : nat * nat) : option Z := b ← bs !! p.1; ips b !! p.2.

(** ** Queries *)

Context (st : live_defs_state) (bs : list block_ips).

Definition reads_def (d : nat) (i : nir_instr) : bool := bool_decide (d ∈ instr_srcs i).

Definition search_for_use_after_instr (start : nat * nat) (d : nat) : option bool :=
  blk ← f !! start.1;
  Some (existsb (reads_def d) (drop (S start.2) (instrs blk)) || bool_decide (if_condition blk = Some d)).

Definition nir_def_is_live_at (d : nat) (instr : nat * nat) : option bool :=
  out ← ls_out st !! instr.1;
  if decide (d ∈ (out : gset nat)) then Some true else
  li ← ls_in st !! instr.1;
  p ← nir_def_instr d;
  if decide (d ∈ (li : gset nat) \/ p.1 = instr.1) then search_for_use_after_instr instr d else Some false.

Definition is_undef_instr (p : nat * nat) : option bool :=
  blk ← f !! p.1; i ← instrs blk !! p.2; Some (match i with UndefInstr _ => true | _ => false end).

Definition nir_defs_interfere (a b : nat) : option bool :=
  pa ← nir_def_instr a;
  pb ← nir_def_instr b;
  if decide (pa = pb) then Some true else
  ua ← is_undef_instr pa;
  ub ← is_undef_instr pb;
  if ua || ub : bool then Some false else
  ia ← instr_index bs pa;
  ib ← instr_index bs pb;
  if (ia <? ib)%Z then nir_def_is_live_at a pb else nir_def_is_live_at b pa.
End defs.

(** ** SSA form *)

Section ssa.
Context (f : list code_block).
Notation g := (cfg f).

(** [d] is defined by the instruction at [p]. *)
Definition defined_at (d : nat) (p : nat * nat) : Prop := exists blk i, f !! p.1 = Some blk /\ instrs blk !! p.2 = Some i /\ instr_def i = Some d.

(** The instruction at [p] is executed before the one at [q] on every path to [q]. *)
Definition pos_before (p q : nat * nat) : Prop := (p.1 = q.1 /\ p.2 < q.2) \/ (p.1 <> q.1 /\ dominates g p.1 q.1).

(** One definition for each value, which dominates its uses; a phi uses its sources at the end of
    the predecessors, which can be reached. *)
Record ssa_ok : Prop := {
  ssa_unique : forall d p q, defined_at d p -> defined_at d q -> p = q;
  ssa_use : forall b blk k i d, f !! b = Some blk -> instrs blk !! k = Some i -> is_phi i = false -> d ∈ instr_srcs i ->
    exists p, defined_at d p /\ pos_before p (b, k);
  ssa_cond : forall b blk d, f !! b = Some blk -> if_condition blk = Some d -> exists p, defined_at d p /\ dominates g p.1 b;
  ssa_phi : forall b blk x srcs p d, f !! b = Some blk -> PhiInstr x srcs ∈ instrs blk -> (p, d) ∈ srcs ->
    p ∈ block_preds blk /\ reachable g p /\ phi_src p srcs = Some d /\ exists q, defined_at d q /\ dominates g q.1 p }.

(** The instructions after the one at [p]; the phis of a block are executed at once. *)
Definition rest_of (blk : code_block) (k : nat) : list nir_instr := filter (fun i => is_phi i = false) (drop (S k) (instrs blk)).

Definition live_after (p : nat * nat) (d : nat) : Prop := exists blk, f !! p.1 = Some blk /\ live_at f p.1 (rest_of blk p.2) d.

(** The value that is defined first may be read after the definition of the other. *)
Definition interferes (a b : nat) : Prop := exists p q, defined_at a p /\ defined_at b q /\
  ((pos_before p q /\ live_after q a) \/ (pos_before q p /\ live_after p b)).
End ssa.

(** ** Positions *)

Lemma find_def_instr_spec d l k : match find_def_instr d l k with
  | Some j => k <= j /\ exists i, l !! (j - k) = Some i /\ instr_def i = Some d
  | None => forall i, i ∈ l -> instr_def i <> Some d end.
Proof.
  revert k. induction l as [|i l IH]; intros k; cbn; [by intros i ?%not_elem_of_nil|]. destruct (decide (instr_def i = Some d)) as [Hi|Hi].
  - split; [done|]. exists i. by rewrite Nat.sub_diag.
  - specialize (IH (S k)). destruct (find_def_instr d l (S k)) as [j|].
    + destruct IH as (Hj & x & Hx & Hd). split; [lia|]. exists x. replace (j - k) with (S (j - S k)) by lia. done.
    + intros x [->|Hx]%elem_of_cons; [done|by apply IH].
Qed.

Lemma find_def_block_spec d bs b : match find_def_block d bs b with
  | Some (c, k) => b <= c /\ exists blk i, bs !! (c - b) = Some blk /\ instrs blk !! k = Some i /\ instr_def i = Some d
  | None => forall blk i, blk ∈ bs -> i ∈ instrs blk -> instr_def i <> Some d end.
Proof.
  revert b. induction bs as [|blk bs IH]; intros b; cbn; [by intros blk i ?%not_elem_of_nil|]. pose proof (find_def_instr_spec d (instrs blk) 0) as Hf.
  destruct (find_def_instr d (instrs blk) 0) as [k|].
  - destruct Hf as (_ & i & Hi & Hd). split; [done|]. exists blk, i. rewrite Nat.sub_diag, Nat.sub_0_r in *. done.
  - specialize (IH (S b)). destruct (find_def_block d bs (S b)) as [[c k]|].
    + destruct IH as (Hc & x & i & Hx & Hi). split; [lia|]. exists x, i. replace (c - b) with (S (c - S b)) by lia. done.
    + intros x i [->|Hx]%elem_of_cons; [by apply Hf|by apply IH].
Qed.

Lemma nir_def_instr_ok f d p : ssa_ok f -> defined_at f d p -> nir_def_instr f d = Some p.
Proof.
  intros Hssa Hp. unfold nir_def_instr. pose proof (find_def_block_spec d f 0) as Hf. destruct (find_def_block d f 0) as [[c k]|].
  - destruct Hf as (_ & blk & i & Hb & Hi). rewrite Nat.sub_0_r in Hb. f_equal. apply (ssa_unique f Hssa d); [by exists blk, i|done].
  - destruct Hp as (blk & i & Hb & Hi & Hd). exfalso. by apply (Hf blk i); [eapply list_elem_of_lookup_2..|].
Qed.

(** Sum of what the blocks before take *)
Definition base (f : list code_block) : nat := sum_list_with (fun b => length (instrs b) + 2) f.

Lemma index_instr_list_ok l x : (0 <= x)%Z -> (x + Z.of_nat (length l) < 2 ^ 32)%Z ->
  (index_instr_list l x).2 = (x + Z.of_nat (length l))%Z /\ forall k, k < length l -> (index_instr_list l x).1 !! k = Some (x + Z.of_nat k)%Z.
Proof.
  revert x. induction l as [|i l IH]; intros x Hx Hb; cbn [index_instr_list length] in *; [split; [cbn; lia|intros; lia]|].
  rewrite u32_small by lia. destruct (IH (x + 1)%Z ltac:(lia) ltac:(lia)) as [E1 E2]. destruct (index_instr_list l (x + 1)) as [xs y]. cbn [fst snd] in *.
  split; [lia|]. intros [|k] Hk; cbn; [f_equal; lia|]. rewrite E2 by lia. f_equal. lia.
Qed.

Lemma nir_index_instrs_ok f x : (0 <= x)%Z -> (x + Z.of_nat (base f) < 2 ^ 32)%Z ->
  forall b blk k, f !! b = Some blk -> k < length (instrs blk) -> instr_index (nir_index_instrs f x).1 (b, k) = Some (x + Z.of_nat (base (take b f) + 1 + k))%Z.
Proof.
  revert x. induction f as [|c f IH]; intros x Hx Hb b blk k Hblk Hk; [done|]. cbn [nir_index_instrs]. unfold base in *. cbn [sum_list_with] in Hb.
  rewrite (u32_small (x + 1)) by lia. destruct (index_instr_list_ok (instrs c) (x + 1) ltac:(lia) ltac:(lia)) as [E1 E2].
  destruct (index_instr_list (instrs c) (x + 1)) as [xs y]. cbn [fst snd] in *. subst y. rewrite u32_small by lia.
  specialize (IH (x + 1 + Z.of_nat (length (instrs c)) + 1)%Z ltac:(lia) ltac:(lia)). destruct (nir_index_instrs f _) as [bs y]. cbn [fst snd] in *. unfold instr_index in *. cbn [fst snd] in *.
  destruct b as [|b].
  - injection Hblk as ->. etrans; [exact (E2 k Hk)|]. f_equal. cbn. lia.
  - etrans; [exact (IH b blk k Hblk Hk)|]. cbn [take sum_list_with]. f_equal. lia.
Qed.

(** The indices are ordered as the positions are. *)
Definition pos_lt (p q : nat * nat) : Prop := p.1 < q.1 \/ (p.1 = q.1 /\ p.2 < q.2).

Lemma base_mono f b b' blk : f !! b = Some blk -> b < b' -> base (take b f) + (length (instrs blk) + 2) <= base (take b' f).
Proof.
  intros Hb Hlt. unfold base. replace b' with (S b + (b' - S b)) by lia. rewrite <- take_take_drop, sum_list_with_app, (take_S_r _ _ _ Hb), sum_list_with_app. cbn. lia.
Qed.

Definition valid_pos (f : list code_block) (p : nat * nat) : Prop := exists blk, f !! p.1 = Some blk /\ p.2 < length (instrs blk).

Lemma index_order f p q : (Z.of_nat (base f) < 2 ^ 32)%Z -> valid_pos f p -> valid_pos f q ->
  exists x y, instr_index (nir_index_instrs f 0).1 p = Some x /\ instr_index (nir_index_instrs f 0).1 q = Some y /\ ((x < y)%Z <-> pos_lt p q).
Proof.
  intros Hf (blk & Hb & Hk) (blk' & Hb' & Hk'). destruct p as [b k], q as [b' k']. cbn in *.
  rewrite (nir_index_instrs_ok f 0 ltac:(lia) ltac:(lia) b blk k Hb Hk), (nir_index_instrs_ok f 0 ltac:(lia) ltac:(lia) b' blk' k' Hb' Hk').
  eexists _, _. split; [done|]. split; [done|]. unfold pos_lt. cbn. destruct (Nat.lt_trichotomy b b') as [Hlt|[->|Hlt]].
  - pose proof (base_mono f b b' blk Hb Hlt). lia.
  - lia.
  - pose proof (base_mono f b' b blk' Hb' Hlt). lia.
Qed.

(** ** Reads and definitions in a block *)

Lemma defines_app d l k : defines d (l ++ k) <-> defines d l \/ defines d k.
Proof. unfold defines. rewrite map_app. apply elem_of_app. Qed.

Lemma defines_lookup d l : defines d l <-> exists j i, l !! j = Some i /\ instr_def i = Some d.
Proof.
  unfold defines. rewrite list_elem_of_lookup. setoid_rewrite list_lookup_fmap. split.
  - intros [j Hj]. destruct (l !! j) as [i|] eqn:E; [|done]. cbn in Hj. exists j, i. split; [done|congruence].
  - intros (j & i & Hj & Hd). exists j. rewrite Hj. cbn. by rewrite Hd.
Qed.

Lemma reads_cases d l c : reads d l c -> (exists j i, l !! j = Some i /\ d ∈ instr_srcs i /\ ~ defines d (take j l)) \/ (c = Some d /\ ~ defines d l).
Proof.
  induction 1 as [|i l c Hi|i l c Hi _ IH].
  - right. split; [done|]. by intros ?%not_elem_of_nil.
  - left. exists 0, i. split; [done|]. split; [done|]. by intros ?%not_elem_of_nil.
  - destruct IH as [(j & x & Hj & Hx & Hn)|[-> Hn]].
    + left. exists (S j), x. split; [done|]. split; [done|]. cbn. intros [E|E]%elem_of_cons; [by apply Hi|by apply Hn].
    + right. split; [done|]. intros [E|E]%elem_of_cons; [by apply Hi|by apply Hn].
Qed.

Lemma reads_suffix d l l' c : ~ defines d l -> reads d l' c -> reads d (l ++ l') c.
Proof.
  induction l as [|i l IH]; intros Hn Hr; [done|]. cbn. apply reads_later; [intros E; apply Hn; unfold defines; cbn; rewrite E; left|].
  apply IH; [|done]. intros E. apply Hn. by right.
Qed.

Lemma reads_in d l c i : ~ defines d l -> i ∈ l -> d ∈ instr_srcs i -> reads d l c.
Proof.
  intros Hn (l1 & l2 & ->)%list_elem_of_split Hd. apply reads_suffix; [intros E; apply Hn, defines_app; by left|by constructor].
Qed.

Lemma reads_if d l : ~ defines d l -> reads d l (Some d).
Proof. intros Hn. rewrite <- (app_nil_r l). apply reads_suffix; [done|constructor]. Qed.

Section ssa_facts.
Context (f : list code_block) (ssa_alloc : nat) (Hok : code_ok f ssa_alloc) (Hssa : ssa_ok f) (Hg : cfg_ok (cfg f)).
Notation g := (cfg f).

Lemma cfg_edge s blk p : f !! s = Some blk -> p ∈ block_preds blk -> edge g p s.
Proof. intros Hs Hp. exists (block_preds blk). split; [unfold cfg; by rewrite list_lookup_fmap, Hs|done]. Qed.

Lemma block_split b blk : f !! b = Some blk -> exists l, instrs blk = l ++ body blk /\ Forall (fun i => is_phi i = true) l /\ Forall (fun i => is_phi i = false) (body blk).
Proof using Hok.
  intros Hb. destruct (ck_phis _ _ Hok b blk Hb) as (l1 & l2 & E & H1 & H2). exists l1. destruct blk as [l c ps]. cbn [instrs] in E. subst l.
  rewrite (body_split l1 l2 c ps H1 H2). done.
Qed.

(** The number of phis of a block *)
Definition num_phis (blk : code_block) : nat := length (instrs blk) - length (body blk).

Lemma body_lookup b blk k : f !! b = Some blk -> num_phis blk <= k -> body blk !! (k - num_phis blk) = instrs blk !! k.
Proof using Hok.
  intros Hb Hk. destruct (block_split b blk Hb) as (l & E & _). unfold num_phis in *. rewrite E in *. rewrite length_app in *.
  rewrite lookup_app_r by lia. f_equal. lia.
Qed.

Lemma phi_position b blk k i : f !! b = Some blk -> instrs blk !! k = Some i -> is_phi i = bool_decide (k < num_phis blk).
Proof using Hok.
  intros Hb Hi. destruct (block_split b blk Hb) as (l & E & Hl & Hn). unfold num_phis. rewrite E, length_app in *. rewrite Forall_forall in *.
  destruct (decide (k < length l)) as [Hk|Hk].
  - rewrite bool_decide_true by lia. rewrite lookup_app_l in Hi by done. apply Hl. by eapply list_elem_of_lookup_2.
  - rewrite bool_decide_false by lia. rewrite lookup_app_r in Hi by lia. apply Hn. by eapply list_elem_of_lookup_2.
Qed.

Lemma rest_of_ok b blk k : f !! b = Some blk -> rest_of blk k = drop (S k - num_phis blk) (body blk).
Proof using Hok.
  intros Hb. destruct (block_split b blk Hb) as (l & E & Hl & Hn). unfold rest_of, num_phis. rewrite E at 1 2. rewrite length_app, Nat.add_sub.
  rewrite drop_app, filter_app.
  assert (filter (fun i => is_phi i = false) (drop (S k) l) = []) as ->.
  { apply (Forall_drop _ (S k)) in Hl. induction Hl as [|i l' Hi _ IH]; [done|]. rewrite filter_cons, decide_False by congruence. done. }
  apply (Forall_drop _ (S k - length l)) in Hn. cbn. induction Hn as [|i l' Hi _ IH]; [done|]. rewrite filter_cons, decide_True by done. f_equal. done.
Qed.

(** Where the definitions of a block are *)
Lemma defines_drop b blk m d : f !! b = Some blk -> defines d (drop m (body blk)) -> exists k, defined_at f d (b, k) /\ num_phis blk + m <= k.
Proof using Hok.
  intros Hb (j & i & Hj & Hd)%defines_lookup. rewrite lookup_drop in Hj. pose proof (body_lookup b blk (num_phis blk + (m + j)) Hb ltac:(lia)) as E.
  replace (num_phis blk + (m + j) - num_phis blk) with (m + j) in E by lia. exists (num_phis blk + (m + j)). split; [|lia]. exists blk, i. split; [done|]. cbn. split; [congruence|done].
Qed.

Lemma defined_drop b blk m d k : f !! b = Some blk -> defined_at f d (b, k) -> num_phis blk + m <= k -> defines d (drop m (body blk)).
Proof using Hok.
  intros Hb (blk' & i & Hb' & Hi & Hd) Hk. cbn in *. assert (blk' = blk) as -> by congruence. apply defines_lookup. exists (k - num_phis blk - m), i. split; [|done].
  rewrite lookup_drop. rewrite <- Hi, <- (body_lookup b blk k Hb) by lia. f_equal. lia.
Qed.

Lemma phi_defs_ok b blk d : f !! b = Some blk -> d ∈ phi_defs blk <-> exists k, k < num_phis blk /\ defined_at f d (b, k).
Proof using Hok.
  intros Hb. destruct (block_split b blk Hb) as (l & E & Hl & Hn). unfold phi_defs, num_phis, defined_at. cbn.
  assert (Hlead : (leading_phis (instrs blk)).*1 = omap instr_def l).
  { rewrite E. clear E. induction Hl as [|i l Hi _ IH]; cbn.
    - destruct Hn as [|i l' Hi _]; [done|]. by destruct i.
    - destruct i; [|done..]. cbn. by f_equal. }
  rewrite Hlead, E, length_app, Nat.add_sub. rewrite list_elem_of_omap. split.
  - intros (i & [k Hk]%list_elem_of_lookup & Hd). exists k. split; [by eapply lookup_lt_Some|]. exists blk, i. split; [done|]. split; [|done]. rewrite E. by apply lookup_app_l_Some.
  - intros (k & Hk & blk' & i & Hb' & Hi & Hd). assert (blk' = blk) as -> by congruence. exists i. split; [|done]. rewrite E, lookup_app_l in Hi by done. by eapply list_elem_of_lookup_2.
Qed.

(** ** Definitions dominate live ranges *)

(** A value that is read in the rest of a block before it is defined there comes from above. *)
Lemma reads_site b blk m d : f !! b = Some blk -> reads d (drop m (body blk)) (if_condition blk) ->
  exists p, defined_at f d p /\ dominates g p.1 b /\ (p.1 = b -> p.2 < num_phis blk + m).
Proof using Hok Hssa.
  intros Hb Hr. assert (Hfar : forall p j, defined_at f d p -> p.1 = b -> ~ defines d (take j (drop m (body blk))) -> p.2 < num_phis blk + m + j -> p.2 < num_phis blk + m).
  { intros [b' k] j Hp Hpb Hno Hlt. cbn in *. subst b'. destruct (decide (k < num_phis blk + m)) as [|Hge]; [done|]. exfalso. apply Hno, defines_lookup.
    destruct Hp as (blk' & i & Hb' & Hi & Hd). cbn in *. assert (blk' = blk) as -> by congruence. exists (k - num_phis blk - m), i. split; [|done].
    rewrite lookup_take_lt by lia. rewrite lookup_drop, <- Hi, <- (body_lookup b blk k Hb) by lia. f_equal. lia. }
  destruct (reads_cases _ _ _ Hr) as [(j & i & Hj & Hd & Hno)|[Hc Hno]].
  - rewrite lookup_drop in Hj. pose proof (body_lookup b blk (num_phis blk + (m + j)) Hb ltac:(lia)) as E. replace (num_phis blk + (m + j) - num_phis blk) with (m + j) in E by lia. rewrite Hj in E. symmetry in E.
    pose proof (phi_position b blk _ i Hb E) as Hphi. rewrite bool_decide_false in Hphi by lia. destruct (ssa_use f Hssa b blk _ i d Hb E Hphi Hd) as (p & Hp & Hpos). exists p. split; [done|].
    destruct Hpos as [[Hpb Hlt]|[Hpb Hdom]]; cbn in *; [|split; [done|by intros ?]]. split; [rewrite Hpb; apply dominates_refl|]. intros _. apply (Hfar p j Hp Hpb Hno). lia.
  - destruct (ssa_cond f Hssa b blk d Hb Hc) as (p & Hp & Hdom). exists p. split; [done|]. split; [done|]. intros Hpb. destruct Hp as (blk' & i & Hb' & Hi & Hd).
    apply (Hfar p (length (body blk)) ltac:(by exists blk', i) Hpb).
    + by rewrite take_ge by (rewrite length_drop; lia).
    + assert (blk' = blk) as -> by congruence. apply lookup_lt_Some in Hi. unfold num_phis. lia.
Qed.

Lemma site_inside b blk d k : f !! b = Some blk -> defined_at f d (b, k) -> d ∈ phi_defs blk \/ defines d (body blk).
Proof using Hok.
  intros Hb Hd. destruct (decide (k < num_phis blk)); [left; apply (phi_defs_ok b blk d Hb); eauto|right]. by apply (defined_drop b blk 0 d k Hb Hd); lia.
Qed.

Lemma live_out_site b d : live_out f b d -> exists p, defined_at f d p /\ dominates g p.1 b.
Proof using Hok Hssa.
  induction 1 as [p s blk [x srcs] d Hs Hp Hphi Hsrc _|p s blk d Hs Hp Hno Hr _|p s blk d Hs Hp Hno Hnd _ (q & Hq & Hdom)].
  - by destruct (ssa_phi f Hssa s blk x srcs p d Hs (leading_phis_in _ _ _ Hphi) (phi_src_in _ _ _ Hsrc)) as (_ & _ & _ & Hq).
  - destruct (reads_site s blk 0 d Hs Hr) as ([b' k] & Hq & Hdom & Hlt). exists (b', k). split; [done|]. cbn in *. apply (dominates_pred g b' s p Hdom); [|by apply (cfg_edge s blk)].
    intros ->. apply Hno, (phi_defs_ok s blk d Hs). exists k. split; [specialize (Hlt eq_refl); lia|done].
  - exists q. split; [done|]. apply (dominates_pred g q.1 s p Hdom); [|by apply (cfg_edge s blk)]. intros E. destruct q as [b' k]. cbn in E. subst b'.
    destruct (site_inside s blk d k Hs Hq); done.
Qed.

(** Where the definition of a value is that may be read after the instruction at [q] *)
Lemma live_after_site q d : live_after f q d -> exists p blk, defined_at f d p /\ f !! q.1 = Some blk /\ dominates g p.1 q.1 /\ (p.1 = q.1 -> p.2 <= q.2 \/ p.2 < num_phis blk).
Proof using Hok Hssa.
  intros (blk & Hb & _ & blk' & Hb' & Hl). assert (blk' = blk) as -> by congruence. rewrite (rest_of_ok q.1 blk q.2 Hb) in Hl. destruct Hl as [Hr|[Hnd Hl]].
  - destruct (reads_site q.1 blk _ d Hb Hr) as (p & Hp & Hdom & Hlt). exists p, blk. split; [done|]. split; [done|]. split; [done|]. intros E. specialize (Hlt E). lia.
  - destruct (live_out_site q.1 d Hl) as (p & Hp & Hdom). exists p, blk. split; [done|]. split; [done|]. split; [done|]. intros E.
    destruct (decide (p.2 <= q.2)); [by left|]. destruct (decide (p.2 < num_phis blk)); [by right|]. exfalso. apply Hnd. apply (defined_drop q.1 blk _ d p.2 Hb); [rewrite <- E; by destruct p|lia].
Qed.

(** A definition at or before [q] is not in the rest of its block. *)
Lemma no_def_after p q d blk : defined_at f d p -> f !! q.1 = Some blk -> (p.1 = q.1 -> p.2 <= q.2) -> ~ defines d (rest_of blk q.2).
Proof using Hok Hssa.
  intros Hp Hb Hle. rewrite (rest_of_ok q.1 blk q.2 Hb). intros (k & Hk & Hlt)%(defines_drop q.1 blk _ d Hb).
  pose proof (ssa_unique f Hssa d p (q.1, k) Hp Hk) as ->. cbn in *. specialize (Hle eq_refl). lia.
Qed.

(** ** Order *)

Lemma below_path b : reachable g b -> exists π, cfg_path g b π /\ Forall (fun x => x <= b) π.
Proof using Hg.
  induction b as [b IH] using lt_wf_ind. intros Hb. destruct (decide (b = nir_start_block)) as [->|Hne].
  - exists [nir_start_block]. split; [constructor|by repeat constructor].
  - destruct (cfg_order g Hg b Hb Hne) as (p & He & Hlt & Hp). destruct (IH p Hlt Hp) as (π & Hπ & Hle). exists (b :: π). split; [by econstructor|].
    constructor; [done|]. eapply Forall_impl; [exact Hle|]. cbn. lia.
Qed.

Lemma dominates_le a b : reachable g b -> dominates g a b -> a <= b.
Proof using Hg. intros Hb Hd. destruct (below_path b Hb) as (π & Hπ & Hle). rewrite Forall_forall in Hle. by apply Hle, Hd. Qed.

Lemma pos_before_lt p q : reachable g q.1 -> pos_before f p q -> pos_lt p q.
Proof using Hg. intros Hq [[? ?]|[Hne Hd]]; [by right|left]. pose proof (dominates_le _ _ Hq Hd). lia. Qed.

(** ** Live ranges are connected *)

(** [d] may be read when block [b] is entered. *)
Definition entering (b d : nat) : Prop := exists blk, f !! b = Some blk /\ d ∉ phi_defs blk /\ nir_def_is_undef f d = false /\
  (reads d (body blk) (if_condition blk) \/ (~ defines d (body blk) /\ live_out f b d)).

Lemma not_inside d p b blk : defined_at f d p -> f !! b = Some blk -> p.1 <> b -> d ∉ phi_defs blk /\ ~ defines d (body blk).
Proof using Hok Hssa.
  intros Hp Hb Hne. split.
  - intros (k & _ & Hk)%(phi_defs_ok b blk d Hb). by rewrite (ssa_unique f Hssa d p (b, k) Hp Hk) in Hne.
  - intros (k & Hk & _)%(defines_drop b blk 0 d Hb). by rewrite (ssa_unique f Hssa d p (b, k) Hp Hk) in Hne.
Qed.

Lemma entering_pred b d p : entering b d -> edge g p b -> live_out f p d.
Proof.
  intros (blk & Hb & Hno & Hu & Hl) (ps & Hps & Hp). unfold cfg in Hps. rewrite list_lookup_fmap, Hb in Hps. injection Hps as <-.
  destruct Hl as [Hr|[Hnd Hl]]; [by eapply live_read|by eapply live_pass].
Qed.

(** Back along a path that does not meet the definition *)
Lemma walk_back d q x π2 π1 : forall b, defined_at f d q -> cfg_path g b (π1 ++ x :: π2) -> b <> x -> q.1 ∉ π1 -> entering b d -> live_out f x d.
Proof using Hok Hssa Hg.
  induction π1 as [|c π1 IH]; intros b Hq Hπ Hne Hno Hent; [apply path_head in Hπ as [? [= -> _]]; done|].
  cbn in Hπ. inversion Hπ as [E1 E2|p b' π Hp He E1 E2]; [by destruct π1|]. subst b' c π. apply not_elem_of_cons in Hno as [_ Hno].
  pose proof (entering_pred b d p Hent He) as Hl. destruct (decide (p = x)) as [->|Hpx]; [done|]. apply (IH p); [done|done|done|done|].
  assert (Hqp : q.1 <> p).
  { intros E. apply Hno. rewrite E. destruct π1 as [|y π1]; apply path_head in Hp as [? [= -> _]]; [done|left]. }
  destruct (lookup_lt_is_Some_2 f p) as [blk Hb].
  { pose proof (reachable_in_range g p Hg ltac:(by eexists)) as Hlt. unfold cfg in Hlt. by rewrite length_map in Hlt. }
  destruct (not_inside d q p blk Hq Hb Hqp) as [H1 H2]. exists blk. split; [done|]. split; [done|]. split; [by eapply live_out_undef|]. by right.
Qed.

Lemma live_after_entering p r d : defined_at f d p -> p.1 <> r.1 -> live_after f r d -> entering r.1 d.
Proof using Hok Hssa.
  intros Hp Hne (blk & Hb & Hu & blk' & Hb' & Hl). assert (blk' = blk) as -> by congruence. destruct (not_inside d p r.1 blk Hp Hb Hne) as [H1 H2].
  exists blk. split; [done|]. split; [done|]. split; [done|]. destruct Hl as [Hr|[_ Hl]]; [left|by right]. rewrite (rest_of_ok r.1 blk r.2 Hb) in Hr.
  rewrite <- (take_drop (S r.2 - num_phis blk) (body blk)) in H2 |- *. apply reads_suffix; [|done]. intros E. apply H2, defines_app. by left.
Qed.

(** A value that may be read after [r] may be read after every [q] between its definition and [r]. *)
Lemma live_back p q r d : defined_at f d p -> pos_before f p q -> pos_before f q r -> reachable g r.1 -> live_after f r d -> live_after f q d.
Proof using Hok Hssa Hg.
  intros Hp Hpq Hqr Hr Hl. assert (Hq : reachable g q.1).
  { destruct Hqr as [[-> _]|[_ Hd]]; [done|by eapply dominates_reachable]. }
  assert (Hle : p.1 = q.1 -> p.2 <= q.2) by (intros E; destruct Hpq as [[_ ?]|[? _]]; [lia|done]).
  destruct Hqr as [[Eqr Hlt]|[Hne Hdom]].
  - destruct Hl as (blk & Hb & Hu & blk' & Hb' & Hl). assert (blk' = blk) as -> by congruence. rewrite <- Eqr in *. pose proof (no_def_after p q d blk Hp Hb Hle) as Hnd.
    exists blk. split; [done|]. split; [done|]. exists blk. split; [done|]. destruct Hl as [Hrd|[_ Hl]]; [left|by right].
    rewrite (rest_of_ok q.1 blk q.2 Hb) in *. rewrite (rest_of_ok q.1 blk r.2 Hb) in Hrd. replace (S r.2 - num_phis blk) with ((S q.2 - num_phis blk) + (S r.2 - num_phis blk - (S q.2 - num_phis blk))) in Hrd by lia.
    rewrite <- drop_drop in Hrd. set (k := S r.2 - num_phis blk - (S q.2 - num_phis blk)) in *. rewrite <- (take_drop k (drop (S q.2 - num_phis blk) (body blk))) in Hnd |- *.
    apply reads_suffix; [|done]. intros E. apply Hnd, defines_app. by left.
  - assert (Hpr : p.1 <> r.1).
    { intros E. destruct Hpq as [[E' _]|[_ Hd]]; [congruence|]. rewrite E in Hd. pose proof (dominates_le _ _ Hq Hd). pose proof (dominates_le _ _ Hr Hdom). lia. }
    pose proof (live_after_entering p r d Hp Hpr Hl) as Hent. destruct Hr as [π0 Hπ0]. destruct (simple_path g r.1 π0 Hπ0) as (π & Hπ & Hnd & _).
    destruct (path_prefix g r.1 π q.1 Hπ (Hdom π Hπ)) as (π1 & π2 & -> & Hπ2). destruct (path_head g q.1 π2 Hπ2) as [π2' ->].
    apply NoDup_app in Hnd as (_ & Hdisj & _). assert (Hno : p.1 ∉ π1).
    { intros Hin. apply (Hdisj p.1 Hin). destruct Hpq as [[-> _]|[_ Hd]]; [left|by apply Hd]. }
    pose proof (walk_back d p q.1 π2' π1 r.1 Hp Hπ ltac:(done) Hno Hent) as Hlo.
    destruct (lookup_lt_is_Some_2 f q.1) as [blk Hb]. { pose proof (reachable_in_range g q.1 Hg Hq) as Hlt. unfold cfg in Hlt. by rewrite length_map in Hlt. }
    exists blk. split; [done|]. split; [by eapply live_out_undef|]. exists blk. split; [done|]. right. split; [|done]. by apply (no_def_after p q).
Qed.

(** ** The queries are exact *)

Context (st : live_defs_state).
Context (Hst : forall b, b < length f -> exists li lo : gset nat, ls_in st !! b = Some li /\ ls_out st !! b = Some lo /\
  (forall d, d ∈ lo <-> live_out f b d) /\ (forall d, d ∈ li <-> live_in f b d)).

Lemma reachable_block b : reachable g b -> exists blk, f !! b = Some blk.
Proof using Hg. intros Hb. apply lookup_lt_is_Some_2. pose proof (reachable_in_range g b Hg Hb) as Hlt. unfold cfg in Hlt. by rewrite length_map in Hlt. Qed.

Lemma before_of_lt p q : pos_lt p q -> dominates g p.1 q.1 -> pos_before f p q.
Proof. intros [Hlt|[E Hlt]] Hd; [right|by left]. split; [lia|done]. Qed.

(** A value of block [b] that a phi of [b] reads is live at the end of [b]. *)
Lemma phi_read_live_out b blk x y srcs pp k : f !! b = Some blk -> defined_at f x (b, k) -> nir_def_is_undef f x = false ->
  PhiInstr y srcs ∈ instrs blk -> (pp, x) ∈ srcs -> live_out f b x.
Proof using Hok Hssa Hg.
  intros Hb Hx Hu Hin Hsrc. destruct (ssa_phi f Hssa b blk y srcs pp x Hb Hin Hsrc) as (Hpp & Hr & Hs & q & Hq & Hdom).
  rewrite <- (ssa_unique f Hssa x (b, k) q Hx Hq) in Hdom. cbn in Hdom.
  assert (Hl : live_out f pp x).
  { apply (live_phi f pp b blk (y, srcs) x); try done. destruct (block_split b blk Hb) as (l & E & Hl & Hn). rewrite E in *. apply elem_of_app in Hin as [Hin|Hin].
    - clear - Hin Hl. induction Hl as [|i l Hi _ IH]; [by apply not_elem_of_nil in Hin|]. destruct i; [|done..]. cbn. apply elem_of_cons in Hin as [[= -> ->]|Hin]; [left|right; by apply IH].
    - rewrite Forall_forall in Hn. by specialize (Hn _ Hin). }
  destruct (decide (pp = b)) as [->|Hne]; [done|]. destruct Hr as [π0 Hπ0]. destruct (simple_path g pp π0 Hπ0) as (π & Hπ & Hnd & _).
  destruct (path_prefix g pp π b Hπ (Hdom π Hπ)) as (π1 & π2 & -> & Hπ2). destruct (path_head g b π2 Hπ2) as [π2' ->].
  apply NoDup_app in Hnd as (_ & Hdisj & _). apply (walk_back x (b, k) b π2' π1 pp Hx Hπ Hne); [cbn; intros Hin'; apply (Hdisj b Hin'); left|].
  destruct (reachable_block pp ltac:(by eexists)) as [bp Hbp]. destruct (not_inside x (b, k) pp bp Hx Hbp ltac:(cbn; congruence)) as [H1 H2].
  exists bp. split; [done|]. split; [done|]. split; [done|]. by right.
Qed.

(** What the search finds is a read, and the other way round. *)
Lemma search_ok p q x blk : defined_at f x p -> f !! q.1 = Some blk -> nir_def_is_undef f x = false -> pos_lt p q -> ~ live_out f q.1 x -> live_in f q.1 x \/ p.1 = q.1 ->
  exists r, search_for_use_after_instr f q x = Some r /\ (r = true <-> live_after f q x).
Proof using Hok Hssa Hg.
  intros Hp Hb Hu Hlt Hno Hwhere. unfold search_for_use_after_instr. rewrite Hb. cbn [mbind option_bind]. eexists. split; [done|].
  assert (Hnd : ~ defines x (rest_of blk q.2)) by (apply (no_def_after p q x blk Hp Hb); intros E; destruct Hlt as [?|[_ ?]]; lia).
  assert (Hrd : reads x (rest_of blk q.2) (if_condition blk) -> live_after f q x) by (intros Hr; exists blk; split; [done|]; split; [done|]; exists blk; auto).
  rewrite orb_true_iff, existsb_exists, bool_decide_eq_true. split.
  - intros [(i & Hi & Hx%bool_decide_eq_true)|Hc]; [|apply Hrd; rewrite Hc; by apply reads_if]. apply list_elem_of_In in Hi. destruct (is_phi i) eqn:Hphi.
    + apply list_elem_of_lookup in Hi as [j Hj]. rewrite lookup_drop in Hj. pose proof (phi_position q.1 blk _ i Hb Hj) as Hpos. rewrite Hphi in Hpos. symmetry in Hpos. apply bool_decide_eq_true in Hpos.
      destruct Hwhere as [(blk' & Hb' & Hu' & blk2 & Hb2 & Hl)|E].
      * assert (blk' = blk) as -> by congruence. assert (blk2 = blk) as -> by congruence. exists blk. split; [done|]. split; [done|]. exists blk. split; [done|].
        rewrite (rest_of_ok q.1 blk q.2 Hb). by replace (S q.2 - num_phis blk) with 0 by lia.
      * exfalso. apply Hno. destruct i as [y srcs| |]; [|done..]. cbn in Hx. apply list_elem_of_fmap in Hx as ([pp x'] & -> & Hsrc). cbn in *. apply list_elem_of_lookup_2 in Hj.
        apply (phi_read_live_out q.1 blk x' y srcs pp p.2); try done. rewrite <- E. by destruct p.
    + apply Hrd, (reads_in x _ _ i Hnd); [|done]. apply list_elem_of_filter. done.
  - intros (blk' & Hb' & _ & blk2 & Hb2 & Hl). assert (blk' = blk) as -> by congruence. assert (blk2 = blk) as -> by congruence. destruct Hl as [Hr|[_ Hl]]; [|done].
    destruct (reads_cases _ _ _ Hr) as [(j & i & Hj & Hx & _)|[Hc _]]; [left|by right]. exists i. split; [|by apply bool_decide_eq_true].
    apply list_elem_of_In. apply list_elem_of_lookup_2 in Hj. by apply list_elem_of_filter in Hj as [_ ?].
Qed.

Lemma nir_def_is_live_at_ok p q x : defined_at f x p -> nir_def_is_undef f x = false -> pos_lt p q -> reachable g q.1 ->
  exists r, nir_def_is_live_at f st x q = Some r /\ (r = true <-> pos_before f p q /\ live_after f q x).
Proof using Hok Hssa Hg Hst.
  intros Hp Hu Hlt Hq. destruct (reachable_block q.1 Hq) as [blk Hb]. destruct (Hst q.1 (lookup_lt_Some _ _ _ Hb)) as (li & lo & Eli & Elo & Hlo & Hli).
  unfold nir_def_is_live_at. rewrite Elo. cbn [mbind option_bind]. destruct (decide (x ∈ lo)) as [Hin|Hout].
  { apply (proj1 (Hlo x)) in Hin. exists true. split; [done|]. split; [intros _|done]. destruct (live_out_site q.1 x Hin) as (p' & Hp' & Hdom). rewrite <- (ssa_unique f Hssa x p p' Hp Hp') in Hdom.
    split; [by apply before_of_lt|]. exists blk. split; [done|]. split; [done|]. exists blk. split; [done|]. right. split; [|done].
    apply (no_def_after p q x blk Hp Hb). intros E. destruct Hlt as [?|[_ ?]]; lia. }
  rewrite Hlo in Hout. rewrite Eli, (nir_def_instr_ok f x p Hssa Hp). cbn [mbind option_bind]. destruct (decide (x ∈ li \/ p.1 = q.1)) as [Hw|Hw].
  - rewrite Hli in Hw. destruct (search_ok p q x blk Hp Hb Hu Hlt Hout Hw) as (r & E & Hr). exists r. split; [done|]. rewrite Hr. split; [|tauto]. intros Hl. split; [|done].
    apply (before_of_lt p q Hlt). destruct (live_after_site q x Hl) as (p' & _ & Hp' & _ & Hdom & _). by rewrite (ssa_unique f Hssa x p p' Hp Hp').
  - exists false. split; [done|]. split; [done|]. intros [_ Hl]. exfalso. apply Hw. left. apply Hli. assert (Hne : p.1 <> q.1) by tauto.
    destruct (live_after_entering p q x Hp Hne Hl) as (blk' & Hb' & _ & _ & Hr). assert (blk' = blk) as -> by congruence.
    exists blk. split; [done|]. split; [done|]. exists blk. auto.
Qed.

Lemma undef_site x p blk i : defined_at f x p -> f !! p.1 = Some blk -> instrs blk !! p.2 = Some i -> nir_def_is_undef f x = match i with UndefInstr _ => true | _ => false end.
Proof using Hssa.
  intros Hp Hb Hi. apply eq_true_iff_eq. unfold nir_def_is_undef. rewrite existsb_exists. setoid_rewrite existsb_exists. split.
  - intros (b & Hbin & j & Hj & Hx). apply list_elem_of_In, list_elem_of_lookup in Hbin as [c Hc], Hj as [k Hk]. destruct j as [|y|]; [done| |done]. apply Nat.eqb_eq in Hx as ->.
    pose proof (ssa_unique f Hssa x p (c, k) Hp ltac:(by exists b, (UndefInstr x))) as ->. cbn in *. assert (b = blk) as -> by congruence. by assert (i = UndefInstr x) as -> by congruence.
  - destruct i as [|y|]; [done| |done]. intros _. exists blk. split; [apply list_elem_of_In; by eapply list_elem_of_lookup_2|]. exists (UndefInstr y). split; [apply list_elem_of_In; by eapply list_elem_of_lookup_2|].
    destruct Hp as (blk' & i & Hb' & Hi' & Hd). assert (blk' = blk) as -> by congruence. assert (i = UndefInstr y) as -> by congruence. cbn in Hd. injection Hd as ->. apply Nat.eqb_refl.
Qed.

Lemma valid_site x p : defined_at f x p -> valid_pos f p.
Proof. intros (blk & i & Hb & Hi & _). exists blk. split; [done|]. by eapply lookup_lt_Some. Qed.

Lemma site_injective a b p : defined_at f a p -> defined_at f b p -> a = b.
Proof. intros (blk & i & Hb & Hi & Ha) (blk' & i' & Hb' & Hi' & Hb2). assert (blk' = blk) as -> by congruence. assert (i' = i) as -> by congruence. congruence. Qed.

Lemma pos_lt_total p q : p <> q -> pos_lt p q \/ pos_lt q p.
Proof. unfold pos_lt. destruct p as [b k], q as [c j]. cbn. intros Hne. destruct (Nat.lt_trichotomy b c) as [|[->|]]; [lia| |lia]. assert (k <> j) by congruence. lia. Qed.

Lemma pos_lt_asym p q : pos_lt p q -> pos_lt q p -> False.
Proof. unfold pos_lt. lia. Qed.

(** With the earlier definition first, only one direction is possible. *)
Lemma interferes_ordered a b p q : defined_at f a p -> defined_at f b q -> reachable g p.1 -> pos_lt p q -> interferes f a b <-> pos_before f p q /\ live_after f q a.
Proof using Hssa Hg.
  intros Ha Hb Hp Hlt. split; [|intros H; exists p, q; auto]. intros (p' & q' & Ha' & Hb' & H). rewrite (ssa_unique f Hssa a p' p Ha' Ha), (ssa_unique f Hssa b q' q Hb' Hb) in H.
  destruct H as [H|[Hqp _]]; [done|]. exfalso. apply (pos_lt_asym p q Hlt). by apply pos_before_lt.
Qed.

Lemma interferes_sym a b : interferes f a b <-> interferes f b a.
Proof. split; intros (p & q & Hp & Hq & H); exists q, p; tauto. Qed.

Lemma nir_defs_interfere_ok a b p q : (Z.of_nat (base f) < 2 ^ 32)%Z -> a <> b -> defined_at f a p -> defined_at f b q -> reachable g p.1 -> reachable g q.1 ->
  exists r, nir_defs_interfere f st (nir_index_instrs f 0).1 a b = Some r /\
    (r = true <-> nir_def_is_undef f a = false /\ nir_def_is_undef f b = false /\ interferes f a b).
Proof using Hok Hssa Hg Hst.
  intros Hsize Hab Ha Hb Hp Hq. unfold nir_defs_interfere. rewrite (nir_def_instr_ok f a p Hssa Ha), (nir_def_instr_ok f b q Hssa Hb). cbn [mbind option_bind].
  assert (Hpq : p <> q) by (intros ->; by apply Hab, (site_injective a b q)). rewrite decide_False by done.
  pose proof Ha as (blk & i & Hblk & Hi & _). pose proof Hb as (blk' & i' & Hblk' & Hi' & _). unfold is_undef_instr. rewrite Hblk. cbn [mbind option_bind]. rewrite Hi. cbn [mbind option_bind].
  rewrite Hblk'. cbn [mbind option_bind]. rewrite Hi'. cbn [mbind option_bind]. rewrite <- (undef_site a p blk i Ha Hblk Hi), <- (undef_site b q blk' i' Hb Hblk' Hi').
  destruct (nir_def_is_undef f a) eqn:Ua; [exists false; split; [done|]; naive_solver|]. destruct (nir_def_is_undef f b) eqn:Ub; [exists false; split; [done|]; naive_solver|]. cbn [orb].
  destruct (index_order f p q Hsize (valid_site a p Ha) (valid_site b q Hb)) as (x & y & Ex & Ey & Hxy). rewrite Ex, Ey. cbn [mbind option_bind].
  destruct (Z.ltb_spec x y) as [Hlt|Hge].
  - apply Hxy in Hlt. destruct (nir_def_is_live_at_ok p q a Ha Ua Hlt Hq) as (r & E & Hr). exists r. split; [done|]. rewrite Hr, (interferes_ordered a b p q) by done. tauto.
  - assert (Hlt : pos_lt q p) by (destruct (pos_lt_total p q Hpq) as [H|?]; [apply Hxy in H; lia|done]).
    destruct (nir_def_is_live_at_ok q p b Hb Ub Hlt Hp) as (r & E & Hr). exists r. split; [done|]. rewrite Hr, interferes_sym, (interferes_ordered b a q p) by done. tauto.
Qed.
End ssa_facts.

(** C10: nir_defs_interfere.  For a function in SSA form, after liveness has been analysed and the instructions indexed, the query succeeds for any two values defined in blocks that can be
    reached, and is true exactly if neither is undefined and the one whose definition dominates that of the other may still be read, on some path, after it. *)
Theorem nir_defs_interfere_correct f ssa_alloc ins outs : code_ok f ssa_alloc -> ssa_ok f -> cfg_ok (cfg f) -> (Z.of_nat (base f) < 2 ^ 32)%Z -> length ins = length f -> length outs = length f ->
  exists st, nir_live_defs_impl f ssa_alloc ins outs = Some st /\
  forall a b p q, a <> b -> defined_at f a p -> defined_at f b q -> reachable (cfg f) p.1 -> reachable (cfg f) q.1 ->
  exists r, nir_defs_interfere f st (nir_index_instrs f 0).1 a b = Some r /\
    (r = true <-> nir_def_is_undef f a = false /\ nir_def_is_undef f b = false /\ interferes f a b).
Proof.
  intros Hok Hssa Hg Hsize Hi Ho. destruct (nir_live_defs_impl_spec f ssa_alloc ins outs Hok Hi Ho) as (st & E & Hst). exists st. split; [done|].
  intros a b p q Hab Ha Hb Hp Hq. by apply (nir_defs_interfere_ok f ssa_alloc Hok Hssa Hg st Hst a b p q).
Qed.

(** ** The example *)

Lemma loop_edge p b : bool_decide (p ∈ default [] (cfg loop_code !! b)) = true -> edge (cfg loop_code) p b.
Proof. intros H%bool_decide_eq_true. destruct (cfg loop_code !! b) as [ps|] eqn:E; [by exists ps|by apply not_elem_of_nil in H]. Qed.

Lemma loop_reachable b : b < 4 -> reachable (cfg loop_code) b.
Proof.
  assert (H1 : reachable (cfg loop_code) 1) by (apply (reachable_step _ 0); [apply reachable_start|by apply loop_edge]).
  intros Hb. destruct b as [|[|[|[|b]]]]; [apply reachable_start|done|by apply (reachable_step _ 1); [|apply loop_edge]..|lia].
Qed.

Lemma loop_cfg_ok : cfg_ok (cfg loop_code).
Proof.
  split.
  - cbn. lia.
  - reflexivity.
  - intros p b (ps & Hps & Hp). cbn. destruct b as [|[|[|[|b]]]]; [injection Hps as <-; list_cases; lia..|done].
  - intros b [π Hπ] Hb. assert (Hb4 : b < 4). { destruct Hπ as [|p b π _ (ps & Hps & _)]; [lia|]. by apply lookup_lt_Some in Hps. }
    unfold nir_start_block in *. destruct b as [|[|[|[|b]]]]; [done|exists 0|exists 1|exists 1|lia]; (split; [by apply loop_edge|]; split; [lia|]; apply loop_reachable; lia).
  - vm_compute. done.
Qed.

Lemma loop_dominates b : 1 <= b -> dominates (cfg loop_code) 1 b.
Proof.
  intros Hb. assert (H : forall b, b = 2 \/ b = 3 -> dominates (cfg loop_code) 1 b).
  { intros c Hc. apply dominates_preds; [unfold nir_start_block; lia|]. intros p (ps & Hps & Hp) _. destruct Hc as [->| ->]; injection Hps as <-; list_cases; apply dominates_refl. }
  destruct b as [|[|[|[|b]]]]; [lia|apply dominates_refl|by apply H; left|by apply H; right|]. intros π Hπ. inversion Hπ as [|p b' π' _ (ps & Hps & _)]; subst. by destruct b.
Qed.

Definition loop_site (d : nat) : nat * nat := default (9, 9) (([(0, 0); (0, 1); (1, 0); (1, 1); (2, 0); (2, 1); (1, 2)] : list (nat * nat)) !! d).

Lemma loop_sites d p : defined_at loop_code d p -> p = loop_site d.
Proof.
  destruct p as [b k]. intros (blk & i & Hb & Hi & Hd). cbn in *. loop_blocks Hb; cbn in Hi; (do 3 (destruct k as [|k]; [injection Hi as <- || done; cbn in Hd; try discriminate; injection Hd as <-; reflexivity|])); by destruct k.
Qed.

Lemma loop_defined d : d < 7 -> defined_at loop_code d (loop_site d).
Proof. intros Hd. destruct d as [|[|[|[|[|[|[|d]]]]]]]; [eexists _, _; done..|lia]. Qed.

Ltac loop_def d := exists (loop_site d); split; [apply loop_defined; lia|].

Lemma loop_ssa_ok : ssa_ok loop_code.
Proof.
  split.
  - intros d p q Hp%loop_sites Hq%loop_sites. congruence.
  - intros b blk k i d Hb Hi Hphi Hd. loop_blocks Hb; destruct k as [|[|[|k]]]; cbn in Hi; try discriminate; injection Hi as <-; cbn in Hphi, Hd; try discriminate; list_cases;
      match goal with |- exists p, defined_at _ ?d _ /\ _ => loop_def d end; first [left; cbn; lia|right; cbn; split; [lia|apply loop_dominates; lia]].
  - intros b blk d Hb Hd. loop_blocks Hb; cbn in Hd; try discriminate. injection Hd as <-. loop_def 6. apply dominates_refl.
  - intros b blk x srcs p d Hb Hx Hp. loop_blocks Hb; cbn in Hx; list_cases; try discriminate; (split; [apply (bool_decide_unpack _); done|split; [apply loop_reachable; lia|split; [reflexivity|]]]).
    + loop_def 1. apply dominates_refl.
    + loop_def 5. apply dominates_refl.
Qed.

Example loop_interfere : (fun st => (nir_defs_interfere loop_code st (nir_index_instrs loop_code 0).1 3 6, nir_defs_interfere loop_code st (nir_index_instrs loop_code 0).1 3 5))
  <$> nir_live_defs_impl loop_code 7 (replicate 4 ∅) (replicate 4 ∅) = Some (Some true, Some false).
Proof. vm_compute. reflexivity. Qed.

Lemma nir_defs_interfere_correct_witness : exists st r, nir_live_defs_impl loop_code 7 (replicate 4 ∅) (replicate 4 ∅) = Some st /\
  nir_defs_interfere loop_code st (nir_index_instrs loop_code 0).1 3 4 = Some r /\ (r = true <-> nir_def_is_undef loop_code 3 = false /\ nir_def_is_undef loop_code 4 = false /\ interferes loop_code 3 4).
Proof.
  destruct (nir_defs_interfere_correct loop_code 7 (replicate 4 ∅) (replicate 4 ∅) loop_code_ok loop_ssa_ok loop_cfg_ok ltac:(vm_compute; done) eq_refl eq_refl) as (st & E & H).
  destruct (H 3 4 (1, 1) (2, 0) ltac:(done) (loop_defined 3 ltac:(lia)) (loop_defined 4 ltac:(lia)) (loop_reachable 1 ltac:(lia)) (loop_reachable 2 ltac:(lia))) as (r & Er & Hr).
  exists st, r. split; [exact E|]. split; [exact Er|exact Hr].
Defined.
