(* ===== verification/NirMergeSets.v ===== *)
(** * Coalescing when a function leaves SSA form (src/compiler/nir/nir_from_ssa.c)

    A merge set is a set of values that can share a register, because no two of them interfere.  Its nodes are
    kept in the order of a walk of the dominance tree, so that two sets can be compared and
    merged in one walk.  A merge node is named by its value; the table of nodes gives the set of each
    value, and sets are numbered in the order of their creation.

    The walks are proved correct against an interface, [DomOrder]: an order, dominance and interference
    that fit together.  NirCoalesce.v shows that the functions they call are an instance. *)

From Stdlib Require Import ZArith Lia.
From stdpp Require Import base list gmap numbers option sorting relations.
From S2P Require Import Prelude Rmq NirDominance NirLiveness NirInterfere.
Local Open Scope nat_scope.

(** ** Data *)

Record merge_set := MergeSet { ms_nodes : list nat; ms_size : Z; ms_divergent : bool }.

(** Of [from_ssa_state]: the table of nodes, with the set of each, and the sets *)
Record from_ssa_state := FromSsa { merge_node_table : gmap nat nat; merge_sets : list merge_set }.

(** A copy of a parallel copy: its source, whether that is a constant, and its destination.  At this stage copies are not of registers, and have the number of components of their sources. *)
Record ssa_copy := SsaCopy { copy_src : nat; src_is_const : bool; copy_def : nat }.

Section from_ssa.
Context (f : list code_block) (st : live_defs_state) (bips : list block_ips) (impl : nir_function_impl).
Context (consider_divergence : bool) (def_divergent : nat -> bool).

Definition def_after (a b : nat) : option bool :=
  if nir_def_is_undef f a then Some false else
  if nir_def_is_undef f b then Some true else
  pa ← nir_def_instr f a;
  pb ← nir_def_instr f b;
  if decide (pa.1 = pb.1) then
    ia ← instr_index bips pa; ib ← instr_index bips pb; Some (ia >? ib)%Z
  else
    ba ← blocks impl !! pa.1; bb ← blocks impl !! pb.1; Some (dom_pre_index ba >? dom_pre_index bb)%Z.

Definition ssa_def_dominates (a b : nat) : option bool :=
  if nir_def_is_undef f a then Some true else
  x ← def_after a b;
  if x : bool then Some false else
  pa ← nir_def_instr f a;
  pb ← nir_def_instr f b;
  if decide (pa.1 = pb.1) then def_after b a else nir_block_dominates impl pa.1 pb.1.

(** The node of a value, which may be new *)
Definition get_merge_node (d : nat) (s : from_ssa_state) : from_ssa_state :=
  match merge_node_table s !! d with
  | Some _ => s
  | None => FromSsa (<[d := length (merge_sets s)]> (merge_node_table s))
              (merge_sets s ++ [MergeSet [d] 1 (consider_divergence && def_divergent d)])
  end.

Definition merge_nodes_interfere (s : from_ssa_state) (a b : nat) : option bool :=
  sa ← merge_node_table s !! a;
  sb ← merge_node_table s !! b;
  if decide (sa = sb) then Some false else nir_defs_interfere f st bips a b.

(** The loop of [merge_merge_sets] on the nodes from [an] and [bn] on *)
Fixpoint merge_nodes (fuel : nat) (an bn : list nat) : option (list nat) :=
  match fuel, bn with
  | O, _ => None
  | S _, [] => Some an
  | S fuel, b :: bn' =>
      match an with
      | [] => r ← merge_nodes fuel [] bn'; Some (b :: r)
      | a :: an' =>
          x ← def_after a b;
          if x : bool then r ← merge_nodes fuel an bn'; Some (b :: r) else r ← merge_nodes fuel an' bn; Some (a :: r)
      end
  end.

Definition merge_merge_sets (a b : nat) (s : from_ssa_state) : option from_ssa_state :=
  sa ← merge_sets s !! a;
  sb ← merge_sets s !! b;
  nodes ← merge_nodes (S (length (ms_nodes sa) + length (ms_nodes sb))) (ms_nodes sa) (ms_nodes sb);
  Some (FromSsa (foldl (fun t d => <[d := a]> t) (merge_node_table s) (ms_nodes sb))
    (<[b := MergeSet [] 0 (ms_divergent sb)]> (<[a := MergeSet nodes (u32 (ms_size sa + ms_size sb)) (ms_divergent sa || ms_divergent sb)]> (merge_sets s)))).

(** The next node of the walk over both sets, and what is left *)
Definition next_node (an bn : list nat) : option (nat * list nat * list nat) :=
  match an, bn with
  | [], [] => None
  | [], b :: bn => Some (b, [], bn)
  | a :: an, [] => Some (a, an, [])
  | a :: an', b :: bn' => x ← def_after b a; if x : bool then Some (a, an', bn) else Some (b, an, bn')
  end.

(** [while (dom_idx >= 0 && !ssa_def_dominates(dom[dom_idx]->def, current->def)) dom_idx--] *)
Fixpoint pop_dom (fuel : nat) (dom : list (option nat)) (dom_idx : Z) (current : nat) : option Z :=
  match fuel with
  | O => None
  | S fuel =>
      if (dom_idx <? 0)%Z then Some dom_idx else
      d ← load dom dom_idx;
      x ← ssa_def_dominates d current;
      if x : bool then Some dom_idx else pop_dom fuel dom (dom_idx - 1) current
  end.

(** One node of the walk: interference ([None]), or the stack with the node *)
Definition visit_node (s : from_ssa_state) (dom : list (option nat)) (dom_idx : Z) (current : nat) : option (option (list (option nat) * Z)) :=
  dom_idx ← pop_dom (S (length dom)) dom dom_idx current;
  r ← (if (0 <=? dom_idx)%Z then d ← load dom dom_idx; merge_nodes_interfere s current d else Some false);
  if r : bool then Some None else
  dom ← store dom (dom_idx + 1) current;
  Some (Some (dom, dom_idx + 1)%Z).

Fixpoint interfere_loop (fuel : nat) (s : from_ssa_state) (an bn : list nat) (dom : list (option nat)) (dom_idx : Z) : option bool :=
  match fuel with
  | O => None
  | S fuel =>
      match an, bn with
      | [], [] => Some false
      | _, _ =>
          '(current, an, bn) ← next_node an bn;
          r ← visit_node s dom dom_idx current;
          match r with None => Some true | Some (dom, dom_idx) => interfere_loop fuel s an bn dom dom_idx end
      end
  end.

Definition merge_sets_interfere (a b : nat) (s : from_ssa_state) : option bool :=
  sa ← merge_sets s !! a;
  sb ← merge_sets s !! b;
  interfere_loop (S (length (ms_nodes sa) + length (ms_nodes sb))) s (ms_nodes sa) (ms_nodes sb)
    (replicate (Z.to_nat (u32 (ms_size sa + ms_size sb))) None) (-1).

(** One copy of [aggressive_coalesce_parallel_copy], and the loop *)
Definition coalesce_copy (c : ssa_copy) (s : from_ssa_state) : option from_ssa_state :=
  if src_is_const c then Some s else
  let s := get_merge_node (copy_src c) s in
  let s := get_merge_node (copy_def c) s in
  src ← merge_node_table s !! copy_src c;
  dest ← merge_node_table s !! copy_def c;
  if decide (src = dest) then Some s else
  ss ← merge_sets s !! src;
  sd ← merge_sets s !! dest;
  if negb (eqb (ms_divergent sd) (ms_divergent ss)) then Some s else
  x ← merge_sets_interfere src dest s;
  if x : bool then Some s else merge_merge_sets src dest s.

Definition aggressive_coalesce_parallel_copy (pcopy : list ssa_copy) (s : from_ssa_state) : option from_ssa_state :=
  for_each coalesce_copy pcopy s.

(** [nir_foreach_phi_src] and [nir_foreach_phi] of [coalesce_phi_nodes_block] *)
Definition coalesce_phi_src (def : nat) (src : nat) (s : from_ssa_state) : option from_ssa_state :=
  if nir_def_is_undef f src then Some s else
  let s := get_merge_node src s in
  ss ← merge_node_table s !! src;
  sd ← merge_node_table s !! def;
  if decide (ss = sd) then Some s else merge_merge_sets sd ss s.

Definition coalesce_phi_nodes_block (blk : code_block) (s : from_ssa_state) : option from_ssa_state :=
  for_each (fun phi s => for_each (coalesce_phi_src phi.1) (phi.2).*2 (get_merge_node phi.1 s)) (leading_phis (instrs blk)) s.

Definition aggressive_coalesce_block (copies : list ssa_copy * list ssa_copy) (s : from_ssa_state) : option from_ssa_state :=
  s ← aggressive_coalesce_parallel_copy copies.1 s;
  aggressive_coalesce_parallel_copy copies.2 s.

(** The loops of [nir_convert_from_ssa_impl] that coalesce; [copies] are the parallel copies at the start and at the end of each block. *)
Definition coalesce_impl (copies : list (list ssa_copy * list ssa_copy)) : option from_ssa_state :=
  s ← for_each coalesce_phi_nodes_block f (FromSsa ∅ []);
  for_each aggressive_coalesce_block copies s.
End from_ssa.

(** ** The interface of the walks *)

(** [good] are the values that can be in sets; [lt] is the order of the nodes; [dom] and [itf] are dominance and interference.  A
    value that interferes with a later one dominates it, and what interferes with a value interferes with those between that it dominates. *)
Class DomOrder (good : nat -> Prop) (lt dom itf : nat -> nat -> Prop) (after dominates interfere : nat -> nat -> option bool) : Prop := {
  do_after a b : good a -> good b -> a <> b -> exists r, after a b = Some r /\ (r = true <-> lt b a);
  do_dominates a b : good a -> good b -> lt a b -> exists r, dominates a b = Some r /\ (r = true <-> dom a b);
  do_interfere a b : good a -> good b -> a <> b -> exists r, interfere a b = Some r /\ (r = true <-> itf a b);
  do_irrefl a : good a -> ~ lt a a;
  do_trans a b c : good a -> good b -> good c -> lt a b -> lt b c -> lt a c;
  do_total a b : good a -> good b -> a <> b -> lt a b \/ lt b a;
  do_sym a b : itf a b -> itf b a;
  do_dom_trans a b c : good a -> good b -> good c -> dom a b -> dom b c -> dom a c;
  do_between a b c : good a -> good b -> good c -> lt a b -> lt b c -> dom a c -> dom a b;
  do_itf_dom a b : good a -> good b -> lt a b -> itf a b -> dom a b;
  do_itf_between a b c : good a -> good b -> good c -> lt a b -> lt b c -> dom a b -> dom b c -> itf a c -> itf a b }.

Section walks.
Context (f : list code_block) (st : live_defs_state) (bips : list block_ips) (impl : nir_function_impl).
Context (good : nat -> Prop) (lt dom itf : nat -> nat -> Prop).
Context {DO : DomOrder good lt dom itf (def_after f bips impl) (ssa_def_dominates f bips impl) (nir_defs_interfere f st bips)}.

Notation sorted := (StronglySorted lt).

Lemma sorted_disjoint_lt x y l : good x -> good y -> Forall (lt y) l -> Forall good l -> lt x y -> Forall (lt x) l.
Proof using DO. rewrite !Forall_forall. intros Hx Hy Hl Hgl Hxy z Hz. eapply (do_trans x y z); auto. Qed.

Lemma next_node_ok an bn : sorted an -> sorted bn -> Forall good an -> Forall good bn -> an ## bn -> an ++ bn <> [] ->
  exists z an' bn', next_node f bips impl an bn = Some (z, an', bn') /\ (an = z :: an' /\ bn = bn' \/ bn = z :: bn' /\ an = an') /\ Forall (lt z) (an' ++ bn').
Proof using DO.
  intros Sa Sb Ga Gb Hd Hne. unfold next_node. destruct an as [|a an], bn as [|b bn]; [done|..].
  - exists b, [], bn. split; [done|]. split; [by right|]. cbn. by inversion Sb.
  - exists a, an, []. split; [done|]. split; [by left|]. rewrite app_nil_r. by inversion Sa.
  - apply Forall_cons in Ga as [Ga1 Ga2], Gb as [Gb1 Gb2]. inversion Sa as [|? ? Sa1 Sa2]; subst. inversion Sb as [|? ? Sb1 Sb2]; subst.
    assert (Hab : b <> a) by (intros ->; apply (Hd a); left).
    destruct (do_after b a Gb1 Ga1 Hab) as (r & -> & Hr). cbn [mbind option_bind]. destruct r.
    + exists a, an, (b :: bn). split; [done|]. split; [by left|]. apply Forall_app. split; [done|]. constructor; [by apply Hr|]. apply (sorted_disjoint_lt a b); auto. by apply Hr.
    + assert (Hba : lt b a). { destruct (do_total b a Gb1 Ga1 Hab) as [?|H]; [done|]. by apply Hr in H. }
      exists b, (a :: an), bn. split; [done|]. split; [by right|]. apply Forall_app. split; [|done]. constructor; [done|]. by apply (sorted_disjoint_lt b a).
Qed.

(** The stack of dominating nodes, from the bottom; each dominates those above it. *)
Definition chain (l : list nat) : Prop := StronglySorted (fun x y => lt x y /\ dom x y) l.

Definition holds_stack (cells : list (option nat)) (l : list nat) : Prop := forall j, j < length l -> load cells (Z.of_nat j) = l !! j.

Lemma holds_stack_prefix cells l l' : holds_stack cells (l ++ l') -> holds_stack cells l.
Proof. intros H j Hj. rewrite H by (rewrite length_app; lia). by rewrite lookup_app_l. Qed.

Lemma pop_dom_ok cells z l : forall fuel, length l < fuel -> holds_stack cells l -> Forall good l -> good z -> Forall (fun x => lt x z) l ->
  exists l1 l2, l = l1 ++ l2 /\ pop_dom f bips impl fuel cells (Z.of_nat (length l) - 1) z = Some (Z.of_nat (length l1) - 1)%Z /\
    (forall x, x ∈ l2 -> ~ dom x z) /\ (l1 = [] \/ exists l0 m, l1 = l0 ++ [m] /\ dom m z).
Proof using DO.
  induction l as [|m l IH] using rev_ind; intros fuel Hf Hc Hg Hz Hlt.
  - destruct fuel; [cbn in Hf; lia|]. exists [], []. split; [done|]. split; [done|]. split; [by intros x ?%not_elem_of_nil|by left].
  - rewrite length_app in Hf. cbn in Hf. destruct fuel as [|fuel]; [lia|]. apply Forall_app in Hg as [Hg1 [Hg2 _]%Forall_cons], Hlt as [Hl1 [Hl2 _]%Forall_cons].
    cbn [pop_dom]. rewrite length_app. cbn [length]. replace (Z.of_nat (length l + 1) - 1)%Z with (Z.of_nat (length l)) by lia. destruct (Z.ltb_spec (Z.of_nat (length l)) 0); [lia|].
    rewrite (Hc (length l)) by (rewrite length_app; cbn; lia). rewrite list_lookup_middle by done. cbn [mbind option_bind].
    destruct (do_dominates m z Hg2 Hz Hl2) as (r & -> & Hr). cbn [mbind option_bind]. destruct r.
    + exists (l ++ [m]), []. rewrite app_nil_r. split; [done|]. rewrite length_app. cbn. split; [f_equal; lia|]. split; [by intros x ?%not_elem_of_nil|]. right. exists l, m. split; [done|by apply Hr].
    + destruct (IH fuel ltac:(lia) (holds_stack_prefix _ _ _ Hc) Hg1 Hz Hl1) as (l1 & l2 & -> & E & Hno & Htop). exists l1, (l2 ++ [m]). rewrite app_assoc. split; [done|]. split; [done|].
      split; [|done]. intros x [Hx| ->%list_elem_of_singleton]%elem_of_app; [by apply Hno|]. intros Hd. by apply Hr in Hd.
Qed.

(** ** The walk of merge_sets_interfere *)

(** Two sets of the state [s]: they are sorted, and no two values of one of them interfere. *)
Record set_ok (l : list nat) : Prop := {
  sk_sorted : sorted l;
  sk_good : Forall good l;
  sk_free : forall x y, x ∈ l -> y ∈ l -> x <> y -> ~ itf x y }.

Section two_sets.
Context (s : from_ssa_state) (A B : list nat) (a b : nat) (Hab : a <> b) (HA : set_ok A) (HB : set_ok B) (Hdisj : A ## B).
Context (Ha : forall x, x ∈ A -> merge_node_table s !! x = Some a) (Hb : forall x, x ∈ B -> merge_node_table s !! x = Some b).

(** [L] has been visited, [an] and [bn] are left, [S] is the stack. *)
Record walk_inv (L an bn S : list nat) (cells : list (option nat)) : Prop := {
  wi_perm : L ++ an ++ bn ≡ₚ A ++ B;
  wi_an : exists l, A = l ++ an;
  wi_bn : exists l, B = l ++ bn;
  wi_before : forall x y, x ∈ L -> y ∈ an ++ bn -> lt x y;
  wi_free : forall x y, x ∈ L -> y ∈ L -> lt x y -> ~ itf x y;
  wi_chain : chain S;
  wi_sub : S ⊆ L;
  wi_complete : forall x z, x ∈ L -> x ∉ S -> z ∈ an ++ bn -> ~ dom x z;
  wi_cells : holds_stack cells S;
  wi_length : length cells = length A + length B }.

Lemma good_all x : x ∈ A ++ B -> good x.
Proof using HA HB. pose proof (sk_good _ HA) as H1. pose proof (sk_good _ HB) as H2. rewrite Forall_forall in *. intros [?|?]%elem_of_app; auto. Qed.

Lemma chain_sorted S : chain S -> Forall good S -> NoDup S.
Proof using DO.
  induction 1 as [|x S Hs IH Hx]; intros Hg; [constructor|]. apply Forall_cons in Hg as [Hgx Hg]. apply NoDup_cons. split; [|by apply IH].
  intros Hin. rewrite Forall_forall in Hx. destruct (Hx x Hin) as [Hlt _]. by apply (do_irrefl x).
Qed.

Lemma chain_snoc S z : chain S -> (forall x, x ∈ S -> lt x z /\ dom x z) -> chain (S ++ [z]).
Proof.
  unfold chain. induction 1 as [|x S Hs IH Hx]; intros Hz; cbn; [by repeat constructor|]. constructor.
  - apply IH. intros y Hy. apply Hz. by right.
  - apply Forall_app. split; [done|]. constructor; [apply Hz; left|constructor].
Qed.

Lemma dom_chain_app S1 S2 : chain (S1 ++ S2) -> chain S1 /\ forall x y, x ∈ S1 -> y ∈ S2 -> lt x y /\ dom x y.
Proof.
  unfold chain. induction S1 as [|x S1 IH]; cbn; [intros _; split; [constructor|by intros x y ?%not_elem_of_nil]|].
  intros Hc. inversion Hc as [|? ? Hc1 Hc2]; subst. destruct (IH Hc1) as [H1 H2]. apply Forall_app in Hc2 as [H3 H4]. rewrite Forall_forall in H4. split; [by constructor|].
  intros y z [->|Hy]%elem_of_cons Hz; auto.
Qed.

(** Only the nearest dominator can interfere with the next node. *)
Lemma nearest_only L S l0 m z l2 : S = (l0 ++ [m]) ++ l2 -> chain S -> S ⊆ L -> (forall x, x ∈ L -> good x) -> good z -> (forall x, x ∈ L -> lt x z) ->
  (forall x y, x ∈ L -> y ∈ L -> lt x y -> ~ itf x y) -> (forall x, x ∈ L -> x ∉ S -> ~ dom x z) -> (forall x, x ∈ l2 -> ~ dom x z) -> dom m z ->
  forall x, x ∈ L -> itf x z -> x = m.
Proof using DO.
  intros -> Hc Hsub Hg Hz Hlt Hfree Hcomp Hno Hm x Hx Hi. pose proof (do_itf_dom x z (Hg x Hx) Hz (Hlt x Hx) Hi) as Hd.
  destruct (decide (x ∈ (l0 ++ [m]) ++ l2)) as [Hin|Hout]; [|by destruct (Hcomp x Hx Hout)].
  apply elem_of_app in Hin as [[Hin| ->%list_elem_of_singleton]%elem_of_app|Hin]; [|done|by destruct (Hno x Hin)].
  exfalso. assert (HmL : m ∈ L) by (apply Hsub; apply elem_of_app; left; apply elem_of_app; right; left).
  destruct (dom_chain_app _ _ (proj1 (dom_chain_app _ _ Hc))) as [_ H]. destruct (H x m Hin ltac:(left)) as [Hxm Hdm].
  apply (Hfree x m Hx HmL Hxm). apply (do_itf_between x m z); auto.
Qed.

Definition cross : Prop := exists x y, x ∈ A /\ y ∈ B /\ itf x y.

Lemma cross_of x y : x ∈ A ++ B -> y ∈ A ++ B -> x <> y -> itf x y -> cross.
Proof using DO HA HB.
  intros [Hx|Hx]%elem_of_app [Hy|Hy]%elem_of_app Hne Hi; [by destruct (sk_free _ HA x y Hx Hy Hne)|by exists x, y| |by destruct (sk_free _ HB x y Hx Hy Hne)].
  exists y, x. split; [done|]. split; [done|]. by apply do_sym.
Qed.

Lemma merge_nodes_interfere_ok x y : x ∈ A ++ B -> y ∈ A ++ B -> x <> y ->
  exists r, merge_nodes_interfere f st bips s x y = Some r /\ (r = true <-> itf x y).
Proof using DO HA HB Ha Hb Hab.
  intros Hx Hy Hne. pose proof (do_interfere x y (good_all x Hx) (good_all y Hy) Hne) as (r & E & Hr). unfold merge_nodes_interfere.
  apply elem_of_app in Hx as [Hx|Hx], Hy as [Hy|Hy]; rewrite ?(Ha x Hx), ?(Hb x Hx), ?(Ha y Hy), ?(Hb y Hy); cbn [mbind option_bind];
    [rewrite decide_True by done|rewrite decide_False by done|rewrite decide_False by (by intros ->)|rewrite decide_True by done]; [|by exists r|by exists r|]; exists false; (split; [done|]); split; try done.
  - intros Hi. by destruct (sk_free _ HA x y Hx Hy Hne).
  - intros Hi. by destruct (sk_free _ HB x y Hx Hy Hne).
Qed.

(** The node [z] joins what has been visited. *)
Lemma walk_step L an bn S1 S2 cells cells' z an' bn' : walk_inv L an bn (S1 ++ S2) cells -> (an = z :: an' /\ bn = bn' \/ bn = z :: bn' /\ an = an') ->
  Forall (lt z) (an' ++ bn') -> (forall x, x ∈ S2 -> ~ dom x z) -> (forall x, x ∈ S1 -> dom x z) -> (forall x, x ∈ L -> ~ itf x z) ->
  store cells (Z.of_nat (length S1)) z = Some cells' -> walk_inv (L ++ [z]) an' bn' (S1 ++ [z]) cells'.
Proof using DO HA HB.
  clear Hab Ha Hb Hdisj.
  intros [H1 H2 H3 H4 H5 H6 H7 H8 H9 H10] Hnext Hlt Hno Hdom Hfree Hst.
  assert (Hp : an ++ bn ≡ₚ z :: an' ++ bn') by (destruct Hnext as [[-> ->]|[-> ->]]; [done|by rewrite Permutation_middle]).
  assert (Hzin : z ∈ an ++ bn) by (rewrite Hp; left). assert (Hrest : forall y, y ∈ an' ++ bn' -> y ∈ an ++ bn) by (intros y Hy; rewrite Hp; by right).
  assert (Hgood : forall x, x ∈ L \/ x ∈ an ++ bn -> good x) by (intros x Hx; apply good_all; rewrite <- H1; apply elem_of_app; tauto).
  rewrite Forall_forall in Hlt. split.
  - rewrite <- H1, <- app_assoc, Hp. done.
  - destruct H2 as [l ->]. destruct Hnext as [[-> _]|[_ ->]]; [exists (l ++ [z]); by rewrite <- app_assoc|by exists l].
  - destruct H3 as [l ->]. destruct Hnext as [[_ ->]|[-> _]]; [by exists l|exists (l ++ [z]); by rewrite <- app_assoc].
  - intros x y [Hx| ->%list_elem_of_singleton]%elem_of_app Hy; auto.
  - intros x y [Hx| ->%list_elem_of_singleton]%elem_of_app [Hy| ->%list_elem_of_singleton]%elem_of_app Hxy; auto.
    + exfalso. apply (do_irrefl z); [auto|]. apply (do_trans z y z); auto.
    + exfalso. by apply (do_irrefl z); [auto|].
  - apply chain_snoc; [by apply (dom_chain_app _ _ H6)|]. intros x Hx. split; [apply H4; [apply H7, elem_of_app; by left|done]|auto].
  - intros x [Hx| ->%list_elem_of_singleton]%elem_of_app; apply elem_of_app; [left; apply H7, elem_of_app; by left|right; left].
  - intros x y [Hx| ->%list_elem_of_singleton]%elem_of_app Hout Hy; [|exfalso; apply Hout, elem_of_app; right; left].
    rewrite elem_of_app in Hout. destruct (decide (x ∈ S2)) as [Hx2|Hx2].
    + intros Hd. apply (Hno x Hx2), (do_between x z y); auto.
    + apply H8; [done| |auto]. rewrite elem_of_app. tauto.
  - intros j Hj. rewrite length_app in Hj. cbn in Hj. rewrite (load_store _ _ _ _ _ Hst). destruct (decide (Z.of_nat j = Z.of_nat (length S1))) as [E|E].
    + assert (j = length S1) as -> by lia. by rewrite list_lookup_middle.
    + rewrite lookup_app_l by lia. rewrite H9 by (rewrite length_app; lia). by rewrite lookup_app_l by lia.
  - by rewrite (store_length _ _ _ _ Hst).
Qed.

Lemma walk_facts L an bn S cells : walk_inv L an bn S cells -> an ++ bn <> [] -> (forall x, x ∈ L -> x ∈ A ++ B) /\ (forall x, x ∈ an ++ bn -> x ∈ A ++ B) /\ length S < length A + length B.
Proof using DO HA HB.
  clear Hab Ha Hb Hdisj. intros [H1 _ _ _ _ H6 H7 _ _ _] Hne. assert (HgL : forall x, x ∈ L -> x ∈ A ++ B) by (intros x Hx; rewrite <- H1; apply elem_of_app; by left).
  split; [done|]. split; [intros x Hx; rewrite <- H1; apply elem_of_app; by right|].
  assert (length S <= length L). { apply submseteq_length, NoDup_submseteq; [apply chain_sorted; [done|apply Forall_forall; intros x Hx; apply good_all, HgL; auto]|done]. }
  apply Permutation_length in H1. rewrite !length_app in H1. destruct (an ++ bn) as [|y l] eqn:E; [done|]. apply (f_equal length) in E. rewrite length_app in E. cbn in E. lia.
Qed.

Lemma visit_node_ok L an bn S cells z an' bn' : walk_inv L an bn S cells -> (an = z :: an' /\ bn = bn' \/ bn = z :: bn' /\ an = an') -> Forall (lt z) (an' ++ bn') ->
  (visit_node f st bips impl s cells (Z.of_nat (length S) - 1) z = Some None /\ cross) \/
  exists S' cells', visit_node f st bips impl s cells (Z.of_nat (length S) - 1) z = Some (Some (cells', Z.of_nat (length S') - 1)%Z) /\ walk_inv (L ++ [z]) an' bn' S' cells'.
Proof using DO HA HB Ha Hb Hab.
  intros Hi Hnext Hlt. pose proof Hi as [H1 _ _ H4 H5 H6 H7 H8 H9 H10].
  assert (Hz : z ∈ an ++ bn) by (destruct Hnext as [[-> ->]|[-> ->]]; apply elem_of_app; [left; left|right; left]).
  destruct (walk_facts L an bn S cells Hi) as (HgL & Hgr & Hlen); [intros E; rewrite E in Hz; by apply not_elem_of_nil in Hz|].
  assert (Hgz : good z) by (by apply good_all, Hgr). assert (HgL' : forall x, x ∈ L -> good x) by (intros x Hx; by apply good_all, HgL).
  assert (Hne : forall x, x ∈ L -> x <> z) by (intros x Hx ->; apply (do_irrefl z); auto).
  unfold visit_node. destruct (pop_dom_ok cells z S (Datatypes.S (length cells))) as (S1 & S2 & ES & -> & Hno & Htop); [lia|done|apply Forall_forall; auto|done|apply Forall_forall; auto|]. cbn [mbind option_bind].
  assert (HS1 : forall x, x ∈ S1 -> dom x z).
  { intros x Hx. destruct Htop as [->|(l0 & m & -> & Hm)]; [by apply not_elem_of_nil in Hx|]. apply elem_of_app in Hx as [Hx| ->%list_elem_of_singleton]; [|done].
    rewrite ES in *. destruct (dom_chain_app _ _ (proj1 (dom_chain_app _ _ H6))) as [_ H]. apply (do_dom_trans x m z); [apply HgL', H7|apply HgL', H7|done|by apply H; [|left]|done];
      apply elem_of_app; left; apply elem_of_app; [by left|right; left]. }
  assert (Hgo : (forall x, x ∈ L -> ~ itf x z) -> exists S' cells', (dom0 ← store cells (Z.of_nat (length S1) - 1 + 1) z; Some (Some (dom0, Z.of_nat (length S1) - 1 + 1)%Z)) =
      Some (Some (cells', (Z.of_nat (length S') - 1)%Z)) /\ walk_inv (L ++ [z]) an' bn' S' cells').
  { intros Hfree. rewrite Z.sub_add. destruct (cell_store_ok cells (Z.of_nat (length S1)) z) as [cells' Hst]; [rewrite ES, length_app in Hlen; lia|]. rewrite Hst. cbn [mbind option_bind].
    exists (S1 ++ [z]), cells'. rewrite length_app. replace (Z.of_nat (length S1 + length [z]) - 1)%Z with (Z.of_nat (length S1)) by (cbn; lia). split; [done|]. rewrite ES in Hi. by eapply walk_step. }
  destruct Htop as [->|(l0 & m & -> & Hm)].
  - right. cbn [length]. destruct (Z.leb_spec 0 (Z.of_nat 0 - 1)); [lia|]. cbn [mbind option_bind]. apply Hgo. intros x Hx Hxz. apply (H8 x z Hx); [|done|].
    + intros HxS. rewrite ES in HxS. apply (Hno x HxS). apply (do_itf_dom x z); auto.
    + apply (do_itf_dom x z); auto.
  - rewrite length_app. cbn [length]. destruct (Z.leb_spec 0 (Z.of_nat (length l0 + 1) - 1)); [|lia]. replace (Z.of_nat (length l0 + 1) - 1)%Z with (Z.of_nat (length l0)) by lia.
    rewrite (H9 (length l0)) by (rewrite ES, !length_app; cbn; lia). rewrite ES, lookup_app_l by (rewrite length_app; cbn; lia). rewrite list_lookup_middle by done. cbn [mbind option_bind].
    assert (HmL : m ∈ L) by (apply H7; rewrite ES; apply elem_of_app; left; apply elem_of_app; right; left).
    destruct (merge_nodes_interfere_ok z m (Hgr z Hz) (HgL m HmL)) as (r & -> & Hr); [intros ->; by apply (Hne m)|]. cbn [mbind option_bind]. destruct r.
    + left. split; [done|]. apply (cross_of z m); auto; [intros ->; by apply (Hne m)|by apply Hr].
    + right. rewrite length_app in Hgo. cbn [length] in Hgo. replace (Z.of_nat (length l0 + 1) - 1)%Z with (Z.of_nat (length l0)) in Hgo by lia. apply Hgo. intros x Hx Hxz.
      assert (x = m) as -> by (apply (nearest_only L S l0 m z S2); auto). apply do_sym in Hxz. by apply Hr in Hxz.
Qed.

Lemma interfere_loop_ok fuel : forall L an bn S cells, walk_inv L an bn S cells -> length an + length bn < fuel ->
  exists r, interfere_loop f st bips impl fuel s an bn cells (Z.of_nat (length S) - 1) = Some r /\ (r = true <-> cross).
Proof using DO HA HB Ha Hb Hab Hdisj.
  induction fuel as [|fuel IH]; intros L an bn S cells Hi Hf; [lia|]. pose proof Hi as [H1 [l1 H2] [l2 H3] H4 H5 _ _ _ _ _].
  destruct (decide (an ++ bn = [])) as [[-> ->]%app_nil|Hne].
  { exists false. split; [done|]. split; [done|]. intros (x & y & Hx & Hy & Hxy). rewrite !app_nil_r in H1. exfalso.
    assert (HxL : x ∈ L) by (rewrite H1; apply elem_of_app; by left). assert (HyL : y ∈ L) by (rewrite H1; apply elem_of_app; by right).
    destruct (do_total x y) as [Hlt|Hlt]; [apply good_all, elem_of_app; by left|apply good_all, elem_of_app; by right|intros ->; by apply (Hdisj y)|by apply (H5 x y)|]. apply (H5 y x); auto. by apply do_sym. }
  destruct (walk_facts L an bn S cells Hi Hne) as (HgL & Hgr & _).
  destruct (next_node_ok an bn) as (z & an' & bn' & En & Hnext & Hlt); [| | | | |done|].
  { pose proof (sk_sorted _ HA) as SA. rewrite H2 in SA. by apply StronglySorted_app in SA as (_ & _ & ?). }
  { pose proof (sk_sorted _ HB) as SB. rewrite H3 in SB. by apply StronglySorted_app in SB as (_ & _ & ?). }
  { apply Forall_forall. intros x Hx. apply good_all, Hgr, elem_of_app. by left. }
  { apply Forall_forall. intros x Hx. apply good_all, Hgr, elem_of_app. by right. }
  { intros x Hx Hx'. apply (Hdisj x); [rewrite H2|rewrite H3]; apply elem_of_app; by right. }
  cbn [interfere_loop]. rewrite En. cbn [mbind option_bind].
  assert (Hlen : length an' + length bn' < fuel) by (destruct Hnext as [[-> ->]|[-> ->]]; cbn in Hf; lia).
  destruct (visit_node_ok L an bn S cells z an' bn' Hi Hnext Hlt) as [[E Hc]|(S' & cells' & E & Hi')]; rewrite E; cbn [mbind option_bind].
  - exists true. split; [by destruct an, bn|done].
  - destruct (IH _ _ _ _ _ Hi' Hlen) as (r & Er & Hr). exists r. split; [|done]. by destruct an, bn.
Qed.
End two_sets.

(** ** Merging *)

Lemma merge_nodes_ok fuel : forall an bn, length an + length bn < fuel -> sorted an -> sorted bn -> Forall good an -> Forall good bn -> an ## bn ->
  exists r, merge_nodes f bips impl fuel an bn = Some r /\ sorted r /\ r ≡ₚ an ++ bn.
Proof using DO.
  induction fuel as [|fuel IH]; intros an bn Hf Sa Sb Ga Gb Hd; [lia|]. cbn [merge_nodes]. destruct bn as [|b bn]; [exists an; by rewrite app_nil_r|].
  inversion Sb as [|? ? Sb1 Sb2]; subst. apply Forall_cons in Gb as [Gb1 Gb2]. destruct an as [|a an].
  - destruct (IH [] bn) as (r & -> & Hs & Hp); [cbn in *; lia|constructor|done|constructor|done|by intros y ?%not_elem_of_nil|]. cbn [mbind option_bind]. exists (b :: r). split; [done|]. cbn in Hp. split; [constructor; [done|by rewrite Hp]|by rewrite Hp].
  - inversion Sa as [|? ? Sa1 Sa2]; subst. apply Forall_cons in Ga as [Ga1 Ga2]. assert (Hab : a <> b) by (intros ->; apply (Hd b); left).
    destruct (do_after a b Ga1 Gb1 Hab) as (x & -> & Hx). cbn [mbind option_bind]. destruct x.
    + destruct (IH (a :: an) bn) as (r & -> & Hs & Hp); [cbn in *; lia|done|done|by constructor|done|intros y Hy Hy'; apply (Hd y Hy); by right|]. cbn [mbind option_bind]. exists (b :: r). split; [done|].
      split; [|rewrite Hp; by rewrite <- Permutation_middle]. constructor; [done|]. rewrite Hp. assert (lt b a) by (by apply Hx). apply Forall_app. split; [|done]. constructor; [done|]. by apply (sorted_disjoint_lt b a).
    + assert (Hlt : lt a b). { destruct (do_total a b Ga1 Gb1 Hab) as [?|H]; [done|]. by apply Hx in H. }
      destruct (IH an (b :: bn)) as (r & -> & Hs & Hp); [cbn in *; lia|done|done|done|by constructor|intros y Hy Hy'; by apply (Hd y); [right|]|]. cbn [mbind option_bind]. exists (a :: r). split; [done|].
      split; [|by rewrite Hp]. constructor; [done|]. rewrite Hp. apply Forall_app. split; [done|]. constructor; [done|]. by apply (sorted_disjoint_lt a b).
Qed.

(** ** The state *)

Context (num : nat) (Hnum : forall d, good d -> d < num) (Hmax : (Z.of_nat num < 2 ^ 32)%Z).

(** The table says in which set a value is, and every set is sorted, has its size, and is free of interference. *)
Record sets_inv (s : from_ssa_state) : Prop := {
  si_table : forall d k, merge_node_table s !! d = Some k <-> exists m, merge_sets s !! k = Some m /\ d ∈ ms_nodes m;
  si_sets : forall k m, merge_sets s !! k = Some m -> set_ok (ms_nodes m) /\ ms_size m = Z.of_nat (length (ms_nodes m)) }.

Lemma sorted_nodup l : sorted l -> Forall good l -> NoDup l.
Proof using DO.
  induction 1 as [|x l Hs IH Hx]; intros Hg; [constructor|]. apply Forall_cons in Hg as [Hgx Hg]. apply NoDup_cons. split; [|by apply IH].
  intros Hin. rewrite Forall_forall in Hx. apply (do_irrefl x Hgx). by apply Hx.
Qed.

Lemma sets_disjoint s a b ma mb : sets_inv s -> merge_sets s !! a = Some ma -> merge_sets s !! b = Some mb -> a <> b -> ms_nodes ma ## ms_nodes mb.
Proof.
  intros Hs Ha Hb Hab x Hxa Hxb. apply Hab. assert (Ea : merge_node_table s !! x = Some a) by (apply (si_table s Hs); eauto).
  assert (Eb : merge_node_table s !! x = Some b) by (apply (si_table s Hs); eauto). congruence.
Qed.

Lemma sets_length s a b ma mb : sets_inv s -> merge_sets s !! a = Some ma -> merge_sets s !! b = Some mb -> a <> b ->
  u32 (ms_size ma + ms_size mb) = Z.of_nat (length (ms_nodes ma) + length (ms_nodes mb)).
Proof using DO Hnum Hmax.
  intros Hs Ha Hb Hab. destruct (si_sets s Hs a ma Ha) as [HA ->], (si_sets s Hs b mb Hb) as [HB ->]. rewrite <- Nat2Z.inj_add. apply u32_small.
  assert (length (ms_nodes ma ++ ms_nodes mb) <= length (seq 0 num)); [|rewrite length_app, length_seq in *; lia].
  apply submseteq_length, NoDup_submseteq.
  - apply NoDup_app. split; [apply sorted_nodup; [apply HA|apply HA]|]. split; [|apply sorted_nodup; [apply HB|apply HB]]. intros x Hx Hx'. by apply (sets_disjoint s a b ma mb Hs Ha Hb Hab x).
  - pose proof (sk_good _ HA) as G1. pose proof (sk_good _ HB) as G2. rewrite Forall_forall in *. intros x [Hx|Hx]%elem_of_app; apply elem_of_seq; specialize (Hnum x); [specialize (G1 x Hx)|specialize (G2 x Hx)]; intuition lia.
Qed.

Lemma merge_sets_interfere_ok s a b ma mb : sets_inv s -> merge_sets s !! a = Some ma -> merge_sets s !! b = Some mb -> a <> b ->
  exists r, merge_sets_interfere f st bips impl a b s = Some r /\ (r = true <-> exists x y, x ∈ ms_nodes ma /\ y ∈ ms_nodes mb /\ itf x y).
Proof using DO Hnum Hmax.
  intros Hs Ha Hb Hab. unfold merge_sets_interfere. rewrite Ha, Hb. cbn [mbind option_bind]. rewrite (sets_length s a b ma mb) by done. rewrite Nat2Z.id.
  destruct (si_sets s Hs a ma Ha) as [HA _], (si_sets s Hs b mb Hb) as [HB _].
  apply (interfere_loop_ok s (ms_nodes ma) (ms_nodes mb) a b Hab HA HB (sets_disjoint s a b ma mb Hs Ha Hb Hab)) with (L := []) (S := []); [| | |lia].
  - intros x Hx. apply (si_table s Hs). eauto.
  - intros x Hx. apply (si_table s Hs). eauto.
  - split; try (by intros ? ? ?%not_elem_of_nil).
    + done.
    + by exists [].
    + by exists [].
    + constructor.
    + done.
    + intros j Hj. cbn in Hj. lia.
    + apply length_replicate.
Qed.

(** The divergence of the set of a value *)
Definition set_div (s : from_ssa_state) (d : nat) : option bool := k ← merge_node_table s !! d; ms_divergent <$> merge_sets s !! k.

Lemma foldl_insert (t : gmap nat nat) a l d : foldl (fun t d => <[d := a]> t) t l !! d = if decide (d ∈ l) then Some a else t !! d.
Proof.
  revert t. induction l as [|x l IH]; intros t; cbn; [by rewrite decide_False by apply not_elem_of_nil|]. rewrite IH.
  destruct (decide (d ∈ l)) as [Hin|Hout]; [by rewrite decide_True by (by right)|]. destruct (decide (d = x)) as [->|Hne].
  - rewrite lookup_insert_eq, decide_True by left. done.
  - rewrite lookup_insert_ne by done. rewrite decide_False; [done|]. intros [?|?]%elem_of_cons; done.
Qed.

Lemma merge_merge_sets_ok s a b ma mb : sets_inv s -> merge_sets s !! a = Some ma -> merge_sets s !! b = Some mb -> a <> b ->
  (forall x y, x ∈ ms_nodes ma -> y ∈ ms_nodes mb -> ~ itf x y) ->
  exists s', merge_merge_sets f bips impl a b s = Some s' /\ sets_inv s' /\ (forall d, merge_node_table s' !! d = if decide (d ∈ ms_nodes mb) then Some a else merge_node_table s !! d) /\
    (ms_divergent mb = ms_divergent ma -> forall d, set_div s' d = set_div s d).
Proof using DO Hnum Hmax.
  intros Hs Ha Hb Hab Hfree. unfold merge_merge_sets. rewrite Ha, Hb. cbn [mbind option_bind]. rewrite (sets_length s a b ma mb) by done.
  destruct (si_sets s Hs a ma Ha) as [HA Hsa], (si_sets s Hs b mb Hb) as [HB Hsb]. pose proof (sets_disjoint s a b ma mb Hs Ha Hb Hab) as Hdisj.
  destruct (merge_nodes_ok (S (length (ms_nodes ma) + length (ms_nodes mb))) (ms_nodes ma) (ms_nodes mb)) as (r & -> & Hsr & Hpr); [lia|apply HA|apply HB|apply HA|apply HB|done|].
  cbn [mbind option_bind]. eexists. split; [done|]. pose proof (lookup_lt_Some _ _ _ Ha) as Hla. pose proof (lookup_lt_Some _ _ _ Hb) as Hlb.
  set (na := MergeSet r _ _). set (nb := MergeSet [] _ _).
  assert (Hlook : forall k m, <[b := nb]> (<[a := na]> (merge_sets s)) !! k = Some m <-> (k = b /\ m = nb) \/ (k = a /\ m = na) \/ (k <> a /\ k <> b /\ merge_sets s !! k = Some m)).
  { intros k m. destruct (decide (k = b)) as [->|]; [rewrite list_lookup_insert_eq by (by rewrite length_insert); naive_solver|]. rewrite list_lookup_insert_ne by done.
    destruct (decide (k = a)) as [->|]; [rewrite list_lookup_insert_eq by done; naive_solver|]. rewrite list_lookup_insert_ne by done. naive_solver. }
  split; [|split; [intros d; cbn; by rewrite foldl_insert|]].
  2: { intros Hdiv d. unfold set_div. cbn [merge_node_table merge_sets]. rewrite foldl_insert. destruct (decide (d ∈ ms_nodes mb)) as [Hd|Hd]; cbn [mbind option_bind].
    - rewrite (proj2 (si_table s Hs d b)) by eauto. cbn. rewrite Hb, (proj2 (Hlook a na)) by auto. cbn. by rewrite Hdiv, orb_diag.
    - destruct (merge_node_table s !! d) as [k|] eqn:Ek; [|done]. cbn. destruct (proj1 (si_table s Hs d k) Ek) as (m & Hm & Hdm). rewrite Hm.
      destruct (decide (k = b)) as [->|]; [by replace mb with m in Hd by congruence|]. destruct (decide (k = a)) as [->|].
      + rewrite (proj2 (Hlook a na)) by auto. cbn. rewrite Hdiv, orb_diag. congruence.
      + by rewrite (proj2 (Hlook k m)) by auto. }
  split; cbn [merge_node_table merge_sets].
  - intros d k. rewrite foldl_insert. setoid_rewrite Hlook. destruct (decide (d ∈ ms_nodes mb)) as [Hd|Hd].
    + split; [intros [= <-]; exists na; split; [by right; left|]; cbn; rewrite Hpr; apply elem_of_app; by right|].
      intros (m & [[-> ->]|[[-> ->]|(H1 & H2 & Hm)]] & Hdm); [by apply not_elem_of_nil in Hdm|done|]. exfalso.
      by apply (sets_disjoint s k b m mb Hs Hm Hb H2 d).
    + rewrite (si_table s Hs). split.
      * intros (m & Hm & Hdm). destruct (decide (k = b)) as [->|]; [by replace mb with m in Hd by congruence|]. destruct (decide (k = a)) as [->|]; [|exists m; split; [right; right; done|done]].
        exists na. split; [by right; left|]. cbn. rewrite Hpr. apply elem_of_app. left. by replace ma with m by congruence.
      * intros (m & [[-> ->]|[[-> ->]|(H1 & H2 & Hm)]] & Hdm); [by apply not_elem_of_nil in Hdm| |by exists m]. cbn in Hdm. rewrite Hpr in Hdm. apply elem_of_app in Hdm as [?|?]; [by exists ma|done].
  - intros k m [[-> ->]|[[-> ->]|(_ & _ & Hm)]]%Hlook; [| |by apply (si_sets s Hs k)].
    + split; [|done]. split; [constructor|constructor|by intros x y ?%not_elem_of_nil].
    + cbn. split; [|by rewrite Hpr, length_app]. split; [done|rewrite Hpr; apply Forall_app; split; [apply HA|apply HB]|]. intros x y Hx Hy Hne. rewrite Hpr in Hx, Hy.
      apply elem_of_app in Hx as [Hx|Hx], Hy as [Hy|Hy]; [by apply (sk_free _ HA)|by apply Hfree| |by apply (sk_free _ HB)]. intros Hi. by apply (Hfree y x), do_sym.
Qed.

(** ** Coalescing *)

Context (consider : bool) (ddiv : nat -> bool).
Notation get := (get_merge_node consider ddiv).

Definition together (s : from_ssa_state) (x y : nat) : Prop := exists k, merge_node_table s !! x = Some k /\ merge_node_table s !! y = Some k.

(** Values that are together stay together, and sets keep their divergence. *)
Definition coarser (s s' : from_ssa_state) : Prop := (forall x y, together s x y -> together s' x y) /\ (forall d v, set_div s d = Some v -> set_div s' d = Some v).

Lemma coarser_refl s : coarser s s.
Proof. by split. Qed.

Lemma coarser_trans s1 s2 s3 : coarser s1 s2 -> coarser s2 s3 -> coarser s1 s3.
Proof. intros [H1 H2] [H3 H4]. split; auto. Qed.

Lemma get_merge_node_ok s d : sets_inv s -> good d -> sets_inv (get d s) /\ coarser s (get d s) /\ is_Some (merge_node_table (get d s) !! d).
Proof using DO.
  clear num Hnum Hmax. intros Hs Hd. unfold get_merge_node. destruct (merge_node_table s !! d) as [k|] eqn:E; [split; [done|]; split; [apply coarser_refl|by eexists]|].
  set (new := MergeSet [d] 1 _).
  assert (Hlook : forall k m, (merge_sets s ++ [new]) !! k = Some m <-> merge_sets s !! k = Some m \/ (k = length (merge_sets s) /\ m = new)).
  { intros k m. rewrite lookup_app_Some. split; [intros [?|[Hk Hm]]; [by left|right]|intros [?|[-> ->]]; [by left|right; split; [done|by rewrite Nat.sub_diag]]].
    destruct (k - length (merge_sets s)) as [|j] eqn:Ej; [|by destruct j]. injection Hm as <-. split; [lia|done]. }
  assert (Hold : forall x k, merge_node_table s !! x = Some k -> <[d := length (merge_sets s)]> (merge_node_table s) !! x = Some k).
  { intros x k Hx. rewrite lookup_insert_ne; [done|]. intros ->. congruence. }
  split; [|split; [split|]]; cbn [merge_node_table merge_sets].
  - split; cbn [merge_node_table merge_sets].
    + intros x k. setoid_rewrite Hlook. destruct (decide (x = d)) as [->|Hne].
      * rewrite lookup_insert_eq. split; [intros [= <-]; exists new; split; [by right|left]|]. intros (m & [Hm|[-> _]] & Hx); [|done]. exfalso.
        assert (merge_node_table s !! d = Some k) by (apply (si_table s Hs); eauto). congruence.
      * rewrite lookup_insert_ne by done. rewrite (si_table s Hs). split; [intros (m & Hm & Hx); eauto|]. intros (m & [Hm|[-> ->]] & Hx); [eauto|]. by apply list_elem_of_singleton in Hx.
    + intros k m [Hm|[-> ->]]%Hlook; [by apply (si_sets s Hs k)|]. cbn. split; [|done]. split; [by repeat constructor|by repeat constructor|].
      by intros x y ->%list_elem_of_singleton ->%list_elem_of_singleton.
  - intros x y (k & Hx & Hy). exists k. auto.
  - intros x v. unfold set_div. cbn [merge_node_table merge_sets]. destruct (merge_node_table s !! x) as [k|] eqn:Ex; [|done]. rewrite (Hold x k Ex). cbn. destruct (merge_sets s !! k) as [m|] eqn:Em; [|done].
    by rewrite (proj2 (Hlook k m)) by auto.
  - rewrite lookup_insert_eq. by eexists.
Qed.

(** The source [d] joins the set of the phi [x], with which nothing of it interferes. *)
Lemma coalesce_phi_src_ok s x d k m : sets_inv s -> merge_node_table s !! x = Some k -> merge_sets s !! k = Some m -> good d ->
  (merge_node_table s !! d = Some k \/ (merge_node_table s !! d = None /\ forall y, y ∈ ms_nodes m -> ~ itf y d)) ->
  exists s' m', coalesce_phi_src f bips impl consider ddiv x d s = Some s' /\ sets_inv s' /\ merge_sets s' !! k = Some m' /\ (forall y, y ∈ ms_nodes m' -> y ∈ ms_nodes m \/ y = d) /\
    (nir_def_is_undef f d = false -> merge_node_table s' !! d = Some k) /\ (forall y, y <> d -> merge_node_table s' !! y = merge_node_table s !! y) /\
    (nir_def_is_undef f d = true -> s' = s).
Proof using DO Hnum Hmax.
  intros Hs Hx Hk Hd Hcase. unfold coalesce_phi_src. destruct (nir_def_is_undef f d); [exists s, m; naive_solver|].
  unfold get_merge_node. destruct Hcase as [E|[E Hfree]]; rewrite E.
  { rewrite E, Hx. cbn [mbind option_bind]. rewrite decide_True by done. exists s, m. naive_solver. }
  destruct (get_merge_node_ok s d Hs Hd) as (Hs1 & _ & _). unfold get_merge_node in Hs1. rewrite E in Hs1. set (s1 := FromSsa _ _) in *. cbn [merge_node_table s1].
  assert (Hne : x <> d) by (intros ->; congruence). rewrite lookup_insert_eq, lookup_insert_ne by done. rewrite Hx. cbn [mbind option_bind].
  pose proof (lookup_lt_Some _ _ _ Hk) as Hlt. rewrite decide_False by lia. set (new := MergeSet [d] 1 (consider && ddiv d)).
  assert (Hn : merge_sets s1 !! length (merge_sets s) = Some new) by (cbn; by apply list_lookup_middle). assert (Hk1 : merge_sets s1 !! k = Some m) by (cbn; by apply lookup_app_l_Some).
  destruct (merge_merge_sets_ok s1 k (length (merge_sets s)) m new Hs1 Hk1 Hn ltac:(lia)) as (s2 & E2 & Hs2 & Ht & _); [intros y z Hy ->%list_elem_of_singleton; by apply Hfree|].
  assert (Hk2 : exists m', merge_sets s2 !! k = Some m' /\ forall y, y ∈ ms_nodes m' -> merge_node_table s2 !! y = Some k).
  { assert (Hxk : merge_node_table s2 !! x = Some k). { rewrite Ht. destruct (decide (x ∈ ms_nodes new)) as [?|_]; [done|]. cbn. by rewrite lookup_insert_ne by done. }
    destruct (proj1 (si_table s2 Hs2 x k) Hxk) as (m' & Hm' & _). exists m'. split; [done|]. intros y Hy. apply (si_table s2 Hs2). eauto. }
  destruct Hk2 as (m' & Hm' & Hall). exists s2, m'. split; [exact E2|]. split; [done|]. split; [done|]. split; [|split; [|split; [|done]]].
  - intros y Hy. specialize (Hall y Hy). rewrite Ht in Hall. destruct (decide (y ∈ ms_nodes new)) as [->%list_elem_of_singleton|Hout]; [by right|]. left. apply (si_table s1 Hs1) in Hall as (m2 & Hm2 & Hy2). congruence.
  - intros _. rewrite Ht, decide_True by left. done.
  - intros y Hy. rewrite Ht, decide_False by (by intros ->%list_elem_of_singleton). cbn. by rewrite lookup_insert_ne by done.
Qed.

(** The values that a phi needs in one register *)
Definition web (phi : nat * list (nat * nat)) : list nat := phi.1 :: filter (fun d => nir_def_is_undef f d = false) (phi.2).*2.

Lemma coalesce_phi_ok s phi : sets_inv s -> Forall good (web phi) -> (forall x y, x ∈ web phi -> y ∈ web phi -> x <> y -> ~ itf x y) -> (forall x, x ∈ web phi -> merge_node_table s !! x = None) ->
  exists s', for_each (coalesce_phi_src f bips impl consider ddiv phi.1) (phi.2).*2 (get phi.1 s) = Some s' /\ sets_inv s' /\
    (forall x, x ∈ web phi -> together s' phi.1 x) /\ (forall y, y ∉ web phi -> merge_node_table s' !! y = merge_node_table s !! y).
Proof using DO Hnum Hmax.
  intros Hs Hg Hfree Hnew. destruct phi as [x srcs]. cbn [fst snd] in *. unfold web in *. cbn [fst snd] in *. rewrite Forall_forall in Hg.
  destruct (get_merge_node_ok s x Hs (Hg x ltac:(left))) as (Hs1 & _ & [k Hk]). set (s1 := get x s) in *.
  assert (Hs1t : forall y, y <> x -> merge_node_table s1 !! y = merge_node_table s !! y).
  { intros y Hy. unfold s1, get_merge_node. rewrite (Hnew x) by left. cbn. by rewrite lookup_insert_ne by done. }
  assert (Hm1 : exists m, merge_sets s1 !! k = Some m /\ forall y, y ∈ ms_nodes m -> y = x).
  { destruct (proj1 (si_table s1 Hs1 x k) Hk) as (m & Hm & _). exists m. split; [done|]. revert Hk Hm. unfold s1, get_merge_node. rewrite (Hnew x) by left. cbn. rewrite lookup_insert_eq. intros [= <-].
    rewrite list_lookup_middle by done. intros [= <-] y. by intros ->%list_elem_of_singleton. }
  destruct Hm1 as (m1 & Hm1 & Hn1).
  destruct (for_each_rule (fun pre t => sets_inv t /\ merge_node_table t !! x = Some k /\ (exists m, merge_sets t !! k = Some m /\ forall y, y ∈ ms_nodes m -> y ∈ x :: filter (fun d => nir_def_is_undef f d = false) pre) /\
      (forall y, y ∈ filter (fun d => nir_def_is_undef f d = false) pre -> merge_node_table t !! y = Some k) /\
      (forall y, y ∉ x :: filter (fun d => nir_def_is_undef f d = false) pre -> merge_node_table t !! y = merge_node_table s !! y))
    (coalesce_phi_src f bips impl consider ddiv x) srcs.*2 s1) as (s' & -> & H1 & H2 & _ & H4 & H5).
  - split; [done|]. split; [done|]. split; [exists m1; split; [done|]; intros y Hy; rewrite (Hn1 y Hy); left|]. split; [by intros y ?%not_elem_of_nil|]. intros y [Hy _]%not_elem_of_cons. auto.
  - intros pre d post t El (H1 & H2 & (m & Hm & Hsub) & H4 & H5). destruct (nir_def_is_undef f d) eqn:Ud.
    { exists t. split; [unfold coalesce_phi_src; by rewrite Ud|]. assert (Ef : filter (fun d => nir_def_is_undef f d = false) (pre ++ [d]) = filter (fun d => nir_def_is_undef f d = false) pre).
      { rewrite filter_app, filter_cons, filter_nil, decide_False by congruence. apply app_nil_r. }
      rewrite Ef. split_and!; eauto. }
    assert (Hpre : forall y, y ∈ x :: filter (fun d => nir_def_is_undef f d = false) pre -> y ∈ x :: filter (fun d => nir_def_is_undef f d = false) srcs.*2).
    { intros y [->|Hy]%elem_of_cons; [left|right]. rewrite El, filter_app. apply elem_of_app. by left. }
    assert (Hdin : d ∈ x :: filter (fun d => nir_def_is_undef f d = false) srcs.*2) by (right; apply list_elem_of_filter; split; [done|rewrite El; apply elem_of_app; right; left]).
    destruct (coalesce_phi_src_ok t x d k m H1 H2 Hm (Hg d Hdin)) as (t' & m' & Et & G1 & G2 & G3 & G4 & G5 & _).
    { destruct (decide (d ∈ x :: filter (fun d => nir_def_is_undef f d = false) pre)) as [[->|Hin]%elem_of_cons|Hout]; [by left|left; auto|]. right. rewrite (H5 d Hout). split; [by apply Hnew|].
      intros y Hy. apply Hfree; [by apply Hpre, Hsub|done|]. intros ->. by apply Hout, Hsub. }
    exists t'. split; [done|]. assert (Ef : filter (fun d => nir_def_is_undef f d = false) (pre ++ [d]) = filter (fun d => nir_def_is_undef f d = false) pre ++ [d]) by (rewrite filter_app, filter_cons, filter_nil, decide_True; done).
    rewrite Ef. split; [done|]. split; [destruct (decide (x = d)) as [->|]; [auto|rewrite G5 by done; done]|]. split; [exists m'; split; [done|]; intros y Hy; destruct (G3 y Hy) as [Hy'| ->]; [|right; apply elem_of_app; right; left]|].
    { apply Hsub in Hy'. apply elem_of_cons in Hy' as [->|Hy']; [left|right; apply elem_of_app; by left]. }
    split.
    + intros y Hy. destruct (decide (y = d)) as [->|]; [auto|]. rewrite G5 by done. apply H4. apply elem_of_app in Hy as [?|Hy]; [done|]. by apply list_elem_of_singleton in Hy.
    + intros y Hy. rewrite not_elem_of_cons, not_elem_of_app in Hy. destruct Hy as (Hy1 & Hy2 & Hy3). rewrite G5 by (intros ->; apply Hy3; left). apply H5. by apply not_elem_of_cons.
  - exists s'. split; [done|]. split; [done|]. split; [|done]. intros y [->|Hy]%elem_of_cons; exists k; auto.
Qed.

Definition all_phis : list (nat * list (nat * nat)) := flat_map (fun blk => leading_phis (instrs blk)) f.

Lemma coalesce_blocks_ok : NoDup all_phis -> (forall phi, phi ∈ all_phis -> Forall good (web phi) /\ forall x y, x ∈ web phi -> y ∈ web phi -> x <> y -> ~ itf x y) ->
  (forall phi phi' x, phi ∈ all_phis -> phi' ∈ all_phis -> x ∈ web phi -> x ∈ web phi' -> phi = phi') ->
  exists s, for_each (coalesce_phi_nodes_block f bips impl consider ddiv) f (FromSsa ∅ []) = Some s /\ sets_inv s /\ forall phi x, phi ∈ all_phis -> x ∈ web phi -> together s phi.1 x.
Proof using DO Hnum Hmax.
  intros Hnd Hweb Huniq. assert (Eflat : forall l s, for_each (coalesce_phi_nodes_block f bips impl consider ddiv) l s =
    for_each (fun phi s => for_each (coalesce_phi_src f bips impl consider ddiv phi.1) (phi.2).*2 (get phi.1 s)) (flat_map (fun blk => leading_phis (instrs blk)) l) s).
  { induction l as [|blk l IH]; intros s; [done|]. cbn [flat_map for_each]. rewrite for_each_app.
    change (coalesce_phi_nodes_block f bips impl consider ddiv blk s) with (for_each (fun phi s => for_each (coalesce_phi_src f bips impl consider ddiv phi.1) (phi.2).*2 (get phi.1 s)) (leading_phis (instrs blk)) s).
    destruct (for_each _ (leading_phis (instrs blk)) s); [apply IH|done]. }
  rewrite Eflat. fold all_phis.
  destruct (for_each_rule (fun pre s => sets_inv s /\ (forall phi x, phi ∈ pre -> x ∈ web phi -> together s phi.1 x) /\ forall x, (forall phi, phi ∈ pre -> x ∉ web phi) -> merge_node_table s !! x = None)
    (fun phi s => for_each (coalesce_phi_src f bips impl consider ddiv phi.1) (phi.2).*2 (get phi.1 s)) all_phis (FromSsa ∅ [])) as (s & -> & H1 & H2 & _).
  - split; [|split; [by intros phi x ?%not_elem_of_nil|done]]. split; [|by intros k m ?]. intros d k. cbn. rewrite lookup_empty. split; [done|]. by intros (m & ? & _).
  - intros pre phi post s El (H1 & H2 & H3). assert (Hin : phi ∈ all_phis) by (rewrite El; apply elem_of_app; right; left).
    assert (Hpre : forall phi', phi' ∈ pre -> phi' ∈ all_phis /\ phi' <> phi).
    { intros phi' Hp. split; [rewrite El; apply elem_of_app; by left|]. intros ->. rewrite El in Hnd. apply NoDup_app in Hnd as (_ & Hd & _). apply (Hd phi Hp). left. }
    assert (Hother : forall phi' x, phi' ∈ pre -> x ∈ web phi' -> x ∉ web phi). { intros phi' x Hp Hx Hx'. destruct (Hpre phi' Hp) as [Ha Hne]. by apply Hne, (Huniq phi' phi x). }
    destruct (Hweb phi Hin) as [Hg Hf]. destruct (coalesce_phi_ok s phi H1 Hg Hf) as (s' & -> & G1 & G2 & G3).
    { intros x Hx. apply H3. intros phi' Hp Hx'. by apply (Hother phi' x). }
    exists s'. split; [done|]. split; [done|]. split.
    + intros phi' x [Hp| ->%list_elem_of_singleton]%elem_of_app Hx; [|by apply G2]. destruct (H2 phi' x Hp Hx) as (k & E1 & E2). exists k. rewrite !G3; [done|by eapply Hother|apply (Hother phi' phi'.1 Hp); left].
    + intros x Hx. rewrite G3; [apply H3; intros phi' Hp; apply Hx, elem_of_app; by left|]. apply Hx, elem_of_app. right. left.
  - exists s. auto.
Qed.

(** The two sides of a copy share a register, or there is a reason why not. *)
Definition settled_copy (s : from_ssa_state) (c : ssa_copy) : Prop := together s (copy_src c) (copy_def c) \/
  (exists v, set_div s (copy_src c) = Some v /\ set_div s (copy_def c) = Some (negb v)) \/
  (exists x y, together s x (copy_src c) /\ together s y (copy_def c) /\ itf x y).

Lemma settled_coarser s s' c : coarser s s' -> settled_copy s c -> settled_copy s' c.
Proof. intros [H1 H2] [H|[(v & Hv & Hv')|(x & y & Hx & Hy & Hi)]]; [left; auto|right; left; exists v; auto|right; right; exists x, y; auto]. Qed.

Lemma coalesce_copy_ok c s : sets_inv s -> (src_is_const c = false -> good (copy_src c) /\ good (copy_def c)) ->
  exists s', coalesce_copy f st bips impl consider ddiv c s = Some s' /\ sets_inv s' /\ coarser s s' /\ (src_is_const c = false -> settled_copy s' c).
Proof using DO Hnum Hmax.
  intros Hs Hc. unfold coalesce_copy. destruct (src_is_const c); [exists s; split; [done|]; split; [done|]; split; [apply coarser_refl|done]|]. destruct (Hc eq_refl) as [Hg1 Hg2]. clear Hc.
  destruct (get_merge_node_ok s (copy_src c) Hs Hg1) as (Hs1 & Hx1 & [k0 Hk0]). set (s1 := get (copy_src c) s) in *.
  destruct (get_merge_node_ok s1 (copy_def c) Hs1 Hg2) as (Hs2 & Hx2 & [kd Hkd]). set (s2 := get (copy_def c) s1) in *.
  assert (Hx : coarser s s2) by (by eapply coarser_trans). assert (Hks : is_Some (merge_node_table s2 !! copy_src c)) by (destruct (proj1 Hx2 (copy_src c) (copy_src c)) as (k & E & _); [by exists k0|by eexists]).
  destruct Hks as [ks Hks]. rewrite Hks, Hkd. cbn [mbind option_bind]. destruct (decide (ks = kd)) as [<-|Hne].
  { exists s2. split; [done|]. split; [done|]. split; [done|]. intros _. left. by exists ks. }
  destruct (proj1 (si_table s2 Hs2 _ _) Hks) as (ms & Hms & Hsin), (proj1 (si_table s2 Hs2 _ _) Hkd) as (md & Hmd & Hdin). rewrite Hms, Hmd. cbn [mbind option_bind].
  assert (Esd : set_div s2 (copy_src c) = Some (ms_divergent ms) /\ set_div s2 (copy_def c) = Some (ms_divergent md)) by (unfold set_div; rewrite Hks, Hkd; cbn; by rewrite Hms, Hmd).
  destruct (eqb_spec (ms_divergent md) (ms_divergent ms)) as [Ediv|Ediv]; cbn [negb].
  2: { exists s2. split; [done|]. split; [done|]. split; [done|]. intros _. right. left. exists (ms_divergent ms). split; [apply Esd|]. rewrite (proj2 Esd). f_equal. destruct (ms_divergent md), (ms_divergent ms); done. }
  destruct (merge_sets_interfere_ok s2 ks kd ms md Hs2 Hms Hmd Hne) as (r & -> & Hr). cbn [mbind option_bind]. destruct r.
  - exists s2. split; [done|]. split; [done|]. split; [done|]. intros _. right. right. destruct (proj1 Hr eq_refl) as (x & y & Hxm & Hym & Hi). exists x, y.
    split; [exists ks; split; [apply (si_table s2 Hs2); eauto|done]|]. split; [exists kd; split; [apply (si_table s2 Hs2); eauto|done]|done].
  - destruct (merge_merge_sets_ok s2 ks kd ms md Hs2 Hms Hmd Hne) as (s3 & -> & Hs3 & Ht & Hdv).
    { intros x y Hxm Hym Hi. discriminate (proj2 Hr ltac:(by exists x, y)). }
    exists s3. split; [done|]. split; [done|]. assert (Hx3 : coarser s2 s3).
    { split; [|intros d v; by rewrite (Hdv Ediv)]. intros x y (k & Ex & Ey). unfold together. rewrite !Ht. destruct (proj1 (si_table s2 Hs2 x k) Ex) as (m & Hm & Hxm), (proj1 (si_table s2 Hs2 y k) Ey) as (m' & Hm' & Hym).
      assert (m' = m) as -> by congruence. destruct (decide (k = kd)) as [->|Hk].
      - assert (m = md) as -> by congruence. rewrite !decide_True by done. by exists ks.
      - rewrite !decide_False; [by exists k|intros Hin; by apply (sets_disjoint s2 k kd m md Hs2 Hm Hmd Hk y)|intros Hin; by apply (sets_disjoint s2 k kd m md Hs2 Hm Hmd Hk x)]. }
    split; [by eapply coarser_trans|]. intros _. left. exists ks. rewrite !Ht. rewrite (decide_True _ _ Hdin). split; [|done]. destruct (decide (copy_src c ∈ ms_nodes md)) as [Hin|_]; [done|done].
Qed.

Lemma aggressive_coalesce_ok pcopy s : sets_inv s -> (forall c, c ∈ pcopy -> src_is_const c = false -> good (copy_src c) /\ good (copy_def c)) ->
  exists s', aggressive_coalesce_parallel_copy f st bips impl consider ddiv pcopy s = Some s' /\ sets_inv s' /\ coarser s s' /\ forall c, c ∈ pcopy -> src_is_const c = false -> settled_copy s' c.
Proof using DO Hnum Hmax.
  intros Hs Hc. unfold aggressive_coalesce_parallel_copy.
  destruct (for_each_rule (fun pre t => sets_inv t /\ coarser s t /\ forall c, c ∈ pre -> src_is_const c = false -> settled_copy t c) (coalesce_copy f st bips impl consider ddiv) pcopy s) as (s' & E & H1 & H2 & H3).
  - split; [done|]. split; [apply coarser_refl|]. by intros c ?%not_elem_of_nil.
  - intros pre c post t El (H1 & H2 & H3). destruct (coalesce_copy_ok c t H1) as (t' & -> & Ht & Hx & Hd); [apply Hc; rewrite El; apply elem_of_app; right; left|].
    exists t'. split; [done|]. split; [done|]. split; [by eapply coarser_trans|]. intros c' [Hin| ->%list_elem_of_singleton]%elem_of_app Hk; [|auto]. eapply settled_coarser; [exact Hx|auto].
  - exists s'. auto.
Qed.

(** Both loops *)
Lemma coalesce_impl_ok copies : NoDup all_phis -> (forall phi, phi ∈ all_phis -> Forall good (web phi) /\ forall x y, x ∈ web phi -> y ∈ web phi -> x <> y -> ~ itf x y) ->
  (forall phi phi' x, phi ∈ all_phis -> phi' ∈ all_phis -> x ∈ web phi -> x ∈ web phi' -> phi = phi') ->
  (forall bc c, bc ∈ copies -> c ∈ bc.1 ++ bc.2 -> src_is_const c = false -> good (copy_src c) /\ good (copy_def c)) ->
  exists s, coalesce_impl f st bips impl consider ddiv copies = Some s /\ sets_inv s /\ (forall phi x, phi ∈ all_phis -> x ∈ web phi -> together s phi.1 x) /\
    forall bc c, bc ∈ copies -> c ∈ bc.1 ++ bc.2 -> src_is_const c = false -> settled_copy s c.
Proof using DO Hnum Hmax.
  intros H1 H2 H3 Hc. unfold coalesce_impl. destruct (coalesce_blocks_ok H1 H2 H3) as (s0 & -> & Hs0 & Hphi). cbn [mbind option_bind].
  destruct (for_each_rule (fun pre s => sets_inv s /\ coarser s0 s /\ forall bc c, bc ∈ pre -> c ∈ bc.1 ++ bc.2 -> src_is_const c = false -> settled_copy s c)
    (aggressive_coalesce_block f st bips impl consider ddiv) copies s0) as (s & E & G1 & G2 & G3).
  - split; [done|]. split; [apply coarser_refl|]. by intros bc c ?%not_elem_of_nil.
  - intros pre bc post s El (G1 & G2 & G3). assert (Hin : bc ∈ copies) by (rewrite El; apply elem_of_app; right; left). unfold aggressive_coalesce_block.
    destruct (aggressive_coalesce_ok bc.1 s G1) as (s1 & -> & F1 & F2 & F3); [intros c Hcin; apply (Hc bc c Hin), elem_of_app; by left|]. cbn [mbind option_bind].
    destruct (aggressive_coalesce_ok bc.2 s1 F1) as (s2 & -> & K1 & K2 & K3); [intros c Hcin; apply (Hc bc c Hin), elem_of_app; by right|].
    exists s2. split; [done|]. split; [done|]. assert (Hx : coarser s s2) by (by eapply coarser_trans). split; [by eapply coarser_trans|].
    intros bc' c [Hp| ->%list_elem_of_singleton]%elem_of_app Hcin Hk; [eapply settled_coarser; [exact Hx|eauto]|]. apply elem_of_app in Hcin as [Hcin|Hcin]; [|auto]. eapply settled_coarser; [exact K2|auto].
  - exists s. split; [done|]. split; [done|]. split; [|done]. intros phi x Hp Hx. apply G2. by apply Hphi.
Qed.
End walks.
