(* ===== verification/NirCoalesce.v ===== *)
(** * Coalescing is safe (src/compiler/nir/nir_from_ssa.c)

    The functions that the walks of NirMergeSets.v call are an instance of its interface: the order is that of a walk of the dominance
    tree, by the numbers of NirDomCorrect.v, and interference is that of NirInterfere.v.  After phis have been isolated by copies, their webs are free of
    interference, and so is every set that coalescing builds. *)

From Stdlib Require Import ZArith Lia.
From stdpp Require Import base list gmap numbers option sorting relations.
From S2P Require Import Prelude Rmq NirDominance NirDomPaths NirDomForest NirDomTree NirDomCorrect NirLiveness NirInterfere NirMergeSets.
Local Open Scope nat_scope.

(** ** The order of the dominance tree *)

Section instance.
Context (f : list code_block) (ssa_alloc : nat) (Hok : code_ok f ssa_alloc) (Hssa : ssa_ok f) (Hg : cfg_ok (cfg f)) (Hsize : (Z.of_nat (base f) < 2 ^ 32)%Z).
Context (st : live_defs_state) (Hst : forall b, b < length f -> exists li lo : gset nat, ls_in st !! b = Some li /\ ls_out st !! b = Some lo /\
  (forall d, d ∈ lo <-> live_out f b d) /\ (forall d, d ∈ li <-> live_in f b d)).
Context (impl : nir_function_impl) (C : dforest) (Hdom : dom_result (cfg f) (blocks impl) C).
Context (Hflag : (Z.land (valid_metadata impl) nir_metadata_dominance =? 0)%Z = false).
Notation g := (cfg f).
Notation bips := (nir_index_instrs f 0).1.

(** Values that are not undefined, in blocks that can be reached *)
Definition mergeable (d : nat) : Prop := exists p, defined_at f d p /\ reachable g p.1 /\ nir_def_is_undef f d = false.

(** The order of a walk of the dominance tree *)
Definition pos_order (p q : nat * nat) : Prop := (p.1 = q.1 /\ p.2 < q.2) \/
  (p.1 <> q.1 /\ exists bp bq, blocks impl !! p.1 = Some bp /\ blocks impl !! q.1 = Some bq /\ (dom_pre_index bp < dom_pre_index bq)%Z).

Definition node_lt (a b : nat) : Prop := exists p q, defined_at f a p /\ defined_at f b q /\ pos_order p q.
Definition node_dom (a b : nat) : Prop := exists p q, defined_at f a p /\ defined_at f b q /\ pos_before f p q.

Lemma node_lt_at a b p q : defined_at f a p -> defined_at f b q -> node_lt a b <-> pos_order p q.
Proof using Hssa.
  intros Ha Hb. split; [|by exists p, q]. intros (p' & q' & Ha' & Hb' & H). by rewrite (ssa_unique f Hssa a p p' Ha Ha'), (ssa_unique f Hssa b q q' Hb Hb').
Qed.

Lemma node_dom_at a b p q : defined_at f a p -> defined_at f b q -> node_dom a b <-> pos_before f p q.
Proof using Hssa.
  intros Ha Hb. split; [|by exists p, q]. intros (p' & q' & Ha' & Hb' & H). by rewrite (ssa_unique f Hssa a p p' Ha Ha'), (ssa_unique f Hssa b q q' Hb Hb').
Qed.

Lemma reachable_numbered b : reachable g b -> exists blk, blocks impl !! b = Some blk.
Proof using Hdom Hg. intros Hb. apply lookup_lt_is_Some_2. rewrite (dr_length g (blocks impl) C Hdom). by apply (reachable_in_range g b Hg). Qed.

Lemma pos_order_trans p q r : pos_order p q -> pos_order q r -> pos_order p r.
Proof.
  intros [[E1 H1]|[N1 (bp & bq & Ep & Eq & H1)]] [[E2 H2]|[N2 (bq' & br & Eq' & Er & H2)]].
  - left. split; [congruence|lia].
  - right. rewrite E1. split; [done|by exists bq', br].
  - right. rewrite <- E2. split; [done|by exists bp, bq].
  - assert (bq' = bq) as -> by congruence. right. split; [intros E; rewrite E in Ep; assert (bp = br) as -> by congruence; lia|]. exists bp, br. split; [done|]. split; [done|lia].
Qed.

Lemma pos_order_irrefl p : ~ pos_order p p.
Proof. intros [[_ H]|[H _]]; [lia|done]. Qed.

Lemma pos_order_total p q : p <> q -> reachable g p.1 -> reachable g q.1 -> pos_order p q \/ pos_order q p.
Proof using Hdom Hg.
  intros Hne Hp Hq. destruct (decide (p.1 = q.1)) as [E|N].
  - assert (p.2 <> q.2) by (intros E'; apply Hne; destruct p, q; cbn in *; congruence). destruct (decide (p.2 < q.2)); [left; by left|right; left; split; [done|lia]].
  - destruct (reachable_numbered p.1 Hp) as [bp Ep], (reachable_numbered q.1 Hq) as [bq Eq].
    assert (Hn : dom_pre_index bp <> dom_pre_index bq) by (intros E; by apply N, (numbers_distinct g (blocks impl) C Hg Hdom p.1 q.1 bp bq)).
    destruct (Z.lt_trichotomy (dom_pre_index bp) (dom_pre_index bq)) as [H|[H|H]]; [left; right; split; [done|by exists bp, bq]|done|right; right; split; [done|by exists bq, bp]].
Qed.

Lemma before_order p q : reachable g q.1 -> pos_before f p q -> pos_order p q.
Proof using Hdom Hg.
  intros Hq [?|[N Hd]]; [by left|right]. split; [done|]. pose proof (dominates_reachable g p.1 q.1 Hq Hd) as Hp.
  destruct (reachable_numbered p.1 Hp) as [bp Ep], (reachable_numbered q.1 Hq) as [bq Eq]. exists bp, bq. split; [done|]. split; [done|].
  apply (dominates_numbers g (blocks impl) C Hg Hdom p.1 q.1 bp bq Ep Eq) in Hd.
  assert (dom_pre_index bp <> dom_pre_index bq) by (intros E; by apply N, (numbers_distinct g (blocks impl) C Hg Hdom p.1 q.1 bp bq)). lia.
Qed.

Lemma pos_before_trans p q r : reachable g r.1 -> pos_before f p q -> pos_before f q r -> pos_before f p r.
Proof using Hg.
  intros Hr [[E1 H1]|[N1 H1]] [[E2 H2]|[N2 H2]].
  - left. split; [congruence|lia].
  - right. by rewrite E1.
  - right. by rewrite <- E2.
  - right. pose proof (dominates_reachable g q.1 r.1 Hr H2) as Hq. split; [|by eapply dominates_trans]. intros E. rewrite E in H1.
    pose proof (dominates_le f Hg _ _ Hq H1). pose proof (dominates_le f Hg _ _ Hr H2). lia.
Qed.

(** A walk of the tree visits what a node dominates without interruption. *)
Lemma order_between p q r : reachable g p.1 -> reachable g q.1 -> reachable g r.1 -> pos_order p q -> pos_order q r -> pos_before f p r -> pos_before f p q.
Proof using Hdom Hg.
  intros Hp Hq Hr [?|[N1 (bp & bq & Ep & Eq & H1)]] Hqr Hpr; [by left|right; split; [done|]].
  destruct Hqr as [[E2 _]|[N2 (bq' & br & Eq' & Er & H2)]].
  - rewrite E2 in *. destruct Hpr as [[? _]|[_ ?]]; done.
  - assert (bq' = bq) as -> by congruence. destruct Hpr as [[E _]|[N Hd]]; [rewrite E in Ep; assert (bp = br) as -> by congruence; lia|].
    apply (numbers_between g (blocks impl) C Hg Hdom p.1 q.1 r.1 bp bq br); try done. lia.
Qed.

Lemma def_after_ok a b : mergeable a -> mergeable b -> a <> b -> exists r, def_after f bips impl a b = Some r /\ (r = true <-> node_lt b a).
Proof using Hdom Hg Hssa Hsize.
  intros (p & Ha & Hp & Ua) (q & Hb & Hq & Ub) Hne. unfold def_after. rewrite Ua, Ub, (nir_def_instr_ok f a p Hssa Ha), (nir_def_instr_ok f b q Hssa Hb). cbn [mbind option_bind].
  setoid_rewrite (node_lt_at b a q p Hb Ha). destruct (decide (p.1 = q.1)) as [E|N].
  - destruct (index_order f q p Hsize (valid_site f b q Hb) (valid_site f a p Ha)) as (x & y & Ex & Ey & Hxy). rewrite Ex, Ey. cbn [mbind option_bind]. eexists. split; [done|].
    rewrite Z.gtb_lt, Hxy. unfold pos_lt, pos_order. split; [intros [?|?]; [lia|left; intuition lia]|intros [?|[? _]]; [right; intuition lia|congruence]].
  - destruct (reachable_numbered p.1 Hp) as [bp Ep], (reachable_numbered q.1 Hq) as [bq Eq]. rewrite Ep, Eq. cbn [mbind option_bind]. eexists. split; [done|]. rewrite Z.gtb_lt. unfold pos_order. split.
    + intros H. right. split; [congruence|]. by exists bq, bp.
    + intros [[? _]|[_ (bq' & bp' & Eq' & Ep' & H)]]; [congruence|]. assert (bq' = bq) as -> by congruence. by assert (bp' = bp) as -> by congruence.
Qed.

Lemma ssa_def_dominates_ok a b : mergeable a -> mergeable b -> node_lt a b -> exists r, ssa_def_dominates f bips impl a b = Some r /\ (r = true <-> node_dom a b).
Proof using Hdom Hg Hssa Hsize Hflag.
  intros Ga Gb Hlt. pose proof Ga as (p & Ha & Hp & Ua). pose proof Gb as (q & Hb & Hq & Ub). pose proof Hlt as Hlt'. apply (node_lt_at a b p q Ha Hb) in Hlt.
  assert (Hne : a <> b) by (intros ->; rewrite (ssa_unique f Hssa b p q Ha Hb) in Hlt; by apply pos_order_irrefl in Hlt).
  unfold ssa_def_dominates. rewrite Ua. destruct (def_after_ok a b Ga Gb Hne) as (r & -> & Hr). cbn [mbind option_bind].
  destruct r; [exfalso; apply (pos_order_irrefl p), (pos_order_trans p q p Hlt), (node_lt_at b a q p Hb Ha); by apply Hr|].
  rewrite (nir_def_instr_ok f a p Hssa Ha), (nir_def_instr_ok f b q Hssa Hb). cbn [mbind option_bind]. setoid_rewrite (node_dom_at a b p q Ha Hb). destruct (decide (p.1 = q.1)) as [E|N].
  - destruct (def_after_ok b a Gb Ga ltac:(done)) as (r & -> & Hr'). exists r. split; [done|]. rewrite Hr'. split; [intros _|done]. left. destruct Hlt as [?|[? _]]; done.
  - unfold nir_block_dominates. rewrite Hflag. cbn [negb]. destruct (reachable_numbered p.1 Hp) as [bp Ep], (reachable_numbered q.1 Hq) as [bq Eq]. rewrite Ep, Eq. cbn [mbind option_bind]. eexists. split; [done|].
    rewrite andb_true_iff, Z.geb_le, Z.leb_le, (dominates_numbers g (blocks impl) C Hg Hdom p.1 q.1 bp bq Ep Eq). unfold pos_before. split; [by right|]. intros [[? _]|[_ ?]]; done.
Qed.

(** With the order of the walk *)
Lemma interferes_lt a b : mergeable a -> mergeable b -> node_lt a b -> interferes f a b -> node_dom a b /\ exists q, defined_at f b q /\ live_after f q a.
Proof using Hdom Hg Hssa.
  intros (p0 & Ha0 & Hp0 & _) (q0 & Hb0 & Hq0 & _) Hlt (p & q & Ha & Hb & H). pose proof (ssa_unique f Hssa a p0 p Ha0 Ha) as ->. pose proof (ssa_unique f Hssa b q0 q Hb0 Hb) as ->.
  destruct H as [[H1 H2]|[H1 _]]; [split; [by exists p, q|by exists q]|]. exfalso. apply (node_lt_at a b p q Ha Hb) in Hlt. by apply (pos_order_irrefl p), (pos_order_trans p q p Hlt), before_order.
Qed.

#[local] Instance tree_order : DomOrder mergeable node_lt node_dom (interferes f) (def_after f bips impl) (ssa_def_dominates f bips impl) (nir_defs_interfere f st bips).
Proof using Hdom Hg Hssa Hsize Hflag Hok Hst ssa_alloc.
  split.
  - apply def_after_ok.
  - apply ssa_def_dominates_ok.
  - intros a b (p & Ha & Hp & Ua) (q & Hb & Hq & Ub) Hne. destruct (nir_defs_interfere_ok f ssa_alloc Hok Hssa Hg st Hst a b p q Hsize Hne Ha Hb Hp Hq) as (r & E & Hr). exists r. split; [done|]. tauto.
  - intros a (p & Ha & _) H%(node_lt_at a a p p Ha Ha). by apply pos_order_irrefl in H.
  - intros a b c (p & Ha & _) (q & Hb & _) (r & Hc & _) H1%(node_lt_at a b p q Ha Hb) H2%(node_lt_at b c q r Hb Hc). apply (node_lt_at a c p r Ha Hc). by eapply pos_order_trans.
  - intros a b (p & Ha & Hp & _) (q & Hb & Hq & _) Hne. rewrite (node_lt_at a b p q Ha Hb), (node_lt_at b a q p Hb Ha). apply pos_order_total; [|done|done]. intros ->. by apply Hne, (site_injective f a b q).
  - intros a b. apply interferes_sym.
  - intros a b c (p & Ha & _) (q & Hb & _) (r & Hc & Hr & _) H1%(node_dom_at a b p q Ha Hb) H2%(node_dom_at b c q r Hb Hc). apply (node_dom_at a c p r Ha Hc). by eapply pos_before_trans.
  - intros a b c (p & Ha & Hp & _) (q & Hb & Hq & _) (r & Hc & Hr & _) H1%(node_lt_at a b p q Ha Hb) H2%(node_lt_at b c q r Hb Hc) H3%(node_dom_at a c p r Ha Hc). apply (node_dom_at a b p q Ha Hb). by eapply order_between.
  - intros a b Ga Gb Hlt Hi. by apply interferes_lt.
  - intros a b c Ga Gb Gc H1 H2 H3 H4 Hi. destruct (interferes_lt a c Ga Gc) as (_ & r & Hc & Hl); [|done|].
    { destruct Ga as (p & Ha & _), Gb as (q & Hb & _), Gc as (r & Hc & _). apply (node_lt_at a c p r Ha Hc). apply (node_lt_at a b p q Ha Hb) in H1. apply (node_lt_at b c q r Hb Hc) in H2. by eapply pos_order_trans. }
    destruct Ga as (p & Ha & _), Gb as (q & Hb & _), Gc as (r' & Hc' & Hr & _). pose proof (ssa_unique f Hssa c r' r Hc' Hc) as ->. apply (node_dom_at a b p q Ha Hb) in H3. apply (node_dom_at b c q r Hb Hc) in H4.
    exists p, q. split; [done|]. split; [done|]. left. split; [done|]. by apply (live_back f ssa_alloc Hok Hssa Hg p q r a).
Qed.

(** ** Phis after isolation *)

(** What the parallel copies of [isolate_phi_nodes_block] establish: a phi is only read by copies in its own block, and each of its sources is defined at the end of the predecessor, by a
    copy that only this phi reads. *)
Record isolated : Prop := {
  iso_phis : NoDup (all_phis f);
  iso_reach : forall b blk x srcs, f !! b = Some blk -> (x, srcs) ∈ leading_phis (instrs blk) -> reachable g b;
  iso_def : forall b blk x srcs, f !! b = Some blk -> (x, srcs) ∈ leading_phis (instrs blk) ->
    (forall c blk' i, f !! c = Some blk' -> i ∈ instrs blk' -> x ∈ instr_srcs i -> c = b /\ is_phi i = false) /\ (forall c blk', f !! c = Some blk' -> if_condition blk' <> Some x);
  iso_src : forall b blk x srcs p d, f !! b = Some blk -> (x, srcs) ∈ leading_phis (instrs blk) -> (p, d) ∈ srcs -> nir_def_is_undef f d = false ->
    exists bp k, f !! p = Some bp /\ defined_at f d (p, k) /\ num_phis bp <= k /\
      (forall c blk' i, f !! c = Some blk' -> i ∈ instrs blk' -> d ∈ instr_srcs i -> i = PhiInstr x srcs) /\ (forall c blk', f !! c = Some blk' -> if_condition blk' <> Some d) /\
      (forall q, (q, d) ∈ srcs -> q = p) /\
      (p = b -> forall j i, instrs blk !! j = Some i -> x ∈ instr_srcs i -> j < k) }.

Context (Hiso : isolated).

Lemma phi_site b blk x srcs : f !! b = Some blk -> (x, srcs) ∈ leading_phis (instrs blk) -> exists k, k < num_phis blk /\ instrs blk !! k = Some (PhiInstr x srcs) /\ defined_at f x (b, k).
Proof using Hok.
  intros Hb Hphi. apply leading_phis_in in Hphi as [k Hk]%list_elem_of_lookup. exists k. pose proof (phi_position f ssa_alloc Hok b blk k _ Hb Hk) as E. cbn in E. symmetry in E. apply bool_decide_eq_true in E.
  split; [done|]. split; [done|]. by exists blk, (PhiInstr x srcs).
Qed.

Lemma all_phis_in phi : phi ∈ all_phis f <-> exists b blk, f !! b = Some blk /\ phi ∈ leading_phis (instrs blk).
Proof.
  unfold all_phis. rewrite list_elem_of_In, in_flat_map. setoid_rewrite <- list_elem_of_In. split.
  - intros (blk & [b Hb]%list_elem_of_lookup & Hp). eauto.
  - intros (b & blk & Hb & Hp). exists blk. split; [by eapply list_elem_of_lookup_2|done].
Qed.

Lemma phi_not_live_out b blk x srcs q : f !! b = Some blk -> (x, srcs) ∈ leading_phis (instrs blk) -> ~ live_out f q x.
Proof using Hiso.
  intros Hb Hphi. destruct (iso_def Hiso b blk x srcs Hb Hphi) as [Hrd Hcd]. intros Hl. remember x as y eqn:Ey in Hl. induction Hl as [p s bs [z zs] d Hs Hp Hz Hsrc _|p s bs d Hs Hp Hno Hr _|]; subst; [| |auto].
  - destruct (Hrd s bs (PhiInstr z zs) Hs (leading_phis_in _ _ _ Hz)) as [_ H]; [|done]. cbn. apply list_elem_of_fmap. exists (p, x). split; [done|by apply phi_src_in].
  - destruct (reads_cases _ _ _ Hr) as [(j & i & Hj & Hd & _)|[Hc _]]; [|by apply (Hcd s bs)]. apply list_elem_of_lookup_2 in Hj. apply list_elem_of_filter in Hj as [_ Hj].
    destruct (Hrd s bs i Hs Hj Hd) as [-> _]. assert (bs = blk) as -> by congruence. apply Hno. unfold phi_defs. apply list_elem_of_fmap. by exists (x, srcs).
Qed.

Lemma src_live_out b blk x srcs p d q : f !! b = Some blk -> (x, srcs) ∈ leading_phis (instrs blk) -> (p, d) ∈ srcs -> nir_def_is_undef f d = false -> live_out f q d -> q = p.
Proof using Hiso Hok.
  intros Hb Hphi Hsrc Hu Hl. destruct (iso_src Hiso b blk x srcs p d Hb Hphi Hsrc Hu) as (bp & k & Hbp & Hk & Hkn & Hrd & Hcd & Hone & _).
  remember d as y eqn:Ey in Hl. induction Hl as [q s bs [z zs] d' Hs Hq Hz Hzs _|q s bs d' Hs Hq Hno Hr _|q s bs d' Hs Hq Hno Hnd _ IH]; subst.
  - apply phi_src_in in Hzs. assert (E : PhiInstr z zs = PhiInstr x srcs) by (apply (Hrd s bs _ Hs (leading_phis_in _ _ _ Hz)); cbn; apply list_elem_of_fmap; by exists (q, d)).
    injection E as -> ->. by apply Hone.
  - exfalso. destruct (reads_cases _ _ _ Hr) as [(j & i & Hj & Hd & _)|[Hc _]]; [|by apply (Hcd s bs)]. apply list_elem_of_lookup_2 in Hj. apply list_elem_of_filter in Hj as [Hn Hj].
    rewrite (Hrd s bs i Hs Hj Hd) in Hn. done.
  - exfalso. rewrite (IH eq_refl) in Hs. assert (bs = bp) as -> by congruence. apply Hnd. by apply (defined_drop f ssa_alloc Hok p bp 0 d k Hbp Hk); lia.
Qed.

(** No source of a phi may be read, except on its edge. *)
Lemma src_no_reads b blk x srcs p d c blk' l : f !! b = Some blk -> (x, srcs) ∈ leading_phis (instrs blk) -> (p, d) ∈ srcs -> nir_def_is_undef f d = false ->
  f !! c = Some blk' -> l ⊆ body blk' -> ~ reads d l (if_condition blk').
Proof using Hiso.
  intros Hb Hphi Hsrc Hu Hc Hsub Hr. destruct (iso_src Hiso b blk x srcs p d Hb Hphi Hsrc Hu) as (_ & _ & _ & _ & _ & Hrd & Hcd & _).
  destruct (reads_cases _ _ _ Hr) as [(j & i & Hj & Hd & _)|[E _]]; [|by apply (Hcd c blk')]. apply list_elem_of_lookup_2, Hsub, list_elem_of_filter in Hj as [Hn Hj]. by rewrite (Hrd c blk' i Hc Hj Hd) in Hn.
Qed.

Lemma rest_sub blk k : rest_of blk k ⊆ body blk.
Proof. intros i [Hn Hi]%list_elem_of_filter. apply list_elem_of_filter. split; [done|]. apply list_elem_of_lookup in Hi as [j Hj]. rewrite lookup_drop in Hj. by eapply list_elem_of_lookup_2. Qed.

(** A source is dead after the phi, and the phi after its sources. *)
Lemma src_dead b blk x srcs p d q : f !! b = Some blk -> (x, srcs) ∈ leading_phis (instrs blk) -> (p, d) ∈ srcs -> nir_def_is_undef f d = false ->
  live_after f q d -> q.1 = p /\ exists bp, f !! p = Some bp /\ ~ defines d (rest_of bp q.2).
Proof using Hiso Hok.
  intros Hb Hphi Hsrc Hu (blk' & Hb' & _ & blk2 & Hb2 & Hl). assert (blk2 = blk') as -> by congruence.
  destruct Hl as [Hr|[Hnd Hl]]; [exfalso; by apply (src_no_reads b blk x srcs p d q.1 blk' (rest_of blk' q.2) Hb Hphi Hsrc Hu Hb' (rest_sub blk' q.2))|].
  pose proof (src_live_out b blk x srcs p d q.1 Hb Hphi Hsrc Hu Hl) as <-. eauto.
Qed.

Lemma web_free phi : phi ∈ all_phis f -> forall x y, x ∈ web f phi -> y ∈ web f phi -> x <> y -> ~ interferes f x y.
Proof using Hiso Hok Hssa.
  intros (b & blk & Hb & Hphi)%all_phis_in. destruct phi as [x srcs]. destruct (phi_site b blk x srcs Hb Hphi) as (kx & Hkx & Hix & Hx).
  assert (Hweb : forall d, d ∈ web f (x, srcs) -> d = x \/ exists p, (p, d) ∈ srcs /\ nir_def_is_undef f d = false).
  { intros d [->|[Hu ([p d'] & -> & Hin)%list_elem_of_fmap]%list_elem_of_filter]%elem_of_cons; [by left|right]. by exists p. }
  assert (Hxd : forall p d, (p, d) ∈ srcs -> nir_def_is_undef f d = false -> ~ interferes f x d).
  { intros p d Hsrc Hu (p1 & q1 & H1 & H2 & H). destruct (iso_src Hiso b blk x srcs p d Hb Hphi Hsrc Hu) as (bp & k & Hbp & Hd & Hk & _ & _ & _ & Hord).
    rewrite (ssa_unique f Hssa x p1 (b, kx) H1 Hx), (ssa_unique f Hssa d q1 (p, k) H2 Hd) in H. destruct H as [[_ Hl]|[_ Hl]].
    - destruct Hl as (blk' & Hb' & _ & blk2 & Hb2 & Hl). cbn in *. assert (blk2 = bp) as -> by congruence. assert (blk' = bp) as -> by congruence. destruct Hl as [Hr|[_ Hl]]; [|by apply (phi_not_live_out b blk x srcs p Hb Hphi)].
      destruct (iso_def Hiso b blk x srcs Hb Hphi) as [Hrd Hcd]. destruct (reads_cases _ _ _ Hr) as [(j & i & Hj & Hxi & _)|[E _]]; [|by apply (Hcd p bp)].
      apply list_elem_of_lookup_2 in Hj. apply list_elem_of_filter in Hj as [_ [j' Hj']%list_elem_of_lookup]. rewrite lookup_drop in Hj'.
      destruct (Hrd p bp i Hbp (list_elem_of_lookup_2 _ _ _ Hj') Hxi) as [-> _]. assert (bp = blk) as -> by congruence. specialize (Hord eq_refl _ _ Hj' Hxi). lia.
    - destruct (src_dead b blk x srcs p d (b, kx) Hb Hphi Hsrc Hu Hl) as (E & bp' & Hbp' & Hnd). cbn in *. subst p. assert (bp' = blk) as -> by congruence. assert (bp = blk) as -> by congruence.
      apply Hnd. rewrite (rest_of_ok f ssa_alloc Hok b blk kx Hb). apply (defined_drop f ssa_alloc Hok b blk _ d k Hb Hd). lia. }
  assert (Hdd : forall p d p' d', (p, d) ∈ srcs -> nir_def_is_undef f d = false -> (p', d') ∈ srcs -> nir_def_is_undef f d' = false -> d <> d' -> forall q, defined_at f d' q -> ~ live_after f q d).
  { intros p d p' d' Hs Hu Hs' Hu' Hne q Hq Hl. destruct (src_dead b blk x srcs p d q Hb Hphi Hs Hu Hl) as (E & _).
    destruct (iso_src Hiso b blk x srcs p' d' Hb Hphi Hs' Hu') as (_ & k & _ & Hd' & _). rewrite (ssa_unique f Hssa d' q (p', k) Hq Hd') in E. cbn in E. subst p'. apply leading_phis_in in Hphi.
    destruct (ssa_phi f Hssa b blk x srcs p d Hb Hphi Hs) as (_ & _ & E1 & _), (ssa_phi f Hssa b blk x srcs p d' Hb Hphi Hs') as (_ & _ & E2 & _). congruence. }
  intros y z Hy Hz Hne. destruct (Hweb y Hy) as [->|(p & Hs & Hu)], (Hweb z Hz) as [->|(p' & Hs' & Hu')]; [done|by apply (Hxd p')| |].
  - rewrite interferes_sym. by apply (Hxd p).
  - intros (q & q' & H1 & H2 & [[_ Hl]|[_ Hl]]); [by apply (Hdd p y p' z Hs Hu Hs' Hu' Hne q')|]. apply (Hdd p' z p y Hs' Hu' Hs Hu ltac:(done) q); done.
Qed.

Lemma web_unique phi phi' y : phi ∈ all_phis f -> phi' ∈ all_phis f -> y ∈ web f phi -> y ∈ web f phi' -> phi = phi'.
Proof using Hiso Hok Hssa.
  intros (b & blk & Hb & Hphi)%all_phis_in (b' & blk' & Hb' & Hphi')%all_phis_in. destruct phi as [x srcs], phi' as [x' srcs'].
  assert (Hmix : forall b blk x srcs b' blk' x' srcs', f !! b = Some blk -> (x, srcs) ∈ leading_phis (instrs blk) -> f !! b' = Some blk' -> (x', srcs') ∈ leading_phis (instrs blk') ->
    x ∈ filter (fun d => nir_def_is_undef f d = false) srcs'.*2 -> False).
  { clear - Hiso. intros b blk x srcs b' blk' x' srcs' Hb Hp Hb' Hp' [_ Hin]%list_elem_of_filter. destruct (iso_def Hiso b blk x srcs Hb Hp) as [Hrd _].
    by destruct (Hrd b' blk' (PhiInstr x' srcs') Hb' (leading_phis_in _ _ _ Hp') Hin) as [_ H]. }
  intros [->|Hy]%elem_of_cons [Hy'|Hy']%elem_of_cons; cbn [fst snd] in *.
  - subst x'. destruct (phi_site b blk x srcs Hb Hphi) as (k & _ & Hk & Hd), (phi_site b' blk' x srcs' Hb' Hphi') as (k' & _ & Hk' & Hd'). pose proof (ssa_unique f Hssa x _ _ Hd Hd') as [= -> ->]. congruence.
  - exfalso. by apply (Hmix b blk x srcs b' blk' x' srcs').
  - subst y. exfalso. by apply (Hmix b' blk' x' srcs' b blk x srcs).
  - apply list_elem_of_filter in Hy as [Hu ([p y'] & -> & Hs)%list_elem_of_fmap]. apply list_elem_of_filter in Hy' as [_ Hs']. cbn in *.
    destruct (iso_src Hiso b blk x srcs p y' Hb Hphi Hs Hu) as (_ & _ & _ & _ & _ & Hrd & _). pose proof (Hrd b' blk' (PhiInstr x' srcs') Hb' (leading_phis_in _ _ _ Hphi') Hs') as E. congruence.
Qed.

Lemma web_mergeable phi : phi ∈ all_phis f -> Forall mergeable (web f phi).
Proof using Hiso Hok Hssa.
  intros (b & blk & Hb & Hphi)%all_phis_in. destruct phi as [x srcs]. apply Forall_forall. intros y [->|[Hu ([p y'] & -> & Hs)%list_elem_of_fmap]%list_elem_of_filter]%elem_of_cons; cbn in *.
  - destruct (phi_site b blk x srcs Hb Hphi) as (k & _ & Hk & Hd). exists (b, k). split; [done|]. split; [by apply (iso_reach Hiso b blk x srcs)|]. by rewrite (undef_site f Hssa x (b, k) blk _ Hd Hb Hk).
  - destruct (iso_src Hiso b blk x srcs p y' Hb Hphi Hs Hu) as (_ & k & _ & Hd & _). exists (p, k). split; [done|]. split; [|done].
    by destruct (ssa_phi f Hssa b blk x srcs p y' Hb (leading_phis_in _ _ _ Hphi) Hs) as (_ & Hr & _).
Qed.
End instance.

(** ** The pass *)

(** What the coalescing works on: a function in SSA form, and its dominance metadata as it was *)
Record from_ssa_ok (f : list code_block) (ssa_alloc : nat) (impl : nir_function_impl) : Prop := {
  fo_code : code_ok f ssa_alloc;
  fo_ssa : ssa_ok f;
  fo_cfg : cfg_ok (cfg f);
  fo_size : (Z.of_nat (base f) < 2 ^ 32)%Z;
  fo_meta : dom_meta (cfg f) impl }.

(** The metadata that [nir_convert_from_ssa_impl] requires *)
Lemma metadata_ok f ssa_alloc ins outs impl : from_ssa_ok f ssa_alloc impl -> length ins = length f -> length outs = length f ->
  exists st impl', nir_live_defs_impl f ssa_alloc ins outs = Some st /\ require_dominance impl = Some impl' /\
    DomOrder (mergeable f) (node_lt f impl') (node_dom f) (interferes f) (def_after f (nir_index_instrs f 0).1 impl') (ssa_def_dominates f (nir_index_instrs f 0).1 impl') (nir_defs_interfere f st (nir_index_instrs f 0).1).
Proof.
  intros [Hok Hssa Hg Hsize Hm] Hi Ho. destruct (nir_live_defs_impl_spec f ssa_alloc ins outs Hok Hi Ho) as (st & Est & Hst). destruct (require_dominance_ok (cfg f) impl Hg Hm) as (bs & C & Ed & HC & _).
  eexists st, _. split; [done|]. split; [exact Ed|]. by apply (tree_order f ssa_alloc Hok Hssa Hg Hsize st Hst _ C); [|apply has_dominance].
Qed.

Lemma mergeable_bound f ssa_alloc : code_ok f ssa_alloc -> forall d, mergeable f d -> d < ssa_alloc.
Proof. intros Hok d ([b k] & (blk & i & Hb & Hi & Hd) & _). apply (ck_defs _ _ Hok b blk i d); [done|by eapply list_elem_of_lookup_2|done]. Qed.

(** C8: merge_sets_interfere.  After the metadata have been required, for any two different sets that are sorted and free of interference, the single walk over both of them that only looks
    at the nearest dominator ends within its array, and returns true exactly if some value of one set interferes with some value of the other. *)
Theorem merge_sets_interfere_correct f ssa_alloc ins outs impl : from_ssa_ok f ssa_alloc impl -> length ins = length f -> length outs = length f ->
  exists st impl', nir_live_defs_impl f ssa_alloc ins outs = Some st /\ require_dominance impl = Some impl' /\
  forall s a b ma mb, sets_inv (mergeable f) (node_lt f impl') (interferes f) s -> merge_sets s !! a = Some ma -> merge_sets s !! b = Some mb -> a <> b ->
  exists r, merge_sets_interfere f st (nir_index_instrs f 0).1 impl' a b s = Some r /\
    (r = true <-> exists x y, x ∈ ms_nodes ma /\ y ∈ ms_nodes mb /\ interferes f x y).
Proof.
  intros Hf Hi Ho. destruct (metadata_ok f ssa_alloc ins outs impl Hf Hi Ho) as (st & impl' & E1 & E2 & DO). exists st, impl'. split; [done|]. split; [done|]. intros s a b ma mb.
  apply (merge_sets_interfere_ok f st _ impl' (mergeable f) (node_lt f impl') (node_dom f) (interferes f) ssa_alloc (mergeable_bound f ssa_alloc (fo_code _ _ _ Hf)) (ck_alloc _ _ (fo_code _ _ _ Hf))).
Qed.

(** C7: coalescing.  For a function whose phis have been isolated by copies, the loops that coalesce phis and parallel copies succeed; afterwards no two values that share a set interfere, every
    phi is in one set with all its sources that are defined, and each copy of a value that is not constant has source and destination in one set, unless the divergence of
    their sets differs or a value of one interferes with a value of the other. *)
Theorem coalesce_impl_correct f ssa_alloc ins outs impl consider ddiv copies : from_ssa_ok f ssa_alloc impl -> isolated f -> length ins = length f -> length outs = length f ->
  (forall bc c, bc ∈ copies -> c ∈ bc.1 ++ bc.2 -> src_is_const c = false -> mergeable f (copy_src c) /\ mergeable f (copy_def c)) ->
  exists st impl' s, nir_live_defs_impl f ssa_alloc ins outs = Some st /\ require_dominance impl = Some impl' /\
    coalesce_impl f st (nir_index_instrs f 0).1 impl' consider ddiv copies = Some s /\
    (forall x y, together s x y -> x <> y -> ~ interferes f x y) /\ (forall phi x, phi ∈ all_phis f -> x ∈ web f phi -> together s phi.1 x) /\
    (forall bc c, bc ∈ copies -> c ∈ bc.1 ++ bc.2 -> src_is_const c = false -> settled_copy (interferes f) s c).
Proof.
  intros Hf Hiso Hi Ho Hc. destruct (metadata_ok f ssa_alloc ins outs impl Hf Hi Ho) as (st & impl' & E1 & E2 & DO). pose proof Hf as [Hok Hssa _ _ _].
  destruct (coalesce_impl_ok f st _ impl' (mergeable f) (node_lt f impl') (node_dom f) (interferes f) ssa_alloc (mergeable_bound f ssa_alloc Hok) (ck_alloc _ _ Hok) consider ddiv copies) as (s & E & Hs & Hphi & Hset).
  - apply (iso_phis f Hiso).
  - intros phi Hp. split; [by apply (web_mergeable f ssa_alloc Hok Hssa Hiso)|by apply (web_free f ssa_alloc Hok Hssa Hiso)].
  - intros phi phi' x. by apply (web_unique f ssa_alloc Hok Hssa Hiso).
  - done.
  - exists st, impl', s. split; [done|]. split; [done|]. split; [done|]. split; [|done]. intros x y (k & Hx & Hy) Hne.
    destruct (proj1 (si_table _ _ _ s Hs x k) Hx) as (m & Hm & Hxm), (proj1 (si_table _ _ _ s Hs y k) Hy) as (m' & Hm' & Hym). assert (m' = m) as -> by congruence.
    destruct (si_sets _ _ _ s Hs k m Hm) as [Hset' _]. by apply (sk_free _ _ _ _ Hset').
Qed.

(** ** The example *)

Definition loop_impl : nir_function_impl := NirImpl (map (fun b => NirBlock 0 (block_preds b) (Some 3) 7 [] ∅ 9 9) loop_code) 0 0 range_minimum_query_table_init [].

Lemma loop_from_ssa_ok : from_ssa_ok loop_code 7 loop_impl.
Proof. split; [apply loop_code_ok|apply loop_ssa_ok|apply loop_cfg_ok|vm_compute; done|]. split; [reflexivity|done|done]. Qed.

Lemma loop_isolated : isolated loop_code.
Proof.
  split.
  - apply (bool_decide_unpack _). vm_compute. done.
  - intros b blk x srcs Hb _. apply loop_reachable. by apply lookup_lt_Some in Hb.
  - intros b blk x srcs Hb Hx. loop_blocks Hb; cbn in Hx; list_cases. split.
    + intros c blk' i Hc Hi Hx. loop_blocks Hc; cbn in Hi; list_cases; try lia.
    + intros c blk' Hc. loop_blocks Hc; done.
  - intros b blk x srcs p d Hb Hx Hp Hu. loop_blocks Hb; cbn in Hx; list_cases.
    + eexists _, 1. split; [reflexivity|]. split; [apply (loop_defined 1); lia|]. split; [vm_compute; lia|]. split_and!.
      * intros c blk' i Hc Hi Hd. loop_blocks Hc; cbn in Hi; list_cases; try lia; done.
      * intros c blk' Hc. loop_blocks Hc; done.
      * intros q Hq. list_cases; congruence.
      * done.
    + eexists _, 1. split; [reflexivity|]. split; [apply (loop_defined 5); lia|]. split; [vm_compute; lia|]. split_and!.
      * intros c blk' i Hc Hi Hd. loop_blocks Hc; cbn in Hi; list_cases; try lia; done.
      * intros c blk' Hc. loop_blocks Hc; done.
      * intros q Hq. list_cases; congruence.
      * done.
Qed.

Lemma loop_mergeable d : d < 7 -> mergeable loop_code d.
Proof. intros Hd. exists (loop_site d). split; [by apply loop_defined|]. split; [apply loop_reachable|]; destruct d as [|[|[|[|[|[|[|d]]]]]]]; cbn; (lia || done). Qed.

(** The copies at the end of the first block, at the start of the second and at the end of the third *)
Definition loop_copies : list (list ssa_copy * list ssa_copy) := [([], [SsaCopy 0 false 1]); ([SsaCopy 2 false 3], []); ([], [SsaCopy 4 false 5]); ([], [])].

Example loop_coalesced : (st ← nir_live_defs_impl loop_code 7 (replicate 4 ∅) (replicate 4 ∅); impl ← require_dominance loop_impl;
    s ← coalesce_impl loop_code st (nir_index_instrs loop_code 0).1 impl true (fun _ => true) loop_copies; Some (ms_nodes <$> merge_sets s)) = Some [[]; []; []; []; []; [0; 1; 2; 3; 4; 5]].
Proof. vm_compute. reflexivity. Qed.

Lemma coalesce_impl_correct_witness : exists st impl' s, nir_live_defs_impl loop_code 7 (replicate 4 ∅) (replicate 4 ∅) = Some st /\ require_dominance loop_impl = Some impl' /\
  coalesce_impl loop_code st (nir_index_instrs loop_code 0).1 impl' true (fun _ => true) loop_copies = Some s /\ together s 2 5 /\ settled_copy (interferes loop_code) s (SsaCopy 4 false 5).
Proof.
  destruct (coalesce_impl_correct loop_code 7 (replicate 4 ∅) (replicate 4 ∅) loop_impl true (fun _ => true) loop_copies loop_from_ssa_ok loop_isolated eq_refl eq_refl) as (st & impl' & s & E1 & E2 & E3 & _ & Hphi & Hset).
  { intros bc c Hbc Hc _. unfold loop_copies in Hbc. list_cases; split; apply loop_mergeable; lia. }
  exists st, impl', s. split; [exact E1|]. split; [exact E2|]. split; [exact E3|]. split.
  - apply (Hphi (2, [(0, 1); (2, 5)])); [left|]. apply (bool_decide_unpack _). vm_compute. exact I.
  - apply (Hset ([], [SsaCopy 4 false 5])); [right; right; left|left|reflexivity].
Defined.

(** Two sets of one value each *)
Definition two_sets : from_ssa_state := FromSsa {[3 := 0; 6 := 1]} [MergeSet [3] 1 false; MergeSet [6] 1 false].

Lemma two_sets_inv impl : sets_inv (mergeable loop_code) (node_lt loop_code impl) (interferes loop_code) two_sets.
Proof.
  assert (Hone : forall d, d < 7 -> set_ok (mergeable loop_code) (node_lt loop_code impl) (interferes loop_code) [d]).
  { intros d Hd. split; [by repeat constructor|by repeat constructor; apply loop_mergeable|]. by intros x y ->%list_elem_of_singleton ->%list_elem_of_singleton. }
  split.
  - intros d k. cbn. rewrite lookup_insert_Some, lookup_singleton_Some. split.
    + intros [[<- <-]|[_ [<- <-]]]; eexists; (split; [reflexivity|left]).
    + intros (m & Hm & Hd). destruct k as [|[|k]]; [injection Hm as <-; cbn in Hd; list_cases; lia..|done].
  - intros k m Hm. destruct k as [|[|k]]; [injection Hm as <-; (split; [apply Hone; lia|done])..|done].
Qed.

Lemma merge_sets_interfere_correct_witness : exists st impl' r, nir_live_defs_impl loop_code 7 (replicate 4 ∅) (replicate 4 ∅) = Some st /\ require_dominance loop_impl = Some impl' /\
  merge_sets_interfere loop_code st (nir_index_instrs loop_code 0).1 impl' 0 1 two_sets = Some r /\ (r = true <-> exists x y, x ∈ [3] /\ y ∈ [6] /\ interferes loop_code x y).
Proof.
  destruct (merge_sets_interfere_correct loop_code 7 (replicate 4 ∅) (replicate 4 ∅) loop_impl loop_from_ssa_ok eq_refl eq_refl) as (st & impl' & E1 & E2 & H).
  destruct (H two_sets 0 1 _ _ (two_sets_inv impl') eq_refl eq_refl ltac:(done)) as (r & Er & Hr). exists st, impl', r. split; [exact E1|]. split; [exact E2|]. split; [exact Er|exact Hr].
Defined.
