(* ===== verification/Vma.v ===== *)
(** * The virtual address space allocator (src/util/vma.c, vma.h)

    A heap is a doubly-linked list of holes ordered from high to low addresses;
    the list is a Rocq list here, a pointer to a hole is a position in it (the
    part before it, the hole, the part after it).  The allocator's contract is
    about the set of free addresses, [is_free]; the concrete state is a canonical
    representation of that set. *)

From Stdlib Require Import ZArith Lia.
From stdpp Require Import base list numbers option sets.
From S2P Require Import Prelude.
Local Open Scope Z_scope.

(** ** State *)

Record util_vma_hole := Hole {
  h_offset : Z;
  h_size : Z;
}.

Record util_vma_heap := Heap {
  holes : list util_vma_hole;
  free_size : Z;
  alloc_high : bool;
  nospan_shift : Z;
}.

Definition set_holes (h : util_vma_heap) (l : list util_vma_hole) : util_vma_heap :=
  Heap l (free_size h) (alloc_high h) (nospan_shift h).
Definition set_free_size (h : util_vma_heap) (z : Z) : util_vma_heap :=
  Heap (holes h) z (alloc_high h) (nospan_shift h).

(** ** Operations *)

(** The loop of [util_vma_heap_validate]: [first] tells whether the hole is the
    head of the list; the result is the accumulated free size. *)
Fixpoint validate_loop (first : bool) (prev_offset acc : Z) (l : list util_vma_hole) : option Z :=
  match l with
  | [] => Some acc
  | hole :: l =>
      assert! h_offset hole >? 0 ;;
      assert! h_size hole >? 0 ;;
      let top := u64 (h_size hole + h_offset hole) in
      assert! (if first then (top =? 0) || (top >? h_offset hole)
               else (top >? h_offset hole) && (top <? prev_offset)) ;;
      validate_loop false (h_offset hole) (u64 (acc + h_size hole)) l
  end.

Definition util_vma_heap_validate (heap : util_vma_heap) : bool :=
  match validate_loop true 0 0 (holes heap) with
  | Some total => total =? free_size heap
  | None => false
  end.

(** [util_vma_hole_alloc] on the hole between [pre] and [post]. *)
Definition util_vma_hole_alloc (heap : util_vma_heap) (pre : list util_vma_hole)
    (hole : util_vma_hole) (post : list util_vma_hole) (offset size : Z) : option util_vma_heap :=
  assert! h_offset hole <=? offset ;;
  assert! h_size hole >=? u64 (u64 (offset - h_offset hole) + size) ;;
  let done (l : list util_vma_hole) :=
    Some (set_free_size (set_holes heap (pre ++ l ++ post)) (u64 (free_size heap - size))) in
  if (offset =? h_offset hole) && (size =? h_size hole) then done []
  else
    assert! u64 (offset - h_offset hole) <=? u64 (h_size hole - size) ;;
    let waste := u64 (u64 (h_size hole - size) - u64 (offset - h_offset hole)) in
    if waste =? 0 then done [Hole (h_offset hole) (u64 (h_size hole - size))]
    else if offset =? h_offset hole then
      done [Hole (u64 (h_offset hole + size)) (u64 (h_size hole - size))]
    else
      let high_hole := Hole (u64 (offset + size)) waste in
      done [high_hole; Hole (h_offset hole) (u64 (offset - h_offset hole))].

(** The offset tried in one hole when allocating from the top: [Some None] is
    [continue]. *)
Definition offset_high (nospan : Z) (hole : util_vma_hole) (size alignment : Z) : option (option Z) :=
  if size >? h_size hole then Some None
  else
    let align (offset : Z) : option (option Z) :=
      let offset := u64 (offset / alignment * alignment) in
      if offset <? h_offset hole then Some None else Some (Some offset) in
    let offset := u64 (u64 (h_size hole - size) + h_offset hole) in
    if nospan =? 0 then align offset
    else
      let last := u64 (u64 (offset + size) - 1) in
      if negb (Z.shiftr last nospan =? Z.shiftr offset nospan) then
        let last := Z.land last (not64 (BITFIELD64_MASK nospan)) in
        assert! last >=? size ;;
        let offset := u64 (offset - size) in
        if offset <? h_offset hole then Some None else align offset
      else align offset.

(** The offset tried in one hole when allocating from the bottom. *)
Definition offset_low (nospan : Z) (hole : util_vma_hole) (size alignment : Z) : option Z :=
  if size >? h_size hole then None
  else
    let offset := h_offset hole in
    let misalign := offset mod alignment in
    let pad := if negb (misalign =? 0) then u64 (alignment - misalign) else 0 in
    if negb (misalign =? 0) && (pad >? u64 (h_size hole - size)) then None
    else
      let offset := u64 (offset + pad) in
      if nospan =? 0 then Some offset
      else
        let last := u64 (u64 (offset + size) - 1) in
        if negb (Z.shiftr last nospan =? Z.shiftr offset nospan) then
          let offset := Z.land last (not64 (BITFIELD64_MASK nospan)) in
          if u64 (offset + size) >? u64 (h_offset hole + h_size hole) then None else Some offset
        else Some offset.

(** The two search loops: [pre] and [post] are the holes around the ones left to
    visit; the downward loop visits the list from its tail. *)
Fixpoint alloc_high_loop (heap : util_vma_heap) (size alignment : Z)
    (pre l : list util_vma_hole) : option (Z * util_vma_heap) :=
  match l with
  | [] => Some (0, heap)
  | hole :: l =>
      r ← offset_high (nospan_shift heap) hole size alignment;
      match r with
      | None => alloc_high_loop heap size alignment (pre ++ [hole]) l
      | Some offset =>
          heap ← util_vma_hole_alloc heap pre hole l offset size;
          assert! util_vma_heap_validate heap ;;
          Some (offset, heap)
      end
  end.

Fixpoint alloc_low_loop (heap : util_vma_heap) (size alignment : Z)
    (rl post : list util_vma_hole) : option (Z * util_vma_heap) :=
  match rl with
  | [] => Some (0, heap)
  | hole :: rl =>
      match offset_low (nospan_shift heap) hole size alignment with
      | None => alloc_low_loop heap size alignment rl (hole :: post)
      | Some offset =>
          heap ← util_vma_hole_alloc heap (rev rl) hole post offset size;
          assert! util_vma_heap_validate heap ;;
          Some (offset, heap)
      end
  end.

Definition util_vma_heap_alloc (heap : util_vma_heap) (size alignment : Z)
    : option (Z * util_vma_heap) :=
  assert! size >? 0 ;;
  assert! alignment >? 0 ;;
  assert! util_vma_heap_validate heap ;;
  assert! (if negb (nospan_shift heap =? 0) then
             match align64 (BITFIELD64_BIT (nospan_shift heap)) alignment with
             | Some a => a =? BITFIELD64_BIT (nospan_shift heap)
             | None => false
             end
           else true) ;;
  if alloc_high heap then alloc_high_loop heap size alignment [] (holes heap)
  else alloc_low_loop heap size alignment (rev (holes heap)) [].

Fixpoint alloc_addr_loop (heap : util_vma_heap) (offset size : Z)
    (pre l : list util_vma_hole) : option (bool * util_vma_heap) :=
  match l with
  | [] => Some (false, heap)
  | hole :: l =>
      if h_offset hole >? offset then alloc_addr_loop heap offset size (pre ++ [hole]) l
      else
        assert! h_offset hole <=? offset ;;
        if h_size hole <? u64 (u64 (offset - h_offset hole) + size) then Some (false, heap)
        else
          heap ← util_vma_hole_alloc heap pre hole l offset size;
          Some (true, heap)
  end.

Definition util_vma_heap_alloc_addr (heap : util_vma_heap) (offset size : Z)
    : option (bool * util_vma_heap) :=
  assert! offset >? 0 ;;
  assert! size >? 0 ;;
  assert! (u64 (offset + size) =? 0) || (u64 (offset + size) >? offset) ;;
  alloc_addr_loop heap offset size [] (holes heap).

(** The loop that finds the neighbours of a freed range: the holes above it, the
    last of which is [high_hole], and the rest, the first of which is [low_hole]. *)
Fixpoint free_split (offset : Z) (l : list util_vma_hole) : list util_vma_hole * list util_vma_hole :=
  match l with
  | [] => ([], [])
  | hole :: l' =>
      if h_offset hole <=? offset then ([], l)
      else let '(above, rest) := free_split offset l' in (hole :: above, rest)
  end.

(** The four ways of adding the range next to [high_hole] and [low_hole]. *)
Definition free_merge (offset size : Z) (high_adjacent low_adjacent : bool)
    (above rest : list util_vma_hole) : list util_vma_hole :=
  match list.last above, rest, high_adjacent, low_adjacent with
  | Some hh, lh :: rest, true, true =>
      removelast above
      ++ Hole (h_offset lh) (u64 (h_size lh + u64 (size + h_size hh))) :: rest
  | _, lh :: rest, _, true => above ++ Hole (h_offset lh) (u64 (h_size lh + size)) :: rest
  | Some hh, _, true, _ => removelast above ++ Hole offset (u64 (h_size hh + size)) :: rest
  | _, _, _, _ => above ++ Hole offset size :: rest
  end.

Definition util_vma_heap_free (heap : util_vma_heap) (offset size : Z) : option util_vma_heap :=
  assert! offset >? 0 ;;
  assert! size >? 0 ;;
  assert! (u64 (offset + size) =? 0) || (u64 (offset + size) >? offset) ;;
  assert! util_vma_heap_validate heap ;;
  let '(above, rest) := free_split offset (holes heap) in
  let high_hole := list.last above in
  let low_hole := list.head rest in
  assert! (match high_hole with Some hh => u64 (offset + size) <=? h_offset hh | None => true end) ;;
  let high_adjacent :=
    match high_hole with Some hh => u64 (offset + size) =? h_offset hh | None => false end in
  assert! (match low_hole with
           | Some lh => (u64 (h_offset lh + h_size lh) >? h_offset lh)
                        && (u64 (h_offset lh + h_size lh) <=? offset)
           | None => true end) ;;
  let low_adjacent :=
    match low_hole with Some lh => u64 (h_offset lh + h_size lh) =? offset | None => false end in
  let l := free_merge offset size high_adjacent low_adjacent above rest in
  let heap := set_free_size (set_holes heap l) (u64 (free_size heap + size)) in
  assert! util_vma_heap_validate heap ;;
  Some heap.

Definition util_vma_heap_init (start size : Z) : option util_vma_heap :=
  let heap := Heap [] 0 false 0 in
  heap ← (if size >? 0 then util_vma_heap_free heap start size else Some heap);
  Some (Heap (holes heap) (free_size heap) true 0).

(** [util_vma_heap_finish] releases the hole list node by node; what is released
    is the sequence of holes visited. *)
Definition util_vma_heap_finish (heap : util_vma_heap) : list util_vma_hole := holes heap.

Definition util_vma_heap_get_max_free_continuous_size (heap : util_vma_heap) : Z :=
  fold_left (fun max_size hole => MAX2 max_size (h_size hole)) (holes heap) 0.

(** * The invariant and the abstract view *)

(** [below b l]: the holes lie below [b], one address at least between two of
    them and between the first and [b]; none contains address 0. *)
Fixpoint below (b : Z) (l : list util_vma_hole) : Prop :=
  match l with
  | [] => True
  | hole :: l =>
      0 < h_offset hole /\ 0 < h_size hole /\ h_offset hole + h_size hole < b
      /\ below (h_offset hole) l
  end.

Fixpoint sum_sizes (l : list util_vma_hole) : Z :=
  match l with
  | [] => 0
  | hole :: l => h_size hole + sum_sizes l
  end.

Definition in_hole (a : Z) (hole : util_vma_hole) : Prop :=
  h_offset hole <= a < h_offset hole + h_size hole.

Fixpoint in_holes (a : Z) (l : list util_vma_hole) : Prop :=
  match l with
  | [] => False
  | hole :: l => in_hole a hole \/ in_holes a l
  end.

(** The abstract state: the set of free addresses. *)
Definition is_free (heap : util_vma_heap) (a : Z) : Prop := in_holes a (holes heap).

Record heap_ok (heap : util_vma_heap) : Prop := {
  ok_holes : below (2 ^ 64 + 1) (holes heap);
  ok_size : free_size heap = sum_sizes (holes heap);
}.

Definition range_free (heap : util_vma_heap) (offset size : Z) : Prop :=
  forall a, offset <= a < offset + size -> is_free heap a.

(** ** Facts about hole lists *)

Lemma below_mono b b' l : below b l -> b <= b' -> below b' l.
Proof. destruct l; cbn; intuition lia. Qed.

Lemma in_holes_below b l a : below b l -> in_holes a l -> 0 < a /\ a + 1 < b.
Proof.
  revert b. induction l as [|hole l IH]; cbn; [done|]. intros b (? & ? & ? & H) [Ha|Ha].
  - unfold in_hole in Ha. lia.
  - destruct (IH _ H Ha). lia.
Qed.

Lemma in_holes_app a l1 l2 : in_holes a (l1 ++ l2) <-> in_holes a l1 \/ in_holes a l2.
Proof. induction l1; cbn; tauto. Qed.

Lemma sum_sizes_app l1 l2 : sum_sizes (l1 ++ l2) = sum_sizes l1 + sum_sizes l2.
Proof. induction l1; cbn; lia. Qed.

(** The bound the holes after [pre] are under. *)
Fixpoint bound_after (b : Z) (pre : list util_vma_hole) : Z :=
  match pre with
  | [] => b
  | hole :: pre => bound_after (h_offset hole) pre
  end.

Lemma below_app b pre l : below b (pre ++ l) <-> below b pre /\ below (bound_after b pre) l.
Proof. revert b. induction pre as [|hole pre IH]; intros b; cbn; [tauto|]. rewrite IH. tauto. Qed.

Lemma bound_after_le b pre : below b pre -> bound_after b pre <= b.
Proof.
  revert b. induction pre as [|hole pre IH]; cbn; [lia|]. intros b (? & ? & ? & H).
  specialize (IH _ H). lia.
Qed.

Lemma in_holes_after b pre a : below b pre -> in_holes a pre -> bound_after b pre <= a.
Proof.
  revert b. induction pre as [|hole pre IH]; cbn; [done|]. intros b (? & ? & ? & H) [Ha|Ha].
  - pose proof (bound_after_le _ _ H). unfold in_hole in Ha. lia.
  - by apply (IH (h_offset hole)).
Qed.

Lemma bound_after_snoc b pre hole : bound_after b (pre ++ [hole]) = h_offset hole.
Proof. revert b. induction pre; cbn; auto. Qed.

Lemma sum_sizes_bound b l : below b l -> 0 <= sum_sizes l /\ (l <> [] -> sum_sizes l + 1 < b).
Proof.
  revert b. induction l as [|hole l IH]; cbn; [done|]. intros b (? & ? & ? & H).
  destruct (IH _ H) as [? Hl]. destruct l; cbn in *; [lia|]. specialize (Hl ltac:(done)). lia.
Qed.

Lemma sum_sizes_lt l : below (2 ^ 64 + 1) l -> 0 <= sum_sizes l < 2 ^ 64.
Proof.
  intros H. destruct (sum_sizes_bound _ _ H) as [? Hl]. destruct l; [done|].
  specialize (Hl ltac:(done)). lia.
Qed.

(** A contiguous free range lies in one hole: the holes do not touch. *)
Lemma range_in_one_hole b l lo hi :
  below b l -> lo < hi -> (forall a, lo <= a < hi -> in_holes a l) ->
  exists pre hole post, l = pre ++ hole :: post
    /\ h_offset hole <= lo /\ hi <= h_offset hole + h_size hole.
Proof.
  revert b. induction l as [|hole l IH]; intros b Hb Hlt Hr.
  { destruct (Hr lo). lia. }
  destruct Hb as (H1 & H2 & H3 & Hb).
  destruct (Z_lt_le_dec lo (h_offset hole)) as [Hlo|Hlo].
  - destruct (Z_le_gt_dec hi (h_offset hole)) as [Hhi|Hhi].
    + destruct (IH _ Hb Hlt) as (pre & h & post & -> & ? & ?).
      { intros a Ha. destruct (Hr a Ha) as [Hin|]; [unfold in_hole in Hin; lia|done]. }
      exists (hole :: pre), h, post. auto.
    + exfalso. destruct (Hr (h_offset hole - 1)) as [Hin|Hin]; [lia| |].
      * unfold in_hole in Hin. lia.
      * destruct (in_holes_below _ _ _ Hb Hin). lia.
  - exists [], hole, l. split; [done|]. split; [done|].
    destruct (Z_le_gt_dec hi (h_offset hole + h_size hole)) as [|Hgt]; [done|exfalso].
    destruct (Hr (Z.max lo (h_offset hole + h_size hole))) as [Hin|Hin]; [lia| |].
    + unfold in_hole in Hin. lia.
    + destruct (in_holes_below _ _ _ Hb Hin). lia.
Qed.

(** The hole list is determined by the set of free addresses. *)
Lemma below_canonical b l1 l2 :
  below b l1 -> below b l2 -> (forall a, in_holes a l1 <-> in_holes a l2) -> l1 = l2.
Proof.
  revert b l2. induction l1 as [|h1 l1 IH]; intros b [|h2 l2] H1 H2 Heq; [done| | |].
  - exfalso. destruct H2 as (? & ? & _). apply (Heq (h_offset h2)). left. unfold in_hole. lia.
  - exfalso. destruct H1 as (? & ? & _). apply (Heq (h_offset h1)). left. unfold in_hole. lia.
  - cbn in H1, H2. destruct H1 as (A1 & B1 & C1 & H1), H2 as (A2 & B2 & C2 & H2).
    assert (Htop : h_offset h1 + h_size h1 = h_offset h2 + h_size h2).
    { destruct (Z.lt_trichotomy (h_offset h1 + h_size h1) (h_offset h2 + h_size h2)) as [L|[L|L]]; [|done|].
      - destruct (proj2 (Heq (h_offset h2 + h_size h2 - 1))) as [Hin|Hin].
        + left. unfold in_hole. lia.
        + unfold in_hole in Hin. lia.
        + destruct (in_holes_below _ _ _ H1 Hin). lia.
      - destruct (proj1 (Heq (h_offset h1 + h_size h1 - 1))) as [Hin|Hin].
        + left. unfold in_hole. lia.
        + unfold in_hole in Hin. lia.
        + destruct (in_holes_below _ _ _ H2 Hin). lia. }
    assert (Hoff : h_offset h1 = h_offset h2).
    { destruct (Z.lt_trichotomy (h_offset h1) (h_offset h2)) as [L|[L|L]]; [|done|].
      - destruct (proj1 (Heq (h_offset h2 - 1))) as [Hin|Hin].
        + left. unfold in_hole. lia.
        + unfold in_hole in Hin. lia.
        + destruct (in_holes_below _ _ _ H2 Hin). lia.
      - destruct (proj2 (Heq (h_offset h1 - 1))) as [Hin|Hin].
        + left. unfold in_hole. lia.
        + unfold in_hole in Hin. lia.
        + destruct (in_holes_below _ _ _ H1 Hin). lia. }
    assert (Eh : h1 = h2) by (destruct h1, h2; cbn in *; f_equal; lia).
    f_equal; [done|]. subst h2. apply (IH (h_offset h1)); [done|done|].
    intros a. specialize (Heq a). cbn in Heq. split; intros Hin.
    + destruct (in_holes_below _ _ _ H1 Hin). unfold in_hole in Heq. destruct (proj1 Heq); [auto|lia|done].
    + destruct (in_holes_below _ _ _ H2 Hin). unfold in_hole in Heq. destruct (proj2 Heq); [auto|lia|done].
Qed.

(** ** Validation decides the invariant *)

Definition hole_u64 (hole : util_vma_hole) : Prop :=
  0 <= h_offset hole < 2 ^ 64 /\ 0 <= h_size hole < 2 ^ 64.

Lemma below_hole_u64 b l : below b l -> b <= 2 ^ 64 + 1 -> Forall hole_u64 l.
Proof.
  revert b. induction l as [|hole l IH]; intros b Hb Hle; [constructor|].
  cbn in Hb. destruct Hb as (? & ? & ? & Hb). constructor; [unfold hole_u64; lia|].
  apply (IH _ Hb). lia.
Qed.

Lemma validate_loop_tail prev acc l total :
  Forall hole_u64 l -> prev < 2 ^ 64 ->
  validate_loop false prev acc l = Some total -> below prev l /\ total = fold_left (fun a h => u64 (a + h_size h)) l acc.
Proof.
  revert prev acc. induction l as [|hole l IH]; intros prev acc Hu Hp H; cbn in *.
  { by simplify_eq. }
  apply Forall_cons_1 in Hu as [[Ho Hs] Hu].
  repeat (case_hyp_if; [|done]). zbool.
  assert (Hnw : h_size hole + h_offset hole < 2 ^ 64).
  { destruct (Z_lt_le_dec (h_size hole + h_offset hole) (2 ^ 64)) as [|Hge]; [done|].
    rewrite u64_over in * by lia. lia. }
  rewrite (u64_small (h_size hole + h_offset hole)) in * by lia. destruct (IH (h_offset hole) _ Hu ltac:(lia) H) as [Hb Ht].
  split; [|done]. repeat split; auto; lia.
Qed.

Lemma validate_loop_intro prev acc l :
  below prev l -> prev <= 2 ^ 64 -> 0 <= acc -> acc + sum_sizes l < 2 ^ 64 ->
  validate_loop false prev acc l = Some (acc + sum_sizes l).
Proof.
  revert prev acc. induction l as [|hole l IH]; intros prev acc Hb Hp Ha Hs; cbn in *.
  { f_equal. lia. }
  destruct Hb as (? & ? & ? & Hb). destruct (sum_sizes_bound _ _ Hb) as [? _].
  rewrite (u64_small (h_size hole + _)), (u64_small (acc + _)) by lia.
  passert ltac:(lia). rewrite IH by (try done; lia). f_equal. lia.
Qed.

Lemma fold_sum_u64 l acc :
  fold_left (fun a h => u64 (a + h_size h)) l (u64 acc) = u64 (acc + sum_sizes l).
Proof.
  revert acc. induction l as [|hole l IH]; intros acc; cbn; [f_equal; lia|].
  assert (E : u64 (u64 acc + h_size hole) = u64 (acc + h_size hole)) by (apply wrap_wrap_add; lia).
  rewrite E, IH. f_equal. lia.
Qed.

Lemma validate_ok heap : heap_ok heap -> util_vma_heap_validate heap = true.
Proof.
  intros [Hb Hs]. pose proof (sum_sizes_lt _ Hb) as Hsum. unfold util_vma_heap_validate.
  destruct (holes heap) as [|hole l]; cbn -[Z.pow] in *; [by rewrite Hs|].
  destruct Hb as (? & ? & ? & Hb). destruct (sum_sizes_bound _ _ Hb) as [? _].
  rewrite Z.add_0_l, (u64_small (h_size hole)) by lia.
  assert (Htop : (u64 (h_size hole + h_offset hole) =? 0)
                 || (u64 (h_size hole + h_offset hole) >? h_offset hole) = true).
  { destruct (Z.eq_dec (h_size hole + h_offset hole) (2 ^ 64)) as [E|E].
    - rewrite E. done.
    - rewrite u64_small by lia. lia. }
  rewrite Htop. destruct (Z.gtb_spec (h_offset hole) 0); [|lia].
  destruct (Z.gtb_spec (h_size hole) 0); [|lia].
  rewrite validate_loop_intro by (try done; lia). lia.
Qed.

Lemma validate_sound heap :
  Forall hole_u64 (holes heap) -> 0 <= free_size heap < 2 ^ 64 ->
  util_vma_heap_validate heap = true -> heap_ok heap.
Proof.
  intros Hu Hf. unfold util_vma_heap_validate.
  destruct (validate_loop true 0 0 (holes heap)) as [total|] eqn:E; [|done]. intros Ht. zbool.
  assert (Hb : below (2 ^ 64 + 1) (holes heap) /\ total = u64 (sum_sizes (holes heap))).
  { destruct (holes heap) as [|hole l]; cbn in E; [simplify_eq; done|].
    apply Forall_cons_1 in Hu as [[Ho Hs] Hu].
    destruct (h_offset hole >? 0) eqn:E1; [|done]. destruct (h_size hole >? 0) eqn:E2; [|done].
    destruct (_ || _) eqn:E3; [|done].
    apply validate_loop_tail in E; [|done|lia]. destruct E as [Hb ->].
    assert (Hsum : h_size hole + h_offset hole <= 2 ^ 64).
    { destruct (Z_le_gt_dec (h_size hole + h_offset hole) (2 ^ 64)) as [|Hgt]; [done|].
      rewrite u64_over in E3 by lia. lia. }
    zbool. split; [cbn; repeat split; auto; lia|].
    rewrite fold_sum_u64. done. }
  destruct Hb as [Hb ->]. constructor; [done|].
  pose proof (sum_sizes_lt _ Hb). rewrite u64_small in Ht; lia.
Qed.

(** * Allocation *)

(** Everything an allocation of [offset, offset + size) promises. *)
Record allocated (heap heap' : util_vma_heap) (offset size : Z) : Prop := {
  al_ok : heap_ok heap';
  al_was_free : range_free heap offset size;
  al_free : forall a, is_free heap' a <-> is_free heap a /\ ~ (offset <= a < offset + size);
  al_size : free_size heap' = free_size heap - size;
  al_high : alloc_high heap' = alloc_high heap;
  al_nospan : nospan_shift heap' = nospan_shift heap;
}.

Section hole_alloc.
Context (heap : util_vma_heap) (pre post : list util_vma_hole) (hole : util_vma_hole)
  (offset size : Z).
Hypothesis (Hok : heap_ok heap) (Hl : holes heap = pre ++ hole :: post)
  (Hsize : 0 < size) (Hlo : h_offset hole <= offset)
  (Hhi : offset + size <= h_offset hole + h_size hole).

Let c := bound_after (2 ^ 64 + 1) pre.

Lemma hole_alloc_context :
  below (2 ^ 64 + 1) pre /\ 0 < h_offset hole /\ h_offset hole + h_size hole < c
  /\ below (h_offset hole) post /\ c <= 2 ^ 64 + 1.
Proof.
  destruct Hok as [Hb _]. rewrite Hl in Hb. apply below_app in Hb as [Hpre (? & ? & ? & ?)].
  pose proof (bound_after_le _ _ Hpre). auto.
Qed.

(** Replacing the hole by what is left of it. *)
Lemma hole_alloc_replace mid :
  below c mid -> h_offset hole <= bound_after c mid ->
  sum_sizes mid = h_size hole - size ->
  (forall a, in_holes a mid <-> in_hole a hole /\ ~ (offset <= a < offset + size)) ->
  allocated heap
    (set_free_size (set_holes heap (pre ++ mid ++ post)) (u64 (free_size heap - size)))
    offset size.
Proof.
  intros Hmid Hbound Hsum Hin.
  destruct hole_alloc_context as (Hpre & Ho & Htop & Hpost & Hc).
  destruct Hok as [_ Hs]. rewrite Hl in Hs.
  assert (Hb' : below (2 ^ 64 + 1) (pre ++ mid ++ post)).
  { apply below_app. split; [done|]. fold c. apply below_app. split; [done|].
    by eapply below_mono. }
  pose proof (sum_sizes_lt _ Hb') as Hlt.
  rewrite !sum_sizes_app in Hlt. rewrite sum_sizes_app in Hs. cbn in Hs.
  assert (Hfs : free_size heap - size = sum_sizes pre + (sum_sizes mid + sum_sizes post)) by lia.
  constructor; cbn; try done.
  - constructor; cbn; [done|]. rewrite u64_small by lia. rewrite !sum_sizes_app. done.
  - intros a Ha. unfold is_free. rewrite Hl. apply in_holes_app. right. left. unfold in_hole. lia.
  - intros a. unfold is_free. cbn. rewrite Hl, !in_holes_app. cbn. rewrite Hin. split.
    + intros [H|[[H1 H2]|H]]; [split; [auto|]|auto|split; [auto|]].
      * pose proof (in_holes_after _ _ _ Hpre H). fold c in H0. lia.
      * destruct (in_holes_below _ _ _ Hpost H). lia.
    + tauto.
  - apply u64_small. lia.
Qed.

Lemma hole_alloc_spec :
  exists heap', util_vma_hole_alloc heap pre hole post offset size = Some heap'
    /\ allocated heap heap' offset size.
Proof.
  destruct hole_alloc_context as (Hpre & Ho & Htop & Hpost & Hc).
  unfold util_vma_hole_alloc.
  rewrite (u64_small (offset - h_offset hole)), (u64_small (h_size hole - size)) by lia.
  rewrite (u64_small (offset - h_offset hole + size)) by lia.
  rewrite (u64_small (_ - _ - (_ - _))) by lia.
  destruct (Z.leb_spec (h_offset hole) offset); [|lia].
  destruct (Z.geb_spec (h_size hole) (offset - h_offset hole + size)); [|lia].
  destruct ((offset =? h_offset hole) && (size =? h_size hole)) eqn:Eall.
  { zbool. eexists. split; [done|]. apply hole_alloc_replace; cbn; [done|lia|lia|].
    intros a. unfold in_hole. lia. }
  destruct (Z.leb_spec (offset - h_offset hole) (h_size hole - size)); [|lia].
  destruct (Z.eqb_spec (h_size hole - size - (offset - h_offset hole)) 0) as [Ew|Ew].
  { assert (offset <> h_offset hole) by lia.
    eexists. split; [done|]. apply hole_alloc_replace; cbn; [lia|lia|lia|].
    intros a. unfold in_hole. cbn. lia. }
  destruct (Z.eqb_spec offset (h_offset hole)) as [Eo|Eo].
  { rewrite (u64_small (h_offset hole + size)) by lia.
    eexists. split; [done|]. apply hole_alloc_replace; cbn; [lia|lia|lia|].
    intros a. unfold in_hole. cbn. lia. }
  rewrite (u64_small (offset + size)) by lia.
  eexists. split; [done|]. apply hole_alloc_replace; cbn; [lia|lia|lia|].
  intros a. unfold in_hole. cbn. lia.
Qed.
End hole_alloc.

(** ** The offsets tried in a hole *)

(** [nospan_ok]: the request is small enough for the no-span adjustment. *)
Definition nospan_ok (nospan size alignment : Z) : Prop :=
  nospan = 0
  \/ (0 < nospan < 64 /\ 2 * size <= 2 ^ nospan
      /\ exists j, 0 <= j <= nospan /\ alignment = 2 ^ j).

Lemma pow2_divide j k : 0 <= j <= k -> (2 ^ j | 2 ^ k).
Proof. intros. exists (2 ^ (k - j)). rewrite <- pow2_add by lia. f_equal. lia. Qed.

(** The range does not cross a multiple of [2^nospan]. *)
Definition no_span (nospan offset size : Z) : Prop :=
  nospan = 0 \/ offset / 2 ^ nospan = (offset + size - 1) / 2 ^ nospan.

(** Whether the hole has room for an aligned range. *)
Definition fits_aligned (hole : util_vma_hole) (size alignment offset : Z) : Prop :=
  (alignment | offset) /\ h_offset hole <= offset /\ offset + size <= h_offset hole + h_size hole.

Lemma align_down_div offset alignment :
  0 < alignment -> (alignment | offset / alignment * alignment)
  /\ offset - alignment < offset / alignment * alignment <= offset.
Proof.
  intros H. split; [exists (offset / alignment); lia|].
  pose proof (Z.div_mod offset alignment ltac:(lia)).
  pose proof (Z.mod_pos_bound offset alignment H). lia.
Qed.

(** Aligning down stays inside the block of [2^k] addresses, for an alignment
    that divides [2^k]. *)
Lemma align_down_block offset alignment k :
  0 < alignment -> 0 <= k -> (alignment | 2 ^ k) ->
  offset / 2 ^ k * 2 ^ k <= offset / alignment * alignment.
Proof.
  intros Ha Hk [m Hm]. pose proof (pow2_pos k Hk).
  destruct (align_down_div offset alignment Ha) as [_ Hd].
  pose proof (Z.div_mod offset (2 ^ k) ltac:(lia)). pose proof (Z.mod_pos_bound offset (2 ^ k) ltac:(lia)).
  assert (offset / 2 ^ k * m <= offset / alignment) by (apply Z.div_le_lower_bound; nia). nia.
Qed.

Lemma no_span_block nospan offset size b :
  0 < nospan -> 0 < size -> b * 2 ^ nospan <= offset -> offset + size <= (b + 1) * 2 ^ nospan ->
  no_span nospan offset size.
Proof.
  intros Hn Hs H1 H2. right. pose proof (pow2_pos nospan ltac:(lia)).
  rewrite (div_between offset (2 ^ nospan) b), (div_between (offset + size - 1) (2 ^ nospan) b); lia.
Qed.

(** The last address of a range, which may end at the top of the address space. *)
Section offsets.
Context (hole : util_vma_hole) (nospan size alignment : Z).
Hypothesis (Ho : 0 < h_offset hole) (Htop : h_offset hole + h_size hole <= 2 ^ 64)
  (Hs : 0 < size < 2 ^ 64) (Ha : 0 < alignment < 2 ^ 64) (Hns : nospan_ok nospan size alignment).

Lemma offset_high_spec :
  exists r, offset_high nospan hole size alignment = Some r
    /\ match r with
       | Some offset => fits_aligned hole size alignment offset /\ no_span nospan offset size
       | None => nospan = 0 -> forall offset, ~ fits_aligned hole size alignment offset
       end.
Proof.
  unfold offset_high. destruct (Z.gtb_spec size (h_size hole)) as [Hgt|Hle].
  { eexists; split; [done|]. intros _ offset (_ & ? & ?). lia. }
  rewrite (u64_small (h_size hole - size)), (u64_small (h_size hole - size + _)) by lia.
  set (o := h_size hole - size + h_offset hole).
  assert (Hdown : forall x, 0 <= x < 2 ^ 64 -> u64 (x / alignment * alignment) = x / alignment * alignment).
  { intros x Hx. destruct (align_down_div x alignment ltac:(lia)) as [_ ?].
    apply u64_small. split; [apply Z.mul_nonneg_nonneg; [apply Z.div_pos|]; lia|lia]. }
  destruct (Z.eqb_spec nospan 0) as [->|Hn0].
  { rewrite Hdown by lia. destruct (align_down_div o alignment ltac:(lia)) as [Hd1 Hd2].
    destruct (Z.ltb_spec (o / alignment * alignment) (h_offset hole)); eexists; (split; [done|]).
    - intros _ offset ([z ->] & H1 & H2). assert (z <= o / alignment); [|nia].
      apply Z.div_le_lower_bound; lia.
    - split; [|by left]. unfold fits_aligned. auto with lia. }
  destruct Hns as [|(Hn & Hsz & j & Hj & Ej)]; [done|].
  assert (Hdiv : (alignment | 2 ^ nospan)) by (rewrite Ej; by apply pow2_divide).
  pose proof (pow2_pos nospan ltac:(lia)) as HP.
  rewrite last_addr by lia. rewrite !Z.shiftr_div_pow2 by lia.
  set (last := o + size - 1) in *.
  pose proof (Z.div_mod last (2 ^ nospan) ltac:(lia)) as El.
  pose proof (Z.mod_pos_bound last (2 ^ nospan) ltac:(lia)) as Bl.
  assert (Halign : forall x b, 0 <= x <= o -> b * 2 ^ nospan <= x -> x + size <= (b + 1) * 2 ^ nospan ->
    exists r, (if u64 (x / alignment * alignment) <? h_offset hole then Some None
               else Some (Some (u64 (x / alignment * alignment)))) = Some r
      /\ match r with
         | Some offset => fits_aligned hole size alignment offset /\ no_span nospan offset size
         | None => nospan = 0 -> forall offset, ~ fits_aligned hole size alignment offset
         end).
  { intros x b Hx Hb1 Hb2. rewrite Hdown by lia.
    destruct (align_down_div x alignment ltac:(lia)) as [Hd1 Hd2].
    pose proof (align_down_block x alignment nospan ltac:(lia) ltac:(lia) Hdiv) as Hd3.
    assert (b <= x / 2 ^ nospan) by (apply Z.div_le_lower_bound; lia).
    destruct (Z.ltb_spec (x / alignment * alignment) (h_offset hole)); eexists; (split; [done|]).
    - by intros ->.
    - split; [unfold fits_aligned; auto with lia|]. apply no_span_block with b; try lia. nia. }
  destruct (Z.eqb_spec (last / 2 ^ nospan) (o / 2 ^ nospan)) as [Eb|Eb]; cbn [negb].
  - apply (Halign o (last / 2 ^ nospan)); [lia| |lia].
    rewrite Eb. pose proof (Z.div_mod o (2 ^ nospan) ltac:(lia)).
    pose proof (Z.mod_pos_bound o (2 ^ nospan) ltac:(lia)). lia.
  - rewrite land_not_mask by lia.
    assert (Hlt : o / 2 ^ nospan + 1 <= last / 2 ^ nospan).
    { pose proof (Z.div_le_mono o last (2 ^ nospan) ltac:(lia) ltac:(lia)). lia. }
    assert (HoB : o < last / 2 ^ nospan * 2 ^ nospan).
    { pose proof (Z.div_mod o (2 ^ nospan) ltac:(lia)).
      pose proof (Z.mod_pos_bound o (2 ^ nospan) ltac:(lia)). nia. }
    assert (H1b : 1 <= last / 2 ^ nospan) by (pose proof (Z.div_pos o (2 ^ nospan)); lia).
    assert (2 ^ nospan <= last / 2 ^ nospan * 2 ^ nospan) by nia.
    destruct (Z.geb_spec (last / 2 ^ nospan * 2 ^ nospan) size); [|lia].
    rewrite (u64_small (o - size)) by lia.
    destruct (Z.ltb_spec (o - size) (h_offset hole)).
    { eexists; split; [done|]. by intros ->. }
    apply (Halign (o - size) (last / 2 ^ nospan - 1)); lia.
Qed.

Lemma offset_low_spec :
  match offset_low nospan hole size alignment with
  | Some offset => fits_aligned hole size alignment offset /\ no_span nospan offset size
  | None => nospan = 0 \/ h_offset hole + h_size hole < 2 ^ 64 ->
      forall offset, no_span nospan offset size -> ~ fits_aligned hole size alignment offset
  end.
Proof.
  unfold offset_low. destruct (Z.gtb_spec size (h_size hole)) as [Hgt|Hle].
  { intros _ offset _ (_ & ? & ?). lia. }
  pose proof (Z.div_mod (h_offset hole) alignment ltac:(lia)) as Em.
  pose proof (Z.mod_pos_bound (h_offset hole) alignment ltac:(lia)) as Bm.
  set (mis := h_offset hole mod alignment) in *.
  rewrite (u64_small (h_size hole - size)), (u64_small (alignment - mis)) by lia.
  set (pad := if negb (mis =? 0) then alignment - mis else 0).
  destruct (negb (mis =? 0) && (pad >? h_size hole - size)) eqn:Econt.
  { intros _ offset _ ([z ->] & H1 & H2). unfold pad in Econt.
    destruct (Z.eqb_spec mis 0); cbn [negb andb] in Econt; [done|]. zbool.
    assert (h_offset hole / alignment + 1 <= z) by nia. nia. }
  assert (Hpad : 0 <= pad <= h_size hole - size).
  { unfold pad in *. destruct (Z.eqb_spec mis 0); cbn [negb andb] in *; zbool; lia. }
  assert (Hal : (alignment | h_offset hole + pad)).
  { unfold pad. destruct (Z.eqb_spec mis 0); cbn [negb];
      [exists (h_offset hole / alignment)|exists (h_offset hole / alignment + 1)]; lia. }
  rewrite (u64_small (h_offset hole + pad)) by lia. set (o := h_offset hole + pad) in *.
  destruct (Z.eqb_spec nospan 0) as [->|Hn0].
  { split; [unfold fits_aligned; auto with lia|by left]. }
  destruct Hns as [|(Hn & Hsz & j & Hj & Ej)]; [done|].
  assert (Hdiv : (alignment | 2 ^ nospan)) by (rewrite Ej; by apply pow2_divide).
  pose proof (pow2_pos nospan ltac:(lia)) as HP.
  rewrite last_addr by lia. rewrite !Z.shiftr_div_pow2 by lia. set (last := o + size - 1) in *.
  pose proof (Z.div_mod last (2 ^ nospan) ltac:(lia)) as El.
  pose proof (Z.mod_pos_bound last (2 ^ nospan) ltac:(lia)) as Bl.
  destruct (Z.eqb_spec (last / 2 ^ nospan) (o / 2 ^ nospan)) as [Eb|Eb]; cbn [negb].
  { split; [unfold fits_aligned; auto with lia|]. right. by rewrite <- Eb. }
  rewrite land_not_mask by lia. set (B := last / 2 ^ nospan * 2 ^ nospan) in *.
  assert (HoB : o < B).
  { pose proof (Z.div_le_mono o last (2 ^ nospan) ltac:(lia) ltac:(lia)).
    pose proof (Z.div_mod o (2 ^ nospan) ltac:(lia)).
    pose proof (Z.mod_pos_bound o (2 ^ nospan) ltac:(lia)).
    assert (o / 2 ^ nospan + 1 <= last / 2 ^ nospan) by lia. unfold B. nia. }
  assert (HB64 : B + 2 ^ nospan <= 2 ^ 64).
  { replace (2 ^ 64) with (2 ^ (64 - nospan) * 2 ^ nospan)
      by (rewrite <- pow2_add by lia; f_equal; lia).
    assert (last / 2 ^ nospan < 2 ^ (64 - nospan)); [|unfold B; nia].
    apply Z.div_lt_upper_bound; [lia|]. rewrite <- pow2_add by lia.
    replace (nospan + (64 - nospan)) with 64 by lia. lia. }
  rewrite (u64_small (B + size)) by lia.
  destruct (Z.gtb_spec (B + size) (u64 (h_offset hole + h_size hole))) as [Hgt|Hle2].
  { intros [?|Hend] offset [?|Hsp] ([z Hz] & H1 & H2); [done..|]. rewrite u64_small in Hgt by lia.
    assert (Hoo : o <= offset).
    { unfold o, pad. destruct (Z.eqb_spec mis 0); cbn [negb]; [lia|].
      assert (h_offset hole / alignment + 1 <= z) by nia. nia. }
    assert (offset < B) by lia.
    assert (offset / 2 ^ nospan < last / 2 ^ nospan)
      by (apply Z.div_lt_upper_bound; [lia|]; rewrite Z.mul_comm; unfold B in *; lia).
    pose proof (Z.div_le_mono last (offset + size - 1) (2 ^ nospan) ltac:(lia) ltac:(lia)). lia. }
  assert (Hnw : u64 (h_offset hole + h_size hole) = h_offset hole + h_size hole).
  { destruct (Z.eq_dec (h_offset hole + h_size hole) (2 ^ 64)) as [E|E].
    - rewrite E in Hle2. change (u64 (2 ^ 64)) with 0 in Hle2. lia.
    - apply u64_small. lia. }
  split; [split; [|lia]|].
  - apply Z.divide_trans with (2 ^ nospan); [done|]. exists (last / 2 ^ nospan). done.
  - apply no_span_block with (last / 2 ^ nospan); [lia|lia|unfold B in *; lia|unfold B in *; lia].
Qed.
End offsets.

(** ** The search loops *)

(** Where a failure is exact: without a no-span constraint, or when allocating from
    the bottom and no hole touches the top of the address space. *)
Definition alloc_complete (heap : util_vma_heap) : Prop :=
  nospan_shift heap = 0
  \/ (alloc_high heap = false
      /\ forall hole, hole ∈ holes heap -> h_offset hole + h_size hole < 2 ^ 64).

(** What [util_vma_heap_alloc] promises: either a fresh aligned range, or failure
    with the heap untouched, which under [alloc_complete] means that none
    of the holes [l] has room. *)
Definition alloc_result (heap : util_vma_heap) (size alignment : Z) (l : list util_vma_hole)
    (r : Z) (heap' : util_vma_heap) : Prop :=
  (0 < r /\ allocated heap heap' r size /\ (alignment | r) /\ no_span (nospan_shift heap) r size)
  \/ (r = 0 /\ heap' = heap
      /\ (alloc_complete heap -> forall hole, hole ∈ l -> forall offset,
            no_span (nospan_shift heap) offset size -> ~ fits_aligned hole size alignment offset)).

Section alloc_loops.
Context (heap : util_vma_heap) (size alignment : Z).
Hypothesis (Hok : heap_ok heap) (Hs : 0 < size < 2 ^ 64) (Ha : 0 < alignment < 2 ^ 64)
  (Hns : nospan_ok (nospan_shift heap) size alignment).

Lemma hole_in_heap pre hole post :
  holes heap = pre ++ hole :: post -> 0 < h_offset hole /\ h_offset hole + h_size hole <= 2 ^ 64.
Proof.
  intros Hl. destruct Hok as [Hb _]. rewrite Hl in Hb.
  apply below_app in Hb as [Hpre (? & ? & ? & ?)]. pose proof (bound_after_le _ _ Hpre). lia.
Qed.

(** The common end of both loops, once an offset has been found. *)
Lemma alloc_found pre hole post offset l :
  holes heap = pre ++ hole :: post -> fits_aligned hole size alignment offset ->
  no_span (nospan_shift heap) offset size ->
  exists r heap', (heap ← util_vma_hole_alloc heap pre hole post offset size;
                   assert! util_vma_heap_validate heap ;; Some (offset, heap)) = Some (r, heap')
    /\ alloc_result heap size alignment l r heap'.
Proof.
  intros Hl (Hal & Hlo & Hhi) Hspan. destruct (hole_in_heap _ _ _ Hl).
  destruct (hole_alloc_spec heap pre post hole offset size Hok Hl ltac:(lia) Hlo Hhi)
    as (heap' & -> & Hall). cbn [mbind option_bind].
  rewrite (validate_ok heap') by apply Hall. exists offset, heap'. split; [done|].
  left. auto with lia.
Qed.

Lemma alloc_high_loop_spec pre l :
  alloc_high heap = true -> holes heap = pre ++ l ->
  exists r heap', alloc_high_loop heap size alignment pre l = Some (r, heap')
    /\ alloc_result heap size alignment l r heap'.
Proof.
  intros Hhigh. revert pre. induction l as [|hole l IH]; intros pre Hl; cbn [alloc_high_loop].
  { exists 0, heap. split; [done|]. right. split_and!; try done. intros _ h Hh. inversion Hh. }
  destruct (hole_in_heap _ _ _ Hl) as [Ho Ht].
  destruct (offset_high_spec hole (nospan_shift heap) size alignment Ho Ht Hs Ha Hns)
    as (r & -> & Hr). cbn [mbind option_bind].
  destruct r as [offset|]; [destruct Hr; by apply alloc_found|].
  destruct (IH (pre ++ [hole])) as (r & heap' & -> & Hres); [by rewrite Hl, <- app_assoc|].
  exists r, heap'. split; [done|].
  destruct Hres as [?|(? & ? & Hno)]; [by left|right]. split_and!; try done.
  intros Hn h [->|]%elem_of_cons; [|by apply Hno].
  destruct Hn as [Hn|[Hn _]]; [|congruence]. intros offset _. by apply Hr.
Qed.

Lemma alloc_low_loop_spec rl post :
  holes heap = rev rl ++ post ->
  exists r heap', alloc_low_loop heap size alignment rl post = Some (r, heap')
    /\ alloc_result heap size alignment rl r heap'.
Proof.
  revert post. induction rl as [|hole rl IH]; intros post Hl; cbn [alloc_low_loop rev] in *.
  { exists 0, heap. split; [done|]. right. split_and!; try done. intros _ h Hh. inversion Hh. }
  rewrite <- app_assoc in Hl. cbn in Hl. destruct (hole_in_heap _ _ _ Hl) as [Ho Ht].
  pose proof (offset_low_spec hole (nospan_shift heap) size alignment Ho Ht Hs Ha Hns) as Hr.
  destruct (offset_low (nospan_shift heap) hole size alignment) as [offset|];
    [destruct Hr; by apply alloc_found|].
  destruct (IH (hole :: post) Hl) as (r & heap' & -> & Hres). exists r, heap'. split; [done|].
  destruct Hres as [?|(? & ? & Hno)]; [by left|right]. split_and!; try done.
  intros Hn h [->|]%elem_of_cons; [|by apply Hno]. apply Hr.
  destruct Hn as [Hn|[_ Hn]]; [by left|right]. apply Hn. rewrite Hl. set_solver.
Qed.

Lemma nospan_assert :
  (if negb (nospan_shift heap =? 0) then
     match align64 (BITFIELD64_BIT (nospan_shift heap)) alignment with
     | Some a => a =? BITFIELD64_BIT (nospan_shift heap)
     | None => false
     end
   else true) = true.
Proof.
  destruct Hns as [->|(Hn & Hsz & j & Hj & Ej)]; [done|].
  destruct (Z.eqb_spec (nospan_shift heap) 0); [lia|]. cbn [negb].
  set (k := nospan_shift heap) in *. pose proof (pow2_pos k ltac:(lia)).
  pose proof (pow2_lt k 64 ltac:(lia)). pose proof (pow2_le j k Hj).
  unfold BITFIELD64_BIT. rewrite shiftl_1, (u64_small (2 ^ k)) by lia.
  rewrite Ej, align64_pow2 by (pose proof (pow2_le k 63 ltac:(lia)); lia).
  apply Z.eqb_eq. destruct (pow2_divide j k Hj) as [m ->].
  pose proof (pow2_pos j ltac:(lia)).
  rewrite (div_between _ (2 ^ j) m); lia.
Qed.
End alloc_loops.

Lemma heap_alloc_spec heap size alignment :
  heap_ok heap -> 0 < size < 2 ^ 64 -> 0 < alignment < 2 ^ 64 ->
  nospan_ok (nospan_shift heap) size alignment ->
  exists r heap', util_vma_heap_alloc heap size alignment = Some (r, heap')
    /\ alloc_result heap size alignment (holes heap) r heap'.
Proof.
  intros Hok Hs Ha Hns. unfold util_vma_heap_alloc.
  rewrite validate_ok, (nospan_assert heap size alignment) by done.
  destruct (Z.gtb_spec size 0); [|lia]. destruct (Z.gtb_spec alignment 0); [|lia].
  destruct (alloc_high heap) eqn:Ehigh.
  - by apply alloc_high_loop_spec.
  - destruct (alloc_low_loop_spec heap size alignment Hok Hs Ha Hns (rev (holes heap)) [])
      as (r & heap' & -> & Hres); [by rewrite rev_involutive, app_nil_r|].
    exists r, heap'. split; [done|]. destruct Hres as [?|(? & ? & Hno)]; [by left|right].
    split_and!; try done. intros Hn hole Hin. apply Hno; [done|].
    apply list_elem_of_In, in_rev. rewrite rev_involutive. by apply list_elem_of_In.
Qed.

Lemma alloc_addr_loop_spec heap offset size pre l :
  heap_ok heap -> 0 < offset -> 0 < size -> offset + size <= 2 ^ 64 ->
  holes heap = pre ++ l -> offset < bound_after (2 ^ 64 + 1) pre ->
  exists b heap', alloc_addr_loop heap offset size pre l = Some (b, heap')
    /\ if b then allocated heap heap' offset size
       else heap' = heap /\ ~ range_free heap offset size.
Proof.
  intros Hok Hoff Hs Htop. revert pre. induction l as [|hole l IH]; intros pre Hl Hpre; cbn [alloc_addr_loop].
  - exists false, heap. split; [done|]. split; [done|]. intros Hr.
    rewrite app_nil_r in Hl. destruct Hok as [Hb _]. rewrite Hl in Hb.
    specialize (Hr offset ltac:(lia)). unfold is_free in Hr. rewrite Hl in Hr.
    pose proof (in_holes_after _ _ _ Hb Hr). lia.
  - destruct (hole_alloc_context heap pre l hole Hok Hl) as (Hbpre & Ho & Htop' & Hbpost & Hc).
    destruct (Z.gtb_spec (h_offset hole) offset) as [Hgt|Hle].
    { apply IH; [by rewrite Hl, <- app_assoc|]. by rewrite bound_after_snoc. }
    destruct (Z.leb_spec (h_offset hole) offset); [|lia].
    rewrite (u64_small (offset - h_offset hole)), u64_small by lia.
    destruct (Z.ltb_spec (h_size hole) (offset - h_offset hole + size)) as [Hlt|Hge].
    + exists false, heap. split; [done|]. split; [done|]. intros Hr.
      set (x := Z.max offset (h_offset hole + h_size hole)).
      specialize (Hr x ltac:(lia)). unfold is_free in Hr. rewrite Hl in Hr.
      apply in_holes_app in Hr as [Hr|[Hr|Hr]].
      * pose proof (in_holes_after _ _ _ Hbpre Hr). lia.
      * unfold in_hole in Hr. lia.
      * destruct (in_holes_below _ _ _ Hbpost Hr). lia.
    + destruct (hole_alloc_spec heap pre l hole offset size Hok Hl Hs ltac:(lia) ltac:(lia))
        as (heap' & -> & Hall). exists true, heap'. auto.
Qed.

(** * Freeing *)

Record freed (heap heap' : util_vma_heap) (offset size : Z) : Prop := {
  fr_ok : heap_ok heap';
  fr_free : forall a, is_free heap' a <-> is_free heap a \/ offset <= a < offset + size;
  fr_size : free_size heap' = free_size heap + size;
  fr_high : alloc_high heap' = alloc_high heap;
  fr_nospan : nospan_shift heap' = nospan_shift heap;
}.

Lemma free_split_spec offset l above rest :
  free_split offset l = (above, rest) ->
  l = above ++ rest /\ Forall (fun h => offset < h_offset h) above
  /\ (forall h, list.head rest = Some h -> h_offset h <= offset).
Proof.
  revert above rest. induction l as [|hole l IH]; intros above rest H; cbn in H; [by simplify_eq|].
  destruct (Z.leb_spec (h_offset hole) offset).
  - simplify_eq. split; [done|]. split; [constructor|]. intros h [= <-]. done.
  - destruct (free_split offset l) as [ab re] eqn:E. simplify_eq.
    destruct (IH _ _ eq_refl) as (-> & ? & ?). auto.
Qed.

Section free_facts.
Context (heap : util_vma_heap) (offset size : Z).
Hypothesis (Hok : heap_ok heap) (Ho : 0 < offset) (Hs : 0 < size) (Htop : offset + size <= 2 ^ 64)
  (Hfree : forall a, offset <= a < offset + size -> ~ is_free heap a).

(** Installing a hole list that adds exactly the range. *)
Lemma free_replace l :
  below (2 ^ 64 + 1) l -> sum_sizes l = sum_sizes (holes heap) + size ->
  (forall a, in_holes a l <-> in_holes a (holes heap) \/ offset <= a < offset + size) ->
  let heap' := set_free_size (set_holes heap l) (u64 (free_size heap + size)) in
  util_vma_heap_validate heap' = true /\ freed heap heap' offset size.
Proof.
  intros Hb Hsum Hin heap'. destruct Hok as [_ Hsz]. pose proof (sum_sizes_lt _ Hb).
  assert (Hfs : free_size heap' = free_size heap + size) by (cbn; apply u64_small; lia).
  assert (Hok' : heap_ok heap') by (constructor; [done|]; rewrite Hfs; cbn; lia).
  split; [by apply validate_ok|]. constructor; done.
Qed.

Context (above rest : list util_vma_hole).
Hypothesis Hsplit : free_split offset (holes heap) = (above, rest).

Lemma free_above hh : hh ∈ above -> offset + size <= h_offset hh.
Proof.
  intros Hin. destruct (free_split_spec _ _ _ _ Hsplit) as (Hl & Hab & _).
  rewrite Forall_forall in Hab. specialize (Hab _ Hin). apply list_elem_of_In in Hin.
  destruct (Z_le_gt_dec (offset + size) (h_offset hh)) as [|Hgt]; [done|exfalso].
  apply (Hfree (h_offset hh)); [lia|]. unfold is_free. rewrite Hl, in_holes_app. left.
  destruct Hok as [Hb _]. rewrite Hl in Hb. apply below_app in Hb as [Hb _].
  clear -Hb Hin. revert Hb. generalize (2 ^ 64 + 1). induction above as [|h l IH]; intros b Hb; [done|].
  destruct Hb as (? & ? & ? & Hb). destruct Hin as [->|Hin]; [left; unfold in_hole; lia|right; eauto].
Qed.

Lemma free_below lh r : rest = lh :: r -> h_offset lh + h_size lh <= offset.
Proof.
  intros Er. destruct (free_split_spec _ _ _ _ Hsplit) as (Hl & _ & Hre).
  specialize (Hre lh). rewrite Er in Hre. specialize (Hre eq_refl).
  destruct (Z_le_gt_dec (h_offset lh + h_size lh) offset) as [|Hgt]; [done|exfalso].
  apply (Hfree offset); [lia|]. unfold is_free. rewrite Hl, in_holes_app, Er. right. left.
  unfold in_hole. lia.
Qed.
End free_facts.

Lemma last_destruct {A} (l : list A) : l = [] \/ exists l' x, l = l' ++ [x].
Proof. destruct l using rev_ind; [by left|right; eauto]. Qed.

(** What the neighbours' adjacency tests decide. *)
Definition low_adj (rest : list util_vma_hole) (offset : Z) : bool :=
  match rest with lh :: _ => h_offset lh + h_size lh =? offset | [] => false end.

Definition high_adj (above : list util_vma_hole) (e : Z) : bool :=
  match list.last above with Some hh => e =? h_offset hh | None => false end.

(** Conjunctions of bounds on holes. *)
Ltac holes_lia := split_and!; auto; lia.

Section free_merge_facts.
Context (offset size : Z).
Hypothesis (Ho : 0 < offset) (Hs : 0 < size) (Htop : offset + size <= 2 ^ 64).

(** Nothing above the range: only the lower neighbour matters. *)
Lemma free_merge_low above rest (c := bound_after (2 ^ 64 + 1) above) :
  below (2 ^ 64 + 1) above -> below c rest -> offset + size < c ->
  (forall lh r, rest = lh :: r -> h_offset lh + h_size lh <= offset) ->
  let l := if low_adj rest offset
           then match rest with
                | lh :: r => above ++ Hole (h_offset lh) (u64 (h_size lh + size)) :: r
                | [] => [] end
           else above ++ Hole offset size :: rest in
  below (2 ^ 64 + 1) l /\ sum_sizes l = sum_sizes above + sum_sizes rest + size
  /\ forall a, in_holes a l <-> (in_holes a above \/ in_holes a rest) \/ offset <= a < offset + size.
Proof.
  intros Hba Hbr Hc Hlow l. pose proof (bound_after_le _ _ Hba) as Hcle. fold c in Hcle.
  unfold l, low_adj. destruct rest as [|lh r].
  - rewrite below_app, sum_sizes_app. fold c. split; [cbn; holes_lia|].
    split; [cbn; lia|]. intros a. rewrite in_holes_app. cbn. unfold in_hole. cbn. tauto.
  - specialize (Hlow lh r eq_refl). destruct Hbr as (Q1 & Q2 & Q3 & Q4).
    destruct (Z.eqb_spec (h_offset lh + h_size lh) offset);
      rewrite below_app, sum_sizes_app; fold c; rewrite ?(u64_small (h_size lh + size)) by lia;
      (split; [cbn; holes_lia|]); (split; [cbn; lia|]); intros a; rewrite in_holes_app; cbn;
      unfold in_hole; cbn; intuition lia.
Qed.

(** The hole above touches the range and grows down over it. *)
Lemma free_merge_high ab hh rest (c := bound_after (2 ^ 64 + 1) ab) :
  below (2 ^ 64 + 1) ab -> 0 < h_size hh -> h_offset hh + h_size hh < c ->
  below (h_offset hh) rest -> offset + size = h_offset hh ->
  (forall lh r, rest = lh :: r -> h_offset lh + h_size lh <= offset) ->
  let l := if low_adj rest offset
           then match rest with
                | lh :: r => ab ++ Hole (h_offset lh) (u64 (h_size lh + u64 (size + h_size hh))) :: r
                | [] => [] end
           else ab ++ Hole offset (u64 (h_size hh + size)) :: rest in
  below (2 ^ 64 + 1) l
  /\ sum_sizes l = sum_sizes (ab ++ [hh]) + sum_sizes rest + size
  /\ forall a, in_holes a l <->
       (in_holes a (ab ++ [hh]) \/ in_holes a rest) \/ offset <= a < offset + size.
Proof.
  intros Hba Hhs Hhc Hbr Hadj Hlow l. pose proof (bound_after_le _ _ Hba) as Hcle. fold c in Hcle.
  unfold l, low_adj. rewrite (u64_small (h_size hh + size)) by lia. destruct rest as [|lh r].
  - rewrite below_app, !sum_sizes_app. fold c. split; [cbn; holes_lia|].
    split; [cbn; lia|]. intros a. rewrite !in_holes_app. cbn. unfold in_hole. cbn. intuition lia.
  - specialize (Hlow lh r eq_refl). destruct Hbr as (Q1 & Q2 & Q3 & Q4).
    destruct (Z.eqb_spec (h_offset lh + h_size lh) offset);
      rewrite below_app, !sum_sizes_app; fold c; rewrite ?(u64_small (size + h_size hh)) by lia;
      rewrite ?(u64_small (h_size lh + (size + h_size hh))) by lia;
      (split; [cbn; holes_lia|]); (split; [cbn; lia|]); intros a; rewrite !in_holes_app; cbn;
      unfold in_hole; cbn; intuition lia.
Qed.

Lemma free_merge_ok above rest :
  below (2 ^ 64 + 1) (above ++ rest) ->
  (forall hh, hh ∈ above -> offset + size <= h_offset hh) ->
  (forall lh r, rest = lh :: r -> h_offset lh + h_size lh <= offset) ->
  let l := free_merge offset size (high_adj above (offset + size)) (low_adj rest offset) above rest in
  below (2 ^ 64 + 1) l /\ sum_sizes l = sum_sizes above + sum_sizes rest + size
  /\ forall a, in_holes a l <-> (in_holes a above \/ in_holes a rest) \/ offset <= a < offset + size.
Proof.
  intros [Hba Hbr]%below_app Hhigh Hlow. unfold free_merge, high_adj.
  destruct (last_destruct above) as [->|(ab & hh & ->)].
  - pose proof (free_merge_low [] rest Hba Hbr ltac:(cbn; lia) Hlow) as H.
    cbn [list.last]. unfold low_adj in *. destruct rest; [exact H|]. by destruct (_ =? _).
  - rewrite last_snoc, removelast_last.
    assert (Hh : offset + size <= h_offset hh) by (apply Hhigh, list_elem_of_In, in_elt).
    rewrite bound_after_snoc in Hbr.
    destruct (Z.eqb_spec (offset + size) (h_offset hh)) as [E|E].
    + apply below_app in Hba as [Hba (P1 & P2 & P3 & _)].
      pose proof (free_merge_high ab hh rest Hba P2 P3 Hbr E Hlow) as H.
      unfold low_adj in *. destruct rest; [exact H|]. by destruct (_ =? _).
    + pose proof (free_merge_low (ab ++ [hh]) rest Hba) as H. rewrite bound_after_snoc in H.
      specialize (H Hbr ltac:(lia) Hlow).
      unfold low_adj in *. destruct rest; [exact H|]. by destruct (_ =? _).
Qed.
End free_merge_facts.

Lemma heap_free_spec heap offset size :
  heap_ok heap -> 0 < offset -> 0 < size -> offset + size <= 2 ^ 64 ->
  (forall a, offset <= a < offset + size -> ~ is_free heap a) ->
  exists heap', util_vma_heap_free heap offset size = Some heap' /\ freed heap heap' offset size.
Proof.
  intros Hok Ho Hs Htop Hfree. unfold util_vma_heap_free.
  destruct (Z.gtb_spec offset 0); [|lia]. destruct (Z.gtb_spec size 0); [|lia].
  assert (Hwrap : (u64 (offset + size) =? 0) || (u64 (offset + size) >? offset) = true).
  { destruct (Z.eq_dec (offset + size) (2 ^ 64)) as [->|]; [done|]. rewrite u64_small; lia. }
  rewrite Hwrap, validate_ok by done. clear Hwrap.
  destruct (free_split offset (holes heap)) as [above rest] eqn:Esp.
  pose proof (free_above heap offset size Hok Hfree above rest Esp) as Hhigh.
  pose proof (free_below heap offset size Hs Hfree above rest Esp) as Hlow.
  destruct (free_split_spec _ _ _ _ Esp) as (Hl & _ & _).
  pose proof (ok_holes _ Hok) as Hb. rewrite Hl in Hb.
  destruct (free_merge_ok offset size Ho Hs Htop above rest Hb Hhigh Hlow) as (M1 & M2 & M3).
  assert (Ehigh : match list.last above with
                  | Some hh => u64 (offset + size) =? h_offset hh | None => false end
                  = high_adj above (offset + size)
                  /\ match list.last above with
                     | Some hh => u64 (offset + size) <=? h_offset hh | None => true end = true).
  { unfold high_adj. destruct (list.last above) as [hh|] eqn:El; [|done].
    apply last_Some in El as [ab ->]. pose proof (Hhigh hh ltac:(apply list_elem_of_In, in_elt)).
    apply below_app in Hb as [[Hb (? & ? & ? & _)]%below_app _]. pose proof (bound_after_le _ _ Hb).
    rewrite u64_small by lia. split; [done|lia]. }
  destruct Ehigh as [-> ->].
  assert (Elow : match list.head rest with
                 | Some lh => u64 (h_offset lh + h_size lh) =? offset | None => false end
                 = low_adj rest offset
                 /\ match list.head rest with
                    | Some lh => (u64 (h_offset lh + h_size lh) >? h_offset lh)
                                 && (u64 (h_offset lh + h_size lh) <=? offset)
                    | None => true end = true).
  { destruct rest as [|lh r]; [done|]. cbn. specialize (Hlow lh r eq_refl).
    apply below_app in Hb as [_ (? & ? & ? & _)]. rewrite u64_small by lia. split; [done|lia]. }
  destruct Elow as [-> ->].
  destruct (free_replace heap offset size Hok _ M1) as [Hv Hf].
  - rewrite M2, Hl, sum_sizes_app. done.
  - intros a. rewrite M3, Hl, in_holes_app. done.
  - cbv zeta in *. rewrite Hv. eauto.
Qed.

Lemma heap_init_spec start size :
  0 < start -> 0 <= size -> start + size <= 2 ^ 64 ->
  exists heap, util_vma_heap_init start size = Some heap /\ heap_ok heap
    /\ (forall a, is_free heap a <-> start <= a < start + size)
    /\ alloc_high heap = true /\ nospan_shift heap = 0 /\ free_size heap = size.
Proof.
  intros Hst Hs Htop. unfold util_vma_heap_init.
  destruct (Z.gtb_spec size 0).
  - destruct (heap_free_spec (Heap [] 0 false 0) start size) as (heap & -> & [Hok Hfr Hsz _ _]);
      [by constructor|lia|lia|lia|by intros a _ []|]. cbn [mbind option_bind].
    eexists. split; [done|]. split; [constructor; apply Hok|]. split_and!; try done.
    intros a. pose proof (Hfr a) as E. unfold is_free in *. cbn in *. tauto.
  - cbn [mbind option_bind]. eexists. split; [done|]. split; [by constructor|].
    split_and!; try done; [|cbn; lia]. intros a. unfold is_free. cbn. lia.
Qed.

Lemma max_size_acc l acc :
  acc <= fold_left (fun m h => MAX2 m (h_size h)) l acc
  /\ Forall (fun h => h_size h <= fold_left (fun m h => MAX2 m (h_size h)) l acc) l
  /\ (fold_left (fun m h => MAX2 m (h_size h)) l acc = acc
      \/ exists h, h ∈ l /\ h_size h = fold_left (fun m h => MAX2 m (h_size h)) l acc).
Proof.
  revert acc. induction l as [|hole l IH]; intros acc; cbn.
  { split; [lia|]. split; [constructor|by left]. }
  destruct (IH (MAX2 acc (h_size hole))) as (H1 & H2 & H3). rewrite MAX2_max in *.
  split; [lia|]. split; [constructor; [lia|done]|].
  destruct H3 as [->|(h & Hin & <-)]; [|right; exists h; set_solver].
  destruct (Z.max_spec acc (h_size hole)) as [[_ ->]|[_ ->]]; [right|by left].
  exists hole. set_solver.
Qed.

(** * Properties *)

(** C19: allocation of an aligned range.  On a heap that satisfies the invariant,
    and with either no no-span constraint or one of [2^nospan_shift] bytes that is at least
    twice the size and a multiple of an alignment that is a power of two
    ([nospan_ok]), [util_vma_heap_alloc] trips no assertion (its two calls of
    [util_vma_heap_validate] included) and either returns an aligned, non-zero
    address of a range that was entirely free and does not cross a no-span boundary,
    removes exactly that range from the free addresses and keeps the invariant, or
    returns 0 with the heap unchanged.  When there is no no-span constraint, or the
    heap allocates from the bottom and has no hole at the top of the address space,
    0 means that no such range exists.  With a no-span constraint and allocation from
    the top, or a hole at the top, 0 can be returned although there is one:
    [vma_nospan_high_misses] and [vma_nospan_top_misses]. *)
Theorem util_vma_heap_alloc_correct (heap : util_vma_heap) (size alignment : Z) :
  heap_ok heap -> 0 < size < 2 ^ 64 -> 0 < alignment < 2 ^ 64 ->
  nospan_ok (nospan_shift heap) size alignment ->
  exists r heap', util_vma_heap_alloc heap size alignment = Some (r, heap')
    /\ ((0 < r /\ allocated heap heap' r size /\ (alignment | r)
         /\ no_span (nospan_shift heap) r size)
        \/ (r = 0 /\ heap' = heap
            /\ (alloc_complete heap ->
                forall offset, (alignment | offset) -> no_span (nospan_shift heap) offset size ->
                  ~ range_free heap offset size))).
Proof.
  intros Hok Hs Ha Hns. destruct (heap_alloc_spec heap size alignment Hok Hs Ha Hns)
    as (r & heap' & -> & Hres). exists r, heap'. split; [done|].
  destruct Hres as [?|(-> & -> & Hno)]; [by left|right]. split_and!; try done.
  intros Hn offset Hal Hsp Hfree.
  destruct (range_in_one_hole _ _ offset (offset + size) (ok_holes _ Hok) ltac:(lia) Hfree)
    as (pre & hole & post & Hl & Hlo & Hhi).
  apply (Hno Hn hole) with offset; [rewrite Hl; set_solver|done|]. unfold fits_aligned. auto.
Qed.

(** From the top, 4 addresses are not found in the hole from 28 to 34, although 28 to
    32 are free and do not cross a multiple of 16; the code compares [offset - size]
    with the hole where [last - size] is meant.  From the bottom they are found. *)
Lemma vma_nospan_high_misses :
  util_vma_heap_alloc (Heap [Hole 28 6] 6 true 4) 4 4 = Some (0, Heap [Hole 28 6] 6 true 4)
  /\ range_free (Heap [Hole 28 6] 6 true 4) 28 4 /\ no_span 4 28 4
  /\ option_map fst (util_vma_heap_alloc (Heap [Hole 28 6] 6 false 4) 4 4) = Some 28.
Proof.
  split_and!; [vm_compute; reflexivity| |right; reflexivity|vm_compute; reflexivity].
  intros x Hx. left. unfold in_hole. cbn. lia.
Qed.

(** From the bottom, in a hole that ends at the top of the address space, the end
    of the hole wraps to 0 and the hole is skipped. *)
Lemma vma_nospan_top_misses :
  let heap := Heap [Hole (2 ^ 64 - 18) 18] 18 false 4 in
  util_vma_heap_alloc heap 4 2 = Some (0, heap)
  /\ range_free heap (2 ^ 64 - 16) 4 /\ no_span 4 (2 ^ 64 - 16) 4.
Proof.
  split_and!; [vm_compute; reflexivity| |right; reflexivity].
  intros x Hx. left. unfold in_hole. cbn in *. lia.
Qed.

Lemma util_vma_heap_alloc_correct_witness :
  exists r heap', util_vma_heap_alloc (Heap [Hole 100 50; Hole 16 64] 114 true 0) 32 16 = Some (r, heap')
    /\ r = 112.
Proof.
  destruct (util_vma_heap_alloc_correct (Heap [Hole 100 50; Hole 16 64] 114 true 0) 32 16)
    as (r & heap' & E & _).
  - constructor; [cbn; lia|reflexivity].
  - lia.
  - lia.
  - left. reflexivity.
  - exists r, heap'. split; [exact E|]. vm_compute in E. congruence.
Defined.

(** allocation at a fixed address succeeds exactly when the whole range is
    free; on success exactly that range leaves the free set and the invariant is
    kept, on failure the heap is unchanged. *)
Theorem util_vma_heap_alloc_addr_correct (heap : util_vma_heap) (offset size : Z) :
  heap_ok heap -> 0 < offset -> 0 < size -> offset + size <= 2 ^ 64 ->
  exists b heap', util_vma_heap_alloc_addr heap offset size = Some (b, heap')
    /\ if b then allocated heap heap' offset size
       else heap' = heap /\ ~ range_free heap offset size.
Proof.
  intros Hok Ho Hs Htop. unfold util_vma_heap_alloc_addr.
  destruct (Z.gtb_spec offset 0); [|lia]. destruct (Z.gtb_spec size 0); [|lia].
  assert (Hwrap : (u64 (offset + size) =? 0) || (u64 (offset + size) >? offset) = true).
  { destruct (Z.eq_dec (offset + size) (2 ^ 64)) as [->|]; [done|]. rewrite u64_small; lia. }
  rewrite Hwrap. apply alloc_addr_loop_spec; try done. cbn. lia.
Qed.

Lemma util_vma_heap_alloc_addr_correct_witness :
  exists b heap', util_vma_heap_alloc_addr (Heap [Hole 100 50; Hole 16 64] 114 true 0) 120 10 = Some (b, heap')
    /\ b = true.
Proof.
  destruct (util_vma_heap_alloc_addr_correct (Heap [Hole 100 50; Hole 16 64] 114 true 0) 120 10)
    as (b & heap' & E & _).
  - constructor; [cbn; lia|reflexivity].
  - lia.
  - lia.
  - lia.
  - exists b, heap'. split; [exact E|]. vm_compute in E. congruence.
Defined.

(** freeing a range none of whose addresses is free trips no assertion, adds
    exactly that range to the free set, and keeps the invariant: in particular
    the freed range is merged with both neighbours when it touches them. *)
Theorem util_vma_heap_free_correct (heap : util_vma_heap) (offset size : Z) :
  heap_ok heap -> 0 < offset -> 0 < size -> offset + size <= 2 ^ 64 ->
  (forall a, offset <= a < offset + size -> ~ is_free heap a) ->
  exists heap', util_vma_heap_free heap offset size = Some heap' /\ freed heap heap' offset size.
Proof. apply heap_free_spec. Qed.

Lemma util_vma_heap_free_correct_witness :
  exists heap', util_vma_heap_free (Heap [Hole 100 50; Hole 16 64] 114 true 0) 80 20 = Some heap'
    /\ holes heap' = [Hole 16 134].
Proof.
  destruct (util_vma_heap_free_correct (Heap [Hole 100 50; Hole 16 64] 114 true 0) 80 20)
    as (heap' & E & _).
  - constructor; [cbn; lia|reflexivity].
  - lia.
  - lia.
  - lia.
  - unfold is_free, in_hole. cbn. unfold in_hole. cbn. lia.
  - exists heap'. split; [exact E|]. vm_compute in E. injection E as <-. reflexivity.
Defined.

(** allocating and freeing restores the heap.  Freeing the range that
    [util_vma_heap_alloc] just returned succeeds and gives back the very same
    heap, hole list and free size included, because the hole list is a canonical
    representation of the free set. *)
Theorem util_vma_heap_alloc_free_roundtrip (heap heap' : util_vma_heap) (size alignment r : Z) :
  heap_ok heap -> 0 < size < 2 ^ 64 -> 0 < alignment < 2 ^ 64 ->
  nospan_ok (nospan_shift heap) size alignment ->
  util_vma_heap_alloc heap size alignment = Some (r, heap') -> r <> 0 ->
  util_vma_heap_free heap' r size = Some heap.
Proof.
  intros Hok Hs Ha Hns E Hr. destruct (heap_alloc_spec heap size alignment Hok Hs Ha Hns)
    as (r' & h & E' & Hres). rewrite E in E'. simplify_eq.
  destruct Hres as [(Hr0 & Hall & _ & _)|(? & _)]; [|done].
  assert (Htop : r' + size <= 2 ^ 64).
  { pose proof (al_was_free _ _ _ _ Hall (r' + size - 1) ltac:(lia)) as Hl.
    destruct (in_holes_below _ _ _ (ok_holes _ Hok) Hl). lia. }
  destruct (heap_free_spec h r' size (al_ok _ _ _ _ Hall)) as (h2 & -> & Hfr); try lia.
  { intros a Ha2 Hf. apply (al_free _ _ _ _ Hall) in Hf. lia. }
  f_equal. destruct Hall as [_ Hwas Hfree Hsz Hh Hn], Hfr as [Hok2 Hfree2 Hsz2 Hh2 Hn2].
  assert (Hl : holes h2 = holes heap).
  { apply (below_canonical (2 ^ 64 + 1)); [apply Hok2|apply Hok|].
    intros a. pose proof (Hfree2 a) as H1. pose proof (Hfree a) as H2. unfold is_free in *.
    rewrite H1, H2. split; [|destruct (decide (r' <= a < r' + size)); tauto].
    intros [[? _]|Hin]; [done|]. by apply Hwas. }
  destruct heap as [hs fs ah ns], h2 as [hs2 fs2 ah2 ns2]; cbn in *. f_equal; congruence || lia.
Qed.

Lemma util_vma_heap_alloc_free_roundtrip_witness :
  util_vma_heap_free (Heap [Hole 144 6; Hole 100 12; Hole 16 64] 82 true 0) 112 32
  = Some (Heap [Hole 100 50; Hole 16 64] 114 true 0).
Proof.
  apply (util_vma_heap_alloc_free_roundtrip (Heap [Hole 100 50; Hole 16 64] 114 true 0) _ 32 16 112).
  - constructor; [cbn; lia|reflexivity].
  - lia.
  - lia.
  - left. reflexivity.
  - vm_compute. reflexivity.
  - lia.
Defined.

(** [util_vma_heap_validate] is exactly the invariant: on any heap whose
    fields are 64-bit values it returns true if and only if the holes are
    non-empty, above address 0, below [2^64], strictly ordered with a gap
    between neighbours, and [free_size] is their total. *)
Theorem util_vma_heap_validate_iff (heap : util_vma_heap) :
  Forall hole_u64 (holes heap) -> 0 <= free_size heap < 2 ^ 64 ->
  util_vma_heap_validate heap = true <-> heap_ok heap.
Proof. intros Hu Hf. split; [by apply validate_sound|apply validate_ok]. Qed.

Lemma util_vma_heap_validate_iff_witness :
  util_vma_heap_validate (Heap [Hole 100 50; Hole 50 50] 100 true 0) = true
  <-> heap_ok (Heap [Hole 100 50; Hole 50 50] 100 true 0).
Proof.
  apply (util_vma_heap_validate_iff (Heap [Hole 100 50; Hole 50 50] 100 true 0)).
  - repeat constructor; cbn; lia.
  - cbn. lia.
Defined.

(** Initialisation gives a valid heap with exactly one hole, the given range
    (none when it is empty), allocating from the top; the largest free block it
    then reports is that range's size. *)
Theorem util_vma_heap_init_correct (start size : Z) :
  0 < start -> 0 <= size -> start + size <= 2 ^ 64 ->
  exists heap, util_vma_heap_init start size = Some heap /\ heap_ok heap
    /\ (forall a, is_free heap a <-> start <= a < start + size)
    /\ alloc_high heap = true /\ nospan_shift heap = 0 /\ free_size heap = size
    /\ util_vma_heap_get_max_free_continuous_size heap = size.
Proof.
  intros Hst Hs Htop. destruct (heap_init_spec start size Hst Hs Htop)
    as (heap & E & Hok & Hfree & Hh & Hn & Hsz). exists heap. split_and!; try done.
  assert (El : holes heap = if size =? 0 then [] else [Hole start size]).
  { apply (below_canonical (2 ^ 64 + 1)); [apply Hok|destruct (Z.eqb_spec size 0); cbn; lia|].
    intros a. pose proof (Hfree a) as Ha. unfold is_free in Ha. rewrite Ha.
    destruct (Z.eqb_spec size 0); cbn; unfold in_hole; cbn; lia. }
  unfold util_vma_heap_get_max_free_continuous_size. rewrite El.
  destruct (Z.eqb_spec size 0); cbn [fold_left]; [done|]. rewrite MAX2_max. cbn. lia.
Qed.

Lemma util_vma_heap_init_correct_witness :
  exists heap, util_vma_heap_init 4096 1000 = Some heap
    /\ util_vma_heap_get_max_free_continuous_size heap = 1000.
Proof.
  destruct (util_vma_heap_init_correct 4096 1000) as (heap & E & _ & _ & _ & _ & _ & Hm);
    [lia|lia|lia|exists heap; exact (conj E Hm)].
Defined.

(** the largest free block is the size of the largest hole, so an unaligned
    request succeeds on a heap without no-span constraint exactly up to it: the
    reported size is available at one address, and no larger range is free. *)
Theorem util_vma_heap_get_max_free_correct (heap : util_vma_heap) :
  heap_ok heap -> holes heap <> [] ->
  let max := util_vma_heap_get_max_free_continuous_size heap in
  (exists offset, 0 < offset /\ range_free heap offset max)
  /\ (forall offset size, max < size -> ~ range_free heap offset size).
Proof.
  intros Hok Hne. cbv zeta. unfold util_vma_heap_get_max_free_continuous_size.
  destruct (max_size_acc (holes heap) 0) as (H0 & Hall & Hex).
  set (m := fold_left _ _ _) in *. split.
  - assert (Hh : exists h, h ∈ holes heap /\ h_size h = m).
    { destruct Hex as [E|?]; [exfalso|done]. destruct (holes heap) as [|h l] eqn:El; [done|].
      pose proof (ok_holes _ Hok) as Hb. rewrite El in Hb. destruct Hb as (_ & ? & _).
      apply Forall_cons_1 in Hall as [? _]. lia. }
    destruct Hh as (h & (pre & post & El)%list_elem_of_split & Hm). exists (h_offset h).
    pose proof (ok_holes _ Hok) as Hb. rewrite El in Hb. apply below_app in Hb as [_ (? & _)].
    split; [done|]. intros a Ha. unfold is_free. rewrite El, in_holes_app. cbn. unfold in_hole.
    right; left. lia.
  - intros offset size Hlt Hfree.
    destruct (range_in_one_hole _ _ offset (offset + size) (ok_holes _ Hok) ltac:(lia) Hfree)
      as (pre & hole & post & El & Hlo & Hhi).
    rewrite El in Hall. apply Forall_app in Hall as [_ [? _]%Forall_cons_1]. lia.
Qed.

Lemma util_vma_heap_get_max_free_correct_witness :
  (exists offset, 0 < offset
     /\ range_free (Heap [Hole 100 50; Hole 16 64] 114 true 0) offset 64)
  /\ (forall offset size, 64 < size ->
        ~ range_free (Heap [Hole 100 50; Hole 16 64] 114 true 0) offset size).
Proof.
  apply (util_vma_heap_get_max_free_correct (Heap [Hole 100 50; Hole 16 64] 114 true 0)).
  - constructor; [cbn; lia|reflexivity].
  - discriminate.
Defined.

(** the no-span constraint is not met by the top-down search for every
    request.  When the topmost candidate crosses a boundary the code computes the
    boundary below the last address but then subtracts the size from the offset
    it had, not from that boundary: on a heap with one hole [16, 52) and 16-byte
    segments, a request of 12 bytes gets [28, 40), which crosses address 32,
    although [16, 28) and [32, 44) do not cross one. *)
Theorem util_vma_heap_alloc_high_nospan_crosses :
  let heap := Heap [Hole 16 36] 36 true 4 in
  heap_ok heap
  /\ (exists heap', util_vma_heap_alloc heap 12 1 = Some (28, heap'))
  /\ ~ no_span 4 28 12
  /\ (range_free heap 16 12 /\ no_span 4 16 12)
  /\ (range_free heap 32 12 /\ no_span 4 32 12).
Proof.
  cbv zeta. split_and!.
  - constructor; [cbn; lia|reflexivity].
  - eexists. vm_compute. reflexivity.
  - intros [|H]; [done|]. vm_compute in H. done.
  - intros a Ha. left. unfold in_hole. cbn. lia.
  - right. reflexivity.
  - intros a Ha. left. unfold in_hole. cbn. lia.
  - right. reflexivity.
Qed.
