(* ===== verification/Idalloc.v ===== *)
(** * The number allocators (src/util/u_idalloc.c, u_idalloc.h)

    An allocator is a bitmap of 32-bit words with two cached indices.  A read or
    a write outside [data] has no result ([None]), like a failed assertion, so
    that a theorem giving a result also says that all accesses are in bounds.
    The abstract state is the set of allocated numbers, [allocated]. *)

From Stdlib Require Import ZArith Lia Sorted.
From stdpp Require Import base list numbers option sets relations.
From S2P Require Import Prelude.
Local Open Scope Z_scope.

(** ** Bit helpers (util/bitscan.h, util/macros.h) *)

(** [ffs]: one plus the index of the least significant set bit, or 0. *)
Fixpoint ffs_loop (fuel : nat) (i x : Z) : Z :=
  match fuel with
  | O => 0
  | S fuel => if Z.testbit x i then i + 1 else ffs_loop fuel (i + 1) x
  end.
Definition ffs (x : Z) : Z := ffs_loop 32 0 x.

Definition BITFIELD_BIT (b : Z) : Z := u32 (Z.shiftl 1 b).
Definition BITFIELD_MASK (b : Z) : Z :=
  if b =? 32 then UINT32_MAX else u32 (BITFIELD_BIT (Z.land b 31) - 1).
Definition DIV_ROUND_UP (a b : Z) : Z := u32 (u32 (a + b) - 1) / b.

(** ** State *)

Record util_idalloc := Idalloc {
  data : list Z;
  num_elements : Z;
  num_set_elements : Z;
  lowest_free_idx : Z;
}.

Definition set_data (buf : util_idalloc) (d : list Z) : util_idalloc :=
  Idalloc d (num_elements buf) (num_set_elements buf) (lowest_free_idx buf).
Definition set_num_set (buf : util_idalloc) (n : Z) : util_idalloc :=
  Idalloc (data buf) (num_elements buf) n (lowest_free_idx buf).
Definition set_lowest (buf : util_idalloc) (n : Z) : util_idalloc :=
  Idalloc (data buf) (num_elements buf) (num_set_elements buf) n.

(** [buf->data[i]] and [buf->data[i] = v]. *)
Definition data_get (buf : util_idalloc) (i : Z) : option Z := data buf !! Z.to_nat i.
Definition data_set (buf : util_idalloc) (i v : Z) : option util_idalloc :=
  assert! bool_decide (Z.to_nat i < length (data buf))%nat ;;
  Some (set_data buf (<[Z.to_nat i := v]> (data buf))).

(** ** Operations *)

Definition util_idalloc_exists (buf : util_idalloc) (id : Z) : option bool :=
  if id / 32 <? num_set_elements buf then
    w ← data_get buf (id / 32);
    Some (negb (Z.land w (BITFIELD_BIT (id mod 32)) =? 0))
  else Some false.

Definition util_idalloc_resize (buf : util_idalloc) (new_num_elements : Z) : util_idalloc :=
  if new_num_elements >? num_elements buf then
    Idalloc (data buf ++ replicate (Z.to_nat (new_num_elements - num_elements buf)) 0)
      new_num_elements (num_set_elements buf) (lowest_free_idx buf)
  else buf.

Definition util_idalloc_init (initial_num_ids : Z) : option util_idalloc :=
  assert! negb (initial_num_ids =? 0) ;;
  Some (util_idalloc_resize (Idalloc [] 0 0 0) (DIV_ROUND_UP initial_num_ids 32)).

(** The search of [util_idalloc_alloc] from index [i]; [Some None] when the loop
    ends without a free slot. *)
Fixpoint alloc_loop (fuel : nat) (buf : util_idalloc) (i : Z) : option (option (Z * util_idalloc)) :=
  match fuel with
  | O => None
  | S fuel =>
      if i <? num_elements buf then
        w ← data_get buf i;
        if w =? 0xffffffff then alloc_loop fuel buf (i + 1)
        else
          let bit := ffs (not32 w) - 1 in
          buf ← data_set buf i (Z.lor w (u32 (Z.shiftl 1 bit)));
          let buf := set_lowest buf i in
          let buf := set_num_set buf (MAX2 (num_set_elements buf) (i + 1)) in
          Some (Some (u32 (i * 32 + bit), buf))
      else Some None
  end.

Definition util_idalloc_alloc (buf : util_idalloc) : option (Z * util_idalloc) :=
  let num_elements := num_elements buf in
  found ← alloc_loop (S (Z.to_nat num_elements)) buf (lowest_free_idx buf);
  match found with
  | Some r => Some r
  | None =>
      let buf := util_idalloc_resize buf (u32 (MAX2 num_elements 1 * 2)) in
      let buf := set_lowest buf num_elements in
      w ← data_get buf num_elements;
      buf ← data_set buf num_elements (Z.lor w 1);
      let buf := set_num_set buf (MAX2 (num_set_elements buf) (num_elements + 1)) in
      Some (u32 (num_elements * 32), buf)
  end.

Fixpoint find_free_block_loop (fuel : nat) (buf : util_idalloc) (i : Z) : option Z :=
  match fuel with
  | O => None
  | S fuel =>
      if i <? num_elements buf then
        w ← data_get buf i;
        if w =? 0 then Some i else find_free_block_loop fuel buf (i + 1)
      else Some (num_elements buf)
  end.
Definition find_free_block (buf : util_idalloc) (start : Z) : option Z :=
  find_free_block_loop (S (Z.to_nat (num_elements buf))) buf start.

(** The inner [for] of [util_idalloc_alloc_range]: the value of [i] at its end. *)
Fixpoint range_scan (fuel : nat) (buf : util_idalloc) (num_elements num_alloc base i : Z) : option Z :=
  match fuel with
  | O => None
  | S fuel =>
      if (i <? num_elements) && (i - base <? num_alloc) then
        w ← data_get buf i;
        if w =? 0 then range_scan fuel buf num_elements num_alloc base (i + 1) else Some i
      else Some i
  end.

(** The [while (1)]: the base and whether the range was found there. *)
Fixpoint range_search (fuel : nat) (buf : util_idalloc) (num_elements num_alloc base : Z)
    : option (Z * bool) :=
  match fuel with
  | O => None
  | S fuel =>
      i ← range_scan (S (Z.to_nat num_elements)) buf num_elements num_alloc base base;
      if i - base =? num_alloc then Some (base, true)
      else if i =? num_elements then Some (base, false)
      else
        w ← data_get buf i;
        range_search fuel buf num_elements num_alloc (if w =? 0 then i else i + 1)
  end.

Fixpoint range_mark (fuel : nat) (buf : util_idalloc) (i last : Z) : option util_idalloc :=
  match fuel with
  | O => None
  | S fuel =>
      if i <? last then
        buf ← data_set buf i 0xffffffff;
        range_mark fuel buf (i + 1) last
      else Some buf
  end.

(** The loop that validates the algorithm: [n] numbers from [id] on. *)
Fixpoint range_validate (n : nat) (buf : util_idalloc) (id : Z) : option unit :=
  match n with
  | O => Some tt
  | S n =>
      b ← util_idalloc_exists buf (u32 id);
      assert! b ;;
      range_validate n buf (id + 1)
  end.

Definition util_idalloc_alloc_range (buf : util_idalloc) (num : Z) : option (Z * util_idalloc) :=
  if num =? 1 then util_idalloc_alloc buf
  else
    let num_alloc := DIV_ROUND_UP num 32 in
    let num_elements := num_elements buf in
    base ← find_free_block buf (lowest_free_idx buf);
    '(base, found) ← range_search (S (Z.to_nat num_elements)) buf num_elements num_alloc base;
    let buf := if (found : bool) then buf
               else util_idalloc_resize buf (u32 (num_elements * 2 + num_alloc)) in
    let last := base + num_alloc - (if negb (num mod 32 =? 0) then 1 else 0) in
    buf ← range_mark (S (Z.to_nat num_alloc)) buf base last;
    buf ← (if negb (num mod 32 =? 0) then
             w ← data_get buf (base + num_alloc - 1);
             data_set buf (base + num_alloc - 1) (Z.lor w (BITFIELD_MASK (num mod 32)))
           else Some buf);
    let buf := if lowest_free_idx buf =? base then set_lowest buf (base + num / 32) else buf in
    let buf := set_num_set buf (MAX2 (num_set_elements buf) (base + num_alloc)) in
    range_validate (Z.to_nat num) buf (base * 32) ≫= fun _ =>
    Some (u32 (base * 32), buf).

Fixpoint shrink_loop (fuel : nat) (buf : util_idalloc) : option util_idalloc :=
  match fuel with
  | O => None
  | S fuel =>
      if num_set_elements buf >? 0 then
        w ← data_get buf (num_set_elements buf - 1);
        if w =? 0 then shrink_loop fuel (set_num_set buf (num_set_elements buf - 1)) else Some buf
      else Some buf
  end.

Definition util_idalloc_free (buf : util_idalloc) (id : Z) : option util_idalloc :=
  let idx := id / 32 in
  if idx >=? num_elements buf then Some buf
  else
    let buf := set_lowest buf (MIN2 idx (lowest_free_idx buf)) in
    w ← data_get buf idx;
    buf ← data_set buf idx (Z.land w (not32 (u32 (Z.shiftl 1 (id mod 32)))));
    if num_set_elements buf =? idx + 1 then shrink_loop (S (Z.to_nat (num_set_elements buf))) buf
    else Some buf.

Definition util_idalloc_reserve (buf : util_idalloc) (id : Z) : option util_idalloc :=
  let idx := id / 32 in
  let buf := if idx >=? num_elements buf then util_idalloc_resize buf (u32 ((idx + 1) * 2)) else buf in
  w ← data_get buf idx;
  buf ← data_set buf idx (Z.lor w (u32 (Z.shiftl 1 (id mod 32))));
  Some (set_num_set buf (MAX2 (num_set_elements buf) (idx + 1))).

(** [u_bit_scan]: the least significant set bit and the mask without it. *)
Definition u_bit_scan (mask : Z) : Z * Z :=
  let i := ffs mask - 1 in (i, Z.lxor mask (u32 (Z.shiftl 1 i))).

(** [util_idalloc_foreach]: the numbers its body is run on, in order. *)
Fixpoint foreach_word (fuel : nat) (i mask : Z) : list Z :=
  match fuel with
  | O => []
  | S fuel =>
      if mask =? 0 then []
      else let '(bit, mask) := u_bit_scan mask in u32 (i * 32 + bit) :: foreach_word fuel i mask
  end.

Fixpoint foreach_loop (fuel : nat) (buf : util_idalloc) (i count : Z) : option (list Z) :=
  match fuel with
  | O => None
  | S fuel =>
      if i <? count then
        mask ← data_get buf i;
        rest ← foreach_loop fuel buf (i + 1) count;
        Some (foreach_word 33 i mask ++ rest)
      else Some []
  end.

Definition util_idalloc_foreach (buf : util_idalloc) : option (list Z) :=
  foreach_loop (S (Z.to_nat (num_set_elements buf))) buf 0 (num_set_elements buf).

(** *** The thread-safe variant: every operation is one critical section *)

Record util_idalloc_mt := IdallocMt {
  mt_buf : util_idalloc;
  skip_zero : bool;
}.

Definition util_idalloc_mt_init (initial_num_ids : Z) (skip_zero : bool) : option util_idalloc_mt :=
  buf ← util_idalloc_init initial_num_ids;
  if skip_zero then
    '(zero, buf) ← util_idalloc_alloc buf;
    assert! zero =? 0 ;;
    Some (IdallocMt buf skip_zero)
  else Some (IdallocMt buf skip_zero).

Definition util_idalloc_mt_init_tc : option util_idalloc_mt :=
  util_idalloc_mt_init (Z.shiftl 1 16) true.

Definition util_idalloc_mt_alloc (buf : util_idalloc_mt) : option (Z * util_idalloc_mt) :=
  '(id, b) ← util_idalloc_alloc (mt_buf buf);
  Some (id, IdallocMt b (skip_zero buf)).

Definition util_idalloc_mt_free (buf : util_idalloc_mt) (id : Z) : option util_idalloc_mt :=
  if (id =? 0) && skip_zero buf then Some buf
  else
    b ← util_idalloc_free (mt_buf buf) id;
    Some (IdallocMt b (skip_zero buf)).

(** *** The sparse variant: 1024 segments *)

Record util_idalloc_sparse := IdallocSparse { segment : list util_idalloc }.

Definition ARRAY_SIZE_segment : Z := 1024.
Definition MAX_IDS_PER_SEGMENT : Z := u32 (BITFIELD64_BIT 32 / ARRAY_SIZE_segment).
Definition MAX_ELEMS_PER_SEGMENT : Z := MAX_IDS_PER_SEGMENT / 32.

Definition util_idalloc_sparse_init : option util_idalloc_sparse :=
  seg ← util_idalloc_init 1;
  Some (IdallocSparse (replicate (Z.to_nat ARRAY_SIZE_segment) seg)).

(** The segment loops: [pre] are the segments already visited. *)
Fixpoint sparse_alloc_loop (pre segs : list util_idalloc) (i : Z) : option (Z * util_idalloc_sparse) :=
  match segs with
  | [] => None (* assert(0) *)
  | seg :: segs =>
      if lowest_free_idx seg <? MAX_ELEMS_PER_SEGMENT then
        '(id, seg) ← util_idalloc_alloc seg;
        Some (u32 (MAX_IDS_PER_SEGMENT * i + id), IdallocSparse (pre ++ seg :: segs))
      else sparse_alloc_loop (pre ++ [seg]) segs (i + 1)
  end.

Definition util_idalloc_sparse_alloc (buf : util_idalloc_sparse) : option (Z * util_idalloc_sparse) :=
  sparse_alloc_loop [] (segment buf) 0.

Fixpoint sparse_back_off (n : nat) (seg : util_idalloc) (id : Z) : option util_idalloc :=
  match n with
  | O => Some seg
  | S n => seg ← util_idalloc_free seg (u32 id); sparse_back_off n seg (id + 1)
  end.

Fixpoint sparse_alloc_range_loop (pre segs : list util_idalloc) (i num : Z)
    : option (Z * util_idalloc_sparse) :=
  match segs with
  | [] => None (* assert(0) *)
  | seg :: segs =>
      if u32 (lowest_free_idx seg + DIV_ROUND_UP num 32) <=? MAX_ELEMS_PER_SEGMENT then
        '(base, seg) ← util_idalloc_alloc_range seg num;
        if u32 (base + num) <=? MAX_IDS_PER_SEGMENT then
          Some (u32 (MAX_IDS_PER_SEGMENT * i + base), IdallocSparse (pre ++ seg :: segs))
        else
          seg ← sparse_back_off (Z.to_nat num) seg base;
          sparse_alloc_range_loop (pre ++ [seg]) segs (i + 1) num
      else sparse_alloc_range_loop (pre ++ [seg]) segs (i + 1) num
  end.

Definition util_idalloc_sparse_alloc_range (buf : util_idalloc_sparse) (num : Z)
    : option (Z * util_idalloc_sparse) :=
  sparse_alloc_range_loop [] (segment buf) 0 num.

Definition sparse_update (buf : util_idalloc_sparse) (id : Z)
    (f : util_idalloc -> Z -> option util_idalloc) : option util_idalloc_sparse :=
  let i := Z.to_nat (id / MAX_IDS_PER_SEGMENT) in
  seg ← segment buf !! i;
  seg ← f seg (id mod MAX_IDS_PER_SEGMENT);
  Some (IdallocSparse (<[i := seg]> (segment buf))).

Definition util_idalloc_sparse_free (buf : util_idalloc_sparse) (id : Z) : option util_idalloc_sparse :=
  sparse_update buf id util_idalloc_free.
Definition util_idalloc_sparse_reserve (buf : util_idalloc_sparse) (id : Z) : option util_idalloc_sparse :=
  sparse_update buf id util_idalloc_reserve.

(** * The abstract view and the invariant *)

Definition word (buf : util_idalloc) (i : Z) : Z := default 0 (data buf !! Z.to_nat i).

(** The abstract state: the set of numbers in use. *)
Definition allocated (buf : util_idalloc) (id : Z) : bool :=
  Z.testbit (word buf (id / 32)) (id mod 32).

Definition FULL : Z := 0xffffffff.

Record idalloc_ok (buf : util_idalloc) : Prop := {
  ok_length : num_elements buf = Z.of_nat (length (data buf));
  ok_words : forall i, 0 <= i -> fits 32 (word buf i);
  ok_lowest : 0 <= lowest_free_idx buf <= num_elements buf;
  ok_full : forall i, 0 <= i < lowest_free_idx buf -> word buf i = FULL;
  ok_set : 0 <= num_set_elements buf <= num_elements buf;
  ok_clear : forall i, num_set_elements buf <= i -> word buf i = 0;
  ok_last : 0 < num_set_elements buf -> word buf (num_set_elements buf - 1) <> 0;
}.

(** ** Words *)

Lemma data_get_word buf i :
  num_elements buf = Z.of_nat (length (data buf)) -> 0 <= i < num_elements buf ->
  data_get buf i = Some (word buf i).
Proof.
  intros Hl Hi. unfold data_get, word.
  destruct (lookup_lt_is_Some_2 (data buf) (Z.to_nat i)) as [w Hw]; [lia|]. by rewrite Hw.
Qed.

Lemma word_outside buf i :
  num_elements buf = Z.of_nat (length (data buf)) -> num_elements buf <= i -> word buf i = 0.
Proof. intros Hl Hi. unfold word. rewrite lookup_ge_None_2; [done|lia]. Qed.

Lemma data_set_word buf i v :
  num_elements buf = Z.of_nat (length (data buf)) -> 0 <= i < num_elements buf ->
  exists d, data_set buf i v = Some (set_data buf d) /\ length d = length (data buf)
    /\ forall j, 0 <= j -> word (set_data buf d) j = if j =? i then v else word buf j.
Proof.
  intros Hl Hi. unfold data_set. rewrite bool_decide_true by lia. eexists. split; [done|].
  split; [apply length_insert|]. intros j Hj. unfold word. cbn.
  destruct (Z.eqb_spec j i) as [->|].
  - rewrite list_lookup_insert by lia. by destruct decide; [|lia].
  - rewrite list_lookup_insert_ne by lia. done.
Qed.

Lemma resize_word buf n :
  num_elements buf = Z.of_nat (length (data buf)) ->
  let buf' := util_idalloc_resize buf n in
  num_elements buf' = Z.of_nat (length (data buf'))
  /\ num_elements buf' = Z.max n (num_elements buf)
  /\ (forall i, word buf' i = word buf i)
  /\ num_set_elements buf' = num_set_elements buf /\ lowest_free_idx buf' = lowest_free_idx buf.
Proof.
  intros Hl. cbv zeta. unfold util_idalloc_resize. case_if_eqn; zbool; [|split_and!; auto; lia].
  cbn. rewrite length_app, length_replicate. split_and!; try done; try lia.
  intros i. unfold word. cbn. rewrite lookup_app. destruct (data buf !! Z.to_nat i); [done|].
  cbn. destruct (replicate _ _ !! _) as [x|] eqn:Er; [|done].
  apply lookup_replicate in Er as [-> _]. done.
Qed.

Lemma ffs_loop_spec fuel i x :
  0 <= i -> (exists k, i <= k < i + Z.of_nat fuel /\ Z.testbit x k = true) ->
  exists k, ffs_loop fuel i x = k + 1 /\ i <= k < i + Z.of_nat fuel
    /\ Z.testbit x k = true /\ forall j, i <= j < k -> Z.testbit x j = false.
Proof.
  revert i. induction fuel as [|fuel IH]; intros i Hi (k & Hk & Hb); [lia|]. cbn [ffs_loop].
  destruct (Z.testbit x i) eqn:E.
  - exists i. split_and!; try lia; try done.
  - destruct (IH (i + 1)) as (k' & -> & H1 & H2 & H3); [lia| |].
    { exists k. split; [|done]. destruct (Z.eq_dec k i); [congruence|lia]. }
    exists k'. split_and!; try lia; try done. intros j Hj.
    destruct (Z.eq_dec j i) as [->|]; [done|apply H3; lia].
Qed.

(** A 32-bit value is determined by its 32 bits. *)
Lemma fits32_high x j : fits 32 x -> 32 <= j -> Z.testbit x j = false.
Proof.
  intros Hx Hj. rewrite <- (Z.mod_small x (2 ^ 32)) by done. apply Z.mod_pow2_bits_high. lia.
Qed.

Lemma word_bits_inj x y :
  fits 32 x -> fits 32 y -> (forall j, 0 <= j < 32 -> Z.testbit x j = Z.testbit y j) -> x = y.
Proof.
  intros Hx Hy H. apply Z.bits_inj'. intros j Hj. destruct (Z_lt_le_dec j 32); [apply H; lia|].
  by rewrite !fits32_high by done.
Qed.

Lemma FULL_testbit j : 0 <= j < 32 -> Z.testbit FULL j = true.
Proof. intros. change FULL with (Z.ones 32). apply Z.ones_spec_low. lia. Qed.

Lemma not_full_bit x : fits 32 x -> x <> FULL -> exists k, 0 <= k < 32 /\ Z.testbit x k = false.
Proof.
  intros Hx Hne. destruct (decide (Forall (fun k => Z.testbit x k = true) (seqZ 0 32))) as [H|H].
  - exfalso. apply Hne, word_bits_inj; [done|unfold FULL, fits; lia|].
    intros j Hj. rewrite FULL_testbit by done. rewrite Forall_forall in H. apply H, elem_of_seqZ. lia.
  - apply not_Forall_Exists in H; [|intros ?; apply _]. apply Exists_exists in H as (k & Hk & Hb).
    exists k. apply elem_of_seqZ in Hk. split; [lia|]. by apply not_true_is_false.
Qed.

Lemma nonzero_bit x : fits 32 x -> x <> 0 -> exists k, 0 <= k < 32 /\ Z.testbit x k = true.
Proof.
  intros Hx Hne. exists (Z.log2 x). unfold fits in Hx.
  assert (Hp : 0 < x) by lia. split; [|by apply Z.bit_log2].
  split; [apply Z.log2_nonneg|]. apply Z.log2_lt_pow2; lia.
Qed.

Lemma bit_testbit b j : 0 <= b < 32 -> Z.testbit (u32 (Z.shiftl 1 b)) j = (j =? b).
Proof.
  intros Hb. rewrite shiftl_1 by lia. pose proof (pow2_lt b 32 ltac:(lia)).
  pose proof (pow2_pos b ltac:(lia)).
  rewrite u32_small by lia. destruct (Z.eqb_spec j b) as [->|Hne].
  - apply Z.pow2_bits_true. lia.
  - apply Z.pow2_bits_false. lia.
Qed.

Lemma fits32_of_bits x : 0 <= x -> (forall j, 32 <= j -> Z.testbit x j = false) -> fits 32 x.
Proof.
  intros Hx H. destruct (Z.eq_dec x 0) as [->|]; [unfold fits; lia|].
  split; [done|]. apply Z.log2_lt_pow2; [lia|]. apply Z.nle_gt. intros Hl.
  assert (Hb : Z.testbit x (Z.log2 x) = true) by (apply Z.bit_log2; lia).
  rewrite H in Hb by lia. done.
Qed.

Lemma lor_fits x y : fits 32 x -> fits 32 y -> fits 32 (Z.lor x y).
Proof.
  intros Hx Hy. apply fits32_of_bits.
  - apply Z.lor_nonneg. unfold fits in *. lia.
  - intros j Hj. rewrite Z.lor_spec. by rewrite !fits32_high.
Qed.

Lemma land_fits x y : fits 32 x -> fits 32 y -> fits 32 (Z.land x y).
Proof.
  intros Hx Hy. apply fits32_of_bits.
  - apply Z.land_nonneg. unfold fits in *. lia.
  - intros j Hj. rewrite Z.land_spec. by rewrite !fits32_high.
Qed.

Lemma u32_is_fits z : fits 32 (u32 z).
Proof. apply u32_fits. Qed.

Lemma not32_fits x : fits 32 x -> fits 32 (not32 x).
Proof. intros Hx. rewrite not32_sub by done. unfold fits in *. lia. Qed.

#[export] Hint Resolve lor_fits land_fits u32_is_fits not32_fits : words.

Lemma lor_nonzero x y : y <> 0 -> Z.lor x y <> 0.
Proof. intros Hy H. apply Z.lor_eq_0_iff in H. tauto. Qed.

Lemma bit_nonzero b : 0 <= b < 32 -> u32 (Z.shiftl 1 b) <> 0.
Proof.
  intros Hb H. pose proof (bit_testbit b b Hb) as E. rewrite H, Z.bits_0, Z.eqb_refl in E. done.
Qed.

(** Numbers are (word, bit) pairs. *)
Lemma id_split k b : 0 <= b < 32 -> (k * 32 + b) / 32 = k /\ (k * 32 + b) mod 32 = b.
Proof. intros. split; dlia. Qed.

Lemma id_eq_split j k b : 0 <= b < 32 -> (j =? k * 32 + b) = (j / 32 =? k) && (j mod 32 =? b).
Proof.
  intros Hb. apply eq_true_iff_eq. rewrite andb_true_iff, !Z.eqb_eq. split.
  - intros ->. by apply id_split.
  - intros [<- <-]. dlia.
Qed.

(** *** Setting one bit: the effect of alloc and reserve *)
Section set_bit.
Context (buf buf' : util_idalloc) (k b : Z).
Hypothesis Hok : idalloc_ok buf.
Hypothesis Hk : 0 <= k < num_elements buf'.
Hypothesis Hb : 0 <= b < 32.
Hypothesis Hlen : num_elements buf' = Z.of_nat (length (data buf')).
Hypothesis Hgrow : num_elements buf <= num_elements buf'.
Hypothesis Hword : forall j, 0 <= j ->
  word buf' j = if j =? k then Z.lor (word buf k) (u32 (Z.shiftl 1 b)) else word buf j.
Hypothesis Hset : num_set_elements buf' = Z.max (num_set_elements buf) (k + 1).
Hypothesis Hlow : 0 <= lowest_free_idx buf' <= num_elements buf'.
Hypothesis Hfull : forall i, 0 <= i < lowest_free_idx buf' -> word buf i = FULL.

Lemma set_bit_full x : fits 32 x -> x = FULL -> Z.lor x (u32 (Z.shiftl 1 b)) = FULL.
Proof using Hb.
  intros Hx ->. apply word_bits_inj; auto with words.
  intros j Hj. by rewrite Z.lor_spec, !FULL_testbit.
Qed.

Lemma set_bit_ok : idalloc_ok buf'.
Proof using Hok Hk Hb Hlen Hgrow Hword Hset Hlow Hfull.
  destruct Hok as [Hl Hw Hlo Hf Hs Hc Hla]. constructor; try done; rewrite ?Hset.
  - intros i Hi. rewrite Hword by done. case_if_eqn; auto with words lia.
  - intros i Hi. rewrite Hword by lia. case_if_eqn; zbool; subst; auto with lia.
    apply set_bit_full; auto with lia.
  - lia.
  - intros i Hi. rewrite Hword by lia. case_if_eqn; zbool; [lia|apply Hc; lia].
  - intros _. rewrite Hword by lia. case_if_eqn; [apply lor_nonzero, bit_nonzero, Hb|].
    zbool. rewrite Z.max_l by lia. apply Hla. lia.
Qed.

Lemma set_bit_allocated j : 0 <= j ->
  allocated buf' j = (j =? k * 32 + b) || allocated buf j.
Proof using Hk Hb Hword.
  intros Hj. unfold allocated. rewrite Hword by dlia. rewrite id_eq_split by done.
  destruct (Z.eqb_spec (j / 32) k) as [->|]; [|done].
  rewrite Z.lor_spec, bit_testbit, orb_comm by done. done.
Qed.
End set_bit.

(** *** The search for a free number *)
Lemma alloc_loop_spec buf fuel i :
  idalloc_ok buf -> num_elements buf < 2 ^ 27 -> 0 <= i <= num_elements buf ->
  (forall j, 0 <= j < i -> word buf j = FULL) -> num_elements buf - i < Z.of_nat fuel ->
  exists r, alloc_loop fuel buf i = Some r /\
  match r with
  | None => forall j, 0 <= j < num_elements buf -> word buf j = FULL
  | Some (id, buf') => exists k b d,
      i <= k < num_elements buf /\ 0 <= b < 32 /\ id = k * 32 + b
      /\ (forall j, 0 <= j < k -> word buf j = FULL)
      /\ Z.testbit (word buf k) b = false
      /\ (forall j, 0 <= j < b -> Z.testbit (word buf k) j = true)
      /\ buf' = Idalloc d (num_elements buf) (Z.max (num_set_elements buf) (k + 1)) k
      /\ length d = length (data buf)
      /\ (forall j, 0 <= j -> word buf' j =
            if j =? k then Z.lor (word buf k) (u32 (Z.shiftl 1 b)) else word buf j)
  end.
Proof.
  intros Hok Hn. revert i. induction fuel as [|fuel IH]; intros i Hi Hfull Hfuel; [lia|].
  cbn [alloc_loop]. destruct (Z.ltb_spec i (num_elements buf)); cycle 1.
  { eexists. split; [done|]. intros j Hj. apply Hfull. lia. }
  rewrite data_get_word by (apply Hok || lia). cbn [mbind option_bind].
  fold FULL. destruct (Z.eqb_spec (word buf i) FULL) as [E|E].
  - destruct (IH (i + 1)) as (r & -> & Hr); [lia| |lia|].
    + intros j Hj. destruct (Z.eq_dec j i) as [->|]; [done|apply Hfull; lia].
    + exists r. split; [done|]. destruct r as [[id buf']|]; [|done].
      destruct Hr as (k & b & d & Hk & Hr). exists k, b, d. split; [lia|done].
  - assert (Hw : fits 32 (word buf i)) by (apply Hok; lia).
    destruct (not_full_bit _ Hw E) as (k & Hk & Hbit).
    destruct (ffs_loop_spec 32 0 (not32 (word buf i))) as (b & Hffs & Hb & Hb1 & Hb2); [lia| |].
    { exists k. split; [lia|]. rewrite not32_testbit by done. by rewrite Hbit. }
    unfold ffs. rewrite Hffs, Z.add_simpl_r.
    destruct (data_set_word buf i (Z.lor (word buf i) (u32 (Z.shiftl 1 b))))
      as (d & -> & Hd & Hword); [apply Hok|lia|]. cbn.
    rewrite not32_testbit in Hb1 by (done || lia). apply negb_true_iff in Hb1.
    eexists. split; [done|]. exists i, b, d. rewrite MAX2_max. cbn in *.
    split_and!; try done; try lia.
    + apply u32_small. lia.
    + intros j Hj. specialize (Hb2 j Hj). rewrite not32_testbit in Hb2 by (done || lia).
      by apply negb_false_iff in Hb2.
Qed.

(** The effect of an allocation, as the set of numbers in use sees it. *)
Record allocates (buf : util_idalloc) (id : Z) (buf' : util_idalloc) : Prop := {
  as_ok : idalloc_ok buf';
  as_nonneg : 0 <= id;
  as_fresh : allocated buf id = false;
  as_allocated : forall j, 0 <= j -> allocated buf' j = (j =? id) || allocated buf j;
}.

Lemma alloc_spec buf :
  idalloc_ok buf -> num_elements buf < 2 ^ 27 ->
  exists id buf', util_idalloc_alloc buf = Some (id, buf') /\ allocates buf id buf'
    /\ (forall j, 0 <= j < id -> allocated buf j = true)
    /\ lowest_free_idx buf' = id / 32
    /\ (num_elements buf' = num_elements buf
        \/ id = num_elements buf * 32 /\ num_elements buf' = 2 * Z.max (num_elements buf) 1).
Proof.
  intros Hok Hn. unfold util_idalloc_alloc. pose proof (ok_lowest _ Hok).
  destruct (alloc_loop_spec buf (S (Z.to_nat (num_elements buf))) (lowest_free_idx buf))
    as (r & -> & Hr); [done..|apply Hok|lia|]. cbn [mbind option_bind].
  assert (Hlt : forall k, (forall j, 0 <= j < k -> word buf j = FULL) ->
    forall j, 0 <= j < k * 32 -> allocated buf j = true).
  { intros k Hk j Hj. unfold allocated. rewrite Hk by dlia. apply FULL_testbit. dlia. }
  destruct r as [[id buf']|].
  - destruct Hr as (k & b & d & Hk & Hb & -> & Hfull & Hbit & Hbits & Hbuf & Hd & Hword).
    exists (k * 32 + b), buf'. destruct (id_split k b Hb) as [E1 E2].
    assert (Hfields : num_elements buf' = num_elements buf /\ lowest_free_idx buf' = k
      /\ num_set_elements buf' = Z.max (num_set_elements buf) (k + 1)
      /\ length (data buf') = length (data buf)) by (by rewrite Hbuf).
    destruct Hfields as (F1 & F2 & F3 & F4). pose proof (ok_length _ Hok).
    split_and!; [done| | |lia|by left].
    + constructor.
      * eapply (set_bit_ok buf buf' k b); try done; try lia. intros i Hi. apply Hfull. lia.
      * lia.
      * unfold allocated. by rewrite E1, E2.
      * intros j Hj. eapply set_bit_allocated; try done; lia.
    + intros j Hj. destruct (Z_lt_le_dec j (k * 32)); [apply (Hlt k); [done|lia]|].
      unfold allocated. replace (j / 32) with k by dlia. apply Hbits. dlia.
  - destruct (resize_word buf (u32 (MAX2 (num_elements buf) 1 * 2)))
      as (R1 & R2 & R3 & R4 & R5); [apply Hok|].
    set (buf1 := util_idalloc_resize _ _) in *. rewrite MAX2_max in R2. rewrite u32_small in R2 by lia.
    set (n := num_elements buf) in *.
    destruct (data_set_word (set_lowest buf1 n) n (Z.lor (word buf n) 1))
      as (d & Ed & Hd & Hword); [done|cbn; lia|].
    rewrite (data_get_word (set_lowest buf1 n)) by (done || cbn; lia). cbn [mbind option_bind].
    change (word (set_lowest buf1 n) n) with (word buf1 n). rewrite R3, Ed. cbn.
    rewrite MAX2_max, u32_small by lia. eexists _, _. split; [done|].
    assert (Hfields : forall j, 0 <= j ->
      word (set_data (set_lowest buf1 n) d) j = if j =? n then Z.lor (word buf n) (u32 (Z.shiftl 1 0)) else word buf j).
    { intros j Hj. rewrite Hword by done. case_if_eqn; [done|]. apply R3. }
    split_and!; [|by apply Hlt|cbn; symmetry; apply Z.div_mul; lia|right; cbn; lia].
    constructor.
    + eapply (set_bit_ok buf _ n 0); try done; cbn in *; try lia.
    + lia.
    + unfold allocated. rewrite Z.div_mul by lia. unfold n. rewrite word_outside by (apply Hok || lia).
      apply Z.bits_0.
    + intros j Hj. rewrite <- (Z.add_0_r (n * 32)). eapply set_bit_allocated; try done; cbn in *; lia.
Qed.

(** *** Initialisation, reservation, release *)

Lemma init_spec n :
  0 < n < 2 ^ 31 ->
  exists buf, util_idalloc_init n = Some buf /\ idalloc_ok buf
    /\ num_elements buf = (n + 31) / 32 /\ (forall j, allocated buf j = false)
    /\ lowest_free_idx buf = 0.
Proof.
  intros Hn. unfold util_idalloc_init. destruct (Z.eqb_spec n 0); [lia|]. cbn [negb].
  destruct (resize_word (Idalloc [] 0 0 0) (DIV_ROUND_UP n 32)) as (R1 & R2 & R3 & R4 & R5); [done|].
  eexists. split; [done|]. set (buf := util_idalloc_resize _ _) in *. cbn in *.
  unfold DIV_ROUND_UP in R2. rewrite !u32_small in R2 by (rewrite ?u32_small; lia).
  assert (Hw : forall i, word buf i = 0) by (intros; by rewrite R3).
  assert (Hne : num_elements buf = (n + 31) / 32) by dlia.
  split_and!; try done.
  - constructor; rewrite ?R4, ?R5; try lia; try dlia; intros; rewrite ?Hw; unfold fits; lia.
  - intros j. unfold allocated. rewrite Hw. apply Z.bits_0.
Qed.

Lemma reserve_spec buf id :
  idalloc_ok buf -> 0 <= id < 2 ^ 32 ->
  exists buf', util_idalloc_reserve buf id = Some buf' /\ idalloc_ok buf'
    /\ (forall j, 0 <= j -> allocated buf' j = (j =? id) || allocated buf j)
    /\ num_elements buf' <= Z.max (num_elements buf) (2 * (id / 32 + 1)).
Proof.
  intros Hok Hid. unfold util_idalloc_reserve.
  set (buf1 := if id / 32 >=? num_elements buf then _ else buf). pose proof (ok_length _ Hok) as Hl.
  assert (H1 : num_elements buf1 = Z.of_nat (length (data buf1))
    /\ num_elements buf <= num_elements buf1 /\ id / 32 < num_elements buf1
    /\ num_elements buf1 <= Z.max (num_elements buf) (2 * (id / 32 + 1))
    /\ (forall i, word buf1 i = word buf i) /\ num_set_elements buf1 = num_set_elements buf
    /\ lowest_free_idx buf1 = lowest_free_idx buf).
  { subst buf1. case_if_eqn; zbool; [|split_and!; auto; lia].
    destruct (resize_word buf (u32 ((id / 32 + 1) * 2)) Hl) as (R1 & R2 & R3 & R4 & R5).
    assert (0 <= id / 32 < 2 ^ 27) by dlia.
    set (b1 := util_idalloc_resize _ _) in *. rewrite u32_small in R2 by lia.
    split_and!; try done; lia. }
  destruct H1 as (L1 & L2 & L3 & L4 & L5 & L6 & L7).
  assert (0 <= id / 32) by dlia. assert (0 <= id mod 32 < 32) by dlia.
  rewrite data_get_word by (done || lia). cbn [mbind option_bind].
  destruct (data_set_word buf1 (id / 32) (Z.lor (word buf1 (id / 32)) (u32 (Z.shiftl 1 (id mod 32)))))
    as (d & -> & Hd & Hword); [done|lia|]. cbn. rewrite MAX2_max.
  eexists. split; [done|].
  assert (Hword' : forall j, 0 <= j -> word (set_data buf1 d) j =
    if j =? id / 32 then Z.lor (word buf (id / 32)) (u32 (Z.shiftl 1 (id mod 32))) else word buf j).
  { intros j Hj. rewrite Hword by done. rewrite !L5. done. }
  pose proof (ok_lowest _ Hok). split_and!.
  - eapply (set_bit_ok buf _ (id / 32) (id mod 32)); try done; cbn in *; try lia.
    intros i Hi. apply Hok. lia.
  - intros j Hj. replace (j =? id) with (j =? id / 32 * 32 + id mod 32) by (f_equal; dlia).
    eapply set_bit_allocated; try done; cbn in *; lia.
  - cbn. done.
Qed.

(** The loop that lowers [num_set_elements] to the last non-zero word. *)
Lemma shrink_loop_spec fuel buf :
  num_elements buf = Z.of_nat (length (data buf)) ->
  0 <= num_set_elements buf <= num_elements buf ->
  (forall i, num_set_elements buf <= i -> word buf i = 0) ->
  num_set_elements buf < Z.of_nat fuel ->
  exists n, shrink_loop fuel buf = Some (set_num_set buf n) /\ 0 <= n <= num_elements buf
    /\ (forall i, n <= i -> word buf i = 0) /\ (0 < n -> word buf (n - 1) <> 0).
Proof.
  revert buf. induction fuel as [|fuel IH]; intros buf Hl Hn Hc Hf; [lia|]. cbn [shrink_loop].
  destruct (Z.gtb_spec (num_set_elements buf) 0); cycle 1.
  { exists (num_set_elements buf). split; [by destruct buf|]. split_and!; [lia..|done|lia]. }
  rewrite data_get_word by (done || lia). cbn [mbind option_bind].
  destruct (Z.eqb_spec (word buf (num_set_elements buf - 1)) 0) as [E|E].
  - destruct (IH (set_num_set buf (num_set_elements buf - 1))) as (n & Hs & H1 & H2 & H3);
      [done|cbn; lia| |cbn; lia|].
    + cbn. intros i Hi. destruct (Z.eq_dec i (num_set_elements buf - 1)) as [->|]; [done|].
      change (word (set_num_set buf (num_set_elements buf - 1)) i) with (word buf i). apply Hc. lia.
    + exists n. split; [exact Hs|]. done.
  - exists (num_set_elements buf). split; [by destruct buf|]. split_and!; [lia..|done|done].
Qed.

Lemma clear_testbit w b j :
  fits 32 w -> 0 <= b < 32 -> 0 <= j < 32 ->
  Z.testbit (Z.land w (not32 (u32 (Z.shiftl 1 b)))) j = negb (j =? b) && Z.testbit w j.
Proof.
  intros Hw Hb Hj. rewrite Z.land_spec, not32_testbit, bit_testbit by auto with words.
  apply andb_comm.
Qed.

(** Numbers beyond the bitmap are not in use. *)
Lemma allocated_outside buf id :
  idalloc_ok buf -> num_elements buf <= id / 32 -> allocated buf id = false.
Proof.
  intros Hok Hid. unfold allocated. rewrite word_outside by (apply Hok || done). apply Z.bits_0.
Qed.

Lemma free_spec buf id :
  idalloc_ok buf -> 0 <= id < 2 ^ 32 ->
  exists buf', util_idalloc_free buf id = Some buf' /\ idalloc_ok buf'
    /\ (forall j, 0 <= j -> allocated buf' j = negb (j =? id) && allocated buf j)
    /\ num_elements buf' = num_elements buf.
Proof.
  intros Hok Hid. unfold util_idalloc_free.
  assert (Hk : 0 <= id / 32) by dlia. assert (Hb : 0 <= id mod 32 < 32) by dlia.
  assert (Hid' : id = id / 32 * 32 + id mod 32) by dlia.
  destruct (Z.geb_spec (id / 32) (num_elements buf)).
  { exists buf. split_and!; try done. intros j Hj. destruct (Z.eqb_spec j id) as [->|]; [|done].
    by apply allocated_outside. }
  set (buf1 := set_lowest buf _). destruct Hok as [Hl Hw Hlo Hf Hs Hc Hla].
  rewrite data_get_word by (done || cbn; lia). cbn [mbind option_bind].
  change (word buf1 (id / 32)) with (word buf (id / 32)).
  set (w := Z.land (word buf (id / 32)) _).
  destruct (data_set_word buf1 (id / 32) w) as (d & -> & Hd & Hword); [done|cbn; lia|].
  cbn [mbind option_bind]. set (buf2 := set_data buf1 d) in *. cbn in Hword.
  assert (Hword2 : forall j, 0 <= j -> word buf2 j = if j =? id / 32 then w else word buf j)
    by (intros j Hj; by rewrite Hword). clear Hword.
  assert (Hwf : fits 32 w) by (subst w; auto with words).
  assert (Hlen2 : num_elements buf2 = Z.of_nat (length (data buf2))) by (cbn; rewrite Hd; done).
  assert (Hlow : forall i, 0 <= i < lowest_free_idx buf2 -> word buf2 i = FULL).
  { cbn. rewrite MIN2_min. intros i Hi. rewrite Hword2 by lia. case_if_eqn; zbool; [lia|apply Hf; lia]. }
  assert (Hlo2 : 0 <= lowest_free_idx buf2 <= num_elements buf2) by (cbn; rewrite MIN2_min; lia).
  assert (Hal : forall j, 0 <= j ->
    Z.testbit (word buf2 (j / 32)) (j mod 32) = negb (j =? id) && allocated buf j).
  { intros j Hj. rewrite Hword2 by dlia. replace (j =? id) with (j =? id / 32 * 32 + id mod 32) by (f_equal; lia).
    rewrite id_eq_split by done. unfold allocated.
    destruct (Z.eqb_spec (j / 32) (id / 32)) as [->|]; [|done]. cbn [andb].
    apply clear_testbit; [by apply Hw|done|dlia]. }
  assert (Hwords2 : forall i, 0 <= i -> fits 32 (word buf2 i)).
  { intros i Hi. rewrite Hword2 by done. case_if_eqn; auto. }
  change (num_set_elements buf2) with (num_set_elements buf).
  destruct (Z.eqb_spec (num_set_elements buf) (id / 32 + 1)) as [E|E].
  - destruct (shrink_loop_spec (S (Z.to_nat (num_set_elements buf))) buf2)
      as (n & Hsh & Hn & Hcl & Hnz); [done|done| |cbn; lia|].
    { cbn. intros i Hi. rewrite Hword2 by lia. case_if_eqn; zbool; [lia|apply Hc; lia]. }
    rewrite Hsh. eexists. split; [done|]. split; [by constructor|]. done.
  - eexists. split; [done|]. split; [|done]. constructor; try done.
    + cbn. intros i Hi. rewrite Hword2 by lia. case_if_eqn; zbool; [|apply Hc; lia].
      unfold w. rewrite Hc by lia. apply Z.land_0_l.
    + cbn. intros Hp. rewrite Hword2 by lia. case_if_eqn; zbool; [lia|]. by apply Hla.
Qed.

(** *** Allocation of consecutive numbers *)

Lemma DIV_ROUND_UP_32 n : 0 <= n < 2 ^ 32 - 32 ->
  DIV_ROUND_UP n 32 = n / 32 + (if negb (n mod 32 =? 0) then 1 else 0).
Proof.
  intros Hn. unfold DIV_ROUND_UP. destruct (Z.eq_dec n 0) as [->|]; [done|].
  rewrite !u32_small by (rewrite ?u32_small; lia).
  destruct (Z.eqb_spec (n mod 32) 0); cbn [negb]; dlia.
Qed.

Lemma find_free_block_spec fuel buf i :
  idalloc_ok buf -> 0 <= i <= num_elements buf -> num_elements buf - i < Z.of_nat fuel ->
  exists base, find_free_block_loop fuel buf i = Some base /\ i <= base <= num_elements buf
    /\ ((forall j, 0 <= j -> word buf j = 0) -> base = i).
Proof.
  intros Hok. revert i. induction fuel as [|fuel IH]; intros i Hi Hf; [lia|]. cbn [find_free_block_loop].
  destruct (Z.ltb_spec i (num_elements buf)); [|eexists; split; [done|lia]].
  rewrite data_get_word by (apply Hok || lia). cbn [mbind option_bind].
  destruct (Z.eqb_spec (word buf i) 0) as [E|E]; [eexists; split; [done|lia]|].
  destruct (IH (i + 1)) as (base & -> & Hb & _); [lia|lia|]. eexists. split; [done|].
  split; [lia|]. intros Hz. destruct E. apply Hz. lia.
Qed.

Lemma range_scan_spec fuel buf n base i :
  idalloc_ok buf -> 0 <= base <= i -> i <= num_elements buf -> i - base <= n ->
  (forall j, base <= j < i -> word buf j = 0) -> num_elements buf - i < Z.of_nat fuel ->
  exists k, range_scan fuel buf (num_elements buf) n base i = Some k
    /\ i <= k <= num_elements buf /\ k - base <= n
    /\ (forall j, base <= j < k -> word buf j = 0)
    /\ (k = num_elements buf \/ k - base = n \/ word buf k <> 0).
Proof.
  intros Hok. revert i. induction fuel as [|fuel IH]; intros i Hb Hi Hn Hz Hf; [lia|]. cbn [range_scan].
  destruct (Z.ltb_spec i (num_elements buf)), (Z.ltb_spec (i - base) n); cbn [andb];
    try (exists i; split_and!; try done; lia).
  rewrite data_get_word by (apply Hok || lia). cbn [mbind option_bind].
  destruct (Z.eqb_spec (word buf i) 0) as [E|E]; [|exists i; split_and!; auto; lia].
  destruct (IH (i + 1)) as (k & -> & Hk & H1); [lia|lia|lia| |lia|].
  { intros j Hj. destruct (Z.eq_dec j i) as [->|]; [done|apply Hz; lia]. }
  exists k. split; [done|]. split; [lia|done].
Qed.

Lemma range_search_spec fuel buf n base :
  idalloc_ok buf -> 0 <= base <= num_elements buf -> 0 < n ->
  num_elements buf - base < Z.of_nat fuel ->
  exists b found, range_search fuel buf (num_elements buf) n base = Some (b, found)
    /\ base <= b <= num_elements buf
    /\ (forall j, b <= j < b + n -> word buf j = 0)
    /\ (found = true -> b + n <= num_elements buf)
    /\ ((forall j, 0 <= j -> word buf j = 0) -> b = base).
Proof.
  intros Hok. revert base. induction fuel as [|fuel IH]; intros base Hb Hn Hf; [lia|]. cbn [range_search].
  destruct (range_scan_spec (S (Z.to_nat (num_elements buf))) buf n base base)
    as (k & -> & Hk & Hkn & Hz & Hend); [done|lia..|intros; lia|lia|]. cbn [mbind option_bind].
  destruct (Z.eqb_spec (k - base) n) as [E|E].
  { exists base, true. split_and!; try done; try lia. intros j Hj. apply Hz. lia. }
  destruct (Z.eqb_spec k (num_elements buf)) as [E'|E'].
  { exists base, false. split_and!; try done; try lia. intros j Hj.
    destruct (Z_lt_le_dec j k); [apply Hz; lia|]. apply word_outside; [apply Hok|lia]. }
  rewrite data_get_word by (apply Hok || lia). cbn [mbind option_bind].
  destruct Hend as [|[|Hw]]; [done|done|]. destruct (Z.eqb_spec (word buf k) 0); [done|].
  destruct (IH (k + 1)) as (b & found & -> & Hb' & Hrest); [lia|lia|lia|].
  exists b, found. split; [done|]. split; [lia|]. split_and!; try apply Hrest.
  intros Hall. destruct Hw. apply Hall. lia.
Qed.

Lemma range_mark_spec fuel buf i last :
  num_elements buf = Z.of_nat (length (data buf)) -> 0 <= i -> last <= num_elements buf ->
  Z.max 0 (last - i) < Z.of_nat fuel ->
  exists d, range_mark fuel buf i last = Some (set_data buf d) /\ length d = length (data buf)
    /\ forall j, 0 <= j -> word (set_data buf d) j =
         if (i <=? j) && (j <? last) then FULL else word buf j.
Proof.
  revert buf i. induction fuel as [|fuel IH]; intros buf i Hl Hi Hlast Hf.
  - lia.
  - cbn [range_mark]. destruct (Z.ltb_spec i last); cycle 1.
    { exists (data buf). split; [by destruct buf|]. split; [done|]. intros j Hj.
      destruct (Z.leb_spec i j), (Z.ltb_spec j last); cbn; try lia; by destruct buf. }
    destruct (data_set_word buf i 0xffffffff) as (d & -> & Hd & Hw); [done|lia|].
    cbn [mbind option_bind].
    destruct (IH (set_data buf d) (i + 1)) as (d' & -> & Hd' & Hw'); [cbn; lia|lia|cbn; lia|lia|].
    exists d'. split; [done|]. split; [cbn in *; lia|]. intros j Hj.
    change (word (set_data buf d') j) with (word (set_data (set_data buf d) d') j).
    rewrite Hw' by done. rewrite Hw by done. fold FULL.
    destruct (Z.leb_spec (i + 1) j), (Z.leb_spec i j), (Z.ltb_spec j last), (Z.eqb_spec j i);
      cbn; try lia; done.
Qed.

Lemma exists_spec buf id :
  idalloc_ok buf -> 0 <= id -> util_idalloc_exists buf id = Some (allocated buf id).
Proof.
  intros Hok Hid. unfold util_idalloc_exists, allocated.
  assert (Hk : 0 <= id / 32) by dlia. assert (Hb : 0 <= id mod 32 < 32) by dlia.
  pose proof (ok_set _ Hok). destruct (Z.ltb_spec (id / 32) (num_set_elements buf)).
  - rewrite data_get_word by (apply Hok || lia). cbn. f_equal.
    set (w := word buf (id / 32)). unfold BITFIELD_BIT. destruct (Z.testbit w (id mod 32)) eqn:E.
    + apply negb_true_iff, Z.eqb_neq. intros E0.
      assert (E1 : Z.testbit (Z.land w (u32 (Z.shiftl 1 (id mod 32)))) (id mod 32) = true)
        by (rewrite Z.land_spec, bit_testbit, E, Z.eqb_refl by done; done).
      rewrite E0, Z.bits_0 in E1. done.
    + apply negb_false_iff, Z.eqb_eq, Z.bits_inj'. intros j Hj.
      rewrite Z.land_spec, bit_testbit, Z.bits_0 by done.
      destruct (Z.eqb_spec j (id mod 32)) as [->|]; [by rewrite E|apply andb_false_r].
  - rewrite (ok_clear _ Hok) by done. by rewrite Z.bits_0.
Qed.

Lemma range_validate_spec n buf id :
  idalloc_ok buf -> 0 <= id -> id + Z.of_nat n <= 2 ^ 32 ->
  (forall j, id <= j < id + Z.of_nat n -> allocated buf j = true) ->
  range_validate n buf id = Some tt.
Proof.
  intros Hok. revert id. induction n as [|n IH]; intros id Hid Hn Hall; [done|]. cbn [range_validate].
  rewrite u32_small, exists_spec, Hall by (done || lia). cbn [mbind option_bind].
  apply IH; [lia|lia|]. intros j Hj. apply Hall. lia.
Qed.

(** The words after the range is marked; [q] full words, then [r] more bits. *)
Definition range_word (base q r : Z) (buf : util_idalloc) (j : Z) : Z :=
  if (base <=? j) && (j <? base + q) then FULL
  else if (j =? base + q) && negb (r =? 0) then Z.lor (word buf j) (2 ^ r - 1)
  else word buf j.

Lemma BITFIELD_MASK_ones b : 0 <= b < 32 -> BITFIELD_MASK b = 2 ^ b - 1.
Proof.
  intros Hb. unfold BITFIELD_MASK, BITFIELD_BIT. destruct (Z.eqb_spec b 32); [lia|].
  change 31 with (Z.ones 5). rewrite Z.land_ones, Z.mod_small by lia.
  pose proof (pow2_lt b 32 ltac:(lia)). pose proof (pow2_pos b ltac:(lia)).
  rewrite shiftl_1, !u32_small by (rewrite ?u32_small by lia; lia). done.
Qed.

Lemma mask_fits r : 0 <= r < 32 -> fits 32 (2 ^ r - 1).
Proof. intros. pose proof (pow2_lt r 32 ltac:(lia)). pose proof (pow2_pos r ltac:(lia)). unfold fits. lia. Qed.

Lemma mask_testbit r j : 0 <= r -> 0 <= j -> Z.testbit (2 ^ r - 1) j = (j <? r).
Proof.
  intros. replace (2 ^ r - 1) with (Z.ones r) by (rewrite Z.ones_equiv; lia).
  by apply Z.testbit_ones_nonneg.
Qed.

Section range_set.
Context (buf buf' : util_idalloc) (base q r n : Z).
Hypothesis Hok : idalloc_ok buf.
Hypothesis Hbase : 0 <= base.
Hypothesis Hq : 0 <= q.
Hypothesis Hr : 0 <= r < 32.
Hypothesis Hpos : 0 < q * 32 + r.
Hypothesis Hn : n = q + (if negb (r =? 0) then 1 else 0).
Hypothesis Hzero : forall j, base <= j < base + n -> word buf j = 0.
Hypothesis Hlen : num_elements buf' = Z.of_nat (length (data buf')).
Hypothesis Hgrow : num_elements buf <= num_elements buf'.
Hypothesis Hin : base + n <= num_elements buf'.
Hypothesis Hword : forall j, 0 <= j -> word buf' j = range_word base q r buf j.
Hypothesis Hset : num_set_elements buf' = Z.max (num_set_elements buf) (base + n).
Hypothesis Hlow : lowest_free_idx buf' =
  if lowest_free_idx buf =? base then base + q else lowest_free_idx buf.

Lemma range_set_ok : idalloc_ok buf'.
Proof using All.
  destruct Hok as [Hl Hw Hlo Hf Hs Hc Hla].
  assert (Hnq : q <= n /\ 0 < n) by (rewrite Hn; destruct (Z.eqb_spec r 0); cbn; lia).
  constructor; try done; rewrite ?Hset.
  - intros i Hi. rewrite Hword by done. unfold range_word. specialize (Hw i Hi).
    pose proof (mask_fits r Hr). repeat case_if_eqn; auto with words. unfold fits, FULL; lia.
  - rewrite Hlow. case_if_eqn; zbool; lia.
  - rewrite Hlow. intros i. unfold range_word.
    destruct (Z.eqb_spec (lowest_free_idx buf) base) as [E|E]; intros Hi;
      rewrite Hword by lia; unfold range_word.
    + destruct (Z.leb_spec base i), (Z.ltb_spec i (base + q)); cbn; try done; try lia.
      destruct (Z.eqb_spec i (base + q)); [lia|]. apply Hf. lia.
    + repeat case_if_eqn; try done; [|by apply Hf].
      zbool. rewrite (Hf i Hi) in *. exfalso. subst i. specialize (Hzero (base + q)).
      rewrite (Hf _ Hi) in Hzero. destruct (Z.eqb_spec r 0); [done|]. cbn in Hn. unfold FULL in Hzero. lia.
  - lia.
  - intros i Hi. rewrite Hword by lia. unfold range_word.
    destruct (Z.leb_spec base i), (Z.ltb_spec i (base + q)), (Z.eqb_spec i (base + q));
      cbn; try lia; try (apply Hc; lia).
    generalize Hn. destruct (negb (r =? 0)); intros; [lia|apply Hc; lia].
  - intros _. rewrite Hword by lia. unfold range_word.
    destruct (Z_le_gt_dec (num_set_elements buf) (base + n)).
    + rewrite Z.max_r by lia. destruct (Z.eqb_spec r 0) as [E|E]; cbn in *.
      * destruct (Z.leb_spec base (base + n - 1)), (Z.ltb_spec (base + n - 1) (base + q)); done || lia.
      * destruct (Z.ltb_spec (base + n - 1) (base + q)), (Z.eqb_spec (base + n - 1) (base + q)); try lia.
        rewrite andb_false_r. cbn. apply lor_nonzero. pose proof (pow2_lt 0 r). lia.
    + rewrite Z.max_l by lia. specialize (Hla ltac:(lia)).
      repeat case_if_eqn; try done. zbool. intros [? ?]%Z.lor_eq_0_iff. done.
Qed.

Lemma range_set_allocated j : 0 <= j ->
  allocated buf' j = ((base * 32 <=? j) && (j <? base * 32 + (q * 32 + r))) || allocated buf j.
Proof using Hn Hpos Hq Hr Hword.
  intros Hj. unfold allocated. assert (Hd : 0 <= j / 32) by dlia. rewrite Hword by done.
  unfold range_word. assert (Hm : 0 <= j mod 32 < 32) by dlia.
  pose proof (Z.div_mod j 32 ltac:(lia)) as Hdm. set (jq := j / 32) in *. set (jr := j mod 32) in *.
  destruct (Z.leb_spec base jq), (Z.ltb_spec jq (base + q)); cbn [andb].
  1: rewrite FULL_testbit by done;
     destruct (Z.leb_spec (base * 32) j), (Z.ltb_spec j (base * 32 + (q * 32 + r))); done || lia.
  all: destruct (Z.eqb_spec jq (base + q)); cbn [andb];
    [destruct (Z.eqb_spec r 0); cbn [negb]|];
    rewrite ?Z.lor_spec, ?mask_testbit by lia;
    destruct (Z.leb_spec (base * 32) j), (Z.ltb_spec j (base * 32 + (q * 32 + r))); cbn [andb orb];
    try lia; try done; destruct (Z.ltb_spec jr r); try lia; by rewrite ?orb_true_r, ?orb_false_r.
Qed.

Lemma range_set_fresh j : base * 32 <= j < base * 32 + (q * 32 + r) -> allocated buf j = false.
Proof using Hzero Hn Hr.
  clear -Hzero Hn Hr. intros Hj. unfold allocated. rewrite Hzero; [apply Z.bits_0|].
  destruct (Z.eqb_spec r 0); cbn in Hn; dlia.
Qed.
End range_set.

(** The words written by the two marking statements. *)
Lemma range_mark_tail buf base num n :
  num_elements buf = Z.of_nat (length (data buf)) -> 0 <= base -> 0 <= num < 2 ^ 32 - 32 ->
  n = DIV_ROUND_UP num 32 -> base + n <= num_elements buf ->
  exists d,
    (buf ← range_mark (S (Z.to_nat n)) buf base (base + n - (if negb (num mod 32 =? 0) then 1 else 0));
     if negb (num mod 32 =? 0) then
       w ← data_get buf (base + n - 1);
       data_set buf (base + n - 1) (Z.lor w (BITFIELD_MASK (num mod 32)))
     else Some buf) = Some (set_data buf d)
    /\ length d = length (data buf)
    /\ forall j, 0 <= j -> word (set_data buf d) j = range_word base (num / 32) (num mod 32) buf j.
Proof.
  intros Hl Hb Hnum Hn Hin. rewrite DIV_ROUND_UP_32 in Hn by done.
  assert (Hq : 0 <= num / 32) by dlia. assert (Hr : 0 <= num mod 32 < 32) by dlia.
  set (q := num / 32) in *. set (r := num mod 32) in *. unfold range_word.
  destruct (range_mark_spec (S (Z.to_nat n)) buf base (base + q)) as (d & Hm & Hd & Hw);
    [done|done|destruct (negb _); lia|destruct (negb _); lia|].
  replace (base + n - (if negb (r =? 0) then 1 else 0)) with (base + q) by lia.
  rewrite Hm. cbn [mbind option_bind]. destruct (Z.eqb_spec r 0) as [E|E]; cbn [negb] in *.
  - exists d. split; [done|]. split; [done|]. intros j Hj. rewrite Hw by done.
    by rewrite andb_false_r.
  - replace (base + n - 1) with (base + q) by lia.
    rewrite data_get_word by (cbn in *; lia). cbn [mbind option_bind].
    rewrite Hw by lia. rewrite Z.ltb_irrefl, andb_false_r, BITFIELD_MASK_ones by done.
    destruct (data_set_word (set_data buf d) (base + q) (Z.lor (word buf (base + q)) (2 ^ r - 1)))
      as (d' & -> & Hd' & Hw'); [cbn; lia|cbn; lia|]. exists d'. split; [done|].
    split; [cbn in *; lia|]. intros j Hj.
    change (word (set_data buf d') j) with (word (set_data (set_data buf d) d') j).
    rewrite Hw', Hw by done.
    destruct (Z.eqb_spec j (base + q)) as [->|]; cbn [andb]; [|done].
    by rewrite Z.ltb_irrefl, andb_false_r.
Qed.

Record allocates_range (buf : util_idalloc) (id num : Z) (buf' : util_idalloc) : Prop := {
  ar_ok : idalloc_ok buf';
  ar_nonneg : 0 <= id;
  ar_fresh : forall j, id <= j < id + num -> allocated buf j = false;
  ar_allocated : forall j, 0 <= j ->
    allocated buf' j = ((id <=? j) && (j <? id + num)) || allocated buf j;
}.

Lemma allocates_one buf id buf' : allocates buf id buf' -> allocates_range buf id 1 buf'.
Proof.
  intros [H1 H2 H3 H4]. constructor; try done.
  - intros j Hj. replace j with id by lia. done.
  - intros j Hj. rewrite H4 by done. f_equal.
    destruct (Z.eqb_spec j id), (Z.leb_spec id j), (Z.ltb_spec j (id + 1)); done || lia.
Qed.

(** A bitmap with no number in use is zero, and its cached index is 0. *)
Lemma words_zero buf :
  idalloc_ok buf -> (forall j, 0 <= j -> allocated buf j = false) -> forall i, 0 <= i -> word buf i = 0.
Proof.
  intros Hok Hnone i Hi. apply word_bits_inj; [by apply Hok|unfold fits; lia|]. intros j Hj.
  rewrite Z.bits_0. specialize (Hnone (i * 32 + j) ltac:(lia)). unfold allocated in Hnone.
  destruct (id_split i j Hj) as [E1 E2]. by rewrite E1, E2 in Hnone.
Qed.

Lemma lowest_zero buf :
  idalloc_ok buf -> (forall i, 0 <= i -> word buf i = 0) -> lowest_free_idx buf = 0.
Proof.
  intros Hok Hz. pose proof (ok_lowest _ Hok). pose proof (ok_full _ Hok 0) as Hf.
  rewrite Hz in Hf by lia. unfold FULL in Hf. lia.
Qed.

Lemma alloc_range_spec buf num :
  idalloc_ok buf -> num_elements buf < 2 ^ 26 -> 0 < num < 2 ^ 31 ->
  exists id buf', util_idalloc_alloc_range buf num = Some (id, buf') /\ allocates_range buf id num buf'
    /\ id <= num_elements buf * 32
    /\ ((forall j, 0 <= j -> allocated buf j = false) -> id = 0)
    /\ num_elements buf <= num_elements buf' <= 2 * num_elements buf + (num / 32 + 2).
Proof.
  intros Hok Hne Hnum. unfold util_idalloc_alloc_range.
  destruct (Z.eqb_spec num 1) as [->|Hn1].
  { destruct (alloc_spec buf Hok ltac:(lia)) as (id & buf' & -> & Ha & Hall & _ & Hb).
    pose proof (ok_set _ Hok).
    exists id, buf'. split; [done|]. split; [by apply allocates_one|].
    split; [|split; [|change (1 / 32) with 0; lia]]; cycle 1.
    { intros Hz. pose proof (as_nonneg _ _ _ Ha). destruct (Z.eq_dec id 0); [done|].
      specialize (Hall 0 ltac:(lia)). by rewrite Hz in Hall. }
    apply Z.nlt_ge. intros Hlt. specialize (Hall (num_elements buf * 32)).
    rewrite allocated_outside in Hall; [|done|rewrite Z.div_mul; lia].
    discriminate Hall. lia. }
  pose proof (ok_lowest _ Hok) as Hlo. pose proof (ok_length _ Hok) as Hl.
  destruct (find_free_block_spec (S (Z.to_nat (num_elements buf))) buf (lowest_free_idx buf))
    as (base0 & Hf & Hb0 & Hb0z); [done|lia|lia|]. unfold find_free_block. rewrite Hf. cbn [mbind option_bind].
  set (n := DIV_ROUND_UP num 32). pose proof (DIV_ROUND_UP_32 num ltac:(lia)) as Hn. fold n in Hn.
  assert (Hn0 : 0 < n <= num / 32 + 1) by (rewrite Hn; destruct (Z.eqb_spec (num mod 32) 0); cbn; dlia).
  destruct (range_search_spec (S (Z.to_nat (num_elements buf))) buf n base0)
    as (base & found & -> & Hb & Hz & Hfound & Hbz); [done|lia|lia|lia|]. cbn [mbind option_bind].
  set (buf1 := if found then buf else _).
  assert (H1 : num_elements buf1 = Z.of_nat (length (data buf1))
    /\ num_elements buf <= num_elements buf1 <= 2 * num_elements buf + (num / 32 + 1)
    /\ base + n <= num_elements buf1
    /\ (forall i, word buf1 i = word buf i) /\ num_set_elements buf1 = num_set_elements buf
    /\ lowest_free_idx buf1 = lowest_free_idx buf).
  { subst buf1. destruct found; [specialize (Hfound eq_refl); split_and!; auto; dlia|].
    destruct (resize_word buf (u32 (num_elements buf * 2 + n)) Hl) as (R1 & R2 & R3 & R4 & R5).
    set (b1 := util_idalloc_resize _ _) in *. assert (num / 32 < 2 ^ 26) by dlia.
    rewrite u32_small in R2 by lia.
    split_and!; try done; lia. }
  destruct H1 as (L1 & L2 & L3 & L4 & L5 & L6).
  destruct (range_mark_tail buf1 base num n) as (d & Hmark & Hd & Hw); [done|lia|lia|done|done|].
  destruct (range_mark _ buf1 base _) as [bufm|]; [|done]. cbn [mbind option_bind] in Hmark |- *.
  rewrite Hmark. cbn [mbind option_bind]. cbn [lowest_free_idx set_data num_set_elements].
  rewrite MAX2_max, L6.
  set (buf2 := set_num_set (if lowest_free_idx buf =? base then _ else _) _).
  assert (Hq : 0 <= num / 32) by dlia. assert (Hr : 0 <= num mod 32 < 32) by dlia.
  assert (Hdm : num / 32 * 32 + num mod 32 = num) by dlia.
  assert (Hw2 : forall j, 0 <= j -> word buf2 j = range_word base (num / 32) (num mod 32) buf j).
  { intros j Hj. transitivity (word (set_data buf1 d) j); [subst buf2; by case_if_eqn|].
    rewrite Hw by done. unfold range_word. by rewrite L4. }
  assert (Hfields : num_elements buf2 = num_elements buf1 /\ data buf2 = d
    /\ num_set_elements buf2 = Z.max (num_set_elements buf) (base + n)
    /\ lowest_free_idx buf2 = if lowest_free_idx buf =? base then base + num / 32 else lowest_free_idx buf).
  { subst buf2. destruct (lowest_free_idx buf =? base); cbn; rewrite ?L5, ?L6; split_and!; done || lia. }
  destruct Hfields as (F1 & F2 & F3 & F4).
  assert (Hok2 : idalloc_ok buf2).
  { eapply (range_set_ok buf buf2 base (num / 32) (num mod 32) n); try done; try lia.
    rewrite F1, F2, Hd. done. }
  pose proof (range_set_allocated buf buf2 base (num / 32) (num mod 32) n Hq Hr ltac:(lia) Hn Hw2) as Hal.
  rewrite Hdm in Hal.
  rewrite range_validate_spec; [|done|lia|lia|]; cycle 1.
  { intros j Hj. rewrite Hal by lia.
    destruct (Z.leb_spec (base * 32) j), (Z.ltb_spec j (base * 32 + num)); done || lia. }
  cbn [mbind option_bind]. rewrite u32_small by lia. eexists _, _. split; [done|].
  split; [|split_and!; [lia| |rewrite F1; lia..]]; cycle 1.
  { intros Hnone. pose proof (words_zero buf Hok Hnone) as Hwz. rewrite Hbz, Hb0z by done.
    rewrite (lowest_zero buf); done. }
  constructor; [done|lia| |done].
  intros j Hj. eapply (range_set_fresh buf base (num / 32) (num mod 32) n); try done. lia.
Qed.

(** *** Iteration *)

Lemma sorted_app (l1 l2 : list Z) :
  StronglySorted Z.lt l1 -> StronglySorted Z.lt l2 ->
  (forall x y, x ∈ l1 -> y ∈ l2 -> x < y) -> StronglySorted Z.lt (l1 ++ l2).
Proof.
  intros H1 H2 Hx. induction H1 as [|x l1 H1 IH Hall]; [done|]. cbn. constructor.
  - apply IH. set_solver.
  - apply Forall_app. split; [done|]. apply Forall_forall. set_solver.
Qed.

Lemma foreach_word_spec fuel i mask lo :
  0 <= i < 2 ^ 27 -> fits 32 mask -> 0 <= lo <= 32 ->
  (forall j, 0 <= j < lo -> Z.testbit mask j = false) -> 32 - lo < Z.of_nat fuel ->
  StronglySorted Z.lt (foreach_word fuel i mask)
  /\ forall x, x ∈ foreach_word fuel i mask
       <-> exists b, lo <= b < 32 /\ x = i * 32 + b /\ Z.testbit mask b = true.
Proof.
  intros Hi. revert mask lo. induction fuel as [|fuel IH]; intros mask lo Hm Hlo Hz Hf; [lia|].
  cbn [foreach_word]. destruct (Z.eqb_spec mask 0) as [->|Hne].
  { split; [constructor|]. intros x. split; [by intros ?%not_elem_of_nil|].
    intros (b & _ & _ & Hb). by rewrite Z.bits_0 in Hb. }
  destruct (nonzero_bit mask Hm Hne) as (k & Hk & Hbk).
  destruct (ffs_loop_spec 32 0 mask) as (b & Hffs & Hb & Hb1 & Hb2); [lia|exists k; split; [lia|done]|].
  unfold u_bit_scan, ffs. rewrite Hffs, Z.add_simpl_r.
  assert (Hlb : lo <= b) by (apply Z.nlt_ge; intros ?; rewrite Hz in Hb1 by lia; done).
  assert (Hbits : forall j, Z.testbit (Z.lxor mask (u32 (Z.shiftl 1 b))) j
                            = negb (j =? b) && Z.testbit mask j).
  { intros j. rewrite Z.lxor_spec, bit_testbit by lia.
    destruct (Z.eqb_spec j b) as [->|]; [by rewrite Hb1|]. by destruct (Z.testbit mask j). }
  destruct (IH (Z.lxor mask (u32 (Z.shiftl 1 b))) (b + 1)) as [IHs IHe]; [|lia| |lia|].
  { apply fits32_of_bits.
    - apply Z.lxor_nonneg. pose proof (u32_fits (Z.shiftl 1 b)). unfold fits in Hm. lia.
    - intros j Hj. rewrite Hbits. by rewrite (fits32_high mask), andb_false_r. }
  { intros j Hj. rewrite Hbits. destruct (Z.eqb_spec j b); [done|]. cbn. apply Hb2. lia. }
  rewrite u32_small by lia. split.
  - constructor; [done|]. apply Forall_forall. intros x Hx. apply IHe in Hx as (c & Hc & -> & _). lia.
  - intros x. rewrite elem_of_cons, IHe. split.
    + intros [->|(c & Hc & -> & Hcb)]; [exists b; split_and!; done || lia|].
      rewrite Hbits in Hcb. apply andb_true_iff in Hcb as [_ ?]. exists c. split_and!; done || lia.
    + intros (c & Hc & -> & Hcb). destruct (Z.eq_dec c b) as [->|Hcne]; [by left|right].
      exists c. rewrite Hbits, Hcb. destruct (Z.eqb_spec c b); [done|]. split; [|done].
      destruct (Z_lt_le_dec c b); [|lia]. rewrite Hb2 in Hcb by lia. done.
Qed.

Lemma foreach_loop_spec fuel buf i count :
  idalloc_ok buf -> num_elements buf < 2 ^ 27 -> 0 <= i <= count -> count <= num_elements buf ->
  count - i < Z.of_nat fuel ->
  exists l, foreach_loop fuel buf i count = Some l /\ StronglySorted Z.lt l
    /\ forall x, x ∈ l <-> i * 32 <= x < count * 32 /\ allocated buf x = true.
Proof.
  intros Hok Hn. revert i. induction fuel as [|fuel IH]; intros i Hi Hc Hf; [lia|].
  cbn [foreach_loop]. destruct (Z.ltb_spec i count); cycle 1.
  { eexists. split; [done|]. split; [constructor|]. intros x. rewrite elem_of_nil. lia. }
  rewrite data_get_word by (apply Hok || lia). cbn [mbind option_bind].
  destruct (IH (i + 1)) as (l & -> & Hs & He); [lia..|]. cbn [mbind option_bind].
  destruct (foreach_word_spec 33 i (word buf i) 0) as [Ws We]; [lia|apply Hok; lia|lia|intros; lia|lia|].
  eexists. split; [done|]. split.
  - apply sorted_app; [done|done|]. intros x y Hx Hy. apply We in Hx as (b & Hb & -> & _).
    apply He in Hy. lia.
  - intros x. rewrite elem_of_app, We, He. unfold allocated. split.
    + intros [(b & Hb & -> & Hbit)|[Hx ?]]; [|split; [lia|done]].
      destruct (id_split i b) as [-> ->]; [lia|]. split; [lia|done].
    + intros [Hx Hbit]. destruct (Z_lt_le_dec x ((i + 1) * 32)); [left|right; split; [lia|done]].
      exists (x mod 32). assert (x / 32 = i) as E by dlia. rewrite E in Hbit.
      split_and!; [dlia|dlia|dlia|done].
Qed.

(** *** Interleavings of the thread-safe variant

    Each operation runs in one critical section, so an execution of any number of
    threads is a sequence of operations; [held] is the set of numbers handed out
    to clients and not yet given back.  Clients free only what they hold. *)
Inductive mt_step : util_idalloc_mt * list Z -> util_idalloc_mt * list Z -> Prop :=
| step_alloc buf held id buf' :
    num_elements (mt_buf buf) < 2 ^ 27 ->
    util_idalloc_mt_alloc buf = Some (id, buf') -> mt_step (buf, held) (buf', id :: held)
| step_free buf held1 id held2 buf' :
    util_idalloc_mt_free buf id = Some buf' ->
    mt_step (buf, held1 ++ id :: held2) (buf', held1 ++ held2).

Definition mt_reachable (n : Z) (skip : bool) (s : util_idalloc_mt * list Z) : Prop :=
  exists buf, util_idalloc_mt_init n skip = Some buf /\ rtc mt_step (buf, []) s.

Record mt_inv (skip : bool) (s : util_idalloc_mt * list Z) : Prop := {
  mi_ok : idalloc_ok (mt_buf s.1);
  mi_skip : skip_zero s.1 = skip;
  mi_nodup : NoDup s.2;
  mi_range : forall j, j ∈ s.2 -> 0 <= j < 2 ^ 32;
  mi_held : forall j, 0 <= j ->
    allocated (mt_buf s.1) j = true <-> j ∈ s.2 \/ (skip = true /\ j = 0);
  mi_zero : skip = true -> ~ (0 ∈ s.2);
}.

Lemma mt_init_inv n skip :
  0 < n < 2 ^ 31 -> exists buf, util_idalloc_mt_init n skip = Some buf /\ mt_inv skip (buf, []).
Proof.
  intros Hn. unfold util_idalloc_mt_init.
  destruct (init_spec n Hn) as (b & -> & Hok & Hne & Hnone & Hlow). cbn [mbind option_bind].
  destruct skip.
  - destruct (alloc_spec b Hok) as (id & b' & -> & [H1 H2 H3 H4] & Hall & _ & _); [dlia|].
    cbn [mbind option_bind].
    assert (id = 0) as ->.
    { destruct (Z.eq_dec id 0); [done|]. specialize (Hall 0 ltac:(lia)). by rewrite Hnone in Hall. }
    eexists. split; [done|]. constructor; cbn; try done; [constructor|set_solver|..].
    + intros j Hj. rewrite H4, Hnone, orb_false_r, Z.eqb_eq by done. set_solver.
    + set_solver.
  - eexists. split; [done|]. constructor; cbn; try done; [constructor|set_solver|..].
    intros j Hj. rewrite Hnone. split; [done|]. intros [?%elem_of_nil|[? _]]; done.
Qed.

Lemma alloc_id_range buf id buf' :
  idalloc_ok buf -> num_elements buf < 2 ^ 27 -> util_idalloc_alloc buf = Some (id, buf') ->
  0 <= id < 2 ^ 32.
Proof.
  intros Hok Hn E. unfold util_idalloc_alloc in E.
  destruct (alloc_loop _ _ _) as [r|] eqn:El; [|done]. cbn in E. pose proof (ok_lowest _ Hok).
  destruct (alloc_loop_spec buf (S (Z.to_nat (num_elements buf))) (lowest_free_idx buf))
    as (r' & El' & Hr); [done..|apply Hok|lia|]. rewrite El in El'. injection El' as <-. destruct r as [[id' b']|].
  - simplify_eq. destruct Hr as (k & b & d & Hk & Hb & -> & _). lia.
  - destruct (data_get _ _); [|done]. cbn in E. destruct (data_set _ _ _); [|done]. cbn in E.
    simplify_eq. apply u32_fits.
Qed.

Lemma mt_step_inv skip s s' : mt_inv skip s -> mt_step s s' -> mt_inv skip s'.
Proof.
  intros [Hok Hsk Hnd Hrg Hh Hz] Hstep. destruct Hstep as [buf held id buf' Hn E|buf h1 id h2 buf' E].
  - cbn [fst snd] in *. unfold util_idalloc_mt_alloc in E.
    destruct (alloc_spec (mt_buf buf) Hok Hn) as (id' & b' & Ea & [H1 H2 H3 H4] & _).
    pose proof (alloc_id_range _ _ _ Hok Hn Ea). rewrite Ea in E. cbn in E. simplify_eq.
    assert (Hnew : ~ (id ∈ held \/ (skip_zero buf = true /\ id = 0))).
    { rewrite <- Hh, H3 by done. done. }
    constructor; cbn; try done.
    + constructor; tauto.
    + intros j [->|Hj]%elem_of_cons; auto.
    + intros j Hj. rewrite H4, orb_true_iff, Z.eqb_eq, Hh, elem_of_cons by done. tauto.
    + intros Hs. rewrite elem_of_cons. intros [<-|?]; [tauto|by apply Hz].
  - cbn [fst snd] in *. unfold util_idalloc_mt_free in E.
    assert (Hin : id ∈ h1 ++ id :: h2) by set_solver. pose proof (Hrg id Hin) as Hid.
    destruct (Z.eqb_spec id 0) as [->|Hne]; cbn [andb] in E.
    { destruct (skip_zero buf) eqn:Es; [by destruct (Hz (eq_sym Hsk))|]. clear Hz.
      destruct (free_spec (mt_buf buf) 0 Hok Hid) as (b' & Ef & Hok' & Hal & _).
      rewrite Ef in E. cbn in E. simplify_eq.
      apply NoDup_app in Hnd as (N1 & N2 & N3). apply NoDup_cons in N3 as [N3 N4].
      constructor; cbn; try done; [apply NoDup_app; set_solver|set_solver|].
      intros j Hj. rewrite Hal, andb_true_iff, negb_true_iff, Z.eqb_neq, Hh by done. set_solver. }
    destruct (free_spec (mt_buf buf) id Hok Hid) as (b' & Ef & Hok' & Hal & _).
    rewrite Ef in E. cbn in E. simplify_eq.
    apply NoDup_app in Hnd as (N1 & N2 & N3). apply NoDup_cons in N3 as [N3 N4].
    constructor; cbn; try done; [apply NoDup_app; set_solver|set_solver| |set_solver].
    intros j Hj. rewrite Hal, andb_true_iff, negb_true_iff, Z.eqb_neq, Hh by done. set_solver.
Qed.

Lemma mt_reachable_inv n skip s : 0 < n < 2 ^ 31 -> mt_reachable n skip s -> mt_inv skip s.
Proof.
  intros Hn (buf & E & Hr). destruct (mt_init_inv n skip Hn) as (buf' & E' & Hinv). simplify_eq.
  induction Hr; eauto using mt_step_inv.
Qed.

(** *** The sparse variant *)

Definition sparse_allocated (buf : util_idalloc_sparse) (id : Z) : bool :=
  match segment buf !! Z.to_nat (id / MAX_IDS_PER_SEGMENT) with
  | Some seg => allocated seg (id mod MAX_IDS_PER_SEGMENT)
  | None => false
  end.

Lemma MAX_IDS_eq : MAX_IDS_PER_SEGMENT = 2 ^ 22.
Proof. reflexivity. Qed.

Lemma MAX_ELEMS_eq : MAX_ELEMS_PER_SEGMENT = 2 ^ 17.
Proof. reflexivity. Qed.

Record sparse_ok (buf : util_idalloc_sparse) : Prop := {
  so_length : length (segment buf) = 1024%nat;
  so_segments : Forall idalloc_ok (segment buf);
  so_small : Forall (fun seg => num_elements seg < 2 ^ 26) (segment buf);
}.

(** A segment the allocator would use still has a number of its own range. *)
Definition has_room (seg : util_idalloc) : Prop :=
  lowest_free_idx seg < MAX_ELEMS_PER_SEGMENT ->
  exists j, 0 <= j < MAX_IDS_PER_SEGMENT /\ allocated seg j = false.

(** Replacing one segment changes the numbers of that segment only. *)
Lemma sparse_insert buf k seg seg' (f : Z -> bool) :
  segment buf !! k = Some seg ->
  (forall j, 0 <= j < MAX_IDS_PER_SEGMENT ->
     allocated seg' j = f (MAX_IDS_PER_SEGMENT * Z.of_nat k + j)) ->
  forall id, 0 <= id ->
    sparse_allocated (IdallocSparse (<[k := seg']> (segment buf))) id =
    if id / MAX_IDS_PER_SEGMENT =? Z.of_nat k then f id else sparse_allocated buf id.
Proof.
  intros Hk Hf id Hid. unfold sparse_allocated. cbn [segment]. rewrite MAX_IDS_eq in *.
  assert (0 <= id / 2 ^ 22) by dlia.
  destruct (Z.eqb_spec (id / 2 ^ 22) (Z.of_nat k)) as [E|E].
  - rewrite E, Nat2Z.id, list_lookup_insert_eq by (by eapply lookup_lt_Some).
    rewrite Hf by dlia. f_equal. dlia.
  - rewrite list_lookup_insert_ne by lia. done.
Qed.

Lemma sparse_alloc_loop_spec pre segs :
  Forall idalloc_ok segs -> Forall (fun seg => num_elements seg < 2 ^ 26) segs ->
  Exists (fun seg => lowest_free_idx seg < MAX_ELEMS_PER_SEGMENT) segs ->
  exists k seg seg' local,
    sparse_alloc_loop pre segs (Z.of_nat (length pre)) =
      Some (u32 (MAX_IDS_PER_SEGMENT * Z.of_nat (length pre + k) + local),
            IdallocSparse (pre ++ <[k := seg']> segs))
    /\ segs !! k = Some seg /\ lowest_free_idx seg < MAX_ELEMS_PER_SEGMENT
    /\ allocates seg local seg' /\ (forall j, 0 <= j < local -> allocated seg j = true).
Proof.
  revert pre. induction segs as [|seg segs IH]; intros pre Hok Hsm Hex; [by apply Exists_nil in Hex|].
  apply Forall_cons_1 in Hok as [Hok Hoks]. apply Forall_cons_1 in Hsm as [Hsm Hsms].
  cbn [sparse_alloc_loop]. destruct (Z.ltb_spec (lowest_free_idx seg) MAX_ELEMS_PER_SEGMENT) as [Hl|Hl].
  - destruct (alloc_spec seg Hok ltac:(lia)) as (id & seg' & -> & Ha & Hall & _).
    exists 0%nat, seg, seg', id. cbn. rewrite Nat.add_0_r. done.
  - destruct (IH (pre ++ [seg]) Hoks Hsms) as (k & s & s' & l & E & Hk & Hl' & Ha & Hall).
    { apply Exists_cons in Hex as [?|?]; [lia|done]. }
    exists (S k), s, s', l. rewrite length_app in E. cbn [length] in E.
    replace (Z.of_nat (length pre) + 1) with (Z.of_nat (length pre + 1)) by lia. rewrite E.
    replace (length pre + 1 + k)%nat with (length pre + S k)%nat by lia.
    split; [|done]. by rewrite <- app_assoc.
Qed.

(** *** A run of the sparse allocator

    [sparse_run ids buf]: [buf] results from initialisation and allocations, the
    numbers returned so far being [ids] (none is freed). *)
Inductive sparse_run : list Z -> util_idalloc_sparse -> Prop :=
| run_init buf : util_idalloc_sparse_init = Some buf -> sparse_run [] buf
| run_alloc ids buf id buf' :
    sparse_run ids buf -> util_idalloc_sparse_alloc buf = Some (id, buf') ->
    sparse_run (id :: ids) buf'.

(** The first allocations all come from segment 0, in order, up to and including
    the number just after the segment's range. *)
Lemma sparse_run_first seg1 segs n :
  util_idalloc_sparse_init = Some (IdallocSparse (seg1 :: segs)) ->
  util_idalloc_init 1 = Some seg1 -> 0 <= n <= MAX_IDS_PER_SEGMENT + 1 ->
  exists ids seg, sparse_run ids (IdallocSparse (seg :: segs)) /\ idalloc_ok seg
    /\ (forall j, 0 <= j -> allocated seg j = (j <? n))
    /\ lowest_free_idx seg = Z.max 0 (n - 1) / 32
    /\ num_elements seg <= 2 * (n / 32 + 1) /\ (0 < n -> n - 1 ∈ ids).
Proof.
  intros Hinit H1 Hn. rewrite MAX_IDS_eq in Hn. destruct Hn as [Hn0 Hn]. revert n Hn0 Hn.
  apply (natlike_ind (fun n => n <= 2 ^ 22 + 1 -> _)).
  - intros _. destruct (init_spec 1 ltac:(lia)) as (seg & Hs & Hok & Hne & Hnone & Hlow).
    rewrite Hs in H1. simplify_eq. exists [], seg1. split_and!; try done.
    + by constructor.
    + intros j Hj. rewrite Hnone. destruct (Z.ltb_spec j 0); [lia|done].
    + rewrite Hne. done.
  - intros n Hn0 IH Hle. destruct IH as (ids & seg & Hrun & Hok & Hal & Hlow & Hne & Hin); [lia|].
    destruct (alloc_spec seg Hok) as (id & seg' & E & Ha & Hall & Hlow' & Hgrow); [dlia|].
    pose proof (as_nonneg _ _ _ Ha) as Hid0. pose proof (as_fresh _ _ _ Ha) as Hfresh.
    rewrite Hal in Hfresh by done. apply Z.ltb_ge in Hfresh.
    assert (id = n) as ->.
    { destruct (Z.eq_dec id n); [done|]. specialize (Hall n ltac:(lia)).
      rewrite Hal, Z.ltb_irrefl in Hall by done. done. }
    exists (n :: ids), seg'. split_and!.
    + eapply run_alloc; [done|]. unfold util_idalloc_sparse_alloc. cbn [segment sparse_alloc_loop].
      destruct (Z.ltb_spec (lowest_free_idx seg) MAX_ELEMS_PER_SEGMENT) as [_|Hge].
      * rewrite E. cbn [mbind option_bind]. rewrite Z.mul_0_r, u32_small by lia. done.
      * rewrite MAX_ELEMS_eq in Hge. dlia.
    + apply Ha.
    + intros j Hj. rewrite (as_allocated _ _ _ Ha), Hal by done.
      destruct (Z.eqb_spec j n), (Z.ltb_spec j n), (Z.ltb_spec j (Z.succ n)); done || lia.
    + rewrite Hlow'. f_equal. lia.
    + destruct Hgrow as [->|[-> ->]]; dlia.
    + intros _. rewrite Z.sub_succ_l, Z.pred_succ || replace (Z.succ n - 1) with n by lia. set_solver.
Qed.

Lemma sparse_back_off_spec n seg id :
  idalloc_ok seg -> 0 <= id -> id + Z.of_nat n <= 2 ^ 32 ->
  exists seg', sparse_back_off n seg id = Some seg' /\ idalloc_ok seg'
    /\ (forall j, 0 <= j ->
          allocated seg' j = negb ((id <=? j) && (j <? id + Z.of_nat n)) && allocated seg j).
Proof.
  revert seg id. induction n as [|n IH]; intros seg id Hok Hid Hn; cbn [sparse_back_off].
  { exists seg. split_and!; try done. intros j Hj.
    destruct (Z.leb_spec id j), (Z.ltb_spec j (id + Z.of_nat 0)); done || lia. }
  rewrite u32_small by lia.
  destruct (free_spec seg id Hok ltac:(lia)) as (s1 & -> & Hok1 & Hal1 & _). cbn [mbind option_bind].
  destruct (IH s1 (id + 1) Hok1) as (s2 & -> & Hok2 & Hal2); [lia|lia|].
  exists s2. split_and!; try done. intros j Hj. rewrite Hal2, Hal1 by done.
  destruct (Z.leb_spec id j), (Z.leb_spec (id + 1) j), (Z.ltb_spec j (id + 1 + Z.of_nat n)),
    (Z.ltb_spec j (id + Z.of_nat (S n))), (Z.eqb_spec j id); cbn [andb negb]; done || lia.
Qed.

(** The back-off leaves the numbers of the segment as they were. *)
Lemma back_off_restores seg id num seg1 :
  allocates_range seg id num seg1 -> 0 < num < 2 ^ 31 -> id < 2 ^ 31 ->
  exists seg2, sparse_back_off (Z.to_nat num) seg1 id = Some seg2 /\ idalloc_ok seg2
    /\ (forall j, 0 <= j -> allocated seg2 j = allocated seg j).
Proof.
  intros [H1 H2 H3 H4] Hnum Hid.
  destruct (sparse_back_off_spec (Z.to_nat num) seg1 id H1 H2) as (s2 & -> & Hok & Hal); [lia|].
  exists s2. split_and!; try done. intros j Hj. rewrite Hal, H4 by done. rewrite Z2Nat.id by lia.
  destruct ((id <=? j) && (j <? id + num)) eqn:E; [|done]. cbn. zbool. symmetry. apply H3. lia.
Qed.

Definition empty_segment (seg : util_idalloc) : Prop := forall j, 0 <= j -> allocated seg j = false.

Lemma sparse_alloc_range_loop_spec num pre segs :
  0 < num <= MAX_IDS_PER_SEGMENT ->
  Forall idalloc_ok segs -> Forall (fun seg => num_elements seg < 2 ^ 26) segs ->
  Exists empty_segment segs ->
  exists k seg seg' local segs',
    sparse_alloc_range_loop pre segs (Z.of_nat (length pre)) num =
      Some (u32 (MAX_IDS_PER_SEGMENT * Z.of_nat (length pre + k) + local),
            IdallocSparse (pre ++ <[k := seg']> segs'))
    /\ segs !! k = Some seg /\ allocates_range seg local num seg'
    /\ local + num <= MAX_IDS_PER_SEGMENT
    /\ Forall2 (fun s s' => forall j, 0 <= j -> allocated s' j = allocated s j) segs segs'.
Proof.
  intros Hnum. rewrite MAX_IDS_eq in Hnum. revert pre.
  induction segs as [|seg segs IH]; intros pre Hok Hsm Hex; [by apply Exists_nil in Hex|].
  apply Forall_cons_1 in Hok as [Hok Hoks]. apply Forall_cons_1 in Hsm as [Hsm Hsms].
  assert (Hnext : ~ empty_segment seg -> forall seg2,
    (forall j, 0 <= j -> allocated seg2 j = allocated seg j) ->
    exists k sg sg' local segs',
      sparse_alloc_range_loop (pre ++ [seg2]) segs (Z.of_nat (length pre) + 1) num =
        Some (u32 (MAX_IDS_PER_SEGMENT * Z.of_nat (length pre + k) + local),
              IdallocSparse (pre ++ <[k := sg']> segs'))
      /\ (seg :: segs) !! k = Some sg /\ allocates_range sg local num sg'
      /\ local + num <= MAX_IDS_PER_SEGMENT
      /\ Forall2 (fun s s' => forall j, 0 <= j -> allocated s' j = allocated s j) (seg :: segs) segs').
  { intros Hne seg2 Hsame. apply Exists_cons in Hex as [Hx|Hex]; [done|].
    destruct (IH (pre ++ [seg2]) Hoks Hsms Hex) as (k & s & s' & l & ss & E & Hk & Ha & Hle & Hall).
    exists (S k), s, s', l, (seg2 :: ss). rewrite length_app in E. cbn [length] in E.
    replace (Z.of_nat (length pre) + 1) with (Z.of_nat (length pre + 1)) by lia. rewrite E.
    replace (length pre + 1 + k)%nat with (length pre + S k)%nat by lia.
    split; [by rewrite <- app_assoc|]. split_and!; try done. by constructor. }
  assert (Hd : 0 <= DIV_ROUND_UP num 32 <= 2 ^ 17).
  { rewrite DIV_ROUND_UP_32 by lia. destruct (Z.eqb_spec (num mod 32) 0); cbn; dlia. }
  pose proof (ok_lowest _ Hok). cbn [sparse_alloc_range_loop]. rewrite u32_small by lia.
  rewrite MAX_ELEMS_eq. destruct (Z.leb_spec (lowest_free_idx seg + DIV_ROUND_UP num 32) (2 ^ 17)); cycle 1.
  { apply Hnext; [|done]. intros He. rewrite (lowest_zero seg Hok (words_zero seg Hok He)) in *. lia. }
  destruct (alloc_range_spec seg num Hok Hsm ltac:(lia)) as (l & s' & -> & Ha & Hlb & Hz & _).
  cbn [mbind option_bind]. pose proof (ar_nonneg _ _ _ _ Ha).
  rewrite MAX_IDS_eq, u32_small by lia. destruct (Z.leb_spec (l + num) (2 ^ 22)).
  { exists 0%nat, seg, s', l, (seg :: segs). rewrite Nat.add_0_r. split_and!; try done.
    by apply Forall_Forall2_diag, Forall_true. }
  destruct (back_off_restores seg l num s' Ha ltac:(lia) ltac:(lia)) as (s2 & -> & _ & Hsame).
  cbn [mbind option_bind]. rewrite MAX_IDS_eq in Hnext. apply Hnext; [|done].
  intros He. rewrite (Hz He) in *. lia.
Qed.

(** * Properties *)

(** allocation.  On a well-formed bitmap [util_idalloc_alloc] stays in
    bounds and returns the smallest number not in use; exactly that number
    becomes used, and the bitmap stays well formed, whether a free bit was found
    or the bitmap had to grow. *)
Theorem util_idalloc_alloc_correct (buf : util_idalloc) :
  idalloc_ok buf -> num_elements buf < 2 ^ 27 ->
  exists id buf', util_idalloc_alloc buf = Some (id, buf') /\ idalloc_ok buf'
    /\ 0 <= id /\ allocated buf id = false /\ (forall j, 0 <= j < id -> allocated buf j = true)
    /\ (forall j, 0 <= j -> allocated buf' j = (j =? id) || allocated buf j).
Proof.
  intros Hok Hn. destruct (alloc_spec buf Hok Hn) as (id & buf' & E & [H1 H2 H3 H4] & Hall & _).
  exists id, buf'. split_and!; try done.
Qed.

(** A well-formed bitmap used by the witnesses: 0..31 and 33 are in use. *)
Definition example_buf : util_idalloc := Idalloc [FULL; 2; 0] 3 2 1.

Lemma example_buf_ok : idalloc_ok example_buf.
Proof.
  assert (Hw : forall i, 0 <= i -> word example_buf i = if i =? 0 then FULL else if i =? 1 then 2 else 0).
  { intros i Hi. unfold word. destruct (Z.eqb_spec i 0) as [->|]; [done|].
    destruct (Z.eqb_spec i 1) as [->|]; [done|].
    destruct (Z.to_nat i) as [|[|[|k]]] eqn:E; try done; lia. }
  constructor; cbn [example_buf num_elements num_set_elements lowest_free_idx data]; try (cbn; lia).
  - intros i Hi. rewrite Hw by done. repeat case_if_eqn; unfold fits, FULL; lia.
  - intros i Hi. rewrite Hw by lia. destruct (Z.eqb_spec i 0); [done|lia].
  - intros i Hi. rewrite Hw by lia. destruct (Z.eqb_spec i 0), (Z.eqb_spec i 1); done || lia.
  - intros _. cbn. done.
Qed.

Lemma util_idalloc_alloc_correct_witness :
  exists id buf', util_idalloc_alloc example_buf = Some (id, buf') /\ id = 32
    /\ data buf' = [FULL; 3; 0].
Proof.
  destruct (util_idalloc_alloc_correct example_buf) as (id & buf' & E & _).
  - exact example_buf_ok.
  - cbn. lia.
  - exists id, buf'. split; [exact E|]. vm_compute in E. injection E as <- <-. split; reflexivity.
Defined.

(** allocation of [num] consecutive numbers.  [util_idalloc_alloc_range]
    stays in bounds, passes its own validation loop, and returns the start of a
    range none of whose numbers was in use; exactly the [num] numbers of that
    range become used. *)
Theorem util_idalloc_alloc_range_correct (buf : util_idalloc) (num : Z) :
  idalloc_ok buf -> num_elements buf < 2 ^ 26 -> 0 < num < 2 ^ 31 ->
  exists id buf', util_idalloc_alloc_range buf num = Some (id, buf') /\ idalloc_ok buf'
    /\ 0 <= id /\ (forall j, id <= j < id + num -> allocated buf j = false)
    /\ (forall j, 0 <= j ->
          allocated buf' j = ((id <=? j) && (j <? id + num)) || allocated buf j).
Proof.
  intros Hok Hn Hnum.
  destruct (alloc_range_spec buf num Hok Hn Hnum) as (id & buf' & E & [H1 H2 H3 H4] & _).
  exists id, buf'. split_and!; done.
Qed.

Lemma util_idalloc_alloc_range_correct_witness :
  exists id buf', util_idalloc_alloc_range example_buf 40 = Some (id, buf') /\ id = 64
    /\ firstn 4 (data buf') = [FULL; 2; FULL; 255].
Proof.
  destruct (util_idalloc_alloc_range_correct example_buf 40) as (id & buf' & E & _).
  - exact example_buf_ok.
  - cbn. lia.
  - lia.
  - exists id, buf'. split; [exact E|]. vm_compute in E. injection E as <- <-. split; reflexivity.
Defined.

(** release and reservation change exactly the given number and keep the
    bitmap well formed, in particular the two cached indices: [lowest_free_idx]
    has only full words below it and [num_set_elements] is one past the last
    non-zero word. *)
Theorem util_idalloc_free_reserve_correct (buf : util_idalloc) (id : Z) :
  idalloc_ok buf -> 0 <= id < 2 ^ 32 ->
  (exists buf', util_idalloc_free buf id = Some buf' /\ idalloc_ok buf'
     /\ (forall j, 0 <= j -> allocated buf' j = negb (j =? id) && allocated buf j))
  /\ (exists buf', util_idalloc_reserve buf id = Some buf' /\ idalloc_ok buf'
     /\ (forall j, 0 <= j -> allocated buf' j = (j =? id) || allocated buf j)).
Proof.
  intros Hok Hid. split.
  - destruct (free_spec buf id Hok Hid) as (buf' & E & H1 & H2 & _). eauto.
  - destruct (reserve_spec buf id Hok Hid) as (buf' & E & H1 & H2 & _). eauto.
Qed.

Lemma util_idalloc_free_reserve_correct_witness :
  (exists buf', util_idalloc_free example_buf 33 = Some buf'
     /\ buf' = Idalloc [FULL; 0; 0] 3 1 1)
  /\ (exists buf', util_idalloc_reserve example_buf 100 = Some buf'
     /\ buf' = Idalloc [FULL; 2; 0; 16; 0; 0; 0; 0] 8 4 1).
Proof.
  split.
  - destruct (util_idalloc_free_reserve_correct example_buf 33) as [(buf' & E & _) _].
    + exact example_buf_ok.
    + lia.
    + exists buf'. split; [exact E|]. vm_compute in E. injection E as <-. reflexivity.
  - destruct (util_idalloc_free_reserve_correct example_buf 100) as [_ (buf' & E & _)].
    + exact example_buf_ok.
    + lia.
    + exists buf'. split; [exact E|]. vm_compute in E. injection E as <-. reflexivity.
Defined.

(** [util_idalloc_foreach] runs its body on exactly the numbers in use, each
    once and in increasing order, although it looks only at the first
    [num_set_elements] words. *)
Theorem util_idalloc_foreach_correct (buf : util_idalloc) :
  idalloc_ok buf -> num_elements buf < 2 ^ 27 ->
  exists l, util_idalloc_foreach buf = Some l /\ StronglySorted Z.lt l
    /\ forall id, 0 <= id -> id ∈ l <-> allocated buf id = true.
Proof.
  intros Hok Hn. pose proof (ok_set _ Hok).
  destruct (foreach_loop_spec (S (Z.to_nat (num_set_elements buf))) buf 0 (num_set_elements buf))
    as (l & E & Hs & He); [done|done|lia|lia|lia|]. exists l. split_and!; try done.
  intros id Hid. rewrite He. split; [tauto|]. intros Ha. split; [|done]. split; [lia|].
  apply Z.nle_gt. intros Hle. unfold allocated in Ha.
  rewrite (ok_clear _ Hok), Z.bits_0 in Ha by dlia. done.
Qed.

Lemma util_idalloc_foreach_correct_witness :
  exists l, util_idalloc_foreach example_buf = Some l /\ l = seqZ 0 32 ++ [33].
Proof.
  destruct (util_idalloc_foreach_correct example_buf) as (l & E & _).
  - exact example_buf_ok.
  - cbn. lia.
  - exists l. split; [exact E|]. vm_compute in E. injection E as <-. reflexivity.
Defined.



(** the sparse variant hands out fresh numbers as long as the segment it
    picks has one of its own range left: the number returned was not in use in
    any segment and exactly that number becomes used. *)
Theorem util_idalloc_sparse_alloc_correct (buf : util_idalloc_sparse) :
  sparse_ok buf -> Forall has_room (segment buf) ->
  Exists (fun seg => lowest_free_idx seg < MAX_ELEMS_PER_SEGMENT) (segment buf) ->
  exists id buf', util_idalloc_sparse_alloc buf = Some (id, buf')
    /\ 0 <= id < 2 ^ 32 /\ sparse_allocated buf id = false
    /\ (forall j, 0 <= j -> sparse_allocated buf' j = (j =? id) || sparse_allocated buf j).
Proof.
  intros [Hlen Hoks Hsm] Hroom Hex.
  destruct (sparse_alloc_loop_spec [] (segment buf) Hoks Hsm Hex)
    as (k & seg & seg' & l & E & Hk & Hl & [A1 A2 A3 A4] & Hall).
  rewrite Forall_forall in Hroom.
  destruct (Hroom seg ltac:(by eapply list_elem_of_lookup_2) Hl) as (j & Hj & Hfree).
  assert (Hlj : l <= j) by (apply Z.nlt_ge; intros ?; rewrite Hall in Hfree by lia; done).
  pose proof (lookup_lt_Some _ _ _ Hk). rewrite MAX_IDS_eq in *. cbn [length Nat.add app] in E.
  rewrite u32_small in E by lia. set (id := 2 ^ 22 * Z.of_nat k + l) in *.
  assert (Hq : id / 2 ^ 22 = Z.of_nat k /\ id mod 2 ^ 22 = l) by (subst id; dlia).
  destruct Hq as [Hq Hr]. eexists _, _. split; [exact E|]. split; [lia|]. split.
  - unfold sparse_allocated. rewrite MAX_IDS_eq, Hq, Hr, Nat2Z.id, Hk. done.
  - intros i Hi.
    rewrite (sparse_insert buf k seg seg' (fun i => (i =? id) || sparse_allocated buf i)); try done.
    + rewrite MAX_IDS_eq. destruct (Z.eqb_spec (i / 2 ^ 22) (Z.of_nat k)); [done|].
      destruct (Z.eqb_spec i id); [by subst i|done].
    + rewrite MAX_IDS_eq. intros i' Hi'. rewrite A4 by lia. f_equal.
      * unfold id. destruct (Z.eqb_spec i' l), (Z.eqb_spec (2 ^ 22 * Z.of_nat k + i') (2 ^ 22 * Z.of_nat k + l));
          done || lia.
      * unfold sparse_allocated. rewrite MAX_IDS_eq.
        replace ((2 ^ 22 * Z.of_nat k + i') / 2 ^ 22) with (Z.of_nat k) by dlia.
        replace ((2 ^ 22 * Z.of_nat k + i') mod 2 ^ 22) with i' by dlia.
        rewrite Nat2Z.id, Hk. done.
Qed.

(** The segment [util_idalloc_sparse_init] starts with. *)
Definition fresh_segment : util_idalloc := Idalloc [0] 1 0 0.

Lemma fresh_segment_ok : idalloc_ok fresh_segment /\ empty_segment fresh_segment.
Proof.
  destruct (init_spec 1 ltac:(lia)) as (seg & E & Hok & _ & Hnone & _).
  change (util_idalloc_init 1) with (Some fresh_segment) in E. injection E as <-.
  split; [done|]. intros j _. apply Hnone.
Qed.

Lemma fresh_sparse_ok : sparse_ok (IdallocSparse (replicate 1024 fresh_segment)).
Proof.
  constructor; cbn [segment].
  - apply length_replicate.
  - apply Forall_replicate, fresh_segment_ok.
  - apply Forall_replicate. cbn. lia.
Qed.

Lemma util_idalloc_sparse_alloc_correct_witness :
  exists id buf', util_idalloc_sparse_alloc (IdallocSparse (replicate 1024 fresh_segment)) = Some (id, buf')
    /\ id = 0.
Proof.
  destruct (util_idalloc_sparse_alloc_correct (IdallocSparse (replicate 1024 fresh_segment)))
    as (id & buf' & E & _).
  - exact fresh_sparse_ok.
  - apply Forall_replicate. intros _. exists 0. split; [rewrite MAX_IDS_eq; lia|].
    apply fresh_segment_ok. lia.
  - apply Exists_exists. exists fresh_segment. split; [|reflexivity].
    apply elem_of_replicate. split; [reflexivity|lia].
  - exists id, buf'. split; [exact E|]. vm_compute in E. congruence.
Defined.

(** a range allocation in the sparse variant is correct whenever one segment
    is entirely unused: it succeeds with a range inside one segment, none of
    whose numbers was in use, and exactly that range becomes used; segments that
    were tried and backed off are left with the numbers they had. *)
Theorem util_idalloc_sparse_alloc_range_correct (buf : util_idalloc_sparse) (num : Z) :
  sparse_ok buf -> 0 < num <= MAX_IDS_PER_SEGMENT -> Exists empty_segment (segment buf) ->
  exists id buf', util_idalloc_sparse_alloc_range buf num = Some (id, buf')
    /\ 0 <= id /\ id + num <= 2 ^ 32
    /\ (forall j, id <= j < id + num -> sparse_allocated buf j = false)
    /\ (forall j, 0 <= j ->
          sparse_allocated buf' j = ((id <=? j) && (j <? id + num)) || sparse_allocated buf j).
Proof.
  intros [Hlen Hoks Hsm] Hnum Hex.
  destruct (sparse_alloc_range_loop_spec num [] (segment buf) Hnum Hoks Hsm Hex)
    as (k & seg & seg' & l & segs' & E & Hk & [A1 A2 A3 A4] & Hle & Hsame).
  pose proof (lookup_lt_Some _ _ _ Hk). rewrite MAX_IDS_eq in *. cbn [length Nat.add app] in E.
  rewrite u32_small in E by lia. set (id := 2 ^ 22 * Z.of_nat k + l) in *.
  destruct (Forall2_lookup_l _ _ _ _ _ Hsame Hk) as (sk & Hk' & _).
  assert (Hdm : forall i, id <= i < id + num -> i / 2 ^ 22 = Z.of_nat k /\ i mod 2 ^ 22 = i - 2 ^ 22 * Z.of_nat k).
  { intros i Hi. subst id. dlia. }
  assert (Hsp : forall i, 0 <= i -> sparse_allocated (IdallocSparse segs') i = sparse_allocated buf i).
  { intros i Hi. unfold sparse_allocated. cbn [segment]. rewrite MAX_IDS_eq.
    rewrite Forall2_lookup in Hsame.
    destruct (Hsame (Z.to_nat (i / 2 ^ 22))) as [s s' Hs|]; [|done]. apply Hs. dlia. }
  eexists _, _. split; [exact E|]. split_and!; [lia|lia| |].
  - intros i Hi. unfold sparse_allocated. rewrite MAX_IDS_eq. destruct (Hdm i Hi) as [-> ->].
    rewrite Nat2Z.id, Hk. apply A3. lia.
  - intros i Hi.
    rewrite (sparse_insert (IdallocSparse segs') k sk seg'
      (fun i => ((id <=? i) && (i <? id + num)) || sparse_allocated buf i)); try done.
    + rewrite MAX_IDS_eq. destruct (Z.eqb_spec (i / 2 ^ 22) (Z.of_nat k)); [done|].
      rewrite Hsp by done. destruct (Z.leb_spec id i), (Z.ltb_spec i (id + num)); try done.
      destruct (Hdm i); [lia|done].
    + rewrite MAX_IDS_eq. intros i' Hi'. rewrite A4 by lia. f_equal.
      * unfold id. destruct (Z.leb_spec l i'), (Z.ltb_spec i' (l + num)),
          (Z.leb_spec (2 ^ 22 * Z.of_nat k + l) (2 ^ 22 * Z.of_nat k + i')),
          (Z.ltb_spec (2 ^ 22 * Z.of_nat k + i') (2 ^ 22 * Z.of_nat k + l + num)); done || lia.
      * unfold sparse_allocated. rewrite MAX_IDS_eq.
        replace ((2 ^ 22 * Z.of_nat k + i') / 2 ^ 22) with (Z.of_nat k) by dlia.
        replace ((2 ^ 22 * Z.of_nat k + i') mod 2 ^ 22) with i' by dlia.
        rewrite Nat2Z.id, Hk. done.
Qed.

Lemma util_idalloc_sparse_alloc_range_correct_witness :
  exists id buf',
    util_idalloc_sparse_alloc_range (IdallocSparse (replicate 1024 fresh_segment)) 70 = Some (id, buf')
    /\ id = 0.
Proof.
  destruct (util_idalloc_sparse_alloc_range_correct (IdallocSparse (replicate 1024 fresh_segment)) 70)
    as (id & buf' & E & _).
  - exact fresh_sparse_ok.
  - rewrite MAX_IDS_eq. lia.
  - apply Exists_exists. exists fresh_segment. split; [|apply fresh_segment_ok].
    apply elem_of_replicate. split; [reflexivity|lia].
  - exists id, buf'. split; [exact E|]. vm_compute in E. congruence.
Defined.

(** the sparse variant can hand out the same number twice.  The loop of
    [util_idalloc_sparse_alloc] skips a segment only when [lowest_free_idx] has
    reached its size, but allocation leaves that index at the word it used last;
    so a full segment is asked once more, grows, and returns the first number of
    the next segment's range, which the next segment then returns again.  The run
    below is [2^22 + 2] allocations from a fresh allocator, with nothing freed. *)
Theorem util_idalloc_sparse_duplicate :
  exists ids buf, sparse_run ids buf /\ ~ NoDup ids.
Proof.
  assert (Hinit : util_idalloc_sparse_init
                  = Some (IdallocSparse (fresh_segment :: fresh_segment :: replicate 1022 fresh_segment)))
    by reflexivity.
  destruct (sparse_run_first fresh_segment _ (MAX_IDS_PER_SEGMENT + 1) Hinit eq_refl)
    as (ids & seg & Hrun & _ & _ & Hlow & _ & Hin); [rewrite MAX_IDS_eq; lia|].
  rewrite MAX_IDS_eq in *. change (Z.max 0 (2 ^ 22 + 1 - 1) / 32) with (2 ^ 17) in Hlow.
  replace (2 ^ 22 + 1 - 1) with (2 ^ 22) in Hin by lia.
  exists (2 ^ 22 :: ids). eexists. split.
  - eapply run_alloc; [exact Hrun|]. unfold util_idalloc_sparse_alloc.
    cbn [segment sparse_alloc_loop]. rewrite Hlow. reflexivity.
  - intros [Hno _]%NoDup_cons. apply Hno, Hin. lia.
Qed.
