(* ===== verification/ProbeTable.v ===== *)
(** * Open addressing with double hashing, shared by hash_table.c and set.c

    The two files have the same table of prime sizes and the same six probing
    loops, on different entry types.  Here are the size table, the loop as a
    combinator over the entry type ([Slot] says what a component's entries
    provide), the probing invariant and what a search, a first-free search and a
    placement do to it.  HashTable.v and HashSet.v build the source's functions from
    these. *)

From Stdlib Require Import ZArith Lia Znumtheory Sorted.
From stdpp Require Import base list numbers option sets.
From S2P Require Import Prelude FastDiv.
Local Open Scope Z_scope.

(** ** The size table *)

Record hash_size := ENTRY {
  hs_max_entries : Z;
  hs_size : Z;
  hs_rehash : Z;
}.

Definition hash_sizes : list hash_size := [
  ENTRY 16           19           17;
  ENTRY 32           43           41;
  ENTRY 64           73           71;
  ENTRY 128          151          149;
  ENTRY 256          283          281;
  ENTRY 512          571          569;
  ENTRY 1024         1153         1151;
  ENTRY 2048         2269         2267;
  ENTRY 4096         4519         4517;
  ENTRY 8192         9013         9011;
  ENTRY 16384        18043        18041;
  ENTRY 32768        36109        36107;
  ENTRY 65536        72091        72089;
  ENTRY 131072       144409       144407;
  ENTRY 262144       288361       288359;
  ENTRY 524288       576883       576881;
  ENTRY 1048576      1153459      1153457;
  ENTRY 2097152      2307163      2307161;
  ENTRY 4194304      4613893      4613891;
  ENTRY 8388608      9227641      9227639;
  ENTRY 16777216     18455029     18455027;
  ENTRY 33554432     36911011     36911009;
  ENTRY 67108864     73819861     73819859;
  ENTRY 134217728    147639589    147639587;
  ENTRY 268435456    295279081    295279079;
  ENTRY 536870912    590559793    590559791;
  ENTRY 1073741824   1181116273   1181116271;
  ENTRY 2147483648   2362232233   2362232231
].

(** The size-dependent fields of [struct hash_table] and [struct set]. *)
Record table_size := TableSize {
  size : Z;
  rehash : Z;
  size_magic : Z;
  rehash_magic : Z;
  max_entries : Z;
  size_index : Z;
}.

(** The assignments [ht->size = hash_sizes[ht->size_index].size; ...]. *)
Definition set_size_index (i : Z) : option table_size :=
  e ← hash_sizes !! Z.to_nat i;
  Some (TableSize (hs_size e) (hs_rehash e) (REMAINDER_MAGIC (hs_size e))
          (REMAINDER_MAGIC (hs_rehash e)) (hs_max_entries e) i).

(** ** The probing loop *)

Definition start_address (ts : table_size) (hash : Z) : Z :=
  util_fast_urem32 hash (size ts) (size_magic ts).
Definition double_hash (ts : table_size) (hash : Z) : Z :=
  u32 (1 + util_fast_urem32 hash (rehash ts) (rehash_magic ts)).

(** [hash_address += double_hash; if (hash_address >= size) hash_address -= size;] *)
Definition next_address (size double_hash hash_address : Z) : Z :=
  let hash_address := u32 (hash_address + double_hash) in
  if hash_address >=? size then hash_address - size else hash_address.

(** [do { body } while (hash_address != start_address)], or [while (true)] when
    [forever]: [body] returns [inr] to leave the loop.  An access outside the table
    and running out of fuel give [None]. *)
Fixpoint probe_loop {E A R : Type} (forever : bool) (fuel : nat) (table : list E)
    (size double_hash start hash_address : Z) (body : A -> Z -> E -> A + R) (acc : A)
    : option (A + R) :=
  match fuel with
  | O => None
  | S fuel =>
      entry ← table !! Z.to_nat hash_address;
      match body acc hash_address entry with
      | inr r => Some (inr r)
      | inl acc =>
          let hash_address := next_address size double_hash hash_address in
          if negb forever && (hash_address =? start) then Some (inl acc)
          else probe_loop forever fuel table size double_hash start hash_address body acc
      end
  end.

Definition probe {E A R : Type} (forever : bool) (ts : table_size) (table : list E) (hash : Z)
    (body : A -> Z -> E -> A + R) (acc : A) : option (A + R) :=
  let start := start_address ts hash in
  probe_loop forever (S (length table)) table (size ts) (double_hash ts hash) start start body acc.

(** ** Prime sizes *)

Fixpoint no_divisor_loop (fuel : nat) (n i : Z) : bool :=
  match fuel with
  | O => false
  | S fuel =>
      if i * i >? n then true
      else if n mod i =? 0 then false
      else no_divisor_loop fuel n (i + 1)
  end.
Definition prime_test (n : Z) : bool :=
  (1 <? n) && no_divisor_loop (Z.to_nat (Z.sqrt n + 1)) n 2.

Lemma no_divisor_loop_spec fuel n i :
  2 <= i -> 1 < n -> no_divisor_loop fuel n i = true ->
  (forall j, 2 <= j < i -> ~ (j | n)) -> prime n.
Proof.
  revert i. induction fuel as [|fuel IH]; intros i Hi Hn H Hd; [done|]. cbn in H.
  destruct (Z.gtb_spec (i * i) n) as [Hgt|Hle].
  - apply prime_alt. split; [done|]. intros j Hj Hdiv. destruct Hdiv as [q Hq].
    assert (1 < q < n) by nia. destruct (Z_lt_le_dec j i).
    + apply (Hd j); [lia|]. by exists q.
    + destruct (Z_lt_le_dec q i); [|nia]. apply (Hd q); [lia|]. exists j. lia.
  - destruct (Z.eqb_spec (n mod i) 0) as [|Hne]; [done|]. apply (IH (i + 1)); [lia|done|done|].
    intros j Hj Hdiv. destruct (Z.eq_dec j i) as [->|]; [|apply (Hd j); [lia|done]].
    apply Hne. by apply Z.mod_divide; [lia|].
Qed.

Lemma prime_test_spec n : prime_test n = true -> prime n.
Proof.
  unfold prime_test. intros [H1 H2]%andb_true_iff. apply Z.ltb_lt in H1.
  eapply no_divisor_loop_spec; [|done|exact H2|]; [lia|]. intros; lia.
Qed.

(** What the probing relies on, for every row but the last: see
    [next_address_overflow] for that one. *)
Record size_ok (ts : table_size) : Prop := {
  sz_prime : prime (size ts);
  sz_small : size ts < 2 ^ 31;
  sz_rehash : rehash ts = size ts - 2;
  sz_magic : size_magic ts = REMAINDER_MAGIC (size ts);
  sz_rehash_magic : rehash_magic ts = REMAINDER_MAGIC (rehash ts);
  sz_max : 0 < max_entries ts < size ts - 2;
}.

Definition hash_size_check (e : hash_size) : bool :=
  prime_test (hs_size e) && (hs_size e <? 2 ^ 31) && (hs_rehash e =? hs_size e - 2)
  && (0 <? hs_max_entries e) && (hs_max_entries e <? hs_size e - 2).

Lemma hash_sizes_check : forallb hash_size_check (take 27 hash_sizes) = true.
Proof. vm_compute. reflexivity. Qed.

Lemma set_size_index_ok i :
  0 <= i < 27 -> exists ts, set_size_index i = Some ts /\ size_ok ts /\ size_index ts = i
    /\ exists e, hash_sizes !! Z.to_nat i = Some e /\ max_entries ts = hs_max_entries e
                 /\ size ts = hs_size e.
Proof.
  intros Hi. unfold set_size_index.
  destruct (lookup_lt_is_Some_2 hash_sizes (Z.to_nat i)) as [e He]; [cbn; lia|]. rewrite He.
  cbn [mbind option_bind]. eexists. split; [done|]. split; [|eauto].
  assert (Hin : e ∈ take 27 hash_sizes).
  { apply list_elem_of_lookup. exists (Z.to_nat i). rewrite lookup_take_lt by lia. done. }
  pose proof hash_sizes_check as Hc. rewrite forallb_forall in Hc.
  apply list_elem_of_In in Hin. specialize (Hc e Hin).
  unfold hash_size_check in Hc. zbool. constructor; cbn; try done; try lia.
  by apply prime_test_spec.
Qed.

(** Row [i] holds up to [2^(4+i)] entries. *)
Lemma hash_sizes_max i e : hash_sizes !! i = Some e -> hs_max_entries e = 2 ^ (4 + Z.of_nat i).
Proof.
  intros He. assert (H : forallb (fun p => hs_max_entries (snd p) =? 2 ^ (4 + Z.of_nat (fst p)))
    (zip (seq 0 28) hash_sizes) = true) by reflexivity.
  rewrite forallb_forall in H. specialize (H (i, e)). cbn [fst snd] in H.
  apply Z.eqb_eq, H, list_elem_of_In, list_elem_of_lookup. exists i.
  rewrite lookup_zip_with, He, lookup_seq_lt; [done|]. apply lookup_lt_Some in He. exact He.
Qed.

Lemma set_size_index_max i ts : 0 <= i -> set_size_index i = Some ts -> max_entries ts = 2 ^ (4 + i).
Proof.
  intros Hi E. unfold set_size_index in E.
  destruct (hash_sizes !! Z.to_nat i) as [row|] eqn:Er; [|done]. cbn in E. simplify_eq. cbn.
  rewrite (hash_sizes_max _ _ Er). f_equal. lia.
Qed.

(** The row sizes are strictly increasing. *)
Lemma set_size_index_lt i j ts ts' :
  0 <= i < j -> set_size_index i = Some ts -> set_size_index j = Some ts' -> size ts < size ts'.
Proof.
  intros Hij Ei Ej. unfold set_size_index in *.
  destruct (hash_sizes !! Z.to_nat i) as [r|] eqn:Er; [|done].
  destruct (hash_sizes !! Z.to_nat j) as [r'|] eqn:Er'; [|done]. cbn in Ei, Ej. simplify_eq. cbn.
  assert (H : forallb (fun p => forallb (fun q => negb (fst p <? fst q)%nat
                || (hs_size (snd p) <? hs_size (snd q))) (zip (seq 0 28) hash_sizes))
              (zip (seq 0 28) hash_sizes) = true) by (vm_compute; reflexivity).
  assert (Hin : forall n e, hash_sizes !! n = Some e -> In (n, e) (zip (seq 0 28) hash_sizes)).
  { intros n e Hn. apply list_elem_of_In, list_elem_of_lookup. exists n.
    rewrite lookup_zip_with, Hn, lookup_seq_lt; [done|]. apply lookup_lt_Some in Hn. exact Hn. }
  rewrite forallb_forall in H. specialize (H _ (Hin _ _ Er)). rewrite forallb_forall in H.
  specialize (H _ (Hin _ _ Er')). cbn [fst snd] in H. apply orb_true_iff in H as [H|H].
  - apply negb_true_iff, Nat.ltb_ge in H. lia.
  - by apply Z.ltb_lt.
Qed.

(** A row holds more entries than there are slots in the rows before it. *)
Lemma set_size_index_next i j ts ts' :
  0 <= i < j -> set_size_index i = Some ts -> set_size_index j = Some ts' -> size ts < max_entries ts'.
Proof.
  intros Hij Ei Ej. rewrite (set_size_index_max j ts') by (lia || done). unfold set_size_index in *.
  destruct (hash_sizes !! Z.to_nat i) as [r|] eqn:Er; [|done].
  destruct (hash_sizes !! Z.to_nat j) as [r'|] eqn:Er'; [|done]. cbn in Ei. simplify_eq. cbn [size].
  assert (H : forallb (fun p => hs_size (snd p) <? 2 ^ (5 + Z.of_nat (fst p)))
              (zip (seq 0 28) hash_sizes) = true) by (vm_compute; reflexivity).
  rewrite forallb_forall in H. specialize (H (Z.to_nat i, r)). cbn [fst snd] in H.
  pose proof (pow2_le (5 + i) (4 + j) ltac:(lia)). rewrite Z2Nat.id, Z.ltb_lt in H by lia.
  assert (hs_size r < 2 ^ (5 + i)); [|lia]. apply H, list_elem_of_In, list_elem_of_lookup.
  exists (Z.to_nat i). rewrite lookup_zip_with, Er, lookup_seq_lt; [done|].
  apply lookup_lt_Some in Er. exact Er.
Qed.

(** ** The probe sequence *)

(** The [i]-th address visited for a hash. *)
Definition probe_addr (ts : table_size) (hash i : Z) : Z :=
  (hash mod size ts + i * (1 + hash mod rehash ts)) mod size ts.

Section probe_sequence.
Context (ts : table_size) (Hts : size_ok ts).

Lemma size_gt : 3 <= size ts.
Proof using Hts.
  pose proof (sz_max _ Hts). lia.
Qed.

Lemma start_address_mod hash : 0 <= hash < 2 ^ 32 -> start_address ts hash = hash mod size ts.
Proof using Hts.
  intros Hh. pose proof size_gt. pose proof (sz_small _ Hts).
  unfold start_address. rewrite (sz_magic _ Hts). apply fast_urem32_mod; lia.
Qed.

Lemma double_hash_mod hash : 0 <= hash < 2 ^ 32 ->
  double_hash ts hash = 1 + hash mod rehash ts /\ 1 <= 1 + hash mod rehash ts < size ts.
Proof using Hts.
  intros Hh. pose proof size_gt. pose proof (sz_small _ Hts). pose proof (sz_rehash _ Hts).
  unfold double_hash. rewrite (sz_rehash_magic _ Hts), fast_urem32_mod by lia.
  pose proof (Z.mod_pos_bound hash (rehash ts) ltac:(lia)). rewrite u32_small by lia. lia.
Qed.

Lemma probe_addr_range hash i : 0 <= probe_addr ts hash i < size ts.
Proof using Hts. apply Z.mod_pos_bound. pose proof size_gt. lia. Qed.

Lemma probe_addr_0 hash : probe_addr ts hash 0 = hash mod size ts.
Proof using Hts.
  unfold probe_addr. pose proof size_gt. rewrite Z.mul_0_l, Z.add_0_r. apply Z.mod_mod. lia.
Qed.

Lemma next_address_probe hash i : 0 <= hash < 2 ^ 32 ->
  next_address (size ts) (double_hash ts hash) (probe_addr ts hash i) = probe_addr ts hash (i + 1).
Proof using Hts.
  intros Hh. destruct (double_hash_mod hash Hh) as [-> Hd]. pose proof (sz_small _ Hts).
  pose proof (probe_addr_range hash i) as Ha. unfold next_address. rewrite u32_small by lia.
  assert (E : probe_addr ts hash (i + 1) = (probe_addr ts hash i + (1 + hash mod rehash ts)) mod size ts).
  { unfold probe_addr. symmetry. rewrite Zplus_mod_idemp_l. f_equal. ring. }
  rewrite E. symmetry. destruct (Z.geb_spec (probe_addr ts hash i + (1 + hash mod rehash ts)) (size ts)).
  - symmetry. apply Z.mod_unique_pos with 1; lia.
  - apply Z.mod_small. lia.
Qed.

Lemma double_hash_coprime hash : 0 <= hash < 2 ^ 32 -> rel_prime (1 + hash mod rehash ts) (size ts).
Proof using Hts.
  intros Hh. destruct (double_hash_mod hash Hh) as [_ Hd].
  destruct (sz_prime _ Hts) as [_ Hp]. apply Hp. lia.
Qed.

(** The first [size] addresses are all different, *)
Lemma probe_addr_inj hash i j : 0 <= hash < 2 ^ 32 ->
  0 <= i < size ts -> 0 <= j < size ts -> probe_addr ts hash i = probe_addr ts hash j -> i = j.
Proof using Hts.
  intros Hh Hi Hj E. unfold probe_addr in E. pose proof size_gt.
  assert (Hd : (size ts | (i - j) * (1 + hash mod rehash ts))).
  { apply Z.mod_divide; [lia|].
    replace ((i - j) * (1 + hash mod rehash ts))
      with ((hash mod size ts + i * (1 + hash mod rehash ts))
            - (hash mod size ts + j * (1 + hash mod rehash ts))) by lia.
    rewrite Zminus_mod, E, Z.sub_diag. apply Z.mod_0_l. lia. }
  rewrite Z.mul_comm in Hd. apply Gauss in Hd; [|by apply rel_prime_sym, double_hash_coprime].
  destruct Hd as [q Hq]. assert (q = 0) by nia. lia.
Qed.

(** and they are all the addresses of the table. *)
Lemma probe_addr_surj hash a : 0 <= hash < 2 ^ 32 -> 0 <= a < size ts ->
  exists i, 0 <= i < size ts /\ probe_addr ts hash i = a.
Proof using Hts.
  intros Hh Ha. pose proof size_gt. set (d := 1 + hash mod rehash ts). set (s := hash mod size ts).
  destruct (rel_prime_bezout _ _ (double_hash_coprime hash Hh)) as [u v Huv].
  exists (((a - s) * u) mod size ts). split; [apply Z.mod_pos_bound; lia|].
  unfold probe_addr. fold d s. fold d in Huv.
  rewrite <- Zplus_mod_idemp_r, Zmult_mod_idemp_l, Zplus_mod_idemp_r.
  assert (Hm : (a - s) * (u * d + v * size ts) = a - s) by (rewrite Huv; lia).
  replace (s + (a - s) * u * d) with (a + (- (a - s) * v) * size ts) by lia.
  rewrite Z.mod_add by lia. apply Z.mod_small. lia.
Qed.

Lemma probe_addr_return hash i : 0 <= hash < 2 ^ 32 -> 0 < i <= size ts ->
  probe_addr ts hash i = start_address ts hash <-> i = size ts.
Proof using Hts.
  intros Hh Hi. pose proof size_gt. rewrite start_address_mod, <- probe_addr_0 by done. split.
  - intros E. destruct (Z.eq_dec i (size ts)); [done|exfalso].
    assert (i = 0); [|lia]. apply (probe_addr_inj hash); try done; lia.
  - intros ->. unfold probe_addr. rewrite Z.mul_comm, Z.mod_add by lia. f_equal. lia.
Qed.

(** The rule for the loop: an invariant indexed by the number of slots visited. *)
Lemma probe_rule {E A R} (forever : bool) (table : list E) hash (body : A -> Z -> E -> A + R) acc
    (P : Z -> A -> Prop) (Q : Z -> R -> Prop) :
  0 <= hash < 2 ^ 32 -> Z.of_nat (length table) = size ts -> P 0 acc ->
  (forall i acc e, 0 <= i < size ts -> table !! Z.to_nat (probe_addr ts hash i) = Some e -> P i acc ->
     match body acc (probe_addr ts hash i) e with
     | inl acc' => P (i + 1) acc'
     | inr r => Q i r
     end) ->
  (forever = true -> forall acc, ~ P (size ts) acc) ->
  exists res, probe forever ts table hash body acc = Some res
    /\ match res with
       | inl acc' => P (size ts) acc'
       | inr r => exists i, 0 <= i < size ts /\ Q i r
       end.
Proof using Hts.
  intros Hh Hlen H0 Hstep Hforever. unfold probe. pose proof size_gt. cbv zeta.
  assert (Hgen : forall fuel i acc, 0 <= i < size ts -> size ts - i < Z.of_nat fuel -> P i acc ->
    exists res, probe_loop forever fuel table (size ts) (double_hash ts hash) (start_address ts hash)
                  (probe_addr ts hash i) body acc = Some res
      /\ match res with
         | inl acc' => P (size ts) acc'
         | inr r => exists i, 0 <= i < size ts /\ Q i r
         end).
  { induction fuel as [|fuel IH]; intros i acc' Hi Hf HP; [lia|]. cbn [probe_loop].
    destruct (lookup_lt_is_Some_2 table (Z.to_nat (probe_addr ts hash i))) as [e He].
    { pose proof (probe_addr_range hash i). lia. }
    rewrite He. cbn [mbind option_bind]. specialize (Hstep i acc' e Hi He HP).
    destruct (body acc' _ e) as [acc''|r]; [|eexists; split; [done|]; by exists i].
    rewrite next_address_probe by done.
    destruct (Z.eq_dec (i + 1) (size ts)) as [Ei|Ei].
    - destruct (Z.eqb_spec (probe_addr ts hash (i + 1)) (start_address ts hash)) as [_|Hne].
      + destruct forever; cbn [negb andb].
        * destruct (Hforever eq_refl acc''). rewrite <- Ei. done.
        * eexists. split; [done|]. by rewrite <- Ei.
      + destruct Hne. apply probe_addr_return; [done|lia|done].
    - destruct (Z.eqb_spec (probe_addr ts hash (i + 1)) (start_address ts hash)) as [Heq|_].
      + apply probe_addr_return in Heq; [lia|done|lia].
      + rewrite andb_false_r. apply IH; [lia|lia|done]. }
  specialize (Hgen (S (length table)) 0 acc). rewrite probe_addr_0, <- start_address_mod in Hgen by done.
  apply Hgen; [lia|lia|done].
Qed.
End probe_sequence.

(** ** Entries *)

(** What an entry type provides: a slot is free, deleted or present, and a present
    slot has a hash and a key. *)
Class Slot (E K : Type) := {
  slot_present : E -> bool;
  slot_deleted : E -> bool;
  slot_hash : E -> Z;
  slot_key : E -> K;
}.

(** The functions a table is created with: keys that compare equal have equal
    hashes, and comparison is an equivalence on the keys in use. *)
Class KeyOps (K : Type) (key_hash : K -> Z) (key_equals : K -> K -> bool) : Prop := {
  ko_hash_range : forall k, 0 <= key_hash k < 2 ^ 32;
  ko_hash_equal : forall a b, key_equals a b = true -> key_hash a = key_hash b;
  ko_refl : forall a, key_equals a a = true;
  ko_sym : forall a b, key_equals a b = key_equals b a;
  ko_trans : forall a b c, key_equals a b = true -> key_equals b c = true -> key_equals a c = true;
}.

(** The number of slots that satisfy a predicate. *)
Fixpoint slot_count {E} (p : E -> bool) (t : list E) : Z :=
  match t with
  | [] => 0
  | e :: t => (if p e then 1 else 0) + slot_count p t
  end.

Lemma slot_count_range {E} (p : E -> bool) t : 0 <= slot_count p t <= Z.of_nat (length t).
Proof. induction t as [|e t IH]; cbn [slot_count length]; [lia|]. destruct (p e); lia. Qed.

Lemma slot_count_insert {E} (p : E -> bool) t i e e' :
  t !! i = Some e ->
  slot_count p (<[i := e']> t) = slot_count p t - (if p e then 1 else 0) + (if p e' then 1 else 0).
Proof.
  revert i. induction t as [|x t IH]; intros [|i] H; cbn in *; simplify_eq; [lia|].
  rewrite IH by done. lia.
Qed.

Lemma slot_count_all {E} (p : E -> bool) t :
  (forall i e, t !! i = Some e -> p e = true) -> slot_count p t = Z.of_nat (length t).
Proof.
  induction t as [|x t IH]; intros H; [done|]. cbn [slot_count length].
  rewrite (H 0%nat x eq_refl), IH; [lia|]. intros i e He. by apply (H (S i)).
Qed.

Lemma slot_count_zero {E} (p : E -> bool) t :
  slot_count p t = 0 <-> forall i e, t !! i = Some e -> p e = false.
Proof.
  induction t as [|x t IH]; cbn [slot_count]; [done|].
  pose proof (slot_count_range p t). split.
  - destruct (p x) eqn:Ex; [lia|]. rewrite Z.add_0_l, IH. intros H0 [|i] e He.
    + cbn in He. congruence.
    + by apply (H0 i).
  - intros Hall. rewrite (Hall 0%nat x eq_refl), Z.add_0_l. apply IH. intros i e He.
    by apply (Hall (S i)).
Qed.

Lemma slot_count_ext {E} (p q : E -> bool) t :
  (forall e, e ∈ t -> p e = q e) -> slot_count p t = slot_count q t.
Proof.
  induction t as [|x t IH]; intros H; [done|]. cbn [slot_count].
  rewrite (H x), IH by set_solver. done.
Qed.

Section table.
Context {E K : Type} `{Slot E K}.
Context (key_hash : K -> Z) (key_equals : K -> K -> bool) `{!KeyOps K key_hash key_equals}.

Definition slot_free (e : E) : bool := negb (slot_present e) && negb (slot_deleted e).

(** The entry at an address. *)
Definition slot_at (t : list E) (a : Z) (e : E) : Prop := 0 <= a /\ t !! Z.to_nat a = Some e.

(** [matches k e]: the slot holds the key. *)
Definition matches (k : K) (e : E) : Prop := slot_present e = true /\ key_equals k (slot_key e) = true.

(** The probing invariant: a present entry is found on its probe sequence before
    any free slot, and no key is stored twice. *)
Record table_ok (ts : table_size) (t : list E) : Prop := {
  to_length : Z.of_nat (length t) = size ts;
  to_hash : forall a e, slot_at t a e -> slot_present e = true -> slot_hash e = key_hash (slot_key e);
  to_path : forall a e, slot_at t a e -> slot_present e = true ->
    exists i, 0 <= i < size ts /\ probe_addr ts (slot_hash e) i = a
      /\ forall j e', 0 <= j < i -> slot_at t (probe_addr ts (slot_hash e) j) e' -> slot_free e' = false;
  to_unique : forall a a' e e', slot_at t a e -> slot_at t a' e' -> slot_present e = true ->
    matches (slot_key e) e' -> a = a';
}.

Context (ts : table_size) (Hts : size_ok ts).

Lemma slot_at_fun t a e e' : slot_at t a e -> slot_at t a e' -> e = e'.
Proof. unfold slot_at. intros [_ H1] [_ H2]. congruence. Qed.

Lemma slot_at_range t a e : Z.of_nat (length t) = size ts -> slot_at t a e -> 0 <= a < size ts.
Proof. intros Hl [H0 Ha]. apply lookup_lt_Some in Ha. lia. Qed.

Lemma slot_at_probe t hash i e :
  Z.of_nat (length t) = size ts ->
  t !! Z.to_nat (probe_addr ts hash i) = Some e <-> slot_at t (probe_addr ts hash i) e.
Proof using Hts.
  intros Hl. unfold slot_at. pose proof (probe_addr_range ts Hts hash i). intuition lia.
Qed.

Lemma slot_at_insert t a b e e' :
  0 <= b < Z.of_nat (length t) ->
  slot_at (<[Z.to_nat b := e']> t) a e <-> (a = b /\ e = e') \/ (a <> b /\ slot_at t a e).
Proof.
  intros Hb. unfold slot_at. destruct (Z.eq_dec a b) as [->|Hne].
  - rewrite list_lookup_insert_eq by lia. split; [|intuition congruence].
    intros [_ ?]. left. split; congruence.
  - split.
    + intros [Ha Hl]. right. rewrite list_lookup_insert_ne in Hl by lia. done.
    + intros [[? _]|[_ [Ha Hl]]]; [done|]. split; [done|]. rewrite list_lookup_insert_ne by lia. done.
Qed.

Lemma slot_at_elem t e : e ∈ t <-> exists a, slot_at t a e.
Proof.
  rewrite list_elem_of_lookup. split.
  - intros [i Hi]. exists (Z.of_nat i). split; [lia|]. by rewrite Nat2Z.id.
  - intros [a [_ Ha]]. eauto.
Qed.

(** *** Searching *)

(** If no slot of the probe sequence up to its end, or up to a free slot, holds
    the key, then no slot of the table does. *)
Lemma not_on_path t k n :
  table_ok ts t -> 0 <= n <= size ts ->
  (forall j e, 0 <= j < n -> slot_at t (probe_addr ts (key_hash k) j) e -> ~ matches k e) ->
  (n = size ts \/ exists e, slot_at t (probe_addr ts (key_hash k) n) e /\ slot_free e = true) ->
  forall a e, slot_at t a e -> ~ matches k e.
Proof using Hts KeyOps0.
  intros Hok Hn Hno Hend a e Ha [Hp Hm].
  assert (Hh : slot_hash e = key_hash k).
  { rewrite (to_hash _ _ Hok a e Ha Hp). symmetry. by apply (ko_hash_equal (key_equals := key_equals)). }
  destruct (to_path _ _ Hok a e Ha Hp) as (i & Hi & Hpi & Hbefore). rewrite Hh in *.
  destruct (Z_lt_le_dec i n) as [Hin|Hni].
  - apply (Hno i e); [lia|by rewrite Hpi|done].
  - destruct Hend as [->|(e' & He' & Hf)]; [lia|].
    destruct (Z.eq_dec i n) as [->|].
    + rewrite Hpi in He'. assert (e' = e) as -> by (by eapply slot_at_fun).
      unfold slot_free in Hf. rewrite Hp in Hf. done.
    + rewrite (Hbefore n e') in Hf; [done|lia|done].
Qed.

Definition search_body (hash : Z) (key : K) (acc : unit) (a : Z) (entry : E) : unit + option Z :=
  if negb (slot_present entry) && negb (slot_deleted entry) then inr None
  else if slot_present entry && (slot_hash entry =? hash) && key_equals key (slot_key entry)
  then inr (Some a)
  else inl acc.

Definition probe_search (t : list E) (hash : Z) (key : K) : option (option Z) :=
  r ← probe false ts t hash (search_body hash key) tt;
  Some (match r with inl _ => None | inr a => a end).

Lemma probe_search_spec t k :
  table_ok ts t ->
  exists r, probe_search t (key_hash k) k = Some r
    /\ match r with
       | Some a => exists e, slot_at t a e /\ matches k e
       | None => forall a e, slot_at t a e -> ~ matches k e
       end.
Proof using Hts KeyOps0.
  intros Hok. unfold probe_search. set (h := key_hash k).
  assert (Hh : 0 <= h < 2 ^ 32) by apply ko_hash_range.
  destruct (probe_rule ts Hts false t h (search_body h k) tt
    (fun n _ => forall j e, 0 <= j < n -> slot_at t (probe_addr ts h j) e -> ~ matches k e)
    (fun n r => match r with
       | Some a => exists e, slot_at t a e /\ matches k e
       | None => forall a e, slot_at t a e -> ~ matches k e
       end)) as (res & -> & Hres); [done|apply Hok|intros; lia| |done|].
  - intros i [] e Hi He Hno. apply slot_at_probe in He; [|apply Hok]. unfold search_body.
    fold (slot_free e). destruct (slot_free e) eqn:Ef.
    + apply (not_on_path t k i Hok); [lia|done|]. right. eauto.
    + destruct (slot_present e) eqn:Ep; cbn [andb].
      * destruct (Z.eqb_spec (slot_hash e) h) as [Eh|Eh]; cbn [andb].
        -- destruct (key_equals k (slot_key e)) eqn:Ek; [exists e; split; [done|]; split; done|].
           intros j e' Hj He'. destruct (Z.eq_dec j i) as [->|]; [|apply (Hno j); [lia|done]].
           assert (e' = e) as -> by (by eapply slot_at_fun). intros [_ ?]. congruence.
        -- intros j e' Hj He'. destruct (Z.eq_dec j i) as [->|]; [|apply (Hno j); [lia|done]].
           assert (e' = e) as -> by (by eapply slot_at_fun). intros [_ Hm]. apply Eh.
           rewrite (to_hash _ _ Hok _ _ He Ep). symmetry.
           by apply (ko_hash_equal (key_equals := key_equals)).
      * intros j e' Hj He'. destruct (Z.eq_dec j i) as [->|]; [|apply (Hno j); [lia|done]].
        assert (e' = e) as -> by (by eapply slot_at_fun). intros [? _]. congruence.
  - cbn [mbind option_bind]. eexists. split; [done|]. destruct res as [[]|r].
    + pose proof (size_gt ts Hts). apply (not_on_path t k (size ts) Hok); [lia|done|by left].
    + destruct Hres as (i & _ & Hr). exact Hr.
Qed.

(** *** Searching for the key or a slot to put it in *)

Definition get_body (hash : Z) (key : K) (available_entry : option Z) (a : Z) (entry : E)
    : option Z + (option Z + Z) :=
  let available_entry :=
    if negb (slot_present entry) then
      match available_entry with None => Some a | Some _ => available_entry end
    else available_entry in
  if negb (slot_present entry) && negb (slot_deleted entry) then inr (inl available_entry)
  else if slot_present entry && (slot_hash entry =? hash) && key_equals key (slot_key entry)
  then inr (inr a)
  else inl available_entry.

Definition loop_result {A R} (r : A + (A + R)) : A + R := match r with inl a => inl a | inr r => r end.

(** The available slot of an unsuccessful search: on the probe sequence, not
    present, and with no free slot before it. *)
Definition available (t : list E) (hash : Z) (a : Z) : Prop :=
  exists i e, 0 <= i < size ts /\ a = probe_addr ts hash i /\ slot_at t a e /\ slot_present e = false
    /\ forall j e', 0 <= j < i -> slot_at t (probe_addr ts hash j) e' -> slot_free e' = false.

(** The state of the search after [n] slots. *)
Definition get_inv (t : list E) (k : K) (n : Z) (avail : option Z) : Prop :=
  (forall j e, 0 <= j < n -> slot_at t (probe_addr ts (key_hash k) j) e ->
     ~ matches k e /\ slot_free e = false)
  /\ match avail with
     | Some a => available t (key_hash k) a
     | None => forall j e, 0 <= j < n -> slot_at t (probe_addr ts (key_hash k) j) e ->
                 slot_present e = true
     end.

(** The available slot after looking at one more slot. *)
Lemma get_inv_avail t k n avail e :
  table_ok ts t -> 0 <= n < size ts -> get_inv t k n avail ->
  slot_at t (probe_addr ts (key_hash k) n) e ->
  let avail' := if negb (slot_present e)
                then match avail with None => Some (probe_addr ts (key_hash k) n) | Some _ => avail end
                else avail in
  match avail' with
  | Some a => available t (key_hash k) a
  | None => forall j e, 0 <= j < n + 1 -> slot_at t (probe_addr ts (key_hash k) j) e ->
              slot_present e = true
  end.
Proof using Hts.
  intros Hok Hn [H1 H2] He. cbv zeta. destruct (slot_present e) eqn:Ep; cbn [negb].
  - destruct avail; [done|]. intros j e' Hj He'. destruct (Z.eq_dec j n) as [->|]; [|apply (H2 j); [lia|done]].
    assert (e' = e) as -> by (by eapply slot_at_fun). done.
  - destruct avail; [done|]. exists n, e. split_and!; try done; try lia.
    intros j e' Hj He'. by apply (H1 j).
Qed.

(** The outcome of the search for a key or a slot. *)
Definition get_outcome (t : list E) (k : K) (r : option Z + Z) : Prop :=
  match r with
  | inr a => exists e, slot_at t a e /\ matches k e
  | inl avail => (forall a e, slot_at t a e -> ~ matches k e)
      /\ match avail with
         | Some a => available t (key_hash k) a
         | None => forall a e, slot_at t a e -> slot_present e = true
         end
  end.

Lemma probe_get_spec (body : option Z -> Z -> E -> option Z + (option Z + Z)) t k :
  table_ok ts t ->
  (forall acc a e, e ∈ t -> body acc a e = get_body (key_hash k) k acc a e) ->
  exists r, probe false ts t (key_hash k) body None = Some r
    /\ get_outcome t k (loop_result r).
Proof using Hts KeyOps0.
  intros Hok Hbody. set (h := key_hash k). pose proof (size_gt ts Hts).
  assert (Hh : 0 <= h < 2 ^ 32) by apply ko_hash_range.
  destruct (probe_rule ts Hts false t h body None (get_inv t k) (fun _ r => get_outcome t k r))
    as (res & -> & Hres); [done|apply Hok|split; intros; lia| |done|].
  - intros i acc e Hi He Hinv. rewrite Hbody by (by eapply list_elem_of_lookup_2).
    apply slot_at_probe in He; [|apply Hok].
    pose proof (get_inv_avail t k i acc e Hok Hi Hinv He) as Hav. destruct Hinv as [H1 H2].
    unfold get_body. set (av := if negb (slot_present e) then _ else acc) in *.
    fold (slot_free e). destruct (slot_free e) eqn:Ef.
    + assert (Hp : slot_present e = false) by (unfold slot_free in Ef; by destruct (slot_present e)).
      split.
      * apply (not_on_path t k i Hok); [lia|intros j e' Hj He'; by apply (H1 j)|]. right. eauto.
      * subst av. rewrite Hp in *. cbn [negb] in *. destruct acc; exact Hav.
    + destruct (slot_present e && (slot_hash e =? key_hash k) && key_equals k (slot_key e)) eqn:Em.
      * zbool. exists e. split; [done|]. by split.
      * split; [|exact Hav]. intros j e' Hj He'.
        destruct (Z.eq_dec j i) as [->|]; [|apply (H1 j); [lia|done]].
        assert (e' = e) as -> by (by eapply slot_at_fun). split; [|done]. intros [Hp Hm].
        rewrite Hp, Hm, (to_hash _ _ Hok _ _ He Hp), andb_true_r in Em. cbn in Em.
        apply Z.eqb_neq in Em. apply Em. symmetry. by apply (ko_hash_equal (key_equals := key_equals)).
  - exists res. split; [done|]. destruct res as [avail|r]; [|by destruct Hres as (i & _ & Hr)].
    destruct Hres as [H1 H2]. split.
    + apply (not_on_path t k (size ts) Hok); [lia|intros j e' Hj He'; by apply (H1 j)|by left].
    + destruct avail; [done|]. intros a e Ha.
      destruct (probe_addr_surj ts Hts h a Hh) as (i & Hi & <-); [by eapply slot_at_range; [apply Hok|]|].
      by apply (H2 i).
Qed.

(** *** Changing a slot *)

Lemma table_ok_place t k a e' :
  table_ok ts t -> (forall b e, slot_at t b e -> ~ matches k e) -> available t (key_hash k) a ->
  slot_present e' = true -> slot_key e' = k -> slot_hash e' = key_hash k ->
  table_ok ts (<[Z.to_nat a := e']> t).
Proof using Hts KeyOps0.
  intros [Hl Hh Hp Hu] Hno (i & e & Hi & -> & Ha & Hnp & Hbefore) Hp' Hk' Hh'.
  pose proof (slot_at_range t _ e Hl Ha) as Hr.
  assert (Hat : forall b x, slot_at (<[Z.to_nat (probe_addr ts (key_hash k) i) := e']> t) b x <->
    (b = probe_addr ts (key_hash k) i /\ x = e') \/ (b <> probe_addr ts (key_hash k) i /\ slot_at t b x))
    by (intros; apply slot_at_insert; lia).
  assert (Hfree : forall b x, slot_at (<[Z.to_nat (probe_addr ts (key_hash k) i) := e']> t) b x ->
    (forall y, slot_at t b y -> slot_free y = false) -> slot_free x = false).
  { intros b x [[-> ->]|[_ Hx]]%Hat Hy; [unfold slot_free; by rewrite Hp'|by apply Hy]. }
  constructor.
  - by rewrite length_insert.
  - intros b x [[-> ->]|[_ Hx]]%Hat Hxp; [congruence|by eapply Hh].
  - intros b x [[-> ->]|[Hne Hx]]%Hat Hxp.
    + exists i. rewrite Hh'. split_and!; [lia..|done|]. intros j y Hj Hy.
      apply (Hfree _ _ Hy). intros z Hz. by apply (Hbefore j).
    + destruct (Hp b x Hx Hxp) as (n & Hn & Hpn & Hb). exists n. split_and!; [lia..|done|].
      intros j y Hj Hy. apply (Hfree _ _ Hy). intros z Hz. by apply (Hb j).
  - intros b b' x x' [[-> ->]|[Hne Hx]]%Hat [[-> ->]|[Hne' Hx']]%Hat Hxp Hm; [done| | |by eapply Hu].
    + exfalso. rewrite Hk' in Hm. by apply (Hno b' x').
    + exfalso. apply (Hno b x Hx). destruct Hm as [_ Hm]. rewrite Hk' in Hm. split; [done|].
      by rewrite (ko_sym (key_hash := key_hash)).
Qed.

Lemma table_ok_replace t a e e' :
  table_ok ts t -> slot_at t a e -> slot_present e = true ->
  slot_present e' = true -> slot_hash e' = slot_hash e ->
  key_equals (slot_key e) (slot_key e') = true ->
  table_ok ts (<[Z.to_nat a := e']> t).
Proof using Hts KeyOps0.
  intros [Hl Hh Hp Hu] Ha Hpe Hp' Hh' Hk'. pose proof (slot_at_range t a e Hl Ha) as Hr.
  assert (Hat : forall b x, slot_at (<[Z.to_nat a := e']> t) b x <->
    (b = a /\ x = e') \/ (b <> a /\ slot_at t b x)) by (intros; apply slot_at_insert; lia).
  assert (Hfree : forall b x, slot_at (<[Z.to_nat a := e']> t) b x ->
    (forall y, slot_at t b y -> slot_free y = false) -> slot_free x = false).
  { intros b x [[-> ->]|[_ Hx]]%Hat Hy; [unfold slot_free; by rewrite Hp'|by apply Hy]. }
  assert (Hsame : forall x, matches (slot_key e') x <-> matches (slot_key e) x).
  { intros x. unfold matches. split; intros [? Hm]; (split; [done|]).
    - by eapply (ko_trans (key_hash := key_hash)).
    - eapply (ko_trans (key_hash := key_hash)); [|done]. by rewrite (ko_sym (key_hash := key_hash)). }
  constructor.
  - by rewrite length_insert.
  - intros b x [[-> ->]|[_ Hx]]%Hat Hxp; [|by eapply Hh].
    rewrite Hh', (Hh a e) by done. by apply (ko_hash_equal (key_equals := key_equals)).
  - intros b x [[-> ->]|[Hne Hx]]%Hat Hxp; [rewrite Hh'; destruct (Hp a e Ha Hpe) as (n & Hn & Hpn & Hb)
      |destruct (Hp b x Hx Hxp) as (n & Hn & Hpn & Hb)];
      (exists n; split_and!; [lia..|done|]; intros j y Hj Hy; apply (Hfree _ _ Hy); intros z Hz;
       by apply (Hb j)).
  - intros b b' x x' [[-> ->]|[Hne Hx]]%Hat [[-> ->]|[Hne' Hx']]%Hat Hxp Hm; [done| | |by eapply Hu].
    + symmetry. apply (Hu b' a x' e); try done; [by destruct Hm|]. apply Hsame in Hm as [_ Hm].
      split; [done|]. by rewrite (ko_sym (key_hash := key_hash)).
    + apply (Hu b a x e); try done. destruct Hm as [_ Hm]. split; [done|].
      eapply (ko_trans (key_hash := key_hash)); [done|]. by rewrite (ko_sym (key_hash := key_hash)).
Qed.

Lemma table_ok_delete t a e e' :
  table_ok ts t -> slot_at t a e -> slot_present e' = false -> slot_deleted e' = true ->
  table_ok ts (<[Z.to_nat a := e']> t).
Proof using Hts.
  intros [Hl Hh Hp Hu] Ha Hp' Hd'. pose proof (slot_at_range t a e Hl Ha) as Hr.
  assert (Hat : forall b x, slot_at (<[Z.to_nat a := e']> t) b x <->
    (b = a /\ x = e') \/ (b <> a /\ slot_at t b x)) by (intros; apply slot_at_insert; lia).
  constructor.
  - by rewrite length_insert.
  - intros b x [[-> ->]|[_ Hx]]%Hat Hxp; [congruence|by eapply Hh].
  - intros b x [[-> ->]|[Hne Hx]]%Hat Hxp; [congruence|].
    destruct (Hp b x Hx Hxp) as (n & Hn & Hpn & Hb). exists n. split_and!; [lia..|done|].
    intros j y Hj [[_ ->]|[_ Hy]]%Hat; [unfold slot_free; by rewrite Hd', andb_false_r|by apply (Hb j)].
  - intros b b' x x' [[-> ->]|[Hne Hx]]%Hat [[-> ->]|[Hne' Hx']]%Hat Hxp Hm; try done;
      try congruence; [|by eapply Hu]. destruct Hm; congruence.
Qed.

(** A table without present slots is valid. *)
Lemma table_ok_empty t :
  Z.of_nat (length t) = size ts -> (forall e, e ∈ t -> slot_present e = false) -> table_ok ts t.
Proof using Hts.
  intros Hl He. assert (Hat : forall a e, slot_at t a e -> slot_present e = false)
    by (intros a e Ha; apply He, slot_at_elem; eauto).
  constructor; [done| | |]; [intros a e Ha|intros a e Ha|intros a a' e e' Ha _];
    rewrite (Hat _ _ Ha); done.
Qed.

(** *** The first slot that is not present: insertion into a fresh table *)

Definition free_body (stop : E -> bool) (acc : unit) (a : Z) (entry : E) : unit + Z :=
  if stop entry then inr a else inl acc.

(** A probe sequence without a slot that is not present means a full table. *)
Lemma path_full_count t hash :
  Z.of_nat (length t) = size ts -> 0 <= hash < 2 ^ 32 ->
  (forall j e, 0 <= j < size ts -> slot_at t (probe_addr ts hash j) e -> slot_present e = true) ->
  slot_count slot_present t = size ts.
Proof using Hts.
  intros Hl Hh Hall. rewrite <- Hl. apply slot_count_all. intros i e He.
  destruct (probe_addr_surj ts Hts hash (Z.of_nat i) Hh) as (j & Hj & Ej).
  { apply lookup_lt_Some in He. lia. }
  apply (Hall j); [done|]. rewrite Ej. split; [lia|]. by rewrite Nat2Z.id.
Qed.

Lemma probe_free_spec (stop : E -> bool) t hash :
  Z.of_nat (length t) = size ts -> 0 <= hash < 2 ^ 32 ->
  (forall e, e ∈ t -> stop e = negb (slot_present e)) ->
  slot_count slot_present t < size ts ->
  exists a, probe true ts t hash (free_body stop) tt = Some (inr a) /\ available t hash a.
Proof using Hts.
  intros Hl Hh Hstop Hcount.
  assert (Hin : forall j e, slot_at t (probe_addr ts hash j) e -> e ∈ t)
    by (intros j e He; apply slot_at_elem; eauto).
  destruct (probe_rule ts Hts true t hash (free_body stop) tt
    (fun n _ => forall j e, 0 <= j < n -> slot_at t (probe_addr ts hash j) e -> slot_present e = true)
    (fun n a => available t hash a)) as (res & Hp & Hres); [done|done|intros; lia| | |].
  - intros i [] e Hi He Hall. apply slot_at_probe in He; [|done]. unfold free_body.
    rewrite Hstop by eauto. destruct (slot_present e) eqn:Ep; cbn [negb].
    + intros j e' Hj He'. destruct (Z.eq_dec j i) as [->|]; [|apply (Hall j); [lia|done]].
      assert (e' = e) as -> by (by eapply slot_at_fun). done.
    + exists i, e. split_and!; try done; try lia. intros j e' Hj He'. unfold slot_free.
      by rewrite (Hall j e').
  - intros _ _ Hall. rewrite (path_full_count t hash Hl Hh Hall) in Hcount. lia.
  - destruct res as [[]|a].
    + rewrite (path_full_count t hash Hl Hh Hres) in Hcount. lia.
    + destruct Hres as (i & _ & Ha). eauto.
Qed.
End table.

(** ** Iteration *)

Section iteration.
Context {E K : Type} `{Slot E K}.

(** [for (; entry != table + size; entry++) if (present) return entry;] from the
    suffix [l] of the table, whose first address is [i]. *)
Fixpoint next_scan (l : list E) (i : Z) : option Z :=
  match l with
  | [] => None
  | e :: l => if slot_present e then Some i else next_scan l (i + 1)
  end.

(** [next_entry(table, entry)], [None] being the null pointer. *)
Definition next_entry (t : list E) (entry : option Z) : option Z :=
  let i := match entry with None => 0 | Some i => i + 1 end in
  next_scan (drop (Z.to_nat i) t) i.

(** The [foreach] macros: the addresses and entries the body is run on. *)
Fixpoint foreach_from (fuel : nat) (t : list E) (entry : option Z) : option (list (Z * E)) :=
  match fuel with
  | O => None
  | S fuel =>
      match entry with
      | None => Some []
      | Some i =>
          e ← t !! Z.to_nat i;
          rest ← foreach_from fuel t (next_entry t (Some i));
          Some ((i, e) :: rest)
      end
  end.
Definition foreach (t : list E) : option (list (Z * E)) :=
  foreach_from (S (length t)) t (next_entry t None).

(** The present entries of a suffix with their addresses. *)
Fixpoint present_from (l : list E) (i : Z) : list (Z * E) :=
  match l with
  | [] => []
  | e :: l => if slot_present e then (i, e) :: present_from l (i + 1) else present_from l (i + 1)
  end.

Lemma next_scan_spec l i :
  match next_scan l i with
  | None => present_from l i = []
  | Some k => exists n e, k = i + Z.of_nat n /\ l !! n = Some e
      /\ present_from l i = (k, e) :: present_from (drop (S n) l) (k + 1)
  end.
Proof.
  revert i. induction l as [|e l IH]; intros i; [done|]. cbn [next_scan present_from].
  destruct (slot_present e).
  - exists 0%nat, e. cbn. rewrite drop_0. split_and!; try done. lia.
  - specialize (IH (i + 1)). destruct (next_scan l (i + 1)) as [k|]; [|done].
    destruct IH as (n & e' & -> & Hn & ->). exists (S n), e'. split_and!; try done; try lia.
Qed.

Lemma foreach_from_spec t fuel i :
  0 <= i <= Z.of_nat (length t) -> Z.of_nat (length t) - i < Z.of_nat fuel ->
  foreach_from fuel t (next_scan (drop (Z.to_nat i) t) i)
  = Some (present_from (drop (Z.to_nat i) t) i).
Proof.
  revert i. induction fuel as [|fuel IH]; intros i Hi Hf; [lia|]. cbn [foreach_from].
  pose proof (next_scan_spec (drop (Z.to_nat i) t) i) as Hs.
  destruct (next_scan (drop (Z.to_nat i) t) i) as [k|]; [|by rewrite Hs].
  destruct Hs as (n & e & -> & Hn & ->). rewrite lookup_drop in Hn.
  replace (Z.to_nat (i + Z.of_nat n)) with (Z.to_nat i + n)%nat by lia. rewrite Hn.
  cbn [mbind option_bind]. pose proof (lookup_lt_Some _ _ _ Hn). unfold next_entry.
  rewrite IH by lia. cbn [mbind option_bind].
  replace (Z.to_nat (i + Z.of_nat n + 1)) with (Z.to_nat i + S n)%nat by lia. by rewrite drop_drop.
Qed.

Lemma foreach_spec t : foreach t = Some (present_from t 0).
Proof. apply (foreach_from_spec t (S (length t)) 0); lia. Qed.

Lemma present_from_entries l i :
  map snd (present_from l i) = filter (fun e => slot_present e = true) l.
Proof.
  revert i. induction l as [|e l IH]; intros i; [done|]. cbn [present_from].
  destruct (slot_present e) eqn:Ep; [rewrite filter_cons_True by done|rewrite filter_cons_False by congruence];
    cbn [map snd]; by rewrite IH.
Qed.

Lemma slot_count_filter t : slot_count slot_present t = Z.of_nat (length (filter (fun e => slot_present e = true) t)).
Proof.
  induction t as [|e t IH]; [done|]. cbn [slot_count].
  destruct (slot_present e) eqn:Ep; [rewrite filter_cons_True by done|rewrite filter_cons_False by congruence];
    cbn [length]; lia.
Qed.
End iteration.

(** ** Rebuilding a table *)

(** Entries with different keys, in a list. *)
Definition distinct_keys {E K} `{Slot E K} (key_equals : K -> K -> bool) (l : list E) : Prop :=
  ForallOrdPairs (fun e e' => key_equals (slot_key e) (slot_key e') = false) l.

(** Put the entries of [l] into [t], one after the other. *)
Fixpoint put_all {E} (put : list E -> E -> option (list E)) (t : list E) (l : list E) : option (list E) :=
  match l with
  | [] => Some t
  | e :: l => t ← put t e; put_all put t l
  end.

Section rebuild.
Context {E K : Type} `{Slot E K}.
Context (key_hash : K -> Z) (key_equals : K -> K -> bool) `{!KeyOps K key_hash key_equals}.
Context (ts : table_size) (Hts : size_ok ts).

Lemma distinct_present t :
  table_ok key_hash key_equals ts t ->
  distinct_keys key_equals (filter (fun e => slot_present e = true) t).
Proof.
  intros Hok.
  assert (Hd : forall i j e e', (i < j)%nat -> t !! i = Some e -> t !! j = Some e' ->
    slot_present e = true -> slot_present e' = true -> key_equals (slot_key e) (slot_key e') = false).
  { intros i j e e' Hij Hi Hj Hp Hp'. apply not_true_is_false. intros Hk.
    assert (Z.of_nat i = Z.of_nat j); [|lia].
    apply (to_unique _ _ _ _ Hok _ _ e e'); [split; [lia|by rewrite Nat2Z.id]..|done|by split]. }
  clear Hok. unfold distinct_keys. induction t as [|e t IH]; [constructor|].
  assert (IHt : ForallOrdPairs (fun e e' => key_equals (slot_key e) (slot_key e') = false)
    (filter (fun e => slot_present e = true) t)).
  { apply IH. intros i j x x' Hij Hi Hj. apply (Hd (S i) (S j)); [lia|done|done]. }
  destruct (decide (slot_present e = true)) as [Hp|Hp]; [rewrite filter_cons_True by done|by rewrite filter_cons_False].
  constructor; [|done]. apply Forall_forall. intros x [Hx Hin]%list_elem_of_filter.
  apply list_elem_of_lookup in Hin as [j Hj]. apply (Hd 0%nat (S j)); try done. lia.
Qed.

(** The state of the table being built. *)
Record fresh_ok (t : list E) : Prop := {
  fo_table : table_ok key_hash key_equals ts t;
  fo_deleted : forall e, e ∈ t -> slot_deleted e = false;
}.

Lemma put_all_spec (put : list E -> E -> option (list E)) l t :
  (forall t e, fresh_ok t -> slot_count slot_present t < size ts -> slot_present e = true ->
     slot_deleted e = false -> slot_hash e = key_hash (slot_key e) ->
     exists a, put t e = Some (<[Z.to_nat a := e]> t) /\ available ts t (slot_hash e) a) ->
  fresh_ok t ->
  (forall e, e ∈ l -> slot_present e = true /\ slot_deleted e = false
                      /\ slot_hash e = key_hash (slot_key e)) ->
  distinct_keys key_equals l ->
  (forall e a x, e ∈ l -> slot_at t a x -> ~ matches key_equals (slot_key e) x) ->
  slot_count slot_present t + Z.of_nat (length l) <= size ts ->
  exists t', put_all put t l = Some t' /\ fresh_ok t'
    /\ slot_count slot_present t' = slot_count slot_present t + Z.of_nat (length l)
    /\ (forall e, slot_present e = true -> e ∈ t' <-> e ∈ t \/ e ∈ l).
Proof using Hts KeyOps0.
  intros Hput. revert t. induction l as [|e l IH]; intros t Hok Hl Hd Hno Hc.
  { exists t. cbn. split_and!; try done; [lia|]. intros e _. set_solver. }
  destruct (Hl e ltac:(set_solver)) as (Hp & Hdel & Hh). cbn [length] in Hc.
  destruct (Hput t e Hok) as (a & Ea & Hav); [lia|done|done|done|]. cbn [put_all]. rewrite Ea.
  cbn [mbind option_bind]. inversion Hd as [|? ? Hd1 Hd2]; subst.
  pose proof Hav as Hav'. destruct Hav' as (i & e0 & Hi & -> & Hat & Hnp & _). set (a := probe_addr _ _ _) in *.
  pose proof (to_length _ _ _ _ (fo_table _ Hok)) as Hlen.
  pose proof (slot_at_range ts t a e0 Hlen Hat) as Hr.
  assert (Hok' : fresh_ok (<[Z.to_nat a := e]> t)).
  { constructor.
    - apply (table_ok_place key_hash key_equals ts Hts t (slot_key e)); try done; [apply Hok| |].
      + intros b x Hx. apply (Hno e b x); [set_solver|done].
      + by rewrite <- Hh.
    - intros x Hx. apply slot_at_elem in Hx as [b Hb]. apply slot_at_insert in Hb; [|lia].
      destruct Hb as [[_ ->]|[_ Hb]]; [done|]. apply (fo_deleted _ Hok), slot_at_elem. eauto. }
  assert (Hcnt : slot_count slot_present (<[Z.to_nat a := e]> t) = slot_count slot_present t + 1).
  { rewrite (slot_count_insert _ _ _ e0) by apply Hat. rewrite Hnp, Hp. lia. }
  destruct (IH (<[Z.to_nat a := e]> t) Hok') as (t' & -> & Hok'' & Hc' & Hin).
  - intros x Hx. apply Hl. set_solver.
  - done.
  - intros x b y Hx Hy. apply slot_at_insert in Hy; [|lia]. destruct Hy as [[_ ->]|[_ Hy]].
    + intros [_ Hm]. rewrite Forall_forall in Hd1. specialize (Hd1 x Hx).
      rewrite (ko_sym (key_hash := key_hash)) in Hd1. congruence.
    + apply (Hno x b y); [set_solver|done].
  - lia.
  - exists t'. split_and!; try done; [cbn [length]; lia|]. intros x Hx. rewrite Hin by done.
    rewrite elem_of_cons, !slot_at_elem. split.
    + intros [[b Hb]|?]; [|tauto]. apply slot_at_insert in Hb; [|lia].
      destruct Hb as [[_ ->]|[_ Hb]]; eauto.
    + intros [[b Hb]|[->|?]]; [| |tauto].
      * left. exists b. apply slot_at_insert; [lia|]. right. split; [|done]. intros ->.
        assert (x = e0) as -> by (by eapply slot_at_fun). congruence.
      * left. exists a. apply slot_at_insert; [lia|]. by left.
Qed.
End rebuild.

(** ** The map a table stores *)

(** [slot_maps val t k v]: the slot that holds [k] has the value [v]. *)
Definition slot_maps {E K V} `{Slot E K} (key_equals : K -> K -> bool) (val : E -> V)
    (t : list E) (k : K) (v : V) : Prop :=
  exists e, e ∈ t /\ matches key_equals k e /\ val e = v.

Section slot_maps.
Context {E K V : Type} `{Slot E K}.
Context (key_hash : K -> Z) (key_equals : K -> K -> bool) `{!KeyOps K key_hash key_equals}.
Context (val : E -> V).
Implicit Types (t : list E) (e : E) (k : K) (v : V).
Local Notation maps := (slot_maps key_equals val).
Local Notation ko_sym := (ko_sym (key_hash := key_hash)).
Local Notation ko_trans := (ko_trans (key_hash := key_hash)).

Lemma slot_maps_at t k v :
  maps t k v <-> exists a e, slot_at t a e /\ matches key_equals k e /\ val e = v.
Proof.
  split; [intros (x & [b Hb]%slot_at_elem & Hx)|intros (b & x & Hb & Hx)]; [eauto|].
  exists x. split; [apply slot_at_elem; eauto|done].
Qed.

(** Two slots that hold the same key are the same slot. *)
Lemma matches_same ts t k a a' e e' :
  table_ok key_hash key_equals ts t -> slot_at t a e -> slot_at t a' e' ->
  matches key_equals k e -> matches key_equals k e' -> a = a' /\ e = e'.
Proof using KeyOps0.
  intros Hok Ha Ha' [Hp Hm] [Hp' Hm']. assert (a = a') as <-.
  { apply (to_unique _ _ _ _ Hok a a' e e' Ha Ha' Hp). split; [done|].
    eapply ko_trans; [|done]. by rewrite ko_sym. }
  split; [done|]. by eapply slot_at_fun.
Qed.

Lemma slot_maps_fun ts t k v v' :
  table_ok key_hash key_equals ts t -> maps t k v -> maps t k v' -> v = v'.
Proof using KeyOps0.
  rewrite !slot_maps_at. intros Hok (a & e & Ha & Hm & <-) (a' & e' & Ha' & Hm' & <-).
  by destruct (matches_same ts t k a a' e e' Hok Ha Ha' Hm Hm') as [_ ->].
Qed.

Lemma matches_equal k k' e : key_equals k k' = true -> matches key_equals k' e -> matches key_equals k e.
Proof using KeyOps0. intros Hk [Hp Hm]. split; [done|]. by eapply ko_trans. Qed.

(** The effect of writing a present entry for [k] into its slot, or a slot that is
    not present. *)
Lemma slot_maps_write t a e e' k :
  slot_at t a e -> (slot_present e = false \/ matches key_equals k e) ->
  (forall b x, slot_at t b x -> matches key_equals k x -> b = a) ->
  slot_present e' = true -> slot_key e' = k ->
  forall k' v, maps (<[Z.to_nat a := e']> t) k' v
    <-> if key_equals k k' then v = val e' else maps t k' v.
Proof using KeyOps0.
  intros Ha He Huniq Hp' Hk' k' v.
  assert (Hr : 0 <= a < Z.of_nat (length t)).
  { destruct Ha as [? Ha]. apply lookup_lt_Some in Ha. lia. }
  pose proof (fun b x => slot_at_insert t b a x e' Hr) as Hat.
  destruct (key_equals k k') eqn:Ek; rewrite slot_maps_at.
  - split.
    + intros (b & x & [[-> ->]|[Hne Hb]]%Hat & Hm & <-); [done|]. destruct Hne.
      apply (Huniq b x Hb). by eapply matches_equal.
    + intros ->. exists a, e'. split; [apply Hat; by left|]. split; [|done]. split; [done|].
      by rewrite Hk', ko_sym.
  - rewrite slot_maps_at. split; intros (b & x & Hb & [Hp Hm] & Hx).
    + apply Hat in Hb as [[-> ->]|[Hne Hb]].
      * rewrite Hk', ko_sym in Hm. congruence.
      * exists b, x. split; [done|]. by split.
    + exists b, x. split; [|by split]. apply Hat. right. split; [|done]. intros ->.
      assert (x = e) as -> by (by eapply slot_at_fun). destruct He as [He|[_ He]]; [congruence|].
      assert (key_equals k k' = true); [|congruence].
      eapply ko_trans; [done|]. by rewrite ko_sym.
Qed.

(** The effect of deleting the slot that holds [k]. *)
Lemma slot_maps_delete ts t a e e' k :
  table_ok key_hash key_equals ts t -> slot_at t a e -> matches key_equals k e -> slot_present e' = false ->
  forall k' v, maps (<[Z.to_nat a := e']> t) k' v <-> key_equals k k' = false /\ maps t k' v.
Proof using KeyOps0.
  intros Hok Ha Hm Hp' k' v.
  assert (Hr : 0 <= a < Z.of_nat (length t)).
  { destruct Ha as [? Hl]. apply lookup_lt_Some in Hl. lia. }
  pose proof (fun b x => slot_at_insert t b a x e' Hr) as Hat. rewrite !slot_maps_at. split.
  - intros (b & x & [[-> ->]|[Hne Hb]]%Hat & Hmx & Hx); [destruct Hmx; congruence|]. split; [|eauto].
    apply not_true_is_false. intros Hk. destruct Hne.
    by destruct (matches_same ts t k a b e x Hok Ha Hb Hm (matches_equal _ _ _ Hk Hmx)) as [-> _].
  - intros [Hne (b & x & Hb & Hmx & Hx)]. exists b, x. split; [|done]. apply Hat. right. split; [|done].
    intros ->. assert (x = e) as -> by (by eapply slot_at_fun). destruct Hm as [_ Hm], Hmx as [_ Hmx].
    assert (key_equals k k' = true); [|congruence]. eapply ko_trans; [done|]. by rewrite ko_sym.
Qed.
End slot_maps.

(** Loops with the same body do the same. *)
Lemma probe_ext {E A R} (forever : bool) ts (t : list E) hash (body body' : A -> Z -> E -> A + R) acc :
  (forall acc a e, e ∈ t -> body acc a e = body' acc a e) ->
  probe forever ts t hash body acc = probe forever ts t hash body' acc.
Proof.
  intros Hb. unfold probe. cbv zeta.
  cut (forall n a acc,
    probe_loop forever n t (size ts) (double_hash ts hash) (start_address ts hash) a body acc
    = probe_loop forever n t (size ts) (double_hash ts hash) (start_address ts hash) a body' acc); [auto|].
  clear acc. intros n. induction n as [|n IH]; intros a acc; [done|]. cbn [probe_loop].
  destruct (t !! Z.to_nat a) as [e|] eqn:El; [|done]. cbn [mbind option_bind].
  rewrite Hb by (by eapply list_elem_of_lookup_2). destruct (body' acc a e); [|done].
  by rewrite IH.
Qed.

(** * Properties *)

(** In the last row of the size table the probe step overflows.  The sum of two
    32-bit values below the size 2362232233 can pass [2^32], so the address after
    the step is not the next one of the probe sequence modulo the size; all other
    rows are below [2^31] and step correctly. *)
Theorem next_address_overflow :
  exists ts a, set_size_index 27 = Some ts /\ 0 <= a < size ts
    /\ next_address (size ts) (double_hash ts 2362232230) a
       <> (a + double_hash ts 2362232230) mod size ts.
Proof.
  eexists _, 2362232232. split; [reflexivity|]. split; [cbn; lia|]. vm_compute. discriminate.
Qed.
