(* ===== verification/HashTable.v ===== *)
(** * The hash table (src/util/hash_table.c, hash_table.h)

    Open addressing with double hashing (ProbeTable.v).  A pointer to an entry is its
    address in [table]; keys and data are the pointers [K] and [D], of which the
    code only uses the null pointer and the two functions the table was created
    with.  The result of [rzalloc_array] is an argument of the operations that may
    grow the table.  [None] is a failed assertion, an access out of the table, or a
    loop that does not end. *)

From Stdlib Require Import ZArith Lia.
From stdpp Require Import base list numbers option sets.
From S2P Require Import Prelude FastDiv ProbeTable.
Local Open Scope Z_scope.

(** ** State *)

Record hash_entry (K D : Type) := HashEntry {
  e_hash : Z;
  e_present : bool;
  e_deleted : bool;
  e_key : K;
  e_data : D;
}.
Arguments HashEntry {K D} _ _ _ _ _.
Arguments e_hash {K D} _.
Arguments e_present {K D} _.
Arguments e_deleted {K D} _.
Arguments e_key {K D} _.
Arguments e_data {K D} _.

(** [struct hash_table] without its function pointers, which are arguments of the
    operations, and without the memory context. *)
Record hash_table (K D : Type) := HashTable {
  table : list (hash_entry K D);
  ht_size : table_size;
  entries : Z;
  deleted_entries : Z;
}.
Arguments HashTable {K D} _ _ _ _.
Arguments table {K D} _.
Arguments ht_size {K D} _.
Arguments entries {K D} _.
Arguments deleted_entries {K D} _.

#[export] Instance hash_entry_slot K D : Slot (hash_entry K D) K := {
  slot_present := e_present;
  slot_deleted := e_deleted;
  slot_hash := e_hash;
  slot_key := e_key;
}.

Definition set_table {K D} (ht : hash_table K D) (t : list (hash_entry K D)) : hash_table K D :=
  HashTable t (ht_size ht) (entries ht) (deleted_entries ht).
Definition set_entries {K D} (ht : hash_table K D) (n : Z) : hash_table K D :=
  HashTable (table ht) (ht_size ht) n (deleted_entries ht).
Definition set_deleted {K D} (ht : hash_table K D) (n : Z) : hash_table K D :=
  HashTable (table ht) (ht_size ht) (entries ht) n.

(** [entry->field = ...] through a pointer into the table. *)
Definition update_entry {K D} (ht : hash_table K D) (a : Z)
    (f : hash_entry K D -> hash_entry K D) : option (hash_table K D) :=
  e ← table ht !! Z.to_nat a;
  Some (set_table ht (<[Z.to_nat a := f e]> (table ht))).

(** ** Operations *)

Section operations.
Context {K D : Type} (null_key : K) (null_data : D).
Context (key_hash_function : K -> Z) (key_equals_function : K -> K -> bool).

Definition zero_entry : hash_entry K D := HashEntry 0 false false null_key null_data.

Definition _mesa_hash_table_init : option (hash_table K D) :=
  ts ← set_size_index 0;
  assert! size ts =? 19 ;;
  Some (HashTable (replicate 19 zero_entry) ts 0 0).

Definition hash_table_clear_fast (ht : hash_table K D) : option (hash_table K D) :=
  row ← hash_sizes !! Z.to_nat (size_index (ht_size ht));
  let n := Z.to_nat (hs_size row) in
  Some (HashTable (replicate n zero_entry ++ drop n (table ht)) (ht_size ht) 0 0).

(** [_mesa_hash_table_clear]: the second result is the entries [delete_function],
    if there is one, is called on. *)
Definition _mesa_hash_table_clear (ht : hash_table K D) (delete_function : bool)
    : option (hash_table K D * list (hash_entry K D)) :=
  if delete_function then
    let clear (e : hash_entry K D) := HashEntry (e_hash e) false false (e_key e) (e_data e) in
    Some (HashTable (map clear (table ht)) (ht_size ht) 0 0,
          filter (fun e => e_present e = true) (table ht))
  else
    ht ← hash_table_clear_fast ht;
    Some (ht, []).

Definition hash_table_search (ht : hash_table K D) (hash : Z) (key : K) : option (option Z) :=
  probe_search key_equals_function (ht_size ht) (table ht) hash key.

Definition _mesa_hash_table_search (ht : hash_table K D) (key : K) : option (option Z) :=
  hash_table_search ht (key_hash_function key) key.

Definition _mesa_hash_table_search_pre_hashed (ht : hash_table K D) (hash : Z) (key : K)
    : option (option Z) :=
  assert! hash =? key_hash_function key ;;
  hash_table_search ht hash key.

Definition hash_table_insert_rehash (ht : hash_table K D) (hash : Z) (key : K) (data : D)
    : option (hash_table K D) :=
  r ← probe true (ht_size ht) (table ht) hash (free_body (fun e => negb (e_present e))) tt;
  match r with
  | inl _ => None
  | inr a => update_entry ht a (fun e => HashEntry hash true (e_deleted e) key data)
  end.

Fixpoint insert_rehash_all (ht : hash_table K D) (l : list (hash_entry K D))
    : option (hash_table K D) :=
  match l with
  | [] => Some ht
  | e :: l => ht ← hash_table_insert_rehash ht (e_hash e) (e_key e) (e_data e);
              insert_rehash_all ht l
  end.

Definition _mesa_hash_table_rehash (alloc : bool) (ht : hash_table K D) (new_size_index : Z)
    : option (hash_table K D) :=
  if (size_index (ht_size ht) =? new_size_index)
     && (deleted_entries ht =? max_entries (ht_size ht)) then
    ht ← hash_table_clear_fast ht;
    assert! entries ht =? 0 ;;
    Some ht
  else if new_size_index >=? Z.of_nat (length hash_sizes) then Some ht
  else if negb alloc then Some ht
  else
    ts ← set_size_index new_size_index;
    let new_ht := HashTable (replicate (Z.to_nat (size ts)) zero_entry) ts 0 0 in
    l ← foreach (table ht);
    new_ht ← insert_rehash_all new_ht (map snd l);
    Some (set_entries new_ht (entries ht)).

(** The resize decision at the head of [hash_table_get_entry]. *)
Definition get_entry_resize (alloc : bool) (ht : hash_table K D) : option (hash_table K D) :=
  if entries ht >=? max_entries (ht_size ht) then
    _mesa_hash_table_rehash alloc ht (size_index (ht_size ht) + 1)
  else if u32 (deleted_entries ht + entries ht) >=? max_entries (ht_size ht) then
    _mesa_hash_table_rehash alloc ht (size_index (ht_size ht))
  else Some ht.

Definition hash_table_get_entry (alloc : bool) (ht : hash_table K D) (hash : Z) (key : K)
    : option (option Z * hash_table K D) :=
  ht ← get_entry_resize alloc ht;
  r ← probe false (ht_size ht) (table ht) hash (get_body key_equals_function hash key) None;
  match loop_result r with
  | inr a => Some (Some a, ht)
  | inl (Some a) =>
      e ← table ht !! Z.to_nat a;
      let ht := if e_deleted e then set_deleted ht (u32 (deleted_entries ht - 1)) else ht in
      ht ← update_entry ht a
             (fun e => HashEntry hash (e_present e) (e_deleted e) (e_key e) (e_data e));
      Some (Some a, set_entries ht (u32 (entries ht + 1)))
  | inl None => Some (None, ht)
  end.

Definition hash_table_insert (alloc : bool) (ht : hash_table K D) (hash : Z) (key : K) (data : D)
    : option (option Z * hash_table K D) :=
  '(entry, ht) ← hash_table_get_entry alloc ht hash key;
  match entry with
  | Some a =>
      ht ← update_entry ht a (fun e => HashEntry (e_hash e) true false key data);
      Some (Some a, ht)
  | None => Some (None, ht)
  end.

Definition _mesa_hash_table_insert (alloc : bool) (ht : hash_table K D) (key : K) (data : D)
    : option (option Z * hash_table K D) :=
  hash_table_insert alloc ht (key_hash_function key) key data.

Definition _mesa_hash_table_insert_pre_hashed (alloc : bool) (ht : hash_table K D) (hash : Z)
    (key : K) (data : D) : option (option Z * hash_table K D) :=
  assert! hash =? key_hash_function key ;;
  hash_table_insert alloc ht hash key data.

Definition _mesa_hash_table_remove (ht : hash_table K D) (entry : option Z)
    : option (hash_table K D) :=
  match entry with
  | None => Some ht
  | Some a =>
      ht ← update_entry ht a (fun e => HashEntry (e_hash e) false true (e_key e) (e_data e));
      Some (set_deleted (set_entries ht (u32 (entries ht - 1))) (u32 (deleted_entries ht + 1)))
  end.

Definition _mesa_hash_table_remove_key (ht : hash_table K D) (key : K) : option (hash_table K D) :=
  entry ← _mesa_hash_table_search ht key;
  _mesa_hash_table_remove ht entry.

Definition _mesa_hash_table_next_entry (ht : hash_table K D) (entry : option Z) : option Z :=
  next_entry (table ht) entry.

(** [hash_table_foreach] *)
Definition hash_table_foreach (ht : hash_table K D) : option (list (Z * hash_entry K D)) :=
  foreach (table ht).

(** [_mesa_hash_table_next_entry_unsafe] calls itself on the next address. *)
Fixpoint next_entry_unsafe (fuel : nat) (ht : hash_table K D) (entry : option Z) : option (option Z) :=
  match fuel with
  | O => None
  | S fuel =>
      assert! deleted_entries ht =? 0 ;;
      if entries ht =? 0 then Some None
      else
        let i := match entry with None => 0 | Some i => i + 1 end in
        if i =? size (ht_size ht) then Some None
        else
          e ← table ht !! Z.to_nat i;
          if e_present e then Some (Some i) else next_entry_unsafe fuel ht (Some i)
  end.
Definition _mesa_hash_table_next_entry_unsafe (ht : hash_table K D) (entry : option Z)
    : option (option Z) :=
  next_entry_unsafe (S (length (table ht))) ht entry.

(** [_mesa_hash_table_random_entry]; [rand] is the value of [rand()], a predicate
    that always holds stands for a null [predicate]. *)
Fixpoint random_scan (predicate : hash_entry K D -> bool) (l : list (hash_entry K D)) (i : Z) : option Z :=
  match l with
  | [] => None
  | e :: l => if e_present e && predicate e then Some i else random_scan predicate l (i + 1)
  end.
Definition _mesa_hash_table_random_entry (rand : Z) (ht : hash_table K D)
    (predicate : hash_entry K D -> bool) : option Z :=
  let i := rand mod size (ht_size ht) in
  if entries ht =? 0 then None
  else
    match random_scan predicate (drop (Z.to_nat i) (table ht)) i with
    | Some a => Some a
    | None => random_scan predicate (take (Z.to_nat i) (table ht)) 0
    end.

(** The loop of [_mesa_hash_table_reserve] over the rows from [i] on. *)
Fixpoint reserve_loop (alloc : bool) (ht : hash_table K D) (n : Z) (rows : list hash_size) (i : Z)
    : option (hash_table K D) :=
  match rows with
  | [] => Some ht
  | row :: rows =>
      if hs_max_entries row >=? n then _mesa_hash_table_rehash alloc ht i
      else reserve_loop alloc ht n rows (i + 1)
  end.
Definition _mesa_hash_table_reserve (alloc : bool) (ht : hash_table K D) (n : Z)
    : option (bool * hash_table K D) :=
  if n <? max_entries (ht_size ht) then Some (true, ht)
  else
    let i := size_index (ht_size ht) + 1 in
    ht ← reserve_loop alloc ht n (drop (Z.to_nat i) hash_sizes) i;
    Some (max_entries (ht_size ht) >=? n, ht).

(** [_mesa_hash_table_copy]: the destination gets the source's fields and a copy of
    its entries. *)
Definition _mesa_hash_table_copy (src : hash_table K D) : hash_table K D :=
  HashTable (table src) (ht_size src) (entries src) (deleted_entries src).

Fixpoint insert_all (alloc : bool) (ht : hash_table K D) (l : list (hash_entry K D))
    : option (hash_table K D) :=
  match l with
  | [] => Some ht
  | e :: l =>
      '(_, ht) ← _mesa_hash_table_insert_pre_hashed alloc ht (e_hash e) (e_key e) (e_data e);
      insert_all alloc ht l
  end.

(** [_mesa_hash_table_clone_into]: [Some None] is the result false, which leaves [dst]
    without a table.  The source of a copy is then larger than the initial
    storage, so that the copy always allocates. *)
Definition _mesa_hash_table_clone_into (alloc : bool) (dst src : hash_table K D)
    : option (option (hash_table K D)) :=
  if size (ht_size dst) <? size (ht_size src) then
    if alloc then Some (Some (_mesa_hash_table_copy src)) else Some None
  else if size (ht_size dst) =? size (ht_size src) then
    Some (Some (HashTable (table src) (ht_size dst) (entries src) (deleted_entries src)))
  else
    '(dst, _) ← _mesa_hash_table_clear dst false;
    l ← hash_table_foreach src;
    dst ← insert_all alloc dst (map snd l);
    Some (Some dst).
End operations.

(** *** 64-bit keys, on platforms with 64-bit pointers: the key is the pointer *)

Definition _mesa_hash_pointer (num : Z) : Z :=
  u32 (Z.lxor (Z.lxor (Z.lxor (Z.shiftr num 2) (Z.shiftr num 6)) (Z.shiftr num 10)) (Z.shiftr num 14)).
Definition _mesa_key_pointer_equal (a b : Z) : bool := a =? b.

(** [void *] data, 0 being the null pointer. *)
Definition hash_table_u64 : Type := hash_table Z Z.

Definition _mesa_hash_table_u64_create : option hash_table_u64 := _mesa_hash_table_init 0 0.
Definition _mesa_hash_table_u64_insert (alloc : bool) (ht : hash_table_u64) (key data : Z)
    : option hash_table_u64 :=
  '(_, ht) ← _mesa_hash_table_insert 0 0 _mesa_hash_pointer _mesa_key_pointer_equal alloc ht key data;
  Some ht.
Definition hash_table_u64_search (ht : hash_table_u64) (key : Z) : option (option Z) :=
  _mesa_hash_table_search _mesa_hash_pointer _mesa_key_pointer_equal ht key.
Definition _mesa_hash_table_u64_search (ht : hash_table_u64) (key : Z) : option Z :=
  entry ← hash_table_u64_search ht key;
  match entry with
  | None => Some 0
  | Some a => e ← table ht !! Z.to_nat a; Some (e_data e)
  end.
Definition _mesa_hash_table_u64_remove (ht : hash_table_u64) (key : Z) : option hash_table_u64 :=
  entry ← hash_table_u64_search ht key;
  match entry with
  | None => Some ht
  | Some a => _mesa_hash_table_remove ht (Some a)
  end.
Definition _mesa_hash_table_u64_clear (ht : hash_table_u64) : option hash_table_u64 :=
  '(ht, _) ← _mesa_hash_table_clear 0 0 ht true;
  Some ht.

(** * The invariant and the abstract view *)

Section theory.
Context {K D : Type} (null_key : K) (null_data : D).
Context (key_hash : K -> Z) (key_equals : K -> K -> bool) `{!KeyOps K key_hash key_equals}.
Implicit Types (ht : hash_table K D) (e : hash_entry K D) (k : K) (d : D).

Local Notation zero := (zero_entry null_key null_data).
Local Notation rehash_to := (_mesa_hash_table_rehash null_key null_data).
Local Notation insert := (hash_table_insert null_key null_data key_equals).
Local Notation search := (hash_table_search key_equals).

Record ht_ok (ht : hash_table K D) : Prop := {
  ho_index : 0 <= size_index (ht_size ht) < 27;
  ho_row : set_size_index (size_index (ht_size ht)) = Some (ht_size ht);
  ho_table : table_ok key_hash key_equals (ht_size ht) (table ht);
  ho_exclusive : forall e, e ∈ table ht -> e_present e = true -> e_deleted e = false;
  ho_entries : entries ht = slot_count e_present (table ht);
  ho_deleted : deleted_entries ht = slot_count e_deleted (table ht);
}.

(** Every allocation a resize has needed was given: the slots in use are within
    the limit at which the table grows.  A failed allocation leaves a table that
    satisfies [ht_ok] only. *)
Definition ht_fits (ht : hash_table K D) : Prop :=
  entries ht + deleted_entries ht <= max_entries (ht_size ht).

(** The abstract state: which data a key is mapped to. *)
Definition ht_maps (ht : hash_table K D) (k : K) (d : D) : Prop :=
  slot_maps key_equals e_data (table ht) k d.

Lemma row_size_ok i ts : 0 <= i < 27 -> set_size_index i = Some ts -> size_ok ts /\ size_index ts = i.
Proof.
  intros Hi E. destruct (set_size_index_ok i Hi) as (ts' & E' & Hok & Hidx & _). simplify_eq. done.
Qed.

Lemma ho_size_ok ht : ht_ok ht -> size_ok (ht_size ht).
Proof. intros Hok. eapply row_size_ok; [apply Hok|apply Hok]. Qed.

Lemma ho_max_pow ht : ht_ok ht -> max_entries (ht_size ht) = 2 ^ (4 + size_index (ht_size ht)).
Proof. intros Hok. apply set_size_index_max; apply Hok. Qed.

Lemma ht_maps_fun ht k d d' : ht_ok ht -> ht_maps ht k d -> ht_maps ht k d' -> d = d'.
Proof using KeyOps0. intros Hok. apply (slot_maps_fun key_hash key_equals e_data (ht_size ht)), Hok. Qed.

(** The counters are 32-bit values. *)
Lemma counter_range ht :
  ht_ok ht -> 0 <= entries ht <= size (ht_size ht) /\ 0 <= deleted_entries ht <= size (ht_size ht)
    /\ 0 < max_entries (ht_size ht) /\ max_entries (ht_size ht) < size (ht_size ht) - 2
    /\ size (ht_size ht) < 2 ^ 31.
Proof.
  intros Hok. pose proof (sz_max _ (ho_size_ok _ Hok)). pose proof (sz_small _ (ho_size_ok _ Hok)).
  pose proof (slot_count_range e_present (table ht)). pose proof (slot_count_range e_deleted (table ht)).
  rewrite (to_length _ _ _ _ (ho_table _ Hok)), <- (ho_entries _ Hok), <- (ho_deleted _ Hok) in *. lia.
Qed.

(** ** Search *)

Lemma search_spec ht k :
  ht_ok ht ->
  exists r, search ht (key_hash k) k = Some r
    /\ match r with
       | Some a => exists e, slot_at (table ht) a e /\ matches key_equals k e
       | None => forall d, ~ ht_maps ht k d
       end.
Proof using KeyOps0.
  intros Hok. destruct (probe_search_spec key_hash key_equals (ht_size ht) (ho_size_ok _ Hok)
    (table ht) k (ho_table _ Hok)) as (r & E & Hr). exists r. split; [done|]. destruct r as [a|]; [done|].
  intros d (e & Hin & Hm & _). apply slot_at_elem in Hin as [a Ha]. by apply (Hr a e).
Qed.

(** ** Init and clear *)

Lemma zero_table_ok ts :
  size_ok ts -> 0 <= size_index ts < 27 -> set_size_index (size_index ts) = Some ts ->
  ht_ok (HashTable (replicate (Z.to_nat (size ts)) zero) ts 0 0).
Proof using KeyOps0.
  intros Hts Hi Hrow. pose proof (size_gt _ Hts). pose proof (sz_max _ Hts).
  assert (Hz : forall p : hash_entry K D -> bool, p zero = false ->
    slot_count p (replicate (Z.to_nat (size ts)) zero) = 0).
  { intros p Hp. apply slot_count_zero. intros i e He. by apply lookup_replicate in He as [-> _]. }
  constructor; cbn; try done; rewrite ?Hz by done; try done; try lia.
  - apply table_ok_empty; [done|rewrite length_replicate; lia|].
    intros e He. by apply elem_of_replicate in He as [-> _].
  - intros e He. by apply elem_of_replicate in He as [-> _].
Qed.

Lemma zero_table_maps ts n k d : ~ ht_maps (HashTable (replicate n zero) ts 0 0) k d.
Proof.
  intros (e & Hin & [Hp _] & _). cbn in Hin. apply elem_of_replicate in Hin as [-> _]. done.
Qed.

Lemma clear_fast_spec ht :
  ht_ok ht -> hash_table_clear_fast null_key null_data ht
    = Some (HashTable (replicate (Z.to_nat (size (ht_size ht))) zero) (ht_size ht) 0 0).
Proof.
  intros Hok. unfold hash_table_clear_fast. pose proof (ho_row _ Hok) as Hrow.
  unfold set_size_index in Hrow. destruct (hash_sizes !! _) as [row|] eqn:El; [|done].
  cbn [mbind option_bind] in *. injection Hrow as Hrow.
  assert (hs_size row = size (ht_size ht)) as -> by (by rewrite <- Hrow).
  rewrite drop_ge, app_nil_r; [done|]. pose proof (to_length _ _ _ _ (ho_table _ Hok)). lia.
Qed.

(** ** Rehash *)

Definition put_entry (ts : table_size) (t : list (hash_entry K D)) (e : hash_entry K D)
    : option (list (hash_entry K D)) :=
  ht ← hash_table_insert_rehash (HashTable t ts 0 0) (e_hash e) (e_key e) (e_data e);
  Some (table ht).

Lemma insert_rehash_all_put ts t l :
  insert_rehash_all (HashTable t ts 0 0) l
  = (t ← put_all (put_entry ts) t l; Some (HashTable t ts 0 0)).
Proof.
  revert t. induction l as [|e l IH]; intros t; [done|]. cbn [insert_rehash_all put_all].
  assert (Hp : put_entry ts t e
    = (ht ← hash_table_insert_rehash (HashTable t ts 0 0) (e_hash e) (e_key e) (e_data e);
       Some (table ht))) by done.
  rewrite Hp. destruct (hash_table_insert_rehash _ _ _ _) as [ht|] eqn:Ei; [|done].
  cbn [mbind option_bind]. rewrite <- IH. f_equal. unfold hash_table_insert_rehash in Ei.
  cbn [table ht_size] in Ei. destruct (probe _ _ _ _ _ _) as [[?|a]|]; cbn in Ei; try done.
  unfold update_entry in Ei. cbn [table] in Ei. destruct (t !! Z.to_nat a); cbn in Ei; by simplify_eq.
Qed.

Lemma put_entry_spec ts t e :
  size_ok ts -> fresh_ok key_hash key_equals ts t -> slot_count slot_present t < size ts ->
  slot_present e = true -> slot_deleted e = false -> slot_hash e = key_hash (slot_key e) ->
  exists a, put_entry ts t e = Some (<[Z.to_nat a := e]> t) /\ available ts t (slot_hash e) a.
Proof using KeyOps0.
  intros Hts [Hok Hdel] Hc Hp Hd Hh. unfold put_entry, hash_table_insert_rehash. cbn [ht_size table].
  destruct (probe_free_spec ts Hts (fun e => negb (e_present e)) t (slot_hash e))
    as (a & Ea & Hav); [apply Hok|rewrite Hh; apply ko_hash_range|done|done|].
  exists a. split; [|done]. change (e_hash e) with (slot_hash e). rewrite Ea.
  destruct Hav as (i & e0 & _ & _ & [_ Hat] & _). cbn [mbind option_bind]. unfold update_entry.
  cbn [table set_table]. rewrite Hat. cbn. do 2 f_equal.
  assert (e_deleted e0 = false) as -> by (apply Hdel; by eapply list_elem_of_lookup_2).
  destruct e as [h p dl k d]; cbn in *. by subst.
Qed.

Lemma rehash_maps ht ht' :
  (forall e, e_present e = true -> e ∈ table ht' <-> e ∈ table ht) ->
  forall k d, ht_maps ht' k d <-> ht_maps ht k d.
Proof.
  intros H k d. split; intros (e & Hin & [Hp Hm] & He); exists e; (split; [by apply H|done]).
Qed.

Lemma empty_no_maps ht k d : ht_ok ht -> entries ht = 0 -> ~ ht_maps ht k d.
Proof.
  intros Hok Hz (e & Hin & [Hp _] & _). rewrite (ho_entries _ Hok), slot_count_zero in Hz.
  apply list_elem_of_lookup in Hin as [n Hn]. specialize (Hz n e Hn). cbn in *. congruence.
Qed.

(** The table a call of [_mesa_hash_table_rehash] that does its work leaves. *)
Record rehashed ht i ht' : Prop := {
  rh_ok : ht_ok ht';
  rh_index : size_index (ht_size ht') = i;
  rh_entries : entries ht' = entries ht;
  rh_deleted : deleted_entries ht' = 0;
  rh_maps : forall k d, ht_maps ht' k d <-> ht_maps ht k d;
}.

(** The fast path empties the table. *)
Lemma rehash_fast_spec alloc ht :
  ht_ok ht -> deleted_entries ht = max_entries (ht_size ht) ->
  exists ht', rehash_to alloc ht (size_index (ht_size ht)) = Some ht' /\ ht_ok ht'
    /\ ht_size ht' = ht_size ht /\ entries ht' = 0 /\ deleted_entries ht' = 0
    /\ (forall k d, ~ ht_maps ht' k d).
Proof using KeyOps0.
  intros Hok Hd. unfold _mesa_hash_table_rehash. rewrite Hd, !Z.eqb_refl. cbn [andb].
  rewrite clear_fast_spec by done. cbn. eexists. split; [done|].
  split; [apply zero_table_ok; [by apply ho_size_ok|apply Hok|apply Hok]|].
  split_and!; try done. intros k d. apply zero_table_maps.
Qed.

Lemma rehash_spec ht i :
  ht_ok ht -> 0 <= i < 27 ->
  (forall ts, set_size_index i = Some ts -> entries ht <= max_entries ts) ->
  (size_index (ht_size ht) = i -> deleted_entries ht = max_entries (ht_size ht) -> entries ht = 0) ->
  exists ht', rehash_to true ht i = Some ht' /\ rehashed ht i ht'.
Proof using KeyOps0.
  intros Hok Hi Hmax Hfast.
  destruct (set_size_index_ok i Hi) as (ts & Ets & Hts & Hidx & _). specialize (Hmax ts Ets).
  pose proof (slot_count_range e_present (table ht)) as Hcr. pose proof (size_gt _ Hts) as Hgt.
  destruct ((size_index (ht_size ht) =? i) && (deleted_entries ht =? max_entries (ht_size ht))) eqn:Ec.
  { apply andb_true_iff in Ec as [Ei%Z.eqb_eq Ed%Z.eqb_eq].
    destruct (rehash_fast_spec true ht Hok Ed) as (ht' & E & H1 & H2 & H3 & H4 & H5). rewrite Ei in E.
    exists ht'. split; [done|]. specialize (Hfast Ei Ed). constructor; try done; [congruence..|]. intros k d. split; intros Hm.
    - by apply H5 in Hm.
    - by apply empty_no_maps in Hm. }
  unfold _mesa_hash_table_rehash. rewrite Ec.
  destruct (Z.geb_spec i (Z.of_nat (length hash_sizes))) as [Hge|_]; [cbn in Hge; lia|]. cbn [negb].
  rewrite Ets. cbn [mbind option_bind]. rewrite foreach_spec. cbn [mbind option_bind].
  rewrite present_from_entries, insert_rehash_all_put.
  set (l := filter _ (table ht)).
  assert (Hzero := zero_table_ok ts Hts).
  destruct Hzero as [_ _ Zt _ Ze _]; [lia|by rewrite Hidx|]. cbn in Zt, Ze.
  destruct (put_all_spec key_hash key_equals ts Hts (put_entry ts) l (replicate (Z.to_nat (size ts)) zero))
    as (t' & -> & [Hok' Hdel'] & Hcnt & Hin).
  - intros t e Hf Hc Hp Hd Hh. by apply put_entry_spec.
  - constructor; [done|]. intros e He. by apply elem_of_replicate in He as [-> _].
  - intros e [Hp Hin]%list_elem_of_filter. split_and!; [done|by apply (ho_exclusive _ Hok)|].
    apply slot_at_elem in Hin as [a Ha]. by apply (to_hash _ _ _ _ (ho_table _ Hok) a).
  - eapply (distinct_present key_hash key_equals). apply Hok.
  - intros e a x _ Hx [Hp _]. destruct Hx as [_ Hx]. by apply lookup_replicate in Hx as [-> _].
  - unfold l. rewrite <- slot_count_filter. change slot_present with (@e_present K D). rewrite <- Ze.
    rewrite <- (ho_entries _ Hok). pose proof (sz_max _ Hts). lia.
  - cbn [mbind option_bind]. eexists. split; [done|].
    unfold l in Hcnt. rewrite <- slot_count_filter in Hcnt. change slot_present with (@e_present K D) in Hcnt.
    assert (Hdz : slot_count e_deleted t' = 0).
    { apply slot_count_zero. intros n e He. apply Hdel'. by eapply list_elem_of_lookup_2. }
    constructor; try done; [constructor; cbn; rewrite ?Hidx; try done; try lia|].
    + intros e He _. by apply Hdel'.
    + rewrite (ho_entries _ Hok). lia.
    + apply rehash_maps. cbn. intros e He. rewrite Hin by done.
      unfold l. rewrite list_elem_of_filter. split; [|tauto]. intros [Hr|[_ ?]]; [|done].
      apply elem_of_replicate in Hr as [-> _]. done.
Qed.

(** ** Insertion *)

Definition has_capacity (ht : hash_table K D) : Prop :=
  size_index (ht_size ht) < 26 \/ entries ht < max_entries (ht_size ht).

(** The table after the resize decision of an insertion.  If the allocation is
    given, the table has room below its limit.  It is emptied only if it has
    outgrown its limit, after an earlier allocation has failed. *)
Record resized (alloc : bool) ht ht1 : Prop := {
  rs_ok : ht_ok ht1;
  rs_maps : (entries ht1 = entries ht /\ forall k d, ht_maps ht1 k d <-> ht_maps ht k d)
    \/ (~ ht_fits ht /\ entries ht1 = 0 /\ forall k d, ~ ht_maps ht1 k d);
  rs_grow : max_entries (ht_size ht) <= max_entries (ht_size ht1);
  rs_room : alloc = true -> entries ht1 + deleted_entries ht1 < max_entries (ht_size ht1);
  rs_used : entries ht1 + deleted_entries ht1 <= entries ht + deleted_entries ht;
  rs_same : alloc = false -> ht1 = ht \/ deleted_entries ht1 = 0 /\ entries ht1 = 0;
}.

Lemma resized_refl alloc ht :
  ht_ok ht -> (alloc = true -> entries ht + deleted_entries ht < max_entries (ht_size ht)) ->
  resized alloc ht ht.
Proof. intros Hok Hr. constructor; [done|by left|lia|done|lia|by left]. Qed.

(** Rehashing into the row [i], which has room for the entries. *)
Lemma rehash_resized alloc ht i :
  ht_ok ht -> size_index (ht_size ht) <= i < 27 ->
  (forall ts, set_size_index i = Some ts -> entries ht < max_entries ts) ->
  exists ht1, rehash_to alloc ht i = Some ht1 /\ resized alloc ht ht1.
Proof using KeyOps0.
  intros Hok Hi Hroom. pose proof (ho_index _ Hok). pose proof (counter_range _ Hok).
  destruct (decide (size_index (ht_size ht) = i /\ deleted_entries ht = max_entries (ht_size ht)
                    /\ entries ht <> 0)) as [(<- & Hd & He)|Hno].
  - destruct (rehash_fast_spec alloc ht Hok Hd) as (ht1 & -> & H1 & H2 & H3 & H4 & H5).
    exists ht1. split; [done|]. constructor; [done| |by rewrite H2|intros _; rewrite H2; lia|lia|by right].
    right. split_and!; try done. unfold ht_fits. lia.
  - destruct alloc.
    + destruct (rehash_spec ht i Hok) as (ht1 & -> & [H1 H2 H3 H4 H5]); [lia| |lia|].
      { intros ts Ets. specialize (Hroom ts Ets). lia. }
      pose proof (ho_row _ H1) as Hr. rewrite H2 in Hr. specialize (Hroom _ Hr).
      exists ht1. split; [done|]. constructor; try done; [by left| |lia|lia].
      rewrite (ho_max_pow _ Hok), (ho_max_pow _ H1), H2. apply pow2_le. lia.
    + unfold _mesa_hash_table_rehash. destruct (_ && _) eqn:Ec.
      { apply andb_true_iff in Ec as [Ei%Z.eqb_eq Ed%Z.eqb_eq].
        destruct (rehash_fast_spec false ht Hok Ed) as (ht1 & E & H1 & H2 & H3 & H4 & H5).
        unfold _mesa_hash_table_rehash in E. rewrite Ed, !Z.eqb_refl in E. cbn [andb] in E. rewrite E.
        exists ht1. split; [done|]. assert (entries ht = 0) by lia.
        constructor; [done| |by rewrite H2|done|lia|by right]. left. split; [lia|]. intros k d.
        split; intros Hm; [by apply H5 in Hm|by apply empty_no_maps in Hm]. }
      exists ht. split; [by destruct (i >=? _)|]. by apply resized_refl.
Qed.

Lemma get_entry_resize_spec alloc ht :
  ht_ok ht -> has_capacity ht ->
  exists ht1, get_entry_resize null_key null_data alloc ht = Some ht1 /\ resized alloc ht ht1.
Proof using KeyOps0.
  intros Hok Hcap. unfold get_entry_resize. pose proof (ho_index _ Hok) as Hi.
  pose proof (counter_range _ Hok).
  destruct (Z.geb_spec (entries ht) (max_entries (ht_size ht))) as [Hge|Hlt].
  - unfold has_capacity in Hcap. apply rehash_resized; [done|lia|]. intros ts Ets.
    assert (0 <= size_index (ht_size ht) < size_index (ht_size ht) + 1) as Hij by lia.
    pose proof (set_size_index_next _ _ _ _ Hij (ho_row _ Hok) Ets). lia.
  - rewrite u32_small by lia.
    destruct (Z.geb_spec (deleted_entries ht + entries ht) (max_entries (ht_size ht))).
    + apply rehash_resized; [done|lia|]. intros ts Ets. rewrite (ho_row _ Hok) in Ets. by simplify_eq.
    + exists ht. split; [done|]. apply resized_refl; [done|lia].
Qed.

(** Mapping a key: the effect on the abstract state of writing one slot. *)
Lemma insert_maps ht ht' a e e' k d :
  slot_at (table ht) a e -> table ht' = <[Z.to_nat a := e']> (table ht) ->
  (slot_present e = false \/ matches key_equals k e) ->
  (forall b x, slot_at (table ht) b x -> matches key_equals k x -> b = a) ->
  slot_present e' = true -> slot_key e' = k -> e_data e' = d ->
  forall k' d', ht_maps ht' k' d' <-> if key_equals k k' then d' = d else ht_maps ht k' d'.
Proof using KeyOps0.
  intros Ha Ht He Huniq Hp' Hk' <-. unfold ht_maps. rewrite Ht.
  by apply (slot_maps_write key_hash key_equals e_data (table ht) a e e' k).
Qed.

(** Writing one slot keeps the exclusion of present and deleted. *)
Lemma exclusive_insert (t : list (hash_entry K D)) n e' :
  (forall e, e ∈ t -> e_present e = true -> e_deleted e = false) ->
  (e_present e' = true -> e_deleted e' = false) ->
  forall e, e ∈ <[n := e']> t -> e_present e = true -> e_deleted e = false.
Proof.
  intros H He' e [j Hj]%list_elem_of_lookup Hp.
  apply list_lookup_insert_Some in Hj as [(_ & <- & _)|[_ Hj]]; [by apply He'|].
  apply H; [by eapply list_elem_of_lookup_2|done].
Qed.

(** Writing one slot, with the counters adjusted, keeps the invariant. *)
Lemma ht_ok_write ht a e e' n m :
  ht_ok ht -> slot_at (table ht) a e ->
  table_ok key_hash key_equals (ht_size ht) (<[Z.to_nat a := e']> (table ht)) ->
  (e_present e' = true -> e_deleted e' = false) ->
  n = entries ht - (if e_present e then 1 else 0) + (if e_present e' then 1 else 0) ->
  m = deleted_entries ht - (if e_deleted e then 1 else 0) + (if e_deleted e' then 1 else 0) ->
  ht_ok (HashTable (<[Z.to_nat a := e']> (table ht)) (ht_size ht) n m).
Proof.
  intros Hok [_ Hat] Htok Hex Hn Hm. constructor; cbn; try apply Hok; try done.
  - by apply exclusive_insert; [apply Hok|].
  - rewrite (slot_count_insert _ _ _ e) by done. rewrite Hn, (ho_entries _ Hok). lia.
  - rewrite (slot_count_insert _ _ _ e) by done. rewrite Hm, (ho_deleted _ Hok). lia.
Qed.

Lemma deleted_positive ht a e :
  ht_ok ht -> slot_at (table ht) a e -> e_deleted e = true -> 0 < deleted_entries ht.
Proof.
  intros Hok [_ Hat] Hd. rewrite (ho_deleted _ Hok).
  pose proof (slot_count_insert e_deleted (table ht) (Z.to_nat a) e zero Hat) as Hi.
  pose proof (slot_count_range e_deleted (<[Z.to_nat a := zero]> (table ht))).
  rewrite Hd in Hi. cbn in Hi. lia.
Qed.

(** What an insertion leaves behind. *)
Record inserted ht k d a ht' : Prop := {
  in_ok : ht_ok ht';
  in_entry : exists e, slot_at (table ht') a e /\ matches key_equals k e /\ e_key e = k /\ e_data e = d;
  in_maps : forall k' d', ht_maps ht' k' d' <-> if key_equals k k' then d' = d else ht_maps ht k' d';
  in_count : entries ht <= entries ht' <= entries ht + 1;
  in_used : entries ht' + deleted_entries ht' <= entries ht + deleted_entries ht + 1;
  in_grow : max_entries (ht_size ht) <= max_entries (ht_size ht');
}.

Lemma inserted_available ht k d a e :
  ht_ok ht -> (forall b x, slot_at (table ht) b x -> ~ matches key_equals k x) ->
  slot_at (table ht) a e -> available (ht_size ht) (table ht) (key_hash k) a -> e_present e = false ->
  inserted ht k d a
    (HashTable (<[Z.to_nat a := HashEntry (key_hash k) true false k d]> (table ht)) (ht_size ht)
       (entries ht + 1) (deleted_entries ht - (if e_deleted e then 1 else 0))).
Proof using KeyOps0.
  intros Hok Hno Hat Hav Hnp. set (e' := HashEntry (key_hash k) true false k d).
  pose proof (to_length _ _ _ _ (ho_table _ Hok)) as Hlen.
  pose proof (slot_at_range (ht_size ht) _ a e Hlen Hat) as Hra.
  assert (Hkk : key_equals k k = true) by apply (ko_refl (key_hash := key_hash)).
  constructor.
  - apply (ht_ok_write ht a e e'); try done; cbn; rewrite ?Hnp; try lia.
    apply (table_ok_place key_hash key_equals _ (ho_size_ok _ Hok) (table ht) k a e'); done || apply Hok.
  - exists e'. split; [apply slot_at_insert; [lia|by left]|]. split; [by split|done].
  - intros k' d'. apply (insert_maps ht _ a e e' k d); try done; [by left|].
    intros b x Hb Hm. by destruct (Hno b x).
  - cbn. lia.
  - cbn. destruct (e_deleted e); lia.
  - done.
Qed.

Lemma inserted_found ht k d a e :
  ht_ok ht -> slot_at (table ht) a e -> matches key_equals k e ->
  inserted ht k d a
    (set_table ht (<[Z.to_nat a := HashEntry (e_hash e) true false k d]> (table ht))).
Proof using KeyOps0.
  intros Hok Hat Hm. pose proof Hm as [Hp Hk]. set (e' := HashEntry (e_hash e) true false k d).
  pose proof (to_length _ _ _ _ (ho_table _ Hok)) as Hlen.
  pose proof (slot_at_range (ht_size ht) _ a e Hlen Hat) as Hra.
  assert (Hkk : key_equals k k = true) by apply (ko_refl (key_hash := key_hash)).
  assert (Hde : e_deleted e = false).
  { apply (ho_exclusive _ Hok); [apply slot_at_elem; eauto|done]. }
  cbn in Hp. constructor.
  - apply (ht_ok_write ht a e e'); try done; cbn; rewrite ?Hp, ?Hde; try lia.
    apply (table_ok_replace key_hash key_equals _ (ho_size_ok _ Hok) (table ht) a e e'); try done; [apply Hok|].
    by rewrite (ko_sym (key_hash := key_hash)).
  - exists e'. split; [apply slot_at_insert; [lia|by left]|]. split; [by split|done].
  - intros k' d'. apply (insert_maps ht _ a e e' k d); try done; [by right|].
    intros b x Hb [Hpx Hkx]. symmetry. apply (to_unique _ _ _ _ (ho_table _ Hok) a b e x Hat Hb Hp).
    split; [done|]. eapply (ko_trans (key_hash := key_hash)); [|exact Hkx].
    by rewrite (ko_sym (key_hash := key_hash)).
  - cbn. lia.
  - cbn. lia.
  - done.
Qed.

(** The ways an insertion can end, for any result of the allocation.  A table that
    fits its limit takes the entry.  One that has outgrown it, because the
    allocation of an earlier insertion has failed, may also be emptied first, by the
    fast path of the rehash, or have no slot left if the allocation fails again. *)
Record insert_outcome (alloc : bool) ht k d (r : option Z) ht' : Prop := {
  io_ok : ht_ok ht';
  io_fits : alloc = true -> ht_fits ht';
  io_count : entries ht' <= entries ht + 1;
  io_cases : (exists a, r = Some a /\ inserted ht k d a ht')
    \/ (~ ht_fits ht /\ exists a ht1, r = Some a /\ (forall k' d', ~ ht_maps ht1 k' d')
                           /\ inserted ht1 k d a ht')
    \/ (~ ht_fits ht /\ alloc = false /\ r = None /\ ht' = ht
        /\ entries ht = size (ht_size ht) /\ forall d', ~ ht_maps ht k d');
}.

Lemma resized_outcome alloc ht ht1 k d a ht' :
  ht_ok ht -> resized alloc ht ht1 -> inserted ht1 k d a ht' -> insert_outcome alloc ht k d (Some a) ht'.
Proof.
  intros Hok [R1 R2 R3 R4 R5 R6] [H1 H2 H3 H4 H5 H6]. pose proof (counter_range _ Hok).
  constructor; [done| | |].
  - intros Ha. specialize (R4 Ha). unfold ht_fits. lia.
  - destruct R2 as [[? _]|(_ & ? & _)]; lia.
  - destruct R2 as [[He Hm]|(Hnf & He & Hm)].
    + left. exists a. split; [done|]. constructor; try done; try lia.
      intros k' d'. rewrite H3. by destruct (key_equals k k').
    + right; left. split; [done|]. by exists a, ht1.
Qed.

Lemma insert_any_spec alloc ht k d :
  ht_ok ht -> has_capacity ht ->
  exists r ht', insert alloc ht (key_hash k) k d = Some (r, ht') /\ insert_outcome alloc ht k d r ht'.
Proof using KeyOps0.
  intros Hok Hcap. unfold hash_table_insert, hash_table_get_entry.
  destruct (get_entry_resize_spec alloc ht Hok Hcap) as (ht1 & -> & Hres).
  pose proof (fun a ht' => resized_outcome alloc ht ht1 k d a ht' Hok Hres) as Hstep.
  pose proof (rs_ok _ _ _ Hres) as Hok1.
  cbn [mbind option_bind]. pose proof (ho_table _ Hok1) as Htok. pose proof (ho_size_ok _ Hok1) as Hts.
  destruct (probe_get_spec key_hash key_equals _ Hts (get_body key_equals (key_hash k) k) (table ht1) k)
    as (r & -> & Hr); [done|done|]. cbn [mbind option_bind].
  pose proof (to_length _ _ _ _ Htok) as Hlen. pose proof (counter_range _ Hok1) as Hcr.
  destruct (loop_result r) as [[a|]|a]; cbn [get_outcome] in Hr.
  - destruct Hr as [Hno Hav]. pose proof Hav as (i & e & _ & _ & Hat & Hnp & _).
    pose proof (slot_at_range _ _ a e Hlen Hat) as Hra. pose proof (proj2 Hat) as Hlk. rewrite Hlk.
    eexists (Some a), _. split; [|apply Hstep, (inserted_available ht1 k d a e); done].
    pose proof (deleted_positive ht1 a e Hok1 Hat) as Hdp. cbn [mbind option_bind]. unfold update_entry.
    destruct (e_deleted e) eqn:Ed; cbn; rewrite Hlk; cbn; rewrite list_lookup_insert_eq by lia; cbn;
      rewrite list_insert_insert_eq; unfold set_table, set_entries; cbn; rewrite ?u32_small by lia;
      repeat f_equal; lia.
  - destruct Hr as [Hno Hall].
    assert (Hfull : entries ht1 = size (ht_size ht1)).
    { rewrite (ho_entries _ Hok1), <- Hlen. apply slot_count_all. intros i e He.
      apply (Hall (Z.of_nat i)). split; [lia|]. by rewrite Nat2Z.id. }
    destruct alloc; [pose proof (rs_room _ _ _ Hres eq_refl); lia|].
    destruct (rs_same _ _ _ Hres eq_refl) as [->|?]; [|lia].
    exists None, ht. split; [done|]. constructor; try done; [lia|].
    right; right. split_and!; try done; [unfold ht_fits; lia|].
    intros d' (e & [b Hb]%slot_at_elem & Hm & _). by apply (Hno b e).
  - destruct Hr as (e & Hat & Hm). eexists (Some a), _.
    split; [|apply Hstep, (inserted_found ht1 k d a e); done].
    cbn [mbind option_bind]. unfold update_entry. by rewrite (proj2 Hat).
Qed.

(** A table that fits takes the entry whether or not the allocation is given. *)
Lemma insert_spec alloc ht k d :
  ht_ok ht -> ht_fits ht -> has_capacity ht ->
  exists a ht', insert alloc ht (key_hash k) k d = Some (Some a, ht') /\ inserted ht k d a ht'
    /\ (alloc = true -> ht_fits ht').
Proof using KeyOps0.
  intros Hok Hfit Hcap. destruct (insert_any_spec alloc ht k d Hok Hcap) as (r & ht' & E & [H1 H2 H3 H4]).
  destruct H4 as [(a & -> & H4)|[(? & _)|(? & _)]]; [|done..]. by exists a, ht'.
Qed.

(** ** Removal *)

Lemma remove_spec ht k a e :
  ht_ok ht -> slot_at (table ht) a e -> matches key_equals k e ->
  exists ht', _mesa_hash_table_remove ht (Some a) = Some ht' /\ ht_ok ht'
    /\ (forall k' d', ht_maps ht' k' d' <-> key_equals k k' = false /\ ht_maps ht k' d')
    /\ entries ht' = entries ht - 1 /\ deleted_entries ht' = deleted_entries ht + 1
    /\ ht_size ht' = ht_size ht.
Proof using KeyOps0.
  intros Hok Hat Hm. pose proof Hm as [Hp Hk]. cbn in Hp.
  pose proof (to_length _ _ _ _ (ho_table _ Hok)) as Hlen.
  pose proof (slot_at_range _ _ a e Hlen Hat) as Hra. pose proof (counter_range _ Hok).
  assert (Hde : e_deleted e = false).
  { apply (ho_exclusive _ Hok); [apply slot_at_elem; eauto|done]. }
  set (e' := HashEntry (e_hash e) false true (e_key e) (e_data e)).
  assert (Hpos : 0 < entries ht).
  { rewrite (ho_entries _ Hok).
    pose proof (slot_count_insert e_present (table ht) (Z.to_nat a) e e' (proj2 Hat)) as Hi.
    pose proof (slot_count_range e_present (<[Z.to_nat a := e']> (table ht))).
    rewrite Hp in Hi. cbn in Hi. lia. }
  unfold _mesa_hash_table_remove, update_entry. rewrite (proj2 Hat). cbn.
  rewrite !u32_small by lia. eexists. split; [done|].
  split; [|split; [|done]].
  - apply (ht_ok_write ht a e e'); try done; cbn; rewrite ?Hp, ?Hde; try lia.
    apply (table_ok_delete key_hash key_equals _ (ho_size_ok _ Hok) (table ht) a e e'); done || apply Hok.
  - by apply (slot_maps_delete key_hash key_equals e_data (ht_size ht) (table ht) a e e'); [apply Hok|..].
Qed.

Lemma remove_key_spec ht k :
  ht_ok ht ->
  exists ht', _mesa_hash_table_remove_key key_hash key_equals ht k = Some ht' /\ ht_ok ht'
    /\ (forall k' d', ht_maps ht' k' d' <-> key_equals k k' = false /\ ht_maps ht k' d')
    /\ entries ht' <= entries ht /\ (ht_fits ht -> ht_fits ht').
Proof using KeyOps0.
  intros Hok. unfold _mesa_hash_table_remove_key, _mesa_hash_table_search.
  destruct (search_spec ht k Hok) as (r & -> & Hr). cbn [mbind option_bind]. destruct r as [a|].
  - destruct Hr as (e & Hat & Hm). destruct (remove_spec ht k a e Hok Hat Hm) as (ht' & E & H1 & H2 & H3 & H4 & H5).
    exists ht'. split_and!; try done; [lia|]. unfold ht_fits. rewrite H5. lia.
  - exists ht. split_and!; try done. intros k' d'. split; [|tauto]. intros Hm. split; [|done].
    apply not_true_is_false. intros Hk. apply (Hr d'). destruct Hm as (e & Hin & [Hp Hme] & He).
    exists e. split; [done|]. split; [|done]. split; [done|].
    by eapply (ko_trans (key_hash := key_hash)).
Qed.

(** ** Clearing *)

Lemma clear_spec ht del :
  ht_ok ht ->
  exists ht', _mesa_hash_table_clear null_key null_data ht del
      = Some (ht', if del then filter (fun e => e_present e = true) (table ht) else [])
    /\ ht_ok ht' /\ (forall k d, ~ ht_maps ht' k d) /\ entries ht' = 0 /\ deleted_entries ht' = 0
    /\ ht_size ht' = ht_size ht.
Proof using KeyOps0.
  intros Hok. unfold _mesa_hash_table_clear. destruct del.
  - eexists. split; [done|]. pose proof (ho_size_ok _ Hok) as Hts. pose proof (sz_max _ Hts).
    set (clear := fun e => HashEntry (e_hash e) false false (e_key e) (e_data e)).
    assert (Hz : forall e, e ∈ map clear (table ht) -> e_present e = false /\ e_deleted e = false).
    { intros e (x & -> & _)%list_elem_of_fmap. done. }
    assert (Hc : forall p : hash_entry K D -> bool, (forall e, p (clear e) = false) ->
      slot_count p (map clear (table ht)) = 0).
    { intros p Hp. apply slot_count_zero. intros i e He. apply list_lookup_fmap_Some in He as (x & -> & _).
      apply Hp. }
    split_and!; [constructor; cbn; rewrite ?Hc by done; try apply Hok; try done; try lia| |done..].
    + apply table_ok_empty; [done| |intros e He; by apply Hz].
      rewrite length_fmap. apply Hok.
    + intros e He. by rewrite (proj1 (Hz e He)).
    + intros k d (e & Hin & [Hp _] & _). cbn in *. by rewrite (proj1 (Hz e Hin)) in Hp.
  - rewrite clear_fast_spec by done. cbn [mbind option_bind]. eexists. split; [done|].
    split_and!; [|intros k d; apply zero_table_maps|done..].
    apply zero_table_ok; [by apply ho_size_ok|apply Hok|apply Hok].
Qed.

(** ** Reservation *)

(** What a reservation leaves: the same map, in a table that has room for [n]
    entries if the allocation was given. *)
Record reserved (alloc : bool) ht (n : Z) ht' : Prop := {
  rv_ok : ht_ok ht';
  rv_entries : entries ht' = entries ht;
  rv_maps : forall k d, ht_maps ht' k d <-> ht_maps ht k d;
  rv_fits : ht_fits ht -> ht_fits ht';
  rv_room : alloc = true -> n <= max_entries (ht_size ht');
}.

Lemma reserve_loop_spec alloc ht n rows i :
  ht_ok ht -> rows = drop (Z.to_nat i) hash_sizes -> size_index (ht_size ht) < i <= 26 ->
  n < 2 ^ 30 ->
  exists ht', reserve_loop null_key null_data alloc ht n rows i = Some ht' /\ reserved alloc ht n ht'.
Proof using KeyOps0.
  intros Hok. revert i. induction rows as [|row rows IH]; intros i Hrows Hi Hn.
  { apply (f_equal length) in Hrows. rewrite length_drop in Hrows. cbn in Hrows. lia. }
  pose proof (ho_index _ Hok) as Hidx. cbn [reserve_loop].
  assert (Hrow : hash_sizes !! Z.to_nat i = Some row).
  { rewrite <- (Nat.add_0_r (Z.to_nat i)), <- lookup_drop, <- Hrows. done. }
  pose proof (hash_sizes_max _ _ Hrow) as Hmax. rewrite Z2Nat.id in Hmax by lia.
  destruct (Z.geb_spec (hs_max_entries row) n) as [Hge|Hlt].
  - assert (Hroom : forall ts, set_size_index i = Some ts -> entries ht <= max_entries ts).
    { intros ts Ets. pose proof (counter_range _ Hok).
      assert (0 <= size_index (ht_size ht) < i) as Hij by lia.
      pose proof (set_size_index_next _ _ _ _ Hij (ho_row _ Hok) Ets). lia. }
    destruct alloc.
    + destruct (rehash_spec ht i Hok) as (ht' & E & [H1 H2 H3 H4 H5]); [lia|done|lia|].
      pose proof (ho_row _ H1) as Hr. rewrite H2 in Hr. specialize (Hroom _ Hr).
      exists ht'. split; [done|]. constructor; try done; [unfold ht_fits; lia|].
      intros _. rewrite (ho_max_pow _ H1), H2. lia.
    + exists ht. split; [|by constructor]. unfold _mesa_hash_table_rehash.
      destruct (Z.eqb_spec (size_index (ht_size ht)) i); [lia|]. cbn [andb]. by destruct (i >=? _).
  - destruct (Z.eq_dec i 26) as [->|]; [change (4 + 26) with 30 in Hmax; lia|].
    apply IH; [|lia|lia]. replace (Z.to_nat (i + 1)) with (Z.to_nat i + 1)%nat by lia.
    rewrite <- drop_drop, <- Hrows. done.
Qed.

Lemma table_reserve_spec alloc ht n :
  ht_ok ht -> 0 <= n < 2 ^ 30 ->
  exists r ht', _mesa_hash_table_reserve null_key null_data alloc ht n = Some (r, ht')
    /\ reserved alloc ht n ht' /\ (r = true <-> n <= max_entries (ht_size ht')).
Proof using KeyOps0.
  intros Hok Hn. unfold _mesa_hash_table_reserve. pose proof (ho_index _ Hok) as Hidx.
  pose proof (ho_max_pow _ Hok) as Hmx.
  destruct (Z.ltb_spec n (max_entries (ht_size ht))).
  { exists true, ht. split; [done|]. split; [constructor; try done; lia|lia]. }
  assert (size_index (ht_size ht) <> 26).
  { intros E. rewrite E in Hmx. change (4 + 26) with 30 in Hmx. lia. }
  destruct (reserve_loop_spec alloc ht n _ (size_index (ht_size ht) + 1) Hok eq_refl)
    as (ht' & -> & H1); [lia|lia|]. cbn [mbind option_bind]. eexists _, ht'.
  split; [done|]. split; [done|]. apply Z.geb_le.
Qed.

(** ** Cloning *)

Lemma index_lt_size_lt ht ht' :
  ht_ok ht -> ht_ok ht' -> size_index (ht_size ht) < size_index (ht_size ht') ->
  size (ht_size ht) < size (ht_size ht').
Proof.
  intros H H' Hl. apply (set_size_index_lt (size_index (ht_size ht)) (size_index (ht_size ht')));
    [|apply H|apply H']. split; [apply H|done].
Qed.

Lemma same_index_same_row ht ht' :
  ht_ok ht -> ht_ok ht' -> size_index (ht_size ht) = size_index (ht_size ht') -> ht_size ht = ht_size ht'.
Proof.
  intros H H' E. pose proof (ho_row _ H) as E1. pose proof (ho_row _ H') as E2. rewrite E in E1. congruence.
Qed.

Lemma same_size_same_row ht ht' :
  ht_ok ht -> ht_ok ht' -> size (ht_size ht) = size (ht_size ht') -> ht_size ht = ht_size ht'.
Proof.
  intros H H' E. apply same_index_same_row; [done..|].
  destruct (Z.lt_trichotomy (size_index (ht_size ht)) (size_index (ht_size ht'))) as [Hl|[Hl|Hl]];
    [|done|]; [pose proof (index_lt_size_lt _ _ H H' Hl)|pose proof (index_lt_size_lt _ _ H' H Hl)]; lia.
Qed.

Lemma size_lt_index_lt ht ht' :
  ht_ok ht -> ht_ok ht' -> size (ht_size ht) < size (ht_size ht') ->
  size_index (ht_size ht) < size_index (ht_size ht').
Proof.
  intros H H' E. apply Z.nle_gt. intros Hle.
  destruct (Z.eq_dec (size_index (ht_size ht')) (size_index (ht_size ht))) as [Ei|].
  - rewrite (same_index_same_row _ _ H' H Ei) in E. lia.
  - pose proof (index_lt_size_lt _ _ H' H ltac:(lia)). lia.
Qed.

Lemma insert_all_spec l dst :
  ht_ok dst -> ht_fits dst -> distinct_keys key_equals l ->
  (forall e, e ∈ l -> e_present e = true /\ e_hash e = key_hash (e_key e)) ->
  entries dst + Z.of_nat (length l) <= max_entries (ht_size dst) ->
  (forall e d, e ∈ l -> ~ ht_maps dst (e_key e) d) ->
  exists dst', insert_all null_key null_data key_hash key_equals true dst l = Some dst' /\ ht_ok dst'
    /\ ht_fits dst'
    /\ (forall k d, ht_maps dst' k d <->
          ht_maps dst k d \/ exists e, e ∈ l /\ matches key_equals k e /\ e_data e = d).
Proof using KeyOps0.
  revert dst. induction l as [|e l IH]; intros dst Hok Hfit Hd Hl Hc Hno.
  { exists dst. split_and!; try done. intros k d. split; [tauto|]. intros [?|(e & ?%elem_of_nil & _)]; done. }
  destruct (Hl e ltac:(set_solver)) as [Hp Hh]. inversion Hd as [|? ? Hd1 Hd2]; subst.
  rewrite Forall_forall in Hd1. cbn [length] in Hc. cbn [insert_all].
  unfold _mesa_hash_table_insert_pre_hashed. rewrite Hh, Z.eqb_refl.
  destruct (insert_spec true dst (e_key e) (e_data e) Hok Hfit)
    as (a & dst1 & -> & [H1 H2 H3 H4 _ Hrow] & Hfit1); [right; lia|].
  cbn [mbind option_bind].
  destruct (IH dst1 H1 (Hfit1 eq_refl) Hd2) as (dst' & -> & Hok' & Hfit' & Hm').
  - intros x Hx. apply Hl. set_solver.
  - lia.
  - intros x d Hx Hm. apply H3 in Hm. specialize (Hd1 x Hx). cbn in Hd1. rewrite Hd1 in Hm.
    apply (Hno x d); [set_solver|done].
  - exists dst'. split_and!; try done. intros k d. rewrite Hm', H3. split.
    + intros [Hm|(x & Hx & Hmx)]; [|right; exists x; set_solver].
      destruct (key_equals (e_key e) k) eqn:Ek; [|by left]. subst d. right. exists e.
      split; [set_solver|]. split; [|done]. split; [done|]. by rewrite (ko_sym (key_hash := key_hash)).
    + intros [Hm|(x & [->|Hx]%elem_of_cons & [Hpx Hkx] & Hdx)].
      * left. destruct (key_equals (e_key e) k) eqn:Ek; [|done]. exfalso.
        apply (Hno e d); [set_solver|]. destruct Hm as (y & Hy & [Hpy Hky] & Hdy). exists y.
        split; [done|]. split; [|done]. split; [done|]. by eapply (ko_trans (key_hash := key_hash)).
      * left. cbn in Hkx. by rewrite (ko_sym (key_hash := key_hash)), Hkx.
      * right. exists x. split; [done|]. split; [by split|done].
Qed.

Lemma clone_into_spec dst src :
  ht_ok dst -> ht_ok src ->
  exists dst', _mesa_hash_table_clone_into null_key null_data key_hash key_equals true dst src
      = Some (Some dst')
    /\ ht_ok dst' /\ (forall k d, ht_maps dst' k d <-> ht_maps src k d).
Proof using KeyOps0.
  intros Hd Hs. unfold _mesa_hash_table_clone_into.
  destruct (Z.ltb_spec (size (ht_size dst)) (size (ht_size src))).
  { eexists. split; [done|]. by destruct src. }
  destruct (Z.eqb_spec (size (ht_size dst)) (size (ht_size src))) as [E|E].
  { eexists. split; [done|]. rewrite (same_size_same_row dst src Hd Hs E). by destruct src. }
  destruct (clear_spec dst false Hd) as (d1 & -> & H1 & H2 & H3 & Hdel & Hrow). cbn [mbind option_bind].
  unfold hash_table_foreach. rewrite foreach_spec. cbn [mbind option_bind].
  rewrite present_from_entries. set (l := filter _ (table src)).
  pose proof (counter_range _ H1).
  destruct (insert_all_spec l d1 H1) as (d2 & -> & H4 & Hfit & H5); [unfold ht_fits; lia|..].
  - apply (distinct_present key_hash key_equals (ht_size src)), Hs.
  - intros e [Hp Hin]%list_elem_of_filter. split; [done|].
    apply slot_at_elem in Hin as [a Ha]. by apply (to_hash _ _ _ _ (ho_table _ Hs) a).
  - rewrite H3, Hrow. unfold l. rewrite <- slot_count_filter.
    change slot_present with (@e_present K D). rewrite <- (ho_entries _ Hs). pose proof (counter_range _ Hs).
    assert (0 <= size_index (ht_size src) < size_index (ht_size dst)) as Hij
      by (split; [apply Hs|apply size_lt_index_lt; done || lia]).
    pose proof (set_size_index_next _ _ _ _ Hij (ho_row _ Hs) (ho_row _ Hd)). lia.
  - intros e d _. apply H2.
  - cbn [mbind option_bind]. eexists. split; [done|]. split; [done|]. intros k d. rewrite H5.
    unfold l. split.
    + intros [Hm|(e & [Hp Hin]%list_elem_of_filter & Hm)]; [by apply H2 in Hm|]. exists e. done.
    + intros (e & Hin & Hm & Hde). right. exists e. split; [|done]. apply list_elem_of_filter.
      split; [apply Hm|done].
Qed.

(** ** Iteration *)

Lemma random_scan_spec (pred : hash_entry K D -> bool) l i :
  match random_scan pred l i with
  | Some a => exists n e, a = i + Z.of_nat n /\ l !! n = Some e /\ e_present e = true /\ pred e = true
  | None => forall e, e ∈ l -> e_present e = true -> pred e = false
  end.
Proof.
  revert i. induction l as [|e l IH]; intros i; cbn [random_scan]; [intros e ?%elem_of_nil; done|].
  destruct (e_present e && pred e) eqn:Ec.
  - zbool. exists 0%nat, e. split_and!; try done. lia.
  - specialize (IH (i + 1)). destruct (random_scan pred l (i + 1)) as [a|].
    + destruct IH as (n & x & -> & H). exists (S n), x. split; [lia|done].
    + intros x [->|Hx]%elem_of_cons Hp; [|by apply IH]. by rewrite Hp in Ec.
Qed.

Lemma next_unsafe_spec ht fuel i :
  ht_ok ht -> deleted_entries ht = 0 -> entries ht <> 0 -> 0 <= i <= size (ht_size ht) ->
  size (ht_size ht) - i < Z.of_nat fuel ->
  next_entry_unsafe fuel ht (Some (i - 1)) = Some (next_scan (drop (Z.to_nat i) (table ht)) i).
Proof.
  intros Hok Hd He. pose proof (to_length _ _ _ _ (ho_table _ Hok)) as Hlen.
  revert i. induction fuel as [|fuel IH]; intros i Hi Hf; [lia|]. cbn [next_entry_unsafe].
  rewrite Hd. cbn [Z.eqb]. destruct (Z.eqb_spec (entries ht) 0); [done|].
  replace (i - 1 + 1) with i by lia. destruct (Z.eqb_spec i (size (ht_size ht))) as [->|].
  - rewrite drop_ge by lia. done.
  - destruct (lookup_lt_is_Some_2 (table ht) (Z.to_nat i)) as [e Hl]; [lia|]. rewrite Hl.
    cbn [mbind option_bind]. rewrite (drop_S _ e) by done. cbn [next_scan].
    change (slot_present e) with (e_present e). destruct (e_present e); [done|].
    replace (Some i) with (Some (i + 1 - 1)) by (f_equal; lia). rewrite IH by lia.
    by replace (S (Z.to_nat i)) with (Z.to_nat (i + 1)) by lia.
Qed.

(** ** Sequences of operations *)

(** The operations that change a table, with the result of the allocation they
    may make. *)
Inductive ht_op :=
| op_insert (alloc : bool) (k : K) (d : D)
| op_remove (k : K)
| op_clear (delete_function : bool)
| op_reserve (alloc : bool) (n : Z).

(** One call: its result, as whether an insertion returns an entry and what a
    reservation returns, and the table after it. *)
Definition run_op (ht : hash_table K D) (op : ht_op) : option (bool * hash_table K D) :=
  match op with
  | op_insert alloc k d =>
      '(r, ht) ← _mesa_hash_table_insert null_key null_data key_hash key_equals alloc ht k d;
      Some (match r with Some _ => true | None => false end, ht)
  | op_remove k => ht ← _mesa_hash_table_remove_key key_hash key_equals ht k; Some (true, ht)
  | op_clear del => '(ht, _) ← _mesa_hash_table_clear null_key null_data ht del; Some (true, ht)
  | op_reserve alloc n => _mesa_hash_table_reserve null_key null_data alloc ht n
  end.

Fixpoint run_ops (ht : hash_table K D) (ops : list ht_op) : option (list bool * hash_table K D) :=
  match ops with
  | [] => Some ([], ht)
  | op :: ops =>
      '(r, ht) ← run_op ht op;
      '(rs, ht) ← run_ops ht ops;
      Some (r :: rs, ht)
  end.

(** The abstract map the operations are meant to implement. *)
Definition map_put (m : K -> option D) (k : K) (d : D) : K -> option D :=
  fun k' => if key_equals k k' then Some d else m k'.
Definition map_del (m : K -> option D) (k : K) : K -> option D :=
  fun k' => if key_equals k k' then None else m k'.
Definition map_empty : K -> option D := fun _ => None.

Definition abs_op (m : K -> option D) (op : ht_op) : K -> option D :=
  match op with
  | op_insert _ k d => map_put m k d
  | op_remove k => map_del m k
  | op_clear _ => map_empty
  | op_reserve _ _ => m
  end.

(** The contract for any results of the allocations, on a map and the flag that the
    allocation of the last insertion since the last clear has failed.  While the flag
    is down every operation acts on the map, an insertion without memory too.  With
    the flag up an insertion may also forget all earlier entries, or be refused if
    there is again no memory and the key is not in the map. *)
Inductive map_step : (K -> option D) * bool -> ht_op -> bool -> (K -> option D) * bool -> Prop :=
| step_insert m f alloc k d :
    map_step (m, f) (op_insert alloc k d) true (map_put m k d, negb alloc)
| step_insert_emptied m alloc k d :
    map_step (m, true) (op_insert alloc k d) true (map_put map_empty k d, negb alloc)
| step_insert_refused m k d :
    m k = None -> map_step (m, true) (op_insert false k d) false (m, true)
| step_remove m f k : map_step (m, f) (op_remove k) true (map_del m k, f)
| step_clear m f del : map_step (m, f) (op_clear del) true (map_empty, false)
| step_reserve m f alloc n r :
    (alloc = true -> r = true) -> map_step (m, f) (op_reserve alloc n) r (m, f).

Inductive map_steps : (K -> option D) * bool -> list ht_op -> list bool -> (K -> option D) * bool -> Prop :=
| steps_nil s : map_steps s [] [] s
| steps_cons s op r s1 ops rs s2 :
    map_step s op r s1 -> map_steps s1 ops rs s2 -> map_steps s (op :: ops) (r :: rs) s2.

(** The allocation of the operation, if it makes one, is given. *)
Definition op_alloc (op : ht_op) : bool :=
  match op with op_insert alloc _ _ | op_reserve alloc _ => alloc | _ => true end.

(** The number of insertions. *)
Definition insertions (ops : list ht_op) : Z :=
  slot_count (fun op => match op with op_insert _ _ _ => true | _ => false end) ops.

(** With memory the contract is the map. *)
Lemma map_steps_alloc m ops rs s :
  map_steps (m, false) ops rs s -> forallb op_alloc ops = true ->
  Forall (fun r => r = true) rs /\ fst s = fold_left abs_op ops m.
Proof.
  remember (m, false) as s0 eqn:E0. intros Hs. revert m E0.
  induction Hs as [s|s0 op r s1 ops rs s2 Hstep _ IH]; intros m ->; [by intros _|].
  cbn [forallb fold_left]. intros [Ha Hops]%andb_true_iff.
  assert (r = true /\ s1 = (abs_op m op, false)) as [-> ->].
  { inversion Hstep; subst; cbn [op_alloc abs_op] in *; subst; cbn [negb]; auto; discriminate. }
  destruct (IH _ eq_refl Hops) as [H1 H2]. split; [by constructor|done].
Qed.

(** The data [_mesa_hash_table_search] finds for a key. *)
Definition ht_lookup (ht : hash_table K D) (k : K) : option (option D) :=
  entry ← _mesa_hash_table_search key_hash key_equals ht k;
  match entry with
  | None => Some None
  | Some a => e ← table ht !! Z.to_nat a; Some (Some (e_data e))
  end.

(** The simulation relation. *)
Definition ht_sim (n : Z) (ht : hash_table K D) (s : (K -> option D) * bool) : Prop :=
  ht_ok ht /\ (forall k d, ht_maps ht k d <-> fst s k = Some d) /\ entries ht <= n
  /\ (snd s = false -> ht_fits ht).

Definition op_small (op : ht_op) : Prop :=
  match op with op_reserve _ n => 0 <= n < 2 ^ 30 | _ => True end.

Lemma capacity_of_count ht : ht_ok ht -> entries ht < 2 ^ 30 -> has_capacity ht.
Proof.
  intros Hok He. unfold has_capacity. pose proof (ho_index _ Hok).
  destruct (Z_lt_le_dec (size_index (ht_size ht)) 26); [by left|right].
  rewrite (ho_max_pow _ Hok). replace (4 + size_index (ht_size ht)) with 30 by lia. done.
Qed.

Lemma inserted_maps ht k d a ht' m :
  (forall k d, ht_maps ht k d <-> m k = Some d) -> inserted ht k d a ht' ->
  forall k' d', ht_maps ht' k' d' <-> map_put m k d k' = Some d'.
Proof.
  intros Hm Hin k' d'. rewrite (in_maps _ _ _ _ _ Hin). unfold map_put.
  destruct (key_equals k k'); [|apply Hm]. split; congruence.
Qed.

Lemma run_insert_sim n ht m f alloc k d :
  ht_sim n ht (m, f) -> n < 2 ^ 30 ->
  exists r ht' s, run_op ht (op_insert alloc k d) = Some (r, ht')
    /\ map_step (m, f) (op_insert alloc k d) r s /\ ht_sim (n + 1) ht' s.
Proof using KeyOps0.
  intros (Hok & Hm & Hn & Hfit) Hlt. cbn [run_op fst snd] in *. unfold _mesa_hash_table_insert.
  destruct (insert_any_spec alloc ht k d Hok) as (r & ht' & -> & [H1 H2 H3 H4]);
    [apply capacity_of_count; [done|lia]|]. cbn [mbind option_bind].
  destruct H4 as [(a & -> & Hin)|[(Hnf & a & ht1 & -> & Hno & Hin)|(Hnf & -> & -> & -> & _ & Hno)]].
  - eexists _, _, _. split; [done|]. split; [constructor|]. split; [done|]. cbn [fst snd].
    split; [by eapply inserted_maps|]. split; [lia|]. destruct alloc; [auto|done].
  - destruct f; [|by specialize (Hfit eq_refl)]. eexists _, _, _. split; [done|].
    split; [apply step_insert_emptied|]. split; [done|]. cbn [fst snd].
    split; [|split; [lia|destruct alloc; [auto|done]]]. eapply inserted_maps; [|done]. intros k' d'.
    split; [intros Hx; by apply Hno in Hx|done].
  - destruct f; [|by specialize (Hfit eq_refl)]. eexists _, _, _. split; [done|].
    split; [apply step_insert_refused|split_and!; try done; lia].
    destruct (m k) as [d'|] eqn:E; [|done]. apply Hm in E. by apply Hno in E.
Qed.

Lemma run_op_sim n ht s op :
  ht_sim n ht s -> n + insertions [op] <= 2 ^ 30 -> op_small op ->
  exists r ht' s', run_op ht op = Some (r, ht') /\ map_step s op r s'
    /\ ht_sim (n + insertions [op]) ht' s'.
Proof using KeyOps0.
  destruct s as [m f]. intros Hs Hlt Hsmall. destruct op as [alloc k d|k|del|alloc r];
    unfold insertions in *; cbn [slot_count] in *; rewrite ?Z.add_0_r in *;
    [apply run_insert_sim; [done|lia]|..]; destruct Hs as (Hok & Hm & Hn & Hfit); cbn [run_op fst snd] in *.
  - destruct (remove_key_spec ht k Hok) as (ht' & -> & H1 & H2 & H3 & H4). cbn [mbind option_bind].
    eexists _, _, _. split; [done|]. split; [constructor|]. split_and!; cbn [fst snd]; [done| |lia|auto].
    intros k' d'. rewrite H2, Hm. unfold map_del. destruct (key_equals k k'); intuition congruence.
  - destruct (clear_spec ht del Hok) as (ht' & -> & H1 & H2 & H3 & H4 & H5). cbn [mbind option_bind].
    eexists _, _, _. split; [done|]. split; [constructor|].
    pose proof (counter_range _ Hok). pose proof (counter_range _ H1).
    split_and!; cbn [fst snd]; [done| |lia|intros _; unfold ht_fits; lia].
    intros k d. split; [intros Hx; by apply H2 in Hx|done].
  - destruct (table_reserve_spec alloc ht r Hok Hsmall) as (b & ht' & -> & [H1 H2 H3 H4 H5] & Hb).
    eexists _, _, _. split; [done|]. split; [constructor; intros Ha; by apply Hb, H5|].
    split_and!; cbn [fst snd]; [done| |lia|auto]. intros k d. rewrite H3. apply Hm.
Qed.

Lemma insertions_cons op ops : insertions (op :: ops) = insertions [op] + insertions ops.
Proof. unfold insertions. cbn [slot_count]. lia. Qed.

Lemma run_ops_sim ops n ht s :
  ht_sim n ht s -> n + insertions ops <= 2 ^ 30 -> Forall op_small ops ->
  exists rs ht' s', run_ops ht ops = Some (rs, ht') /\ map_steps s ops rs s'
    /\ ht_sim (n + insertions ops) ht' s'.
Proof using KeyOps0.
  revert n ht s. induction ops as [|op ops IH]; intros n ht s Hs Hn Hops; cbn [run_ops].
  { exists [], ht, s. split; [done|]. split; [constructor|]. unfold insertions. cbn. by rewrite Z.add_0_r. }
  apply Forall_cons_1 in Hops as [Hop Hops]. rewrite insertions_cons in *.
  pose proof (slot_count_range (fun op => match op with op_insert _ _ _ => true | _ => false end) ops) as Hr.
  fold (insertions ops) in Hr.
  destruct (run_op_sim n ht s op Hs ltac:(lia) Hop) as (r & ht1 & s1 & -> & Hst & Hs1).
  cbn [mbind option_bind].
  destruct (IH _ ht1 s1 Hs1) as (rs & ht2 & s2 & -> & Hsts & Hs2); [lia|done|]. cbn [mbind option_bind].
  exists (r :: rs), ht2, s2. split; [done|]. split; [by econstructor|]. by rewrite Z.add_assoc.
Qed.

(** The lookup function is the abstract relation. *)
Lemma ht_lookup_spec ht k :
  ht_ok ht -> exists r, ht_lookup ht k = Some r /\ forall d, ht_maps ht k d <-> r = Some d.
Proof using KeyOps0.
  intros Hok. destruct (search_spec ht k Hok) as (r & Er & Hr).
  unfold ht_lookup, _mesa_hash_table_search. rewrite Er. cbn [mbind option_bind]. destruct r as [b|].
  - destruct Hr as (e & Hat & Hm). rewrite (proj2 Hat). cbn. eexists. split; [done|]. intros d.
    assert (Hme : ht_maps ht k (e_data e)) by (exists e; split; [apply slot_at_elem; eauto|done]).
    split; [intros Hx; f_equal; by eapply ht_maps_fun|intros [= <-]; done].
  - eexists. split; [done|]. intros d. split; [intros Hx; by apply Hr in Hx|done].
Qed.

Lemma ht_lookup_eq ht k r :
  ht_ok ht -> (forall d, ht_maps ht k d <-> r = Some d) -> ht_lookup ht k = Some r.
Proof using KeyOps0.
  intros Hok Hr. destruct (ht_lookup_spec ht k Hok) as (r' & -> & Hr'). f_equal.
  destruct r as [d|].
  - apply Hr', Hr. done.
  - destruct r' as [d|]; [|done]. symmetry. apply Hr, Hr'. done.
Qed.

Lemma ht_sim_lookup n ht s k : ht_sim n ht s -> ht_lookup ht k = Some (fst s k).
Proof using KeyOps0. intros (Hok & Hm & _). by apply ht_lookup_eq. Qed.

Lemma init_sim : exists ht, _mesa_hash_table_init null_key null_data = Some ht
  /\ ht_sim 0 ht (map_empty, false) /\ ht_fits ht.
Proof using KeyOps0.
  destruct (set_size_index_ok 0 ltac:(lia)) as (ts & Ets & Hts & Hidx & row & Hrow & _ & Hsz).
  unfold _mesa_hash_table_init. rewrite Ets. cbn [mbind option_bind].
  assert (Hs : size ts = 19) by (rewrite Hsz; injection Hrow as <-; reflexivity). rewrite Hs. cbn [Z.eqb Pos.eqb].
  eexists. split; [done|]. pose proof (zero_table_ok ts Hts) as Hz. rewrite Hs, Hidx in Hz.
  change (Z.to_nat 19) with 19%nat in Hz. pose proof (sz_max _ Hts).
  assert (Hfit : ht_fits (HashTable (replicate 19 zero) ts 0 0)) by (unfold ht_fits; cbn; lia).
  unfold ht_sim. split_and!; [apply Hz; [lia|done]| |done..].
  intros k d. split; [intros Hm; by apply zero_table_maps in Hm|done].
Qed.

(** * Properties *)

(** C2: the hash table implements a finite map, for any results of its
    allocations.  From [_mesa_hash_table_init], take any sequence of insertions,
    removals, clears and reservations with at most [2^30] insertions and
    reservations below [2^30], each insertion and reservation with any result of its
    allocation.  It runs without a failed assertion, an access out of bounds or an
    endless probe, through all the rehashes it causes, its results and final state
    follow the contract [map_step], and [_mesa_hash_table_search] then finds for every
    key exactly the data of that contract's map.  If every allocation is given, each
    operation succeeds and the map is the one the same sequence gives on a map from
    keys to data.  Failures matter as [map_step] says: an insertion whose allocation
    fails still takes effect; the next one may find the table over its limit, and then
    either acts as usual, or drops the earlier entries, or, if its own allocation
    fails too and the key is new, returns NULL and changes nothing. *)
Theorem hash_table_refines_map (ops : list ht_op) :
  insertions ops <= 2 ^ 30 -> Forall op_small ops ->
  exists ht0 ht rs s, _mesa_hash_table_init null_key null_data = Some ht0
    /\ run_ops ht0 ops = Some (rs, ht) /\ ht_ok ht
    /\ map_steps (map_empty, false) ops rs s
    /\ (forall k, ht_lookup ht k = Some (fst s k))
    /\ (forallb op_alloc ops = true ->
          Forall (fun r => r = true) rs
          /\ forall k, ht_lookup ht k = Some (fold_left abs_op ops map_empty k)).
Proof using KeyOps0.
  intros Hlen Hsmall. destruct init_sim as (ht0 & E0 & Hs0 & _).
  destruct (run_ops_sim ops 0 ht0 _ Hs0) as (rs & ht & s & E & Hst & Hs); [lia|done|].
  exists ht0, ht, rs, s. pose proof (fun k => ht_sim_lookup _ _ _ k Hs) as Hl.
  split_and!; [done|done|apply Hs|done|done|]. intros Ha.
  destruct (map_steps_alloc _ _ _ _ Hst Ha) as [H1 H2]. split; [done|]. intros k. by rewrite Hl, H2.
Qed.

(** insertion, one step: the returned entry holds the key and the data, the key
    is mapped to the data, every other key keeps its data, and the invariant holds,
    whether a matching entry was replaced, a deleted or free slot reused, or the
    table rehashed in place or into the next size. *)
Theorem hash_table_insert_correct (ht : hash_table K D) (k : K) (d : D) :
  ht_ok ht -> ht_fits ht -> has_capacity ht ->
  exists a ht', _mesa_hash_table_insert null_key null_data key_hash key_equals true ht k d
      = Some (Some a, ht')
    /\ ht_ok ht' /\ ht_fits ht'
    /\ (exists e, table ht' !! Z.to_nat a = Some e /\ e_present e = true /\ e_key e = k /\ e_data e = d)
    /\ (forall k', ht_lookup ht' k' = if key_equals k k' then Some (Some d) else ht_lookup ht k').
Proof using KeyOps0.
  intros Hok Hfit Hcap.
  destruct (insert_spec true ht k d Hok Hfit Hcap) as (a & ht' & E & [H1 H2 H3 H4 H5 H6] & Hfit').
  exists a, ht'. split_and!; [exact E|done|auto| |].
  - destruct H2 as (e & [_ Hat] & [Hp _] & Hk & Hd). exists e. done.
  - intros k'. destruct (ht_lookup_spec ht k' Hok) as (r & -> & Hr).
    destruct (key_equals k k') eqn:Ek; apply ht_lookup_eq; try done; intros d'; rewrite H3, Ek; [|done].
    split; congruence.
Qed.

(** iteration.  [hash_table_foreach] runs its body on exactly the present
    entries, [entries] many, each key once;
    [_mesa_hash_table_next_entry_unsafe] goes through the same entries when none is
    deleted; and [_mesa_hash_table_random_entry] returns an entry that satisfies the
    predicate, for every value of [rand()], unless there is none. *)
Theorem hash_table_iteration_correct (ht : hash_table K D) :
  ht_ok ht ->
  (exists l, hash_table_foreach ht = Some l /\ Z.of_nat (length l) = entries ht
     /\ distinct_keys key_equals (map snd l)
     /\ forall e, e ∈ map snd l <-> e ∈ table ht /\ e_present e = true)
  /\ (deleted_entries ht = 0 -> entries ht <> 0 -> forall i, 0 <= i <= size (ht_size ht) ->
        next_entry_unsafe (S (length (table ht))) ht (Some (i - 1))
        = Some (_mesa_hash_table_next_entry ht (Some (i - 1))))
  /\ (forall rand predicate, 0 <= rand ->
        match _mesa_hash_table_random_entry rand ht predicate with
        | Some a => exists e, table ht !! Z.to_nat a = Some e /\ e_present e = true /\ predicate e = true
        | None => forall e, e ∈ table ht -> e_present e = true -> predicate e = false
        end).
Proof.
  intros Hok. pose proof (to_length _ _ _ _ (ho_table _ Hok)) as Hlen. split_and!.
  - unfold hash_table_foreach. rewrite foreach_spec. eexists. split; [done|].
    rewrite <- (length_map snd), present_from_entries, <- slot_count_filter. split_and!.
    + by rewrite (ho_entries _ Hok).
    + apply (distinct_present key_hash key_equals (ht_size ht)), Hok.
    + intros e. rewrite list_elem_of_filter. tauto.
  - intros Hd He i Hi. rewrite next_unsafe_spec by (done || lia).
    unfold _mesa_hash_table_next_entry, next_entry. by replace (i - 1 + 1) with i by lia.
  - intros rand pred Hr. unfold _mesa_hash_table_random_entry. pose proof (size_gt _ (ho_size_ok _ Hok)).
    destruct (Z.eqb_spec (entries ht) 0) as [Hz|_].
    { rewrite (ho_entries _ Hok), slot_count_zero in Hz. intros e [n Hn]%list_elem_of_lookup Hp.
      by rewrite (Hz n e Hn) in Hp. }
    pose proof (Z.mod_pos_bound rand (size (ht_size ht)) ltac:(lia)). set (i := rand mod _) in *.
    pose proof (random_scan_spec pred (drop (Z.to_nat i) (table ht)) i) as H1.
    pose proof (random_scan_spec pred (take (Z.to_nat i) (table ht)) 0) as H2.
    destruct (random_scan pred (drop _ _) i) as [a|].
    { destruct H1 as (n & e & -> & Hn & He). rewrite lookup_drop in Hn. exists e.
      by replace (Z.to_nat (i + Z.of_nat n)) with (Z.to_nat i + n)%nat by lia. }
    destruct (random_scan pred (take _ _) 0) as [a|].
    { destruct H2 as (n & e & -> & Hn & He). apply lookup_take_Some in Hn as [Hn _]. exists e.
      by replace (Z.to_nat (0 + Z.of_nat n)) with n by lia. }
    intros e Hin Hp. rewrite <- (take_drop (Z.to_nat i) (table ht)) in Hin.
    apply elem_of_app in Hin as [?|?]; auto.
Qed.

(** [_mesa_hash_table_clone_into] makes the destination a table with exactly the
    source's keys and data, whether it copies the storage, overwrites storage of
    the same size, or reinserts into a larger table. *)
Theorem hash_table_clone_into_correct (dst src : hash_table K D) :
  ht_ok dst -> ht_ok src ->
  exists dst', _mesa_hash_table_clone_into null_key null_data key_hash key_equals true dst src
      = Some (Some dst')
    /\ ht_ok dst' /\ forall k, ht_lookup dst' k = ht_lookup src k.
Proof using KeyOps0.
  intros Hd Hs. destruct (clone_into_spec dst src Hd Hs) as (dst' & E & Hok & Hm).
  exists dst'. split_and!; try done. intros k. destruct (ht_lookup_spec src k Hs) as (r & -> & Hr).
  apply ht_lookup_eq; [done|]. intros d. rewrite Hm. apply Hr.
Qed.
End theory.

(** ** Tables with pointer keys *)

#[export] Instance pointer_keys : KeyOps Z _mesa_hash_pointer _mesa_key_pointer_equal.
Proof.
  constructor; unfold _mesa_key_pointer_equal.
  - intros k. apply u32_fits.
  - intros a b ->%Z.eqb_eq. done.
  - apply Z.eqb_refl.
  - apply Z.eqb_sym.
  - intros a b c ->%Z.eqb_eq. done.
Qed.

Definition example_ops : list (@ht_op Z Z) :=
  [op_insert true 8 1; op_insert false 84 2; op_insert true 8 3; op_remove 84; op_reserve true 40;
   op_insert true 160 4].

Definition example_ops_alloc : list (@ht_op Z Z) :=
  [op_insert true 8 1; op_insert true 84 2; op_insert true 8 3; op_remove 84; op_reserve true 40;
   op_insert true 160 4].

(** With a failed allocation in the sequence, and without. *)
Lemma hash_table_refines_map_witness :
  (exists ht0 ht rs s, _mesa_hash_table_init 0 0 = Some ht0
    /\ run_ops 0 0 _mesa_hash_pointer _mesa_key_pointer_equal ht0 example_ops = Some (rs, ht)
    /\ map_steps _mesa_key_pointer_equal (map_empty, false) example_ops rs s)
  /\ exists ht0 ht rs, _mesa_hash_table_init 0 0 = Some ht0
    /\ run_ops 0 0 _mesa_hash_pointer _mesa_key_pointer_equal ht0 example_ops_alloc = Some (rs, ht)
    /\ ht_lookup _mesa_hash_pointer _mesa_key_pointer_equal ht 8 = Some (Some 3)
    /\ ht_lookup _mesa_hash_pointer _mesa_key_pointer_equal ht 84 = Some None.
Proof.
  split.
  - destruct (hash_table_refines_map 0 0 _mesa_hash_pointer _mesa_key_pointer_equal example_ops)
      as (ht0 & ht & rs & s & E0 & E & _ & Hs & _).
    + cbn. lia.
    + repeat constructor; cbn; lia.
    + exists ht0, ht, rs, s. split; [exact E0|]. split; [exact E|exact Hs].
  - destruct (hash_table_refines_map 0 0 _mesa_hash_pointer _mesa_key_pointer_equal example_ops_alloc)
      as (ht0 & ht & rs & s & E0 & E & _ & _ & _ & Ha).
    + cbn. lia.
    + repeat constructor; cbn; lia.
    + destruct (Ha eq_refl) as [_ Hl]. exists ht0, ht, rs. split; [exact E0|]. split; [exact E|].
      rewrite !Hl. split; reflexivity.
Defined.

(** The invariant holds initially. *)
Lemma init_ok :
  exists ht, _mesa_hash_table_init 0 0 = Some ht
    /\ ht_ok _mesa_hash_pointer _mesa_key_pointer_equal ht /\ ht_fits ht.
Proof.
  destruct (init_sim 0 0 _mesa_hash_pointer _mesa_key_pointer_equal) as (ht & E & [Hok _] & Hfit). eauto.
Qed.

Definition empty_u64 : hash_table_u64 := Eval vm_compute in
  match _mesa_hash_table_init 0 0 with Some ht => ht | None => HashTable [] (TableSize 0 0 0 0 0 0) 0 0 end.

Lemma empty_u64_ok : ht_ok _mesa_hash_pointer _mesa_key_pointer_equal empty_u64 /\ ht_fits empty_u64.
Proof.
  destruct init_ok as (ht & E & Hok). vm_compute in E. injection E as <-. exact Hok.
Qed.

Lemma hash_table_insert_correct_witness :
  exists a ht', _mesa_hash_table_insert 0 0 _mesa_hash_pointer _mesa_key_pointer_equal true empty_u64 8 1
      = Some (Some a, ht')
    /\ ht_lookup _mesa_hash_pointer _mesa_key_pointer_equal ht' 8 = Some (Some 1).
Proof.
  destruct (hash_table_insert_correct 0 0 _mesa_hash_pointer _mesa_key_pointer_equal empty_u64 8 1)
    as (a & ht' & E & _ & _ & _ & Hl).
  - apply empty_u64_ok.
  - apply empty_u64_ok.
  - left. reflexivity.
  - exists a, ht'. split; [exact E|]. rewrite Hl. reflexivity.
Defined.

Lemma hash_table_iteration_correct_witness :
  exists l, hash_table_foreach empty_u64 = Some l /\ l = [].
Proof.
  destruct (hash_table_iteration_correct _mesa_hash_pointer _mesa_key_pointer_equal empty_u64)
    as [(l & E & _) _].
  - apply empty_u64_ok.
  - exists l. split; [exact E|]. vm_compute in E. congruence.
Defined.

Lemma hash_table_clone_into_correct_witness :
  exists dst', _mesa_hash_table_clone_into 0 0 _mesa_hash_pointer _mesa_key_pointer_equal true
      empty_u64 empty_u64 = Some (Some dst')
    /\ ht_lookup _mesa_hash_pointer _mesa_key_pointer_equal dst' 8 = Some None.
Proof.
  destruct (hash_table_clone_into_correct 0 0 _mesa_hash_pointer _mesa_key_pointer_equal empty_u64 empty_u64)
    as (dst' & E & _ & Hl).
  - apply empty_u64_ok.
  - apply empty_u64_ok.
  - exists dst'. split; [exact E|]. rewrite Hl. reflexivity.
Defined.

(** ** Where the table loses entries *)

(** Insert and remove the keys [l], then go on. *)
Fixpoint insert_remove (alloc : bool) (ht : hash_table_u64) (l : list Z) : option hash_table_u64 :=
  match l with
  | [] => Some ht
  | k :: l =>
      ht ← _mesa_hash_table_u64_insert alloc ht k 1;
      ht ← _mesa_hash_table_u64_remove ht k;
      insert_remove alloc ht l
  end.

(** a failed allocation can make a later insertion drop entries.  The fast path
    of [_mesa_hash_table_rehash] takes [deleted_entries == max_entries] to mean that
    no entry is left, and asserts this only after clearing; but when the
    allocation for a rehash fails, insertion goes on in the old table, and live
    entries can coexist with [max_entries] deleted ones.  Here key 4 is inserted
    and never removed; with allocations failing from then on, 16 other keys are
    inserted and removed, and the insertion of one more key clears the table. *)
Theorem hash_table_loses_entry_after_failed_rehash :
  (ht ← _mesa_hash_table_u64_create;
   ht ← _mesa_hash_table_u64_insert true ht 4 7;
   ht ← insert_remove false ht (map (fun i => 4 * i) (seqZ 2 16));
   before ← _mesa_hash_table_u64_search ht 4;
   ht ← _mesa_hash_table_u64_insert false ht 100 9;
   after ← _mesa_hash_table_u64_search ht 4;
   Some (before, after)) = Some (7, 0).
Proof. vm_compute. reflexivity. Qed.
