(* ===== verification/HashSet.v ===== *)
(** * The hash set (src/util/set.c, set.h)

    The same open addressing as the hash table (ProbeTable.v), with the state of a
    slot in its key: the null pointer is a free slot and the address [deleted_key] a
    deleted one.  Keys are pointers, of which the code only uses these two values and
    the functions the set was created with.  The result of the allocations is an
    argument; [None] is a failed assertion, an access out of an array, or a loop that
    does not end. *)

From Stdlib Require Import ZArith Lia.
From stdpp Require Import base list numbers option sets.
From S2P Require Import Prelude FastDiv ProbeTable HashTable.
Local Open Scope Z_scope.

(** ** State *)

Record set_entry := SetEntry {
  se_hash : Z;
  se_key : Z;
}.

(** [struct set] without its function pointers, which are arguments of the
    operations; [s_initial] says that [table] is [_initial_storage]. *)
Record hash_set := HashSet {
  s_table : list set_entry;
  s_initial : bool;
  s_size : table_size;
  s_entries : Z;
  s_deleted : Z;
}.

Definition s_set_table (ht : hash_set) (t : list set_entry) : hash_set :=
  HashSet t (s_initial ht) (s_size ht) (s_entries ht) (s_deleted ht).
Definition s_set_counts (ht : hash_set) (n m : Z) : hash_set :=
  HashSet (s_table ht) (s_initial ht) (s_size ht) n m.

(** [entry->field = ...] through a pointer into the table. *)
Definition s_update (ht : hash_set) (a : Z) (f : set_entry -> set_entry) : option hash_set :=
  e ← s_table ht !! Z.to_nat a;
  Some (s_set_table ht (<[Z.to_nat a := f e]> (s_table ht))).

Definition set_key (key : Z) (e : set_entry) : set_entry := SetEntry (se_hash e) key.

Definition entry_is_free (entry : set_entry) : bool := se_key entry =? 0.
Definition entry_is_deleted (deleted_key : Z) (entry : set_entry) : bool := se_key entry =? deleted_key.
Definition entry_is_present (deleted_key : Z) (entry : set_entry) : bool :=
  negb (se_key entry =? 0) && negb (se_key entry =? deleted_key).

(** A [set_entry] as a slot of a probed table. *)
Definition set_slot (deleted_key : Z) : Slot set_entry Z := {|
  slot_present := entry_is_present deleted_key;
  slot_deleted := entry_is_deleted deleted_key;
  slot_hash := se_hash;
  slot_key := se_key;
|}.

(** ** Operations *)

Section operations.
Context (deleted_key : Z).
Context (key_hash_function : Z -> Z) (key_equals_function : Z -> Z -> bool).
#[local] Instance operations_slot : Slot set_entry Z := set_slot deleted_key.

Definition key_pointer_is_reserved (key : Z) : bool := (key =? 0) || (key =? deleted_key).

Definition _mesa_set_init : option hash_set :=
  ts ← set_size_index 0;
  assert! size ts =? 19 ;;
  Some (HashSet (replicate 19 (SetEntry 0 0)) true ts 0 0).

(** [_mesa_set_copy]; [None] is the result false, which leaves [dst] without a table. *)
Definition _mesa_set_copy (alloc : bool) (src : hash_set) : option hash_set :=
  if negb (s_initial src) then
    if negb alloc then None
    else Some (HashSet (take (Z.to_nat (size (s_size src))) (s_table src)) false
                 (s_size src) (s_entries src) (s_deleted src))
  else Some (HashSet (take 19 (s_table src)) true (s_size src) (s_entries src) (s_deleted src)).

Definition set_clear_fast (ht : hash_set) : option hash_set :=
  row ← hash_sizes !! Z.to_nat (size_index (s_size ht));
  let n := Z.to_nat (hs_size row) in
  Some (HashSet (replicate n (SetEntry 0 0) ++ drop n (s_table ht)) (s_initial ht) (s_size ht) 0 0).

(** [_mesa_set_clear]: the second result is the entries [delete_function], if there is
    one, is called on. *)
Definition _mesa_set_clear (ht : hash_set) (delete_function : bool)
    : option (hash_set * list set_entry) :=
  if delete_function then
    Some (s_set_counts (s_set_table ht (map (set_key 0) (s_table ht))) 0 0,
          filter (fun e => entry_is_present deleted_key e = true) (s_table ht))
  else
    ht ← set_clear_fast ht;
    Some (ht, []).

Definition set_search_body (hash key : Z) (acc : unit) (a : Z) (entry : set_entry) : unit + option Z :=
  if entry_is_free entry then inr None
  else if entry_is_present deleted_key entry && (se_hash entry =? hash)
          && key_equals_function key (se_key entry)
  then inr (Some a)
  else inl acc.

Definition set_search (ht : hash_set) (hash key : Z) : option (option Z) :=
  assert! negb (key_pointer_is_reserved key) ;;
  r ← probe false (s_size ht) (s_table ht) hash (set_search_body hash key) tt;
  Some (match r with inl _ => None | inr a => a end).

Definition _mesa_set_search (ht : hash_set) (key : Z) : option (option Z) :=
  set_search ht (key_hash_function key) key.

Definition _mesa_set_search_pre_hashed (ht : hash_set) (hash key : Z) : option (option Z) :=
  assert! hash =? key_hash_function key ;;
  set_search ht hash key.

Definition set_add_rehash (ht : hash_set) (hash key : Z) : option hash_set :=
  r ← probe true (s_size ht) (s_table ht) hash (free_body entry_is_free) tt;
  match r with
  | inl _ => None
  | inr a => s_update ht a (fun _ => SetEntry hash key)
  end.

Fixpoint set_add_rehash_all (ht : hash_set) (l : list set_entry) : option hash_set :=
  match l with
  | [] => Some ht
  | e :: l => ht ← set_add_rehash ht (se_hash e) (se_key e); set_add_rehash_all ht l
  end.

Definition set_rehash (alloc : bool) (ht : hash_set) (new_size_index : Z) : option hash_set :=
  if (size_index (s_size ht) =? new_size_index) && (s_deleted ht =? max_entries (s_size ht)) then
    ht ← set_clear_fast ht;
    assert! s_entries ht =? 0 ;;
    Some ht
  else if new_size_index >=? Z.of_nat (length hash_sizes) then Some ht
  else if negb alloc then Some ht
  else
    ts ← set_size_index new_size_index;
    let new_ht := HashSet (replicate (Z.to_nat (size ts)) (SetEntry 0 0)) false ts 0 0 in
    l ← foreach (s_table ht);
    new_ht ← set_add_rehash_all new_ht (map snd l);
    Some (s_set_counts new_ht (s_entries ht) (s_deleted new_ht)).

(** The loop of [_mesa_set_resize]; it reads past [hash_sizes] when no row is large
    enough. *)
Fixpoint resize_index (rows : list hash_size) (entries size_index : Z) : option Z :=
  match rows with
  | [] => None
  | row :: rows =>
      if hs_max_entries row <? entries then resize_index rows entries (size_index + 1)
      else Some size_index
  end.
Definition _mesa_set_resize (alloc : bool) (ht : hash_set) (entries : Z) : option hash_set :=
  let entries := if s_entries ht >? entries then s_entries ht else entries in
  size_index ← resize_index hash_sizes entries 0;
  set_rehash alloc ht size_index.

(** The resize decision at the head of [set_search_or_add]. *)
Definition set_grow (alloc : bool) (ht : hash_set) : option hash_set :=
  if s_entries ht >=? max_entries (s_size ht) then
    set_rehash alloc ht (size_index (s_size ht) + 1)
  else if u32 (s_deleted ht + s_entries ht) >=? max_entries (s_size ht) then
    set_rehash alloc ht (size_index (s_size ht))
  else Some ht.

Definition set_get_body (hash key : Z) (available_entry : option Z) (a : Z) (entry : set_entry)
    : option Z + (option Z + Z) :=
  let available_entry :=
    if negb (entry_is_present deleted_key entry) then
      match available_entry with None => Some a | Some _ => available_entry end
    else available_entry in
  if negb (entry_is_present deleted_key entry) && entry_is_free entry then inr (inl available_entry)
  else if negb (entry_is_deleted deleted_key entry) && (se_hash entry =? hash)
          && key_equals_function key (se_key entry)
  then inr (inr a)
  else inl available_entry.

(** [set_search_or_add]: the entry with the value stored to [found], or null. *)
Definition set_search_or_add (alloc : bool) (ht : hash_set) (hash key : Z)
    : option (option (Z * bool) * hash_set) :=
  assert! negb (key_pointer_is_reserved key) ;;
  ht ← set_grow alloc ht;
  r ← probe false (s_size ht) (s_table ht) hash (set_get_body hash key) None;
  match loop_result r with
  | inr a => Some (Some (a, true), ht)
  | inl (Some a) =>
      e ← s_table ht !! Z.to_nat a;
      let deleted := if entry_is_deleted deleted_key e then u32 (s_deleted ht - 1) else s_deleted ht in
      ht ← s_update ht a (fun _ => SetEntry hash key);
      Some (Some (a, false), s_set_counts ht (u32 (s_entries ht + 1)) deleted)
  | inl None => Some (None, ht)
  end.

(** [set_add]; [_mesa_set_search_and_add_pre_hashed] is the same with [found]. *)
Definition set_add (alloc : bool) (ht : hash_set) (hash key : Z)
    : option (option (Z * bool) * hash_set) :=
  '(entry, ht) ← set_search_or_add alloc ht hash key;
  match entry with
  | None => Some (None, ht)
  | Some (a, found) => ht ← s_update ht a (set_key key); Some (Some (a, found), ht)
  end.

Definition _mesa_set_add (alloc : bool) (ht : hash_set) (key : Z) : option (option Z * hash_set) :=
  '(entry, ht) ← set_add alloc ht (key_hash_function key) key;
  Some (option_map fst entry, ht).

Definition _mesa_set_add_pre_hashed (alloc : bool) (ht : hash_set) (hash key : Z)
    : option (option Z * hash_set) :=
  assert! hash =? key_hash_function key ;;
  '(entry, ht) ← set_add alloc ht hash key;
  Some (option_map fst entry, ht).

Definition _mesa_set_search_and_add_pre_hashed (alloc : bool) (ht : hash_set) (hash key : Z)
    : option (option (Z * bool) * hash_set) :=
  assert! hash =? key_hash_function key ;;
  '(entry, ht) ← set_search_or_add alloc ht hash key;
  match entry with
  | None => Some (None, ht)
  | Some (a, replaced) => ht ← s_update ht a (set_key key); Some (Some (a, replaced), ht)
  end.

Definition _mesa_set_search_and_add (alloc : bool) (ht : hash_set) (key : Z)
    : option (option (Z * bool) * hash_set) :=
  _mesa_set_search_and_add_pre_hashed alloc ht (key_hash_function key) key.

Definition _mesa_set_search_or_add (alloc : bool) (ht : hash_set) (key : Z)
    : option (option (Z * bool) * hash_set) :=
  set_search_or_add alloc ht (key_hash_function key) key.

Definition _mesa_set_search_or_add_pre_hashed (alloc : bool) (ht : hash_set) (hash key : Z)
    : option (option (Z * bool) * hash_set) :=
  assert! hash =? key_hash_function key ;;
  set_search_or_add alloc ht hash key.

Definition _mesa_set_remove (ht : hash_set) (entry : option Z) : option hash_set :=
  match entry with
  | None => Some ht
  | Some a =>
      ht ← s_update ht a (set_key deleted_key);
      Some (s_set_counts ht (u32 (s_entries ht - 1)) (u32 (s_deleted ht + 1)))
  end.

Definition _mesa_set_remove_key (ht : hash_set) (key : Z) : option hash_set :=
  entry ← _mesa_set_search ht key;
  _mesa_set_remove ht entry.

(** [_mesa_set_next_entry_unsafe] calls itself on the next address. *)
Fixpoint set_next_unsafe (fuel : nat) (ht : hash_set) (entry : option Z) : option (option Z) :=
  match fuel with
  | O => None
  | S fuel =>
      assert! s_deleted ht =? 0 ;;
      if s_entries ht =? 0 then Some None
      else
        let i := match entry with None => 0 | Some i => i + 1 end in
        if negb (i =? size (s_size ht)) then
          e ← s_table ht !! Z.to_nat i;
          if negb (se_key e =? 0) then Some (Some i) else set_next_unsafe fuel ht (Some i)
        else Some None
  end.
Definition _mesa_set_next_entry_unsafe (ht : hash_set) (entry : option Z) : option (option Z) :=
  set_next_unsafe (S (length (s_table ht))) ht entry.

Definition _mesa_set_next_entry (ht : hash_set) (entry : option Z) : option Z :=
  next_entry (s_table ht) entry.
Definition set_foreach (ht : hash_set) : option (list (Z * set_entry)) :=
  foreach (s_table ht).

(** [set_foreach_remove]: the entries the body is run on and the set it leaves. *)
Fixpoint foreach_remove_loop (fuel : nat) (ht : hash_set) (entry : option Z)
    : option (list set_entry * hash_set) :=
  match fuel with
  | O => None
  | S fuel =>
      if s_entries ht =? 0 then Some ([], ht)
      else
        a ← entry;
        e ← s_table ht !! Z.to_nat a;
        ht ← s_update ht a (fun _ => SetEntry 0 0);
        let ht := s_set_counts ht (u32 (s_entries ht - 1)) (s_deleted ht) in
        entry ← _mesa_set_next_entry_unsafe ht (Some a);
        '(l, ht) ← foreach_remove_loop fuel ht entry;
        Some (e :: l, ht)
  end.
Definition set_foreach_remove (ht : hash_set) : option (list set_entry * hash_set) :=
  entry ← _mesa_set_next_entry_unsafe ht None;
  foreach_remove_loop (S (length (s_table ht))) ht entry.

(** The loops of [_mesa_set_intersects] and [_mesa_set_equal] over the entries of a
    set: is one, are all of them found in [b]? *)
Fixpoint any_found (b : hash_set) (l : list set_entry) : option bool :=
  match l with
  | [] => Some false
  | e :: l =>
      r ← _mesa_set_search_pre_hashed b (se_hash e) (se_key e);
      match r with Some _ => Some true | None => any_found b l end
  end.
Fixpoint all_found (b : hash_set) (l : list set_entry) : option bool :=
  match l with
  | [] => Some true
  | e :: l =>
      r ← _mesa_set_search_pre_hashed b (se_hash e) (se_key e);
      match r with Some _ => all_found b l | None => Some false end
  end.

Definition _mesa_set_intersects (a b : hash_set) : option bool :=
  let '(a, b) := if s_entries b <? s_entries a then (b, a) else (a, b) in
  l ← set_foreach a;
  any_found b (map snd l).

Definition _mesa_set_equal (a b : hash_set) : option bool :=
  if negb (s_entries a =? s_entries b) then Some false
  else
    l ← set_foreach a;
    r ← all_found b (map snd l);
    if negb r then Some false
    else
      l ← set_foreach b;
      all_found a (map snd l).
End operations.

(** Sets of 32-bit keys; [hash_uint] is [_mesa_hash_uint]. *)
Definition key_u32_hash (hash_uint : Z -> Z) (key : Z) : Z := hash_uint (u32 key).
Definition key_u32_equals (a b : Z) : bool := u32 a =? u32 b.

(** * The invariant and the abstract view *)

Section set_theory.
Context (deleted_key : Z) (deleted_nonnull : deleted_key <> 0).
Context (key_hash : Z -> Z) (key_equals : Z -> Z -> bool) `{!KeyOps Z key_hash key_equals}.
#[local] Instance theory_slot : Slot set_entry Z := set_slot deleted_key.
Implicit Types (ht : hash_set) (e : set_entry) (k p : Z).

Local Notation zero := (SetEntry 0 0).
Local Notation present := (entry_is_present deleted_key).
Local Notation deleted := (entry_is_deleted deleted_key).

(** A key a client may use. *)
Definition usable (k : Z) : Prop := key_pointer_is_reserved deleted_key k = false.

Record set_ok (ht : hash_set) : Prop := {
  so_index : 0 <= size_index (s_size ht) < 27;
  so_row : set_size_index (size_index (s_size ht)) = Some (s_size ht);
  so_table : table_ok key_hash key_equals (s_size ht) (s_table ht);
  so_entries : s_entries ht = slot_count present (s_table ht);
  so_deleted : s_deleted ht = slot_count deleted (s_table ht);
  so_initial : s_initial ht = true -> size (s_size ht) = 19;
}.

(** Every allocation a resize has needed was given: the slots in use are within
    the limit at which the set grows. *)
Definition set_fits (ht : hash_set) : Prop := s_entries ht + s_deleted ht <= max_entries (s_size ht).

(** The abstract state: the pointer stored for a key. *)
Definition stored (ht : hash_set) (k p : Z) : Prop := slot_maps key_equals se_key (s_table ht) k p.

Lemma usable_spec k : usable k <-> k <> 0 /\ k <> deleted_key.
Proof. unfold usable, key_pointer_is_reserved. rewrite orb_false_iff, !Z.eqb_neq. tauto. Qed.

Lemma present_usable e : present e = true <-> usable (se_key e).
Proof.
  rewrite usable_spec. unfold entry_is_present. rewrite andb_true_iff, !negb_true_iff, !Z.eqb_neq. tauto.
Qed.

Lemma entry_free_spec e : entry_is_free e = negb (present e) && negb (deleted e).
Proof using deleted_nonnull.
  unfold entry_is_free, entry_is_present, entry_is_deleted.
  destruct (Z.eqb_spec (se_key e) 0); destruct (Z.eqb_spec (se_key e) deleted_key); try done; congruence.
Qed.

Lemma present_not_deleted e : present e = true -> deleted e = false.
Proof. intros [_ H]%present_usable%usable_spec. by apply Z.eqb_neq. Qed.

Lemma zero_not_present : present zero = false.
Proof. done. Qed.
Lemma zero_not_deleted : deleted zero = false.
Proof using deleted_nonnull. apply Z.eqb_neq. cbn [se_key]. congruence. Qed.

Lemma so_size_ok ht : set_ok ht -> size_ok (s_size ht).
Proof. intros Hok. eapply row_size_ok; [apply Hok|apply Hok]. Qed.

Lemma so_max_pow ht : set_ok ht -> max_entries (s_size ht) = 2 ^ (4 + size_index (s_size ht)).
Proof. intros Hok. apply set_size_index_max; apply Hok. Qed.

Lemma stored_fun ht k p p' : set_ok ht -> stored ht k p -> stored ht k p' -> p = p'.
Proof using KeyOps0. intros Hok. apply (slot_maps_fun key_hash key_equals se_key (s_size ht)), Hok. Qed.

Lemma stored_usable ht k p : stored ht k p -> usable p /\ key_equals k p = true.
Proof. intros (e & _ & [Hp Hm] & <-). split; [by apply present_usable|done]. Qed.

Lemma set_counter_range ht :
  set_ok ht -> 0 <= s_entries ht <= size (s_size ht) /\ 0 <= s_deleted ht <= size (s_size ht)
    /\ 0 < max_entries (s_size ht) /\ max_entries (s_size ht) < size (s_size ht) - 2
    /\ size (s_size ht) < 2 ^ 31.
Proof.
  intros Hok. pose proof (sz_max _ (so_size_ok _ Hok)). pose proof (sz_small _ (so_size_ok _ Hok)).
  pose proof (slot_count_range present (s_table ht)). pose proof (slot_count_range deleted (s_table ht)).
  rewrite (to_length _ _ _ _ (so_table _ Hok)), <- (so_entries _ Hok), <- (so_deleted _ Hok) in *. lia.
Qed.

Lemma empty_not_stored ht k p : set_ok ht -> s_entries ht = 0 -> ~ stored ht k p.
Proof.
  intros Hok Hz (e & Hin & [Hp _] & _). rewrite (so_entries _ Hok), slot_count_zero in Hz.
  apply list_elem_of_lookup in Hin as [n Hn]. specialize (Hz n e Hn). cbn in *. congruence.
Qed.

(** ** Search *)

Lemma set_search_spec ht k :
  set_ok ht -> usable k ->
  exists r, set_search deleted_key key_equals ht (key_hash k) k = Some r
    /\ match r with
       | Some a => exists e, slot_at (s_table ht) a e /\ matches key_equals k e
       | None => forall p, ~ stored ht k p
       end.
Proof using KeyOps0 deleted_nonnull.
  intros Hok Hu. unfold set_search. rewrite Hu. cbn [negb].
  rewrite (probe_ext _ _ _ _ _ (search_body key_equals (key_hash k) k))
    by (intros [] a e _; unfold set_search_body, search_body; by rewrite entry_free_spec).
  destruct (probe_search_spec key_hash key_equals (s_size ht) (so_size_ok _ Hok)
    (s_table ht) k (so_table _ Hok)) as (r & E & Hr). unfold probe_search in E. rewrite E.
  exists r. split; [done|]. destruct r as [a|]; [done|].
  intros d (e & Hin & Hm & _). apply slot_at_elem in Hin as [a Ha]. by apply (Hr a e).
Qed.

(** ** Init, copy and clear *)

Lemma zero_set_ok ts b :
  size_ok ts -> 0 <= size_index ts < 27 -> set_size_index (size_index ts) = Some ts ->
  (b = true -> size ts = 19) ->
  set_ok (HashSet (replicate (Z.to_nat (size ts)) zero) b ts 0 0).
Proof using KeyOps0 deleted_nonnull.
  intros Hts Hi Hrow Hb. pose proof (size_gt _ Hts). pose proof (sz_max _ Hts).
  assert (Hz : forall p : set_entry -> bool, p zero = false ->
    slot_count p (replicate (Z.to_nat (size ts)) zero) = 0).
  { intros p Hp. apply slot_count_zero. intros i e He. by apply lookup_replicate in He as [-> _]. }
  constructor; cbn; try done; rewrite ?Hz by (done || apply zero_not_deleted); try done; try lia.
  apply table_ok_empty; [done|rewrite length_replicate; lia|].
  intros e He. by apply elem_of_replicate in He as [-> _].
Qed.

Lemma zero_set_stored ts b n k p : ~ stored (HashSet (replicate n zero) b ts 0 0) k p.
Proof.
  intros (e & Hin & [Hp _] & _). cbn in Hin. apply elem_of_replicate in Hin as [-> _]. done.
Qed.

Lemma set_clear_fast_spec ht :
  set_ok ht -> set_clear_fast ht
    = Some (HashSet (replicate (Z.to_nat (size (s_size ht))) zero) (s_initial ht) (s_size ht) 0 0).
Proof.
  intros Hok. unfold set_clear_fast. pose proof (so_row _ Hok) as Hrow.
  unfold set_size_index in Hrow. destruct (hash_sizes !! _) as [row|] eqn:El; [|done].
  cbn [mbind option_bind] in *. injection Hrow as Hrow.
  assert (hs_size row = size (s_size ht)) as -> by (by rewrite <- Hrow).
  rewrite drop_ge, app_nil_r; [done|]. pose proof (to_length _ _ _ _ (so_table _ Hok)). lia.
Qed.

Lemma set_copy_spec ht : set_ok ht -> _mesa_set_copy true ht = Some ht.
Proof.
  intros Hok. pose proof (to_length _ _ _ _ (so_table _ Hok)) as Hl. unfold _mesa_set_copy.
  destruct (s_initial ht) eqn:Ei; cbn [negb].
  - pose proof (so_initial _ Hok Ei). rewrite take_ge by lia. destruct ht; cbn in *. by subst.
  - rewrite take_ge by lia. destruct ht; cbn in *. by subst.
Qed.

Lemma set_clear_spec ht del :
  set_ok ht ->
  exists ht', _mesa_set_clear deleted_key ht del
      = Some (ht', if del then filter (fun e => present e = true) (s_table ht) else [])
    /\ set_ok ht' /\ (forall k p, ~ stored ht' k p) /\ s_entries ht' = 0
    /\ s_deleted ht' = 0.
Proof using KeyOps0 deleted_nonnull.
  intros Hok. unfold _mesa_set_clear. destruct del.
  - eexists. split; [done|]. pose proof (so_size_ok _ Hok) as Hts. pose proof (sz_max _ Hts).
    pose proof (size_gt _ Hts).
    assert (Hz : forall e, e ∈ map (set_key 0) (s_table ht) -> present e = false /\ deleted e = false).
    { intros e (x & -> & _)%list_elem_of_fmap. split; [done|]. apply zero_not_deleted. }
    assert (Hc : forall q : set_entry -> bool, (forall e, e ∈ map (set_key 0) (s_table ht) -> q e = false) ->
      slot_count q (map (set_key 0) (s_table ht)) = 0).
    { intros q Hq. apply slot_count_zero. intros i e He. apply Hq. by eapply list_elem_of_lookup_2. }
    split_and!; [constructor; cbn; rewrite ?Hc by (intros; by apply Hz); try apply Hok; try done; try lia| |done..].
    + apply table_ok_empty; [done| |intros e He; by apply Hz]. rewrite length_fmap. apply Hok.
    + intros k p (e & Hin & [Hp _] & _). cbn in *. by rewrite (proj1 (Hz e Hin)) in Hp.
  - rewrite set_clear_fast_spec by done. cbn [mbind option_bind]. eexists. split; [done|].
    split_and!; [|intros k p; apply zero_set_stored|done..].
    apply zero_set_ok; [by apply so_size_ok|apply Hok..].
Qed.

(** ** Rehash *)

Definition set_put (ts : table_size) (t : list set_entry) (e : set_entry) : option (list set_entry) :=
  ht ← set_add_rehash (HashSet t false ts 0 0) (se_hash e) (se_key e);
  Some (s_table ht).

Lemma set_add_rehash_all_put ts t l :
  set_add_rehash_all (HashSet t false ts 0 0) l
  = (t ← put_all (set_put ts) t l; Some (HashSet t false ts 0 0)).
Proof.
  revert t. induction l as [|e l IH]; intros t; [done|]. cbn [set_add_rehash_all put_all].
  change (set_put ts t e) with
    (ht ← set_add_rehash (HashSet t false ts 0 0) (se_hash e) (se_key e); Some (s_table ht)).
  destruct (set_add_rehash _ _ _) as [ht|] eqn:Ei; [|done].
  cbn [mbind option_bind]. rewrite <- IH. f_equal. unfold set_add_rehash in Ei.
  cbn [s_table s_size] in Ei. destruct (probe _ _ _ _ _ _) as [[?|a]|]; cbn in Ei; try done.
  unfold s_update in Ei. cbn [s_table] in Ei. destruct (t !! Z.to_nat a); cbn in Ei; by simplify_eq.
Qed.

Lemma set_put_spec ts t e :
  size_ok ts -> fresh_ok key_hash key_equals ts t -> slot_count slot_present t < size ts ->
  slot_present e = true -> slot_hash e = key_hash (slot_key e) ->
  exists a, set_put ts t e = Some (<[Z.to_nat a := e]> t) /\ available ts t (slot_hash e) a.
Proof using KeyOps0 deleted_nonnull.
  intros Hts [Hok Hdel] Hc Hp Hh. unfold set_put, set_add_rehash. cbn [s_size s_table].
  destruct (probe_free_spec ts Hts entry_is_free t (slot_hash e))
    as (a & Ea & Hav); [apply Hok|rewrite Hh; apply ko_hash_range| |done|].
  { intros x Hx. rewrite entry_free_spec. specialize (Hdel x Hx). cbn in Hdel. rewrite Hdel. apply andb_true_r. }
  exists a. split; [|done]. change (se_hash e) with (slot_hash e). rewrite Ea.
  destruct Hav as (i & e0 & _ & _ & [_ Hat] & _). cbn [mbind option_bind]. unfold s_update.
  cbn [s_table s_set_table]. rewrite Hat. cbn. by destruct e.
Qed.

(** The set a call of [set_rehash] that does its work leaves. *)
Record set_rehashed ht i ht' : Prop := {
  sh_ok : set_ok ht';
  sh_index : size_index (s_size ht') = i;
  sh_entries : s_entries ht' = s_entries ht;
  sh_deleted : s_deleted ht' = 0;
  sh_stored : forall k p, stored ht' k p <-> stored ht k p;
}.

(** The fast path empties the set. *)
Lemma set_rehash_fast_spec alloc ht :
  set_ok ht -> s_deleted ht = max_entries (s_size ht) ->
  exists ht', set_rehash deleted_key alloc ht (size_index (s_size ht)) = Some ht' /\ set_ok ht'
    /\ s_size ht' = s_size ht /\ s_entries ht' = 0 /\ s_deleted ht' = 0
    /\ (forall k p, ~ stored ht' k p).
Proof using KeyOps0 deleted_nonnull.
  intros Hok Hd. unfold set_rehash. rewrite Hd, !Z.eqb_refl. cbn [andb].
  rewrite set_clear_fast_spec by done. cbn. eexists. split; [done|].
  split; [apply zero_set_ok; [by apply so_size_ok|apply Hok..]|].
  split_and!; try done. intros k p. apply zero_set_stored.
Qed.

Lemma set_rehash_spec ht i :
  set_ok ht -> 0 <= i < 27 ->
  (forall ts, set_size_index i = Some ts -> s_entries ht <= max_entries ts) ->
  (size_index (s_size ht) = i -> s_deleted ht = max_entries (s_size ht) -> s_entries ht = 0) ->
  exists ht', set_rehash deleted_key true ht i = Some ht' /\ set_rehashed ht i ht'.
Proof using KeyOps0 deleted_nonnull.
  intros Hok Hi Hmax Hfast.
  destruct (set_size_index_ok i Hi) as (ts & Ets & Hts & Hidx & _). specialize (Hmax ts Ets).
  pose proof (set_counter_range _ Hok) as Hcr. pose proof (size_gt _ Hts) as Hgt.
  destruct ((size_index (s_size ht) =? i) && (s_deleted ht =? max_entries (s_size ht))) eqn:Ec.
  { apply andb_true_iff in Ec as [Ei%Z.eqb_eq Ed%Z.eqb_eq].
    destruct (set_rehash_fast_spec true ht Hok Ed) as (ht' & E & H1 & H2 & H3 & H4 & H5). rewrite Ei in E.
    exists ht'. split; [done|]. specialize (Hfast Ei Ed). constructor; try done; [congruence..|].
    intros k p. split; intros Hm; [by apply H5 in Hm|by apply empty_not_stored in Hm]. }
  unfold set_rehash. rewrite Ec.
  destruct (Z.geb_spec i (Z.of_nat (length hash_sizes))) as [Hge|_]; [cbn in Hge; lia|]. cbn [negb].
  rewrite Ets. cbn [mbind option_bind]. rewrite foreach_spec. cbn [mbind option_bind].
  rewrite present_from_entries, set_add_rehash_all_put. set (l := filter _ (s_table ht)).
  destruct (zero_set_ok ts false Hts) as [_ _ Zt Ze _ _]; [lia|by rewrite Hidx|done|]. cbn in Zt, Ze.
  destruct (put_all_spec key_hash key_equals ts Hts (set_put ts) l (replicate (Z.to_nat (size ts)) zero))
    as (t' & -> & [Hok' Hdel'] & Hcnt & Hin).
  - intros t e Hf Hc Hp _ Hh. by apply set_put_spec.
  - constructor; [done|]. intros e He. apply elem_of_replicate in He as [-> _]. apply zero_not_deleted.
  - intros e [Hp Hin]%list_elem_of_filter. split_and!; [done|by apply present_not_deleted|].
    apply slot_at_elem in Hin as [a Ha]. by apply (to_hash _ _ _ _ (so_table _ Hok) a).
  - eapply (distinct_present key_hash key_equals). apply Hok.
  - intros e a x _ Hx [Hp _]. destruct Hx as [_ Hx]. by apply lookup_replicate in Hx as [-> _].
  - unfold l. rewrite <- slot_count_filter. change slot_present with present. rewrite <- Ze.
    rewrite <- (so_entries _ Hok). pose proof (sz_max _ Hts). lia.
  - cbn [mbind option_bind]. eexists. split; [done|].
    unfold l in Hcnt. rewrite <- slot_count_filter in Hcnt. change slot_present with present in Hcnt.
    assert (Hdz : slot_count deleted t' = 0).
    { apply slot_count_zero. intros n e He. apply Hdel'. by eapply list_elem_of_lookup_2. }
    constructor; try done; [constructor; cbn; rewrite ?Hidx; try done; try lia|].
    + rewrite (so_entries _ Hok). lia.
    + intros k p. cbn.
      assert (Hin' : forall e, present e = true -> e ∈ t' <-> e ∈ s_table ht).
      { intros e He. rewrite Hin by done. unfold l. rewrite list_elem_of_filter. split; [|tauto].
        intros [Hr|[_ ?]]; [|done]. by apply elem_of_replicate in Hr as [-> _]. }
      split; intros (e & He & [Hp Hm] & Hk); exists e; (split; [by apply Hin'|done]).
Qed.

(** ** Insertion *)

Definition set_has_capacity (ht : hash_set) : Prop :=
  size_index (s_size ht) < 26 \/ s_entries ht < max_entries (s_size ht).

(** The set after a resize.  If the allocation is given, the set fits its limit.  It
    is emptied only if it has outgrown its limit, after an earlier allocation has
    failed. *)
Record set_resized (alloc : bool) ht ht1 : Prop := {
  sr_ok : set_ok ht1;
  sr_stored : (s_entries ht1 = s_entries ht /\ forall k p, stored ht1 k p <-> stored ht k p)
    \/ (~ set_fits ht /\ s_entries ht1 = 0 /\ forall k p, ~ stored ht1 k p);
  sr_fits : (alloc = true \/ set_fits ht) -> set_fits ht1;
  sr_same : alloc = false -> ht1 = ht \/ s_deleted ht1 = 0 /\ s_entries ht1 = 0;
}.

Lemma set_rehash_resized alloc ht i :
  set_ok ht -> 0 <= i < 27 ->
  (forall ts, set_size_index i = Some ts -> s_entries ht <= max_entries ts) ->
  exists ht1, set_rehash deleted_key alloc ht i = Some ht1 /\ set_resized alloc ht ht1
    /\ (alloc = true -> s_deleted ht1 = 0 /\ size_index (s_size ht1) = i).
Proof using KeyOps0 deleted_nonnull.
  intros Hok Hi Hroom. pose proof (so_index _ Hok). pose proof (set_counter_range _ Hok).
  destruct (decide (size_index (s_size ht) = i /\ s_deleted ht = max_entries (s_size ht)))
    as [(<- & Hd)|Hno].
  - destruct (set_rehash_fast_spec alloc ht Hok Hd) as (ht1 & -> & H1 & H2 & H3 & H4 & H5).
    exists ht1. split; [done|]. split; [|intros _; by rewrite H2].
    constructor; [done| |intros _; unfold set_fits; rewrite H2; lia|by right].
    destruct (Z.eq_dec (s_entries ht) 0) as [Hz|Hz].
    + left. split; [lia|]. intros k p. split; intros Hm; [by apply H5 in Hm|by apply empty_not_stored in Hm].
    + right. split_and!; try done. unfold set_fits. lia.
  - destruct alloc.
    + destruct (set_rehash_spec ht i Hok Hi Hroom) as (ht1 & -> & [H1 H2 H3 H4 H5]); [tauto|].
      pose proof (so_row _ H1) as Hr. rewrite H2 in Hr. specialize (Hroom _ Hr).
      exists ht1. split; [done|]. split; [|done]. constructor; try done; [by left|].
      intros _. unfold set_fits. lia.
    + exists ht. split; [|split; [constructor; [done|by left|by intros [?|?]|by left]|done]].
      unfold set_rehash. destruct (_ && _) eqn:Ec; [|by destruct (i >=? _)].
      apply andb_true_iff in Ec as [Ei%Z.eqb_eq Ed%Z.eqb_eq]. tauto.
Qed.

Lemma set_grow_spec alloc ht :
  set_ok ht -> set_has_capacity ht ->
  exists ht1, set_grow deleted_key alloc ht = Some ht1 /\ set_resized alloc ht ht1
    /\ (alloc = true -> s_entries ht1 + s_deleted ht1 < max_entries (s_size ht1)).
Proof using KeyOps0 deleted_nonnull.
  intros Hok Hcap. unfold set_grow. pose proof (so_index _ Hok) as Hi.
  pose proof (set_counter_range _ Hok).
  assert (Hgo : forall i, size_index (s_size ht) <= i < 27 ->
    (forall ts, set_size_index i = Some ts -> s_entries ht < max_entries ts) ->
    exists ht1, set_rehash deleted_key alloc ht i = Some ht1 /\ set_resized alloc ht ht1
      /\ (alloc = true -> s_entries ht1 + s_deleted ht1 < max_entries (s_size ht1))).
  { intros i Hii Hroom. destruct (set_rehash_resized alloc ht i Hok) as (ht1 & -> & Hr & Ha); [lia| |].
    { intros ts Ets. specialize (Hroom ts Ets). lia. }
    exists ht1. split; [done|]. split; [done|]. intros Hal. destruct (Ha Hal) as [Hd Hidx].
    pose proof (so_row _ (sr_ok _ _ _ Hr)) as Hrow. rewrite Hidx in Hrow. specialize (Hroom _ Hrow).
    destruct (sr_stored _ _ _ Hr) as [[He _]|(_ & He & _)]; lia. }
  destruct (Z.geb_spec (s_entries ht) (max_entries (s_size ht))) as [Hge|Hlt].
  - unfold set_has_capacity in Hcap. apply Hgo; [lia|]. intros ts Ets.
    assert (0 <= size_index (s_size ht) < size_index (s_size ht) + 1) as Hij by lia.
    pose proof (set_size_index_next _ _ _ _ Hij (so_row _ Hok) Ets). lia.
  - rewrite u32_small by lia.
    destruct (Z.geb_spec (s_deleted ht + s_entries ht) (max_entries (s_size ht))).
    + apply Hgo; [lia|]. intros ts Ets. rewrite (so_row _ Hok) in Ets. by simplify_eq.
    + exists ht. split; [done|]. split; [|lia]. constructor; [done|by left|unfold set_fits; lia|by left].
Qed.

(** Writing one slot, with the counters adjusted, keeps the invariant. *)
Lemma set_ok_write ht a e e' n m :
  set_ok ht -> slot_at (s_table ht) a e ->
  table_ok key_hash key_equals (s_size ht) (<[Z.to_nat a := e']> (s_table ht)) ->
  n = s_entries ht - (if present e then 1 else 0) + (if present e' then 1 else 0) ->
  m = s_deleted ht - (if deleted e then 1 else 0) + (if deleted e' then 1 else 0) ->
  set_ok (HashSet (<[Z.to_nat a := e']> (s_table ht)) (s_initial ht) (s_size ht) n m).
Proof.
  intros Hok [_ Hat] Htok Hn Hm. constructor; cbn; try apply Hok; try done.
  - rewrite (slot_count_insert _ _ _ e) by done. rewrite Hn, (so_entries _ Hok). lia.
  - rewrite (slot_count_insert _ _ _ e) by done. rewrite Hm, (so_deleted _ Hok). lia.
Qed.

Lemma set_count_positive (q : set_entry -> bool) (t : list set_entry) a e :
  slot_at t a e -> q e = true -> 0 < slot_count q t.
Proof.
  intros [_ Hat] Hq. destruct (decide (0 < slot_count q t)) as [|Hz]; [done|].
  pose proof (slot_count_range q t). assert (E : slot_count q t = 0) by lia.
  rewrite slot_count_zero in E. rewrite (E _ _ Hat) in Hq. done.
Qed.

(** What a search-or-add leaves behind: the entry holds the pointer that was stored
    for the key before, or else the key. *)
Record added ht k a (found : bool) ht' : Prop := {
  ad_ok : set_ok ht';
  ad_entry : exists e, slot_at (s_table ht') a e /\ matches key_equals k e
    /\ (found = false -> se_key e = k);
  ad_found : found = true <-> exists p, stored ht k p;
  ad_stored : forall k' p, stored ht' k' p <->
    if key_equals k k' && negb found then p = k else stored ht k' p;
  ad_count : s_entries ht' = s_entries ht + if found then 0 else 1;
  ad_used : s_entries ht' + s_deleted ht' <= s_entries ht + s_deleted ht + 1;
  ad_size : s_size ht' = s_size ht;
}.

Lemma added_new ht k a e :
  set_ok ht -> usable k ->
  (forall b x, slot_at (s_table ht) b x -> ~ matches key_equals k x) ->
  slot_at (s_table ht) a e -> available (s_size ht) (s_table ht) (key_hash k) a -> present e = false ->
  added ht k a false
    (HashSet (<[Z.to_nat a := SetEntry (key_hash k) k]> (s_table ht)) (s_initial ht) (s_size ht)
       (s_entries ht + 1) (s_deleted ht - (if deleted e then 1 else 0))).
Proof using KeyOps0.
  intros Hok Hu Hno Hat Hav Hnp. set (e' := SetEntry (key_hash k) k).
  assert (Hp' : present e' = true) by (by apply present_usable).
  pose proof (to_length _ _ _ _ (so_table _ Hok)) as Hlen.
  pose proof (slot_at_range (s_size ht) _ a e Hlen Hat) as Hra.
  assert (Hkk : key_equals k k = true) by apply (ko_refl (key_hash := key_hash)).
  constructor.
  - apply (set_ok_write ht a e e'); try done; rewrite ?Hp', ?Hnp, ?(present_not_deleted e') by done;
      [|lia|lia].
    apply (table_ok_place key_hash key_equals _ (so_size_ok _ Hok) (s_table ht) k a e'); done || apply Hok.
  - exists e'. split; [apply slot_at_insert; [lia|by left]|]. split; [by split|done].
  - split; [done|]. intros (p & x & [b Hb]%slot_at_elem & Hm & _). by apply (Hno b x) in Hb.
  - intros k' p. cbn [negb]. rewrite andb_true_r.
    apply (slot_maps_write key_hash key_equals se_key (s_table ht) a e e' k); try done; [by left|].
    intros b x Hb Hm. by destruct (Hno b x).
  - cbn. lia.
  - cbn. destruct (deleted e); lia.
  - done.
Qed.

(** The ways a search-or-add can end, for any result of the allocation: [ht0] is the
    set it adds to, which is [ht] or, if [ht] has outgrown its limit, may be empty;
    and an outgrown set may have no slot left if the allocation fails again. *)
Definition add_base ht ht0 : Prop :=
  ht0 = ht \/ (~ set_fits ht /\ set_ok ht0 /\ s_entries ht0 = 0 /\ forall k p, ~ stored ht0 k p).

Inductive add_outcome (alloc : bool) ht k : option (Z * bool) -> hash_set -> Prop :=
| ao_added ht0 ht1 a found ht' :
    add_base ht ht0 -> (forall k p, stored ht1 k p <-> stored ht0 k p) -> s_entries ht1 = s_entries ht0 ->
    added ht1 k a found ht' -> (alloc = true -> set_fits ht') ->
    add_outcome alloc ht k (Some (a, found)) ht'
| ao_refused :
    ~ set_fits ht -> alloc = false -> s_entries ht = size (s_size ht) -> (forall p, ~ stored ht k p) ->
    add_outcome alloc ht k None ht.

Lemma set_search_or_add_any alloc ht k :
  set_ok ht -> usable k -> set_has_capacity ht ->
  exists r ht', set_search_or_add deleted_key key_equals alloc ht (key_hash k) k = Some (r, ht')
    /\ add_outcome alloc ht k r ht'.
Proof using KeyOps0 deleted_nonnull.
  intros Hok Hu Hcap. unfold set_search_or_add. rewrite Hu. cbn [negb].
  destruct (set_grow_spec alloc ht Hok Hcap) as (ht1 & -> & [Hok1 Hst1 Hfit1 Hsame1] & Hroom).
  assert (Hbase : exists ht0, add_base ht ht0 /\ (forall k p, stored ht1 k p <-> stored ht0 k p)
                              /\ s_entries ht1 = s_entries ht0).
  { destruct Hst1 as [[He Hs]|(Hnf & He & Hs)]; [exists ht|exists ht1]; (split; [|done]).
    - by left.
    - by right. }
  destruct Hbase as (ht0 & Hb & Hs0 & He0).
  assert (Hstep : forall a f ht', added ht1 k a f ht' -> add_outcome alloc ht k (Some (a, f)) ht').
  { intros a f ht' Had. econstructor; try done. intros Ha. specialize (Hroom Ha).
    unfold set_fits. rewrite (ad_size _ _ _ _ _ Had). pose proof (ad_used _ _ _ _ _ Had). lia. }
  cbn [mbind option_bind]. pose proof (so_table _ Hok1) as Htok. pose proof (so_size_ok _ Hok1) as Hts.
  destruct (probe_get_spec key_hash key_equals _ Hts
    (set_get_body deleted_key key_equals (key_hash k) k) (s_table ht1) k) as (r & -> & Hr); [done| |].
  { intros acc a e _. unfold set_get_body, get_body. rewrite entry_free_spec. cbn.
    destruct (present e) eqn:Ep; cbn; [by rewrite (present_not_deleted e Ep)|].
    by destruct (deleted e). }
  cbn [mbind option_bind]. pose proof (to_length _ _ _ _ Htok) as Hlen.
  pose proof (set_counter_range _ Hok1) as Hcr.
  destruct (loop_result r) as [[a|]|a]; cbn [get_outcome] in Hr.
  - destruct Hr as [Hno Hav]. pose proof Hav as (i & e & _ & _ & Hat & Hnp & _).
    pose proof (proj2 Hat) as Hlk. rewrite Hlk. cbn [mbind option_bind].
    eexists (Some (a, false)), _. split; [|apply Hstep, (added_new ht1 k a e); done].
    unfold s_update. rewrite Hlk. cbn. unfold s_set_counts. cbn.
    assert (Hd : deleted e = true -> 0 < s_deleted ht1).
    { rewrite (so_deleted _ Hok1). by apply set_count_positive with a. }
    destruct (deleted e); rewrite ?u32_small by (try specialize (Hd eq_refl); lia); repeat f_equal; lia.
  - destruct Hr as [Hno Hall].
    assert (Hfull : s_entries ht1 = size (s_size ht1)).
    { rewrite (so_entries _ Hok1), <- Hlen. apply slot_count_all. intros i e He.
      apply (Hall (Z.of_nat i)). split; [lia|]. by rewrite Nat2Z.id. }
    destruct alloc; [specialize (Hroom eq_refl); lia|]. destruct (Hsame1 eq_refl) as [->|?]; [|lia].
    exists None, ht. split; [done|]. constructor; [unfold set_fits; lia|done|done|].
    intros p (e & [b' Hb']%slot_at_elem & Hm & _). by apply (Hno b' e).
  - destruct Hr as (e & Hat & Hm). eexists (Some (a, true)), _. split; [done|]. apply Hstep.
    constructor; try done; [by exists e| | |lia|lia].
    + split; [|done]. intros _. exists (se_key e), e. split; [apply slot_at_elem; eauto|done].
    + intros k' p. cbn [negb]. by rewrite andb_false_r.
Qed.

(** Adding also replaces the stored pointer. *)
Record replaced ht k a (found : bool) ht' : Prop := {
  re_ok : set_ok ht';
  re_entry : exists e, s_table ht' !! Z.to_nat a = Some e /\ se_key e = k;
  re_found : found = true <-> exists p, stored ht k p;
  re_stored : forall k' p, stored ht' k' p <-> if key_equals k k' then p = k else stored ht k' p;
  re_count : s_entries ht' = s_entries ht + if found then 0 else 1;
}.

Lemma set_replace_spec ht k a found ht1 :
  added ht k a found ht1 -> usable k ->
  exists ht', s_update ht1 a (set_key k) = Some ht' /\ replaced ht k a found ht'
    /\ (set_fits ht1 -> set_fits ht').
Proof using KeyOps0.
  intros [Hok1 (e & Hat & Hm & Hek) Hf Hst Hc _ _] Hu. unfold s_update. rewrite (proj2 Hat). cbn.
  eexists. split; [done|]. set (e' := set_key k e).
  pose proof Hm as [Hp Hk]. change (present e = true) in Hp. change (key_equals k (se_key e) = true) in Hk.
  assert (Hp' : present e' = true) by (by apply present_usable).
  pose proof (to_length _ _ _ _ (so_table _ Hok1)) as Hlen.
  pose proof (slot_at_range (s_size ht1) _ a e Hlen Hat) as Hra. split; [|done].
  constructor.
  - apply (set_ok_write ht1 a e e'); try done; rewrite ?Hp, ?Hp', ?present_not_deleted by done; try lia.
    apply (table_ok_replace key_hash key_equals _ (so_size_ok _ Hok1) (s_table ht1) a e e'); try done;
      [apply Hok1|]. by rewrite (ko_sym (key_hash := key_hash)).
  - exists e'. split; [|done]. cbn. apply list_lookup_insert_eq. lia.
  - done.
  - intros k' p.
    pose proof (slot_maps_write key_hash key_equals se_key (s_table ht1) a e e' k Hat (or_intror Hm)) as Hw.
    unfold stored in *. cbn [s_table s_set_table]. rewrite Hw; [|clear Hw|done|done].
    + destruct (key_equals k k') eqn:Ek; [done|]. rewrite Hst, Ek. done.
    + intros b x Hb Hmx.
      by destruct (matches_same key_hash key_equals _ (s_table ht1) k b a x e (so_table _ Hok1) Hb Hat Hmx Hm).
  - done.
Qed.

(** A set that fits takes the key whether or not the allocation is given. *)
Lemma set_add_spec alloc ht k :
  set_ok ht -> set_fits ht -> usable k -> set_has_capacity ht ->
  exists a found ht', set_add deleted_key key_equals alloc ht (key_hash k) k = Some (Some (a, found), ht')
    /\ set_ok ht' /\ (alloc = true -> set_fits ht')
    /\ (forall k' p, stored ht' k' p <-> if key_equals k k' then p = k else stored ht k' p).
Proof using KeyOps0 deleted_nonnull.
  intros Hok Hfit Hu Hcap. unfold set_add.
  destruct (set_search_or_add_any alloc ht k Hok Hu Hcap) as (r & ht2 & -> & Ho). cbn [mbind option_bind].
  destruct Ho as [ht0 ht1 a f ht2 [->|(? & _)] Hs He Had Hal|]; [|done..].
  destruct (set_replace_spec ht1 k a f ht2 Had Hu) as (ht' & -> & [R1 R2 R3 R4 R5] & R6).
  cbn [mbind option_bind]. exists a, f, ht'. split_and!; [done|done|auto|]. intros k' p. rewrite R4.
  by destruct (key_equals k k').
Qed.

(** ** Removal *)

Lemma set_remove_spec ht k a e :
  set_ok ht -> slot_at (s_table ht) a e -> matches key_equals k e ->
  exists ht', _mesa_set_remove deleted_key ht (Some a) = Some ht' /\ set_ok ht'
    /\ (forall k' p, stored ht' k' p <-> key_equals k k' = false /\ stored ht k' p)
    /\ s_entries ht' = s_entries ht - 1 /\ s_deleted ht' = s_deleted ht + 1 /\ s_size ht' = s_size ht.
Proof using KeyOps0.
  intros Hok Hat Hm. pose proof Hm as [Hp _]. change (present e = true) in Hp.
  pose proof (set_counter_range _ Hok). set (e' := set_key deleted_key e).
  assert (Hd' : deleted e' = true) by apply Z.eqb_refl.
  assert (Hp' : present e' = false)
    by (unfold entry_is_present; cbn; by rewrite Z.eqb_refl, andb_false_r).
  assert (Hpos : 0 < s_entries ht) by (rewrite (so_entries _ Hok); by eapply set_count_positive).
  unfold _mesa_set_remove, s_update. rewrite (proj2 Hat). cbn. rewrite !u32_small by lia.
  eexists. split; [done|]. split; [|split; [|done]].
  - apply (set_ok_write ht a e e'); try done;
      rewrite ?Hp, ?Hp', ?Hd', ?(present_not_deleted e) by done; try lia.
    apply (table_ok_delete key_hash key_equals _ (so_size_ok _ Hok) (s_table ht) a e e'); done || apply Hok.
  - by apply (slot_maps_delete key_hash key_equals se_key (s_size ht) (s_table ht) a e e'); [apply Hok|..].
Qed.

Lemma set_remove_key_spec ht k :
  set_ok ht -> usable k ->
  exists ht', _mesa_set_remove_key deleted_key key_hash key_equals ht k = Some ht' /\ set_ok ht'
    /\ (forall k' p, stored ht' k' p <-> key_equals k k' = false /\ stored ht k' p)
    /\ s_entries ht' <= s_entries ht /\ (set_fits ht -> set_fits ht').
Proof using KeyOps0 deleted_nonnull.
  intros Hok Hu. unfold _mesa_set_remove_key, _mesa_set_search.
  destruct (set_search_spec ht k Hok Hu) as (r & -> & Hr). cbn [mbind option_bind]. destruct r as [a|].
  - destruct Hr as (e & Hat & Hm). destruct (set_remove_spec ht k a e Hok Hat Hm) as (ht' & E & H1 & H2 & H3 & H4 & H5).
    exists ht'. split_and!; try done; [lia|]. unfold set_fits. rewrite H5. lia.
  - exists ht. split_and!; try done. intros k' p. split; [|tauto]. intros (e & Hin & Hm & He). split; [|by exists e].
    apply not_true_is_false. intros Hk. apply (Hr p). exists e. split; [done|]. split; [|done].
    by eapply (matches_equal key_hash).
Qed.

(** ** Resizing *)

Lemma resize_index_spec rows i n :
  rows = drop (Z.to_nat i) hash_sizes -> 0 <= i <= 26 -> n <= 2 ^ 30 ->
  exists j, resize_index rows n i = Some j /\ i <= j <= 26
    /\ forall ts, set_size_index j = Some ts -> n <= max_entries ts.
Proof.
  revert i. induction rows as [|row rows IH]; intros i Hrows Hi Hn.
  { apply (f_equal length) in Hrows. rewrite length_drop in Hrows. cbn in Hrows. lia. }
  assert (Hrow : hash_sizes !! Z.to_nat i = Some row).
  { rewrite <- (Nat.add_0_r (Z.to_nat i)), <- lookup_drop, <- Hrows. done. }
  pose proof (hash_sizes_max _ _ Hrow) as Hmax. rewrite Z2Nat.id in Hmax by lia. cbn [resize_index].
  destruct (Z.ltb_spec (hs_max_entries row) n).
  - destruct (Z.eq_dec i 26) as [->|]; [change (4 + 26) with 30 in Hmax; lia|].
    destruct (IH (i + 1)) as (j & E & Hj & Hts); [|lia|done|exists j; split_and!; [done|lia|lia|done]].
    replace (Z.to_nat (i + 1)) with (Z.to_nat i + 1)%nat by lia. by rewrite <- drop_drop, <- Hrows.
  - exists i. split_and!; [done|lia|lia|]. intros ts Ets. rewrite (set_size_index_max i ts) by (lia || done). lia.
Qed.

Lemma set_resize_spec alloc ht n :
  set_ok ht -> s_entries ht <= 2 ^ 30 -> n <= 2 ^ 30 ->
  exists ht', _mesa_set_resize deleted_key alloc ht n = Some ht' /\ set_resized alloc ht ht'
    /\ (alloc = true -> n <= max_entries (s_size ht')).
Proof using KeyOps0 deleted_nonnull.
  intros Hok Hcap Hn. unfold _mesa_set_resize. set (m := if _ >? _ then _ else _).
  assert (Hm : s_entries ht <= m <= 2 ^ 30 /\ n <= m).
  { unfold m. destruct (Z.gtb_spec (s_entries ht) n); lia. }
  destruct (resize_index_spec hash_sizes 0 m eq_refl) as (j & -> & Hj & Hts); [lia|lia|]. cbn [mbind option_bind].
  destruct (set_rehash_resized alloc ht j Hok) as (ht' & -> & Hr & Ha); [lia| |].
  { intros ts Ets. specialize (Hts ts Ets). lia. }
  exists ht'. split_and!; try done. intros Hal. destruct (Ha Hal) as [_ Hi].
  pose proof (so_row _ (sr_ok _ _ _ Hr)) as Hrow. rewrite Hi in Hrow. specialize (Hts _ Hrow). lia.
Qed.

(** ** Comparing sets *)

(** The entries [set_foreach] visits. *)
Definition set_elements (ht : hash_set) : list set_entry := filter (fun e => present e = true) (s_table ht).

Lemma set_foreach_elements ht :
  exists l, set_foreach deleted_key ht = Some l /\ map snd l = set_elements ht.
Proof. eexists. split; [exact (foreach_spec (s_table ht))|]. exact (present_from_entries (s_table ht) 0). Qed.

Lemma elements_hash ht e : set_ok ht -> e ∈ set_elements ht -> usable (se_key e) /\ se_hash e = key_hash (se_key e).
Proof.
  intros Hok [Hp Hin]%list_elem_of_filter. split; [by apply present_usable|].
  apply slot_at_elem in Hin as [a Ha]. by apply (to_hash _ _ _ _ (so_table _ Hok) a).
Qed.

Lemma stored_elements ht k : (exists p, stored ht k p) <-> exists e, e ∈ set_elements ht /\ key_equals k (se_key e) = true.
Proof.
  split.
  - intros (p & e & Hin & [Hp Hm] & _). exists e. split; [by apply list_elem_of_filter|done].
  - intros (e & [Hp Hin]%list_elem_of_filter & Hm). exists (se_key e), e. done.
Qed.

Lemma search_found ht k :
  set_ok ht -> usable k ->
  exists r, set_search deleted_key key_equals ht (key_hash k) k = Some r
    /\ (is_Some r <-> exists p, stored ht k p).
Proof using KeyOps0 deleted_nonnull.
  intros Hok Hu. destruct (set_search_spec ht k Hok Hu) as (r & E & Hr). exists r. split; [done|].
  destruct r as [a|].
  - split; [|done]. intros _. destruct Hr as (e & Hat & Hm). exists (se_key e), e.
    split; [apply slot_at_elem; eauto|done].
  - split; [by intros []|]. intros [p Hp]. by apply Hr in Hp.
Qed.

Lemma any_found_spec b l :
  set_ok b -> (forall e, e ∈ l -> usable (se_key e) /\ se_hash e = key_hash (se_key e)) ->
  exists r, any_found deleted_key key_hash key_equals b l = Some r
    /\ (r = true <-> exists e, e ∈ l /\ exists p, stored b (se_key e) p).
Proof using KeyOps0 deleted_nonnull.
  intros Hok. induction l as [|e l IH]; intros Hl.
  { exists false. split; [done|]. split; [done|]. by intros (e & ?%elem_of_nil & _). }
  destruct (Hl e ltac:(set_solver)) as [Hu Hh]. cbn [any_found]. unfold _mesa_set_search_pre_hashed.
  rewrite Hh, Z.eqb_refl. destruct (search_found b (se_key e) Hok Hu) as (r & -> & Hr).
  cbn [mbind option_bind]. destruct r as [a|].
  - exists true. split; [done|]. split; [|done]. intros _. exists e. split; [set_solver|]. by apply Hr.
  - destruct IH as (r & -> & Hr'); [intros x Hx; apply Hl; set_solver|]. exists r. split; [done|].
    rewrite Hr'. split; intros (x & Hx & Hp); [exists x; set_solver|].
    apply elem_of_cons in Hx as [->|Hx]; [|by exists x]. by apply Hr in Hp as [].
Qed.

Lemma all_found_spec b l :
  set_ok b -> (forall e, e ∈ l -> usable (se_key e) /\ se_hash e = key_hash (se_key e)) ->
  exists r, all_found deleted_key key_hash key_equals b l = Some r
    /\ (r = true <-> forall e, e ∈ l -> exists p, stored b (se_key e) p).
Proof using KeyOps0 deleted_nonnull.
  intros Hok. induction l as [|e l IH]; intros Hl.
  { exists true. split; [done|]. split; [|done]. by intros _ e ?%elem_of_nil. }
  destruct (Hl e ltac:(set_solver)) as [Hu Hh]. cbn [all_found]. unfold _mesa_set_search_pre_hashed.
  rewrite Hh, Z.eqb_refl. destruct (search_found b (se_key e) Hok Hu) as (r & -> & Hr).
  cbn [mbind option_bind]. destruct r as [a|].
  - destruct IH as (r & -> & Hr'); [intros x Hx; apply Hl; set_solver|]. exists r. split; [done|].
    rewrite Hr'. split; intros Hall x Hx; [|apply Hall; set_solver].
    apply elem_of_cons in Hx as [->|Hx]; [by apply Hr|by apply Hall].
  - exists false. split; [done|]. split; [done|]. intros Hall.
    destruct (Hall e ltac:(set_solver)) as [p Hp]. destruct Hr as [_ Hr]. by destruct Hr; [eauto|].
Qed.

(** Distinct keys that all occur in another list are not more than its elements. *)
Lemma distinct_length (la lb : list set_entry) :
  distinct_keys key_equals la ->
  (forall e, e ∈ la -> exists e', e' ∈ lb /\ key_equals (se_key e) (se_key e') = true) ->
  (length la <= length lb)%nat.
Proof using KeyOps0 deleted_nonnull.
  revert lb. induction la as [|e la IH]; intros lb Hd Hin; [cbn; lia|].
  inversion Hd as [|? ? Hd1 Hd2]; subst. rewrite Forall_forall in Hd1.
  destruct (Hin e ltac:(set_solver)) as (e' & He' & Hk).
  apply list_elem_of_split in He' as (l1 & l2 & ->). specialize (IH (l1 ++ l2) Hd2).
  rewrite !length_app in *. cbn [length]. enough (length la <= length l1 + length l2)%nat by lia.
  apply IH. intros x Hx. destruct (Hin x ltac:(set_solver)) as (y & Hy & Hky).
  rewrite elem_of_app, elem_of_cons in Hy. destruct Hy as [Hy|[->|Hy]]; [exists y; set_solver| |exists y; set_solver].
  exfalso. specialize (Hd1 x Hx). cbn in Hd1.
  assert (key_equals (se_key e) (se_key x) = true); [|congruence].
  eapply (ko_trans (key_hash := key_hash)); [done|]. by rewrite (ko_sym (key_hash := key_hash)).
Qed.

Lemma elements_length ht : set_ok ht -> Z.of_nat (length (set_elements ht)) = s_entries ht.
Proof. intros Hok. rewrite (so_entries _ Hok). symmetry. exact (slot_count_filter (s_table ht)). Qed.

(** The keys of [a] occur in [b]. *)
Lemma subset_elements a b :
  (forall k, (exists p, stored a k p) -> exists p, stored b k p) <->
  (forall e, e ∈ set_elements a -> exists p, stored b (se_key e) p).
Proof using KeyOps0.
  split.
  - intros H e He. apply H, stored_elements. exists e. split; [done|]. apply (ko_refl (key_hash := key_hash)).
  - intros H k (e & He & Hk)%stored_elements. destruct (H e He) as (p & x & Hx & Hm & Hp). exists p, x.
    split; [done|]. split; [|done]. by eapply (matches_equal key_hash).
Qed.

Lemma subset_entries a b :
  set_ok a -> set_ok b -> (forall k, (exists p, stored a k p) -> exists p, stored b k p) ->
  s_entries a <= s_entries b.
Proof using KeyOps0 deleted_nonnull.
  intros Ha Hb Hsub. rewrite <- !elements_length by done. apply inj_le, distinct_length.
  - exact (distinct_present key_hash key_equals (s_size a) (s_table a) (so_table _ Ha)).
  - intros e He. apply subset_elements with (e := e) in Hsub; [|done]. apply stored_elements in Hsub.
    destruct Hsub as (e' & ? & ?). eauto.
Qed.

(** ** Iterating and removing *)

Lemma set_next_unsafe_spec ht fuel i :
  Z.of_nat (length (s_table ht)) = size (s_size ht) -> (forall e, e ∈ s_table ht -> deleted e = false) ->
  s_deleted ht = 0 -> s_entries ht <> 0 -> 0 <= i <= size (s_size ht) ->
  size (s_size ht) - i < Z.of_nat fuel ->
  set_next_unsafe fuel ht (Some (i - 1)) = Some (next_scan (drop (Z.to_nat i) (s_table ht)) i).
Proof.
  intros Hlen Hnd Hd He. revert i. induction fuel as [|fuel IH]; intros i Hi Hf; [lia|].
  cbn [set_next_unsafe]. rewrite Hd. cbn [Z.eqb]. destruct (Z.eqb_spec (s_entries ht) 0); [done|].
  replace (i - 1 + 1) with i by lia. destruct (Z.eqb_spec i (size (s_size ht))) as [->|]; cbn [negb].
  - rewrite drop_ge by lia. done.
  - destruct (lookup_lt_is_Some_2 (s_table ht) (Z.to_nat i)) as [e Hl]; [lia|]. rewrite Hl.
    cbn [mbind option_bind]. rewrite (drop_S _ e) by done. cbn [next_scan].
    assert (Hp : negb (se_key e =? 0) = slot_present e).
    { cbn. unfold entry_is_present. specialize (Hnd e (list_elem_of_lookup_2 _ _ _ Hl)).
      unfold entry_is_deleted in Hnd. by rewrite Hnd, andb_true_r. }
    rewrite Hp. destruct (slot_present e); [done|].
    replace (Some i) with (Some (i + 1 - 1)) by (f_equal; lia). rewrite IH by lia.
    by replace (S (Z.to_nat i)) with (Z.to_nat (i + 1)) by lia.
Qed.

(** The state in the middle of [set_foreach_remove], everything before [i] removed. *)
Record removing ht (i : Z) : Prop := {
  rm_length : Z.of_nat (length (s_table ht)) = size (s_size ht);
  rm_deleted : forall e, e ∈ s_table ht -> deleted e = false;
  rm_count : s_entries ht = Z.of_nat (length (set_elements ht));
  rm_zero : s_deleted ht = 0;
  rm_before : filter (fun e => present e = true) (take (Z.to_nat i) (s_table ht)) = [];
  rm_range : 0 <= i <= size (s_size ht) /\ size (s_size ht) < 2 ^ 32;
}.

(** One round: the next entry is the first element, and clearing it goes on. *)
Lemma removing_step ht i :
  removing ht i -> s_entries ht <> 0 ->
  exists a e, next_scan (drop (Z.to_nat i) (s_table ht)) i = Some a
    /\ s_table ht !! Z.to_nat a = Some e /\ i <= a
    /\ let ht' := HashSet (<[Z.to_nat a := zero]> (s_table ht)) (s_initial ht) (s_size ht)
                    (s_entries ht - 1) (s_deleted ht) in
       removing ht' (a + 1) /\ set_elements ht = e :: set_elements ht'.
Proof using KeyOps0 deleted_nonnull.
  intros [Hl Hd Hc Hz Hb Hi] He. pose proof (next_scan_spec (drop (Z.to_nat i) (s_table ht)) i) as Hs.
  assert (Hel : set_elements ht = map snd (present_from (drop (Z.to_nat i) (s_table ht)) i)).
  { unfold set_elements. rewrite <- (take_drop (Z.to_nat i) (s_table ht)) at 1.
    rewrite filter_app, Hb. cbn [app]. symmetry.
    exact (present_from_entries (drop (Z.to_nat i) (s_table ht)) i). }
  destruct (next_scan _ i) as [a|]; [|rewrite Hs in Hel; rewrite Hel in Hc; cbn in Hc; lia].
  destruct Hs as (n & e & Ha & Hn & Hp). exists a, e. split; [done|].
  rewrite lookup_drop in Hn. rewrite drop_drop in Hp.
  assert (Ea : (Z.to_nat i + n)%nat = Z.to_nat a) by lia.
  replace (Z.to_nat i + S n)%nat with (S (Z.to_nat a)) in Hp by lia. rewrite Ea in Hn.
  pose proof (lookup_lt_Some _ _ _ Hn) as Hlt. set (t1 := take (Z.to_nat a) (s_table ht)) in *.
  set (t2 := drop (S (Z.to_nat a)) (s_table ht)) in *.
  assert (Ht : s_table ht = t1 ++ e :: t2) by (symmetry; by apply take_drop_middle).
  assert (Ht' : <[Z.to_nat a := zero]> (s_table ht) = t1 ++ zero :: t2)
    by (apply insert_take_drop; lia).
  assert (Hel2 : set_elements ht = e :: filter (fun e => present e = true) t2).
  { rewrite Hel, Hp. cbn [map snd]. f_equal. exact (present_from_entries t2 (a + 1)). }
  assert (Hpe : present e = true).
  { assert (Hin : e ∈ set_elements ht) by (rewrite Hel2; set_solver). by apply list_elem_of_filter in Hin as [? _]. }
  assert (H1 : filter (fun e => present e = true) t1 = []).
  { unfold set_elements in Hel2. rewrite Ht, filter_app, filter_cons_True in Hel2 by done.
    apply (f_equal length) in Hel2. rewrite length_app in Hel2. cbn [length] in Hel2.
    destruct (filter _ t1); [done|]. cbn [length] in Hel2. lia. }
  assert (Hel3 : filter (fun e => present e = true) (<[Z.to_nat a := zero]> (s_table ht))
    = filter (fun e => present e = true) t2).
  { rewrite Ht', filter_app, H1, filter_cons_False by done. done. }
  split; [done|]. split; [lia|]. cbv zeta. split; [|unfold set_elements at 2; cbn [s_table]; by rewrite Hel3].
  constructor; cbn [s_table s_size s_entries s_deleted]; try done.
  - by rewrite length_insert.
  - intros x Hx. rewrite Ht', elem_of_app, elem_of_cons in Hx. rewrite Ht in Hd.
    destruct Hx as [Hx|[->|Hx]]; [|apply zero_not_deleted|]; apply Hd; set_solver.
  - unfold set_elements at 1. cbn [s_table]. rewrite Hel3, Hc, Hel2. cbn [length]. lia.
  - rewrite Ht'. replace (Z.to_nat (a + 1)) with (length (t1 ++ [zero]))
      by (rewrite length_app; unfold t1; rewrite length_take; cbn; lia).
    replace (t1 ++ zero :: t2) with ((t1 ++ [zero]) ++ t2) by (by rewrite <- app_assoc).
    rewrite take_app_length, filter_app, H1. done.
  - lia.
Qed.

Lemma foreach_remove_loop_spec fuel ht i entry :
  removing ht i -> s_entries ht < Z.of_nat fuel ->
  (s_entries ht <> 0 -> entry = next_scan (drop (Z.to_nat i) (s_table ht)) i) ->
  exists ht' j, foreach_remove_loop fuel ht entry = Some (set_elements ht, ht') /\ removing ht' j
    /\ s_entries ht' = 0 /\ s_size ht' = s_size ht /\ s_initial ht' = s_initial ht.
Proof using KeyOps0 deleted_nonnull.
  revert ht i entry. induction fuel as [|fuel IH]; intros ht i entry Hr Hf Hent.
  { pose proof (rm_count _ _ Hr). lia. }
  cbn [foreach_remove_loop]. destruct (Z.eqb_spec (s_entries ht) 0) as [Hz|Hnz].
  - exists ht, i. split_and!; try done. pose proof (rm_count _ _ Hr) as Hc.
    destruct (set_elements ht); [done|cbn in Hc; lia].
  - destruct (removing_step ht i Hr Hnz) as (a & e & Ea & Hlk & Hia & Hr' & Hel). cbv zeta in Hr', Hel.
    rewrite (Hent Hnz), Ea. cbn [mbind option_bind]. unfold s_update. rewrite Hlk. cbn [mbind option_bind].
    unfold s_set_counts, s_set_table. cbn [s_table s_initial s_size s_entries s_deleted].
    pose proof (rm_count _ _ Hr). pose proof (rm_length _ _ Hr). pose proof (rm_range _ _ Hr).
    assert (Hcnt : s_entries ht <= Z.of_nat (length (s_table ht))).
    { rewrite (rm_count _ _ Hr). unfold set_elements. pose proof (length_filter (fun e => present e = true) (s_table ht)). lia. }
    rewrite u32_small by lia. set (ht1 := HashSet _ _ _ _ _) in *.
    assert (Hnext : exists entry', _mesa_set_next_entry_unsafe ht1 (Some a) = Some entry'
      /\ (s_entries ht1 <> 0 -> entry' = next_scan (drop (Z.to_nat (a + 1)) (s_table ht1)) (a + 1))).
    { unfold _mesa_set_next_entry_unsafe. destruct (Z.eq_dec (s_entries ht1) 0) as [E0|E0].
      - exists None. split; [|done]. cbn [set_next_unsafe]. by rewrite (rm_zero _ _ Hr'), E0.
      - eexists. split; [|done]. replace (Some a) with (Some (a + 1 - 1)) by (f_equal; lia).
        apply set_next_unsafe_spec; try apply Hr'; try done. pose proof (rm_length _ _ Hr').
        pose proof (rm_range _ _ Hr'). lia. }
    destruct Hnext as (entry' & -> & Hentry'). cbn [mbind option_bind].
    destruct (IH ht1 (a + 1) entry' Hr') as (ht' & j & -> & K1 & K2 & K3 & K4);
      [unfold ht1; cbn; lia|done|]. cbn [mbind option_bind]. exists ht', j. rewrite Hel. by split_and!.
Qed.

Lemma no_deleted ht : set_ok ht -> s_deleted ht = 0 -> forall e, e ∈ s_table ht -> deleted e = false.
Proof.
  intros Hok Hd e He. rewrite (so_deleted _ Hok), slot_count_zero in Hd.
  apply list_elem_of_lookup in He as [n Hn]. eauto.
Qed.

Lemma set_ok_empty ht j :
  removing ht j -> s_entries ht = 0 -> 0 <= size_index (s_size ht) < 27 ->
  set_size_index (size_index (s_size ht)) = Some (s_size ht) -> (s_initial ht = true -> size (s_size ht) = 19) ->
  set_ok ht /\ forall k p, ~ stored ht k p.
Proof.
  intros Hr He Hi Hrow Hini. destruct (row_size_ok _ _ Hi Hrow) as [Hts _].
  assert (Hnil : set_elements ht = []).
  { pose proof (rm_count _ _ Hr). destruct (set_elements ht); [done|cbn in *; lia]. }
  assert (Hp : forall e, e ∈ s_table ht -> present e = false).
  { intros e Hin. apply not_true_is_false. intros Hp. assert (Hx : e ∈ set_elements ht) by (by apply list_elem_of_filter).
    rewrite Hnil in Hx. by apply elem_of_nil in Hx. }
  split.
  - constructor; try done.
    + apply table_ok_empty; [done|apply Hr|done].
    + rewrite He. symmetry. apply slot_count_zero. intros i e Hl. apply Hp. by eapply list_elem_of_lookup_2.
    + rewrite (rm_zero _ _ Hr). symmetry. apply slot_count_zero. intros i e Hl. apply (rm_deleted _ _ Hr).
      by eapply list_elem_of_lookup_2.
  - intros k p (e & Hin & [Hpe _] & _). cbn in Hpe. by rewrite Hp in Hpe.
Qed.

(** ** Sequences of operations *)

(** The operations that change a set, with the result of the allocation they may
    make. *)
Inductive set_op :=
| op_add (alloc : bool) (k : Z)
| op_search_or_add (alloc : bool) (k : Z)
| op_remove_key (k : Z)
| op_set_clear (delete_function : bool)
| op_resize (alloc : bool) (n : Z).

(** One call.  An addition reports whether the key was there before, [None] for a
    null pointer; the other operations report nothing ([Some false]). *)
Definition set_run_op (ht : hash_set) (op : set_op) : option (hash_set * option bool) :=
  match op with
  | op_add alloc k =>
      '(r, ht) ← _mesa_set_search_and_add deleted_key key_hash key_equals alloc ht k;
      Some (ht, option_map snd r)
  | op_search_or_add alloc k =>
      '(r, ht) ← _mesa_set_search_or_add deleted_key key_hash key_equals alloc ht k;
      Some (ht, option_map snd r)
  | op_remove_key k =>
      ht ← _mesa_set_remove_key deleted_key key_hash key_equals ht k; Some (ht, Some false)
  | op_set_clear del => '(ht, _) ← _mesa_set_clear deleted_key ht del; Some (ht, Some false)
  | op_resize alloc n => ht ← _mesa_set_resize deleted_key alloc ht n; Some (ht, Some false)
  end.

Fixpoint set_run_ops (ht : hash_set) (ops : list set_op) : option (hash_set * list (option bool)) :=
  match ops with
  | [] => Some (ht, [])
  | op :: ops =>
      '(ht, r) ← set_run_op ht op;
      '(ht, rs) ← set_run_ops ht ops;
      Some (ht, r :: rs)
  end.

(** The abstract set they are meant to implement: the pointer stored for a key. *)
Definition set_abs_op (m : Z -> option Z) (op : set_op) : (Z -> option Z) * option bool :=
  let known k := match m k with Some _ => true | None => false end in
  match op with
  | op_add _ k => (fun k' => if key_equals k k' then Some k else m k', Some (known k))
  | op_search_or_add _ k =>
      (fun k' => if key_equals k k' && negb (known k) then Some k else m k', Some (known k))
  | op_remove_key k => (fun k' => if key_equals k k' then None else m k', Some false)
  | op_set_clear _ => (fun _ => None, Some false)
  | op_resize _ _ => (m, Some false)
  end.

Fixpoint set_abs_ops (m : Z -> option Z) (ops : list set_op) : (Z -> option Z) * list (option bool) :=
  match ops with
  | [] => (m, [])
  | op :: ops =>
      let '(m, r) := set_abs_op m op in
      let '(m, rs) := set_abs_ops m ops in
      (m, r :: rs)
  end.

(** The flag that the allocation of the last addition has failed, since the last
    clear and the last resize with memory. *)
Definition set_flag (f : bool) (op : set_op) : bool :=
  match op with
  | op_add alloc _ | op_search_or_add alloc _ => negb alloc
  | op_remove_key _ => f
  | op_set_clear _ => false
  | op_resize alloc _ => f && negb alloc
  end.

(** The operations that may rehash. *)
Definition op_rehashes (op : set_op) : bool :=
  match op with op_add _ _ | op_search_or_add _ _ | op_resize _ _ => true | _ => false end.

(** The contract for any results of the allocations.  While the flag is down every
    operation acts on the abstract set, an addition without memory too.  With the
    flag up an operation that may rehash may also act on the empty set, forgetting
    all keys, and the addition of a new key may be refused if there is again no
    memory. *)
Inductive set_step : (Z -> option Z) * bool -> set_op -> option bool -> (Z -> option Z) * bool -> Prop :=
| set_step_normal m f op :
    set_step (m, f) op (snd (set_abs_op m op)) (fst (set_abs_op m op), set_flag f op)
| set_step_emptied m op : op_rehashes op = true ->
    set_step (m, true) op (snd (set_abs_op (fun _ => None) op))
      (fst (set_abs_op (fun _ => None) op), set_flag true op)
| set_step_refused m op k : op = op_add false k \/ op = op_search_or_add false k -> m k = None ->
    set_step (m, true) op None (m, true).

Inductive set_steps : (Z -> option Z) * bool -> list set_op -> list (option bool)
    -> (Z -> option Z) * bool -> Prop :=
| set_steps_nil s : set_steps s [] [] s
| set_steps_cons s op r s1 ops rs s2 :
    set_step s op r s1 -> set_steps s1 ops rs s2 -> set_steps s (op :: ops) (r :: rs) s2.

(** The allocation of the operation, if it makes one, is given. *)
Definition set_op_alloc (op : set_op) : bool :=
  match op with op_add alloc _ | op_search_or_add alloc _ | op_resize alloc _ => alloc | _ => true end.

(** With memory the contract is the abstract set. *)
Lemma set_steps_alloc m ops rs s :
  set_steps (m, false) ops rs s -> forallb set_op_alloc ops = true ->
  rs = snd (set_abs_ops m ops) /\ fst s = fst (set_abs_ops m ops).
Proof.
  remember (m, false) as s0 eqn:E0. intros Hs. revert m E0.
  induction Hs as [s|s0 op r s1 ops rs s2 Hstep _ IH]; intros m ->; [done|].
  cbn [forallb set_abs_ops]. intros [Ha Hops]%andb_true_iff.
  assert (r = snd (set_abs_op m op) /\ s1 = (fst (set_abs_op m op), false)) as [-> ->].
  { inversion Hstep; subst. split; [done|]. f_equal. destruct op; cbn in *; by subst. }
  destruct (IH _ eq_refl Hops) as [-> H2]. destruct (set_abs_op m op) as [m1 r]. cbn [fst snd] in *.
  by destruct (set_abs_ops m1 ops).
Qed.

Definition set_op_ok (op : set_op) : Prop :=
  match op with
  | op_add _ k | op_search_or_add _ k | op_remove_key k => usable k
  | op_set_clear _ => True
  | op_resize _ n => n <= 2 ^ 30
  end.

Definition set_sim (n : Z) (ht : hash_set) (s : (Z -> option Z) * bool) : Prop :=
  set_ok ht /\ (forall k p, stored ht k p <-> fst s k = Some p) /\ s_entries ht <= n
  /\ (snd s = false -> set_fits ht).

Lemma set_capacity ht : set_ok ht -> s_entries ht < 2 ^ 30 -> set_has_capacity ht.
Proof.
  intros Hok He. unfold set_has_capacity. pose proof (so_index _ Hok).
  destruct (Z_lt_le_dec (size_index (s_size ht)) 26); [by left|right].
  rewrite (so_max_pow _ Hok). replace (4 + size_index (s_size ht)) with 30 by lia. done.
Qed.

Lemma known_spec ht m k (found : bool) :
  (forall k p, stored ht k p <-> m k = Some p) -> (found = true <-> exists p, stored ht k p) ->
  found = match m k with Some _ => true | None => false end.
Proof.
  intros Hm Hf. destruct (m k) as [p|] eqn:E.
  - apply Hf. exists p. by apply Hm.
  - apply not_true_is_false. intros [p Hp%Hm]%Hf. congruence.
Qed.

(** A step of an operation that may rehash, on the set as it is or on the empty one. *)
Lemma set_step_base ht ht0 m f op :
  add_base ht ht0 -> op_rehashes op = true -> (f = false -> set_fits ht) ->
  (forall k p, stored ht k p <-> m k = Some p) -> 0 <= s_entries ht ->
  exists m0, (forall k p, stored ht0 k p <-> m0 k = Some p) /\ s_entries ht0 <= s_entries ht
    /\ set_step (m, f) op (snd (set_abs_op m0 op)) (fst (set_abs_op m0 op), set_flag f op).
Proof.
  intros [->|(Hnf & _ & He & Hno)] Hop Hfit Hm Hn.
  - exists m. split_and!; [done|lia|constructor].
  - destruct f; [|by specialize (Hfit eq_refl)]. exists (fun _ => None).
    split_and!; [|lia|by apply set_step_emptied]. intros k p. split; [intros Hx; by apply Hno in Hx|done].
Qed.

Lemma set_run_add_sim n ht m f alloc k (replace : bool) :
  let op := if replace then op_add alloc k else op_search_or_add alloc k in
  set_sim n ht (m, f) -> n < 2 ^ 30 -> usable k ->
  exists ht' r s, set_run_op ht op = Some (ht', r) /\ set_step (m, f) op r s /\ set_sim (n + 1) ht' s.
Proof using KeyOps0 deleted_nonnull.
  intros op (Hok & Hm & Hn & Hfit) Hlt Hu. cbn [fst snd] in *. pose proof (set_counter_range _ Hok).
  destruct (set_search_or_add_any alloc ht k Hok Hu) as (r & ht2 & E & Ho); [apply set_capacity; [done|lia]|].
  destruct Ho as [ht0 ht1 a found ht2 Hb Hs He Had Hal|Hnf -> Hfull Hno].
  - destruct (set_step_base ht ht0 m f op Hb) as (m0 & Hm0 & He0 & Hst);
      [by destruct replace|done|done|lia|].
    assert (Hm1 : forall k p, stored ht1 k p <-> m0 k = Some p) by (intros; rewrite Hs; apply Hm0).
    assert (Hflag : set_flag f op = negb alloc) by (by destruct replace). destruct replace; cbn [op set_run_op].
    + unfold _mesa_set_search_and_add, _mesa_set_search_and_add_pre_hashed. rewrite Z.eqb_refl, E.
      cbn [mbind option_bind].
      destruct (set_replace_spec ht1 k a found ht2 Had Hu) as (ht' & -> & [R1 R2 R3 R4 R5] & R6).
      cbn [mbind option_bind option_map snd]. eexists _, _, _. split; [done|]. split; [|split_and!].
      * replace (Some found) with (snd (set_abs_op m0 op)); [exact Hst|]. cbn.
        by rewrite <- (known_spec ht1 m0 k found).
      * done.
      * intros k' p. cbn. rewrite R4. destruct (key_equals k k'); [|apply Hm1]. split; congruence.
      * destruct found; lia.
      * cbn [snd]. rewrite Hflag. destruct alloc; [auto|done].
    + unfold _mesa_set_search_or_add. rewrite E. cbn [mbind option_bind option_map snd].
      destruct Had as [A1 A2 A3 A4 A5 _ _]. eexists _, _, _. split; [done|]. split; [|split_and!].
      * replace (Some found) with (snd (set_abs_op m0 op)); [exact Hst|]. cbn.
        by rewrite <- (known_spec ht1 m0 k found).
      * done.
      * intros k' p. cbn. rewrite <- (known_spec ht1 m0 k found) by done. rewrite A4.
        destruct (key_equals k k' && negb found); [|apply Hm1]. split; congruence.
      * destruct found; lia.
      * cbn [snd]. rewrite Hflag. destruct alloc; [auto|done].
  - exists ht, None, (m, true). destruct f; [|by specialize (Hfit eq_refl)].
    split; [|split; [apply (set_step_refused m op k)|split_and!; try done; cbn; lia]].
    + destruct replace; cbn [op set_run_op];
        unfold _mesa_set_search_and_add, _mesa_set_search_and_add_pre_hashed, _mesa_set_search_or_add;
        rewrite ?Z.eqb_refl, E; done.
    + destruct replace; auto.
    + destruct (m k) as [p|] eqn:Ek; [|done]. apply Hm in Ek. by apply Hno in Ek.
Qed.

Lemma set_run_resize_sim n ht m f alloc r :
  set_sim n ht (m, f) -> n <= 2 ^ 30 -> r <= 2 ^ 30 ->
  exists ht' res s, set_run_op ht (op_resize alloc r) = Some (ht', res)
    /\ set_step (m, f) (op_resize alloc r) res s /\ set_sim n ht' s.
Proof using KeyOps0 deleted_nonnull.
  intros (Hok & Hm & Hn & Hfit) Hlt Hr. cbn [fst snd set_run_op] in *. pose proof (set_counter_range _ Hok).
  destruct (set_resize_spec alloc ht r Hok) as (ht' & -> & [R1 R2 R3 R4] & _); [lia|lia|].
  cbn [mbind option_bind]. exists ht', (Some false).
  assert (Hb : exists ht0, add_base ht ht0 /\ (forall k p, stored ht' k p <-> stored ht0 k p)
                           /\ s_entries ht' = s_entries ht0).
  { destruct R2 as [[He Hs]|(Hnf & He & Hs)]; [exists ht|exists ht']; (split; [|done]).
    - by left.
    - by right. }
  destruct Hb as (ht0 & Hb & Hs & He).
  destruct (set_step_base ht ht0 m f (op_resize alloc r) Hb) as (m0 & Hm0 & He0 & Hst); [done|done|done|lia|].
  eexists. split; [done|]. split; [exact Hst|]. split_and!; [done| |lia|].
  - intros k p. rewrite Hs. apply Hm0.
  - cbn [snd set_flag]. intros Hf. apply R3. destruct alloc; [by left|right]. apply Hfit.
    by destruct f.
Qed.

Lemma set_run_op_sim n ht s op :
  set_sim n ht s -> n < 2 ^ 30 -> set_op_ok op ->
  exists ht' r s', set_run_op ht op = Some (ht', r) /\ set_step s op r s' /\ set_sim (n + 1) ht' s'.
Proof using KeyOps0 deleted_nonnull.
  destruct s as [m f]. intros Hs Hlt Hop. pose proof Hs as (Hok & Hm & Hn & Hfit).
  pose proof (set_counter_range _ Hok). cbn [fst snd] in *.
  destruct op as [alloc k|alloc k|k|del|alloc r]; cbn in Hop.
  - exact (set_run_add_sim n ht m f alloc k true Hs Hlt Hop).
  - exact (set_run_add_sim n ht m f alloc k false Hs Hlt Hop).
  - destruct (set_remove_key_spec ht k Hok Hop) as (ht' & E & R1 & R2 & R3 & R4). cbn [set_run_op].
    rewrite E. cbn [mbind option_bind]. eexists _, _, _. split; [done|]. split; [apply set_step_normal|].
    split_and!; [done| |lia|auto]. intros k' p. cbn. rewrite R2, Hm.
    destruct (key_equals k k'); intuition congruence.
  - destruct (set_clear_spec ht del Hok) as (ht' & E & C1 & C2 & C3 & C4). cbn [set_run_op].
    rewrite E. cbn [mbind option_bind]. eexists _, _, _. split; [done|]. split; [apply set_step_normal|].
    pose proof (set_counter_range _ C1). split_and!; [done| |lia|intros _; unfold set_fits; lia].
    intros k p. cbn. split; [intros Hx; by apply C2 in Hx|done].
  - destruct (set_run_resize_sim n ht m f alloc r Hs) as (ht' & res & s' & E & Hst & (S1 & S2 & S3 & S4)); [lia..|].
    exists ht', res, s'. split_and!; try done. split_and!; try done. lia.
Qed.

Lemma set_run_ops_sim ops n ht s :
  set_sim n ht s -> n + Z.of_nat (length ops) <= 2 ^ 30 -> Forall set_op_ok ops ->
  exists ht' rs s', set_run_ops ht ops = Some (ht', rs) /\ set_steps s ops rs s'
    /\ set_sim (n + Z.of_nat (length ops)) ht' s'.
Proof using KeyOps0 deleted_nonnull.
  revert n ht s. induction ops as [|op ops IH]; intros n ht s Hs Hn Hops; cbn [set_run_ops length].
  { exists ht, [], s. split; [done|]. split; [constructor|]. by rewrite Z.add_0_r. }
  apply Forall_cons_1 in Hops as [Hop Hops]. cbn [length] in Hn.
  destruct (set_run_op_sim n ht s op Hs ltac:(lia) Hop) as (ht1 & r & s1 & -> & Hst & Hs1).
  cbn [mbind option_bind].
  destruct (IH (n + 1) ht1 s1 Hs1) as (ht2 & rs & s2 & -> & Hsts & Hs2); [lia|done|]. cbn [mbind option_bind].
  exists ht2, (r :: rs), s2. split; [done|]. split; [by econstructor|].
  by replace (n + Z.of_nat (S (length ops))) with (n + 1 + Z.of_nat (length ops)) by lia.
Qed.

(** The pointer [_mesa_set_search] finds for a key. *)
Definition set_lookup (ht : hash_set) (k : Z) : option (option Z) :=
  entry ← _mesa_set_search deleted_key key_hash key_equals ht k;
  match entry with
  | None => Some None
  | Some a => e ← s_table ht !! Z.to_nat a; Some (Some (se_key e))
  end.

Lemma set_sim_lookup n ht s k : set_sim n ht s -> usable k -> set_lookup ht k = Some (fst s k).
Proof using KeyOps0 deleted_nonnull.
  intros (Hok & Hm & _) Hu. unfold set_lookup, _mesa_set_search.
  destruct (set_search_spec ht k Hok Hu) as (r & -> & Hr). cbn [mbind option_bind]. destruct r as [a|].
  - destruct Hr as (e & Hat & Hme). rewrite (proj2 Hat). cbn. f_equal. symmetry. apply Hm.
    exists e. split; [apply slot_at_elem; eauto|done].
  - destruct (fst s k) as [p|] eqn:E; [|done]. apply Hm in E. by apply Hr in E.
Qed.

Lemma set_init_sim : exists ht, _mesa_set_init = Some ht
  /\ set_sim 0 ht (fun _ => None, false) /\ set_fits ht.
Proof using KeyOps0 deleted_nonnull.
  destruct (set_size_index_ok 0 ltac:(lia)) as (ts & Ets & Hts & Hidx & row & Hrow & _ & Hsz).
  unfold _mesa_set_init. rewrite Ets. cbn [mbind option_bind].
  assert (Hs : size ts = 19) by (rewrite Hsz; injection Hrow as <-; reflexivity). rewrite Hs. cbn [Z.eqb Pos.eqb].
  eexists. split; [done|]. pose proof (zero_set_ok ts true Hts) as Hz. rewrite Hs, Hidx in Hz.
  change (Z.to_nat 19) with 19%nat in Hz. pose proof (sz_max _ Hts).
  assert (Hfit : set_fits (HashSet (replicate 19 zero) true ts 0 0)) by (unfold set_fits; cbn; lia).
  unfold set_sim. split_and!; [apply Hz; [lia|done|done]| |done..].
  intros k p. split; [intros Hm; by apply zero_set_stored in Hm|done].
Qed.

(** * Properties *)

(** C26: the hash set implements a set of keys, for any results of its allocations.
    From [_mesa_set_init], take any sequence of at most [2^30] additions (replacing the
    stored pointer or, for [_mesa_set_search_or_add], keeping it), removals, clears and
    resizes to at most [2^30] entries, with usable keys (neither null nor the deleted
    marker), each addition and resize with any result of its allocation.  It runs
    without a failed assertion, an access out of bounds or an endless probe, its
    results and final state follow the contract [set_step], and [_mesa_set_search] then
    finds for every key exactly the pointer of that contract's abstract set, also in a
    copy of the set.  If every allocation is given, each addition reports correctly
    whether an equal key was there and the abstract set is the one the same sequence
    gives.  Failures matter as [set_step] says: an addition whose allocation fails
    still takes effect; the next addition or resize may find the set over its limit,
    and then either acts as usual, or drops all earlier keys first, or, for the
    addition of a new key whose own allocation fails too, returns NULL and changes
    nothing. *)
Theorem hash_set_refines_set (ops : list set_op) :
  Z.of_nat (length ops) <= 2 ^ 30 -> Forall set_op_ok ops ->
  exists ht0 ht rs s, _mesa_set_init = Some ht0
    /\ set_run_ops ht0 ops = Some (ht, rs)
    /\ set_steps (fun _ => None, false) ops rs s
    /\ _mesa_set_copy true ht = Some ht
    /\ (forall k, usable k -> set_lookup ht k = Some (fst s k))
    /\ (forallb set_op_alloc ops = true ->
          rs = snd (set_abs_ops (fun _ => None) ops)
          /\ forall k, usable k -> set_lookup ht k = Some (fst (set_abs_ops (fun _ => None) ops) k)).
Proof using KeyOps0 deleted_nonnull.
  intros Hlen Hops. destruct set_init_sim as (ht0 & E0 & Hs0 & _).
  destruct (set_run_ops_sim ops 0 ht0 _ Hs0) as (ht & rs & s & E & Hst & Hs); [lia|done|].
  exists ht0, ht, rs, s. pose proof (fun k => set_sim_lookup _ _ _ k Hs) as Hl.
  split_and!; [done|done|done|apply set_copy_spec, Hs|done|]. intros Ha.
  destruct (set_steps_alloc _ _ _ _ Hst Ha) as [-> H2]. split; [done|]. intros k Hk. by rewrite Hl, H2.
Qed.

(** [_mesa_set_intersects] returns whether two sets have a key in common, and
    [_mesa_set_equal] whether they have the same keys, whatever their sizes, their
    deleted slots and the order of insertion. *)
Theorem hash_set_comparison_correct (a b : hash_set) :
  set_ok a -> set_ok b ->
  (exists r, _mesa_set_intersects deleted_key key_hash key_equals a b = Some r
     /\ (r = true <-> exists k, (exists p, stored a k p) /\ (exists q, stored b k q)))
  /\ (exists r, _mesa_set_equal deleted_key key_hash key_equals a b = Some r
     /\ (r = true <-> forall k, (exists p, stored a k p) <-> (exists q, stored b k q))).
Proof using KeyOps0 deleted_nonnull.
  intros Ha Hb. split.
  - unfold _mesa_set_intersects.
    assert (Hgo : forall x y, set_ok x -> set_ok y -> exists r,
      (l ← set_foreach deleted_key x; any_found deleted_key key_hash key_equals y (map snd l)) = Some r
      /\ (r = true <-> exists k, (exists p, stored x k p) /\ (exists q, stored y k q))).
    { intros x y Hx Hy. destruct (set_foreach_elements x) as (l & -> & El). cbn [mbind option_bind].
      rewrite El. destruct (any_found_spec y (set_elements x) Hy) as (r & -> & Hr);
        [intros e He; by apply (elements_hash x)|].
      exists r. split; [done|]. rewrite Hr. split.
      - intros (e & He & Hs). exists (se_key e). split; [|done]. apply stored_elements. exists e.
        split; [done|]. apply (ko_refl (key_hash := key_hash)).
      - intros (k & (e & He & Hk)%stored_elements & (q & y' & Hy' & Hm & Hq)). exists e. split; [done|].
        exists q, y'. split; [done|]. split; [|done].
        apply (matches_equal key_hash key_equals (se_key e) k y'); [|exact Hm].
        by rewrite (ko_sym (key_hash := key_hash)). }
    destruct (s_entries b <? s_entries a); [|by apply Hgo].
    destruct (Hgo b a Hb Ha) as (r & E & Hr). exists r. split; [done|]. rewrite Hr.
    split; intros (k & H1 & H2); eauto.
  - unfold _mesa_set_equal. destruct (Z.eqb_spec (s_entries a) (s_entries b)) as [Ee|Ee]; cbn [negb].
    + destruct (set_foreach_elements a) as (la & -> & Ela). destruct (set_foreach_elements b) as (lb & -> & Elb).
      cbn [mbind option_bind]. rewrite Ela, Elb.
      destruct (all_found_spec b (set_elements a) Hb) as (r1 & -> & H1); [intros e He; by apply (elements_hash a)|].
      destruct (all_found_spec a (set_elements b) Ha) as (r2 & -> & H2); [intros e He; by apply (elements_hash b)|].
      rewrite <- subset_elements in H1, H2. cbn [mbind option_bind].
      destruct r1; cbn [negb]; eexists; (split; [done|]).
      * rewrite H2. split; [intros Hs k; split; [by apply H1|apply Hs]|]. intros Heq k. apply Heq.
      * split; [done|]. intros Heq. apply H1. intros k. apply Heq.
    + exists false. split; [done|]. split; [done|]. intros Heq. destruct Ee.
      apply Z.le_antisymm; apply subset_entries; try done; intros k; apply Heq.
Qed.

(** [set_foreach_remove] on a set without deleted slots runs its body on every
    element exactly once and leaves an empty, well-formed set, although the slots it
    frees on the way break the probe sequences of the elements still to be visited. *)
Theorem set_foreach_remove_correct (ht : hash_set) :
  set_ok ht -> s_deleted ht = 0 ->
  exists l ht', set_foreach_remove ht = Some (l, ht')
    /\ (exists vis, set_foreach deleted_key ht = Some vis /\ l = map snd vis)
    /\ Z.of_nat (length l) = s_entries ht
    /\ set_ok ht' /\ s_entries ht' = 0 /\ forall k p, ~ stored ht' k p.
Proof using KeyOps0 deleted_nonnull.
  intros Hok Hd. pose proof (size_gt _ (so_size_ok _ Hok)). pose proof (sz_small _ (so_size_ok _ Hok)).
  pose proof (to_length _ _ _ _ (so_table _ Hok)) as Hlen.
  assert (Hr : removing ht 0).
  { constructor; try done; [by apply no_deleted|by rewrite elements_length|lia]. }
  assert (Hnext : exists entry, _mesa_set_next_entry_unsafe ht None = Some entry
    /\ (s_entries ht <> 0 -> entry = next_scan (drop (Z.to_nat 0) (s_table ht)) 0)).
  { change (_mesa_set_next_entry_unsafe ht None) with (_mesa_set_next_entry_unsafe ht (Some (0 - 1))).
    unfold _mesa_set_next_entry_unsafe. destruct (Z.eq_dec (s_entries ht) 0) as [E0|E0].
    - exists None. split; [|done]. cbn [set_next_unsafe]. by rewrite Hd, E0.
    - eexists. split; [|done]. apply set_next_unsafe_spec; try done; [by apply no_deleted|lia..]. }
  unfold set_foreach_remove. destruct Hnext as (entry & -> & Hent). cbn [mbind option_bind].
  destruct (foreach_remove_loop_spec (S (length (s_table ht))) ht 0 entry Hr) as (ht' & j & -> & R1 & R2 & R3 & R4).
  - rewrite (so_entries _ Hok). pose proof (slot_count_range present (s_table ht)). lia.
  - done.
  - exists (set_elements ht), ht'. destruct (set_ok_empty ht' j R1 R2) as [S1 S2];
      [rewrite R3; apply Hok..|rewrite R3, R4; apply Hok|].
    split_and!; try done; [|by rewrite elements_length].
    destruct (set_foreach_elements ht) as (l & El & Hl). exists l. by rewrite Hl.
Qed.
End set_theory.

(** ** Concrete sets *)

#[export] Instance u32_keys (hash_uint : Z -> Z) (Hrange : forall n, 0 <= hash_uint n < 2 ^ 32) :
  KeyOps Z (key_u32_hash hash_uint) key_u32_equals.
Proof.
  constructor; unfold key_u32_hash, key_u32_equals.
  - intros k. apply Hrange.
  - intros a b ->%Z.eqb_eq. done.
  - intros a. apply Z.eqb_refl.
  - intros a b. apply Z.eqb_sym.
  - intros a b c ->%Z.eqb_eq. done.
Qed.

Definition demo_hash (n : Z) : Z := n mod 7.
Lemma demo_hash_range n : 0 <= demo_hash n < 2 ^ 32.
Proof. unfold demo_hash. pose proof (Z.mod_pos_bound n 7 ltac:(lia)). lia. Qed.

(** 32-bit keys: [2^32 + 5] is stored for 5, then replaced, then kept. *)
Definition demo_ops (alloc : bool) : list set_op :=
  [op_add true (2 ^ 32 + 5); op_add alloc 12; op_add true 5; op_search_or_add true (2 ^ 33 + 5);
   op_remove_key 12; op_resize alloc 100; op_add true 19].

Lemma hash_set_refines_set_witness :
  (exists ht0 ht rs s, _mesa_set_init = Some ht0
    /\ set_run_ops 1 (key_u32_hash demo_hash) key_u32_equals ht0 (demo_ops false) = Some (ht, rs)
    /\ set_steps key_u32_equals (fun _ => None, false) (demo_ops false) rs s)
  /\ exists ht0 ht, _mesa_set_init = Some ht0
    /\ set_run_ops 1 (key_u32_hash demo_hash) key_u32_equals ht0 (demo_ops true)
       = Some (ht, [Some false; Some false; Some true; Some true; Some false; Some false; Some false])
    /\ set_lookup 1 (key_u32_hash demo_hash) key_u32_equals ht (2 ^ 33 + 5) = Some (Some 5)
    /\ set_lookup 1 (key_u32_hash demo_hash) key_u32_equals ht 12 = Some None.
Proof.
  pose proof (u32_keys demo_hash demo_hash_range) as Hko. split.
  - destruct (hash_set_refines_set 1 ltac:(lia) (key_u32_hash demo_hash) key_u32_equals (demo_ops false))
      as (ht0 & ht & rs & s & E0 & E & Hs & _).
    + cbn. lia.
    + repeat constructor; cbn; lia.
    + exists ht0, ht, rs, s. split; [exact E0|]. split; [exact E|exact Hs].
  - destruct (hash_set_refines_set 1 ltac:(lia) (key_u32_hash demo_hash) key_u32_equals (demo_ops true))
      as (ht0 & ht & rs & s & E0 & E & _ & _ & _ & Ha).
    + cbn. lia.
    + repeat constructor; cbn; lia.
    + destruct (Ha eq_refl) as [-> Hl]. exists ht0, ht. split; [exact E0|]. split; [exact E|].
      rewrite !Hl by reflexivity. split; reflexivity.
Defined.

Definition empty_set : hash_set := Eval vm_compute in
  match _mesa_set_init with Some ht => ht | None => HashSet [] true (TableSize 0 0 0 0 0 0) 0 0 end.

Lemma empty_set_ok :
  set_ok 1 _mesa_hash_pointer _mesa_key_pointer_equal empty_set /\ set_fits empty_set.
Proof.
  destruct (set_init_sim 1 ltac:(lia) _mesa_hash_pointer _mesa_key_pointer_equal) as (ht & E & [Hok _] & Hfit).
  vm_compute in E. injection E as <-. by split.
Qed.

Definition two_set : hash_set := Eval vm_compute in
  match (r ← _mesa_set_add 1 _mesa_hash_pointer _mesa_key_pointer_equal true empty_set 8;
         _mesa_set_add 1 _mesa_hash_pointer _mesa_key_pointer_equal true (snd r) 84) with
  | Some (_, ht) => ht | None => empty_set end.

Lemma two_set_ok : set_ok 1 _mesa_hash_pointer _mesa_key_pointer_equal two_set.
Proof.
  pose proof (set_add_spec 1 ltac:(lia) _mesa_hash_pointer _mesa_key_pointer_equal true) as Hadd.
  destruct empty_set_ok as [Hok0 Hfit0].
  destruct (Hadd empty_set 8 Hok0 Hfit0 eq_refl (or_introl eq_refl)) as (a & f & ht1 & E1 & Hok1 & Hfit1 & _).
  specialize (Hfit1 eq_refl).
  vm_compute in E1. injection E1 as <- <- <-.
  destruct (Hadd _ 84 Hok1 Hfit1 eq_refl (or_introl eq_refl)) as (a2 & f2 & ht2 & E2 & Hok2 & _).
  vm_compute in E2. injection E2 as <- <- <-. exact Hok2.
Qed.

Lemma hash_set_comparison_correct_witness :
  (exists r, _mesa_set_intersects 1 _mesa_hash_pointer _mesa_key_pointer_equal two_set empty_set = Some r
     /\ (r = true <-> exists k, (exists p, stored 1 _mesa_key_pointer_equal two_set k p)
                             /\ (exists q, stored 1 _mesa_key_pointer_equal empty_set k q)))
  /\ (exists r, _mesa_set_equal 1 _mesa_hash_pointer _mesa_key_pointer_equal two_set empty_set = Some r
     /\ (r = true <-> forall k, (exists p, stored 1 _mesa_key_pointer_equal two_set k p)
                             <-> (exists q, stored 1 _mesa_key_pointer_equal empty_set k q))).
Proof.
  apply (hash_set_comparison_correct 1 ltac:(lia) _mesa_hash_pointer _mesa_key_pointer_equal two_set empty_set).
  - exact two_set_ok.
  - apply empty_set_ok.
Defined.

Lemma set_foreach_remove_correct_witness :
  exists l ht', set_foreach_remove two_set = Some (l, ht')
    /\ Z.of_nat (length l) = 2 /\ s_entries ht' = 0.
Proof.
  destruct (set_foreach_remove_correct 1 ltac:(lia) _mesa_hash_pointer _mesa_key_pointer_equal two_set)
    as (l & ht' & E & _ & Hl & _ & He & _).
  - exact two_set_ok.
  - reflexivity.
  - exists l, ht'. split; [exact E|]. split; [exact Hl|exact He].
Defined.

(** ** Resizing beyond the table of sizes *)

(** [_mesa_set_resize] has no bound: asked for more than [2^31] entries, the
    largest size of [hash_sizes], its loop reads past the end of the array, for every
    set. *)
Theorem set_resize_out_of_bounds (deleted_key : Z) (alloc : bool) (ht : hash_set) (n : Z) :
  2 ^ 31 < n -> _mesa_set_resize deleted_key alloc ht n = None.
Proof.
  intros Hn. unfold _mesa_set_resize. set (m := if _ >? _ then _ else _).
  assert (Hm : 2 ^ 31 < m) by (unfold m; destruct (Z.gtb_spec (s_entries ht) n); lia).
  assert (Hgo : forall rows i, Forall (fun row => hs_max_entries row <= 2 ^ 31) rows ->
    resize_index rows m i = None).
  { induction rows as [|row rows IH]; intros i Hr; [done|]. apply Forall_cons_1 in Hr as [Hr1 Hr2].
    cbn [resize_index]. destruct (Z.ltb_spec (hs_max_entries row) m); [by apply IH|lia]. }
  rewrite Hgo; [done|]. repeat constructor; cbn; lia.
Qed.

Lemma set_resize_out_of_bounds_witness :
  _mesa_set_resize 1 true empty_set 3000000000 = None.
Proof. apply (set_resize_out_of_bounds 1 true empty_set 3000000000). lia. Defined.
