(* ===== verification/Blob.v ===== *)
(** * Serialisation buffers (src/util/blob.c, blob.h)

    The writer's memory is a list of bytes of length [allocated], or the null
    pointer.  The outcome of [realloc] is the parameter [heap_bytes]: the
    indeterminate contents of the new bytes, or a failure.  [memcpy] outside the
    buffer has no result, so that theorems giving a result also give memory safety.
    Values are stored in the little-endian order of the supported hosts. *)

From Stdlib Require Import ZArith Lia.
From stdpp Require Import base list numbers option sets.
From S2P Require Import Prelude.
Local Open Scope Z_scope.

(** ** Memory *)

(** The bytes of a [n]-byte integer object, and back. *)
Fixpoint le_bytes (n : nat) (v : Z) : list Z :=
  match n with
  | O => []
  | S n => v mod 2 ^ 8 :: le_bytes n (v / 2 ^ 8)
  end.
Fixpoint le_value (l : list Z) : Z :=
  match l with
  | [] => 0
  | b :: l => b + 2 ^ 8 * le_value l
  end.

(** [memcpy(mem + off, bytes, n)] where [bytes] are the [n] bytes read. *)
Definition memcpy_at (mem : list Z) (off : Z) (bytes : list Z) : option (list Z) :=
  assert! (0 <=? off) && (off + Z.of_nat (length bytes) <=? Z.of_nat (length mem)) ;;
  Some (take (Z.to_nat off) mem ++ bytes ++ drop (Z.to_nat off + length bytes) mem).

Definition align_uintptr (value alignment : Z) : option Z :=
  assert! negb (alignment =? 0) && IS_POT64 alignment ;;
  Some (Z.land (u64 (u64 (value + alignment) - 1)) (not64 (u64 (alignment - 1)))).

(** ** The writer *)

Record blob := Blob {
  data : option (list Z);
  allocated : Z;
  size : Z;
  fixed_allocation : bool;
  out_of_memory : bool;
}.

Definition BLOB_INITIAL_SIZE : Z := 4096.

Section writer.
Context (heap_bytes : Z -> option (list Z)).

(** [realloc(data, to_allocate)]: the old bytes, then indeterminate ones. *)
Definition blob_realloc (mem : option (list Z)) (to_allocate : Z) : option (list Z) :=
  fresh ← heap_bytes to_allocate;
  let old := default [] mem in
  Some (take (Z.to_nat to_allocate) old ++ drop (length old) fresh).

Definition set_size (b : blob) (n : Z) : blob :=
  Blob (data b) (allocated b) n (fixed_allocation b) (out_of_memory b).
Definition set_oom (b : blob) : blob :=
  Blob (data b) (allocated b) (size b) (fixed_allocation b) true.
Definition set_mem (b : blob) (mem : list Z) : blob :=
  Blob (Some mem) (allocated b) (size b) (fixed_allocation b) (out_of_memory b).

Definition grow_to_fit (b : blob) (additional : Z) : bool * blob :=
  if out_of_memory b then (false, b)
  else if u64 (size b + additional) <=? allocated b then (true, b)
  else if fixed_allocation b then (false, set_oom b)
  else
    let to_allocate := if allocated b =? 0 then BLOB_INITIAL_SIZE else u64 (allocated b * 2) in
    let to_allocate := MAX2 to_allocate (u64 (allocated b + additional)) in
    match blob_realloc (data b) to_allocate with
    | None => (false, set_oom b)
    | Some new_data =>
        (true, Blob (Some new_data) to_allocate (size b) (fixed_allocation b) (out_of_memory b))
    end.

(** [if (blob->data) memcpy(blob->data + offset, bytes, ...)] *)
Definition write_mem (b : blob) (offset : Z) (bytes : list Z) : option blob :=
  match data b with
  | None => Some b
  | Some mem => mem ← memcpy_at mem offset bytes; Some (set_mem b mem)
  end.

Definition blob_align (b : blob) (alignment : Z) : option (bool * blob) :=
  new_size ← align_uintptr (size b) alignment;
  if size b <? new_size then
    let '(ok, b) := grow_to_fit b (u64 (new_size - size b)) in
    if negb ok then Some (false, b)
    else
      b ← write_mem b (size b) (replicate (Z.to_nat (new_size - size b)) 0);
      Some (true, set_size b new_size)
  else Some (true, b).

Definition blob_init : blob := Blob None 0 0 false false.
Definition blob_init_fixed (mem : option (list Z)) (n : Z) : blob := Blob mem n 0 true false.

(** [blob_finish_get_buffer]: the buffer, trimmed by [realloc], its size, and the
    blob that no longer owns it. *)
Definition blob_finish_get_buffer (b : blob) : option (list Z) * Z * blob :=
  (blob_realloc (data b) (size b), size b,
   Blob None (allocated b) (size b) (fixed_allocation b) (out_of_memory b)).

Definition blob_overwrite_bytes (b : blob) (offset : Z) (bytes : list Z) : option (bool * blob) :=
  let to_write := Z.of_nat (length bytes) in
  if (u64 (offset + to_write) <? offset) || (size b <? u64 (offset + to_write)) then Some (false, b)
  else b ← write_mem b offset bytes; Some (true, b).

Definition blob_write_bytes (b : blob) (bytes : list Z) : option (bool * blob) :=
  let to_write := Z.of_nat (length bytes) in
  let '(ok, b) := grow_to_fit b to_write in
  if negb ok then Some (false, b)
  else
    b ← (if to_write >? 0 then write_mem b (size b) bytes else Some b);
    Some (true, set_size b (u64 (size b + to_write))).

(** [blob_reserve_bytes]; [-1] on failure. *)
Definition blob_reserve_bytes (b : blob) (to_write : Z) : Z * blob :=
  let '(ok, b) := grow_to_fit b to_write in
  if negb ok then (-1, b) else (size b, set_size b (u64 (size b + to_write))).

(** [blob_reserve_uint32] and [blob_reserve_intptr], with [n] the size of the type. *)
Definition blob_reserve_uint (n : Z) (b : blob) : option (Z * blob) :=
  '(_, b) ← blob_align b n;
  Some (blob_reserve_bytes b n).

(** [BLOB_WRITE_TYPE], with [n] the size of the type. *)
Definition blob_write_uint (n : nat) (b : blob) (value : Z) : option (bool * blob) :=
  '(_, b) ← blob_align b (Z.of_nat n);
  blob_write_bytes b (le_bytes n value).

(** [blob_overwrite_uint8], [_uint32] and [_intptr]. *)
Definition blob_overwrite_uint (n : nat) (b : blob) (offset value : Z) : option (bool * blob) :=
  a ← align_uintptr offset (Z.of_nat n);
  assert! a =? offset ;;
  blob_overwrite_bytes b offset (le_bytes n value).

(** [blob_write_string]: [str] is the string without its terminator. *)
Definition blob_write_string (b : blob) (str : list Z) : option (bool * blob) :=
  blob_write_bytes b (str ++ [0]).
End writer.

(** ** The reader: pointers are offsets from [data] *)

Record blob_reader := BlobReader {
  r_data : list Z;
  r_end : Z;
  r_current : Z;
  r_overrun : bool;
}.

Definition set_current (b : blob_reader) (n : Z) : blob_reader :=
  BlobReader (r_data b) (r_end b) n (r_overrun b).
Definition set_overrun (b : blob_reader) : blob_reader :=
  BlobReader (r_data b) (r_end b) (r_current b) true.

Definition blob_reader_init (bytes : list Z) : blob_reader :=
  BlobReader bytes (Z.of_nat (length bytes)) 0 false.

Definition blob_reader_align (b : blob_reader) (alignment : Z) : option blob_reader :=
  a ← align_uintptr (r_current b) alignment;
  Some (set_current b a).

Definition ensure_can_read (b : blob_reader) (n : Z) : bool * blob_reader :=
  if r_overrun b then (false, b)
  else if (r_current b <=? r_end b) && (u64 (r_end b - r_current b) >=? n) then (true, b)
  else (false, set_overrun b).

(** [blob_read_bytes]: the offset of the bytes, [None] being the null pointer. *)
Definition blob_read_bytes (b : blob_reader) (n : Z) : option Z * blob_reader :=
  let '(ok, b) := ensure_can_read b n in
  if negb ok then (None, b) else (Some (r_current b), set_current b (r_current b + n)).

(** [n] bytes of the reader's memory from an offset on. *)
Definition r_bytes (b : blob_reader) (off n : Z) : option (list Z) :=
  assert! (0 <=? off) && (off + n <=? Z.of_nat (length (r_data b))) ;;
  Some (take (Z.to_nat n) (drop (Z.to_nat off) (r_data b))).

(** [blob_copy_bytes]: the bytes stored to [dest], [None] if it is left alone. *)
Definition blob_copy_bytes (b : blob_reader) (n : Z) : option (option (list Z) * blob_reader) :=
  let '(bytes, b) := blob_read_bytes b n in
  match bytes with
  | None => Some (None, b)
  | Some off => if n =? 0 then Some (None, b) else l ← r_bytes b off n; Some (Some l, b)
  end.

Definition blob_skip_bytes (b : blob_reader) (n : Z) : blob_reader :=
  let '(ok, b) := ensure_can_read b n in
  if ok then set_current b (r_current b + n) else b.

(** [BLOB_READ_TYPE] *)
Definition blob_read_uint (n : nat) (b : blob_reader) : option (Z * blob_reader) :=
  b ← blob_reader_align b (Z.of_nat n);
  '(bytes, b) ← blob_copy_bytes b (Z.of_nat n);
  Some (match bytes with None => 0 | Some l => le_value l end, b).

(** [memchr(p, 0, n)]: the position of the first zero byte. *)
Fixpoint find_nul (l : list Z) : option Z :=
  match l with
  | [] => None
  | b :: l => if b =? 0 then Some 0 else i ← find_nul l; Some (i + 1)
  end.

(** [blob_read_string]: the string without its terminator, [None] being the null
    pointer. *)
Definition blob_read_string (b : blob_reader) : option (option (list Z) * blob_reader) :=
  if r_current b >=? r_end b then Some (None, set_overrun b)
  else
    rest ← r_bytes b (r_current b) (r_end b - r_current b);
    match find_nul rest with
    | None => Some (None, set_overrun b)
    | Some nul =>
        let size := signed 32 (u32 (nul + 1)) in
        let '(ok, b) := ensure_can_read b (u64 size) in
        assert! ok ;;
        Some (Some (take (Z.to_nat nul) rest), set_current b (r_current b + size))
    end.

(** * The format *)

(** A value a client writes. *)
Inductive item :=
| item_uint (n : nat) (v : Z)
| item_bytes (l : list Z)
| item_string (s : list Z).

Definition item_ok (i : item) : Prop :=
  match i with
  | item_uint n v => (n = 1%nat \/ n = 2%nat \/ n = 4%nat \/ n = 8%nat) /\ fits (8 * Z.of_nat n) v
  | item_bytes l => True
  | item_string s => Forall (fun b => b <> 0) s /\ Z.of_nat (length s) < 2 ^ 31 - 1
  end.

(** The padding before an item at position [pos], and the item's bytes. *)
Definition pad (pos : Z) (i : item) : Z :=
  match i with
  | item_uint n _ => (- pos) mod Z.of_nat n
  | _ => 0
  end.
Definition payload (i : item) : list Z :=
  match i with
  | item_uint n v => le_bytes n v
  | item_bytes l => l
  | item_string s => s ++ [0]
  end.
Definition encode (pos : Z) (i : item) : list Z :=
  replicate (Z.to_nat (pad pos i)) 0 ++ payload i.
Fixpoint encode_all (pos : Z) (l : list item) : list Z :=
  match l with
  | [] => []
  | i :: l => let e := encode pos i in e ++ encode_all (pos + Z.of_nat (length e)) l
  end.

(** What the client calls for an item when writing, and when reading it back; for
    raw bytes the reader knows the length. *)
Definition write_item (heap_bytes : Z -> option (list Z)) (b : blob) (i : item) : option (bool * blob) :=
  match i with
  | item_uint n v => blob_write_uint heap_bytes n b v
  | item_bytes l => blob_write_bytes heap_bytes b l
  | item_string s => blob_write_string heap_bytes b s
  end.
Fixpoint write_items (heap_bytes : Z -> option (list Z)) (b : blob) (l : list item)
    : option (bool * blob) :=
  match l with
  | [] => Some (true, b)
  | i :: l =>
      '(ok, b) ← write_item heap_bytes b i;
      '(oks, b) ← write_items heap_bytes b l;
      Some (ok && oks, b)
  end.

Definition read_item (b : blob_reader) (i : item) : option (option item * blob_reader) :=
  match i with
  | item_uint n _ => '(v, b) ← blob_read_uint n b; Some (Some (item_uint n v), b)
  | item_bytes l =>
      let '(off, b) := blob_read_bytes b (Z.of_nat (length l)) in
      match off with
      | None => Some (None, b)
      | Some off => l ← r_bytes b off (Z.of_nat (length l)); Some (Some (item_bytes l), b)
      end
  | item_string _ => '(s, b) ← blob_read_string b; Some (option_map item_string s, b)
  end.
Fixpoint read_items (b : blob_reader) (l : list item) : option (list (option item) * blob_reader) :=
  match l with
  | [] => Some ([], b)
  | i :: l =>
      '(r, b) ← read_item b i;
      '(rs, b) ← read_items b l;
      Some (r :: rs, b)
  end.

(** * Proofs *)

Lemma length_le_bytes n v : length (le_bytes n v) = n.
Proof. revert v. induction n; intros v; cbn; auto. Qed.

Lemma le_bytes_value n v : 0 <= v < 2 ^ (8 * Z.of_nat n) -> le_value (le_bytes n v) = v.
Proof.
  revert v. induction n as [|n IH]; intros v Hv; [cbn in *; lia|]. cbn [le_bytes le_value].
  assert (E : 2 ^ (8 * Z.of_nat (S n)) = 2 ^ 8 * 2 ^ (8 * Z.of_nat n)).
  { rewrite <- pow2_add by lia. f_equal. lia. }
  rewrite E in Hv. rewrite IH.
  - pose proof (Z.div_mod v (2 ^ 8)). lia.
  - split; [apply Z.div_pos; lia|]. apply Z.div_lt_upper_bound; lia.
Qed.

Lemma lookup_splice (mem bytes : list Z) (off : Z) (i : nat) :
  0 <= off -> off + Z.of_nat (length bytes) <= Z.of_nat (length mem) ->
  (take (Z.to_nat off) mem ++ bytes ++ drop (Z.to_nat off + length bytes) mem) !! i
  = if (off <=? Z.of_nat i) && (Z.of_nat i <? off + Z.of_nat (length bytes))
    then bytes !! (i - Z.to_nat off)%nat else mem !! i.
Proof.
  intros H0 Hl. assert (Ht : length (take (Z.to_nat off) mem) = Z.to_nat off) by (rewrite length_take; lia).
  destruct (Z.leb_spec off (Z.of_nat i)); cbn [andb].
  - rewrite lookup_app_r by lia. rewrite Ht. destruct (Z.ltb_spec (Z.of_nat i) (off + Z.of_nat (length bytes))).
    + by rewrite lookup_app_l by lia.
    + rewrite lookup_app_r by lia. rewrite lookup_drop. f_equal. lia.
  - rewrite lookup_app_l by lia. apply lookup_take_lt. lia.
Qed.

(** Rounding up to a power of two. *)
Lemma align_uintptr_spec v a :
  0 <= v -> (a = 1 \/ a = 2 \/ a = 4 \/ a = 8) -> v + a < 2 ^ 64 ->
  align_uintptr v a = Some (v + (- v) mod a).
Proof.
  intros Hv Ha Hlt. unfold align_uintptr.
  assert (Hpot : negb (a =? 0) && IS_POT64 a = true) by (destruct Ha as [->|[->|[->| ->]]]; reflexivity).
  rewrite Hpot. f_equal. rewrite !u64_small by (rewrite ?u64_small by lia; lia).
  assert (Hk : exists k, a = 2 ^ k /\ 0 <= k <= 3).
  { destruct Ha as [->|[->|[->| ->]]]; [exists 0|exists 1|exists 2|exists 3]; (split; [reflexivity|lia]). }
  destruct Hk as (k & -> & Hk). pose proof (pow2_pos k ltac:(lia)).
  rewrite <- (BITFIELD64_MASK_ones k) by lia. rewrite land_not_mask by lia.
  destruct (Z.eq_dec (v mod 2 ^ k) 0) as [E|E].
  - rewrite Z.mod_opp_l_z by lia. pose proof (Z.div_mod v (2 ^ k) ltac:(lia)).
    rewrite (div_between (v + 2 ^ k - 1) (2 ^ k) (v / 2 ^ k)); nia.
  - rewrite Z.mod_opp_l_nz by lia. pose proof (Z.div_mod v (2 ^ k) ltac:(lia)).
    pose proof (Z.mod_pos_bound v (2 ^ k) ltac:(lia)).
    rewrite (div_between (v + 2 ^ k - 1) (2 ^ k) (v / 2 ^ k + 1)); nia.
Qed.

(** ** The writer's invariant *)

Record blob_ok (b : blob) : Prop := {
  bo_mem : forall mem, data b = Some mem -> Z.of_nat (length mem) = allocated b;
  bo_size : 0 <= size b <= allocated b;
  bo_alloc : allocated b < 2 ^ 64;
  bo_null : data b = None -> fixed_allocation b = false -> allocated b = 0;
}.

(** The bytes written so far. *)
Definition contents (b : blob) : list Z :=
  match data b with Some mem => take (Z.to_nat (size b)) mem | None => [] end.

Section writer_proofs.
Context (heap_bytes : Z -> option (list Z)).
Hypothesis heap_length : forall n l, heap_bytes n = Some l -> Z.of_nat (length l) = n.

Lemma realloc_spec mem n l :
  blob_realloc heap_bytes mem n = Some l ->
  Z.of_nat (length (default [] mem)) <= n ->
  Z.of_nat (length l) = n /\ exists rest, l = default [] mem ++ rest.
Proof using heap_length.
  unfold blob_realloc. destruct (heap_bytes n) as [fresh|] eqn:E; [|done]. cbn. intros [= <-] Hn.
  pose proof (heap_length _ _ E). rewrite take_ge by lia. split; [|eauto].
  rewrite length_app, length_drop. lia.
Qed.

(** Growing keeps the contents; on failure the blob is out of memory. *)
Lemma grow_spec b additional :
  blob_ok b -> 0 <= additional -> size b + additional < 2 ^ 62 ->
  let '(ok, b') := grow_to_fit heap_bytes b additional in
  blob_ok b' /\ size b' = size b /\ contents b' = contents b
  /\ fixed_allocation b' = fixed_allocation b
  /\ if ok then out_of_memory b' = out_of_memory b /\ out_of_memory b = false
                /\ size b + additional <= allocated b'
     else out_of_memory b' = true.
Proof using heap_length.
  intros Hok Ha Hs. unfold grow_to_fit. pose proof (bo_size _ Hok).
  destruct (out_of_memory b) eqn:Eo; [by split_and!|]. rewrite u64_small by lia.
  destruct (Z.leb_spec (size b + additional) (allocated b)); [by split_and!|].
  assert (Hoom : blob_ok (set_oom b)) by (destruct Hok; by constructor).
  destruct (fixed_allocation b) eqn:Ef; [by split_and!|].
  set (n := MAX2 _ _).
  assert (Hn : size b + additional <= n < 2 ^ 64 /\ allocated b <= n).
  { subst n. rewrite MAX2_max. rewrite (u64_small (allocated b + additional)) by lia.
    destruct (Z.eqb_spec (allocated b) 0); [unfold BLOB_INITIAL_SIZE; lia|].
    rewrite u64_small by lia. lia. }
  destruct (blob_realloc heap_bytes (data b) n) as [mem|] eqn:Er; [|by split_and!].
  assert (Hold : Z.of_nat (length (default [] (data b))) = allocated b).
  { destruct (data b) as [m|] eqn:Ed; cbn; [by apply (bo_mem _ Hok)|]. symmetry. by apply (bo_null _ Hok). }
  destruct (realloc_spec _ _ _ Er) as (Hl & rest & ->); [lia|]. split_and!; cbn; try done; try lia.
  - constructor; cbn; try done; try lia. by intros ? [= <-].
  - unfold contents. cbn. destruct (data b) as [m|] eqn:Ed; cbn in Hold |- *.
    + rewrite take_app_le by lia. done.
    + replace (size b) with 0 by lia. done.
Qed.

(** Writing into the grown buffer. *)
Lemma write_mem_spec b bytes :
  blob_ok b -> size b + Z.of_nat (length bytes) <= allocated b ->
  exists b', write_mem b (size b) bytes = Some b' /\ size b' = size b
    /\ allocated b' = allocated b /\ fixed_allocation b' = fixed_allocation b
    /\ out_of_memory b' = out_of_memory b
    /\ blob_ok (set_size b' (size b + Z.of_nat (length bytes)))
    /\ (data b <> None -> contents (set_size b' (size b + Z.of_nat (length bytes))) = contents b ++ bytes)
    /\ (data b = None <-> data b' = None).
Proof.
  intros Hok Hs. pose proof (bo_size _ Hok). unfold write_mem. destruct (data b) as [mem|] eqn:Ed.
  - pose proof (bo_mem _ Hok mem Ed) as Hl. unfold memcpy_at.
    destruct (Z.leb_spec 0 (size b)); [|lia].
    destruct (Z.leb_spec (size b + Z.of_nat (length bytes)) (Z.of_nat (length mem))); [|lia]. cbn.
    eexists. split; [done|]. split_and!; try done.
    + destruct Hok. constructor; cbn; try done; try lia. intros ? [= <-].
      rewrite !length_app, length_take, length_drop. lia.
    + intros _. unfold contents. cbn. rewrite Ed, app_assoc.
      rewrite take_app_length'; [done|]. rewrite length_app, length_take. lia.
  - eexists. split; [done|]. split_and!; try done. destruct Hok. constructor; cbn; try done; lia.
Qed.

(** A blob that stores what is written: not the size-counting kind, a fixed
    allocation of the null pointer. *)
Definition stores (b : blob) : Prop := fixed_allocation b = false \/ data b <> None.

(** The effect of an operation that appends [bytes] to the blob and returns [ok]. *)
Record appended (b : blob) (bytes : list Z) (ok : bool) (b' : blob) : Prop := {
  ap_ok : blob_ok b';
  ap_stores : stores b -> stores b';
  ap_true : ok = true -> out_of_memory b' = out_of_memory b /\ size b' = size b + Z.of_nat (length bytes)
    /\ (stores b -> contents b' = contents b ++ bytes);
  ap_false : ok = false -> out_of_memory b' = true /\ size b <= size b' <= size b + Z.of_nat (length bytes)
    /\ (stores b -> contents b `prefix_of` contents b');
}.

Lemma grow_stores b additional :
  stores b -> stores (snd (grow_to_fit heap_bytes b additional)).
Proof.
  intros Hs. unfold grow_to_fit. destruct (out_of_memory b); [done|]. case_if_eqn; [done|].
  destruct (fixed_allocation b) eqn:Ef; [done|].
  destruct (blob_realloc heap_bytes (data b) _); left; done.
Qed.

Lemma write_bytes_spec b bytes :
  blob_ok b -> size b + Z.of_nat (length bytes) < 2 ^ 62 ->
  exists ok b', blob_write_bytes heap_bytes b bytes = Some (ok, b') /\ appended b bytes ok b'
    /\ (ok = false -> size b' = size b /\ contents b' = contents b)
    /\ (out_of_memory b = true -> ok = false).
Proof using heap_length.
  intros Hok Hs. unfold blob_write_bytes. pose proof (bo_size _ Hok).
  pose proof (grow_spec b (Z.of_nat (length bytes)) Hok ltac:(lia) Hs) as Hg.
  pose proof (grow_stores b (Z.of_nat (length bytes))) as Hst.
  destruct (grow_to_fit heap_bytes b (Z.of_nat (length bytes))) as [ok b1]. cbn [snd] in Hst.
  destruct Hg as (Hok1 & Hs1 & Hc1 & Hf1 & Hres). destruct ok; cbn [negb].
  - destruct Hres as (Ho1 & Ho & Ha). destruct (Z.gtb_spec (Z.of_nat (length bytes)) 0) as [Hp|Hz].
    + destruct (write_mem_spec b1 bytes Hok1) as (b2 & -> & Hs2 & Ha2 & Hf2 & Ho2 & Hok2 & Hc2 & Hd2); [lia|].
      cbn [mbind option_bind]. rewrite u64_small by lia. rewrite Hs2, Hs1 in *.
      eexists _, _. split; [done|]. split_and!; [|done|congruence]. constructor; try done.
      * intros Hsb. destruct (Hst Hsb) as [Hx|Hx]; [left; cbn; congruence|right; cbn; tauto].
      * intros _. split_and!; [cbn; congruence|done|]. intros Hsb. rewrite <- Hc1. apply Hc2.
        destruct (Hst Hsb) as [Hx|Hx]; [|done]. intros Hn. pose proof (bo_null _ Hok1 Hn Hx). lia.
    + assert (bytes = []) as -> by (destruct bytes; [done|cbn in Hz; lia]).
      cbn [mbind option_bind length] in *. rewrite u64_small by lia.
      replace (size b1 + Z.of_nat 0) with (size b1) by lia.
      replace (set_size b1 (size b1)) with b1 by (by destruct b1).
      eexists _, _. split; [done|]. split_and!; [|done|congruence]. constructor; try done.
      intros _. split_and!; [congruence|cbn; lia|]. intros _. by rewrite app_nil_r.
  - eexists _, _. split; [done|]. split_and!; try done. constructor; try done.
    intros _. split_and!; [done|lia|lia|]. intros _. by rewrite Hc1.
Qed.

Lemma align_spec b a :
  blob_ok b -> (a = 1 \/ a = 2 \/ a = 4 \/ a = 8) -> size b + 8 < 2 ^ 62 ->
  exists ok b', blob_align heap_bytes b a = Some (ok, b')
    /\ appended b (replicate (Z.to_nat ((- size b) mod a)) 0) ok b'
    /\ (ok = false -> size b' = size b /\ contents b' = contents b).
Proof using heap_length.
  intros Hok Ha Hs. unfold blob_align. pose proof (bo_size _ Hok).
  assert (Hm : 0 <= (- size b) mod a < 8) by (destruct Ha as [->|[->|[->| ->]]]; dlia).
  rewrite align_uintptr_spec by (done || lia). cbn [mbind option_bind].
  set (p := (- size b) mod a) in *. destruct (Z.ltb_spec (size b) (size b + p)) as [Hlt|Hge].
  - replace (size b + p - size b) with p by lia. rewrite u64_small by lia.
    pose proof (grow_spec b p Hok ltac:(lia) ltac:(lia)) as Hg.
    pose proof (grow_stores b p) as Hst. destruct (grow_to_fit heap_bytes b p) as [ok b1]. cbn [snd] in Hst.
    destruct Hg as (Hok1 & Hs1 & Hc1 & Hf1 & Hres). destruct ok; cbn [negb].
    + destruct Hres as (Ho1 & Ho & Hal). rewrite <- Hs1. replace (size b1 + p - size b1) with p by lia.
      destruct (write_mem_spec b1 (replicate (Z.to_nat p) 0) Hok1)
        as (b2 & -> & Hs2 & Ha2 & Hf2 & Ho2 & Hok2 & Hc2 & Hd2); [rewrite length_replicate; lia|].
      rewrite length_replicate, Z2Nat.id in * by lia.
      cbn [mbind option_bind]. eexists _, _. split; [done|]. split; [|done]. constructor; try done.
      * intros Hsb. destruct (Hst Hsb) as [Hx|Hx]; [left; cbn; congruence|right; cbn; tauto].
      * intros _. rewrite length_replicate, Z2Nat.id by lia. split_and!; [cbn; congruence|cbn; lia|].
        intros Hsb. rewrite <- Hc1. apply Hc2.
        destruct (Hst Hsb) as [Hx|Hx]; [|done]. intros Hn. pose proof (bo_null _ Hok1 Hn Hx). lia.
    + eexists _, _. split; [done|]. split_and!; try done. constructor; try done.
      rewrite length_replicate. intros _. split_and!; [done|lia|lia|]. intros _. by rewrite Hc1.
  - replace p with 0 by lia. eexists _, _. split; [done|]. split_and!; try done. constructor; try done.
    intros _. change (Z.to_nat 0) with 0%nat. cbn [replicate length]. split_and!; [done|lia|].
    intros _. by rewrite app_nil_r.
Qed.

Lemma appended_app b l1 l2 b1 ok b2 :
  appended b l1 true b1 -> appended b1 l2 ok b2 -> appended b (l1 ++ l2) ok b2.
Proof.
  intros [A1 A2 A3 A4] [B1 B2 B3 B4]. destruct (A3 eq_refl) as (Ao & As & Ac). constructor; [done|auto| |].
  - intros Hok. destruct (B3 Hok) as (Bo & Bs & Bc). rewrite length_app. split_and!; [congruence|lia|].
    intros Hst. rewrite Bc, Ac by auto. by rewrite app_assoc.
  - intros Hok. destruct (B4 Hok) as (Bo & Bs & Bc). rewrite length_app. split_and!; [done|lia|lia|].
    intros Hst. etrans; [|by apply Bc, A2]. rewrite Ac by done. by apply prefix_app_r.
Qed.

(** Every write of an item appends its encoding, or fails and sets [out_of_memory];
    a blob that is out of memory takes no more items. *)
Lemma write_item_spec b i :
  blob_ok b -> item_ok i -> size b + Z.of_nat (length (payload i)) + 8 < 2 ^ 62 ->
  exists ok b', write_item heap_bytes b i = Some (ok, b') /\ appended b (encode (size b) i) ok b'
    /\ (out_of_memory b = true -> ok = false).
Proof using heap_length.
  intros Hok Hi Hs. unfold encode. destruct i as [n v|l|s]; cbn [write_item payload pad] in *.
  - destruct Hi as [Hn Hv]. unfold blob_write_uint. rewrite length_le_bytes in Hs.
    destruct (align_spec b (Z.of_nat n) Hok) as (ok1 & b1 & -> & Hap1 & Hf1); [lia|lia|].
    cbn [mbind option_bind].
    assert (Hs1 : size b1 <= size b + 8).
    { destruct Hap1 as [_ _ Ht Hf]. rewrite length_replicate in *.
      assert (0 <= (- size b) mod Z.of_nat n < 8)
        by (destruct Hn as [->|[->|[->| ->]]]; cbn [Z.of_nat Pos.of_succ_nat Pos.succ]; dlia).
      destruct ok1; [destruct (Ht eq_refl)|destruct (Hf eq_refl)]; lia. }
    destruct (write_bytes_spec b1 (le_bytes n v)) as (ok & b2 & E & Hap2 & Hf2 & Ho2);
      [apply Hap1|rewrite length_le_bytes; lia|]. rewrite E. exists ok, b2. split; [done|].
    destruct ok1.
    + split; [by eapply appended_app|]. intros Ho. apply Ho2. by destruct (ap_true _ _ _ _ Hap1 eq_refl) as [-> _].
    + destruct (ap_false _ _ _ _ Hap1 eq_refl) as (Hoom & _). specialize (Ho2 Hoom). subst ok.
      split; [|done]. destruct (Hf1 eq_refl) as [Hs1' Hc1']. destruct (Hf2 eq_refl) as [Hs2' Hc2'].
      destruct (ap_false _ _ _ _ Hap2 eq_refl) as (Hoom2 & _).
      constructor; [apply Hap2|intros Hst; by apply Hap2, Hap1|done|].
      intros _. split_and!; [done|lia|rewrite length_app; lia|]. intros _. by rewrite Hc2', Hc1'.
  - destruct (write_bytes_spec b l Hok) as (ok & b' & E & Hap & _ & Ho); [lia|]. rewrite E. eauto.
  - unfold blob_write_string. destruct (write_bytes_spec b (s ++ [0]) Hok) as (ok & b' & E & Hap & _ & Ho); [lia|].
    rewrite E. eauto.
Qed.

Lemma length_encode pos i : 0 <= pos -> item_ok i ->
  Z.of_nat (length (encode pos i)) = pad pos i + Z.of_nat (length (payload i)) /\ 0 <= pad pos i < 8.
Proof.
  intros Hp Hi. unfold encode. rewrite length_app, length_replicate.
  assert (0 <= pad pos i < 8); [|lia]. destruct i as [n v|l|s]; cbn [pad]; try lia.
  destruct Hi as [[->|[->|[->| ->]]] _]; cbn [Z.of_nat Pos.of_succ_nat Pos.succ]; dlia.
Qed.

(** Nothing changes once a blob is out of memory. *)
Lemma write_item_oom b i :
  out_of_memory b = true -> 0 <= size b < 2 ^ 62 -> item_ok i ->
  write_item heap_bytes b i = Some (false, b).
Proof.
  intros Ho Hs Hi.
  assert (Hg : forall n, grow_to_fit heap_bytes b n = (false, b)) by (intros; unfold grow_to_fit; by rewrite Ho).
  assert (Hw : forall l, blob_write_bytes heap_bytes b l = Some (false, b))
    by (intros; unfold blob_write_bytes; by rewrite Hg).
  destruct i as [n v|l|s]; cbn [write_item]; [|apply Hw|apply Hw].
  destruct Hi as [Hn _]. unfold blob_write_uint, blob_align.
  rewrite align_uintptr_spec by lia. cbn [mbind option_bind]. rewrite Hg. cbn [negb].
  case_if_eqn; apply Hw.
Qed.

Lemma write_items_oom b l :
  out_of_memory b = true -> 0 <= size b < 2 ^ 62 -> Forall item_ok l ->
  exists oks, write_items heap_bytes b l = Some (oks, b).
Proof.
  intros Ho Hs. induction l as [|i l IH]; intros Hl; [by exists true|].
  apply Forall_cons_1 in Hl as [Hi Hl]. cbn [write_items]. rewrite write_item_oom by done.
  destruct (IH Hl) as (oks & E). cbn [mbind option_bind]. rewrite E. by exists false.
Qed.

Lemma write_items_spec l b :
  blob_ok b -> Forall item_ok l ->
  size b + Z.of_nat (length (encode_all (size b) l)) + 8 < 2 ^ 62 ->
  exists oks b', write_items heap_bytes b l = Some (oks, b') /\ blob_ok b' /\ (stores b -> stores b')
    /\ (oks = true -> out_of_memory b' = out_of_memory b
          /\ size b' = size b + Z.of_nat (length (encode_all (size b) l))
          /\ (stores b -> contents b' = contents b ++ encode_all (size b) l))
    /\ (oks = false -> out_of_memory b' = true /\ (stores b -> contents b `prefix_of` contents b')).
Proof using heap_length.
  revert b. induction l as [|i l IH]; intros b Hok Hl Hs.
  { exists true, b. split_and!; try done. intros _. cbn. split_and!; [done|lia|].
    intros _. by rewrite app_nil_r. }
  apply Forall_cons_1 in Hl as [Hi Hl]. cbn [encode_all] in Hs. cbn zeta in Hs. rewrite length_app in Hs.
  pose proof (bo_size _ Hok). destruct (length_encode (size b) i ltac:(lia) Hi) as [Hel Hpad].
  cbn [write_items encode_all]. cbn zeta.
  destruct (write_item_spec b i Hok Hi) as (ok & b1 & -> & [Hok1 Hst1 Ht1 Hf1] & Ho); [lia|].
  cbn [mbind option_bind]. destruct ok.
  - destruct (Ht1 eq_refl) as (Ho1 & Hs1 & Hc1). rewrite <- Hs1 in *.
    destruct (IH b1 Hok1 Hl) as (oks & b2 & -> & Hok2 & Hst2 & Ht2 & Hf2); [lia|]. cbn [mbind option_bind andb].
    exists oks, b2. split_and!; auto.
    + intros E. destruct (Ht2 E) as (Ho2 & Hs2 & Hc2). rewrite length_app. split_and!; [congruence|lia|].
      intros Hst. rewrite Hc2, Hc1 by auto. by rewrite app_assoc.
    + intros E. destruct (Hf2 E) as (Ho2 & Hc2). split; [done|]. intros Hst. etrans; [|by apply Hc2, Hst1].
      rewrite Hc1 by done. by apply prefix_app_r.
  - destruct (Hf1 eq_refl) as (Ho1 & Hs1 & Hc1).
    destruct (write_items_oom b1 l Ho1) as (oks & ->); [lia|done|]. cbn [mbind option_bind andb].
    exists false, b1. split_and!; auto; done.
Qed.
Lemma write_items_size l b oks b' :
  blob_ok b -> Forall item_ok l -> size b + Z.of_nat (length (encode_all (size b) l)) + 8 < 2 ^ 62 ->
  write_items heap_bytes b l = Some (oks, b') -> size b' < 2 ^ 62.
Proof using heap_length.
  revert b oks. induction l as [|i l IH]; intros b oks Hok Hl Hs; cbn [write_items].
  { intros [= <- <-]. cbn in Hs. lia. }
  apply Forall_cons_1 in Hl as [Hi Hl]. cbn [encode_all] in Hs. cbn zeta in Hs. rewrite length_app in Hs.
  pose proof (bo_size _ Hok). destruct (length_encode (size b) i ltac:(lia) Hi) as [Hel Hpad].
  destruct (write_item_spec b i Hok Hi) as (ok & b1 & -> & [Hok1 Hst1 Ht1 Hf1] & Ho); [lia|].
  cbn [mbind option_bind]. destruct ok.
  - destruct (Ht1 eq_refl) as (Ho1 & Hs1 & Hc1). rewrite <- Hs1 in *.
    destruct (write_items heap_bytes b1 l) as [[oks2 b2]|] eqn:E2; cbn [mbind option_bind]; [|done].
    intros [= _ <-]. apply (IH b1 oks2 Hok1 Hl); [lia|done].
  - destruct (Hf1 eq_refl) as (Ho1 & Hs1 & Hc1).
    destruct (write_items_oom b1 l Ho1) as (oks2 & ->); [lia|done|]. cbn. intros [= _ <-]. lia.
Qed.
End writer_proofs.

(** ** The reader *)

Definition reader_at (bytes : list Z) (pos : Z) : blob_reader :=
  BlobReader bytes (Z.of_nat (length bytes)) pos false.

Lemma ensure_can_read_at bytes pos n :
  0 <= pos -> 0 <= n -> pos + n <= Z.of_nat (length bytes) < 2 ^ 62 ->
  ensure_can_read (reader_at bytes pos) n = (true, reader_at bytes pos).
Proof.
  intros Hp Hn Hl. unfold ensure_can_read. cbn [r_overrun r_current r_end reader_at].
  rewrite u64_small by lia. destruct (Z.leb_spec pos (Z.of_nat (length bytes))); [|lia].
  destruct (Z.geb_spec (Z.of_nat (length bytes) - pos) n); [done|lia].
Qed.

Lemma r_bytes_middle pre l post pos :
  pos = Z.of_nat (length pre) ->
  r_bytes (reader_at (pre ++ l ++ post) pos) pos (Z.of_nat (length l)) = Some l.
Proof.
  intros ->. unfold r_bytes. cbn [r_data reader_at]. rewrite !length_app.
  destruct (Z.leb_spec 0 (Z.of_nat (length pre))); [|lia].
  destruct (Z.leb_spec (Z.of_nat (length pre) + Z.of_nat (length l))
    (Z.of_nat (length pre + (length l + length post)))); [|lia]. cbn. f_equal.
  rewrite !Nat2Z.id, drop_app_length, take_app_length. done.
Qed.

Lemma find_nul_string s rest : Forall (fun b => b <> 0) s ->
  find_nul (s ++ 0 :: rest) = Some (Z.of_nat (length s)).
Proof.
  induction 1 as [|b s Hb _ IH]; [done|]. cbn [app find_nul]. destruct (Z.eqb_spec b 0); [done|].
  rewrite IH. cbn. f_equal. lia.
Qed.

(** Reading back one item at the place where its encoding starts. *)
Lemma read_item_spec pre i post :
  item_ok i -> Z.of_nat (length (pre ++ encode (Z.of_nat (length pre)) i ++ post)) < 2 ^ 62 ->
  let pos := Z.of_nat (length pre) in
  let bytes := pre ++ encode pos i ++ post in
  read_item (reader_at bytes pos) i
  = Some (Some i, reader_at bytes (pos + Z.of_nat (length (encode pos i)))).
Proof.
  intros Hi Hlen. cbv zeta. set (pos := Z.of_nat (length pre)) in *. assert (0 <= pos) by lia.
  destruct (length_encode pos i ltac:(lia) Hi) as [Hel Hpad]. rewrite !length_app in Hlen.
  set (bytes := pre ++ encode pos i ++ post).
  assert (Hbl : Z.of_nat (length bytes) = pos + Z.of_nat (length (encode pos i)) + Z.of_nat (length post))
    by (unfold bytes; rewrite !length_app; lia).
  assert (Hb : bytes = (pre ++ replicate (Z.to_nat (pad pos i)) 0) ++ payload i ++ post).
  { unfold bytes, encode. by rewrite <- !app_assoc. }
  assert (Hpl : Z.of_nat (length (pre ++ replicate (Z.to_nat (pad pos i)) 0)) = pos + pad pos i).
  { rewrite length_app, length_replicate. lia. }
  destruct i as [n v|l|s]; cbn [read_item pad payload] in *.
  - destruct Hi as [Hn Hv]. unfold blob_read_uint, blob_reader_align.
    cbn [r_current reader_at]. rewrite align_uintptr_spec by lia. cbn [mbind option_bind].
    set (p := (- pos) mod Z.of_nat n) in *. change (set_current _ (pos + p)) with (reader_at bytes (pos + p)).
    rewrite length_le_bytes in Hel. unfold blob_copy_bytes, blob_read_bytes.
    rewrite ensure_can_read_at by lia. cbn [negb r_current reader_at].
    destruct (Z.eqb_spec (Z.of_nat n) 0); [lia|].
    change (set_current _ (pos + p + Z.of_nat n)) with (reader_at bytes (pos + p + Z.of_nat n)).
    assert (Hrb : r_bytes (reader_at bytes (pos + p + Z.of_nat n)) (pos + p) (Z.of_nat n) = Some (le_bytes n v)).
    { pose proof (r_bytes_middle (pre ++ replicate (Z.to_nat p) 0) (le_bytes n v) post (pos + p) ltac:(lia)) as Hm.
      rewrite length_le_bytes in Hm. rewrite Hb. exact Hm. }
    rewrite Hrb. cbn. rewrite le_bytes_value by done. do 3 f_equal; lia.
  - change (Z.to_nat 0) with 0%nat in Hb, Hpl. cbn [replicate] in Hb, Hpl. rewrite app_nil_r in Hb.
    unfold blob_read_bytes. rewrite ensure_can_read_at by lia. cbn [negb r_current reader_at].
    change (set_current _ (pos + Z.of_nat (length l))) with (reader_at bytes (pos + Z.of_nat (length l))).
    pose proof (r_bytes_middle pre l post pos eq_refl) as Hm. rewrite <- Hb in Hm.
    change (r_bytes (reader_at bytes (pos + Z.of_nat (length l))) pos (Z.of_nat (length l)))
      with (r_bytes (reader_at bytes pos) pos (Z.of_nat (length l))).
    rewrite Hm. cbn. do 3 f_equal; lia.
  - change (Z.to_nat 0) with 0%nat in Hb, Hpl. cbn [replicate] in Hb, Hpl. rewrite app_nil_r in Hb.
    destruct Hi as [Hnz Hsl]. unfold blob_read_string. cbn [r_current r_end reader_at].
    rewrite length_app in Hel. cbn [length] in Hel.
    destruct (Z.geb_spec pos (Z.of_nat (length bytes))); [lia|].
    pose proof (r_bytes_middle pre ((s ++ [0]) ++ post) [] pos eq_refl) as Hm.
    rewrite app_nil_r, <- Hb in Hm.
    replace (Z.of_nat (length bytes) - pos) with (Z.of_nat (length ((s ++ [0]) ++ post)))
      by (rewrite !length_app in *; cbn [length] in *; lia).
    fold (reader_at bytes pos). rewrite Hm. cbn [mbind option_bind]. rewrite <- app_assoc. cbn [app].
    rewrite find_nul_string by done. rewrite (u32_small (_ + 1)) by lia.
    assert (Hsg : signed 32 (Z.of_nat (length s) + 1) = Z.of_nat (length s) + 1).
    { unfold signed. change (2 ^ (32 - 1)) with (2 ^ 31).
      destruct (Z.geb_spec (Z.of_nat (length s) + 1) (2 ^ 31)); lia. }
    rewrite Hsg, u64_small by lia. rewrite ensure_can_read_at by lia. cbn [option_map].
    rewrite Nat2Z.id, take_app_length. cbn [mbind option_bind option_map r_current reader_at].
    do 2 f_equal. unfold set_current, reader_at. cbn [r_data r_end r_overrun]. f_equal. lia.
Qed.

Lemma read_items_spec l pre post :
  Forall item_ok l ->
  Z.of_nat (length (pre ++ encode_all (Z.of_nat (length pre)) l ++ post)) < 2 ^ 62 ->
  let pos := Z.of_nat (length pre) in
  let bytes := pre ++ encode_all pos l ++ post in
  read_items (reader_at bytes pos) l
  = Some (map Some l, reader_at bytes (pos + Z.of_nat (length (encode_all pos l)))).
Proof.
  revert pre. induction l as [|i l IH]; intros pre Hl Hlen; cbv zeta in *.
  { cbn. by rewrite Z.add_0_r. }
  apply Forall_cons_1 in Hl as [Hi Hl]. cbn [encode_all] in *. cbn zeta in *.
  set (pos := Z.of_nat (length pre)) in *. rewrite <- app_assoc in *. cbn [read_items].
  rewrite (read_item_spec pre i) by done. cbn [mbind option_bind]. fold pos.
  specialize (IH (pre ++ encode pos i) Hl).
  assert (Hp : Z.of_nat (length (pre ++ encode pos i)) = pos + Z.of_nat (length (encode pos i)))
    by (rewrite length_app; lia).
  rewrite Hp, <- !app_assoc in IH. rewrite IH by done. cbn [mbind option_bind map].
  rewrite length_app, Nat2Z.inj_add, Z.add_assoc. done.
Qed.

(** * Theorems *)

(** C32: what a client serialises it can read back.  Any list of integers (of 1, 2, 4
    or 8 bytes, each aligned to its size), raw byte strings and C strings, written
    one after the other to a blob from [blob_init], either all succeed, and then a
    reader over the bytes of the blob returns exactly these values, stops at the end
    of the data and never sets [overrun]; or some write fails, and then the blob says
    so in [out_of_memory].  No write or read touches memory outside its buffer,
    whatever [realloc] answers. *)
Theorem blob_write_read_roundtrip
    (heap_bytes : Z -> option (list Z))
    (heap_length : forall n l, heap_bytes n = Some l -> Z.of_nat (length l) = n)
    (l : list item) (Hl : Forall item_ok l)
    (Hsize : Z.of_nat (length (encode_all 0 l)) + 8 < 2 ^ 62) :
  exists oks b, write_items heap_bytes blob_init l = Some (oks, b)
    /\ out_of_memory b = negb oks
    /\ (oks = true ->
        Z.of_nat (length (contents b)) = size b
        /\ exists r, read_items (blob_reader_init (contents b)) l = Some (map Some l, r)
             /\ r_overrun r = false /\ r_current r = r_end r).
Proof.
  assert (Hok : blob_ok blob_init) by (constructor; cbn; done || lia).
  destruct (write_items_spec heap_bytes heap_length l blob_init Hok Hl) as (oks & b & -> & Hb & _ & Ht & Hf);
    [cbn; lia|].
  exists oks, b. split; [done|]. destruct oks.
  - destruct (Ht eq_refl) as (Ho & Hs & Hc). split; [done|]. intros _.
    rewrite Hc by (by left). cbn [contents data blob_init app] in *. cbn [size blob_init] in *.
    split; [lia|]. pose proof (read_items_spec l [] [] Hl) as Hr. cbn [length Z.of_nat app] in Hr.
    rewrite app_nil_r in Hr. unfold reader_at in Hr. change (Z.of_nat 0) with 0 in Hr.
    unfold blob_reader_init. rewrite Hr by lia. eexists. split; [done|]. by split.
  - split; [by destruct (Hf eq_refl)|done].
Qed.

Definition demo_heap (n : Z) : option (list Z) :=
  if (n <? 0) || (2 ^ 20 <? n) then None else Some (replicate (Z.to_nat n) 170).
Definition demo_items : list item :=
  [item_uint 1 7; item_uint 4 305419896; item_string [104; 105]; item_bytes [0; 255; 0]; item_uint 8 (2 ^ 63 + 1)].

Lemma demo_heap_length n l : demo_heap n = Some l -> Z.of_nat (length l) = n.
Proof.
  unfold demo_heap. destruct (Z.ltb_spec n 0); [done|]. case_if_eqn; [done|]. intros [= <-].
  rewrite length_replicate. lia.
Qed.

Lemma demo_items_ok : Forall item_ok demo_items.
Proof.
  unfold demo_items, item_ok. repeat (apply Forall_cons_2); try apply Forall_nil_2; try done.
  all: split; try (unfold fits; cbn; lia); try (cbn; lia); repeat constructor; lia.
Qed.

Lemma blob_write_read_roundtrip_witness :
  exists oks b, write_items demo_heap blob_init demo_items = Some (oks, b)
    /\ out_of_memory b = negb oks
    /\ (oks = true ->
        Z.of_nat (length (contents b)) = size b
        /\ exists r, read_items (blob_reader_init (contents b)) demo_items = Some (map Some demo_items, r)
             /\ r_overrun r = false /\ r_current r = r_end r).
Proof.
  apply (blob_write_read_roundtrip demo_heap demo_heap_length demo_items demo_items_ok).
  vm_compute. reflexivity.
Defined.

(** C38: the error discipline of the writer.  Writing items to any well-formed blob,
    fixed or growing, out of memory or not, keeps it well formed and never leaves the
    buffer.  If every write reports success the encodings were appended in order; if
    one reports failure, [out_of_memory] is set, what was in the blob before is
    still there, and every later write reports failure and changes nothing. *)
Theorem blob_write_errors
    (heap_bytes : Z -> option (list Z))
    (heap_length : forall n l, heap_bytes n = Some l -> Z.of_nat (length l) = n)
    (b : blob) (Hok : blob_ok b) (Hst : stores b)
    (l : list item) (Hl : Forall item_ok l)
    (Hsize : size b + Z.of_nat (length (encode_all (size b) l)) + 8 < 2 ^ 62) :
  exists oks b', write_items heap_bytes b l = Some (oks, b') /\ blob_ok b'
    /\ (oks = true -> out_of_memory b' = out_of_memory b
                      /\ contents b' = contents b ++ encode_all (size b) l)
    /\ (oks = false -> out_of_memory b' = true /\ contents b `prefix_of` contents b'
          /\ forall i, item_ok i -> write_item heap_bytes b' i = Some (false, b')).
Proof.
  destruct (write_items_spec heap_bytes heap_length l b Hok Hl Hsize) as (oks & b' & E & Hb & _ & Ht & Hf).
  exists oks, b'. split_and!; try done.
  - intros Ho. destruct (Ht Ho) as (? & _ & Hc). auto.
  - intros Ho. destruct (Hf Ho) as (Hoom & Hc). split_and!; auto. intros i Hi.
    apply write_item_oom; [done| |done]. pose proof (bo_size _ Hb).
    pose proof (write_items_size heap_bytes heap_length l b oks b' Hok Hl Hsize E). lia.
Qed.

(** A fixed buffer of ten bytes takes the first two items of the list. *)
Lemma blob_write_errors_witness :
  exists oks b', write_items demo_heap (blob_init_fixed (Some (replicate 10 1)) 10) demo_items = Some (oks, b')
    /\ blob_ok b'
    /\ (oks = true -> out_of_memory b' = out_of_memory (blob_init_fixed (Some (replicate 10 1)) 10)
                      /\ contents b' = contents (blob_init_fixed (Some (replicate 10 1)) 10) ++ encode_all 0 demo_items)
    /\ (oks = false -> out_of_memory b' = true
          /\ contents (blob_init_fixed (Some (replicate 10 1)) 10) `prefix_of` contents b'
          /\ forall i, item_ok i -> write_item demo_heap b' i = Some (false, b')).
Proof.
  apply (blob_write_errors demo_heap demo_heap_length (blob_init_fixed (Some (replicate 10 1)) 10)).
  - constructor; cbn; try lia; try done; by intros ? [= <-].
  - right. done.
  - exact demo_items_ok.
  - vm_compute. reflexivity.
Defined.

(** the overwrites stay inside what was written.  Overwriting at any offset with
    any bytes is accepted exactly when the bytes lie within [size], also when
    [offset + length] wraps around; then exactly these bytes change, and the size,
    the allocation and [out_of_memory] never do. *)
Theorem blob_overwrite_bytes_in_bounds
    (b : blob) (Hok : blob_ok b) (mem : list Z) (Hmem : data b = Some mem)
    (offset : Z) (Hoff : 0 <= offset < 2 ^ 64)
    (bytes : list Z) (Hlen : Z.of_nat (length bytes) < 2 ^ 64) :
  exists ok mem', blob_overwrite_bytes b offset bytes = Some (ok, set_mem b mem')
    /\ (ok = true <-> offset + Z.of_nat (length bytes) <= size b)
    /\ length mem' = length mem
    /\ forall i, mem' !! i =
         if ok && (offset <=? Z.of_nat i) && (Z.of_nat i <? offset + Z.of_nat (length bytes))
         then bytes !! (i - Z.to_nat offset)%nat else mem !! i.
Proof.
  pose proof (bo_size _ Hok). pose proof (bo_alloc _ Hok). pose proof (bo_mem _ Hok mem Hmem) as Hml.
  unfold blob_overwrite_bytes. set (n := Z.of_nat (length bytes)) in *.
  assert (Hself : b = set_mem b mem) by (destruct b; cbn in *; by rewrite Hmem).
  destruct (decide (offset + n < 2 ^ 64)) as [Hs|Hs].
  - rewrite u64_small by lia. destruct (Z.ltb_spec (offset + n) offset); [lia|]. cbn [orb].
    destruct (Z.ltb_spec (size b) (offset + n)).
    + exists false, mem. rewrite <- Hself. split_and!; [done| |done|done]. split; [done|lia].
    + unfold write_mem, memcpy_at. rewrite Hmem. fold n.
      destruct (Z.leb_spec 0 offset); [|lia]. destruct (Z.leb_spec (offset + n) (Z.of_nat (length mem))); [|lia].
      cbn [andb mbind option_bind]. eexists true, _. split; [done|]. split; [done|]. split.
      * rewrite !length_app, length_take, length_drop. lia.
      * intros i. cbn [andb]. apply lookup_splice; lia.
  - assert (Hw : u64 (offset + n) = offset + n - 2 ^ 64).
    { unfold u64. symmetry. apply (Z.mod_unique _ _ 1); lia. }
    rewrite Hw. destruct (Z.ltb_spec (offset + n - 2 ^ 64) offset); [|lia]. cbn [orb].
    exists false, mem. rewrite <- Hself. split_and!; [done| |done|done]. split; [done|lia].
Qed.

Lemma blob_overwrite_bytes_in_bounds_witness :
  exists ok mem', blob_overwrite_bytes (Blob (Some [1; 2; 3; 4]) 4 3 false false) 1 [9; 8]
      = Some (ok, set_mem (Blob (Some [1; 2; 3; 4]) 4 3 false false) mem')
    /\ (ok = true <-> 1 + 2 <= 3)
    /\ length mem' = 4%nat
    /\ forall i, mem' !! i =
         if ok && (1 <=? Z.of_nat i) && (Z.of_nat i <? 1 + 2)
         then [9; 8] !! (i - Z.to_nat 1)%nat else [1; 2; 3; 4] !! i.
Proof.
  apply (blob_overwrite_bytes_in_bounds (Blob (Some [1; 2; 3; 4]) 4 3 false false)
           ltac:(constructor; cbn; try lia; try done; by intros ? [= <-])
           [1; 2; 3; 4] eq_refl 1 ltac:(lia) [9; 8] ltac:(cbn; lia)).
Defined.

(** [blob_read_string] does not honour [overrun].  Once an earlier read has run
    past the end, the other reads return zero or the null pointer; reading a string
    while a terminator is still ahead trips the assertion instead. *)
Theorem blob_read_string_after_overrun
    (b : blob_reader) (Hover : r_overrun b = true)
    (pre s rest : list Z) (Hdata : r_data b = pre ++ s ++ 0 :: rest)
    (Hcur : r_current b = Z.of_nat (length pre)) (Hend : r_end b = Z.of_nat (length (r_data b)))
    (Hs : Forall (fun c => c <> 0) s) :
  blob_read_string b = None
  /\ (forall n, blob_read_bytes b n = (None, b)).
Proof.
  split.
  - unfold blob_read_string. rewrite Hcur, Hend, Hdata, !length_app. cbn [length].
    destruct (Z.geb_spec (Z.of_nat (length pre)) (Z.of_nat (length pre + (length s + S (length rest))))); [lia|].
    unfold r_bytes. rewrite Hdata, !length_app. cbn [length].
    destruct (Z.leb_spec 0 (Z.of_nat (length pre))); [|lia]. case_if_eqn; [|done].
    cbn [mbind option_bind]. rewrite Nat2Z.id, drop_app_length, take_ge
      by (rewrite length_app; cbn [length]; lia).
    rewrite find_nul_string by done. unfold ensure_can_read. by rewrite Hover.
  - intros n. unfold blob_read_bytes, ensure_can_read. by rewrite Hover.
Qed.

(** Four bytes of data: a 64-bit read overruns, then a string is asked for. *)
Lemma blob_read_string_after_overrun_witness :
  let b := BlobReader [104; 105; 0; 1] 4 0 true in
  blob_read_uint 8 (blob_reader_init [104; 105; 0; 1]) = Some (0, b)
  /\ blob_read_string b = None /\ (forall n, blob_read_bytes b n = (None, b)).
Proof.
  split; [reflexivity|].
  apply (blob_read_string_after_overrun (BlobReader [104; 105; 0; 1] 4 0 true) eq_refl [] [104; 105] [1]
           eq_refl eq_refl eq_refl). repeat constructor; lia.
Defined.
