(* ===== verification/Dag.v ===== *)
(** * Directed acyclic graphs (src/util/dag.c): building and scheduling

    A graph is the memory of its nodes and the list of its heads.  A pointer to a node is
    its position in the memory, a pointer to an edge the position of its node and its
    position in the array of edges.  The link of a node is not stored: a node is either in the list of heads or
    self-linked.  Adding a node to the list when it is there already, which would
    corrupt the list, fails. *)

From Stdlib Require Import ZArith Lia.
From stdpp Require Import base list gmap numbers option relations.
From S2P Require Import Prelude.
Local Open Scope Z_scope.

(** ** Data *)

Record dag_edge := DagEdge { e_child : option nat; e_data : Z }.
Record dag_node := DagNode { edges : list dag_edge; parent_count : Z }.
Record dag := Dag { nodes : list dag_node; heads : list nat }.

#[global] Instance dag_edge_eq_dec : EqDecision dag_edge.
Proof. solve_decision. Defined.

Definition set_edges (l : list dag_edge) (nd : dag_node) : dag_node := DagNode l (parent_count nd).
Definition set_parent_count (z : Z) (nd : dag_node) : dag_node := DagNode (edges nd) z.

(** A store to a field of a node *)
Definition store_node (n : nat) (f : dag_node -> dag_node) (d : dag) : option dag :=
  nd ← nodes d !! n; Some (Dag (<[n := f nd]> (nodes d)) (heads d)).

Definition list_delinit (n : nat) (d : dag) : dag := Dag (nodes d) (filter (fun x => x <> n) (heads d)).
Definition list_addtail (n : nat) (d : dag) : option dag :=
  if decide (n ∈ heads d) then None else Some (Dag (nodes d) (heads d ++ [n])).

(** ** Operations *)

Definition dag_create : dag := Dag [] [].

(** The node has been allocated, with its fields zero. *)
Definition dag_init_node (d : dag) (node : nat) : option dag :=
  d ← store_node node (set_edges []) d; list_addtail node d.

Definition append_edge (d : dag) (parent child : nat) (data : Z) : option dag :=
  let d := list_delinit child d in
  p ← nodes d !! parent;
  d ← store_node parent (set_edges (edges p ++ [DagEdge (Some child) data])) d;
  c ← nodes d !! child;
  store_node child (set_parent_count (u32 (parent_count c + 1))) d.

Definition dag_add_edge (d : dag) (parent child : nat) (data : Z) : option dag :=
  p ← nodes d !! parent;
  if decide (DagEdge (Some child) data ∈ edges p) then Some d else append_edge d parent child data.

Definition dag_add_edge_max_data (d : dag) (parent child : nat) (data : Z) : option dag :=
  p ← nodes d !! parent;
  match list_find (fun e => e_child e = Some child) (edges p) with
  | Some (i, e) => store_node parent (set_edges (<[i := DagEdge (e_child e) (MAX2 (e_data e) data)]> (edges p))) d
  | None => append_edge d parent child data
  end.

Definition dag_remove_edge (d : dag) (node i : nat) : option dag :=
  n ← nodes d !! node;
  e ← edges n !! i;
  match e_child e with
  | None => Some d
  | Some child =>
      c ← nodes d !! child;
      let count := u32 (parent_count c - 1) in
      d ← store_node child (set_parent_count count) d;
      d ← (if count =? 0 then list_addtail child d else Some d);
      n ← nodes d !! node;
      store_node node (set_edges (<[i := DagEdge None 0]> (edges n))) d
  end.

Definition dag_prune_head (d : dag) (node : nat) : option dag :=
  n ← nodes d !! node;
  assert! parent_count n =? 0 ;;
  for_each (fun i d => dag_remove_edge d node i) (seq 0 (length (edges n))) (list_delinit node d).

(** ** The graph *)

(** The edges of a node, with those that have been removed as [None] *)
Definition out (d : dag) (n : nat) : list dag_edge := from_option edges [] (nodes d !! n).

Definition edge (d : dag) (p c : nat) : Prop := Some c ∈ e_child <$> out d p.

Definition acyclic (d : dag) : Prop := forall x, ~ tc (edge d) x x.

(** The number of edges to [c] *)
Definition count_to (c : nat) (l : list dag_edge) : nat := length (filter (fun e => e_child e = Some c) l).
Definition in_degree (d : dag) (c : nat) : nat := sum_list_with (fun nd => count_to c (edges nd)) (nodes d).

Definition size (d : dag) : nat := length (nodes d).
Definition pcount (d : dag) (n : nat) : Z := from_option parent_count 0 (nodes d !! n).

(** The invariant, where [gone] holds the nodes that have been pruned *)
Record dag_ok (gone : nat -> Prop) (d : dag) : Prop := {
  ok_count : forall n, pcount d n = Z.of_nat (in_degree d n) /\ Z.of_nat (in_degree d n) < 2 ^ 32;
  ok_edge : forall p c, edge d p c -> (c < size d)%nat;
  ok_nodup : NoDup (heads d);
  ok_heads : forall n, n ∈ heads d <-> (n < size d)%nat /\ (forall p, ~ edge d p n) /\ ~ gone n;
  ok_gone : forall n p, gone n -> ~ edge d p n }.

Lemma edge_alt d p c : edge d p c <-> exists nd i x, nodes d !! p = Some nd /\ edges nd !! i = Some (DagEdge (Some c) x).
Proof.
  unfold edge, out. split.
  - intros [e [Hc He]]%list_elem_of_fmap. destruct (nodes d !! p) as [nd|]; cbn in He; [|by apply not_elem_of_nil in He].
    apply list_elem_of_lookup in He as [i Hi]. exists nd, i, (e_data e). split; [done|]. destruct e. cbn in *. by subst.
  - intros (nd & i & x & Hn & Hi). rewrite Hn. apply list_elem_of_fmap. eexists. split; [|eapply list_elem_of_lookup_2; exact Hi]. done.
Qed.

Lemma sum_zero {A} (f : A -> nat) l : sum_list_with f l = 0%nat <-> forall i a, l !! i = Some a -> f a = 0%nat.
Proof.
  induction l as [|x l IH]; cbn; [split; done|]. split.
  - intros H [|i] a; cbn; [intros [= <-]; lia|]. apply IH. lia.
  - intros H. rewrite (H 0%nat x eq_refl). apply IH. intros i a Hi. by apply (H (S i)).
Qed.

Lemma count_to_zero c l : count_to c l = 0%nat <-> Some c ∉ e_child <$> l.
Proof.
  unfold count_to. split.
  - intros H%nil_length_inv [e [Hc He]]%list_elem_of_fmap. by apply (filter_nil_not_elem_of _ _ _ H) in He.
  - intros H. destruct (filter _ _) as [|e k] eqn:E; [done|]. exfalso. apply H.
    assert (He : e ∈ filter (fun e => e_child e = Some c) l) by (rewrite E; left).
    apply list_elem_of_filter in He as [<- He]. by apply list_elem_of_fmap_2.
Qed.

Lemma in_degree_zero d c : in_degree d c = 0%nat <-> forall p, ~ edge d p c.
Proof.
  unfold in_degree, edge, out. rewrite sum_zero. split.
  - intros H p. destruct (nodes d !! p) as [nd|] eqn:E; [|by intros ?%not_elem_of_nil]. by apply count_to_zero, (H p).
  - intros H p nd Hn. apply count_to_zero. specialize (H p). by rewrite Hn in H.
Qed.

(** ** Stores *)

Lemma node_lookup d n : (n < size d)%nat -> exists nd, nodes d !! n = Some nd /\ edges nd = out d n /\ parent_count nd = pcount d n.
Proof. intros [nd H]%lookup_lt_is_Some_2. exists nd. unfold out, pcount. by rewrite H. Qed.

(** The edges of [p] become [l]. *)
Record changed (d d' : dag) (p : nat) (l : list dag_edge) : Prop := {
  ch_size : size d' = size d;
  ch_eq : out d' p = l;
  ch_ne : forall n, n <> p -> out d' n = out d n;
  ch_degree : forall n, (in_degree d' n + count_to n (out d p) = in_degree d n + count_to n l)%nat }.

Lemma changed_edge d d' p l : changed d d' p l -> forall n c, edge d' n c <-> (n = p /\ Some c ∈ e_child <$> l) \/ (n <> p /\ edge d n c).
Proof.
  intros [_ He Hn _] n c. unfold edge. destruct (decide (n = p)) as [->|Hne]; [rewrite He; intuition|].
  rewrite Hn by done. intuition.
Qed.

Lemma update_edges d p l : (p < size d)%nat -> exists d', store_node p (set_edges l) d = Some d' /\ heads d' = heads d /\
  changed d d' p l /\ forall n, pcount d' n = pcount d n.
Proof.
  intros Hp. destruct (node_lookup d p Hp) as (nd & Hn & He & _). unfold store_node. rewrite Hn. cbn.
  eexists. split; [done|]. split; [done|]. split; [split|]; unfold size, out, pcount, in_degree; cbn.
  - by rewrite length_insert.
  - by rewrite list_lookup_insert_eq.
  - intros n Hnp. by rewrite list_lookup_insert_ne.
  - intros n. rewrite Hn. cbn. apply (sum_insert (fun nd => count_to n (edges nd)) _ p nd (set_edges l nd) Hn).
  - intros n. destruct (decide (n = p)) as [->|Hnp]; [|by rewrite list_lookup_insert_ne].
    by rewrite list_lookup_insert_eq, Hn.
Qed.

Lemma update_count d c z : (c < size d)%nat -> exists d', store_node c (set_parent_count z) d = Some d' /\ heads d' = heads d /\ size d' = size d /\
  (forall n, out d' n = out d n) /\ pcount d' c = z /\ (forall n, n <> c -> pcount d' n = pcount d n) /\ forall n, in_degree d' n = in_degree d n.
Proof.
  intros Hc. destruct (node_lookup d c Hc) as (nd & Hn & _ & _). unfold store_node. rewrite Hn. cbn.
  eexists. split; [done|]. unfold size, out, pcount, in_degree; cbn. split; [done|]. split_and!.
  - by rewrite length_insert.
  - intros n. destruct (decide (n = c)) as [->|Hnp]; [|by rewrite list_lookup_insert_ne].
    by rewrite list_lookup_insert_eq, Hn.
  - by rewrite list_lookup_insert_eq.
  - intros n Hnp. by rewrite list_lookup_insert_ne.
  - intros n. apply (Nat.add_cancel_r _ _ (count_to n (edges nd))).
    exact (sum_insert (fun nd => count_to n (edges nd)) _ c nd (set_parent_count z nd) Hn).
Qed.

Lemma changed_count d d1 d2 p l : changed d d1 p l ->
  size d2 = size d1 -> (forall n, out d2 n = out d1 n) -> (forall n, in_degree d2 n = in_degree d1 n) -> changed d d2 p l.
Proof.
  intros [Hs He Hn Hd] H2 Ho Hi. split; [congruence|by rewrite Ho|intros n ?; by rewrite Ho, Hn|intros n; by rewrite Hi, Hd].
Qed.

Lemma count_to_app c l l' : count_to c (l ++ l') = (count_to c l + count_to c l')%nat.
Proof. unfold count_to. by rewrite filter_app, length_app. Qed.

Lemma count_to_one c d e : e_child e = Some d -> count_to c [e] = if decide (c = d) then 1%nat else 0%nat.
Proof. intros H. unfold count_to. rewrite filter_cons, filter_nil, H. destruct (decide (c = d)); repeat (destruct (decide _) as [?|?]); try done; congruence. Qed.

Lemma count_to_insert c l i e e' : l !! i = Some e -> (count_to c (<[i := e']> l) + count_to c [e] = count_to c l + count_to c [e'])%nat.
Proof.
  intros H. rewrite (insert_take_drop l i e') by (by eapply lookup_lt_Some).
  pattern l at 3. rewrite <- (take_drop_middle l i e H). rewrite !count_to_app.
  change (e' :: drop (S i) l) with ([e'] ++ drop (S i) l). change (e :: drop (S i) l) with ([e] ++ drop (S i) l).
  rewrite !count_to_app. lia.
Qed.

Lemma count_to_children c l : count_to c l = length (filter (fun x => x = Some c) (e_child <$> l)).
Proof.
  unfold count_to. induction l as [|e l IH]; [done|]. rewrite fmap_cons, !filter_cons.
  destruct (decide (e_child e = Some c)); cbn; congruence.
Qed.

(** ** Building *)

Lemma append_edge_ok gone d p c x : dag_ok gone d -> (p < size d)%nat -> (c < size d)%nat -> Z.of_nat (in_degree d c) + 1 < 2 ^ 32 ->
  exists d', append_edge d p c x = Some d' /\ changed d d' p (out d p ++ [DagEdge (Some c) x]) /\ dag_ok (fun n => gone n /\ n <> c) d'.
Proof.
  intros Hok Hp Hc Hlim. unfold append_edge. cbn [nodes list_delinit].
  destruct (node_lookup d p Hp) as (pn & Epn & Epe & _). rewrite Epn. cbn [mbind option_bind]. rewrite Epe.
  destruct (update_edges (list_delinit c d) p (out d p ++ [DagEdge (Some c) x]) Hp) as (d1 & -> & Hh1 & Hch & Hpc1). cbn [mbind option_bind].
  destruct (node_lookup d1 c) as (cn & -> & _ & Ecn); [by rewrite (ch_size _ _ _ _ Hch)|]. cbn [mbind option_bind].
  destruct (update_count d1 c (u32 (parent_count cn + 1))) as (d2 & -> & Hh2 & Hs2 & Ho2 & Hpc2 & Hpc2' & Hd2); [by rewrite (ch_size _ _ _ _ Hch)|].
  assert (Hch2 : changed d d2 p (out d p ++ [DagEdge (Some c) x])) by (by destruct (changed_count _ _ _ _ _ Hch Hs2 Ho2 Hd2); split).
  exists d2. split; [done|]. split; [done|].
  pose proof (changed_edge _ _ _ _ Hch2) as Hedge.
  assert (Hedge' : forall n m, edge d2 n m <-> edge d n m \/ (n = p /\ m = c)).
  { intros n m. rewrite Hedge, fmap_app, elem_of_app. cbn [fmap list_fmap]. rewrite list_elem_of_singleton. unfold edge.
    destruct (decide (n = p)) as [->|]; naive_solver. }
  assert (Hdeg : forall n, in_degree d2 n = (in_degree d n + if decide (n = c) then 1 else 0)%nat).
  { intros n. pose proof (ch_degree _ _ _ _ Hch2 n) as E. rewrite count_to_app, (count_to_one n c) in E by done. lia. }
  split.
  - intros n. rewrite Hdeg. destruct (ok_count _ _ Hok n) as [E1 E2]. destruct (decide (n = c)) as [->|Hn].
    + rewrite Hpc2, Ecn, Hpc1. unfold list_delinit, pcount in *. cbn in *. rewrite E1, u32_small; lia.
    + rewrite Hpc2', Hpc1 by done. unfold list_delinit, pcount in *. cbn in *. lia.
  - intros n m Hm. rewrite (ch_size _ _ _ _ Hch2). apply Hedge' in Hm as [Hm|[_ ->]]; [by eapply ok_edge|done].
  - rewrite Hh2, Hh1. apply NoDup_filter, (ok_nodup _ _ Hok).
  - intros n. rewrite Hh2, Hh1, (ch_size _ _ _ _ Hch2). cbn [heads list_delinit]. rewrite list_elem_of_filter, (ok_heads _ _ Hok).
    setoid_rewrite Hedge'. naive_solver.
  - intros n q [Hg Hn]. rewrite Hedge'. intros [H|[_ ?]]; [by apply (ok_gone _ _ Hok n q)|done].
Qed.

Lemma dag_ok_ext gone gone' d : (forall n, gone n <-> gone' n) -> dag_ok gone d -> dag_ok gone' d.
Proof.
  intros H [H1 H2 H3 H4 H5]. split; [done..| |].
  - intros n. by rewrite H4, H.
  - intros n p Hn%H. by apply H5.
Qed.

Lemma dag_ok_not_gone gone d p c : dag_ok gone d -> edge d p c -> dag_ok (fun n => gone n /\ n <> c) d.
Proof.
  intros Hok He. apply (dag_ok_ext gone); [|done]. intros n. split; [|tauto]. intros Hn. split; [done|]. intros ->.
  by apply (ok_gone _ _ Hok c p).
Qed.

(** A change of the data of edges *)
Lemma dag_ok_data gone d d' p l : changed d d' p l -> e_child <$> l = e_child <$> out d p -> heads d' = heads d ->
  (forall n, pcount d' n = pcount d n) -> dag_ok gone d -> dag_ok gone d'.
Proof.
  intros Hch Hl Hh Hp Hok.
  assert (He : forall n c, edge d' n c <-> edge d n c).
  { intros n c. rewrite (changed_edge _ _ _ _ Hch), Hl. unfold edge. destruct (decide (n = p)) as [->|]; tauto. }
  assert (Hd : forall n, in_degree d' n = in_degree d n).
  { intros n. pose proof (ch_degree _ _ _ _ Hch n) as E. assert (count_to n l = count_to n (out d p)); [|lia].
    by rewrite !count_to_children, Hl. }
  destruct Hok as [H1 H2 H3 H4 H5]. split.
  - intros n. by rewrite Hp, Hd.
  - intros n c ?%He. rewrite (ch_size _ _ _ _ Hch). by eapply H2.
  - by rewrite Hh.
  - intros n. rewrite Hh, (ch_size _ _ _ _ Hch), H4. by setoid_rewrite He.
  - intros n q Hn ?%He. by apply (H5 n q).
Qed.

Definition add_spec (d d' : dag) (p c : nat) (x : Z) (l : list dag_edge) : Prop :=
  changed d d' p l /\ (forall n, count_to n l <= count_to n (out d p) + 1)%nat /\ (forall e, e ∈ l -> e ∈ out d p \/ e = DagEdge (Some c) x) /\
  (forall q y, DagEdge (Some q) y ∈ out d p \/ (q, y) = (c, x) -> exists z, y <= z /\ DagEdge (Some q) z ∈ l).

Lemma append_spec d d' p c x : changed d d' p (out d p ++ [DagEdge (Some c) x]) -> add_spec d d' p c x (out d p ++ [DagEdge (Some c) x]).
Proof.
  intros H. split; [done|]. split; [|split].
  - intros n. rewrite count_to_app, (count_to_one n c) by done. destruct (decide _); lia.
  - intros e. rewrite elem_of_app, list_elem_of_singleton. done.
  - intros q y Hq. exists y. split; [lia|]. rewrite elem_of_app, list_elem_of_singleton. destruct Hq as [?|[= -> ->]]; auto.
Qed.

Lemma changed_refl d p : changed d d p (out d p).
Proof. by split. Qed.

Lemma dag_add_edge_ok gone d p c x : dag_ok gone d -> (p < size d)%nat -> (c < size d)%nat -> Z.of_nat (in_degree d c) + 1 < 2 ^ 32 ->
  exists d' l, dag_add_edge d p c x = Some d' /\ add_spec d d' p c x l /\ dag_ok (fun n => gone n /\ n <> c) d'.
Proof.
  intros Hok Hp Hc Hlim. unfold dag_add_edge. destruct (node_lookup d p Hp) as (pn & -> & E & _). cbn [mbind option_bind]. rewrite E.
  destruct (decide _) as [Hin|Hin].
  - exists d, (out d p). split; [done|]. split; [split; [apply changed_refl|split; [lia|split; [auto|]]]|].
    + intros q y Hq. exists y. split; [lia|]. destruct Hq as [?|[= -> ->]]; auto.
    + apply (dag_ok_not_gone gone d p c Hok). unfold edge. apply list_elem_of_fmap. by exists (DagEdge (Some c) x).
  - destruct (append_edge_ok gone d p c x Hok Hp Hc Hlim) as (d' & -> & Hch & Hok'). eexists d', _. split; [done|].
    split; [by apply append_spec|done].
Qed.

Lemma dag_add_edge_max_data_ok gone d p c x : dag_ok gone d -> (p < size d)%nat -> (c < size d)%nat -> Z.of_nat (in_degree d c) + 1 < 2 ^ 32 ->
  exists d' l, dag_add_edge_max_data d p c x = Some d' /\ add_spec d d' p c x l /\ dag_ok (fun n => gone n /\ n <> c) d'.
Proof.
  intros Hok Hp Hc Hlim. unfold dag_add_edge_max_data. destruct (node_lookup d p Hp) as (pn & -> & E & _). cbn [mbind option_bind]. rewrite E.
  destruct (list_find _ _) as [[i e]|] eqn:Hf.
  - apply list_find_Some in Hf as (Hi & Hec & _). destruct e as [ec y]. cbn in Hec. subst ec. cbn [e_child e_data]. rewrite MAX2_max.
    destruct (update_edges d p (<[i := DagEdge (Some c) (Z.max y x)]> (out d p)) Hp) as (d' & -> & Hh & Hch & Hpc).
    exists d', (<[i := DagEdge (Some c) (Z.max y x)]> (out d p)). split; [done|].
    assert (Hlt : (i < length (out d p))%nat) by (by eapply lookup_lt_Some). split.
    + assert (Hfm : e_child <$> <[i := DagEdge (Some c) (Z.max y x)]> (out d p) = e_child <$> out d p)
        by (rewrite list_fmap_insert; apply list_insert_id; by rewrite list_lookup_fmap, Hi).
      split; [done|]. split; [intros n; rewrite !count_to_children, Hfm; lia|]. split.
      * intros e [k Hk]%list_elem_of_lookup. apply list_lookup_insert_Some in Hk as [(<- & <- & _)|[_ Hk]]; [|left; by eapply list_elem_of_lookup_2].
        destruct (Z.max_spec y x) as [[_ ->]|[_ ->]]; [by right|left; by eapply list_elem_of_lookup_2].
      * intros q z Hq. destruct Hq as [[k Hk]%list_elem_of_lookup|[= -> ->]].
        -- destruct (decide (k = i)) as [->|Hne].
           ++ rewrite Hi in Hk. injection Hk as -> ->. exists (Z.max z x). split; [lia|]. apply list_elem_of_lookup. exists i. by apply list_lookup_insert_eq.
           ++ exists z. split; [lia|]. apply list_elem_of_lookup. exists k. by rewrite list_lookup_insert_ne.
        -- exists (Z.max y x). split; [lia|]. apply list_elem_of_lookup. exists i. by apply list_lookup_insert_eq.
    + apply (dag_ok_not_gone gone d' p c).
      * apply (dag_ok_data gone d d' p _ Hch); [|done..]. rewrite list_fmap_insert. apply list_insert_id. by rewrite list_lookup_fmap, Hi.
      * unfold edge. rewrite (ch_eq _ _ _ _ Hch). apply list_elem_of_fmap. exists (DagEdge (Some c) (Z.max y x)). split; [done|].
        apply list_elem_of_lookup. exists i. by apply list_lookup_insert_eq.
  - destruct (append_edge_ok gone d p c x Hok Hp Hc Hlim) as (d' & -> & Hch & Hok'). eexists d', _. split; [done|].
    split; [by apply append_spec|done].
Qed.

(** A new node: zeroed memory, initialised *)
Definition new_node (d : dag) : option dag :=
  dag_init_node (Dag (nodes d ++ [DagNode [] 0]) (heads d)) (length (nodes d)).

Lemma new_node_ok gone d : dag_ok gone d -> ~ gone (size d) ->
  exists d', new_node d = Some d' /\ size d' = S (size d) /\ (forall n, out d' n = out d n) /\ (forall n, in_degree d' n = in_degree d n) /\ dag_ok gone d'.
Proof.
  intros Hok Hg. unfold new_node, dag_init_node, store_node. cbn [nodes heads]. rewrite list_lookup_middle by done. cbn [mbind option_bind set_edges].
  rewrite list_insert_id by (by rewrite list_lookup_middle). unfold list_addtail. cbn [nodes heads].
  rewrite decide_False by (intros [H _]%(ok_heads _ _ Hok); unfold size in H; lia).
  eexists. split; [done|].
  assert (Ho : forall n, out (Dag (nodes d ++ [DagNode [] 0]) (heads d ++ [length (nodes d)])) n = out d n).
  { intros n. unfold out. cbn. destruct (decide (n < length (nodes d))%nat) as [Hn|Hn]; [by rewrite lookup_app_l|].
    rewrite lookup_app_r, (lookup_ge_None_2 (nodes d)) by lia. by destruct (n - length (nodes d))%nat as [|[|]]. }
  assert (Hd : forall n, in_degree (Dag (nodes d ++ [DagNode [] 0]) (heads d ++ [length (nodes d)])) n = in_degree d n).
  { intros n. unfold in_degree. cbn. rewrite sum_list_with_app. cbn. lia. }
  assert (Hs : size (Dag (nodes d ++ [DagNode [] 0]) (heads d ++ [length (nodes d)])) = S (size d)).
  { unfold size. cbn. rewrite length_app. cbn. lia. }
  assert (He : forall n c, edge (Dag (nodes d ++ [DagNode [] 0]) (heads d ++ [length (nodes d)])) n c <-> edge d n c).
  { intros n c. unfold edge. by rewrite Ho. }
  split; [done|]. split; [done|]. split; [done|]. destruct Hok as [H1 H2 H3 H4 H5]. split.
  - intros n. rewrite Hd. destruct (H1 n) as [<- H]. split; [|lia]. unfold pcount. cbn.
    destruct (decide (n < length (nodes d))%nat) as [Hn|Hn]; [by rewrite lookup_app_l|].
    rewrite lookup_app_r, (lookup_ge_None_2 (nodes d)) by lia. by destruct (n - length (nodes d))%nat as [|[|]].
  - intros n c ?%He. rewrite Hs. apply Nat.lt_lt_succ_r. by eapply H2.
  - cbn. apply NoDup_app. split; [done|]. split; [|apply NoDup_singleton]. intros n [Hn _]%H4 ->%list_elem_of_singleton. unfold size in Hn. lia.
  - intros n. rewrite Hs. setoid_rewrite He. cbn [heads]. rewrite elem_of_app, list_elem_of_singleton, H4. fold (size d). split.
    + intros [(? & ? & ?)| ->]; [split; [lia|done]|]. split; [lia|]. split; [|done]. intros p Hp%H2. lia.
    + intros (Hn & ? & ?). destruct (decide (n = size d)) as [->|]; [by right|left]. split; [lia|done].
  - intros n p Hn ?%He. by apply (H5 n p).
Qed.

(** The calls that build a graph *)
Inductive build_call := InitNode | AddEdge (p c : nat) (x : Z) | AddEdgeMax (p c : nat) (x : Z).

Definition build_step (call : build_call) (d : dag) : option dag :=
  match call with
  | InitNode => new_node d
  | AddEdge p c x => dag_add_edge d p c x
  | AddEdgeMax p c x => dag_add_edge_max_data d p c x
  end.

Definition call_edge (call : build_call) : option (nat * nat * Z) :=
  match call with InitNode => None | AddEdge p c x | AddEdgeMax p c x => Some (p, c, x) end.

(** Edges connect nodes that have been initialised. *)
Fixpoint legal_build (n : nat) (calls : list build_call) : Prop :=
  match calls with
  | [] => True
  | InitNode :: calls => legal_build (S n) calls
  | (AddEdge p c _ | AddEdgeMax p c _) :: calls => (p < n)%nat /\ (c < n)%nat /\ legal_build n calls
  end.

Definition num_nodes (calls : list build_call) : nat := length (filter (fun call => call_edge call = None) calls).

(** What the calls made so far have built *)
Record built (done : list build_call) (d : dag) : Prop := {
  bu_ok : dag_ok (fun _ => False) d;
  bu_size : size d = num_nodes done;
  bu_degree : forall n, (in_degree d n <= length done)%nat;
  bu_sound : forall p e, e ∈ out d p -> exists call c, call ∈ done /\ call_edge call = Some (p, c, e_data e) /\ e_child e = Some c;
  bu_complete : forall call p c x, call ∈ done -> call_edge call = Some (p, c, x) -> exists y, x <= y /\ DagEdge (Some c) y ∈ out d p }.

Lemma add_spec_built done d d' l call p c x : built done d -> add_spec d d' p c x l -> dag_ok (fun n => False /\ n <> c) d' ->
  call_edge call = Some (p, c, x) -> built (done ++ [call]) d'.
Proof.
  intros [Hok Hsz Hd Hs Hc] (Hch & Hcnt & Hsub & Hsup) Hok' Hcall. split.
  - revert Hok'. apply dag_ok_ext. tauto.
  - rewrite (ch_size _ _ _ _ Hch), Hsz. unfold num_nodes. rewrite filter_app, filter_cons, filter_nil, decide_False by congruence. by rewrite app_nil_r.
  - intros n. rewrite length_app. cbn. pose proof (ch_degree _ _ _ _ Hch n). specialize (Hcnt n). specialize (Hd n). lia.
  - intros q e He. destruct (decide (q = p)) as [->|Hq].
    + rewrite (ch_eq _ _ _ _ Hch) in He. destruct (Hsub e He) as [He'| ->].
      * destruct (Hs p e He') as (call' & c' & Hin & ?). exists call', c'. split; [|done]. apply elem_of_app. by left.
      * exists call, c. split; [|done]. apply elem_of_app. right. by left.
    + rewrite (ch_ne _ _ _ _ Hch) in He by done. destruct (Hs q e He) as (call' & c' & Hin & ?). exists call', c'. split; [|done]. apply elem_of_app. by left.
  - intros call' q c' y. rewrite elem_of_app, list_elem_of_singleton. intros Hin Hcall'. destruct (decide (q = p)) as [->|Hq].
    + rewrite (ch_eq _ _ _ _ Hch). destruct Hin as [Hin| ->].
      * destruct (Hc call' p c' y Hin Hcall') as (z & Hz & Hin'). destruct (Hsup c' z (or_introl Hin')) as (w & ? & ?). exists w. split; [lia|done].
      * rewrite Hcall in Hcall'. injection Hcall' as <- <-. apply Hsup. by right.
    + rewrite (ch_ne _ _ _ _ Hch) by done. destruct Hin as [Hin| ->]; [by apply (Hc call')|]. rewrite Hcall in Hcall'. congruence.
Qed.

Lemma built_step done calls call d : built done d -> legal_build (size d) (call :: calls) -> Z.of_nat (length done) + 1 < 2 ^ 32 ->
  exists d', build_step call d = Some d' /\ built (done ++ [call]) d' /\ legal_build (size d') calls.
Proof.
  intros Hb Hl Hlim. assert (Hdeg : forall c, Z.of_nat (in_degree d c) + 1 < 2 ^ 32) by (intros c; pose proof (bu_degree _ _ Hb c); lia).
  destruct call as [|p c x|p c x]; cbn in Hl |- *.
  - destruct (new_node_ok _ d (bu_ok _ _ Hb)) as (d' & -> & Hs & Ho & Hd & Hok'); [auto|]. exists d'. split; [done|]. split; [|by rewrite Hs].
    destruct Hb as [_ Hsz Hb1 Hb2 Hb3]. split; [done|..].
    + rewrite Hs, Hsz. unfold num_nodes. rewrite filter_app, length_app, filter_cons, decide_True by done. cbn [length filter list_filter]. lia.
    + intros n. rewrite Hd, length_app. specialize (Hb1 n). lia.
    + intros p e. rewrite Ho. intros (call & c & Hin & ?)%Hb2. exists call, c. split; [|done]. apply elem_of_app. by left.
    + intros call p c x. rewrite elem_of_app, list_elem_of_singleton, Ho. intros [Hin| ->] Hcall; [by apply (Hb3 call)|done].
  - destruct Hl as (Hp & Hc & Hl). destruct (dag_add_edge_ok _ d p c x (bu_ok _ _ Hb) Hp Hc (Hdeg c)) as (d' & l & -> & Hs & Hok').
    exists d'. split; [done|]. split; [by eapply add_spec_built|]. by rewrite (ch_size _ _ _ _ (proj1 Hs)).
  - destruct Hl as (Hp & Hc & Hl). destruct (dag_add_edge_max_data_ok _ d p c x (bu_ok _ _ Hb) Hp Hc (Hdeg c)) as (d' & l & -> & Hs & Hok').
    exists d'. split; [done|]. split; [by eapply add_spec_built|]. by rewrite (ch_size _ _ _ _ (proj1 Hs)).
Qed.

Lemma built_run calls done d : built done d -> legal_build (size d) calls -> Z.of_nat (length done + length calls) < 2 ^ 32 ->
  exists d', for_each build_step calls d = Some d' /\ built (done ++ calls) d'.
Proof.
  revert done d. induction calls as [|call calls IH]; intros done d Hb Hl Hlim; cbn [for_each length] in *.
  - exists d. by rewrite app_nil_r.
  - destruct (built_step done calls call d Hb Hl) as (d1 & -> & Hb1 & Hl1); [lia|]. cbn.
    destruct (IH (done ++ [call]) d1 Hb1 Hl1) as (d' & E & Hb'); [rewrite length_app; cbn; lia|]. exists d'. by rewrite <- app_assoc in Hb'.
Qed.

Lemma dag_create_ok : built [] dag_create.
Proof.
  split.
  - split; cbn.
    + intros n. split; [by destruct n|done].
    + intros p c. unfold edge, out. cbn. by intros ?%not_elem_of_nil.
    + constructor.
    + intros n. split; [by intros ?%not_elem_of_nil|intros [H _]; unfold size in H; cbn in H; lia].
    + done.
  - done.
  - intros n. done.
  - intros p e. unfold out. cbn. by intros ?%not_elem_of_nil.
  - intros call p c x. by intros ?%not_elem_of_nil.
Qed.

(** ** Removing *)

Lemma dag_ok_removed gone d d' p i e c x : dag_ok gone d -> out d p !! i = Some e -> e_child e = Some c ->
  changed d d' p (<[i := DagEdge None x]> (out d p)) ->
  (forall n, pcount d' n = if decide (n = c) then Z.of_nat (in_degree d c) - 1 else pcount d n) ->
  heads d' = heads d ++ (if Z.of_nat (in_degree d c) - 1 =? 0 then [c] else []) -> dag_ok gone d'.
Proof.
  intros Hok Hi Hc Hch Hpc Hh. set (l := <[i := DagEdge None x]> (out d p)) in *.
  assert (Hpe : edge d p c) by (unfold edge; apply list_elem_of_fmap; exists e; split; [done|by eapply list_elem_of_lookup_2]).
  assert (Hcnt : forall n, (in_degree d' n + (if decide (n = c) then 1 else 0) = in_degree d n)%nat).
  { intros n. pose proof (ch_degree _ _ _ _ Hch n) as E1. pose proof (count_to_insert n _ i e (DagEdge None x) Hi) as E2.
    fold l in E2. rewrite (count_to_one n c e Hc) in E2. change (count_to n [DagEdge None x]) with 0%nat in E2. destruct (decide (n = c)); lia. }
  assert (Hsub : forall n m, edge d' n m -> edge d n m).
  { intros n m [[-> Hm]|[_ ?]]%(changed_edge _ _ _ _ Hch); [|done]. apply list_elem_of_fmap in Hm as (e' & He' & [k Hk]%list_elem_of_lookup).
    apply list_lookup_insert_Some in Hk as [(_ & <- & _)|[_ Hk]]; [done|]. unfold edge. apply list_elem_of_fmap. exists e'. split; [done|by eapply list_elem_of_lookup_2]. }
  destruct Hok as [H1 H2 H3 H4 H5]. specialize (Hcnt c) as Hcc. rewrite decide_True in Hcc by done.
  assert (Hcn : c ∉ heads d) by (intros (_ & H & _)%H4; by apply (H p)). split.
  - intros n. specialize (Hcnt n). specialize (H1 n). rewrite Hpc. destruct (decide (n = c)) as [->|]; lia.
  - intros n m Hm%Hsub. rewrite (ch_size _ _ _ _ Hch). by eapply H2.
  - rewrite Hh. apply NoDup_app. split; [done|]. destruct (_ =? 0); split; [|apply NoDup_singleton|by intros ? _ ?%not_elem_of_nil|constructor].
    intros n Hn ->%list_elem_of_singleton. done.
  - intros n. rewrite Hh, (ch_size _ _ _ _ Hch), elem_of_app, H4, <- !in_degree_zero. specialize (Hcnt n).
    destruct (decide (n = c)) as [->|Hn].
    + destruct (Z.eqb_spec (Z.of_nat (in_degree d c) - 1) 0) as [E|E]; [rewrite list_elem_of_singleton|rewrite elem_of_nil]; [|lia].
      split; [|by right]. intros _. split; [by eapply H2|]. split; [lia|]. intros Hg. by apply (H5 c p).
    + assert (n ∉ if Z.of_nat (in_degree d c) - 1 =? 0 then [c] else []) by (destruct (_ =? 0); set_solver). rewrite Nat.add_0_r in Hcnt. rewrite Hcnt. tauto.
  - intros n q Hn ?%Hsub. by apply (H5 n q).
Qed.

Lemma dag_remove_edge_ok gone d p i e : dag_ok gone d -> out d p !! i = Some e ->
  exists d' x, dag_remove_edge d p i = Some d' /\ changed d d' p (<[i := DagEdge None x]> (out d p)) /\ dag_ok gone d'.
Proof.
  intros Hok Hi. assert (Hp : (p < size d)%nat).
  { unfold out in Hi. destruct (nodes d !! p) eqn:E; [by eapply lookup_lt_Some|done]. }
  unfold dag_remove_edge. destruct (node_lookup d p Hp) as (pn & -> & E & _). cbn [mbind option_bind]. rewrite E, Hi. cbn [mbind option_bind].
  destruct (e_child e) as [c|] eqn:Ec; [|exists d, (e_data e); split; [done|]; split; [|done]].
  2:{ rewrite list_insert_id; [apply changed_refl|]. destruct e; cbn in *; congruence. }
  assert (Hpc : edge d p c) by (unfold edge; apply list_elem_of_fmap; exists e; split; [done|by eapply list_elem_of_lookup_2]).
  pose proof (ok_edge _ _ Hok p c Hpc) as Hc. destruct (node_lookup d c Hc) as (cn & -> & _ & Ecn). cbn [mbind option_bind].
  destruct (ok_count _ _ Hok c) as [Hcnt Hlim].
  assert (Hpos : in_degree d c <> 0%nat) by (intros H0; by apply (proj1 (in_degree_zero d c) H0 p)).
  set (count := u32 (parent_count cn - 1)). assert (Hcount : count = Z.of_nat (in_degree d c) - 1) by (unfold count; rewrite Ecn, Hcnt, u32_small; lia).
  destruct (update_count d c count Hc) as (d1 & -> & Hh1 & Hs1 & Ho1 & Hpc1 & Hpc1' & Hd1). cbn [mbind option_bind].
  assert (Hc1 : c ∉ heads d1) by (rewrite Hh1; intros [_ [H _]]%(ok_heads _ _ Hok); by apply (H p)).
  set (h2 := heads d1 ++ (if count =? 0 then [c] else [])).
  assert (E2 : (if count =? 0 then list_addtail c d1 else Some d1) = Some (Dag (nodes d1) h2)).
  { unfold h2. destruct (count =? 0); [unfold list_addtail; by rewrite decide_False|]. rewrite app_nil_r. by destruct d1. }
  rewrite E2. cbn [mbind option_bind]. destruct (node_lookup (Dag (nodes d1) h2) p) as (pn' & -> & E' & _); [by rewrite <- Hs1 in Hp|].
  cbn [mbind option_bind]. rewrite E'. assert (Ho2 : out (Dag (nodes d1) h2) p = out d p) by apply Ho1. rewrite Ho2.
  destruct (update_edges (Dag (nodes d1) h2) p (<[i := DagEdge None 0]> (out d p))) as (d3 & -> & Hh3 & Hch & Hpc3); [by rewrite <- Hs1 in Hp|].
  assert (Hch3 : changed d d3 p (<[i := DagEdge None 0]> (out d p))).
  { destruct Hch as [G1 G2 G3 G4]. rewrite Ho2 in G4. split; [by rewrite G1, <- Hs1|done|intros n Hn; by rewrite G3, <- Ho1|intros n; rewrite G4, <- Hd1; done]. }
  exists d3, 0. split; [done|]. split; [done|].
  apply (dag_ok_removed gone d d3 p i e c 0); [done..| |].
  - intros n. rewrite Hpc3. change (pcount d1 n = if decide (n = c) then Z.of_nat (in_degree d c) - 1 else pcount d n).
    destruct (decide (n = c)) as [->|]; [by rewrite Hpc1|by apply Hpc1'].
  - rewrite Hh3. cbn [heads]. unfold h2. by rewrite Hh1, Hcount.
Qed.

Lemma list_delinit_ok gone d n : dag_ok gone d -> n ∈ heads d -> dag_ok (fun m => gone m \/ m = n) (list_delinit n d).
Proof.
  intros [H1 H2 H3 H4 H5] Hn. pose proof (proj1 (H4 n) Hn) as (Hlt & Hpar & _). split; [done|done| | |].
  - cbn. by apply NoDup_filter.
  - intros m. cbn [heads list_delinit]. rewrite list_elem_of_filter, H4.
    change (size (list_delinit n d)) with (size d). change (edge (list_delinit n d)) with (edge d). tauto.
  - intros m p [Hm| ->]; [by apply H5|apply Hpar].
Qed.

Lemma dag_prune_head_ok gone d n : dag_ok gone d -> n ∈ heads d ->
  exists d', dag_prune_head d n = Some d' /\ size d' = size d /\ (forall m, m <> n -> out d' m = out d m) /\ (forall c, ~ edge d' n c) /\
  dag_ok (fun m => gone m \/ m = n) d'.
Proof.
  intros Hok Hn. pose proof (proj1 (ok_heads _ _ Hok n) Hn) as (Hlt & Hpar & _).
  unfold dag_prune_head. destruct (node_lookup d n Hlt) as (nd & -> & E & Epc). cbn [mbind option_bind]. rewrite Epc, E.
  destruct (ok_count _ _ Hok n) as [-> _]. rewrite (proj2 (in_degree_zero d n) Hpar). cbn [Z.of_nat Z.eqb].
  destruct (for_each_rule (fun pre s => dag_ok (fun m => gone m \/ m = n) s /\ size s = size d /\ (forall m, m <> n -> out s m = out d m) /\
      length (out s n) = length (out d n) /\ forall j e, j ∈ pre -> out s n !! j = Some e -> e_child e = None)
    (fun i d => dag_remove_edge d n i) (seq 0 (length (out d n))) (list_delinit n d)) as (d' & -> & Hok' & Hs & Ho & Hlen & Hall).
  - split; [by apply list_delinit_ok|]. do 3 (split; [done|]). by intros j e ?%not_elem_of_nil.
  - intros pre i post s Hl (Hok1 & Hs & Ho & Hlen & Hall). assert (Hi : (i < length (out s n))%nat).
    { rewrite Hlen. assert (Hi : i ∈ seq 0 (length (out d n))) by (rewrite Hl; set_solver). apply elem_of_seq in Hi. lia. }
    apply lookup_lt_is_Some_2 in Hi as [e He]. destruct (dag_remove_edge_ok _ s n i e Hok1 He) as (s' & x & -> & Hch & Hok2).
    exists s'. split; [done|]. split; [done|]. split; [by rewrite (ch_size _ _ _ _ Hch)|].
    split; [intros m Hm; by rewrite (ch_ne _ _ _ _ Hch), Ho|]. rewrite (ch_eq _ _ _ _ Hch). split; [by rewrite length_insert|].
    intros j e'. rewrite elem_of_app, list_elem_of_singleton. intros Hj [(_ & <- & _)|[Hne Hj']]%list_lookup_insert_Some; [done|].
    destruct Hj as [Hj| ->]; [by eapply Hall|done].
  - exists d'. do 3 (split; [done|]). split; [|done]. intros c Hc. unfold edge in Hc. apply list_elem_of_fmap in Hc as (e & Hec & [j Hj]%list_elem_of_lookup).
    rewrite (Hall j e) in Hec; [done| |done]. apply elem_of_seq. apply lookup_lt_Some in Hj. lia.
Qed.

(** ** Scheduling: heads are pruned in any order *)

Definition schedule (l : list nat) (d : dag) : option dag :=
  for_each (fun n d => assert! bool_decide (n ∈ heads d) ;; dag_prune_head d n) l d.

(** After the nodes of [l] *)
Record scheduled (d : dag) (l : list nat) (d' : dag) : Prop := {
  sc_ok : dag_ok (fun n => n ∈ l) d';
  sc_size : size d' = size d;
  sc_lt : forall n, n ∈ l -> (n < size d)%nat;
  sc_edge : forall p c, edge d' p c <-> p ∉ l /\ edge d p c;
  sc_nodup : NoDup l;
  sc_order : forall l1 n l2 p, l = l1 ++ n :: l2 -> edge d p n -> p ∈ l1 }.

Lemma scheduled_step d l d' n : scheduled d l d' -> n ∈ heads d' -> exists d'', dag_prune_head d' n = Some d'' /\ scheduled d (l ++ [n]) d''.
Proof.
  intros [Hok Hs Hl He Hnd Hord] Hn. destruct (dag_prune_head_ok _ d' n Hok Hn) as (d'' & E & Hs' & Ho & Hnone & Hok').
  apply (ok_heads _ _ Hok) in Hn as (Hlt & Hpar & Hnl). exists d''. split; [done|]. split.
  - revert Hok'. apply dag_ok_ext. intros m. by rewrite elem_of_app, list_elem_of_singleton.
  - congruence.
  - intros m [?| ->%list_elem_of_singleton]%elem_of_app; [auto|by rewrite <- Hs].
  - intros p c. rewrite elem_of_app, list_elem_of_singleton. destruct (decide (p = n)) as [->|Hp]; [naive_solver|].
    unfold edge. rewrite Ho by done. fold (edge d' p c). rewrite He. unfold edge. tauto.
  - apply NoDup_app. split; [done|]. split; [|apply NoDup_singleton]. by intros m Hm ->%list_elem_of_singleton.
  - clear Hl. intros l1 m l2 p Hl Hp. destruct l2 as [|z l2 _] using rev_ind.
    + apply app_inj_tail in Hl as [-> <-]. destruct (decide (p ∈ l1)) as [|Hpl]; [done|]. exfalso. by apply (Hpar p), He.
    + rewrite app_comm_cons, app_assoc in Hl. apply app_inj_tail in Hl as [Hl _]. by apply (Hord l1 m l2).
Qed.

Lemma scheduled_heads d l d' n : scheduled d l d' -> n ∈ heads d' <-> (n < size d)%nat /\ n ∉ l /\ forall p, edge d p n -> p ∈ l.
Proof.
  intros [Hok Hs _ He _ _]. rewrite (ok_heads _ _ Hok), Hs. setoid_rewrite He. split.
  - intros (? & Hp & ?). split; [done|]. split; [done|]. intros p Hpn. destruct (decide (p ∈ l)) as [|Hnp]; [done|]. exfalso. by apply (Hp p).
  - intros (? & ? & Hp). split; [done|]. split; [|done]. intros p [Hnp Hpn]. by apply Hnp, Hp.
Qed.

#[global] Instance edge_dec d p c : Decision (edge d p c).
Proof. unfold edge. apply _. Defined.

Lemma edge_parent_lt d p c : edge d p c -> (p < size d)%nat.
Proof. intros (nd & _ & _ & H & _)%edge_alt. by eapply lookup_lt_Some. Qed.

Lemma unscheduled_parent d l d' n : scheduled d l d' -> n ∉ l -> n ∉ heads d' -> (n < size d)%nat -> exists p, (p < size d)%nat /\ p ∉ l /\ edge d p n.
Proof.
  intros Hs Hl Hh Hn. destruct (decide (Exists (fun p => p ∉ l /\ edge d p n) (seq 0 (size d)))) as [(p & Hp & ? & ?)%Exists_exists|Hno].
  { exists p. split; [|done]. apply elem_of_seq in Hp. lia. }
  exfalso. apply Hh, (scheduled_heads d l d' n Hs). split; [done|]. split; [done|]. intros p Hp. destruct (decide (p ∈ l)) as [|Hpl]; [done|].
  exfalso. apply Hno, Exists_exists. exists p. split; [|done]. apply elem_of_seq. apply edge_parent_lt in Hp. lia.
Qed.

Lemma scheduled_run d l d' : dag_ok (fun _ => False) d -> schedule l d = Some d' -> scheduled d l d'.
Proof.
  intros Hok. assert (H0 : scheduled d [] d).
  { split; [|done|by intros n ?%not_elem_of_nil| |constructor|by intros [|]].
    - revert Hok. apply dag_ok_ext. intros n. by rewrite elem_of_nil.
    - intros p c. rewrite elem_of_nil. tauto. }
  change l with ([] ++ l) at 2. revert H0. generalize (@nil nat) as done. generalize d at 2 3 as s.
  induction l as [|n l IH]; intros s done Hs; cbn [schedule for_each]; [intros [= <-]; by rewrite app_nil_r|].
  destruct (bool_decide (n ∈ heads s)) eqn:Eb; [|done]. apply bool_decide_eq_true in Eb.
  destruct (scheduled_step _ _ _ _ Hs Eb) as (s' & -> & Hs'). cbn. intros H. change (n :: l) with ([n] ++ l). rewrite app_assoc. by apply (IH s').
Qed.

(** ** Acyclic graphs *)

Lemma nodup_bound (l : list nat) N : NoDup l -> (forall x, x ∈ l -> (x < N)%nat) -> (length l <= N)%nat.
Proof.
  intros Hnd Hl. rewrite <- (length_seq N 0). apply submseteq_length, NoDup_submseteq; [done|].
  intros x Hx. apply elem_of_seq. specialize (Hl x Hx). lia.
Qed.

(** A set of nodes in which each has a parent is empty. *)
Lemma acyclic_source (R : nat -> nat -> Prop) N (P : nat -> Prop) : (forall x, ~ tc R x x) ->
  (forall x, P x -> (x < N)%nat) -> (forall x, P x -> exists y, P y /\ R y x) -> forall x, ~ P x.
Proof.
  intros Hac Hlt Hpar x0 H0.
  assert (Hk : forall k, exists x l, length l = k /\ P x /\ NoDup l /\ forall y, y ∈ l -> P y /\ tc R x y).
  { induction k as [|k (x & l & Hl & Hx & Hnd & Hall)].
    - exists x0, []. do 2 (split; [done|]). split; [constructor|]. by intros y ?%not_elem_of_nil.
    - destruct (Hpar x Hx) as (y & Hy & Hyx). exists y, (x :: l). split; [cbn; lia|]. split; [done|]. split.
      + constructor; [|done]. intros [_ Hc]%Hall. by apply (Hac x).
      + intros z [->|[? Hz]%Hall]%elem_of_cons; (split; [done|]); [by apply tc_once|by eapply tc_l]. }
  destruct (Hk (S N)) as (x & l & Hl & _ & Hnd & Hall).
  pose proof (nodup_bound l N Hnd (fun y Hy => Hlt y (proj1 (Hall y Hy)))). lia.
Qed.

(** The edges of the graph that calls build *)
Definition call_precedes (calls : list build_call) (p c : nat) : Prop := exists call x, call ∈ calls /\ call_edge call = Some (p, c, x).

Lemma built_edge calls d p c : built calls d -> edge d p c <-> call_precedes calls p c.
Proof.
  intros Hb. unfold edge, call_precedes. rewrite list_elem_of_fmap. split.
  - intros (e & He & Hin). destruct (bu_sound _ _ Hb p e Hin) as (call & c' & ? & ? & ?). exists call, (e_data e). split; [done|]. congruence.
  - intros (call & x & Hin & Hcall). destruct (bu_complete _ _ Hb call p c x Hin Hcall) as (y & _ & Hy). by exists (DagEdge (Some c) y).
Qed.

(** C15: list scheduling on the graphs of dag.c.  Any legal sequence of dag_init_node, dag_add_edge and
    dag_add_edge_max_data succeeds.  If the requested edges have no cycle and nodes are pruned in any order,
    each when it is in the list of heads: the list holds exactly the nodes that have not been pruned
    and whose parents have all been; pruning any of them succeeds; each node is pruned at most once and
    after all its parents; and when the list is empty every node has been pruned. *)
Theorem dag_schedule_correct calls : legal_build 0 calls -> Z.of_nat (length calls) < 2 ^ 32 -> (forall x, ~ tc (call_precedes calls) x x) ->
  exists d, for_each build_step calls dag_create = Some d /\ forall l d', schedule l d = Some d' ->
    NoDup l /\ (forall n, n ∈ heads d' <-> (n < num_nodes calls)%nat /\ n ∉ l /\ forall p, call_precedes calls p n -> p ∈ l) /\
    (forall n, n ∈ heads d' -> exists d'', dag_prune_head d' n = Some d'') /\
    (forall l1 n l2 p, l = l1 ++ n :: l2 -> call_precedes calls p n -> p ∈ l1) /\
    (heads d' = [] -> l ≡ₚ seq 0 (num_nodes calls)).
Proof.
  intros Hl Hlim Hac. destruct (built_run calls [] dag_create dag_create_ok Hl) as (d & E & Hb); [cbn; lia|]. cbn [app] in Hb.
  exists d. split; [done|]. intros l d' Hs%scheduled_run; [|apply (bu_ok _ _ Hb)].
  assert (Hheads : forall n, n ∈ heads d' <-> (n < num_nodes calls)%nat /\ n ∉ l /\ forall p, call_precedes calls p n -> p ∈ l).
  { intros n. rewrite (scheduled_heads d l d' n Hs), (bu_size _ _ Hb). by setoid_rewrite (built_edge calls d _ _ Hb). }
  split; [apply (sc_nodup _ _ _ Hs)|]. split; [done|]. split; [|split].
  - intros n Hn. destruct (scheduled_step d l d' n Hs Hn) as (d'' & ? & _). eauto.
  - intros l1 n l2 p Hl1 Hp%(built_edge calls d p n Hb). by eapply (sc_order _ _ _ Hs).
  - intros Hnil. assert (Hall : forall x, (x < num_nodes calls)%nat -> x ∈ l).
    { intros x Hx. destruct (decide (x ∈ l)) as [|Hxl]; [done|]. exfalso.
      apply (acyclic_source (call_precedes calls) (num_nodes calls) (fun y => (y < num_nodes calls)%nat /\ y ∉ l) Hac) with x; [tauto| |done].
      intros y [Hy Hyl]. apply (unscheduled_parent d l d' y Hs) in Hyl as (p & Hp & Hpl & Hpy); [|by rewrite Hnil; apply not_elem_of_nil|by rewrite (bu_size _ _ Hb)].
      exists p. rewrite <- (bu_size _ _ Hb). split; [done|]. by apply (built_edge calls d). }
    apply NoDup_Permutation; [apply (sc_nodup _ _ _ Hs)|apply NoDup_seq|]. intros x. rewrite elem_of_seq. split; [|intros ?; apply Hall; lia].
    intros Hx%(sc_lt _ _ _ Hs). rewrite <- (bu_size _ _ Hb). lia.
Qed.

(** ** A diamond, with a delay that is raised *)

Lemma acyclic_lt (R : nat -> nat -> Prop) : (forall x y, R x y -> (x < y)%nat) -> forall x, ~ tc R x x.
Proof. intros H x Hx. assert (Hlt : forall y z, tc R y z -> (y < z)%nat) by (induction 1 as [y z|y z w ?%H ??]; [auto|lia]). specialize (Hlt x x Hx). lia. Qed.

Definition example_build : list build_call :=
  [InitNode; InitNode; InitNode; InitNode; AddEdge 0 1 5; AddEdgeMax 0 2 1; AddEdge 1 3 0; AddEdge 2 3 0; AddEdgeMax 0 2 4; AddEdge 0 1 5].

Lemma example_build_acyclic x : ~ tc (call_precedes example_build) x x.
Proof.
  revert x. apply acyclic_lt. intros x y (call & z & Hin & Hcall).
  unfold example_build in Hin. repeat (apply elem_of_cons in Hin as [->|Hin]; [cbn in Hcall; first [done|injection Hcall; intros; lia]|]). by apply not_elem_of_nil in Hin.
Qed.

Lemma dag_schedule_correct_witness : exists d d', for_each build_step example_build dag_create = Some d /\
  schedule [0; 2; 1; 3]%nat d = Some d' /\ [0; 2; 1; 3]%nat ≡ₚ seq 0 4.
Proof.
  destruct (dag_schedule_correct example_build) as (d & Hd & H); [cbn; lia|cbn; lia|exact example_build_acyclic|].
  exists d, (Dag [DagNode [DagEdge None 0; DagEdge None 0] 0; DagNode [DagEdge None 0] 0; DagNode [DagEdge None 0] 0; DagNode [] 0] []).
  vm_compute in Hd. injection Hd as <-. split; [reflexivity|]. split; [reflexivity|]. eapply (H [0; 2; 1; 3]%nat); vm_compute; reflexivity.
Defined.
