(* ===== verification/DagTraverse.v ===== *)
(** * Directed acyclic graphs (src/util/dag.c): traversal and validation

    A stack has its top first; the sets of visited nodes are finite sets (HashSet.v relates
    util/set.c to them).  The callback of a traversal is a function on its data; it does
    not change the graph. *)

From Stdlib Require Import ZArith Lia.
From stdpp Require Import base list gmap numbers option relations.
From S2P Require Import Prelude Dag.
Local Open Scope nat_scope.

(** ** The traversal *)

(** The children that have not been seen are pushed in reverse order. *)
Definition push_children (seen : gset nat) (es : list dag_edge) (stack : list nat) : option (list nat) :=
  for_each (fun e stack => c ← e_child e; Some (if decide (c ∈ seen) then stack else c :: stack)) (reverse es) stack.

(** [while (node->edges.size != 0)] *)
Fixpoint descend (fuel : nat) (d : dag) (seen : gset nat) (node : nat) (stack : list nat) : option (nat * list nat) :=
  match fuel with
  | O => None
  | S fuel =>
      n ← nodes d !! node;
      match edges n with
      | [] => Some (node, stack)
      | es =>
          stack ← push_children seen es (node :: stack);
          match stack with
          | [] => None
          | top :: stack => if decide (top = node) then Some (node, stack) else descend fuel d seen top stack
          end
      end
  end.

(** The inner [do ... while]: the next node of the stack that has not been seen *)
Fixpoint next_unseen (seen : gset nat) (stack : list nat) : option (nat * list nat) :=
  match stack with
  | [] => None
  | node :: stack => if decide (node ∈ seen) then next_unseen seen stack else Some (node, stack)
  end.

Section callback.
Context {A : Type} (cb : nat -> A -> A).

Fixpoint traverse_loop (fuel : nat) (d : dag) (node : nat) (stack : list nat) (state : gset nat * A) : option (gset nat * A) :=
  match fuel with
  | O => None
  | S fuel =>
      '(node, stack) ← descend (S (size d)) d state.1 node stack;
      let state := ({[node]} ∪ state.1, cb node state.2) in
      match next_unseen state.1 stack with
      | None => Some state
      | Some (node, stack) => traverse_loop fuel d node stack state
      end
  end.

Definition dag_traverse_bottom_up_node (d : dag) (node : nat) (state : gset nat * A) : option (gset nat * A) :=
  if decide (node ∈ state.1) then Some state else traverse_loop (S (size d)) d node [] state.

Definition dag_traverse_bottom_up (d : dag) (data : A) : option A :=
  state ← for_each (dag_traverse_bottom_up_node d) (heads d) (∅, data); Some state.2.
End callback.

(** ** Validation *)

Record dag_validate_state := ValidateState { v_stack : list nat; v_stack_set : gset nat; v_seen : gset nat }.

(** The result of a validation: the state, or the node at which it is aborted with the nodes in the stack *)
Definition verdict : Type := dag_validate_state + (nat * list nat).

(** [dag_validate_node]; an aborted validation of a child ends the loop. *)
Fixpoint dag_validate_node (fuel : nat) (d : dag) (node : nat) (state : dag_validate_state) : option verdict :=
  match fuel with
  | O => None
  | S fuel =>
      if decide (node ∈ v_stack_set state) then Some (inr (node, v_stack state)) else
      if decide (node ∈ v_seen state) then Some (inl state) else
      let state := ValidateState (node :: v_stack state) ({[node]} ∪ v_stack_set state) ({[node]} ∪ v_seen state) in
      n ← nodes d !! node;
      r ← for_each (fun e r => match r with
                               | inl state => child ← e_child e; dag_validate_node fuel d child state
                               | inr abort => Some (inr abort)
                               end) (edges n) (inl state);
      match r with
      | inl state => Some (inl (ValidateState (tail (v_stack state)) (v_stack_set state ∖ {[node]}) (v_seen state)))
      | inr abort => Some (inr abort)
      end
  end.

Definition dag_validate (d : dag) : option verdict :=
  for_each (fun node r => match r with
                          | inl state => dag_validate_node (S (size d)) d node state
                          | inr abort => Some (inr abort)
                          end) (heads d) (inl (ValidateState [] ∅ ∅)).

(** ** The traversal is a topological order *)

Section traverse.
Context (d : dag).
Context (Hacyclic : acyclic d) (Hedge : forall p c, edge d p c -> c < size d) (Hnull : forall p e, e ∈ out d p -> is_Some (e_child e)).

Lemma push_children_ok seen es stack : (forall e, e ∈ es -> is_Some (e_child e)) ->
  push_children seen es stack = Some (filter (fun c => c ∉ seen) (omap e_child es) ++ stack).
Proof.
  unfold push_children. intros H. induction es as [|e es IH]; [done|].
  rewrite reverse_cons, for_each_app, IH by (intros e' He'; apply H; by right). destruct (H e) as [c Hc]; [left|].
  cbn [mbind option_bind for_each omap list_omap]. rewrite Hc. cbn [mbind option_bind]. rewrite filter_cons.
  destruct (decide (c ∈ seen)); [rewrite decide_False|rewrite decide_True]; auto.
Qed.

Lemma children_elem n nd c : nodes d !! n = Some nd -> c ∈ omap e_child (edges nd) <-> edge d n c.
Proof. intros H. unfold edge, out. rewrite H. cbn. rewrite list_elem_of_omap, list_elem_of_fmap. naive_solver. Qed.

(** What [descend] finds: a node below [node] whose children have all been seen; nothing is lost
    of the stack. *)
Lemma descend_ok seen fuel : forall node stack tr, node ∉ seen -> node < size d -> (forall x, x ∈ stack -> x < size d) ->
  NoDup tr -> (forall y, y ∈ tr -> y < size d /\ tc (edge d) y node) -> size d <= fuel + length tr ->
  exists node' stack', descend fuel d seen node stack = Some (node', stack') /\ node' ∉ seen /\ node' < size d /\
    (forall c, edge d node' c -> c ∈ seen) /\ (forall x, x ∈ stack' -> x < size d) /\ (forall x, x ∈ node :: stack -> x ∈ node' :: stack').
Proof using Hacyclic Hedge Hnull.
  induction fuel as [|fuel IH]; intros node stack tr Hns Hlt Hst Hnd Htr Hfuel.
  all: assert (Htr' : NoDup (node :: tr)) by (constructor; [intros [_ Hc]%Htr; by apply (Hacyclic node)|done]).
  all: pose proof (nodup_bound (node :: tr) (size d) Htr') as Hlen; cbn in Hlen.
  { exfalso. cut (S (length tr) <= size d); [lia|]. apply Hlen. intros x [->|[? _]%Htr]%elem_of_cons; done. }
  destruct (lookup_lt_is_Some_2 (nodes d) node Hlt) as [nd Hnode]. cbn [descend]. rewrite Hnode. cbn [mbind option_bind].
  pose proof (fun c => children_elem node nd c Hnode) as Hch.
  destruct (edges nd) as [|e0 es] eqn:Ees.
  { exists node, stack. do 3 (split; [done|]). split; [|auto]. intros c Hc%Hch. by apply not_elem_of_nil in Hc. }
  rewrite <- Ees in *. rewrite push_children_ok by (intros e He; apply (Hnull node); unfold out; by rewrite Hnode). cbn [mbind option_bind].
  destruct (filter (fun c => c ∉ seen) (omap e_child (edges nd))) as [|c cs] eqn:Ef; cbn [app].
  - rewrite decide_True by done. exists node, stack. do 3 (split; [done|]). split; [|auto]. intros c Hc%Hch.
    destruct (decide (c ∈ seen)) as [|Hcs]; [done|]. exfalso. apply (filter_nil_not_elem_of _ _ c Ef); done.
  - assert (Hcc : forall x, x ∈ c :: cs -> x ∉ seen /\ edge d node x).
    { intros x Hx. rewrite <- Ef in Hx. apply list_elem_of_filter in Hx as [? ?%Hch]. done. }
    destruct (Hcc c) as [Hcs Hc]; [left|]. rewrite decide_False by (intros ->; by apply (Hacyclic node), tc_once).
    destruct (IH c (cs ++ node :: stack) (node :: tr)) as (node' & stack' & -> & ? & ? & ? & ? & Hsub); [done|by eapply Hedge| |done| |cbn; lia|].
    + intros x [Hx|[->|Hx]%elem_of_cons]%elem_of_app; [|done|auto]. destruct (Hcc x) as [_ ?%Hedge]; [by right|done].
    + intros y [->|[? Hy]%Htr]%elem_of_cons; (split; [done|]); [by apply tc_once|by eapply tc_r].
    + exists node', stack'. do 5 (split; [done|]). intros x Hx. apply Hsub. right. apply elem_of_app. by right.
Qed.

Lemma next_unseen_ok seen stack : match next_unseen seen stack with
  | None => forall x, x ∈ stack -> x ∈ seen
  | Some (node, stack') => node ∉ seen /\ node ∈ stack /\ (forall x, x ∈ stack' -> x ∈ stack) /\ forall x, x ∈ stack -> x ∈ seen \/ x ∈ node :: stack'
  end.
Proof.
  induction stack as [|y stack IH]; cbn [next_unseen]; [by intros x ?%not_elem_of_nil|].
  destruct (decide (y ∈ seen)) as [Hy|Hy]; [|split; [done|]; split; [left|]; split; [by right|auto]].
  destruct (next_unseen seen stack) as [[node stack']|]; [|intros x [->|Hx]%elem_of_cons; auto].
  destruct IH as (? & ? & IH1 & IH2). split; [done|]. split; [by right|]. split; [right; auto|].
  intros x [->|Hx]%elem_of_cons; auto.
Qed.

(** The nodes visited so far, in order *)
Record visited (seen : gset nat) (order : list nat) : Prop := {
  vi_seen : forall x, x ∈ seen <-> x ∈ order;
  vi_nodup : NoDup order;
  vi_lt : forall x, x ∈ order -> x < size d;
  vi_order : forall l1 n l2 c, order = l1 ++ n :: l2 -> edge d n c -> c ∈ l1 }.

Lemma visited_snoc seen order n : visited seen order -> n ∉ seen -> n < size d -> (forall c, edge d n c -> c ∈ seen) ->
  visited ({[n]} ∪ seen) (order ++ [n]).
Proof.
  intros [H1 H2 H3 H4] Hn Hlt Hc. split.
  - intros x. rewrite elem_of_union, elem_of_singleton, elem_of_app, list_elem_of_singleton, H1. tauto.
  - apply NoDup_app. split; [done|]. split; [|apply NoDup_singleton]. intros x Hx%H1 ->%list_elem_of_singleton. done.
  - intros x [?| ->%list_elem_of_singleton]%elem_of_app; auto.
  - intros l1 m l2 c Hl Hm. destruct l2 as [|z l2 _] using rev_ind.
    + apply app_inj_tail in Hl as [-> ->]. by apply H1, Hc.
    + rewrite app_comm_cons, app_assoc in Hl. apply app_inj_tail in Hl as [Hl _]. by apply (H4 l1 m l2).
Qed.

Context {A : Type} (cb : nat -> A -> A).

Definition run_cb (data : A) (order : list nat) : A := foldl (fun a n => cb n a) data order.

Lemma traverse_loop_ok data root fuel : forall node stack seen order, visited seen order -> node ∉ seen -> node < size d ->
  (forall x, x ∈ stack -> x < size d) -> root ∈ seen \/ root ∈ node :: stack -> size d < fuel + length order ->
  exists seen' more, traverse_loop cb fuel d node stack (seen, run_cb data order) = Some (seen', run_cb data (order ++ more)) /\
    visited seen' (order ++ more) /\ root ∈ seen'.
Proof using Hacyclic Hedge Hnull.
  induction fuel as [|fuel IH]; intros node stack seen order Hv Hns Hlt Hst Hroot Hfuel.
  { pose proof (nodup_bound order (size d) (vi_nodup _ _ Hv) (vi_lt _ _ Hv)). lia. }
  cbn [traverse_loop fst snd].
  destruct (descend_ok seen (S (size d)) node stack [] Hns Hlt Hst) as (n & st & -> & Hn & Hnlt & Hc & Hst' & Hsub);
    [constructor|by intros y ?%not_elem_of_nil|cbn; lia|]. cbn [mbind option_bind].
  pose proof (visited_snoc seen order n Hv Hn Hnlt Hc) as Hv'.
  assert (Hroot' : root ∈ {[n]} ∪ seen \/ root ∈ st).
  { destruct Hroot as [?|[->|?]%Hsub%elem_of_cons]; [left; set_solver|left; set_solver|by right]. }
  pose proof (next_unseen_ok ({[n]} ∪ seen) st) as Hnext.
  assert (Hcb : cb n (run_cb data order) = run_cb data (order ++ [n])) by (unfold run_cb; by rewrite foldl_snoc). rewrite Hcb.
  destruct (next_unseen _ st) as [[node' stack']|].
  - destruct Hnext as (Hn' & Hin & Hsub' & Hor).
    destruct (IH node' stack' ({[n]} ∪ seen) (order ++ [n])) as (seen' & more & E & ? & ?); [done|done|by apply Hst'|intros x Hx; by apply Hst', Hsub'| |rewrite length_app; cbn; lia|].
    + destruct Hroot' as [?|?]; [by left|by apply Hor].
    + exists seen', (n :: more). rewrite <- app_assoc in *. done.
  - exists ({[n]} ∪ seen), [n]. split; [done|]. split; [done|]. destruct Hroot' as [?|?]; auto.
Qed.

Lemma traverse_node_ok data node seen order : visited seen order -> node < size d ->
  exists seen' more, dag_traverse_bottom_up_node cb d node (seen, run_cb data order) = Some (seen', run_cb data (order ++ more)) /\
    visited seen' (order ++ more) /\ node ∈ seen'.
Proof using Hacyclic Hedge Hnull.
  intros Hv Hlt. unfold dag_traverse_bottom_up_node. cbn [fst]. destruct (decide (node ∈ seen)) as [Hin|Hin].
  - exists seen, []. by rewrite app_nil_r.
  - apply traverse_loop_ok; [done|done|done|by intros x ?%not_elem_of_nil|right; left|lia].
Qed.

Lemma traverse_heads_ok data hs : (forall n, n ∈ hs -> n < size d) ->
  exists seen order, for_each (dag_traverse_bottom_up_node cb d) hs (∅, data) = Some (seen, run_cb data order) /\ visited seen order /\ forall n, n ∈ hs -> n ∈ order.
Proof using Hacyclic Hedge Hnull.
  intros Hlt. destruct (for_each_rule (fun pre s => exists order, s = (s.1, run_cb data order) /\ visited s.1 order /\ forall n, n ∈ pre -> n ∈ order)
    (dag_traverse_bottom_up_node cb d) hs (∅, data)) as ([seen a] & E & order & Hs & Hv & Hin).
  - exists []. split; [done|]. split; [|by intros n ?%not_elem_of_nil]. split; [set_solver|constructor|by intros x ?%not_elem_of_nil|by intros [|]].
  - intros pre n post s Hl (order & Hs & Hv & Hin). rewrite Hs. destruct (traverse_node_ok data n s.1 order Hv) as (seen' & more & -> & Hv' & Hn).
    { apply Hlt. rewrite Hl. set_solver. }
    eexists. split; [done|]. exists (order ++ more). split; [done|]. split; [done|].
    intros m [Hm| ->%list_elem_of_singleton]%elem_of_app; [apply elem_of_app; left; auto|by apply (vi_seen _ _ Hv')].
  - cbn in *. injection Hs as ->. eauto.
Qed.
End traverse.

(** ** Validation finds exactly the cycles below the heads *)

Section validate.
Context (d : dag) (Hedge : forall p c, edge d p c -> c < size d) (Hnull : forall p e, e ∈ out d p -> is_Some (e_child e)).

(** The nodes that have been left, in order, and those in the stack *)
Record validating (st : dag_validate_state) (fin : list nat) : Prop := {
  va_set : forall x, x ∈ v_stack_set st <-> x ∈ v_stack st;
  va_seen : forall x, x ∈ v_seen st <-> x ∈ fin \/ x ∈ v_stack st;
  va_nodup : NoDup (v_stack st);
  va_lt : forall x, x ∈ v_stack st -> x < size d;
  va_fin : forall x, x ∈ fin -> x ∉ v_stack st;
  va_order : visited d (list_to_set fin) fin }.

Lemma validating_push st fin node : validating st fin -> node ∉ v_stack_set st -> node ∉ v_seen st -> node < size d ->
  validating (ValidateState (node :: v_stack st) ({[node]} ∪ v_stack_set st) ({[node]} ∪ v_seen st)) fin.
Proof.
  intros [H1 H2 H3 H4 H5 H6] Hn Hs Hlt. split; cbn [v_stack v_stack_set v_seen]; [| | | | |done].
  - intros x. rewrite elem_of_cons, elem_of_union, elem_of_singleton, H1. done.
  - intros x. rewrite elem_of_cons, elem_of_union, elem_of_singleton, H2. tauto.
  - constructor; [by rewrite <- H1|done].
  - intros x [->|?]%elem_of_cons; auto.
  - intros x Hx [->|?]%elem_of_cons; [|by apply (H5 x)]. apply Hs, H2. by left.
Qed.

Lemma validating_pop st fin node stack : validating st fin -> v_stack st = node :: stack -> (forall c, edge d node c -> c ∈ fin) ->
  validating (ValidateState (tail (v_stack st)) (v_stack_set st ∖ {[node]}) (v_seen st)) (fin ++ [node]).
Proof.
  intros [H1 H2 H3 H4 H5 H6] E Hc. rewrite E in *. apply NoDup_cons in H3 as [Hn Hnd]. split; cbn [v_stack v_stack_set v_seen tail].
  - intros x. rewrite elem_of_difference, elem_of_singleton, H1, elem_of_cons. split; [tauto|]. intros Hx. split; [by right|]. intros ->. done.
  - intros x. rewrite H2, elem_of_app, list_elem_of_singleton, elem_of_cons. tauto.
  - done.
  - intros x Hx. apply H4. by right.
  - intros x [Hx| ->%list_elem_of_singleton]%elem_of_app; [|done]. intros Hx'. apply (H5 x Hx). by right.
  - assert (Hv : visited d ({[node]} ∪ list_to_set fin) (fin ++ [node])).
    { apply visited_snoc; [done| |apply H4; left|intros c Hcc; apply elem_of_list_to_set; auto].
      rewrite elem_of_list_to_set. intros Hx. apply (H5 node Hx). left. }
    destruct Hv as [G1 G2 G3 G4]. split; [|done..]. intros x. by rewrite elem_of_list_to_set.
Qed.

Definition below_heads (x : nat) : Prop := exists h, h ∈ heads d /\ rtc (edge d) h x.

(** The outcome of visiting a node *)
Definition outcome (stack fin : list nat) (node : nat) (r : verdict) : Prop :=
  match r with
  | inl st => v_stack st = stack /\ exists more, validating st (fin ++ more) /\ node ∈ fin ++ more
  | inr (x, _) => below_heads x /\ tc (edge d) x x
  end.

Lemma dag_validate_node_ok fuel : forall node st fin, validating st fin -> node < size d -> below_heads node ->
  (forall y, y ∈ v_stack st -> tc (edge d) y node) -> size d < fuel + length (v_stack st) ->
  exists r, dag_validate_node fuel d node st = Some r /\ outcome (v_stack st) fin node r.
Proof using Hedge Hnull.
  induction fuel as [|fuel IH]; intros node st fin Hva Hlt Hbelow Htc Hfuel.
  { pose proof (nodup_bound (v_stack st) (size d) (va_nodup _ _ Hva) (va_lt _ _ Hva)). lia. }
  cbn [dag_validate_node]. destruct (decide (node ∈ v_stack_set st)) as [Hss|Hss].
  { eexists. split; [done|]. split; [done|]. by apply Htc, (va_set _ _ Hva). }
  destruct (decide (node ∈ v_seen st)) as [Hse|Hse].
  { eexists. split; [done|]. split; [done|]. exists []. rewrite app_nil_r. split; [done|].
    apply (va_seen _ _ Hva) in Hse as [?|?]; [done|]. by rewrite (va_set _ _ Hva) in Hss. }
  destruct (lookup_lt_is_Some_2 (nodes d) node Hlt) as [nd Hnode]. rewrite Hnode. cbn [mbind option_bind].
  pose proof (validating_push st fin node Hva Hss Hse Hlt) as Hpush. set (st1 := ValidateState _ _ _) in *.
  assert (Hout : out d node = edges nd) by (unfold out; by rewrite Hnode).
  destruct (for_each_rule (fun pre r => match r with
      | inl s => v_stack s = node :: v_stack st /\ exists more, validating s (fin ++ more) /\ forall e c, e ∈ pre -> e_child e = Some c -> c ∈ fin ++ more
      | inr (x, _) => below_heads x /\ tc (edge d) x x end)
    (fun e r => match r with inl state => child ← e_child e; dag_validate_node fuel d child state | inr abort => Some (inr abort) end)
    (edges nd) (inl st1)) as (r & -> & Hr).
  - split; [done|]. exists []. rewrite app_nil_r. split; [done|]. by intros e c ?%not_elem_of_nil.
  - intros pre e post r Hl Hr. destruct r as [s|[x k]]; [|eexists; split; [done|]; exact Hr].
    destruct Hr as (Hstk & more & Hvs & Hpre). assert (He : e ∈ out d node) by (rewrite Hout, Hl; set_solver).
    destruct (Hnull node e He) as [c Hc]. rewrite Hc. cbn [mbind option_bind].
    assert (Hnc : edge d node c) by (unfold edge; apply list_elem_of_fmap; by exists e).
    destruct (IH c s (fin ++ more) Hvs) as (r & -> & Hr); [by eapply Hedge| | |rewrite Hstk; cbn; lia|].
    + destruct Hbelow as (h & Hh & Hr). exists h. split; [done|]. by eapply rtc_r.
    + rewrite Hstk. intros y [->|Hy]%elem_of_cons; [by apply tc_once|]. eapply tc_r; [by apply Htc|done].
    + exists r. split; [done|]. destruct r as [s'|[x k]]; [|done]. destruct Hr as (Hstk' & more' & Hvs' & Hin). split; [congruence|].
      exists (more ++ more'). rewrite app_assoc. split; [done|]. intros e' c' [He'| ->%list_elem_of_singleton]%elem_of_app Hc'; [|congruence].
      apply elem_of_app. left. by eapply Hpre.
  - cbn [mbind option_bind]. destruct r as [s|[x k]]; [|eexists; split; [done|]; exact Hr]. destruct Hr as (Hstk & more & Hvs & Hall).
    eexists. split; [done|]. cbn [outcome v_stack]. split; [by rewrite Hstk|]. exists (more ++ [node]). rewrite app_assoc. split; [|set_solver].
    apply (validating_pop s (fin ++ more) node (v_stack st) Hvs Hstk). intros c (e & He & Hin)%list_elem_of_fmap. rewrite Hout in Hin. by eapply Hall.
Qed.

Lemma visited_below seen order x c : visited d seen order -> tc (edge d) x c -> forall l1 l2, order = l1 ++ x :: l2 -> c ∈ l1.
Proof.
  intros Hv Htc. induction Htc as [x c Hxc|x y c Hxy _ IH]; intros l1 l2 E; [by eapply (vi_order _ _ _ Hv)|].
  pose proof (vi_order _ _ _ Hv l1 x l2 y E Hxy) as (k1 & k2 & ->)%list_elem_of_split.
  rewrite <- app_assoc in E. apply elem_of_app. left. by eapply IH.
Qed.

Lemma visited_acyclic seen order x : visited d seen order -> x ∈ order -> ~ tc (edge d) x x.
Proof.
  intros Hv (l1 & l2 & E)%list_elem_of_split Htc. pose proof (visited_below seen order x x Hv Htc l1 l2 E) as Hin.
  pose proof (vi_nodup _ _ _ Hv) as Hnd. rewrite E in Hnd. apply NoDup_app in Hnd as (_ & Hno & _). apply (Hno x Hin). left.
Qed.

Lemma visited_rtc seen order x c : visited d seen order -> x ∈ order -> rtc (edge d) x c -> c ∈ order.
Proof.
  intros Hv Hx [->|Htc]%rtc_tc; [done|]. apply list_elem_of_split in Hx as (l1 & l2 & E).
  pose proof (visited_below seen order x c Hv Htc l1 l2 E). rewrite E. apply elem_of_app. by left.
Qed.

Lemma dag_validate_ok : (forall n, n ∈ heads d -> n < size d) ->
  exists r, dag_validate d = Some r /\ match r with
    | inl _ => forall x, below_heads x -> ~ tc (edge d) x x
    | inr (x, _) => below_heads x /\ tc (edge d) x x end.
Proof using Hedge Hnull.
  intros Hlt. destruct (for_each_rule (fun pre r => match r with
      | inl s => v_stack s = [] /\ exists fin, validating s fin /\ forall n, n ∈ pre -> n ∈ fin
      | inr (x, _) => below_heads x /\ tc (edge d) x x end)
    (fun node r => match r with inl state => dag_validate_node (S (size d)) d node state | inr abort => Some (inr abort) end)
    (heads d) (inl (ValidateState [] ∅ ∅))) as (r & E & Hr).
  - split; [done|]. exists []. split; [|by intros n ?%not_elem_of_nil]. split; cbn; [set_solver|set_solver|constructor|by intros x ?%not_elem_of_nil|by intros x ?%not_elem_of_nil|].
    split; [set_solver|constructor|by intros x ?%not_elem_of_nil|by intros [|]].
  - intros pre n post r Hl Hr. destruct r as [s|[x k]]; [|eexists; split; [done|]; exact Hr]. destruct Hr as (Hstk & fin & Hva & Hpre).
    assert (Hn : n ∈ heads d) by (rewrite Hl; set_solver).
    destruct (dag_validate_node_ok (S (size d)) n s fin Hva) as (r & -> & Hr); [by apply Hlt|by exists n|rewrite Hstk; by intros y ?%not_elem_of_nil|lia|].
    exists r. split; [done|]. destruct r as [s'|[x k]]; [|done]. destruct Hr as (Hstk' & more & Hva' & Hin). split; [congruence|]. exists (fin ++ more).
    split; [done|]. intros m [Hm| ->%list_elem_of_singleton]%elem_of_app; [|done]. apply elem_of_app. left. by apply Hpre.
  - exists r. split; [exact E|]. destruct r as [s|[x k]]; [|done]. destruct Hr as (_ & fin & Hva & Hall).
    intros x (h & Hh & Hr). pose proof (va_order _ _ Hva) as Hv. apply (visited_acyclic _ _ x Hv). eapply visited_rtc; [done| |done]. by apply Hall.
Qed.
End validate.

(** ** Graphs built by calls *)

Lemma built_no_null calls d p e : built calls d -> e ∈ out d p -> is_Some (e_child e).
Proof. intros Hb Hin. destruct (bu_sound _ _ Hb p e Hin) as (call & c & _ & _ & ->). eauto. Qed.

Lemma tc_edge_built calls d x y : built calls d -> tc (edge d) x y <-> tc (call_precedes calls) x y.
Proof.
  intros Hb. split; induction 1 as [x y H|x y z H _ IH];
    first [apply tc_once; by apply (built_edge calls d x y Hb) | eapply tc_l; [by apply (built_edge calls d x y Hb)|done]].
Qed.

Lemma rtc_edge_built calls d x y : built calls d -> rtc (edge d) x y <-> rtc (call_precedes calls) x y.
Proof. intros Hb. by rewrite !rtc_tc, (tc_edge_built calls d x y Hb). Qed.

(** In an acyclic graph a set of nodes that is closed under edges and has the heads has every node. *)
Lemma from_heads d (P : nat -> Prop) `{!forall x, Decision (P x)} : dag_ok (fun _ => False) d -> acyclic d -> (forall n, n ∈ heads d -> P n) ->
  (forall p c, edge d p c -> P p -> P c) -> forall n, n < size d -> P n.
Proof.
  intros Hok Hac Hh Hcl n Hn. destruct (decide (P n)) as [|Hno]; [done|]. exfalso.
  apply (acyclic_source (edge d) (size d) (fun x => x < size d /\ ~ P x) Hac) with n; [tauto| |done].
  intros x [Hx Hnx]. destruct (decide (Exists (fun p => edge d p x) (seq 0 (size d)))) as [(p & Hp & Hpx)%Exists_exists|Hnp].
  - exists p. apply elem_of_seq in Hp. split; [split; [lia|]|done]. intros HP. by apply Hnx, (Hcl p).
  - exfalso. apply Hnx, Hh, (ok_heads _ _ Hok). split; [done|]. split; [|tauto]. intros p Hp. apply Hnp, Exists_exists. exists p.
    split; [|done]. apply elem_of_seq. apply edge_parent_lt in Hp. lia.
Qed.

(** C16: dag_traverse_bottom_up.  On any graph that is built by the functions of dag.c with edges that have no cycle, the
    traversal terminates and calls the callback on every node exactly once, on each node after all its
    children. *)
Theorem dag_traverse_bottom_up_correct {A : Type} (cb : nat -> A -> A) (data : A) calls :
  legal_build 0 calls -> (Z.of_nat (length calls) < 2 ^ 32)%Z -> (forall x, ~ tc (call_precedes calls) x x) ->
  exists d order, for_each build_step calls dag_create = Some d /\
    dag_traverse_bottom_up cb d data = Some (foldl (fun a n => cb n a) data order) /\ order ≡ₚ seq 0 (num_nodes calls) /\
    forall l1 n l2 c, order = l1 ++ n :: l2 -> call_precedes calls n c -> c ∈ l1.
Proof.
  intros Hl Hlim Hac. destruct (built_run calls [] dag_create dag_create_ok Hl) as (d & E & Hb); [cbn; lia|]. cbn [app] in Hb.
  pose proof (bu_ok _ _ Hb) as Hok. assert (Hac' : acyclic d) by (intros x Hx%(tc_edge_built calls d x x Hb); by apply (Hac x)).
  destruct (traverse_heads_ok d Hac' (ok_edge _ _ Hok) (fun p e => built_no_null calls d p e Hb) cb data (heads d)) as (seen & order & E' & Hv & Hh).
  { intros n Hn. by apply (ok_heads _ _ Hok). }
  exists d, order. split; [done|]. split; [unfold dag_traverse_bottom_up; by rewrite E'|]. split.
  - apply NoDup_Permutation; [apply (vi_nodup _ _ _ Hv)|apply NoDup_seq|]. intros x. rewrite elem_of_seq, <- (bu_size _ _ Hb). split.
    + intros Hx%(vi_lt _ _ _ Hv). lia.
    + intros [_ Hx]. apply (from_heads d (fun n => n ∈ order) Hok Hac' Hh); [|done].
      intros p c Hpc Hp. apply (visited_rtc d seen order p c Hv Hp). by apply rtc_once.
  - intros l1 n l2 c Ho Hn%(built_edge calls d n c Hb). by eapply (vi_order _ _ _ Hv).
Qed.

(** C29: dag_validate.  On any graph that is built by the functions of dag.c, the validation terminates, and it
    aborts exactly if there is a cycle below a node without parents; the node it prints is on such a cycle. *)
Theorem dag_validate_correct calls : legal_build 0 calls -> (Z.of_nat (length calls) < 2 ^ 32)%Z ->
  exists d r, for_each build_step calls dag_create = Some d /\ dag_validate d = Some r /\
    match r with
    | inl _ => forall h x, h < num_nodes calls -> (forall p, ~ call_precedes calls p h) -> rtc (call_precedes calls) h x -> ~ tc (call_precedes calls) x x
    | inr (x, _) => tc (call_precedes calls) x x /\
        exists h, h < num_nodes calls /\ (forall p, ~ call_precedes calls p h) /\ rtc (call_precedes calls) h x
    end.
Proof.
  intros Hl Hlim. destruct (built_run calls [] dag_create dag_create_ok Hl) as (d & E & Hb); [cbn; lia|]. cbn [app] in Hb.
  pose proof (bu_ok _ _ Hb) as Hok.
  assert (Hh : forall h, h ∈ heads d <-> h < num_nodes calls /\ forall p, ~ call_precedes calls p h).
  { intros h. rewrite (ok_heads _ _ Hok), (bu_size _ _ Hb). setoid_rewrite (built_edge calls d _ _ Hb). tauto. }
  destruct (dag_validate_ok d (ok_edge _ _ Hok) (fun p e => built_no_null calls d p e Hb)) as (r & Er & Hr); [intros n Hn; by apply (ok_heads _ _ Hok)|].
  exists d, r. split; [done|]. split; [done|]. destruct r as [st|[x k]].
  - intros h x H1 H2 H3 Hx. apply (Hr x); [exists h; split; [by apply Hh|by apply (rtc_edge_built calls d h x Hb)]|by apply (tc_edge_built calls d x x Hb)].
  - destruct Hr as [(h & Hin & Hrt) Hx]. split; [by apply (tc_edge_built calls d x x Hb)|]. exists h.
    apply Hh in Hin as [? ?]. split; [done|]. split; [done|]. by apply (rtc_edge_built calls d h x Hb).
Qed.

(** ** Examples *)

Lemma dag_traverse_bottom_up_correct_witness : exists d order, for_each build_step example_build dag_create = Some d /\
  dag_traverse_bottom_up cons d [] = Some (foldl (fun a n => n :: a) [] order) /\ order ≡ₚ seq 0 (num_nodes example_build) /\
  forall l1 n l2 c, order = l1 ++ n :: l2 -> call_precedes example_build n c -> c ∈ l1.
Proof. apply (dag_traverse_bottom_up_correct cons [] example_build); [cbn; lia|cbn; lia|exact example_build_acyclic]. Defined.

(** A cycle of two nodes below a head is found. *)
Definition example_cycle : list build_call := [InitNode; InitNode; InitNode; AddEdge 0 1 0; AddEdge 1 2 0; AddEdge 2 1 0].

Lemma dag_validate_correct_witness : exists d, for_each build_step example_cycle dag_create = Some d /\ dag_validate d = Some (inr (1, [2; 1; 0])) /\
  tc (call_precedes example_cycle) 1 1.
Proof.
  destruct (dag_validate_correct example_cycle) as (d & r & Hd & Hr & H); [cbn; lia|cbn; lia|]. exists d. split; [done|].
  vm_compute in Hd. injection Hd as <-. vm_compute in Hr. injection Hr as <-. split; [reflexivity|]. apply H.
Defined.

(** Without a head nothing is visited: a graph that is a cycle passes. *)
Lemma dag_validate_no_head : exists d, for_each build_step [InitNode; InitNode; AddEdge 0 1 0; AddEdge 1 0 0] dag_create = Some d /\
  edge d 0 1 /\ edge d 1 0 /\ dag_validate d = Some (inl (ValidateState [] ∅ ∅)).
Proof.
  eexists. split; [reflexivity|]. split; [apply list_elem_of_here|]. split; [apply list_elem_of_here|]. reflexivity.
Qed.
