(* ===== verification/UVector.v ===== *)
(** * Growable circular buffers (src/util/u_vector.c)

    The buffer is an array of bytes in cells, as in Rmq.v: a cell that was not written
    since it was allocated is [None], and reading it, or outside of the array, fails.  A pointer
    into the buffer is an offset.  What [malloc] returns is an argument.  The contract is a
    queue of elements; a client writes an element at the offset that [u_vector_add]
    returns, and reads it at the one that [u_vector_remove] returns (nir_worklist.h). *)

From Stdlib Require Import ZArith Lia.
From stdpp Require Import base list numbers option.
From S2P Require Import Prelude FastDiv Rmq.
Local Open Scope Z_scope.

Record u_vector := UVector { uv_head : Z; uv_tail : Z; element_size : Z; uv_size : Z; uv_data : list (option Z) }.

Definition util_is_power_of_two_nonzero (v : Z) : bool := negb (v =? 0) && (Z.land v (u32 (v - 1)) =? 0).

Definition align (value alignment : Z) : option Z :=
  assert! util_is_power_of_two_nonzero alignment ;;
  Some (Z.land (u32 (u32 (value + alignment) - 1)) (not32 (u32 (alignment - 1)))).

Definition memcpy (dst : list (option Z)) (d : Z) (src : list (option Z)) (s n : Z) : option (list (option Z)) :=
  assert! (0 <=? n) && (0 <=? d) && (d + n <=? Z.of_nat (length dst)) && (0 <=? s) && (s + n <=? Z.of_nat (length src)) ;;
  Some (take (Z.to_nat d) dst ++ take (Z.to_nat n) (drop (Z.to_nat s) src) ++ drop (Z.to_nat (d + n)) dst).

Definition malloc (size : Z) : list (option Z) := replicate (Z.to_nat size) None.

(** The result is true if there was memory. *)
Definition u_vector_init_pow2 (mem : bool) (initial_element_count element_size : Z) : option (u_vector * bool) :=
  assert! util_is_power_of_two_nonzero initial_element_count ;;
  assert! util_is_power_of_two_nonzero element_size ;;
  let size := u32 (element_size * initial_element_count) in
  Some (UVector 0 0 element_size size (if mem then malloc size else []), mem).

Definition util_next_power_of_two (x : Z) : Z := if x <=? 1 then 1 else u32 (Z.shiftl 1 (Z.log2 (x - 1) + 1)).

Definition u_vector_init (mem : bool) (initial_element_count element_size : Z) : option (u_vector * bool) :=
  u_vector_init_pow2 mem (util_next_power_of_two initial_element_count) (util_next_power_of_two element_size).

(** The buffer is full: its bytes move to one of the double size. *)
Definition grow_vector (v : u_vector) : option u_vector :=
  let size := u32 (uv_size v * 2) in
  let data := malloc size in
  let src_tail := Z.land (uv_tail v) (u32 (uv_size v - 1)) in
  let dst_tail := Z.land (uv_tail v) (u32 (size - 1)) in
  data ←
    (if src_tail =? 0 then memcpy data dst_tail (uv_data v) 0 (uv_size v)
     else
       split ← align (uv_tail v) (uv_size v);
       assert! (uv_tail v <=? split) && (split <? uv_head v) ;;
       data ← memcpy data dst_tail (uv_data v) src_tail (u32 (split - uv_tail v));
       memcpy data (Z.land split (u32 (size - 1))) (uv_data v) 0 (u32 (uv_head v - split)));
  Some (UVector (uv_head v) (uv_tail v) (element_size v) size data).

(** The offset of the new element, or [None] for [NULL] *)
Definition u_vector_add (mem : bool) (v : u_vector) : option (u_vector * option Z) :=
  let place v :=
    assert! u32 (uv_head v - uv_tail v) <? uv_size v ;;
    let offset := Z.land (uv_head v) (u32 (uv_size v - 1)) in
    Some (UVector (u32 (uv_head v + element_size v)) (uv_tail v) (element_size v) (uv_size v) (uv_data v), Some offset) in
  if u32 (uv_head v - uv_tail v) =? uv_size v then
    if mem then v ← grow_vector v; place v else Some (v, None)
  else place v.

Definition u_vector_remove (v : u_vector) : option (u_vector * option Z) :=
  if uv_head v =? uv_tail v then Some (v, None) else
  assert! u32 (uv_head v - uv_tail v) <=? uv_size v ;;
  let offset := Z.land (uv_tail v) (u32 (uv_size v - 1)) in
  Some (UVector (uv_head v) (u32 (uv_tail v + element_size v)) (element_size v) (uv_size v) (uv_data v), Some offset).

Definition u_vector_length (v : u_vector) : Z := u32 (uv_head v - uv_tail v) / element_size v.

Definition u_vector_head (v : u_vector) : option Z :=
  assert! uv_tail v <? uv_head v ;;
  Some (Z.land (u32 (uv_head v - element_size v)) (u32 (uv_size v - 1))).

Definition u_vector_tail (v : u_vector) : Z := Z.land (uv_tail v) (u32 (uv_size v - 1)).

(** ** Clients *)

Definition write (v : u_vector) (offset : Z) (bytes : list Z) : option u_vector :=
  data ← memcpy (uv_data v) offset (Some <$> bytes) 0 (Z.of_nat (length bytes));
  Some (UVector (uv_head v) (uv_tail v) (element_size v) (uv_size v) data).

Definition read (v : u_vector) (offset n : Z) : option (list Z) := mapM (fun i => load (uv_data v) (offset + i)) (seqZ 0 n).

Inductive vec_op := Push (mem : bool) (e : list Z) | Pop.
Inductive vec_result := Pushed (b : bool) | Popped (o : option (list Z)).

(** nir_instr_worklist_push_tail and nir_instr_worklist_pop_head, for elements of any size *)
Definition vec_step (op : vec_op) (v : u_vector) : option (u_vector * vec_result) :=
  match op with
  | Push mem e =>
      '(v, p) ← u_vector_add mem v;
      match p with
      | None => Some (v, Pushed false)
      | Some offset => v ← write v offset e; Some (v, Pushed true)
      end
  | Pop =>
      '(v, p) ← u_vector_remove v;
      match p with
      | None => Some (v, Popped None)
      | Some offset => e ← read v offset (element_size v); Some (v, Popped (Some e))
      end
  end.

(** ** Copies *)

Lemma memcpy_ok dst d src s n : 0 <= n -> 0 <= d -> d + n <= Z.of_nat (length dst) -> 0 <= s -> s + n <= Z.of_nat (length src) ->
  exists dst', memcpy dst d src s n = Some dst' /\ length dst' = length dst /\
  forall j, load dst' j = if decide (d <= j < d + n) then load src (s + (j - d)) else load dst j.
Proof.
  intros Hn Hd Hdn Hs Hsn. unfold memcpy. passert ltac:(lia). eexists. split; [done|]. split.
  - rewrite !length_app, length_take, length_take, !length_drop. lia.
  - intros j. unfold load. destruct (Z.ltb_spec j 0) as [Hj|Hj]; [destruct (decide _); [lia|done]|].
    destruct (decide (d <= j < d + n)) as [Hin|Hout].
    + destruct (Z.ltb_spec (s + (j - d)) 0); [lia|]. f_equal.
      rewrite lookup_app_r, lookup_app_l by (rewrite ?length_take, ?length_drop; lia).
      rewrite length_take, lookup_take_lt, lookup_drop by lia. f_equal. lia.
    + f_equal. destruct (decide (j < d)) as [Hjd|Hjd]; [by rewrite lookup_app_l, lookup_take_lt by (rewrite ?length_take; lia)|].
      rewrite lookup_app_r, lookup_app_r by (rewrite ?length_take, ?length_drop; lia). rewrite lookup_drop, !length_take, length_drop. f_equal. lia.
Qed.

(** ** Powers of two *)

Lemma power_of_two_nonzero k : 0 <= k < 32 -> util_is_power_of_two_nonzero (2 ^ k) = true.
Proof.
  intros Hk. unfold util_is_power_of_two_nonzero. pose proof (pow2_pos k ltac:(lia)). pose proof (pow2_lt k 32 ltac:(lia)).
  rewrite u32_small, land_pred_pow2 by lia. destruct (Z.eqb_spec (2 ^ k) 0); [lia|done].
Qed.

Lemma land_size k x : 0 <= k < 32 -> Z.land x (u32 (2 ^ k - 1)) = x mod 2 ^ k.
Proof.
  intros Hk. pose proof (pow2_pos k ltac:(lia)). pose proof (pow2_lt k 32 ltac:(lia)). rewrite u32_small by lia.
  rewrite <- Z.land_ones, Z.ones_equiv by lia. done.
Qed.

Lemma align_pow2 v k : 0 <= v -> 0 <= k < 32 -> v + 2 ^ k < 2 ^ 32 -> align v (2 ^ k) = Some ((v + 2 ^ k - 1) / 2 ^ k * 2 ^ k).
Proof.
  intros Hv Hk Hb. pose proof (pow2_pos k ltac:(lia)). unfold align. rewrite power_of_two_nonzero by done.
  rewrite !u32_small by (rewrite ?u32_small by lia; lia). f_equal. rewrite not32_sub by lia.
  replace (2 ^ 32 - 1 - (2 ^ k - 1)) with (2 ^ 32 - 2 ^ k) by lia. apply land_high_mask; [lia|]. unfold fits. lia.
Qed.

Lemma mod_double a m : 0 < m -> a mod (2 * m) = a mod m \/ a mod (2 * m) = a mod m + m.
Proof.
  intros Hm. pose proof (Z.mod_pos_bound a (2 * m) ltac:(lia)). pose proof (Z.div_mod a (2 * m) ltac:(lia)).
  destruct (decide (a mod (2 * m) < m)); [left|right].
  - apply Z.mod_unique_pos with (2 * (a / (2 * m))); lia.
  - cut (a mod (2 * m) - m = a mod m); [lia|]. apply Z.mod_unique_pos with (2 * (a / (2 * m)) + 1); lia.
Qed.

(** Indices modulo [2^32] *)
Lemma u32_mod_pow2 s x : 0 <= s <= 32 -> u32 x mod 2 ^ s = x mod 2 ^ s.
Proof.
  intros Hs. unfold u32, wrap. rewrite Z.mod_mod_divide; [done|]. exists (2 ^ (32 - s)). rewrite <- Z.pow_add_r by lia. f_equal. lia.
Qed.

Lemma u32_distance t n : 0 <= n < 2 ^ 32 -> u32 (u32 (t + n) - t) = n.
Proof.
  intros Hn. unfold u32, wrap. rewrite Zminus_mod_idemp_l. replace (t + n - t) with n by lia. by apply Z.mod_small.
Qed.

Lemma u32_add_u32 t a b : u32 (u32 (t + a) + b) = u32 (t + (a + b)).
Proof. unfold u32, wrap. rewrite Zplus_mod_idemp_l. f_equal. lia. Qed.

(** ** The invariant: [l] is the bytes from tail to head *)

Record vec_ok (v : u_vector) (l : list Z) : Prop := {
  ve_size : exists e s, 0 <= e <= s /\ s < 32 /\ element_size v = 2 ^ e /\ uv_size v = 2 ^ s;
  ve_tail : 0 <= uv_tail v < 2 ^ 32 /\ uv_tail v mod element_size v = 0;
  ve_head : uv_head v = u32 (uv_tail v + Z.of_nat (length l)) /\ Z.of_nat (length l) mod element_size v = 0;
  ve_limit : Z.of_nat (length l) <= uv_size v;
  ve_data : Z.of_nat (length (uv_data v)) = uv_size v;
  ve_bytes : forall i, 0 <= i < Z.of_nat (length l) -> load (uv_data v) ((uv_tail v + i) mod uv_size v) = l !! Z.to_nat i }.

(** The buffer can grow: the double size is a 32-bit number, and the bytes from tail to head do not cross [2^32]. *)
Definition can_grow (tail size : Z) : bool := (size <? 2 ^ 31) && (tail + size <=? 2 ^ 32).

Lemma grow_bytes v data s : 0 <= s < 31 -> uv_size v = 2 ^ s -> 0 <= uv_tail v -> uv_head v = u32 (uv_tail v + 2 ^ s) -> uv_tail v + 2 ^ s <= 2 ^ 32 ->
  Z.of_nat (length (uv_data v)) = 2 ^ s -> data = uv_data v ->
  exists v', grow_vector v = Some v' /\ uv_head v' = uv_head v /\ uv_tail v' = uv_tail v /\ element_size v' = element_size v /\ uv_size v' = 2 ^ (s + 1) /\
    Z.of_nat (length (uv_data v')) = 2 ^ (s + 1) /\
    forall i, 0 <= i < 2 ^ s -> load (uv_data v') ((uv_tail v + i) mod 2 ^ (s + 1)) = load data ((uv_tail v + i) mod 2 ^ s).
Proof.
  intros Hs Hsize Ht Hh Hlim Hdata ->. pose proof (pow2_pos s ltac:(lia)) as Hpos. pose proof (pow2_lt s 31 ltac:(lia)) as Hlt.
  pose proof (pow2_succ s ltac:(lia)) as Hdbl. unfold grow_vector. rewrite Hsize, (u32_small (2 ^ s * 2)) by lia.
  replace (2 ^ s * 2) with (2 ^ (s + 1)) by lia. rewrite !land_size by lia.
  set (R := uv_tail v mod 2 ^ (s + 1)). set (r := uv_tail v mod 2 ^ s).
  pose proof (Z.mod_pos_bound (uv_tail v) (2 ^ s) Hpos) as Hr. fold r in Hr.
  assert (HR : R = r \/ R = r + 2 ^ s) by (unfold R, r; rewrite Hdbl; by apply mod_double).
  assert (Hmod1 : forall i, 0 <= i < 2 ^ s -> (uv_tail v + i) mod 2 ^ s = if decide (r + i < 2 ^ s) then r + i else r + i - 2 ^ s).
  { intros i Hi. by apply mod_add_wrap. }
  assert (Hmod2 : forall i, 0 <= i < 2 ^ (s + 1) -> (uv_tail v + i) mod 2 ^ (s + 1) = if decide (R + i < 2 ^ (s + 1)) then R + i else R + i - 2 ^ (s + 1)).
  { intros i Hi. apply mod_add_wrap; [lia|done]. }
  assert (Hlen : Z.of_nat (length (malloc (2 ^ (s + 1)))) = 2 ^ (s + 1)) by (unfold malloc; rewrite length_replicate; lia).
  destruct (Z.eqb_spec r 0) as [Hr0|Hr0].
  - destruct (memcpy_ok (malloc (2 ^ (s + 1))) R (uv_data v) 0 (2 ^ s)) as (d' & -> & Hl' & Hd'); [lia..|]. cbn [mbind option_bind].
    eexists. split; [done|]. cbn [uv_head uv_tail element_size uv_size uv_data]. do 4 (split; [done|]). split; [lia|].
    intros i Hi. rewrite Hmod1, Hmod2, Hd' by lia. repeat (destruct (decide _)); try lia. f_equal. lia.
  - assert (Hnw : uv_tail v + 2 ^ s < 2 ^ 32).
    { destruct (Z.eq_dec (uv_tail v + 2 ^ s) (2 ^ 32)) as [Eq|]; [|lia]. exfalso. apply Hr0. unfold r.
      replace (uv_tail v) with ((2 ^ (32 - s) - 1) * 2 ^ s); [apply Z.mod_mul; lia|].
      rewrite Z.mul_sub_distr_r, <- Z.pow_add_r by lia. replace (32 - s + s) with 32 by lia. lia. }
    rewrite u32_small in Hh by lia. rewrite align_pow2 by lia. cbn [mbind option_bind]. rewrite land_size by lia.
    assert (Hsplit : (uv_tail v + 2 ^ s - 1) / 2 ^ s * 2 ^ s = uv_tail v - r + 2 ^ s).
    { pose proof (Z.div_mod (uv_tail v) (2 ^ s) ltac:(lia)) as E. fold r in E.
      rewrite (div_between _ (2 ^ s) (uv_tail v / 2 ^ s + 1)); lia. }
    rewrite Hsplit. passert ltac:(lia). rewrite !u32_small by lia.
    replace (uv_tail v - r + 2 ^ s) with (uv_tail v + (2 ^ s - r)) by lia. rewrite Hmod2 by lia.
    set (T := if decide (R + (2 ^ s - r) < 2 ^ (s + 1)) then R + (2 ^ s - r) else R + (2 ^ s - r) - 2 ^ (s + 1)).
    assert (HT : (R = r /\ T = 2 ^ s) \/ (R = r + 2 ^ s /\ T = 0)) by (unfold T; destruct (decide _); lia).
    destruct (memcpy_ok (malloc (2 ^ (s + 1))) R (uv_data v) r (uv_tail v + (2 ^ s - r) - uv_tail v)) as (d1 & -> & Hl1 & Hd1); [lia..|]. cbn [mbind option_bind].
    destruct (memcpy_ok d1 T (uv_data v) 0 (uv_head v - (uv_tail v + (2 ^ s - r)))) as (d2 & -> & Hl2 & Hd2); [lia..|]. cbn [mbind option_bind].
    eexists. split; [done|]. cbn [uv_head uv_tail element_size uv_size uv_data]. do 4 (split; [done|]). split; [lia|].
    intros i Hi. rewrite Hmod1, Hmod2, Hd2, Hd1 by lia. clear Hmod1 Hmod2 Hd1 Hd2 Hsplit. repeat (destruct (decide _)); try lia; f_equal; lia.
Qed.

Lemma multiple_lt es x y : 0 < es -> x mod es = 0 -> y mod es = 0 -> x < y -> x + es <= y.
Proof.
  intros Hes Hx Hy Hlt. pose proof (Z.div_mod x es ltac:(lia)). pose proof (Z.div_mod y es ltac:(lia)).
  assert (x / es < y / es) by nia. nia.
Qed.

Lemma mod_mod_pow2 e s x : 0 <= e <= s -> x mod 2 ^ e = 0 -> (x mod 2 ^ s) mod 2 ^ e = 0.
Proof.
  intros He Hx. rewrite Z.mod_mod_divide; [done|]. exists (2 ^ (s - e)). rewrite <- Z.pow_add_r by lia. f_equal. lia.
Qed.

Lemma pow2_mod e s : 0 <= e <= s -> 2 ^ s mod 2 ^ e = 0.
Proof. intros He. replace s with (s - e + e) by lia. rewrite Z.pow_add_r, Z.mod_mul by lia. done. Qed.

(** Writing an element behind the last one *)
Lemma place_ok v l bytes : vec_ok v l -> Z.of_nat (length bytes) = element_size v -> Z.of_nat (length l) < uv_size v ->
  exists v', write (UVector (u32 (uv_head v + element_size v)) (uv_tail v) (element_size v) (uv_size v) (uv_data v)) (uv_head v mod uv_size v) bytes = Some v' /\
    vec_ok v' (l ++ bytes) /\ uv_tail v' = uv_tail v /\ uv_size v' = uv_size v /\ element_size v' = element_size v.
Proof.
  intros [(e & s & Hes & Hs & He & Hsz) [Ht Htm] [Hh Hlm] Hcap Hdata Hbytes] Hlen Hfree.
  pose proof (pow2_pos e ltac:(lia)) as Hpe. pose proof (pow2_pos s ltac:(lia)) as Hps. rewrite He, Hsz in *.
  set (len := Z.of_nat (length l)) in *. set (S := 2 ^ s) in *. set (E := 2 ^ e) in *.
  assert (Hroom : len + E <= S) by (apply multiple_lt; [done|done|by apply pow2_mod|done]).
  pose proof (mod_add_wrap (uv_tail v) len S ltac:(lia) ltac:(lia)) as Hoff.
  assert (HhS : uv_head v mod S = (uv_tail v + len) mod S) by (rewrite Hh; apply u32_mod_pow2; lia).
  rewrite <- HhS in Hoff.
  pose proof (Z.mod_pos_bound (uv_head v) S ltac:(lia)) as Hoffb. pose proof (Z.mod_pos_bound (uv_tail v) S ltac:(lia)) as Hrb.
  assert (Hfit : uv_head v mod S + E <= S).
  { apply multiple_lt; [done| |by apply pow2_mod|lia]. rewrite HhS. apply mod_mod_pow2; [lia|]. fold E. rewrite Z.add_mod, Htm, Hlm by lia. done. }
  unfold write. cbn [uv_data uv_head uv_tail element_size uv_size].
  destruct (memcpy_ok (uv_data v) (uv_head v mod S) (Some <$> bytes) 0 (Z.of_nat (length bytes))) as (d' & -> & Hl' & Hd'); [lia|lia|lia|lia|rewrite length_fmap; lia|].
  cbn [mbind option_bind]. eexists. split; [done|]. split; [|done]. split; cbn [uv_data uv_head uv_tail element_size uv_size]; rewrite ?length_app.
  - exists e, s. done.
  - done.
  - split; [rewrite Hh, u32_add_u32; do 2 f_equal; lia|].
    rewrite Nat2Z.inj_add, Hlen. fold len. rewrite Z.add_mod, Hlm, Z.mod_same by lia. done.
  - lia.
  - lia.
  - intros i Hi. rewrite Hd', (mod_add_wrap (uv_tail v) i S) by lia. destruct (decide (i < len)) as [Hil|Hil].
    + rewrite lookup_app_l by lia. rewrite <- Hbytes, (mod_add_wrap (uv_tail v) i S) by lia. clear Hd' Hbytes. repeat (destruct (decide _)); lia || done.
    + rewrite lookup_app_r by lia. rewrite decide_True by (clear Hd' Hbytes; repeat (destruct (decide _)); lia).
      unfold load. rewrite list_lookup_fmap. set (k := 0 + _). assert (Hk : k = i - len) by (unfold k; clear Hd' Hbytes; repeat (destruct (decide _)); lia).
      rewrite Hk. destruct (Z.ltb_spec (i - len) 0); [lia|]. replace (Z.to_nat i - length l)%nat with (Z.to_nat (i - len)) by lia.
      by destruct (bytes !! Z.to_nat (i - len)).
Qed.

Lemma vec_ok_bounds v l : vec_ok v l -> 0 < uv_size v <= 2 ^ 31 /\ 0 < element_size v <= uv_size v /\ 0 <= uv_tail v < 2 ^ 32 /\
  Z.of_nat (length l) <= uv_size v /\ u32 (uv_head v - uv_tail v) = Z.of_nat (length l).
Proof.
  intros [(e & s & Hes & Hs & He & Hsz) [Ht Htm] [Hh Hlm] Hcap Hdata Hbytes].
  pose proof (pow2_pos e ltac:(lia)). pose proof (pow2_le e s ltac:(lia)). pose proof (pow2_le s 31 ltac:(lia)).
  split_and!; try lia. rewrite Hh. apply u32_distance. lia.
Qed.

(** The buffer is empty if and only if head and tail are equal. *)
Lemma vec_ok_empty v l : vec_ok v l -> uv_head v = uv_tail v <-> Z.of_nat (length l) = 0.
Proof.
  intros Hv. destruct (vec_ok_bounds v l Hv) as (_ & _ & Ht & _ & Hd). split; intros H.
  - rewrite <- Hd, H, Z.sub_diag. done.
  - destruct (ve_head _ _ Hv) as [-> _]. rewrite H, Z.add_0_r. by apply u32_small.
Qed.

Lemma vec_ok_land v l x : vec_ok v l -> Z.land x (u32 (uv_size v - 1)) = x mod uv_size v.
Proof. intros [(e & s & Hes & Hs & He & Hsz) _ _ _ _ _]. rewrite Hsz. apply land_size. lia. Qed.

Lemma grow_ok v l : vec_ok v l -> Z.of_nat (length l) = uv_size v -> can_grow (uv_tail v) (uv_size v) = true ->
  exists v', grow_vector v = Some v' /\ vec_ok v' l /\ uv_tail v' = uv_tail v /\ element_size v' = element_size v /\ uv_size v' = 2 * uv_size v.
Proof.
  intros Hv Hfull [Hg1 Hg2]%andb_true_iff. apply Z.ltb_lt in Hg1. apply Z.leb_le in Hg2.
  destruct Hv as [(e & s & Hes & Hs & He & Hsz) [Ht Htm] [Hh Hlm] Hcap Hdata Hbytes].
  assert (Hs31 : s < 31).
  { destruct (decide (s < 31)) as [|Hge]; [done|]. assert (s = 31) as -> by lia. lia. }
  destruct (grow_bytes v (uv_data v) s) as (v' & Eg & Hh' & Ht' & He' & Hs' & Hd' & Hb'); [lia|done|lia| |lia|lia|done|].
  { rewrite Hh. do 2 f_equal. lia. }
  pose proof (pow2_succ s ltac:(lia)). pose proof (pow2_pos s ltac:(lia)).
  exists v'. split; [done|]. split; [|rewrite Hs'; repeat split; try done; lia]. split.
  - exists e, (s + 1). rewrite He'. split; [lia|]. split; [lia|done].
  - rewrite Ht', He'. done.
  - rewrite Hh', Ht', He'. done.
  - lia.
  - lia.
  - intros i Hi. rewrite Ht', Hs', Hb', <- Hbytes by lia. by rewrite Hsz.
Qed.

(** Where it cannot grow, an assertion fails or the copy is out of bounds. *)
Lemma grow_fails v l : vec_ok v l -> Z.of_nat (length l) = uv_size v -> can_grow (uv_tail v) (uv_size v) = false -> grow_vector v = None.
Proof.
  intros Hv Hfull Hg. pose proof (vec_ok_bounds v l Hv) as (Hb & _ & Ht & _). destruct (ve_size _ _ Hv) as (e & s & Hes & Hs & _ & Hsz).
  unfold can_grow in Hg. unfold grow_vector. rewrite Hsz in *. pose proof (pow2_pos s ltac:(lia)). rewrite (land_size s) by lia.
  destruct (decide (s = 31)) as [->|Hne].
  - change (u32 (2 ^ 31 * 2)) with 0. change (u32 (0 - 1)) with (Z.ones 32). rewrite (Z.land_ones (uv_tail v) 32), (Z.mod_small (uv_tail v) (2 ^ 32)) by lia.
    destruct (Z.eqb_spec (uv_tail v mod 2 ^ 31) 0) as [E0|E0].
    + unfold memcpy. change (Z.of_nat (length (malloc 0))) with 0.
      destruct (Z.leb_spec (uv_tail v + 2 ^ 31) 0); [lia|]. by rewrite andb_false_r.
    + assert (uv_tail v <> 0) by (intros Ez; rewrite Ez in E0; by apply E0).
      destruct (align (uv_tail v) (2 ^ 31)) as [split|]; [|done]. cbn [mbind option_bind].
      destruct ((uv_tail v <=? split) && (split <? uv_head v)); [|done]. cbn [mbind option_bind].
      assert (0 <= u32 (split - uv_tail v)) by (apply u32_fits). unfold memcpy. change (Z.of_nat (length (malloc 0))) with 0.
      destruct (Z.leb_spec (uv_tail v + u32 (split - uv_tail v)) 0); [lia|]. by rewrite andb_false_r.
  - pose proof (pow2_lt s 31 ltac:(lia)). apply andb_false_iff in Hg as [Hg|Hg]; [apply Z.ltb_ge in Hg; lia|]. apply Z.leb_gt in Hg.
    destruct (Z.eqb_spec (uv_tail v mod 2 ^ s) 0) as [E0|E0].
    { pose proof (Z.div_mod (uv_tail v) (2 ^ s) ltac:(lia)) as Ed. rewrite E0 in Ed.
      assert (Hsplit : 2 ^ 32 = 2 ^ (32 - s) * 2 ^ s) by (rewrite <- Z.pow_add_r by lia; f_equal; lia).
      assert (uv_tail v / 2 ^ s < 2 ^ (32 - s)) by (apply Z.div_lt_upper_bound; lia).
      pose proof (Z.mul_le_mono_nonneg_r (uv_tail v / 2 ^ s + 1) (2 ^ (32 - s)) (2 ^ s) ltac:(lia) ltac:(lia)). lia. }
    unfold align. rewrite power_of_two_nonzero by lia.
    assert (E1 : u32 (uv_tail v + 2 ^ s) = uv_tail v + 2 ^ s - 2 ^ 32).
    { unfold u32, wrap. symmetry. apply Z.mod_unique_pos with 1; lia. }
    rewrite E1, (u32_small (uv_tail v + 2 ^ s - 2 ^ 32 - 1)) by lia. rewrite (u32_small (2 ^ s - 1)), not32_sub by lia.
    replace (2 ^ 32 - 1 - (2 ^ s - 1)) with (2 ^ 32 - 2 ^ s) by lia. rewrite land_high_mask by (lia || unfold fits; lia).
    rewrite (Z.div_small _ (2 ^ s)) by lia. cbn [mbind option_bind]. rewrite Z.mul_0_l.
    assert (0 < uv_tail v) by lia. destruct (Z.leb_spec (uv_tail v) 0); [lia|done].
Qed.

(** What a push needs: room, or a buffer that can grow, or a malloc that fails *)
Definition push_safe (mem : bool) (tail len size : Z) : bool := negb (len =? size) || negb mem || can_grow tail size.

Lemma push_ok v l mem bytes : vec_ok v l -> Z.of_nat (length bytes) = element_size v ->
  push_safe mem (uv_tail v) (Z.of_nat (length l)) (uv_size v) = true ->
  exists v' b, vec_step (Push mem bytes) v = Some (v', Pushed b) /\ element_size v' = element_size v /\ uv_tail v' = uv_tail v /\
    b = negb (Z.of_nat (length l) =? uv_size v) || mem /\
    uv_size v' = (if (Z.of_nat (length l) =? uv_size v) && mem then 2 * uv_size v else uv_size v) /\
    if b : bool then vec_ok v' (l ++ bytes) else v' = v.
Proof.
  intros Hv Hlen Hsafe. pose proof (vec_ok_bounds v l Hv) as (Hb & Hbe & Hbt & Hcap & Hd).
  cbn [vec_step]. unfold u_vector_add. rewrite Hd. unfold push_safe in Hsafe.
  destruct (Z.eqb_spec (Z.of_nat (length l)) (uv_size v)) as [Hfull|Hfree]; cbn [negb orb andb] in *.
  - destruct mem; [|exists v, false; done].
    destruct (grow_ok v l Hv Hfull Hsafe) as (v1 & -> & Hv1 & Ht1 & He1 & Hs1). cbn [mbind option_bind].
    destruct (vec_ok_bounds v1 l Hv1) as (_ & _ & _ & _ & ->). passert ltac:(lia). cbn [mbind option_bind].
    rewrite (vec_ok_land v1 l) by done.
    destruct (place_ok v1 l bytes Hv1) as (v2 & -> & Hv2 & Ht2 & Hs2 & He2); [lia|lia|]. exists v2, true. cbn [mbind option_bind]. split_and!; try done; congruence.
  - passert ltac:(lia). cbn [mbind option_bind]. rewrite (vec_ok_land v l) by done.
    destruct (place_ok v l bytes Hv) as (v2 & -> & Hv2 & Ht2 & Hs2 & He2); [lia|lia|]. exists v2, true. done.
Qed.

Lemma push_fails v l mem bytes : vec_ok v l -> push_safe mem (uv_tail v) (Z.of_nat (length l)) (uv_size v) = false ->
  vec_step (Push mem bytes) v = None.
Proof.
  intros Hv Hsafe. pose proof (vec_ok_bounds v l Hv) as (Hb & Hbe & Hbt & Hcap & Hd). unfold push_safe in Hsafe.
  apply orb_false_iff in Hsafe as [[Hf Hm]%orb_false_iff Hg]. apply negb_false_iff in Hf, Hm. apply Z.eqb_eq in Hf. subst mem.
  cbn [vec_step]. unfold u_vector_add. rewrite Hd, Hf, Z.eqb_refl, (grow_fails v l Hv Hf Hg). done.
Qed.

Lemma read_ok v off n bytes : Z.of_nat (length bytes) = n -> (forall i, 0 <= i < n -> load (uv_data v) (off + i) = bytes !! Z.to_nat i) -> read v off n = Some bytes.
Proof.
  intros Hlen Hb. unfold read. apply mapM_Some_2, Forall2_same_length_lookup_2; [rewrite length_seqZ; lia|].
  intros k x y Hx Hy. apply lookup_seqZ in Hx as [-> Hk]. rewrite Hb by lia. replace (Z.to_nat (0 + Z.of_nat k)) with k by lia. done.
Qed.

Lemma pop_ok v e l : vec_ok v (e ++ l) -> Z.of_nat (length e) = element_size v ->
  exists v', vec_step Pop v = Some (v', Popped (Some e)) /\ vec_ok v' l /\ element_size v' = element_size v /\ uv_size v' = uv_size v /\
    uv_tail v' = u32 (uv_tail v + element_size v).
Proof.
  intros Hv Hlen. pose proof (vec_ok_bounds v _ Hv) as (Hb & Hbe & Hbt & Hcap & Hd). pose proof (ve_head _ _ Hv) as [Hh Hlm].
  pose proof (vec_ok_empty _ _ Hv) as Hempty. rewrite length_app, Nat2Z.inj_add in *. cbn [vec_step]. unfold u_vector_remove.
  destruct (Z.eqb_spec (uv_head v) (uv_tail v)) as [Eq|_]; [apply Hempty in Eq; lia|]. rewrite Hd. passert ltac:(lia). cbn [mbind option_bind].
  rewrite (vec_ok_land v _ _ Hv). destruct (ve_size _ _ Hv) as (a & s & Hes & Hs & He & Hsz).
  assert (Hfit : uv_tail v mod uv_size v + element_size v <= uv_size v).
  { pose proof (Z.mod_pos_bound (uv_tail v) (uv_size v) ltac:(lia)). apply multiple_lt; [lia| |rewrite He, Hsz; by apply pow2_mod|lia].
    rewrite He, Hsz. apply mod_mod_pow2; [lia|]. rewrite <- He. apply (ve_tail _ _ Hv). }
  erewrite read_ok; [|exact Hlen|].
  - cbn [mbind option_bind]. eexists. split; [done|]. split; [|done]. destruct Hv as [_ [Ht Htm] _ _ Hdat Hbytes].
    set (t' := u32 (uv_tail v + element_size v)).
    assert (Hmod : forall k x, 0 <= k <= 32 -> (t' + x) mod 2 ^ k = (uv_tail v + element_size v + x) mod 2 ^ k)
      by (intros k x Hk; rewrite <- Zplus_mod_idemp_l; unfold t'; rewrite u32_mod_pow2, Zplus_mod_idemp_l by lia; done).
    split; cbn [uv_data uv_head uv_tail element_size uv_size].
    + by exists a, s.
    + split; [apply u32_fits|]. rewrite <- (Z.add_0_r t'), He, Hmod by lia. rewrite <- He, Z.add_0_r, Z.add_mod, Htm, Z.mod_same by lia. done.
    + split; [rewrite Hh; unfold t'; rewrite u32_add_u32; do 2 f_equal; lia|]. rewrite <- Hlm, Hlen. rewrite (Z.add_mod (element_size v)), Z.mod_same, Z.add_0_l, Z.mod_mod by lia. done.
    + lia.
    + done.
    + intros i Hi. rewrite Hsz, Hmod, <- Hsz by lia. replace (uv_tail v + element_size v + i) with (uv_tail v + (element_size v + i)) by lia.
      rewrite Hbytes by (rewrite length_app; lia). rewrite lookup_app_r by lia. f_equal. lia.
  - cbn [uv_data element_size]. intros i Hi. pose proof (ve_bytes _ _ Hv i ltac:(rewrite length_app; lia)) as E.
    rewrite lookup_app_l in E by lia. rewrite <- E. f_equal. pose proof (Z.mod_pos_bound (uv_tail v) (uv_size v) ltac:(lia)).
    rewrite mod_add_wrap by lia. destruct (decide _); lia.
Qed.

(** ** The contract: a queue *)

Inductive queue_step : list (list Z) -> vec_op -> vec_result -> list (list Z) -> Prop :=
| queue_push q mem e : queue_step q (Push mem e) (Pushed true) (q ++ [e])
| queue_full q e : queue_step q (Push false e) (Pushed false) q
| queue_pop q e : queue_step (e :: q) Pop (Popped (Some e)) q
| queue_empty : queue_step [] Pop (Popped None) [].

Fixpoint queue_run (q : list (list Z)) (ops : list vec_op) (results : list vec_result) (q' : list (list Z)) : Prop :=
  match ops, results with
  | [], [] => q' = q
  | op :: ops, r :: results => exists q1, queue_step q op r q1 /\ queue_run q1 ops results q'
  | _, _ => False
  end.

Fixpoint run_vec (ops : list vec_op) (v : u_vector) : option (u_vector * list vec_result) :=
  match ops with
  | [] => Some (v, [])
  | op :: ops => '(v, r) ← vec_step op v; '(v, rs) ← run_vec ops v; Some (v, r :: rs)
  end.

Definition sized (n : Z) (op : vec_op) : Prop := match op with Push _ e => Z.of_nat (length e) = n | Pop => True end.

(** Where the 32-bit indices do not break a move to a larger buffer, by the indices alone: [tail], the [len] bytes in use and the [size] of the buffer *)
Fixpoint vec_safe (n : Z) (ops : list vec_op) (tail len size : Z) : bool :=
  match ops with
  | [] => true
  | Push mem _ :: ops =>
      push_safe mem tail len size &&
      if negb (len =? size) then vec_safe n ops tail (len + n) size
      else if mem then vec_safe n ops tail (len + n) (2 * size) else vec_safe n ops tail len size
  | Pop :: ops => if len =? 0 then vec_safe n ops tail len size else vec_safe n ops (u32 (tail + n)) (len - n) size
  end.

Definition all_sized (n : Z) (q : list (list Z)) : Prop := forall e, e ∈ q -> Z.of_nat (length e) = n.

Lemma all_sized_snoc n q e : all_sized n q -> Z.of_nat (length e) = n -> all_sized n (q ++ [e]).
Proof. intros Hq He x [?| ->%list_elem_of_singleton]%elem_of_app; auto. Qed.

Lemma length_concat_sized n q : all_sized n q -> Z.of_nat (length (concat q)) = Z.of_nat (length q) * n.
Proof.
  induction q as [|x q IH]; intros Hq; [done|]. rewrite concat_cons, length_app, Nat2Z.inj_add, (Hq x) by left.
  rewrite IH by (intros y Hy; apply Hq; by right). cbn [length]. lia.
Qed.

Lemma pop_empty v : vec_ok v [] -> vec_step Pop v = Some (v, Popped None).
Proof.
  intros Hv. cbn [vec_step]. unfold u_vector_remove. destruct (Z.eqb_spec (uv_head v) (uv_tail v)) as [|Hne]; [done|].
  destruct Hne. by apply (vec_ok_empty _ _ Hv).
Qed.

(** The run succeeds exactly on the safe sequences. *)
Lemma run_vec_ok n ops : forall v q, Forall (sized n) ops -> element_size v = n -> all_sized n q -> vec_ok v (concat q) ->
  if vec_safe n ops (uv_tail v) (Z.of_nat (length (concat q))) (uv_size v)
  then exists v' rs q', run_vec ops v = Some (v', rs) /\ queue_run q ops rs q' /\ vec_ok v' (concat q') /\ element_size v' = n /\ all_sized n q'
  else run_vec ops v = None.
Proof.
  induction ops as [|op ops IH]; intros v q Hops Hn Hq Hv; cbn [run_vec vec_safe].
  { exists v, [], q. done. }
  apply Forall_cons_1 in Hops as [Hop Hops].
  assert (Hgo : forall v1 r q1, vec_step op v = Some (v1, r) -> queue_step q op r q1 -> vec_ok v1 (concat q1) -> element_size v1 = n -> all_sized n q1 ->
    if vec_safe n ops (uv_tail v1) (Z.of_nat (length (concat q1))) (uv_size v1)
    then exists v' rs q', ('(v, r) ← vec_step op v; '(v, rs) ← run_vec ops v; Some (v, r :: rs)) = Some (v', rs) /\ queue_run q (op :: ops) rs q' /\
      vec_ok v' (concat q') /\ element_size v' = n /\ all_sized n q'
    else ('(v, r) ← vec_step op v; '(v, rs) ← run_vec ops v; Some (v, r :: rs)) = None).
  { intros v1 r q1 -> Hstep Hv1 Hn1 Hq1. cbn [mbind option_bind]. pose proof (IH v1 q1 Hops Hn1 Hq1 Hv1) as Hrun. destruct (vec_safe _ _ _ _ _).
    - destruct Hrun as (v' & rs & q' & -> & Hr & Hrest). cbn [mbind option_bind]. exists v', (r :: rs), q'. split; [done|]. split; [by exists q1|done].
    - by rewrite Hrun. }
  destruct op as [mem e|]; cbn [sized] in Hop.
  - destruct (push_safe mem (uv_tail v) (Z.of_nat (length (concat q))) (uv_size v)) eqn:Hsafe; cbn [andb];
      [|by rewrite (push_fails v _ mem e Hv Hsafe)].
    destruct (push_ok v (concat q) mem e Hv ltac:(lia) Hsafe) as (v1 & b & E & He1 & Ht1 & Hb & Hs1 & Hv1).
    assert (Hpush : concat (q ++ [e]) = concat q ++ e) by (by rewrite concat_app, concat_cons, app_nil_r).
    assert (Hlen : Z.of_nat (length (concat (q ++ [e]))) = Z.of_nat (length (concat q)) + n) by (rewrite Hpush, length_app; lia).
    destruct b; [specialize (Hgo v1 (Pushed true) (q ++ [e]) E (queue_push q mem e)); rewrite Hpush in Hgo at 1;
      specialize (Hgo Hv1 ltac:(lia) (all_sized_snoc n q e Hq Hop)); rewrite Hlen, Ht1, Hs1 in Hgo|subst v1].
    + destruct (Z.of_nat (length (concat q)) =? uv_size v), mem; done.
    + destruct (Z.of_nat (length (concat q)) =? uv_size v), mem; try done. exact (Hgo v (Pushed false) q E (queue_full q e) Hv Hn Hq).
  - destruct q as [|e q]; [exact (Hgo v (Popped None) [] (pop_empty v Hv) queue_empty Hv Hn Hq)|].
    pose proof (vec_ok_bounds v _ Hv) as (_ & Hb & _). assert (He : Z.of_nat (length e) = n) by (apply Hq; left).
    assert (Hlen : Z.of_nat (length (concat (e :: q))) = n + Z.of_nat (length (concat q))) by (rewrite concat_cons, length_app; lia).
    destruct (pop_ok v e (concat q)) as (v1 & E & Hv1 & He1 & Hs1 & Ht1); [by rewrite concat_cons in Hv|lia|].
    destruct (Z.eqb_spec (Z.of_nat (length (concat (e :: q)))) 0) as [|_]; [lia|].
    specialize (Hgo v1 (Popped (Some e)) q E (queue_pop q e) Hv1 ltac:(lia) ltac:(intros x Hx; apply Hq; by right)).
    rewrite Ht1, Hs1, Hn in Hgo. rewrite Hlen. replace (n + Z.of_nat (length (concat q)) - n) with (Z.of_nat (length (concat q))) by lia. exact Hgo.
Qed.

(** While the head has not passed [2^31], every sequence is safe. *)
Lemma vec_safe_traffic n ops : forall tail k c, 0 < n -> 0 <= tail -> 0 <= k <= c -> 0 < c ->
  tail + n * (k + Z.of_nat (length ops)) <= 2 ^ 31 -> vec_safe n ops tail (n * k) (n * c) = true.
Proof.
  induction ops as [|op ops IH]; intros tail k c Hn Ht Hk Hc Hlim; cbn [vec_safe length] in *; [done|].
  assert (0 <= n * Z.of_nat (length ops)) by nia. assert (0 <= n * k) by nia. rewrite Nat2Z.inj_succ in Hlim.
  replace (n * k + n) with (n * (k + 1)) by lia. replace (n * k - n) with (n * (k - 1)) by lia.
  destruct op as [mem e|].
  - unfold push_safe, can_grow. replace (2 * (n * c)) with (n * (2 * c)) by lia.
    destruct (Z.eqb_spec (n * k) (n * c)) as [Eq|Hne]; cbn [negb orb andb].
    + destruct mem; cbn [negb orb andb]; [|apply IH; lia].
      destruct (Z.ltb_spec (n * c) (2 ^ 31)); [|lia]. destruct (Z.leb_spec (tail + n * c) (2 ^ 32)); [|lia]. apply IH; lia.
    + assert (k <> c) by congruence. apply IH; lia.
  - destruct (Z.eqb_spec (n * k) 0) as [|Hne]; [apply IH; lia|]. assert (k <> 0) by (intros ->; lia). assert (n <= n * k) by nia.
    rewrite u32_small by lia. apply IH; lia.
Qed.

(** Nor does it matter how often the indices wrap around if the buffer is never full when an element is added. *)
Fixpoint vec_never_full (ops : list vec_op) (k c : Z) : bool :=
  match ops with
  | [] => true
  | Push _ _ :: ops => (k <? c) && vec_never_full ops (k + 1) c
  | Pop :: ops => vec_never_full ops (if k =? 0 then 0 else k - 1) c
  end.

Lemma vec_safe_never_full n ops : forall tail k c, 0 < n -> vec_never_full ops k c = true -> vec_safe n ops tail (n * k) (n * c) = true.
Proof.
  induction ops as [|op ops IH]; intros tail k c Hn H; cbn [vec_safe vec_never_full] in *; [done|].
  replace (n * k + n) with (n * (k + 1)) by lia. replace (n * k - n) with (n * (k - 1)) by lia. destruct op as [mem e|].
  - apply andb_true_iff in H as [Hk%Z.ltb_lt H]. unfold push_safe. destruct (Z.eqb_spec (n * k) (n * c)) as [Eq%Z.mul_cancel_l|]; [lia|lia|]. by apply IH.
  - destruct (Z.eqb_spec k 0) as [->|Hk]; [rewrite Z.mul_0_r, Z.eqb_refl; rewrite <- (Z.mul_0_r n); by apply IH|].
    destruct (Z.eqb_spec (n * k) 0) as [[|]%Z.mul_eq_0|]; [lia|done|]. by apply IH.
Qed.

Lemma vec_init_ok c e : 0 <= c -> 0 <= e -> c + e <= 31 -> exists v, u_vector_init_pow2 true (2 ^ c) (2 ^ e) = Some (v, true) /\ vec_ok v [] /\
  element_size v = 2 ^ e /\ uv_size v = 2 ^ e * 2 ^ c /\ uv_tail v = 0.
Proof.
  intros Hc He Hce. pose proof (pow2_le (e + c) 31 ltac:(lia)). pose proof (pow2_pos (e + c) ltac:(lia)). pose proof (pow2_pos e ltac:(lia)).
  unfold u_vector_init_pow2. rewrite !power_of_two_nonzero by lia. rewrite <- Z.pow_add_r, u32_small by lia.
  eexists. split; [done|]. split; [|done]. split; cbn [uv_data uv_head uv_tail element_size uv_size length].
  - exists e, (e + c). repeat split; lia.
  - split; [lia|apply Z.mod_0_l; lia].
  - split; [done|apply Z.mod_0_l; lia].
  - lia.
  - unfold malloc. rewrite length_replicate. lia.
  - lia.
Qed.

(** C27: u_vector is a queue, and exactly how far its promise for indices that wrap around is kept.  A vector is made for 2^c elements of 2^e bytes (c + e <= 31).
    A sequence of additions and removals on which [vec_safe] is true succeeds: removals return the elements in the order
    of the additions, an addition fails only if malloc does, and then changes nothing, no byte is read that was not written,
    no assertion fails, and the length is that of the queue.  On all other sequences it does not: a full buffer that must
    grow while its bytes cross index 2^32, or past 2^31 bytes, fails an assertion of u_vector_add or copies out of bounds.
    [vec_safe] is true on every sequence of at most 2^31 bytes in total, and on sequences of any length, through any number
    of wraparounds, in which no addition finds the buffer full. *)
Theorem u_vector_refines c e ops : 0 <= c -> 0 <= e -> c + e <= 31 -> Forall (sized (2 ^ e)) ops ->
  exists v0, u_vector_init_pow2 true (2 ^ c) (2 ^ e) = Some (v0, true) /\
    (if vec_safe (2 ^ e) ops 0 0 (2 ^ e * 2 ^ c)
     then exists v rs q, run_vec ops v0 = Some (v, rs) /\ queue_run [] ops rs q /\ u_vector_length v = Z.of_nat (length q)
     else run_vec ops v0 = None) /\
    (2 ^ e * Z.of_nat (length ops) <= 2 ^ 31 \/ vec_never_full ops 0 (2 ^ c) = true -> vec_safe (2 ^ e) ops 0 0 (2 ^ e * 2 ^ c) = true).
Proof.
  intros Hc He Hce Hops. destruct (vec_init_ok c e Hc He Hce) as (v0 & E0 & Hv0 & Hn & Hs & Ht). exists v0. split; [done|].
  pose proof (pow2_pos e He). pose proof (pow2_pos c Hc). split.
  - pose proof (run_vec_ok (2 ^ e) ops v0 [] Hops Hn ltac:(by intros x ?%not_elem_of_nil) Hv0) as Hrun. rewrite Ht, Hs in Hrun.
    change (Z.of_nat (length (concat ([] : list (list Z))))) with 0 in Hrun. destruct (vec_safe _ _ _ _ _); [|done].
    destruct Hrun as (v & rs & q & Erun & Hrun & Hv & Hne & Hq). exists v, rs, q. split; [done|]. split; [done|].
    unfold u_vector_length. destruct (vec_ok_bounds v _ Hv) as (_ & _ & _ & _ & ->). by rewrite Hne, (length_concat_sized (2 ^ e)), Z.div_mul by (done || lia).
  - intros [Hlim|Hfull].
    + rewrite <- (vec_safe_traffic (2 ^ e) ops 0 0 (2 ^ c)) by lia. by rewrite Z.mul_0_r.
    + rewrite <- (vec_safe_never_full (2 ^ e) ops 0 0 (2 ^ c)) by done. by rewrite Z.mul_0_r.
Qed.

(** Elements of two bytes; the second buffer is full when its tail is in the middle. *)
Definition example_vec_ops : list vec_op :=
  [Push true [1; 2]; Push true [3; 4]; Pop; Push true [5; 6]; Push false [7; 8]; Push true [7; 8]; Pop; Pop; Pop; Pop].

Lemma u_vector_refines_witness : vec_safe 2 example_vec_ops 0 0 4 = true /\ exists v0, u_vector_init_pow2 true (2 ^ 1) (2 ^ 1) = Some (v0, true) /\
  exists v rs q, run_vec example_vec_ops v0 = Some (v, rs) /\ queue_run [] example_vec_ops rs q /\ u_vector_length v = Z.of_nat (length q).
Proof.
  split; [reflexivity|]. destruct (u_vector_refines 1 1 example_vec_ops) as (v0 & E & Hrun & _); [lia|lia|lia|repeat constructor|].
  exists v0. split; [exact E|exact Hrun].
Defined.

(** When [head] has wrapped around and [tail] has not, the assertion of [grow_vector] fails, and so does that of
    [u_vector_head], although the bytes would be copied to the right places. *)
Lemma u_vector_wraparound : let v := UVector 2 (2 ^ 32 - 2) 1 4 [Some 3; Some 4; Some 1; Some 2] in
  u32 (uv_head v - uv_tail v) = uv_size v /\ u_vector_add true v = None /\ u_vector_head v = None.
Proof. vm_compute. auto. Qed.
