(* ===== verification/RegSet.v ===== *)
(** * Register sets and classes (src/util/register_allocate.c, first half)

    The set of registers of a target with the conflicts between them, the register
    classes, and the quantities p and q of the Runeson/Nyström allocator that
    [ra_set_finalize] computes.  A bitset is the number whose binary digits are its
    bits, so that the word-wise loops over bitsets are the bitwise operations; an
    array of [conflicts] that was freed is [None].  Accesses out of bounds and failed
    assertions have no result.  The allocator itself is in RegAlloc.v. *)

From Stdlib Require Import ZArith Lia.
From stdpp Require Import base list numbers option sets.
From S2P Require Import Prelude.
Local Open Scope Z_scope.

(** ** State *)

Record ra_reg := RaReg {
  conflicts : option Z;
  conflict_list : list Z;
}.

Record ra_class := RaClass {
  c_regs : Z;
  contig_len : Z;
  c_p : Z;
  c_q : list Z;
}.

Record ra_regs := RaRegs {
  regs : list ra_reg;
  classes : list ra_class;
  round_robin : bool;
  uses_conflict_lists : bool;
}.

Definition reg_count (rs : ra_regs) : Z := Z.of_nat (length (regs rs)).

Definition set_regs (rs : ra_regs) (l : list ra_reg) : ra_regs :=
  RaRegs l (classes rs) (round_robin rs) (uses_conflict_lists rs).
Definition set_classes (rs : ra_regs) (l : list ra_class) : ra_regs :=
  RaRegs (regs rs) l (round_robin rs) (uses_conflict_lists rs).

(** [BITSET_FOREACH_SET(i, set, size)] *)
Definition bits_below (set size : Z) : list Z :=
  filter (fun i => Z.testbit set i = true) (seqZ 0 size).

(** The number of elements of a list a loop counts. *)
Fixpoint countb (f : Z -> bool) (l : list Z) : Z :=
  match l with
  | [] => 0
  | i :: l => (if f i then 1 else 0) + countb f l
  end.

(** ** Setting up registers *)

Definition ra_alloc_reg_set (count : Z) (need_conflict_lists : bool) : ra_regs :=
  RaRegs (map (fun i => RaReg (Some (Z.setbit 0 i)) (if need_conflict_lists then [i] else []))
            (seqZ 0 count)) [] false need_conflict_lists.

Definition ra_set_allocate_round_robin (rs : ra_regs) : ra_regs :=
  RaRegs (regs rs) (classes rs) true (uses_conflict_lists rs).

Definition ra_add_conflict_list (rs : ra_regs) (r1 r2 : Z) : option ra_regs :=
  reg1 ← regs rs !! Z.to_nat r1;
  let l := if uses_conflict_lists rs then conflict_list reg1 ++ [r2] else conflict_list reg1 in
  c ← conflicts reg1;
  assert! r2 <? reg_count rs ;;
  Some (set_regs rs (<[Z.to_nat r1 := RaReg (Some (Z.setbit c r2)) l]> (regs rs))).

Definition ra_add_reg_conflict (rs : ra_regs) (r1 r2 : Z) : option ra_regs :=
  reg1 ← regs rs !! Z.to_nat r1;
  c ← conflicts reg1;
  assert! r2 <? reg_count rs ;;
  if negb (Z.testbit c r2) then
    rs ← ra_add_conflict_list rs r1 r2;
    ra_add_conflict_list rs r2 r1
  else Some rs.

(** The loops over [base_reg]'s conflict list, which is read again in every round. *)
Fixpoint conflict_list_loop (fuel : nat) (rs : ra_regs) (base_reg : Z) (i : nat)
    (body : ra_regs -> Z -> option ra_regs) : option ra_regs :=
  match fuel with
  | O => None
  | S fuel =>
      base ← regs rs !! Z.to_nat base_reg;
      match conflict_list base !! i with
      | None => Some rs
      | Some conflict => rs ← body rs conflict; conflict_list_loop fuel rs base_reg (S i) body
      end
  end.

Definition ra_add_transitive_reg_conflict (rs : ra_regs) (base_reg reg : Z) : option ra_regs :=
  rs ← ra_add_reg_conflict rs reg base_reg;
  conflict_list_loop (S (length (regs rs))) rs base_reg 0
    (fun rs conflict => ra_add_reg_conflict rs reg conflict).

(** The body of the loop over a pair of half registers. *)
Definition pair_conflict (reg0 reg1 : Z) (rs : ra_regs) (conflict : Z) : option ra_regs :=
  rs ← (if negb (conflict =? reg1) then ra_add_reg_conflict rs reg0 conflict else Some rs);
  if negb (conflict =? reg0) then ra_add_reg_conflict rs reg1 conflict else Some rs.

Definition ra_add_transitive_reg_pair_conflict (rs : ra_regs) (base_reg reg0 reg1 : Z) : option ra_regs :=
  rs ← ra_add_reg_conflict rs reg0 base_reg;
  rs ← ra_add_reg_conflict rs reg1 base_reg;
  conflict_list_loop (S (length (regs rs))) rs base_reg 0 (pair_conflict reg0 reg1).

(** The loop of [ra_make_reg_conflicts_transitive]: [reg->conflicts] is read again for
    every [other]. *)
Fixpoint make_transitive_loop (rs : ra_regs) (r : Z) (l : list Z) : option ra_regs :=
  match l with
  | [] => Some rs
  | c :: l =>
      reg ← regs rs !! Z.to_nat r;
      rc ← conflicts reg;
      other ← regs rs !! Z.to_nat c;
      oc ← conflicts other;
      make_transitive_loop
        (set_regs rs (<[Z.to_nat c := RaReg (Some (Z.lor oc rc)) (conflict_list other)]> (regs rs))) r l
  end.
Definition ra_make_reg_conflicts_transitive (rs : ra_regs) (r : Z) : option ra_regs :=
  reg ← regs rs !! Z.to_nat r;
  rc ← conflicts reg;
  make_transitive_loop rs r (bits_below rc (reg_count rs)).

(** ** Classes *)

Definition ra_alloc_reg_class (rs : ra_regs) : Z * ra_regs :=
  (Z.of_nat (length (classes rs)), set_classes rs (classes rs ++ [RaClass 0 0 0 []])).

Definition ra_alloc_contig_reg_class (rs : ra_regs) (len : Z) : option (Z * ra_regs) :=
  assert! negb (len =? 0) ;;
  Some (Z.of_nat (length (classes rs)), set_classes rs (classes rs ++ [RaClass 0 len 0 []])).

Definition ra_get_class_from_index (rs : ra_regs) (class : Z) : option ra_class :=
  classes rs !! Z.to_nat class.

Definition ra_class_add_reg (rs : ra_regs) (class r : Z) : option ra_regs :=
  c ← ra_get_class_from_index rs class;
  assert! r <? reg_count rs ;;
  assert! u32 (r + contig_len c) <=? reg_count rs ;;
  let c := RaClass (Z.setbit (c_regs c) r) (contig_len c) (u32 (c_p c + 1)) (c_q c) in
  Some (set_classes rs (<[Z.to_nat class := c]> (classes rs))).

Definition ra_class_override_p (rs : ra_regs) (class p : Z) : option ra_regs :=
  c ← ra_get_class_from_index rs class;
  assert! p <=? c_p c ;;
  Some (set_classes rs (<[Z.to_nat class := RaClass (c_regs c) (contig_len c) p (c_q c)]> (classes rs))).

Definition reg_belongs_to_class (r : Z) (c : ra_class) : bool := Z.testbit (c_regs c) r.

(** ** The q values *)

(** The registers of B among the bases of allocations that overlap the one at [rc]. *)
Definition contig_conflicts (count : Z) (class_b class_c : ra_class) (rc : Z) : Z :=
  let start := MAX2 0 (rc - contig_len class_b + 1) in
  let last := MIN2 count (rc + contig_len class_c) in
  countb (fun i => Z.testbit (c_regs class_b) i) (seqZ start (last - start)).

Fixpoint contig_max (count : Z) (class_b class_c : ra_class) (max_possible : Z) (l : list Z)
    (max_conflicts : Z) : Z :=
  match l with
  | [] => max_conflicts
  | rc :: l =>
      let max_conflicts := MAX2 max_conflicts (contig_conflicts count class_b class_c rc) in
      if max_conflicts =? max_possible then max_conflicts
      else contig_max count class_b class_c max_possible l max_conflicts
  end.

Fixpoint list_max (rs : ra_regs) (class_b : ra_class) (l : list Z) (max_conflicts : Z) : option Z :=
  match l with
  | [] => Some max_conflicts
  | rc :: l =>
      reg ← regs rs !! Z.to_nat rc;
      list_max rs class_b l
        (MAX2 max_conflicts (countb (fun rb => reg_belongs_to_class rb class_b) (conflict_list reg)))
  end.

(** [classes[b]->q[c]] as the loops of [ra_set_finalize] compute it. *)
Definition class_q (rs : ra_regs) (class_b class_c : ra_class) : option Z :=
  if negb (contig_len class_b =? 0) && negb (contig_len class_c =? 0) then
    if (contig_len class_b =? 1) && (contig_len class_c =? 1) then
      Some (if negb (Z.land (c_regs class_b) (c_regs class_c) =? 0) then 1 else 0)
    else
      Some (contig_max (reg_count rs) class_b class_c (contig_len class_b + contig_len class_c - 1)
              (bits_below (c_regs class_c) (reg_count rs)) 0)
  else
    assert! (contig_len class_b =? 0) && (contig_len class_c =? 0) ;;
    list_max rs class_b (bits_below (c_regs class_c) (reg_count rs)) 0.

Definition class_qs (rs : ra_regs) (class_b : ra_class) : option ra_class :=
  qs ← mapM (class_q rs class_b) (classes rs);
  Some (RaClass (c_regs class_b) (contig_len class_b) (c_p class_b) qs).

(** The precomputed row [q_values[b]] of class [b]. *)
Definition given_qs (class_count : nat) (class_b : ra_class) (row : list Z) : option ra_class :=
  assert! Nat.leb class_count (length row) ;;
  Some (RaClass (c_regs class_b) (contig_len class_b) (c_p class_b) (take class_count row)).

Definition free_lists (rs : ra_regs) : ra_regs :=
  if uses_conflict_lists rs then set_regs rs (map (fun r => RaReg (conflicts r) []) (regs rs)) else rs.
Definition free_conflicts (rs : ra_regs) : ra_regs :=
  if forallb (fun c => negb (contig_len c =? 0)) (classes rs)
  then set_regs rs (map (fun r => RaReg None (conflict_list r)) (regs rs)) else rs.

Fixpoint given_all (class_count : nat) (l : list ra_class) (q_values : list (list Z))
    : option (list ra_class) :=
  match l with
  | [] => Some []
  | c :: l =>
      match q_values with
      | [] => None
      | row :: q_values =>
          c ← given_qs class_count c row;
          l ← given_all class_count l q_values;
          Some (c :: l)
      end
  end.

Definition ra_set_finalize (rs : ra_regs) (q_values : option (list (list Z))) : option ra_regs :=
  cs ← match q_values with
       | Some q_values => given_all (length (classes rs)) (classes rs) q_values
       | None => mapM (class_qs rs) (classes rs)
       end;
  Some (free_conflicts (free_lists (set_classes rs cs))).

(** ** Conflicts between allocations *)

Definition ra_class_allocations_conflict (rs : ra_regs) (c1 : ra_class) (r1 : Z) (c2 : ra_class) (r2 : Z)
    : option bool :=
  if negb (contig_len c1 =? 0) then
    assert! negb (contig_len c2 =? 0) ;;
    let r1_end := u32 (r1 + contig_len c1) in
    let r2_end := u32 (r2 + contig_len c2) in
    Some (negb ((r2 >=? r1_end) || (r1 >=? r2_end)))
  else
    reg1 ← regs rs !! Z.to_nat r1;
    c ← conflicts reg1;
    assert! r2 <? reg_count rs ;;
    Some (Z.testbit c r2).

(** * Counting *)

Lemma countb_range f l : 0 <= countb f l <= Z.of_nat (length l).
Proof. induction l as [|i l IH]; cbn [countb length]; [lia|]. destruct (f i); lia. Qed.

Lemma countb_app f l1 l2 : countb f (l1 ++ l2) = countb f l1 + countb f l2.
Proof. induction l1 as [|i l1 IH]; cbn [countb app]; [lia|]. rewrite IH. lia. Qed.

(** Counting what is found in another list counts no more. *)
Lemma countb_le f g l1 l2 :
  NoDup l1 -> (forall i, i ∈ l1 -> f i = true -> i ∈ l2 /\ g i = true) -> countb f l1 <= countb g l2.
Proof.
  intros Hnd. revert l2. induction Hnd as [|i l1 Hi Hnd IH]; intros l2 Hin; cbn [countb].
  { pose proof (countb_range g l2). lia. }
  destruct (f i) eqn:Ef.
  - destruct (Hin i ltac:(set_solver) Ef) as [Hi2 Hg]. apply list_elem_of_split in Hi2 as (a & b & ->).
    rewrite countb_app. cbn [countb]. rewrite Hg. specialize (IH (a ++ b)). rewrite countb_app in IH.
    enough (countb f l1 <= countb g a + countb g b) by lia. apply IH. intros j Hj Hfj.
    destruct (Hin j ltac:(set_solver) Hfj) as [Hj2 Hgj]. split; [|done].
    rewrite elem_of_app, elem_of_cons in Hj2. destruct Hj2 as [?|[->|?]]; set_solver.
  - specialize (IH l2). enough (countb f l1 <= countb g l2) by lia. apply IH. set_solver.
Qed.

Lemma countb_eq f g l1 l2 :
  NoDup l1 -> NoDup l2 ->
  (forall i, (i ∈ l1 /\ f i = true) <-> (i ∈ l2 /\ g i = true)) -> countb f l1 = countb g l2.
Proof.
  intros H1 H2 H. apply Z.le_antisymm; (apply countb_le; [done|]); intros i Hi Hf; apply H; done.
Qed.

Lemma countb_zero f l : (forall i, i ∈ l -> f i = false) -> countb f l = 0.
Proof. induction l as [|i l IH]; intros H; cbn [countb]; [done|]. rewrite H, IH by set_solver. done. Qed.

Lemma elem_bits_below set n i : i ∈ bits_below set n <-> Z.testbit set i = true /\ 0 <= i < n.
Proof. unfold bits_below. rewrite list_elem_of_filter, elem_of_seqZ. split; intros []; (split; [done|lia]). Qed.

Lemma NoDup_bits_below set n : NoDup (bits_below set n).
Proof. apply NoDup_filter, NoDup_seqZ. Qed.

(** * The invariant of a register set *)

(** Registers [a] and [b] conflict. *)
Definition conf (rs : ra_regs) (a b : Z) : Prop :=
  exists reg c, regs rs !! Z.to_nat a = Some reg /\ conflicts reg = Some c /\ 0 <= a /\ Z.testbit c b = true.

(** [uses_conflict_lists] keeps the same information twice. *)
Record reg_ok (rs : ra_regs) (r : Z) (reg : ra_reg) : Prop := {
  rg_conflicts : exists c, conflicts reg = Some c /\ Z.testbit c r = true
    /\ (forall b, Z.testbit c b = true -> 0 <= b < reg_count rs);
  rg_list : uses_conflict_lists rs = true -> NoDup (conflict_list reg)
    /\ forall b, b ∈ conflict_list reg <-> conf rs r b;
}.

Record regs_ok (rs : ra_regs) : Prop := {
  ro_count : reg_count rs < 2 ^ 31;
  ro_reg : forall r reg, 0 <= r -> regs rs !! Z.to_nat r = Some reg -> reg_ok rs r reg;
  ro_sym : forall a b, conf rs a b -> conf rs b a;
}.

Record class_ok (rs : ra_regs) (c : ra_class) : Prop := {
  co_regs : forall r, Z.testbit (c_regs c) r = true -> 0 <= r < reg_count rs /\ r + contig_len c <= reg_count rs;
  co_len : 0 <= contig_len c < 2 ^ 31;
  co_p : 0 <= c_p c <= countb (Z.testbit (c_regs c)) (seqZ 0 (reg_count rs));
}.

(** All classes are of the same kind. *)
Definition same_kind (rs : ra_regs) : Prop :=
  (forall c, c ∈ classes rs -> contig_len c <> 0)
  \/ ((forall c, c ∈ classes rs -> contig_len c = 0) /\ uses_conflict_lists rs = true).

Lemma lookup_reg rs r : 0 <= r < reg_count rs -> exists reg, regs rs !! Z.to_nat r = Some reg.
Proof. unfold reg_count. intros Hr. apply lookup_lt_is_Some_2. lia. Qed.

Lemma conf_range rs a b : regs_ok rs -> conf rs a b -> 0 <= a < reg_count rs /\ 0 <= b < reg_count rs.
Proof.
  intros Hok (reg & c & Hl & Hc & Ha & Hb). pose proof (lookup_lt_Some _ _ _ Hl).
  destruct (rg_conflicts _ _ _ (ro_reg _ Hok a reg Ha Hl)) as (c' & Hc' & _ & Hr). simplify_eq.
  unfold reg_count in *. split; [lia|]. by apply Hr.
Qed.

Lemma conf_refl rs r : regs_ok rs -> 0 <= r < reg_count rs -> conf rs r r.
Proof.
  intros Hok Hr. destruct (lookup_reg rs r Hr) as [reg Hl].
  destruct (rg_conflicts _ _ _ (ro_reg _ Hok r reg ltac:(lia) Hl)) as (c & Hc & Hb & _).
  exists reg, c. split_and!; try done. lia.
Qed.

(** ** Adding conflicts *)

Lemma alloc_reg_set_ok n need : 0 <= n < 2 ^ 31 -> regs_ok (ra_alloc_reg_set n need).
Proof.
  intros Hn. set (rs := ra_alloc_reg_set n need).
  assert (Hc : reg_count rs = n).
  { unfold reg_count, rs, ra_alloc_reg_set. cbn. rewrite length_map, length_seqZ. lia. }
  assert (Hl : forall r reg, 0 <= r -> regs rs !! Z.to_nat r = Some reg ->
    reg = RaReg (Some (Z.setbit 0 r)) (if need then [r] else []) /\ r < n).
  { intros r reg Hr E. unfold rs, ra_alloc_reg_set in E. cbn in E.
    apply list_lookup_fmap_Some in E as (i & -> & Hi). apply lookup_seqZ in Hi as [-> Hi].
    replace (0 + Z.of_nat (Z.to_nat r)) with r by lia. split; [done|lia]. }
  assert (Hbit : forall r b, 0 <= r -> Z.testbit (Z.setbit 0 r) b = true <-> b = r).
  { intros r b Hr. rewrite Z.setbit_iff by lia. rewrite Z.bits_0. intuition lia. }
  assert (Hconf : forall a b, conf rs a b <-> a = b /\ 0 <= a < n).
  { intros a b. split.
    - intros (reg & c & E & Ec & Ha & Hb). destruct (Hl a reg Ha E) as [-> Hlt]. cbn in Ec. injection Ec as <-.
      apply Hbit in Hb; [|done]. lia.
    - intros [<- Ha]. destruct (lookup_reg rs a ltac:(lia)) as [reg E]. exists reg.
      destruct (Hl a reg ltac:(lia) E) as [-> _]. eexists. split_and!; try done; [lia|].
      apply Hbit; [lia|done]. }
  constructor.
  - lia.
  - intros r reg Hr E. destruct (Hl r reg Hr E) as [-> Hlt]. constructor.
    + eexists. split; [done|]. split; [by apply Hbit|]. intros b Hb. apply Hbit in Hb; [|done]. lia.
    + cbn. intros Hneed. unfold rs, ra_alloc_reg_set in Hneed. cbn in Hneed. rewrite Hneed.
      split; [apply NoDup_singleton|]. intros b. rewrite list_elem_of_singleton, Hconf. intuition lia.
  - intros a b Hab. apply Hconf in Hab as [-> ?]. apply Hconf. done.
Qed.

Lemma set_regs_lookup rs r x i :
  regs (set_regs rs (<[Z.to_nat r := x]> (regs rs))) !! Z.to_nat i
  = if decide (Z.to_nat r = Z.to_nat i /\ (Z.to_nat r < length (regs rs))%nat) then Some x else regs rs !! Z.to_nat i.
Proof.
  cbn. destruct (decide _) as [[E Hl]|Hn].
  - rewrite <- E. by apply list_lookup_insert_eq.
  - destruct (decide (Z.to_nat r = Z.to_nat i)) as [E|E]; [|by apply list_lookup_insert_ne].
    rewrite list_insert_ge by (apply not_lt; intros ?; by destruct Hn). done.
Qed.

(** The first half of adding a conflict. *)
Lemma add_conflict_list_spec rs a b :
  0 <= a < reg_count rs -> 0 <= b < reg_count rs ->
  (forall reg, regs rs !! Z.to_nat a = Some reg -> conflicts reg <> None) ->
  exists rs', ra_add_conflict_list rs a b = Some rs' /\ classes rs' = classes rs
    /\ reg_count rs' = reg_count rs /\ uses_conflict_lists rs' = uses_conflict_lists rs
    /\ (forall i, 0 <= i -> i <> a -> regs rs' !! Z.to_nat i = regs rs !! Z.to_nat i)
    /\ (exists reg c, regs rs !! Z.to_nat a = Some reg /\ conflicts reg = Some c
         /\ regs rs' !! Z.to_nat a = Some (RaReg (Some (Z.setbit c b))
              (if uses_conflict_lists rs then conflict_list reg ++ [b] else conflict_list reg))).
Proof.
  intros Ha Hb Hc. destruct (lookup_reg rs a Ha) as [reg E]. specialize (Hc reg E).
  destruct (conflicts reg) as [c|] eqn:Ec; [|done]. unfold ra_add_conflict_list. rewrite E.
  cbn [mbind option_bind]. rewrite Ec. cbn [mbind option_bind]. destruct (Z.ltb_spec b (reg_count rs)); [|lia].
  eexists. split; [done|]. split_and!; try done.
  - unfold reg_count. cbn. by rewrite length_insert.
  - intros i Hi Hne. cbn. apply list_lookup_insert_ne. lia.
  - exists reg, c. split_and!; try done. cbn. apply list_lookup_insert_eq. unfold reg_count in Ha. lia.
Qed.

(** The register [a] after [b] was added to its conflicts. *)
Definition with_conflict (rs : ra_regs) (b : Z) (reg : ra_reg) (c : Z) : ra_reg :=
  RaReg (Some (Z.setbit c b))
    (if uses_conflict_lists rs then conflict_list reg ++ [b] else conflict_list reg).

(** Both halves of adding a conflict. *)
Record pair_added (rs : ra_regs) (a b : Z) (rs' : ra_regs) : Prop := {
  pa_classes : classes rs' = classes rs;
  pa_count : reg_count rs' = reg_count rs;
  pa_lists : uses_conflict_lists rs' = uses_conflict_lists rs;
  pa_first : exists reg c, regs rs !! Z.to_nat a = Some reg /\ conflicts reg = Some c
    /\ regs rs' !! Z.to_nat a = Some (with_conflict rs b reg c);
  pa_second : exists reg c, regs rs !! Z.to_nat b = Some reg /\ conflicts reg = Some c
    /\ regs rs' !! Z.to_nat b = Some (with_conflict rs a reg c);
  pa_other : forall i, 0 <= i -> i <> a -> i <> b -> regs rs' !! Z.to_nat i = regs rs !! Z.to_nat i;
}.

Lemma conf_with_conflict rs rs' a b reg c y :
  0 <= a -> 0 <= b -> regs rs !! Z.to_nat a = Some reg -> conflicts reg = Some c ->
  regs rs' !! Z.to_nat a = Some (with_conflict rs b reg c) ->
  conf rs' a y <-> conf rs a y \/ y = b.
Proof.
  intros Ha Hb E Ec E'. unfold conf. rewrite E, E'. split.
  - intros (? & ? & [= <-] & [= <-] & _ & Hy). apply Z.setbit_iff in Hy as [->|Hy]; [auto| |lia]. left. eauto 7.
  - intros H. eexists _, _. split; [done|]. split; [done|]. split; [lia|]. apply Z.setbit_iff; [lia|].
    destruct H as [(? & ? & [= <-] & Hc & _ & Hy)| ->]; [|auto]. right. congruence.
Qed.

Lemma pair_added_conf rs a b rs' x y :
  0 <= a -> 0 <= b -> a <> b -> pair_added rs a b rs' ->
  conf rs' x y <-> conf rs x y \/ (x = a /\ y = b) \/ (x = b /\ y = a).
Proof.
  intros Ha Hb Hne [_ _ _ Hf Hs Ho].
  destruct Hf as (ra & ca & Ea & Eca & A), Hs as (rb & cb & Eb & Ecb & B).
  destruct (Z.eq_dec x a) as [->|]; [|destruct (Z.eq_dec x b) as [->|]].
  - rewrite (conf_with_conflict rs rs' a b ra ca) by done. intuition lia.
  - rewrite (conf_with_conflict rs rs' b a rb cb) by done. intuition lia.
  - destruct (Z_le_gt_dec 0 x) as [Hx|Hx].
    + unfold conf. rewrite Ho by lia. intuition lia.
    + split; [intros (? & ? & _ & _ & ? & _)|intros [(? & ? & _ & _ & ? & _)|?]]; lia.
Qed.

Lemma with_conflict_ok rs rs' a b reg c :
  reg_ok rs a reg -> conflicts reg = Some c -> 0 <= a -> 0 <= b < reg_count rs -> ~ conf rs a b ->
  reg_count rs' = reg_count rs -> uses_conflict_lists rs' = uses_conflict_lists rs ->
  (forall z, conf rs' a z <-> conf rs a z \/ z = b) ->
  reg_ok rs' a (with_conflict rs b reg c).
Proof.
  intros [(c0 & Hc0 & Hrr & Hrng) Hl] Hc Ha Hb Hno Hn Hu Hz. simplify_eq. constructor.
  - eexists. split; [done|]. split; [apply Z.setbit_iff; [lia|auto]|].
    intros b0 Hb0. rewrite Hn. apply Z.setbit_iff in Hb0 as [->|Hb0]; [lia|by apply Hrng|lia].
  - rewrite Hu. cbn. intros Hlists. rewrite Hlists. destruct (Hl Hlists) as [Hnd Hel]. split.
    + apply NoDup_app. split_and!; [done| |apply NoDup_singleton].
      intros i Hi ->%list_elem_of_singleton. by apply Hno, Hel.
    + intros z. rewrite elem_of_app, list_elem_of_singleton, Hz, Hel. done.
Qed.

Lemma pair_added_ok rs a b rs' :
  regs_ok rs -> 0 <= a < reg_count rs -> 0 <= b < reg_count rs -> ~ conf rs a b ->
  pair_added rs a b rs' -> regs_ok rs'.
Proof.
  intros Hok Ha Hb Hno Hp.
  assert (Hne : a <> b) by (intros ->; by apply Hno, conf_refl).
  assert (Hconf' : forall x y, conf rs' x y <-> conf rs x y \/ (x = a /\ y = b) \/ (x = b /\ y = a))
    by (intros; apply pair_added_conf; done || lia).
  destruct Hp as [_ Hn Hu Hf Hs Ho].
  destruct Hf as (ra & ca & Ea & Eca & A), Hs as (rb & cb & Eb & Ecb & B). constructor.
  - rewrite Hn. apply Hok.
  - intros r x Hr Hx. destruct (Z.eq_dec r a) as [->|]; [|destruct (Z.eq_dec r b) as [->|]].
    + rewrite A in Hx. injection Hx as <-. apply (with_conflict_ok rs rs' a b); try done.
      * by apply (ro_reg _ Hok).
      * intros z. rewrite Hconf'. intuition lia.
    + rewrite B in Hx. injection Hx as <-. apply (with_conflict_ok rs rs' b a); try done.
      * by apply (ro_reg _ Hok).
      * intros Hba. by apply Hno, (ro_sym _ Hok).
      * intros z. rewrite Hconf'. intuition lia.
    + rewrite Ho in Hx by lia. destruct (ro_reg _ Hok r x Hr Hx) as [(cx & Hcx & H1 & H2) Hlx]. constructor.
      * exists cx. by rewrite Hn.
      * rewrite Hu. intros Hlists. destruct (Hlx Hlists) as [Hnd Hel]. split; [done|]. intros z.
        rewrite Hel, Hconf'. intuition lia.
  - intros x y Hxy. apply Hconf'. apply Hconf' in Hxy as [?|?]; [left; by apply (ro_sym _ Hok)|right; tauto].
Qed.

Lemma add_both_spec rs a b :
  regs_ok rs -> 0 <= a < reg_count rs -> 0 <= b < reg_count rs -> a <> b ->
  exists rs', (rs ← ra_add_conflict_list rs a b; ra_add_conflict_list rs b a) = Some rs' /\ pair_added rs a b rs'.
Proof.
  intros Hok Ha Hb Hne.
  assert (Hnn : forall r x, 0 <= r -> regs rs !! Z.to_nat r = Some x -> conflicts x <> None).
  { intros r x Hr Hx. destruct (rg_conflicts _ _ _ (ro_reg _ Hok r x Hr Hx)) as (? & -> & _). done. }
  destruct (add_conflict_list_spec rs a b Ha Hb) as (rs1 & -> & C1 & N1 & U1 & O1 & (ra & ca & Ea & Eca & A1));
    [intros x; apply Hnn; lia|]. cbn [mbind option_bind].
  destruct (add_conflict_list_spec rs1 b a) as (rs2 & -> & C2 & N2 & U2 & O2 & (rb & cb & Eb & Ecb & B2));
    [lia|lia|intros x Hx; rewrite O1 in Hx by lia; apply (Hnn b); [lia|done]|].
  rewrite O1 in Eb by lia. rewrite U1 in *. exists rs2. split; [done|]. constructor; try congruence.
  - exists ra, ca. rewrite O2 by lia. done.
  - exists rb, cb. done.
  - intros i Hi Hia Hib. rewrite O2, O1 by lia. done.
Qed.

Lemma add_reg_conflict_spec rs a b :
  regs_ok rs -> 0 <= a < reg_count rs -> 0 <= b < reg_count rs ->
  exists rs', ra_add_reg_conflict rs a b = Some rs' /\ regs_ok rs' /\ classes rs' = classes rs
    /\ reg_count rs' = reg_count rs /\ uses_conflict_lists rs' = uses_conflict_lists rs
    /\ (forall x y, conf rs' x y <-> conf rs x y \/ (x = a /\ y = b) \/ (x = b /\ y = a))
    /\ (forall i, 0 <= i -> (i <> a /\ i <> b) \/ conf rs a b -> regs rs' !! Z.to_nat i = regs rs !! Z.to_nat i).
Proof.
  intros Hok Ha Hb. destruct (lookup_reg rs a Ha) as [reg E].
  destruct (rg_conflicts _ _ _ (ro_reg _ Hok a reg ltac:(lia) E)) as (c & Ec & Hrefl & Hrange).
  unfold ra_add_reg_conflict. rewrite E. cbn [mbind option_bind]. rewrite Ec. cbn [mbind option_bind].
  destruct (Z.ltb_spec b (reg_count rs)); [|lia]. destruct (Z.testbit c b) eqn:Eb; cbn [negb].
  - assert (Hab : conf rs a b) by (exists reg, c; split_and!; done || lia).
    exists rs. split_and!; try done. intros x y. split; [tauto|].
    intros [?|[[-> ->]|[-> ->]]]; [done|done|by apply (ro_sym _ Hok)].
  - assert (Hno : ~ conf rs a b) by (intros (? & ? & ? & ? & _ & ?); simplify_eq; congruence).
    destruct (add_both_spec rs a b Hok Ha Hb) as (rs' & -> & Hp); [congruence|].
    exists rs'. split; [done|]. split; [by apply (pair_added_ok rs a b)|]. split_and!; try apply Hp.
    + intros x y. apply pair_added_conf; [lia|lia|congruence|done].
    + intros i Hi [[? ?]|?]; [by apply Hp|done].
Qed.

(** The loops over a conflict list that stays the same. *)
Lemma conflict_list_loop_spec (Inv : nat -> ra_regs -> Prop) base L body fuel rs i :
  (forall i rs, Inv i rs -> exists reg, regs rs !! Z.to_nat base = Some reg /\ conflict_list reg = L) ->
  (forall i rs x, Inv i rs -> L !! i = Some x -> exists rs', body rs x = Some rs' /\ Inv (S i) rs') ->
  Inv i rs -> (i <= length L)%nat -> (length L - i < fuel)%nat ->
  exists rs', conflict_list_loop fuel rs base i body = Some rs' /\ Inv (length L) rs'.
Proof.
  intros Hlist Hstep. revert rs i. induction fuel as [|fuel IH]; intros rs i Hinv Hi Hf; [lia|].
  cbn [conflict_list_loop]. destruct (Hlist i rs Hinv) as (reg & -> & HL). cbn [mbind option_bind].
  rewrite HL.
  destruct (L !! i) as [x|] eqn:E.
  - destruct (Hstep i rs x Hinv E) as (rs' & -> & Hinv'). cbn [mbind option_bind].
    apply lookup_lt_Some in E. apply IH; [done|lia|lia].
  - apply lookup_ge_None in E. exists rs. split; [done|]. by replace (length L) with i by lia.
Qed.

(** What the operations below keep, and the conflicts they add. *)
Record grown (rs : ra_regs) (new : Z -> Z -> Prop) (rs' : ra_regs) : Prop := {
  gr_ok : regs_ok rs';
  gr_classes : classes rs' = classes rs;
  gr_count : reg_count rs' = reg_count rs;
  gr_lists : uses_conflict_lists rs' = uses_conflict_lists rs;
  gr_conf : forall x y, conf rs' x y <-> conf rs x y \/ new x y \/ new y x;
}.

Lemma grown_refl rs : regs_ok rs -> grown rs (fun _ _ => False) rs.
Proof. intros Hok. constructor; try done. intros x y. tauto. Qed.

(** Adding one more conflict, with register [base] left alone if it is not concerned
    or the conflict known. *)
Lemma grown_add rs new rs1 a b base :
  grown rs new rs1 -> 0 <= a < reg_count rs -> 0 <= b < reg_count rs -> 0 <= base ->
  (base = a \/ base = b -> conf rs1 a b) ->
  exists rs', ra_add_reg_conflict rs1 a b = Some rs'
    /\ grown rs (fun x y => new x y \/ (x = a /\ y = b)) rs'
    /\ regs rs' !! Z.to_nat base = regs rs1 !! Z.to_nat base.
Proof.
  intros [Hok Hc Hn Hu Hconf] Ha Hb Hbase Hk.
  destruct (add_reg_conflict_spec rs1 a b Hok) as (rs' & E & H1 & H2 & H3 & H4 & H5 & H6); [lia|lia|].
  exists rs'. split; [done|]. split; [constructor; try congruence|].
  - intros x y. rewrite H5, Hconf. tauto.
  - apply H6; [done|]. destruct (Z.eq_dec base a); [auto|]. destruct (Z.eq_dec base b); [auto|]. left. lia.
Qed.

(** The conflict list of a register, as a list of registers. *)
Lemma conflict_list_of rs base :
  regs_ok rs -> uses_conflict_lists rs = true -> 0 <= base < reg_count rs ->
  exists reg L, regs rs !! Z.to_nat base = Some reg /\ conflict_list reg = L
    /\ (forall y, y ∈ L <-> conf rs base y) /\ (length L <= length (regs rs))%nat.
Proof.
  intros Hok Hu Hb. destruct (lookup_reg rs base Hb) as [reg E]. exists reg, (conflict_list reg).
  destruct (rg_list _ _ _ (ro_reg _ Hok base reg ltac:(lia) E) Hu) as [Hnd Hel]. split_and!; try done.
  assert (Hsub : conflict_list reg ⊆+ seqZ 0 (reg_count rs)).
  { apply NoDup_submseteq; [done|]. intros y Hy. apply Hel, (conf_range rs) in Hy; [|done].
    apply elem_of_seqZ. lia. }
  apply submseteq_length in Hsub. rewrite length_seqZ in Hsub. unfold reg_count in Hsub. lia.
Qed.

Lemma transitive_spec rs base reg :
  regs_ok rs -> uses_conflict_lists rs = true -> 0 <= base < reg_count rs -> 0 <= reg < reg_count rs ->
  exists rs', ra_add_transitive_reg_conflict rs base reg = Some rs'
    /\ grown rs (fun x y => x = reg /\ (y = base \/ conf rs base y)) rs'.
Proof.
  intros Hok Hu Hbase Hreg. unfold ra_add_transitive_reg_conflict.
  destruct (add_reg_conflict_spec rs reg base Hok Hreg Hbase) as (rs1 & -> & Hok1 & C1 & N1 & U1 & F1 & _).
  cbn [mbind option_bind].
  destruct (conflict_list_of rs1 base Hok1) as (breg & L & El & HL & Hel & Hlen); [congruence|lia|].
  pose (Inv := fun i rs' => regs rs' !! Z.to_nat base = Some breg
    /\ grown rs1 (fun x y => x = reg /\ y ∈ take i L) rs').
  destruct (conflict_list_loop_spec Inv base L (fun rs conflict => ra_add_reg_conflict rs reg conflict)
    (S (length (regs rs1))) rs1 0) as (rs' & E & _ & Hg).
  - intros i rs' [Hb _]. eauto.
  - intros i rs2 x [Hb Hg] Hx. assert (Hxc : conf rs1 base x) by (apply Hel; by eapply list_elem_of_lookup_2).
    pose proof (conf_range rs1 base x Hok1 Hxc) as Hxr.
    destruct (grown_add rs1 _ rs2 reg x base Hg) as (rs' & E & Hg' & Hb'); [lia|lia|lia| |].
    { assert (conf rs1 reg base) by (apply F1; auto).
      intros [->| ->]; apply (gr_conf _ _ _ Hg); left; done. }
    exists rs'. split; [done|]. split; [congruence|]. destruct Hg' as [G1 G2 G3 G4 G5]. constructor; try done.
    intros y z. rewrite G5, (take_S_r _ _ x) by done. rewrite !elem_of_app, !list_elem_of_singleton. tauto.
  - split; [done|]. destruct (grown_refl rs1 Hok1) as [G1 G2 G3 G4 G5]. constructor; try done.
    intros x y. rewrite take_0. set_solver.
  - lia.
  - lia.
  - exists rs'. split; [done|]. destruct Hg as [G1 G2 G3 G4 G5]. rewrite firstn_all in G5.
    constructor; try congruence. intros x y. rewrite G5, !Hel, !F1.
    pose proof (conf_refl rs reg Hok Hreg). intuition (subst; auto).
Qed.

Lemma grown_weaken rs new new' rs' :
  grown rs new rs' -> (forall x y, new x y \/ new y x <-> new' x y \/ new' y x) -> grown rs new' rs'.
Proof. intros [G1 G2 G3 G4 G5] H. constructor; try done. intros x y. rewrite G5, H. done. Qed.

(** A guarded addition, as in the loop over a pair of half registers. *)
Lemma grown_add_if rs new rs1 (guard : bool) a b base :
  grown rs new rs1 -> 0 <= a < reg_count rs -> 0 <= b < reg_count rs -> 0 <= base ->
  (base = a \/ base = b -> conf rs1 a b) ->
  exists rs', (if guard then ra_add_reg_conflict rs1 a b else Some rs1) = Some rs'
    /\ grown rs (fun x y => new x y \/ (guard = true /\ x = a /\ y = b)) rs'
    /\ regs rs' !! Z.to_nat base = regs rs1 !! Z.to_nat base.
Proof.
  intros Hg Ha Hb Hbase Hk. destruct guard.
  - destruct (grown_add rs new rs1 a b base Hg Ha Hb Hbase Hk) as (rs' & E & Hg' & Hr). exists rs'.
    split_and!; try done. apply (grown_weaken _ _ _ _ Hg'). intros x y. tauto.
  - exists rs1. split_and!; try done. apply (grown_weaken _ _ _ _ Hg). intros x y. intuition congruence.
Qed.

(** The conflicts [ra_add_transitive_reg_pair_conflict] adds to a half register, the
    other one excepted. *)
Definition half_new (rs : ra_regs) (base reg other : Z) (x y : Z) : Prop :=
  x = reg /\ (y = base \/ (y <> other /\ conf rs base y)).

(** The conflicts added for one element of the list. *)
Definition pair_new (reg0 reg1 e : Z) (x y : Z) : Prop :=
  (e <> reg1 /\ x = reg0 /\ y = e) \/ (e <> reg0 /\ x = reg1 /\ y = e).

Lemma pair_conflict_spec rs1 new rs2 base reg0 reg1 e :
  regs_ok rs1 -> grown rs1 new rs2 -> conf rs1 reg0 base -> conf rs1 reg1 base -> conf rs1 base e ->
  exists rs', pair_conflict reg0 reg1 rs2 e = Some rs'
    /\ grown rs1 (fun x y => new x y \/ pair_new reg0 reg1 e x y) rs'
    /\ regs rs' !! Z.to_nat base = regs rs2 !! Z.to_nat base.
Proof.
  intros Hok Hg B0 B1 Be. unfold pair_conflict.
  destruct (conf_range _ _ _ Hok B0). destruct (conf_range _ _ _ Hok B1). destruct (conf_range _ _ _ Hok Be).
  destruct (grown_add_if rs1 _ rs2 (negb (e =? reg1)) reg0 e base Hg) as (rsb & -> & Gb & Rb); [lia|lia|lia| |].
  { intros [->| ->]; apply (gr_conf _ _ _ Hg); left; done. }
  cbn [mbind option_bind].
  destruct (grown_add_if rs1 _ rsb (negb (e =? reg0)) reg1 e base Gb) as (rsc & -> & Gc & Rc); [lia|lia|lia| |].
  { intros [->| ->]; apply (gr_conf _ _ _ Gb); left; done. }
  exists rsc. split; [done|]. split; [|congruence]. apply (grown_weaken _ _ _ _ Gc). intros x y.
  unfold pair_new. rewrite !negb_true_iff, !Z.eqb_neq. tauto.
Qed.

Lemma pair_spec rs base reg0 reg1 :
  regs_ok rs -> uses_conflict_lists rs = true ->
  0 <= base < reg_count rs -> 0 <= reg0 < reg_count rs -> 0 <= reg1 < reg_count rs ->
  exists rs', ra_add_transitive_reg_pair_conflict rs base reg0 reg1 = Some rs'
    /\ grown rs (fun x y => half_new rs base reg0 reg1 x y \/ half_new rs base reg1 reg0 x y) rs'.
Proof.
  intros Hok Hu Hbase H0 H1. unfold ra_add_transitive_reg_pair_conflict.
  destruct (grown_add rs _ rs reg0 base (reg_count rs) (grown_refl rs Hok) H0 Hbase) as (rsa & -> & Ga & _);
    [lia|lia|]. cbn [mbind option_bind].
  destruct (grown_add rs _ rsa reg1 base (reg_count rs) Ga H1 Hbase) as (rs1 & -> & G1 & _); [lia|lia|].
  cbn [mbind option_bind]. pose proof (gr_conf _ _ _ G1) as F1. cbn beta in F1.
  pose proof (gr_ok _ _ _ G1) as Hok1.
  pose proof (gr_count _ _ _ G1) as N1.
  destruct (conflict_list_of rs1 base Hok1) as (breg & L & El & HL & Hel & Hlen);
    [rewrite (gr_lists _ _ _ G1); done|lia|].
  assert (B0 : conf rs1 reg0 base) by (apply F1; tauto). assert (B1 : conf rs1 reg1 base) by (apply F1; tauto).
  pose (new i x y := exists e, e ∈ take i L /\ pair_new reg0 reg1 e x y).
  pose (Inv := fun i rs' => regs rs' !! Z.to_nat base = Some breg /\ grown rs1 (new i) rs').
  destruct (conflict_list_loop_spec Inv base L (pair_conflict reg0 reg1) (S (length (regs rs1))) rs1 0)
    as (rs' & E & _ & Hg).
  - intros i rs' [Hb _]. eauto.
  - intros i rs2 e [Hb Hg] He. assert (Hec : conf rs1 base e) by (apply Hel; by eapply list_elem_of_lookup_2).
    destruct (pair_conflict_spec rs1 _ rs2 base reg0 reg1 e Hok1 Hg B0 B1 Hec) as (rs3 & -> & G3 & R3).
    exists rs3. split; [done|]. split; [congruence|]. apply (grown_weaken _ _ _ _ G3). intros y z.
    unfold new. rewrite (take_S_r _ _ e) by done. set_solver.
  - split; [done|]. apply (grown_weaken _ _ _ _ (grown_refl rs1 Hok1)). intros x y. unfold new. rewrite take_0. set_solver.
  - lia.
  - lia.
  - exists rs'. split; [done|]. destruct Hg as [K1 K2 K3 K4 K5]. unfold new in K5. rewrite firstn_all in K5.
    constructor; [done|rewrite K2; apply G1|rewrite K3; apply G1|rewrite K4; apply G1|].
    intros x y. rewrite K5. setoid_rewrite Hel. setoid_rewrite F1. unfold half_new, pair_new.
    pose proof (conf_refl rs reg0 Hok H0). pose proof (conf_refl rs reg1 Hok H1). split.
    + intros [?|[(e & ? & ?)|(e & ? & ?)]]; intuition (subst; auto).
    + assert (Hh : forall x y, (x = reg0 /\ (y = base \/ (y <> reg1 /\ conf rs base y)))
        \/ (x = reg1 /\ (y = base \/ (y <> reg0 /\ conf rs base y))) ->
        (x = reg0 /\ y = base) \/ (x = reg1 /\ y = base)
        \/ (conf rs base y /\ ((y <> reg1 /\ x = reg0 /\ y = y) \/ (y <> reg0 /\ x = reg1 /\ y = y)))) by tauto.
      intros [?|[Hn|Hn]]; [tauto| |]; apply Hh in Hn as [?|[?|[? ?]]]; try tauto; right; [left|right];
        eexists; (split; [left; eassumption|tauto]).
Qed.

(** The state of [ra_make_reg_conflicts_transitive] after the registers [done]. *)
Record making (rs : ra_regs) (r : Z) (P : list Z) (rs' : ra_regs) : Prop := {
  mk_classes : classes rs' = classes rs;
  mk_count : reg_count rs' = reg_count rs;
  mk_lists : uses_conflict_lists rs' = uses_conflict_lists rs;
  mk_some : forall i reg, 0 <= i -> regs rs' !! Z.to_nat i = Some reg -> conflicts reg <> None;
  mk_conf : forall x y, conf rs' x y <-> conf rs x y \/ (x ∈ P /\ conf rs r y);
}.

Lemma conf_lookup rs a reg c b :
  0 <= a -> regs rs !! Z.to_nat a = Some reg -> conflicts reg = Some c -> conf rs a b <-> Z.testbit c b = true.
Proof.
  intros Ha E Ec. split; [|intros Hb; by exists reg, c]. intros (? & ? & ? & ? & _ & ?). congruence.
Qed.

Lemma making_step rs r P rs1 c reg rc other oc :
  making rs r P rs1 -> 0 <= r -> 0 <= c ->
  regs rs1 !! Z.to_nat r = Some reg -> conflicts reg = Some rc ->
  regs rs1 !! Z.to_nat c = Some other -> conflicts other = Some oc ->
  making rs r (P ++ [c])
    (set_regs rs1 (<[Z.to_nat c := RaReg (Some (Z.lor oc rc)) (conflict_list other)]> (regs rs1))).
Proof.
  intros [M1 M2 M3 M4 M5] Hr Hc E Ec E' Ec'. pose proof (lookup_lt_Some _ _ _ E') as Hlt.
  assert (Hrc : forall y, Z.testbit rc y = true <-> conf rs r y).
  { intros y. rewrite <- (conf_lookup rs1 r reg rc) by done. rewrite M5. tauto. }
  constructor; try done.
  - unfold reg_count in *. cbn. by rewrite length_insert.
  - intros i x Hi Hx. cbn in Hx. apply list_lookup_insert_Some in Hx as [(_ & <- & _)|[_ Hx]]; [done|by eapply M4].
  - intros x y. rewrite elem_of_app, list_elem_of_singleton. destruct (Z.eq_dec x c) as [->|Hne].
    + rewrite (conf_lookup _ c (RaReg (Some (Z.lor oc rc)) (conflict_list other)) (Z.lor oc rc));
        [|done|cbn; by apply list_lookup_insert_eq|done].
      rewrite Z.lor_spec, orb_true_iff, Hrc, <- (conf_lookup rs1 c other oc) by done. rewrite M5. tauto.
    + assert (Hsame : forall b, conf (set_regs rs1 (<[Z.to_nat c := RaReg (Some (Z.lor oc rc)) (conflict_list other)]> (regs rs1))) x b
        <-> conf rs1 x b).
      { intros b. unfold conf. cbn. split; intros (? & ? & Hl & ? & ? & ?).
        - rewrite list_lookup_insert_ne in Hl by lia. eauto 7.
        - eexists _, _. rewrite list_lookup_insert_ne by lia. eauto 7. }
      rewrite Hsame, M5. tauto.
Qed.

Lemma make_transitive_loop_spec rs r l P rs1 :
  making rs r P rs1 -> 0 <= r < reg_count rs -> (forall c, c ∈ l -> 0 <= c < reg_count rs) ->
  exists rs', make_transitive_loop rs1 r l = Some rs' /\ making rs r (P ++ l) rs'.
Proof.
  revert P rs1. induction l as [|c l IH]; intros P rs1 HM Hr Hl; cbn [make_transitive_loop].
  { exists rs1. by rewrite app_nil_r. }
  pose proof (mk_count _ _ _ _ HM) as Hn. pose proof (Hl c ltac:(set_solver)) as Hc.
  destruct (lookup_reg rs1 r ltac:(lia)) as [reg E]. destruct (lookup_reg rs1 c ltac:(lia)) as [other E'].
  pose proof (mk_some _ _ _ _ HM r reg ltac:(lia) E) as S1. pose proof (mk_some _ _ _ _ HM c other ltac:(lia) E') as S2.
  rewrite E. cbn [mbind option_bind]. destruct (conflicts reg) as [rc|] eqn:Ec; [|done]. cbn [mbind option_bind].
  rewrite E'. cbn [mbind option_bind]. destruct (conflicts other) as [oc|] eqn:Ec'; [|done]. cbn [mbind option_bind].
  destruct (IH (P ++ [c]) _ (making_step rs r P rs1 c reg rc other oc HM ltac:(lia) ltac:(lia) E Ec E' Ec') Hr)
    as (rs' & E2 & HM'); [intros x Hx; apply Hl; set_solver|].
  exists rs'. split; [done|]. by rewrite <- app_assoc in HM'.
Qed.

Lemma make_transitive_spec rs r :
  regs_ok rs -> uses_conflict_lists rs = false -> 0 <= r < reg_count rs ->
  exists rs', ra_make_reg_conflicts_transitive rs r = Some rs'
    /\ grown rs (fun x y => conf rs r x /\ conf rs r y) rs'.
Proof.
  intros Hok Hu Hr. unfold ra_make_reg_conflicts_transitive. destruct (lookup_reg rs r Hr) as [reg E].
  rewrite E. cbn [mbind option_bind].
  destruct (rg_conflicts _ _ _ (ro_reg _ Hok r reg ltac:(lia) E)) as (rc & Ec & _ & Hrng). rewrite Ec.
  cbn [mbind option_bind].
  assert (HM : making rs r [] rs).
  { constructor; try done; [|set_solver]. intros i x Hi Hx.
    destruct (rg_conflicts _ _ _ (ro_reg _ Hok i x Hi Hx)) as (? & -> & _). done. }
  destruct (make_transitive_loop_spec rs r (bits_below rc (reg_count rs)) [] rs HM Hr) as (rs' & -> & [M1 M2 M3 M4 M5]).
  { intros c [_ ?]%elem_bits_below. done. }
  exists rs'. split; [done|]. cbn [app] in M5.
  assert (Hconf : forall x y, conf rs' x y <-> conf rs x y \/ (conf rs r x /\ conf rs r y)).
  { intros x y. rewrite M5, elem_bits_below, <- (conf_lookup rs r reg rc) by done || lia.
    split; [tauto|]. intros [?|[Hx Hy]]; [auto|]. right. pose proof (conf_range _ _ _ Hok Hx). tauto. }
  constructor; try done; [|intros x y; rewrite Hconf; tauto]. constructor.
  - rewrite M2. apply Hok.
  - intros i x Hi Hx. pose proof (lookup_lt_Some _ _ _ Hx). pose proof (M4 i x Hi Hx) as Hs.
    destruct (conflicts x) as [cx|] eqn:Ecx; [|done]. constructor; [|rewrite M3, Hu; done].
    assert (Hcx : forall b, Z.testbit cx b = true <-> conf rs' i b) by (intros; by rewrite <- conf_lookup).
    exists cx. split; [done|]. unfold reg_count in *. split.
    + apply Hcx, Hconf. left. apply conf_refl; [done|]. unfold reg_count. lia.
    + intros b Hb. apply Hcx, Hconf in Hb as [Hb|[_ Hb]]; apply (conf_range _ _ _ Hok) in Hb; unfold reg_count in *; lia.
  - intros x y Hxy. apply Hconf. apply Hconf in Hxy as [?|?]; [left; by apply (ro_sym _ Hok)|tauto].
Qed.

(** ** Classes *)

Lemma set_classes_ok rs cs : regs_ok rs -> regs_ok (set_classes rs cs).
Proof.
  intros [H1 H2 H3]. constructor; [exact H1| |exact H3]. intros r reg Hr E.
  destruct (H2 r reg Hr E) as [A B]. constructor; [exact A|exact B].
Qed.

Lemma class_add_reg_spec rs class c r :
  classes rs !! Z.to_nat class = Some c -> class_ok rs c -> reg_count rs < 2 ^ 31 ->
  0 <= r < reg_count rs -> r + contig_len c <= reg_count rs -> Z.testbit (c_regs c) r = false ->
  exists rs' c', ra_class_add_reg rs class r = Some rs' /\ regs rs' = regs rs
    /\ classes rs' = <[Z.to_nat class := c']> (classes rs)
    /\ class_ok rs' c' /\ c_p c' = c_p c + 1 /\ contig_len c' = contig_len c
    /\ forall i, Z.testbit (c_regs c') i = Z.testbit (c_regs c) i || (i =? r).
Proof.
  intros E [K1 K2 K3] Hn Hr Hfit Hnew. unfold ra_class_add_reg, ra_get_class_from_index. rewrite E.
  cbn [mbind option_bind]. destruct (Z.ltb_spec r (reg_count rs)); [|lia]. rewrite (u32_small (_ + _)) by lia.
  destruct (Z.leb_spec (r + contig_len c) (reg_count rs)); [|lia].
  pose proof (countb_range (Z.testbit (c_regs c)) (seqZ 0 (reg_count rs))) as Hc. rewrite length_seqZ in Hc.
  rewrite u32_small by lia. eexists _, _. split; [done|].
  assert (Hbit : forall i, Z.testbit (Z.setbit (c_regs c) r) i = Z.testbit (c_regs c) i || (i =? r)).
  { intros i. rewrite Z.setbit_eqb by lia. rewrite orb_comm, Z.eqb_sym. done. }
  split_and!; try done. constructor; cbn.
  - intros i. rewrite Hbit. change (reg_count _) with (reg_count rs).
    intros [Hi| ->%Z.eqb_eq]%orb_true_iff; [by apply K1|lia].
  - done.
  - change (reg_count _) with (reg_count rs). split; [lia|].
    assert (Hr' : r ∈ seqZ 0 (reg_count rs)) by (apply elem_of_seqZ; lia).
    apply list_elem_of_split in Hr' as (a & b & Hab). rewrite Hab in *.
    pose proof (NoDup_seqZ 0 (reg_count rs)) as Hnd. rewrite Hab in Hnd. apply NoDup_app in Hnd as (_ & Hna & Hnb).
    apply NoDup_cons in Hnb as [Hnb _]. rewrite !countb_app in *. cbn [countb] in *. rewrite Hnew in K3.
    rewrite Hbit, Z.eqb_refl, orb_true_r.
    assert (Hsame : forall l, ~ (r ∈ l) -> countb (Z.testbit (Z.setbit (c_regs c) r)) l = countb (Z.testbit (c_regs c)) l).
    { induction l as [|i l IH]; intros Hl; [done|]. cbn [countb]. rewrite IH by set_solver. rewrite Hbit.
      destruct (Z.eqb_spec i r); [set_solver|]. by rewrite orb_false_r. }
    rewrite !Hsame; [lia|done|]. intros Ha. specialize (Hna r Ha). set_solver.
Qed.

(** ** The q values *)

Definition alloc_conflict (rs : ra_regs) (c1 : ra_class) (r1 : Z) (c2 : ra_class) (r2 : Z) : bool :=
  default false (ra_class_allocations_conflict rs c1 r1 c2 r2).

(** How many registers of B an allocation of C to [rc] conflicts with. *)
Definition conflict_count (rs : ra_regs) (class_b class_c : ra_class) (rc : Z) : Z :=
  countb (fun rb => Z.testbit (c_regs class_b) rb && alloc_conflict rs class_c rc class_b rb)
    (seqZ 0 (reg_count rs)).

(** [q] is the largest of them over all [rc]. *)
Definition q_spec (rs : ra_regs) (class_b class_c : ra_class) (q : Z) : Prop :=
  (forall rc, Z.testbit (c_regs class_c) rc = true -> conflict_count rs class_b class_c rc <= q)
  /\ (q = 0 \/ exists rc, Z.testbit (c_regs class_c) rc = true /\ conflict_count rs class_b class_c rc = q).

Lemma alloc_conflict_contig rs c1 r1 c2 r2 :
  class_ok rs c1 -> class_ok rs c2 -> reg_count rs < 2 ^ 31 -> contig_len c1 <> 0 -> contig_len c2 <> 0 ->
  0 <= r1 < reg_count rs -> 0 <= r2 < reg_count rs ->
  ra_class_allocations_conflict rs c1 r1 c2 r2 = Some ((r1 <? r2 + contig_len c2) && (r2 <? r1 + contig_len c1)).
Proof.
  intros K1 K2 Hn H1 H2 Hr1 Hr2. unfold ra_class_allocations_conflict.
  pose proof (co_len _ _ K1). pose proof (co_len _ _ K2).
  destruct (Z.eqb_spec (contig_len c1) 0); [done|]. destruct (Z.eqb_spec (contig_len c2) 0); [done|]. cbn [negb].
  rewrite !u32_small by lia. f_equal. rewrite negb_orb, andb_comm. f_equal.
  - destruct (Z.geb_spec r1 (r2 + contig_len c2)); destruct (Z.ltb_spec r1 (r2 + contig_len c2)); (done || lia).
  - destruct (Z.geb_spec r2 (r1 + contig_len c1)); destruct (Z.ltb_spec r2 (r1 + contig_len c1)); (done || lia).
Qed.

Lemma conflict_count_contig rs cb cc rc :
  class_ok rs cb -> class_ok rs cc -> reg_count rs < 2 ^ 31 -> contig_len cb <> 0 -> contig_len cc <> 0 ->
  Z.testbit (c_regs cc) rc = true ->
  conflict_count rs cb cc rc = contig_conflicts (reg_count rs) cb cc rc.
Proof.
  intros Kb Kc Hn Hb Hc Hrc. destruct (co_regs _ _ Kc rc Hrc) as [Hr _].
  pose proof (co_len _ _ Kb). pose proof (co_len _ _ Kc).
  unfold conflict_count, contig_conflicts. cbv zeta. rewrite MAX2_max, MIN2_min.
  apply countb_eq; [apply NoDup_seqZ..|]. intros i. rewrite !elem_of_seqZ. split.
  - intros [Hi Hf]. apply andb_true_iff in Hf as [Ht Hf]. unfold alloc_conflict in Hf.
    rewrite alloc_conflict_contig in Hf by done || lia. cbn in Hf. zbool. split; [lia|done].
  - intros [Hi Ht]. split; [lia|]. rewrite Ht. unfold alloc_conflict.
    rewrite alloc_conflict_contig by done || lia. cbn. apply andb_true_iff. rewrite !Z.ltb_lt. lia.
Qed.

(** Running maxima. *)
Lemma contig_max_spec count cb cc M l m :
  (forall rc, rc ∈ l -> contig_conflicts count cb cc rc <= M) -> m <= M ->
  let r := contig_max count cb cc M l m in
  m <= r /\ (forall rc, rc ∈ l -> contig_conflicts count cb cc rc <= r)
  /\ (r = m \/ exists rc, rc ∈ l /\ contig_conflicts count cb cc rc = r).
Proof.
  revert m. induction l as [|rc l IH]; intros m HM Hm; cbn [contig_max]; cbv zeta.
  { split_and!; [lia|set_solver|by left]. }
  rewrite MAX2_max. pose proof (HM rc ltac:(set_solver)) as Hrc.
  set (k := contig_conflicts count cb cc rc) in *. destruct (Z.eqb_spec (Z.max m k) M) as [E|E].
  - split_and!; [lia|intros x Hx; rewrite E; by apply HM|]. destruct (Z.max_spec m k) as [[? ->]|[? ->]]; [|by left].
    right. exists rc. split; [set_solver|done].
  - destruct (IH (Z.max m k)) as (H1 & H2 & H3); [intros x Hx; apply HM; set_solver|lia|].
    split_and!; [lia| |].
    + intros x [->|Hx]%elem_of_cons; [fold k; lia|by apply H2].
    + destruct H3 as [->|(x & Hx & E')]; [|right; exists x; set_solver].
      destruct (Z.max_spec m k) as [[? ->]|[? ->]]; [right; exists rc; set_solver|by left].
Qed.

Lemma contig_conflicts_bound rs cb cc rc :
  class_ok rs cb -> class_ok rs cc -> contig_len cb <> 0 -> contig_len cc <> 0 ->
  0 <= contig_conflicts (reg_count rs) cb cc rc <= contig_len cb + contig_len cc - 1.
Proof.
  intros Kb Kc Hb Hc. pose proof (co_len _ _ Kb). pose proof (co_len _ _ Kc). unfold contig_conflicts. cbv zeta.
  match goal with |- _ <= countb ?f ?l <= _ => pose proof (countb_range f l) as Hr end.
  rewrite length_seqZ, MAX2_max, MIN2_min in *. lia.
Qed.

Lemma conflict_count_list rs cb cc rc reg :
  regs_ok rs -> uses_conflict_lists rs = true -> contig_len cc = 0 -> 0 <= rc ->
  regs rs !! Z.to_nat rc = Some reg ->
  countb (fun rb => reg_belongs_to_class rb cb) (conflict_list reg) = conflict_count rs cb cc rc.
Proof.
  intros Hok Hu Hl Hrc E. destruct (ro_reg _ Hok rc reg Hrc E) as [(c & Ec & _ & Hrng) Hlist].
  destruct (Hlist Hu) as [Hnd Hel]. unfold conflict_count. apply countb_eq; [done|apply NoDup_seqZ|].
  intros i. unfold reg_belongs_to_class. rewrite Hel, elem_of_seqZ, (conf_lookup rs rc reg c) by done.
  unfold alloc_conflict, ra_class_allocations_conflict. rewrite Hl. cbn [Z.eqb negb]. rewrite E. cbn [mbind option_bind].
  rewrite Ec. cbn [mbind option_bind]. destruct (Z.ltb_spec i (reg_count rs)); cbn [default].
  - rewrite andb_true_iff. split; [intros [H1 H2]; pose proof (Hrng i H1); split; [lia|done]|tauto].
  - rewrite andb_false_r. split; [intros [H1 _]; pose proof (Hrng i H1); lia|intros [_ ?]; done].
Qed.

Lemma list_max_spec rs cb cc l m :
  regs_ok rs -> uses_conflict_lists rs = true -> contig_len cc = 0 ->
  (forall rc, rc ∈ l -> 0 <= rc < reg_count rs) ->
  exists r, list_max rs cb l m = Some r /\ m <= r /\ (forall rc, rc ∈ l -> conflict_count rs cb cc rc <= r)
    /\ (r = m \/ exists rc, rc ∈ l /\ conflict_count rs cb cc rc = r).
Proof.
  intros Hok Hu Hz. revert m. induction l as [|rc l IH]; intros m Hl; cbn [list_max].
  { exists m. split_and!; [done|lia|set_solver|by left]. }
  pose proof (Hl rc ltac:(set_solver)) as Hrc. destruct (lookup_reg rs rc Hrc) as [reg E]. rewrite E.
  cbn [mbind option_bind]. rewrite (conflict_count_list rs cb cc rc reg), MAX2_max by done || lia.
  set (k := conflict_count rs cb cc rc) in *.
  destruct (IH (Z.max m k)) as (r & -> & H1 & H2 & H3); [intros x Hx; apply Hl; set_solver|].
  exists r. split_and!; [done|lia| |].
  - intros x [->|Hx]%elem_of_cons; [fold k; lia|by apply H2].
  - destruct H3 as [->|(x & Hx & E')]; [|right; exists x; set_solver].
    destruct (Z.max_spec m k) as [[? ->]|[? ->]]; [right; exists rc; set_solver|by left].
Qed.

Lemma single_conflicts rs cb cc rc :
  class_ok rs cc -> contig_len cb = 1 -> contig_len cc = 1 -> Z.testbit (c_regs cc) rc = true ->
  contig_conflicts (reg_count rs) cb cc rc = if Z.testbit (c_regs cb) rc then 1 else 0.
Proof.
  intros Kc Hb Hc Hrc. destruct (co_regs _ _ Kc rc Hrc) as [Hr _]. unfold contig_conflicts. cbv zeta.
  rewrite Hb, Hc, MAX2_max, MIN2_min.
  replace (Z.max 0 (rc - 1 + 1)) with rc by lia. replace (Z.min (reg_count rs) (rc + 1) - rc) with 1 by lia.
  rewrite seqZ_cons by lia. cbn [countb]. rewrite seqZ_nil by lia. cbn [countb]. destruct (Z.testbit _ _); lia.
Qed.

Lemma class_elems rs c : class_ok rs c ->
  forall r, r ∈ bits_below (c_regs c) (reg_count rs) <-> Z.testbit (c_regs c) r = true.
Proof.
  intros K r. rewrite elem_bits_below. split; [tauto|]. intros Hr. by destruct (co_regs _ _ K r Hr).
Qed.

(** The cheap test for two classes of single registers. *)
Lemma class_q_single rs cb cc :
  class_ok rs cb -> class_ok rs cc -> reg_count rs < 2 ^ 31 -> contig_len cb = 1 -> contig_len cc = 1 ->
  q_spec rs cb cc (if negb (Z.land (c_regs cb) (c_regs cc) =? 0) then 1 else 0).
Proof.
  intros Kb Kc Hn E1 E2.
  assert (Hcnt : forall rc, Z.testbit (c_regs cc) rc = true ->
    conflict_count rs cb cc rc = if Z.testbit (c_regs cb) rc then 1 else 0).
  { intros rc Hrc. rewrite conflict_count_contig by done || lia. by apply single_conflicts. }
  split.
  - intros rc Hrc. rewrite Hcnt by done. destruct (Z.testbit (c_regs cb) rc) eqn:Et; [|destruct (negb _); lia].
    destruct (Z.eqb_spec (Z.land (c_regs cb) (c_regs cc)) 0) as [E|E]; cbn [negb]; [|lia].
    apply (f_equal (fun z => Z.testbit z rc)) in E. rewrite Z.land_spec, Et, Hrc, Z.bits_0 in E. done.
  - destruct (Z.eqb_spec (Z.land (c_regs cb) (c_regs cc)) 0) as [E|E]; cbn [negb]; [by left|]. right.
    destruct (decide (Exists (fun rc => Z.testbit (c_regs cb) rc = true)
      (bits_below (c_regs cc) (reg_count rs)))) as [He|He].
    + apply Exists_exists in He as (rc & Hrc & Ht). apply (class_elems rs cc Kc) in Hrc. exists rc.
      split; [done|]. by rewrite Hcnt, Ht.
    + destruct E. apply Z.bits_inj'. intros i Hi. rewrite Z.land_spec, Z.bits_0.
      destruct (Z.testbit (c_regs cb) i) eqn:Ebi; [|done]. destruct (Z.testbit (c_regs cc) i) eqn:Eci; [|done].
      destruct He. apply Exists_exists. exists i. split; [by apply (class_elems rs cc Kc)|done].
Qed.

Lemma class_q_contig rs cb cc :
  class_ok rs cb -> class_ok rs cc -> reg_count rs < 2 ^ 31 -> contig_len cb <> 0 -> contig_len cc <> 0 ->
  q_spec rs cb cc (contig_max (reg_count rs) cb cc (contig_len cb + contig_len cc - 1)
                     (bits_below (c_regs cc) (reg_count rs)) 0).
Proof.
  intros Kb Kc Hn Hlb Hlc.
  assert (Hcnt : forall rc, Z.testbit (c_regs cc) rc = true ->
    conflict_count rs cb cc rc = contig_conflicts (reg_count rs) cb cc rc) by (intros; by apply conflict_count_contig).
  destruct (contig_max_spec (reg_count rs) cb cc (contig_len cb + contig_len cc - 1)
    (bits_below (c_regs cc) (reg_count rs)) 0) as (H1 & H2 & H3);
    [intros; by apply contig_conflicts_bound|pose proof (contig_conflicts_bound rs cb cc 0 Kb Kc Hlb Hlc); lia|].
  split.
  - intros rc Hrc. rewrite Hcnt by done. by apply H2, class_elems.
  - destruct H3 as [->|(rc & Hrc & E)]; [by left|]. right. exists rc. apply (class_elems rs cc Kc) in Hrc.
    by rewrite Hcnt.
Qed.

Lemma class_q_spec rs cb cc :
  regs_ok rs -> class_ok rs cb -> class_ok rs cc -> same_kind rs -> cb ∈ classes rs -> cc ∈ classes rs ->
  exists q, class_q rs cb cc = Some q /\ q_spec rs cb cc q.
Proof.
  intros Hok Kb Kc Hkind Hb Hc. pose proof (ro_count _ Hok) as Hn. unfold class_q.
  destruct Hkind as [Hk|[Hk Hu]].
  - pose proof (Hk cb Hb) as Hlb. pose proof (Hk cc Hc) as Hlc.
    destruct (Z.eqb_spec (contig_len cb) 0); [done|]. destruct (Z.eqb_spec (contig_len cc) 0); [done|]. cbn [negb andb].
    destruct ((contig_len cb =? 1) && (contig_len cc =? 1)) eqn:E; eexists; (split; [done|]);
      [zbool; by apply class_q_single|by apply class_q_contig].
  - rewrite (Hk cb Hb), (Hk cc Hc). cbn [Z.eqb negb andb].
    destruct (list_max_spec rs cb cc (bits_below (c_regs cc) (reg_count rs)) 0 Hok Hu (Hk cc Hc))
      as (r & -> & H1 & H2 & H3); [by intros rc [_ ?]%elem_bits_below|].
    exists r. split; [done|]. split.
    + intros rc Hrc. by apply H2, class_elems.
    + destruct H3 as [->|(rc & Hrc & E)]; [by left|]. right. exists rc. split; [by apply (class_elems rs cc Kc)|done].
Qed.

(** ** Finalising *)

(** What the allocator relies on: allocations of all classes can be compared, the
    comparison is symmetric, and q bounds the registers a neighbour can block. *)
Class RegSetReady (rs : ra_regs) : Prop := {
  rd_count : reg_count rs < 2 ^ 31;
  rd_class : forall c, c ∈ classes rs -> class_ok rs c;
  rd_conflict : forall c1 c2 r1 r2, c1 ∈ classes rs -> c2 ∈ classes rs ->
    0 <= r1 < reg_count rs -> 0 <= r2 < reg_count rs ->
    ra_class_allocations_conflict rs c1 r1 c2 r2 = Some (alloc_conflict rs c1 r1 c2 r2);
  rd_sym : forall c1 c2 r1 r2, c1 ∈ classes rs -> c2 ∈ classes rs ->
    0 <= r1 < reg_count rs -> 0 <= r2 < reg_count rs ->
    alloc_conflict rs c1 r1 c2 r2 = alloc_conflict rs c2 r2 c1 r1;
  rd_q : forall b c class_b class_c, 0 <= b -> 0 <= c ->
    classes rs !! Z.to_nat b = Some class_b -> classes rs !! Z.to_nat c = Some class_c ->
    exists q, c_q class_b !! Z.to_nat c = Some q /\ 0 <= q
      /\ forall rc, Z.testbit (c_regs class_c) rc = true -> conflict_count rs class_b class_c rc <= q;
  rd_contig : forall c1 c2, c1 ∈ classes rs -> c2 ∈ classes rs -> contig_len c1 = 0 -> contig_len c2 = 0;
}.

(** The classes before and after the q values are stored. *)
Definition same_class (c c' : ra_class) : Prop :=
  c_regs c' = c_regs c /\ contig_len c' = contig_len c /\ c_p c' = c_p c.

Record finalized (rs rs' : ra_regs) : Prop := {
  fz_count : reg_count rs' = reg_count rs;
  fz_classes : Forall2 same_class (classes rs) (classes rs');
  fz_conflict : forall c1 c2 c1' c2' r1 r2, c1 ∈ classes rs -> c2 ∈ classes rs ->
    same_class c1 c1' -> same_class c2 c2' ->
    ra_class_allocations_conflict rs' c1' r1 c2' r2 = ra_class_allocations_conflict rs c1 r1 c2 r2;
}.

Lemma finalize_state rs cs :
  same_kind rs -> Forall2 same_class (classes rs) cs ->
  finalized rs (free_conflicts (free_lists (set_classes rs cs))).
Proof.
  intros Hkind Hcs. set (rs1 := free_lists (set_classes rs cs)).
  assert (H1 : classes rs1 = cs /\ (forall i, conflicts <$> (regs rs1 !! i) = conflicts <$> (regs rs !! i))
    /\ reg_count rs1 = reg_count rs).
  { unfold rs1, free_lists. cbn. destruct (uses_conflict_lists rs); [|done]. split_and!; [done| |].
    - intros i. cbn. rewrite list_lookup_fmap. by destruct (regs rs !! i).
    - unfold reg_count. cbn. by rewrite length_map. }
  destruct H1 as (Hc1 & Hl1 & Hn1).
  assert (Hn : reg_count (free_conflicts rs1) = reg_count rs).
  { rewrite <- Hn1. unfold free_conflicts. destruct (forallb _ _); [|done]. unfold reg_count. cbn. by rewrite length_map. }
  constructor; [done| |].
  - unfold free_conflicts. destruct (forallb _ _); cbn; by rewrite Hc1.
  - intros c1 c2 c1' c2' r1 r2 Hin1 Hin2 (_ & E1 & _) (_ & E2 & _). unfold ra_class_allocations_conflict.
    rewrite Hn, E1, E2. destruct (Z.eqb_spec (contig_len c1) 0) as [Ez|Ez]; cbn [negb]; [|done].
    destruct Hkind as [Hk|[Hk _]]; [by destruct (Hk c1 Hin1)|].
    assert (Hall : forallb (fun c => negb (contig_len c =? 0)) (classes rs1) = false).
    { apply not_true_is_false. intros Hf. rewrite Hc1 in Hf. apply Is_true_true_2, forallb_True in Hf.
      apply list_elem_of_lookup in Hin1 as [i Hi]. destruct (Forall2_lookup_l _ _ _ _ _ Hcs Hi) as (c' & Hc' & _ & El & _).
      rewrite Forall_forall in Hf. specialize (Hf c' (list_elem_of_lookup_2 _ _ _ Hc')). by rewrite El, Ez in Hf. }
    unfold free_conflicts. rewrite Hall. specialize (Hl1 (Z.to_nat r1)).
    destruct (regs rs1 !! Z.to_nat r1), (regs rs !! Z.to_nat r1); cbn in Hl1; try done. injection Hl1 as Hl1.
    cbn [mbind option_bind]. by rewrite Hl1.
Qed.

Lemma finalized_count rs rs' cb cc cb' cc' rc :
  finalized rs rs' -> cb ∈ classes rs -> cc ∈ classes rs -> same_class cb cb' -> same_class cc cc' ->
  conflict_count rs' cb' cc' rc = conflict_count rs cb cc rc.
Proof.
  intros [Hn _ Hc] Hb Hcin Sb Sc. unfold conflict_count, alloc_conflict. rewrite Hn.
  apply countb_eq; [apply NoDup_seqZ..|]. intros i. rewrite (Hc cc cb cc' cb') by done.
  by rewrite (proj1 Sb).
Qed.

Lemma conflict_defined rs c1 c2 r1 r2 :
  regs_ok rs -> (forall c, c ∈ classes rs -> class_ok rs c) -> same_kind rs -> c1 ∈ classes rs -> c2 ∈ classes rs ->
  0 <= r1 < reg_count rs -> 0 <= r2 < reg_count rs ->
  ra_class_allocations_conflict rs c1 r1 c2 r2 = Some (alloc_conflict rs c1 r1 c2 r2)
  /\ alloc_conflict rs c1 r1 c2 r2 = alloc_conflict rs c2 r2 c1 r1.
Proof.
  intros Hok Hcl Hkind H1 H2 Hr1 Hr2. pose proof (ro_count _ Hok). unfold alloc_conflict.
  destruct Hkind as [Hk|[Hk _]].
  - rewrite !alloc_conflict_contig by auto || lia. cbn. split; [done|apply andb_comm].
  - unfold ra_class_allocations_conflict. rewrite (Hk c1 H1), (Hk c2 H2). cbn [Z.eqb negb].
    destruct (lookup_reg rs r1 Hr1) as [g1 E1]. destruct (lookup_reg rs r2 Hr2) as [g2 E2]. rewrite E1, E2.
    cbn [mbind option_bind].
    destruct (rg_conflicts _ _ _ (ro_reg _ Hok r1 g1 ltac:(lia) E1)) as (k1 & K1 & _).
    destruct (rg_conflicts _ _ _ (ro_reg _ Hok r2 g2 ltac:(lia) E2)) as (k2 & K2 & _). rewrite K1, K2.
    cbn [mbind option_bind]. destruct (Z.ltb_spec r2 (reg_count rs)); [|lia].
    destruct (Z.ltb_spec r1 (reg_count rs)); [|lia]. cbn. split; [done|].
    assert (Z.testbit k1 r2 = true <-> Z.testbit k2 r1 = true).
    { rewrite <- (conf_lookup rs r1 g1 k1), <- (conf_lookup rs r2 g2 k2) by done || lia.
      split; apply (ro_sym _ Hok). }
    destruct (Z.testbit k1 r2), (Z.testbit k2 r1); intuition congruence.
Qed.

Lemma q_spec_nonneg rs cb cc q : q_spec rs cb cc q -> 0 <= q.
Proof.
  intros [_ [->|(rc & _ & <-)]]; [lia|]. unfold conflict_count.
  match goal with |- _ <= countb ?f ?l => pose proof (countb_range f l) end. lia.
Qed.

Lemma class_qs_spec rs :
  regs_ok rs -> (forall c, c ∈ classes rs -> class_ok rs c) -> same_kind rs ->
  exists cs, mapM (class_qs rs) (classes rs) = Some cs
    /\ Forall2 (fun cb cb' => same_class cb cb' /\ Forall2 (q_spec rs cb) (classes rs) (c_q cb')) (classes rs) cs.
Proof.
  intros Hok Hcl Hkind.
  assert (Hrow : forall cb, cb ∈ classes rs -> exists cb', class_qs rs cb = Some cb'
    /\ same_class cb cb' /\ Forall2 (q_spec rs cb) (classes rs) (c_q cb')).
  { intros cb Hb. unfold class_qs.
    assert (Hq : exists qs, mapM (class_q rs cb) (classes rs) = Some qs).
    { apply mapM_is_Some, Forall_forall. intros cc Hc. destruct (class_q_spec rs cb cc) as (q & Eq & _); [auto..|].
      exists q. exact Eq. }
    destruct Hq as [qs Eq]. rewrite Eq. cbn. eexists. split; [done|]. split; [done|]. cbn.
    apply mapM_Some in Eq. rewrite Forall2_lookup in Eq |- *. intros i. specialize (Eq i).
    destruct (classes rs !! i) as [cc|] eqn:Ei; inversion Eq as [? q Hq|]; constructor.
    assert (Hc : cc ∈ classes rs) by (by eapply list_elem_of_lookup_2).
    destruct (class_q_spec rs cb cc) as (q' & Eq' & Hs); [auto..|]. congruence. }
  assert (Hcs : exists cs, mapM (class_qs rs) (classes rs) = Some cs).
  { apply mapM_is_Some, Forall_forall. intros cb Hb. destruct (Hrow cb Hb) as (cb' & E & _). exists cb'. exact E. }
  destruct Hcs as [cs Ecs]. exists cs. split; [done|]. apply mapM_Some in Ecs.
  rewrite Forall2_lookup in Ecs |- *. intros i. specialize (Ecs i).
  destruct (classes rs !! i) as [cb|] eqn:Ei; inversion Ecs as [? cb' Hq|]; constructor.
  destruct (Hrow cb) as (cb2 & E2 & Hs); [by eapply list_elem_of_lookup_2|]. congruence.
Qed.

Lemma finalize_spec rs :
  regs_ok rs -> (forall c, c ∈ classes rs -> class_ok rs c) -> same_kind rs ->
  exists rs', ra_set_finalize rs None = Some rs' /\ finalized rs rs'
    /\ Forall2 (fun cb cb' => Forall2 (q_spec rs cb) (classes rs) (c_q cb')) (classes rs) (classes rs').
Proof.
  intros Hok Hcl Hkind. unfold ra_set_finalize. destruct (class_qs_spec rs Hok Hcl Hkind) as (cs & -> & Hcs).
  cbn [mbind option_bind]. eexists. split; [done|].
  assert (Hcl' : classes (free_conflicts (free_lists (set_classes rs cs))) = cs).
  { unfold free_conflicts, free_lists. destruct (uses_conflict_lists _); destruct (forallb _ _); done. }
  split; [apply finalize_state; [done|]|rewrite Hcl']; (eapply Forall2_impl; [exact Hcs|]); by intros ? ? [? ?].
Qed.

Lemma finalized_ready rs rs' :
  regs_ok rs -> (forall c, c ∈ classes rs -> class_ok rs c) -> same_kind rs -> finalized rs rs' ->
  Forall2 (fun cb cb' => Forall2 (q_spec rs cb) (classes rs) (c_q cb')) (classes rs) (classes rs') ->
  RegSetReady rs'.
Proof.
  intros Hok Hcl Hkind Hf Hq. pose proof Hf as [Hn Hs Hc].
  assert (Hback : forall c', c' ∈ classes rs' -> exists c, c ∈ classes rs /\ same_class c c').
  { intros c' [i Hi]%list_elem_of_lookup. destruct (Forall2_lookup_r _ _ _ _ _ Hs Hi) as (c & Ec & Hsc). exists c.
    split; [by eapply list_elem_of_lookup_2|done]. }
  constructor.
  - rewrite Hn. apply Hok.
  - intros c' (c & Hin & E1 & E2 & E3)%Hback. destruct (Hcl c Hin) as [K1 K2 K3].
    constructor; rewrite ?E1, ?E2, ?E3, ?Hn; done.
  - intros c1' c2' r1 r2 (c1 & H1 & S1)%Hback (c2 & H2 & S2)%Hback Hr1 Hr2. rewrite Hn in *.
    unfold alloc_conflict. rewrite (Hc c1 c2) by done.
    by destruct (conflict_defined rs c1 c2 r1 r2 Hok Hcl Hkind H1 H2 Hr1 Hr2).
  - intros c1' c2' r1 r2 (c1 & H1 & S1)%Hback (c2 & H2 & S2)%Hback Hr1 Hr2. rewrite Hn in *.
    unfold alloc_conflict. rewrite (Hc c1 c2), (Hc c2 c1) by done.
    by destruct (conflict_defined rs c1 c2 r1 r2 Hok Hcl Hkind H1 H2 Hr1 Hr2).
  - intros b c cb' cc' Hb Hc0 Eb Ec. destruct (Forall2_lookup_r _ _ _ _ _ Hq Eb) as (cb & Eb0 & Hrow).
    destruct (Forall2_lookup_r _ _ _ _ _ Hs Ec) as (cc & Ec0 & Sc).
    destruct (Forall2_lookup_l _ _ _ _ _ Hrow Ec0) as (q & Eq & Hqs). exists q.
    pose proof (Forall2_lookup_lr _ _ _ _ _ _ Hs Eb0 Eb) as Sb.
    split_and!; [done|by eapply q_spec_nonneg|]. intros rc Hrc.
    rewrite (finalized_count rs rs' cb cc cb' cc') by (done || by eapply list_elem_of_lookup_2).
    apply Hqs. by rewrite <- (proj1 Sc).
  - intros c1' c2' (c1 & H1 & _ & E1 & _)%Hback (c2 & H2 & _ & E2 & _)%Hback. rewrite E1, E2.
    destruct Hkind as [Hk|[Hk _]]; [by intros ?%Hk|]. intros _. by apply Hk.
Qed.

(** * Properties *)

(** the operations that set up conflicts.  On a register set whose conflict
    relation is reflexive and symmetric, each of them succeeds, keeps that (and the
    agreement of the conflict lists with the bitsets, where lists are kept), and adds
    exactly: one conflict; for [ra_add_transitive_reg_conflict], the conflicts of
    [reg] with the base register and all its conflicts; for the pair variant, the same
    for both half registers but never the conflict between the two halves; for
    [ra_make_reg_conflicts_transitive], all conflicts among the conflicts of [r]. *)
Theorem reg_conflict_operations_correct (rs : ra_regs) (a b c : Z) :
  regs_ok rs -> 0 <= a < reg_count rs -> 0 <= b < reg_count rs -> 0 <= c < reg_count rs ->
  (exists rs', ra_add_reg_conflict rs a b = Some rs' /\ grown rs (fun x y => x = a /\ y = b) rs')
  /\ (uses_conflict_lists rs = true -> exists rs', ra_add_transitive_reg_conflict rs a b = Some rs'
        /\ grown rs (fun x y => x = b /\ (y = a \/ conf rs a y)) rs')
  /\ (uses_conflict_lists rs = true -> exists rs', ra_add_transitive_reg_pair_conflict rs a b c = Some rs'
        /\ grown rs (fun x y => (x = b /\ (y = a \/ (y <> c /\ conf rs a y)))
                             \/ (x = c /\ (y = a \/ (y <> b /\ conf rs a y)))) rs')
  /\ (uses_conflict_lists rs = false -> exists rs', ra_make_reg_conflicts_transitive rs a = Some rs'
        /\ grown rs (fun x y => conf rs a x /\ conf rs a y) rs').
Proof.
  intros Hok Ha Hb Hc. split_and!.
  - destruct (add_reg_conflict_spec rs a b Hok Ha Hb) as (rs' & E & H1 & H2 & H3 & H4 & H5 & _). exists rs'.
    split; [done|]. constructor; try done. intros x y. rewrite H5. tauto.
  - intros Hu. by apply transitive_spec.
  - intros Hu. by apply pair_spec.
  - intros Hu. by apply make_transitive_spec.
Qed.

Lemma reg_conflict_operations_correct_witness :
  exists rs', ra_add_transitive_reg_conflict (ra_alloc_reg_set 4 true) 0 3 = Some rs'
    /\ grown (ra_alloc_reg_set 4 true) (fun x y => x = 3 /\ (y = 0 \/ conf (ra_alloc_reg_set 4 true) 0 y)) rs'.
Proof.
  apply (reg_conflict_operations_correct (ra_alloc_reg_set 4 true) 0 3 1).
  - apply alloc_reg_set_ok. lia.
  - vm_compute. split; [discriminate|reflexivity].
  - vm_compute. split; [discriminate|reflexivity].
  - vm_compute. split; [discriminate|reflexivity].
  - reflexivity.
Defined.


(** Four registers, the class of single ones and the class of aligned pairs. *)
Definition demo_regs : ra_regs :=
  RaRegs (regs (ra_alloc_reg_set 4 false)) [RaClass 15 1 4 []; RaClass 5 2 2 []] false false.

Lemma testbit_small z n r : 0 <= z < 2 ^ n -> Z.testbit z r = true -> 0 <= r < n.
Proof.
  intros Hz Hr. destruct (Z_lt_le_dec r 0) as [Hn|Hn]; [rewrite Z.testbit_neg_r in Hr by done; done|].
  split; [done|]. destruct (Z_lt_le_dec r n) as [|Hge]; [done|].
  rewrite Z.bits_above_log2 in Hr; [done|lia|]. destruct (Z.eq_dec z 0) as [->|]; [cbn in *|].
  - by rewrite Z.bits_0 in Hr.
  - apply Z.log2_lt_pow2; [lia|]. pose proof (pow2_le n r). assert (0 <= n); [|lia].
    destruct (Z_lt_le_dec n 0); [rewrite Z.pow_neg_r in Hz by done; lia|done].
Qed.

Lemma demo_regs_ok : regs_ok demo_regs.
Proof. apply (set_classes_ok (ra_alloc_reg_set 4 false)), alloc_reg_set_ok. lia. Qed.

Lemma demo_classes_ok c : c ∈ classes demo_regs -> class_ok demo_regs c.
Proof.
  intros [->|[->|[]%elem_of_nil]%elem_of_cons]%elem_of_cons; constructor; cbn; try lia; try (vm_compute; split; discriminate).
  - intros r Hr. apply (testbit_small 15 4) in Hr; [|lia]. change (reg_count demo_regs) with 4. lia.
  - intros r Hr. change (reg_count demo_regs) with 4. pose proof Hr as Hr'. apply (testbit_small 5 3) in Hr'; [|lia]. lia.
Qed.


(** ** Where the q values are too small *)

(** [ra_make_reg_conflicts_transitive] does not update the conflict lists that
    [ra_set_finalize] reads.  Registers 0 and 2 both conflict with 1, and are made to
    conflict with each other; for the class of register 0 and the class of register 2
    the computed q is 0, although the only allocation of the second blocks the only
    register of the first. *)
Theorem make_transitive_misses_conflict_lists :
  (rs ← ra_add_reg_conflict (ra_alloc_reg_set 3 true) 0 1;
   rs ← ra_add_reg_conflict rs 1 2;
   rs ← ra_make_reg_conflicts_transitive rs 1;
   let '(b, rs) := ra_alloc_reg_class rs in
   let '(c, rs) := ra_alloc_reg_class rs in
   rs ← ra_class_add_reg rs b 0;
   rs ← ra_class_add_reg rs c 2;
   rs ← ra_set_finalize rs None;
   class_b ← ra_get_class_from_index rs b;
   class_c ← ra_get_class_from_index rs c;
   q ← c_q class_b !! Z.to_nat c;
   Some (q, conflict_count rs class_b class_c 2)) = Some (0, 1).
Proof. vm_compute. reflexivity. Qed.
