(* ===== verification/RegAlloc.v ===== *)
(** * The graph-colouring register allocator (src/util/register_allocate.c, second half)

    The interference graph, the simplification that builds the stack of nodes, and the
    selection that colours them, over a register set (RegSet.v).  The stack is a list
    with its top first; [alloc] is the length of [g_nodes]; the scratch arrays of
    [tmp] are written before they are read, and the theorems hold for any values in
    them.  Bitsets are numbers, as in RegSet.v, and [bword] is one of their words.
    Accesses out of the arrays and failed assertions have no result.  Spill costs,
    which are floating-point heuristics, are left out. *)

From Stdlib Require Import ZArith Lia.
From stdpp Require Import base list numbers option sets.
From S2P Require Import Prelude RegSet.
Local Open Scope Z_scope.

(** ** State *)

Definition NO_REG : Z := UINT32_MAX.

Record ra_node := RaNode {
  adjacency : list Z;
  n_class : Z;
  n_reg : Z;
  n_q_total : Z;
  tmp_q_total : Z;
  forced_reg : Z;
}.

(** The scratch data of [struct ra_graph]. *)
Record ra_tmp := RaTmp {
  stack : list Z;
  in_stack : Z;
  reg_assigned : Z;
  pq_test : Z;
  min_q_total : list Z;
  min_q_node : list Z;
  stack_optimistic_start : Z;
}.

Record ra_graph := RaGraph {
  g_nodes : list ra_node;
  g_adjacency : Z;
  g_count : Z;
  g_tmp : ra_tmp;
}.

Definition set_nodes (g : ra_graph) (l : list ra_node) : ra_graph :=
  RaGraph l (g_adjacency g) (g_count g) (g_tmp g).
Definition set_tmp (g : ra_graph) (t : ra_tmp) : ra_graph :=
  RaGraph (g_nodes g) (g_adjacency g) (g_count g) t.
Definition set_adj_bits (g : ra_graph) (b : Z) : ra_graph :=
  RaGraph (g_nodes g) b (g_count g) (g_tmp g).

Definition node (g : ra_graph) (n : Z) : option ra_node := g_nodes g !! Z.to_nat n.
Definition update_node (g : ra_graph) (n : Z) (f : ra_node -> ra_node) : option ra_graph :=
  x ← node g n;
  Some (set_nodes g (<[Z.to_nat n := f x]> (g_nodes g))).

(** [regs->classes[c]] and [regs->classes[b]->q[c]] *)
Definition class_of (rs : ra_regs) (c : Z) : option ra_class := classes rs !! Z.to_nat c.
Definition q_value (rs : ra_regs) (b c : Z) : option Z :=
  class_b ← class_of rs b;
  c_q class_b !! Z.to_nat c.

(** ** Adjacency *)

Definition ra_get_num_adjacency_bits (n : Z) : Z := u64 (n * u64 (n - 1)) / 2.

Definition ra_get_adjacency_bit_index (n1 n2 : Z) : option Z :=
  assert! negb (n1 =? n2) ;;
  Some (u64 (ra_get_num_adjacency_bits (MAX2 n1 n2) + MIN2 n1 n2)).

Definition ra_test_adjacency_bit (g : ra_graph) (n1 n2 : Z) : option bool :=
  index ← ra_get_adjacency_bit_index n1 n2;
  Some (Z.testbit (g_adjacency g) index).

(** Here the index is kept in an [unsigned]. *)
Definition ra_set_adjacency_bit (g : ra_graph) (n1 n2 : Z) : option ra_graph :=
  index ← ra_get_adjacency_bit_index n1 n2;
  Some (set_adj_bits g (Z.setbit (g_adjacency g) (u32 index))).
Definition ra_clear_adjacency_bit (g : ra_graph) (n1 n2 : Z) : option ra_graph :=
  index ← ra_get_adjacency_bit_index n1 n2;
  Some (set_adj_bits g (Z.clearbit (g_adjacency g) (u32 index))).

Definition ra_add_node_adjacency (rs : ra_regs) (g : ra_graph) (n1 n2 : Z) : option ra_graph :=
  assert! negb (n1 =? n2) ;;
  x1 ← node g n1;
  x2 ← node g n2;
  q ← q_value rs (n_class x1) (n_class x2);
  update_node g n1 (fun x => RaNode (adjacency x ++ [n2]) (n_class x) (n_reg x)
                               (u32 (n_q_total x + q)) (tmp_q_total x) (forced_reg x)).

(** Remove an element by moving the last one into its place. *)
Fixpoint index_of (x : Z) (l : list Z) : option nat :=
  match l with
  | [] => None
  | y :: l => if y =? x then Some O else S <$> index_of x l
  end.
Definition swap_remove (x : Z) (l : list Z) : list Z :=
  match index_of x l, list.last l with
  | Some i, Some y => take (length l - 1) (<[i := y]> l)
  | _, _ => l
  end.

Definition ra_node_remove_adjacency (rs : ra_regs) (g : ra_graph) (n1 n2 : Z) : option ra_graph :=
  assert! negb (n1 =? n2) ;;
  g ← ra_clear_adjacency_bit g n1 n2;
  x1 ← node g n1;
  x2 ← node g n2;
  q ← q_value rs (n_class x1) (n_class x2);
  update_node g n1 (fun x => RaNode (swap_remove n2 (adjacency x)) (n_class x) (n_reg x)
                               (u32 (n_q_total x - q)) (tmp_q_total x) (forced_reg x)).

(** ** Building the graph *)

Definition align32 (value : Z) : Z := Z.land (u32 (value + 31)) (not32 31).

Definition fresh_node : ra_node := RaNode [] 0 NO_REG 0 0 NO_REG.

Definition ra_realloc_interference_graph (g : ra_graph) (alloc : Z) : option ra_graph :=
  if alloc <=? Z.of_nat (length (g_nodes g)) then Some g
  else
    assert! Z.of_nat (length (g_nodes g)) mod 32 =? 0 ;;
    let alloc := align32 alloc in
    let more := Z.to_nat (alloc - Z.of_nat (length (g_nodes g))) in
    let words l := l ++ replicate (Z.to_nat (BITSET_WORDS alloc) - length l) 0 in
    let t := g_tmp g in
    Some (RaGraph (g_nodes g ++ replicate more fresh_node) (g_adjacency g) (g_count g)
            (RaTmp (stack t) (in_stack t) (reg_assigned t) (pq_test t)
               (words (min_q_total t)) (words (min_q_node t)) (stack_optimistic_start t))).

Definition ra_alloc_interference_graph (count : Z) : option ra_graph :=
  ra_realloc_interference_graph (RaGraph [] 0 count (RaTmp [] 0 0 0 [] [] 0)) count.

Definition ra_resize_interference_graph (g : ra_graph) (count : Z) : option ra_graph :=
  let g := RaGraph (g_nodes g) (g_adjacency g) count (g_tmp g) in
  let alloc := Z.of_nat (length (g_nodes g)) in
  if count >? alloc then ra_realloc_interference_graph g (u32 (alloc * 2)) else Some g.

Definition ra_set_node_class (g : ra_graph) (n class : Z) : option ra_graph :=
  update_node g n (fun x => RaNode (adjacency x) class (n_reg x) (n_q_total x) (tmp_q_total x) (forced_reg x)).

Definition ra_add_node (g : ra_graph) (class : Z) : option (Z * ra_graph) :=
  let n := g_count g in
  g ← ra_resize_interference_graph g (u32 (g_count g + 1));
  g ← ra_set_node_class g n class;
  Some (n, g).

Definition ra_add_node_interference (rs : ra_regs) (g : ra_graph) (n1 n2 : Z) : option ra_graph :=
  assert! (n1 <? g_count g) && (n2 <? g_count g) ;;
  if n1 =? n2 then Some g
  else
    adjacent ← ra_test_adjacency_bit g n1 n2;
    if negb adjacent then
      g ← ra_set_adjacency_bit g n1 n2;
      g ← ra_add_node_adjacency rs g n1 n2;
      ra_add_node_adjacency rs g n2 n1
    else Some g.

(** The loop only changes other nodes than [n], so that the list it reads stays the
    same. *)
Definition ra_reset_node_interference (rs : ra_regs) (g : ra_graph) (n : Z) : option ra_graph :=
  x ← node g n;
  g ← for_each (fun n2 g => ra_node_remove_adjacency rs g n2 n) (adjacency x) g;
  update_node g n (fun x => RaNode [] (n_class x) (n_reg x) (n_q_total x) (tmp_q_total x) (forced_reg x)).

Definition ra_set_node_reg (g : ra_graph) (n reg : Z) : option ra_graph :=
  update_node g n (fun x => RaNode (adjacency x) (n_class x) (n_reg x) (n_q_total x) (tmp_q_total x) reg).

(** ** Simplification *)

(** One word of a bitset, and clearing it. *)
Definition bword (set i : Z) : Z := Z.land (Z.shiftr set (32 * i)) UINT32_MAX.
Definition clear_bword (set i : Z) : Z := Z.ldiff set (Z.shiftl UINT32_MAX (32 * i)).

Definition set_pq (t : ra_tmp) (pq : Z) : ra_tmp :=
  RaTmp (stack t) (in_stack t) (reg_assigned t) pq (min_q_total t) (min_q_node t) (stack_optimistic_start t).
Definition set_min (t : ra_tmp) (i total n : Z) : ra_tmp :=
  RaTmp (stack t) (in_stack t) (reg_assigned t) (pq_test t)
    (<[Z.to_nat i := total]> (min_q_total t)) (<[Z.to_nat i := n]> (min_q_node t)) (stack_optimistic_start t).

Definition update_pq_info (rs : ra_regs) (g : ra_graph) (n : Z) : option ra_graph :=
  let i := n / 32 in
  x ← node g n;
  c ← class_of rs (n_class x);
  if tmp_q_total x <? c_p c then Some (set_tmp g (set_pq (g_tmp g) (Z.setbit (pq_test (g_tmp g)) n)))
  else
    mq ← min_q_total (g_tmp g) !! Z.to_nat i;
    if negb (mq =? UINT32_MAX) then
      mn ← min_q_node (g_tmp g) !! Z.to_nat i;
      if (tmp_q_total x <? mq) || ((tmp_q_total x =? mq) && (n >? mn))
      then Some (set_tmp g (set_min (g_tmp g) i (tmp_q_total x) n))
      else Some g
    else Some g.

(** The body of the loop of [add_node_to_stack] over the neighbours. *)
Definition decrease_neighbor (rs : ra_regs) (n_class_ : Z) (n2 : Z) (g : ra_graph) : option ra_graph :=
  x2 ← node g n2;
  if negb (Z.testbit (in_stack (g_tmp g)) n2) && negb (Z.testbit (reg_assigned (g_tmp g)) n2) then
    q ← q_value rs (n_class x2) n_class_;
    assert! tmp_q_total x2 >=? q ;;
    g ← update_node g n2 (fun x => RaNode (adjacency x) (n_class x) (n_reg x) (n_q_total x)
                                     (u32 (tmp_q_total x - q)) (forced_reg x));
    update_pq_info rs g n2
  else Some g.

Definition add_node_to_stack (rs : ra_regs) (g : ra_graph) (n : Z) : option ra_graph :=
  x ← node g n;
  assert! negb (Z.testbit (in_stack (g_tmp g)) n) ;;
  g ← for_each (decrease_neighbor rs (n_class x)) (adjacency x) g;
  let t := g_tmp g in
  Some (set_tmp g (RaTmp (n :: stack t) (Z.setbit (in_stack t) n) (reg_assigned t) (pq_test t)
                     (<[Z.to_nat (n / 32) := UINT32_MAX]> (min_q_total t)) (min_q_node t)
                     (stack_optimistic_start t))).

(** The words [i = BITSET_WORDS(count) - 1, ..., 0] and, in each, the bits
    [high_bit, ..., 0]. *)
Definition word_indices (count : Z) : list Z := reverse (seqZ 0 (BITSET_WORDS count)).
Definition high_bit (count i : Z) : Z :=
  if i =? BITSET_WORDS count - 1 then u32 (count - 1) mod 32 else 31.
Definition bit_indices (count i : Z) : list Z := reverse (seqZ 0 (high_bit count i + 1)).

(** The pre-pass of [ra_simplify]. *)
Definition prepass_node (rs : ra_regs) (i j : Z) (g : ra_graph) : option ra_graph :=
  let n := i * 32 + j in
  g ← update_node g n (fun x => RaNode (adjacency x) (n_class x) (forced_reg x) (n_q_total x)
                                  (n_q_total x) (forced_reg x));
  x ← node g n;
  let t := g_tmp g in
  let g := if negb (n_reg x =? NO_REG)
           then set_tmp g (RaTmp (stack t) (in_stack t) (Z.setbit (reg_assigned t) n) (pq_test t)
                             (min_q_total t) (min_q_node t) (stack_optimistic_start t))
           else g in
  update_pq_info rs g n.

Definition prepass_word (rs : ra_regs) (i : Z) (g : ra_graph) : option ra_graph :=
  let t := g_tmp g in
  assert! (i <? Z.of_nat (length (min_q_total t))) && (i <? Z.of_nat (length (min_q_node t))) ;;
  let g := set_tmp g (RaTmp (stack t) (clear_bword (in_stack t) i) (clear_bword (reg_assigned t) i)
                        (clear_bword (pq_test t) i)
                        (<[Z.to_nat i := UINT32_MAX]> (min_q_total t))
                        (<[Z.to_nat i := UINT32_MAX]> (min_q_node t)) (stack_optimistic_start t)) in
  for_each (prepass_node rs i) (bit_indices (g_count g) i) g.

Definition prepass (rs : ra_regs) (g : ra_graph) : option ra_graph :=
  let t := g_tmp g in
  let g := set_tmp g (RaTmp [] (in_stack t) (reg_assigned t) (pq_test t)
                        (min_q_total t) (min_q_node t) (stack_optimistic_start t)) in
  for_each (prepass_word rs) (word_indices (g_count g)) g.

(** The local variables of one round of the main loop. *)
Record pass := Pass {
  p_graph : ra_graph;
  progress : bool;
  p_min_total : Z;
  p_min_node : Z;
}.

(** Pushing the nodes of a word that pass the pq test; the state is the graph, [pq]
    and [progress]. *)
Definition push_bit (rs : ra_regs) (i skip j : Z) (s : ra_graph * Z * bool)
    : option (ra_graph * Z * bool) :=
  let '(g, pq, progress) := s in
  if Z.testbit pq j then
    let n := i * 32 + j in
    assert! n <? g_count g ;;
    g ← add_node_to_stack rs g n;
    Some (g, Z.land (bword (pq_test (g_tmp g)) i) (not32 skip), true)
  else Some s.

(** Recomputing the smallest q total of a word. *)
Definition min_bit (i skip j : Z) (g : ra_graph) : option ra_graph :=
  if Z.testbit skip j then Some g
  else
    let n := i * 32 + j in
    assert! n <? g_count g ;;
    x ← node g n;
    mq ← min_q_total (g_tmp g) !! Z.to_nat i;
    if tmp_q_total x <? mq then Some (set_tmp g (set_min (g_tmp g) i (tmp_q_total x) n)) else Some g.

Definition simplify_word (rs : ra_regs) (i : Z) (s : pass) : option pass :=
  let g := p_graph s in
  let mask := Z.shiftr UINT32_MAX (31 - high_bit (g_count g) i) in
  let skip := Z.lor (bword (in_stack (g_tmp g)) i) (bword (reg_assigned (g_tmp g)) i) in
  if skip =? mask then Some s
  else
    let pq := Z.land (bword (pq_test (g_tmp g)) i) (not32 skip) in
    if negb (pq =? 0) then
      '(g, _, progress) ← for_each (push_bit rs i skip) (bit_indices (g_count g) i) (g, pq, progress s);
      Some (Pass g progress (p_min_total s) (p_min_node s))
    else if negb (progress s) then
      mq ← min_q_total (g_tmp g) !! Z.to_nat i;
      g ← (if mq =? UINT32_MAX then for_each (min_bit i skip) (bit_indices (g_count g) i) g else Some g);
      mq ← min_q_total (g_tmp g) !! Z.to_nat i;
      mn ← min_q_node (g_tmp g) !! Z.to_nat i;
      if mq <? p_min_total s then Some (Pass g (progress s) mq mn)
      else Some (Pass g (progress s) (p_min_total s) (p_min_node s))
    else Some s.

(** [while (progress)] with [stack_optimistic_start]. *)
Fixpoint simplify_loop (fuel : nat) (rs : ra_regs) (g : ra_graph) (optimistic_start : Z)
    : option (ra_graph * Z) :=
  match fuel with
  | O => None
  | S fuel =>
      s ← for_each (simplify_word rs) (word_indices (g_count g)) (Pass g false UINT32_MAX UINT32_MAX);
      let g := p_graph s in
      if negb (progress s) && negb (p_min_total s =? UINT32_MAX) then
        let optimistic_start :=
          if optimistic_start =? UINT32_MAX then Z.of_nat (length (stack (g_tmp g))) else optimistic_start in
        g ← add_node_to_stack rs g (p_min_node s);
        simplify_loop fuel rs g optimistic_start
      else if progress s then simplify_loop fuel rs g optimistic_start
      else Some (g, optimistic_start)
  end.

Definition ra_simplify (rs : ra_regs) (g : ra_graph) : option ra_graph :=
  g ← prepass rs g;
  '(g, optimistic_start) ← simplify_loop (S (S (Z.to_nat (g_count g)))) rs g UINT32_MAX;
  let t := g_tmp g in
  Some (set_tmp g (RaTmp (stack t) (in_stack t) (reg_assigned t) (pq_test t)
                     (min_q_total t) (min_q_node t) optimistic_start)).

(** ** Selection *)

(** [ra_find_conflicting_neighbor]: the first such neighbour, if there is one. *)
Fixpoint conflicting_neighbor (rs : ra_regs) (g : ra_graph) (c : ra_class) (r : Z) (l : list Z)
    : option (option ra_node) :=
  match l with
  | [] => Some None
  | n2 :: l =>
      if negb (Z.testbit (in_stack (g_tmp g)) n2) then
        x2 ← node g n2;
        c2 ← class_of rs (n_class x2);
        conflict ← ra_class_allocations_conflict rs c r c2 (n_reg x2);
        if (conflict : bool) then Some (Some x2) else conflicting_neighbor rs g c r l
      else conflicting_neighbor rs g c r l
  end.
Definition ra_find_conflicting_neighbor (rs : ra_regs) (g : ra_graph) (n r : Z) : option (option ra_node) :=
  x ← node g n;
  c ← class_of rs (n_class x);
  conflicting_neighbor rs g c r (adjacency x).

(** The registers a coloured neighbour [x2] leaves. *)
Definition remove_conflicts (rs : ra_regs) (g : ra_graph) (c : ra_class) (n2 avail : Z) : option Z :=
  x2 ← node g n2;
  c2 ← class_of rs (n_class x2);
  if negb (Z.testbit (in_stack (g_tmp g)) n2) then
    if negb (contig_len c =? 0) then
      let start := MAX2 0 (n_reg x2 - contig_len c + 1) in
      let last := MIN2 (reg_count rs) (u32 (n_reg x2 + contig_len c2)) in
      Some (foldl Z.clearbit avail (seqZ start (last - start)))
    else
      reg2 ← regs rs !! Z.to_nat (n_reg x2);
      conf ← conflicts reg2;
      Some (Z.ldiff avail conf)
  else Some avail.

Definition ra_compute_available_regs (rs : ra_regs) (g : ra_graph) (n : Z) : option (bool * Z) :=
  x ← node g n;
  c ← class_of rs (n_class x);
  avail ← for_each (remove_conflicts rs g c) (adjacency x) (c_regs c);
  Some (negb (avail =? 0), avail).

(** The search of [ra_select] for the first register without a conflict: [Some None]
    if there is none. *)
Fixpoint find_reg (fuel : nat) (rs : ra_regs) (g : ra_graph) (n : Z) (c : ra_class) (start ri : Z)
    : option (option Z) :=
  match fuel with
  | O => None
  | S fuel =>
      if ri <? reg_count rs then
        let r := u32 (start + ri) mod reg_count rs in
        if negb (reg_belongs_to_class r c) then find_reg fuel rs g n c start (u32 (ri + 1))
        else
          conflicting ← ra_find_conflicting_neighbor rs g n r;
          match conflicting with
          | None => Some (Some r)
          | Some x2 =>
              c2 ← class_of rs (n_class x2);
              if negb (contig_len c2 =? 0) then
                let conflicting_end := u32 (n_reg x2 + contig_len c2 - 1) in
                assert! conflicting_end >=? r ;;
                find_reg fuel rs g n c start (u32 (u32 (ri + (conflicting_end - r)) + 1))
              else find_reg fuel rs g n c start (u32 (ri + 1))
          end
      else Some None
  end.

Section select.
Context (rs : ra_regs).
(** [select_reg_callback] with its data, if one was set. *)
Context (select_reg_callback : option (Z -> Z -> Z)).

(** The register for one node, [Some None] if there is none. *)
Definition select_reg (g : ra_graph) (n start_search_reg : Z) : option (option Z) :=
  match select_reg_callback with
  | Some callback =>
      '(ok, avail) ← ra_compute_available_regs rs g n;
      if negb ok then Some None
      else
        let r := callback n avail in
        assert! r <? reg_count rs ;;
        Some (Some r)
  | None =>
      x ← node g n;
      c ← class_of rs (n_class x);
      find_reg (S (Z.to_nat (reg_count rs))) rs g n c start_search_reg 0
  end.

Definition set_stack (g : ra_graph) (st : list Z) (in_st : Z) : ra_graph :=
  let t := g_tmp g in
  set_tmp g (RaTmp st in_st (reg_assigned t) (pq_test t) (min_q_total t) (min_q_node t)
               (stack_optimistic_start t)).

(** [while (stack_count != 0)] *)
Fixpoint select_loop (st : list Z) (g : ra_graph) (start_search_reg : Z) : option (bool * ra_graph) :=
  match st with
  | [] => Some (true, g)
  | n :: st' =>
      let g := set_stack g st (Z.clearbit (in_stack (g_tmp g)) n) in
      r ← select_reg g n start_search_reg;
      match r with
      | None => Some (false, g)
      | Some r =>
          g ← update_node g n (fun x => RaNode (adjacency x) (n_class x) r (n_q_total x)
                                          (tmp_q_total x) (forced_reg x));
          let g := set_stack g st' (in_stack (g_tmp g)) in
          let start_search_reg :=
            if round_robin rs
               && (u32 (Z.of_nat (length st') - 1) <=? stack_optimistic_start (g_tmp g))
            then r + 1 else start_search_reg in
          select_loop st' g start_search_reg
      end
  end.

Definition ra_select (g : ra_graph) : option (bool * ra_graph) := select_loop (stack (g_tmp g)) g 0.

Definition ra_allocate (g : ra_graph) : option (bool * ra_graph) :=
  g ← ra_simplify rs g;
  ra_select g.
End select.

Definition ra_get_node_reg (g : ra_graph) (n : Z) : option Z :=
  x ← node g n;
  Some (if negb (forced_reg x =? NO_REG) then forced_reg x else n_reg x).

(** * The static part of a graph *)

(** What allocation does not change in a node. *)
Definition static (x : ra_node) : list Z * Z * Z * Z := (adjacency x, n_class x, n_q_total x, forced_reg x).

Section allocation.
Context (rs : ra_regs) `{!RegSetReady rs}.
(** The graph before allocation. *)
Context (G : ra_graph).

Definition gnode (n : Z) : ra_node := default fresh_node (node G n).
Definition gadj (n : Z) : list Z := adjacency (gnode n).
Definition gforced (n : Z) : Z := forced_reg (gnode n).
Definition gq (n : Z) : Z := n_q_total (gnode n).
Definition gclass (n : Z) : ra_class := default (RaClass 0 0 0 []) (class_of rs (n_class (gnode n))).

(** q of the classes of two nodes, and p of the class of a node. *)
Definition Q (n n2 : Z) : Z := default 0 (q_value rs (n_class (gnode n)) (n_class (gnode n2))).
Definition P (n : Z) : Z := c_p (gclass n).

(** The q values of those neighbours of a node that are in a set. *)
Fixpoint qsum (n : Z) (s : Z -> bool) (l : list Z) : Z :=
  match l with
  | [] => 0
  | n2 :: l => (if s n2 then Q n n2 else 0) + qsum n s l
  end.
Definition mem (st : list Z) (n : Z) : bool := bool_decide (n ∈ st).
Definition insum (n : Z) (st : list Z) : Z := qsum n (mem st) (gadj n).

Definition W : Z := BITSET_WORDS (g_count G).

(** A graph as the client builds it. *)
Record graph_ok : Prop := {
  go_count : 0 <= g_count G < 2 ^ 31 /\ (Z.to_nat (g_count G) <= length (g_nodes G))%nat;
  go_class : forall n, 0 <= n < g_count G -> 0 <= n_class (gnode n)
    /\ exists c, class_of rs (n_class (gnode n)) = Some c;
  go_nodup : forall n, 0 <= n < g_count G -> NoDup (gadj n);
  go_adj : forall n n2, 0 <= n < g_count G -> n2 ∈ gadj n -> 0 <= n2 < g_count G /\ n2 <> n;
  go_sym : forall n n2, 0 <= n < g_count G -> n2 ∈ gadj n -> n ∈ gadj n2;
  go_q : forall n, 0 <= n < g_count G -> qsum n (fun _ => true) (gadj n) <= gq n < UINT32_MAX;
  go_forced : forall n, 0 <= n < g_count G -> gforced n = NO_REG
    \/ (0 <= gforced n < reg_count rs /\ gforced n + contig_len (gclass n) <= reg_count rs);
  go_words : W <= Z.of_nat (length (min_q_total (g_tmp G))) /\ W <= Z.of_nat (length (min_q_node (g_tmp G)));
}.
Context (HG : graph_ok).

Record same_graph (g : ra_graph) : Prop := {
  sg_count : g_count g = g_count G;
  sg_nodes : static <$> g_nodes g = static <$> g_nodes G;
}.

Local Notation range n := (0 <= n < g_count G).
(** A node the allocator has to colour. *)
Definition free_node (n : Z) : Prop := range n /\ gforced n = NO_REG.

Lemma node_some g n : same_graph g -> range n -> exists x, node g n = Some x.
Proof using HG.
  intros Hs Hn. pose proof (go_count HG). pose proof (f_equal length (sg_nodes _ Hs)) as Hl.
  rewrite !length_fmap in Hl. apply lookup_lt_is_Some_2. lia.
Qed.

Lemma node_static g n x :
  same_graph g -> node g n = Some x ->
  adjacency x = gadj n /\ n_class x = n_class (gnode n) /\ n_q_total x = gq n /\ forced_reg x = gforced n.
Proof.
  intros Hs Hx. pose proof (f_equal (fun l => l !! Z.to_nat n) (sg_nodes _ Hs)) as He. cbn in He.
  rewrite !list_lookup_fmap in He. unfold node in Hx. rewrite Hx in He. unfold gadj, gq, gforced, gnode, node.
  destruct (g_nodes G !! Z.to_nat n) as [y|]; cbn in He; [|done]. injection He as -> -> -> ->. done.
Qed.

Lemma class_defined n : range n -> class_of rs (n_class (gnode n)) = Some (gclass n) /\ gclass n ∈ classes rs.
Proof using HG.
  intros Hn. destruct (go_class HG n Hn) as [_ [c Hc]]. unfold gclass. rewrite Hc. split; [done|].
  by eapply list_elem_of_lookup_2.
Qed.

Lemma Q_defined n n2 :
  range n -> range n2 -> q_value rs (n_class (gnode n)) (n_class (gnode n2)) = Some (Q n n2) /\ 0 <= Q n n2.
Proof using HG RegSetReady0.
  intros Hn Hn2. destruct (go_class HG n Hn) as [H0 [c Hc]]. destruct (go_class HG n2 Hn2) as [H1 [c2 Hc2]].
  unfold class_of in *. destruct (rd_q _ _ c c2 H0 H1 Hc Hc2) as (q & Eq & Hq & _). unfold Q, q_value, class_of.
  rewrite Hc. cbn. rewrite Eq. done.
Qed.

Lemma qsum_range n s l : range n -> (forall n2, n2 ∈ l -> range n2) -> 0 <= qsum n s l <= qsum n (fun _ => true) l.
Proof using HG RegSetReady0.
  intros Hn. induction l as [|n2 l IH]; intros Hl; cbn [qsum]; [lia|].
  specialize (IH ltac:(intros; apply Hl; set_solver)).
  pose proof (proj2 (Q_defined n n2 Hn (Hl n2 ltac:(set_solver)))). destruct (s n2); lia.
Qed.

Lemma insum_range n st : range n -> 0 <= insum n st <= gq n.
Proof using HG RegSetReady0.
  intros Hn. pose proof (go_q HG n Hn).
  pose proof (qsum_range n (mem st) (gadj n) Hn ltac:(intros n2 H2; by apply (go_adj HG n n2 Hn))). unfold insum. lia.
Qed.

Lemma qsum_ext n s s' l : (forall n2, n2 ∈ l -> s n2 = s' n2) -> qsum n s l = qsum n s' l.
Proof.
  induction l as [|n2 l IH]; intros H; cbn [qsum]; [done|]. rewrite H, IH by set_solver. done.
Qed.

Lemma mem_true st n : mem st n = true <-> n ∈ st.
Proof. unfold mem. by rewrite bool_decide_eq_true. Qed.
Lemma mem_false st n : mem st n = false <-> ~ (n ∈ st).
Proof. unfold mem. by rewrite bool_decide_eq_false. Qed.

Lemma qsum_push n m st l :
  NoDup l -> ~ (m ∈ st) ->
  qsum n (mem (m :: st)) l = qsum n (mem st) l + (if mem l m then Q n m else 0).
Proof.
  intros Hnd Hm. induction Hnd as [|n2 l Hn2 Hnd IH]; cbn [qsum]; [done|]. rewrite IH.
  destruct (decide (n2 = m)) as [->|Hne].
  - assert (mem (m :: st) m = true) as -> by (apply mem_true; set_solver).
    assert (mem st m = false) as -> by (by apply mem_false).
    assert (mem l m = false) as -> by (by apply mem_false).
    assert (mem (m :: l) m = true) as -> by (apply mem_true; set_solver). lia.
  - assert (mem (m :: st) n2 = mem st n2) as -> by (unfold mem; apply bool_decide_ext; set_solver).
    assert (mem (n2 :: l) m = mem l m) as -> by (unfold mem; apply bool_decide_ext; set_solver). lia.
Qed.

Lemma insum_push n m st :
  range n -> ~ (m ∈ st) -> insum n (m :: st) = insum n st + (if mem (gadj n) m then Q n m else 0).
Proof using HG RegSetReady0. intros Hn Hm. apply qsum_push; [by apply (go_nodup HG)|done]. Qed.

(** ** Words of bitsets *)

Lemma bword_testbit s i j : 0 <= i -> 0 <= j < 32 -> Z.testbit (bword s i) j = Z.testbit s (i * 32 + j).
Proof.
  intros Hi Hj. unfold bword. rewrite Z.land_spec. change UINT32_MAX with (Z.ones 32).
  rewrite Z.ones_spec_low, andb_true_r, Z.shiftr_spec by lia. f_equal. lia.
Qed.

Lemma bword_high s i j : 32 <= j -> Z.testbit (bword s i) j = false.
Proof.
  intros Hj. unfold bword. rewrite Z.land_spec. change UINT32_MAX with (Z.ones 32).
  by rewrite Z.ones_spec_high, andb_false_r by lia.
Qed.

Lemma clear_bword_testbit s i n : 0 <= i -> 0 <= n ->
  Z.testbit (clear_bword s i) n = Z.testbit s n && negb (n / 32 =? i).
Proof.
  intros Hi Hn. unfold clear_bword. rewrite Z.ldiff_spec. f_equal. f_equal. change UINT32_MAX with (Z.ones 32).
  destruct (Z.eqb_spec (n / 32) i) as [E|E].
  - rewrite Z.shiftl_spec by lia. apply Z.ones_spec_low. pose proof (Z.div_mod n 32). dlia.
  - rewrite Z.shiftl_spec by lia. destruct (Z_lt_le_dec (n - 32 * i) 0); [by apply Z.testbit_neg_r|].
    apply Z.ones_spec_high. split; [lia|]. dlia.
Qed.

Lemma W_range n : range n -> 0 <= n / 32 < W /\ n < 32 * W.
Proof. intros Hn. unfold W, BITSET_WORDS. dlia. Qed.

(** The bits of the words are the nodes. *)
Lemma high_bit_range i : 0 <= i < W -> 0 <= high_bit (g_count G) i < 32.
Proof using HG.
  intros Hi. unfold high_bit. pose proof (go_count HG). destruct (Z.eqb_spec i (BITSET_WORDS (g_count G) - 1)); [|lia].
  apply Z.mod_pos_bound. lia.
Qed.

Lemma node_of_bit i j : 0 <= i < W -> 0 <= j < 32 -> i * 32 + j < g_count G <-> j <= high_bit (g_count G) i.
Proof using HG.
  intros Hi Hj. pose proof (go_count HG). unfold W, high_bit, BITSET_WORDS in *.
  destruct (Z.eqb_spec i ((g_count G + 31) / 32 - 1)) as [E|E].
  - rewrite u32_small by (pose proof (Z.div_pos (g_count G + 31) 32); dlia). dlia.
  - split; [lia|]. intros _. dlia.
Qed.

(** * The invariant of the simplification *)

Definition tq (g : ra_graph) (n : Z) : Z := tmp_q_total (default fresh_node (node g n)).
Definition nreg (g : ra_graph) (n : Z) : Z := n_reg (default fresh_node (node g n)).

(** A node that is still in the graph. *)
Definition live (st : list Z) (n : Z) : Prop := free_node n /\ ~ (n ∈ st).

(** [simp g st f]: the nodes [st] were pushed, and [f] gives the remaining q totals. *)
Record simp (g : ra_graph) (st : list Z) (f : Z -> Z) : Prop := {
  si_same : same_graph g;
  si_stack : stack (g_tmp g) = st;
  si_nodup : NoDup st;
  si_in : forall n, n ∈ st -> free_node n;
  si_bits : forall n, 0 <= n < 32 * W -> Z.testbit (in_stack (g_tmp g)) n = mem st n;
  si_assigned : forall n, 0 <= n < 32 * W ->
    Z.testbit (reg_assigned (g_tmp g)) n = true <-> n < g_count G /\ gforced n <> NO_REG;
  si_reg : forall n, range n -> nreg g n = gforced n;
  si_q : forall n, live st n -> tq g n = f n;
  si_pq_range : forall n, 0 <= n < 32 * W -> Z.testbit (pq_test (g_tmp g)) n = true -> n < g_count G;
  si_pq : forall n, live st n -> Z.testbit (pq_test (g_tmp g)) n = true <-> f n < P n;
  si_len : W <= Z.of_nat (length (min_q_total (g_tmp g))) /\ W <= Z.of_nat (length (min_q_node (g_tmp g)));
  si_min : forall i m mn, 0 <= i < W -> min_q_total (g_tmp g) !! Z.to_nat i = Some m -> m <> UINT32_MAX ->
    min_q_node (g_tmp g) !! Z.to_nat i = Some mn -> live st mn /\ mn / 32 = i /\ m < UINT32_MAX;
}.

(** The q totals left in the graph by a stack. *)
Definition rest (st : list Z) (n : Z) : Z := gq n - insum n st.

Lemma rest_range n st : range n -> 0 <= rest st n < UINT32_MAX.
Proof using HG RegSetReady0.
  intros Hn. pose proof (insum_range n st Hn). pose proof (go_q HG n Hn). unfold rest. lia.
Qed.

Lemma tq_node g n x : node g n = Some x -> tq g n = tmp_q_total x.
Proof. intros H. unfold tq. by rewrite H. Qed.
Lemma nreg_node g n x : node g n = Some x -> nreg g n = n_reg x.
Proof. intros H. unfold nreg. by rewrite H. Qed.

Lemma live_not_assigned g st f n :
  simp g st f -> live st n -> Z.testbit (in_stack (g_tmp g)) n = false /\ Z.testbit (reg_assigned (g_tmp g)) n = false.
Proof.
  intros HS [[Hn Hf] Hst]. pose proof (W_range n Hn). split.
  - rewrite (si_bits _ _ _ HS) by lia. by apply mem_false.
  - apply not_true_is_false. rewrite (si_assigned _ _ _ HS) by lia. tauto.
Qed.

Lemma live_iff g st f n :
  simp g st f -> range n ->
  live st n <-> negb (Z.testbit (in_stack (g_tmp g)) n) && negb (Z.testbit (reg_assigned (g_tmp g)) n) = true.
Proof.
  intros HS Hn. pose proof (W_range n Hn). split.
  - intros Hl. by destruct (live_not_assigned g st f n HS Hl) as [-> ->].
  - rewrite andb_true_iff, !negb_true_iff. intros [H1 H2]. rewrite (si_bits _ _ _ HS) in H1 by lia.
    apply mem_false in H1. split; [|done]. split; [done|].
    destruct (Z.eq_dec (gforced n) NO_REG) as [|Hne]; [done|].
    assert (Z.testbit (reg_assigned (g_tmp g)) n = true) by (apply (si_assigned _ _ _ HS); [lia|]; split; [lia|done]).
    congruence.
Qed.

(** Changing the dynamic part of a node. *)
Lemma update_node_spec g n (f : ra_node -> ra_node) :
  same_graph g -> range n -> (forall x, static (f x) = static x) ->
  exists g' x, node g n = Some x /\ update_node g n f = Some g' /\ same_graph g' /\ g_tmp g' = g_tmp g
    /\ node g' n = Some (f x) /\ (forall m, 0 <= m -> m <> n -> node g' m = node g m).
Proof using HG.
  intros Hs Hn Hf. destruct (node_some g n Hs Hn) as [x Hx]. unfold update_node. rewrite Hx. cbn.
  eexists _, x. split; [done|]. split; [done|]. unfold node in *. pose proof (lookup_lt_Some _ _ _ Hx). split_and!.
  - constructor; cbn; [apply Hs|]. rewrite <- (sg_nodes _ Hs), list_fmap_insert, Hf.
    apply list_insert_id. by rewrite list_lookup_fmap, Hx.
  - done.
  - cbn. by apply list_lookup_insert_eq.
  - intros m Hm Hne. cbn. apply list_lookup_insert_ne. lia.
Qed.

(** The effect of [update_pq_info] on the scratch data: the node's pq bit may be set,
    and the node may become the candidate of its word if that one is up to date. *)
Record pq_updated (g : ra_graph) (n : Z) (t : ra_tmp) : Prop := {
  pu_stack : stack t = stack (g_tmp g);
  pu_in : in_stack t = in_stack (g_tmp g);
  pu_assigned : reg_assigned t = reg_assigned (g_tmp g);
  pu_pq : forall m, 0 <= m -> Z.testbit (pq_test t) m
    = Z.testbit (pq_test (g_tmp g)) m || ((m =? n) && (tq g n <? P n));
  pu_len : length (min_q_total t) = length (min_q_total (g_tmp g))
    /\ length (min_q_node t) = length (min_q_node (g_tmp g));
  pu_min : forall i m mn, min_q_total t !! i = Some m -> m <> UINT32_MAX -> min_q_node t !! i = Some mn ->
    (min_q_total (g_tmp g) !! i = Some m /\ min_q_node (g_tmp g) !! i = Some mn)
    \/ (mn = n /\ m = tq g n /\ i = Z.to_nat (n / 32)
        /\ exists m0, min_q_total (g_tmp g) !! i = Some m0 /\ m0 <> UINT32_MAX);
}.

Lemma update_pq_spec g n :
  same_graph g -> range n ->
  W <= Z.of_nat (length (min_q_total (g_tmp g))) -> W <= Z.of_nat (length (min_q_node (g_tmp g))) ->
  exists t, update_pq_info rs g n = Some (set_tmp g t) /\ pq_updated g n t.
Proof using HG.
  intros Hs Hn Hl1 Hl2. destruct (node_some g n Hs Hn) as [x Hx]. pose proof (W_range n Hn) as HW.
  destruct (node_static g n x Hs Hx) as (_ & Hc & _ & _). destruct (class_defined n Hn) as [Hcl _].
  unfold update_pq_info. rewrite Hx. cbn [mbind option_bind]. rewrite Hc, Hcl. cbn [mbind option_bind].
  rewrite <- (tq_node g n x Hx). fold (P n).
  assert (Hsame : set_tmp g (g_tmp g) = g) by (by destruct g).
  assert (Hno : tq g n <? P n = false -> pq_updated g n (g_tmp g)).
  { intros E. constructor; try done; [|auto]. intros m Hm. by rewrite E, andb_false_r, orb_false_r. }
  destruct (tq g n <? P n) eqn:E; [|specialize (Hno eq_refl)].
  - eexists. split; [done|]. constructor; cbn; try done; [|auto].
    intros m Hm. rewrite Z.setbit_eqb by lia. rewrite E, andb_true_r, orb_comm, Z.eqb_sym. done.
  - destruct (lookup_lt_is_Some_2 (min_q_total (g_tmp g)) (Z.to_nat (n / 32))) as [mq Emq]; [lia|].
    destruct (lookup_lt_is_Some_2 (min_q_node (g_tmp g)) (Z.to_nat (n / 32))) as [mn Emn]; [lia|].
    rewrite Emq. cbn [mbind option_bind].
    destruct (Z.eqb_spec mq UINT32_MAX) as [Eq|Eq]; cbn [negb]; [exists (g_tmp g); by rewrite Hsame|].
    rewrite Emn. cbn [mbind option_bind]. case_if_eqn; [|exists (g_tmp g); by rewrite Hsame].
    eexists. split; [done|]. constructor; cbn; try done.
    + intros m Hm. by rewrite E, andb_false_r, orb_false_r.
    + by rewrite !length_insert.
    + intros i m mn' H1 H2 H3. apply list_lookup_insert_Some in H1 as [(<- & <- & _)|[Hne H1]].
      * rewrite list_lookup_insert_eq in H3 by lia. right. injection H3 as <-. split_and!; eauto.
      * rewrite list_lookup_insert_ne in H3 by done. auto.
Qed.

(** ** Pushing a node *)

(** One neighbour of the node being pushed. *)
Lemma decrease_spec g st f n n2 :
  simp g st f -> free_node n -> n2 ∈ gadj n ->
  (live st n2 -> Q n2 n <= f n2 < UINT32_MAX) ->
  exists g', decrease_neighbor rs (n_class (gnode n)) n2 g = Some g'
    /\ simp g' st (fun m => if m =? n2 then f m - Q m n else f m).
Proof using HG RegSetReady0.
  intros HS [Hn _] Hadj Hf. pose proof (si_same _ _ _ HS) as Hs. destruct (go_adj HG n n2 Hn Hadj) as [Hn2 _].
  destruct (node_some g n2 Hs Hn2) as [x2 Hx2]. unfold decrease_neighbor. rewrite Hx2. cbn [mbind option_bind].
  pose proof (live_iff g st f n2 HS Hn2) as Hlive.
  destruct (negb (Z.testbit (in_stack (g_tmp g)) n2) && negb (Z.testbit (reg_assigned (g_tmp g)) n2)).
  2: { exists g. split; [done|]. destruct HS. constructor; try done; intros m Hm; (destruct (Z.eqb_spec m n2) as [->|]; [by apply Hlive in Hm|]); auto. }
  assert (Hl2 : live st n2) by (by apply Hlive). specialize (Hf Hl2). clear Hlive.
  destruct (node_static g n2 x2 Hs Hx2) as (_ & Hc2 & _ & _). rewrite Hc2.
  destruct (Q_defined n2 n Hn2 Hn) as [-> HQ]. cbn [mbind option_bind].
  assert (Ht : tmp_q_total x2 = f n2) by (rewrite <- (tq_node g n2 x2 Hx2); by apply (si_q _ _ _ HS)).
  rewrite Ht. destruct (Z.geb_spec (f n2) (Q n2 n)); [|lia].
  match goal with |- context [update_node g n2 ?h] =>
    destruct (update_node_spec g n2 h Hs Hn2) as (g1 & x & Ex & -> & Hs1 & T1 & N1 & O1); [done|] end.
  rewrite Hx2 in Ex. injection Ex as <-. cbn [mbind option_bind].
  rewrite Ht, u32_small in N1 by (unfold UINT32_MAX in *; lia).
  destruct (update_pq_spec g1 n2 Hs1 Hn2) as (t & -> & [U1 U2 U3 U4 U5 U6]); [rewrite T1; apply HS..|].
  eexists. split; [done|]. rewrite T1 in *.
  assert (Htq : forall m, 0 <= m -> tq g1 m = if m =? n2 then f n2 - Q n2 n else tq g m).
  { intros m Hm. unfold tq. destruct (Z.eqb_spec m n2) as [->|]; [by rewrite N1|]. by rewrite O1 by lia. }
  rewrite (Htq n2), Z.eqb_refl in U4 by lia.
  constructor; cbn [set_tmp g_tmp g_count g_nodes]; rewrite ?U1, ?U2, ?U3; try apply HS.
  - destruct Hs1. constructor; done.
  - intros m Hm. change (nreg g1 m = gforced m). unfold nreg. destruct (Z.eq_dec m n2) as [->|].
    + rewrite N1. cbn. rewrite <- (nreg_node g n2 x2 Hx2). by apply (si_reg _ _ _ HS).
    + rewrite O1 by lia. by apply (si_reg _ _ _ HS).
  - intros m Hm. change (tq g1 m = if m =? n2 then f m - Q m n else f m).
    rewrite Htq by (destruct Hm as [[? _] _]; lia). destruct (Z.eqb_spec m n2) as [->|]; [done|by apply (si_q _ _ _ HS)].
  - intros m Hm. rewrite U4 by lia. intros [H1|H1]%orb_true_iff; [by apply (si_pq_range _ _ _ HS)|].
    apply andb_true_iff in H1 as [->%Z.eqb_eq _]. lia.
  - intros m Hm. rewrite U4, orb_true_iff, (si_pq _ _ _ HS) by (done || destruct Hm as [[? _] _]; lia).
    destruct (Z.eqb_spec m n2) as [->|]; cbn [andb]; [|intuition congruence]. rewrite Z.ltb_lt. lia.
  - rewrite (proj1 U5), (proj2 U5). apply HS.
  - intros i m mn Hi H1 H2 H3. destruct (U6 _ _ _ H1 H2 H3) as [[H4 H5]|(-> & -> & Hi' & _)].
    + by apply (si_min _ _ _ HS i m mn).
    + split; [done|]. pose proof (W_range n2 Hn2). rewrite (Htq n2), Z.eqb_refl by lia. lia.
Qed.

Lemma simp_ext g st f f' : simp g st f -> (forall m, live st m -> f m = f' m) -> simp g st f'.
Proof.
  intros HS Hf. destruct HS. constructor; try done; intros m Hm; rewrite <- Hf by done; auto.
Qed.

Lemma adj_sym n m : range n -> range m -> mem (gadj n) m = mem (gadj m) n.
Proof using HG.
  intros Hn Hm. unfold mem. apply bool_decide_ext. split; intros H; by apply (go_sym HG).
Qed.

Lemma rest_push st n m : range m -> range n -> ~ (n ∈ st) ->
  rest (n :: st) m = rest st m - (if mem (gadj n) m then Q m n else 0).
Proof using HG RegSetReady0.
  intros Hm Hn Hst. unfold rest. rewrite insum_push by done. rewrite (adj_sym n m) by done. lia.
Qed.

Lemma decrease_loop g st n :
  simp g st (rest st) -> live st n ->
  exists g', for_each (decrease_neighbor rs (n_class (gnode n))) (gadj n) g = Some g'
    /\ simp g' st (fun m => rest st m - if mem (gadj n) m then Q m n else 0).
Proof using HG RegSetReady0.
  intros HS [[Hn Hforced] Hst].
  destruct (for_each_rule (fun pre g => simp g st (fun m => rest st m - if mem pre m then Q m n else 0))
    (decrease_neighbor rs (n_class (gnode n))) (gadj n) g) as (g' & E & HS'); [| |eauto].
  - eapply simp_ext; [exact HS|]. intros m _. cbn beta.
    rewrite (proj2 (mem_false [] m)) by set_solver. lia.
  - intros pre n2 post g1 Hsplit HS1. assert (Hadj : n2 ∈ gadj n) by (rewrite Hsplit; set_solver).
    destruct (go_adj HG n n2 Hn Hadj) as [Hn2 _].
    assert (Hpre : ~ (n2 ∈ pre)).
    { pose proof (go_nodup HG n Hn) as Hnd. rewrite Hsplit in Hnd. apply NoDup_app in Hnd as (_ & Hd & _).
      intros Hp. apply (Hd n2 Hp). set_solver. }
    destruct (decrease_spec g1 st _ n n2 HS1 (conj Hn Hforced) Hadj) as (g2 & -> & HS2).
    { intros _. cbn. rewrite (proj2 (mem_false pre n2) Hpre). pose proof (rest_range n2 st Hn2).
      pose proof (rest_range n2 (n :: st) Hn2) as H2. rewrite rest_push in H2 by done.
      rewrite (proj2 (mem_true (gadj n) n2) Hadj) in H2. lia. }
    exists g2. split; [done|]. eapply simp_ext; [exact HS2|]. intros m Hm. cbn.
    destruct (Z.eqb_spec m n2) as [->|Hne].
    + rewrite (proj2 (mem_false pre n2) Hpre).
      assert (mem (pre ++ [n2]) n2 = true) as -> by (apply mem_true; set_solver). lia.
    + assert (mem (pre ++ [n2]) m = mem pre m) as -> by (unfold mem; apply bool_decide_ext; set_solver). done.
Qed.

Lemma push_spec g st n :
  simp g st (rest st) -> live st n ->
  exists g', add_node_to_stack rs g n = Some g' /\ simp g' (n :: st) (rest (n :: st)).
Proof using HG RegSetReady0.
  intros HS Hl. pose proof Hl as [[Hn Hforced] Hst]. pose proof (W_range n Hn) as HW.
  unfold add_node_to_stack. destruct (node_some g n (si_same _ _ _ HS) Hn) as [x Hx]. rewrite Hx.
  cbn [mbind option_bind]. destruct (node_static g n x (si_same _ _ _ HS) Hx) as (-> & -> & _ & _).
  rewrite (proj1 (live_not_assigned g st _ n HS Hl)). cbn [negb].
  destruct (decrease_loop g st n HS Hl) as (g1 & -> & HS1). cbn [mbind option_bind].
  eexists. split; [done|]. destruct HS1 as [S1 S2 S3 S4 S5 S6 S7 S8 S9 S10 S11 S12].
  assert (Hlive : forall m, live (n :: st) m -> live st m /\ m <> n /\ range m).
  { intros m [[Hm Hfm] Hnin]. split; [split; [by split|set_solver]|]. split; [intros ->; set_solver|done]. }
  constructor; cbn [set_tmp g_tmp g_count g_nodes stack in_stack reg_assigned pq_test min_q_total min_q_node]; try done.
  - destruct S1. by constructor.
  - by rewrite S2.
  - by constructor.
  - intros m [->|Hm]%elem_of_cons; [by split|by apply S4].
  - intros m Hm. rewrite Z.setbit_eqb, S5 by lia. destruct (Z.eqb_spec n m) as [->|].
    + symmetry. cbn. apply mem_true. set_solver.
    + cbn. unfold mem. apply bool_decide_ext. set_solver.
  - intros m Hm. destruct (Hlive m Hm) as (Hm' & _ & Hmr). rewrite rest_push by done. by apply S8.
  - intros m Hm. destruct (Hlive m Hm) as (Hm' & _ & Hmr). rewrite rest_push by done. by apply S10.
  - by rewrite length_insert.
  - intros i m mn Hi H1 H2 H3. apply list_lookup_insert_Some in H1 as [(_ & <- & _)|[Hne H1]]; [done|].
    destruct (S12 i m mn Hi H1 H2 H3) as ([Hmn Hmn'] & Hdiv & Hlt). split; [|done]. split; [done|].
    intros [->|?]%elem_of_cons; [|done]. destruct Hne. lia.
Qed.

(** ** The pre-pass *)

(** The state after the words [ws] were cleared and the nodes [D] initialised. *)
Record pre_ok (g : ra_graph) (ws : list Z) (D : Z -> Prop) : Prop := {
  pr_same : same_graph g;
  pr_stack : stack (g_tmp g) = [];
  pr_in : forall n, 0 <= n -> n / 32 ∈ ws -> Z.testbit (in_stack (g_tmp g)) n = false;
  pr_assigned : forall n, 0 <= n -> n / 32 ∈ ws ->
    Z.testbit (reg_assigned (g_tmp g)) n = true <-> D n /\ gforced n <> NO_REG;
  pr_pq : forall n, 0 <= n -> n / 32 ∈ ws -> Z.testbit (pq_test (g_tmp g)) n = true <-> D n /\ gq n < P n;
  pr_node : forall n, range n -> D n -> nreg g n = gforced n /\ tq g n = gq n;
  pr_len : W <= Z.of_nat (length (min_q_total (g_tmp g))) /\ W <= Z.of_nat (length (min_q_node (g_tmp g)));
  pr_min : forall i m, i ∈ ws -> 0 <= i < W -> min_q_total (g_tmp g) !! Z.to_nat i = Some m -> m = UINT32_MAX;
}.

Lemma pre_ext g ws D D' : pre_ok g ws D -> (forall n, D n <-> D' n) -> pre_ok g ws D'.
Proof.
  intros [R1 R2 R3 R4 R5 R6 R7 R8] H. constructor; try done; intros n; intros; rewrite <- H in *; auto.
Qed.

Lemma prepass_node_spec g ws D i j :
  pre_ok g ws D -> range (i * 32 + j) -> (i * 32 + j) / 32 ∈ ws ->
  exists g', prepass_node rs i j g = Some g' /\ pre_ok g' ws (fun n => D n \/ n = i * 32 + j).
Proof using HG.
  intros [R1 R2 R3 R4 R5 R6 R7 R8] Hn Hw. set (n := i * 32 + j) in *. unfold prepass_node. fold n.
  match goal with |- context [update_node g n ?h] =>
    destruct (update_node_spec g n h R1 Hn) as (g1 & x & Ex & -> & Hs1 & T1 & N1 & O1); [done|] end.
  cbn [mbind option_bind]. rewrite N1. cbn [mbind option_bind n_reg].
  destruct (node_static g n x R1 Ex) as (_ & _ & Eq & Ef).
  set (g2 := if negb (forced_reg x =? NO_REG) then _ else g1).
  assert (H2 : g_nodes g2 = g_nodes g1 /\ same_graph g2 /\ stack (g_tmp g2) = [] /\ in_stack (g_tmp g2) = in_stack (g_tmp g)
    /\ pq_test (g_tmp g2) = pq_test (g_tmp g) /\ min_q_total (g_tmp g2) = min_q_total (g_tmp g)
    /\ min_q_node (g_tmp g2) = min_q_node (g_tmp g)
    /\ forall m, 0 <= m -> Z.testbit (reg_assigned (g_tmp g2)) m
         = Z.testbit (reg_assigned (g_tmp g)) m || ((m =? n) && negb (gforced n =? NO_REG))).
  { unfold g2. rewrite <- Ef. destruct Hs1. destruct (Z.eqb_spec (forced_reg x) NO_REG); cbn [negb]; cbn; rewrite T1; split_and!; try done.
    - intros m Hm. by rewrite andb_false_r, orb_false_r.
    - intros m Hm. rewrite Z.setbit_eqb by lia. rewrite andb_true_r, orb_comm, Z.eqb_sym. done. }
  destruct H2 as (A1 & A2 & A3 & A4 & A5 & A6 & A7 & A8). clearbody g2.
  assert (Hval : forall m, range m -> nreg g2 m = (if m =? n then gforced n else nreg g m)
    /\ tq g2 m = if m =? n then gq n else tq g m).
  { intros m Hm. unfold nreg, tq, node in *. rewrite A1. destruct (Z.eqb_spec m n) as [->|].
    - rewrite N1. cbn. by rewrite Ef, Eq.
    - by rewrite O1 by lia. }
  destruct (update_pq_spec g2 n A2 Hn) as (t & -> & [U1 U2 U3 U4 U5 U6]); [rewrite ?A6, ?A7; apply R7..|].
  eexists. split; [done|]. rewrite (proj2 (Hval n Hn)), Z.eqb_refl, A5 in U4. rewrite A6, A7 in U5, U6.
  constructor; cbn [set_tmp g_tmp g_count g_nodes]; rewrite ?U1, ?U2, ?U3, ?A3, ?A4; try done.
  - destruct A2. by constructor.
  - intros m Hm Hmw. rewrite A8, orb_true_iff, R4 by done. destruct (Z.eqb_spec m n) as [->|]; cbn [andb].
    + rewrite negb_true_iff, Z.eqb_neq. tauto.
    + intuition congruence.
  - intros m Hm Hmw. rewrite U4, orb_true_iff, R5 by done. destruct (Z.eqb_spec m n) as [->|]; cbn [andb].
    + rewrite Z.ltb_lt. tauto.
    + intuition congruence.
  - intros m Hm HD. change (nreg g2 m = gforced m /\ tq g2 m = gq m). destruct (Hval m Hm) as [-> ->].
    destruct (Z.eqb_spec m n) as [->|]; [done|]. apply R6; [done|]. tauto.
  - rewrite (proj1 U5), (proj2 U5). done.
  - intros i' m Hi Hi' Hl. destruct (Z.eq_dec m UINT32_MAX) as [|Hne]; [done|].
    destruct (lookup_lt_is_Some_2 (min_q_node t) (Z.to_nat i')) as [mn Emn]; [lia|].
    destruct (U6 _ _ _ Hl Hne Emn) as [[H1 _]|(_ & _ & -> & m0 & H1 & H2)]; [by apply (R8 i')|].
    exfalso. apply H2, (R8 (n / 32)); [done|by apply W_range|done].
Qed.

Lemma elem_bit_indices i j : 0 <= i < W -> j ∈ bit_indices (g_count G) i <-> 0 <= j <= high_bit (g_count G) i.
Proof using HG.
  intros Hi. pose proof (high_bit_range i Hi). unfold bit_indices. rewrite elem_of_reverse, elem_of_seqZ. lia.
Qed.

Lemma elem_word_indices i : i ∈ word_indices (g_count G) <-> 0 <= i < W.
Proof. unfold word_indices. rewrite elem_of_reverse, elem_of_seqZ. fold W. lia. Qed.

(** A bit of a word is a node, and back. *)
Lemma bit_node i j : 0 <= i < W -> 0 <= j < 32 -> (i * 32 + j) / 32 = i /\ (i * 32 + j) mod 32 = j.
Proof. intros. dlia. Qed.

Lemma prepass_word_spec g ws i :
  pre_ok g ws (fun n => range n /\ n / 32 ∈ ws) -> 0 <= i < W -> ~ (i ∈ ws) ->
  exists g', prepass_word rs i g = Some g' /\ pre_ok g' (ws ++ [i]) (fun n => range n /\ n / 32 ∈ ws ++ [i]).
Proof using HG RegSetReady0.
  intros [R1 R2 R3 R4 R5 R6 R7 R8] Hi Hnew. unfold prepass_word.
  destruct (Z.ltb_spec i (Z.of_nat (length (min_q_total (g_tmp g))))); [|lia].
  destruct (Z.ltb_spec i (Z.of_nat (length (min_q_node (g_tmp g))))); [|lia]. cbn [andb].
  set (g1 := set_tmp g _).
  assert (H1 : pre_ok g1 (ws ++ [i]) (fun n => (range n /\ n / 32 ∈ ws) \/ exists j, j ∈ @nil Z /\ n = i * 32 + j)).
  { assert (Hbit : forall s n, 0 <= n -> n / 32 ∈ ws ++ [i] ->
      Z.testbit (clear_bword s i) n = true <-> n / 32 ∈ ws /\ Z.testbit s n = true).
    { intros s n Hn Hw. rewrite clear_bword_testbit, andb_true_iff, negb_true_iff, Z.eqb_neq by lia. set_solver. }
    constructor; cbn; try done.
    - destruct R1. by constructor.
    - intros n Hn Hw. apply not_true_is_false. rewrite Hbit by done. intros [Hw' Ht]. rewrite R3 in Ht by done. done.
    - intros n Hn Hw. rewrite Hbit by done. split; [intros [Hw' Ht]; apply R4 in Ht; [tauto|done|done]|].
      intros [[Hd|(j & ?%elem_of_nil & _)] Hf]; [|done]. split; [tauto|]. apply R4; tauto.
    - intros n Hn Hw. rewrite Hbit by done. split; [intros [Hw' Ht]; apply R5 in Ht; [tauto|done|done]|].
      intros [[Hd|(j & ?%elem_of_nil & _)] Hf]; [|done]. split; [tauto|]. apply R5; tauto.
    - intros n Hn [Hd|(j & ?%elem_of_nil & _)]; [by apply R6|done].
    - by rewrite !length_insert.
    - intros i' m Hi' Hr Hl. apply list_lookup_insert_Some in Hl as [(_ & <- & _)|[Hne Hl]]; [done|].
      apply (R8 i'); [|done|done]. apply elem_of_app in Hi' as [?| ->%list_elem_of_singleton]; [done|lia]. }
  clearbody g1. destruct (for_each_rule
    (fun pre g => pre_ok g (ws ++ [i]) (fun n => (range n /\ n / 32 ∈ ws) \/ exists j, j ∈ pre /\ n = i * 32 + j))
    (prepass_node rs i) (bit_indices (g_count g1) i) g1 H1) as (g2 & -> & H2).
  - intros pre j post g2 Hsplit H2. rewrite (sg_count _ (pr_same _ _ _ H1)) in Hsplit.
    assert (Hj : j ∈ bit_indices (g_count G) i) by (rewrite Hsplit; set_solver).
    apply elem_bit_indices in Hj; [|done]. pose proof (high_bit_range i Hi).
    pose proof (node_of_bit i j Hi ltac:(lia)). destruct (bit_node i j Hi ltac:(lia)) as [Ei _].
    destruct (prepass_node_spec g2 _ _ i j H2) as (g3 & -> & HP3); [lia|rewrite Ei; set_solver|].
    exists g3. split; [done|]. eapply pre_ext; [exact HP3|]. intros n. cbn beta. set_solver.
  - exists g2. split; [done|]. eapply pre_ext; [exact H2|]. intros n. cbn beta.
    rewrite (sg_count _ (pr_same _ _ _ H1)). split.
    + intros [?|(j & Hj & ->)]; [set_solver|]. apply elem_bit_indices in Hj; [|done]. pose proof (high_bit_range i Hi).
      pose proof (node_of_bit i j Hi ltac:(lia)). destruct (bit_node i j Hi ltac:(lia)) as [-> _].
      split; [lia|set_solver].
    + intros [Hn [Hw|Hw%list_elem_of_singleton]%elem_of_app]; [by left|]. subst i. right. exists (n mod 32).
      pose proof (Z.div_mod n 32 ltac:(lia)). pose proof (Z.mod_pos_bound n 32 ltac:(lia)).
      split; [|lia]. apply elem_bit_indices; [done|]. split; [lia|]. apply (node_of_bit (n / 32)); [done|lia|lia].
Qed.

Lemma NoDup_word_indices : NoDup (word_indices (g_count G)).
Proof. unfold word_indices. rewrite reverse_Permutation. apply NoDup_seqZ. Qed.

Lemma prepass_spec : exists g, prepass rs G = Some g /\ simp g [] (rest []).
Proof using HG RegSetReady0.
  unfold prepass. set (g0 := set_tmp G _).
  assert (Hg0 : pre_ok g0 [] (fun n => range n /\ n / 32 ∈ @nil Z)).
  { constructor; cbn; try done; try set_solver. apply (go_words HG). }
  clearbody g0. destruct (for_each_rule
    (fun ws g => pre_ok g ws (fun n => range n /\ n / 32 ∈ ws))
    (prepass_word rs) (word_indices (g_count g0)) g0 Hg0) as (g & -> & H).
  - intros ws i post g1 Hsplit H1. rewrite (sg_count _ (pr_same _ _ _ Hg0)) in Hsplit.
    apply prepass_word_spec; [done|apply elem_word_indices; rewrite Hsplit; set_solver|].
    pose proof NoDup_word_indices as Hnd. rewrite Hsplit in Hnd. apply NoDup_app in Hnd as (_ & Hd & _).
    intros Hi. apply (Hd i Hi). set_solver.
  - rewrite (sg_count _ (pr_same _ _ _ Hg0)) in H. exists g. split; [done|].
    destruct H as [R1 R2 R3 R4 R5 R6 R7 R8]. setoid_rewrite elem_word_indices in R3.
    setoid_rewrite elem_word_indices in R4. setoid_rewrite elem_word_indices in R5.
    setoid_rewrite elem_word_indices in R6. setoid_rewrite elem_word_indices in R8.
    assert (Hw : forall n, 0 <= n < 32 * W -> 0 <= n / 32 < W) by (intros; dlia).
    assert (Hr0 : forall n, rest [] n = gq n).
    { intros n. unfold rest, insum. rewrite (qsum_ext n _ (fun _ => false)) by (intros; apply mem_false; set_solver).
      induction (gadj n); cbn [qsum]; lia. }
    constructor; try done.
    + constructor.
    + set_solver.
    + intros n Hn. rewrite R3 by (auto || lia). symmetry. apply mem_false. set_solver.
    + intros n Hn. rewrite R4 by (auto || lia). specialize (Hw n Hn). lia.
    + intros n Hn. apply R6; [done|]. pose proof (W_range n Hn). lia.
    + intros n [[Hn _] _]. rewrite Hr0. apply R6; [done|]. pose proof (W_range n Hn). lia.
    + intros n Hn Ht. apply R5 in Ht; [|lia|auto]. lia.
    + intros n [[Hn _] _]. pose proof (W_range n Hn). rewrite Hr0, R5 by lia. lia.
    + intros i m mn Hi H1 H2 _. by destruct H2; apply (R8 i).
Qed.

(** ** One round of the simplification *)

(** Stacks reached by pushing nodes that pass the pq test. *)
Inductive pushed (st0 : list Z) : list Z -> Prop :=
| pushed_refl : pushed st0 st0
| pushed_cons n st : pushed st0 st -> live st n -> rest st n < P n -> pushed st0 (n :: st).

Lemma pushed_length st0 st : pushed st0 st -> st = st0 \/ (length st0 < length st)%nat.
Proof. induction 1 as [|n st _ [->|IH] _ _]; [by left|right; cbn; lia|right; cbn; lia]. Qed.

Lemma pushed_trans st0 st1 st2 : pushed st0 st1 -> pushed st1 st2 -> pushed st0 st2.
Proof. intros H1 H2. induction H2; [done|]. by constructor. Qed.

(** The word of nodes that are not to be considered. *)
Definition skip_word (g : ra_graph) (i : Z) : Z :=
  Z.lor (bword (in_stack (g_tmp g)) i) (bword (reg_assigned (g_tmp g)) i).

Lemma skip_bit g st f i j :
  simp g st f -> 0 <= i < W -> 0 <= j < 32 -> i * 32 + j < g_count G ->
  Z.testbit (skip_word g i) j = false <-> live st (i * 32 + j).
Proof.
  intros HS Hi Hj Hn. assert (Hr : range (i * 32 + j)) by lia. rewrite (live_iff g st f) by done.
  unfold skip_word. rewrite Z.lor_spec, !bword_testbit by lia.
  rewrite orb_false_iff, andb_true_iff, !negb_true_iff. done.
Qed.

(** The bits of [pq] are the live nodes that pass the pq test. *)
Lemma pq_bit g st i skip j :
  simp g st (rest st) -> 0 <= i < W -> 0 <= j < 32 ->
  Z.testbit (Z.land (bword (pq_test (g_tmp g)) i) (not32 skip)) j
  = Z.testbit (pq_test (g_tmp g)) (i * 32 + j) && negb (Z.testbit skip j).
Proof. intros HS Hi Hj. by rewrite Z.land_spec, bword_testbit, not32_testbit by lia. Qed.

(** The state of the loop that pushes the nodes of word [i]. *)
Definition pushing (i skip pq1 : Z) (st1 : list Z) (prog1 : bool) (js : list Z)
    (s : ra_graph * Z * bool) : Prop :=
  let '(g, pq, prog) := s in
  exists st, simp g st (rest st) /\ pushed st1 st
    /\ (forall n, n ∈ st -> n ∈ st1 \/ exists j, j ∈ js /\ n = i * 32 + j)
    /\ pq = Z.land (bword (pq_test (g_tmp g)) i) (not32 skip)
    /\ ((length st1 < length st)%nat /\ prog = true
        \/ (st = st1 /\ pq = pq1 /\ prog = prog1 /\ forall j, j ∈ js -> Z.testbit pq1 j = false)).

Lemma push_bit_spec i skip pq1 st1 prog1 js j s :
  0 <= i < W -> 0 <= j < 32 -> ~ (j ∈ js) ->
  (forall n, n = i * 32 + j -> n < g_count G -> Z.testbit skip j = false -> live st1 n) ->
  pushing i skip pq1 st1 prog1 js s ->
  exists s', push_bit rs i skip j s = Some s' /\ pushing i skip pq1 st1 prog1 (js ++ [j]) s'.
Proof using HG RegSetReady0.
  intros Hi Hj Hjs Hskip. destruct s as [[g pq] prog]. intros (st & HS & Hpu & Hin & Hpq & Hcase).
  unfold push_bit. destruct (Z.testbit pq j) eqn:Ej.
  - rewrite Hpq, (pq_bit g st) in Ej by done. apply andb_true_iff in Ej as [Et Esk]. rewrite negb_true_iff in Esk.
    set (n := i * 32 + j) in *. assert (HnW : 0 <= n < 32 * W) by lia.
    pose proof (si_pq_range _ _ _ HS n HnW Et) as Hn. destruct (Hskip n eq_refl Hn Esk) as [Hfree Hst1].
    assert (Hl : live st n).
    { split; [done|]. intros Hx. destruct (Hin n Hx) as [|(j' & Hj' & E)]; [done|].
      apply Hjs. by replace j with j' by lia. }
    rewrite (sg_count _ (si_same _ _ _ HS)). destruct (Z.ltb_spec n (g_count G)); [|lia].
    destruct (push_spec g st n HS Hl) as (g' & -> & HS'). cbn [mbind option_bind].
    eexists. split; [done|]. exists (n :: st). split; [done|]. split.
    { constructor; [done|done|]. by apply (si_pq _ _ _ HS). }
    split; [|split; [done|]].
    + intros m [->|Hm]%elem_of_cons; [right; exists j; set_solver|].
      destruct (Hin m Hm) as [|(j' & Hj' & E)]; [by left|right; exists j'; set_solver].
    + left. split; [|done]. cbn [length]. destruct (pushed_length _ _ Hpu) as [->|]; lia.
  - eexists. split; [done|]. exists st. split; [done|]. split; [done|]. split; [|split; [done|]].
    + intros m Hm. destruct (Hin m Hm) as [|(j' & Hj' & E)]; [by left|right; exists j'; set_solver].
    + destruct Hcase as [|(-> & -> & -> & Hall)]; [by left|right]. split_and!; try done.
      intros j' [?| ->%list_elem_of_singleton]%elem_of_app; [by apply Hall|done].
Qed.

Lemma push_word_spec g st1 i prog :
  simp g st1 (rest st1) -> 0 <= i < W ->
  let skip := skip_word g i in
  let pq := Z.land (bword (pq_test (g_tmp g)) i) (not32 skip) in
  pq <> 0 ->
  exists g' pq' st, for_each (push_bit rs i skip) (bit_indices (g_count G) i) (g, pq, prog) = Some (g', pq', true)
    /\ simp g' st (rest st) /\ pushed st1 st /\ (length st1 < length st)%nat.
Proof using HG RegSetReady0.
  intros HS Hi skip pq Hpq. pose proof (high_bit_range i Hi) as Hhb.
  destruct (for_each_rule (pushing i skip pq st1 prog) (push_bit rs i skip) (bit_indices (g_count G) i) (g, pq, prog))
    as ([[g' pq'] prog'] & -> & (st & HS' & Hpu & _ & _ & Hcase)).
  - exists st1. split_and!; try done; [constructor|auto|]. right. split_and!; try done. set_solver.
  - intros js j post s Hsplit Hs. assert (Hj : j ∈ bit_indices (g_count G) i) by (rewrite Hsplit; set_solver).
    apply elem_bit_indices in Hj; [|done]. apply push_bit_spec; try done; [lia| |].
    + assert (Hnd : NoDup (bit_indices (g_count G) i)).
      { unfold bit_indices. rewrite reverse_Permutation. apply NoDup_seqZ. }
      rewrite Hsplit in Hnd. apply NoDup_app in Hnd as (_ & Hd & _). intros Hin. apply (Hd j Hin). set_solver.
    + intros n -> Hn Hsk. apply (skip_bit g st1 (rest st1)) in Hsk; [done|done|done|lia|done].
  - exists g', pq', st. destruct Hcase as [[Hlt ->]|(-> & -> & _ & Hall)]; [done|]. exfalso. apply Hpq.
    apply Z.bits_inj'. intros j Hj. rewrite Z.bits_0. destruct (Z_lt_le_dec j 32) as [Hlt|Hge].
    + destruct (Z.testbit pq j) eqn:Et; [|done]. rewrite <- Et. apply Hall, elem_bit_indices; [done|].
      split; [done|]. apply (node_of_bit i); [done|lia|]. unfold pq in Et. rewrite (pq_bit g st1) in Et by done.
      apply andb_true_iff in Et as [Et _]. apply (si_pq_range _ _ _ HS); [lia|done].
    + unfold pq. rewrite Z.land_spec, bword_high by lia. done.
Qed.

(** Recomputing the minimum of a word. *)
Lemma set_min_simp g st f i m n :
  simp g st f -> live st n -> n / 32 = i -> m < UINT32_MAX -> 0 <= i < W ->
  simp (set_tmp g (set_min (g_tmp g) i m n)) st f.
Proof.
  intros [S1 S2 S3 S4 S5 S6 S7 S8 S9 S10 S11 S12] Hl Hdiv Hm Hi. constructor; cbn; try done.
  - destruct S1. by constructor.
  - by rewrite !length_insert.
  - intros i' m' mn Hi' H1 H2 H3. apply list_lookup_insert_Some in H1 as [(E & <- & _)|[Hne H1]].
    + rewrite <- E in H3. rewrite list_lookup_insert_eq in H3 by lia. injection H3 as <-. split; [done|]. split; [lia|done].
    + rewrite list_lookup_insert_ne in H3 by done. by apply (S12 i' m').
Qed.

Lemma min_word_spec g st i :
  simp g st (rest st) -> 0 <= i < W ->
  exists g', for_each (min_bit i (skip_word g i)) (bit_indices (g_count G) i) g = Some g'
    /\ simp g' st (rest st)
    /\ (forall n, live st n -> n / 32 = i -> exists m, min_q_total (g_tmp g') !! Z.to_nat i = Some m /\ m <> UINT32_MAX).
Proof using HG RegSetReady0.
  intros HS Hi. pose proof (high_bit_range i Hi) as Hhb.
  destruct (for_each_rule (fun js g' => simp g' st (rest st)
      /\ forall j, j ∈ js -> Z.testbit (skip_word g i) j = false ->
           exists m, min_q_total (g_tmp g') !! Z.to_nat i = Some m /\ m <> UINT32_MAX)
    (min_bit i (skip_word g i)) (bit_indices (g_count G) i) g) as (g' & -> & HS' & Hmin).
  - split; [done|set_solver].
  - intros js j post g1 Hsplit [HS1 Hm1]. assert (Hj : j ∈ bit_indices (g_count G) i) by (rewrite Hsplit; set_solver).
    apply elem_bit_indices in Hj; [|done]. pose proof (node_of_bit i j Hi ltac:(lia)) as Hnb. unfold min_bit.
    destruct (Z.testbit (skip_word g i) j) eqn:Esk.
    { exists g1. split; [done|]. split; [done|].
      intros j' [?| ->%list_elem_of_singleton]%elem_of_app ?; [by apply (Hm1 j')|congruence]. }
    rewrite (sg_count _ (si_same _ _ _ HS1)). destruct (Z.ltb_spec (i * 32 + j) (g_count G)); [|lia].
    pose proof (proj1 (skip_bit g st _ i j HS Hi ltac:(lia) ltac:(lia)) Esk) as Hl.
    destruct (node_some g1 (i * 32 + j) (si_same _ _ _ HS1) ltac:(lia)) as [x Hx]. rewrite Hx. cbn [mbind option_bind].
    destruct (lookup_lt_is_Some_2 (min_q_total (g_tmp g1)) (Z.to_nat i)) as [mq Emq];
      [pose proof (si_len _ _ _ HS1); lia|]. rewrite Emq. cbn [mbind option_bind].
    rewrite <- (tq_node _ _ _ Hx), (si_q _ _ _ HS1) by done.
    pose proof (rest_range (i * 32 + j) st ltac:(lia)) as Hr.
    destruct (Z.ltb_spec (rest st (i * 32 + j)) mq) as [Hlt|Hge]; (eexists; split; [done|]; split).
    + apply set_min_simp; [done|done| |lia|done]. by destruct (bit_node i j Hi ltac:(lia)).
    + intros _ _ _. eexists. cbn. rewrite list_lookup_insert_eq by (apply lookup_lt_Some in Emq; done).
      split; [done|lia].
    + done.
    + intros _ _ _. eexists. split; [done|lia].
  - exists g'. split; [done|]. split; [done|]. intros n Hl Hdiv. pose proof Hl as [[Hn _] _].
    apply (Hmin (n mod 32)).
    + apply elem_bit_indices; [done|]. pose proof (Z.mod_pos_bound n 32 ltac:(lia)). split; [lia|].
      apply (node_of_bit i); [done|lia|]. rewrite <- Hdiv. dlia.
    + assert (E : i * 32 + n mod 32 = n) by (rewrite <- Hdiv; dlia).
      apply (skip_bit g st (rest st)); [done|done|apply Z.mod_pos_bound; lia|lia|by rewrite E].
Qed.

(** A round that started with the stack [st0], after the words [ws]. *)
Record pass_ok (st0 : list Z) (ws : list Z) (s : pass) : Prop := {
  pk_simp : exists st, simp (p_graph s) st (rest st) /\ pushed st0 st
    /\ (if progress s then (length st0 < length st)%nat else st = st0);
  pk_trivial : progress s = false -> forall n, live st0 n -> n / 32 ∈ ws -> P n <= rest st0 n;
  pk_found : progress s = false -> forall n, live st0 n -> n / 32 ∈ ws -> p_min_total s <> UINT32_MAX;
  pk_min : progress s = false -> p_min_total s <> UINT32_MAX -> live st0 (p_min_node s);
  pk_le : p_min_total s <= UINT32_MAX;
}.

Lemma mask_bit i j : 0 <= i < W -> 0 <= j <= high_bit (g_count G) i ->
  Z.testbit (Z.shiftr UINT32_MAX (31 - high_bit (g_count G) i)) j = true.
Proof using HG.
  intros Hi Hj. pose proof (high_bit_range i Hi). rewrite Z.shiftr_spec by lia. change UINT32_MAX with (Z.ones 32).
  apply Z.ones_spec_low. lia.
Qed.

Lemma live_bit n i : range n -> n / 32 = i ->
  0 <= n mod 32 < 32 /\ i * 32 + n mod 32 = n /\ n mod 32 <= high_bit (g_count G) i.
Proof using HG.
  intros Hn Hdiv. pose proof (Z.mod_pos_bound n 32 ltac:(lia)). assert (i * 32 + n mod 32 = n) by (subst i; dlia).
  split_and!; [lia|lia|done|]. apply (node_of_bit i); [subst i; by apply W_range|lia|lia].
Qed.

(** A word in which every node is on the stack or preassigned. *)
Lemma full_word g st i n :
  simp g st (rest st) -> 0 <= i < W ->
  skip_word g i = Z.shiftr UINT32_MAX (31 - high_bit (g_count G) i) -> live st n -> n / 32 <> i.
Proof using HG.
  intros HS Hi Hmask Hl Hdiv. pose proof Hl as [[Hn _] _].
  destruct (live_bit n i Hn Hdiv) as (Hm & E & Hhb). rewrite <- E in Hl.
  apply (skip_bit g st (rest st)) in Hl; [|done|done|lia|lia]. rewrite Hmask, mask_bit in Hl by (done || lia). done.
Qed.

(** A word with no candidate for the pq test. *)
Lemma no_pq_word g st i n :
  simp g st (rest st) -> 0 <= i < W ->
  Z.land (bword (pq_test (g_tmp g)) i) (not32 (skip_word g i)) = 0 -> n / 32 = i -> live st n -> P n <= rest st n.
Proof using HG.
  intros HS Hi Hpq Hdiv Hl. pose proof Hl as [[Hn _] _].
  destruct (live_bit n i Hn Hdiv) as (Hm & E & Hhb). apply Z.nlt_ge. intros Hlt.
  apply (si_pq _ _ _ HS) in Hlt; [|done].
  apply (f_equal (fun z => Z.testbit z (n mod 32))) in Hpq. rewrite Z.bits_0, (pq_bit g st), E, Hlt in Hpq by done.
  rewrite <- E in Hl. apply (skip_bit g st (rest st)) in Hl; [|done|done|lia|lia]. by rewrite Hl in Hpq.
Qed.

(** The branch that looks for the smallest q total. *)
Lemma min_branch_spec g st i :
  simp g st (rest st) -> 0 <= i < W ->
  exists mq g' m mn, min_q_total (g_tmp g) !! Z.to_nat i = Some mq
    /\ (if mq =? UINT32_MAX then for_each (min_bit i (skip_word g i)) (bit_indices (g_count G) i) g else Some g) = Some g'
    /\ simp g' st (rest st)
    /\ min_q_total (g_tmp g') !! Z.to_nat i = Some m /\ min_q_node (g_tmp g') !! Z.to_nat i = Some mn
    /\ (m <> UINT32_MAX -> m < UINT32_MAX /\ live st mn)
    /\ (forall n, live st n -> n / 32 = i -> m <> UINT32_MAX).
Proof using HG RegSetReady0.
  intros HS Hi.
  destruct (lookup_lt_is_Some_2 (min_q_total (g_tmp g)) (Z.to_nat i)) as [mq Emq]; [pose proof (si_len _ _ _ HS); lia|].
  assert (Hg : exists g', (if mq =? UINT32_MAX then for_each (min_bit i (skip_word g i)) (bit_indices (g_count G) i) g
      else Some g) = Some g' /\ simp g' st (rest st)
    /\ forall n, live st n -> n / 32 = i -> exists m, min_q_total (g_tmp g') !! Z.to_nat i = Some m /\ m <> UINT32_MAX).
  { destruct (Z.eqb_spec mq UINT32_MAX) as [|Hne]; [by apply min_word_spec|exists g; split_and!; eauto]. }
  destruct Hg as (g' & Eg & HSg & Hmin). exists mq, g'.
  destruct (lookup_lt_is_Some_2 (min_q_total (g_tmp g')) (Z.to_nat i)) as [m Em]; [pose proof (si_len _ _ _ HSg); lia|].
  destruct (lookup_lt_is_Some_2 (min_q_node (g_tmp g')) (Z.to_nat i)) as [mn Emn]; [pose proof (si_len _ _ _ HSg); lia|].
  exists m, mn. split_and!; try done.
  - intros Hne. by destruct (si_min _ _ _ HSg i m mn Hi Em Hne Emn) as (? & _ & ?).
  - intros n Hl Hw. destruct (Hmin n Hl Hw) as (m' & Em' & ?). congruence.
Qed.

Lemma simplify_word_spec st0 ws i s :
  pass_ok st0 ws s -> 0 <= i < W ->
  exists s', simplify_word rs i s = Some s' /\ pass_ok st0 (ws ++ [i]) s'.
Proof using HG RegSetReady0.
  intros [(st & HS & Hpu & Hst) Htr Hfo Hmi Hle] Hi. unfold simplify_word. cbv zeta.
  fold (skip_word (p_graph s) i). rewrite (sg_count _ (si_same _ _ _ HS)).
  assert (Hext : forall n, n / 32 ∈ ws ++ [i] -> n / 32 ∈ ws \/ n / 32 = i) by set_solver.
  destruct (Z.eqb_spec (skip_word (p_graph s) i) (Z.shiftr UINT32_MAX (31 - high_bit (g_count G) i))) as [Ef|_].
  { exists s. split; [done|]. constructor; [by exists st| | |done..]; intros Hp; rewrite Hp in Hst; subst st;
      (intros n Hl [Hw|Hw]%Hext;
       [by first [apply Htr | apply (Hfo Hp n)]|by destruct (full_word (p_graph s) st0 i n HS Hi Ef Hl)]). }
  destruct (Z.eqb_spec (Z.land (bword (pq_test (g_tmp (p_graph s))) i) (not32 (skip_word (p_graph s) i))) 0) as [Epq|Epq];
    cbn [negb].
  - destruct (progress s) eqn:Ep; cbn [negb].
    { exists s. split; [done|]. constructor; [exists st; by rewrite Ep|congruence..|done]. }
    subst st. specialize (Htr eq_refl). specialize (Hfo eq_refl). specialize (Hmi eq_refl).
    destruct (min_branch_spec (p_graph s) st0 i HS Hi) as (mq & g & m & mn & -> & Eg & HSg & Em & Emn & Hv & Hw).
    cbn [mbind option_bind]. rewrite Eg. cbn [mbind option_bind]. rewrite Em, Emn. cbn [mbind option_bind].
    assert (Htr' : forall n, live st0 n -> n / 32 ∈ ws ++ [i] -> P n <= rest st0 n)
      by (intros n Hl [Hx|Hx]%Hext; [by apply Htr|by apply (no_pq_word (p_graph s) st0 i)]).
    destruct (Z.ltb_spec m (p_min_total s)) as [Hlt|Hge]; (eexists; split; [done|]);
      constructor; cbn [p_graph progress p_min_total p_min_node]; rewrite ?Ep; try done; try (by exists st0).
    + intros _ n _ _. lia.
    + intros _ Hne. by apply Hv.
    + lia.
    + intros _ n Hl [Hx|Hx]%Hext; [by apply (Hfo n)|]. pose proof (Hw n Hl Hx) as Hne. destruct (Hv Hne). lia.
  - destruct (push_word_spec (p_graph s) st i (progress s) HS Hi Epq) as (g' & pq' & st' & -> & HS' & Hpu' & Hlt).
    cbn [mbind option_bind]. eexists. split; [done|]. constructor; cbn; try done. exists st'.
    split; [done|]. split; [by eapply pushed_trans|]. destruct (pushed_length _ _ Hpu) as [->|]; lia.
Qed.


Lemma pass_spec g st :
  simp g st (rest st) ->
  exists s, for_each (simplify_word rs) (word_indices (g_count g)) (Pass g false UINT32_MAX UINT32_MAX) = Some s
    /\ pass_ok st (word_indices (g_count G)) s.
Proof using HG RegSetReady0.
  intros HS. rewrite (sg_count _ (si_same _ _ _ HS)).
  apply (for_each_rule (pass_ok st) (simplify_word rs) (word_indices (g_count G)) (Pass g false UINT32_MAX UINT32_MAX)).
  - constructor; cbn; try done; try set_solver. exists st. split_and!; [done|constructor|done].
  - intros ws i post s Hsplit Hs. apply simplify_word_spec; [done|]. apply elem_word_indices. rewrite Hsplit. set_solver.
Qed.

Lemma stack_length g st f : simp g st f -> (length st <= Z.to_nat (g_count G))%nat.
Proof.
  intros HS. rewrite <- (length_seqZ 0 (g_count G)). apply submseteq_length, NoDup_submseteq; [apply HS|].
  intros n Hn. apply (si_in _ _ _ HS) in Hn as [Hr _]. apply elem_of_seqZ. lia.
Qed.

(** ** Graphs the pq test simplifies completely *)

(** The nodes can be removed one after the other, each passing the pq test when its
    turn comes. *)
Definition pq_simplifiable : Prop := exists ord, pushed [] ord /\ forall n, ~ live ord n.

Lemma insum_mono n st st' : range n -> (forall m, m ∈ st -> m ∈ st') -> insum n st <= insum n st'.
Proof using HG RegSetReady0.
  intros Hn Hsub. unfold insum.
  assert (Hl : forall n2, n2 ∈ gadj n -> range n2) by (intros n2 H2; by apply (go_adj HG n n2 Hn)).
  induction (gadj n) as [|n2 l IH]; cbn [qsum]; [lia|].
  specialize (IH ltac:(intros; apply Hl; set_solver)).
  pose proof (proj2 (Q_defined n n2 Hn (Hl n2 ltac:(set_solver)))).
  destruct (mem st n2) eqn:E1; [|destruct (mem st' n2); lia].
  apply mem_true, Hsub, mem_true in E1. rewrite E1. lia.
Qed.

(** Simplification never gets stuck on such a graph, whatever was removed before. *)
Lemma simplifiable_next st n :
  pq_simplifiable -> live st n -> exists m, live st m /\ rest st m < P m.
Proof using HG RegSetReady0.
  intros (ord & Hord & Hend) Hl.
  assert (Hsplit : (forall m, m ∈ ord -> m ∈ st) \/ exists m, live st m /\ rest st m < P m).
  { clear Hend. induction Hord as [|m ord Hord IH Hlm Hlt]; [left; set_solver|].
    destruct IH as [IH|]; [|by right]. destruct (decide (m ∈ st)) as [|Hm]; [left; set_solver|]. right. exists m.
    destruct Hlm as [Hfree _]. split; [by split|]. pose proof (insum_mono m ord st (proj1 Hfree) IH). unfold rest in *. lia. }
  destruct Hsplit as [Hsub|]; [|done]. exfalso. apply (Hend n). destruct Hl as [Hfree Hst]. split; [done|auto].
Qed.

(** The state [ra_simplify] leaves. *)
Record simplified (st : list Z) (opt : Z) (g : ra_graph) (st' : list Z) (opt' : Z) : Prop := {
  sd_simp : simp g st' (rest st');
  sd_done : forall n, ~ live st' n;
  sd_opt : opt' = UINT32_MAX -> opt = UINT32_MAX /\ pushed st st';
  sd_full : pq_simplifiable -> opt = UINT32_MAX -> opt' = UINT32_MAX;
}.

Lemma simplify_loop_spec fuel g st opt :
  simp g st (rest st) -> (Z.to_nat (g_count G) - length st < fuel)%nat ->
  exists g' st' opt', simplify_loop fuel rs g opt = Some (g', opt') /\ simplified st opt g' st' opt'.
Proof using HG RegSetReady0.
  revert g st opt. induction fuel as [|fuel IH]; intros g st opt HS Hfuel; [lia|]. cbn [simplify_loop].
  destruct (pass_spec g st HS) as (s & -> & [(st1 & HS1 & Hpu & Hst1) Htr Hfo Hmi _]). cbn [mbind option_bind].
  pose proof (stack_length _ _ _ HS1) as Hlen1. destruct (progress s) eqn:Ep; cbn [negb andb].
  { destruct (IH (p_graph s) st1 opt HS1 ltac:(lia)) as (g' & st' & opt' & -> & [D1 D2 D3 D4]).
    exists g', st', opt'. split; [done|]. constructor; try done. intros Ho. destruct (D3 Ho) as [-> Hpu'].
    split; [done|]. by eapply pushed_trans. }
  subst st1. specialize (Htr eq_refl). specialize (Hfo eq_refl). specialize (Hmi eq_refl).
  destruct (Z.eqb_spec (p_min_total s) UINT32_MAX) as [Em|Em]; cbn [negb andb].
  { exists (p_graph s), st, opt. split; [done|]. constructor; [done| |intros ->; split; [done|constructor]|done].
    intros n Hl. apply (Hfo n Hl); [|done]. apply elem_word_indices, W_range, Hl. }
  specialize (Hmi Em). destruct (push_spec (p_graph s) st (p_min_node s) HS1 Hmi) as (g1 & -> & HS2).
  cbn [mbind option_bind]. pose proof (stack_length _ _ _ HS2) as Hlen2. cbn [length] in Hlen2.
  set (opt1 := if opt =? UINT32_MAX then _ else opt).
  assert (Ho1 : opt1 <> UINT32_MAX).
  { unfold opt1. rewrite (si_stack _ _ _ HS1). pose proof (go_count HG).
    destruct (Z.eqb_spec opt UINT32_MAX); [unfold UINT32_MAX; lia|done]. }
  destruct (IH g1 (p_min_node s :: st) opt1 HS2 ltac:(cbn [length]; lia)) as (g' & st' & opt' & -> & [D1 D2 D3 D4]).
  exists g', st', opt'. split; [done|]. constructor; try done.
  - intros Ho. by destruct (D3 Ho).
  - intros Hs _. destruct (simplifiable_next st _ Hs Hmi) as (m & Hl & Hlt). exfalso.
    enough (P m <= rest st m) by lia. apply Htr; [done|]. apply elem_word_indices, W_range, Hl.
Qed.

Lemma simplify_spec :
  exists g st, ra_simplify rs G = Some g
    /\ simplified [] UINT32_MAX g st (stack_optimistic_start (g_tmp g)).
Proof using HG RegSetReady0.
  destruct prepass_spec as (g0 & E0 & HS0). unfold ra_simplify. rewrite E0. cbn [mbind option_bind].
  destruct (simplify_loop_spec (S (S (Z.to_nat (g_count g0)))) g0 [] UINT32_MAX HS0) as (g & st & opt & -> & [D1 D2 D3 D4]).
  { rewrite (sg_count _ (si_same _ _ _ HS0)). cbn. lia. }
  cbn [mbind option_bind]. eexists _, st. split; [done|]. constructor; cbn [set_tmp g_tmp stack_optimistic_start]; try done.
  destruct D1. constructor; try done. by destruct si_same0.
Qed.

(** * Selection *)

(** An allocation of node [n] to [r] inside the register file. *)
Definition placed (n r : Z) : Prop := 0 <= r < reg_count rs /\ r + contig_len (gclass n) <= reg_count rs.

(** A conflict between two nodes with the given registers. *)
Definition clash (n r n2 r2 : Z) : bool := alloc_conflict rs (gclass n) r (gclass n2) r2.

(** What the choice of a register for [n] relies on, when the nodes [st] are still on
    the stack. *)
Record choosing (g : ra_graph) (st : list Z) (n : Z) : Prop := {
  ch_same : same_graph g;
  ch_bits : forall n2, n2 ∈ gadj n -> Z.testbit (in_stack (g_tmp g)) n2 = mem st n2;
  ch_placed : forall n2, n2 ∈ gadj n -> ~ (n2 ∈ st) -> placed n2 (nreg g n2);
}.

(** A register of the class that conflicts with no coloured neighbour. *)
Definition available (g : ra_graph) (st : list Z) (n r : Z) : Prop :=
  Z.testbit (c_regs (gclass n)) r = true
  /\ forall n2, n2 ∈ gadj n -> ~ (n2 ∈ st) -> clash n r n2 (nreg g n2) = false.

Lemma clash_sym n r n2 r2 :
  range n -> range n2 -> 0 <= r < reg_count rs -> 0 <= r2 < reg_count rs -> clash n r n2 r2 = clash n2 r2 n r.
Proof using HG RegSetReady0.
  intros Hn Hn2 Hr Hr2. unfold clash. apply rd_sym; [by apply class_defined..|done|done].
Qed.

Lemma in_class_placed n r : range n -> Z.testbit (c_regs (gclass n)) r = true -> placed n r.
Proof using HG RegSetReady0.
  intros Hn Hr. exact (co_regs _ _ (rd_class _ (proj2 (class_defined n Hn))) r Hr).
Qed.

Lemma conflicting_spec g st n r l :
  choosing g st n -> range n -> 0 <= r < reg_count rs -> (forall n2, n2 ∈ l -> n2 ∈ gadj n) ->
  exists o, conflicting_neighbor rs g (gclass n) r l = Some o
    /\ match o with
       | None => forall n2, n2 ∈ l -> ~ (n2 ∈ st) -> clash n r n2 (nreg g n2) = false
       | Some x2 => exists n2, n2 ∈ gadj n /\ ~ (n2 ∈ st) /\ node g n2 = Some x2
           /\ n_class x2 = n_class (gnode n2) /\ n_reg x2 = nreg g n2 /\ clash n r n2 (nreg g n2) = true
       end.
Proof using HG RegSetReady0.
  intros HC Hn Hr. induction l as [|n2 l IH]; intros Hl; cbn [conflicting_neighbor].
  { exists None. split; [done|]. set_solver. }
  destruct (IH ltac:(set_solver)) as (o & Eo & Ho). assert (Hadj : n2 ∈ gadj n) by set_solver.
  rewrite (ch_bits _ _ _ HC n2 Hadj). destruct (mem st n2) eqn:Em; cbn [negb].
  { exists o. split; [done|]. destruct o; [done|]. apply mem_true in Em.
    intros m [->|Hm]%elem_of_cons Hst; [done|by apply Ho]. }
  apply mem_false in Em. destruct (go_adj HG n n2 Hn Hadj) as [Hn2 _].
  destruct (node_some g n2 (ch_same _ _ _ HC) Hn2) as [x2 Hx2]. rewrite Hx2. cbn [mbind option_bind].
  destruct (node_static g n2 x2 (ch_same _ _ _ HC) Hx2) as (_ & Hc2 & _ & _). rewrite Hc2.
  destruct (class_defined n2 Hn2) as [-> Hin2]. cbn [mbind option_bind]. rewrite <- (nreg_node _ _ _ Hx2).
  rewrite rd_conflict by (done || apply class_defined, Hn || apply (ch_placed _ _ _ HC n2 Hadj Em)).
  cbn [mbind option_bind]. fold (clash n r n2 (nreg g n2)). destruct (clash n r n2 (nreg g n2)) eqn:Ecl.
  - exists (Some x2). split; [done|]. exists n2. rewrite (nreg_node _ _ _ Hx2) in *. done.
  - exists o. split; [done|]. destruct o; [done|]. intros m [->|Hm]%elem_of_cons Hst; [done|by apply Ho].
Qed.

Lemma find_conflicting_spec g st n r :
  choosing g st n -> range n -> Z.testbit (c_regs (gclass n)) r = true ->
  exists o, ra_find_conflicting_neighbor rs g n r = Some o
    /\ match o with
       | None => available g st n r
       | Some x2 => exists n2, n2 ∈ gadj n /\ ~ (n2 ∈ st) /\ class_of rs (n_class x2) = Some (gclass n2)
           /\ n_reg x2 = nreg g n2 /\ clash n r n2 (nreg g n2) = true
       end.
Proof using HG RegSetReady0.
  intros HC Hn Hr. unfold ra_find_conflicting_neighbor.
  destruct (node_some g n (ch_same _ _ _ HC) Hn) as [x Hx]. rewrite Hx. cbn [mbind option_bind].
  destruct (node_static g n x (ch_same _ _ _ HC) Hx) as (-> & -> & _ & _). destruct (class_defined n Hn) as [-> _].
  cbn [mbind option_bind].
  destruct (conflicting_spec g st n r (gadj n) HC Hn) as (o & -> & Ho); [exact (proj1 (in_class_placed n r Hn Hr))|done|].
  exists o. split; [done|]. destruct o as [x2|]; [|by split].
  destruct Ho as (n2 & Hadj & Hst & _ & Hc2 & Hr2 & Hcl). exists n2. rewrite Hc2. split_and!; try done.
  apply class_defined. by apply (go_adj HG n n2 Hn).
Qed.

(** The registers a contiguous allocation of a neighbour blocks from [r] on. *)
Lemma clash_above n r n2 r2 :
  range n -> range n2 -> contig_len (gclass n2) <> 0 -> 0 <= r < reg_count rs -> 0 <= r2 < reg_count rs ->
  clash n r n2 r2 = true ->
  r < r2 + contig_len (gclass n2)
  /\ forall r', r <= r' < r2 + contig_len (gclass n2) -> r' < reg_count rs -> clash n r' n2 r2 = true.
Proof using HG RegSetReady0.
  intros Hn Hn2 Hlen Hr Hr2 Hcl.
  destruct (class_defined n Hn) as [_ Hin]. destruct (class_defined n2 Hn2) as [_ Hin2].
  assert (Hlen1 : contig_len (gclass n) <> 0) by (intros H0; by apply Hlen, (rd_contig (gclass n))).
  pose proof (rd_class _ Hin) as K1. pose proof (rd_class _ Hin2) as K2. pose proof rd_count.
  unfold clash, alloc_conflict in *. rewrite alloc_conflict_contig in Hcl by (done || lia). cbn in Hcl. zbool.
  split; [lia|]. intros r' Hr' Hrn. rewrite alloc_conflict_contig by (done || lia). cbn. zbool. lia.
Qed.

(** The registers the search skips are not available. *)
Lemma skip_blocked g st n n2 start ri :
  choosing g st n -> range n -> n2 ∈ gadj n -> ~ (n2 ∈ st) -> contig_len (gclass n2) <> 0 -> 0 < reg_count rs ->
  let r := (start + ri) mod reg_count rs in
  clash n r n2 (nreg g n2) = true ->
  r < nreg g n2 + contig_len (gclass n2)
  /\ forall ri', ri <= ri' < ri + (nreg g n2 + contig_len (gclass n2) - 1 - r) + 1 ->
       ~ available g st n ((start + ri') mod reg_count rs).
Proof using HG RegSetReady0.
  intros HC Hn Hadj Hst E0 Hpos r Hcl. pose proof (Z.mod_pos_bound (start + ri) (reg_count rs) Hpos) as Hr. fold r in Hr.
  destruct (ch_placed _ _ _ HC n2 Hadj Hst) as [Hr2 Hend]. destruct (go_adj HG n n2 Hn Hadj) as [Hn2 _].
  destruct (clash_above n r n2 (nreg g n2) Hn Hn2 E0 Hr Hr2 Hcl) as [Hlo Habove]. split; [done|].
  intros ri' Hri' [_ Hc]. assert (E : (start + ri') mod reg_count rs = r + (ri' - ri)).
  { symmetry. apply (Z.mod_unique _ _ ((start + ri) / reg_count rs)); [left; lia|].
    pose proof (Z.div_mod (start + ri) (reg_count rs) ltac:(lia)) as Hdm. fold r in Hdm. lia. }
  specialize (Hc n2 Hadj Hst). rewrite E, Habove in Hc by lia. done.
Qed.

(** Searching from [ri] on finds an available register, or there is none. *)
Lemma find_reg_spec fuel g st n start ri :
  choosing g st n -> range n -> 0 <= start <= reg_count rs -> 0 <= ri <= reg_count rs ->
  reg_count rs - ri < Z.of_nat fuel ->
  exists o, find_reg fuel rs g n (gclass n) start ri = Some o
    /\ match o with
       | Some r => available g st n r
       | None => forall ri', ri <= ri' < reg_count rs -> ~ available g st n ((start + ri') mod reg_count rs)
       end.
Proof using HG RegSetReady0.
  intros HC Hn Hstart. pose proof rd_count as Hcount. revert ri.
  induction fuel as [|fuel IH]; intros ri Hri Hfuel; [lia|]. cbn [find_reg].
  destruct (Z.ltb_spec ri (reg_count rs)) as [Hlt|Hge]; [|exists None; split; [done|]; intros; lia].
  rewrite (u32_small (start + ri)) by lia. set (r := (start + ri) mod reg_count rs).
  pose proof (Z.mod_pos_bound (start + ri) (reg_count rs) ltac:(lia)) as Hr. fold r in Hr.
  (* going on at [ri1] when the registers in between are not available *)
  assert (Hgo : forall ri1, ri < ri1 <= reg_count rs ->
    (forall ri', ri <= ri' < ri1 -> ~ available g st n ((start + ri') mod reg_count rs)) ->
    exists o, find_reg fuel rs g n (gclass n) start ri1 = Some o
      /\ match o with
         | Some r => available g st n r
         | None => forall ri', ri <= ri' < reg_count rs -> ~ available g st n ((start + ri') mod reg_count rs)
         end).
  { intros ri1 Hri1 Hskip. destruct (IH ri1 ltac:(lia) ltac:(lia)) as (o & -> & Ho). exists o. split; [done|].
    destruct o; [done|]. intros ri' Hri'. destruct (Z_lt_le_dec ri' ri1); [apply Hskip; lia|apply Ho; lia]. }
  unfold reg_belongs_to_class. destruct (Z.testbit (c_regs (gclass n)) r) eqn:Ebit; cbn [negb].
  2: { rewrite u32_small by lia. apply Hgo; [lia|]. intros ri' Hri' [Hc _].
       replace ri' with ri in Hc by lia. fold r in Hc. congruence. }
  destruct (find_conflicting_spec g st n r HC Hn Ebit) as ([x2|] & -> & Ho); cbn [mbind option_bind]; [|by exists (Some r)].
  destruct Ho as (n2 & Hadj & Hst & -> & -> & Hcl). cbn [mbind option_bind].
  destruct (ch_placed _ _ _ HC n2 Hadj Hst) as [Hr2 Hend]. destruct (go_adj HG n n2 Hn Hadj) as [Hn2 _].
  destruct (Z.eqb_spec (contig_len (gclass n2)) 0) as [E0|E0]; cbn [negb].
  { rewrite u32_small by lia. apply Hgo; [lia|]. intros ri' Hri' [_ Hc].
    replace ri' with ri in Hc by lia. fold r in Hc. rewrite Hc in Hcl by done. done. }
  destruct (skip_blocked g st n n2 start ri HC Hn Hadj Hst E0 ltac:(lia) Hcl) as [Hlo Hskip]. fold r in Hlo, Hskip.
  rewrite (u32_small (nreg g n2 + contig_len (gclass n2) - 1)) by lia.
  destruct (Z.geb_spec (nreg g n2 + contig_len (gclass n2) - 1) r); [|lia].
  rewrite (u32_small (ri + _)) by lia. rewrite (u32_small (_ + 1)) by lia.
  set (ri1 := ri + (nreg g n2 + contig_len (gclass n2) - 1 - r) + 1) in *.
  destruct (Z_le_gt_dec ri1 (reg_count rs)) as [Hle|Hgt]; [apply Hgo; [lia|done]|].
  destruct fuel as [|fuel]; [lia|]. cbn [find_reg]. destruct (Z.ltb_spec ri1 (reg_count rs)); [lia|].
  exists None. split; [done|]. intros ri' Hri'. apply Hskip. lia.
Qed.

(** ** The set of available registers *)

Lemma foldl_clearbit a l r :
  0 <= r -> (forall i, i ∈ l -> 0 <= i) -> Z.testbit (foldl Z.clearbit a l) r = Z.testbit a r && negb (mem l r).
Proof.
  intros Hr. revert a. induction l as [|i l IH]; intros a Hl; cbn [foldl].
  { rewrite (proj2 (mem_false [] r)) by set_solver. by rewrite andb_true_r. }
  rewrite IH by set_solver. rewrite Z.clearbit_eqb by (apply Hl; set_solver). rewrite <- andb_assoc. f_equal.
  unfold mem. destruct (Z.eqb_spec i r) as [->|Hne]; cbn [negb andb].
  - rewrite bool_decide_eq_true_2 by set_solver. done.
  - f_equal. apply bool_decide_ext. set_solver.
Qed.

(** The conflicts of a register as a bitset, and of an allocation as a window. *)
Lemma clash_bitset n n2 r2 :
  range n -> range n2 -> contig_len (gclass n) = 0 -> 0 <= r2 < reg_count rs ->
  exists reg2 conf, regs rs !! Z.to_nat r2 = Some reg2 /\ conflicts reg2 = Some conf
    /\ forall r, 0 <= r < reg_count rs -> clash n r n2 r2 = Z.testbit conf r.
Proof using HG RegSetReady0.
  intros Hn Hn2 E0 Hr2. destruct (class_defined n Hn) as [_ Hin]. destruct (class_defined n2 Hn2) as [_ Hin2].
  pose proof (rd_contig _ _ Hin Hin2 E0) as E2. pose proof (rd_conflict _ _ r2 r2 Hin2 Hin Hr2 Hr2) as Hd.
  unfold ra_class_allocations_conflict in Hd. rewrite E2 in Hd. cbn [Z.eqb negb] in Hd.
  destruct (regs rs !! Z.to_nat r2) as [reg2|] eqn:Ereg; [|done]. cbn [mbind option_bind] in Hd.
  destruct (conflicts reg2) as [conf|] eqn:Econf; [|done]. exists reg2, conf. split_and!; [done..|].
  intros r Hr. rewrite clash_sym by done. unfold clash, alloc_conflict, ra_class_allocations_conflict.
  rewrite E2, Ereg. cbn. rewrite Econf. cbn. destruct (Z.ltb_spec r (reg_count rs)); [done|lia].
Qed.

Lemma clash_window n r n2 r2 :
  range n -> range n2 -> contig_len (gclass n) <> 0 -> 0 <= r < reg_count rs -> 0 <= r2 < reg_count rs ->
  let start := Z.max 0 (r2 - contig_len (gclass n) + 1) in
  clash n r n2 r2 = mem (seqZ start (Z.min (reg_count rs) (r2 + contig_len (gclass n2)) - start)) r.
Proof using HG RegSetReady0.
  intros Hn Hn2 E0 Hr Hr2 start. destruct (class_defined n Hn) as [_ Hin]. destruct (class_defined n2 Hn2) as [_ Hin2].
  assert (E2 : contig_len (gclass n2) <> 0) by (intros H2; by apply E0, (rd_contig (gclass n2))).
  pose proof (rd_class _ Hin) as K1. pose proof (rd_class _ Hin2) as K2. pose proof rd_count.
  unfold clash, alloc_conflict. rewrite alloc_conflict_contig by (done || lia). cbn. apply eq_iff_eq_true.
  rewrite mem_true, elem_of_seqZ, andb_true_iff, !Z.ltb_lt. unfold start. lia.
Qed.

(** One neighbour takes away the registers it conflicts with. *)
Lemma remove_conflicts_spec g st n n2 avail :
  choosing g st n -> range n -> n2 ∈ gadj n ->
  (forall r, Z.testbit avail r = true -> Z.testbit (c_regs (gclass n)) r = true) ->
  exists avail', remove_conflicts rs g (gclass n) n2 avail = Some avail'
    /\ forall r, Z.testbit avail' r = true <->
         Z.testbit avail r = true /\ (~ (n2 ∈ st) -> clash n r n2 (nreg g n2) = false).
Proof using HG RegSetReady0.
  intros HC Hn Hadj Hsub. destruct (go_adj HG n n2 Hn Hadj) as [Hn2 _].
  assert (Hin : forall r, Z.testbit avail r = true -> 0 <= r < reg_count rs)
    by (intros r Ha; by apply (in_class_placed n r Hn), Hsub).
  destruct (node_some g n2 (ch_same _ _ _ HC) Hn2) as [x2 Hx2].
  destruct (node_static g n2 x2 (ch_same _ _ _ HC) Hx2) as (_ & Hc2 & _ & _).
  unfold remove_conflicts. rewrite Hx2. cbn [mbind option_bind]. rewrite Hc2.
  rewrite (proj1 (class_defined n2 Hn2)). cbn [mbind option_bind].
  rewrite (ch_bits _ _ _ HC n2 Hadj). destruct (mem st n2) eqn:Em; cbn [negb].
  { exists avail. split; [done|]. apply mem_true in Em. intuition. }
  apply mem_false in Em. destruct (ch_placed _ _ _ HC n2 Hadj Em) as [Hr2 Hend]. rewrite <- (nreg_node _ _ _ Hx2).
  destruct (Z.eqb_spec (contig_len (gclass n)) 0) as [E0|E0]; cbn [negb].
  - destruct (clash_bitset n n2 (nreg g n2) Hn Hn2 E0 Hr2) as (reg2 & conf & -> & Ec & Hclash).
    cbn [mbind option_bind]. rewrite Ec. cbn [mbind option_bind].
    eexists. split; [done|]. intros r. rewrite Z.ldiff_spec, andb_true_iff, negb_true_iff.
    split; intros [Ha Hb]; (split; [done|]); rewrite Hclash in * by auto; auto.
  - eexists. split; [done|]. pose proof rd_count. pose proof (co_len _ _ (rd_class _ (proj2 (class_defined n2 Hn2)))).
    rewrite u32_small, MAX2_max, MIN2_min by lia. intros r.
    destruct (Z_lt_le_dec r 0) as [Hneg|Hr]; [rewrite !Z.testbit_neg_r by done; intuition congruence|].
    rewrite foldl_clearbit by (done || intros i Hi%elem_of_seqZ; lia).
    rewrite andb_true_iff, negb_true_iff.
    split; intros [Ha Hb]; (split; [done|]); rewrite clash_window in * by auto; auto.
Qed.

Lemma available_regs_spec g st n :
  choosing g st n -> range n ->
  exists ok avail, ra_compute_available_regs rs g n = Some (ok, avail)
    /\ (ok = true <-> avail <> 0) /\ forall r, Z.testbit avail r = true <-> available g st n r.
Proof using HG RegSetReady0.
  intros HC Hn. unfold ra_compute_available_regs.
  destruct (node_some g n (ch_same _ _ _ HC) Hn) as [x Hx]. rewrite Hx. cbn [mbind option_bind].
  destruct (node_static g n x (ch_same _ _ _ HC) Hx) as (-> & -> & _ & _). destruct (class_defined n Hn) as [-> _].
  cbn [mbind option_bind].
  destruct (for_each_rule (fun pre avail => forall r, Z.testbit avail r = true <->
      Z.testbit (c_regs (gclass n)) r = true /\ forall n2, n2 ∈ pre -> ~ (n2 ∈ st) -> clash n r n2 (nreg g n2) = false)
    (remove_conflicts rs g (gclass n)) (gadj n) (c_regs (gclass n))) as (avail & -> & Ha).
  - intros r. split; [|by intros []]. intros Hr. split; [done|set_solver].
  - intros pre n2 post avail Hsplit Ha.
    destruct (remove_conflicts_spec g st n n2 avail HC Hn) as (avail' & -> & Ha').
    + rewrite Hsplit. set_solver.
    + intros r Hr. by apply Ha.
    + exists avail'. split; [done|]. intros r. rewrite Ha', Ha. set_solver.
  - cbn [mbind option_bind]. eexists _, avail. split; [done|]. split; [|done].
    rewrite negb_true_iff, Z.eqb_neq. done.
Qed.

(** ** The pq test leaves a register *)

Lemma countb_or f a b l :
  countb (fun r => f r && (a r || b r)) l <= countb (fun r => f r && a r) l + countb (fun r => f r && b r) l.
Proof. induction l as [|i l IH]; cbn [countb]; [lia|]. destruct (f i), (a i), (b i); cbn [andb orb]; lia. Qed.

(** The number of registers of the class of [n] that [n2] blocks when it has the
    register [r2]. *)
Definition blocked_regs (n n2 r2 : Z) : Z :=
  countb (fun r => Z.testbit (c_regs (gclass n)) r && clash n r n2 r2) (seqZ 0 (reg_count rs)).

(** A neighbour of [n] with a register of its class blocks at most q registers. *)
Lemma blocked_le n n2 r2 :
  range n -> range n2 -> Z.testbit (c_regs (gclass n2)) r2 = true -> blocked_regs n n2 r2 <= Q n n2.
Proof using HG RegSetReady0.
  intros Hn Hn2 Hr2. unfold blocked_regs. destruct (in_class_placed n2 r2 Hn2 Hr2) as [Hr2' _].
  destruct (class_defined n Hn) as [Ec _]. destruct (class_defined n2 Hn2) as [Ec2 _].
  destruct (rd_q (n_class (gnode n)) (n_class (gnode n2)) (gclass n) (gclass n2)) as (q & Eq & _ & Hq);
    [by apply (go_class HG)..|done|done|].
  assert (HQ : Q n n2 = q) by (unfold Q, q_value; rewrite Ec; cbn; by rewrite Eq). rewrite HQ.
  etrans; [|apply (Hq r2 Hr2)]. apply countb_le; [apply NoDup_seqZ|].
  intros r Hr Hf. split; [done|]. apply andb_true_iff in Hf as [-> Hc]. apply elem_of_seqZ in Hr.
  rewrite clash_sym in Hc by (done || lia). done.
Qed.

Definition coloured (st : list Z) (n : Z) : bool := negb (mem st n).
Definition blocks (g : ra_graph) (st : list Z) (n r n2 : Z) : bool := coloured st n2 && clash n r n2 (nreg g n2).

Lemma blocked_all g st n l :
  (forall n2, n2 ∈ l -> ~ (n2 ∈ st) -> blocked_regs n n2 (nreg g n2) <= Q n n2) ->
  countb (fun r => Z.testbit (c_regs (gclass n)) r && existsb (blocks g st n r) l) (seqZ 0 (reg_count rs))
  <= qsum n (coloured st) l.
Proof.
  induction l as [|n2 l IH]; intros Hc; cbn [existsb qsum].
  { rewrite countb_zero; [done|]. intros. apply andb_false_r. }
  etrans; [apply countb_or|]. apply Z.add_le_mono; [|apply IH; set_solver]. unfold blocks, coloured at 2.
  destruct (mem st n2) eqn:Em; cbn [negb].
  - rewrite countb_zero; [done|]. intros r _. unfold coloured. by rewrite Em, andb_false_r.
  - unfold coloured. rewrite Em. cbn [negb andb]. apply mem_false in Em. apply Hc; [set_solver|done].
Qed.

Lemma qsum_split n st l : qsum n (coloured st) l = qsum n (fun _ => true) l - qsum n (mem st) l.
Proof. induction l as [|n2 l IH]; cbn [qsum]; [done|]. unfold coloured at 1. destruct (mem st n2); cbn [negb]; lia. Qed.

Lemma not_available g st n r :
  Z.testbit (c_regs (gclass n)) r = true -> ~ available g st n r -> existsb (blocks g st n r) (gadj n) = true.
Proof.
  intros Hr Hna. apply not_false_is_true. intros Hex. apply Hna. split; [done|]. intros n2 Hadj Hst.
  destruct (clash n r n2 (nreg g n2)) eqn:Ec; [|done]. rewrite <- Hex. symmetry. apply existsb_exists. exists n2.
  split; [by apply list_elem_of_In|]. unfold blocks, coloured. rewrite Ec, (proj2 (mem_false st n2) Hst). done.
Qed.

(** The register a node that passed the pq test is sure to find. *)
Lemma register_left g st n :
  range n -> rest st n < P n ->
  (forall n2, n2 ∈ gadj n -> ~ (n2 ∈ st) -> blocked_regs n n2 (nreg g n2) <= Q n n2) ->
  (forall r, ~ available g st n r) -> False.
Proof using HG RegSetReady0.
  intros Hn Hpq Hcl Hna.
  pose proof (blocked_all g st n (gadj n) Hcl) as Hb.
  rewrite qsum_split in Hb. pose proof (go_q HG n Hn) as Hq. unfold rest, insum in Hpq.
  pose proof (co_p _ _ (rd_class _ (proj2 (class_defined n Hn)))) as Hp. unfold P in Hpq.
  enough (countb (Z.testbit (c_regs (gclass n))) (seqZ 0 (reg_count rs))
    <= countb (fun r => Z.testbit (c_regs (gclass n)) r && existsb (blocks g st n r) (gadj n)) (seqZ 0 (reg_count rs))) by lia.
  apply countb_le; [apply NoDup_seqZ|]. intros r Hr Ht. split; [done|].
  rewrite Ht, not_available by done. done.
Qed.

(** ** The selection loop *)

(** The colouring when the nodes [st] are still on the stack. *)
Record selecting (g : ra_graph) (st : list Z) : Prop := {
  se_same : same_graph g;
  se_bits : forall n, range n -> Z.testbit (in_stack (g_tmp g)) n = mem st n;
  se_forced : forall n, range n -> gforced n <> NO_REG -> nreg g n = gforced n;
  se_class : forall n, free_node n -> ~ (n ∈ st) -> Z.testbit (c_regs (gclass n)) (nreg g n) = true;
  se_valid : forall n n2, range n -> n2 ∈ gadj n -> ~ (n ∈ st) -> ~ (n2 ∈ st) ->
    free_node n \/ free_node n2 -> clash n (nreg g n) n2 (nreg g n2) = false;
}.

Lemma free_or_forced n : range n -> free_node n \/ gforced n <> NO_REG.
Proof. intros Hn. unfold free_node. destruct (Z.eq_dec (gforced n) NO_REG); [left|right]; done. Qed.

Lemma selecting_placed g st n : selecting g st -> range n -> ~ (n ∈ st) -> placed n (nreg g n).
Proof using HG RegSetReady0.
  intros HS Hn Hst. destruct (free_or_forced n Hn) as [Hf|Hf].
  - apply in_class_placed; [done|]. by apply (se_class _ _ HS).
  - rewrite (se_forced _ _ HS) by done. by destruct (go_forced HG n Hn).
Qed.

(** Popping the top node lets its register be chosen. *)
Lemma choosing_top g n st :
  selecting g (n :: st) -> free_node n -> ~ (n ∈ st) ->
  choosing (set_stack g (n :: st) (Z.clearbit (in_stack (g_tmp g)) n)) st n.
Proof using HG RegSetReady0.
  intros HS [Hn _] Hst. constructor.
  - destruct (se_same _ _ HS). by constructor.
  - intros n2 Hadj. destruct (go_adj HG n n2 Hn Hadj) as [Hn2 Hne]. cbn. rewrite Z.clearbit_neq, (se_bits _ _ HS) by lia.
    unfold mem. apply bool_decide_ext. set_solver.
  - intros n2 Hadj Hn2st. destruct (go_adj HG n n2 Hn Hadj) as [Hn2 Hne].
    change (placed n2 (nreg g n2)). apply (selecting_placed g (n :: st)); [done|done|]. set_solver.
Qed.

(** Colouring the top node keeps the colouring valid. *)
Lemma select_step g n st r (f : ra_node -> ra_node) :
  selecting g (n :: st) -> free_node n -> ~ (n ∈ st) ->
  let g1 := set_stack g (n :: st) (Z.clearbit (in_stack (g_tmp g)) n) in
  available g1 st n r -> (forall x, static (f x) = static x) -> (forall x, n_reg (f x) = r) ->
  exists g2, update_node g1 n f = Some g2 /\ selecting (set_stack g2 st (in_stack (g_tmp g2))) st.
Proof using HG RegSetReady0.
  intros HS Hfree Hst g1 [Hav1 Hav2] Hf Hfr. pose proof Hfree as [Hn _].
  pose proof (choosing_top g n st HS Hfree Hst) as HC. fold g1 in HC.
  destruct (update_node_spec g1 n f (ch_same _ _ _ HC) Hn Hf) as (g2 & x & Hx & -> & Hs2 & T2 & N2 & O2).
  exists g2. split; [done|]. set (g3 := set_stack g2 st _).
  assert (Hnew : nreg g3 n = r) by (change (nreg g2 n = r); unfold nreg; rewrite N2; apply Hfr).
  assert (Hold : forall m, 0 <= m -> m <> n -> nreg g3 m = nreg g m)
    by (intros m Hm Hne; change (nreg g2 m = nreg g1 m); unfold nreg; by rewrite O2).
  assert (Hin : forall m, ~ (m ∈ st) -> m <> n -> ~ (m ∈ n :: st)) by set_solver.
  constructor.
  - destruct Hs2. by constructor.
  - intros m Hm. cbn. rewrite T2. cbn. rewrite Z.clearbit_eqb by lia. rewrite (se_bits _ _ HS) by done.
    destruct (Z.eqb_spec n m) as [->|]; cbn [negb].
    + rewrite andb_false_r. symmetry. by apply mem_false.
    + rewrite andb_true_r. unfold mem. apply bool_decide_ext. set_solver.
  - intros m Hm Hfm. destruct (Z.eq_dec m n) as [->|]; [by destruct Hfree|].
    rewrite Hold by lia. by apply (se_forced _ _ HS).
  - intros m Hm Hmst. destruct (Z.eq_dec m n) as [->|]; [by rewrite Hnew|].
    rewrite Hold by (done || apply Hm). apply (se_class _ _ HS); auto.
  - intros m n2 Hm Hadj Hmst Hn2st Hor. destruct (go_adj HG m n2 Hm Hadj) as [Hn2 Hne].
    destruct (Z.eq_dec m n) as [->|Hmn]; [|destruct (Z.eq_dec n2 n) as [->|Hn2n]].
    + rewrite Hnew, Hold by lia. by apply Hav2.
    + rewrite Hnew, Hold by lia. destruct (selecting_placed g (n :: st) m HS Hm ltac:(auto)) as [Hp _].
      rewrite clash_sym by (done || apply (in_class_placed n r Hn Hav1)). apply Hav2; [|done].
      by apply (go_sym HG).
    + rewrite !Hold by lia. apply (se_valid _ _ HS); auto.
Qed.

Section select_proofs.
Context (cb : option (Z -> Z -> Z)).

(** A callback chooses one of the registers it is given. *)
Definition callback_ok : Prop :=
  forall f n avail, cb = Some f -> 0 < avail -> Z.testbit avail (f n avail) = true.
Context (Hcb : callback_ok).

Lemma bounded_bits a k : (forall r, Z.testbit a r = true -> r < k) -> 0 <= a.
Proof.
  intros H. apply Z.bits_iff_nonneg_ex. exists k. intros m Hm. apply not_true_is_false. intros Ht.
  specialize (H m Ht). lia.
Qed.

Lemma select_reg_spec g st n start :
  choosing g st n -> range n -> 0 <= start <= reg_count rs ->
  exists o, select_reg rs cb g n start = Some o
    /\ match o with Some r => available g st n r | None => forall r, ~ available g st n r end.
Proof using HG RegSetReady0 Hcb.
  intros HC Hn Hstart. unfold select_reg. destruct cb as [f|] eqn:Ef.
  - destruct (available_regs_spec g st n HC Hn) as (ok & avail & -> & Hok & Ha). cbn [mbind option_bind].
    assert (Hin : forall r, Z.testbit avail r = true -> 0 <= r < reg_count rs)
      by (intros r [Hr _]%Ha; by apply (in_class_placed n r Hn)).
    pose proof (bounded_bits avail (reg_count rs) ltac:(intros r Hr; by apply Hin)) as Hpos.
    destruct ok; cbn [negb].
    + assert (Hne : avail <> 0) by (by apply Hok). pose proof (Hcb f n avail Ef ltac:(lia)) as Hr.
      destruct (Z.ltb_spec (f n avail) (reg_count rs)); [|pose proof (Hin _ Hr); lia].
      eexists. split; [done|]. by apply Ha.
    + exists None. split; [done|]. intros r Hr%Ha. assert (avail = 0) as -> by (destruct (Z.eq_dec avail 0); [done|by apply Hok in n0]).
      by rewrite Z.bits_0 in Hr.
  - destruct (node_some g n (ch_same _ _ _ HC) Hn) as [x Hx]. rewrite Hx. cbn [mbind option_bind].
    destruct (node_static g n x (ch_same _ _ _ HC) Hx) as (_ & -> & _ & _). destruct (class_defined n Hn) as [-> _].
    cbn [mbind option_bind]. assert (Hc0 : 0 <= reg_count rs) by (unfold reg_count; lia).
    destruct (find_reg_spec (S (Z.to_nat (reg_count rs))) g st n start 0 HC Hn Hstart ltac:(lia) ltac:(lia)) as (o & -> & Ho).
    exists o. split; [done|]. destruct o; [done|]. intros r Hr.
    destruct (in_class_placed n r Hn (proj1 Hr)) as [Hr' _]. apply (Ho ((r - start) mod reg_count rs)).
    + apply Z.mod_pos_bound. lia.
    + rewrite Z.add_mod_idemp_r by lia. replace (start + (r - start)) with r by lia. by rewrite Z.mod_small.
Qed.

(** A node none of whose registers is left by its coloured neighbours. *)
Definition stuck (g : ra_graph) : Prop :=
  exists n, free_node n /\ forall r, Z.testbit (c_regs (gclass n)) r = true ->
    exists n2, n2 ∈ gadj n /\ Z.testbit (in_stack (g_tmp g)) n2 = false /\ clash n r n2 (nreg g n2) = true.

(** The fixed registers block no more than the q of the classes says: of the registers
    of a node without a fixed register, those that conflict with the fixed register
    of a neighbour are at most the q value that the neighbour's class was counted with. *)
Definition forced_within_q : Prop :=
  forall n n2, free_node n -> n2 ∈ gadj n -> gforced n2 <> NO_REG -> blocked_regs n n2 (gforced n2) <= Q n n2.

(** This is so if nodes with a fixed register have one of their class. *)
Definition forced_in_class : Prop :=
  forall n, range n -> gforced n <> NO_REG -> Z.testbit (c_regs (gclass n)) (gforced n) = true.

Lemma forced_in_class_within_q : forced_in_class -> forced_within_q.
Proof using HG RegSetReady0.
  intros Hf n n2 [Hn _] Hadj Hn2. destruct (go_adj HG n n2 Hn Hadj) as [Hr2 _].
  apply blocked_le; [done|done|]. by apply Hf.
Qed.

Lemma stuck_top g st n :
  choosing g st n -> free_node n -> (forall r, ~ available g st n r) -> stuck g.
Proof.
  intros HC Hn Hna. exists n. split; [done|]. intros r Hr.
  pose proof (not_available g st n r Hr (Hna r)) as (n2 & Hadj%list_elem_of_In & Hb)%existsb_exists.
  unfold blocks, coloured in Hb. apply andb_true_iff in Hb as [Hm Hb]. apply negb_true_iff in Hm.
  exists n2. by rewrite (ch_bits _ _ _ HC n2 Hadj).
Qed.

Lemma select_loop_spec st g start :
  NoDup st -> (forall n, n ∈ st -> free_node n) -> selecting g st -> 0 <= start <= reg_count rs ->
  exists b g', select_loop rs cb st g start = Some (b, g') /\ same_graph g'
    /\ (if b then selecting g' [] else stuck g')
    /\ (pushed [] st -> forced_within_q -> b = true).
Proof using HG RegSetReady0 Hcb.
  intros Hnd. revert g start. induction Hnd as [|n st Hnst Hnd IH]; intros g start Hfree HS Hstart; cbn [select_loop].
  { exists true, g. split_and!; try done. apply HS. }
  assert (Hn : free_node n) by (apply Hfree; set_solver).
  pose proof (choosing_top g n st HS Hn Hnst) as HC. set (g1 := set_stack g (n :: st) _) in *.
  destruct (select_reg_spec g1 st n start HC (proj1 Hn) Hstart) as (o & -> & Ho). cbn [mbind option_bind].
  destruct o as [r|].
  - destruct (select_step g n st r (fun x => RaNode (adjacency x) (n_class x) r (n_q_total x) (tmp_q_total x) (forced_reg x))
      HS Hn Hnst Ho) as (g2 & E2 & HS2); [done|done|]. fold g1 in E2. rewrite E2. cbn [mbind option_bind].
    match goal with |- context [select_loop rs cb st ?g3 ?start'] =>
      destruct (IH g3 start' ltac:(intros; apply Hfree; set_solver) HS2) as (b & g' & -> & Hs' & Hb & Ht) end.
    { destruct (in_class_placed n r (proj1 Hn) (proj1 Ho)). destruct (_ && _); lia. }
    exists b, g'. split_and!; try done. intros Hpu. inversion Hpu; subst; auto.
  - exists false, g1. split_and!; [done|apply HC|by apply (stuck_top g1 st n)|].
    intros Hpu Hfc. exfalso. assert (Hpq : rest st n < P n) by (by inversion Hpu).
    apply (register_left g1 st n (proj1 Hn) Hpq); [|done]. intros n2 Hadj Hst2.
    destruct (go_adj HG n n2 (proj1 Hn) Hadj) as [Hn2 Hne]. change (nreg g1 n2) with (nreg g n2).
    destruct (free_or_forced n2 Hn2) as [Hf|Hf].
    + apply blocked_le; [apply Hn|done|]. apply (se_class _ _ HS); set_solver.
    + rewrite (se_forced _ _ HS) by done. by apply Hfc.
Qed.

(** The state after the simplification starts the selection. *)
Lemma simplified_selecting g st : simp g st (rest st) -> (forall n, ~ live st n) -> selecting g st.
Proof.
  intros HS Hend. assert (Hfree : forall n, free_node n -> n ∈ st).
  { intros n Hf. destruct (decide (n ∈ st)) as [|Hst]; [done|]. by destruct (Hend n). }
  constructor.
  - apply HS.
  - intros n Hn. apply (si_bits _ _ _ HS). pose proof (W_range n Hn). lia.
  - intros n Hn Hf. by apply (si_reg _ _ _ HS).
  - intros n Hf Hst. by destruct Hst; apply Hfree.
  - intros n n2 Hn Hadj H1 H2 [Hf|Hf]; [destruct H1|destruct H2]; by apply Hfree.
Qed.

Lemma allocate_spec :
  exists b g', ra_allocate rs cb G = Some (b, g') /\ same_graph g'
    /\ (if b then selecting g' [] else stuck g')
    /\ (pq_simplifiable -> forced_within_q -> b = true).
Proof using HG RegSetReady0 Hcb.
  destruct simplify_spec as (g & st & E & [D1 D2 D3 D4]). unfold ra_allocate. rewrite E. cbn [mbind option_bind].
  unfold ra_select. rewrite (si_stack _ _ _ D1).
  destruct (select_loop_spec st g 0) as (b & g' & -> & Hs & Hb & Ht).
  - apply D1.
  - apply D1.
  - by apply simplified_selecting.
  - unfold reg_count. lia.
  - exists b, g'. split_and!; try done. intros Hps Hfc. apply Ht; [|done]. apply D3. by apply D4.
Qed.
End select_proofs.
End allocation.
