(* ===== verification/RegBuild.v ===== *)
(** * Building interference graphs and allocating them (src/util/register_allocate.c)

    The operations with which a client builds an interference graph keep an invariant
    ([built]): the adjacency lists, the triangular bit matrix and the q totals describe
    the same symmetric graph.  A built graph satisfies what the allocator of RegAlloc.v
    relies on, so that the properties of [ra_allocate] hold for it. *)

From Stdlib Require Import ZArith Lia.
From stdpp Require Import base list numbers option sets.
From S2P Require Import Prelude RegSet RegAlloc.
Local Open Scope Z_scope.

(** ** The triangular bit matrix *)

(** The bit of a pair of nodes. *)
Definition bidx (n1 n2 : Z) : Z := Z.max n1 n2 * (Z.max n1 n2 - 1) / 2 + Z.min n1 n2.

(** The largest number of nodes for which the index of every pair fits in 32 bits. *)
Definition MAX_NODES : Z := 92682.

Lemma tri2 m : 2 * (m * (m - 1) / 2) = m * (m - 1).
Proof.
  assert (E : m * (m - 1) mod 2 = 0).
  { rewrite Z.mul_mod, Zminus_mod by lia. pose proof (Z.mod_pos_bound m 2 ltac:(lia)).
    assert (m mod 2 = 0 \/ m mod 2 = 1) as [-> | ->] by lia; reflexivity. }
  dlia.
Qed.

Lemma bidx_sym n1 n2 : bidx n1 n2 = bidx n2 n1.
Proof. unfold bidx. by rewrite Z.max_comm, Z.min_comm. Qed.

Lemma bidx_range n1 n2 : 0 <= n1 < MAX_NODES -> 0 <= n2 < MAX_NODES -> n1 <> n2 -> 0 <= bidx n1 n2 < 2 ^ 32.
Proof.
  intros H1 H2 Hne. unfold bidx, MAX_NODES in *. pose proof (tri2 (Z.max n1 n2)).
  assert (0 <= Z.max n1 n2 <= 92681) by lia. nia.
Qed.

Lemma bidx_nonneg n1 n2 : 0 <= n1 -> 0 <= n2 -> 0 <= bidx n1 n2.
Proof. intros H1 H2. unfold bidx. pose proof (tri2 (Z.max n1 n2)). nia. Qed.

(** Different pairs have different bits. *)
Lemma bidx_inj a b c d :
  0 <= a -> 0 <= b -> 0 <= c -> 0 <= d -> a <> b -> c <> d -> bidx a b = bidx c d ->
  (a = c /\ b = d) \/ (a = d /\ b = c).
Proof.
  intros Ha Hb Hc Hd Hab Hcd. unfold bidx.
  pose proof (tri2 (Z.max a b)) as T1. pose proof (tri2 (Z.max c d)) as T2.
  set (M := Z.max a b) in *. set (N := Z.max c d) in *. set (t1 := M * (M - 1) / 2) in *. set (t2 := N * (N - 1) / 2) in *.
  intros E. assert (M = N).
  { destruct (Z.lt_trichotomy M N) as [Hlt|[|Hlt]]; [|done|].
    - assert (t2 >= t1 + M) by nia. lia.
    - assert (t1 >= t2 + N) by nia. lia. }
  assert (t1 = t2) by (unfold t1, t2; congruence). lia.
Qed.

Lemma bit_index_spec n1 n2 :
  0 <= n1 < MAX_NODES -> 0 <= n2 < MAX_NODES -> n1 <> n2 ->
  ra_get_adjacency_bit_index n1 n2 = Some (bidx n1 n2) /\ u32 (bidx n1 n2) = bidx n1 n2.
Proof.
  intros H1 H2 Hne. pose proof (bidx_range n1 n2 H1 H2 Hne) as Hr. split; [|by apply u32_small].
  unfold ra_get_adjacency_bit_index, ra_get_num_adjacency_bits. destruct (Z.eqb_spec n1 n2); [done|]. cbn [negb].
  rewrite MAX2_max, MIN2_min. unfold MAX_NODES, bidx in *. assert (1 <= Z.max n1 n2 <= 92681) by lia.
  rewrite (u64_small (_ - 1)) by lia. rewrite (u64_small (_ * _)) by nia. rewrite u64_small by lia. done.
Qed.

(** ** Nodes *)

Lemma update_gnode g n f :
  0 <= n < Z.of_nat (length (g_nodes g)) ->
  exists g', update_node g n f = Some g' /\ g_count g' = g_count g /\ g_tmp g' = g_tmp g
    /\ g_adjacency g' = g_adjacency g /\ length (g_nodes g') = length (g_nodes g)
    /\ forall m, 0 <= m -> gnode g' m = if m =? n then f (gnode g n) else gnode g m.
Proof.
  intros Hn. unfold update_node, gnode, node. destruct (lookup_lt_is_Some_2 (g_nodes g) (Z.to_nat n)) as [x Hx]; [lia|].
  rewrite Hx. cbn. eexists. split_and!; try done; cbn; [by rewrite length_insert|]. intros m Hm.
  destruct (Z.eqb_spec m n) as [->|Hne]; [by rewrite list_lookup_insert_eq by lia|].
  by rewrite list_lookup_insert_ne by lia.
Qed.

Lemma node_gnode g n : 0 <= n < Z.of_nat (length (g_nodes g)) -> node g n = Some (gnode g n).
Proof.
  intros Hn. unfold gnode, node. destruct (lookup_lt_is_Some_2 (g_nodes g) (Z.to_nat n)) as [x ->]; [lia|done].
Qed.

(** The q sum only depends on the classes. *)
Lemma qsum_classes rs g g' n l :
  n_class (gnode g' n) = n_class (gnode g n) -> (forall m, m ∈ l -> n_class (gnode g' m) = n_class (gnode g m)) ->
  qsum rs g' n (fun _ => true) l = qsum rs g n (fun _ => true) l.
Proof.
  intros Hn. induction l as [|m l IH]; intros Hl; cbn [qsum]; [done|]. rewrite IH by set_solver. f_equal.
  unfold Q. by rewrite Hn, Hl by set_solver.
Qed.

Lemma qsum_snoc rs g n l m :
  qsum rs g n (fun _ => true) (l ++ [m]) = qsum rs g n (fun _ => true) l + Q rs g n m.
Proof. induction l as [|x l IH]; cbn [app qsum]; [lia|]. rewrite IH. lia. Qed.

Lemma qsum_permutation rs g n l l' :
  l ≡ₚ l' -> qsum rs g n (fun _ => true) l = qsum rs g n (fun _ => true) l'.
Proof. induction 1; cbn [qsum]; lia. Qed.

(** Removing an element by moving the last one into its place *)
Lemma index_of_split x l : x ∈ l -> exists l1 l2, l = l1 ++ x :: l2 /\ index_of x l = Some (length l1).
Proof.
  induction l as [|y l IH]; intros Hx; [by apply elem_of_nil in Hx|]. cbn [index_of].
  destruct (Z.eqb_spec y x) as [->|Hne]; [by exists [], l|].
  destruct IH as (l1 & l2 & -> & ->); [set_solver|]. by exists (y :: l1), l2.
Qed.

Lemma swap_remove_permutation x l : x ∈ l -> l ≡ₚ x :: swap_remove x l.
Proof.
  intros Hx. destruct (index_of_split x l Hx) as (l1 & l2 & -> & Ei). unfold swap_remove. rewrite Ei.
  destruct l2 as [|y l2 _] using rev_ind.
  - rewrite last_snoc, list_insert_id by (by rewrite list_lookup_middle).
    rewrite length_app. cbn [length]. rewrite Nat.add_sub, take_app_length. apply Permutation_app_comm.
  - rewrite app_comm_cons, app_assoc, last_snoc. rewrite <- app_assoc. cbn [app].
    rewrite insert_app_r_alt, Nat.sub_diag by lia. cbn [list_insert insert].
    rewrite app_comm_cons, app_assoc, length_app. cbn [length]. rewrite Nat.add_sub.
    replace (length (l1 ++ x :: l2)) with (length (l1 ++ y :: l2)) by (rewrite !length_app; done).
    replace (l1 ++ y :: l2 ++ [y]) with ((l1 ++ y :: l2) ++ [y]) by (by rewrite <- app_assoc).
    rewrite take_app_length, <- !Permutation_middle. cbn [app]. rewrite app_nil_r. apply perm_swap.
Qed.

(** ** The invariant *)

Section build.
Context (rs : ra_regs) `{!RegSetReady rs}.
(** The q values are small enough for the sums. *)
Context (Hsmall : forall b c q, q_value rs b c = Some q -> q <= 2 ^ 15).

Definition class_exists (c : Z) : Prop := 0 <= c /\ exists cl, class_of rs c = Some cl.

Record built (g : ra_graph) : Prop := {
  bu_count : 0 <= g_count g <= MAX_NODES;
  bu_alloc : g_count g <= Z.of_nat (length (g_nodes g)) <= 2 ^ 18 /\ Z.of_nat (length (g_nodes g)) mod 32 = 0;
  bu_words : Z.of_nat (length (g_nodes g)) <= 32 * Z.of_nat (length (min_q_total (g_tmp g)))
    /\ Z.of_nat (length (g_nodes g)) <= 32 * Z.of_nat (length (min_q_node (g_tmp g)));
  bu_class : forall n, 0 <= n < g_count g -> class_exists (n_class (gnode g n));
  bu_nodup : forall n, 0 <= n -> NoDup (gadj g n);
  bu_adj : forall n m, 0 <= n -> m ∈ gadj g n -> 0 <= n < g_count g /\ 0 <= m < g_count g /\ m <> n;
  bu_bits : forall n m, 0 <= n -> 0 <= m -> n <> m ->
    Z.testbit (g_adjacency g) (bidx n m) = true <-> m ∈ gadj g n;
  bu_q : forall n, 0 <= n -> gq g n = qsum rs g n (fun _ => true) (gadj g n);
  bu_forced : forall n, 0 <= n -> gforced g n = NO_REG
    \/ (0 <= gforced g n < reg_count rs /\ gforced g n + contig_len (gclass rs g n) <= reg_count rs);
  bu_fresh : forall n, g_count g <= n -> gforced g n = NO_REG /\ n_class (gnode g n) = 0;
}.

Lemma built_sym g n m : built g -> 0 <= n -> 0 <= m -> m ∈ gadj g n -> n ∈ gadj g m.
Proof using Type.
  intros Hb Hn Hm Hin. destruct (bu_adj _ Hb n m Hn Hin) as (_ & _ & Hne).
  apply (bu_bits _ Hb); [done|done|done|]. rewrite bidx_sym. by apply (bu_bits _ Hb).
Qed.

Lemma Q_range g n m : class_exists (n_class (gnode g n)) -> class_exists (n_class (gnode g m)) ->
  q_value rs (n_class (gnode g n)) (n_class (gnode g m)) = Some (Q rs g n m) /\ 0 <= Q rs g n m <= 2 ^ 15.
Proof using Hsmall RegSetReady0.
  intros [H0 [c Hc]] [H1 [c2 Hc2]]. unfold class_of in *.
  destruct (rd_q _ _ c c2 H0 H1 Hc Hc2) as (q & Eq & Hq & _).
  assert (E : q_value rs (n_class (gnode g n)) (n_class (gnode g m)) = Some q)
    by (unfold q_value, class_of; rewrite Hc; done).
  unfold Q. rewrite E. split; [done|]. cbn. apply Hsmall in E. lia.
Qed.

Lemma qsum_bound g n l :
  class_exists (n_class (gnode g n)) -> (forall m, m ∈ l -> class_exists (n_class (gnode g m))) ->
  0 <= qsum rs g n (fun _ => true) l <= Z.of_nat (length l) * 2 ^ 15.
Proof using Hsmall RegSetReady0.
  intros Hn. induction l as [|m l IH]; intros Hl; cbn [qsum length]; [lia|].
  specialize (IH ltac:(intros; apply Hl; set_solver)).
  pose proof (proj2 (Q_range g n m Hn (Hl m ltac:(set_solver)))). lia.
Qed.

Lemma adjacency_length g n : built g -> 0 <= n -> Z.of_nat (length (gadj g n)) <= g_count g.
Proof using Type.
  intros Hb Hn. pose proof (bu_count _ Hb). enough (length (gadj g n) <= length (seqZ 0 (g_count g)))%nat by (rewrite length_seqZ in *; lia).
  apply submseteq_length, NoDup_submseteq; [by apply (bu_nodup _ Hb)|].
  intros m Hm. destruct (bu_adj _ Hb n m Hn Hm) as (_ & Hm' & _). apply elem_of_seqZ. lia.
Qed.

Lemma q_total_bound g n : built g -> 0 <= n < g_count g -> 0 <= gq g n <= MAX_NODES * 2 ^ 15.
Proof using Hsmall RegSetReady0.
  intros Hb Hn. rewrite (bu_q _ Hb) by lia. pose proof (adjacency_length g n Hb ltac:(lia)) as Hl.
  pose proof (bu_count _ Hb). pose proof (qsum_bound g n (gadj g n) (bu_class _ Hb n Hn)) as Hq.
  specialize (Hq ltac:(intros m Hm; apply (bu_class _ Hb); by apply (bu_adj _ Hb n m ltac:(lia) Hm))). lia.
Qed.

(** What the allocator relies on. *)
Lemma built_graph_ok g : built g -> graph_ok rs g.
Proof using Hsmall RegSetReady0.
  intros Hb. pose proof (bu_count _ Hb) as Hc. pose proof (bu_alloc _ Hb) as Ha. unfold MAX_NODES in Hc. constructor.
  - lia.
  - intros n Hn. by apply (bu_class _ Hb).
  - intros n Hn. apply (bu_nodup _ Hb). lia.
  - intros n n2 Hn Hin. destruct (bu_adj _ Hb n n2 ltac:(lia) Hin) as (_ & ? & ?). done.
  - intros n n2 Hn Hin. apply built_sym; [done|lia| |done]. by apply (bu_adj _ Hb n n2 ltac:(lia) Hin).
  - intros n Hn. rewrite <- (bu_q _ Hb) by lia. pose proof (q_total_bound g n Hb Hn). unfold MAX_NODES, UINT32_MAX in *. lia.
  - intros n Hn. apply (bu_forced _ Hb). lia.
  - pose proof (bu_words _ Hb). unfold W, BITSET_WORDS. dlia.
Qed.

(** ** Adding interference *)

(** A node with one more neighbour. *)
Definition with_neighbor (g : ra_graph) (n1 n2 : Z) : ra_node :=
  let x := gnode g n1 in
  RaNode (adjacency x ++ [n2]) (n_class x) (n_reg x) (n_q_total x + Q rs g n1 n2) (tmp_q_total x) (forced_reg x).

Lemma add_adjacency_spec g n1 n2 :
  0 <= n1 < Z.of_nat (length (g_nodes g)) -> 0 <= n2 < Z.of_nat (length (g_nodes g)) -> n1 <> n2 ->
  class_exists (n_class (gnode g n1)) -> class_exists (n_class (gnode g n2)) ->
  0 <= gq g n1 <= MAX_NODES * 2 ^ 15 ->
  exists g', ra_add_node_adjacency rs g n1 n2 = Some g' /\ g_count g' = g_count g /\ g_tmp g' = g_tmp g
    /\ g_adjacency g' = g_adjacency g /\ length (g_nodes g') = length (g_nodes g)
    /\ forall m, 0 <= m -> gnode g' m = if m =? n1 then with_neighbor g n1 n2 else gnode g m.
Proof using Hsmall RegSetReady0.
  intros H1 H2 Hne Hc1 Hc2 Hq. unfold ra_add_node_adjacency. destruct (Z.eqb_spec n1 n2); [done|]. cbn [negb].
  rewrite (node_gnode g n1 H1), (node_gnode g n2 H2). cbn [mbind option_bind].
  destruct (Q_range g n1 n2 Hc1 Hc2) as [-> HQ]. cbn [mbind option_bind].
  match goal with |- context [update_node g n1 ?f] => destruct (update_gnode g n1 f H1) as (g' & -> & E1 & E2 & E3 & E4 & E5) end.
  exists g'. split_and!; try done. intros m Hm. rewrite E5 by done. destruct (m =? n1); [|done].
  unfold with_neighbor. rewrite u32_small; [done|]. unfold gq, MAX_NODES in Hq. lia.
Qed.

(** The graph after an edge was added. *)
Record edge_added (g : ra_graph) (n1 n2 : Z) (g' : ra_graph) : Prop := {
  ea_count : g_count g' = g_count g;
  ea_tmp : g_tmp g' = g_tmp g;
  ea_len : length (g_nodes g') = length (g_nodes g);
  ea_bits : g_adjacency g' = Z.setbit (g_adjacency g) (bidx n1 n2);
  ea_node : forall m, 0 <= m -> gnode g' m =
    if m =? n1 then with_neighbor g n1 n2 else if m =? n2 then with_neighbor g n2 n1 else gnode g m;
}.

Lemma add_interference_step g n1 n2 :
  built g -> 0 <= n1 < g_count g -> 0 <= n2 < g_count g -> n1 <> n2 -> ~ (n2 ∈ gadj g n1) ->
  exists g', ra_add_node_interference rs g n1 n2 = Some g' /\ edge_added g n1 n2 g'.
Proof using Hsmall RegSetReady0.
  intros Hb H1 H2 Hne Hadj. pose proof (bu_count _ Hb) as Hc. pose proof (bu_alloc _ Hb) as Ha.
  unfold ra_add_node_interference. destruct (Z.ltb_spec n1 (g_count g)); [|lia]. destruct (Z.ltb_spec n2 (g_count g)); [|lia].
  cbn [andb]. destruct (Z.eqb_spec n1 n2); [done|]. unfold ra_test_adjacency_bit, ra_set_adjacency_bit.
  destruct (bit_index_spec n1 n2) as [-> Hidx]; [lia..|]. cbn [mbind option_bind]. rewrite Hidx.
  destruct (Z.testbit (g_adjacency g) (bidx n1 n2)) eqn:Et; [apply (bu_bits _ Hb) in Et; [done|lia..]|]. cbn [negb].
  set (g0 := set_adj_bits g _). assert (G0 : forall m, gnode g0 m = gnode g m) by done.
  destruct (add_adjacency_spec g0 n1 n2) as (g1 & -> & C1 & T1 & B1 & L1 & N1);
    [cbn; lia|cbn; lia|done|by apply (bu_class _ Hb)|by apply (bu_class _ Hb)|by apply (q_total_bound g)|].
  cbn [mbind option_bind].
  assert (N12 : gnode g1 n2 = gnode g n2) by (rewrite N1 by lia; by destruct (Z.eqb_spec n2 n1)).
  assert (N11 : n_class (gnode g1 n1) = n_class (gnode g n1)) by (rewrite N1 by lia; by rewrite Z.eqb_refl).
  destruct (add_adjacency_spec g1 n2 n1) as (g' & -> & C2 & T2 & B2 & L2 & N2);
    [rewrite L1; cbn; lia|rewrite L1; cbn; lia|done|rewrite N12; by apply (bu_class _ Hb)|rewrite N11; by apply (bu_class _ Hb)
    |unfold gq; rewrite N12; by apply q_total_bound|].
  exists g'. split; [done|]. constructor; [by rewrite C2, C1|by rewrite T2, T1|by rewrite L2, L1|by rewrite B2, B1|]. intros m Hm. rewrite N2, N1 by done.
  destruct (Z.eqb_spec m n1) as [->|]; [by destruct (Z.eqb_spec n1 n2)|]. destruct (Z.eqb_spec m n2) as [->|]; [|done].
  unfold with_neighbor, Q. by rewrite N12, N11.
Qed.

(** Membership, classes and registers after an edge was added. *)
Lemma edge_added_adj g n1 n2 g' a b :
  edge_added g n1 n2 g' -> 0 <= a -> n1 <> n2 ->
  b ∈ gadj g' a <-> b ∈ gadj g a \/ (a = n1 /\ b = n2) \/ (a = n2 /\ b = n1).
Proof using Type.
  intros He Ha Hne. unfold gadj. rewrite (ea_node _ _ _ _ He) by done.
  destruct (Z.eqb_spec a n1) as [->|]; [|destruct (Z.eqb_spec a n2) as [->|]]; cbn; rewrite ?elem_of_app, ?list_elem_of_singleton; intuition lia.
Qed.

Lemma edge_added_static g n1 n2 g' a :
  edge_added g n1 n2 g' -> 0 <= a -> n_class (gnode g' a) = n_class (gnode g a) /\ gforced g' a = gforced g a.
Proof using Type.
  intros He Ha. unfold gforced. rewrite (ea_node _ _ _ _ He) by done.
  destruct (Z.eqb_spec a n1) as [->|]; [done|]. by destruct (Z.eqb_spec a n2) as [->|].
Qed.

Lemma edge_added_q g n1 n2 g' a :
  built g -> edge_added g n1 n2 g' -> 0 <= a -> 0 <= n1 -> 0 <= n2 -> n1 <> n2 ->
  gq g' a = qsum rs g' a (fun _ => true) (gadj g' a).
Proof using Type.
  intros Hb He Ha H1 H2 Hne.
  assert (Hcl : forall m, 0 <= m -> n_class (gnode g' m) = n_class (gnode g m)) by (intros; by eapply edge_added_static).
  assert (Hold : forall l, (forall m, m ∈ l -> 0 <= m) -> qsum rs g' a (fun _ => true) l = qsum rs g a (fun _ => true) l)
    by (intros l Hl; apply qsum_classes; [by apply Hcl|intros m Hm; by apply Hcl, Hl]).
  assert (Hadj : forall m, m ∈ gadj g a -> 0 <= m) by (intros m Hm; by apply (bu_adj _ Hb a m)).
  rewrite Hold.
  2: { intros m Hm. apply (edge_added_adj _ _ _ _ _ _ He Ha Hne) in Hm as [?|[[_ ->]|[_ ->]]]; [auto|done..]. }
  unfold gq, gadj. rewrite (ea_node _ _ _ _ He) by done. pose proof (bu_q _ Hb a Ha) as Hq. unfold gq, gadj in Hq.
  destruct (Z.eqb_spec a n1) as [->|]; [|destruct (Z.eqb_spec a n2) as [->|]]; cbn; rewrite ?qsum_snoc; lia.
Qed.

Lemma edge_added_built g n1 n2 g' :
  built g -> edge_added g n1 n2 g' -> 0 <= n1 < g_count g -> 0 <= n2 < g_count g -> n1 <> n2 ->
  ~ (n2 ∈ gadj g n1) -> built g'.
Proof using Type.
  clear Hsmall RegSetReady0.
  intros Hb He H1 H2 Hne Hnew. pose proof He as [E1 E2 E3 E4 E5].
  assert (Hnew2 : ~ (n1 ∈ gadj g n2)) by (intros Hin; apply Hnew, built_sym; [done|lia|lia|done]).
  assert (Hst : forall a, 0 <= a -> n_class (gnode g' a) = n_class (gnode g a) /\ gforced g' a = gforced g a)
    by (intros; by eapply edge_added_static).
  assert (Hadj : forall a b, 0 <= a -> b ∈ gadj g' a <-> b ∈ gadj g a \/ (a = n1 /\ b = n2) \/ (a = n2 /\ b = n1))
    by (intros; by eapply edge_added_adj).
  constructor; rewrite ?E1, ?E2, ?E3; try apply Hb.
  - intros n Hn. rewrite (proj1 (Hst n ltac:(lia))). by apply (bu_class _ Hb).
  - intros n Hn. unfold gadj. rewrite E5 by done. pose proof (bu_nodup _ Hb n Hn) as Hnd.
    destruct (Z.eqb_spec n n1) as [->|]; [|destruct (Z.eqb_spec n n2) as [->|]; [|done]]; cbn;
      apply NoDup_app; (split; [done|]); (split; [set_solver|apply NoDup_singleton]).
  - intros n m Hn [Hm|[[-> ->]|[-> ->]]]%Hadj; [by apply (bu_adj _ Hb n m)|lia|lia|done].
  - intros n m Hn Hm Hnm. rewrite E4, Z.setbit_iff by (apply bidx_nonneg; lia). rewrite (bu_bits _ Hb), Hadj by done. split.
    + intros [E|]; [|by left]. right. destruct (bidx_inj n1 n2 n m) as [[-> ->]|[-> ->]]; auto; lia.
    + intros [|[[-> ->]|[-> ->]]]; [by right|by left|left; apply bidx_sym].
  - intros n Hn. apply (edge_added_q g n1 n2); done || lia.
  - intros n Hn. destruct (Hst n Hn) as [Hc ->]. unfold gclass. rewrite Hc. by apply (bu_forced _ Hb).
  - intros n Hn. pose proof (bu_count _ Hb). destruct (Hst n ltac:(lia)) as [-> ->]. by apply (bu_fresh _ Hb).
Qed.

(** What [ra_add_node_interference] does to a graph. *)
Lemma add_interference_spec g n1 n2 :
  built g -> 0 <= n1 < g_count g -> 0 <= n2 < g_count g ->
  exists g', ra_add_node_interference rs g n1 n2 = Some g' /\ built g' /\ g_count g' = g_count g
    /\ (forall a, 0 <= a -> n_class (gnode g' a) = n_class (gnode g a) /\ gforced g' a = gforced g a)
    /\ (forall a b, 0 <= a -> b ∈ gadj g' a <->
          b ∈ gadj g a \/ (n1 <> n2 /\ ((a = n1 /\ b = n2) \/ (a = n2 /\ b = n1)))).
Proof using Hsmall RegSetReady0.
  intros Hb H1 H2. pose proof (bu_count _ Hb) as Hc.
  destruct (decide (n1 <> n2 /\ ~ (n2 ∈ gadj g n1))) as [[Hne Hnew]|Hold].
  - destruct (add_interference_step g n1 n2 Hb H1 H2 Hne Hnew) as (g' & -> & He). exists g'.
    split_and!; [done|by eapply edge_added_built|apply He|intros; by eapply edge_added_static|].
    intros a b Ha. rewrite (edge_added_adj g n1 n2 g') by done. tauto.
  - exists g. split_and!; try done.
    + unfold ra_add_node_interference. destruct (Z.ltb_spec n1 (g_count g)); [|lia].
      destruct (Z.ltb_spec n2 (g_count g)); [|lia]. cbn [andb]. destruct (Z.eqb_spec n1 n2) as [|Hne]; [done|].
      unfold ra_test_adjacency_bit. rewrite (proj1 (bit_index_spec n1 n2 ltac:(lia) ltac:(lia) Hne)). cbn [mbind option_bind].
      rewrite (proj2 (bu_bits _ Hb n1 n2 ltac:(lia) ltac:(lia) Hne)); [done|].
      destruct (decide (n2 ∈ gadj g n1)); [done|by destruct Hold].
    + intros a b Ha. split; [by left|]. intros [|[Hne Hcase]]; [done|].
      assert (Hin : n2 ∈ gadj g n1) by (destruct (decide (n2 ∈ gadj g n1)); [done|by destruct Hold]).
      destruct Hcase as [[-> ->]|[-> ->]]; [done|]. apply built_sym; [done|lia|lia|done].
Qed.

(** ** Removing interference *)

(** A node without one of its neighbours. *)
Definition without_neighbor (g : ra_graph) (m n : Z) : ra_node :=
  let x := gnode g m in
  RaNode (swap_remove n (adjacency x)) (n_class x) (n_reg x) (n_q_total x - Q rs g m n) (tmp_q_total x) (forced_reg x).

(** The graph while the edges of [n] are removed, the nodes [pre] being done. *)
Record removing_edges (g : ra_graph) (n : Z) (pre : list Z) (h : ra_graph) : Prop := {
  rg_count : g_count h = g_count g;
  rg_tmp : g_tmp h = g_tmp g;
  rg_len : length (g_nodes h) = length (g_nodes g);
  rg_bits : forall a b, 0 <= a -> 0 <= b -> a <> b -> Z.testbit (g_adjacency h) (bidx a b) = true <->
    Z.testbit (g_adjacency g) (bidx a b) = true /\ ~ (a = n /\ b ∈ pre) /\ ~ (b = n /\ a ∈ pre);
  rg_node : forall m, 0 <= m -> gnode h m = if decide (m ∈ pre) then without_neighbor g m n else gnode g m;
}.

(** The q total of a node has room for the q of each neighbour. *)
Lemma q_total_neighbor g m n :
  built g -> 0 <= m -> n ∈ gadj g m ->
  gq g m = Q rs g m n + qsum rs g m (fun _ => true) (swap_remove n (gadj g m))
  /\ 0 <= gq g m - Q rs g m n < 2 ^ 32 /\ 0 <= Q rs g m n.
Proof using Hsmall RegSetReady0.
  intros Hb Hm Hn. destruct (bu_adj _ Hb m n Hm Hn) as (Hm' & Hn' & _).
  pose proof (q_total_bound g m Hb Hm') as Hq. unfold MAX_NODES in Hq.
  pose proof (swap_remove_permutation n (gadj g m) Hn) as Hp.
  assert (E : gq g m = Q rs g m n + qsum rs g m (fun _ => true) (swap_remove n (gadj g m)))
    by (rewrite (bu_q _ Hb) by done; rewrite (qsum_permutation _ _ _ _ _ Hp); done).
  pose proof (proj2 (Q_range g m n (bu_class _ Hb m Hm') (bu_class _ Hb n Hn'))).
  pose proof (qsum_bound g m (swap_remove n (gadj g m)) (bu_class _ Hb m Hm')) as Hs.
  destruct Hs as [Hs _]; [|split_and!; lia]. intros k Hk. apply (bu_class _ Hb).
  apply (bu_adj _ Hb m k Hm). rewrite Hp. by right.
Qed.

Lemma remove_adjacency_step g n pre m h :
  built g -> removing_edges g n pre h -> 0 <= n < g_count g -> m ∈ gadj g n -> m ∉ pre -> n ∉ pre ->
  exists h', ra_node_remove_adjacency rs h m n = Some h' /\ removing_edges g n (pre ++ [m]) h'.
Proof using Hsmall RegSetReady0.
  intros Hb [R1 R2 R3 R4 R5] Hn Hm Hpre Hnpre. pose proof (bu_count _ Hb) as Hc. pose proof (bu_alloc _ Hb) as [Ha _].
  destruct (bu_adj _ Hb n m ltac:(lia) Hm) as (_ & Hmr & Hne).
  assert (Hsym : n ∈ gadj g m) by (apply built_sym; done || lia).
  unfold ra_node_remove_adjacency, ra_clear_adjacency_bit. destruct (Z.eqb_spec m n); [done|]. cbn [negb].
  destruct (bit_index_spec m n) as [-> Hidx]; [lia..|]. cbn [mbind option_bind]. rewrite Hidx.
  set (h0 := set_adj_bits h _). assert (H0 : forall k, gnode h0 k = gnode h k) by done.
  rewrite (node_gnode h0 m), (node_gnode h0 n) by (cbn; lia). cbn [mbind option_bind].
  rewrite !H0, !R5, decide_False, decide_False by (done || lia).
  destruct (Q_range g m n (bu_class _ Hb m Hmr) (bu_class _ Hb n Hn)) as [-> _]. cbn [mbind option_bind].
  match goal with |- context [update_node h0 m ?f] =>
    destruct (update_gnode h0 m f ltac:(cbn; lia)) as (h' & -> & E1 & E2 & E3 & E4 & E5) end.
  exists h'. split; [done|]. cbn in E1, E2, E3, E4. constructor; [congruence..| |].
  - intros a b Ha0 Hb0 Hab. rewrite E3, Z.clearbit_eqb by (apply bidx_nonneg; lia).
    rewrite andb_true_iff, negb_true_iff, Z.eqb_neq, R4, !elem_of_app, !list_elem_of_singleton by done. split.
    + intros [(H1 & H2 & H3) H4]. split_and!; [done| |].
      * intros [-> [?| ->]]; [by apply H2|]. apply H4. apply bidx_sym.
      * intros [-> [?| ->]]; [by apply H3|]. by apply H4.
    + intros (H1 & H2 & H3). split; [split_and!; [done|tauto|tauto]|]. intros E.
      destruct (bidx_inj m n a b) as [[-> ->]|[-> ->]]; try lia; tauto.
  - intros k Hk. rewrite E5 by done. destruct (Z.eqb_spec k m) as [->|Hkm].
    + rewrite H0, R5, decide_False, decide_True by (done || set_solver). unfold without_neighbor.
      destruct (q_total_neighbor g m n Hb ltac:(lia) Hsym) as (_ & Hq & _). unfold gq in Hq. by rewrite u32_small.
    + rewrite H0, R5 by done. destruct (decide (k ∈ pre)); [rewrite decide_True by set_solver; done|].
      rewrite decide_False; [done|]. set_solver.
Qed.

(** The graph with another value for the q total of a node. *)
Definition with_q_total (g : ra_graph) (n q : Z) : ra_graph :=
  set_nodes g (alter (fun x => RaNode (adjacency x) (n_class x) (n_reg x) q (tmp_q_total x) (forced_reg x))
                 (Z.to_nat n) (g_nodes g)).

Lemma with_q_gnode g n q m : 0 <= n < Z.of_nat (length (g_nodes g)) -> 0 <= m ->
  gnode (with_q_total g n q) m
  = if m =? n then (let x := gnode g n in RaNode (adjacency x) (n_class x) (n_reg x) q (tmp_q_total x) (forced_reg x))
    else gnode g m.
Proof using Type.
  intros Hn Hm. unfold gnode, node, with_q_total. cbn [g_nodes set_nodes]. destruct (Z.eqb_spec m n) as [->|].
  - rewrite list_lookup_alter, decide_True by done. destruct (lookup_lt_is_Some_2 (g_nodes g) (Z.to_nat n)) as [x ->]; [lia|done].
  - rewrite list_lookup_alter, decide_False by lia. done.
Qed.

(** What [ra_reset_node_interference] leaves. *)
Record node_reset (g : ra_graph) (n : Z) (g' : ra_graph) : Prop := {
  nr_count : g_count g' = g_count g;
  nr_adj : forall a b, 0 <= a -> b ∈ gadj g' a <-> b ∈ gadj g a /\ a <> n /\ b <> n;
  nr_static : forall a, 0 <= a -> n_class (gnode g' a) = n_class (gnode g a) /\ gforced g' a = gforced g a;
  nr_q : gq g' n = gq g n;
  nr_built : built (with_q_total g' n 0);
}.

Lemma swap_remove_in x y l : NoDup l -> x ∈ l -> y ∈ swap_remove x l <-> y ∈ l /\ y <> x.
Proof using Type.
  intros Hnd Hx. pose proof (swap_remove_permutation x l Hx) as Hp. rewrite Hp in Hnd.
  apply NoDup_cons in Hnd as [Hnx _]. split.
  - intros Hy. split; [rewrite Hp; by right|]. by intros ->.
  - intros [Hy Hne]. rewrite Hp in Hy. apply elem_of_cons in Hy as [?|?]; done.
Qed.

(** The nodes after the edges of [n] are gone. *)
Definition reset_node (g : ra_graph) (n m : Z) : ra_node :=
  if m =? n
  then RaNode [] (n_class (gnode g n)) (n_reg (gnode g n)) (n_q_total (gnode g n)) (tmp_q_total (gnode g n)) (forced_reg (gnode g n))
  else if decide (m ∈ gadj g n) then without_neighbor g m n else gnode g m.

Lemma node_reset_intro g n g' :
  built g -> 0 <= n < g_count g -> g_count g' = g_count g -> g_tmp g' = g_tmp g ->
  length (g_nodes g') = length (g_nodes g) ->
  (forall a b, 0 <= a -> 0 <= b -> a <> b -> Z.testbit (g_adjacency g') (bidx a b) = true <->
    Z.testbit (g_adjacency g) (bidx a b) = true /\ ~ (a = n /\ b ∈ gadj g n) /\ ~ (b = n /\ a ∈ gadj g n)) ->
  (forall m, 0 <= m -> gnode g' m = reset_node g n m) -> node_reset g n g'.
Proof using Hsmall RegSetReady0.
  intros Hb Hn E1 E2 E3 Hbits Hnode. pose proof (bu_count _ Hb) as Hc. pose proof (bu_alloc _ Hb) as [Ha Ha32].
  assert (Hsym : forall a, 0 <= a -> n ∈ gadj g a <-> a ∈ gadj g n).
  { intros a Ha0. split; intros H; (apply built_sym; [done| | |done]); lia || by apply (bu_adj _ Hb) in H as (? & ? & ?); lia. }
  assert (Hst : forall a, 0 <= a -> n_class (gnode g' a) = n_class (gnode g a) /\ gforced g' a = gforced g a).
  { intros a Ha0. unfold gforced. rewrite Hnode by done. unfold reset_node. destruct (Z.eqb_spec a n) as [->|]; [done|].
    by destruct (decide (a ∈ gadj g n)). }
  assert (Hadj : forall a b, 0 <= a -> b ∈ gadj g' a <-> b ∈ gadj g a /\ a <> n /\ b <> n).
  { intros a b Ha0. unfold gadj. rewrite Hnode by done. unfold reset_node. destruct (Z.eqb_spec a n) as [->|Hne].
    - cbn. rewrite elem_of_nil. tauto.
    - destruct (decide (a ∈ gadj g n)) as [Hin|Hin].
      + cbn. rewrite swap_remove_in; [tauto|by apply (bu_nodup _ Hb)|by apply Hsym].
      + split; [|tauto]. intros H. split_and!; [done|done|]. intros ->. by apply Hin, Hsym. }
  assert (Hq0 : forall m, 0 <= m -> gnode (with_q_total g' n 0) m
    = if m =? n then (let x := gnode g' n in RaNode (adjacency x) (n_class x) (n_reg x) 0 (tmp_q_total x) (forced_reg x))
      else gnode g' m) by (intros m Hm; apply with_q_gnode; lia).
  set (g2 := with_q_total g' n 0) in *.
  assert (Hst2 : forall a, 0 <= a -> gadj g2 a = gadj g' a /\ n_class (gnode g2 a) = n_class (gnode g a) /\ gforced g2 a = gforced g a).
  { intros a Ha0. destruct (Hst a Ha0) as [<- <-]. unfold gadj, gforced. rewrite Hq0 by done. by destruct (Z.eqb_spec a n) as [->|]. }
  assert (Hpos : forall a b, 0 <= a -> b ∈ gadj g' a -> 0 <= b).
  { intros a b Ha0 H%Hadj; [|done]. by apply (bu_adj _ Hb a b); [|apply H]. }
  constructor; try done; [unfold gq; rewrite Hnode by lia; unfold reset_node; by rewrite Z.eqb_refl|].
  change (built g2). assert (C2 : g_count g2 = g_count g) by done. assert (T2 : g_tmp g2 = g_tmp g) by done.
  assert (L2 : length (g_nodes g2) = length (g_nodes g)) by (rewrite <- E3; apply length_alter).
  assert (B2 : g_adjacency g2 = g_adjacency g') by done. clearbody g2.
  constructor; rewrite ?C2, ?T2, ?L2, ?B2; try apply Hb.
  - intros m Hm. rewrite (proj1 (proj2 (Hst2 m ltac:(lia)))). by apply (bu_class _ Hb).
  - intros m Hm. rewrite (proj1 (Hst2 m Hm)). unfold gadj. rewrite Hnode by done. unfold reset_node.
    destruct (Z.eqb_spec m n); [constructor|]. pose proof (bu_nodup _ Hb m Hm) as Hnd.
    destruct (decide (m ∈ gadj g n)) as [Hin|]; [|done]. cbn. apply Hsym in Hin; [|done].
    rewrite (swap_remove_permutation n (gadj g m) Hin) in Hnd. by apply NoDup_cons in Hnd as [_ ?].
  - intros m k Hm. rewrite (proj1 (Hst2 m Hm)). rewrite Hadj by done. intros (H & _). by apply (bu_adj _ Hb).
  - intros m k Hm Hk Hmk. rewrite (proj1 (Hst2 m Hm)), Hadj by done. rewrite Hbits, (bu_bits _ Hb) by done.
    pose proof (Hsym m Hm). split; [|naive_solver]. intros (H1 & H2 & H3). split_and!; [done| |].
    + intros ->. by apply H2.
    + intros ->. apply H3. split; [done|]. by apply Hsym.
  - intros m Hm. rewrite (proj1 (Hst2 m Hm)).
    rewrite (qsum_classes rs g g2) by (intros; apply Hst2; eauto).
    unfold gq. rewrite Hq0 by done. unfold gadj. destruct (Z.eqb_spec m n) as [->|Hne].
    + rewrite Hnode by lia. unfold reset_node. by rewrite Z.eqb_refl.
    + rewrite Hnode by done. unfold reset_node. destruct (Z.eqb_spec m n); [done|].
      destruct (decide (m ∈ gadj g n)) as [Hin|Hin]; [|by apply (bu_q _ Hb)]. cbn.
      destruct (q_total_neighbor g m n Hb Hm) as (E & _); [by apply Hsym|]. unfold gq, gadj in E. lia.
  - intros m Hm. destruct (Hst2 m Hm) as (_ & Hcl & ->). unfold gclass. rewrite Hcl. by apply (bu_forced _ Hb).
  - intros m Hm. destruct (Hst2 m ltac:(lia)) as (_ & -> & ->). by apply (bu_fresh _ Hb).
Qed.

Lemma reset_spec g n :
  built g -> 0 <= n < g_count g ->
  exists g', ra_reset_node_interference rs g n = Some g' /\ node_reset g n g'.
Proof using Hsmall RegSetReady0.
  intros Hb Hn. pose proof (bu_count _ Hb) as Hc. pose proof (bu_alloc _ Hb) as [Ha Ha32].
  unfold ra_reset_node_interference. rewrite (node_gnode g n) by lia. cbn [mbind option_bind].
  fold (gadj g n). pose proof (bu_nodup _ Hb n ltac:(lia)) as Hnd.
  assert (Hself : n ∉ gadj g n) by (intros Hin; by destruct (bu_adj _ Hb n n ltac:(lia) Hin) as (_ & _ & ?)).
  destruct (for_each_rule (removing_edges g n) (fun n2 g => ra_node_remove_adjacency rs g n2 n) (gadj g n) g)
    as (h & -> & [R1 R2 R3 R4 R5]).
  - constructor; try done. intros a b _ _ _. set_solver.
  - intros pre m post h Hl Hh. apply remove_adjacency_step; try done; [rewrite Hl; set_solver|..].
    + rewrite Hl in Hnd. apply NoDup_app in Hnd as (_ & Hd & _). intros Hin. apply (Hd m Hin). set_solver.
    + intros Hin. apply Hself. rewrite Hl. set_solver.
  - cbn [mbind option_bind].
    match goal with |- context [update_node h n ?f] =>
      destruct (update_gnode h n f ltac:(lia)) as (g' & -> & E1 & E2 & E3 & E4 & E5) end.
    exists g'. split; [done|].
    assert (Hnode : forall m, 0 <= m -> gnode g' m = reset_node g n m).
    { intros m Hm. unfold reset_node. rewrite E5 by done. destruct (Z.eqb_spec m n) as [->|]; [|by apply R5].
      by rewrite R5, decide_False by (done || lia). }
    apply (node_reset_intro g n g'); try done; try congruence; rewrite ?E4; try lia.
    intros a b Ha0 Hb0 Hab. rewrite E3. by apply R4.
Qed.

(** The graph is consistent exactly if the q total that was left is 0. *)
Lemma node_reset_built g n g' :
  built g -> 0 <= n < g_count g -> node_reset g n g' -> built g' <-> gq g n = 0.
Proof using Type.
  intros Hb Hn [N1 N2 N3 N4 N5].
  assert (Hnil : gadj g' n = []).
  { destruct (gadj g' n) as [|b l] eqn:El; [done|]. destruct (proj1 (N2 n b ltac:(lia))) as (_ & ? & _); [|done].
    rewrite El. by left. }
  rewrite <- N4. split.
  - intros Hb'. by rewrite (bu_q _ Hb'), Hnil by lia.
  - intros H0. replace g' with (with_q_total g' n 0); [done|]. destruct g' as [l ad c t].
    unfold with_q_total, set_nodes. cbn. f_equal. apply list_eq. intros i.
    rewrite list_lookup_alter. destruct (decide (Z.to_nat n = i)) as [<-|]; [|done].
    unfold gq, gnode, node in H0. cbn in H0. destruct (l !! Z.to_nat n) as [x|]; [|done]. cbn in *. destruct x. cbn in *. by subst.
Qed.

(** ** Classes, fixed registers and new nodes *)

(** Changes that leave the edges alone, and the classes of the nodes that have some. *)
Lemma rebuilt g g' :
  built g -> g_count g' = g_count g -> g_tmp g' = g_tmp g -> g_adjacency g' = g_adjacency g ->
  length (g_nodes g') = length (g_nodes g) ->
  (forall a, 0 <= a -> gadj g' a = gadj g a /\ gq g' a = gq g a) ->
  (forall a, 0 <= a < g_count g -> class_exists (n_class (gnode g' a))) ->
  (forall a b, 0 <= a -> b ∈ gadj g a -> n_class (gnode g' a) = n_class (gnode g a)) ->
  (forall a, 0 <= a -> gforced g' a = NO_REG
    \/ (0 <= gforced g' a < reg_count rs /\ gforced g' a + contig_len (gclass rs g' a) <= reg_count rs)) ->
  (forall a, g_count g <= a -> gforced g' a = NO_REG /\ n_class (gnode g' a) = 0) -> built g'.
Proof using Type.
  clear Hsmall RegSetReady0.
  intros Hb E1 E2 E3 E4 Ha Hc Hcl Hf Hfr. constructor; rewrite ?E1, ?E2, ?E3, ?E4; try done; try apply Hb.
  - intros m Hm. rewrite (proj1 (Ha m Hm)). by apply (bu_nodup _ Hb).
  - intros m k Hm. rewrite (proj1 (Ha m Hm)). by apply (bu_adj _ Hb).
  - intros m k Hm Hk Hne. rewrite (proj1 (Ha m Hm)). by apply (bu_bits _ Hb).
  - intros m Hm. destruct (Ha m Hm) as (-> & ->). rewrite (bu_q _ Hb) by done.
    destruct (gadj g m) as [|k0 l] eqn:El; [done|]. symmetry. apply qsum_classes.
    + apply (Hcl m k0 Hm). rewrite El. set_solver.
    + intros k Hk. rewrite <- El in Hk. destruct (bu_adj _ Hb m k Hm Hk) as (_ & Hk0 & _).
      apply (Hcl k m ltac:(lia)). by apply built_sym; [|lia|lia|].
Qed.

Lemma set_node_class_spec g n c :
  built g -> 0 <= n < g_count g -> gadj g n = [] -> class_exists c -> gforced g n = NO_REG ->
  exists g', ra_set_node_class g n c = Some g' /\ built g' /\ g_count g' = g_count g
    /\ length (g_nodes g') = length (g_nodes g)
    /\ n_class (gnode g' n) = c /\ (forall a, 0 <= a -> a <> n -> gnode g' a = gnode g a)
    /\ (forall a, 0 <= a -> gadj g' a = gadj g a /\ gforced g' a = gforced g a).
Proof using Type.
  intros Hb Hn Hadj Hc Hforced. pose proof (bu_alloc _ Hb). unfold ra_set_node_class.
  match goal with |- context [update_node g n ?f] =>
    destruct (update_gnode g n f ltac:(lia)) as (g' & -> & E1 & E2 & E3 & E4 & E5) end.
  assert (Ha : forall a, 0 <= a -> gadj g' a = gadj g a /\ gforced g' a = gforced g a /\ gq g' a = gq g a).
  { intros a Ha. unfold gadj, gforced, gq. rewrite E5 by done. by destruct (Z.eqb_spec a n) as [->|]. }
  assert (Hcl : n_class (gnode g' n) = c) by (rewrite E5, Z.eqb_refl by lia; done).
  assert (Hother : forall a, 0 <= a -> a <> n -> gnode g' a = gnode g a)
    by (intros a Ha0 Hne; rewrite E5 by done; by destruct (Z.eqb_spec a n)).
  exists g'. split_and!; try done; [|intros a Ha0; destruct (Ha a Ha0) as (? & ? & ?); done].
  apply (rebuilt g); try done.
  - intros a Ha0. destruct (Ha a Ha0) as (? & ? & ?). done.
  - intros m Hm. destruct (Z.eq_dec m n) as [->|]; [by rewrite Hcl|]. rewrite Hother by lia. by apply (bu_class _ Hb).
  - intros a b Ha0 Hin. rewrite Hother; [done|done|]. intros ->. rewrite Hadj in Hin. by apply elem_of_nil in Hin.
  - intros m Hm. destruct (Z.eq_dec m n) as [->|Hne]; [left; by rewrite (proj1 (proj2 (Ha n Hm)))|].
    unfold gforced, gclass. rewrite Hother by done. by apply (bu_forced _ Hb).
  - intros m Hm. unfold gforced. rewrite Hother by lia. by apply (bu_fresh _ Hb).
Qed.

Lemma set_node_reg_spec g n r :
  built g -> 0 <= n < g_count g -> 0 <= r < reg_count rs -> r + contig_len (gclass rs g n) <= reg_count rs ->
  exists g', ra_set_node_reg g n r = Some g' /\ built g' /\ g_count g' = g_count g
    /\ gforced g' n = r /\ (forall a, 0 <= a -> a <> n -> gnode g' a = gnode g a)
    /\ (forall a, 0 <= a -> gadj g' a = gadj g a /\ n_class (gnode g' a) = n_class (gnode g a)).
Proof using Type.
  intros Hb Hn Hr Hlen. pose proof (bu_alloc _ Hb). unfold ra_set_node_reg.
  match goal with |- context [update_node g n ?f] =>
    destruct (update_gnode g n f ltac:(lia)) as (g' & -> & E1 & E2 & E3 & E4 & E5) end.
  assert (Ha : forall a, 0 <= a -> gadj g' a = gadj g a /\ n_class (gnode g' a) = n_class (gnode g a) /\ gq g' a = gq g a).
  { intros a Ha. unfold gadj, gq. rewrite E5 by done. by destruct (Z.eqb_spec a n) as [->|]. }
  assert (Hother : forall a, 0 <= a -> a <> n -> gnode g' a = gnode g a)
    by (intros a Ha0 Hne; rewrite E5 by done; by destruct (Z.eqb_spec a n)).
  assert (Hf : gforced g' n = r) by (unfold gforced; rewrite E5, Z.eqb_refl by lia; done).
  exists g'. split_and!; try done; [|intros a Ha0; destruct (Ha a Ha0) as (? & ? & ?); done].
  apply (rebuilt g); try done.
  - intros a Ha0. destruct (Ha a Ha0) as (? & ? & ?). done.
  - intros m Hm. rewrite (proj1 (proj2 (Ha m ltac:(lia)))). by apply (bu_class _ Hb).
  - intros a b Ha0 _. by apply Ha.
  - intros m Hm. unfold gclass. rewrite (proj1 (proj2 (Ha m Hm))). fold (gclass rs g m).
    destruct (Z.eq_dec m n) as [->|Hne]; [right; by rewrite Hf|].
    unfold gforced. rewrite Hother by done. by apply (bu_forced _ Hb).
  - intros m Hm. unfold gforced. rewrite Hother by lia. by apply (bu_fresh _ Hb).
Qed.

(** ** Allocation and growth *)

Lemma align32_up v : 0 <= v <= 2 ^ 18 -> align32 v = (v + 31) / 32 * 32.
Proof using Type.
  intros Hv. unfold align32. rewrite u32_small by lia. rewrite not32_sub by lia.
  exact (land_high_mask 32 5 (v + 31) ltac:(lia) ltac:(unfold fits; lia)).
Qed.

(** Growing the arrays adds unconnected nodes. *)
Lemma realloc_graph_spec g alloc :
  Z.of_nat (length (g_nodes g)) mod 32 = 0 -> 0 <= alloc <= 2 ^ 18 ->
  Z.of_nat (length (g_nodes g)) <= 32 * Z.of_nat (length (min_q_total (g_tmp g))) ->
  Z.of_nat (length (g_nodes g)) <= 32 * Z.of_nat (length (min_q_node (g_tmp g))) ->
  exists g', ra_realloc_interference_graph g alloc = Some g' /\ g_count g' = g_count g /\ g_adjacency g' = g_adjacency g
    /\ Z.of_nat (length (g_nodes g')) = Z.max (Z.of_nat (length (g_nodes g))) ((alloc + 31) / 32 * 32)
    /\ Z.of_nat (length (g_nodes g')) <= 32 * Z.of_nat (length (min_q_total (g_tmp g')))
    /\ Z.of_nat (length (g_nodes g')) <= 32 * Z.of_nat (length (min_q_node (g_tmp g')))
    /\ forall n, gnode g' n = gnode g n.
Proof using Type.
  intros Hmod Ha Hw1 Hw2. unfold ra_realloc_interference_graph.
  destruct (Z.leb_spec alloc (Z.of_nat (length (g_nodes g)))) as [Hle|Hgt].
  { exists g. split_and!; try done. dlia. }
  destruct (Z.eqb_spec (Z.of_nat (length (g_nodes g)) mod 32) 0); [|done]. rewrite align32_up by done.
  eexists. split; [done|]. cbn [g_nodes g_count g_adjacency g_tmp min_q_total min_q_node].
  unfold BITSET_WORDS. rewrite !length_app, !length_replicate. split_and!; try done; try dlia.
  intros n. unfold gnode, node. cbn [g_nodes]. rewrite lookup_app. destruct (g_nodes g !! Z.to_nat n) as [x|]; [done|].
  destruct (replicate _ fresh_node !! _) as [y|] eqn:Ey; [|done]. by apply lookup_replicate in Ey as [-> _].
Qed.

Lemma alloc_graph_spec count :
  0 <= count <= MAX_NODES -> class_exists 0 ->
  exists g, ra_alloc_interference_graph count = Some g /\ built g /\ g_count g = count
    /\ count <= Z.of_nat (length (g_nodes g)) /\ forall n, gnode g n = fresh_node.
Proof using Type.
  intros Hc Hcl. unfold ra_alloc_interference_graph, MAX_NODES in *. set (g0 := RaGraph _ _ _ _).
  destruct (realloc_graph_spec g0 count) as (g & -> & E1 & E2 & E3 & E4 & E5 & E6); [done|lia|cbn; lia|cbn; lia|].
  cbn in E1, E2, E3. exists g.
  assert (Hn : forall n, gnode g n = fresh_node) by (intros n; by rewrite E6).
  split_and!; try done; [|dlia]. constructor; unfold gadj, gforced, gq; rewrite ?E1, ?E2; try done.
  - split; dlia.
  - intros n Hrange. by rewrite Hn.
  - intros n _. rewrite Hn. constructor.
  - intros n m _. rewrite Hn. by intros ?%elem_of_nil.
  - intros n m _ _ _. rewrite Hn, Z.bits_0. split; [done|by intros ?%elem_of_nil].
  - intros n _. by rewrite Hn.
  - intros n _. left. by rewrite Hn.
  - intros n _. by rewrite Hn.
Qed.

(** The node that is added is not connected. *)
Lemma resize_spec g count :
  built g -> g_count g <= count <= MAX_NODES -> count <= 2 * Z.of_nat (length (g_nodes g)) ->
  class_exists 0 ->
  exists g', ra_resize_interference_graph g count = Some g' /\ built g' /\ g_count g' = count
    /\ count <= Z.of_nat (length (g_nodes g')) /\ forall n, gnode g' n = gnode g n.
Proof using Type.
  intros Hb Hc Hdouble Hcl. pose proof (bu_count _ Hb). pose proof (bu_alloc _ Hb) as [Ha Hmod]. pose proof (bu_words _ Hb) as [Hw1 Hw2].
  unfold ra_resize_interference_graph, MAX_NODES in *. set (g0 := RaGraph _ _ _ _).
  assert (Hg : exists g', (if count >? Z.of_nat (length (g_nodes g0))
      then ra_realloc_interference_graph g0 (u32 (Z.of_nat (length (g_nodes g0)) * 2)) else Some g0) = Some g'
    /\ g_count g' = count /\ g_adjacency g' = g_adjacency g
    /\ count <= Z.of_nat (length (g_nodes g')) <= 2 ^ 18 /\ Z.of_nat (length (g_nodes g')) mod 32 = 0
    /\ Z.of_nat (length (g_nodes g')) <= 32 * Z.of_nat (length (min_q_total (g_tmp g')))
    /\ Z.of_nat (length (g_nodes g')) <= 32 * Z.of_nat (length (min_q_node (g_tmp g')))
    /\ forall n, gnode g' n = gnode g n).
  { rewrite Z.gtb_ltb. destruct (Z.ltb_spec (Z.of_nat (length (g_nodes g0))) count) as [Hlt|Hge]; cbn in *.
    - rewrite u32_small by lia. destruct (realloc_graph_spec g0 (Z.of_nat (length (g_nodes g)) * 2)) as (g' & -> & E1 & E2 & E3 & E4 & E5 & E6);
        [done|lia|done|done|]. cbn in E1, E2, E3. exists g'. split_and!; try done; dlia.
    - exists g0. split_and!; try done; cbn; lia. }
  destruct Hg as (g' & E & E1 & E2 & E3 & E4 & E5 & E6 & E7). exists g'. split_and!; try done; [|lia].
  assert (Hq : forall n l, qsum rs g' n (fun _ => true) l = qsum rs g n (fun _ => true) l)
    by (intros n l; apply qsum_classes; intros; by rewrite E7).
  constructor; unfold MAX_NODES, gadj, gforced, gq, gclass; rewrite ?E1, ?E2; try done; try lia.
  - intros n Hn. rewrite E7. destruct (Z_lt_le_dec n (g_count g)); [apply (bu_class _ Hb); lia|].
    by rewrite (proj2 (bu_fresh _ Hb n ltac:(lia))).
  - intros n Hn. rewrite E7. by apply (bu_nodup _ Hb).
  - intros n m Hn. rewrite E7. intros Hm. pose proof (bu_adj _ Hb n m Hn Hm). lia.
  - intros n m. rewrite E7. by apply (bu_bits _ Hb).
  - intros n Hn. rewrite Hq, E7. by apply (bu_q _ Hb).
  - intros n Hn. rewrite E7. by apply (bu_forced _ Hb).
  - intros n Hn. rewrite E7. apply (bu_fresh _ Hb). lia.
Qed.

(** Isolated nodes: those a client may still give a class. *)
Definition isolated (g : ra_graph) (n : Z) : Prop := gadj g n = [] /\ gforced g n = NO_REG.

Lemma add_node_spec g c :
  built g -> g_count g < MAX_NODES -> 0 < Z.of_nat (length (g_nodes g)) -> class_exists 0 -> class_exists c ->
  exists g', ra_add_node g c = Some (g_count g, g') /\ built g' /\ g_count g' = g_count g + 1
    /\ n_class (gnode g' (g_count g)) = c /\ isolated g' (g_count g)
    /\ forall a, 0 <= a -> a <> g_count g -> gnode g' a = gnode g a.
Proof using Type.
  clear Hsmall RegSetReady0.
  intros Hb Hc Hpos H0 Hcl. pose proof (bu_count _ Hb) as Hcount. pose proof (bu_alloc _ Hb). unfold ra_add_node.
  assert (Hiso : isolated g (g_count g)).
  { split; [|by apply (bu_fresh _ Hb)]. destruct (gadj g (g_count g)) as [|m l] eqn:E; [done|].
    destruct (bu_adj _ Hb (g_count g) m) as (? & _); [lia|rewrite E; set_solver|lia]. }
  rewrite u32_small by (unfold MAX_NODES in *; lia).
  destruct (resize_spec g (g_count g + 1) Hb ltac:(lia) ltac:(lia) H0) as (g1 & -> & Hb1 & E1 & E2 & E3). cbn [mbind option_bind].
  destruct (set_node_class_spec g1 (g_count g) c Hb1) as (g' & -> & Hb' & F1 & F2 & F3 & F4 & F5).
  - lia.
  - unfold gadj. rewrite E3. apply Hiso.
  - done.
  - unfold gforced. rewrite E3. apply Hiso.
  - exists g'. cbn [mbind option_bind]. split_and!; try done; [lia| |intros a Ha Hne; by rewrite F4, E3].
    destruct (F5 (g_count g) ltac:(lia)) as [Fa Ff]. split.
    + rewrite Fa. unfold gadj. rewrite E3. apply Hiso.
    + rewrite Ff. unfold gforced. rewrite E3. apply Hiso.
Qed.
End build.

(** * Properties *)

(** The registers of a successful allocation: fixed ones are kept, every other node has
    a register of its class, and interfering nodes (unless both are fixed) do not
    conflict. *)
Definition valid_colouring (rs : ra_regs) (G g' : ra_graph) : Prop :=
  forall n, 0 <= n < g_count G -> exists r, ra_get_node_reg g' n = Some r
    /\ (gforced G n <> NO_REG -> r = gforced G n)
    /\ (gforced G n = NO_REG -> Z.testbit (c_regs (gclass rs G n)) r = true)
    /\ forall n2, n2 ∈ gadj G n -> gforced G n = NO_REG \/ gforced G n2 = NO_REG ->
         exists r2, ra_get_node_reg g' n2 = Some r2
           /\ ra_class_allocations_conflict rs (gclass rs G n) r (gclass rs G n2) r2 = Some false.

(** The stack holds the nodes to be coloured, each once. *)
Definition holds_free_nodes (G : ra_graph) (st : list Z) : Prop := NoDup st /\ forall n, n ∈ st <-> free_node G n.

Section result.
Context (rs : ra_regs) `{!RegSetReady rs} (G : ra_graph) (HG : graph_ok rs G).

Lemma node_reg_result g' n : selecting rs G g' [] -> 0 <= n < g_count G -> ra_get_node_reg g' n = Some (nreg g' n).
Proof using HG.
  intros HS Hn. destruct (node_some rs G HG g' n (se_same _ _ _ _ HS) Hn) as [x Hx].
  destruct (node_static G g' n x (se_same _ _ _ _ HS) Hx) as (_ & _ & _ & Hf). unfold ra_get_node_reg. rewrite Hx. cbn.
  rewrite Hf, (nreg_node _ _ _ Hx). destruct (Z.eqb_spec (gforced G n) NO_REG) as [|Hne]; [done|]. cbn.
  rewrite <- (nreg_node _ _ _ Hx). by rewrite (se_forced _ _ _ _ HS).
Qed.

Lemma selected_valid g' : selecting rs G g' [] -> valid_colouring rs G g'.
Proof using HG RegSetReady0.
  intros HS n Hn. exists (nreg g' n). split; [by apply node_reg_result|]. split; [by apply (se_forced _ _ _ _ HS)|].
  split; [intros Hf; apply (se_class _ _ _ _ HS); [by split|set_solver]|].
  intros n2 Hadj Hor. destruct (go_adj _ _ HG n n2 Hn Hadj) as [Hn2 _]. exists (nreg g' n2).
  split; [by apply node_reg_result|].
  rewrite rd_conflict; [|by apply (class_defined rs G HG)..| |];
    [|eapply (selecting_placed rs G HG g' []); [done|done|set_solver]..]. f_equal.
  apply (se_valid _ _ _ _ HS); [done|done|set_solver|set_solver|]. destruct Hor; [left|right]; by split.
Qed.
End result.

(** C34: [ra_simplify] terminates and orders the graph.  Every round of its loop pushes
    a node, and in the end the stack holds exactly the nodes without a fixed register,
    each once.  [stack_optimistic_start] is left at UINT_MAX exactly if the pq test
    simplifies the graph completely, in whatever order: the allocator pushes a node
    optimistically only where every order gets stuck. *)
Theorem ra_simplify_terminates (rs : ra_regs) (G : ra_graph) :
  RegSetReady rs -> graph_ok rs G ->
  exists g, ra_simplify rs G = Some g
    /\ holds_free_nodes G (stack (g_tmp g))
    /\ (stack_optimistic_start (g_tmp g) = UINT32_MAX <-> pq_simplifiable rs G).
Proof.
  intros Hr HG. destruct (simplify_spec rs G HG) as (g & st & E & [D1 D2 D3 D4]). exists g.
  rewrite (si_stack _ _ _ _ _ D1). split_and!; [done|split; [apply D1|]|].
  - intros n. split; [apply D1|]. intros Hf. destruct (decide (n ∈ st)) as [|Hn]; [done|]. by destruct (D2 n).
  - split; [|by intros; apply D4]. intros Ho. destruct (D3 Ho) as [_ Hpu]. by exists st.
Qed.

(** C1: [ra_allocate] always returns, and its result is right.  On a register set that
    was finalised and a consistent interference graph, with or without a callback that
    chooses registers, simplification and selection terminate without a failed
    assertion or an access out of the arrays.  If the result is true, every node has a
    register: the fixed one if it has one, else one of its class, and the registers of
    interfering nodes do not conflict.  If it is false, there is a node each of whose
    registers conflicts with a neighbour that already has one. *)
Theorem ra_allocate_sound (rs : ra_regs) (G : ra_graph) (cb : option (Z -> Z -> Z)) :
  RegSetReady rs -> graph_ok rs G -> callback_ok cb ->
  exists b g', ra_allocate rs cb G = Some (b, g')
    /\ if b then valid_colouring rs G g' else stuck rs G g'.
Proof.
  intros Hr HG Hcb. destruct (allocate_spec rs G HG cb Hcb) as (b & g' & E & _ & Hb & _). exists b, g'.
  split; [done|]. destruct b; [|done]. by apply selected_valid.
Qed.

(** C24: [ra_allocate] succeeds on every graph that the pq test simplifies, if the
    fixed registers respect the q values.  If the nodes can be taken out of the graph in
    some order, each with a q total below the p of its class when it is taken, and if
    for each node with a fixed register and each of its neighbours without one, the fixed
    register conflicts with at most q registers of the neighbour's class, q being
    the value for the classes of the two nodes ([forced_within_q]), then the allocator
    (which takes the nodes in its own order) colours the graph, whatever the choice of
    registers.  The condition holds if every fixed register is in the class of its node
    ([forced_in_class_within_q]).  It is needed: a node whose register is fixed outside
    its class, as the comment of [ra_set_node_reg] allows, can make the allocation of a
    simplified graph fail ([forced_outside_class_fails]). *)
Theorem ra_allocate_succeeds (rs : ra_regs) (G : ra_graph) (cb : option (Z -> Z -> Z)) :
  RegSetReady rs -> graph_ok rs G -> callback_ok cb -> pq_simplifiable rs G -> forced_within_q rs G ->
  exists g', ra_allocate rs cb G = Some (true, g') /\ valid_colouring rs G g'.
Proof.
  intros Hr HG Hcb Hpq Hf. destruct (allocate_spec rs G HG cb Hcb) as (b & g' & E & _ & Hb & Ht).
  rewrite (Ht Hpq Hf) in *. exists g'. split; [done|]. by apply selected_valid.
Qed.


(** ** An example *)

(** The registers of the example of RegSet.v, finalised, and a graph of two single
    registers and a pair that all interfere, with a node fixed to register 3 that
    interferes with the pair. *)
Definition demo_ready : ra_regs := default demo_regs (ra_set_finalize demo_regs None).

Definition demo_graph : ra_graph := default (RaGraph [] 0 0 (RaTmp [] 0 0 0 [] [] 0)) (
  g ← ra_alloc_interference_graph 3;
  g ← ra_set_node_class g 1 1;
  '(n, g) ← ra_add_node g 0;
  g ← ra_set_node_reg g n 3;
  g ← ra_add_node_interference demo_ready g 0 1;
  g ← ra_add_node_interference demo_ready g 1 2;
  g ← ra_add_node_interference demo_ready g 2 0;
  g ← ra_add_node_interference demo_ready g 1 0;
  ra_add_node_interference demo_ready g n 1).

Lemma demo_is_ready : RegSetReady demo_ready.
Proof.
  assert (Hkind : same_kind demo_regs)
    by (left; intros c [->|[->|[]%elem_of_nil]%elem_of_cons]%elem_of_cons; discriminate).
  destruct (finalize_spec demo_regs demo_regs_ok demo_classes_ok Hkind) as (rs' & E & Hf & Hq).
  unfold demo_ready. rewrite E. apply (finalized_ready demo_regs); [exact demo_regs_ok|exact demo_classes_ok|done..].
Qed.

Lemma demo_class_exists c : 0 <= c < 2 -> class_exists demo_ready c.
Proof. intros Hc. split; [lia|]. assert (c = 0 \/ c = 1) as [-> | ->] by lia; eexists; vm_compute; reflexivity. Qed.

Lemma demo_q_small b c q : q_value demo_ready b c = Some q -> q <= 2 ^ 15.
Proof.
  intros (cl & H1 & H2)%bind_Some. revert H1 H2. unfold class_of.
  generalize (Z.to_nat b) (Z.to_nat c). intros b' c' H1 H2.
  assert (Hall : Forall (fun cl => Forall (fun q => q <= 2 ^ 15) (c_q cl)) (classes demo_ready))
    by (vm_compute; repeat constructor; discriminate).
  pose proof (Forall_lookup_1 _ _ _ _ Hall H1) as Hrow. exact (Forall_lookup_1 _ _ _ _ Hrow H2).
Qed.

(** Every step of building the example succeeds and keeps the invariant. *)
Lemma demo_built : built demo_ready demo_graph.
Proof.
  pose proof demo_is_ready as Hr. pose proof demo_q_small as Hq.
  unfold demo_graph. destruct (alloc_graph_spec demo_ready 3) as (g0 & E0 & B0 & C0 & _ & N0); [unfold MAX_NODES; lia|by apply demo_class_exists|].
  assert (Hx : forall g n1 n2, built demo_ready g -> g_count g = 4 -> 0 <= n1 < 4 -> 0 <= n2 < 4 ->
    exists g', ra_add_node_interference demo_ready g n1 n2 = Some g' /\ built demo_ready g' /\ g_count g' = 4).
  { intros g n1 n2 Hb Hc H1 H2. destruct (add_interference_spec demo_ready Hq g n1 n2 Hb) as (g' & ? & ? & ? & _); [lia..|].
    exists g'. split_and!; try done. congruence. }
  rewrite E0. cbn [mbind option_bind].
  destruct (set_node_class_spec demo_ready g0 1 1 B0) as (g1 & E1 & B1 & C1 & L1 & _ & _ & _);
    [lia|unfold gadj; by rewrite N0|by apply demo_class_exists|unfold gforced; by rewrite N0|]. rewrite E1. cbn [mbind option_bind].
  pose proof (bu_alloc _ _ B1) as HA1.
  destruct (add_node_spec demo_ready g1 0 B1) as (g2 & E2 & B2 & C2 & K2 & _ & _);
    [unfold MAX_NODES; lia|lia|by apply demo_class_exists|by apply demo_class_exists|]. rewrite E2. cbn [mbind option_bind].
  destruct (set_node_reg_spec demo_ready g2 (g_count g1) 3 B2) as (g3 & E3 & B3 & C3 & _);
    [lia|vm_compute; split; [discriminate|reflexivity]|unfold gclass; rewrite K2; vm_compute; discriminate|].
  rewrite E3. cbn [mbind option_bind].
  destruct (Hx g3 0 1) as (g4 & -> & B4 & C4); [done|lia..|]. cbn [mbind option_bind].
  destruct (Hx g4 1 2) as (g5 & -> & B5 & C5); [done|lia..|]. cbn [mbind option_bind].
  destruct (Hx g5 2 0) as (g6 & -> & B6 & C6); [done|lia..|]. cbn [mbind option_bind].
  destruct (Hx g6 1 0) as (g7 & -> & B7 & C7); [done|lia..|]. cbn [mbind option_bind].
  destruct (Hx g7 (g_count g1) 1) as (g8 & -> & B8 & _); [done|lia..|]. done.
Qed.

Lemma demo_graph_ok : graph_ok demo_ready demo_graph.
Proof. apply built_graph_ok; [exact demo_is_ready|exact demo_q_small|exact demo_built]. Qed.

(** The choice of the highest register. *)
Lemma highest_ok : callback_ok (Some (fun _ avail => Z.log2 avail)).
Proof. intros f n avail [= <-] Hpos. by apply Z.bit_log2. Qed.

Lemma ra_simplify_terminates_witness :
  exists g, ra_simplify demo_ready demo_graph = Some g /\ stack (g_tmp g) = [1; 0; 2]
    /\ stack_optimistic_start (g_tmp g) = UINT32_MAX
    /\ (stack_optimistic_start (g_tmp g) = UINT32_MAX <-> pq_simplifiable demo_ready demo_graph).
Proof.
  destruct (ra_simplify_terminates demo_ready demo_graph demo_is_ready demo_graph_ok) as (g & E & _ & H).
  exists g. split; [exact E|]. vm_compute in E. injection E as <-. split; [reflexivity|]. split; [reflexivity|exact H].
Defined.

Lemma ra_allocate_sound_witness :
  exists g', ra_allocate demo_ready None demo_graph = Some (true, g')
    /\ valid_colouring demo_ready demo_graph g' /\ map n_reg (take 4 (g_nodes g')) = [2; 0; 3; 3].
Proof.
  destruct (ra_allocate_sound demo_ready demo_graph None) as (b & g' & E & Hb).
  - exact demo_is_ready.
  - exact demo_graph_ok.
  - intros f n avail E. discriminate E.
  - exists g'. assert (b = true) as -> by (vm_compute in E; congruence).
    split; [exact E|]. split; [exact Hb|]. vm_compute in E. injection E as <-. reflexivity.
Defined.

(** The nodes 2, 1 and 0 can be taken out in this order. *)
Lemma demo_simplifiable : pq_simplifiable demo_ready demo_graph.
Proof.
  assert (Hfree : forall n, free_node demo_graph n <-> n = 0 \/ n = 1 \/ n = 2).
  { intros n. unfold free_node. change (g_count demo_graph) with 4. split.
    - intros [Hn Hf]. assert (n = 0 \/ n = 1 \/ n = 2 \/ n = 3) as [?|[?|[?| ->]]] by lia; auto. vm_compute in Hf. discriminate Hf.
    - intros [->|[->| ->]]; (split; [lia|vm_compute; reflexivity]). }
  exists [1; 2; 0]. split.
  - repeat apply pushed_cons; [apply pushed_refl|..]; try (vm_compute; reflexivity);
      (split; [apply Hfree; auto|rewrite ?elem_of_cons, elem_of_nil; lia]).
  - intros n [Hn Hst]. apply Hst. apply Hfree in Hn. rewrite !elem_of_cons. lia.
Qed.

Lemma demo_forced : forced_in_class demo_ready demo_graph.
Proof.
  intros n Hn Hf. change (g_count demo_graph) with 4 in Hn.
  assert (n = 0 \/ n = 1 \/ n = 2 \/ n = 3) as [->|[->|[->| ->]]] by lia; vm_compute; (reflexivity || by destruct Hf).
Qed.

Lemma ra_allocate_succeeds_witness :
  exists g', ra_allocate demo_ready (Some (fun _ avail => Z.log2 avail)) demo_graph = Some (true, g')
    /\ valid_colouring demo_ready demo_graph g'.
Proof.
  apply (ra_allocate_succeeds demo_ready demo_graph (Some (fun _ avail => Z.log2 avail))).
  - exact demo_is_ready.
  - exact demo_graph_ok.
  - exact highest_ok.
  - exact demo_simplifiable.
  - pose proof demo_is_ready as Hr. apply (forced_in_class_within_q demo_ready demo_graph demo_graph_ok). exact demo_forced.
Defined.


(** ** Where building goes wrong *)

(** Two registers with a class of each; node 0 has the class of register 1 and is fixed to
    register 0, the only one of the class of its neighbour 1.  As q is 0, the graph is
    simplified by the pq test, and the allocation fails. *)
Theorem forced_outside_class_fails :
  (let '(b, rs) := ra_alloc_reg_class (ra_alloc_reg_set 2 true) in
   let '(c, rs) := ra_alloc_reg_class rs in
   rs ← ra_class_add_reg rs b 1;
   rs ← ra_class_add_reg rs c 0;
   rs ← ra_set_finalize rs None;
   g ← ra_alloc_interference_graph 2;
   g ← ra_set_node_class g 1 c;
   g ← ra_set_node_reg g 0 0;
   g ← ra_add_node_interference rs g 0 1;
   s ← ra_simplify rs g;
   '(ok, _) ← ra_allocate rs None g;
   Some (stack_optimistic_start (g_tmp s) =? UINT32_MAX, ok)) = Some (true, false).
Proof. vm_compute. reflexivity. Qed.

(** Beyond 92682 nodes [ra_set_adjacency_bit] and [ra_clear_adjacency_bit], which
    keep the index of the bit in an [unsigned], touch another bit than the one
    [ra_test_adjacency_bit] reads.  Recording that 92682 and 37075 interfere records
    the pair 0 and 1 instead; a later interference between 0 and 1 is then taken for
    one that is there already, and neither node gets the other as a neighbour. *)
Theorem adjacency_bit_index_truncated :
  let g := RaGraph (replicate 2 fresh_node) 0 92683 (RaTmp [] 0 0 0 [] [] 0) in
  exists g', ra_set_adjacency_bit g 92682 37075 = Some g'
    /\ ra_test_adjacency_bit g' 92682 37075 = Some false
    /\ ra_add_node_interference demo_ready g' 0 1 = Some g'
    /\ gadj g' 0 = [].
Proof. eexists. split; [vm_compute; reflexivity|]. split_and!; vm_compute; reflexivity. Qed.

(** Growing a graph that was allocated for no nodes.  The allocation is doubled from
    0 to 0, and the first [ra_add_node] writes past the node array. *)
Theorem add_node_to_empty_graph :
  exists g, ra_alloc_interference_graph 0 = Some g /\ g_nodes g = [] /\ ra_add_node g 0 = None.
Proof. eexists. split; [vm_compute; reflexivity|]. split; vm_compute; reflexivity. Qed.

(** [ra_reset_node_interference] takes the node out of its neighbours' lists and q
    totals, but leaves its own q total: after the edge is added again it is counted
    twice. *)
Theorem reset_keeps_q_total :
  (g ← ra_alloc_interference_graph 2;
   g ← ra_add_node_interference demo_ready g 0 1;
   g ← ra_reset_node_interference demo_ready g 0;
   g ← ra_add_node_interference demo_ready g 0 1;
   Some (gq g 0, gq g 1, qsum demo_ready g 0 (fun _ => true) (gadj g 0))) = Some (2, 1, 1).
Proof. vm_compute. reflexivity. Qed.
