(* ===== verification/RegSerialize.v ===== *)
(** * Storing register sets (src/util/register_allocate.c: ra_set_serialize,
      ra_set_deserialize)

    A finalised register set (RegSet.v) is written to a blob and read back from one
    (Blob.v), for the shader caches.  Bitsets are stored as their 32-bit words, which
    on the supported hosts are the bytes of the number, lowest first.  [indet] gives
    the contents of arrays that were allocated but not written. *)

From Stdlib Require Import ZArith Lia.
From stdpp Require Import base list numbers option sets.
From S2P Require Import Prelude Blob RegSet RegAlloc.
Local Open Scope Z_scope.

(** ** Writing *)

Section serialize.
Context (heap_bytes : Z -> option (list Z)).
Context (rs : ra_regs).

(** [BITSET_WORDS(regs->count) * sizeof(BITSET_WORD)] *)
Definition bitset_bytes (count : Z) : nat := Z.to_nat (BITSET_WORDS count * 4).

Definition serialize_reg (reg : ra_reg) (b : blob) : option blob :=
  c ← conflicts reg;
  '(_, b) ← blob_write_bytes heap_bytes b (le_bytes (bitset_bytes (reg_count rs)) c);
  assert! Nat.eqb (length (conflict_list reg)) 0 ;;
  Some b.

Definition serialize_class (class : ra_class) (b : blob) : option blob :=
  '(_, b) ← blob_write_bytes heap_bytes b (le_bytes (bitset_bytes (reg_count rs)) (c_regs class));
  '(_, b) ← blob_write_uint heap_bytes 4 b (contig_len class);
  '(_, b) ← blob_write_uint heap_bytes 4 b (c_p class);
  assert! Nat.eqb (length (c_q class)) (length (classes rs)) ;;
  '(_, b) ← blob_write_bytes heap_bytes b (concat (map (le_bytes 4) (c_q class)));
  Some b.

Definition ra_set_serialize (b : blob) : option blob :=
  '(_, b) ← blob_write_uint heap_bytes 4 b (reg_count rs);
  '(_, b) ← blob_write_uint heap_bytes 4 b (Z.of_nat (length (classes rs)));
  class0 ← classes rs !! 0%nat;
  let is_contig := negb (contig_len class0 =? 0) in
  '(_, b) ← blob_write_uint heap_bytes 1 b (Z.b2z is_contig);
  b ← (if negb is_contig then for_each serialize_reg (regs rs) b else Some b);
  b ← for_each serialize_class (classes rs) b;
  '(_, b) ← blob_write_uint heap_bytes 4 b (Z.b2z (round_robin rs));
  Some b.
End serialize.

(** ** Reading *)

Section deserialize.
Context (indet : nat -> list Z).

(** The words of an array of [unsigned]. *)
Fixpoint le_words (n : nat) (l : list Z) : list Z :=
  match n with
  | O => []
  | S n => le_value (take 4 l) :: le_words n (drop 4 l)
  end.

(** [blob_copy_bytes] of [n] bytes into an array whose bytes were [old]. *)
Definition copy_into (n : nat) (old : list Z) (r : blob_reader) : option (list Z * blob_reader) :=
  '(bytes, r) ← blob_copy_bytes r (Z.of_nat n);
  Some (default old bytes, r).

(** The conflicts of one register, which start with the register itself. *)
Definition deserialize_reg (n : nat) (i : Z) (s : list ra_reg * blob_reader)
    : option (list ra_reg * blob_reader) :=
  let '(l, r) := s in
  '(bytes, r) ← copy_into n (le_bytes n (Z.setbit 0 i)) r;
  Some (l ++ [RaReg (Some (le_value bytes)) []], r).

Definition deserialize_class (n class_count : nat) (s : list ra_class * blob_reader)
    : option (list ra_class * blob_reader) :=
  let '(l, r) := s in
  '(bits, r) ← copy_into n (indet n) r;
  '(contig_len, r) ← blob_read_uint 4 r;
  '(p, r) ← blob_read_uint 4 r;
  '(q, r) ← copy_into (4 * class_count) (indet (4 * class_count)) r;
  Some (l ++ [RaClass (le_value bits) contig_len p (le_words class_count q)], r).

Definition ra_set_deserialize (r : blob_reader) : option (ra_regs * blob_reader) :=
  '(count, r) ← blob_read_uint 4 r;
  '(class_count, r) ← blob_read_uint 4 r;
  '(contig, r) ← blob_read_uint 1 r;
  let is_contig := negb (contig =? 0) in
  let rs := ra_alloc_reg_set count false in
  let n := bitset_bytes count in
  '(l, r) ← (if is_contig then Some (map (fun reg => RaReg None (conflict_list reg)) (regs rs), r)
             else for_each (deserialize_reg n) (seqZ 0 count) ([], r));
  '(cs, r) ← for_each (fun _ => deserialize_class n (Z.to_nat class_count)) (seqZ 0 class_count) ([], r);
  '(rr, r) ← blob_read_uint 4 r;
  Some (RaRegs l cs (negb (rr =? 0)) (uses_conflict_lists rs), r).
End deserialize.

(** * The format *)

Definition reg_items (rs : ra_regs) (reg : ra_reg) : list item :=
  [item_bytes (le_bytes (bitset_bytes (reg_count rs)) (default 0 (conflicts reg)))].
Definition class_items (rs : ra_regs) (c : ra_class) : list item :=
  [item_bytes (le_bytes (bitset_bytes (reg_count rs)) (c_regs c)); item_uint 4 (contig_len c); item_uint 4 (c_p c);
   item_bytes (concat (map (le_bytes 4) (c_q c)))].
Definition is_contig (rs : ra_regs) : bool :=
  match classes rs with [] => true | c :: _ => negb (contig_len c =? 0) end.
Definition set_items (rs : ra_regs) : list item :=
  [item_uint 4 (reg_count rs); item_uint 4 (Z.of_nat (length (classes rs))); item_uint 1 (Z.b2z (is_contig rs))]
  ++ (if is_contig rs then [] else concat (map (reg_items rs) (regs rs)))
  ++ concat (map (class_items rs) (classes rs)) ++ [item_uint 4 (Z.b2z (round_robin rs))].

(** A set as [ra_set_finalize] leaves it. *)
Definition bits_ok (rs : ra_regs) (z : Z) : Prop := 0 <= z < 2 ^ reg_count rs.
Record serial_ok (rs : ra_regs) : Prop := {
  so_count : 0 < reg_count rs < 2 ^ 32;
  so_classes : classes rs <> [] /\ Z.of_nat (length (classes rs)) < 2 ^ 32;
  so_class : forall c, c ∈ classes rs -> bits_ok rs (c_regs c) /\ fits 32 (contig_len c) /\ fits 32 (c_p c)
    /\ length (c_q c) = length (classes rs) /\ Forall (fits 32) (c_q c);
  so_reg : forall reg, reg ∈ regs rs -> if is_contig rs then reg = RaReg None []
    else exists z, reg = RaReg (Some z) [] /\ bits_ok rs z;
}.

Lemma bitset_bytes_pow n : 0 <= n -> 8 * Z.of_nat (bitset_bytes n) >= n.
Proof. intros Hn. unfold bitset_bytes, BITSET_WORDS. dlia. Qed.

Lemma bits_value rs z : 0 <= reg_count rs -> bits_ok rs z -> le_value (le_bytes (bitset_bytes (reg_count rs)) z) = z.
Proof.
  intros Hc Hz. apply le_bytes_value. pose proof (bitset_bytes_pow (reg_count rs) Hc). unfold bits_ok in Hz.
  pose proof (pow2_le (reg_count rs) (8 * Z.of_nat (bitset_bytes (reg_count rs))) ltac:(lia)). lia.
Qed.

Lemma le_words_concat l : Forall (fits 32) l -> le_words (length l) (concat (map (le_bytes 4) l)) = l.
Proof.
  induction 1 as [|q l Hq _ IH]; [done|]. cbn [map concat length le_words].
  rewrite take_app_length', drop_app_length' by done. rewrite IH, le_bytes_value by done. done.
Qed.

Lemma length_concat_words l : length (concat (map (le_bytes 4) l)) = (4 * length l)%nat.
Proof. induction l as [|q l IH]; [done|]. cbn [map concat]. rewrite length_app, length_le_bytes, IH. cbn. lia. Qed.

(** ** Writing writes the items *)

(** Writing items, their results ignored. *)
Definition put (heap_bytes : Z -> option (list Z)) (l : list item) (b : blob) : option blob :=
  snd <$> write_items heap_bytes b l.

Lemma put_app heap_bytes l1 l2 b : put heap_bytes (l1 ++ l2) b = (b ← put heap_bytes l1 b; put heap_bytes l2 b).
Proof.
  unfold put. revert b. induction l1 as [|i l1 IH]; intros b; [done|]. cbn [app write_items].
  destruct (write_item heap_bytes b i) as [[ok b1]|]; [|done]. cbn [mbind option_bind]. specialize (IH b1).
  destruct (write_items heap_bytes b1 (l1 ++ l2)) as [[o2 b2]|], (write_items heap_bytes b1 l1) as [[o1 b3]|];
    cbn in *; [done|done|done|done].
Qed.

Lemma put_cons heap_bytes i l b : put heap_bytes (i :: l) b = ('(_, b) ← write_item heap_bytes b i; put heap_bytes l b).
Proof.
  unfold put. cbn [write_items]. destruct (write_item heap_bytes b i) as [[ok b1]|]; [|done]. cbn [mbind option_bind].
  by destruct (write_items heap_bytes b1 l) as [[o2 b2]|].
Qed.

Lemma put_for_each {A} heap_bytes (f : A -> list item) (body : A -> blob -> option blob) l b :
  (forall x b, x ∈ l -> body x b = put heap_bytes (f x) b) ->
  for_each body l b = put heap_bytes (concat (map f l)) b.
Proof.
  revert b. induction l as [|x l IH]; intros b H; [done|]. cbn [for_each map concat]. rewrite put_app, H by set_solver.
  destruct (put heap_bytes (f x) b) as [b1|]; [|done]. cbn [mbind option_bind]. apply IH. set_solver.
Qed.

(** One write on both sides. *)
Ltac put_step :=
  rewrite put_cons; cbn [write_item];
  match goal with
  | |- context [blob_write_uint ?h ?n ?b ?v] => destruct (blob_write_uint h n b v) as [[? ?]|]; [|done]
  | |- context [blob_write_bytes ?h ?b ?v] => destruct (blob_write_bytes h b v) as [[? ?]|]; [|done]
  end; cbn [mbind option_bind].

Lemma serialize_reg_items heap_bytes rs reg b :
  serial_ok rs -> reg ∈ regs rs -> is_contig rs = false ->
  serialize_reg heap_bytes rs reg b = put heap_bytes (reg_items rs reg) b.
Proof.
  intros Hok Hin Hc. pose proof (so_reg _ Hok reg Hin) as Hr. rewrite Hc in Hr. destruct Hr as (z & -> & _).
  unfold reg_items, serialize_reg. cbn [conflicts conflict_list default from_option id mbind option_bind].
  by put_step.
Qed.

Lemma serialize_class_items heap_bytes rs c b :
  serial_ok rs -> c ∈ classes rs -> serialize_class heap_bytes rs c b = put heap_bytes (class_items rs c) b.
Proof.
  intros Hok Hin. destruct (so_class _ Hok c Hin) as (_ & _ & _ & Hq & _). unfold class_items, serialize_class.
  put_step. put_step. put_step. rewrite (proj2 (Nat.eqb_eq _ _) Hq). by put_step.
Qed.

Lemma serialize_items heap_bytes rs b :
  serial_ok rs -> ra_set_serialize heap_bytes rs b = put heap_bytes (set_items rs) b.
Proof.
  intros Hok. unfold ra_set_serialize, set_items. cbn [app]. put_step. put_step.
  assert (H0 : exists c0, classes rs !! 0%nat = Some c0 /\ is_contig rs = negb (contig_len c0 =? 0)).
  { unfold is_contig. destruct (so_classes _ Hok) as [Hne _]. destruct (classes rs) as [|c0 l]; [done|]. by exists c0. }
  destruct H0 as (c0 & -> & Hc0). cbn [mbind option_bind]. rewrite <- Hc0. put_step. rewrite put_app.
  assert (Hmid : forall b, (if negb (is_contig rs) then for_each (serialize_reg heap_bytes rs) (regs rs) b else Some b)
    = put heap_bytes (if is_contig rs then [] else concat (map (reg_items rs) (regs rs))) b).
  { intros b'. destruct (is_contig rs) eqn:E; cbn [negb]; [done|]. apply put_for_each. intros. by apply serialize_reg_items. }
  rewrite Hmid. destruct (put heap_bytes _ _) as [b'|]; [|done]. cbn [mbind option_bind].
  rewrite (put_for_each heap_bytes (class_items rs)) by (intros; by apply serialize_class_items). rewrite put_app.
  destruct (put heap_bytes _ b') as [b''|]; [|done]. cbn [mbind option_bind]. by put_step.
Qed.

(** ** Reading reads the items *)

(** A reader in front of the encodings of the items [l], the last ones. *)
Definition at_items (bytes : list Z) (l : list item) (r : blob_reader) : Prop :=
  exists pre, bytes = pre ++ encode_all (Z.of_nat (length pre)) l
    /\ r = reader_at bytes (Z.of_nat (length pre)) /\ Forall item_ok l /\ Z.of_nat (length bytes) < 2 ^ 62.

(** The reader after the first item. *)
Lemma read_first bytes i l r :
  at_items bytes (i :: l) r -> exists r', read_item r i = Some (Some i, r') /\ at_items bytes l r'.
Proof.
  intros (pre & Hb & -> & Hl & Hlen). apply Forall_cons_1 in Hl as [Hi Hl]. cbn [encode_all] in Hb. cbn zeta in Hb.
  set (pos := Z.of_nat (length pre)) in *. pose proof (read_item_spec pre i
    (encode_all (pos + Z.of_nat (length (encode pos i))) l) Hi) as Hr. cbv zeta in Hr. fold pos in Hr.
  rewrite <- Hb in Hr. eexists. split; [by apply Hr|]. exists (pre ++ encode pos i).
  assert (Hp : Z.of_nat (length (pre ++ encode pos i)) = pos + Z.of_nat (length (encode pos i))) by (rewrite length_app; lia).
  rewrite Hp, <- app_assoc. done.
Qed.

Lemma read_uint_first bytes n v l r :
  at_items bytes (item_uint n v :: l) r -> exists r', blob_read_uint n r = Some (v, r') /\ at_items bytes l r'.
Proof.
  intros H. destruct (read_first _ _ _ _ H) as (r' & E & H'). cbn [read_item] in E.
  destruct (blob_read_uint n r) as [[v' r1]|]; [|done]. cbn in E. injection E as -> ->. by exists r'.
Qed.

Lemma copy_first bytes old b l r :
  b <> [] -> at_items bytes (item_bytes b :: l) r ->
  exists r', copy_into (length b) old r = Some (b, r') /\ at_items bytes l r'.
Proof.
  intros Hne H. destruct (read_first _ _ _ _ H) as (r' & E & H'). cbn [read_item] in E.
  unfold copy_into, blob_copy_bytes. destruct (blob_read_bytes r (Z.of_nat (length b))) as [off r1].
  destruct off as [off|]; [|done]. destruct (Z.eqb_spec (Z.of_nat (length b)) 0) as [E0|_]; [destruct b; [done|cbn in E0; lia]|].
  destruct (r_bytes r1 off (Z.of_nat (length b))) as [b'|]; [|done]. cbn in E |- *. injection E as -> ->. by exists r'.
Qed.

Section reading.
Context (indet : nat -> list Z) (rs : ra_regs) (Hok : serial_ok rs).

Lemma bitset_nonempty z : le_bytes (bitset_bytes (reg_count rs)) z <> [].
Proof using Hok.
  intros E. apply (f_equal length) in E. rewrite length_le_bytes in E. pose proof (so_count _ Hok).
  pose proof (bitset_bytes_pow (reg_count rs)). cbn in E. lia.
Qed.

Lemma read_regs bytes l pre rest r :
  is_contig rs = false -> regs rs = pre ++ l -> at_items bytes (concat (map (reg_items rs) l) ++ rest) r ->
  exists r', for_each (deserialize_reg (bitset_bytes (reg_count rs))) (seqZ (Z.of_nat (length pre)) (Z.of_nat (length l))) (pre, r)
    = Some (regs rs, r') /\ at_items bytes rest r'.
Proof using Hok.
  intros Hc. revert pre r. induction l as [|reg l IH]; intros pre r Hsplit Hat.
  { exists r. rewrite app_nil_r in Hsplit. by rewrite Hsplit. }
  pose proof (so_reg _ Hok reg ltac:(rewrite Hsplit; set_solver)) as Hreg. rewrite Hc in Hreg. destruct Hreg as (z & -> & Hz).
  rewrite seqZ_cons by (cbn; lia). cbn [for_each deserialize_reg map concat app] in *.
  destruct (copy_first _ (le_bytes (bitset_bytes (reg_count rs)) (Z.setbit 0 (Z.of_nat (length pre)))) _ _ _ (bitset_nonempty z) Hat)
    as (r1 & E & H1). rewrite length_le_bytes in E. rewrite E. cbn [mbind option_bind].
  rewrite (bits_value rs z) by (done || pose proof (so_count _ Hok); lia).
  destruct (IH (pre ++ [RaReg (Some z) []]) r1) as (r' & E' & H'); [by rewrite <- app_assoc|done|].
  exists r'. split; [|done]. rewrite <- E'. rewrite length_app. cbn [length]. f_equal. f_equal; lia.
Qed.

Lemma read_class bytes c pre rest r :
  c ∈ classes rs -> at_items bytes (class_items rs c ++ rest) r ->
  exists r', deserialize_class indet (bitset_bytes (reg_count rs)) (length (classes rs)) (pre, r) = Some (pre ++ [c], r')
    /\ at_items bytes rest r'.
Proof using Hok.
  intros Hin Hat. destruct (so_class _ Hok c Hin) as (Hz & Hlen & Hp & Hq & Hqs). destruct (so_classes _ Hok) as [Hcl _].
  unfold deserialize_class. cbn [class_items app] in Hat.
  destruct (copy_first _ (indet (bitset_bytes (reg_count rs))) _ _ _ (bitset_nonempty (c_regs c)) Hat) as (r1 & E1 & H1).
  rewrite length_le_bytes in E1. rewrite E1. cbn [mbind option_bind].
  destruct (read_uint_first _ _ _ _ _ H1) as (r2 & -> & H2). cbn [mbind option_bind].
  destruct (read_uint_first _ _ _ _ _ H2) as (r3 & -> & H3). cbn [mbind option_bind].
  assert (Hne : concat (map (le_bytes 4) (c_q c)) <> []).
  { intros E. apply (f_equal length) in E. rewrite length_concat_words, Hq in E. destruct (classes rs); [done|cbn in E; lia]. }
  destruct (copy_first _ (indet (4 * length (classes rs))%nat) _ _ _ Hne H3) as (r4 & E4 & H4).
  rewrite length_concat_words, Hq in E4. rewrite E4. cbn [mbind option_bind].
  rewrite <- Hq, le_words_concat by done. rewrite (bits_value rs) by (done || pose proof (so_count _ Hok); lia).
  exists r4. by destruct c.
Qed.

Lemma read_classes bytes l pre rest r :
  classes rs = pre ++ l -> at_items bytes (concat (map (class_items rs) l) ++ rest) r ->
  exists r', for_each (fun _ : Z => deserialize_class indet (bitset_bytes (reg_count rs)) (length (classes rs)))
      (seqZ (Z.of_nat (length pre)) (Z.of_nat (length l))) (pre, r)
    = Some (classes rs, r') /\ at_items bytes rest r'.
Proof using Hok.
  revert pre r. induction l as [|c l IH]; intros pre r Hsplit Hat.
  { exists r. rewrite app_nil_r in Hsplit. by rewrite Hsplit. }
  rewrite seqZ_cons by (cbn; lia). cbn [for_each map concat] in *. rewrite <- app_assoc in Hat.
  destruct (read_class bytes c pre _ r ltac:(rewrite Hsplit; set_solver) Hat) as (r1 & -> & H1). cbn [mbind option_bind].
  destruct (IH (pre ++ [c]) r1) as (r' & E' & H'); [by rewrite <- app_assoc|done|].
  exists r'. split; [|done]. rewrite <- E'. rewrite length_app. cbn [length]. f_equal. f_equal; lia.
Qed.

(** The set that is read: the conflict lists are gone. *)
Definition without_lists : ra_regs := RaRegs (regs rs) (classes rs) (round_robin rs) false.

Lemma contig_regs : is_contig rs = true ->
  map (fun reg => RaReg None (conflict_list reg)) (regs (ra_alloc_reg_set (reg_count rs) false)) = regs rs.
Proof using Hok.
  intros Hc. assert (Hall : Forall (fun reg => reg = RaReg None []) (regs rs)).
  { apply Forall_forall. intros reg Hin. pose proof (so_reg _ Hok reg Hin) as Hr. by rewrite Hc in Hr. }
  cbn [ra_alloc_reg_set regs]. rewrite map_map. cbn [conflict_list]. unfold reg_count.
  apply list_eq. intros i. rewrite list_lookup_fmap. destruct (regs rs !! i) as [reg|] eqn:E.
  - rewrite (Forall_lookup_1 _ _ _ _ Hall E). apply lookup_lt_Some in E.
    destruct (lookup_lt_is_Some_2 (seqZ 0 (Z.of_nat (length (regs rs)))) i) as [x ->]; [rewrite length_seqZ; lia|done].
  - apply lookup_ge_None in E. rewrite lookup_ge_None_2; [done|]. rewrite length_seqZ. lia.
Qed.

Lemma deserialize_spec bytes r :
  at_items bytes (set_items rs) r ->
  exists r', ra_set_deserialize indet r = Some (without_lists, r') /\ at_items bytes [] r'.
Proof using Hok.
  intros Hat. unfold set_items in Hat. cbn [app] in Hat. unfold ra_set_deserialize.
  destruct (read_uint_first _ _ _ _ _ Hat) as (r1 & -> & H1). cbn [mbind option_bind].
  destruct (read_uint_first _ _ _ _ _ H1) as (r2 & -> & H2). cbn [mbind option_bind].
  destruct (read_uint_first _ _ _ _ _ H2) as (r3 & -> & H3). cbn [mbind option_bind].
  assert (Hregs : exists r4, (if negb (Z.b2z (is_contig rs) =? 0)
      then Some (map (fun reg => RaReg None (conflict_list reg)) (regs (ra_alloc_reg_set (reg_count rs) false)), r3)
      else for_each (deserialize_reg (bitset_bytes (reg_count rs))) (seqZ 0 (reg_count rs)) ([], r3)) = Some (regs rs, r4)
    /\ at_items bytes (concat (map (class_items rs) (classes rs)) ++ [item_uint 4 (Z.b2z (round_robin rs))]) r4).
  { destruct (is_contig rs) eqn:Hc; cbn [Z.b2z Z.eqb negb].
    - exists r3. by rewrite contig_regs.
    - exact (read_regs bytes (regs rs) [] _ r3 Hc eq_refl H3). }
  destruct Hregs as (r4 & -> & H4). cbn [mbind option_bind]. rewrite Nat2Z.id.
  destruct (read_classes bytes (classes rs) [] _ r4 eq_refl H4) as (r5 & E5 & H5). cbn [length] in E5.
  change (Z.of_nat 0) with 0 in E5. rewrite E5. cbn [mbind option_bind].
  destruct (read_uint_first _ _ _ _ _ H5) as (r6 & -> & H6). cbn [mbind option_bind]. exists r6. split; [|done].
  unfold without_lists. cbn [ra_alloc_reg_set uses_conflict_lists]. by destruct (round_robin rs).
Qed.
End reading.

(** ** The items can be stored *)

Lemma set_items_ok rs : serial_ok rs -> Forall item_ok (set_items rs).
Proof.
  intros Hok. pose proof (so_count _ Hok) as Hc. destruct (so_classes _ Hok) as [_ Hn].
  assert (H4 : forall v, fits 32 v -> item_ok (item_uint 4 v)) by (intros v Hv; split; [auto|done]).
  assert (Hb : forall (x : bool) n, (n = 1%nat \/ n = 4%nat) -> item_ok (item_uint n (Z.b2z x)))
    by (intros x n [->| ->]; (split; [auto|]); destruct x; unfold fits; cbn; lia).
  unfold set_items. rewrite !Forall_app. split_and!.
  - constructor; [apply H4; unfold fits; lia|]. constructor; [apply H4; unfold fits; lia|]. constructor; [auto|constructor].
  - destruct (is_contig rs); [constructor|]. apply Forall_concat, Forall_forall.
    intros l (reg & -> & _)%list_elem_of_fmap. by repeat constructor.
  - apply Forall_concat, Forall_forall. intros l (c & -> & Hin)%list_elem_of_fmap.
    destruct (so_class _ Hok c Hin) as (_ & H1 & H2 & _). repeat (constructor; [done || by apply H4|]). constructor.
  - constructor; [auto|constructor].
Qed.

Lemma contents_length b : blob_ok b -> stores b -> Z.of_nat (length (contents b)) = size b.
Proof.
  intros Hok Hst. pose proof (bo_size _ Hok). unfold contents. destruct (data b) as [mem|] eqn:E.
  - pose proof (bo_mem _ Hok mem E). rewrite length_take. lia.
  - destruct Hst as [Hf|]; [|done]. pose proof (bo_null _ Hok E Hf). cbn. lia.
Qed.

(** C33: a register set that was stored can be loaded.  Writing a finalised register set
    to a blob, anywhere in it, does not fail; unless the blob ran out of memory, reading
    from that place gives the same registers, conflicts, classes with their p and q
    values, and allocation order, and stops exactly at the end of what was written.
    The arrays that are allocated before they are read into may hold anything. *)
Theorem ra_set_serialize_roundtrip
    (heap_bytes : Z -> option (list Z)) (indet : nat -> list Z)
    (heap_length : forall n l, heap_bytes n = Some l -> Z.of_nat (length l) = n)
    (rs : ra_regs) (b : blob) :
  serial_ok rs -> blob_ok b -> stores b ->
  size b + Z.of_nat (length (encode_all (size b) (set_items rs))) + 8 < 2 ^ 62 ->
  exists b', ra_set_serialize heap_bytes rs b = Some b'
    /\ (out_of_memory b' = false ->
        exists r, ra_set_deserialize indet (reader_at (contents b') (size b))
            = Some (RaRegs (regs rs) (classes rs) (round_robin rs) false, r)
          /\ r_current r = size b' /\ r_overrun r = false).
Proof.
  intros Hok Hb Hst Hsize. rewrite serialize_items by done. unfold put. pose proof (set_items_ok rs Hok) as Hi.
  destruct (write_items_spec heap_bytes heap_length (set_items rs) b Hb Hi Hsize) as (oks & b' & -> & Hb' & Hst' & Ht & Hf).
  exists b'. split; [done|]. intros Hoom. destruct oks; [|destruct (Hf eq_refl); congruence].
  destruct (Ht eq_refl) as (_ & Hs & Hc). specialize (Hc Hst). specialize (Hst' Hst).
  pose proof (contents_length b Hb Hst) as Hlen. pose proof (contents_length b' Hb' Hst') as Hlen'.
  destruct (deserialize_spec indet rs Hok (contents b') (reader_at (contents b') (size b))) as (r & -> & pre & Hpre & -> & _).
  - exists (contents b). rewrite Hlen. split_and!; try done. lia.
  - eexists. split; [done|]. split; [|done]. cbn [r_current reader_at]. rewrite <- Hlen', Hpre. cbn. by rewrite app_nil_r.
Qed.

(** Three registers of which 0 and 1 conflict, and the class of 0 and 2. *)
Definition demo_stored : ra_regs := default demo_regs (
  rs ← ra_add_reg_conflict (ra_alloc_reg_set 3 true) 0 1;
  let '(b, rs) := ra_alloc_reg_class (ra_set_allocate_round_robin rs) in
  rs ← ra_class_add_reg rs b 0;
  rs ← ra_class_add_reg rs b 2;
  ra_set_finalize rs None).

Lemma demo_stored_ok : serial_ok demo_stored.
Proof.
  constructor.
  - vm_compute. split; reflexivity.
  - vm_compute. split; [discriminate|reflexivity].
  - intros c [->|[]%elem_of_nil]%elem_of_cons. unfold bits_ok, fits. split_and!;
      [vm_compute; discriminate|vm_compute; reflexivity|vm_compute; discriminate|vm_compute; reflexivity
      |vm_compute; discriminate|vm_compute; reflexivity|vm_compute; reflexivity|].
    repeat constructor; vm_compute; discriminate.
  - intros reg Hin. change (is_contig demo_stored) with false. cbn match.
    repeat (apply elem_of_cons in Hin as [->|Hin]; [eexists; split; [reflexivity|vm_compute; split; [discriminate|reflexivity]]|]).
    by apply elem_of_nil in Hin.
Qed.

Lemma ra_set_serialize_roundtrip_witness :
  exists b', ra_set_serialize demo_heap demo_stored blob_init = Some b' /\ out_of_memory b' = false
    /\ exists r, ra_set_deserialize (fun n => replicate n 170) (reader_at (contents b') 0)
         = Some (RaRegs (regs demo_stored) (classes demo_stored) true false, r)
       /\ r_current r = size b'.
Proof.
  destruct (ra_set_serialize_roundtrip demo_heap (fun n => replicate n 170) demo_heap_length demo_stored blob_init)
    as (b' & E & H).
  - exact demo_stored_ok.
  - constructor; cbn; done || lia.
  - left. reflexivity.
  - vm_compute. reflexivity.
  - exists b'. split; [exact E|]. assert (Ho : out_of_memory b' = false) by (vm_compute in E; injection E as <-; reflexivity).
    split; [exact Ho|]. destruct (H Ho) as (r & Er & Hr & _). exists r. split; [exact Er|exact Hr].
Defined.
