(* ===== verification/RbTree.v ===== *)
(** * The intrusive red-black tree (src/util/rb_tree.c, rb_tree.h)

    The nodes live in a memory [cells]: a pointer is an address, 0 is NULL, and a read or
    write of a node that is not there has no result, like a failed assertion.  The
    field [parent] holds the parent's address and, in its lowest bit, the colour, as in
    the code.  Augmented trees have further data in the structure around a node, which
    the callback [update] recomputes; [n_aug] is this data, and the keys, which the
    code only sees through its comparison functions, do not change.

    The code's mirrored branches are one definition with the side as a parameter.
    Loops take as fuel one more than the number of nodes in memory; the theorems show
    that they end before.

    This file has the representation, the operations up to insertion, the relation
    between memory and trees, and the rotations; RbInsert.v has the red-black invariant
    and the correctness of insertion, RbRemove.v removal, RbQuery.v iteration,
    searches and validation, and IntervalTree.v the interval trees. *)

From Stdlib Require Import ZArith Lia.
From stdpp Require Import base list gmap numbers option sets.
From S2P Require Import Prelude.
Local Open Scope Z_scope.

Inductive side := L | R.
Definition opp (d : side) : side := match d with L => R | R => L end.
Inductive color := Red | Black.

Section rb_tree.
Context {A : Type}.

(** ** Memory *)

Record rb_node := RbNode { n_parent : Z; n_left : Z; n_right : Z; n_aug : A }.
Record mem := Mem { root : Z; cells : gmap Z rb_node }.

Definition load (m : mem) (p : Z) : option rb_node := if p =? 0 then None else cells m !! p.
Definition store (m : mem) (p : Z) (f : rb_node -> rb_node) : option mem :=
  n ← load m p; Some (Mem (root m) (<[p := f n]> (cells m))).
Definition set_root (m : mem) (p : Z) : mem := Mem p (cells m).

Definition rb_tree_init (m : mem) : mem := set_root m 0.
Definition rb_tree_is_empty (m : mem) : bool := root m =? 0.

Definition child (d : side) (n : rb_node) : Z := match d with L => n_left n | R => n_right n end.
Definition with_child (d : side) (p : Z) (n : rb_node) : rb_node :=
  match d with
  | L => RbNode (n_parent n) p (n_right n) (n_aug n)
  | R => RbNode (n_parent n) (n_left n) p (n_aug n)
  end.
Definition with_parent (p : Z) (n : rb_node) : rb_node := RbNode p (n_left n) (n_right n) (n_aug n).
Definition with_aug (v : A) (n : rb_node) : rb_node := RbNode (n_parent n) (n_left n) (n_right n) v.

Definition set_child (d : side) (m : mem) (p v : Z) : option mem := store m p (with_child d v).
Definition set_left : mem -> Z -> Z -> option mem := set_child L.
Definition set_right : mem -> Z -> Z -> option mem := set_child R.

(** ** Colours and parents *)

(** [~1] on a [uintptr_t] *)
Definition not_one : Z := 2 ^ 64 - 2.

Definition rb_node_parent (m : mem) (n : Z) : option Z :=
  c ← load m n; Some (Z.land (n_parent c) not_one).
Definition rb_node_is_black (m : mem) (n : Z) : option bool :=
  if n =? 0 then Some true else c ← load m n; Some (negb (Z.land (n_parent c) 1 =? 0)).
Definition rb_node_is_red (m : mem) (n : Z) : option bool :=
  b ← rb_node_is_black m n; Some (negb b).
Definition rb_node_set_black (m : mem) (n : Z) : option mem :=
  store m n (fun c => with_parent (Z.lor (n_parent c) 1) c).
Definition rb_node_set_red (m : mem) (n : Z) : option mem :=
  store m n (fun c => with_parent (Z.land (n_parent c) not_one) c).
Definition rb_node_copy_color (m : mem) (dst src : Z) : option mem :=
  s ← load m src;
  store m dst (fun c => with_parent (Z.lor (Z.land (n_parent c) not_one) (Z.land (n_parent s) 1)) c).
Definition rb_node_set_parent (m : mem) (n p : Z) : option mem :=
  store m n (fun c => with_parent (Z.lor (Z.land (n_parent c) 1) p) c).

(** ** The structure *)

Definition fuel_of (m : mem) : nat := S (size (cells m)).

Fixpoint extreme_loop (d : side) (fuel : nat) (m : mem) (node : Z) : option Z :=
  match fuel with
  | O => None
  | S fuel => c ← load m node; if child d c =? 0 then Some node else extreme_loop d fuel m (child d c)
  end.
Definition rb_node_minimum (m : mem) (node : Z) : option Z := extreme_loop L (fuel_of m) m node.
Definition rb_node_maximum (m : mem) (node : Z) : option Z := extreme_loop R (fuel_of m) m node.

Definition rb_tree_splice (m : mem) (u v : Z) : option mem :=
  assert! negb (u =? 0) ;;
  p ← rb_node_parent m u;
  m ← (if p =? 0 then assert! root m =? u ;; Some (set_root m v)
       else
         c ← load m p;
         if u =? n_left c then set_left m p v
         else assert! u =? n_right c ;; set_right m p v);
  if v =? 0 then Some m else rb_node_set_parent m v p.

(** [if (update) update(n)] *)
Context (update : option (mem -> Z -> option mem)).
Definition call_update (m : mem) (n : Z) : option mem :=
  match update with Some f => f m n | None => Some m end.

(** [rb_tree_rotate_left] for [L], [rb_tree_rotate_right] for [R]. *)
Definition rb_tree_rotate (d : side) (m : mem) (x : Z) : option mem :=
  assert! negb (x =? 0) ;;
  cx ← load m x;
  assert! negb (child (opp d) cx =? 0) ;;
  let y := child (opp d) cx in
  cy ← load m y;
  m ← set_child (opp d) m x (child d cy);
  m ← (if child d cy =? 0 then Some m else rb_node_set_parent m (child d cy) x);
  m ← rb_tree_splice m x y;
  m ← set_child d m y x;
  m ← rb_node_set_parent m x y;
  m ← call_update m x;
  call_update m y.
Definition rb_tree_rotate_left : mem -> Z -> option mem := rb_tree_rotate L.
Definition rb_tree_rotate_right : mem -> Z -> option mem := rb_tree_rotate R.

(** [while (p) { update(p); p = rb_node_parent(p); }] *)
Fixpoint update_path (fuel : nat) (m : mem) (p : Z) : option mem :=
  match fuel with
  | O => None
  | S fuel =>
      if p =? 0 then Some m
      else m ← call_update m p; q ← rb_node_parent m p; update_path fuel m q
  end.

(** ** Insertion *)

(** The case of a black uncle; [z_p] is the child of [z_p_p] on side [d]. *)
Definition insert_rotate (d : side) (m : mem) (z z_p z_p_p : Z) : option (mem * Z) :=
  cp ← load m z_p;
  '(m, z, z_p, z_p_p) ←
    (if z =? child (opp d) cp then
       let z := z_p in
       m ← rb_tree_rotate d m z;
       z_p ← rb_node_parent m z;
       cp ← load m z_p;
       assert! (z =? n_left cp) || (z =? n_right cp) ;;
       z_p_p ← rb_node_parent m z_p;
       Some (m, z, z_p, z_p_p)
     else Some (m, z, z_p, z_p_p));
  m ← rb_node_set_black m z_p;
  m ← rb_node_set_red m z_p_p;
  m ← rb_tree_rotate (opp d) m z_p_p;
  Some (m, z).

(** The body of the fixup loop for one side: the new [z]. *)
Definition insert_fixup_side (d : side) (m : mem) (z z_p z_p_p y : Z) : option (mem * Z) :=
  red ← rb_node_is_red m y;
  if (red : bool) then
    m ← rb_node_set_black m z_p;
    m ← rb_node_set_black m y;
    m ← rb_node_set_red m z_p_p;
    Some (m, z_p_p)
  else insert_rotate d m z z_p z_p_p.

Fixpoint insert_fixup (fuel : nat) (m : mem) (z : Z) : option mem :=
  match fuel with
  | O => None
  | S fuel =>
      z_p ← rb_node_parent m z;
      red ← rb_node_is_red m z_p;
      if negb red then Some m
      else
        cp ← load m z_p;
        assert! (z =? n_left cp) || (z =? n_right cp) ;;
        z_p_p ← rb_node_parent m z_p;
        assert! negb (z_p_p =? 0) ;;
        cpp ← load m z_p_p;
        '(m, z) ← (if z_p =? n_left cpp then insert_fixup_side L m z z_p z_p_p (n_right cpp)
                   else insert_fixup_side R m z z_p z_p_p (n_left cpp));
        insert_fixup fuel m z
  end.

Definition rb_augmented_tree_insert_at (m : mem) (parent node : Z) (insert_left : bool) : option mem :=
  m ← store m node (fun c => RbNode 0 0 0 (n_aug c));
  m ← call_update m node;
  if parent =? 0 then
    assert! root m =? 0 ;;
    rb_node_set_black (set_root m node) node
  else
    c ← load m parent;
    m ← (if insert_left then assert! n_left c =? 0 ;; set_left m parent node
         else assert! n_right c =? 0 ;; set_right m parent node);
    m ← rb_node_set_parent m node parent;
    m ← (if update then update_path (fuel_of m) m parent else Some m);
    m ← insert_fixup (fuel_of m) m node;
    rb_node_set_black m (root m).

(** The search for the place: [y] is the last node visited. *)
Fixpoint insert_search (cmp : Z -> Z -> Z) (fuel : nat) (m : mem) (node x y : Z) (is_left : bool) : option (Z * bool) :=
  match fuel with
  | O => None
  | S fuel =>
      if x =? 0 then Some (y, is_left)
      else
        c ← load m x;
        let is_left := cmp x node <? 0 in
        insert_search cmp fuel m node (if is_left then n_left c else n_right c) x is_left
  end.
Definition rb_augmented_tree_insert (cmp : Z -> Z -> Z) (m : mem) (node : Z) : option mem :=
  '(y, is_left) ← insert_search cmp (fuel_of m) m node (root m) 0 false;
  rb_augmented_tree_insert_at m y node is_left.
End rb_tree.

Arguments rb_node : clear implicits.
Arguments mem : clear implicits.

(** Trees without augmented data *)
Definition rb_tree_insert_at {A} : mem A -> Z -> Z -> bool -> option (mem A) := rb_augmented_tree_insert_at None.
Definition rb_tree_insert {A} : (Z -> Z -> Z) -> mem A -> Z -> option (mem A) := rb_augmented_tree_insert None.

(** * Trees

    What the memory represents: a binary tree of addresses with colours and augmented
    data.  A place in a tree is a list of frames, the innermost first. *)

Section trees.
Context {A : Type}.

Inductive tree := Leaf | Node (c : color) (l : tree) (a : Z) (v : A) (r : tree).

(** The tree with [t1] on side [d] and [t2] on the other. *)
Definition mk (d : side) (c : color) (t1 : tree) (a : Z) (v : A) (t2 : tree) : tree :=
  match d with L => Node c t1 a v t2 | R => Node c t2 a v t1 end.

Definition ptr (t : tree) : Z := match t with Leaf => 0 | Node _ _ a _ _ => a end.
Definition taug (t : tree) : option A := match t with Leaf => None | Node _ _ _ v _ => Some v end.
Definition col (t : tree) : color := match t with Leaf => Black | Node c _ _ _ _ => c end.
Definition paint (k : color) (t : tree) : tree := match t with Leaf => Leaf | Node _ l a v r => Node k l a v r end.
Fixpoint inorder (t : tree) : list Z :=
  match t with Leaf => [] | Node _ l a _ r => inorder l ++ a :: inorder r end.

(** [f_sib] is the subtree on the side other than the hole's, [f_side]. *)
Record frame := Frame { f_side : side; f_col : color; f_addr : Z; f_aug : A; f_sib : tree }.
Definition fill (f : frame) (t : tree) : tree := mk (f_side f) (f_col f) t (f_addr f) (f_aug f) (f_sib f).
Fixpoint plug (ctx : list frame) (t : tree) : tree :=
  match ctx with [] => t | f :: ctx => plug ctx (fill f t) end.
Definition ctx_parent (ctx : list frame) : Z := match ctx with [] => 0 | f :: _ => f_addr f end.
Fixpoint ctx_root (ctx : list frame) (q : Z) : Z := match ctx with [] => q | f :: ctx => ctx_root ctx (f_addr f) end.
Fixpoint ctx_addrs (ctx : list frame) : list Z :=
  match ctx with [] => [] | f :: ctx => f_addr f :: inorder (f_sib f) ++ ctx_addrs ctx end.

(** The addresses before and after the hole. *)
Fixpoint ctx_before (ctx : list frame) : list Z :=
  match ctx with
  | [] => []
  | f :: ctx => ctx_before ctx ++ match f_side f with L => [] | R => inorder (f_sib f) ++ [f_addr f] end
  end.
Fixpoint ctx_after (ctx : list frame) : list Z :=
  match ctx with
  | [] => []
  | f :: ctx => match f_side f with L => f_addr f :: inorder (f_sib f) | R => [] end ++ ctx_after ctx
  end.

(** ** The relation with the memory *)

Definition word (p : Z) (c : color) : Z := p + match c with Black => 1 | Red => 0 end.
Definition cell (d : side) (w near far : Z) (v : A) : rb_node A :=
  match d with L => RbNode w near far v | R => RbNode w far near v end.

Fixpoint sub_ok (h : gmap Z (rb_node A)) (p : Z) (t : tree) : Prop :=
  match t with
  | Leaf => True
  | Node c l a v r => h !! a = Some (RbNode (word p c) (ptr l) (ptr r) v) /\ sub_ok h a l /\ sub_ok h a r
  end.
Fixpoint ctx_ok (h : gmap Z (rb_node A)) (ctx : list frame) (q : Z) : Prop :=
  match ctx with
  | [] => True
  | f :: ctx =>
      h !! f_addr f = Some (cell (f_side f) (word (ctx_parent ctx) (f_col f)) q (ptr (f_sib f)) (f_aug f))
      /\ sub_ok h (f_addr f) (f_sib f) /\ ctx_ok h ctx (f_addr f)
  end.

(** Nodes are aligned, and not at NULL. *)
Definition valid (a : Z) : Prop := 0 < a < 2 ^ 64 /\ Z.even a = true.
Definition wf (l : list Z) : Prop := NoDup l /\ Forall valid l.

(** The memory holds the tree [plug ctx t]. *)
Definition zip (m : mem A) (ctx : list frame) (t : tree) : Prop :=
  root m = ctx_root ctx (ptr t) /\ ctx_ok (cells m) ctx (ptr t) /\ sub_ok (cells m) (ctx_parent ctx) t
  /\ wf (ctx_addrs ctx ++ inorder t).

(** An operation only writes nodes of [l], and creates and deletes none. *)
Definition keeps (l : list Z) (m m' : mem A) : Prop :=
  dom (cells m') = dom (cells m) /\ forall a, a ∉ l -> cells m' !! a = cells m !! a.

(** ** Words *)

Lemma word_even p : 0 <= p < 2 ^ 64 -> Z.even p = true -> exists k, p = 2 * k /\ 0 <= k < 2 ^ 63.
Proof. intros Hp He. apply Z.even_spec in He as [k ->]. exists k. lia. Qed.

Lemma land_word_1 p c : 0 <= p < 2 ^ 64 -> Z.even p = true -> Z.land (word p c) 1 = match c with Black => 1 | Red => 0 end.
Proof.
  intros Hp He. destruct (word_even p Hp He) as (k & -> & Hk). rewrite land_1_even. unfold word.
  destruct c; dlia.
Qed.

Lemma land_word_not_one p c : 0 <= p < 2 ^ 64 -> Z.even p = true -> Z.land (word p c) not_one = p.
Proof.
  intros Hp He. destruct (word_even p Hp He) as (k & -> & Hk). change not_one with (2 ^ 64 - 2 ^ 1).
  rewrite land_high_mask; [|lia|unfold fits, word; destruct c; lia]. unfold word. destruct c; dlia.
Qed.

Lemma lor_color p c : 0 <= p -> Z.even p = true -> Z.lor p (match c with Black => 1 | Red => 0 end) = word p c.
Proof.
  intros Hp He. apply Z.even_spec in He as [k ->]. unfold word. destruct c; [rewrite Z.lor_0_r; lia|].
  destruct k as [|k|k]; [done|done|lia].
Qed.

Lemma lor_word_1 p c : 0 <= p -> Z.even p = true -> Z.lor (word p c) 1 = word p Black.
Proof.
  intros Hp He. rewrite <- (lor_color p c) by done. rewrite <- Z.lor_assoc.
  replace (Z.lor _ 1) with 1 by (by destruct c). by apply (lor_color p Black).
Qed.
End trees.

Arguments tree : clear implicits.
Arguments frame : clear implicits.

(** ** Places in a tree *)

Section places.
Context {A : Type}.
Implicit Types (t : tree A) (ctx : list (frame A)) (m : mem A) (h : gmap Z (rb_node A)).

Lemma opp_opp d : opp (opp d) = d.
Proof. by destruct d. Qed.
Lemma mk_opp d c t1 a (v : A) t2 : mk (opp d) c t2 a v t1 = mk d c t1 a v t2.
Proof. by destruct d. Qed.
Lemma ptr_mk d c t1 a (v : A) t2 : ptr (mk d c t1 a v t2) = a.
Proof. by destruct d. Qed.
Lemma col_mk d c t1 a (v : A) t2 : col (mk d c t1 a v t2) = c.
Proof. by destruct d. Qed.
Lemma taug_mk d c t1 a (v : A) t2 : taug (mk d c t1 a v t2) = Some v.
Proof. by destruct d. Qed.
Lemma paint_mk k d c t1 a (v : A) t2 : paint k (mk d c t1 a v t2) = mk d k t1 a v t2.
Proof. by destruct d. Qed.
Lemma inorder_paint k t : inorder (paint k t) = inorder t.
Proof. by destruct t. Qed.
Lemma ptr_paint k t : ptr (paint k t) = ptr t.
Proof. by destruct t. Qed.
Lemma inorder_mk d c t1 a (v : A) t2 : inorder (mk d c t1 a v t2) ≡ₚ a :: inorder t1 ++ inorder t2.
Proof. destruct d; cbn; [|rewrite (Permutation_app_comm (inorder t1))]; symmetry; apply Permutation_middle. Qed.
Lemma inorder_rotate d c1 c2 c3 c4 t1 t2 t3 x y (v1 v2 v3 v4 : A) :
  inorder (mk d c1 t1 x v1 (mk d c2 t2 y v2 t3)) = inorder (mk d c3 (mk d c4 t1 x v4 t2) y v3 t3).
Proof. destruct d; cbn; by rewrite <- ?app_assoc, <- ?app_comm_cons, <- ?app_assoc. Qed.

Lemma mk_inv d t : t = Leaf \/ exists c t1 a v t2, t = mk d c t1 a v t2.
Proof. destruct t as [|c l a v r]; [by left|right]. destruct d; [exists c, l, a, v, r|exists c, r, a, v, l]; done. Qed.

Lemma child_cell d w q1 q2 (v : A) : child d (cell d w q1 q2 v) = q1.
Proof. by destruct d. Qed.
Lemma child_opp_cell d w q1 q2 (v : A) : child (opp d) (cell d w q1 q2 v) = q2.
Proof. by destruct d. Qed.
Lemma cell_opp d w q1 q2 (v : A) : cell (opp d) w q2 q1 v = cell d w q1 q2 v.
Proof. by destruct d. Qed.
Lemma parent_cell d w q1 q2 (v : A) : n_parent (cell d w q1 q2 v) = w.
Proof. by destruct d. Qed.
Lemma aug_cell d w q1 q2 (v : A) : n_aug (cell d w q1 q2 v) = v.
Proof. by destruct d. Qed.
Lemma with_child_cell d q w q1 q2 (v : A) : with_child d q (cell d w q1 q2 v) = cell d w q q2 v.
Proof. by destruct d. Qed.
Lemma with_child_opp_cell d q w q1 q2 (v : A) : with_child (opp d) q (cell d w q1 q2 v) = cell d w q1 q v.
Proof. by destruct d. Qed.
Lemma with_parent_cell d w' w q1 q2 (v : A) : with_parent w' (cell d w q1 q2 v) = cell d w' q1 q2 v.
Proof. by destruct d. Qed.
Lemma with_aug_cell d v' w q1 q2 (v : A) : with_aug v' (cell d w q1 q2 v) = cell d w q1 q2 v'.
Proof. by destruct d. Qed.

Lemma sub_ok_mk h p d c t1 a v t2 :
  sub_ok h p (mk d c t1 a v t2)
  <-> h !! a = Some (cell d (word p c) (ptr t1) (ptr t2) v) /\ sub_ok h a t1 /\ sub_ok h a t2.
Proof. destruct d; cbn; tauto. Qed.

(** Writes elsewhere do not matter. *)
Lemma sub_ok_ext h h' p t : (forall a, a ∈ inorder t -> h' !! a = h !! a) -> sub_ok h p t -> sub_ok h' p t.
Proof.
  revert p. induction t as [|c l IHl a v r IHr]; intros p E; [done|]. cbn in *. intros (Ha & Hl & Hr).
  rewrite E by set_solver. split_and!; [done|apply IHl; [set_solver|done]|apply IHr; [set_solver|done]].
Qed.
Lemma ctx_ok_ext h h' ctx q : (forall a, a ∈ ctx_addrs ctx -> h' !! a = h !! a) -> ctx_ok h ctx q -> ctx_ok h' ctx q.
Proof.
  revert q. induction ctx as [|f ctx IH]; intros q E; [done|]. cbn in *. intros (Ha & Hs & Hc).
  rewrite E by set_solver. split_and!; [done|apply (sub_ok_ext h); [set_solver|done]|apply IH; [set_solver|done]].
Qed.

Lemma wf_perm l l' : l ≡ₚ l' -> wf l -> wf l'.
Proof. intros E [H1 H2]. split; by rewrite <- E. Qed.

(** Moving the focus. *)
Lemma zip_down m f ctx t : zip m ctx (fill f t) <-> zip m (f :: ctx) t.
Proof.
  unfold zip, fill. rewrite ptr_mk, sub_ok_mk. cbn [ctx_root ctx_ok ctx_parent ctx_addrs].
  assert (E : ctx_addrs ctx ++ inorder (mk (f_side f) (f_col f) t (f_addr f) (f_aug f) (f_sib f))
              ≡ₚ (f_addr f :: inorder (f_sib f) ++ ctx_addrs ctx) ++ inorder t).
  { rewrite inorder_mk, <- Permutation_middle. cbn. constructor. solve_Permutation. }
  split; intros (H1 & H2 & H3 & H4); split_and!; try tauto; (eapply wf_perm; [|exact H4]); [exact E|by symmetry].
Qed.
Lemma zip_near m ctx d c t1 a v t2 : zip m ctx (mk d c t1 a v t2) <-> zip m (Frame d c a v t2 :: ctx) t1.
Proof. apply (zip_down m (Frame d c a v t2)). Qed.
Lemma zip_far m ctx d c t1 a v t2 : zip m ctx (mk d c t1 a v t2) <-> zip m (Frame (opp d) c a v t1 :: ctx) t2.
Proof. rewrite <- zip_near. by rewrite mk_opp. Qed.
Lemma zip_plug m ctx t : zip m ctx t <-> zip m [] (plug ctx t).
Proof. revert t. induction ctx as [|f ctx IH]; intros t; [done|]. cbn. rewrite <- IH. symmetry. apply zip_down. Qed.

Lemma inorder_plug ctx t : inorder (plug ctx t) = ctx_before ctx ++ inorder t ++ ctx_after ctx.
Proof.
  revert t. induction ctx as [|f ctx IH]; intros t; cbn; [by rewrite app_nil_r|]. rewrite IH. unfold fill.
  destruct (f_side f); cbn; by rewrite <- ?app_assoc, ?app_nil_r.
Qed.
Lemma inorder_plug_perm ctx t : inorder (plug ctx t) ≡ₚ ctx_addrs ctx ++ inorder t.
Proof.
  revert t. induction ctx as [|f ctx IH]; intros t; cbn; [done|]. rewrite IH. unfold fill. rewrite inorder_mk.
  rewrite <- Permutation_middle. constructor. solve_Permutation.
Qed.

Lemma zip_valid m ctx t a : zip m ctx t -> a ∈ ctx_addrs ctx ++ inorder t -> valid a.
Proof. intros (_ & _ & _ & _ & H) Ha. rewrite Forall_forall in H. by apply H. Qed.

Lemma ctx_parent_valid m ctx t : zip m ctx t -> 0 <= ctx_parent ctx < 2 ^ 64 /\ Z.even (ctx_parent ctx) = true.
Proof.
  intros Hz. destruct ctx as [|f ctx]; [done|]. destruct (zip_valid _ _ _ (f_addr f) Hz) as [H1 H2].
  { cbn. set_solver. }
  cbn. split; [lia|done].
Qed.

(** ** Reading the focused node *)

Lemma zip_cell m ctx d c t1 a v t2 : zip m ctx (mk d c t1 a v t2) ->
  cells m !! a = Some (cell d (word (ctx_parent ctx) c) (ptr t1) (ptr t2) v).
Proof. intros (_ & _ & H & _). by apply sub_ok_mk in H as (H & _). Qed.

Lemma zip_addr m ctx d c t1 a v t2 : zip m ctx (mk d c t1 a v t2) -> valid a.
Proof. intros Hz. apply (zip_valid _ _ _ a Hz). rewrite elem_of_app, inorder_mk. set_solver. Qed.

Lemma valid_neq0 a : valid a -> (a =? 0) = false.
Proof. intros [H _]. apply Z.eqb_neq. lia. Qed.

Lemma zip_load m ctx d c t1 a v t2 : zip m ctx (mk d c t1 a v t2) ->
  load m a = Some (cell d (word (ctx_parent ctx) c) (ptr t1) (ptr t2) v).
Proof. intros Hz. unfold load. rewrite (valid_neq0 a) by (by eapply zip_addr). by apply zip_cell. Qed.

Lemma zip_parent m ctx d c t1 a v t2 : zip m ctx (mk d c t1 a v t2) -> rb_node_parent m a = Some (ctx_parent ctx).
Proof.
  intros Hz. unfold rb_node_parent. rewrite (zip_load _ _ _ _ _ _ _ _ Hz). cbn [mbind option_bind].
  rewrite parent_cell, land_word_not_one by (by eapply ctx_parent_valid). done.
Qed.

Definition is_black (c : color) : bool := match c with Black => true | Red => false end.

Lemma zip_is_black m ctx t : zip m ctx t -> rb_node_is_black m (ptr t) = Some (is_black (col t)).
Proof.
  intros Hz. destruct (mk_inv L t) as [->|(c & t1 & a & v & t2 & ->)]; [done|]. unfold rb_node_is_black.
  rewrite ptr_mk, col_mk, (valid_neq0 a) by (by eapply zip_addr). rewrite (zip_load _ _ _ _ _ _ _ _ Hz).
  cbn [mbind option_bind]. rewrite parent_cell, land_word_1 by (by eapply ctx_parent_valid). by destruct c.
Qed.
Lemma zip_is_red m ctx t : zip m ctx t -> rb_node_is_red m (ptr t) = Some (negb (is_black (col t))).
Proof. intros Hz. unfold rb_node_is_red. by rewrite (zip_is_black _ _ _ Hz). Qed.

Lemma zip_ptr0 m ctx t : zip m ctx t -> (ptr t =? 0) = match t with Leaf => true | _ => false end.
Proof. intros Hz. destruct t as [|c l a v r]; [done|]. apply valid_neq0. apply (zip_addr m ctx L c l a v r Hz). Qed.
End places.

(** ** Writes *)

Section writes.
Context {A : Type}.
Implicit Types (t : tree A) (ctx : list (frame A)) (m : mem A) (h : gmap Z (rb_node A)).

Lemma keeps_refl l m : keeps l m m.
Proof. done. Qed.
Lemma keeps_trans l m1 m2 m3 : keeps l m1 m2 -> keeps l m2 m3 -> keeps l m1 m3.
Proof. intros [E1 H1] [E2 H2]. split; [congruence|]. intros a Ha. by rewrite H2, H1. Qed.
Lemma keeps_mono l l' m1 m2 : (forall a, a ∈ l -> a ∈ l') -> keeps l m1 m2 -> keeps l' m1 m2.
Proof. intros Hl [E H]. split; [done|]. intros a Ha. apply H. auto. Qed.
Lemma keeps_fuel l m1 m2 : keeps l m1 m2 -> fuel_of m2 = fuel_of m1.
Proof. intros [E _]. unfold fuel_of. f_equal. by rewrite <- !size_dom, E. Qed.

(** A write to a node that is there. *)
Lemma store_ok m a n f : load m a = Some n -> store m a f = Some (Mem (root m) (<[a := f n]> (cells m))).
Proof. intros E. unfold store. by rewrite E. Qed.
Lemma load_cells m a n : load m a = Some n -> cells m !! a = Some n.
Proof. unfold load. by destruct (a =? 0). Qed.
Lemma cells_load m a n : valid a -> cells m !! a = Some n -> load m a = Some n.
Proof. intros Ha E. unfold load. by rewrite valid_neq0. Qed.
Lemma keeps_insert l m r a n n' : a ∈ l -> cells m !! a = Some n -> keeps l m (Mem r (<[a := n']> (cells m))).
Proof.
  intros Ha E. split; cbn.
  - apply dom_insert_lookup_L. by rewrite E.
  - intros b Hb. apply lookup_insert_ne. set_solver.
Qed.

(** The nodes of a place are all different. *)
Lemma wf_split l a l1 l2 : wf (l ++ a :: l1 ++ l2) ->
  a ∉ l /\ a ∉ l1 /\ a ∉ l2 /\ (forall b, b ∈ l1 -> b ∉ l2) /\ (forall b, b ∈ l1 -> b ∉ l) /\ (forall b, b ∈ l2 -> b ∉ l).
Proof.
  intros [H _]. rewrite NoDup_app, NoDup_cons, NoDup_app in H. destruct H as (_ & Hd & Ha & _ & Hd' & _).
  split_and!; try set_solver.
Qed.
Lemma zip_distinct m ctx d c t1 a v t2 : zip m ctx (mk d c t1 a v t2) ->
  a ∉ ctx_addrs ctx /\ a ∉ inorder t1 /\ a ∉ inorder t2 /\ (forall b, b ∈ inorder t1 -> b ∉ inorder t2)
  /\ (forall b, b ∈ inorder t1 -> b ∉ ctx_addrs ctx) /\ (forall b, b ∈ inorder t2 -> b ∉ ctx_addrs ctx).
Proof.
  intros (_ & _ & _ & H). apply wf_split. eapply wf_perm; [|exact H]. by rewrite inorder_mk.
Qed.

(** Changing colour or data of the focused node. *)
Lemma zip_store m ctx d c c' t1 a v v' t2 f :
  zip m ctx (mk d c t1 a v t2) ->
  f (cell d (word (ctx_parent ctx) c) (ptr t1) (ptr t2) v) = cell d (word (ctx_parent ctx) c') (ptr t1) (ptr t2) v' ->
  exists m', store m a f = Some m' /\ zip m' ctx (mk d c' t1 a v' t2) /\ keeps [a] m m'.
Proof.
  intros Hz Hf. rewrite (store_ok _ _ _ _ (zip_load _ _ _ _ _ _ _ _ Hz)), Hf. eexists. split; [done|].
  pose proof (zip_cell _ _ _ _ _ _ _ _ Hz) as Hcell. split; [|eapply keeps_insert; [set_solver|exact Hcell]].
  destruct (zip_distinct _ _ _ _ _ _ _ _ Hz) as (D1 & D2 & D3 & _). destruct Hz as (Hr & Hc & Hs & Hw).
  rewrite ptr_mk in *. apply sub_ok_mk in Hs as (_ & Hs1 & Hs2). unfold zip. cbn [root cells]. rewrite ptr_mk, sub_ok_mk.
  split_and!.
  - done.
  - eapply ctx_ok_ext; [|exact Hc]. intros b Hb. apply lookup_insert_ne. set_solver.
  - apply lookup_insert_eq.
  - eapply sub_ok_ext; [|exact Hs1]. intros b Hb. apply lookup_insert_ne. set_solver.
  - eapply sub_ok_ext; [|exact Hs2]. intros b Hb. apply lookup_insert_ne. set_solver.
  - eapply wf_perm; [|exact Hw]. by rewrite !inorder_mk.
Qed.

Lemma zip_set_black m ctx t : zip m ctx t -> t <> Leaf ->
  exists m', rb_node_set_black m (ptr t) = Some m' /\ zip m' ctx (paint Black t) /\ keeps [ptr t] m m'.
Proof.
  intros Hz Ht. destruct (mk_inv L t) as [->|(c & t1 & a & v & t2 & ->)]; [done|]. rewrite ptr_mk, paint_mk.
  eapply zip_store; [exact Hz|]. rewrite with_parent_cell, parent_cell, lor_word_1; [done|..];
    destruct (ctx_parent_valid _ _ _ Hz); (done || lia).
Qed.
Lemma zip_set_red m ctx t : zip m ctx t -> t <> Leaf ->
  exists m', rb_node_set_red m (ptr t) = Some m' /\ zip m' ctx (paint Red t) /\ keeps [ptr t] m m'.
Proof.
  intros Hz Ht. destruct (mk_inv L t) as [->|(c & t1 & a & v & t2 & ->)]; [done|]. rewrite ptr_mk, paint_mk.
  eapply zip_store; [exact Hz|]. rewrite with_parent_cell, parent_cell, land_word_not_one by (by eapply ctx_parent_valid).
  unfold word. by rewrite Z.add_0_r.
Qed.

(** A new parent for the root of a subtree. *)
Lemma sub_ok_set_parent h p q t : sub_ok h p t -> NoDup (inorder t) ->
  forall c l a v r, t = Node c l a v r ->
  sub_ok (<[a := RbNode (word q c) (ptr l) (ptr r) v]> h) q t.
Proof.
  intros Hs Hn c l a v r ->. cbn in *. destruct Hs as (_ & Hl & Hr).
  rewrite NoDup_app, NoDup_cons in Hn. destruct Hn as (_ & Hd & Ha & _). split_and!.
  - apply lookup_insert_eq.
  - eapply sub_ok_ext; [|exact Hl]. intros b Hb. apply lookup_insert_ne. set_solver.
  - eapply sub_ok_ext; [|exact Hr]. intros b Hb. apply lookup_insert_ne. set_solver.
Qed.

Lemma with_parent_color p q c : 0 <= p < 2 ^ 64 -> Z.even p = true -> 0 <= q -> Z.even q = true ->
  Z.lor (Z.land (word p c) 1) q = word q c.
Proof. intros. rewrite land_word_1, Z.lor_comm by done. by apply lor_color. Qed.

Definition aligned (p : Z) : Prop := 0 <= p < 2 ^ 64 /\ Z.even p = true.
Lemma valid_aligned a : valid a -> aligned a.
Proof. intros [H1 H2]. split; [lia|done]. Qed.

(** [if (v) rb_node_set_parent(v, q)] on a subtree. *)
Lemma set_parent_sub m p q t :
  sub_ok (cells m) p t -> wf (inorder t) -> aligned p -> aligned q ->
  exists m', (if ptr t =? 0 then Some m else rb_node_set_parent m (ptr t) q) = Some m'
    /\ sub_ok (cells m') q t /\ root m' = root m /\ keeps (inorder t) m m'.
Proof.
  intros Hs [Hn Hv] [Hp Hpe] [Hq Hqe]. destruct t as [|c l a v r].
  { exists m. split_and!; [done..|apply keeps_refl]. }
  assert (Ha : valid a) by (rewrite Forall_forall in Hv; apply Hv; cbn; set_solver).
  cbn [ptr]. rewrite valid_neq0 by done. unfold rb_node_set_parent.
  pose proof Hs as (Hcell & _). rewrite (store_ok _ _ _ _ (cells_load _ _ _ Ha Hcell)). eexists. split; [done|]. cbn [root cells].
  unfold with_parent. cbn [n_parent n_left n_right n_aug]. rewrite with_parent_color by (done || lia). split_and!.
  - by eapply sub_ok_set_parent.
  - done.
  - eapply keeps_insert; [cbn; set_solver|exact Hcell].
Qed.
End writes.

(** ** Splicing and rotation *)

Section splice.
Context {A : Type}.
Implicit Types (t : tree A) (ctx : list (frame A)) (m : mem A) (h : gmap Z (rb_node A)).

Lemma ptr_in t : ptr t = 0 \/ ptr t ∈ inorder t.
Proof. destruct t; [by left|right]. cbn. set_solver. Qed.

(** The place of [u] gets the pointer [v]; the parent of [v] is written after that. *)
Lemma splice_ctx m ctx u v n c :
  root m = ctx_root ctx u -> ctx_ok (cells m) ctx u -> valid u -> u ∉ ctx_addrs ctx -> wf (ctx_addrs ctx) ->
  cells m !! u = Some n -> n_parent n = word (ctx_parent ctx) c ->
  exists m1, root m1 = ctx_root ctx v /\ ctx_ok (cells m1) ctx v /\ keeps (ctx_addrs ctx) m m1
    /\ rb_tree_splice m u v = (if v =? 0 then Some m1 else rb_node_set_parent m1 v (ctx_parent ctx)).
Proof.
  intros Hr Hc Hu Hout [Hnd Hv] Hcell Hpar.
  assert (Hal : aligned (ctx_parent ctx)).
  { destruct ctx as [|f ctx]; [done|]. apply valid_aligned. rewrite Forall_forall in Hv. apply Hv. cbn. set_solver. }
  unfold rb_tree_splice. rewrite (valid_neq0 u) by done. cbn [negb]. unfold rb_node_parent.
  rewrite (cells_load _ _ _ Hu Hcell). cbn [mbind option_bind]. destruct Hal as [Hal He].
  rewrite Hpar, land_word_not_one by done. destruct ctx as [|f ctx]; cbn [ctx_parent ctx_root ctx_ok ctx_addrs] in *.
  - rewrite Z.eqb_refl, Hr, Z.eqb_refl. cbn. exists (set_root m v). split_and!; done.
  - destruct Hc as (Hf & Hs & Hc). assert (Hfv : valid (f_addr f)) by (rewrite Forall_forall in Hv; apply Hv; set_solver).
    rewrite (valid_neq0 (f_addr f)), (cells_load _ _ _ Hfv Hf) by done. cbn [mbind option_bind].
    assert (Hsib : (u =? ptr (f_sib f)) = false).
    { apply Z.eqb_neq. intros ->. destruct (ptr_in (f_sib f)) as [E|E]; [|set_solver]. rewrite E in Hu. destruct Hu; lia. }
    assert (E : (if u =? n_left (cell (f_side f) (word (ctx_parent ctx) (f_col f)) u (ptr (f_sib f)) (f_aug f))
                 then set_left m (f_addr f) v
                 else assert! u =? n_right (cell (f_side f) (word (ctx_parent ctx) (f_col f)) u (ptr (f_sib f)) (f_aug f)) ;;
                      set_right m (f_addr f) v)
                = set_child (f_side f) m (f_addr f) v).
    { destruct (f_side f); cbn [n_left n_right cell]; [by rewrite Z.eqb_refl|]. rewrite Hsib, Z.eqb_refl. done. }
    rewrite E. unfold set_child. rewrite (store_ok _ _ _ _ (cells_load _ _ _ Hfv Hf)), with_child_cell. cbn [mbind option_bind].
    rewrite NoDup_cons, NoDup_app in Hnd. destruct Hnd as (Hn1 & _ & Hn2 & _).
    eexists. split; [|split; [|split; [|reflexivity]]]; cbn [root cells].
    + done.
    + split_and!; [apply lookup_insert_eq| |].
      * eapply sub_ok_ext; [|exact Hs]. intros b Hb. apply lookup_insert_ne. set_solver.
      * eapply ctx_ok_ext; [|exact Hc]. intros b Hb. apply lookup_insert_ne. set_solver.
    + eapply keeps_insert; [set_solver|exact Hf].
Qed.

(** ... and where [v] is the root of a subtree, the subtree is in the place then. *)
Lemma splice_zip m ctx u n c p t :
  root m = ctx_root ctx u -> ctx_ok (cells m) ctx u -> valid u -> u ∉ ctx_addrs ctx ->
  cells m !! u = Some n -> n_parent n = word (ctx_parent ctx) c ->
  sub_ok (cells m) p t -> aligned p -> wf (ctx_addrs ctx ++ inorder t) ->
  exists m', rb_tree_splice m u (ptr t) = Some m' /\ zip m' ctx t /\ keeps (ctx_addrs ctx ++ inorder t) m m'.
Proof.
  intros Hr Hc Hu Hout Hcell Hpar Hs Hp Hw. pose proof Hw as [Hnd Hv].
  rewrite NoDup_app in Hnd. destruct Hnd as (Hn1 & Hd & Hn2). rewrite Forall_app in Hv. destruct Hv as [Hv1 Hv2].
  destruct (splice_ctx m ctx u (ptr t) n c) as (m1 & Hr1 & Hc1 & Hk1 & ->); [done..|].
  destruct (set_parent_sub m1 p (ctx_parent ctx) t) as (m2 & -> & Hs2 & Hr2 & Hk2).
  - eapply sub_ok_ext; [|exact Hs]. intros b Hb. apply Hk1. set_solver.
  - done.
  - done.
  - destruct ctx as [|f ctx]; [done|]. apply valid_aligned. rewrite Forall_forall in Hv1. apply Hv1. cbn. set_solver.
  - exists m2. split; [done|]. split.
    + unfold zip. rewrite Hr2. split_and!; try done. eapply ctx_ok_ext; [|exact Hc1]. intros b Hb. apply Hk2. set_solver.
    + eapply keeps_trans; (eapply keeps_mono; [|eassumption]); set_solver.
Qed.
Lemma sub_load m p t : sub_ok (cells m) p t -> wf (inorder t) ->
  n_aug <$> load m (ptr t) = taug t /\ (ptr t = 0 \/ is_Some (load m (ptr t))).
Proof.
  intros Hs [_ Hv]. destruct t as [|c l a v r]; [split; [done|by left]|]. destruct Hs as (E & _).
  assert (Ha : valid a) by (rewrite Forall_forall in Hv; apply Hv; cbn; set_solver).
  cbn. rewrite (cells_load _ _ _ Ha E). split; [done|right; eauto].
Qed.

Lemma wf_app l1 l2 : wf (l1 ++ l2) -> wf l1 /\ wf l2.
Proof. intros [Hn Hv]. rewrite NoDup_app in Hn. rewrite Forall_app in Hv. split; split; tauto. Qed.

End splice.

(** ** Augmented data

    [U a v l r] is what [update] stores in node [a], whose data is [v] and whose
    children have the data [l] and [r].  For the fixups to be right, the data that the
    upper node gets in a rotation must serve the nodes above like the old one did. *)

Definition on_side {A B : Type} (d : side) (f : A -> A -> B) (near far : A) : B :=
  match d with L => f near far | R => f far near end.

Class Augmented {A : Type} (update : option (mem A -> Z -> option (mem A)))
    (U : Z -> A -> option A -> option A -> A) : Prop := {
  update_correct m a n :
    load m a = Some n ->
    (n_left n = 0 \/ is_Some (load m (n_left n))) -> (n_right n = 0 \/ is_Some (load m (n_right n))) ->
    call_update update m a
    = Some (Mem (root m) (<[a := with_aug (U a (n_aug n) (n_aug <$> load m (n_left n)) (n_aug <$> load m (n_right n))) n]> (cells m)));
  update_again a v l r : U a (U a v l r) l r = U a v l r;
  update_rotate d x y vx vy o1 o2 o3 e b w o :
    vy = on_side d (U y vy) o2 o3 -> vx = on_side d (U x vx) o1 (Some vy) ->
    on_side e (U b w) (Some (on_side d (U y vy) (Some (on_side d (U x vx) o1 o2)) o3)) o = on_side e (U b w) (Some vx) o
}.

(** Without a callback the data stays as it is. *)
#[export] Instance no_update {A : Type} : Augmented (A := A) None (fun _ v _ _ => v).
Proof.
  split; [|done|by intros [] x y vx vy o1 o2 o3 []].
  intros m a n E _ _. cbn. destruct m as [r h]. apply load_cells in E. cbn in *. do 2 f_equal. symmetry.
  apply insert_id. by destruct n.
Qed.

Section augmented.
Context {A : Type} {update : option (mem A -> Z -> option (mem A))} {U : Z -> A -> option A -> option A -> A}.
Context `{!Augmented update U}.
Implicit Types (t : tree A) (ctx : list (frame A)) (m : mem A).

(** Every node has the data that [update] computes. *)
Fixpoint aug_ok (t : tree A) : Prop :=
  match t with
  | Leaf => True
  | Node _ l a v r => v = U a v (taug l) (taug r) /\ aug_ok l /\ aug_ok r
  end.

Lemma aug_ok_mk d c t1 a v t2 :
  aug_ok (mk d c t1 a v t2) <-> v = on_side d (U a v) (taug t1) (taug t2) /\ aug_ok t1 /\ aug_ok t2.
Proof. destruct d; cbn; tauto. Qed.
Lemma aug_ok_paint k t : aug_ok (paint k t) <-> aug_ok t.
Proof. by destruct t. Qed.

Lemma zip_update m ctx d c t1 a v t2 : zip m ctx (mk d c t1 a v t2) ->
  exists m', call_update update m a = Some m'
    /\ zip m' ctx (mk d c t1 a (on_side d (U a v) (taug t1) (taug t2)) t2) /\ keeps [a] m m'.
Proof using Type*.
  intros Hz. pose proof (zip_load _ _ _ _ _ _ _ _ Hz) as Hl.
  pose proof Hz as (_ & _ & Hs & Hw). apply sub_ok_mk in Hs as (_ & Hs1 & Hs2).
  assert (Hw' : wf (inorder t1) /\ wf (inorder t2)).
  { apply wf_app. apply (wf_app (ctx_addrs ctx ++ [a])). eapply wf_perm; [|exact Hw].
    rewrite inorder_mk, <- app_assoc. done. }
  destruct Hw' as [Hw1 Hw2]. destruct (sub_load m a t1 Hs1 Hw1) as [E1 L1]. destruct (sub_load m a t2 Hs2 Hw2) as [E2 L2].
  destruct (zip_store m ctx d c c t1 a v (on_side d (U a v) (taug t1) (taug t2)) t2
    (with_aug (on_side d (U a v) (taug t1) (taug t2))) Hz (with_aug_cell _ _ _ _ _ _)) as (m' & Est & Hz' & Hk).
  exists m'. split; [|done]. rewrite (store_ok _ _ _ _ Hl) in Est.
  rewrite (update_correct m a _ Hl) by (by destruct d). rewrite <- Est. do 4 f_equal. destruct d; cbn; by rewrite E1, E2.
Qed.

(** What the nodes above see of a subtree. *)
Definition aug_equiv (o1 o2 : option A) : Prop := forall d b w o, on_side d (U b w) o1 o = on_side d (U b w) o2 o.

Lemma aug_plug_equiv ctx t t' :
  aug_ok (plug ctx t) -> aug_ok t' -> aug_equiv (taug t') (taug t) -> aug_ok (plug ctx t').
Proof using Type*.
  revert t t'. induction ctx as [|f ctx IH]; intros t t' H H' E; cbn in *; [done|].
  assert (Hf : aug_ok (fill f t)).
  { clear -H. revert H. generalize (fill f t). induction ctx as [|g ctx IH]; intros s; cbn; [done|].
    intros Hs. apply IH in Hs. unfold fill in Hs. apply aug_ok_mk in Hs. tauto. }
  apply (IH (fill f t)); [done| |].
  - unfold fill in *. apply aug_ok_mk in Hf as (Hv & _ & Hs). apply aug_ok_mk. split_and!; [|done|done]. by rewrite E.
  - unfold fill. rewrite !taug_mk. intros d b w o. done.
Qed.

(** The last writes of a rotation: [y] is already in the place of [x]. *)
Lemma rotate_last m ctx d cx cy t1 x vx t2 y vy t3 :
  root m = ctx_root ctx y -> ctx_ok (cells m) ctx y ->
  cells m !! x = Some (cell d (word (ctx_parent ctx) cx) (ptr t1) (ptr t2) vx) ->
  cells m !! y = Some (cell d (word x cy) (ptr t2) (ptr t3) vy) ->
  sub_ok (cells m) x t1 -> sub_ok (cells m) x t2 -> sub_ok (cells m) y t3 ->
  wf (ctx_addrs ctx ++ x :: y :: inorder t1 ++ inorder t2 ++ inorder t3) ->
  exists m', (m ← rb_node_set_parent m y (ctx_parent ctx); m ← set_child d m y x; rb_node_set_parent m x y) = Some m'
    /\ zip m' ctx (mk d cy (mk d cx t1 x vx t2) y vy t3) /\ keeps [x; y] m m'.
Proof using Type*.
  intros Hr Hc Cx Cy Hs1 Hs2 Hs3 Hw. pose proof Hw as [Hnd Hval]. rewrite !NoDup_app, !NoDup_cons, !NoDup_app in Hnd.
  destruct Hnd as (Hn0 & D0 & (D1 & D2 & Hn1 & D3 & Hn2 & D4 & Hn3)).
  rewrite !Forall_app, !Forall_cons in Hval. destruct Hval as (V0 & Vx & Vy & _).
  assert (Hal : aligned (ctx_parent ctx)).
  { destruct ctx as [|f ctx']; [done|]. apply valid_aligned. rewrite Forall_forall in V0. apply V0. cbn. set_solver. }
  destruct Hal as [Hp He]. destruct (valid_aligned x Vx) as [Hx Hxe]. destruct (valid_aligned y Vy) as [Hy Hye].
  assert (Hxy : x <> y) by set_solver.
  unfold rb_node_set_parent. rewrite (store_ok m y _ _ (cells_load _ _ _ Vy Cy)). cbn [mbind option_bind].
  rewrite with_parent_cell, parent_cell, with_parent_color by (done || lia).
  unfold set_child. erewrite store_ok; [|apply cells_load; [done|apply lookup_insert_eq]]. cbn [mbind option_bind root cells].
  rewrite with_child_cell, insert_insert_eq.
  erewrite store_ok; [|apply cells_load; [done|]; cbn [cells]; rewrite lookup_insert_ne by done; exact Cx].
  rewrite with_parent_cell, parent_cell, with_parent_color by (done || lia). eexists. split; [done|]. cbn [root cells]. split.
  - unfold zip. cbn [root cells]. rewrite ptr_mk, sub_ok_mk, sub_ok_mk, ptr_mk. split_and!.
    + done.
    + eapply ctx_ok_ext; [|exact Hc]. intros b Hb. rewrite !lookup_insert_ne by set_solver. done.
    + rewrite lookup_insert_ne by done. apply lookup_insert_eq.
    + apply lookup_insert_eq.
    + eapply sub_ok_ext; [|exact Hs1]. intros b Hb. rewrite !lookup_insert_ne by set_solver. done.
    + eapply sub_ok_ext; [|exact Hs2]. intros b Hb. rewrite !lookup_insert_ne by set_solver. done.
    + eapply sub_ok_ext; [|exact Hs3]. intros b Hb. rewrite !lookup_insert_ne by set_solver. done.
    + eapply wf_perm; [|exact Hw]. rewrite !inorder_mk. solve_Permutation.
  - split; cbn [cells].
    + rewrite !dom_insert_lookup_L; [done|by rewrite Cy|by rewrite lookup_insert_ne, Cx by done].
    + intros b Hb. rewrite !lookup_insert_ne by set_solver. done.
Qed.

(** A rotation rotates the subtree at [x] and keeps everything else. *)
Lemma rotate_links m ctx d cx cy t1 x vx t2 y vy t3 :
  zip m ctx (mk d cx t1 x vx (mk d cy t2 y vy t3)) ->
  exists m', zip m' ctx (mk d cy (mk d cx t1 x vx t2) y vy t3)
    /\ keeps (ctx_addrs ctx ++ x :: y :: inorder t2) m m'
    /\ rb_tree_rotate update d m x = (m ← call_update update m' x; call_update update m y).
Proof using Type*.
  intros Hz. pose proof Hz as Hz0. unfold rb_tree_rotate.
  pose proof (zip_addr _ _ _ _ _ _ _ _ Hz) as Vx. pose proof (zip_load _ _ _ _ _ _ _ _ Hz) as Lx.
  pose proof (zip_cell _ _ _ _ _ _ _ _ Hz) as Cx. rewrite ptr_mk in *.
  pose proof (proj1 (zip_far _ _ _ _ _ _ _ _) Hz) as Hzy.
  pose proof (zip_addr _ _ _ _ _ _ _ _ Hzy) as Vy. pose proof (zip_load _ _ _ _ _ _ _ _ Hzy) as Ly.
  pose proof (zip_cell _ _ _ _ _ _ _ _ Hzy) as Cy. cbn [ctx_parent f_addr] in *.
  destruct Hz as (Hr & Hc & Hs & Hw). rewrite ptr_mk in *. apply sub_ok_mk in Hs as (_ & Hs1 & Hs23).
  apply sub_ok_mk in Hs23 as (_ & Hs2 & Hs3).
  assert (Hw' : wf (ctx_addrs ctx ++ x :: y :: inorder t1 ++ inorder t2 ++ inorder t3)).
  { eapply wf_perm; [|exact Hw]. rewrite !inorder_mk. solve_Permutation. }
  clear Hw. pose proof Hw' as [Hnd Hval]. rewrite !NoDup_app, !NoDup_cons, !NoDup_app in Hnd.
  destruct Hnd as (Hn0 & D0 & (D1 & D2 & Hn1 & D3 & Hn2 & D4 & Hn3)).
  rewrite (valid_neq0 x Vx), Lx. cbn [negb mbind option_bind]. rewrite child_opp_cell, (valid_neq0 y Vy). cbn [negb].
  rewrite Ly. cbn [mbind option_bind]. rewrite child_cell.
  unfold set_child. rewrite (store_ok _ _ _ _ Lx), with_child_opp_cell. cbn [mbind option_bind].
  set (m1 := Mem _ _). assert (K1 : keeps [x] m m1) by (eapply keeps_insert; [set_solver|exact Cx]).
  assert (C1x : cells m1 !! x = Some (cell d (word (ctx_parent ctx) cx) (ptr t1) (ptr t2) vx)) by apply lookup_insert_eq.
  destruct (set_parent_sub m1 y x t2) as (m2 & -> & Hs2' & Hr2 & K2).
  { eapply sub_ok_ext; [|exact Hs2]. intros b Hb. apply K1. set_solver. }
  { split; [done|]. rewrite !Forall_app, !Forall_cons, !Forall_app in Hval. tauto. }
  { by apply valid_aligned. } { by apply valid_aligned. }
  cbn [mbind option_bind].
  assert (C2x : cells m2 !! x = Some (cell d (word (ctx_parent ctx) cx) (ptr t1) (ptr t2) vx)).
  { rewrite (proj2 K2), C1x by set_solver. done. }
  destruct (splice_ctx m2 ctx x y (cell d (word (ctx_parent ctx) cx) (ptr t1) (ptr t2) vx) cx)
    as (m3 & Hr3 & Hc3 & K3 & ->).
  { rewrite Hr2. done. }
  { eapply ctx_ok_ext; [|exact Hc]. intros b Hb. rewrite (proj2 K2), (proj2 K1) by set_solver. done. }
  { done. } { set_solver. } { apply wf_app in Hw' as [H _]. exact H. } { done. } { apply parent_cell. }
  rewrite (valid_neq0 y Vy).
  destruct (rotate_last m3 ctx d cx cy t1 x vx t2 y vy t3) as (m' & E & Hz' & K'); [done|done|..|done|].
  { rewrite (proj2 K3), C2x by set_solver. done. }
  { rewrite (proj2 K3), (proj2 K2), (proj2 K1) by set_solver. done. }
  { eapply sub_ok_ext; [|exact Hs1]. intros b Hb. rewrite (proj2 K3), (proj2 K2), (proj2 K1) by set_solver. done. }
  { eapply sub_ok_ext; [|exact Hs2']. intros b Hb. rewrite (proj2 K3) by set_solver. done. }
  { eapply sub_ok_ext; [|exact Hs3]. intros b Hb. rewrite (proj2 K3), (proj2 K2), (proj2 K1) by set_solver. done. }
  exists m'. split; [done|]. split.
  - apply (keeps_trans _ _ m1); [eapply keeps_mono; [|exact K1]; set_solver|].
    apply (keeps_trans _ _ m2); [eapply keeps_mono; [|exact K2]; set_solver|].
    apply (keeps_trans _ _ m3); [eapply keeps_mono; [|exact K3]; set_solver|]. eapply keeps_mono; [|exact K']. set_solver.
  - destruct (rb_node_set_parent m3 y (ctx_parent ctx)) as [m4|]; [|done]. cbn [mbind option_bind] in *. unfold set_child in E.
    destruct (store m4 y (with_child d x)) as [m5|]; [|done]. cbn [mbind option_bind] in *. by rewrite E.
Qed.

Lemma on_side_again d a v (o1 o2 : option A) : on_side d (U a (on_side d (U a v) o1 o2)) o1 o2 = on_side d (U a v) o1 o2.
Proof using Type*. destruct d; cbn [on_side]; apply (update_again (Augmented := Augmented0)). Qed.

Lemma aug_ok_plug_inner ctx t : aug_ok (plug ctx t) -> aug_ok t.
Proof using Type*.
  revert t. induction ctx as [|f ctx IH]; intros t; cbn; [done|]. intros H%IH. unfold fill in H. apply aug_ok_mk in H. tauto.
Qed.

Lemma rotate_zip m ctx d cx cy t1 x vx t2 y vy t3 :
  zip m ctx (mk d cx t1 x vx (mk d cy t2 y vy t3)) -> aug_ok (plug ctx (mk d cx t1 x vx (mk d cy t2 y vy t3))) ->
  exists m' vx' vy', rb_tree_rotate update d m x = Some m'
    /\ zip m' ctx (mk d cy (mk d cx t1 x vx' t2) y vy' t3)
    /\ aug_ok (plug ctx (mk d cy (mk d cx t1 x vx' t2) y vy' t3))
    /\ keeps (ctx_addrs ctx ++ x :: y :: inorder t2) m m'.
Proof using Type*.
  intros Hz Ha. destruct (rotate_links _ _ _ _ _ _ _ _ _ _ _ _ Hz) as (m1 & Hz1 & K1 & ->).
  apply zip_near in Hz1. destruct (zip_update _ _ _ _ _ _ _ _ Hz1) as (m2 & -> & Hz2 & K2). cbn [mbind option_bind].
  apply zip_near in Hz2. destruct (zip_update _ _ _ _ _ _ _ _ Hz2) as (m3 & -> & Hz3 & K3). rewrite taug_mk in *.
  eexists m3, _, _. split; [done|]. split; [exact Hz3|]. split.
  - pose proof (aug_ok_plug_inner _ _ Ha) as Hi. apply aug_ok_mk in Hi as (E1 & A1 & Hi). apply aug_ok_mk in Hi as (E2 & A2 & A3).
    rewrite taug_mk in E1. eapply aug_plug_equiv; [exact Ha| |].
    + rewrite !aug_ok_mk, taug_mk, !on_side_again. done.
    + rewrite !taug_mk. intros e b w o. by apply update_rotate.
  - eapply keeps_trans; [exact K1|]. eapply keeps_trans; eapply keeps_mono; [|exact K2| |exact K3]; set_solver.
Qed.

(** *** Updating a path *)

Fixpoint reaug (ctx : list (frame A)) (o : option A) : list (frame A) :=
  match ctx with
  | [] => []
  | f :: ctx =>
      let v := on_side (f_side f) (U (f_addr f) (f_aug f)) o (taug (f_sib f)) in
      Frame (f_side f) (f_col f) (f_addr f) v (f_sib f) :: reaug ctx (Some v)
  end.
Fixpoint ctx_aug (ctx : list (frame A)) : Prop :=
  match ctx with [] => True | f :: ctx => aug_ok (f_sib f) /\ ctx_aug ctx end.

Lemma reaug_parent ctx o : ctx_parent (reaug ctx o) = ctx_parent ctx.
Proof using Type*. by destruct ctx. Qed.

Lemma aug_ok_reaug ctx t : ctx_aug ctx -> aug_ok t -> aug_ok (plug (reaug ctx (taug t)) t).
Proof using Type*.
  revert t. induction ctx as [|f ctx IH]; intros t Hc Ht; [done|]. destruct Hc as [Hs Hc]. cbn [reaug plug].
  set (v := on_side _ _ _ _). replace (Some v) with (taug (fill (Frame (f_side f) (f_col f) (f_addr f) v (f_sib f)) t)).
  - apply IH; [done|]. unfold fill. cbn. apply aug_ok_mk. split_and!; [|done|done]. unfold v. by rewrite on_side_again.
  - unfold fill. apply taug_mk.
Qed.

Lemma update_path_zip ctx t : forall m fuel, zip m ctx t -> (length ctx < fuel)%nat ->
  exists m', update_path update fuel m (ctx_parent ctx) = Some m' /\ zip m' (reaug ctx (taug t)) t /\ keeps (ctx_addrs ctx) m m'.
Proof using Type*.
  revert t. induction ctx as [|f ctx IH]; intros t m [|fuel] Hz Hf; cbn [length] in Hf; [lia| |lia|].
  - exists m. split_and!; [done|done|apply keeps_refl].
  - apply zip_down in Hz. unfold fill in Hz. cbn [ctx_parent update_path].
    rewrite (valid_neq0 (f_addr f)) by (by eapply zip_addr).
    destruct (zip_update _ _ _ _ _ _ _ _ Hz) as (m1 & -> & Hz1 & K1). cbn [mbind option_bind].
    rewrite (zip_parent _ _ _ _ _ _ _ _ Hz1). cbn [mbind option_bind].
    destruct (IH _ m1 fuel Hz1 ltac:(lia)) as (m2 & -> & Hz2 & K2). exists m2. split; [done|]. rewrite taug_mk in Hz2. split.
    + by apply zip_near in Hz2.
    + eapply keeps_trans; (eapply keeps_mono; [|eassumption]); cbn; set_solver.
Qed.
End augmented.
