(* ===== verification/RbInsert.v ===== *)
(** * Insertion into the red-black tree (src/util/rb_tree.c)

    The red-black invariant, the state of a fixup loop, and the proof that insertion
    adds the node at its place and leaves a red-black tree. *)

From Stdlib Require Import ZArith Lia Sorted.
From stdpp Require Import base list gmap numbers option sets sorting.
From S2P Require Import Prelude RbTree.
Local Open Scope Z_scope.

(** ** The invariant *)

Section invariant.
Context {A : Type}.
Implicit Types (t : tree A) (ctx : list (frame A)).

(** [rb n t]: no red node has a red child, and there are [n] black nodes on every path. *)
Inductive rb : nat -> tree A -> Prop :=
| rb_leaf : rb 0 Leaf
| rb_red n l a v r : rb n l -> rb n r -> col l = Black -> col r = Black -> rb n (Node Red l a v r)
| rb_black n l a v r : rb n l -> rb n r -> rb (S n) (Node Black l a v r).

Lemma rb_mk_red n d t1 a v t2 :
  rb n (mk d Red t1 a v t2) <-> rb n t1 /\ rb n t2 /\ col t1 = Black /\ col t2 = Black.
Proof.
  split.
  - destruct d; inversion 1; subst; done.
  - intros (H1 & H2 & H3 & H4). destruct d; by constructor.
Qed.
Lemma rb_mk_black n d t1 a v t2 : rb (S n) (mk d Black t1 a v t2) <-> rb n t1 /\ rb n t2.
Proof.
  split.
  - destruct d; inversion 1; subst; done.
  - intros (H1 & H2). destruct d; by constructor.
Qed.
Lemma rb_black_inv n d t1 a v t2 : rb n (mk d Black t1 a v t2) -> exists k, n = S k /\ rb k t1 /\ rb k t2.
Proof. destruct d; inversion 1; subst; eauto. Qed.
Lemma rb_paint n t : rb n t -> col t = Red -> rb (S n) (paint Black t).
Proof. destruct 1; [done| |done]. intros _. by constructor. Qed.

(** A place for a tree with [n] black nodes on its paths; the root is not red. *)
Definition head_black ctx : Prop := match ctx with [] => False | f :: _ => f_col f = Black end.
Fixpoint ctx_rb (n : nat) ctx : Prop :=
  match ctx with
  | [] => True
  | f :: ctx =>
      rb n (f_sib f)
      /\ match f_col f with
         | Red => col (f_sib f) = Black /\ head_black ctx /\ ctx_rb n ctx
         | Black => ctx_rb (S n) ctx
         end
  end.

(** A tree fits there if it is not red below a red node. *)
Definition fits_color ctx t : Prop := match ctx with f :: _ => f_col f = Red -> col t = Black | [] => True end.

Lemma plug_rb n ctx t : ctx_rb n ctx -> rb n t -> fits_color ctx t ->
  exists N, rb N (plug ctx t) /\ (ctx <> [] -> col (plug ctx t) = Black).
Proof.
  revert n t. induction ctx as [|f ctx IH]; intros n t Hc Ht Hfit; cbn [plug]; [by exists n|].
  destruct Hc as [Hs Hc].
  destruct (f_col f) eqn:E.
  - destruct Hc as (Hb & Hh & Hc). destruct (IH n (fill f t) Hc) as (N & HN & HB).
    + unfold fill. rewrite E. apply rb_mk_red. auto.
    + destruct ctx as [|g ctx]; [done|]. cbn in *. by rewrite Hh.
    + exists N. split; [done|]. intros _. apply HB. by destruct ctx.
  - destruct (IH (S n) (fill f t) Hc) as (N & HN & HB).
    + unfold fill. rewrite E. by apply rb_mk_black.
    + destruct ctx as [|g ctx]; [done|]. intros _. unfold fill. by rewrite col_mk.
    + exists N. split; [done|]. intros _. destruct ctx as [|g ctx]; [|by apply HB]. cbn. unfold fill. by rewrite col_mk.
Qed.

(** Conversely a place in a red-black tree. *)
Lemma rb_plug N ctx t : rb N (plug ctx t) -> (ctx <> [] -> col (plug ctx t) = Black) ->
  exists n, ctx_rb n ctx /\ rb n t /\ fits_color ctx t.
Proof.
  revert t. induction ctx as [|f ctx IH]; intros t H Hb; cbn [plug] in *; [by exists N|].
  destruct (IH (fill f t) H) as (n & Hc & Ht & Hfit); [intros _; by apply Hb|].
  unfold fill in Ht. destruct (f_col f) eqn:E.
  - apply rb_mk_red in Ht as (H1 & H2 & H3 & H4). exists n. cbn [ctx_rb fits_color]. rewrite E. split_and!; try done.
    destruct ctx as [|g ctx]; cbn in *.
    + unfold fill in Hb. rewrite col_mk, E in Hb. by specialize (Hb ltac:(done)).
    + unfold fill in Hfit. rewrite col_mk, E in Hfit. destruct (f_col g); [by specialize (Hfit eq_refl)|done].
  - apply rb_black_inv in Ht as (k & -> & H1 & H2). exists k. cbn [ctx_rb fits_color]. rewrite E. done.
Qed.
Lemma inorder_plug_eq ctx t t' : inorder t' = inorder t -> inorder (plug ctx t') = inorder (plug ctx t).
Proof. intros E. by rewrite !inorder_plug, E. Qed.

Lemma ptr_in_nonleaf t : t <> Leaf -> ptr t ∈ inorder t.
Proof. destruct t; [done|]. cbn. set_solver. Qed.

End invariant.

(** ** The state of a fixup

    The memory [m], reached from [m0] by writing nodes of [l], holds the tree
    [plug ctx t] with the nodes [l] in this order and their data up to date. *)

Section state.
Context {A : Type} {update : option (mem A -> Z -> option (mem A))} {U : Z -> A -> option A -> option A -> A}.
Context `{!Augmented update U}.
Context (m0 : mem A) (l : list Z).
Implicit Types (t : tree A) (ctx : list (frame A)) (m : mem A).

Definition st m ctx t : Prop :=
  zip m ctx t /\ aug_ok (U := U) (plug ctx t) /\ inorder (plug ctx t) = l /\ keeps l m0 m.

Lemma st_near m ctx d c t1 a v t2 : st m ctx (mk d c t1 a v t2) <-> st m (Frame d c a v t2 :: ctx) t1.
Proof using Type*. unfold st. by rewrite zip_near. Qed.
Lemma st_far m ctx d c t1 a v t2 : st m ctx (mk d c t1 a v t2) <-> st m (Frame (opp d) c a v t1 :: ctx) t2.
Proof using Type*. rewrite <- st_near. by rewrite mk_opp. Qed.
Lemma st_down m f ctx t : st m (f :: ctx) t <-> st m ctx (fill f t).
Proof using Type*. unfold st. by rewrite zip_down. Qed.
Lemma st_plug m ctx t : st m ctx t <-> st m [] (plug ctx t).
Proof using Type*. unfold st. by rewrite (zip_plug m ctx t). Qed.

Lemma st_fuel m ctx t : st m ctx t -> fuel_of m = fuel_of m0.
Proof using Type*. intros (_ & _ & _ & K). by eapply keeps_fuel. Qed.

Lemma ctx_in m ctx t a : st m ctx t -> a ∈ ctx_addrs ctx ++ inorder t -> a ∈ l.
Proof using Type*. intros (_ & _ & <- & _) Ha. by rewrite inorder_plug_perm. Qed.

(** A step that only changes the focused subtree. *)
Lemma st_step m m' ctx t t' ks :
  st m ctx t -> zip m' ctx t' -> aug_ok (U := U) (plug ctx t') -> inorder t' = inorder t ->
  keeps ks m m' -> (forall a, a ∈ ks -> a ∈ ctx_addrs ctx ++ inorder t) -> st m' ctx t'.
Proof using Type*.
  intros Hst Hz' Ha' Hi K Hks. pose proof Hst as (Hz & Ha & Hl & K0). split_and!; [done|done| |].
  - rewrite <- Hl. by apply inorder_plug_eq.
  - eapply keeps_trans; [exact K0|]. eapply keeps_mono; [|exact K]. intros a H. by eapply ctx_in; [|apply Hks].
Qed.

Lemma aug_paint ctx k t : aug_ok (U := U) (plug ctx t) -> aug_ok (U := U) (plug ctx (paint k t)).
Proof using Type*.
  intros H. eapply aug_plug_equiv; [exact H| |].
  - apply aug_ok_paint. by eapply aug_ok_plug_inner.
  - intros d b w o. by destruct t.
Qed.

Lemma st_set_black m ctx t : st m ctx t -> t <> Leaf ->
  exists m', rb_node_set_black m (ptr t) = Some m' /\ st m' ctx (paint Black t).
Proof using Type*.
  intros Hst Ht. pose proof Hst as (Hz & Ha & _). destruct (zip_set_black _ _ _ Hz Ht) as (m' & E & Hz' & K).
  exists m'. split; [done|]. eapply st_step; [exact Hst|done|by apply aug_paint|apply inorder_paint|exact K|].
  intros a ->%list_elem_of_singleton. pose proof (ptr_in_nonleaf t Ht). set_solver.
Qed.
Lemma st_set_red m ctx t : st m ctx t -> t <> Leaf ->
  exists m', rb_node_set_red m (ptr t) = Some m' /\ st m' ctx (paint Red t).
Proof using Type*.
  intros Hst Ht. pose proof Hst as (Hz & Ha & _). destruct (zip_set_red _ _ _ Hz Ht) as (m' & E & Hz' & K).
  exists m'. split; [done|]. eapply st_step; [exact Hst|done|by apply aug_paint|apply inorder_paint|exact K|].
  intros a ->%list_elem_of_singleton. pose proof (ptr_in_nonleaf t Ht). set_solver.
Qed.
Lemma st_rotate m ctx d cx cy t1 x vx t2 y vy t3 : st m ctx (mk d cx t1 x vx (mk d cy t2 y vy t3)) ->
  exists m' vx' vy', rb_tree_rotate update d m x = Some m' /\ st m' ctx (mk d cy (mk d cx t1 x vx' t2) y vy' t3).
Proof using Type*.
  intros Hst. pose proof Hst as (Hz & Ha & _).
  destruct (rotate_zip _ _ _ _ _ _ _ _ _ _ _ _ Hz Ha) as (m' & vx' & vy' & E & Hz' & Ha' & K). exists m', vx', vy'. split; [done|].
  eapply st_step; [exact Hst|done|done| |exact K|].
  - symmetry. apply inorder_rotate.
  - intros a. rewrite !inorder_mk. set_solver.
Qed.

(** ** The fixup *)

Lemma ptr_neq m ctx d c t1 a v t2 : zip m ctx (mk d c t1 a v t2) -> t1 <> Leaf -> (ptr t1 =? ptr t2) = false.
Proof using Type*.
  intros Hz H1. apply Z.eqb_neq. pose proof (zip_distinct _ _ _ _ _ _ _ _ Hz) as (_ & _ & _ & D & _).
  pose proof (ptr_in_nonleaf t1 H1) as Hp. intros E. destruct (ptr_in t2) as [E0|E0]; [|rewrite E in *; by apply (D (ptr t2))].
  assert (Hv : valid (ptr t1)) by (eapply zip_valid; [exact Hz|rewrite elem_of_app, inorder_mk; set_solver]).
  destruct Hv. lia.
Qed.

(** The last two cases: [z] is the outer grandchild. *)
Lemma insert_straight m ctx d gg vg u p vp s tz n :
  st m (Frame d Black gg vg u :: ctx) (mk d Red tz p vp s) ->
  rb n tz -> rb n s -> col s = Black -> rb n u -> col u = Black -> ctx_rb (S n) ctx ->
  exists m' f,
    (m ← rb_node_set_black m p; m ← rb_node_set_red m gg; m ← rb_tree_rotate update (opp d) m gg; Some (m, ptr tz))
      = Some (m', ptr tz)
    /\ st m' (f :: ctx) tz /\ ctx_rb n (f :: ctx).
Proof using Type*.
  intros Hst Htz Hs Hsb Hu Hub Hc.
  assert (Hnl : forall e c t1 a (v : A) t2, mk e c t1 a v t2 <> Leaf) by (by intros []).
  destruct (st_set_black _ _ _ Hst (Hnl _ _ _ _ _ _)) as (m1 & E1 & Hst1). rewrite ptr_mk in E1. rewrite E1.
  rewrite paint_mk in Hst1. cbn [mbind option_bind]. apply st_near in Hst1.
  destruct (st_set_red _ _ _ Hst1 (Hnl _ _ _ _ _ _)) as (m2 & E2 & Hst2). rewrite ptr_mk in E2. rewrite E2.
  rewrite paint_mk, <- mk_opp, <- (mk_opp d) in Hst2. cbn [mbind option_bind].
  destruct (st_rotate _ _ _ _ _ _ _ _ _ _ _ _ Hst2) as (m3 & vg' & vp' & E3 & Hst3). rewrite E3. cbn [mbind option_bind].
  apply st_far in Hst3. eexists m3, _. split; [done|]. split; [exact Hst3|]. cbn [ctx_rb f_col f_sib]. split; [|done].
  by apply rb_mk_red.
Qed.

Lemma insert_rotate_st m ctx d1 d2 gg vg u p vp s tz n :
  st m (Frame d1 Red p vp s :: Frame d2 Black gg vg u :: ctx) tz ->
  rb n tz -> col tz = Red -> ctx_rb n (Frame d1 Red p vp s :: Frame d2 Black gg vg u :: ctx) -> col u = Black ->
  exists m' f tz', insert_rotate update d2 m (ptr tz) p gg = Some (m', ptr tz')
    /\ st m' (f :: ctx) tz' /\ col tz' = Red /\ rb n tz' /\ ctx_rb n (f :: ctx).
Proof using Type*.
  intros Hst Htz Hred (Hs & Hsb & _ & Hu & Hc) Hub. cbn [f_sib f_col] in *.
  assert (Hne : tz <> Leaf) by (by intros ->). unfold insert_rotate.
  apply st_down in Hst. unfold fill in Hst. cbn [f_side f_col f_addr f_aug f_sib] in Hst. pose proof Hst as (Hz & _).
  rewrite (zip_load _ _ _ _ _ _ _ _ Hz). cbn [mbind option_bind].
  assert (Hd : d1 = d2 \/ d1 = opp d2) by (destruct d1, d2; auto). destruct Hd as [->| ->].
  - rewrite child_opp_cell, (ptr_neq _ _ _ _ _ _ _ _ Hz Hne). cbn [mbind option_bind].
    destruct (insert_straight _ _ _ _ _ _ _ _ _ _ n Hst) as (m' & f & E & Hst' & Hc'); [done..|]. rewrite E.
    by exists m', f, tz.
  - rewrite child_cell, Z.eqb_refl. destruct (mk_inv d2 tz) as [->|(c & t1 & z & vz & t2 & ->)]; [done|].
    rewrite col_mk in Hred. subst c. apply rb_mk_red in Htz as (H1 & H2 & B1 & B2). rewrite mk_opp in Hst.
    destruct (st_rotate _ _ _ _ _ _ _ _ _ _ _ _ Hst) as (m1 & vp' & vz' & E1 & Hst1). rewrite E1. cbn [mbind option_bind].
    pose proof Hst1 as (Hz1 & _). pose proof (proj1 (zip_near _ _ _ _ _ _ _ _) Hz1) as Hz1p.
    rewrite (zip_parent _ _ _ _ _ _ _ _ Hz1p). cbn [mbind option_bind ctx_parent f_addr].
    rewrite (zip_load _ _ _ _ _ _ _ _ Hz1). cbn [mbind option_bind]. rewrite ptr_mk.
    replace ((p =? n_left _) || (p =? n_right _)) with true
      by (destruct d2; cbn [cell n_left n_right]; by rewrite Z.eqb_refl, ?orb_true_r).
    rewrite (zip_parent _ _ _ _ _ _ _ _ Hz1). cbn [mbind option_bind ctx_parent f_addr].
    destruct (insert_straight _ _ _ _ _ _ _ _ _ _ n Hst1) as (m' & f & E & Hst' & Hc'); [by apply rb_mk_red|done..|].
    rewrite ptr_mk in E. rewrite E. exists m', f, (mk d2 Red s p vp' t1). rewrite ptr_mk. split; [done|]. split; [done|].
    split; [apply col_mk|]. split; [by apply rb_mk_red|done].
Qed.

(** A red uncle: the blackness of the grandparent moves down. *)
Lemma insert_recolor_st m ctx d1 d2 gg vg u p vp s tz n :
  st m (Frame d1 Red p vp s :: Frame d2 Black gg vg u :: ctx) tz ->
  rb n tz -> ctx_rb n (Frame d1 Red p vp s :: Frame d2 Black gg vg u :: ctx) -> col u = Red ->
  exists m' tz', (m ← rb_node_set_black m p; m ← rb_node_set_black m (ptr u); m ← rb_node_set_red m gg; Some (m, gg))
      = Some (m', ptr tz')
    /\ st m' ctx tz' /\ col tz' = Red /\ rb (S n) tz' /\ ctx_rb (S n) ctx.
Proof using Type*.
  intros Hst Htz (Hs & Hsb & _ & Hu & Hc) Hur. cbn [f_sib f_col] in *.
  assert (Hnl : forall e c t1 a (v : A) t2, mk e c t1 a v t2 <> Leaf) by (by intros []).
  apply st_down in Hst. unfold fill in Hst. cbn [f_side f_col f_addr f_aug f_sib] in Hst.
  destruct (st_set_black _ _ _ Hst (Hnl _ _ _ _ _ _)) as (m1 & E1 & Hst1). rewrite ptr_mk in E1. rewrite E1.
  rewrite paint_mk in Hst1. cbn [mbind option_bind]. apply st_near, st_far in Hst1.
  destruct (st_set_black _ _ _ Hst1) as (m2 & E2 & Hst2); [by intros ->|]. rewrite E2. cbn [mbind option_bind].
  apply st_far in Hst2. destruct (st_set_red _ _ _ Hst2 (Hnl _ _ _ _ _ _)) as (m3 & E3 & Hst3). rewrite ptr_mk in E3. rewrite E3.
  rewrite paint_mk in Hst3. cbn [mbind option_bind]. eexists m3, _. split; [|split; [exact Hst3|]].
  - by rewrite ptr_mk.
  - rewrite col_mk. split; [done|]. split; [|done]. apply rb_mk_red. rewrite col_mk.
    split; [by apply rb_mk_black|]. split; [by apply rb_paint|]. split; [done|]. by destruct u.
Qed.

Lemma left_test m ctx d c t1 a v t2 w (v' : A) : zip m ctx (mk d c t1 a v t2) -> t1 <> Leaf ->
  (ptr t1 =? n_left (cell d w (ptr t1) (ptr t2) v')) = match d with L => true | R => false end.
Proof using Type*.
  intros Hz H1. destruct d; cbn [cell n_left]; [apply Z.eqb_refl|]. by eapply ptr_neq.
Qed.

(** A round of the loop; the new [z] is nearer to the root. *)
Lemma insert_round m ctx d1 d2 gg vg u p vp s tz n :
  st m (Frame d1 Red p vp s :: Frame d2 Black gg vg u :: ctx) tz ->
  rb n tz -> col tz = Red -> ctx_rb n (Frame d1 Red p vp s :: Frame d2 Black gg vg u :: ctx) ->
  exists m' ctx' tz' n',
    (cp ← load m p;
     assert! (ptr tz =? n_left cp) || (ptr tz =? n_right cp) ;;
     z_p_p ← rb_node_parent m p;
     assert! negb (z_p_p =? 0) ;;
     cpp ← load m z_p_p;
     if p =? n_left cpp then insert_fixup_side update L m (ptr tz) p z_p_p (n_right cpp)
     else insert_fixup_side update R m (ptr tz) p z_p_p (n_left cpp)) = Some (m', ptr tz')
    /\ st m' ctx' tz' /\ rb n' tz' /\ col tz' = Red /\ ctx_rb n' ctx' /\ (length ctx' <= S (length ctx))%nat.
Proof using Type*.
  intros Hst Htz Hred Hc. pose proof (proj1 (st_down _ _ _ _) Hst) as Hstp. pose proof Hstp as (Hzp & _).
  unfold fill in Hzp. cbn [f_side f_col f_addr f_aug f_sib] in Hzp.
  rewrite (zip_load _ _ _ _ _ _ _ _ Hzp). cbn [mbind option_bind].
  replace ((ptr tz =? n_left _) || (ptr tz =? n_right _)) with true
    by (destruct d1; cbn [cell n_left n_right]; by rewrite Z.eqb_refl, ?orb_true_r).
  rewrite (zip_parent _ _ _ _ _ _ _ _ Hzp). cbn [mbind option_bind ctx_parent f_addr].
  pose proof (proj1 (st_down _ _ _ _) Hstp) as Hstg. pose proof Hstg as (Hzg & _).
  unfold fill in Hzg. cbn [f_side f_col f_addr f_aug f_sib] in Hzg.
  rewrite (valid_neq0 gg) by (by eapply zip_addr). cbn [negb]. rewrite (zip_load _ _ _ _ _ _ _ _ Hzg). cbn [mbind option_bind].
  pose proof (left_test _ _ _ _ _ _ _ _ (word (ctx_parent ctx) Black) vg Hzg) as Hlt. rewrite !ptr_mk in Hlt |- *.
  rewrite Hlt by (by destruct d1). clear Hlt.
  replace (if match d2 with L => true | R => false end then _ else _) with (insert_fixup_side update d2 m (ptr tz) p gg (ptr u))
    by (by destruct d2).
  unfold insert_fixup_side. pose proof (proj1 (zip_far _ _ _ _ _ _ _ _) Hzg) as Hzu.
  rewrite (zip_is_red _ _ _ Hzu). cbn [mbind option_bind]. destruct (col u) eqn:Eu; cbn [is_black negb].
  - destruct (insert_recolor_st _ _ _ _ _ _ _ _ _ _ _ n Hst) as (m' & tz' & E & Hst' & Hr' & Htz' & Hc'); [done..|].
    exists m', ctx, tz', (S n). repeat (split; [done|]). lia.
  - destruct (insert_rotate_st _ _ _ _ _ _ _ _ _ _ _ n Hst) as (m' & f & tz' & E & Hst' & Hr' & Htz' & Hc'); [done..|].
    exists m', (f :: ctx), tz', n. repeat (split; [done|]). cbn. lia.
Qed.

Lemma nonleaf_plug ctx t : t <> Leaf -> plug ctx t <> Leaf.
Proof using Type*.
  revert t. induction ctx as [|f ctx IH]; intros t Ht; cbn; [done|]. apply IH. unfold fill. by destruct (f_side f).
Qed.

Lemma paint_black_id t : col t = Black -> paint Black t = t.
Proof using Type*. destruct t as [|c]; cbn; [done|]. by intros ->. Qed.

Lemma insert_fixup_st fuel : forall m ctx tz n,
  st m ctx tz -> rb n tz -> col tz = Red -> ctx_rb n ctx -> (length ctx < fuel)%nat ->
  exists m' t, insert_fixup update fuel m (ptr tz) = Some m' /\ st m' [] t /\ (exists N, rb N (paint Black t)) /\ t <> Leaf.
Proof using Type*.
  induction fuel as [|fuel IH]; intros m ctx tz n Hst Htz Hred Hc Hlen; [lia|]. cbn [insert_fixup].
  assert (Hne : tz <> Leaf) by (by intros ->). pose proof Hst as (Hz & _).
  assert (Ep : rb_node_parent m (ptr tz) = Some (ctx_parent ctx)).
  { destruct (mk_inv L tz) as [->|(cz & t1 & z & vz & t2 & ->)]; [done|]. rewrite ptr_mk. by eapply zip_parent. }
  rewrite Ep. cbn [mbind option_bind]. destruct ctx as [|f ctx].
  { cbn. exists m, tz. split_and!; [done|done|exists (S n); by apply rb_paint|done]. }
  cbn [ctx_parent].
  pose proof (zip_is_red _ _ _ (proj2 (zip_down _ _ _ _) Hz)) as Er. unfold fill in Er. rewrite ptr_mk, col_mk in Er.
  rewrite Er. cbn [mbind option_bind]. destruct (f_col f) eqn:Ef; cbn [is_black negb].
  - destruct f as [d1 cf p vp s]. cbn in Ef. subst cf. pose proof Hc as (_ & _ & Hh & _).
    destruct ctx as [|[d2 cg gg vg u] ctx]; [done|]. cbn in Hh. subst cg.
    destruct (insert_round _ _ _ _ _ _ _ _ _ _ _ n Hst Htz Hred Hc) as (m' & ctx' & tz' & n' & E & Hst' & Htz' & Hr' & Hc' & Hl).
    cbn [f_addr]. revert E. destruct (load m p) as [cp|]; [|done]. cbn [mbind option_bind]. destruct (_ || _); [|done].
    destruct (rb_node_parent m p) as [q|]; [|done]. cbn [mbind option_bind]. destruct (q =? 0); cbn [negb]; [done|].
    destruct (load m q) as [cq|]; [|done]. cbn [mbind option_bind]. intros E. rewrite E. cbn [mbind option_bind]. apply (IH m' ctx' tz' n'); try done. cbn [length] in Hlen. lia.
  - exists m, (plug (f :: ctx) tz). destruct (plug_rb n (f :: ctx) tz Hc Htz) as (N & HN & HB); [cbn; by rewrite Ef|].
    specialize (HB ltac:(done)). split; [done|]. split; [exact (proj1 (st_plug _ _ _) Hst)|]. split; [|by apply nonleaf_plug].
    exists N. by rewrite paint_black_id.
Qed.
End state.

(** ** Insertion at a place *)

Lemma update_path_none {A} fuel (m : mem A) p m' : update_path None fuel m p = Some m' -> m' = m.
Proof.
  revert p. induction fuel as [|fuel IH]; intros p; cbn [update_path call_update]; [done|].
  destruct (p =? 0); [congruence|]. cbn [mbind option_bind]. destruct (rb_node_parent m p); [|done]. cbn [mbind option_bind]. apply IH.
Qed.

Section insert.
Context {A : Type} {update : option (mem A -> Z -> option (mem A))} {U : Z -> A -> option A -> option A -> A}.
Context `{!Augmented update U}.
Implicit Types (t : tree A) (ctx : list (frame A)) (m : mem A).
Notation reaug := (reaug (U := U)).
Notation aug_ok := (aug_ok (U := U)).

(** A red-black tree with the nodes [l] in order. *)
Definition rb_repr m (l : list Z) : Prop :=
  exists t N, zip m [] t /\ aug_ok t /\ rb N t /\ col t = Black /\ inorder t = l.

Lemma reaug_rb n ctx o : ctx_rb n (reaug ctx o) <-> ctx_rb n ctx.
Proof using Type*.
  revert n o. induction ctx as [|f ctx IH]; intros n o; cbn; [done|].
  destruct (f_col f); rewrite IH; [|done]. by destruct ctx.
Qed.
Lemma reaug_length ctx o : length (reaug ctx o) = length ctx.
Proof using Type*. revert o. induction ctx as [|f ctx IH]; intros o; cbn; [done|]. by rewrite IH. Qed.
Lemma reaug_before ctx o : ctx_before (reaug ctx o) = ctx_before ctx.
Proof using Type*. revert o. induction ctx as [|f ctx IH]; intros o; cbn; [done|]. by rewrite IH. Qed.
Lemma reaug_after ctx o : ctx_after (reaug ctx o) = ctx_after ctx.
Proof using Type*. revert o. induction ctx as [|f ctx IH]; intros o; cbn; [done|]. by rewrite IH. Qed.
Lemma ctx_aug_plug ctx t : aug_ok (plug ctx t) -> ctx_aug (U := U) ctx.
Proof using Type*.
  revert t. induction ctx as [|f ctx IH]; intros t H; cbn in *; [done|]. split; [|by eapply IH].
  apply aug_ok_plug_inner in H. unfold fill in H. by apply aug_ok_mk in H as (_ & _ & H).
Qed.

(** There is enough fuel for the loops along a path. *)
Lemma sub_dom h p t a : sub_ok h p t -> a ∈ inorder t -> a ∈ dom (h : gmap Z (rb_node A)).
Proof using Type*.
  revert p. induction t as [|c l IHl b v r IHr]; intros p; cbn; [set_solver|]. intros (E & Hl & Hr).
  rewrite elem_of_app, elem_of_cons. intros [H|[->|H]]; [by eapply IHl|by eapply elem_of_dom_2|by eapply IHr].
Qed.
Lemma ctx_length ctx : (length ctx <= length (ctx_addrs ctx))%nat.
Proof using Type*. induction ctx as [|f ctx IH]; cbn; [done|]. rewrite length_app. lia. Qed.
Lemma zip_size m ctx t : zip m ctx t -> (length (ctx_addrs ctx) + length (inorder t) <= size (cells m))%nat.
Proof using Type*.
  intros Hz. apply zip_plug in Hz as (_ & _ & Hs & [Hn _]). cbn in Hn.
  assert (E : (length (ctx_addrs ctx) + length (inorder t))%nat = length (inorder (plug ctx t))).
  { rewrite inorder_plug_perm, length_app. done. }
  rewrite E, <- size_dom, <- (size_list_to_set (C := gset Z) (inorder (plug ctx t))) by done. apply subseteq_size.
  intros a Ha. rewrite elem_of_list_to_set in Ha. by eapply sub_dom.
Qed.
Lemma zip_fuel m ctx t : zip m ctx t -> (length ctx < fuel_of m)%nat.
Proof using Type*. intros Hz. pose proof (zip_size _ _ _ Hz). pose proof (ctx_length ctx). unfold fuel_of. lia. Qed.

(** The new node before it is linked. *)
Lemma fresh_node m node n : valid node -> cells m !! node = Some n ->
  (m ← store m node (fun c => RbNode 0 0 0 (n_aug c)); call_update update m node)
  = Some (Mem (root m) (<[node := RbNode 0 0 0 (U node (n_aug n) None None)]> (cells m))).
Proof using Type*.
  intros Hv E. rewrite (store_ok _ _ _ _ (cells_load _ _ _ Hv E)). cbn [mbind option_bind].
  erewrite (update_correct _ node); [|apply cells_load; [done|apply lookup_insert_eq]|by left|by left].
  cbn. by rewrite insert_insert_eq.
Qed.

Definition is_left (d : side) : bool := match d with L => true | R => false end.

(** Linking a fresh node below a node that has no child on this side. *)
Lemma link_node m f ctx node v :
  zip m (f :: ctx) Leaf -> valid node -> node ∉ ctx_addrs (f :: ctx) -> cells m !! node = Some (RbNode 0 0 0 v) ->
  exists m', (c ← load m (f_addr f);
              m ← (if is_left (f_side f) then assert! n_left c =? 0 ;; set_left m (f_addr f) node
                   else assert! n_right c =? 0 ;; set_right m (f_addr f) node);
              rb_node_set_parent m node (f_addr f)) = Some m'
    /\ zip m' (f :: ctx) (Node Red Leaf node v Leaf) /\ keeps [f_addr f; node] m m'.
Proof using Type*.
  intros Hz Hv Hout Cn. pose proof (proj2 (zip_down _ _ _ _) Hz) as Hzp. unfold fill in Hzp.
  pose proof (zip_addr _ _ _ _ _ _ _ _ Hzp) as Vp. pose proof (zip_cell _ _ _ _ _ _ _ _ Hzp) as Cp.
  rewrite (zip_load _ _ _ _ _ _ _ _ Hzp). cbn [mbind option_bind ptr].
  assert (E : (if is_left (f_side f)
               then assert! n_left (cell (f_side f) (word (ctx_parent ctx) (f_col f)) 0 (ptr (f_sib f)) (f_aug f)) =? 0 ;; set_left m (f_addr f) node
               else assert! n_right (cell (f_side f) (word (ctx_parent ctx) (f_col f)) 0 (ptr (f_sib f)) (f_aug f)) =? 0 ;; set_right m (f_addr f) node)
              = set_child (f_side f) m (f_addr f) node) by (by destruct (f_side f)).
  rewrite E. unfold set_child. rewrite (store_ok _ _ _ _ (cells_load _ _ _ Vp Cp)). cbn [mbind option_bind ptr].
  rewrite with_child_cell. cbn [ctx_addrs] in Hout. unfold rb_node_set_parent.
  erewrite store_ok; [|apply cells_load; [done|]; cbn [cells]; rewrite lookup_insert_ne by set_solver; exact Cn].
  eexists. split; [done|]. destruct (valid_aligned _ Vp) as [Hal He].
  assert (Ew : with_parent (Z.lor (Z.land (n_parent (RbNode 0 0 0 v)) 1) (f_addr f)) (RbNode 0 0 0 v) = RbNode (word (f_addr f) Red) 0 0 v).
  { unfold with_parent. cbn. unfold word. by rewrite Z.add_0_r. }
  rewrite Ew. clear E Ew. destruct Hz as (Hr & Hc & _ & Hw). cbn [ctx_ok ctx_root ptr inorder ctx_addrs ctx_parent] in *. rewrite app_nil_r in Hw.
  destruct Hc as (_ & Hs & Hc). pose proof Hw as [Hnd Hval]. rewrite NoDup_cons, NoDup_app in Hnd. destruct Hnd as (N1 & N2 & N3 & N4).
  split.
  - unfold zip. cbn [root cells ctx_ok ctx_root ptr inorder ctx_addrs ctx_parent sub_ok f_addr app]. split_and!; try done.
    + rewrite lookup_insert_ne by set_solver. apply lookup_insert_eq.
    + eapply sub_ok_ext; [|exact Hs]. intros b Hb. rewrite !lookup_insert_ne by set_solver. done.
    + eapply ctx_ok_ext; [|exact Hc]. intros b Hb. rewrite !lookup_insert_ne by set_solver. done.
    + apply lookup_insert_eq.
    + eapply (wf_perm (node :: f_addr f :: inorder (f_sib f) ++ ctx_addrs ctx)); [|split; [constructor; [set_solver|apply Hw]|by constructor]].
      cbn. by rewrite Permutation_cons_append.
  - split; cbn [cells].
    + rewrite !dom_insert_lookup_L; [done|by rewrite Cp|by rewrite lookup_insert_ne, Cn by set_solver].
    + intros b Hb. rewrite !lookup_insert_ne by set_solver. done.
Qed.

(** The rest of the insertion, from the linked node on. *)
Lemma insert_finish m ctx node v n :
  zip m ctx (Node Red Leaf node v Leaf) -> aug_ok (Node Red Leaf node v Leaf) -> ctx_aug (U := U) ctx -> ctx_rb n ctx -> n = O ->
  exists m', (m ← (if update then update_path update (fuel_of m) m (ctx_parent ctx) else Some m);
              m ← insert_fixup update (fuel_of m) m node;
              rb_node_set_black m (root m)) = Some m'
    /\ rb_repr m' (ctx_before ctx ++ node :: ctx_after ctx) /\ keeps (ctx_before ctx ++ node :: ctx_after ctx) m m'.
Proof using Type*.
  intros Hz Ha Hca Hc ->. pose proof (zip_fuel _ _ _ Hz) as Hf. set (t := Node Red Leaf node v Leaf) in *.
  destruct (update_path_zip ctx t m (fuel_of m) Hz Hf) as (m1 & E1 & Hz1 & K1).
  assert (Eu : (if update then update_path update (fuel_of m) m (ctx_parent ctx) else Some m) = Some m1).
  { clear -E1. destruct update; [done|]. by rewrite (update_path_none _ _ _ _ E1). }
  rewrite Eu. cbn [mbind option_bind]. pose proof (aug_ok_reaug ctx t Hca Ha) as Ha1.
  set (ctx' := reaug ctx (taug t)) in *. set (l := ctx_before ctx ++ node :: ctx_after ctx).
  assert (El : inorder (plug ctx' t) = l) by (rewrite inorder_plug; unfold ctx', l; by rewrite reaug_before, reaug_after).
  assert (Hst : st (U := U) m l m1 ctx' t).
  { split_and!; [done..|]. eapply keeps_mono; [|exact K1]. intros a Hin. rewrite <- El, inorder_plug_perm.
    apply elem_of_app. left. unfold ctx'. clear -Hin. revert Hin. generalize (taug t). induction ctx as [|f ctx IH]; intros o; cbn; [done|].
    intros Hin. specialize (IH (Some (on_side (f_side f) (U (f_addr f) (f_aug f)) o (taug (f_sib f))))). set_solver. }
  destruct (insert_fixup_st m l (fuel_of m1) m1 ctx' t 0 Hst) as (m2 & t2 & E2 & Hst2 & (N & HN) & Hne).
  { repeat constructor. } { done. } { by apply reaug_rb. } { unfold ctx'. rewrite reaug_length. rewrite (keeps_fuel _ _ _ K1). done. }
  change (ptr t) with node in E2. rewrite E2. cbn [mbind option_bind].
  destruct (st_set_black m l _ _ _ Hst2 Hne) as (m3 & E3 & Hst3). pose proof Hst2 as ((Hr2 & _) & _). cbn in Hr2. rewrite Hr2, E3.
  destruct Hst3 as (Hz3 & Ha3 & Hl3 & K3). exists m3. split; [done|]. split; [|done].
  exists (paint Black t2), N. split_and!; try done. by destruct t2.
Qed.

Lemma ctx_before_after_perm ctx : ctx_before ctx ++ ctx_after ctx ≡ₚ ctx_addrs ctx.
Proof using Type*.
  pose proof (inorder_plug ctx Leaf) as E. cbn in E. rewrite <- E, inorder_plug_perm. cbn. by rewrite app_nil_r.
Qed.

Lemma insert_at_place m ctx node n0 N il :
  zip m ctx Leaf -> aug_ok (plug ctx Leaf) -> rb N (plug ctx Leaf) -> col (plug ctx Leaf) = Black ->
  valid node -> node ∉ ctx_addrs ctx -> cells m !! node = Some n0 ->
  match ctx with [] => True | f :: _ => il = is_left (f_side f) end ->
  exists m', rb_augmented_tree_insert_at update m (ctx_parent ctx) node il = Some m'
    /\ rb_repr m' (ctx_before ctx ++ node :: ctx_after ctx) /\ keeps (ctx_before ctx ++ node :: ctx_after ctx) m m'.
Proof using Type*.
  intros Hz Ha Hrb Hcol Hv Hout Cn Hil. destruct (rb_plug _ _ _ Hrb ltac:(done)) as (n & Hc & Hn & _). inversion Hn; subst n.
  pose proof (fresh_node m node n0 Hv Cn) as Ef. unfold rb_augmented_tree_insert_at.
  destruct (store m node _) as [m1|]; [|done]. cbn [mbind option_bind] in Ef |- *. rewrite Ef. cbn [mbind option_bind]. clear Ef m1.
  set (v := U node (n_aug n0) None None). set (m1 := Mem _ _).
  assert (C1 : cells m1 !! node = Some (RbNode 0 0 0 v)) by apply lookup_insert_eq.
  assert (Hleaf : aug_ok (Node Red Leaf node v Leaf)).
  { cbn. split; [|done]. unfold v. symmetry. apply (update_again (Augmented := Augmented0)). }
  destruct ctx as [|f ctx].
  - destruct Hz as (Hr & _). cbn in Hr |- *. rewrite Hr. cbn [Z.eqb]. unfold rb_node_set_black.
    erewrite store_ok; [|apply cells_load; [done|exact C1]]. eexists. split; [done|]. split.
    + exists (Node Black Leaf node v Leaf), 1%nat. split; [|split; [exact Hleaf|split; [repeat constructor|done]]].
      unfold zip. cbn. rewrite insert_insert_eq. split; [done|]. split; [done|]. split; [split; [apply lookup_insert_eq|done]|].
      split; [apply NoDup_singleton|by constructor].
    + cbn. rewrite insert_insert_eq. eapply (keeps_insert _ m); [set_solver|exact Cn].
  - assert (Hz1 : zip m1 (f :: ctx) Leaf).
    { destruct Hz as (Hr & Hc0 & _ & Hw). split_and!; [done| |done|done]. eapply ctx_ok_ext; [|exact Hc0].
      intros b Hb. apply lookup_insert_ne. set_solver. }
    pose proof (proj2 (zip_down _ _ _ _) Hz1) as Hzp. unfold fill in Hzp. cbn [ctx_parent].
    rewrite (valid_neq0 (f_addr f)) by (by eapply zip_addr). destruct (link_node m1 f ctx node v Hz1 Hv Hout C1) as (m2 & E2 & Hz2 & K2).
    subst il. destruct (insert_finish m2 (f :: ctx) node v 0 Hz2 Hleaf) as (m3 & E3 & Hrep & K3); [by eapply ctx_aug_plug|done|done|].
    exists m3. split.
    + revert E2. destruct (load m1 (f_addr f)) as [c|]; [|done]. cbn [mbind option_bind]. destruct (if is_left _ then _ else _) as [m4|]; [|done].
      cbn [mbind option_bind]. intros E2. rewrite E2. cbn [mbind option_bind]. exact E3.
    + split; [done|]. assert (Hin : forall a, a ∈ [f_addr f; node] -> a ∈ ctx_before (f :: ctx) ++ node :: ctx_after (f :: ctx)).
      { intros a Hin. rewrite <- Permutation_middle, ctx_before_after_perm. cbn. set_solver. }
      eapply keeps_trans; [|exact K3]. eapply keeps_trans; [|eapply keeps_mono; [exact Hin|exact K2]].
      eapply (keeps_insert _ m); [apply Hin; set_solver|exact Cn].
Qed.

(** ** The search for the place *)

Section order.
Context (cmp : Z -> Z -> Z) (le : Z -> Z -> Prop).

Lemma insert_search_place m node fuel : forall ctx t il,
  zip m ctx t -> (length (inorder t) < fuel)%nat -> match ctx with [] => True | f :: _ => il = is_left (f_side f) end ->
  exists ctx' il', insert_search cmp fuel m node (ptr t) (ctx_parent ctx) il = Some (ctx_parent ctx', il')
    /\ zip m ctx' Leaf /\ plug ctx' Leaf = plug ctx t
    /\ match ctx' with [] => True | f :: _ => il' = is_left (f_side f) end
    /\ ((forall a b, a ∈ inorder t -> b ∈ inorder t -> le a b -> cmp a node < 0 -> cmp b node < 0) ->
        StronglySorted le (inorder t) ->
        exists l1 l2, inorder t = l1 ++ l2 /\ ctx_before ctx' = ctx_before ctx ++ l1 /\ ctx_after ctx' = l2 ++ ctx_after ctx
          /\ Forall (fun a => 0 <= cmp a node) l1 /\ Forall (fun a => cmp a node < 0) l2).
Proof using Type*.
  induction fuel as [|fuel IH]; intros ctx t il Hz Hf Hil; [lia|]. cbn [insert_search].
  destruct t as [|c l a v r].
  { exists ctx, il. split_and!; try done. intros _ _. exists [], []. split_and!; [done|by rewrite app_nil_r|done..]. }
  cbn [ptr]. rewrite (valid_neq0 a) by (by eapply (zip_addr m ctx L c l a v r)).
  rewrite (zip_load m ctx L c l a v r Hz). cbn [mbind option_bind cell n_left n_right]. cbn [inorder] in Hf. rewrite length_app in Hf. cbn in Hf.
  destruct (Z.ltb_spec (cmp a node) 0) as [Hlt|Hge].
  - apply (zip_near m ctx L c l a v r) in Hz. destruct (IH _ l true Hz ltac:(lia) eq_refl) as (ctx' & il' & E & Hz' & Hp & Hil' & Hord).
    exists ctx', il'. split_and!; [done|done|done|done|]. intros Hmono Hs. cbn [inorder] in *.
    apply StronglySorted_app in Hs as (Hlr & Hsl & Hsr). apply StronglySorted_inv in Hsr as [Hsr Har].
    destruct Hord as (l1 & l2 & El & Eb & Ea & F1 & F2); [intros; eapply Hmono; set_solver|done|].
    exists l1, (l2 ++ a :: inorder r). cbn in Eb, Ea. rewrite app_nil_r in Eb. split_and!; try done.
    + rewrite El, <- app_assoc. done.
    + rewrite Ea, <- app_assoc. done.
    + apply Forall_app. split; [done|]. constructor; [done|]. rewrite Forall_forall in *. intros b Hb.
      apply (Hmono a b); [set_solver|set_solver|by apply Har|done].
  - apply (zip_far m ctx L c l a v r) in Hz. destruct (IH _ r false Hz ltac:(lia) eq_refl) as (ctx' & il' & E & Hz' & Hp & Hil' & Hord).
    exists ctx', il'. split_and!; [done|done|done|done|]. intros Hmono Hs. cbn [inorder] in *.
    apply StronglySorted_app in Hs as (Hlr & Hsl & Hsr). apply StronglySorted_inv in Hsr as [Hsr Har].
    destruct Hord as (l1 & l2 & El & Eb & Ea & F1 & F2); [intros; eapply Hmono; set_solver|done|].
    exists (inorder l ++ a :: l1), l2. cbn in Eb, Ea. split_and!; try done.
    + rewrite El, <- app_assoc. done.
    + rewrite Eb, <- !app_assoc. done.
    + apply Forall_app. split; [|by constructor]. rewrite Forall_forall. intros b Hb.
      destruct (Z_lt_le_dec (cmp b node) 0) as [Hb0|]; [|done]. assert (cmp a node < 0); [|lia].
      apply (Hmono b a); [set_solver|set_solver|apply (Hlr b a); set_solver|done].
Qed.
End order.
End insert.

(** ** Insertion *)

(** A comparison function for [rb_tree_insert], and the order it stands for: [cmp a b < 0]
    says that [b] belongs to the left of [a]. *)
Class TreeOrder (cmp : Z -> Z -> Z) (le : Z -> Z -> Prop) : Prop := {
  cmp_le a b : 0 <= cmp a b -> le a b;
  cmp_ge a b : cmp a b < 0 -> le b a;
  cmp_mono a b c : le a b -> cmp a c < 0 -> cmp b c < 0
}.

Section insert_order.
Context {A : Type} {update : option (mem A -> Z -> option (mem A))} {U : Z -> A -> option A -> option A -> A}.
Context `{!Augmented update U}.
Context {cmp : Z -> Z -> Z} {le : Z -> Z -> Prop} `{!TreeOrder cmp le}.

Lemma sorted_insert l1 l2 node : StronglySorted le (l1 ++ l2) ->
  Forall (fun a => 0 <= cmp a node) l1 -> Forall (fun a => cmp a node < 0) l2 -> StronglySorted le (l1 ++ node :: l2).
Proof using Type*.
  rewrite !StronglySorted_app. intros (H12 & H1 & H2) F1 F2. rewrite Forall_forall in F1. split_and!.
  - intros a b Ha [->|Hb]%elem_of_cons; [|by apply H12]. apply cmp_le. by apply F1.
  - done.
  - constructor; [done|]. eapply Forall_impl; [exact F2|]. intros b Hb. by apply cmp_ge.
Qed.

Lemma insert_repr (m : mem A) l node n0 :
  rb_repr (U := U) m l -> StronglySorted le l -> valid node -> node ∉ l -> cells m !! node = Some n0 ->
  exists m' l1 l2, rb_augmented_tree_insert update cmp m node = Some m' /\ l = l1 ++ l2
    /\ rb_repr (U := U) m' (l1 ++ node :: l2) /\ StronglySorted le (l1 ++ node :: l2)
    /\ Forall (fun a => 0 <= cmp a node) l1 /\ Forall (fun a => cmp a node < 0) l2
    /\ (forall a, a ∉ node :: l -> cells m' !! a = cells m !! a) /\ dom (cells m') = dom (cells m).
Proof using Type*.
  intros (t & N & Hz & Ha & Hrb & Hcol & <-) Hs Hv Hout Cn.
  pose proof (zip_size _ _ _ Hz) as Hsz. cbn in Hsz.
  destruct (insert_search_place cmp le m node (fuel_of m) [] t false Hz) as (ctx & il & E & Hz' & Hp & Hil & Hord).
  { unfold fuel_of. lia. } { done. }
  destruct Hord as (l1 & l2 & El & Eb & Ea & F1 & F2); [intros a b _ _; apply cmp_mono|done|]. cbn in Eb, Ea, Hp. rewrite app_nil_r in Ea.
  rewrite <- Hp in *. assert (Hperm : ctx_addrs ctx ≡ₚ l1 ++ l2) by (by rewrite <- Eb, <- Ea, ctx_before_after_perm).
  destruct (insert_at_place m ctx node n0 N il) as (m' & E' & Hrep & K); try done.
  { rewrite Hperm, <- El. done. }
  exists m', l1, l2. rewrite Eb, Ea in *. unfold rb_augmented_tree_insert. destruct Hz as (Hr & _). cbn in Hr. rewrite Hr.
  cbn [ctx_parent] in E. rewrite E. cbn [mbind option_bind]. rewrite El in *. destruct K as [K1 K2].
  split_and!; try done; [by apply sorted_insert|]. intros a Hna. apply K2. set_solver.
Qed.
End insert_order.

(** C14: Inserting a node with [rb_tree_insert] or [rb_augmented_tree_insert] into a red-black tree in
    memory succeeds (no assertion fails, no dangling node is read, every loop ends) and
    leaves a red-black tree: the new node is after all nodes that are not greater and before
    all greater ones, the others keep their order, the colours satisfy the invariant
    again, the augmented data of every node is up to date, and nothing else is written. *)
Theorem rb_augmented_tree_insert_correct {A} (update : option (mem A -> Z -> option (mem A)))
    (U : Z -> A -> option A -> option A -> A) (cmp : Z -> Z -> Z) (le : Z -> Z -> Prop) (m : mem A) l node n0 :
  Augmented update U -> TreeOrder cmp le ->
  rb_repr (U := U) m l -> StronglySorted le l -> valid node -> node ∉ l -> cells m !! node = Some n0 ->
  exists m' l1 l2, rb_augmented_tree_insert update cmp m node = Some m' /\ l = l1 ++ l2
    /\ rb_repr (U := U) m' (l1 ++ node :: l2) /\ StronglySorted le (l1 ++ node :: l2)
    /\ Forall (fun a => 0 <= cmp a node) l1 /\ Forall (fun a => cmp a node < 0) l2
    /\ (forall a, a ∉ node :: l -> cells m' !! a = cells m !! a).
Proof.
  intros Hu Ho Hrep Hs Hv Hout Cn.
  destruct (insert_repr m l node n0 Hrep Hs Hv Hout Cn) as (m' & l1 & l2 & H). exists m', l1, l2. tauto.
Qed.

(** Keys that are the addresses. *)
Definition addr_cmp (a b : Z) : Z := b - a.
#[export] Instance addr_order : TreeOrder addr_cmp Z.le.
Proof. split; unfold addr_cmp; lia. Qed.

Definition two_nodes : mem unit :=
  Mem 32 {[ 16 := RbNode 32 0 0 tt; 32 := RbNode 1 16 0 tt; 48 := RbNode 0 0 0 tt; 20 := RbNode 0 0 0 tt ]}.

Lemma two_nodes_repr : rb_repr (U := fun _ v _ _ => v) two_nodes [16; 32].
Proof.
  exists (Node Black (Node Red Leaf 16 tt Leaf) 32 tt Leaf), 1%nat.
  split; [|split; [done|split; [repeat constructor|done]]]. split; [done|]. split; [done|]. split; [done|].
  split; [by apply (bool_decide_unpack _)|]. repeat (constructor; [split; [lia|done]|]). constructor.
Qed.

Lemma rb_augmented_tree_insert_witness :
  exists m' l1 l2, rb_augmented_tree_insert None addr_cmp two_nodes 20 = Some m' /\ [16; 32] = l1 ++ l2
    /\ rb_repr (U := fun _ v _ _ => v) m' (l1 ++ 20 :: l2) /\ StronglySorted Z.le (l1 ++ 20 :: l2)
    /\ Forall (fun a => 0 <= addr_cmp a 20) l1 /\ Forall (fun a => addr_cmp a 20 < 0) l2
    /\ (forall a, a ∉ [20; 16; 32] -> cells m' !! a = cells two_nodes !! a).
Proof.
  apply (rb_augmented_tree_insert_correct None (fun _ v _ _ => v) addr_cmp Z.le two_nodes [16; 32] 20 (RbNode 0 0 0 tt)).
  - apply no_update.
  - apply addr_order.
  - apply two_nodes_repr.
  - repeat constructor; lia.
  - split; [lia|reflexivity].
  - intros H. repeat (apply elem_of_cons in H as [H|H]; [lia|]). by apply not_elem_of_nil in H.
  - reflexivity.
Defined.
