(* ===== verification/RbRemove.v ===== *)
(** * Removal from the red-black tree (src/util/rb_tree.c: rb_augmented_tree_remove)

    The node is unlinked, or its successor takes its place; then the fixup restores the
    number of black nodes on the paths.  The two mirrored branches of the fixup are one
    definition with the side as a parameter, as in RbTree.v. *)

From Stdlib Require Import ZArith Lia.
From stdpp Require Import base list gmap numbers option sets.
From S2P Require Import Prelude RbTree RbInsert.
Local Open Scope Z_scope.

Section remove.
Context {A : Type} (update : option (mem A -> Z -> option (mem A))).
Implicit Types (m : mem A).

(** Moving [y], which has no left child, to the place of [z]. *)
Definition replace_by (m : mem A) (z y : Z) : option (mem A) :=
  cy ← load m y;
  assert! n_left cy =? 0 ;;
  m ← rb_tree_splice m z y;
  cz ← load m z;
  m ← set_left m y (n_left cz);
  cy ← load m y;
  m ← rb_node_set_parent m (n_left cy) y;
  rb_node_copy_color m y z.

(** Unlinking [z]: the memory, [x], [x_p] and [y_was_black]. *)
Definition remove_unlink (m : mem A) (z : Z) : option (mem A * Z * Z * bool) :=
  y_was_black ← rb_node_is_black m z;
  cz ← load m z;
  if n_left cz =? 0 then
    let x := n_right cz in
    x_p ← rb_node_parent m z;
    m ← rb_tree_splice m z x;
    Some (m, x, x_p, y_was_black)
  else if n_right cz =? 0 then
    let x := n_left cz in
    x_p ← rb_node_parent m z;
    m ← rb_tree_splice m z x;
    Some (m, x, x_p, y_was_black)
  else
    y ← rb_node_minimum m (n_right cz);
    y_was_black ← rb_node_is_black m y;
    cy ← load m y;
    let x := n_right cy in
    y_p ← rb_node_parent m y;
    '(m, x_p) ← (if y_p =? z then Some (m, y)
                 else
                   m ← rb_tree_splice m y x;
                   cz ← load m z;
                   m ← set_right m y (n_right cz);
                   cy ← load m y;
                   m ← rb_node_set_parent m (n_right cy) y;
                   Some (m, y_p));
    m ← replace_by m z y;
    Some (m, x, x_p, y_was_black).

(** A round of the fixup, [x] being the child of [x_p] on side [d]: the new [x]. *)
Definition remove_fixup_side (d : side) (m : mem A) (x x_p : Z) : option (mem A * Z) :=
  cp ← load m x_p;
  let w := child (opp d) cp in
  red ← rb_node_is_red m w;
  '(m, w) ← (if (red : bool) then
               m ← rb_node_set_black m w;
               m ← rb_node_set_red m x_p;
               m ← rb_tree_rotate update d m x_p;
               cp ← load m x_p;
               assert! x =? child d cp ;;
               Some (m, child (opp d) cp)
             else Some (m, w));
  cw ← load m w;
  near ← rb_node_is_black m (child d cw);
  both ← (if (near : bool) then rb_node_is_black m (child (opp d) cw) else Some false);
  if (both : bool) then
    m ← rb_node_set_red m w;
    Some (m, x_p)
  else
    far ← rb_node_is_black m (child (opp d) cw);
    '(m, w) ← (if (far : bool) then
                 m ← rb_node_set_black m (child d cw);
                 m ← rb_node_set_red m w;
                 m ← rb_tree_rotate update (opp d) m w;
                 cp ← load m x_p;
                 Some (m, child (opp d) cp)
               else Some (m, w));
    m ← rb_node_copy_color m w x_p;
    m ← rb_node_set_black m x_p;
    cw ← load m w;
    m ← rb_node_set_black m (child (opp d) cw);
    m ← rb_tree_rotate update d m x_p;
    Some (m, root m).

Fixpoint remove_fixup (fuel : nat) (m : mem A) (x x_p : Z) : option (mem A * Z) :=
  match fuel with
  | O => None
  | S fuel =>
      go ← (if x =? root m then Some false else rb_node_is_black m x);
      if negb go then Some (m, x)
      else
        cp ← load m x_p;
        '(m, x) ← (if x =? n_left cp then remove_fixup_side L m x x_p else remove_fixup_side R m x x_p);
        x_p ← rb_node_parent m x;
        remove_fixup fuel m x x_p
  end.

Definition rb_augmented_tree_remove (m : mem A) (z : Z) : option (mem A) :=
  '(m, x, x_p, y_was_black) ← remove_unlink m z;
  ok ← (if x_p =? 0 then Some true else cp ← load m x_p; Some ((x =? n_left cp) || (x =? n_right cp)));
  assert! ok ;;
  m ← (if update then update_path update (fuel_of m) m x_p else Some m);
  if negb y_was_black then Some m
  else
    '(m, x) ← remove_fixup (fuel_of m) m x x_p;
    if x =? 0 then Some m else rb_node_set_black m x.
End remove.

Definition rb_tree_remove {A} : mem A -> Z -> option (mem A) := rb_augmented_tree_remove None.

(** ** The minimum of a subtree *)

Section extreme.
Context {A : Type}.
Implicit Types (t : tree A) (ctx : list (frame A)) (m : mem A).

Lemma extreme_place d m fuel : forall ctx t, zip m ctx t -> t <> Leaf -> (length (inorder t) <= fuel)%nat ->
  exists ctx' c a v t2, extreme_loop d fuel m (ptr t) = Some a
    /\ t = plug ctx' (mk d c Leaf a v t2) /\ zip m (ctx' ++ ctx) (mk d c Leaf a v t2)
    /\ Forall (fun f => f_side f = d) ctx'.
Proof.
  induction fuel as [|fuel IH]; intros ctx t Hz Ht Hf; destruct (mk_inv d t) as [->|(c & t1 & a & v & t2 & ->)]; try done;
    rewrite inorder_mk in Hf; cbn [length] in Hf; [lia|].
  rewrite ptr_mk. cbn [extreme_loop]. rewrite (zip_load _ _ _ _ _ _ _ _ Hz). cbn [mbind option_bind]. rewrite child_cell.
  pose proof (proj1 (zip_near _ _ _ _ _ _ _ _) Hz) as Hz1. rewrite (zip_ptr0 _ _ _ Hz1).
  assert (Hd : t1 = Leaf \/ t1 <> Leaf) by (destruct t1; auto). destruct Hd as [->|Hne].
  - exists [], c, a, v, t2. done.
  - replace (match t1 with Leaf => true | Node _ _ _ _ _ => false end) with false by (by destruct t1).
    destruct (IH _ t1 Hz1) as (ctx' & c' & a' & v' & t2' & E & Et & Hz' & Hs); [done|rewrite length_app in Hf; lia|].
    exists (ctx' ++ [Frame d c a v t2]), c', a', v', t2'. split; [done|]. split; [|split].
    + assert (Hpl : forall (s : tree A), plug (ctx' ++ [Frame d c a v t2]) s = mk d c (plug ctx' s) a v t2).
      { clear. induction ctx' as [|f ctx' IH]; intros s; [done|]. cbn. apply IH. }
      rewrite Hpl, <- Et. done.
    + by rewrite <- app_assoc.
    + apply Forall_app. split; [done|]. by constructor.
Qed.

Lemma plug_app ctx1 ctx2 t : plug (ctx1 ++ ctx2) t = plug ctx2 (plug ctx1 t).
Proof. revert t. induction ctx1 as [|f ctx1 IH]; intros t; cbn; [done|]. apply IH. Qed.
Lemma ctx_addrs_app ctx1 ctx2 : ctx_addrs (ctx1 ++ ctx2) = ctx_addrs ctx1 ++ ctx_addrs ctx2.
Proof. induction ctx1 as [|f ctx1 IH]; cbn; [done|]. by rewrite IH, <- app_assoc. Qed.
Lemma zip_app m ctx1 ctx2 t : zip m (ctx1 ++ ctx2) t <-> zip m ctx2 (plug ctx1 t).
Proof. revert t. induction ctx1 as [|f ctx1 IH]; intros t; cbn; [done|]. rewrite <- zip_down. apply IH. Qed.
End extreme.

(** ** Unlinking *)

Section unlink.
Context {A : Type}.
Implicit Types (t l r : tree A) (ctx : list (frame A)) (m : mem A).

Lemma ctx_parent_aligned ctx : Forall valid (ctx_addrs ctx) -> aligned (ctx_parent ctx).
Proof. destruct ctx as [|f ctx]; [done|]. cbn. intros H. apply Forall_cons in H as [H _]. by apply valid_aligned. Qed.

(** The writes after the splice: the left subtree of [z] goes to [y], and the colour. *)
Lemma replace_links m ctx c k l z v r y vy q :
  root m = ctx_root ctx y -> ctx_ok (cells m) ctx y -> l <> Leaf ->
  cells m !! z = Some (RbNode (word q c) (ptr l) (ptr r) v) -> aligned q ->
  forall r', cells m !! y = Some (RbNode (word (ctx_parent ctx) k) 0 (ptr r') vy) ->
  sub_ok (cells m) z l -> sub_ok (cells m) y r' -> wf (ctx_addrs ctx ++ z :: y :: inorder l ++ inorder r') ->
  exists m', (cz ← load m z; m ← set_left m y (n_left cz); cy ← load m y;
              m ← rb_node_set_parent m (n_left cy) y; rb_node_copy_color m y z) = Some m'
    /\ zip m' ctx (Node c l y vy r') /\ keeps (y :: inorder l) m m'.
Proof.
  intros Hr Hc Hl Cz [Hq Hqe] r' Cy Sl Sr Hw. pose proof Hw as [Hnd Hval]. rewrite !NoDup_app, !NoDup_cons, !NoDup_app in Hnd.
  destruct Hnd as (Hn0 & D0 & D1 & D2 & Hnl & D3 & Hnr). rewrite !Forall_app, !Forall_cons, Forall_app in Hval.
  destruct Hval as (V0 & Vz & Vy & Vl & Vr). destruct (ctx_parent_aligned _ V0) as [Hp Hpe]. destruct (valid_aligned y Vy) as [Hy Hye].
  rewrite (cells_load _ _ _ Vz Cz). cbn [mbind option_bind n_left]. unfold set_left, set_child.
  rewrite (store_ok _ _ _ _ (cells_load _ _ _ Vy Cy)). cbn [mbind option_bind with_child n_parent n_right n_aug].
  set (m1 := Mem _ _). assert (C1y : cells m1 !! y = Some (RbNode (word (ctx_parent ctx) k) (ptr l) (ptr r') vy)) by apply lookup_insert_eq.
  assert (K1 : keeps [y] m m1) by (eapply keeps_insert; [set_solver|exact Cy]).
  rewrite (cells_load _ _ _ Vy C1y). cbn [mbind option_bind n_left].
  destruct (set_parent_sub m1 z y l) as (m2 & E2 & S2 & R2 & K2).
  { eapply sub_ok_ext; [|exact Sl]. intros b Hb. apply K1. set_solver. } { done. } { by apply valid_aligned. } { done. }
  assert (Hl0 : (ptr l =? 0) = false) by (destruct l; [done|]; apply valid_neq0; cbn in Vl; rewrite Forall_app, Forall_cons in Vl; tauto).
  rewrite Hl0 in E2. rewrite E2. cbn [mbind option_bind]. unfold rb_node_copy_color.
  assert (C2z : cells m2 !! z = Some (RbNode (word q c) (ptr l) (ptr r) v)).
  { rewrite (proj2 K2), (proj2 K1) by set_solver. done. }
  assert (C2y : cells m2 !! y = Some (RbNode (word (ctx_parent ctx) k) (ptr l) (ptr r') vy)) by (rewrite (proj2 K2) by set_solver; done).
  rewrite (cells_load _ _ _ Vz C2z). cbn [mbind option_bind]. rewrite (store_ok _ _ _ _ (cells_load _ _ _ Vy C2y)).
  cbn [n_parent]. rewrite land_word_not_one, land_word_1, lor_color by (done || lia). eexists. split; [done|]. split.
  - unfold zip. cbn [root cells ptr sub_ok inorder]. split; [by rewrite R2|]. split; [|split; [split; [|split]|]].
    + eapply ctx_ok_ext; [|exact Hc]. intros b Hb. cbn. rewrite lookup_insert_ne, (proj2 K2), (proj2 K1) by set_solver. done.
    + apply lookup_insert_eq.
    + eapply sub_ok_ext; [|exact S2]. intros b Hb. apply lookup_insert_ne. set_solver.
    + eapply sub_ok_ext; [|exact Sr]. intros b Hb. rewrite lookup_insert_ne, (proj2 K2), (proj2 K1) by set_solver. done.
    + eapply (wf_app [z]). eapply wf_perm; [|exact Hw]. cbn. rewrite <- !Permutation_middle. solve_Permutation.
  - apply (keeps_trans _ _ m1); [eapply keeps_mono; [|exact K1]; set_solver|].
    apply (keeps_trans _ _ m2); [eapply keeps_mono; [|exact K2]; set_solver|]. eapply keeps_insert; [set_solver|exact C2y].
Qed.

Lemma replace_by_zip m ctx c k l z v r y vy q r' :
  root m = ctx_root ctx z -> ctx_ok (cells m) ctx z -> l <> Leaf ->
  cells m !! z = Some (RbNode (word (ctx_parent ctx) c) (ptr l) (ptr r) v) ->
  cells m !! y = Some (RbNode (word q k) 0 (ptr r') vy) -> aligned q ->
  sub_ok (cells m) z l -> sub_ok (cells m) y r' -> wf (ctx_addrs ctx ++ z :: y :: inorder l ++ inorder r') ->
  exists m', replace_by m z y = Some m' /\ zip m' ctx (Node c l y vy r') /\ keeps (ctx_addrs ctx ++ y :: inorder l) m m'.
Proof.
  intros Hr Hc Hl Cz Cy [Hq Hqe] Sl Sr Hw. pose proof Hw as [Hnd Hval]. rewrite !NoDup_app, !NoDup_cons, !NoDup_app in Hnd.
  destruct Hnd as (Hn0 & D0 & D1 & D2 & Hnl & D3 & Hnr). rewrite !Forall_app, !Forall_cons in Hval.
  destruct Hval as (V0 & Vz & Vy & _). pose proof (ctx_parent_aligned _ V0) as Hal.
  unfold replace_by. rewrite (cells_load _ _ _ Vy Cy). cbn [mbind option_bind n_left]. change (0 =? 0) with true. cbv iota.
  destruct (splice_ctx m ctx z y (RbNode (word (ctx_parent ctx) c) (ptr l) (ptr r) v) c Hr Hc Vz) as (m1 & R1 & C1 & K1 & ->); [set_solver|done|exact Cz|done|].
  rewrite (valid_neq0 y Vy). unfold rb_node_set_parent.
  assert (C1y : cells m1 !! y = Some (RbNode (word q k) 0 (ptr r') vy)) by (rewrite (proj2 K1) by set_solver; done).
  rewrite (store_ok _ _ _ _ (cells_load _ _ _ Vy C1y)). cbn [mbind option_bind n_parent]. unfold with_parent. cbn [n_left n_right n_aug].
  destruct Hal as [Hp Hpe]. rewrite with_parent_color by (done || lia).
  set (m2 := Mem _ _). assert (K2 : keeps [y] m1 m2) by (eapply keeps_insert; [set_solver|exact C1y]).
  destruct (replace_links m2 ctx c k l z v r y vy (ctx_parent ctx)) with (r' := r') as (m3 & E3 & Z3 & K3).
  { done. }
  { eapply ctx_ok_ext; [|exact C1]. intros b Hb. apply K2. set_solver. }
  { done. }
  { rewrite (proj2 K2), (proj2 K1) by set_solver. done. }
  { done. }
  { apply lookup_insert_eq. }
  { eapply sub_ok_ext; [|exact Sl]. intros b Hb. rewrite (proj2 K2), (proj2 K1) by set_solver. done. }
  { eapply sub_ok_ext; [|exact Sr]. intros b Hb. rewrite (proj2 K2), (proj2 K1) by set_solver. done. }
  { done. }
  exists m3. split; [exact E3|]. split; [done|]. apply (keeps_trans _ _ m1); [eapply keeps_mono; [|exact K1]; set_solver|].
  apply (keeps_trans _ _ m2); [eapply keeps_mono; [|exact K2]; set_solver|]. eapply keeps_mono; [|exact K3]. set_solver.
Qed.
End unlink.

(** The tree without the node: [x] is at the place [ctx'], and [k] is the colour that is
    missing there. *)
Section unlinked.
Context {A : Type}.
Implicit Types (t l r x : tree A) (ctx : list (frame A)) (m : mem A).

Inductive unlinked ctx (c : color) l (z : Z) (v : A) r : list (frame A) -> tree A -> color -> Prop :=
| unlinked_right : l = Leaf -> unlinked ctx c l z v r ctx r c
| unlinked_left : r = Leaf -> unlinked ctx c l z v r ctx l c
| unlinked_min rctx k y vy x :
    r = plug rctx (Node k Leaf y vy x) -> Forall (fun f => f_side f = L) rctx ->
    unlinked ctx c l z v r (rctx ++ Frame R c y vy l :: ctx) x k.

Lemma ctx_before_L ctx : Forall (fun f => f_side f = L) ctx -> ctx_before ctx = [].
Proof. induction 1 as [|f ctx Hf _ IH]; [done|]. cbn. by rewrite IH, Hf. Qed.

Lemma unlinked_inorder ctx c l z v r ctx' x k : unlinked ctx c l z v r ctx' x k ->
  inorder (plug ctx' x) = ctx_before ctx ++ inorder l ++ inorder r ++ ctx_after ctx.
Proof.
  destruct 1 as [->| ->|rctx k y vy x -> Hs].
  - rewrite inorder_plug. done.
  - rewrite inorder_plug. done.
  - rewrite plug_app. cbn [plug fill mk f_side f_col f_addr f_aug f_sib]. unfold fill. cbn [mk f_side f_col f_addr f_aug f_sib].
    rewrite inorder_plug. cbn [inorder]. rewrite !inorder_plug, (ctx_before_L rctx Hs). cbn [inorder app].
    rewrite <- !app_assoc. cbn. by rewrite <- ?app_assoc.
Qed.

Lemma ctx_rb_move n rctx c y y' (v v' : A) l ctx :
  ctx_rb n (rctx ++ Frame R c y v l :: ctx) -> ctx_rb n (rctx ++ Frame R c y' v' l :: ctx).
Proof.
  revert n. induction rctx as [|f rctx IH]; intros n; cbn [app ctx_rb]; [done|]. intros [Hs H]. split; [done|].
  destruct (f_col f); [|by apply IH]. destruct H as (H1 & H2 & H3). split_and!; [done| |by apply IH]. by destruct rctx.
Qed.

(** The place lacks a black node, or nothing. *)
Definition lacks (k : color) n ctx x : Prop :=
  rb n x /\ match k with Black => ctx_rb (S n) ctx | Red => ctx_rb n ctx /\ col x = Black end.

Lemma unlinked_rb ctx c l z v r ctx' x k N : unlinked ctx c l z v r ctx' x k ->
  rb N (plug ctx (Node c l z v r)) -> col (plug ctx (Node c l z v r)) = Black -> exists n, lacks k n ctx' x.
Proof.
  intros Hu Hrb Hcol. destruct Hu as [->| ->|rctx k y vy x -> Hs].
  - destruct (rb_plug _ _ _ Hrb ltac:(done)) as (n & Hc & Ht & _). destruct c.
    + apply (rb_mk_red n L) in Ht as (H1 & H2 & H3 & H4). by exists n.
    + apply (rb_black_inv n L) in Ht as (j & -> & H1 & H2). by exists j.
  - destruct (rb_plug _ _ _ Hrb ltac:(done)) as (n & Hc & Ht & _). destruct c.
    + apply (rb_mk_red n L) in Ht as (H1 & H2 & H3 & H4). by exists n.
    + apply (rb_black_inv n L) in Ht as (j & -> & H1 & H2). by exists j.
  - change (Node c l z v (plug rctx (Node k Leaf y vy x))) with (fill (Frame R c z v l) (plug rctx (Node k Leaf y vy x))) in *.
    change (plug ctx (fill ?f ?t)) with (plug (f :: ctx) t) in *. rewrite <- plug_app in *.
    destruct (rb_plug _ _ _ Hrb ltac:(done)) as (n & Hc & Ht & _). apply (ctx_rb_move _ _ _ _ y _ vy) in Hc. destruct k.
    + apply (rb_mk_red n L) in Ht as (H1 & H2 & H3 & H4). by exists n.
    + apply (rb_black_inv n L) in Ht as (j & -> & H1 & H2). by exists j.
Qed.

Lemma unlinked_aug U ctx c l z v r ctx' x k : unlinked ctx c l z v r ctx' x k ->
  ctx_aug (U := U) ctx -> aug_ok (U := U) l -> aug_ok (U := U) r -> ctx_aug (U := U) ctx' /\ aug_ok (U := U) x.
Proof.
  intros Hu Hc Hl Hr. destruct Hu as [->| ->|rctx k y vy x -> Hs]; [done|done|]. clear Hs.
  assert (H : ctx_aug (U := U) rctx /\ aug_ok (U := U) (Node k Leaf y vy x)).
  { clear -Hr. revert Hr. generalize (Node k Leaf y vy x). induction rctx as [|f rctx IH]; intros t; cbn; [done|].
    intros H. apply IH in H as [H1 H2]. unfold fill in H2. apply aug_ok_mk in H2 as (_ & H2 & H3). done. }
  destruct H as [H1 (_ & _ & H2)]. split; [|done]. clear -H1 Hc Hl. induction rctx as [|f rctx IH]; cbn in *; [done|].
  split; [tauto|]. apply IH. tauto.
Qed.
End unlinked.

Section unlink_zip.
Context {A : Type}.
Implicit Types (t l r x : tree A) (ctx : list (frame A)) (m : mem A).

Lemma size_fuel m ctx t : zip m ctx t -> (length (inorder t) <= fuel_of m)%nat.
Proof. intros Hz. pose proof (zip_size (update := None) (U := fun _ v _ _ => v) _ _ _ Hz). unfold fuel_of. lia. Qed.

(** A subtree takes the place of the node. *)
Lemma splice_child m ctx c l z v r t : zip m ctx (Node c l z v r) -> t = l \/ t = r ->
  exists m', rb_tree_splice m z (ptr t) = Some m' /\ zip m' ctx t /\ keeps (ctx_addrs ctx ++ inorder t) m m'.
Proof.
  intros Hz Ht. pose proof (zip_cell m ctx L c l z v r Hz) as Cz. pose proof (zip_addr m ctx L c l z v r Hz) as Vz.
  pose proof (zip_distinct m ctx L c l z v r Hz) as (D & _). destruct Hz as (Hr & Hc & (_ & Sl & Sr) & Hw).
  eapply (splice_zip m ctx z _ c z); [exact Hr|exact Hc|done|done|exact Cz|done|by destruct Ht; subst|by apply valid_aligned|].
  cbn in Hw. destruct Ht as [->| ->].
  - apply (wf_app _ (z :: inorder r)). eapply wf_perm; [|exact Hw]. by rewrite <- app_assoc.
  - apply (wf_app (inorder l ++ [z])). eapply wf_perm; [|exact Hw]. solve_Permutation.
Qed.

(** The successor [y] of [z] is a child of [z]. *)
Lemma unlink_direct m ctx c k l z v y vy x : zip m ctx (Node c l z v (Node k Leaf y vy x)) -> l <> Leaf ->
  exists m', replace_by m z y = Some m' /\ zip m' (Frame R c y vy l :: ctx) x /\ keeps (ctx_addrs ctx ++ y :: inorder l) m m'.
Proof.
  intros Hz Hl. pose proof (zip_addr m ctx L c l z v _ Hz) as Vz. destruct Hz as (Hr & Hc & (Cz & Sl & (Cy & _ & Sx)) & Hw). cbn in Hw.
  destruct (replace_by_zip m ctx c k l z v (Node k Leaf y vy x) y vy z x) as (m' & E & Hz' & K); try done; [by apply valid_aligned| |].
  - eapply wf_perm; [|exact Hw]. cbn. rewrite <- !Permutation_middle. solve_Permutation.
  - exists m'. split; [done|]. split; [|done]. by apply (zip_far m' ctx L c l y vy x).
Qed.

(** [y->right = z->right] with the parent link *)
Lemma take_right m y w q vy z r :
  cells m !! y = Some (RbNode w 0 q vy) -> sub_ok (cells m) z r -> r <> Leaf ->
  valid y -> valid z -> y ∉ inorder r -> wf (inorder r) ->
  exists m', (m ← set_right m y (ptr r); cy ← load m y; rb_node_set_parent m (n_right cy) y) = Some m'
    /\ cells m' !! y = Some (RbNode w 0 (ptr r) vy) /\ sub_ok (cells m') y r /\ root m' = root m /\ keeps (y :: inorder r) m m'.
Proof.
  intros Cy Sr Hr Vy Vz D [Hn Hv]. unfold set_right, set_child.
  rewrite (store_ok _ _ _ _ (cells_load _ _ _ Vy Cy)). cbn [mbind option_bind with_child n_parent n_left n_aug].
  set (m2 := Mem _ _). assert (K2 : keeps [y] m m2) by (eapply keeps_insert; [set_solver|exact Cy]).
  erewrite (cells_load m2 y); [|done|apply lookup_insert_eq]. cbn [mbind option_bind n_right].
  destruct (set_parent_sub m2 z y r) as (m3 & E3 & S3 & R3 & K3).
  { eapply sub_ok_ext; [|exact Sr]. intros b Hb. apply K2. set_solver. } { done. } { by apply valid_aligned. } { by apply valid_aligned. }
  assert (Hr0' : (ptr r =? 0) = false) by (destruct r; [done|]; apply valid_neq0; cbn in Hv; rewrite Forall_app, Forall_cons in Hv; tauto).
  rewrite Hr0' in E3. exists m3. split; [exact E3|]. split_and!; [|done|done|].
  - rewrite (proj2 K3) by done. apply lookup_insert_eq.
  - apply (keeps_trans _ _ m2); (eapply keeps_mono; [|eassumption]); set_solver.
Qed.

Lemma wf_cons a (ks : list Z) : a ∉ ks -> valid a -> wf ks -> wf (a :: ks).
Proof. intros H1 H2 [H3 H4]. split; by constructor. Qed.

Lemma plug_nonleaf f ctx t : plug (f :: ctx) t <> Leaf.
Proof. cbn. revert f t. induction ctx as [|g ctx IH]; intros f t; cbn; [unfold fill; by destruct (f_side f)|apply IH]. Qed.

(** ... or it is further down: first its right subtree takes its place. *)
Lemma unlink_deep m ctx c k l z v f rctx y vy x :
  zip m (f :: rctx ++ Frame R c z v l :: ctx) (Node k Leaf y vy x) -> l <> Leaf ->
  exists m', (m ← rb_tree_splice m y (ptr x);
              cz ← load m z;
              m ← (m ← set_right m y (n_right cz); cy ← load m y; rb_node_set_parent m (n_right cy) y);
              replace_by m z y) = Some m'
    /\ zip m' (f :: rctx ++ Frame R c y vy l :: ctx) x
    /\ keeps (ctx_addrs (f :: rctx ++ Frame R c z v l :: ctx) ++ y :: inorder x) m m'.
Proof.
  intros Hz Hl. pose proof (zip_cell m _ L k Leaf y vy x Hz) as Cy. pose proof (zip_addr m _ L k Leaf y vy x Hz) as Vy.
  pose proof (zip_distinct m _ L k Leaf y vy x Hz) as (D & _ & Dx & _).
  assert (Hp : aligned (ctx_parent (f :: rctx ++ Frame R c z v l :: ctx))) by (split; by eapply ctx_parent_valid).
  destruct (splice_child _ _ _ _ _ _ _ x Hz ltac:(by right)) as (m1 & -> & Hz1 & K1). cbn [mbind option_bind].
  assert (C1y : cells m1 !! y = Some (RbNode (word (ctx_parent (f :: rctx ++ Frame R c z v l :: ctx)) k) 0 (ptr x) vy)).
  { rewrite (proj2 K1) by set_solver. exact Cy. }
  apply (zip_app m1 (f :: rctx)), zip_down in Hz1. unfold fill in Hz1. cbn [f_side f_col f_addr f_aug f_sib] in Hz1.
  set (r := plug (f :: rctx) x) in *. rewrite (zip_load _ _ _ _ _ _ _ _ Hz1). cbn [mbind option_bind cell n_right n_left].
  pose proof (zip_addr _ _ _ _ _ _ _ _ Hz1) as Vz.
  assert (Pr : inorder r ≡ₚ ctx_addrs (f :: rctx) ++ inorder x) by apply inorder_plug_perm.
  destruct Hz1 as (R1 & O1 & S1 & W1). apply sub_ok_mk in S1 as (C1z & Sr & Sl). rewrite ptr_mk in *.
  change (ctx_addrs (f :: rctx ++ Frame R c z v l :: ctx)) with (ctx_addrs ((f :: rctx) ++ Frame R c z v l :: ctx)) in *.
  rewrite ctx_addrs_app in *. cbn [ctx_addrs f_addr f_sib] in D, K1 |- *.
  assert (W : wf (ctx_addrs ctx ++ z :: y :: inorder l ++ inorder r)).
  { eapply (wf_perm (y :: ctx_addrs ctx ++ inorder (mk R c r z v l))); [rewrite inorder_mk; solve_Permutation|].
    apply wf_cons; [|done|done]. rewrite inorder_mk, Pr. set_solver. }
  pose proof W as [Hnd Hval]. rewrite !NoDup_app, !NoDup_cons, !NoDup_app in Hnd. destruct Hnd as (_ & D0 & D1 & D2 & Hnl & D3 & Hnr).
  rewrite !Forall_app, !Forall_cons, Forall_app in Hval. destruct Hval as (_ & _ & _ & _ & Vr).
  destruct (take_right m1 y _ _ vy z r C1y Sr (plug_nonleaf _ _ _) Vy Vz) as (m2 & E2 & C2y & S2 & R2 & K2); [set_solver|done|].
  rewrite E2. cbn [mbind option_bind].
  destruct (replace_by_zip m2 ctx c k l z v r y vy (f_addr f) r) as (m3 & E3 & Hz3 & K3).
  { by rewrite R2. }
  { eapply ctx_ok_ext; [|exact O1]. intros b Hb. apply K2. set_solver. }
  { done. } { rewrite (proj2 K2) by set_solver. exact C1z. } { done. } { exact Hp. }
  { eapply sub_ok_ext; [|exact Sl]. intros b Hb. apply K2. set_solver. } { done. } { done. }
  exists m3. split; [done|]. split.
  - apply (zip_app m3 (f :: rctx)). fold r. apply (zip_far m3 ctx L c l y vy r). done.
  - assert (Pr' : forall a, a ∈ inorder r -> a ∈ ctx_addrs (f :: rctx) ++ inorder x) by (intros a; by rewrite Pr). cbn [ctx_addrs] in Pr'.
    apply (keeps_trans _ _ m1); [eapply keeps_mono; [|exact K1]; set_solver|].
    apply (keeps_trans _ _ m2); [eapply keeps_mono; [|exact K2]; set_solver|]. eapply keeps_mono; [|exact K3]. set_solver.
Qed.

Lemma leaf_dec t : t = Leaf \/ t <> Leaf.
Proof. destruct t; auto. Qed.
Lemma nonleaf_match t : t <> Leaf -> match t with Leaf => true | Node _ _ _ _ _ => false end = false.
Proof. by destruct t. Qed.

(** The case of two children. *)
Lemma unlink_both m ctx c l z v r : zip m ctx (Node c l z v r) -> l <> Leaf -> r <> Leaf ->
  exists m' ctx' x k,
    (y ← rb_node_minimum m (ptr r);
     y_was_black ← rb_node_is_black m y;
     cy ← load m y;
     let x := n_right cy in
     y_p ← rb_node_parent m y;
     '(m, x_p) ← (if y_p =? z then Some (m, y)
                  else
                    m ← rb_tree_splice m y x;
                    cz ← load m z;
                    m ← set_right m y (n_right cz);
                    cy ← load m y;
                    m ← rb_node_set_parent m (n_right cy) y;
                    Some (m, y_p));
     m ← replace_by m z y;
     Some (m, x, x_p, y_was_black)) = Some (m', ptr x, ctx_parent ctx', is_black k)
    /\ zip m' ctx' x /\ unlinked ctx c l z v r ctx' x k /\ keeps (ctx_addrs ctx ++ z :: inorder l ++ inorder r) m m'.
Proof.
  intros Hz Hl Hr. pose proof (proj1 (zip_far m ctx L c l z v r) Hz) as Hzr. cbn [opp] in Hzr.
  pose proof (zip_distinct m ctx L c l z v r Hz) as (_ & _ & Dr & _).
  destruct (extreme_place L m (fuel_of m) _ r Hzr Hr (size_fuel _ _ _ Hzr)) as (rctx & k & y & vy & x & E & Er & Hzy & Hs).
  unfold rb_node_minimum. rewrite E. cbn [mbind option_bind mk] in *. pose proof (zip_is_black _ _ _ Hzy) as Eb. cbn [ptr col] in Eb.
  rewrite Eb. cbn [mbind option_bind]. rewrite (zip_load m _ L k Leaf y vy x Hzy). cbn [mbind option_bind cell n_right].
  rewrite (zip_parent m _ L k Leaf y vy x Hzy). cbn [mbind option_bind]. destruct rctx as [|f rctx].
  - cbn [app plug ctx_parent f_addr] in *. rewrite Z.eqb_refl. subst r.
    destruct (unlink_direct _ _ _ _ _ _ _ _ _ _ Hz Hl) as (m' & E' & Hz' & K'). cbn [mbind option_bind]. rewrite E'. cbn [mbind option_bind].
    exists m', (Frame R c y vy l :: ctx), x, k. split_and!; [done|done|by apply (unlinked_min _ _ _ _ _ _ [])|].
    eapply keeps_mono; [|exact K']. cbn. set_solver.
  - cbn [app ctx_parent] in *. assert (Hne : (f_addr f =? z) = false).
    { apply Z.eqb_neq. intros Ef. apply Dr. rewrite Er, inorder_plug_perm, <- Ef. cbn. set_solver. }
    rewrite Hne. destruct (unlink_deep _ _ _ _ _ _ _ _ _ _ _ _ Hzy Hl) as (m' & E' & Hz' & K').
    exists m', (f :: rctx ++ Frame R c y vy l :: ctx), x, k. split; [|split; [done|split]].
    + revert E'. destruct (rb_tree_splice m y (ptr x)) as [m1|]; [|done]. cbn [mbind option_bind].
      destruct (load m1 z) as [cz|]; [|done]. cbn [mbind option_bind]. destruct (set_right m1 y (n_right cz)) as [m2|]; [|done].
      cbn [mbind option_bind]. destruct (load m2 y) as [cy|]; [|done]. cbn [mbind option_bind].
      destruct (rb_node_set_parent m2 (n_right cy) y) as [m3|]; [|done]. cbn [mbind option_bind]. intros E'. by rewrite E'.
    + by apply (unlinked_min _ _ _ _ _ _ (f :: rctx)).
    + assert (Pr : forall a, a ∈ ctx_addrs (f :: rctx) ++ y :: inorder x -> a ∈ inorder r).
      { intros a. rewrite Er, inorder_plug_perm. done. }
      change (f :: rctx ++ Frame R c z v l :: ctx) with ((f :: rctx) ++ Frame R c z v l :: ctx) in K'. rewrite ctx_addrs_app in K'.
      eapply keeps_mono; [|exact K']. cbn [ctx_addrs f_addr f_sib] in *. set_solver.
Qed.

(** Removal up to the fixup. *)
Lemma unlink_zip m ctx c l z v r : zip m ctx (Node c l z v r) ->
  exists m' ctx' x k, remove_unlink m z = Some (m', ptr x, ctx_parent ctx', is_black k)
    /\ zip m' ctx' x /\ unlinked ctx c l z v r ctx' x k /\ keeps (ctx_addrs ctx ++ z :: inorder l ++ inorder r) m m'.
Proof.
  intros Hz. unfold remove_unlink. pose proof (zip_is_black _ _ _ Hz) as Eb. cbn [ptr col] in Eb. rewrite Eb. cbn [mbind option_bind].
  rewrite (zip_load m ctx L c l z v r Hz). cbn [mbind option_bind cell n_left n_right].
  pose proof (proj1 (zip_near m ctx L c l z v r) Hz) as Hzl. pose proof (proj1 (zip_far m ctx L c l z v r) Hz) as Hzr.
  rewrite (zip_ptr0 _ _ _ Hzl), (zip_ptr0 _ _ _ Hzr). rewrite (zip_parent m ctx L c l z v r Hz).
  destruct (leaf_dec l) as [->|Hl].
  - destruct (splice_child _ _ _ _ _ _ _ r Hz ltac:(by right)) as (m' & E & Hz' & K). cbn [mbind option_bind]. rewrite E.
    exists m', ctx, r, c. split_and!; [done|done|by apply unlinked_right|]. eapply keeps_mono; [|exact K]. set_solver.
  - rewrite (nonleaf_match l Hl). destruct (leaf_dec r) as [->|Hr].
    + destruct (splice_child _ _ _ _ _ _ _ l Hz ltac:(by left)) as (m' & E & Hz' & K). cbn [mbind option_bind]. rewrite E.
      exists m', ctx, l, c. split_and!; [done|done|by apply unlinked_left|]. eapply keeps_mono; [|exact K]. set_solver.
    + rewrite (nonleaf_match r Hr). by apply unlink_both.
Qed.
End unlink_zip.

(** ** The fixup *)

Section fixup.
Context {A : Type} {update : option (mem A -> Z -> option (mem A))} {U : Z -> A -> option A -> option A -> A}.
Context `{!Augmented update U}.
Context (m0 : mem A) (ns : list Z).
Implicit Types (t : tree A) (ctx : list (frame A)) (m : mem A).
Notation st := (st (U := U) m0 ns).

(** The paths through [x] lack a black node, unless [x] is red and is made black. *)
Definition defect n ctx t : Prop :=
  ctx_rb (S n) ctx /\ match col t with Black => rb n t | Red => rb (S n) (paint Black t) end.
Definition need ctx t : nat := match col t with Red => O | Black => length ctx end.

Lemma mk_nonleaf d c t1 a (v : A) t2 : mk d c t1 a v t2 <> Leaf.
Proof using. by destruct d. Qed.

(** [rb_node_copy_color(w, x_p)] *)
Lemma st_copy_color m ctx d c t1 a v t2 : st m ctx (mk d c t1 a v t2) -> t2 <> Leaf ->
  exists m', rb_node_copy_color m (ptr t2) a = Some m' /\ st m' ctx (mk d c t1 a v (paint c t2)).
Proof using Type*.
  intros Hst Ht. pose proof Hst as (Hz & Ha & _). unfold rb_node_copy_color.
  rewrite (zip_load _ _ _ _ _ _ _ _ Hz). cbn [mbind option_bind]. rewrite parent_cell, land_word_1 by (by eapply ctx_parent_valid).
  pose proof (proj1 (zip_far _ _ _ _ _ _ _ _) Hz) as Hzw. pose proof (valid_aligned a (zip_addr _ _ _ _ _ _ _ _ Hz)) as [Hv He].
  destruct (mk_inv L t2) as [->|(cw & l & w & vw & r & ->)]; [done|]. rewrite ptr_mk, paint_mk.
  destruct (zip_store m (Frame (opp d) c a v t1 :: ctx) L cw c l w vw vw r
    (fun c0 => with_parent (Z.lor (Z.land (n_parent c0) not_one) (match c with Black => 1 | Red => 0 end)) c0) Hzw) as (m' & E & Hz' & K).
  { cbn [ctx_parent f_addr]. rewrite with_parent_cell, parent_cell, land_word_not_one, lor_color by (done || lia). done. }
  rewrite E. exists m'. split; [done|]. eapply st_step; [exact Hst|by apply zip_far in Hz'| | |exact K|].
  - eapply aug_plug_equiv; [exact Ha| |].
    + apply aug_ok_plug_inner in Ha. rewrite !aug_ok_mk, !taug_mk in Ha |- *. done.
    + intros e b u o. by rewrite !taug_mk.
  - destruct d; cbn; done.
  - intros b ->%list_elem_of_singleton. rewrite elem_of_app, !inorder_mk. set_solver.
Qed.

(** Reading the sibling's children. *)
Lemma st_is_black m ctx t : st m ctx t -> rb_node_is_black m (ptr t) = Some (is_black (col t)).
Proof using Type*. intros (Hz & _). by eapply zip_is_black. Qed.

(** The last case: the far child of the sibling is red. *)
Lemma remove_far m ctx d c p vp tx t1 w vw t2 n :
  st m ctx (mk d c tx p vp (mk d Black t1 w vw t2)) -> ctx_rb (S n) (Frame d c p vp (mk d Black t1 w vw t2) :: ctx) ->
  rb n tx -> col t2 = Red ->
  exists m' t N,
    (m ← rb_node_copy_color m w p; m ← rb_node_set_black m p; cw ← load m w; m ← rb_node_set_black m (child (opp d) cw);
     m ← rb_tree_rotate update d m p; Some (m, root m)) = Some (m', ptr t)
    /\ st m' [] t /\ rb N t /\ col t = Black.
Proof using Type*.
  intros Hst [Hw Hc] Htx Hred. cbn [f_sib f_col] in *. apply rb_mk_black in Hw as [H1 H2].
  destruct (st_copy_color _ _ _ _ _ _ _ _ Hst (mk_nonleaf _ _ _ _ _ _)) as (m1 & E1 & Hst1). rewrite ptr_mk in E1. rewrite E1. cbn [mbind option_bind].
  rewrite paint_mk in Hst1. destruct (st_set_black _ _ _ _ _ Hst1 (mk_nonleaf _ _ _ _ _ _)) as (m2 & E2 & Hst2). rewrite ptr_mk in E2.
  rewrite E2. cbn [mbind option_bind]. rewrite paint_mk in Hst2. apply st_far in Hst2. pose proof Hst2 as (Hz2 & _).
  rewrite (zip_load _ _ _ _ _ _ _ _ Hz2). cbn [mbind option_bind]. rewrite child_opp_cell. apply (st_far _ _ _ _ d c t1 w vw t2) in Hst2.
  destruct (st_set_black _ _ _ _ _ Hst2) as (m3 & E3 & Hst3); [by intros ->|]. rewrite E3. cbn [mbind option_bind].
  apply (st_far _ _ _ _ d c t1 w vw), (st_far _ _ _ _ d Black tx p vp) in Hst3. destruct (st_rotate _ _ _ _ _ _ _ _ _ _ _ _ _ _ Hst3) as (m4 & vp' & vw' & E4 & Hst4). rewrite E4.
  cbn [mbind option_bind]. set (t := mk d c (mk d Black tx p vp' t1) w vw' (paint Black t2)) in *.
  assert (Hb : col (paint Black t2) = Black) by (by destruct t2).
  assert (Hn : exists j, rb j t /\ ctx_rb j ctx /\ fits_color ctx t /\ (ctx = [] -> c = Black)).
  { destruct c.
    - destruct Hc as (_ & Hh & Hc). exists (S n). split_and!; [|done| |by destruct ctx].
      + unfold t. rewrite rb_mk_red, rb_mk_black, col_mk. split_and!; try done. by apply rb_paint.
      + destruct ctx as [|g ctx]; [done|]. cbn in *. by rewrite Hh.
    - exists (S (S n)). split_and!; [|done| |done].
      + unfold t. rewrite !rb_mk_black. split_and!; try done. by apply rb_paint.
      + destruct ctx; [done|]. intros _. unfold t. by rewrite col_mk. }
  destruct Hn as (j & Hj & Hcj & Hfit & He). destruct (plug_rb j ctx t Hcj Hj Hfit) as (N & HN & HB).
  pose proof (proj1 (st_plug _ _ _ _ _) Hst4) as Hst5. exists m4, (plug ctx t), N. split; [|split; [done|split; [done|]]].
  - destruct Hst5 as ((Hr & _) & _). cbn in Hr. by rewrite Hr.
  - destruct ctx as [|g ctx]; [|by apply HB]. cbn. unfold t. rewrite col_mk. by apply He.
Qed.

(** A red near child and a black far one: a rotation makes the far one red. *)
Lemma remove_near m ctx d c p vp tx t1 w vw t2 n :
  st m ctx (mk d c tx p vp (mk d Black t1 w vw t2)) -> ctx_rb (S n) (Frame d c p vp (mk d Black t1 w vw t2) :: ctx) ->
  col t1 = Red -> col t2 = Black ->
  exists m' u1 w' vw' u2,
    (m ← rb_node_set_black m (ptr t1); m ← rb_node_set_red m w; m ← rb_tree_rotate update (opp d) m w;
     cp ← load m p; Some (m, child (opp d) cp)) = Some (m', w')
    /\ st m' ctx (mk d c tx p vp (mk d Black u1 w' vw' u2)) /\ col u2 = Red
    /\ ctx_rb (S n) (Frame d c p vp (mk d Black u1 w' vw' u2) :: ctx).
Proof using Type*.
  intros Hst [Hw Hc] Hred Hblack. cbn [f_sib f_col] in *. apply rb_mk_black in Hw as [H1 H2].
  destruct (mk_inv d t1) as [->|(c1 & u1 & a & va & u2 & ->)]; [done|]. rewrite col_mk in Hred. subst c1.
  apply rb_mk_red in H1 as (G1 & G2 & B1 & B2). apply (st_far _ _ _ _ d c tx p vp), (st_near _ _ _ _ d Black _ w vw t2) in Hst.
  destruct (st_set_black _ _ _ _ _ Hst (mk_nonleaf _ _ _ _ _ _)) as (m1 & E1 & Hst1). rewrite E1. cbn [mbind option_bind].
  rewrite paint_mk in Hst1. apply (st_near _ _ _ _ d Black _ w vw t2) in Hst1.
  destruct (st_set_red _ _ _ _ _ Hst1 (mk_nonleaf _ _ _ _ _ _)) as (m2 & E2 & Hst2). rewrite ptr_mk in E2. rewrite E2. cbn [mbind option_bind].
  rewrite paint_mk, <- mk_opp, <- (mk_opp d Black) in Hst2.
  destruct (st_rotate _ _ _ _ _ _ _ _ _ _ _ _ _ _ Hst2) as (m3 & vw' & va' & E3 & Hst3). rewrite E3. cbn [mbind option_bind].
  rewrite (mk_opp d Black u1), (mk_opp d Red u2) in Hst3. apply (st_far _ _ _ _ d c tx p vp) in Hst3. pose proof Hst3 as (Hz3 & _).
  rewrite (zip_load _ _ _ _ _ _ _ _ Hz3). cbn [mbind option_bind]. rewrite child_opp_cell, ptr_mk.
  exists m3, u1, a, va', (mk d Red u2 w vw' t2). split; [done|]. split; [done|]. rewrite col_mk. split; [done|].
  cbn [ctx_rb f_sib f_col]. split; [|by rewrite !col_mk in *]. rewrite rb_mk_black, rb_mk_red. done.
Qed.

(** The round when the sibling is black. *)
Lemma remove_black m ctx d c p vp tx t1 w vw t2 n :
  st m ctx (mk d c tx p vp (mk d Black t1 w vw t2)) -> ctx_rb (S n) (Frame d c p vp (mk d Black t1 w vw t2) :: ctx) ->
  rb n tx -> col tx = Black ->
  exists m' ctx' t n',
    (cw ← load m w;
     near ← rb_node_is_black m (child d cw);
     both ← (if (near : bool) then rb_node_is_black m (child (opp d) cw) else Some false);
     if (both : bool) then m ← rb_node_set_red m w; Some (m, p)
     else
       far ← rb_node_is_black m (child (opp d) cw);
       '(m, w) ← (if (far : bool) then
                    m ← rb_node_set_black m (child d cw);
                    m ← rb_node_set_red m w;
                    m ← rb_tree_rotate update (opp d) m w;
                    cp ← load m p;
                    Some (m, child (opp d) cp)
                  else Some (m, w));
       m ← rb_node_copy_color m w p;
       m ← rb_node_set_black m p;
       cw ← load m w;
       m ← rb_node_set_black m (child (opp d) cw);
       m ← rb_tree_rotate update d m p;
       Some (m, root m)) = Some (m', ptr t)
    /\ st m' ctx' t /\ defect n' ctx' t /\ t <> Leaf /\ (need ctx' t <= match c with Black => length ctx | Red => O end)%nat.
Proof using Type*.
  intros Hst Hc Htx Hbx. pose proof Hc as [Hw Hc']. cbn [f_sib f_col] in *. pose proof Hw as Hw'. apply rb_mk_black in Hw' as [H1 H2].
  pose proof (proj1 (st_far _ _ _ _ d c tx p vp _) Hst) as Hstw. pose proof Hstw as (Hzw & _).
  rewrite (zip_load _ _ _ _ _ _ _ _ Hzw). cbn [mbind option_bind]. rewrite child_cell, child_opp_cell.
  rewrite (st_is_black _ _ _ (proj1 (st_near _ _ _ _ d Black t1 w vw t2) Hstw)).
  rewrite (st_is_black _ _ _ (proj1 (st_far _ _ _ _ d Black t1 w vw t2) Hstw)). cbn [mbind option_bind].
  assert (Hfin : forall m' t N, st m' [] t -> rb N t -> col t = Black ->
    exists ctx' t' n', ptr t' = ptr t /\ st m' ctx' t' /\ defect n' ctx' t' /\ t' <> Leaf
      /\ (need ctx' t' <= match c with Black => length ctx | Red => O end)%nat).
  { intros m' t N Hst' HN HB. exists [], t, N. split; [done|]. split; [done|]. unfold defect, need. rewrite HB. split; [done|]. split; [|cbn; lia].
    intros ->. pose proof (ctx_in _ _ _ _ _ w Hst) as Hin. destruct Hst' as (_ & _ & Hl & _). cbn in Hl. rewrite <- Hl in Hin.
    rewrite elem_of_app, !inorder_mk in Hin. set_solver. }
  destruct (col t2) eqn:E2.
  - replace (if is_black (col t1) then Some (is_black Red) else Some false) with (Some false) by (by destruct (col t1)).
    cbn [mbind option_bind is_black].
    destruct (remove_far _ _ _ _ _ _ _ _ _ _ _ _ Hst Hc Htx E2) as (m' & t & N & E & Hst' & HN & HB). rewrite E.
    destruct (Hfin m' t N Hst' HN HB) as (ctx' & t' & n' & Ep & H). exists m', ctx', t', n'. by rewrite Ep.
  - destruct (col t1) eqn:E1; cbn [is_black mbind option_bind].
    + destruct (remove_near _ _ _ _ _ _ _ _ _ _ _ _ Hst Hc E1 E2) as (m1 & u1 & w' & vw' & u2 & E & Hst1 & Hu & Hc1). rewrite E.
      cbn [mbind option_bind]. destruct (remove_far _ _ _ _ _ _ _ _ _ _ _ _ Hst1 Hc1 Htx Hu) as (m' & t & N & E' & Hst' & HN & HB). rewrite E'.
      destruct (Hfin m' t N Hst' HN HB) as (ctx' & t' & n' & Ep & H). exists m', ctx', t', n'. by rewrite Ep.
    + destruct (st_set_red _ _ _ _ _ Hstw (mk_nonleaf _ _ _ _ _ _)) as (m1 & E & Hst1). rewrite ptr_mk in E. rewrite E. cbn [mbind option_bind].
      rewrite paint_mk in Hst1. apply (st_far _ _ _ _ d c tx p vp) in Hst1.
      exists m1, ctx, (mk d c tx p vp (mk d Red t1 w vw t2)), (match c with Black => S n | Red => n end). rewrite ptr_mk.
      split; [done|]. split; [done|]. unfold defect, need. rewrite col_mk, paint_mk. split; [|split; [apply mk_nonleaf|by destruct c]].
      destruct c; [destruct Hc' as (_ & _ & Hc')|]; (split; [done|]); rewrite rb_mk_black, rb_mk_red; done.
Qed.

(** A round of the loop. *)
Lemma remove_side_st m ctx d c p vp tw tx n :
  st m (Frame d c p vp tw :: ctx) tx -> ctx_rb (S n) (Frame d c p vp tw :: ctx) -> rb n tx -> col tx = Black ->
  exists m' ctx' t n', remove_fixup_side update d m (ptr tx) p = Some (m', ptr t)
    /\ st m' ctx' t /\ defect n' ctx' t /\ t <> Leaf /\ (need ctx' t <= length ctx)%nat.
Proof using Type*.
  intros Hst Hc Htx Hbx. apply (st_near _ _ _ _ d c tx p vp tw) in Hst. pose proof Hst as (Hz & _).
  unfold remove_fixup_side. rewrite (zip_load _ _ _ _ _ _ _ _ Hz). cbn [mbind option_bind]. rewrite child_opp_cell.
  pose proof (proj1 (zip_far _ _ _ _ _ _ _ _) Hz) as Hzw. rewrite (zip_is_red _ _ _ Hzw). cbn [mbind option_bind].
  pose proof Hc as [Hw Hc']. cbn [f_sib f_col] in *.
  destruct (mk_inv d tw) as [->|(cw & t1 & w & vw & t2 & ->)]; [inversion Hw|]. rewrite col_mk, ptr_mk.
  destruct cw; cbn [is_black negb].
  - destruct c; [rewrite col_mk in Hc'; by destruct Hc'|]. apply rb_mk_red in Hw as (H1 & H2 & B1 & B2).
    apply (st_far _ _ _ _ d Black tx p vp) in Hst.
    destruct (st_set_black _ _ _ _ _ Hst (mk_nonleaf _ _ _ _ _ _)) as (m1 & E1 & Hst1). rewrite ptr_mk in E1. rewrite E1. cbn [mbind option_bind].
    rewrite paint_mk in Hst1. apply (st_far _ _ _ _ d Black tx p vp) in Hst1.
    destruct (st_set_red _ _ _ _ _ Hst1 (mk_nonleaf _ _ _ _ _ _)) as (m2 & E2 & Hst2). rewrite ptr_mk in E2. rewrite E2. cbn [mbind option_bind].
    rewrite paint_mk in Hst2. destruct (st_rotate _ _ _ _ _ _ _ _ _ _ _ _ _ _ Hst2) as (m3 & vp' & vw' & E3 & Hst3). rewrite E3. cbn [mbind option_bind].
    apply (st_near _ _ _ _ d Black _ w vw' t2) in Hst3. pose proof Hst3 as (Hz3 & _).
    rewrite (zip_load _ _ _ _ _ _ _ _ Hz3). cbn [mbind option_bind]. rewrite child_cell, child_opp_cell, Z.eqb_refl. cbn [mbind option_bind].
    destruct (mk_inv d t1) as [->|(c1 & u1 & a & va & u2 & ->)]; [inversion H1|]. rewrite col_mk in B1. subst c1. rewrite ptr_mk.
    destruct (remove_black _ _ _ _ _ _ _ _ _ _ _ n Hst3) as (m' & ctx' & t & n' & E & H1' & H2' & H3' & H4'); [|done|done|].
    + cbn [ctx_rb f_sib f_col head_black]. rewrite col_mk. done.
    + exists m', ctx', t, n'. split; [done|]. split; [done|]. split; [done|]. split; [done|]. cbn in H4'. lia.
  - destruct (remove_black _ _ _ _ _ _ _ _ _ _ _ n Hst Hc Htx Hbx) as (m' & ctx' & t & n' & E & H1' & H2' & H3' & H4').
    exists m', ctx', t, n'. split; [done|]. split; [done|]. split; [done|]. split; [done|]. destruct c; lia.
Qed.

Lemma root_test m ctx t : st m ctx t -> (ptr t =? root m) = match ctx with [] => true | _ => false end.
Proof using Type*.
  intros ((Hr & _ & _ & [Hnd Hv]) & _). rewrite Hr. destruct ctx as [|f ctx]; cbn [ctx_root]; [apply Z.eqb_refl|].
  assert (Hin : ctx_root ctx (f_addr f) ∈ ctx_addrs (f :: ctx)).
  { clear. revert f. induction ctx as [|g ctx IH]; intros f; cbn [ctx_root]; [cbn; set_solver|]. specialize (IH g). cbn [ctx_addrs] in *. set_solver. }
  apply Z.eqb_neq. intros E. rewrite <- E in Hin. rewrite NoDup_app in Hnd. destruct Hnd as (_ & D & _). rewrite Forall_app in Hv.
  destruct Hv as [Hv _]. rewrite Forall_forall in Hv. destruct (Hv _ Hin) as [Hp _].
  destruct (ptr_in t) as [E0|Ht]; [lia|]. by apply (D _ Hin).
Qed.

(** When the loop ends, making [x] black leaves a red-black tree. *)
Lemma defect_end n ctx t : defect n ctx t -> ctx = [] \/ col t = Red ->
  exists N, rb N (plug ctx (paint Black t)) /\ col (plug ctx (paint Black t)) = Black.
Proof using.
  intros [Hc Ht] [->|Hr].
  - cbn. destruct (col t) eqn:E; [exists (S n)|exists n].
    + split; [done|]. by destruct t.
    + destruct t; [done|]. cbn in *. by subst c.
  - rewrite Hr in Ht. assert (Hb : col (paint Black t) = Black) by (by destruct t).
    destruct (plug_rb (S n) ctx (paint Black t) Hc Ht) as (N & HN & HB); [destruct ctx; [done|by intros _]|]. exists N. split; [done|].
    destruct ctx; [done|by apply HB].
Qed.

Lemma remove_fixup_st fuel : forall m ctx t n, st m ctx t -> defect n ctx t -> (need ctx t < fuel)%nat ->
  exists m' ctx' t' n', remove_fixup update fuel m (ptr t) (ctx_parent ctx) = Some (m', ptr t')
    /\ st m' ctx' t' /\ defect n' ctx' t' /\ (ctx' = [] \/ col t' = Red).
Proof using Type*.
  induction fuel as [|fuel IH]; intros m ctx t n Hst Hdef Hf; [lia|]. cbn [remove_fixup]. rewrite (root_test _ _ _ Hst).
  destruct ctx as [|[d c p vp tw] ctx].
  { exists m, [], t, n. split; [done|]. auto. }
  rewrite (st_is_black _ _ _ Hst). cbn [mbind option_bind]. destruct (col t) eqn:Ec; cbn [is_black negb].
  { exists m, (Frame d c p vp tw :: ctx), t, n. split; [done|]. auto. }
  pose proof Hdef as [Hc Ht]. rewrite Ec in Ht. cbn [ctx_parent f_addr].
  pose proof (proj2 (st_near _ _ _ _ d c t p vp tw) Hst) as Hstp. pose proof Hstp as (Hz & _).
  rewrite (zip_load _ _ _ _ _ _ _ _ Hz). cbn [mbind option_bind].
  assert (Hw : tw <> Leaf) by (intros ->; destruct Hc as [Hc _]; inversion Hc).
  assert (Hl : (ptr t =? n_left (cell d (word (ctx_parent ctx) c) (ptr t) (ptr tw) vp)) = is_left d).
  { destruct d; cbn [cell n_left]; [apply Z.eqb_refl|]. rewrite Z.eqb_sym. eapply (ptr_neq m0 m ctx L c tw p vp t); [exact Hz|done]. }
  rewrite Hl. clear Hl. destruct (remove_side_st _ _ _ _ _ _ _ _ _ Hst Hc Ht Ec) as (m' & ctx' & t' & n' & E & Hst' & Hdef' & Hne & Hneed).
  replace (if is_left d then _ else _) with (remove_fixup_side update d m (ptr t) p) by (by destruct d). rewrite E. cbn [mbind option_bind].
  assert (Ep : rb_node_parent m' (ptr t') = Some (ctx_parent ctx')).
  { destruct (mk_inv L t') as [->|(c' & l & a & v & r & ->)]; [done|]. rewrite ptr_mk. eapply zip_parent. apply Hst'. }
  rewrite Ep. cbn [mbind option_bind]. apply (IH m' ctx' t' n'); [done|done|]. unfold need in Hf at 1. rewrite Ec in Hf. cbn in Hf. lia.
Qed.
End fixup.

(** ** Removal *)

Section removal.
Context {A : Type} {update : option (mem A -> Z -> option (mem A))} {U : Z -> A -> option A -> option A -> A}.
Context `{!Augmented update U}.
Implicit Types (t l r : tree A) (ctx : list (frame A)) (m : mem A).

(** The place of a node in a tree. *)
Lemma find_place t z : z ∈ inorder t -> exists ctx c l v r, t = plug ctx (Node c l z v r).
Proof using.
  clear. induction t as [|c l IHl a v r IHr]; cbn; [set_solver|]. rewrite elem_of_app, elem_of_cons. intros [H|[->|H]].
  - destruct (IHl H) as (ctx & c' & l' & v' & r' & ->). exists (ctx ++ [Frame L c a v r]), c', l', v', r'. by rewrite plug_app.
  - by exists [], c, l, v, r.
  - destruct (IHr H) as (ctx & c' & l' & v' & r' & ->). exists (ctx ++ [Frame R c a v l]), c', l', v', r'. by rewrite plug_app.
Qed.

Lemma split_unique (l1 l2 l1' l2' : list Z) z : NoDup (l1 ++ z :: l2) -> l1 ++ z :: l2 = l1' ++ z :: l2' -> l1 = l1' /\ l2 = l2'.
Proof using.
  clear. revert l1'. induction l1 as [|a l1 IH]; intros [|a' l1'] Hn E; cbn in *.
  - by simplify_eq.
  - simplify_eq. apply NoDup_cons in Hn as [Hn _]. set_solver.
  - simplify_eq. apply NoDup_cons in Hn as [Hn _]. set_solver.
  - simplify_eq. apply NoDup_cons in Hn as [_ Hn]. destruct (IH l1' Hn) as [-> ->]; done.
Qed.

(** From the unlinked tree on. *)
Lemma remove_finish m ctx t k n :
  zip m ctx t -> aug_ok (U := U) t -> ctx_aug (U := U) ctx -> lacks k n ctx t ->
  exists m', (m ← (if update then update_path update (fuel_of m) m (ctx_parent ctx) else Some m);
              if negb (is_black k) then Some m
              else
                '(m, x) ← remove_fixup update (fuel_of m) m (ptr t) (ctx_parent ctx);
                if x =? 0 then Some m else rb_node_set_black m x) = Some m'
    /\ rb_repr (U := U) m' (inorder (plug ctx t)) /\ keeps (inorder (plug ctx t)) m m'.
Proof using Type*.
  intros Hz Ha Hca [Ht Hk]. pose proof (zip_fuel (update := update) (U := U) _ _ _ Hz) as Hf.
  destruct (update_path_zip ctx t m (fuel_of m) Hz Hf) as (m1 & E1 & Hz1 & K1).
  assert (Eu : (if update then update_path update (fuel_of m) m (ctx_parent ctx) else Some m) = Some m1).
  { clear -E1. destruct update; [done|]. by rewrite (update_path_none _ _ _ _ E1). }
  rewrite Eu. cbn [mbind option_bind]. pose proof (aug_ok_reaug ctx t Hca Ha) as Ha1. set (ns := inorder (plug ctx t)).
  pose proof (reaug_parent (U := U) ctx (taug t)) as Ep. set (ctx' := reaug (U := U) ctx (taug t)) in *.
  assert (El : inorder (plug ctx' t) = ns) by (unfold ns; rewrite !inorder_plug; unfold ctx'; by rewrite reaug_before, reaug_after).
  assert (Hst : st (U := U) m ns m1 ctx' t).
  { split_and!; [done..|]. eapply keeps_mono; [|exact K1]. intros a Hin. unfold ns. rewrite inorder_plug_perm. set_solver. }
  destruct k; cbn [is_black negb].
  - destruct Hk as [Hc Hb]. destruct (plug_rb n ctx' t) as (N & HN & HB); [by apply reaug_rb|done|clear -Hb; destruct ctx'; [done|by intros _]|].
    exists m1. split; [done|]. split; [|apply Hst]. exists (plug ctx' t), N. split; [exact (proj1 (zip_plug _ _ _) Hz1)|].
    split; [done|]. split; [done|]. split; [|done]. destruct ctx'; [done|by apply HB].
  - assert (Hdef : defect n ctx' t).
    { split; [by apply reaug_rb|]. destruct (col t) eqn:Ec; [|done]. by apply rb_paint. }
    destruct (remove_fixup_st m ns (fuel_of m1) m1 ctx' t n Hst Hdef) as (m2 & ctx2 & t2 & n2 & E2 & Hst2 & Hdef2 & Hend).
    { unfold need. destruct (col t); [unfold fuel_of; lia|]. unfold ctx'. rewrite reaug_length, (keeps_fuel _ _ _ K1). done. }
    rewrite <- Ep, E2. cbn [mbind option_bind]. destruct (defect_end _ _ _ Hdef2 Hend) as (N & HN & HB). pose proof Hst2 as (Hz2 & _).
    rewrite (zip_ptr0 _ _ _ Hz2). destruct (leaf_dec t2) as [->|Hne].
    + exists m2. split; [done|]. destruct Hst2 as (_ & Ha2 & Hl2 & K2). split; [|done]. exists (plug ctx2 Leaf), N.
      split; [exact (proj1 (zip_plug _ _ _) Hz2)|]. done.
    + rewrite (nonleaf_match t2 Hne). destruct (st_set_black _ _ _ _ _ Hst2 Hne) as (m3 & E3 & Hst3). exists m3. split; [done|].
      destruct Hst3 as (Hz3 & Ha3 & Hl3 & K3). split; [|done]. exists (plug ctx2 (paint Black t2)), N.
      split; [exact (proj1 (zip_plug _ _ _) Hz3)|]. done.
Qed.

Lemma remove_repr m (l1 : list Z) z (l2 : list Z) : rb_repr (U := U) m (l1 ++ z :: l2) ->
  exists m', rb_augmented_tree_remove update m z = Some m' /\ rb_repr (U := U) m' (l1 ++ l2) /\ keeps (l1 ++ z :: l2) m m'.
Proof using Type*.
  intros (t & N & Hz & Ha & Hrb & Hcol & Hl). destruct (find_place t z) as (ctx & c & l & v & r & ->); [rewrite Hl; set_solver|].
  pose proof Hz as (_ & _ & _ & [Hnd _]). cbn in Hnd. apply zip_plug in Hz. rewrite inorder_plug in Hl. cbn [inorder] in Hl.
  assert (El : (ctx_before ctx ++ inorder l) ++ z :: (inorder r ++ ctx_after ctx) = l1 ++ z :: l2) by (rewrite <- Hl, <- !app_assoc; done).
  apply split_unique in El as [<- <-].
  2:{ rewrite inorder_plug in Hnd. cbn [inorder] in Hnd. by rewrite <- !app_assoc in Hnd |- *. }
  destruct (unlink_zip _ _ _ _ _ _ _ Hz) as (m1 & ctx' & x & k & E1 & Hz1 & Hu & K1).
  destruct (unlinked_rb _ _ _ _ _ _ _ _ _ _ Hu Hrb Hcol) as (n & Hlack). pose proof (ctx_aug_plug ctx _ Ha) as Hca.
  pose proof (aug_ok_plug_inner ctx _ Ha) as (_ & Hal & Har). destruct (unlinked_aug U _ _ _ _ _ _ _ _ _ Hu Hca Hal Har) as [Hca' Hax].
  unfold rb_augmented_tree_remove. rewrite E1. cbn [mbind option_bind].
  assert (Eok : (if ctx_parent ctx' =? 0 then Some true
                 else cp ← load m1 (ctx_parent ctx'); Some ((ptr x =? n_left cp) || (ptr x =? n_right cp))) = Some true).
  { destruct ctx' as [|f ctx']; [done|]. pose proof (proj2 (zip_down _ _ _ _) Hz1) as Hzp. unfold fill in Hzp. cbn [ctx_parent].
    rewrite (valid_neq0 (f_addr f)) by (by eapply zip_addr). rewrite (zip_load _ _ _ _ _ _ _ _ Hzp). cbn [mbind option_bind].
    destruct (f_side f); cbn [cell n_left n_right]; by rewrite Z.eqb_refl, ?orb_true_r. }
  rewrite Eok. cbn [mbind option_bind]. destruct (remove_finish _ _ _ _ _ Hz1 Hax Hca' Hlack) as (m2 & E2 & Hrep & K2).
  rewrite E2. exists m2. split; [done|]. rewrite (unlinked_inorder _ _ _ _ _ _ _ _ _ Hu) in Hrep, K2. split; [by rewrite <- !app_assoc|].
  assert (P : forall a, a ∈ ctx_addrs ctx ++ z :: inorder l ++ inorder r -> a ∈ (ctx_before ctx ++ inorder l) ++ z :: inorder r ++ ctx_after ctx).
  { intros a. rewrite <- ctx_before_after_perm. set_solver. }
  apply (keeps_trans _ _ m1); eapply keeps_mono; [exact P|exact K1| |exact K2]. set_solver.
Qed.
End removal.

(** C13: Removing a node with [rb_tree_remove] or [rb_augmented_tree_remove] from a red-black tree in
    memory succeeds (no assertion fails, no dangling node is read, every loop ends) and
    leaves a red-black tree with the other nodes in the same order, the augmented data of
    every node up to date; nothing outside the tree is written. *)
Theorem rb_augmented_tree_remove_correct {A} (update : option (mem A -> Z -> option (mem A)))
    (U : Z -> A -> option A -> option A -> A) (m : mem A) l1 z l2 :
  Augmented update U -> rb_repr (U := U) m (l1 ++ z :: l2) ->
  exists m', rb_augmented_tree_remove update m z = Some m' /\ rb_repr (U := U) m' (l1 ++ l2)
    /\ (forall a, a ∉ l1 ++ z :: l2 -> cells m' !! a = cells m !! a).
Proof.
  intros Hu Hrep. destruct (remove_repr m l1 z l2 Hrep) as (m' & E & Hrep' & K). exists m'. split; [done|]. split; [done|]. apply K.
Qed.

Lemma rb_augmented_tree_remove_witness :
  exists m', rb_augmented_tree_remove None two_nodes 32 = Some m' /\ rb_repr (U := fun _ v _ _ => v) m' [16]
    /\ (forall a, a ∉ [16; 32] -> cells m' !! a = cells two_nodes !! a).
Proof.
  apply (rb_augmented_tree_remove_correct None (fun _ v _ _ => v) two_nodes [16] 32 []).
  - apply no_update.
  - apply two_nodes_repr.
Defined.
