(* ===== verification/RbQuery.v ===== *)
(** * Iteration, search and validation of red-black trees (src/util/rb_tree.c, rb_tree.h)

    The nodes in order are what a client sees; [rb_tree_first], [rb_node_next] and their
    mirror images walk along them, and the searches find the first match.  A step to
    the next or the previous node is one definition with the side as a parameter. *)

From Stdlib Require Import ZArith Lia Sorted.
From stdpp Require Import base list gmap numbers option sets sorting.
From S2P Require Import Prelude RbTree RbInsert RbRemove.
Local Open Scope Z_scope.

Section queries.
Context {A : Type}.
Implicit Types (m : mem A).

(** ** Iteration *)

Definition rb_tree_first (m : mem A) : option Z := if root m =? 0 then Some 0 else rb_node_minimum m (root m).
Definition rb_tree_last (m : mem A) : option Z := if root m =? 0 then Some 0 else rb_node_maximum m (root m).

(** [while (p && node == p->right) { node = p; p = rb_node_parent(node); }] for [R] *)
Fixpoint climb (d : side) (fuel : nat) (m : mem A) (node p : Z) : option (Z * Z) :=
  match fuel with
  | O => None
  | S fuel =>
      if p =? 0 then Some (node, p)
      else
        c ← load m p;
        if node =? child d c then q ← rb_node_parent m p; climb d fuel m p q
        else Some (node, p)
  end.

(** [rb_node_next] for [R], [rb_node_prev] for [L] *)
Definition rb_node_step (d : side) (m : mem A) (node : Z) : option Z :=
  c ← load m node;
  if negb (child d c =? 0) then extreme_loop (opp d) (fuel_of m) m (child d c)
  else
    p ← rb_node_parent m node;
    '(node, p) ← climb d (fuel_of m) m node p;
    ok ← (if p =? 0 then Some true else cp ← load m p; Some (node =? child (opp d) cp));
    assert! ok ;;
    Some p.
Definition rb_node_next : mem A -> Z -> option Z := rb_node_step R.
Definition rb_node_prev : mem A -> Z -> option Z := rb_node_step L.

(** [rb_tree_foreach]: the nodes the loop visits. *)
Fixpoint foreach_loop (d : side) (fuel : nat) (m : mem A) (node : Z) : option (list Z) :=
  match fuel with
  | O => None
  | S fuel =>
      if node =? 0 then Some []
      else next ← rb_node_step d m node; l ← foreach_loop d fuel m next; Some (node :: l)
  end.
Definition rb_tree_foreach (m : mem A) : option (list Z) :=
  first ← rb_tree_first m; foreach_loop R (fuel_of m) m first.
Definition rb_tree_foreach_rev (m : mem A) : option (list Z) :=
  last ← rb_tree_last m; foreach_loop L (fuel_of m) m last.

(** [rb_node_next_or_null] for [R], [rb_node_prev_or_null] for [L]. *)
Definition step_or_null (d : side) (m : mem A) (n : Z) : option Z := if n =? 0 then Some 0 else rb_node_step d m n.

(** [rb_tree_foreach_safe]: the next node is read before the body of the loop, which can
    change the tree, is run. *)
Section safe.
Context (body : mem A -> Z -> option (mem A)).
Fixpoint safe_loop (d : side) (fuel : nat) (m : mem A) (node next : Z) : option (mem A * list Z) :=
  match fuel with
  | O => None
  | S fuel =>
      if node =? 0 then Some (m, [])
      else
        m ← body m node;
        next' ← step_or_null d m next;
        '(m, l) ← safe_loop d fuel m next next';
        Some (m, node :: l)
  end.
Definition rb_tree_foreach_safe (m : mem A) : option (mem A * list Z) :=
  node ← rb_tree_first m; next ← step_or_null R m node; safe_loop R (fuel_of m) m node next.
Definition rb_tree_foreach_rev_safe (m : mem A) : option (mem A * list Z) :=
  node ← rb_tree_last m; prev ← step_or_null L m node; safe_loop L (fuel_of m) m node prev.
End safe.

(** ** Search

    [cmp] is the comparison with the key that is searched. *)
Section search.
Context (cmp : Z -> Z).

(** [while (true) { prev = rb_node_prev(x); ... }] *)
Fixpoint first_match (fuel : nat) (m : mem A) (x : Z) : option Z :=
  match fuel with
  | O => None
  | S fuel =>
      prev ← rb_node_prev m x;
      if (prev =? 0) || negb (cmp prev =? 0) then Some x else first_match fuel m prev
  end.

Fixpoint search_loop (fuel : nat) (m : mem A) (x : Z) : option Z :=
  match fuel with
  | O => None
  | S fuel =>
      if x =? 0 then Some x
      else
        n ← load m x;
        let c := cmp x in
        if c <? 0 then search_loop fuel m (n_left n)
        else if c >? 0 then search_loop fuel m (n_right n)
        else first_match (fuel_of m) m x
  end.
Definition rb_tree_search (m : mem A) : option Z := search_loop (fuel_of m) m (root m).

Fixpoint sloppy_loop (fuel : nat) (m : mem A) (x y : Z) : option Z :=
  match fuel with
  | O => None
  | S fuel =>
      if x =? 0 then Some y
      else
        n ← load m x;
        let c := cmp x in
        if c <? 0 then sloppy_loop fuel m (n_left n) x
        else if c >? 0 then sloppy_loop fuel m (n_right n) x
        else Some x
  end.
Definition rb_tree_search_sloppy (m : mem A) : option Z := sloppy_loop (fuel_of m) m (root m) 0.
End search.

(** ** Validation *)

(** [None] is a failed assertion; the recursion follows the tree in memory. *)
Fixpoint validate_rb_node (fuel : nat) (m : mem A) (n black_depth : Z) : option unit :=
  match fuel with
  | O => None
  | S fuel =>
      if n =? 0 then assert! black_depth =? 0 ;; Some tt
      else
        c ← load m n;
        black ← rb_node_is_black m n;
        black_depth ← (if (black : bool) then Some (black_depth - 1)
                       else
                         b1 ← rb_node_is_black m (n_left c);
                         assert! b1 ;;
                         b2 ← rb_node_is_black m (n_right c);
                         assert! b2 ;;
                         Some black_depth);
        _ ← validate_rb_node fuel m (n_left c) black_depth;
        validate_rb_node fuel m (n_right c) black_depth
  end.

(** [for (n = T->root; n; n = n->left) if (rb_node_is_black(n)) black_depth++;] *)
Fixpoint black_depth_loop (fuel : nat) (m : mem A) (n black_depth : Z) : option Z :=
  match fuel with
  | O => None
  | S fuel =>
      if n =? 0 then Some black_depth
      else
        black ← rb_node_is_black m n;
        c ← load m n;
        black_depth_loop fuel m (n_left c) (if (black : bool) then black_depth + 1 else black_depth)
  end.

Definition rb_tree_validate (m : mem A) : option unit :=
  if root m =? 0 then Some tt
  else
    b ← rb_node_is_black m (root m);
    assert! b ;;
    black_depth ← black_depth_loop (fuel_of m) m (root m) 0;
    validate_rb_node (fuel_of m) m (root m) black_depth.
End queries.

(** ** Order in a direction *)

#[export] Instance side_eq_dec : EqDecision side.
Proof. solve_decision. Defined.

Section order.
Context {A : Type}.
Implicit Types (t : tree A) (ctx : list (frame A)) (m : mem A).

(** The nodes in the order in which steps to side [d] visit them. *)
Definition iord (d : side) (l : list Z) : list Z := match d with R => l | L => reverse l end.
Fixpoint ctx_next (d : side) ctx : list Z :=
  match ctx with
  | [] => []
  | f :: ctx => (if bool_decide (f_side f = d) then [] else f_addr f :: iord d (inorder (f_sib f))) ++ ctx_next d ctx
  end.
Fixpoint ctx_prev (d : side) ctx : list Z :=
  match ctx with
  | [] => []
  | f :: ctx => ctx_prev d ctx ++ (if bool_decide (f_side f = d) then iord d (inorder (f_sib f)) ++ [f_addr f] else [])
  end.

Lemma iord_mk d c t1 a v t2 : iord d (inorder (mk d c t1 a v t2)) = iord d (inorder t2) ++ a :: iord d (inorder t1).
Proof. destruct d; cbn [iord mk inorder]; [|done]. by rewrite reverse_app, reverse_cons, <- app_assoc. Qed.

Lemma iord_plug d ctx t : iord d (inorder (plug ctx t)) = ctx_prev d ctx ++ iord d (inorder t) ++ ctx_next d ctx.
Proof.
  revert t. induction ctx as [|f ctx IH]; intros t; cbn [plug ctx_prev ctx_next]; [by rewrite app_nil_r|]. rewrite IH. unfold fill.
  case_bool_decide as E.
  - rewrite E, iord_mk, <- !app_assoc. done.
  - assert (E' : f_side f = opp d) by (destruct (f_side f), d; done). rewrite E', mk_opp, iord_mk, app_nil_r, <- !app_assoc. done.
Qed.

Lemma ctx_prev_all d ctx : Forall (fun f => f_side f = opp d) ctx -> ctx_prev d ctx = [].
Proof. induction 1 as [|f ctx Hf _ IH]; [done|]. cbn. rewrite IH, Hf. by destruct d. Qed.

(** The extreme node of a subtree comes first. *)
Lemma extreme_head d m ctx t : zip m ctx t -> t <> Leaf ->
  extreme_loop (opp d) (fuel_of m) m (ptr t) = Some (hd 0 (iord d (inorder t))).
Proof.
  intros Hz Ht. destruct (extreme_place (opp d) m (fuel_of m) ctx t Hz Ht (size_fuel _ _ _ Hz)) as (ctx' & c & a & v & t2 & E & -> & _ & Hs).
  rewrite E, iord_plug, ctx_prev_all by done. rewrite mk_opp, iord_mk. by destruct d.
Qed.

(** Climbing goes to the next node above. *)
Lemma climb_next d m : forall ctx t fuel, zip m ctx t -> t <> Leaf -> (length ctx < fuel)%nat ->
  exists node, climb d fuel m (ptr t) (ctx_parent ctx) = Some (node, hd 0 (ctx_next d ctx))
    /\ (if hd 0 (ctx_next d ctx) =? 0 then Some true
        else cp ← load m (hd 0 (ctx_next d ctx)); Some (node =? child (opp d) cp)) = Some true.
Proof.
  induction ctx as [|f ctx IH]; intros t [|fuel] Hz Ht Hf; cbn [length] in Hf; [lia| |lia|]; cbn [climb ctx_parent].
  { by exists (ptr t). }
  pose proof (proj2 (zip_down _ _ _ _) Hz) as Hzp. unfold fill in Hzp. pose proof (zip_addr _ _ _ _ _ _ _ _ Hzp) as Vp.
  rewrite (valid_neq0 _ Vp), (zip_load _ _ _ _ _ _ _ _ Hzp). cbn [mbind option_bind ctx_next].
  destruct (bool_decide_reflect (f_side f = d)) as [E|E].
  - rewrite E, child_cell, Z.eqb_refl, (zip_parent _ _ _ _ _ _ _ _ Hzp). cbn [mbind option_bind app].
    destruct (IH _ fuel Hzp (mk_nonleaf _ _ _ _ _ _) ltac:(lia)) as (node & E1 & E2). rewrite ptr_mk in E1. by exists node.
  - assert (E' : f_side f = opp d) by (destruct (f_side f), d; done). rewrite E' in *. exists (ptr t). cbn [app hd].
    replace d with (opp (opp d)) at 1 by apply opp_opp. rewrite child_opp_cell.
    rewrite (ptr_neq m (update := None) (U := fun _ v _ _ => v) m ctx _ _ _ _ _ _ Hzp Ht). split; [done|].
    rewrite (valid_neq0 _ Vp), (zip_load _ _ _ _ _ _ _ _ Hzp). cbn [mbind option_bind]. by rewrite child_cell, Z.eqb_refl.
Qed.

(** A step goes to the next node in the direction. *)
Lemma step_zip d m ctx c t1 a v t2 : zip m ctx (mk d c t1 a v t2) ->
  rb_node_step d m a = Some (hd 0 (iord d (inorder t1) ++ ctx_next d ctx)).
Proof.
  intros Hz. unfold rb_node_step. rewrite (zip_load _ _ _ _ _ _ _ _ Hz). cbn [mbind option_bind]. rewrite child_cell.
  pose proof (proj1 (zip_near _ _ _ _ _ _ _ _) Hz) as Hz1. rewrite (zip_ptr0 _ _ _ Hz1). destruct (leaf_dec t1) as [->|H1].
  - cbn [negb]. rewrite (zip_parent _ _ _ _ _ _ _ _ Hz). cbn [mbind option_bind].
    destruct (climb_next d m ctx _ (fuel_of m) Hz (mk_nonleaf _ _ _ _ _ _)) as (node & E1 & E2).
    { by eapply (zip_fuel (update := None) (U := fun _ v _ _ => v)). }
    rewrite ptr_mk in E1. rewrite E1. cbn [mbind option_bind]. rewrite E2. cbn [mbind option_bind]. by destruct d.
  - rewrite (nonleaf_match t1 H1). cbn [negb]. rewrite (extreme_head d m _ t1 Hz1 H1). f_equal.
    destruct t1 as [|c1 l1 a1 v1 r1]; [done|]. destruct d; cbn [iord inorder]; [|by destruct (inorder l1)].
    rewrite reverse_app, reverse_cons. by destruct (reverse (inorder r1)).
Qed.
End order.

(** ** Iteration visits the nodes in order *)

Section iteration.
Context {A : Type}.
Implicit Types (t : tree A) (ctx : list (frame A)) (m : mem A).

(** The memory holds a tree with the nodes [l] in order. *)
Definition holds m (l : list Z) : Prop := exists t, zip m [] t /\ inorder t = l.

Lemma rb_repr_holds U m l : rb_repr (U := U) m l -> holds m l.
Proof. intros (t & N & Hz & _ & _ & _ & Hl). by exists t. Qed.

Lemma iord_perm d l : iord d l ≡ₚ l.
Proof. destruct d; [apply reverse_Permutation|done]. Qed.
Lemma holds_wf m l : holds m l -> wf l.
Proof. intros (t & (_ & _ & _ & Hw) & <-). done. Qed.
Lemma holds_fuel m l : holds m l -> (length l < fuel_of m)%nat.
Proof.
  intros (t & Hz & <-). pose proof (zip_size (update := None) (U := fun _ v _ _ => v) _ _ _ Hz). unfold fuel_of. cbn in *. lia.
Qed.

Lemma step_holds d m l l1 a l2 : holds m l -> iord d l = l1 ++ a :: l2 -> rb_node_step d m a = Some (hd 0 l2).
Proof.
  intros Hh E. pose proof (holds_wf _ _ Hh) as [Hnd _]. destruct Hh as (t & Hz & <-).
  destruct (find_place t a) as (ctx & c & l & v & r & ->).
  { rewrite <- (iord_perm d), E. set_solver. }
  apply zip_plug in Hz. assert (Ht : exists t1 t2, Node c l a v r = mk d c t1 a v t2) by (destruct d; eauto). destruct Ht as (t1 & t2 & Et).
  rewrite Et in *. rewrite (step_zip _ _ _ _ _ _ _ _ Hz).
  assert (Hnd' : NoDup (l1 ++ a :: l2)) by (rewrite <- E; by rewrite iord_perm). rewrite iord_plug, iord_mk in E.
  assert (E' : l1 ++ a :: l2 = (ctx_prev d ctx ++ iord d (inorder t2)) ++ a :: (iord d (inorder t1) ++ ctx_next d ctx)).
  { rewrite <- E, <- !app_assoc. done. }
  by destruct (split_unique _ _ _ _ _ Hnd' E') as [_ <-].
Qed.

Lemma end_holds d m l : holds m l -> (if root m =? 0 then Some 0 else extreme_loop (opp d) (fuel_of m) m (root m)) = Some (hd 0 (iord d l)).
Proof.
  intros (t & Hz & <-). pose proof Hz as (Hr & _). cbn in Hr. rewrite Hr, (zip_ptr0 _ _ _ Hz). destruct (leaf_dec t) as [->|Ht]; [by destruct d|].
  rewrite (nonleaf_match t Ht). by apply (extreme_head d m []).
Qed.

Lemma foreach_holds d m l l2 : forall l1 fuel, holds m l -> iord d l = l1 ++ l2 -> (length l2 < fuel)%nat ->
  foreach_loop d fuel m (hd 0 l2) = Some l2.
Proof.
  induction l2 as [|a l2 IH]; intros l1 [|fuel] Hh E Hf; cbn [length] in Hf; [lia|done|lia|]. cbn [foreach_loop hd].
  assert (Va : valid a).
  { pose proof (holds_wf _ _ Hh) as [_ Hv]. rewrite Forall_forall in Hv. apply Hv. rewrite <- (iord_perm d), E. set_solver. }
  rewrite (valid_neq0 a Va), (step_holds d m l l1 a l2 Hh E). cbn [mbind option_bind].
  rewrite (IH (l1 ++ [a]) fuel Hh) by (lia || by rewrite <- app_assoc). done.
Qed.

Lemma iord_iord d l : iord d (iord d l) = l.
Proof. destruct d; cbn; [apply reverse_involutive|done]. Qed.

Lemma step_or_null_holds d m k r : holds m (iord d (k ++ r)) -> step_or_null d m (hd 0 r) = Some (hd 0 (tail r)).
Proof.
  intros Hh. unfold step_or_null. destruct r as [|a r]; [done|]. cbn [hd tail].
  assert (Va : valid a). { pose proof (holds_wf _ _ Hh) as [_ Hv]. rewrite Forall_forall in Hv. apply Hv. rewrite iord_perm. set_solver. }
  rewrite (valid_neq0 a Va). apply (step_holds d m _ k a r Hh). apply iord_iord.
Qed.
End iteration.

(** Iterating over a tree in memory visits every node exactly once, in order:
    [rb_tree_foreach] gives the nodes from first to last, [rb_tree_foreach_rev] from last
    to first, [rb_node_next] and [rb_node_prev] of a node are its neighbours or NULL at the
    ends, and no assertion fails. *)
Theorem rb_tree_iteration_correct {A} (m : mem A) l :
  holds m l ->
  rb_tree_foreach m = Some l /\ rb_tree_foreach_rev m = Some (reverse l)
  /\ (forall l1 a l2, l = l1 ++ a :: l2 ->
        rb_node_next m a = Some (hd 0 l2) /\ rb_node_prev m a = Some (hd 0 (reverse l1))).
Proof.
  intros Hh. pose proof (holds_fuel _ _ Hh) as Hf. split_and!.
  - unfold rb_tree_foreach, rb_tree_first, rb_node_minimum. change L with (opp R) at 1. rewrite (end_holds R m l Hh). cbn [mbind option_bind].
    by apply (foreach_holds R m l l []).
  - unfold rb_tree_foreach_rev, rb_tree_last, rb_node_maximum. change (extreme_loop R) with (extreme_loop (A := A) (opp L)). rewrite (end_holds L m l Hh). cbn [mbind option_bind].
    apply (foreach_holds L m l (reverse l) []); [done|done|by rewrite length_reverse].
  - intros l1 a l2 ->. split.
    + by apply (step_holds R m _ l1 a l2 Hh).
    + apply (step_holds L m _ (reverse l2) a (reverse l1) Hh). cbn [iord]. by rewrite reverse_app, reverse_cons, <- app_assoc.
Qed.

Lemma rb_tree_iteration_witness :
  rb_tree_foreach two_nodes = Some [16; 32] /\ rb_tree_foreach_rev two_nodes = Some (reverse [16; 32])
  /\ (forall l1 a l2, [16; 32] = l1 ++ a :: l2 ->
        rb_node_next two_nodes a = Some (hd 0 l2) /\ rb_node_prev two_nodes a = Some (hd 0 (reverse l1))).
Proof. apply (rb_tree_iteration_correct two_nodes [16; 32]). eapply rb_repr_holds. apply two_nodes_repr. Defined.

(** ** Iteration with removal *)

Section safe_iteration.
Context {A : Type} {update : option (mem A -> Z -> option (mem A))} {U : Z -> A -> option A -> option A -> A}.
Context `{!Augmented update U} (keep : Z -> bool).
Implicit Types (m : mem A).
Notation rb_repr := (rb_repr (U := U)).

(** A loop body that removes the nodes that are not kept. *)
Definition prune m (a : Z) : option (mem A) := if keep a then Some m else rb_augmented_tree_remove update m a.

Lemma prune_repr d m k a r : rb_repr m (iord d (k ++ a :: r)) ->
  exists m', prune m a = Some m' /\ rb_repr m' (iord d ((k ++ filter (fun b => keep b = true) [a]) ++ r)).
Proof using Type*.
  intros Hr. unfold prune. rewrite <- app_assoc. destruct (keep a) eqn:E.
  - exists m. rewrite filter_cons_True by done. done.
  - rewrite filter_cons_False by (by rewrite E). cbn [filter list_filter app]. destruct d; cbn [iord] in *.
    + rewrite reverse_app, reverse_cons, <- app_assoc in Hr. rewrite reverse_app. destruct (remove_repr m _ _ _ Hr) as (m' & E1 & Hr' & _). by exists m'.
    + destruct (remove_repr m _ _ _ Hr) as (m' & E1 & Hr' & _). by exists m'.
Qed.

Lemma safe_loop_repr d r : forall m k fuel, rb_repr m (iord d (k ++ r)) -> (length r < fuel)%nat ->
  exists m', safe_loop prune d fuel m (hd 0 r) (hd 0 (tail r)) = Some (m', r)
    /\ rb_repr m' (iord d (k ++ filter (fun b => keep b = true) r)).
Proof using Type*.
  induction r as [|a r IH]; intros m k [|fuel] Hr Hf; cbn [length] in Hf; [lia|by exists m|lia|]. cbn [safe_loop hd tail].
  assert (Va : valid a).
  { pose proof (holds_wf _ _ (rb_repr_holds _ _ _ Hr)) as [_ Hv]. rewrite Forall_forall in Hv. apply Hv. rewrite iord_perm. set_solver. }
  rewrite (valid_neq0 a Va). destruct (prune_repr d m k a r Hr) as (m1 & -> & Hr1). cbn [mbind option_bind].
  rewrite (step_or_null_holds d m1 _ r (rb_repr_holds _ _ _ Hr1)). cbn [mbind option_bind].
  destruct (IH m1 _ fuel Hr1 ltac:(lia)) as (m2 & -> & Hr2). exists m2. split; [done|].
  by rewrite <- app_assoc, <- (filter_app _ [a] r) in Hr2.
Qed.
End safe_iteration.

(** Pruning a tree in a loop that allows the current node to be removed
    ([rb_tree_foreach_safe], [rb_tree_foreach_rev_safe]) visits every node exactly once,
    from first to last or from last to first, although the tree is rebalanced under
    the loop, and leaves a red-black tree with exactly the nodes that were to be kept. *)
Theorem rb_tree_foreach_safe_correct {A} (update : option (mem A -> Z -> option (mem A)))
    (U : Z -> A -> option A -> option A -> A) (keep : Z -> bool) (m : mem A) l :
  Augmented update U -> rb_repr (U := U) m l ->
  exists m1 m2, rb_tree_foreach_safe (prune (update := update) keep) m = Some (m1, l)
    /\ rb_tree_foreach_rev_safe (prune (update := update) keep) m = Some (m2, reverse l)
    /\ rb_repr (U := U) m1 (filter (fun a => keep a = true) l)
    /\ rb_repr (U := U) m2 (filter (fun a => keep a = true) l).
Proof.
  intros Hu Hr. pose proof (rb_repr_holds _ _ _ Hr) as Hh. pose proof (holds_fuel _ _ Hh) as Hf.
  destruct (safe_loop_repr keep R l m [] (fuel_of m) Hr Hf) as (m1 & E1 & Hr1).
  assert (HrL : rb_repr (U := U) m (iord L ([] ++ reverse l))) by (cbn [iord app]; by rewrite reverse_involutive).
  destruct (safe_loop_repr keep L (reverse l) m [] (fuel_of m) HrL) as (m2 & E2 & Hr2); [by rewrite length_reverse|]. exists m1, m2. split_and!.
  - unfold rb_tree_foreach_safe, rb_tree_first, rb_node_minimum. change L with (opp R) at 1. rewrite (end_holds R m l Hh). cbn [mbind option_bind iord].
    rewrite (step_or_null_holds R m [] l Hh). done.
  - unfold rb_tree_foreach_rev_safe, rb_tree_last, rb_node_maximum. change (extreme_loop R) with (extreme_loop (A := A) (opp L)).
    rewrite (end_holds L m l Hh). cbn [mbind option_bind iord]. rewrite (step_or_null_holds L m [] (reverse l) (rb_repr_holds _ _ _ HrL)). done.
  - done.
  - cbn [iord app] in Hr2. by rewrite filter_reverse, reverse_involutive in Hr2.
Qed.

Lemma rb_tree_foreach_safe_witness :
  exists m1 m2, rb_tree_foreach_safe (prune (update := None) (fun a => a =? 16)) two_nodes = Some (m1, [16; 32])
    /\ rb_tree_foreach_rev_safe (prune (update := None) (fun a => a =? 16)) two_nodes = Some (m2, reverse [16; 32])
    /\ rb_repr (U := fun _ v _ _ => v) m1 [16] /\ rb_repr (U := fun _ v _ _ => v) m2 [16].
Proof.
  apply (rb_tree_foreach_safe_correct None (fun _ v _ _ => v) (fun a => a =? 16) two_nodes [16; 32]); [apply no_update|apply two_nodes_repr].
Defined.

(** ** Search *)

Section search.
Context {A : Type} (cmp : Z -> Z).
Implicit Types (t : tree A) (ctx : list (frame A)) (m : mem A).

(** The comparison with the key is positive on the nodes before it, then 0, then negative. *)
Definition key_order (a b : Z) : Prop := Z.sgn (cmp b) <= Z.sgn (cmp a).
Definition smaller (a : Z) : Prop := 0 < cmp a.
Definition equal (a : Z) : Prop := cmp a = 0.
Definition greater (a : Z) : Prop := cmp a < 0.

Lemma sign_split l : StronglySorted key_order l ->
  exists l1 l2 l3, l = l1 ++ l2 ++ l3 /\ Forall smaller l1 /\ Forall equal l2 /\ Forall greater l3.
Proof.
  induction 1 as [|a l Hs (l1 & l2 & l3 & -> & F1 & F2 & F3) Ha]; [by exists [], [], []|].
  assert (Hsgn : forall b, b ∈ l1 ++ l2 ++ l3 -> Z.sgn (cmp b) <= Z.sgn (cmp a)) by (rewrite Forall_forall in Ha; exact Ha).
  unfold smaller, equal, greater in *. destruct (Z.lt_trichotomy (cmp a) 0) as [Hlt|[Heq|Hgt]].
  - exists [], [], (a :: l1 ++ l2 ++ l3). split_and!; [done..|]. constructor; [done|]. rewrite Forall_forall. intros b Hb.
    specialize (Hsgn b Hb). lia.
  - destruct l1 as [|b l1].
    + exists [], (a :: l2), l3. split_and!; try done. by constructor.
    + specialize (Hsgn b ltac:(set_solver)). apply Forall_cons in F1 as [F1 _]. lia.
  - exists (a :: l1), l2, l3. split_and!; try done. by constructor.
Qed.

(** Going left or right from a node that does not match. *)
Lemma go_left l a r : StronglySorted key_order (l ++ a :: r) -> cmp a < 0 -> Forall greater (a :: r).
Proof.
  rewrite StronglySorted_app. intros (_ & _ & Hr) Ha. apply StronglySorted_inv in Hr as [_ Hr]. constructor; [done|].
  eapply Forall_impl; [exact Hr|]. unfold key_order, greater. intros b Hb. lia.
Qed.
Lemma go_right l a r : StronglySorted key_order (l ++ a :: r) -> 0 < cmp a -> Forall smaller (l ++ [a]).
Proof.
  rewrite StronglySorted_app. intros (Hl & _ & _) Ha. apply Forall_app. split; [|by constructor]. rewrite Forall_forall.
  intros b Hb. specialize (Hl b a Hb ltac:(set_solver)). unfold key_order, smaller in *. lia.
Qed.

Lemma first_match_holds m l l1 : forall p fuel a q l3, holds m l -> l = l1 ++ (p ++ a :: q) ++ l3 ->
  Forall smaller l1 -> Forall equal (p ++ a :: q) -> (length p < fuel)%nat ->
  first_match cmp fuel m a = Some (hd 0 (p ++ a :: q)).
Proof.
  intros p fuel. revert p. induction fuel as [|fuel IH]; intros p a q l3 Hh E F1 F2 Hf; [lia|]. cbn [first_match]. unfold rb_node_prev.
  assert (Es : rb_node_step L m a = Some (hd 0 (reverse (l1 ++ p)))).
  { apply (step_holds L m l (reverse (q ++ l3)) a (reverse (l1 ++ p)) Hh). cbn [iord].
    replace l with ((l1 ++ p) ++ a :: (q ++ l3)) by (rewrite E, <- !app_assoc; done). by rewrite reverse_app, reverse_cons, <- app_assoc. }
  rewrite Es. cbn [mbind option_bind]. destruct p as [|b p _] using rev_ind.
  - rewrite app_nil_r. cbn [app hd]. destruct l1 as [|b l1 _] using rev_ind; [done|]. rewrite reverse_snoc. cbn [hd].
    apply Forall_app in F1 as [_ F1]. apply Forall_cons in F1 as [F1 _]. unfold smaller in F1.
    replace (cmp b =? 0) with false by (symmetry; apply Z.eqb_neq; lia). by rewrite orb_true_r.
  - rewrite app_assoc, reverse_snoc. cbn [hd]. assert (Fb : cmp b = 0).
    { rewrite Forall_app, Forall_app, Forall_cons in F2. apply F2. }
    assert (Vb : valid b).
    { pose proof (holds_wf _ _ Hh) as [_ Hv]. rewrite Forall_forall in Hv. apply Hv. rewrite E. set_solver. }
    rewrite (valid_neq0 b Vb), Fb. cbn [orb negb Z.eqb]. rewrite (IH p b (a :: q) l3 Hh).
    + by rewrite <- app_assoc.
    + rewrite E. by rewrite <- !app_assoc.
    + done.
    + by rewrite <- app_assoc in F2.
    + rewrite length_app in Hf. cbn in Hf. lia.
Qed.

Lemma search_loop_zip m fuel : forall ctx t, zip m ctx t -> StronglySorted key_order (inorder t) -> (length (inorder t) < fuel)%nat ->
  (Forall (fun a => cmp a <> 0) (inorder t) /\ search_loop cmp fuel m (ptr t) = Some 0)
  \/ exists a, a ∈ inorder t /\ cmp a = 0 /\ search_loop cmp fuel m (ptr t) = first_match cmp (fuel_of m) m a.
Proof.
  induction fuel as [|fuel IH]; intros ctx t Hz Hs Hf; [lia|]. cbn [search_loop]. destruct t as [|c l a v r]; [by left|].
  cbn [ptr inorder] in *. rewrite (valid_neq0 a) by (by eapply (zip_addr m ctx L c l a v r)).
  rewrite (zip_load m ctx L c l a v r Hz). cbn [mbind option_bind cell n_left n_right]. rewrite length_app in Hf. cbn in Hf.
  pose proof Hs as Hs'. apply StronglySorted_app in Hs' as (_ & Hsl & Hsr). apply StronglySorted_inv in Hsr as [Hsr _].
  destruct (Z.ltb_spec (cmp a) 0) as [Hlt|Hge].
  - pose proof (go_left _ _ _ Hs Hlt) as Hg. apply (zip_near m ctx L c l a v r) in Hz.
    destruct (IH _ l Hz Hsl ltac:(lia)) as [[F E]|(b & Hb & Eb & E)]; [left|right].
    + split; [|done]. apply Forall_app. split; [done|]. eapply Forall_impl; [exact Hg|]. unfold greater. intros; lia.
    + exists b. split; [set_solver|done].
  - rewrite Z.gtb_ltb. destruct (Z.ltb_spec 0 (cmp a)) as [Hgt|Hle].
    + pose proof (go_right _ _ _ Hs Hgt) as Hg. apply (zip_far m ctx L c l a v r) in Hz.
      destruct (IH _ r Hz Hsr ltac:(lia)) as [[F E]|(b & Hb & Eb & E)]; [left|right].
      * split; [|done]. rewrite (cons_middle a), app_assoc. apply Forall_app. split; [|done]. eapply Forall_impl; [exact Hg|]. unfold smaller. intros; lia.
      * exists b. split; [set_solver|done].
    + right. exists a. split; [set_solver|]. split; [lia|done].
Qed.

(** The place a search ends at, between the smaller and the greater nodes. *)
Lemma sloppy_loop_zip m fuel : forall ctx t, zip m ctx t -> StronglySorted key_order (inorder t) -> (length (inorder t) < fuel)%nat ->
  Forall smaller (ctx_before ctx) -> Forall greater (ctx_after ctx) ->
  exists x, sloppy_loop cmp fuel m (ptr t) (ctx_parent ctx) = Some x
    /\ ((x ∈ inorder t /\ cmp x = 0)
        \/ exists l1 l3, inorder (plug ctx t) = l1 ++ l3 /\ Forall smaller l1 /\ Forall greater l3
             /\ (x = 0 /\ l1 ++ l3 = [] \/ last l1 = Some x \/ head l3 = Some x)).
Proof.
  induction fuel as [|fuel IH]; intros ctx t Hz Hs Hf Fb Fa; [lia|]. cbn [sloppy_loop]. destruct t as [|c l a v r].
  { exists (ctx_parent ctx). split; [done|]. right. exists (ctx_before ctx), (ctx_after ctx). rewrite inorder_plug. split_and!; [done..|].
    destruct ctx as [|f ctx]; [by left|right]. cbn [ctx_before ctx_after ctx_parent]. destruct (f_side f); [by right|left].
    by rewrite app_assoc, last_snoc. }
  cbn [ptr inorder] in *. rewrite (valid_neq0 a) by (by eapply (zip_addr m ctx L c l a v r)).
  rewrite (zip_load m ctx L c l a v r Hz). cbn [mbind option_bind cell n_left n_right]. rewrite length_app in Hf. cbn in Hf.
  pose proof Hs as Hs'. apply StronglySorted_app in Hs' as (_ & Hsl & Hsr). apply StronglySorted_inv in Hsr as [Hsr _].
  destruct (Z.ltb_spec (cmp a) 0) as [Hlt|Hge].
  - pose proof (go_left _ _ _ Hs Hlt) as Hg. apply (zip_near m ctx L c l a v r) in Hz.
    destruct (IH _ l Hz Hsl ltac:(lia)) as (x & E & H); [cbn; by rewrite app_nil_r|cbn [ctx_after f_side f_addr f_sib]; by apply Forall_app|].
    exists x. split; [done|]. destruct H as [[H1 H2]|H]; [left; split; [set_solver|done]|right]. exact H.
  - rewrite Z.gtb_ltb. destruct (Z.ltb_spec 0 (cmp a)) as [Hgt|Hle].
    + pose proof (go_right _ _ _ Hs Hgt) as Hg. apply (zip_far m ctx L c l a v r) in Hz.
      destruct (IH _ r Hz Hsr ltac:(lia)) as (x & E & H); [cbn; by apply Forall_app|done|].
      exists x. split; [done|]. destruct H as [[H1 H2]|H]; [left; split; [set_solver|done]|right]. exact H.
    + exists a. split; [done|]. left. split; [set_solver|lia].
Qed.
End search.

(** On a tree sorted for the comparison, [rb_tree_search] returns the first of the
    matching nodes, or NULL exactly if there is none; [rb_tree_search_sloppy] returns a
    matching node if there is one, and else a neighbour of the key: the last smaller node or
    the first greater one, or NULL for the empty tree. *)
Theorem rb_tree_search_correct {A} (cmp : Z -> Z) (m : mem A) l :
  holds m l -> StronglySorted (key_order cmp) l ->
  exists l1 l2 l3 x, l = l1 ++ l2 ++ l3 /\ Forall (smaller cmp) l1 /\ Forall (equal cmp) l2 /\ Forall (greater cmp) l3
    /\ rb_tree_search cmp m = Some (hd 0 l2)
    /\ rb_tree_search_sloppy cmp m = Some x
    /\ (if bool_decide (l2 = []) then x = 0 /\ l = [] \/ list.last l1 = Some x \/ list.head l3 = Some x else x ∈ l2).
Proof.
  intros Hh Hs. destruct (sign_split cmp l Hs) as (l1 & l2 & l3 & E & F1 & F2 & F3). pose proof (holds_fuel _ _ Hh) as Hf.
  pose proof Hh as (t & Hz & Hl). pose proof Hz as (Hr & _). cbn in Hr. rewrite <- Hl in Hs, Hf.
  assert (Hmatch : forall a, a ∈ l -> cmp a = 0 -> a ∈ l2).
  { intros a Ha E0. rewrite E, !elem_of_app in Ha. rewrite Forall_forall in F1, F3. unfold smaller, greater in *.
    destruct Ha as [Ha|[Ha|Ha]]; [specialize (F1 a Ha); lia|done|specialize (F3 a Ha); lia]. }
  destruct (sloppy_loop_zip cmp m (fuel_of m) [] t Hz Hs Hf ltac:(done) ltac:(done)) as (x & Ex & Hx).
  exists l1, l2, l3, x. split; [done|]. split; [done|]. split; [done|]. split; [done|]. split; [|split].
  - unfold rb_tree_search. rewrite Hr. destruct (search_loop_zip cmp m (fuel_of m) [] t Hz Hs Hf) as [[F ->]|(a & Ha & E0 & ->)].
    + destruct l2 as [|b l2]; [done|]. apply Forall_cons in F2 as [F2 _]. rewrite Hl, E, Forall_app, Forall_app, Forall_cons in F.
      unfold equal in F2. destruct F as (_ & (F & _) & _). done.
    + rewrite Hl in Ha. specialize (Hmatch a Ha E0). apply list_elem_of_split in Hmatch as (p & q & ->).
      eapply (first_match_holds cmp m l l1); [done|exact E|done|done|]. rewrite Hl in Hf. rewrite E, !length_app in Hf. lia.
  - unfold rb_tree_search_sloppy. by rewrite Hr.
  - rewrite Hl in Hx. cbn [plug] in Hx. destruct Hx as [[H1 H2]|(k1 & k3 & Ek & G1 & G3 & Hx)].
    + specialize (Hmatch x H1 H2). case_bool_decide as E2; [rewrite E2 in Hmatch; by apply not_elem_of_nil in Hmatch|done].
    + assert (E2 : l2 = []).
      { destruct l2 as [|b l2]; [done|]. apply Forall_cons in F2 as [F2 _]. unfold equal in F2.
        assert (Hb : b ∈ k1 ++ k3) by (rewrite <- Ek, Hl, E; set_solver). rewrite Forall_forall in G1, G3. unfold smaller, greater in *.
        apply elem_of_app in Hb as [Hb|Hb]; [specialize (G1 b Hb)|specialize (G3 b Hb)]; lia. }
      rewrite bool_decide_true by done. rewrite E2 in E. cbn in E. rewrite Hl in Ek. assert (El : l1 = k1 /\ l3 = k3).
      { rewrite E in Ek. clear -F1 F3 G1 G3 Ek. unfold smaller, greater in *. revert k1 Ek G1.
        induction l1 as [|b l1 IH]; intros [|b' k1] Ek G1; cbn in Ek.
        - done.
        - rewrite Ek in F3. apply Forall_cons in F3 as [F3 _]. apply Forall_cons in G1 as [G1 _]. lia.
        - rewrite <- Ek in G3. apply Forall_cons in G3 as [G3 _]. apply Forall_cons in F1 as [F1 _]. lia.
        - simplify_eq. apply Forall_cons in F1 as [_ F1]. apply Forall_cons in G1 as [_ G1]. destruct (IH F1 k1) as [-> ->]; done. }
      destruct El as [-> ->]. destruct Hx as [[-> Hx]|Hx]; [left|by right]. split; [done|]. by rewrite E.
Qed.

Lemma rb_tree_search_witness :
  exists l1 l2 l3 x, [16; 32] = l1 ++ l2 ++ l3 /\ Forall (smaller (fun a => 32 - a)) l1 /\ Forall (equal (fun a => 32 - a)) l2
    /\ Forall (greater (fun a => 32 - a)) l3
    /\ rb_tree_search (fun a => 32 - a) two_nodes = Some (hd 0 l2)
    /\ rb_tree_search_sloppy (fun a => 32 - a) two_nodes = Some x
    /\ (if bool_decide (l2 = []) then x = 0 /\ [16; 32] = [] \/ list.last l1 = Some x \/ list.head l3 = Some x else x ∈ l2).
Proof.
  apply (rb_tree_search_correct (fun a => 32 - a) two_nodes [16; 32]).
  - eapply rb_repr_holds. apply two_nodes_repr.
  - repeat constructor; unfold key_order; cbn; lia.
Defined.

(** Without a match the greater neighbour is the left-most greater node; the comment says
    the right-most one. *)
Lemma search_sloppy_leftmost_greater :
  rb_tree_search_sloppy (fun a => 10 - a) two_nodes = Some 16 /\ 10 - 16 < 0 /\ 10 - 32 < 0.
Proof. split; [reflexivity|lia]. Qed.

(** ** Validation *)

Section validation.
Context {A : Type}.
Implicit Types (t : tree A) (ctx : list (frame A)) (m : mem A).

Lemma is_black_true c : is_black c = true <-> c = Black.
Proof. by destruct c. Qed.

Lemma validate_node_iff m : forall t ctx fuel n, zip m ctx t -> (length (inorder t) < fuel)%nat ->
  validate_rb_node fuel m (ptr t) n = Some tt <-> exists k, n = Z.of_nat k /\ rb k t.
Proof.
  induction t as [|c l IHl a v r IHr]; intros ctx [|fuel] n Hz Hf; cbn [inorder length] in Hf; [lia| |lia|]; cbn [validate_rb_node ptr].
  { change (0 =? 0) with true. cbv iota. destruct (Z.eqb_spec n 0) as [->|Hn]; split.
    - intros _. exists 0%nat. split; [done|constructor].
    - done.
    - done.
    - intros (k & -> & H). inversion H. subst. lia. }
  rewrite (valid_neq0 a) by (by eapply (zip_addr m ctx L c l a v r)). rewrite (zip_load m ctx L c l a v r Hz). cbn [mbind option_bind].
  pose proof (zip_is_black _ _ _ Hz) as Eb. cbn [ptr col] in Eb. rewrite Eb. cbn [mbind option_bind cell n_left n_right].
  pose proof (proj1 (zip_near m ctx L c l a v r) Hz) as Hzl. pose proof (proj1 (zip_far m ctx L c l a v r) Hz) as Hzr.
  rewrite length_app in Hf. cbn in Hf. specialize (fun k => IHl _ fuel k Hzl ltac:(lia)) as IHl'. specialize (fun k => IHr _ fuel k Hzr ltac:(lia)) as IHr'.
  assert (Hboth : forall k, (_ ← validate_rb_node fuel m (ptr l) k; validate_rb_node fuel m (ptr r) k) = Some tt
                  <-> exists j, k = Z.of_nat j /\ rb j l /\ rb j r).
  { intros k. split.
    - destruct (validate_rb_node fuel m (ptr l) k) as [[]|] eqn:El; [|done]. cbn. intros Er. apply IHl' in El as (j & -> & Hl).
      apply IHr' in Er as (j' & Ej & Hr). assert (j' = j) by lia. subst j'. eauto.
    - intros (j & -> & Hl & Hr). rewrite (proj2 (IHl' _)) by eauto. cbn. apply IHr'. eauto. }
  destruct c; cbn [is_black].
  - rewrite (zip_is_black _ _ _ Hzl). cbn [mbind option_bind]. destruct (col l) eqn:El; cbn [is_black].
    { split; [done|]. intros (k & _ & H). inversion H; subst. congruence. }
    rewrite (zip_is_black _ _ _ Hzr). cbn [mbind option_bind]. destruct (col r) eqn:Er; cbn [is_black mbind option_bind].
    { split; [done|]. intros (k & _ & H). inversion H; subst. congruence. }
    rewrite Hboth. split; intros (j & -> & H); exists j.
    + split; [done|]. destruct H. by constructor.
    + inversion H; subst. done.
  - cbn [mbind option_bind]. rewrite Hboth. split.
    + intros (j & Ej & Hl & Hr). exists (S j). split; [lia|]. by constructor.
    + intros (k & -> & H). inversion H as [| |k' ? ? ? ? H1 H2]; subst. exists k'. split; [lia|done].
Qed.

(** The number of black nodes on the left-most path. *)
Fixpoint left_depth t : Z := match t with Leaf => 0 | Node c l _ _ _ => left_depth l + (if is_black c then 1 else 0) end.
Lemma left_depth_rb k t : rb k t -> left_depth t = Z.of_nat k.
Proof. induction 1; cbn [left_depth is_black]; lia. Qed.
Lemma black_depth_zip m : forall t ctx fuel n, zip m ctx t -> (length (inorder t) < fuel)%nat ->
  black_depth_loop fuel m (ptr t) n = Some (n + left_depth t).
Proof.
  induction t as [|c l IHl a v r IHr]; intros ctx [|fuel] n Hz Hf; cbn [inorder length] in Hf; [lia| |lia|]; cbn [black_depth_loop ptr].
  { change (0 =? 0) with true. cbv iota. cbn. f_equal. lia. }
  rewrite (valid_neq0 a) by (by eapply (zip_addr m ctx L c l a v r)). pose proof (zip_is_black _ _ _ Hz) as Eb. cbn [ptr col] in Eb.
  rewrite Eb. cbn [mbind option_bind]. rewrite (zip_load m ctx L c l a v r Hz). cbn [mbind option_bind cell n_left].
  apply (zip_near m ctx L c l a v r) in Hz. rewrite length_app in Hf. cbn [length] in Hf. rewrite (IHl _ fuel _ Hz) by lia. cbn [left_depth]. f_equal.
  destruct c; cbn [is_black]; lia.
Qed.
End validation.

(** [rb_tree_validate] passes its assertions exactly for the red-black trees: the root
    is black, no red node has a red child and all paths have the same number of black
    nodes. *)
Theorem rb_tree_validate_iff {A} (m : mem A) (t : tree A) :
  zip m [] t -> rb_tree_validate m = Some tt <-> col t = Black /\ exists N, rb N t.
Proof.
  intros Hz. pose proof Hz as (Hr & _). cbn in Hr. unfold rb_tree_validate. rewrite Hr, (zip_ptr0 _ _ _ Hz).
  destruct (leaf_dec t) as [->|Ht].
  { split; [|done]. intros _. split; [done|]. exists 0%nat. constructor. }
  pose proof (zip_size (update := None) (U := fun _ v _ _ => v) _ _ _ Hz) as Hsz. cbn in Hsz.
  rewrite (nonleaf_match t Ht), (zip_is_black _ _ _ Hz). cbn [mbind option_bind]. destruct (col t); cbn [is_black].
  { split; [done|]. by intros [? _]. }
  rewrite (black_depth_zip m t [] (fuel_of m) 0 Hz) by (unfold fuel_of; lia). cbn [mbind option_bind].
  rewrite (validate_node_iff m t [] (fuel_of m) _ Hz) by (unfold fuel_of; lia). split.
  - intros (k & _ & H). eauto.
  - intros (_ & N & H). exists N. split; [|done]. rewrite (left_depth_rb N t H). lia.
Qed.

Lemma rb_tree_validate_witness :
  rb_tree_validate two_nodes = Some tt
  <-> col (Node Black (Node Red Leaf 16 tt Leaf) 32 tt Leaf) = Black /\ exists N, rb N (Node Black (Node Red Leaf 16 tt Leaf) 32 tt Leaf).
Proof.
  apply (rb_tree_validate_iff two_nodes). split; [done|]. split; [done|]. split; [done|].
  split; [by apply (bool_decide_unpack _)|]. repeat (constructor; [split; [lia|done]|]). constructor.
Defined.

(** ** Depth *)

Section depth.
Context {A : Type}.
Implicit Types (t : tree A) (ctx : list (frame A)) (m : mem A).

Fixpoint height t : nat := match t with Leaf => O | Node _ l _ _ r => S (Nat.max (height l) (height r)) end.

Lemma rb_height k t : rb k t -> (height t <= 2 * k + match col t with Red => 1 | Black => 0 end)%nat.
Proof.
  induction 1 as [|n l a v r H1 IH1 H2 IH2 C1 C2|n l a v r H1 IH1 H2 IH2]; cbn [height col] in *; [lia| |].
  - rewrite C1 in IH1. rewrite C2 in IH2. lia.
  - destruct (col l), (col r); lia.
Qed.
Lemma rb_size k t : rb k t -> (2 ^ k <= S (length (inorder t)))%nat.
Proof. induction 1; cbn [inorder]; rewrite ?length_app; cbn in *; lia. Qed.

Lemma rb_depth k t : rb k t -> col t = Black -> (height t <= 2 * Nat.log2 (S (length (inorder t))))%nat.
Proof.
  intros H Hb. pose proof (rb_height k t H) as Hh. rewrite Hb in Hh. pose proof (rb_size k t H) as Hs.
  assert (k <= Nat.log2 (S (length (inorder t))))%nat; [|lia]. apply Nat.log2_le_pow2; lia.
Qed.

(** A walk down from a node ends after as many steps as the subtree is high. *)
Lemma insert_search_height cmp m node : forall t ctx fuel y il, zip m ctx t -> (height t < fuel)%nat ->
  is_Some (insert_search cmp fuel m node (ptr t) y il).
Proof.
  induction t as [|c l IHl a v r IHr]; intros ctx [|fuel] y il Hz Hf; cbn [height] in Hf; [lia| |lia|]; cbn [insert_search ptr]; [by eexists|].
  rewrite (valid_neq0 a) by (by eapply (zip_addr m ctx L c l a v r)). rewrite (zip_load m ctx L c l a v r Hz). cbn [mbind option_bind cell n_left n_right].
  destruct (cmp a node <? 0).
  - eapply IHl; [by apply (zip_near m ctx L c l a v r)|lia].
  - eapply IHr; [by apply (zip_far m ctx L c l a v r)|lia].
Qed.
Lemma sloppy_height cmp m : forall t ctx fuel y, zip m ctx t -> (height t < fuel)%nat -> is_Some (sloppy_loop cmp fuel m (ptr t) y).
Proof.
  induction t as [|c l IHl a v r IHr]; intros ctx [|fuel] y Hz Hf; cbn [height] in Hf; [lia| |lia|]; cbn [sloppy_loop ptr]; [by eexists|].
  rewrite (valid_neq0 a) by (by eapply (zip_addr m ctx L c l a v r)). rewrite (zip_load m ctx L c l a v r Hz). cbn [mbind option_bind cell n_left n_right].
  destruct (cmp a <? 0); [|destruct (cmp a >? 0); [|by eexists]].
  - eapply IHl; [by apply (zip_near m ctx L c l a v r)|lia].
  - eapply IHr; [by apply (zip_far m ctx L c l a v r)|lia].
Qed.

(** More rounds than the tree is high do not change what a search returns. *)
Lemma search_loop_height cmp m : forall t ctx fuel fuel', zip m ctx t -> (height t < fuel)%nat -> (height t < fuel')%nat ->
  search_loop cmp fuel m (ptr t) = search_loop cmp fuel' m (ptr t).
Proof.
  induction t as [|c l IHl a v r IHr]; intros ctx [|fuel] [|fuel'] Hz Hf Hf'; cbn [height] in Hf, Hf'; try lia; cbn [search_loop ptr]; [done|].
  rewrite (valid_neq0 a) by (by eapply (zip_addr m ctx L c l a v r)). rewrite (zip_load m ctx L c l a v r Hz). cbn [mbind option_bind cell n_left n_right].
  destruct (cmp a <? 0); [|destruct (cmp a >? 0); [|done]].
  - eapply IHl; [by apply (zip_near m ctx L c l a v r)|lia|lia].
  - eapply IHr; [by apply (zip_far m ctx L c l a v r)|lia|lia].
Qed.

Lemma height_le_size t : (height t <= length (inorder t))%nat.
Proof. induction t as [|c l IHl a v r IHr]; cbn [height inorder]; [done|]. rewrite length_app. cbn. lia. Qed.
End depth.

(** C39: In a red-black tree of [n] nodes the loops of insertion and of both searches that walk down
    from the root look at no more than [2 * log2 (n + 1)] nodes: with this number of
    rounds, and one to see the end, they finish.  On a tree sorted for the comparison [rb_tree_search] with this bound on its descent
    returns what it should, the first of the matching nodes or NULL; its walk back to the first match, which is not
    logarithmic, takes at most one round per matching node, whichever match it starts from. *)
Theorem rb_tree_search_depth {A} U (cmp : Z -> Z -> Z) (key : Z -> Z) (m : mem A) l node :
  rb_repr (U := U) m l ->
  is_Some (insert_search cmp (S (2 * Nat.log2 (S (length l)))) m node (root m) 0 false)
  /\ is_Some (sloppy_loop key (S (2 * Nat.log2 (S (length l)))) m (root m) 0)
  /\ (StronglySorted (key_order key) l ->
      exists l1 l2 l3, l = l1 ++ l2 ++ l3 /\ Forall (smaller key) l1 /\ Forall (equal key) l2 /\ Forall (greater key) l3
        /\ search_loop key (S (2 * Nat.log2 (S (length l)))) m (root m) = rb_tree_search key m
        /\ rb_tree_search key m = Some (hd 0 l2)
        /\ forall x, x ∈ l2 -> first_match key (length l2) m x = Some (hd 0 l2)).
Proof.
  intros Hrepr. assert (Hh : holds m l) by (eapply rb_repr_holds; exact Hrepr). pose proof (holds_fuel _ _ Hh) as Hf.
  destruct Hrepr as (t & N & Hz & _ & Hrb & Hcol & El). pose proof (rb_depth N t Hrb Hcol) as Hd. pose proof Hz as (Hr & _). cbn in Hr.
  rewrite El in Hd. rewrite Hr. split_and!; [eapply insert_search_height; [exact Hz|lia]|eapply sloppy_height; [exact Hz|lia]|].
  intros Hs. destruct (rb_tree_search_correct key m l Hh Hs) as (l1 & l2 & l3 & x & E & F1 & F2 & F3 & Es & _).
  exists l1, l2, l3. do 4 (split; [done|]). split; [|split; [done|]].
  - unfold rb_tree_search. rewrite Hr. pose proof (height_le_size t) as Ht. rewrite El in Ht. eapply search_loop_height; [exact Hz|lia|lia].
  - intros y Hy. apply list_elem_of_split in Hy as (p & q & ->). eapply (first_match_holds key m l l1); [done|exact E|done|done|].
    rewrite length_app. cbn. lia.
Qed.

Lemma rb_tree_search_depth_witness :
  is_Some (insert_search addr_cmp (S (2 * Nat.log2 (S (length [16; 32])))) two_nodes 20 (root two_nodes) 0 false)
  /\ rb_tree_search (fun a => 16 - a) two_nodes = Some 16
  /\ search_loop (fun a => 16 - a) (S (2 * Nat.log2 (S (length [16; 32])))) two_nodes (root two_nodes) = rb_tree_search (fun a => 16 - a) two_nodes.
Proof.
  destruct (rb_tree_search_depth (fun _ v _ _ => v) addr_cmp (fun a => 16 - a) two_nodes [16; 32] 20 two_nodes_repr) as (H1 & _ & H2).
  split; [exact H1|]. split; [reflexivity|].
  destruct H2 as (l1 & l2 & l3 & _ & _ & _ & _ & E & _); [repeat constructor; unfold key_order; cbn; lia|]. exact E.
Defined.
