(* ===== verification/IntervalTree.v ===== *)
(** * Interval trees (src/util/rb_tree.c, rb_tree.h: uinterval_tree)

    Red-black trees of closed intervals, ordered by their starts, in which every node knows the
    greatest end in its subtree ([max_end], the augmented data of RbTree.v).  The interval
    of a node is filled in before it is inserted and not changed after, so it is a
    function of the address, [ivl]. *)

From Stdlib Require Import ZArith Lia Sorted.
From stdpp Require Import base list gmap numbers option sets sorting.
From S2P Require Import Prelude RbTree RbInsert RbRemove RbQuery.
Local Open Scope Z_scope.

Record uinterval := UInterval { start : Z; end_ : Z }.

Definition uinterval_cmp (a b : uinterval) : Z :=
  if end_ a <? start b then -1 else if end_ b <? start a then 1 else 0.

Section interval_tree.
Context (ivl : Z -> uinterval).

(** [(int) (b->interval.start - a->interval.start)] *)
Definition uinterval_node_cmp (a b : Z) : Z := signed 32 (u32 (start (ivl b) - start (ivl a))).

Definition uinterval_search_cmp (node : Z) (interval : uinterval) : Z := uinterval_cmp (ivl node) interval.

Definition uinterval_max_cmp (m : mem Z) (node : Z) (interval : uinterval) : option bool :=
  c ← load m node; Some (n_aug c >=? start interval).

Definition uinterval_update_max (m : mem Z) (node : Z) : option (mem Z) :=
  c ← load m node;
  let max_end := end_ (ivl node) in
  max_end ← (if n_left c =? 0 then Some max_end
             else l ← load m (n_left c); Some (MAX2 max_end (n_aug l)));
  max_end ← (if n_right c =? 0 then Some max_end
             else r ← load m (n_right c); Some (MAX2 max_end (n_aug r)));
  store m node (with_aug max_end).

Definition uinterval_tree_insert (m : mem Z) (node : Z) : option (mem Z) :=
  rb_augmented_tree_insert (Some uinterval_update_max) uinterval_node_cmp m node.
Definition uinterval_tree_remove (m : mem Z) (node : Z) : option (mem Z) :=
  rb_augmented_tree_remove (Some uinterval_update_max) m node.

(** ** Searching for an interval *)

(** The loop of [rb_node_min_intersecting] *)
Fixpoint min_loop (fuel : nat) (m : mem Z) (node : Z) (interval : uinterval) : option Z :=
  match fuel with
  | O => None
  | S fuel =>
      if node =? 0 then Some 0
      else
        let cmp := uinterval_search_cmp node interval in
        c ← load m node;
        if cmp >? 0 then min_loop fuel m (n_left c) interval
        else
          go_left ← (if n_left c =? 0 then Some false else uinterval_max_cmp m (n_left c) interval);
          if (go_left : bool) then min_loop fuel m (n_left c) interval
          else if cmp =? 0 then Some node
          else
            stop ← (if n_right c =? 0 then Some false else b ← uinterval_max_cmp m (n_right c) interval; Some (negb b));
            if (stop : bool) then Some 0 else min_loop fuel m (n_right c) interval
  end.

Definition rb_node_min_intersecting (m : mem Z) (node : Z) (interval : uinterval) : option Z :=
  b ← uinterval_max_cmp m node interval;
  if negb b then Some 0 else min_loop (fuel_of m) m node interval.

(** The loop of [rb_node_next_intersecting] *)
Fixpoint next_loop (fuel : nat) (m : mem Z) (node : Z) (interval : uinterval) : option Z :=
  match fuel with
  | O => None
  | S fuel =>
      c ← load m node;
      next ← (if n_right c =? 0 then Some 0 else rb_node_min_intersecting m (n_right c) interval);
      if negb (next =? 0) then Some next
      else
        p ← rb_node_parent m node;
        '(node, p) ← climb R (fuel_of m) m node p;
        ok ← (if p =? 0 then Some true else cp ← load m p; Some (node =? n_left cp));
        assert! ok ;;
        if p =? 0 then Some 0
        else
          let cmp := uinterval_search_cmp p interval in
          if cmp =? 0 then Some p
          else if cmp >? 0 then Some 0
          else next_loop fuel m p interval
  end.
Definition rb_node_next_intersecting (m : mem Z) (node : Z) (interval : uinterval) : option Z :=
  next_loop (fuel_of m) m node interval.

Definition uinterval_tree_first (m : mem Z) (interval : uinterval) : option Z :=
  if root m =? 0 then Some 0 else rb_node_min_intersecting m (root m) interval.
Definition uinterval_node_next (m : mem Z) (node : Z) (interval : uinterval) : option Z :=
  rb_node_next_intersecting m node interval.

(** [uinterval_tree_foreach]: the nodes the loop visits. *)
Fixpoint interval_loop (fuel : nat) (m : mem Z) (node : Z) (interval : uinterval) : option (list Z) :=
  match fuel with
  | O => None
  | S fuel =>
      if node =? 0 then Some []
      else next ← uinterval_node_next m node interval; l ← interval_loop fuel m next interval; Some (node :: l)
  end.
Definition uinterval_tree_foreach (m : mem Z) (interval : uinterval) : option (list Z) :=
  first ← uinterval_tree_first m interval; interval_loop (fuel_of m) m first interval.

(** ** The greatest end *)

Definition max_with (v : Z) (o : option Z) : Z := match o with Some x => Z.max v x | None => v end.
Definition max_data (a v : Z) (l r : option Z) : Z := max_with (max_with (end_ (ivl a)) l) r.

#[export] Instance uinterval_augmented : Augmented (Some uinterval_update_max) max_data.
Proof.
  split.
  - intros m a n E Hl Hr. cbn [call_update]. unfold uinterval_update_max. rewrite E. cbn [mbind option_bind].
    assert (Hstep : forall v p, (p = 0 \/ is_Some (load m p)) ->
      (if p =? 0 then Some v else l ← load m p; Some (MAX2 v (n_aug l))) = Some (max_with v (n_aug <$> load m p))).
    { intros v p [->|[c Ec]]; [done|]. rewrite Ec. cbn. destruct (Z.eqb_spec p 0) as [->|]; [done|]. cbn. by rewrite MAX2_max. }
    rewrite (Hstep _ _ Hl). cbn [mbind option_bind]. rewrite (Hstep _ _ Hr). cbn [mbind option_bind]. by rewrite (store_ok _ _ _ _ E).
  - done.
  - intros d x y vx vy o1 o2 o3 e b w o Ey Ex. do 2 f_equal. rewrite Ex, Ey. destruct d, o1, o2, o3; cbn; unfold max_data, max_with; cbn; lia.
Qed.
End interval_tree.

(** ** Filters *)

Section filters.
Context {A : Type} (P : A -> Prop) `{HP : !forall a, Decision (P a)}.
Lemma list_filter_all (l : list A) : (forall a, a ∈ l -> P a) -> filter P l = l.
Proof.
  induction l as [|a l IH]; intros Hl; [done|]. rewrite filter_cons_True by (apply Hl; set_solver). f_equal. apply IH. set_solver.
Qed.
Lemma list_filter_none (l : list A) : (forall a, a ∈ l -> ~ P a) -> filter P l = [].
Proof.
  induction l as [|a l IH]; intros Hl; [done|]. rewrite filter_cons_False by (apply Hl; set_solver). apply IH. set_solver.
Qed.
End filters.

(** ** The searches are right *)

Section searches.
Context (ivl : Z -> uinterval) (q : uinterval).
Context (Hivl : forall a, 0 <= start (ivl a) <= end_ (ivl a)) (Hq : 0 <= start q <= end_ q).
Implicit Types (t : tree Z) (ctx : list (frame Z)) (m : mem Z).
Notation aug_ok := (aug_ok (U := max_data ivl)).

Definition by_start (a b : Z) : Prop := start (ivl a) <= start (ivl b).
Definition intersects (a : Z) : Prop := start (ivl a) <= end_ q /\ start q <= end_ (ivl a).
#[export] Instance intersects_dec a : Decision (intersects a).
Proof. unfold intersects. apply _. Defined.

Lemma search_cmp_0 a : uinterval_search_cmp ivl a q = 0 <-> intersects a.
Proof.
  unfold uinterval_search_cmp, uinterval_cmp, intersects. destruct (Z.ltb_spec (end_ (ivl a)) (start q)), (Z.ltb_spec (end_ q) (start (ivl a))); lia.
Qed.
Lemma search_cmp_pos a : 0 < uinterval_search_cmp ivl a q <-> end_ q < start (ivl a).
Proof using Hivl Hq.
  specialize (Hivl a). unfold uinterval_search_cmp, uinterval_cmp.
  destruct (Z.ltb_spec (end_ (ivl a)) (start q)), (Z.ltb_spec (end_ q) (start (ivl a))); lia.
Qed.

(** The data at the root of a subtree. *)
Lemma max_bound t v : aug_ok t -> taug t = Some v ->
  (forall a, a ∈ inorder t -> end_ (ivl a) <= v) /\ (exists a, a ∈ inorder t /\ end_ (ivl a) = v).
Proof.
  revert v. induction t as [|c l IHl a w r IHr]; intros v; cbn [taug inorder]; [done|]. intros (Hw & Hl & Hr) [= <-].
  assert (Hside : forall t, (forall u, aug_ok t -> taug t = Some u -> (forall b, b ∈ inorder t -> end_ (ivl b) <= u) /\ (exists b, b ∈ inorder t /\ end_ (ivl b) = u)) -> aug_ok t ->
    forall x, x <= max_with x (taug t) /\ (forall b, b ∈ inorder t -> end_ (ivl b) <= max_with x (taug t))
      /\ (max_with x (taug t) = x \/ exists b, b ∈ inorder t /\ end_ (ivl b) = max_with x (taug t))).
  { intros t IH Ht x. destruct (taug t) as [u|] eqn:Eu; cbn [max_with].
    - destruct (IH u Ht eq_refl) as [H1 (b & Hb & H2)]. split_and!; [lia|intros b' Hb'; specialize (H1 b' Hb'); lia|].
      destruct (Z.max_spec x u) as [[_ ->]|[_ ->]]; [right; eauto|by left].
    - destruct t; [|done]. split_and!; [lia| |by left]. intros b Hb. by apply not_elem_of_nil in Hb. }
  unfold max_data in Hw. destruct (Hside l (fun u => IHl u) Hl (end_ (ivl a))) as (A1 & A2 & A3).
  destruct (Hside r (fun u => IHr u) Hr (max_with (end_ (ivl a)) (taug l))) as (B1 & B2 & B3). rewrite <- Hw in *. split.
  - intros b. rewrite elem_of_app, elem_of_cons. intros [Hb|[->|Hb]]; [specialize (A2 b Hb); lia|lia|by apply B2].
  - destruct B3 as [B3|(b & Hb & B3)]; [|exists b; split; [set_solver|done]].
    destruct A3 as [A3|(b & Hb & A3)]; [exists a|exists b]; (split; [set_solver|congruence]).
Qed.

Lemma max_cmp_zip m ctx t : zip m ctx t -> t <> Leaf -> aug_ok t ->
  exists b, uinterval_max_cmp m (ptr t) q = Some b /\ (b = true <-> exists a, a ∈ inorder t /\ start q <= end_ (ivl a)).
Proof.
  intros Hz Ht Ha. destruct (mk_inv L t) as [->|(c & l & a & v & r & ->)]; [done|]. destruct (max_bound _ v Ha (taug_mk _ _ _ _ _ _)) as [H1 (b & Hb & H2)].
  unfold uinterval_max_cmp. rewrite ptr_mk, (zip_load _ _ _ _ _ _ _ _ Hz). cbn [mbind option_bind]. rewrite aug_cell. eexists. split; [done|].
  rewrite Z.geb_leb, Z.leb_le. split; [intros Hv; exists b; split; [done|lia]|]. intros (b' & Hb' & Hv). specialize (H1 b' Hb'). lia.
Qed.

Lemma hd_filter_some l l' : (exists a, a ∈ l /\ intersects a) -> hd 0 (filter intersects (l ++ l')) = hd 0 (filter intersects l).
Proof.
  intros (a & Ha & Hi). rewrite filter_app. destruct (filter intersects l) as [|b k] eqn:E; [|done].
  assert (Hf : a ∈ filter intersects l) by (by apply list_elem_of_filter). rewrite E in Hf. by apply not_elem_of_nil in Hf.
Qed.

Lemma min_loop_zip m fuel : forall ctx t, zip m ctx t -> aug_ok t -> StronglySorted by_start (inorder t) -> (length (inorder t) < fuel)%nat ->
  min_loop ivl fuel m (ptr t) q = Some (hd 0 (filter intersects (inorder t))).
Proof using Hivl Hq.
  induction fuel as [|fuel IH]; intros ctx t Hz Ha Hs Hf; [lia|]. cbn [min_loop]. destruct t as [|c l a v r]; [done|].
  cbn [ptr inorder] in *. rewrite (valid_neq0 a) by (by eapply (zip_addr m ctx L c l a v r)).
  rewrite (zip_load m ctx L c l a v r Hz). cbn [mbind option_bind cell n_left n_right]. rewrite length_app in Hf. cbn in Hf.
  destruct Ha as (_ & Hal & Har). pose proof Hs as Hs'. apply StronglySorted_app in Hs' as (Hlr & Hsl & Hsr). apply StronglySorted_inv in Hsr as [Hsr Hra].
  pose proof (proj1 (zip_near m ctx L c l a v r) Hz) as Hzl. pose proof (proj1 (zip_far m ctx L c l a v r) Hz) as Hzr.
  rewrite Z.gtb_ltb. destruct (Z.ltb_spec 0 (uinterval_search_cmp ivl a q)) as [Hpos|Hneg].
  { apply search_cmp_pos in Hpos. rewrite (IH _ l Hzl Hal Hsl) by lia. f_equal. rewrite filter_app.
    rewrite (list_filter_none intersects (a :: inorder r)); [by rewrite app_nil_r|]. rewrite Forall_forall in Hra. unfold by_start, intersects in *.
    intros b [->|Hb]%elem_of_cons; [lia|]. specialize (Hra b Hb). lia. }
  assert (Hstart : start (ivl a) <= end_ q) by (destruct (Z_lt_le_dec (end_ q) (start (ivl a))) as [Hc|]; [apply search_cmp_pos in Hc; lia|done]).
  assert (Hleft : exists b, (if ptr l =? 0 then Some false else uinterval_max_cmp m (ptr l) q) = Some b
                  /\ (b = true <-> exists a', a' ∈ inorder l /\ intersects a')).
  { rewrite (zip_ptr0 _ _ _ Hzl). destruct (leaf_dec l) as [->|Hl].
    - exists false. split; [done|]. split; [done|]. intros (a' & H & _). by apply not_elem_of_nil in H.
    - rewrite (nonleaf_match l Hl). destruct (max_cmp_zip m _ l Hzl Hl Hal) as (b & Eb & Hb). exists b. split; [done|]. rewrite Hb.
      unfold intersects, by_start in *. split; intros (a' & H1 & H2); exists a'; (split; [done|]); [|tauto].
      specialize (Hlr a' a H1 ltac:(set_solver)). split; [lia|done]. }
  destruct Hleft as (b & -> & Hb). cbn [mbind option_bind]. destruct b.
  { rewrite (IH _ l Hzl Hal Hsl) by lia. f_equal. symmetry. apply hd_filter_some. by apply Hb. }
  assert (Hnl : filter intersects (inorder l) = []).
  { apply list_filter_none. intros a' Ha' Hi. assert (false = true) by (apply Hb; eauto). done. }
  rewrite filter_app, Hnl. cbn [app]. destruct (Z.eqb_spec (uinterval_search_cmp ivl a q) 0) as [E0|E0].
  { rewrite filter_cons_True by (by apply search_cmp_0). done. }
  rewrite filter_cons_False by (rewrite <- search_cmp_0; done). rewrite (zip_ptr0 _ _ _ Hzr). destruct (leaf_dec r) as [->|Hr]; [cbn; destruct fuel; [lia|done]|].
  rewrite (nonleaf_match r Hr). destruct (max_cmp_zip m _ r Hzr Hr Har) as (b & -> & Hb'). cbn [mbind option_bind].
  destruct b; cbn [negb]; [apply (IH _ r Hzr Har Hsr); lia|]. rewrite list_filter_none; [done|]. intros a' Ha' [_ Hi].
  assert (false = true) by (apply Hb'; eauto). done.
Qed.

Lemma min_intersecting_zip m ctx t : zip m ctx t -> t <> Leaf -> aug_ok t -> StronglySorted by_start (inorder t) ->
  rb_node_min_intersecting ivl m (ptr t) q = Some (hd 0 (filter intersects (inorder t))).
Proof using Hivl Hq.
  intros Hz Ht Ha Hs. unfold rb_node_min_intersecting. destruct (max_cmp_zip m ctx t Hz Ht Ha) as (b & -> & Hb). cbn [mbind option_bind].
  destruct b; cbn [negb].
  - eapply min_loop_zip; [exact Hz|done|done|]. pose proof (zip_size (update := None) (U := fun _ v _ _ => v) _ _ _ Hz). unfold fuel_of. lia.
  - rewrite list_filter_none; [done|]. intros a Hin [_ Hi]. assert (false = true) by (apply Hb; eauto). done.
Qed.

(** The first ancestor on the right. *)
Lemma ctx_next_split d ctx : ctx_next d ctx = []
  \/ exists ctx1 f ctx2, ctx = ctx1 ++ f :: ctx2 /\ f_side f = opp d
       /\ ctx_next d ctx = f_addr f :: iord d (inorder (f_sib f)) ++ ctx_next (A := Z) d ctx2.
Proof.
  induction ctx as [|f ctx IH]; [by left|]. cbn [ctx_next]. case_bool_decide as E; cbn [app].
  - destruct IH as [->|(ctx1 & g & ctx2 & -> & Hg & ->)]; [by left|right]. by exists (f :: ctx1), g, ctx2.
  - right. exists [], f, ctx. split_and!; [done| |done]. by destruct d, (f_side f).
Qed.

Lemma next_loop_zip m fuel : forall ctx c l a v r, zip m ctx (Node c l a v r) -> aug_ok (plug ctx (Node c l a v r)) ->
  StronglySorted by_start (inorder (plug ctx (Node c l a v r))) -> (length ctx < fuel)%nat ->
  next_loop ivl fuel m a q = Some (hd 0 (filter intersects (inorder r ++ ctx_next R ctx))).
Proof using Hivl Hq.
  induction fuel as [|fuel IH]; intros ctx c l a v r Hz Ha Hs Hf; [lia|]. cbn [next_loop].
  rewrite (zip_load m ctx L c l a v r Hz). cbn [mbind option_bind cell n_right].
  pose proof (proj1 (zip_far m ctx L c l a v r) Hz) as Hzr. pose proof (aug_ok_plug_inner _ _ Ha) as (_ & _ & Har).
  pose proof (iord_plug R ctx (Node c l a v r)) as Eo. cbn [iord inorder] in Eo. pose proof Hs as Hs'. rewrite Eo in Hs'.
  apply StronglySorted_app in Hs' as (_ & _ & Hs'). rewrite <- app_assoc in Hs'. apply StronglySorted_app in Hs' as (_ & _ & Hs').
  cbn [app] in Hs'. apply StronglySorted_inv in Hs' as [Hs' _]. apply StronglySorted_app in Hs' as (_ & Hsr & Hsn).
  assert (Er : (if ptr r =? 0 then Some 0 else rb_node_min_intersecting ivl m (ptr r) q) = Some (hd 0 (filter intersects (inorder r)))).
  { rewrite (zip_ptr0 _ _ _ Hzr). destruct (leaf_dec r) as [->|Hr]; [done|]. rewrite (nonleaf_match r Hr). by eapply min_intersecting_zip. }
  rewrite Er. cbn [mbind option_bind]. rewrite filter_app. destruct (filter intersects (inorder r)) as [|b k] eqn:Ef; cbn [hd app].
  2:{ assert (Hb : b ∈ inorder r) by (assert (Hb : b ∈ filter intersects (inorder r)) by (rewrite Ef; set_solver); by apply list_elem_of_filter in Hb as [_ Hb]).
      assert (Vb : valid b). { destruct Hzr as (_ & _ & _ & [_ Hv]). rewrite Forall_forall in Hv. apply Hv. set_solver. }
      by rewrite (valid_neq0 b Vb). }
  cbn [Z.eqb negb]. rewrite (zip_parent m ctx L c l a v r Hz). cbn [mbind option_bind].
  destruct (climb_next R m ctx _ (fuel_of m) Hz) as (node & E1 & E2); [done|by eapply (zip_fuel (update := None) (U := fun _ v _ _ => v))|].
  cbn [ptr] in E1. rewrite E1. cbn [mbind option_bind]. cbn [opp child] in E2. rewrite E2. cbn [mbind option_bind].
  destruct (ctx_next_split R ctx) as [->|(ctx1 & f & ctx2 & -> & Hside & En)]; [done|]. rewrite En in *. cbn [hd].
  rewrite plug_app in Ha, Hs. cbn [plug] in Ha, Hs. unfold fill in Ha, Hs. rewrite Hside in Ha, Hs. cbn [opp mk] in Ha, Hs.
  assert (Hz2 : zip m ctx2 (Node (f_col f) (plug ctx1 (Node c l a v r)) (f_addr f) (f_aug f) (f_sib f))).
  { apply (proj1 (zip_app m _ _ _)), (proj2 (zip_down m _ _ _)) in Hz. unfold fill in Hz. by rewrite Hside in Hz. }
  rewrite (valid_neq0 (f_addr f)) by (by eapply (zip_addr m ctx2 L)). cbn [iord] in *.
  destruct (Z.eqb_spec (uinterval_search_cmp ivl (f_addr f) q) 0) as [E0|E0].
  { rewrite filter_cons_True by (by apply search_cmp_0). done. }
  rewrite filter_cons_False by (rewrite <- search_cmp_0; done). rewrite Z.gtb_ltb.
  destruct (Z.ltb_spec 0 (uinterval_search_cmp ivl (f_addr f) q)) as [Hpos|Hneg].
  - apply search_cmp_pos in Hpos. apply StronglySorted_inv in Hsn as [_ Hall]. rewrite Forall_forall in Hall. rewrite list_filter_none; [done|].
    intros b Hb. specialize (Hall b Hb). unfold by_start, intersects in *. lia.
  - apply (IH _ _ _ _ _ _ Hz2 Ha Hs). rewrite length_app in Hf. cbn in Hf. lia.
Qed.
End searches.

(** ** The set of intervals

    What an interval tree stands for is the list of its nodes in the order of their starts,
    nodes with the same start in the order of insertion. *)

Inductive operation := Insert (node : Z) | Remove (node : Z).

Section refinement.
Context (ivl : Z -> uinterval).
Context (Hivl : forall a, 0 <= start (ivl a) <= end_ (ivl a)) (Hspread : forall a b, start (ivl a) - start (ivl b) < 2 ^ 31).
Implicit Types (m : mem Z) (l : list Z) (o : operation).
Notation rb_repr := (rb_repr (U := max_data ivl)).
Notation by_start := (by_start ivl).

Definition run_operation m o : option (mem Z) :=
  match o with Insert a => uinterval_tree_insert ivl m a | Remove a => uinterval_tree_remove ivl m a end.
Fixpoint run_operations m (os : list operation) : option (mem Z) :=
  match os with [] => Some m | o :: os => m ← run_operation m o; run_operations m os end.

Definition spec_operation l o : list Z :=
  match o with
  | Insert a => filter (fun b => start (ivl b) <= start (ivl a)) l ++ a :: filter (fun b => start (ivl a) < start (ivl b)) l
  | Remove a => filter (fun b => b <> a) l
  end.

(** Only a node that is not in the tree is inserted, only one that is there is removed. *)
Definition legal (nodes : gset Z) l o : Prop :=
  match o with Insert a => valid a /\ a ∈ nodes /\ a ∉ l | Remove a => a ∈ l end.
Fixpoint legal_all (nodes : gset Z) l (os : list operation) : Prop :=
  match os with [] => True | o :: os => legal nodes l o /\ legal_all nodes (spec_operation l o) os end.

Lemma node_cmp_diff a b : uinterval_node_cmp ivl a b = start (ivl b) - start (ivl a).
Proof using Hspread.
  unfold uinterval_node_cmp, u32. pose proof (Hspread a b). pose proof (Hspread b a). by rewrite signed_wrap by lia.
Qed.
#[local] Instance interval_order : TreeOrder (uinterval_node_cmp ivl) by_start.
Proof using Hspread. split; unfold IntervalTree.by_start; intros *; rewrite !node_cmp_diff; lia. Qed.

Section query.
Context (q : uinterval) (Hq : 0 <= start q <= end_ q).

Lemma node_next_repr m l1 a l2 : rb_repr m (l1 ++ a :: l2) -> StronglySorted by_start (l1 ++ a :: l2) ->
  uinterval_node_next ivl m a q = Some (hd 0 (filter (intersects ivl q) l2)).
Proof using Hivl Hq.
  clear Hspread.
  intros (t & N & Hz & Ha & _ & _ & El) Hs. pose proof Hz as (_ & _ & _ & [Hnd _]). cbn in Hnd.
  destruct (find_place t a) as (ctx & c & l & v & r & ->); [rewrite El; set_solver|]. rewrite <- El in Hs. apply zip_plug in Hz.
  unfold uinterval_node_next, rb_node_next_intersecting.
  rewrite (next_loop_zip ivl q Hivl Hq m (fuel_of m) ctx c l a v r Hz Ha Hs) by (by eapply (zip_fuel (update := None) (U := fun _ v _ _ => v))).
  pose proof (iord_plug R ctx (Node c l a v r)) as Eo. cbn [iord inorder] in Eo. rewrite El in Eo, Hnd.
  destruct (split_unique l1 l2 (ctx_prev R ctx ++ inorder l) (inorder r ++ ctx_next R ctx) a Hnd) as [_ <-]; [|done].
  rewrite Eo, <- !app_assoc. done.
Qed.

Lemma interval_loop_repr m l l2 : forall l1 fuel, rb_repr m l -> StronglySorted by_start l -> l = l1 ++ l2 -> (length l2 < fuel)%nat ->
  interval_loop ivl fuel m (hd 0 (filter (intersects ivl q) l2)) q = Some (filter (intersects ivl q) l2).
Proof using Hivl Hq.
  clear Hspread.
  induction l2 as [|a l2 IH]; intros l1 fuel Hr Hs -> Hf; cbn [length] in Hf; [by destruct fuel; [lia|]|].
  assert (El : l1 ++ a :: l2 = (l1 ++ [a]) ++ l2) by (by rewrite <- app_assoc). destruct (decide (intersects ivl q a)) as [Hi|Hi].
  - rewrite filter_cons_True by done. destruct fuel as [|fuel]; [lia|]. cbn [hd interval_loop].
    assert (Va : valid a). { pose proof (holds_wf _ _ (rb_repr_holds _ _ _ Hr)) as [_ Hv]. rewrite Forall_forall in Hv. apply Hv. set_solver. }
    rewrite (valid_neq0 a Va), (node_next_repr m l1 a l2 Hr Hs). cbn [mbind option_bind]. by rewrite (IH _ fuel Hr Hs El) by lia.
  - rewrite filter_cons_False by done. apply (IH _ fuel Hr Hs El). lia.
Qed.

Lemma foreach_repr m l : rb_repr m l -> StronglySorted by_start l ->
  uinterval_tree_foreach ivl m q = Some (filter (intersects ivl q) l).
Proof using Hivl Hq.
  clear Hspread.
  intros Hr Hs. unfold uinterval_tree_foreach.
  assert (Ef : uinterval_tree_first ivl m q = Some (hd 0 (filter (intersects ivl q) l))).
  { destruct Hr as (t & N & Hz & Ha & _ & _ & <-). pose proof Hz as (Er & _). cbn in Er. unfold uinterval_tree_first.
    rewrite Er, (zip_ptr0 _ _ _ Hz). destruct (leaf_dec t) as [->|Ht]; [done|]. rewrite (nonleaf_match t Ht). by eapply min_intersecting_zip. }
  rewrite Ef. cbn [mbind option_bind]. apply (interval_loop_repr m l l []); [done|done|done|]. exact (holds_fuel _ _ (rb_repr_holds _ _ _ Hr)).
Qed.
End query.

Lemma spec_insert_split a l1 l2 : Forall (fun b => 0 <= uinterval_node_cmp ivl b a) l1 -> Forall (fun b => uinterval_node_cmp ivl b a < 0) l2 ->
  spec_operation (l1 ++ l2) (Insert a) = l1 ++ a :: l2.
Proof using Hspread Hivl.
  intros F1 F2. cbn [spec_operation]. rewrite !filter_app. rewrite Forall_forall in F1, F2.
  assert (Hlt : forall b, uinterval_node_cmp ivl b a < 0 <-> start (ivl a) < start (ivl b)) by (intros b; rewrite node_cmp_diff; lia).
  rewrite (list_filter_all _ l1), (list_filter_none _ l2), (list_filter_none _ l1), (list_filter_all _ l2); [by rewrite app_nil_r| | | |].
  all: intros b Hb; (apply F2 in Hb || apply F1 in Hb); specialize (Hlt b); lia.
Qed.

Lemma spec_remove_split a l1 l2 : NoDup (l1 ++ a :: l2) -> spec_operation (l1 ++ a :: l2) (Remove a) = l1 ++ l2.
Proof.
  intros (_ & H1 & [H2 _]%NoDup_cons)%NoDup_app. cbn [spec_operation]. rewrite filter_app, filter_cons_False by (intros []; done).
  rewrite (list_filter_all _ l1), (list_filter_all _ l2); [done| |]; intros b Hb ->; set_solver.
Qed.

Lemma run_operations_repr os : forall m l, rb_repr m l -> StronglySorted by_start l -> legal_all (dom (cells m)) l os ->
  exists m', run_operations m os = Some m' /\ rb_repr m' (foldl spec_operation l os) /\ StronglySorted by_start (foldl spec_operation l os).
Proof using Hivl Hspread.
  induction os as [|o os IH]; intros m l Hr Hs Hl; cbn [run_operations foldl legal_all] in *; [by exists m|]. destruct Hl as [Ho Hos].
  assert (Hstep : exists m', run_operation m o = Some m' /\ rb_repr m' (spec_operation l o) /\ StronglySorted by_start (spec_operation l o)
                   /\ dom (cells m') = dom (cells m)).
  { destruct o as [a|a]; cbn [run_operation legal] in *.
    - destruct Ho as (Hv & [n0 Hn]%elem_of_dom & Hout).
      destruct (insert_repr m l a n0 Hr Hs Hv Hout Hn) as (m' & l1 & l2 & E & -> & Hr' & Hs' & F1 & F2 & _ & Hd). exists m'.
      rewrite (spec_insert_split a l1 l2 F1 F2). done.
    - apply list_elem_of_split in Ho as (l1 & l2 & ->). pose proof (holds_wf _ _ (rb_repr_holds _ _ _ Hr)) as [Hnd _].
      destruct (remove_repr m l1 a l2 Hr) as (m' & E & Hr' & [Hd _]). exists m'. rewrite (spec_remove_split a l1 l2 Hnd). split_and!; [done|done| |done].
      apply StronglySorted_app in Hs as (H1 & H2 & [H3 _]%StronglySorted_inv). apply StronglySorted_app. split_and!; [|done|done].
      intros b c Hb Hc. apply H1; set_solver. }
  destruct Hstep as (m' & -> & Hr' & Hs' & Hd). cbn [mbind option_bind]. apply IH; [done|done|]. by rewrite Hd.
Qed.
End refinement.

(** C25: Interval trees refine the list of their intervals in the order of the starts: after
    any sequence of insertions of nodes that are not in the tree and removals of nodes
    that are, starting from an initialised tree, every operation has succeeded, the memory
    holds a red-black tree with exactly these nodes and correct greatest ends, and
    [uinterval_tree_foreach] on any interval visits exactly the nodes whose intervals
    intersect it, each once, by increasing start.  The starts must be less than 2^31 apart
    ([uinterval_node_cmp] subtracts them in an int). *)
Theorem uinterval_tree_refines (ivl : Z -> uinterval) (m0 : mem Z) os q :
  (forall a, 0 <= start (ivl a) <= end_ (ivl a)) -> (forall a b, start (ivl a) - start (ivl b) < 2 ^ 31) ->
  0 <= start q <= end_ q -> legal_all ivl (dom (cells m0)) [] os ->
  exists m, run_operations ivl (rb_tree_init m0) os = Some m
    /\ rb_repr (U := max_data ivl) m (foldl (spec_operation ivl) [] os)
    /\ StronglySorted (by_start ivl) (foldl (spec_operation ivl) [] os)
    /\ uinterval_tree_foreach ivl m q = Some (filter (intersects ivl q) (foldl (spec_operation ivl) [] os)).
Proof.
  intros Hivl Hspread Hq Hl. destruct (run_operations_repr ivl Hivl Hspread os (rb_tree_init m0) []) as (m & E & Hr & Hs); [|constructor|done|].
  { exists Leaf, 0%nat. split; [|by repeat split; constructor]. split; [done|]. split; [done|]. split; [done|]. split; constructor. }
  exists m. split_and!; [done|done|done|]. by apply foreach_repr.
Qed.

(** Intervals [4a, 4a + 20] and a memory with four nodes. *)
Definition sample_ivl (a : Z) : uinterval := UInterval (Z.min 1000 (Z.max 0 (4 * a))) (Z.min 1000 (Z.max 0 (4 * a)) + 20).
Definition sample_mem : mem Z :=
  Mem 0 {[ 2 := RbNode 0 0 0 0; 4 := RbNode 0 0 0 0; 6 := RbNode 0 0 0 0; 8 := RbNode 0 0 0 0 ]}.
Definition sample_ops : list operation := [Insert 8; Insert 2; Insert 6; Remove 8; Insert 4; Insert 8].

Lemma uinterval_tree_refines_witness :
  exists m, run_operations sample_ivl (rb_tree_init sample_mem) sample_ops = Some m
    /\ rb_repr (U := max_data sample_ivl) m [2; 4; 6; 8] /\ StronglySorted (by_start sample_ivl) [2; 4; 6; 8]
    /\ uinterval_tree_foreach sample_ivl m (UInterval 29 31) = Some [4; 6].
Proof.
  apply (uinterval_tree_refines sample_ivl sample_mem sample_ops (UInterval 29 31)).
  - intros a. cbn. lia.
  - intros a b. cbn. lia.
  - cbn. lia.
  - cbn. repeat split; try lia; try reflexivity; try (apply (bool_decide_unpack _); vm_compute; reflexivity).
Defined.

(** With starts 3000000000 apart the order of the tree is wrong, and a search misses an
    interval that is there. *)
Definition far_ivl (a : Z) : uinterval := if a =? 16 then UInterval 0 10 else UInterval 3000000000 3000000005.
Lemma uinterval_far_starts_missed :
  (m ← run_operations far_ivl (Mem 0 {[ 16 := RbNode 0 0 0 0; 32 := RbNode 0 0 0 0 ]}) [Insert 16; Insert 32];
   uinterval_tree_foreach far_ivl m (UInterval 5 6)) = Some []
  /\ intersects far_ivl (UInterval 5 6) 16.
Proof. split; [by vm_compute|]. unfold intersects. cbn. lia. Qed.
