(* ===== verification/RbPayload.v ===== *)
(** * Red-black trees and the data of their nodes (src/util/rb_tree.c, rb_tree.h)

    What a client of an intrusive tree relies on beyond RbInsert.v and RbRemove.v: without an
    update function the operations write no data of a node, and a tree only depends on the
    links of its own nodes, so that writes to the data and to the nodes of other trees leave it
    alone. *)

From Stdlib Require Import ZArith Lia.
From stdpp Require Import base list gmap numbers option sets.
From S2P Require Import Prelude RbTree RbInsert RbRemove.
Local Open Scope Z_scope.

Section payload.
Context {A : Type}.
Implicit Types (m : mem A) (h : gmap Z (rb_node A)).

(** ** Operations write no data *)

Definition payloads h : gmap Z A := n_aug <$> h.

Lemma payload_store m p f m' : (forall n, n_aug (f n) = n_aug n) -> store m p f = Some m' -> payloads (cells m') = payloads (cells m).
Proof.
  intros Hf. unfold store, load. intros (n & E & [= <-])%bind_Some. case_match; [done|]. cbn. unfold payloads. rewrite fmap_insert, Hf.
  apply insert_id. by rewrite lookup_fmap, E.
Qed.

(** Inverting a run of an operation into the runs of its steps. *)
Ltac run_inv :=
  repeat match goal with
  | H : _ ≫= _ = Some _ |- _ => apply bind_Some in H as (? & ? & ?)
  | H : (if ?b then _ else _) = Some _ |- _ => destruct b
  | x : (_ * _)%type |- _ => destruct x
  | H : Some _ = Some _ |- _ => injection H as H; subst
  | H : None = Some _ |- _ => discriminate H
  | H : O = S _ |- _ => discriminate H
  end.

Lemma payload_set_child d m p v m' : set_child d m p v = Some m' -> payloads (cells m') = payloads (cells m).
Proof. apply payload_store. by destruct d. Qed.
Lemma payload_set_parent m n p m' : rb_node_set_parent m n p = Some m' -> payloads (cells m') = payloads (cells m).
Proof. by apply payload_store. Qed.
Lemma payload_set_black m n m' : rb_node_set_black m n = Some m' -> payloads (cells m') = payloads (cells m).
Proof. by apply payload_store. Qed.
Lemma payload_set_red m n m' : rb_node_set_red m n = Some m' -> payloads (cells m') = payloads (cells m).
Proof. by apply payload_store. Qed.
Lemma payload_copy_color m dst src m' : rb_node_copy_color m dst src = Some m' -> payloads (cells m') = payloads (cells m).
Proof. unfold rb_node_copy_color. intros H. run_inv. eapply payload_store; [|done]. done. Qed.

(** Steps that give a memory, as equations between the data before and after. *)
Ltac payload_facts lem_splice lem_rotate :=
  repeat match goal with
  | H : set_child _ _ _ _ = Some _ |- _ => apply payload_set_child in H
  | H : set_left _ _ _ = Some _ |- _ => apply (payload_set_child L) in H
  | H : set_right _ _ _ = Some _ |- _ => apply (payload_set_child R) in H
  | H : rb_node_set_parent _ _ _ = Some _ |- _ => apply payload_set_parent in H
  | H : rb_node_set_black _ _ = Some _ |- _ => apply payload_set_black in H
  | H : rb_node_set_red _ _ = Some _ |- _ => apply payload_set_red in H
  | H : rb_node_copy_color _ _ _ = Some _ |- _ => apply payload_copy_color in H
  | H : rb_tree_splice _ _ _ = Some _ |- _ => apply lem_splice in H
  | H : rb_tree_rotate None _ _ _ = Some _ |- _ => apply lem_rotate in H
  | H : call_update None _ _ = Some _ |- _ => injection H as H; subst
  end; cbn [set_root cells] in *; congruence.

Lemma payload_splice m u v m' : rb_tree_splice m u v = Some m' -> payloads (cells m') = payloads (cells m).
Proof. unfold rb_tree_splice. intros H. run_inv; payload_facts I I. Qed.

Lemma payload_rotate d m x m' : rb_tree_rotate None d m x = Some m' -> payloads (cells m') = payloads (cells m).
Proof. unfold rb_tree_rotate. intros H. run_inv; payload_facts payload_splice I. Qed.

Ltac payload := run_inv; payload_facts payload_splice payload_rotate.

Lemma payload_insert_rotate d m z z_p z_p_p m' z' :
  insert_rotate None d m z z_p z_p_p = Some (m', z') -> payloads (cells m') = payloads (cells m).
Proof. unfold insert_rotate. intros H. payload. Qed.
Lemma payload_insert_fixup_side d m z z_p z_p_p y m' z' :
  insert_fixup_side None d m z z_p z_p_p y = Some (m', z') -> payloads (cells m') = payloads (cells m).
Proof. unfold insert_fixup_side. intros H. run_inv; [payload|]. by eapply payload_insert_rotate. Qed.
Lemma payload_insert_fixup fuel : forall m z m', insert_fixup None fuel m z = Some m' -> payloads (cells m') = payloads (cells m).
Proof.
  induction fuel as [|fuel IH]; intros m z m' H; [done|]. cbn [insert_fixup] in H. run_inv; [done|..];
    (etrans; [by eapply IH|by eapply payload_insert_fixup_side]).
Qed.
Lemma payload_insert_at m parent node b m' : rb_tree_insert_at m parent node b = Some m' -> payloads (cells m') = payloads (cells m).
Proof.
  unfold rb_tree_insert_at, rb_augmented_tree_insert_at. intros (m1 & E1%payload_store & H)%bind_Some; [|done]. rewrite <- E1. clear E1.
  run_inv; repeat match goal with H : insert_fixup _ _ _ _ = Some _ |- _ => apply payload_insert_fixup in H end; payload.
Qed.
Lemma payload_insert cmp m node m' : rb_tree_insert cmp m node = Some m' -> payloads (cells m') = payloads (cells m).
Proof. unfold rb_tree_insert, rb_augmented_tree_insert. intros H. run_inv. by eapply payload_insert_at. Qed.

Lemma payload_replace_by m z y m' : replace_by m z y = Some m' -> payloads (cells m') = payloads (cells m).
Proof. unfold replace_by. intros H. payload. Qed.
Lemma payload_unlink m z m' x x_p b : remove_unlink m z = Some (m', x, x_p, b) -> payloads (cells m') = payloads (cells m).
Proof.
  unfold remove_unlink. intros H. run_inv; [payload|payload|..]; (etrans; [by eapply payload_replace_by|payload]).
Qed.
Lemma payload_remove_fixup_side d m x x_p m' x' :
  remove_fixup_side None d m x x_p = Some (m', x') -> payloads (cells m') = payloads (cells m).
Proof. unfold remove_fixup_side. intros H. payload. Qed.
Lemma payload_remove_fixup fuel : forall m x x_p m' x', remove_fixup None fuel m x x_p = Some (m', x') -> payloads (cells m') = payloads (cells m).
Proof.
  induction fuel as [|fuel IH]; intros m x x_p m' x' H; [done|]. cbn [remove_fixup] in H. run_inv; try done;
    (etrans; [by eapply IH|by eapply payload_remove_fixup_side]).
Qed.
Lemma payload_remove m z m' : rb_tree_remove m z = Some m' -> payloads (cells m') = payloads (cells m).
Proof.
  unfold rb_tree_remove, rb_augmented_tree_remove. intros H. run_inv;
    repeat match goal with
    | H : remove_unlink _ _ = Some _ |- _ => apply payload_unlink in H
    | H : remove_fixup _ _ _ _ _ = Some _ |- _ => apply payload_remove_fixup in H
    end; payload.
Qed.
End payload.

(** ** A tree depends on the links of its nodes only *)

Section links.
Context {A : Type}.
Implicit Types (t : tree A) (h : gmap Z (rb_node A)).

Definition links (n : rb_node A) : Z * Z * Z := (n_parent n, n_left n, n_right n).

(** The tree with the data of another memory *)
Fixpoint retag h t : tree A :=
  match t with
  | Leaf => Leaf
  | Node c l a v r => Node c (retag h l) a (from_option n_aug v (h !! a)) (retag h r)
  end.
Lemma inorder_retag h t : inorder (retag h t) = inorder t.
Proof. induction t; cbn; congruence. Qed.
Lemma ptr_retag h t : ptr (retag h t) = ptr t.
Proof. by destruct t. Qed.
Lemma col_retag h t : col (retag h t) = col t.
Proof. by destruct t. Qed.
Lemma rb_retag h n t : rb n t -> rb n (retag h t).
Proof. induction 1; cbn; constructor; rewrite ?col_retag; done. Qed.
Lemma sub_ok_retag h h' t : forall p, (forall a, a ∈ inorder t -> links <$> h' !! a = links <$> h !! a) ->
  sub_ok h p t -> sub_ok h' p (retag h' t).
Proof.
  induction t as [|c l IHl a v r IHr]; intros p Hl; [done|]. cbn [inorder] in Hl. intros (Ha & H1 & H2). cbn [retag sub_ok]. rewrite !ptr_retag.
  split_and!; [|apply IHl; [|done]; set_solver|apply IHr; [|done]; set_solver].
  specialize (Hl a ltac:(set_solver)). rewrite Ha in Hl. cbn in Hl. destruct (h' !! a) as [[p' l' r' v']|]; [|done]. cbn in *. by simplify_eq.
Qed.

Definition plain_repr : mem A -> list Z -> Prop := rb_repr (U := fun _ v _ _ => v).
Lemma plain_aug t : aug_ok (U := fun _ v _ _ => v) t.
Proof. by induction t. Qed.

Lemma plain_repr_links h h' r l : plain_repr (Mem r h) l -> (forall a, a ∈ l -> links <$> h' !! a = links <$> h !! a) -> plain_repr (Mem r h') l.
Proof.
  intros (t & N & (Hr & _ & Hs & Hw) & _ & Hrb & Hc & <-) Hl. exists (retag h' t), N. cbn in Hr, Hs, Hw.
  split_and!; [|apply plain_aug|by apply rb_retag|by rewrite col_retag|by rewrite inorder_retag].
  split_and!; cbn; [by rewrite ptr_retag|done|by apply sub_ok_retag with h|by rewrite inorder_retag].
Qed.

Lemma plain_repr_dom m l a : plain_repr m l -> a ∈ l -> a ∈ dom (cells m).
Proof. intros (t & N & (_ & _ & Hs & _) & _ & _ & _ & <-) Ha. by eapply sub_dom. Qed.

Lemma plain_repr_empty h : plain_repr (Mem 0 h) [].
Proof. exists Leaf, 0%nat. split; [|by repeat split; constructor]. split; [done|]. split; [done|]. split; [done|]. split; constructor. Qed.
End links.
