(* ===== verification/DenseBits.v ===== *)
(** * Bitsets that are arrays of words (src/util/bitset.h, bitscan.h, sparse_bitset.h)

    The operations on whole arrays that the sparse bitsets use for their nodes, over the single-bit
    operations of Worklist.v.  An access outside the array has no result ([None]).
    [dense v n] are the numbers below [n] whose bits are set. *)

From Stdlib Require Import ZArith Lia.
From stdpp Require Import base list gmap numbers option sets.
From S2P Require Import Prelude FastDiv Rmq Worklist Idalloc Blob.
Local Open Scope Z_scope.

(** ** Operations *)

(** The portable branch of [util_bitcount]: [for (bits = 0; n; bits++) n &= n - 1;] *)
Fixpoint bitcount_loop (fuel : nat) (n bits : Z) : Z :=
  match fuel with
  | O => bits
  | S fuel => if n =? 0 then bits else bitcount_loop fuel (Z.land n (n - 1)) (bits + 1)
  end.
Definition util_bitcount (n : Z) : Z := bitcount_loop 32 n 0.

Fixpoint prefix_sum_loop (todo : nat) (x : list Z) (b i prefix : Z) : option Z :=
  match todo with
  | O => Some prefix
  | S todo =>
      w ← x !! Z.to_nat i;
      if (i + 1) * 32 <=? b then prefix_sum_loop todo x b (i + 1) (u32 (prefix + util_bitcount w))
      else Some (u32 (prefix + util_bitcount (Z.land w (BITFIELD_MASK (b - i * 32)))))
  end.
Definition bitset_prefix_sum (x : list Z) (b n : Z) : option Z := prefix_sum_loop (Z.to_nat n) x b 0 0.
Definition bitset_count (x : list Z) (n : Z) : option Z := bitset_prefix_sum x UINT32_MAX n.

Fixpoint is_empty_loop (todo : nat) (x : list Z) (i : Z) : option bool :=
  match todo with
  | O => Some true
  | S todo => w ← x !! Z.to_nat i; if negb (w =? 0) then Some false else is_empty_loop todo x (i + 1)
  end.
(** [BITSET_IS_EMPTY(x)], an array of [n] words *)
Definition bitset_is_empty (x : list Z) (n : Z) : option bool := is_empty_loop (Z.to_nat n) x 0.

(** [memcmp]: the order of the first bytes that differ. *)
Fixpoint memcmp (x y : list Z) : Z :=
  match x, y with
  | a :: x, b :: y => if a <? b then -1 else if b <? a then 1 else memcmp x y
  | _, _ => 0
  end.
(** The bytes of an array of words *)
Definition word_bytes (x : list Z) : list Z := flat_map (le_bytes 4) x.

(** [_u_bitset_merge]: [dst] after the loop, and [changed] *)
Fixpoint bitset_merge_loop (todo : nat) (dst src : list Z) (i : Z) (changed : bool) : option (list Z * bool) :=
  match todo with
  | O => Some (dst, changed)
  | S todo =>
      s ← src !! Z.to_nat i;
      d ← dst !! Z.to_nat i;
      bitset_merge_loop todo (<[Z.to_nat i := Z.lor d s]> dst) src (i + 1) (changed || negb (Z.land s (not32 d) =? 0))
  end.
Definition u_bitset_merge (dst src : list Z) (words : Z) : option (list Z * bool) :=
  bitset_merge_loop (Z.to_nat words) dst src 0 false.

Definition UINT_MAX : Z := UINT32_MAX.
(** [for (i++; i < BITSET_WORDS(size); ++i)] *)
Fixpoint next_word (todo : nat) (set : list Z) (i : Z) : option Z :=
  match todo with
  | O => Some UINT_MAX
  | S todo =>
      w ← set !! Z.to_nat i;
      if negb (w =? 0) then Some (u32 (i * 32 + ffs w - 1)) else next_word todo set (i + 1)
  end.
Definition u_sparse_bitset_next_set_dense (set : list Z) (size from : Z) : option Z :=
  if size <=? from then Some UINT_MAX
  else
    let i := from / 32 in
    let offset := from mod 32 in
    w ← set !! Z.to_nat i;
    if negb (Z.shiftr w offset =? 0) then Some (u32 (from + ffs (Z.shiftr w offset) - 1))
    else next_word (Z.to_nat (BITSET_WORDS size - (i + 1))) set (i + 1).

(** ** The bits of an array *)

Definition dense (v : list Z) (n : Z) : list Z := filter (fun i => bit v i = true) (seqZ 0 n).
Lemma elem_of_dense v n i : i ∈ dense v n <-> 0 <= i < n /\ bit v i = true.
Proof. unfold dense. rewrite list_elem_of_filter, elem_of_seqZ. intuition lia. Qed.

(** An array of [k] words *)
Record words_ok (v : list Z) (k : Z) : Prop := {
  wo_length : Z.of_nat (length v) = k;
  wo_range i w : v !! i = Some w -> 0 <= w < 2 ^ 32 }.

Lemma words_lookup v k i : words_ok v k -> 0 <= i < k -> exists w, v !! Z.to_nat i = Some w /\ 0 <= w < 2 ^ 32.
Proof.
  intros [Hl Hr] Hi. destruct (lookup_lt_is_Some_2 v (Z.to_nat i)) as [w Hw]; [lia|]. eauto.
Qed.

(** A bit is bit [j] of word [i]. *)
Lemma bit_word v i j w : 0 <= i -> 0 <= j < 32 -> v !! Z.to_nat i = Some w -> bit v (32 * i + j) = Z.testbit w j.
Proof.
  intros Hi Hj Hw. unfold bit, BITSET_BITWORD. assert (E1 : (32 * i + j) / 32 = i) by dlia. assert (E2 : (32 * i + j) mod 32 = j) by dlia. by rewrite E1, E2, Hw.
Qed.
Lemma bit_split b : b = 32 * (b / 32) + b mod 32 /\ 0 <= b mod 32 < 32.
Proof. dlia. Qed.
Lemma bit_outside v k b : words_ok v k -> 0 <= b -> 32 * k <= b -> bit v b = false.
Proof. intros [Hl _] H0 Hb. unfold bit, BITSET_BITWORD. rewrite lookup_ge_None_2; [apply Z.bits_0|]. assert (k <= b / 32) by dlia. lia. Qed.

(** A word is known by its bits. *)
Lemma word_log2 w : 0 <= w < 2 ^ 32 -> Z.log2 w < 32.
Proof. intros Hw. destruct (Z.eq_dec w 0) as [->|]; [done|]. apply Z.log2_lt_pow2; lia. Qed.
Lemma word_high w j : 0 <= w < 2 ^ 32 -> 32 <= j -> Z.testbit w j = false.
Proof. intros Hw Hj. pose proof (word_log2 w Hw). apply Z.bits_above_log2; lia. Qed.
Lemma word_ext w w' : 0 <= w < 2 ^ 32 -> 0 <= w' < 2 ^ 32 -> (forall j, 0 <= j < 32 -> Z.testbit w j = Z.testbit w' j) -> w = w'.
Proof.
  intros Hw Hw' H. apply Z.bits_inj'. intros j Hj. destruct (Z_lt_le_dec j 32) as [Hlt|Hge]; [by apply H|]. by rewrite !word_high.
Qed.
Lemma word_zero w : 0 <= w < 2 ^ 32 -> w = 0 <-> forall j, 0 <= j < 32 -> Z.testbit w j = false.
Proof. intros Hw. split; [intros -> j _; apply Z.bits_0|]. intros H. apply word_ext; [done|lia|]. intros j Hj. by rewrite H, Z.bits_0. Qed.
Lemma word_nonzero w : 0 <= w < 2 ^ 32 -> w <> 0 -> exists j, 0 <= j < 32 /\ Z.testbit w j = true.
Proof.
  intros Hw Hn. destruct (decide (Exists (fun j => Z.testbit w j = true) (seqZ 0 32))) as [(j & Hj & Hb)%Exists_exists|Hno].
  - exists j. apply elem_of_seqZ in Hj. split; [lia|done].
  - destruct Hn. apply word_zero; [done|]. intros j Hj. destruct (Z.testbit w j) eqn:E; [|done]. destruct Hno. apply Exists_exists.
    exists j. rewrite elem_of_seqZ. split; [lia|done].
Qed.
Lemma words_ext v v' k : words_ok v k -> words_ok v' k -> (forall b, 0 <= b < 32 * k -> bit v b = bit v' b) -> v = v'.
Proof.
  intros Hv Hv' H. apply list_eq_same_length with (length v); [apply Nat2Z.inj; by rewrite (wo_length _ _ Hv), (wo_length _ _ Hv')|done|].
  intros i w w' Hi Hw Hw'. rewrite <- (wo_length _ _ Hv) in H. apply word_ext; [by apply (wo_range _ _ Hv i)|by apply (wo_range _ _ Hv' i)|]. intros j Hj.
  specialize (H (32 * Z.of_nat i + j) ltac:(lia)). by rewrite (bit_word v (Z.of_nat i) j w), (bit_word v' (Z.of_nat i) j w') in H by (rewrite ?Nat2Z.id; done || lia).
Qed.

Lemma array_zero k : 0 <= k -> words_ok (replicate (Z.to_nat k) 0) k.
Proof. intros Hk. split; [rewrite length_replicate; lia|]. intros i w [-> _]%lookup_replicate. lia. Qed.
Lemma bit_zero k b : bit (replicate k 0) b = false.
Proof. unfold bit. destruct (replicate k 0 !! _) as [w|] eqn:E; [apply lookup_replicate in E as [-> _]|]; apply Z.bits_0. Qed.
Lemma words_insert v k i w : words_ok v k -> 0 <= w < 2 ^ 32 -> words_ok (<[i := w]> v) k.
Proof.
  intros [Hl Hr] Hw. split; [by rewrite length_insert|]. intros j x [(-> & -> & _)|[_ Hx]]%list_lookup_insert_Some; [done|by eapply Hr].
Qed.

Lemma lor_word a b : 0 <= a < 2 ^ 32 -> 0 <= b < 2 ^ 32 -> 0 <= Z.lor a b < 2 ^ 32.
Proof.
  intros Ha Hb. split; [apply Z.lor_nonneg; lia|]. destruct (Z.eq_dec (Z.lor a b) 0) as [->|Hn]; [lia|].
  assert (0 <= Z.lor a b) by (apply Z.lor_nonneg; lia). apply Z.log2_lt_pow2; [lia|]. rewrite Z.log2_lor by lia.
  pose proof (word_log2 a Ha). pose proof (word_log2 b Hb). lia.
Qed.
Lemma land_word a b : 0 <= a < 2 ^ 32 -> 0 <= Z.land a b < 2 ^ 32.
Proof.
  intros Ha. assert (E : Z.land a b = Z.land a b mod 2 ^ 32); [|rewrite E; apply Z.mod_pos_bound; lia].
  apply Z.bits_inj'. intros j Hj. destruct (Z_lt_le_dec j 32); [by rewrite Z.mod_pow2_bits_low|].
  by rewrite Z.mod_pow2_bits_high, Z.land_spec, word_high by lia.
Qed.

(** The operations of one bit *)
Lemma set_words v k b : words_ok v k -> 0 <= b < 32 * k ->
  exists v', BITSET_SET v b = Some v' /\ words_ok v' k /\ forall b', 0 <= b' -> bit v' b' = if decide (b' = b) then true else bit v b'.
Proof.
  intros Hv Hb. destruct (bitset_set v b (32 * k)) as (v' & E & _ & Hbit); [done|rewrite (wo_length _ _ Hv); unfold BITSET_WORDS; dlia|].
  exists v'. split; [done|]. split; [|done]. unfold BITSET_SET in E. apply bind_Some in E as (w & Hw & [= <-]). apply words_insert; [done|].
  apply lor_word; [by apply (wo_range _ _ Hv _ _ Hw)|]. rewrite bitset_bit. pose proof (Z.mod_pos_bound b 32 ltac:(lia)).
  pose proof (pow2_pos (b mod 32) ltac:(lia)). pose proof (pow2_lt (b mod 32) 32 ltac:(lia)). lia.
Qed.
Lemma clear_words v k b : words_ok v k -> 0 <= b < 32 * k ->
  exists v', BITSET_CLEAR v b = Some v' /\ words_ok v' k /\ forall b', 0 <= b' -> bit v' b' = if decide (b' = b) then false else bit v b'.
Proof.
  intros Hv Hb. destruct (bitset_clear v b (32 * k)) as (v' & E & _ & Hbit); [done|rewrite (wo_length _ _ Hv); unfold BITSET_WORDS; dlia|].
  exists v'. split; [done|]. split; [|done]. unfold BITSET_CLEAR in E. apply bind_Some in E as (w & Hw & [= <-]). apply words_insert; [done|].
  apply land_word. by apply (wo_range _ _ Hv _ _ Hw).
Qed.
Lemma test_words v k b : words_ok v k -> 0 <= b < 32 * k -> BITSET_TEST v b = Some (bit v b).
Proof. intros Hv Hb. apply bitset_test with (32 * k); [done|]. rewrite (wo_length _ _ Hv). unfold BITSET_WORDS. dlia. Qed.

(** ** Empty arrays and unions *)

Lemma is_empty_loop_words v k todo : forall i, words_ok v k -> 0 <= i -> i + Z.of_nat todo = k ->
  exists e, is_empty_loop todo v i = Some e /\ (e = true <-> forall b, 32 * i <= b < 32 * k -> bit v b = false).
Proof.
  induction todo as [|todo IH]; intros i Hv Hi Hk; cbn [is_empty_loop].
  { exists true. split; [done|]. split; [|done]. intros _ b Hb. lia. }
  destruct (words_lookup v k i Hv ltac:(lia)) as (w & Hw & Hr). rewrite Hw. cbn [mbind option_bind].
  destruct (Z.eqb_spec w 0) as [->|Hn]; cbn [negb].
  - destruct (IH (i + 1) Hv ltac:(lia) ltac:(lia)) as (e & -> & He). exists e. split; [done|]. rewrite He. split; intros H b Hb; [|apply H; lia].
    destruct (Z_lt_le_dec b (32 * (i + 1))); [|apply H; lia]. replace b with (32 * i + (b - 32 * i)) by lia.
    rewrite (bit_word v i _ 0) by (lia || done). apply Z.bits_0.
  - exists false. split; [done|]. split; [done|]. intros H. destruct (word_nonzero w Hr Hn) as (j & Hj & Hb).
    rewrite <- (bit_word v i j w) in Hb by (lia || done). rewrite H in Hb by lia. done.
Qed.
Lemma is_empty_words v k : words_ok v k -> bitset_is_empty v k = Some (bool_decide (dense v (32 * k) = [])).
Proof.
  intros Hv. pose proof (wo_length _ _ Hv). destruct (is_empty_loop_words v k (Z.to_nat k) 0 Hv ltac:(lia) ltac:(lia)) as (e & E & He).
  unfold bitset_is_empty. rewrite E. f_equal. apply eq_bool_prop_intro. rewrite bool_decide_spec.
  assert (Hd : dense v (32 * k) = [] <-> forall b, 32 * 0 <= b < 32 * k -> bit v b = false).
  { split.
    - intros Ed b Hb. destruct (bit v b) eqn:Eb; [|done]. assert (Hin : b ∈ dense v (32 * k)) by (apply elem_of_dense; split; [lia|done]).
      rewrite Ed in Hin. by apply not_elem_of_nil in Hin.
    - intros Hf. destruct (dense v (32 * k)) as [|b l] eqn:Ed; [done|]. assert (Hin : b ∈ dense v (32 * k)) by (rewrite Ed; set_solver).
      apply elem_of_dense in Hin as [Hb Hin]. rewrite Hf in Hin by lia. done. }
  rewrite Hd, <- He. by destruct e.
Qed.

Lemma new_bits s d : 0 <= s < 2 ^ 32 -> negb (Z.land s (not32 d) =? 0) = true <-> exists j, 0 <= j < 32 /\ Z.testbit s j = true /\ Z.testbit d j = false.
Proof.
  intros Hs. pose proof (land_word s (not32 d) Hs) as Hl. destruct (Z.eqb_spec (Z.land s (not32 d)) 0) as [E|E]; cbn [negb]; split; try done.
  - intros (j & Hj & H1 & H2). apply (word_zero _ Hl) with (j := j) in E; [|done]. by rewrite Z.land_spec, not32_testbit, H1, H2 in E.
  - intros _. destruct (word_nonzero _ Hl E) as (j & Hj & Hb). exists j. rewrite Z.land_spec, not32_testbit in Hb by done.
    apply andb_true_iff in Hb as [-> Hb]. split; [done|]. split; [done|]. by apply negb_true_iff.
Qed.

Lemma merge_loop_words s k todo : forall i d c, words_ok s k -> words_ok d k -> 0 <= i -> i + Z.of_nat todo = k ->
  exists v c', bitset_merge_loop todo d s i c = Some (v, c') /\ words_ok v k
    /\ (forall b, 0 <= b -> bit v b = bit d b || (bool_decide (32 * i <= b) && bit s b))
    /\ (c' = true <-> c = true \/ exists b, 32 * i <= b < 32 * k /\ bit s b = true /\ bit d b = false).
Proof.
  induction todo as [|todo IH]; intros i d c Hs Hd Hi Hk; cbn [bitset_merge_loop].
  { exists d, c. split_and!; [done|done| |split; [by left|]].
    - intros b Hb. case_bool_decide; [|by rewrite orb_false_r]. rewrite (bit_outside s k b), andb_false_r, orb_false_r by (done || lia). done.
    - intros [H|(b & Hb & _)]; [done|lia]. }
  destruct (words_lookup s k i Hs ltac:(lia)) as (ws & Hws & Hrs). destruct (words_lookup d k i Hd ltac:(lia)) as (wd & Hwd & Hrd).
  rewrite Hws, Hwd. cbn [mbind option_bind].
  assert (Hd' : words_ok (<[Z.to_nat i := Z.lor wd ws]> d) k) by (apply words_insert; [done|by apply lor_word]).
  destruct (IH (i + 1) _ (c || negb (Z.land ws (not32 wd) =? 0)) Hs Hd' ltac:(lia) ltac:(lia)) as (v & c' & -> & Hv & Hbit & Hc).
  assert (Hins : forall b, 0 <= b -> bit (<[Z.to_nat i := Z.lor wd ws]> d) b = bit d b || (bool_decide (32 * i <= b < 32 * (i + 1)) && bit s b)).
  { intros b Hb. case_bool_decide as Hc'.
    - replace b with (32 * i + (b - 32 * i)) by lia. rewrite (bit_word _ i (b - 32 * i) (Z.lor wd ws)), (bit_word d i _ wd), (bit_word s i _ ws); try done; try lia.
      + apply Z.lor_spec.
      + apply list_lookup_insert_eq. by apply lookup_lt_Some in Hwd.
    - rewrite orb_false_r. unfold bit, BITSET_BITWORD. rewrite list_lookup_insert_ne; [done|]. intros E. assert (b / 32 = i) by (assert (0 <= b / 32) by dlia; lia). dlia. }
  exists v, c'. split; [done|]. split; [done|]. split.
  - intros b Hb. rewrite Hbit, Hins by done. destruct (bit d b); [done|]. cbn [orb]. repeat case_bool_decide; try lia; cbn; by rewrite ?orb_false_r.
  - rewrite Hc, orb_true_iff, new_bits by done. split.
    + intros [[H|(j & Hj & H1 & H2)]|(b & Hb & H1 & H2)]; [by left|right; exists (32 * i + j)|right; exists b].
      * rewrite (bit_word s i j ws), (bit_word d i j wd) by (lia || done). split; [lia|done].
      * rewrite Hins in H2 by lia. apply orb_false_iff in H2 as [H2 _]. split; [lia|done].
    + intros [H|(b & Hb & H1 & H2)]; [by left; left|]. destruct (Z_lt_le_dec b (32 * (i + 1))) as [Hlt|Hge].
      * left; right. exists (b - 32 * i). replace b with (32 * i + (b - 32 * i)) in H1, H2 by lia.
        rewrite (bit_word s i _ ws) in H1 by (lia || done). rewrite (bit_word d i _ wd) in H2 by (lia || done). split; [lia|done].
      * right. exists b. rewrite Hins, H2 by lia. rewrite bool_decide_false by lia. split; [lia|done].
Qed.
Lemma merge_words d s k : words_ok d k -> words_ok s k ->
  exists v c, u_bitset_merge d s k = Some (v, c) /\ words_ok v k /\ (forall b, 0 <= b -> bit v b = bit d b || bit s b)
    /\ (c = true <-> exists b, 0 <= b < 32 * k /\ bit s b = true /\ bit d b = false).
Proof.
  intros Hd Hs. pose proof (wo_length _ _ Hs). destruct (merge_loop_words s k (Z.to_nat k) 0 d false Hs Hd ltac:(lia) ltac:(lia)) as (v & c & E & Hv & Hb & Hc).
  exists v, c. split; [exact E|]. split; [done|]. split.
  - intros b Hb0. rewrite Hb, bool_decide_true by lia. done.
  - rewrite Hc. change (32 * 0) with 0. intuition congruence.
Qed.

(** ** Counting *)

(** The number of set bits among the lowest [n] *)
Fixpoint pop (n : nat) (w : Z) : Z := match n with O => 0 | S n => w mod 2 + pop n (w / 2) end.
Lemma pop_bounds n w : 0 <= pop n w <= Z.of_nat n.
Proof. revert w. induction n as [|n IH]; intros w; cbn [pop]; [lia|]. specialize (IH (w / 2)). pose proof (Z.mod_pos_bound w 2). lia. Qed.
Lemma pop_zero n w : 0 <= w < 2 ^ Z.of_nat n -> pop n w = 0 -> w = 0.
Proof.
  revert w. induction n as [|n IH]; intros w Hw Hp; [cbn in Hw; lia|]. cbn [pop] in Hp. rewrite Nat2Z.inj_succ, Z.pow_succ_r in Hw by lia.
  pose proof (pop_bounds n (w / 2)). assert (w / 2 = 0) by (apply IH; [dlia|dlia]). dlia.
Qed.
Lemma pop_0 n : pop n 0 = 0.
Proof. induction n; [done|]. cbn [pop]. by rewrite Zmod_0_l, Zdiv_0_l, IHn. Qed.

(** [n & (n - 1)] has one bit less. *)
Lemma land_div2 a b : Z.land a b / 2 = Z.land (a / 2) (b / 2).
Proof. change 2 with (2 ^ 1). by rewrite <- !Z.shiftr_div_pow2, Z.shiftr_land by lia. Qed.
Lemma land_mod2 a b : Z.land a b mod 2 = (a mod 2) * (b mod 2).
Proof. rewrite <- !Z.bit0_mod, Z.land_spec. by destruct (Z.testbit a 0), (Z.testbit b 0). Qed.
Lemma pop_clear_lowest n : forall w, 0 < w < 2 ^ Z.of_nat n -> pop n (Z.land w (w - 1)) = pop n w - 1.
Proof.
  induction n as [|n IH]; intros w Hw; [cbn in Hw; lia|]. cbn [pop]. rewrite Nat2Z.inj_succ, Z.pow_succ_r in Hw by lia. rewrite land_mod2, land_div2.
  destruct (Z.eq_dec (w mod 2) 0) as [E|E].
  - assert (E2 : (w - 1) / 2 = w / 2 - 1) by dlia. rewrite E, E2, IH by dlia. lia.
  - assert (E1 : w mod 2 = 1) by dlia. assert (E2 : (w - 1) / 2 = w / 2) by dlia. assert (E3 : (w - 1) mod 2 = 0) by dlia.
    rewrite E1, E2, E3, Z.land_diag. lia.
Qed.
Lemma bitcount_loop_pop fuel : forall w b, 0 <= w < 2 ^ 32 -> pop 32 w <= Z.of_nat fuel -> bitcount_loop fuel w b = b + pop 32 w.
Proof.
  induction fuel as [|fuel IH]; intros w b Hw Hf; cbn [bitcount_loop].
  { pose proof (pop_bounds 32 w). lia. }
  destruct (Z.eqb_spec w 0) as [->|Hn]; [rewrite pop_0; lia|]. pose proof (pop_clear_lowest 32 w ltac:(lia)) as E.
  rewrite IH; [lia|by apply land_word|lia].
Qed.
Lemma bitcount_pop w : 0 <= w < 2 ^ 32 -> util_bitcount w = pop 32 w.
Proof. intros Hw. unfold util_bitcount. pose proof (pop_bounds 32 w). rewrite bitcount_loop_pop by (done || lia). lia. Qed.

Lemma filter_map_length {B} (g : B -> Z) (p : Z -> bool) (l : list B) :
  length (filter (fun i => p i = true) (map g l)) = length (filter (fun x => p (g x) = true) l).
Proof. induction l as [|x l IH]; [done|]. cbn [map]. rewrite !filter_cons. repeat case_decide; try done; cbn [length]; by rewrite IH. Qed.
Lemma filter_length_ext {B} (p q : B -> bool) (l : list B) : (forall x, x ∈ l -> p x = q x) ->
  length (filter (fun x => p x = true) l) = length (filter (fun x => q x = true) l).
Proof.
  induction l as [|x l IH]; intros H; [done|]. rewrite !filter_cons, (H x) by set_solver. case_decide; cbn [length]; rewrite IH by set_solver; done.
Qed.
Lemma pop_filter n w : pop n w = Z.of_nat (length (filter (fun j => Z.testbit w j = true) (seqZ 0 (Z.of_nat n)))).
Proof.
  revert w. induction n as [|n IH]; intros w; [done|]. cbn [pop]. rewrite IH, (seqZ_cons 0 (Z.of_nat (S n))) by lia. rewrite Nat2Z.inj_succ, Z.pred_succ.
  assert (Es : seqZ (Z.succ 0) (Z.of_nat n) = map Z.succ (seqZ 0 (Z.of_nat n))).
  { change (Z.succ 0) with (1 + 0). rewrite <- (fmap_add_seqZ 1 0). apply map_ext. intros. lia. }
  assert (Et : length (filter (fun j => Z.testbit w j = true) (map Z.succ (seqZ 0 (Z.of_nat n))))
             = length (filter (fun j => Z.testbit (w / 2) j = true) (seqZ 0 (Z.of_nat n)))).
  { rewrite (filter_map_length Z.succ (Z.testbit w)). apply filter_length_ext. intros j Hj. apply elem_of_seqZ in Hj.
    change (w / 2) with (w / 2 ^ 1). rewrite <- Z.shiftr_div_pow2, Z.shiftr_spec by lia. done. }
  rewrite Es, filter_cons, <- Et. rewrite <- Z.bit0_mod. destruct (Z.testbit w 0); case_decide; try done; cbn [length]. change (Z.b2z true) with 1. lia.
Qed.

Lemma prefix_sum_words v k todo : forall i p, words_ok v k -> 0 <= i -> i + Z.of_nat todo = k -> k < 2 ^ 27 ->
  prefix_sum_loop todo v UINT32_MAX i p
  = Some (if todo then p else u32 (p + Z.of_nat (length (filter (fun j => bit v j = true) (seqZ (32 * i) (32 * Z.of_nat todo)))))).
Proof.
  induction todo as [|todo IH]; intros i p Hv Hi Hk Hb; [done|]. cbn [prefix_sum_loop].
  destruct (words_lookup v k i Hv ltac:(lia)) as (w & Hw & Hr). rewrite Hw. cbn [mbind option_bind].
  destruct (Z.leb_spec ((i + 1) * 32) UINT32_MAX) as [_|Hc]; [|unfold UINT32_MAX in Hc; lia].
  rewrite bitcount_pop, pop_filter by done. rewrite (IH (i + 1)) by (done || lia). f_equal.
  replace (32 * Z.of_nat (S todo)) with (32 + 32 * Z.of_nat todo) by lia. rewrite seqZ_app, filter_app, length_app by lia.
  replace (32 * i + 32) with (32 * (i + 1)) by lia.
  assert (E : length (filter (fun j => bit v j = true) (seqZ (32 * i) 32)) = length (filter (fun j => Z.testbit w j = true) (seqZ 0 32))).
  { assert (Es : seqZ (32 * i) 32 = map (Z.add (32 * i)) (seqZ 0 32)).
    { etrans; [|symmetry; apply (fmap_add_seqZ (32 * i) 0)]. by rewrite Z.add_0_r. }
    rewrite Es, (filter_map_length (Z.add (32 * i)) (bit v)). apply filter_length_ext. intros j Hj. apply elem_of_seqZ in Hj. apply bit_word; (lia || done). }
  rewrite E. destruct todo; [change (length (filter _ (seqZ (32 * (i + 1)) (32 * Z.of_nat 0)))) with O; rewrite Nat.add_0_r; done|]. unfold u32. rewrite wrap_wrap_add by lia. f_equal. rewrite Nat2Z.inj_add. change (Z.of_nat 32) with 32. lia.
Qed.
Lemma count_words v k : words_ok v k -> 0 < k < 2 ^ 27 -> bitset_count v k = Some (Z.of_nat (length (dense v (32 * k)))).
Proof.
  intros Hv Hk. unfold bitset_count, bitset_prefix_sum. rewrite (prefix_sum_words v k (Z.to_nat k) 0 0) by (done || lia). destruct (Z.to_nat k) eqn:E; [lia|].
  rewrite <- E, Z2Nat.id by lia. f_equal. rewrite Z.add_0_l. change (32 * 0) with 0. unfold dense. apply u32_small. split; [lia|].
  pose proof (length_filter (fun j => bit v j = true) (seqZ 0 (32 * k))) as Hl. rewrite length_seqZ in Hl. lia.
Qed.

(** ** The next set bit *)

Definition next_bit (v : list Z) (from stop r : Z) : Prop :=
  (r = UINT_MAX /\ forall b, from <= b < stop -> bit v b = false)
  \/ (from <= r < stop /\ bit v r = true /\ forall b, from <= b < r -> bit v b = false).

Lemma ffs_word w : 0 <= w < 2 ^ 32 -> w <> 0 ->
  exists j, ffs w = j + 1 /\ 0 <= j < 32 /\ Z.testbit w j = true /\ forall i, 0 <= i < j -> Z.testbit w i = false.
Proof.
  intros Hw Hn. destruct (word_nonzero w Hw Hn) as (j & Hj & Hb). destruct (ffs_loop_spec 32 0 w) as (k & E & Hk & H1 & H2); [lia|exists j; split; [lia|done]|].
  exists k. split; [done|]. split; [lia|done].
Qed.

Lemma next_word_words v k todo : forall i, words_ok v k -> 0 <= i -> i + Z.of_nat todo = k -> k <= 2 ^ 27 ->
  exists r, next_word todo v i = Some r /\ next_bit v (32 * i) (32 * k) r.
Proof.
  induction todo as [|todo IH]; intros i Hv Hi Hk Hb; cbn [next_word].
  { exists UINT_MAX. split; [done|]. left. split; [done|]. lia. }
  destruct (words_lookup v k i Hv ltac:(lia)) as (w & Hw & Hr). rewrite Hw. cbn [mbind option_bind].
  destruct (Z.eqb_spec w 0) as [->|Hn]; cbn [negb].
  - destruct (IH (i + 1) Hv ltac:(lia) ltac:(lia) Hb) as (r & -> & H). exists r. split; [done|].
    assert (Hz : forall b, 32 * i <= b < 32 * (i + 1) -> bit v b = false).
    { intros b Hb'. replace b with (32 * i + (b - 32 * i)) by lia. rewrite (bit_word v i _ 0) by (lia || done). apply Z.bits_0. }
    destruct H as [[-> H]|(H1 & H2 & H3)]; [left|right].
    + split; [done|]. intros b Hb'. destruct (Z_lt_le_dec b (32 * (i + 1))); [apply Hz|apply H]; lia.
    + split; [lia|]. split; [done|]. intros b Hb'. destruct (Z_lt_le_dec b (32 * (i + 1))); [apply Hz|apply H3]; lia.
  - destruct (ffs_word w Hr Hn) as (j & -> & Hj & H1 & H2). rewrite u32_small by lia. eexists. split; [done|]. right.
    replace (i * 32 + (j + 1) - 1) with (32 * i + j) by lia. split; [lia|]. rewrite (bit_word v i j w) by (lia || done). split; [done|].
    intros b Hb'. replace b with (32 * i + (b - 32 * i)) by lia. rewrite (bit_word v i _ w) by (lia || done). apply H2. lia.
Qed.

(** Searching from a number on finds the first set bit that is not smaller. *)
Lemma next_set_words v k size from : words_ok v k -> BITSET_WORDS size = k -> k <= 2 ^ 27 -> 0 <= from ->
  exists r, u_sparse_bitset_next_set_dense v size from = Some r /\ (if size <=? from then r = UINT_MAX else next_bit v from (32 * k) r).
Proof.
  intros Hv Ek Hk Hf. unfold u_sparse_bitset_next_set_dense. destruct (Z.leb_spec size from) as [Hs|Hs]; [by eexists|]. unfold BITSET_WORDS in Ek.
  pose proof (bit_split from) as [Es Hm]. set (i := from / 32) in *. set (o := from mod 32) in *. assert (Hi : 0 <= i < k) by (unfold i; dlia).
  destruct (words_lookup v k i Hv Hi) as (w & Hw & Hr). rewrite Hw. cbn [mbind option_bind].
  assert (Hsr : 0 <= Z.shiftr w o < 2 ^ 32).
  { rewrite Z.shiftr_div_pow2 by lia. pose proof (pow2_pos o ltac:(lia)). split; [apply Z.div_pos; lia|]. apply Z.div_lt_upper_bound; [lia|]. nia. }
  assert (Hbit : forall b, from <= b < 32 * (i + 1) -> bit v b = Z.testbit (Z.shiftr w o) (b - from)).
  { intros b Hb. rewrite Z.shiftr_spec by lia. replace b with (32 * i + (b - 32 * i)) at 1 by lia. rewrite (bit_word v i _ w) by (lia || done). f_equal. lia. }
  destruct (Z.eqb_spec (Z.shiftr w o) 0) as [E|E]; cbn [negb].
  - destruct (next_word_words v k (Z.to_nat (BITSET_WORDS size - (i + 1))) (i + 1) Hv) as (r & Er & H); [lia|unfold BITSET_WORDS; lia|done|].
    exists r. split; [exact Er|]. assert (Hz : forall b, from <= b < 32 * (i + 1) -> bit v b = false) by (intros b Hb; by rewrite Hbit, E, Z.bits_0).
    destruct H as [[-> H]|(H1 & H2 & H3)]; [left|right].
    + split; [done|]. intros b Hb'. destruct (Z_lt_le_dec b (32 * (i + 1))); [apply Hz|apply H]; lia.
    + split; [lia|]. split; [done|]. intros b Hb'. destruct (Z_lt_le_dec b (32 * (i + 1))); [apply Hz|apply H3]; lia.
  - destruct (ffs_word _ Hsr E) as (j & -> & Hj & H1 & H2). assert (Hoj : o + j < 32).
    { rewrite Z.shiftr_spec in H1 by lia. destruct (Z_lt_le_dec (j + o) 32); [lia|]. by rewrite word_high in H1. }
    rewrite u32_small by lia. eexists. split; [done|]. right. replace (from + (j + 1) - 1) with (from + j) by lia. split; [lia|]. split.
    + rewrite Hbit by lia. by replace (from + j - from) with j by lia.
    + intros b Hb. rewrite Hbit by lia. apply H2. lia.
Qed.

(** ** Comparing *)

Lemma memcmp_refl x : memcmp x x = 0.
Proof. induction x as [|a x IH]; [done|]. cbn. by rewrite Z.ltb_irrefl. Qed.
Lemma memcmp_eq x : forall y, length x = length y -> memcmp x y = 0 -> x = y.
Proof.
  induction x as [|a x IH]; intros [|b y] Hl H; try done. cbn in *. destruct (Z.ltb_spec a b); [done|]. destruct (Z.ltb_spec b a); [done|].
  f_equal; [lia|]. apply IH; [lia|done].
Qed.
Lemma word_bytes_inj x : forall y k, words_ok x k -> words_ok y k -> word_bytes x = word_bytes y -> x = y.
Proof.
  assert (Htl : forall w l k, words_ok (w :: l) k -> 0 <= w < 2 ^ (8 * Z.of_nat 4) /\ words_ok l (k - 1)).
  { intros w l k [Hl Hr]. split; [by apply (Hr 0%nat)|]. split; [cbn in Hl; lia|]. intros i. apply (Hr (S i)). }
  induction x as [|a x IH]; intros [|b y] k Hx Hy H; try (pose proof (wo_length _ _ Hx); pose proof (wo_length _ _ Hy); cbn in *; lia || done).
  cbn [word_bytes flat_map] in H. destruct (Htl _ _ _ Hx) as [Ha Hx']. destruct (Htl _ _ _ Hy) as [Hb Hy'].
  apply app_inj_1 in H as [H1 H2]; [|by rewrite !length_le_bytes]. f_equal; [|by apply (IH y (k - 1))].
  by rewrite <- (le_bytes_value 4 a Ha), H1, le_bytes_value.
Qed.
Lemma length_word_bytes x : length (word_bytes x) = (4 * length x)%nat.
Proof. induction x as [|a x IH]; [done|]. cbn [word_bytes flat_map]. rewrite length_app, length_le_bytes. unfold word_bytes in IH. rewrite IH. cbn. lia. Qed.
Lemma memcmp_words x y k : words_ok x k -> words_ok y k -> memcmp (word_bytes x) (word_bytes y) = 0 <-> x = y.
Proof.
  intros Hx Hy. split; [|intros ->; apply memcmp_refl]. intros H. apply (word_bytes_inj x y k Hx Hy), memcmp_eq; [|done].
  rewrite !length_word_bytes. pose proof (wo_length _ _ Hx). pose proof (wo_length _ _ Hy). lia.
Qed.
