(* ===== verification/SparseBitset.v ===== *)
(** * Sparse bitsets (src/util/sparse_bitset.h)

    A set of 32-bit numbers: an intrusive red-black tree of nodes, ordered by their offsets, each
    with a bitset of the 1024 numbers from its offset on.  The nodes of all the sets are in one
    memory; a set has the root of its tree.  A small set has a bitset of its own
    instead.  What the allocator returns for a new node is an argument, [malloc], of the
    addresses in use; writing to NULL is an error ([None]), as are failed assertions and
    accesses outside an array or to a node that is not there. *)

From Stdlib Require Import ZArith Lia Sorted.
From stdpp Require Import base list gmap numbers option sets sorting.
From S2P Require Import Prelude FastDiv Rmq Worklist DenseBits RbTree RbInsert RbRemove RbQuery RbPayload.
Local Open Scope Z_scope.

(** ** Nodes and sets *)

Definition U_SPARSE_BITSET_LOG2_BITS_PER_NODE : Z := 10.
Definition U_SPARSE_BITSET_BITS_PER_NODE : Z := u32 (Z.shiftl 1 U_SPARSE_BITSET_LOG2_BITS_PER_NODE).
Definition U_SPARSE_BITSET_BIT_INDEX_MASK : Z := u32 (U_SPARSE_BITSET_BITS_PER_NODE - 1).
Definition U_SPARSE_BITSET_OFFSET_MASK : Z := not32 U_SPARSE_BITSET_BIT_INDEX_MASK.
Definition U_SPARSE_BITSET_SMALL_SET_THRESHOLD : Z := 0.
(** [ARRAY_SIZE(node->vals)] *)
Definition NODE_WORDS : Z := BITSET_WORDS U_SPARSE_BITSET_BITS_PER_NODE.

Record u_sparse_bitset_node := SparseNode { offset : Z; vals : list Z }.
Notation heap := (gmap Z (rb_node u_sparse_bitset_node)).

(** [small_vals] is the array of a small set, [tree_root] the tree of a large one. *)
Record u_sparse_bitset := SparseBitset { tree_root : Z; small_vals : list Z; capacity : Z }.
Definition with_root (s : u_sparse_bitset) (r : Z) : u_sparse_bitset := SparseBitset r (small_vals s) (capacity s).
Definition with_small (s : u_sparse_bitset) (v : list Z) : u_sparse_bitset := SparseBitset (tree_root s) v (capacity s).
Definition tree_of (h : heap) (s : u_sparse_bitset) : mem u_sparse_bitset_node := Mem (tree_root s) h.

Definition u_sparse_bitset_is_small (s : u_sparse_bitset) : bool := negb (capacity s =? 0).

(** [u_sparse_bitset_init] for a threshold *)
Definition init_with (threshold capacity : Z) : u_sparse_bitset :=
  if negb (capacity =? 0) && (capacity <? threshold)
  then SparseBitset 0 (replicate (Z.to_nat (BITSET_WORDS capacity)) 0) capacity
  else SparseBitset 0 [] 0.
Definition u_sparse_bitset_init (capacity : Z) : u_sparse_bitset := init_with U_SPARSE_BITSET_SMALL_SET_THRESHOLD capacity.

(** [node->offset] and the comparisons *)
Definition offset_of (h : heap) (a : Z) : Z := from_option (fun n => offset (n_aug n)) 0 (h !! a).
Definition u_sparse_bitset_node_comparator (offset_a offset_b : Z) : Z :=
  Z.b2z (offset_a <? offset_b) - Z.b2z (offset_a >? offset_b).
Definition u_sparse_bitset_node_compare (h : heap) (a b : Z) : Z := u_sparse_bitset_node_comparator (offset_of h a) (offset_of h b).
Definition u_sparse_bitset_node_search (h : heap) (key node : Z) : Z := u_sparse_bitset_node_comparator (offset_of h node) key.

Definition node_vals (h : heap) (a : Z) : option (list Z) := n ← h !! a; Some (vals (n_aug n)).
(** Writing [node->vals] *)
Definition set_vals (h : heap) (a : Z) (v : list Z) : option heap :=
  n ← h !! a; Some (<[a := with_aug (SparseNode (offset (n_aug n)) v) n]> h).

Definition u_sparse_bitset_get_node (h : heap) (s : u_sparse_bitset) (offset : Z) : option Z :=
  assert! negb (u_sparse_bitset_is_small s) ;;
  rb_tree_search (u_sparse_bitset_node_search h offset) (tree_of h s).

Section operations.
Context (malloc : gset Z -> Z).

(** A new struct, at the address that [malloc] gives, inserted into the tree of [s] *)
Definition add_node (h : heap) (s : u_sparse_bitset) (n : rb_node u_sparse_bitset_node) : option (heap * u_sparse_bitset * Z) :=
  let node := malloc (dom h) in
  assert! negb (node =? 0) ;;
  let h := <[node := n]> h in
  m ← rb_tree_insert (u_sparse_bitset_node_compare h) (tree_of h s) node;
  Some (cells m, with_root s (root m), node).

Definition u_sparse_bitset_get_or_add_node (h : heap) (s : u_sparse_bitset) (offset : Z) : option (heap * u_sparse_bitset * Z) :=
  assert! negb (u_sparse_bitset_is_small s) ;;
  assert! Z.land offset U_SPARSE_BITSET_BIT_INDEX_MASK =? 0 ;;
  node ← u_sparse_bitset_get_node h s offset;
  if node =? 0 then add_node h s (RbNode 0 0 0 (SparseNode offset (replicate (Z.to_nat NODE_WORDS) 0)))
  else Some (h, s, node).

Definition u_sparse_bitset_set (h : heap) (s : u_sparse_bitset) (bit : Z) : option (heap * u_sparse_bitset) :=
  if u_sparse_bitset_is_small s then
    assert! bit <? capacity s ;;
    v ← BITSET_SET (small_vals s) bit;
    Some (h, with_small s v)
  else
    '(h, s, node) ← u_sparse_bitset_get_or_add_node h s (Z.land bit U_SPARSE_BITSET_OFFSET_MASK);
    v ← node_vals h node;
    v ← BITSET_SET v (Z.land bit U_SPARSE_BITSET_BIT_INDEX_MASK);
    h ← set_vals h node v;
    Some (h, s).

Definition u_sparse_bitset_clear (h : heap) (s : u_sparse_bitset) (bit : Z) : option (heap * u_sparse_bitset) :=
  if u_sparse_bitset_is_small s then
    assert! bit <? capacity s ;;
    v ← BITSET_CLEAR (small_vals s) bit;
    Some (h, with_small s v)
  else
    node ← u_sparse_bitset_get_node h s (Z.land bit U_SPARSE_BITSET_OFFSET_MASK);
    if node =? 0 then Some (h, s)
    else
      v ← node_vals h node;
      v ← BITSET_CLEAR v (Z.land bit U_SPARSE_BITSET_BIT_INDEX_MASK);
      h ← set_vals h node v;
      Some (h, s).

Definition u_sparse_bitset_test (h : heap) (s : u_sparse_bitset) (bit : Z) : option bool :=
  if u_sparse_bitset_is_small s then
    assert! bit <? capacity s ;;
    BITSET_TEST (small_vals s) bit
  else
    node ← u_sparse_bitset_get_node h s (Z.land bit U_SPARSE_BITSET_OFFSET_MASK);
    if node =? 0 then Some false
    else v ← node_vals h node; BITSET_TEST v (Z.land bit U_SPARSE_BITSET_BIT_INDEX_MASK).

(** ** Whole sets *)

(** The body of the loop of [u_sparse_bitset_clear_all] and [u_sparse_bitset_free] *)
Definition remove_and_free (m : mem u_sparse_bitset_node) (node : Z) : option (mem u_sparse_bitset_node) :=
  m ← rb_tree_remove m node; Some (Mem (root m) (delete node (cells m))).
Definition free_nodes (h : heap) (s : u_sparse_bitset) : option (heap * u_sparse_bitset) :=
  '(m, _) ← rb_tree_foreach_safe remove_and_free (tree_of h s);
  Some (cells m, with_root s (root m)).

Definition u_sparse_bitset_clear_all (h : heap) (s : u_sparse_bitset) : option (heap * u_sparse_bitset) :=
  if u_sparse_bitset_is_small s then Some (h, with_small s (replicate (Z.to_nat (BITSET_WORDS (capacity s))) 0))
  else free_nodes h s.

(** After [ralloc_free(s->vals)] a small set has no array. *)
Definition u_sparse_bitset_free (h : heap) (s : u_sparse_bitset) : option (heap * u_sparse_bitset) :=
  if u_sparse_bitset_is_small s then Some (h, with_small s []) else free_nodes h s.

Fixpoint cmp_loop (fuel : nat) (h : heap) (a b : u_sparse_bitset) (a_iter b_iter : Z) : option Z :=
  match fuel with
  | O => None
  | S fuel =>
      if negb (a_iter =? 0) && negb (b_iter =? 0) then
        let node_cmp := u_sparse_bitset_node_compare h a_iter b_iter in
        if negb (node_cmp =? 0) then Some node_cmp
        else
          va ← node_vals h a_iter;
          vb ← node_vals h b_iter;
          let cmp_res := memcmp (word_bytes va) (word_bytes vb) in
          if negb (cmp_res =? 0) then Some cmp_res
          else
            a_iter ← rb_node_next (tree_of h a) a_iter;
            b_iter ← rb_node_next (tree_of h b) b_iter;
            cmp_loop fuel h a b a_iter b_iter
      else Some (Z.b2z (negb (a_iter =? 0)) - Z.b2z (negb (b_iter =? 0)))
  end.
Definition u_sparse_bitset_cmp (h : heap) (a b : u_sparse_bitset) : option Z :=
  assert! capacity a =? capacity b ;;
  if u_sparse_bitset_is_small a then Some (memcmp (word_bytes (small_vals a)) (word_bytes (small_vals b)))
  else
    a_iter ← rb_tree_first (tree_of h a);
    b_iter ← rb_tree_first (tree_of h b);
    cmp_loop (fuel_of (tree_of h a)) h a b a_iter b_iter.

Fixpoint dup_loop (fuel : nat) (h : heap) (dst src : u_sparse_bitset) (node : Z) : option (heap * u_sparse_bitset) :=
  match fuel with
  | O => None
  | S fuel =>
      if node =? 0 then Some (h, dst)
      else
        n ← h !! node;
        empty ← bitset_is_empty (vals (n_aug n)) NODE_WORDS;
        '(h, dst) ← (if (empty : bool) then Some (h, dst)
                     else '(h, dst, _) ← add_node h dst n; Some (h, dst));
        next ← rb_node_next (tree_of h src) node;
        dup_loop fuel h dst src next
  end.
(** For a threshold of [u_sparse_bitset_init] *)
Definition dup_with (threshold : Z) (h : heap) (src : u_sparse_bitset) : option (heap * u_sparse_bitset) :=
  let dst := init_with threshold (capacity src) in
  if u_sparse_bitset_is_small src then Some (h, with_small dst (small_vals src))
  else
    first ← rb_tree_first (tree_of h src);
    dup_loop (fuel_of (tree_of h src)) h dst src first.
Definition u_sparse_bitset_dup_with_ctx (h : heap) (src : u_sparse_bitset) : option (heap * u_sparse_bitset) :=
  dup_with U_SPARSE_BITSET_SMALL_SET_THRESHOLD h src.
(** The same with the ralloc context of [src]; contexts are not part of the model of the sets. *)
Definition u_sparse_bitset_dup : heap -> u_sparse_bitset -> option (heap * u_sparse_bitset) := u_sparse_bitset_dup_with_ctx.

Fixpoint merge_loop (fuel : nat) (h : heap) (dst src : u_sparse_bitset) (node : Z) (changed : bool) : option (heap * u_sparse_bitset * bool) :=
  match fuel with
  | O => None
  | S fuel =>
      if node =? 0 then Some (h, dst, changed)
      else
        n ← h !! node;
        empty ← bitset_is_empty (vals (n_aug n)) NODE_WORDS;
        '(h, dst, changed) ←
          (if (empty : bool) then Some (h, dst, changed)
           else
             '(h, dst, dst_node) ← u_sparse_bitset_get_or_add_node h dst (offset (n_aug n));
             dv ← node_vals h dst_node;
             sv ← node_vals h node;
             '(v, c) ← u_bitset_merge dv sv NODE_WORDS;
             h ← set_vals h dst_node v;
             Some (h, dst, changed || c));
        next ← rb_node_next (tree_of h src) node;
        merge_loop fuel h dst src next changed
  end.
Definition u_sparse_bitset_merge (h : heap) (dst src : u_sparse_bitset) : option (heap * u_sparse_bitset * bool) :=
  assert! capacity dst =? capacity src ;;
  if u_sparse_bitset_is_small src then
    '(v, changed) ← u_bitset_merge (small_vals dst) (small_vals src) (BITSET_WORDS (capacity src));
    Some (h, with_small dst v, changed)
  else
    first ← rb_tree_first (tree_of h src);
    merge_loop (fuel_of (tree_of h src)) h dst src first false.

(** The loop is [rb_tree_foreach_safe]. *)
Fixpoint count_loop (fuel : nat) (h : heap) (s : u_sparse_bitset) (node next sum : Z) : option Z :=
  match fuel with
  | O => None
  | S fuel =>
      if node =? 0 then Some sum
      else
        v ← node_vals h node;
        c ← bitset_count v NODE_WORDS;
        next' ← step_or_null R (tree_of h s) next;
        count_loop fuel h s next next' (u32 (sum + c))
  end.
Definition u_sparse_bitset_count (h : heap) (s : u_sparse_bitset) : option Z :=
  if u_sparse_bitset_is_small s then bitset_count (small_vals s) (capacity s)
  else
    node ← rb_tree_first (tree_of h s);
    next ← step_or_null R (tree_of h s) node;
    count_loop (fuel_of (tree_of h s)) h s node next 0.

(** ** Iteration *)

(** The loop over the nodes: the number found and the node it is in. *)
Fixpoint next_set_loop (fuel : nat) (h : heap) (s : u_sparse_bitset) (node_ rb node_from : Z) : option (Z * Z) :=
  match fuel with
  | O => None
  | S fuel =>
      if rb =? 0 then Some (UINT_MAX, node_)
      else
        let num := U_SPARSE_BITSET_BITS_PER_NODE in
        n ← h !! rb;
        let it := n_aug n in
        if negb (node_from =? 0) && (num <=? u32 (node_from - offset it)) then
          next ← rb_node_next (tree_of h s) rb; next_set_loop fuel h s node_ next 0
        else
          i ← u_sparse_bitset_next_set_dense (vals it) num (Z.land node_from U_SPARSE_BITSET_BIT_INDEX_MASK);
          if i <? num then Some (u32 (offset it + i), rb)
          else next ← rb_node_next (tree_of h s) rb; next_set_loop fuel h s node_ next 0
  end.
Definition u_sparse_bitset_next_set (h : heap) (s : u_sparse_bitset) (node_ from : Z) : option (Z * Z) :=
  '(ret, node_) ←
    (if u_sparse_bitset_is_small s then
       i ← u_sparse_bitset_next_set_dense (small_vals s) (capacity s) from;
       Some (if i <? capacity s then i else UINT_MAX, node_)
     else next_set_loop (fuel_of (tree_of h s)) h s node_ node_ from);
  assert! from <=? ret ;;
  Some (ret, node_).

Definition u_sparse_bitset_first_set (h : heap) (s : u_sparse_bitset) : option (Z * Z) :=
  node ← (if u_sparse_bitset_is_small s then Some 0 else rb_tree_first (tree_of h s));
  u_sparse_bitset_next_set h s node 0.

(** [U_SPARSE_BITSET_FOREACH_SET]: the numbers that the loop visits. *)
Fixpoint foreach_set_loop (fuel : nat) (h : heap) (s : u_sparse_bitset) (it node : Z) : option (list Z) :=
  match fuel with
  | O => None
  | S fuel =>
      if it =? UINT_MAX then Some []
      else
        '(next, node) ← u_sparse_bitset_next_set h s node (u32 (it + 1));
        l ← foreach_set_loop fuel h s next node;
        Some (it :: l)
  end.
(** The loop is run at most once for each bit there is. *)
Definition U_SPARSE_BITSET_FOREACH_SET (h : heap) (s : u_sparse_bitset) : option (list Z) :=
  '(it, node) ← u_sparse_bitset_first_set h s;
  foreach_set_loop (S (Z.to_nat (capacity s) + 1024 * size h)) h s it node.
End operations.
