(* ===== verification/SparseTree.v ===== *)
(** * The trees of sparse bitsets (src/util/sparse_bitset.h)

    The invariant of the tree of a set: a red-black tree of aligned nodes with distinct,
    increasing offsets.  Looking up, adding and changing a node keep it, and do not touch the nodes of
    other trees in the same memory.  [contents] are the numbers in the set, in order. *)

From Stdlib Require Import ZArith Lia Sorted.
From stdpp Require Import base list gmap numbers option sets sorting.
From S2P Require Import Prelude FastDiv Rmq Worklist DenseBits RbTree RbInsert RbRemove RbQuery RbPayload SparseBitset.
Local Open Scope Z_scope.

(** ** Masks *)

Lemma bit_index b : 0 <= b -> Z.land b U_SPARSE_BITSET_BIT_INDEX_MASK = b mod 1024.
Proof. intros Hb. change U_SPARSE_BITSET_BIT_INDEX_MASK with (Z.ones 10). by rewrite Z.land_ones by lia. Qed.
Lemma node_offset b : 0 <= b < 2 ^ 32 -> Z.land b U_SPARSE_BITSET_OFFSET_MASK = b - b mod 1024.
Proof.
  intros Hb. change U_SPARSE_BITSET_OFFSET_MASK with (2 ^ 32 - 2 ^ 10). rewrite land_high_mask by (done || lia). change (2 ^ 10) with 1024. dlia.
Qed.
Lemma bits_per_node : U_SPARSE_BITSET_BITS_PER_NODE = 1024.
Proof. done. Qed.
Lemma node_words : NODE_WORDS = 32.
Proof. done. Qed.

(** ** Nodes *)

Record node_ok (n : u_sparse_bitset_node) : Prop := {
  no_offset : 0 <= offset n < 2 ^ 32;
  no_aligned : offset n mod 1024 = 0;
  no_vals : words_ok (vals n) 32 }.

Definition node_elems (n : u_sparse_bitset_node) : list Z := map (Z.add (offset n)) (dense (vals n) 1024).
Lemma elem_of_node n b : node_ok n -> b ∈ node_elems n <-> 0 <= b /\ offset n = b - b mod 1024 /\ bit (vals n) (b mod 1024) = true.
Proof.
  intros Hn. pose proof (no_offset _ Hn). pose proof (no_aligned _ Hn). unfold node_elems. rewrite list_elem_of_fmap. setoid_rewrite elem_of_dense. split.
  - intros (i & -> & Hi & Hb). assert (E : (offset n + i) mod 1024 = i) by dlia. rewrite E. split; [lia|]. split; [lia|done].
  - intros (Hb0 & Ho & Hb). exists (b mod 1024). split; [lia|]. split; [dlia|done].
Qed.
Lemma node_elems_nil n : node_ok n -> bitset_is_empty (vals n) NODE_WORDS = Some (bool_decide (node_elems n = [])).
Proof.
  intros Hn. rewrite node_words, (is_empty_words _ _ (no_vals _ Hn)). f_equal. apply bool_decide_ext. unfold node_elems. change (32 * 32) with 1024.
  split; [by intros ->|]. apply map_eq_nil.
Qed.

(** ** The invariant *)

Definition offset_le (h : heap) (a b : Z) : Prop := offset_of h a <= offset_of h b.
Record tree_ok (h : heap) (r : Z) (l : list Z) : Prop := {
  to_repr : plain_repr (Mem r h) l;
  to_sorted : StronglySorted (offset_le h) l;
  to_distinct : NoDup (map (offset_of h) l);
  to_nodes a : a ∈ l -> exists n, payloads h !! a = Some n /\ node_ok n }.

Definition elems_at (P : gmap Z u_sparse_bitset_node) (a : Z) : list Z := from_option node_elems [] (P !! a).
Definition contents (h : heap) (l : list Z) : list Z := flat_map (elems_at (payloads h)) l.

Lemma offset_payload h a : offset_of h a = from_option offset 0 (payloads h !! a).
Proof. unfold offset_of, payloads. rewrite lookup_fmap. by destruct (h !! a). Qed.
Lemma offset_at h a n : payloads h !! a = Some n -> offset_of h a = offset n.
Proof. intros E. by rewrite offset_payload, E. Qed.
Lemma offsets_ext h h' l : (forall a, a ∈ l -> payloads h' !! a = payloads h !! a) -> map (offset_of h') l = map (offset_of h) l.
Proof. intros H. apply map_ext_in. intros a Ha%list_elem_of_In. by rewrite !offset_payload, H. Qed.
Lemma sorted_ext h h' l : map (offset_of h') l = map (offset_of h) l -> StronglySorted (offset_le h) l -> StronglySorted (offset_le h') l.
Proof.
  intros E. assert (H : forall a, a ∈ l -> offset_of h' a = offset_of h a).
  { intros a Ha%list_elem_of_In. by apply (proj1 map_ext_in_iff E). }
  clear E. induction 1 as [|a l Hs IH Ha]; constructor; [apply IH; set_solver|]. rewrite Forall_forall in *. intros b Hb. specialize (Ha b Hb).
  unfold offset_le in *. by rewrite !H by set_solver.
Qed.
Lemma contents_ext h h' l : (forall a, a ∈ l -> payloads h' !! a = payloads h !! a) -> contents h' l = contents h l.
Proof.
  intros H. unfold contents. induction l as [|a l IH]; [done|]. cbn. rewrite IH by set_solver. unfold elems_at. by rewrite H by set_solver.
Qed.

(** A tree in a memory that agrees on its nodes *)
Lemma payload_lookup (h h' : heap) a : h' !! a = h !! a -> payloads h' !! a = payloads h !! a.
Proof. intros E. unfold payloads. by rewrite !lookup_fmap, E. Qed.
Lemma tree_ok_frame (h h' : heap) r l : (forall a, a ∈ l -> h' !! a = h !! a) -> tree_ok h r l -> tree_ok h' r l /\ contents h' l = contents h l.
Proof.
  intros H [H1 H2 H3 H4]. assert (Hp : forall a, a ∈ l -> payloads h' !! a = payloads h !! a) by (intros a Ha; by apply payload_lookup, H).
  split; [|by apply contents_ext]. split.
  - apply (plain_repr_links h); [done|]. intros a Ha. by rewrite H.
  - by apply (sorted_ext h); [apply offsets_ext|].
  - by rewrite (offsets_ext h).
  - intros a Ha. rewrite Hp by done. by apply H4.
Qed.

Lemma tree_ok_empty h : tree_ok h 0 [].
Proof. split; [apply plain_repr_empty|constructor|constructor|]. by intros a ?%not_elem_of_nil. Qed.

Lemma tree_ok_holds h r l : tree_ok h r l -> holds (Mem r h) l.
Proof. intros H. eapply rb_repr_holds. exact (to_repr _ _ _ H). Qed.
Lemma tree_ok_valid h r l a : tree_ok h r l -> a ∈ l -> valid a.
Proof. intros H Ha. pose proof (holds_wf _ _ (tree_ok_holds _ _ _ H)) as [_ Hv]. rewrite Forall_forall in Hv. by apply Hv. Qed.
Lemma tree_ok_nodup h r l : tree_ok h r l -> NoDup l.
Proof. intros H. by pose proof (holds_wf _ _ (tree_ok_holds _ _ _ H)) as [Hn _]. Qed.
Lemma tree_ok_dom h r l a : tree_ok h r l -> a ∈ l -> a ∈ dom h.
Proof. intros H Ha. exact (plain_repr_dom _ _ _ (to_repr _ _ _ H) Ha). Qed.
Lemma tree_ok_lookup h r l a : tree_ok h r l -> a ∈ l -> exists n, h !! a = Some n /\ payloads h !! a = Some (n_aug n) /\ node_ok (n_aug n) /\ node_vals h a = Some (vals (n_aug n)).
Proof.
  intros H Ha. destruct (to_nodes _ _ _ H a Ha) as (n & E & Hn). unfold payloads in *. rewrite lookup_fmap in *. destruct (h !! a) as [c|] eqn:Ec; [|done].
  injection E as <-. exists c. unfold node_vals. rewrite Ec. done.
Qed.

Lemma elem_of_contents h r l b : tree_ok h r l ->
  b ∈ contents h l <-> exists a n, a ∈ l /\ payloads h !! a = Some n /\ 0 <= b /\ offset n = b - b mod 1024 /\ bit (vals n) (b mod 1024) = true.
Proof.
  intros H. unfold contents. rewrite list_elem_of_In, in_flat_map. split.
  - intros (a & Ha%list_elem_of_In & Hb). destruct (to_nodes _ _ _ H a Ha) as (n & E & Hn). unfold elems_at in Hb. rewrite E in Hb. cbn in Hb.
    apply list_elem_of_In, elem_of_node in Hb; [|done]. eauto.
  - intros (a & n & Ha & E & Hb). destruct (to_nodes _ _ _ H a Ha) as (n' & E' & Hn). exists a. rewrite <- !list_elem_of_In. split; [done|].
    unfold elems_at. rewrite E. cbn. apply elem_of_node; [congruence|done].
Qed.

(** At most one node has an offset. *)
Lemma same_offset h r l a a' : tree_ok h r l -> a ∈ l -> a' ∈ l -> offset_of h a = offset_of h a' -> a = a'.
Proof.
  intros H Ha Ha' E. pose proof (to_distinct _ _ _ H) as Hd. apply list_elem_of_lookup in Ha as [i Hi]. apply list_elem_of_lookup in Ha' as [j Hj].
  assert (i = j); [|congruence]. eapply (NoDup_lookup (map (offset_of h) l) i j (offset_of h a)); [done|..]; change (map (offset_of h) l) with (offset_of h <$> l);
    rewrite list_lookup_fmap; [by rewrite Hi|by rewrite Hj, E].
Qed.
Lemma contents_at h r l a n b : tree_ok h r l -> a ∈ l -> payloads h !! a = Some n -> 0 <= b -> offset n = b - b mod 1024 ->
  b ∈ contents h l <-> bit (vals n) (b mod 1024) = true.
Proof.
  intros H Ha E Hb Ho. rewrite (elem_of_contents h r l b H). split; [|by eauto 10].
  intros (a' & n' & Ha' & E' & _ & Ho' & Hbit). assert (a' = a); [|by simplify_eq].
  eapply same_offset; [done..|]. by rewrite (offset_at h a n E), (offset_at h a' n' E'), Ho, Ho'.
Qed.

(** ** Looking up a node *)

Lemma comparator_pos x y : 0 < u_sparse_bitset_node_comparator x y <-> x < y.
Proof. unfold u_sparse_bitset_node_comparator. rewrite Z.gtb_ltb. destruct (Z.ltb_spec x y), (Z.ltb_spec y x); cbn; lia. Qed.
Lemma comparator_neg x y : u_sparse_bitset_node_comparator x y < 0 <-> y < x.
Proof. unfold u_sparse_bitset_node_comparator. rewrite Z.gtb_ltb. destruct (Z.ltb_spec x y), (Z.ltb_spec y x); cbn; lia. Qed.
Lemma comparator_zero x y : u_sparse_bitset_node_comparator x y = 0 <-> x = y.
Proof. unfold u_sparse_bitset_node_comparator. rewrite Z.gtb_ltb. destruct (Z.ltb_spec x y), (Z.ltb_spec y x); cbn; lia. Qed.

#[export] Instance offset_order h : TreeOrder (u_sparse_bitset_node_compare h) (offset_le h).
Proof.
  split; unfold u_sparse_bitset_node_compare, offset_le.
  - intros a b H. pose proof (comparator_neg (offset_of h a) (offset_of h b)). lia.
  - intros a b H. rewrite comparator_neg in H. lia.
  - intros a b c H1 H2. rewrite comparator_neg in *. lia.
Qed.

Lemma search_sorted h off l : StronglySorted (offset_le h) l -> StronglySorted (key_order (u_sparse_bitset_node_search h off)) l.
Proof.
  induction 1 as [|a l Hs IH Ha]; constructor; [done|]. eapply Forall_impl; [exact Ha|]. intros b Hb. unfold offset_le, key_order, u_sparse_bitset_node_search in *.
  pose proof (comparator_pos (offset_of h a) off). pose proof (comparator_neg (offset_of h a) off). pose proof (comparator_zero (offset_of h a) off).
  pose proof (comparator_pos (offset_of h b) off). pose proof (comparator_neg (offset_of h b) off). pose proof (comparator_zero (offset_of h b) off). lia.
Qed.

Lemma get_node_ok h s l off : u_sparse_bitset_is_small s = false -> tree_ok h (tree_root s) l ->
  exists p, u_sparse_bitset_get_node h s off = Some p
    /\ (p = 0 /\ off ∉ map (offset_of h) l \/ (p =? 0) = false /\ p ∈ l /\ offset_of h p = off).
Proof.
  intros Hsm Ht. unfold u_sparse_bitset_get_node. rewrite Hsm. cbn [negb].
  destruct (rb_tree_search_correct (u_sparse_bitset_node_search h off) _ _ (tree_ok_holds _ _ _ Ht) (search_sorted h off l (to_sorted _ _ _ Ht)))
    as (l1 & l2 & l3 & _ & El & F1 & F2 & F3 & E & _). unfold tree_of. exists (hd 0 l2). split; [exact E|].
  rewrite Forall_forall in F1, F2, F3. unfold smaller, equal, greater, u_sparse_bitset_node_search in *. destruct l2 as [|p l2]; cbn [hd].
  - left. split; [done|]. intros (a & -> & Ha)%list_elem_of_fmap. rewrite El in Ha. cbn in Ha. apply elem_of_app in Ha as [Ha|Ha].
    + specialize (F1 a Ha). rewrite comparator_pos in F1. lia.
    + specialize (F3 a Ha). rewrite comparator_neg in F3. lia.
  - right. assert (Hp : p ∈ l) by (rewrite El; set_solver). split; [by eapply valid_neq0, tree_ok_valid|]. split; [done|].
    apply comparator_zero, F2. set_solver.
Qed.

(** ** Changing the bits of a node *)

Lemma set_vals_ok h r l p v : tree_ok h r l -> p ∈ l -> words_ok v 32 ->
  exists h', set_vals h p v = Some h' /\ tree_ok h' r l /\ payloads h' = <[p := SparseNode (offset_of h p) v]> (payloads h)
    /\ dom h' = dom h /\ (forall a, a <> p -> h' !! a = h !! a).
Proof.
  intros Ht Hp Hv. destruct (tree_ok_lookup h r l p Ht Hp) as (n & E & Ep & Hn & _). unfold set_vals. rewrite E. cbn [mbind option_bind].
  eexists. split; [done|]. set (n' := SparseNode (offset (n_aug n)) v).
  assert (Epay : payloads (<[p := with_aug n' n]> h) = <[p := SparseNode (offset_of h p) v]> (payloads h)).
  { unfold payloads. rewrite fmap_insert. cbn. by rewrite (offset_at h p _ Ep). }
  assert (Hoff : forall a, offset_of (<[p := with_aug n' n]> h) a = offset_of h a).
  { intros a. rewrite !offset_payload, Epay. destruct (decide (a = p)) as [->|Hne]; [by rewrite lookup_insert_eq, <- offset_payload|by rewrite lookup_insert_ne]. }
  split_and!; [|done| |intros a Ha; by rewrite lookup_insert_ne].
  2:{ rewrite dom_insert_L. apply (tree_ok_dom h r l p Ht) in Hp. set_solver. }
  split.
  - apply (plain_repr_links h); [exact (to_repr _ _ _ Ht)|]. intros a _. destruct (decide (a = p)) as [->|Hne]; [by rewrite lookup_insert_eq, E|by rewrite lookup_insert_ne].
  - apply (sorted_ext h); [by apply map_ext|exact (to_sorted _ _ _ Ht)].
  - rewrite (map_ext _ _ Hoff). exact (to_distinct _ _ _ Ht).
  - intros a Ha. rewrite Epay. destruct (decide (a = p)) as [->|Hne]; [|rewrite lookup_insert_ne by done; by apply (to_nodes _ _ _ Ht)].
    rewrite lookup_insert_eq. eexists. split; [done|]. rewrite (offset_at h p _ Ep). destruct Hn. by split.
Qed.

(** What a change of a node does to the set *)
Lemma contents_changed h h' r l p v : tree_ok h r l -> tree_ok h' r l -> p ∈ l -> payloads h' = <[p := SparseNode (offset_of h p) v]> (payloads h) ->
  forall b, 0 <= b -> b ∈ contents h' l <-> if decide (b - b mod 1024 = offset_of h p) then bit v (b mod 1024) = true else b ∈ contents h l.
Proof.
  intros Ht Ht' Hp E b Hb. case_decide as Ho.
  - apply (contents_at h' r l p (SparseNode (offset_of h p) v) b); [done..|by rewrite E, lookup_insert_eq|done|done].
  - rewrite (elem_of_contents _ _ _ _ Ht), (elem_of_contents _ _ _ _ Ht'). split; intros (a & n & Ha & En & H).
    + exists a, n. rewrite E in En. destruct (decide (a = p)) as [->|Hne]; [|by rewrite lookup_insert_ne in En].
      rewrite lookup_insert_eq in En. injection En as <-. cbn in H. destruct H as (_ & H & _). congruence.
    + exists a, n. split; [done|]. split; [|done]. destruct (decide (a = p)) as [->|Hne]; [|by rewrite E, lookup_insert_ne].
      apply (offset_at h p) in En. destruct H as (_ & H & _). congruence.
Qed.

(** ** Adding a node *)

Section add.
Context (malloc : gset Z -> Z).

(** The allocator has an address for one more node. *)
Definition has_room (h : heap) : Prop := valid (malloc (dom h)) /\ malloc (dom h) ∉ dom h.

Lemma add_node_ok h s l n : tree_ok h (tree_root s) l -> has_room h -> node_ok (n_aug n) -> offset (n_aug n) ∉ map (offset_of h) l ->
  exists h' r' l' p, add_node malloc h s n = Some (h', with_root s r', p) /\ tree_ok h' r' l' /\ l' ≡ₚ p :: l /\ p ∉ dom h
    /\ payloads h' = <[p := n_aug n]> (payloads h) /\ dom h' = {[p]} ∪ dom h /\ (forall a, a ∉ l -> a <> p -> h' !! a = h !! a).
Proof.
  intros Ht [Hv Hfresh] Hn Hnew. set (p := malloc (dom h)) in *. set (h1 := <[p := n]> h).
  assert (Hpl : p ∉ l) by (intros Hp; by apply Hfresh, (tree_ok_dom _ _ _ _ Ht)).
  assert (Hagree : forall a, a ∈ l -> h1 !! a = h !! a) by (intros a Ha; unfold h1; rewrite lookup_insert_ne; [done|set_solver]).
  destruct (tree_ok_frame h h1 (tree_root s) l Hagree Ht) as [Ht1 _].
  destruct (insert_repr (cmp := u_sparse_bitset_node_compare h1) (Mem (tree_root s) h1) l p n) as (m' & l1 & l2 & E & El & Hr & Hs & _ & _ & Hk & Hd);
    [exact (to_repr _ _ _ Ht1)|exact (to_sorted _ _ _ Ht1)|done|done|by apply lookup_insert_eq|].
  pose proof (payload_insert _ _ _ _ E) as Epay. cbn [cells] in Epay, Hk, Hd.
  assert (Eh1 : payloads h1 = <[p := n_aug n]> (payloads h)) by (unfold payloads, h1; apply fmap_insert).
  assert (Hperm : l1 ++ p :: l2 ≡ₚ p :: l) by (rewrite El; symmetry; apply Permutation_middle).
  exists (cells m'), (root m'), (l1 ++ p :: l2), p. unfold add_node. fold p. rewrite (valid_neq0 p Hv). cbn [negb].
  change (rb_tree_insert (u_sparse_bitset_node_compare (<[p:=n]> h)) (tree_of (<[p:=n]> h) s) p) with (rb_augmented_tree_insert None (u_sparse_bitset_node_compare h1) (Mem (tree_root s) h1) p).
  rewrite E. cbn [mbind option_bind]. split; [done|].
  assert (Hoff : forall a, offset_of (cells m') a = offset_of h1 a) by (intros a; by rewrite !offset_payload, Epay).
  split_and!; [|done|done|congruence|by rewrite Hd; unfold h1; rewrite dom_insert_L|].
  2:{ intros a Ha Hne. rewrite Hk by set_solver. unfold h1. by rewrite lookup_insert_ne. }
  split.
  - destruct m'. exact Hr.
  - apply (sorted_ext h1); [by apply map_ext|done].
  - rewrite (map_ext _ _ Hoff), Hperm. cbn [map]. constructor; [|exact (to_distinct _ _ _ Ht1)].
    rewrite (offset_at h1 p (n_aug n)) by (by rewrite Eh1, lookup_insert_eq). rewrite (offsets_ext h h1 l); [done|]. intros a Ha. by apply payload_lookup, Hagree.
  - intros a. rewrite Hperm, Epay, Eh1. intros [->|Ha]%elem_of_cons; [rewrite lookup_insert_eq; eauto|].
    rewrite lookup_insert_ne by set_solver. by apply (to_nodes _ _ _ Ht).
Qed.

Lemma contents_added h h' r r' l l' p n : tree_ok h r l -> tree_ok h' r' l' -> l' ≡ₚ p :: l -> p ∉ dom h -> payloads h' = <[p := n]> (payloads h) ->
  node_ok n -> forall b, b ∈ contents h' l' <-> b ∈ node_elems n \/ b ∈ contents h l.
Proof.
  intros Ht Ht' Hp Hfresh E Hn b. rewrite (elem_of_contents _ _ _ _ Ht), (elem_of_contents _ _ _ _ Ht'), elem_of_node by done. split.
  - intros (a & n' & Ha & En & H). rewrite Hp in Ha. rewrite E in En. apply elem_of_cons in Ha as [->|Ha].
    + rewrite lookup_insert_eq in En. injection En as <-. by left.
    + rewrite lookup_insert_ne in En; [right; eauto|]. intros ->. by apply Hfresh, (tree_ok_dom _ _ _ _ Ht).
  - intros [H|(a & n' & Ha & En & H)]; [exists p, n|exists a, n']; rewrite Hp, E; (split; [set_solver|]); (split; [|done]).
    + by rewrite lookup_insert_eq.
    + rewrite lookup_insert_ne; [done|]. intros ->. by apply Hfresh, (tree_ok_dom _ _ _ _ Ht).
Qed.

(** The node of an offset, added if need be *)
Lemma get_or_add_ok h s l off : u_sparse_bitset_is_small s = false -> tree_ok h (tree_root s) l -> has_room h -> 0 <= off < 2 ^ 32 -> off mod 1024 = 0 ->
  exists h' r' l' p, u_sparse_bitset_get_or_add_node malloc h s off = Some (h', with_root s r', p) /\ tree_ok h' r' l' /\ p ∈ l' /\ offset_of h' p = off
    /\ (forall b, b ∈ contents h' l' <-> b ∈ contents h l)
    /\ (forall a, a ∈ l -> a ∈ l') /\ (forall a, a ∈ l' -> a ∈ l \/ a ∉ dom h) /\ (size (dom h') <= size (dom h) + 1)%nat
    /\ (forall a, a ∉ l' -> h' !! a = h !! a).
Proof.
  intros Hsm Ht Hroom Hoff Hal. unfold u_sparse_bitset_get_or_add_node. rewrite Hsm. cbn [negb]. rewrite bit_index, Hal by lia. cbn [Z.eqb].
  destruct (get_node_ok h s l off Hsm Ht) as (p & -> & [[-> Hno]|(Hp0 & Hp & Ho)]); cbn [mbind option_bind].
  - set (n := SparseNode off (replicate (Z.to_nat NODE_WORDS) 0)). assert (Hn : node_ok n) by (split; [done|done|by apply (array_zero 32)]).
    destruct (add_node_ok h s l (RbNode 0 0 0 n) Ht Hroom Hn Hno) as (h' & r' & l' & p & E & Ht' & Hperm & Hfresh & Epay & Hdom & Hk).
    exists h', r', l', p. change (0 =? 0) with true. cbv iota. cbn [n_aug] in Epay. split_and!.
    + exact E.
    + done.
    + rewrite Hperm. set_solver.
    + apply (offset_at h' p n). by rewrite Epay, lookup_insert_eq.
    + intros b. rewrite (contents_added h h' _ _ l l' p n Ht Ht' Hperm Hfresh Epay Hn). split; [|by right]. intros [Hb|Hb]; [|done].
      apply elem_of_node in Hb as (_ & _ & Hb); [|done]. unfold n in Hb. cbn [vals] in Hb. by rewrite bit_zero in Hb.
    + intros a Ha. rewrite Hperm. set_solver.
    + intros a. rewrite Hperm. intros [->|Ha]%elem_of_cons; [by right|by left].
    + rewrite Hdom, size_union by set_solver. rewrite size_singleton. lia.
    + intros a. rewrite Hperm. intros Ha. apply Hk; set_solver.
  - rewrite Hp0. exists h, (tree_root s), l, p. split_and!; try done; try lia; try (intros; tauto). by destruct s.
Qed.
End add.
