(* ===== verification/SparseOps.v ===== *)
(** * The operations of sparse bitsets (src/util/sparse_bitset.h)

    [set_ok h s l X]: in the memory [h] the set [s] has the nodes [l] and stands for the finite set
    [X] of numbers.  Every operation computes what it should on [X], and [changes] says that it leaves the nodes
    of other sets alone. *)

From Stdlib Require Import ZArith Lia Sorted.
From stdpp Require Import base list gmap numbers option sets sorting.
From S2P Require Import Prelude FastDiv Rmq Worklist DenseBits RbTree RbInsert RbRemove RbQuery RbPayload SparseBitset SparseTree.
Local Open Scope Z_scope.

Record small_ok (s : u_sparse_bitset) (X : gset Z) : Prop := {
  so_capacity : 0 < capacity s < 2 ^ 32;
  so_words : words_ok (small_vals s) (BITSET_WORDS (capacity s));
  so_beyond b : capacity s <= b -> bit (small_vals s) b = false;
  so_set b : b ∈ X <-> 0 <= b /\ bit (small_vals s) b = true }.
Record large_ok (h : heap) (s : u_sparse_bitset) (l : list Z) (X : gset Z) : Prop := {
  lo_tree : tree_ok h (tree_root s) l;
  lo_set b : b ∈ X <-> b ∈ contents h l }.
Definition set_ok (h : heap) (s : u_sparse_bitset) (l : list Z) (X : gset Z) : Prop :=
  if u_sparse_bitset_is_small s then l = [] /\ small_ok s X else large_ok h s l X.

(** A number that the set can have *)
Definition in_range (s : u_sparse_bitset) (b : Z) : Prop := 0 <= b < (if u_sparse_bitset_is_small s then capacity s else 2 ^ 32).

Lemma small_words s X : small_ok s X -> capacity s <= 32 * BITSET_WORDS (capacity s) /\ 0 < BITSET_WORDS (capacity s) <= 2 ^ 27.
Proof. intros H. pose proof (so_capacity _ _ H). unfold BITSET_WORDS. dlia. Qed.
Lemma small_in_range s X b : small_ok s X -> b ∈ X -> 0 <= b < capacity s.
Proof.
  intros H [Hb Hbit]%(so_set _ _ H). split; [done|]. destruct (Z_lt_le_dec b (capacity s)); [done|]. by rewrite (so_beyond _ _ H) in Hbit.
Qed.
Lemma contents_range h r l b : tree_ok h r l -> b ∈ contents h l -> 0 <= b < 2 ^ 32.
Proof.
  intros Ht (a & n & Ha & E & Hb & Ho & _)%(elem_of_contents _ _ _ _ Ht). destruct (to_nodes _ _ _ Ht a Ha) as (n' & E' & [Hr Hal _]). simplify_eq.
  split; [done|]. dlia.
Qed.
Lemma set_ok_range h s l X b : set_ok h s l X -> b ∈ X -> in_range s b.
Proof.
  unfold set_ok, in_range. destruct (u_sparse_bitset_is_small s).
  - intros [_ H]. by apply small_in_range.
  - intros H Hb%(lo_set _ _ _ _ H). by apply (contents_range _ _ _ _ (lo_tree _ _ _ _ H)).
Qed.

(** ** Frames *)

(** The nodes of a set were [l] and are [l']: at most [n] were added, those that are no longer there
    were freed, and no other node was written. *)
Record changes (h h' : heap) (l l' : list Z) (n : nat) : Prop := {
  ch_exact a : a ∉ l' -> h' !! a = if decide (a ∈ l) then None else h !! a;
  ch_new a : a ∈ l' -> a ∈ l \/ a ∉ dom h;
  ch_size : (size (dom h') <= size (dom h) + n)%nat }.

Lemma ch_keeps h h' l l' n a : changes h h' l l' n -> a ∈ dom h -> a ∉ l -> h' !! a = h !! a.
Proof. intros [A1 A2 _] Ha Hl. rewrite A1; [by rewrite decide_False|]. by intros [?|?]%A2. Qed.
Lemma changes_grow (h h' : heap) l l' n : (forall a, a ∈ l -> a ∈ l') -> (forall a, a ∉ l' -> h' !! a = h !! a) ->
  (forall a, a ∈ l' -> a ∈ l \/ a ∉ dom h) -> (size (dom h') <= size (dom h) + n)%nat -> changes h h' l l' n.
Proof. intros Hs Hk Hn Hz. split; [|done|done]. intros a Ha. rewrite decide_False by auto. by apply Hk. Qed.
Lemma changes_refl h l : changes h h l l 0.
Proof. apply changes_grow; [done|done|by left|lia]. Qed.
Lemma changes_trans h1 h2 h3 l1 l2 l3 n k : changes h1 h2 l1 l2 n -> changes h2 h3 l2 l3 k -> changes h1 h3 l1 l3 (n + k).
Proof.
  intros HA [B1 B2 B3]. pose proof HA as [A1 A2 A3]. split; [| |lia].
  - intros a Ha. rewrite B1 by done. case_decide as H2; [|by apply A1]. case_decide as H1; [done|]. symmetry. apply not_elem_of_dom. by destruct (A2 a H2).
  - intros a [Ha|Ha]%B2; [by apply A2|]. destruct (decide (a ∈ l1)) as [|Hl]; [by left|right]. intros Hd. apply Ha, elem_of_dom.
    rewrite (ch_keeps _ _ _ _ _ _ HA Hd Hl). by apply elem_of_dom.
Qed.
Lemma changes_weaken h h' l l' n k : (n <= k)%nat -> changes h h' l l' n -> changes h h' l l' k.
Proof. intros Hk [A1 A2 A3]. split; [done|done|lia]. Qed.

(** Another tree in the memory *)
Lemma changes_tree h h' l l' n r k : changes h h' l l' n -> tree_ok h r k -> k ## l -> tree_ok h' r k /\ contents h' k = contents h k /\ k ## l'.
Proof.
  intros Hc Ht Hd. destruct (tree_ok_frame h h' r k) as [Ht' E]; [|done|].
  { intros a Ha. apply (ch_keeps _ _ _ _ _ _ Hc); [by eapply tree_ok_dom|]. intros ?. by apply (Hd a). }
  split; [done|]. split; [done|]. intros a Ha [Hl|Hl]%(ch_new _ _ _ _ _ Hc); [by apply (Hd a)|]. by apply Hl, (tree_ok_dom _ _ _ _ Ht).
Qed.
Lemma changes_other h h' l l' n s k Y : changes h h' l l' n -> set_ok h s k Y -> k ## l -> set_ok h' s k Y /\ k ## l'.
Proof.
  unfold set_ok. intros Hc. destruct (u_sparse_bitset_is_small s).
  - intros [-> H] _. split; [done|]. by intros a ?%not_elem_of_nil.
  - intros [Ht Hs] Hd. destruct (changes_tree _ _ _ _ _ _ _ Hc Ht Hd) as (Ht' & E & Hd'). split; [|done]. split; [done|]. by rewrite E.
Qed.

(** ** Initialisation and single numbers *)

Lemma sparse_init_ok threshold cap h : 0 <= cap < 2 ^ 32 -> set_ok h (init_with threshold cap) [] ∅.
Proof.
  intros Hc. unfold init_with, set_ok. destruct (Z.eqb_spec cap 0) as [->|Hn]; cbn [negb andb]; [|destruct (Z.ltb_spec cap threshold)].
  1,3: cbn; split; [apply tree_ok_empty|]; intros b; cbn; set_solver.
  unfold u_sparse_bitset_is_small. cbn [capacity]. destruct (Z.eqb_spec cap 0); [done|]. cbn [negb]. split; [done|]. split; cbn [capacity small_vals].
  - lia.
  - apply array_zero. unfold BITSET_WORDS. dlia.
  - intros b _. apply bit_zero.
  - intros b. rewrite bit_zero. set_solver.
Qed.

Lemma test_ok h s l X b : set_ok h s l X -> in_range s b -> u_sparse_bitset_test h s b = Some (bool_decide (b ∈ X)).
Proof.
  unfold set_ok, in_range, u_sparse_bitset_test. destruct (u_sparse_bitset_is_small s) eqn:Hsm.
  - intros [_ H] Hb. pose proof (small_words _ _ H). destruct (Z.ltb_spec b (capacity s)); [|lia]. rewrite (test_words _ _ _ (so_words _ _ H)) by lia.
    f_equal. apply eq_bool_prop_intro. rewrite bool_decide_spec, (so_set _ _ H). destruct (bit _ _); cbn; intuition (lia || done).
  - intros [Ht Hs] Hb. rewrite node_offset, bit_index by lia. destruct (get_node_ok h s l (b - b mod 1024) Hsm Ht) as (p & -> & [[-> Hno]|(Hp0 & Hp & Ho)]); cbn [mbind option_bind].
    + change (0 =? 0) with true. cbv iota. rewrite bool_decide_false; [done|]. rewrite Hs, (elem_of_contents _ _ _ _ Ht). intros (a & n & Ha & E & _ & Eo & _).
      apply Hno, list_elem_of_fmap. exists a. split; [|done]. by rewrite (offset_at h a n E).
    + rewrite Hp0. destruct (tree_ok_lookup _ _ _ _ Ht Hp) as (n & _ & E & Hn & ->). cbn [mbind option_bind].
      rewrite (test_words _ 32) by (apply Hn || dlia). f_equal. rewrite (offset_at h p _ E) in Ho. apply eq_bool_prop_intro.
      rewrite bool_decide_spec, Hs, (contents_at h _ l p (n_aug n) b Ht Hp E) by lia. by destruct (bit _ _).
Qed.

(** A change of one bit of a node *)
Lemma node_write_ok h s l p v b (X : gset Z) (Q : Prop) : tree_ok h (tree_root s) l -> p ∈ l -> words_ok v 32 -> 0 <= b ->
  offset_of h p = b - b mod 1024 -> (forall x, x ∈ X <-> x ∈ contents h l) ->
  forall Y : gset Z, (forall n i, payloads h !! p = Some n -> 0 <= i < 1024 -> bit v i = true <-> if decide (i = b mod 1024) then Q else bit (vals n) i = true) ->
  (forall x, x ∈ Y <-> if decide (x = b) then Q else x ∈ X) ->
  exists h', set_vals h p v = Some h' /\ large_ok h' s l Y /\ changes h h' l l 0.
Proof.
  intros Ht Hp Hv Hb Ho HX Y Hbit HY. destruct (set_vals_ok h _ l p v Ht Hp Hv) as (h' & E & Ht' & Epay & Hdom & Hk).
  destruct (to_nodes _ _ _ Ht p Hp) as (n & En & Hn). exists h'. split; [done|]. split.
  - split; [done|]. intros x. rewrite HY. destruct (Z_lt_le_dec x 0) as [Hneg|Hx].
    + rewrite decide_False by lia. rewrite HX. split; intros Hin; apply contents_range with (r := tree_root s) in Hin; (done || lia).
    + rewrite (contents_changed h h' _ l p v Ht Ht' Hp Epay x Hx), Ho. case_decide as E1.
      * subst x. rewrite decide_True by done. rewrite (Hbit n) by (done || dlia). by rewrite decide_True.
      * case_decide as E2; [|by rewrite HX]. rewrite (Hbit n) by (done || dlia). rewrite decide_False by dlia.
        rewrite HX. apply (contents_at h _ l p n x Ht Hp En Hx). rewrite <- (offset_at h p n En). lia.
  - apply changes_grow; [done| |by left|rewrite Hdom; lia]. intros a Ha. apply Hk. by intros ->.
Qed.

Lemma clear_ok h s l X b : set_ok h s l X -> in_range s b ->
  exists h' s', u_sparse_bitset_clear h s b = Some (h', s') /\ capacity s' = capacity s /\ set_ok h' s' l (X ∖ {[b]}) /\ changes h h' l l 0.
Proof.
  unfold set_ok, in_range, u_sparse_bitset_clear. destruct (u_sparse_bitset_is_small s) eqn:Hsm.
  - intros [-> H] Hb. pose proof (small_words _ _ H) as Hsw. destruct (Z.ltb_spec b (capacity s)) as [_|]; [|lia].
    destruct (clear_words _ _ b (so_words _ _ H) ltac:(lia)) as (v & -> & Hv & Hbit). cbn [mbind option_bind]. exists h, (with_small s v).
    split; [done|]. split; [done|]. change (u_sparse_bitset_is_small (with_small s v)) with (u_sparse_bitset_is_small s). rewrite Hsm.
    split; [|apply changes_refl]. split; [done|]. destruct H as [C W B S]. split; cbn [with_small capacity small_vals]; [done|done| |].
    + intros x Hx. rewrite Hbit by lia. case_decide; [done|by apply B].
    + intros x. rewrite elem_of_difference, elem_of_singleton, S. split; [intros [[H1 H2] H3]|intros [H1 H2]].
      * rewrite Hbit, decide_False by done. done.
      * rewrite Hbit in H2 by done. case_decide; done.
  - intros [Ht Hs] Hb. rewrite node_offset, bit_index by lia. destruct (get_node_ok h s l (b - b mod 1024) Hsm Ht) as (p & -> & [[-> Hno]|(Hp0 & Hp & Ho)]); cbn [mbind option_bind].
    + exists h, s. change (0 =? 0) with true. cbv iota. split; [done|]. split; [done|]. rewrite Hsm. split; [|apply changes_refl]. split; [done|].
      assert (Hnb : b ∉ X).
      { rewrite Hs, (elem_of_contents _ _ _ _ Ht). intros (a & n & Ha & E & _ & Eo & _). apply Hno, list_elem_of_fmap. exists a. by rewrite (offset_at h a n E). }
      intros x. rewrite elem_of_difference, elem_of_singleton, Hs. split; [tauto|]. intros Hx. split; [done|]. intros ->. by apply Hnb, Hs.
    + rewrite Hp0. destruct (tree_ok_lookup _ _ _ _ Ht Hp) as (n & _ & E & Hn & ->). cbn [mbind option_bind].
      destruct (clear_words _ 32 (b mod 1024) (no_vals _ Hn) ltac:(dlia)) as (v & -> & Hv & Hbit). cbn [mbind option_bind].
      destruct (node_write_ok h s l p v b X False Ht Hp Hv ltac:(lia) Ho Hs (X ∖ {[b]})) as (h' & -> & Hl & Hc).
      * intros n' i E' Hi. simplify_eq. rewrite Hbit by lia. by case_decide.
      * intros x. case_decide; set_solver.
      * cbn [mbind option_bind]. exists h', s. rewrite Hsm. done.
Qed.

Section allocating.
Context (malloc : gset Z -> Z).
Notation has_room := (has_room malloc).

Lemma add_ok h s l X b : set_ok h s l X -> in_range s b -> (u_sparse_bitset_is_small s = false -> has_room h) ->
  exists h' s' l', u_sparse_bitset_set malloc h s b = Some (h', s') /\ capacity s' = capacity s /\ set_ok h' s' l' ({[b]} ∪ X) /\ changes h h' l l' 1.
Proof.
  unfold set_ok, in_range, u_sparse_bitset_set. destruct (u_sparse_bitset_is_small s) eqn:Hsm.
  - intros [-> H] Hb _. pose proof (small_words _ _ H) as Hsw. destruct (Z.ltb_spec b (capacity s)) as [_|]; [|lia].
    destruct (set_words _ _ b (so_words _ _ H) ltac:(lia)) as (v & -> & Hv & Hbit). cbn [mbind option_bind]. exists h, (with_small s v), [].
    split; [done|]. split; [done|]. change (u_sparse_bitset_is_small (with_small s v)) with (u_sparse_bitset_is_small s). rewrite Hsm.
    split; [|eapply changes_weaken; [|apply changes_refl]; lia]. split; [done|]. destruct H as [C W B S]. split; cbn [with_small capacity small_vals]; [done|done| |].
    + intros x Hx. rewrite Hbit by lia. case_decide; [lia|by apply B].
    + intros x. rewrite elem_of_union, elem_of_singleton, S. split; [intros [->|[H1 H2]]|intros [H1 H2]].
      * rewrite Hbit, decide_True by lia. split; [lia|done].
      * rewrite Hbit by done. by case_decide.
      * rewrite Hbit in H2 by done. case_decide; [by left|by right].
  - intros [Ht Hs] Hb Hroom. rewrite node_offset, bit_index by lia.
    destruct (get_or_add_ok malloc h s l (b - b mod 1024) Hsm Ht (Hroom eq_refl) ltac:(dlia) ltac:(dlia))
      as (h1 & r1 & l1 & p & -> & Ht1 & Hp & Ho & HC & Hsub & Hnew & Hsize & Hk). cbn [mbind option_bind].
    destruct (tree_ok_lookup _ _ _ _ Ht1 Hp) as (n & _ & E & Hn & ->). cbn [mbind option_bind].
    destruct (set_words _ 32 (b mod 1024) (no_vals _ Hn) ltac:(dlia)) as (v & -> & Hv & Hbit). cbn [mbind option_bind].
    destruct (node_write_ok h1 (with_root s r1) l1 p v b X True Ht1 Hp Hv ltac:(lia) Ho) with (Y := {[b]} ∪ X) as (h2 & -> & Hl & Hc).
    + intros x. by rewrite Hs, HC.
    + intros n' i E' Hi. simplify_eq. rewrite Hbit by lia. by case_decide.
    + intros x. case_decide; set_solver.
    + cbn [mbind option_bind]. exists h2, (with_root s r1), l1. change (u_sparse_bitset_is_small (with_root s r1)) with (u_sparse_bitset_is_small s). rewrite Hsm.
      split; [done|]. split; [done|]. split; [done|]. apply (changes_trans h h1 h2 l l1 l1 1 0); [|done]. by apply changes_grow.
Qed.

(** ** Union *)

Lemma merge_node_ok h dst l X n : u_sparse_bitset_is_small dst = false -> large_ok h dst l X -> has_room h -> node_ok n ->
  exists h1 r1 l1 p dv v c h2, u_sparse_bitset_get_or_add_node malloc h dst (offset n) = Some (h1, with_root dst r1, p)
    /\ node_vals h1 p = Some dv /\ u_bitset_merge dv (vals n) NODE_WORDS = Some (v, c) /\ set_vals h1 p v = Some h2
    /\ large_ok h2 (with_root dst r1) l1 (X ∪ list_to_set (node_elems n)) /\ changes h h1 l l1 1 /\ changes h h2 l l1 1
    /\ (c = true <-> exists b, b ∈ node_elems n /\ b ∉ X).
Proof.
  intros Hsm [Ht Hs] Hroom Hn.
  destruct (get_or_add_ok malloc h dst l (offset n) Hsm Ht Hroom (no_offset _ Hn) (no_aligned _ Hn)) as (h1 & r1 & l1 & p & E1 & Ht1 & Hp & Ho & HC & Hsub & Hnew & Hsize & Hk).
  destruct (tree_ok_lookup _ _ _ _ Ht1 Hp) as (d & _ & E & Hd & Edv).
  destruct (merge_words (vals (n_aug d)) (vals n) 32 (no_vals _ Hd) (no_vals _ Hn)) as (v & c & Em & Hv & Hbit & Hc).
  destruct (set_vals_ok h1 r1 l1 p v Ht1 Hp Hv) as (h2 & E2 & Ht2 & Epay & Hdom2 & Hk2).
  assert (HcA : changes h h1 l l1 1) by (by apply changes_grow).
  assert (Hmem : forall b, 0 <= b -> offset n = b - b mod 1024 -> b ∈ X <-> bit (vals (n_aug d)) (b mod 1024) = true).
  { intros b Hb Hob. rewrite Hs, <- HC. apply (contents_at h1 r1 l1 p (n_aug d)); try done. rewrite <- (offset_at h1 p _ E). congruence. }
  exists h1, r1, l1, p, (vals (n_aug d)), v, c, h2. do 4 (split; [done|]). split; [|split; [done|split; [|rewrite Hc]]].
  - split; [done|]. intros b. rewrite elem_of_union, elem_of_list_to_set, elem_of_node by done. destruct (Z_lt_le_dec b 0) as [Hneg|Hb].
    { split; [intros [Hin|(? & _)]|intros Hin]; [|lia|].
      - apply Hs in Hin. apply (contents_range _ _ _ _ Ht) in Hin. lia.
      - apply (contents_range _ _ _ _ Ht2) in Hin. lia. }
    rewrite (contents_changed h1 h2 r1 l1 p v Ht1 Ht2 Hp Epay b Hb), Ho. case_decide as Eb.
    + rewrite Hbit, orb_true_iff, Hmem by (done || dlia). intuition.
    + rewrite HC, Hs. split; [intros [?|(_ & ? & _)]; [done|congruence]|by left].
  - apply (changes_trans h h1 h2 l l1 l1 1 0); [done|]. apply changes_grow; [done| |by left|rewrite Hdom2; lia]. intros a Ha. apply Hk2. by intros ->.
  - pose proof (no_offset _ Hn). pose proof (no_aligned _ Hn). split.
    + intros (i & Hi & H1 & H2). exists (offset n + i). assert (Ei : (offset n + i) mod 1024 = i) by dlia.
      rewrite elem_of_node, Hmem, Ei by (done || dlia). split; [|congruence]. split; [lia|]. split; [lia|done].
    + intros (b & Hb & HbX). apply elem_of_node in Hb as (Hb & Hob & Hbit'); [|done]. exists (b mod 1024). split; [dlia|]. split; [done|].
      rewrite Hmem in HbX by done. by destruct (bit (vals (n_aug d)) (b mod 1024)).
Qed.
End allocating.

Lemma contents_cons h a l : contents h (a :: l) = elems_at (payloads h) a ++ contents h l.
Proof. done. Qed.

(** What iterating over another set needs at its next node *)
Lemma node_at h r k k1 a k2 : tree_ok h r k -> k = k1 ++ a :: k2 ->
  (a =? 0) = false /\ (exists n, h !! a = Some n /\ node_ok (n_aug n) /\ node_vals h a = Some (vals (n_aug n)) /\ elems_at (payloads h) a = node_elems (n_aug n))
  /\ rb_node_next (Mem r h) a = Some (hd 0 k2).
Proof.
  intros Ht ->. assert (Ha : a ∈ k1 ++ a :: k2) by set_solver. split; [by eapply valid_neq0, tree_ok_valid|].
  destruct (tree_ok_lookup _ _ _ _ Ht Ha) as (n & E & Ep & Hn & Ev). split.
  - exists n. split; [done|]. split; [done|]. split; [done|]. unfold elems_at. by rewrite Ep.
  - by apply (step_holds R (Mem r h) _ k1 a k2 (tree_ok_holds _ _ _ Ht)).
Qed.
Lemma first_at h s k : tree_ok h (tree_root s) k -> rb_tree_first (tree_of h s) = Some (hd 0 k) /\ (length k < fuel_of (tree_of h s))%nat.
Proof.
  intros Ht. pose proof (tree_ok_holds _ _ _ Ht) as Hh. split; [|by apply holds_fuel].
  exact (end_holds R _ k Hh).
Qed.

Section bounded.
Context (malloc : gset Z -> Z) (limit : nat).
Context (malloc_fresh : forall D : gset Z, (size D < limit)%nat -> valid (malloc D) /\ malloc D ∉ D).

Lemma room_left h : (size (dom h) < limit)%nat -> has_room malloc h.
Proof using malloc_fresh. intros Hs. by apply malloc_fresh. Qed.

Lemma merge_loop_ok src k k2 : forall k1 h dst l X changed fuel, u_sparse_bitset_is_small dst = false -> tree_ok h (tree_root src) k -> k = k1 ++ k2 ->
  k ## l -> large_ok h dst l X -> (size (dom h) + length k2 <= limit)%nat -> (length k2 < fuel)%nat ->
  exists h' r' l' c, merge_loop malloc fuel h dst src (hd 0 k2) changed = Some (h', with_root dst r', c)
    /\ large_ok h' (with_root dst r') l' (X ∪ list_to_set (contents h k2)) /\ changes h h' l l' (length k2)
    /\ (c = true <-> changed = true \/ exists b, b ∈ contents h k2 /\ b ∉ X).
Proof using malloc_fresh.
  induction k2 as [|a k2 IH]; intros k1 h dst l X changed [|fuel] Hsm Htk Ek Hd HX Hlim Hf; cbn [length] in *; [lia| |lia|]; cbn [merge_loop hd].
  { exists h, (tree_root dst), l, changed. split; [by destruct dst|]. split.
    - destruct HX as [Ht Hs]. split; [done|]. intros b. rewrite <- Hs. cbn. set_solver.
    - split; [apply changes_refl|]. split; [by left|]. intros [H|(b & Hb & _)]; [done|]. by apply not_elem_of_nil in Hb. }
  destruct (node_at _ _ _ _ _ _ Htk Ek) as (-> & (n & En & Hn & Ev & Ee) & Enext). rewrite En. cbn [mbind option_bind].
  rewrite node_elems_nil by done. cbn [mbind option_bind]. rewrite contents_cons, Ee. case_bool_decide as Hempty; cbn [mbind option_bind].
  - change (tree_of h src) with (Mem (tree_root src) h). rewrite Enext, Hempty. cbn [mbind option_bind app].
    destruct (IH (k1 ++ [a]) h dst l X changed fuel) as (h' & r' & l' & c & E & HX' & Hc & Hch); try done; try lia; [by rewrite <- app_assoc|].
    exists h', r', l', c. split; [done|]. split; [done|]. split; [|done]. eapply changes_weaken; [|done]. lia.
  - destruct (merge_node_ok malloc h dst l X (n_aug n) Hsm HX (room_left h ltac:(lia)) Hn) as (h1 & r1 & l1 & p & dv & v & c1 & h2 & -> & Edv & Em & E2 & HX2 & HcA & HcB & Hch1).
    cbn [mbind option_bind]. rewrite Edv. cbn [mbind option_bind].
    destruct (changes_tree _ _ _ _ _ _ _ HcA Htk Hd) as (Htk1 & _ & _). destruct (changes_tree _ _ _ _ _ _ _ HcB Htk Hd) as (Htk2 & EC2 & Hd2).
    destruct (node_at _ _ _ _ _ _ Htk1 Ek) as (_ & (n1 & En1 & _ & Ev1 & _) & _).
    assert (n1 = n). { rewrite (ch_keeps _ _ _ _ _ a HcA) in En1; [congruence|by apply elem_of_dom|]. intros Hal. apply (Hd a); [rewrite Ek; set_solver|done]. }
    subst n1. rewrite Ev1. cbn [mbind option_bind]. rewrite Em. cbn [mbind option_bind]. rewrite E2. cbn [mbind option_bind].
    destruct (node_at _ _ _ _ _ _ Htk2 Ek) as (_ & _ & Enext2). change (tree_of h2 src) with (Mem (tree_root src) h2). rewrite Enext2. cbn [mbind option_bind].
    pose proof (ch_size _ _ _ _ _ HcB). destruct (IH (k1 ++ [a]) h2 (with_root dst r1) l1 (X ∪ list_to_set (node_elems (n_aug n))) (changed || c1) fuel)
      as (h' & r' & l' & c & E & HX' & Hc & Hch); try done; try lia; [by rewrite <- app_assoc|].
    assert (Ek2 : contents h2 k2 = contents h k2).
    { apply contents_ext. intros b Hb. apply payload_lookup. assert (Hbk : b ∈ k) by (rewrite Ek; set_solver).
      apply (ch_keeps _ _ _ _ _ b HcB); [by eapply tree_ok_dom|]. intros Hbl. by apply (Hd b). }
    rewrite Ek2 in HX', Hch. exists h', r', l', c. split; [done|]. split.
    + destruct HX' as [Ht' Hs']. split; [done|]. intros b. rewrite <- Hs', list_to_set_app. set_solver.
    + split; [exact (changes_trans _ _ _ _ _ _ _ _ HcB Hc)|]. rewrite Hch, orb_true_iff, Hch1. setoid_rewrite elem_of_app. setoid_rewrite elem_of_union. setoid_rewrite elem_of_list_to_set. split.
      * intros [[H1|(b & Hb & Hnx)]|(b & Hb & Hnx)]; [by left|right; exists b; tauto|right; exists b; tauto].
      * intros [H1|(b & [Hb|Hb] & Hnx)]; [by left; left|left; right; by exists b|].
        destruct (decide (b ∈ node_elems (n_aug n))) as [Hin|Hnin]; [left; right; by exists b|right; exists b; tauto].
Qed.

Lemma merge_ok h dst l X src k Y : set_ok h dst l X -> set_ok h src k Y -> capacity dst = capacity src -> k ## l -> (size (dom h) + length k <= limit)%nat ->
  exists h' dst' l', u_sparse_bitset_merge malloc h dst src = Some (h', dst', bool_decide (~ Y ⊆ X)) /\ capacity dst' = capacity dst
    /\ set_ok h' dst' l' (X ∪ Y) /\ changes h h' l l' (length k).
Proof using malloc_fresh.
  intros HX HY Ecap Hd Hlim. unfold u_sparse_bitset_merge. rewrite Ecap, Z.eqb_refl.
  assert (Esm : u_sparse_bitset_is_small dst = u_sparse_bitset_is_small src) by (unfold u_sparse_bitset_is_small; by rewrite Ecap).
  assert (Hcb : forall c : bool, (c = true <-> exists b, b ∈ Y /\ b ∉ X) -> c = bool_decide (~ Y ⊆ X)).
  { intros c Hc. apply eq_bool_prop_intro. rewrite bool_decide_spec, Is_true_true, Hc. split; [intros (b & H1 & H2) Hsub; by apply H2, Hsub|].
    intros Hn. destruct (decide (Y ∖ X = ∅)) as [E|E]; [destruct Hn; set_solver|]. apply set_choose_L in E as [b Hb]. exists b. set_solver. }
  unfold set_ok in *. rewrite Esm in *. destruct (u_sparse_bitset_is_small src) eqn:Hsm.
  - destruct HX as [-> HX], HY as [-> HY]. destruct (merge_words (small_vals dst) (small_vals src) (BITSET_WORDS (capacity src))) as (v & c & -> & Hv & Hbit & Hc).
    { rewrite <- Ecap. apply HX. } { apply HY. }
    cbn [mbind option_bind]. exists h, (with_small dst v), []. rewrite (Hcb c).
    2:{ rewrite Hc. pose proof (small_words _ _ HY). setoid_rewrite (so_set _ _ HX). setoid_rewrite (so_set _ _ HY). split; intros (b & H1 & H2).
        - exists b. rewrite (proj2 H2). split; [split; [lia|tauto]|]. by intros [_ ?].
        - assert (Hb : b ∈ Y) by (by apply (so_set _ _ HY)). apply (small_in_range _ _ _ HY) in Hb. exists b. split; [lia|]. split; [tauto|].
          destruct (bit (small_vals dst) b); [|done]. destruct H2. split; [lia|done]. }
    split; [done|]. split; [done|]. change (u_sparse_bitset_is_small (with_small dst v)) with (u_sparse_bitset_is_small dst). rewrite Esm.
    split; [|apply changes_refl]. split; [done|]. destruct HX as [C W B S], HY as [C' W' B' S']. split; cbn [with_small capacity small_vals]; [done|by rewrite Ecap| |].
    + intros x Hx. rewrite Hbit, B, B' by lia. done.
    + intros x. rewrite elem_of_union, S, S'. split; [intros [[H1 H2]|[H1 H2]]; (split; [done|]); rewrite Hbit, H2 by done; by rewrite ?orb_true_r|].
      intros [H1 H2]. rewrite Hbit in H2 by done. apply orb_true_iff in H2. tauto.
  - destruct (first_at h src k (lo_tree _ _ _ _ HY)) as [-> Hf]. cbn [mbind option_bind].
    destruct (merge_loop_ok src k k [] h dst l X false (fuel_of (tree_of h src)) Esm (lo_tree _ _ _ _ HY) eq_refl Hd HX Hlim Hf) as (h' & r' & l' & c & -> & HX' & Hch & Hc).
    exists h', (with_root dst r'), l'. rewrite (Hcb c).
    2:{ rewrite Hc. setoid_rewrite (lo_set _ _ _ _ HY). split; [by intros [?|?]|by right]. }
    split; [done|]. split; [done|]. change (u_sparse_bitset_is_small (with_root dst r')) with (u_sparse_bitset_is_small dst). rewrite Esm.
    split; [|done]. destruct HX' as [Ht' Hs']. split; [done|]. intros b. rewrite <- Hs', !elem_of_union, elem_of_list_to_set. by rewrite (lo_set _ _ _ _ HY).
Qed.

(** ** Copies *)

Lemma dup_loop_ok src k k2 : forall k1 h dst l X fuel, tree_ok h (tree_root src) k -> k = k1 ++ k2 ->
  k ## l -> large_ok h dst l X -> (forall a, a ∈ k2 -> offset_of h a ∉ map (offset_of h) l) -> (forall a, a ∈ l -> elems_at (payloads h) a <> []) ->
  (size (dom h) + length k2 <= limit)%nat -> (length k2 < fuel)%nat ->
  exists h' r' l', dup_loop malloc fuel h dst src (hd 0 k2) = Some (h', with_root dst r')
    /\ large_ok h' (with_root dst r') l' (X ∪ list_to_set (contents h k2)) /\ changes h h' l l' (length k2)
    /\ (forall a, a ∈ l' -> elems_at (payloads h') a <> []).
Proof using malloc_fresh.
  induction k2 as [|a k2 IH]; intros k1 h dst l X [|fuel] Htk Ek Hd HX Hoff Hfull Hlim Hf; cbn [length] in *; [lia| |lia|]; cbn [dup_loop hd].
  { exists h, (tree_root dst), l. split; [by destruct dst|]. split; [|split; [apply changes_refl|done]]. destruct HX as [Ht Hs]. split; [done|].
    intros b. rewrite <- Hs. cbn. set_solver. }
  destruct (node_at _ _ _ _ _ _ Htk Ek) as (-> & (n & En & Hn & Ev & Ee) & Enext). rewrite En. cbn [mbind option_bind].
  rewrite node_elems_nil by done. cbn [mbind option_bind]. rewrite contents_cons, Ee. case_bool_decide as Hempty; cbn [mbind option_bind].
  - change (tree_of h src) with (Mem (tree_root src) h). rewrite Enext, Hempty. cbn [mbind option_bind app].
    destruct (IH (k1 ++ [a]) h dst l X fuel) as (h' & r' & l' & E & HX' & Hc & Hfull'); try done; try lia; [by rewrite <- app_assoc|set_solver|].
    exists h', r', l'. split; [done|]. split; [done|]. split; [|done]. eapply changes_weaken; [|done]. lia.
  - destruct HX as [Ht Hs]. assert (Eo : offset_of h a = offset (n_aug n)) by (apply offset_at; unfold payloads; by rewrite lookup_fmap, En).
    destruct (add_node_ok malloc h dst l n Ht (room_left h ltac:(lia)) Hn) as (h1 & r1 & l1 & p & -> & Ht1 & Hperm & Hfresh & Epay & Hdom & Hk).
    { rewrite <- Eo. apply Hoff. set_solver. }
    cbn [mbind option_bind].
    assert (HcA : changes h h1 l l1 1).
    { apply changes_grow.
      - intros b Hb. rewrite Hperm. set_solver.
      - intros b. rewrite Hperm. intros Hb. apply Hk; set_solver.
      - intros b. rewrite Hperm. intros [->|Hb]%elem_of_cons; [by right|by left].
      - rewrite Hdom, size_union by set_solver. rewrite size_singleton. lia. }
    destruct (changes_tree _ _ _ _ _ _ _ HcA Htk Hd) as (Htk1 & _ & Hd1).
    destruct (node_at _ _ _ _ _ _ Htk1 Ek) as (_ & _ & Enext1). change (tree_of h1 src) with (Mem (tree_root src) h1). rewrite Enext1. cbn [mbind option_bind].
    assert (Hpay : forall b, b ∈ dom h -> payloads h1 !! b = payloads h !! b) by (intros b Hb; rewrite Epay, lookup_insert_ne; [done|by intros ->]).
    assert (Hkd : forall b, b ∈ a :: k2 -> b ∈ dom h) by (intros b Hb; apply (tree_ok_dom _ _ _ _ Htk); rewrite Ek; set_solver).
    assert (Hld : forall b, b ∈ l -> b ∈ dom h) by (intros b Hb; by apply (tree_ok_dom _ _ _ _ Ht)).
    assert (Ep : payloads h1 !! p = Some (n_aug n)) by (by rewrite Epay, lookup_insert_eq). pose proof (ch_size _ _ _ _ _ HcA).
    destruct (IH (k1 ++ [a]) h1 (with_root dst r1) l1 (X ∪ list_to_set (node_elems (n_aug n))) fuel) as (h' & r' & l' & E & HX' & Hc & Hfull'); try done; try lia.
    + by rewrite <- app_assoc.
    + split; [done|]. intros b. rewrite (contents_added h h1 _ _ l l1 p (n_aug n) Ht Ht1 Hperm Hfresh Epay Hn), elem_of_union, elem_of_list_to_set, Hs. tauto.
    + intros b Hb. rewrite Hperm. cbn [map]. rewrite (offset_at h1 p _ Ep), (offsets_ext h h1 l) by (intros; apply Hpay; auto).
      rewrite offset_payload, (Hpay b), <- offset_payload by set_solver. rewrite elem_of_cons. intros [Eob|Hin]; [|by apply (Hoff b); [set_solver|]].
      assert (b = a). { apply (same_offset _ _ _ _ _ Htk); [rewrite Ek; set_solver..|congruence]. }
      subst b. pose proof (tree_ok_nodup _ _ _ Htk) as Hnd. rewrite Ek in Hnd. apply NoDup_app in Hnd as (_ & _ & Hnd). by apply NoDup_cons in Hnd as [? _].
    + intros b. rewrite Hperm. intros [->|Hb]%elem_of_cons; unfold elems_at; [by rewrite Ep|]. rewrite Hpay by auto. by apply Hfull.
    + assert (Ek2 : contents h1 k2 = contents h k2) by (apply contents_ext; intros b Hb; apply Hpay, Hkd; set_solver).
      rewrite Ek2 in HX'. exists h', r', l'. split; [done|]. split; [|split; [exact (changes_trans _ _ _ _ _ _ _ _ HcA Hc)|done]].
      destruct HX' as [Ht' Hs']. split; [done|]. intros b. rewrite <- Hs', list_to_set_app. set_solver.
Qed.

(** No node of the set is empty. *)
Definition no_empty_node (h : heap) (l : list Z) : Prop := forall a, a ∈ l -> elems_at (payloads h) a <> [].

Lemma dup_ok threshold h src k Y : set_ok h src k Y -> (u_sparse_bitset_is_small src = true -> capacity src < threshold) -> (size (dom h) + length k <= limit)%nat ->
  exists h' dst l', dup_with malloc threshold h src = Some (h', dst) /\ capacity dst = capacity src
    /\ set_ok h' dst l' Y /\ changes h h' [] l' (length k) /\ no_empty_node h' l'.
Proof using malloc_fresh.
  intros HY Hth Hlim. unfold dup_with, set_ok in *. destruct (u_sparse_bitset_is_small src) eqn:Hsm.
  - destruct HY as [-> HY]. pose proof (so_capacity _ _ HY). exists h, (with_small (init_with threshold (capacity src)) (small_vals src)), []. split; [done|].
    unfold init_with. destruct (Z.eqb_spec (capacity src) 0); [lia|]. destruct (Z.ltb_spec (capacity src) threshold) as [_|Hc]; [|by specialize (Hth eq_refl); lia].
    cbn [negb andb]. split; [done|]. unfold with_small, u_sparse_bitset_is_small in *. cbn [capacity tree_root]. rewrite Hsm. split; [|split; [apply changes_refl|by intros a ?%not_elem_of_nil]].
    split; [done|]. destruct HY. by split.
  - assert (Ec : capacity src = 0) by (unfold u_sparse_bitset_is_small in Hsm; destruct (Z.eqb_spec (capacity src) 0); done). rewrite Ec. cbn [init_with Z.eqb negb andb].
    destruct (first_at h src k (lo_tree _ _ _ _ HY)) as [-> Hf]. cbn [mbind option_bind].
    destruct (dup_loop_ok src k k [] h (SparseBitset 0 [] 0) [] ∅ (fuel_of (tree_of h src)) (lo_tree _ _ _ _ HY)) as (h' & r' & l' & -> & HX' & Hc & Hfull); try done.
    + by intros a _ ?%not_elem_of_nil.
    + split; [apply tree_ok_empty|]. intros b. cbn. set_solver.
    + intros a _. cbn. apply not_elem_of_nil.
    + by intros a ?%not_elem_of_nil.
    + exists h', (with_root (SparseBitset 0 [] 0) r'), l'. split; [done|]. split; [done|]. split; [|done]. cbn. destruct HX' as [Ht' Hs']. split; [done|].
      intros b. rewrite <- Hs', elem_of_union, elem_of_list_to_set, (lo_set _ _ _ _ HY). set_solver.
Qed.
End bounded.
