(* ===== verification/SparseIter.v ===== *)
(** * Walking over sparse bitsets (src/util/sparse_bitset.h)

    Counting, comparing, clearing and iterating: the operations that visit all the nodes of a
    set in order. *)

From Stdlib Require Import ZArith Lia Sorted.
From stdpp Require Import base list gmap numbers option sets sorting.
From S2P Require Import Prelude FastDiv Rmq Worklist DenseBits RbTree RbInsert RbRemove RbQuery RbPayload SparseBitset SparseTree SparseOps.
Local Open Scope Z_scope.

(** ** The numbers in order *)

Lemma dense_sorted v n : StronglySorted Z.lt (dense v n).
Proof.
  unfold dense. assert (H : StronglySorted Z.lt (seqZ 0 n)).
  { unfold seqZ. generalize (Z.to_nat n). intros k. generalize 0%nat. induction k as [|k IH]; intros i; cbn; constructor; [apply IH|].
    rewrite Forall_forall. intros b (j & -> & Hj)%list_elem_of_fmap. apply elem_of_seq in Hj. lia. }
  induction H as [|a l Hs IH Ha]; [constructor|]. rewrite filter_cons. case_decide; [|done]. constructor; [done|]. rewrite Forall_forall in *.
  intros b [_ Hb]%list_elem_of_filter. by apply Ha.
Qed.
Lemma node_elems_sorted n : StronglySorted Z.lt (node_elems n).
Proof.
  unfold node_elems. induction (dense_sorted (vals n) 1024) as [|a l Hs IH Ha]; cbn; constructor; [done|]. rewrite Forall_forall in *.
  intros b (c & -> & Hc)%list_elem_of_fmap. specialize (Ha c Hc). lia.
Qed.

Lemma offsets_increase h l : StronglySorted (offset_le h) l -> NoDup (map (offset_of h) l) -> StronglySorted (fun a b => offset_of h a < offset_of h b) l.
Proof.
  induction 1 as [|a l Hs IH Ha]; cbn [map]; intros Hnd; constructor; apply NoDup_cons in Hnd as [Hnew Hnd]; [by apply IH|]. rewrite Forall_forall in *.
  intros b Hb. specialize (Ha b Hb). unfold offset_le in Ha. assert (offset_of h a <> offset_of h b); [|lia]. intros E. apply Hnew. rewrite E. by apply list_elem_of_fmap_2.
Qed.

Lemma contents_sorted h r l : tree_ok h r l -> StronglySorted Z.lt (contents h l).
Proof.
  intros Ht. pose proof (offsets_increase h l (to_sorted _ _ _ Ht) (to_distinct _ _ _ Ht)) as Hs. pose proof (to_nodes _ _ _ Ht) as Hn. clear Ht.
  induction Hs as [|a l Hs IH Ha]; [constructor|]. rewrite contents_cons. apply StronglySorted_app. split_and!.
  - intros b1 b2 H1 H2. unfold contents in H2. rewrite list_elem_of_In, in_flat_map in H2. destruct H2 as (a' & Ha'%list_elem_of_In & H2). rewrite Forall_forall in Ha. specialize (Ha a' Ha').
    destruct (Hn a ltac:(set_solver)) as (n & En & Hok). destruct (Hn a' ltac:(set_solver)) as (n' & En' & Hok'). unfold elems_at in *. rewrite En in H1. rewrite En' in H2. cbn in H1, H2.
    rewrite <- list_elem_of_In in H2. rewrite (offset_at h a n En), (offset_at h a' n' En') in Ha.
    apply elem_of_node in H1 as (? & ? & _); [|done]. apply elem_of_node in H2 as (? & ? & _); [|done]. dlia.
  - destruct (Hn a ltac:(set_solver)) as (n & En & Hok). unfold elems_at. rewrite En. apply node_elems_sorted.
  - apply IH. set_solver.
Qed.
Lemma numbers_nodup l : StronglySorted Z.lt l -> NoDup l.
Proof.
  induction 1 as [|a l Hs IH Ha]; constructor; [|done]. rewrite Forall_forall in Ha. intros Hin. specialize (Ha a Hin). lia.
Qed.
Lemma contents_app h l1 l2 : contents h (l1 ++ l2) = contents h l1 ++ contents h l2.
Proof. apply flat_map_app. Qed.

(** ** Counting *)

Lemma count_loop_ok h s k k2 : forall k1 fuel sum, tree_ok h (tree_root s) k -> k = k1 ++ k2 -> (length k2 < fuel)%nat -> 0 <= sum < 2 ^ 32 ->
  count_loop fuel h s (hd 0 k2) (hd 0 (tail k2)) sum = Some (u32 (sum + Z.of_nat (length (contents h k2)))).
Proof.
  induction k2 as [|a k2 IH]; intros k1 [|fuel] sum Ht Ek Hf Hs; cbn [length] in *; [lia| |lia|]; cbn [count_loop hd tail].
  { cbn. by rewrite Z.add_0_r, u32_small. }
  destruct (node_at _ _ _ _ _ _ Ht Ek) as (-> & (n & En & Hn & -> & Ee) & _). cbn [mbind option_bind].
  rewrite node_words, (count_words _ 32 (no_vals _ Hn)) by lia. cbn [mbind option_bind].
  assert (Hh : holds (tree_of h s) (iord R ((k1 ++ [a]) ++ k2))) by (cbn [iord]; rewrite <- app_assoc; cbn [app]; rewrite <- Ek; exact (tree_ok_holds _ _ _ Ht)).
  rewrite (step_or_null_holds R _ _ _ Hh). cbn [mbind option_bind]. rewrite (IH (k1 ++ [a])); [|done|by rewrite <- app_assoc|lia|apply u32_fits].
  rewrite contents_cons, length_app, Ee. unfold node_elems. rewrite length_map. change (32 * 32) with 1024. unfold u32. rewrite wrap_wrap_add by lia. do 2 f_equal. lia.
Qed.

(** The count is the number of elements; as an unsigned int it is 0 for the set of all 32-bit numbers. *)
Lemma count_ok h s l X : set_ok h s l X -> u_sparse_bitset_is_small s = false -> u_sparse_bitset_count h s = Some (u32 (Z.of_nat (size X))).
Proof.
  unfold set_ok, u_sparse_bitset_count. intros H Hsm. rewrite Hsm in *. destruct H as [Ht Hs]. destruct (first_at h s l Ht) as [-> Hf]. cbn [mbind option_bind].
  assert (Hh : holds (tree_of h s) (iord R ([] ++ l))) by exact (tree_ok_holds _ _ _ Ht). rewrite (step_or_null_holds R _ _ _ Hh). cbn [mbind option_bind].
  rewrite (count_loop_ok h s l l []) by (done || lia). rewrite Z.add_0_l. do 3 f_equal.
  assert (E : X = list_to_set (contents h l)) by (apply leibniz_equiv; intros b; by rewrite elem_of_list_to_set, Hs).
  rewrite E, size_list_to_set; [done|]. apply numbers_nodup, (contents_sorted _ _ _ Ht).
Qed.

(** For a small set the count takes the capacity, a number of bits, as the number of words: it reads
    behind the end of the array. *)
Lemma prefix_sum_outside v b todo : forall i p, 0 <= i -> (i + Z.of_nat todo) * 32 <= b -> Z.of_nat (length v) < i + Z.of_nat todo -> i <= Z.of_nat (length v) ->
  prefix_sum_loop todo v b i p = None.
Proof.
  induction todo as [|todo IH]; intros i p Hi Hb Hl Hi'; [lia|]. cbn [prefix_sum_loop]. destruct (v !! Z.to_nat i) as [w|] eqn:E; [|done]. cbn [mbind option_bind].
  apply lookup_lt_Some in E. destruct (Z.leb_spec ((i + 1) * 32) b); [|lia]. apply IH; lia.
Qed.

(** ** Clearing *)

Notation node_mem := (mem u_sparse_bitset_node).

Lemma free_loop_ok r : forall (m : node_mem) fuel, plain_repr m r -> (length r < fuel)%nat ->
  exists m', safe_loop remove_and_free R fuel m (hd 0 r) (hd 0 (tail r)) = Some (m', r) /\ root m' = 0
    /\ forall a, cells m' !! a = if decide (a ∈ r) then None else cells m !! a.
Proof.
  induction r as [|a r IH]; intros m [|fuel] Hr Hf; cbn [length] in Hf; [lia| |lia|]; cbn [safe_loop hd tail].
  { exists m. split; [done|]. split; [|done]. destruct Hr as (t & N & (Hroot & _) & _ & _ & _ & Ht). destruct t as [|? ? ? ? ?]; [exact Hroot|]. cbn in Ht. by destruct (inorder t1). }
  pose proof (holds_wf _ _ (rb_repr_holds _ _ _ Hr)) as [Hnd Hv]. apply NoDup_cons in Hnd as [Hna Hnd]. apply Forall_cons in Hv as [Va Hv].
  rewrite (valid_neq0 a Va). destruct (remove_repr (update := None) m [] a r Hr) as (m1 & E1 & Hr1 & K1 & K2). cbn [app] in *.
  assert (E2 : remove_and_free m a = Some (Mem (root m1) (delete a (cells m1)))) by (unfold remove_and_free, rb_tree_remove; by rewrite E1).
  rewrite E2. cbn [mbind option_bind].
  assert (Hr2 : plain_repr (Mem (root m1) (delete a (cells m1))) r).
  { apply (plain_repr_links (cells m1)); [by destruct m1|]. intros b Hb. rewrite lookup_delete_ne; [done|]. set_solver. }
  rewrite (step_or_null_holds R _ [] r (rb_repr_holds _ _ _ Hr2)). cbn [mbind option_bind].
  destruct (IH _ fuel Hr2 ltac:(lia)) as (m' & -> & Hroot & Hc). exists m'. split; [done|]. split; [done|]. intros b. rewrite Hc. cbn [cells].
  destruct (decide (b = a)) as [->|Hne]; [rewrite lookup_delete_eq, (decide_True (P := a ∈ a :: r)) by set_solver; by case_decide|].
  rewrite lookup_delete_ne by done. destruct (decide (b ∈ r)) as [Hb|Hb]; [by rewrite decide_True by set_solver|].
  rewrite decide_False by set_solver. apply K2. set_solver.
Qed.

Lemma free_nodes_ok h s l : tree_ok h (tree_root s) l ->
  exists h', free_nodes h s = Some (h', with_root s 0) /\ (forall a, h' !! a = if decide (a ∈ l) then None else h !! a) /\ changes h h' l [] 0.
Proof.
  intros Ht. destruct (first_at h s l Ht) as [E Hf]. destruct (free_loop_ok l (tree_of h s) _ (to_repr _ _ _ Ht) Hf) as (m' & E' & Hroot & Hc).
  exists (cells m'). unfold free_nodes, rb_tree_foreach_safe. rewrite E. cbn [mbind option_bind].
  assert (Hh : holds (tree_of h s) (iord R ([] ++ l))) by exact (tree_ok_holds _ _ _ Ht). rewrite (step_or_null_holds R _ _ _ Hh). cbn [mbind option_bind].
  rewrite E'. cbn [mbind option_bind]. rewrite Hroot. split; [done|]. split; [exact Hc|]. split.
  - intros a _. apply Hc.
  - by intros a ?%not_elem_of_nil.
  - rewrite Nat.add_0_r. apply subseteq_size. intros a [n Hn]%elem_of_dom. rewrite Hc in Hn. case_decide; [done|]. apply elem_of_dom. eauto.
Qed.

Lemma clear_all_ok h s l X : set_ok h s l X -> exists h' s', u_sparse_bitset_clear_all h s = Some (h', s') /\ capacity s' = capacity s /\ set_ok h' s' [] ∅ /\ changes h h' l [] 0.
Proof.
  unfold u_sparse_bitset_clear_all, set_ok. destruct (u_sparse_bitset_is_small s) eqn:Hsm.
  - intros [-> [C W B S]]. eexists h, _. split; [done|]. split; [done|]. unfold with_small, u_sparse_bitset_is_small in *. cbn [capacity]. rewrite Hsm. split; [|apply changes_refl]. split; [done|].
    split; cbn; [done| | |].
    + apply array_zero. unfold BITSET_WORDS. dlia.
    + intros b _. apply bit_zero.
    + intros b. rewrite bit_zero. set_solver.
  - intros [Ht _]. destruct (free_nodes_ok h s l Ht) as (h' & -> & _ & Hc). exists h', (with_root s 0). split; [done|]. split; [done|].
    change (u_sparse_bitset_is_small (with_root s 0)) with (u_sparse_bitset_is_small s). rewrite Hsm. split; [|done]. split; [apply tree_ok_empty|]. intros b. cbn. set_solver.
Qed.

(** Freeing a set frees exactly its nodes. *)
Lemma free_ok h s l X : set_ok h s l X -> exists h' s', u_sparse_bitset_free h s = Some (h', s') /\ (forall a, h' !! a = if decide (a ∈ l) then None else h !! a) /\ changes h h' l [] 0.
Proof.
  unfold u_sparse_bitset_free, set_ok. destruct (u_sparse_bitset_is_small s) eqn:Hsm.
  - intros [-> _]. eexists h, _. split; [done|]. split; [done|apply changes_refl].
  - intros [Ht _]. destruct (free_nodes_ok h s l Ht) as (h' & -> & Hh & Hc). by exists h', (with_root s 0).
Qed.

(** ** Iterating *)

Lemma search_node n i : node_ok n -> 0 <= i < 1024 ->
  exists j, u_sparse_bitset_next_set_dense (vals n) U_SPARSE_BITSET_BITS_PER_NODE i = Some j
    /\ (if j <? U_SPARSE_BITSET_BITS_PER_NODE
        then 0 <= j < 1024 /\ offset n + j ∈ node_elems n /\ i <= j /\ forall b, b ∈ node_elems n -> offset n + i <= b -> offset n + j <= b
        else forall b, b ∈ node_elems n -> b < offset n + i).
Proof.
  intros Hn Hi. destruct (next_set_words (vals n) 32 1024 i (no_vals _ Hn)) as (j & E & Hj); [done|lia|lia|]. rewrite bits_per_node. exists j. split; [done|].
  destruct (Z.leb_spec 1024 i); [lia|]. pose proof (no_offset _ Hn) as Ho. pose proof (no_aligned _ Hn) as Hal.
  assert (Hel : forall b, b ∈ node_elems n -> exists x, 0 <= x < 1024 /\ b = offset n + x /\ bit (vals n) x = true).
  { intros b (H1 & H2 & H3)%elem_of_node; [|done]. exists (b mod 1024). split; [dlia|]. split; [lia|done]. }
  destruct Hj as [[-> Hno]|(Hj & Hb & Hmin)].
  - change (UINT_MAX <? 1024) with false. cbv iota. intros b (x & Hx & -> & Hbit)%Hel. destruct (Z_lt_le_dec x i) as [|Hge]; [lia|]. rewrite Hno in Hbit by lia. done.
  - destruct (Z.ltb_spec j 1024); [|lia]. split; [lia|]. assert (Em : (offset n + j) mod 1024 = j) by dlia. split; [apply elem_of_node; [done|]; rewrite Em; split; [lia|split; [lia|done]]|]. split; [lia|].
    intros b (x & Hx & -> & Hbit)%Hel Hge. destruct (Z_lt_le_dec x j) as [Hlt|]; [|lia]. rewrite Hmin in Hbit by lia. done.
Qed.

(** The first number of [k2] that is found from its first node on *)
Lemma next_loop_start h s k k2 : forall k1 fuel nd, tree_ok h (tree_root s) k -> k = k1 ++ k2 -> (length k2 < fuel)%nat ->
  exists r nd', next_set_loop fuel h s nd (hd 0 k2) 0 = Some (r, nd')
    /\ (r = UINT_MAX /\ contents h k2 = [] \/ nd' ∈ k2 /\ r ∈ elems_at (payloads h) nd' /\ forall b, b ∈ contents h k2 -> r <= b).
Proof.
  induction k2 as [|a k2 IH]; intros k1 [|fuel] nd Ht Ek Hf; cbn [length] in *; [lia| |lia|]; cbn [next_set_loop hd].
  { exists UINT_MAX, nd. split; [done|]. by left. }
  pose proof (contents_sorted _ _ _ Ht) as Hsort. rewrite Ek, contents_app, contents_cons in Hsort. apply StronglySorted_app in Hsort as (_ & _ & Hsort). apply StronglySorted_app in Hsort as (Hlt & _ & _).
  destruct (node_at _ _ _ _ _ _ Ht Ek) as (-> & (n & En & Hn & _ & Ee) & Enext). rewrite En. cbn [mbind option_bind]. change (0 =? 0) with true. cbn [negb andb].
  change (Z.land 0 U_SPARSE_BITSET_BIT_INDEX_MASK) with 0. destruct (search_node (n_aug n) 0 Hn ltac:(lia)) as (j & -> & Hj). cbn [mbind option_bind]. rewrite contents_cons, Ee.
  destruct (j <? U_SPARSE_BITSET_BITS_PER_NODE).
  - destruct Hj as (Hj & Hin & _ & Hmin). pose proof (no_offset _ Hn). pose proof (no_aligned _ Hn). rewrite u32_small by dlia. exists (offset (n_aug n) + j), a. split; [done|]. right. rewrite Ee.
    split; [set_solver|]. split; [done|]. intros b [Hb|Hb]%elem_of_app.
    + apply Hmin; [done|]. apply elem_of_node in Hb as (? & ? & _); [|done]. dlia.
    + rewrite Ee in Hlt. specialize (Hlt _ b Hin Hb). lia.
  - assert (Hnil : node_elems (n_aug n) = []).
    { destruct (node_elems (n_aug n)) as [|b bs] eqn:Eb; [done|]. specialize (Hj b ltac:(set_solver)). assert (Hb : b ∈ node_elems (n_aug n)) by (rewrite Eb; set_solver).
      apply elem_of_node in Hb as (? & ? & _); [|done]. dlia. }
    rewrite Hnil. change (tree_of h s) with (Mem (tree_root s) h). rewrite Enext. cbn [mbind option_bind app].
    destruct (IH (k1 ++ [a]) fuel nd) as (r & nd' & E & Hr); [done|by rewrite <- app_assoc|lia|]. exists r, nd'. split; [done|].
    destruct Hr as [Hr|(H1 & H2 & H3)]; [by left|right]. split; [set_solver|done].
Qed.

(** [r] is the first number of [X] from [from] on, or UINT_MAX. *)
Definition first_from (X : gset Z) (from r : Z) : Prop :=
  r = UINT_MAX /\ (forall b, b ∈ X -> b < from) \/ (r ∈ X /\ from <= r /\ forall b, b ∈ X -> from <= b -> r <= b).
(** The iterator points to the node of the number [it]. *)
Definition at_node (h : heap) (s : u_sparse_bitset) (l : list Z) (it node : Z) : Prop :=
  if u_sparse_bitset_is_small s then True else node ∈ l /\ it ∈ elems_at (payloads h) node.

Lemma next_small_ok s X from : small_ok s X -> 0 <= from ->
  exists i, u_sparse_bitset_next_set_dense (small_vals s) (capacity s) from = Some i /\ first_from X from (if i <? capacity s then i else UINT_MAX).
Proof.
  intros HX Hf. pose proof (small_words _ _ HX) as Hw. pose proof (so_capacity _ _ HX). destruct (next_set_words _ _ (capacity s) from (so_words _ _ HX)) as (r & E & Hr); [done|lia|done|]. exists r. split; [done|].
  destruct (Z.leb_spec (capacity s) from) as [Hge|Hlt].
  - subst r. destruct (Z.ltb_spec UINT_MAX (capacity s)); [unfold UINT_MAX, UINT32_MAX in *; lia|]. left. split; [done|]. intros b Hb. apply (small_in_range _ _ _ HX) in Hb. lia.
  - destruct Hr as [[-> Hno]|(Hr & Hbit & Hmin)].
    + destruct (Z.ltb_spec UINT_MAX (capacity s)); [unfold UINT_MAX, UINT32_MAX in *; lia|]. left. split; [done|]. intros b Hb. pose proof (small_in_range _ _ _ HX Hb).
      apply (so_set _ _ HX) in Hb as [_ Hb]. destruct (Z_lt_le_dec b from); [done|]. rewrite Hno in Hb by lia. done.
    + assert (HrX : r ∈ X) by (apply (so_set _ _ HX); split; [lia|done]). pose proof (small_in_range _ _ _ HX HrX). destruct (Z.ltb_spec r (capacity s)); [|lia]. right. split; [done|]. split; [lia|].
      intros b [Hb0 Hb]%(so_set _ _ HX) Hbf. destruct (Z_lt_le_dec b r); [|done]. rewrite Hmin in Hb by lia. done.
Qed.

Lemma first_set_ok h s l X : set_ok h s l X ->
  exists r nd, u_sparse_bitset_first_set h s = Some (r, nd) /\ first_from X 0 r /\ (r ∈ X -> at_node h s l r nd).
Proof.
  unfold set_ok, u_sparse_bitset_first_set, u_sparse_bitset_next_set, at_node. destruct (u_sparse_bitset_is_small s) eqn:Hsm.
  - intros [_ HX]. cbn [mbind option_bind]. destruct (next_small_ok s X 0 HX ltac:(lia)) as (i & -> & Hi). cbn [mbind option_bind].
    set (r := if i <? capacity s then i else UINT_MAX) in *. exists r, 0. split; [|done].
    assert (0 <= r) by (destruct Hi as [[-> _]|(_ & ? & _)]; done). destruct (Z.leb_spec 0 r); [done|lia].
  - intros [Ht Hs]. destruct (first_at h s l Ht) as [-> Hf]. cbn [mbind option_bind].
    destruct (next_loop_start h s l l [] _ (hd 0 l) Ht eq_refl Hf) as (r & nd & -> & Hr). cbn [mbind option_bind].
    assert (Hin : nd ∈ l -> r ∈ elems_at (payloads h) nd -> r ∈ X).
    { intros H1 H2. apply Hs. unfold contents. rewrite list_elem_of_In, in_flat_map. exists nd. by rewrite <- !list_elem_of_In. }
    destruct Hr as [[-> Hnil]|(H1 & H2 & H3)].
    + exists UINT_MAX, nd. split; [done|]. assert (Hno : forall b, b ∉ X) by (intros b; rewrite Hs, Hnil; apply not_elem_of_nil). split; [left; split; [done|]; intros b Hb; by apply Hno in Hb|]. intros Hb. by apply Hno in Hb.
    + pose proof (proj1 (Hs _) (Hin H1 H2)) as Hc. apply (contents_range _ _ _ _ Ht) in Hc. exists r, nd. destruct (Z.leb_spec 0 r); [|lia]. split; [done|]. split; [|done].
      right. split; [by apply Hin|]. split; [done|]. intros b Hb%Hs _. by apply H3.
Qed.

Lemma next_loop_ok h s l it nd : tree_ok h (tree_root s) l -> nd ∈ l -> it ∈ elems_at (payloads h) nd -> 0 <= it < UINT_MAX ->
  exists r nd', next_set_loop (fuel_of (tree_of h s)) h s nd nd (it + 1) = Some (r, nd')
    /\ (r = UINT_MAX /\ (forall b, b ∈ contents h l -> b < it + 1)
        \/ nd' ∈ l /\ r ∈ elems_at (payloads h) nd' /\ it + 1 <= r /\ forall b, b ∈ contents h l -> it + 1 <= b -> r <= b).
Proof.
  intros Ht Hnd Hit Hr. destruct (first_at h s l Ht) as [_ Hf]. apply list_elem_of_split in Hnd as (k1 & k2 & Ek). rewrite Ek in Hf. rewrite length_app in Hf. cbn [length] in Hf.
  pose proof (contents_sorted _ _ _ Ht) as Hsort. rewrite Ek, contents_app, contents_cons in Hsort. apply StronglySorted_app in Hsort as (Hlt1 & _ & Hsort). apply StronglySorted_app in Hsort as (Hlt2 & _ & _).
  destruct (node_at _ _ _ _ _ _ Ht Ek) as (E0 & (n & En & Hn & _ & Ee) & Enext). rewrite Ee in Hit, Hlt1, Hlt2. pose proof Hit as (_ & Ho & _)%elem_of_node; [|done].
  assert (Hbefore : forall b, b ∈ contents h l -> it + 1 <= b -> b ∈ node_elems (n_aug n) \/ b ∈ contents h k2).
  { intros b. rewrite Ek, contents_app, contents_cons, Ee, !elem_of_app. intros [Hb|Hb] Hge; [|done]. specialize (Hlt1 b it Hb ltac:(set_solver)). lia. }
  destruct (fuel_of (tree_of h s)) as [|fuel]; [lia|]. cbn [next_set_loop]. rewrite E0, En. cbn [mbind option_bind].
  assert (Hmod : 0 <= it mod 1024 < 1024) by dlia. unfold UINT_MAX, UINT32_MAX in Hr. rewrite (u32_small (it + 1 - _)), bits_per_node by lia. destruct (Z.eqb_spec (it + 1) 0); [lia|]. cbn [negb andb].
  (* the nodes after the current one *)
  assert (Hnext : (forall b, b ∈ node_elems (n_aug n) -> b < it + 1) -> exists r nd',
    (next ← rb_node_next (tree_of h s) nd; next_set_loop fuel h s nd next 0) = Some (r, nd')
    /\ (r = UINT_MAX /\ (forall b, b ∈ contents h l -> b < it + 1)
        \/ nd' ∈ l /\ r ∈ elems_at (payloads h) nd' /\ it + 1 <= r /\ forall b, b ∈ contents h l -> it + 1 <= b -> r <= b)).
  { intros Hless. change (tree_of h s) with (Mem (tree_root s) h). rewrite Enext. cbn [mbind option_bind].
    destruct (next_loop_start h s l k2 (k1 ++ [nd]) fuel nd Ht) as (r & nd' & E & Hr'); [by rewrite <- app_assoc|lia|]. exists r, nd'. split; [done|].
    destruct Hr' as [[-> Hnil]|(H1 & H2 & H3)]; [left|right].
    - split; [done|]. intros b Hb. destruct (Z_lt_le_dec b (it + 1)); [done|]. destruct (Hbefore b Hb ltac:(done)) as [Hb'|Hb']; [by apply Hless|]. rewrite Hnil in Hb'. by apply not_elem_of_nil in Hb'.
    - assert (Hrc : r ∈ contents h k2) by (unfold contents; rewrite list_elem_of_In, in_flat_map; exists nd'; by rewrite <- !list_elem_of_In).
      specialize (Hlt2 it r Hit Hrc) as Hitr. split; [rewrite Ek; set_solver|]. split; [done|]. split; [lia|]. intros b Hb Hge.
      destruct (Hbefore b Hb Hge) as [Hb'|Hb']; [specialize (Hless b Hb'); lia|by apply H3]. }
  destruct (Z.leb_spec 1024 (it + 1 - offset (n_aug n))) as [Hend|Hin].
  - apply Hnext. intros b (? & ? & _)%elem_of_node; [|done]. assert (b mod 1024 < 1024) by dlia. lia.
  - rewrite bit_index by lia. pose proof (no_aligned _ Hn). assert (Ei : (it + 1) mod 1024 = it + 1 - offset (n_aug n)) by dlia. rewrite Ei.
    destruct (search_node (n_aug n) (it + 1 - offset (n_aug n)) Hn ltac:(lia)) as (j & Ej & Hj). rewrite bits_per_node in Ej, Hj. rewrite Ej. cbn [mbind option_bind].
    replace (offset (n_aug n) + (it + 1 - offset (n_aug n))) with (it + 1) in Hj by lia. destruct (j <? 1024); [|by apply Hnext].
    destruct Hj as (Hj & Hjn & Hij & Hmin). pose proof (no_offset _ Hn). rewrite u32_small by dlia. exists (offset (n_aug n) + j), nd. split; [done|]. right. split; [rewrite Ek; set_solver|]. rewrite Ee. split; [done|]. split; [lia|].
    intros b Hb Hge. destruct (Hbefore b Hb Hge) as [Hb'|Hb']; [by apply Hmin|]. specialize (Hlt2 _ b Hjn Hb'). lia.
Qed.

Lemma next_set_ok h s l X it nd : set_ok h s l X -> it ∈ X -> it < UINT_MAX -> at_node h s l it nd ->
  exists r nd', u_sparse_bitset_next_set h s nd (u32 (it + 1)) = Some (r, nd') /\ first_from X (it + 1) r /\ (r ∈ X -> at_node h s l r nd').
Proof.
  intros HX Hit Hmax Hat. pose proof (set_ok_range h s l X it HX Hit) as Hrange. unfold in_range in Hrange. unfold u_sparse_bitset_next_set, at_node, set_ok in *.
  rewrite u32_small by (unfold UINT_MAX, UINT32_MAX in *; destruct (u_sparse_bitset_is_small s); lia). destruct (u_sparse_bitset_is_small s) eqn:Hsm.
  - destruct HX as [_ HX]. destruct (next_small_ok s X (it + 1) HX ltac:(lia)) as (i & -> & Hi). cbn [mbind option_bind].
    set (r := if i <? capacity s then i else UINT_MAX) in *. exists r, nd. split; [|done].
    assert (it + 1 <= r) by (destruct Hi as [[-> _]|(_ & ? & _)]; lia). destruct (Z.leb_spec (it + 1) r); [done|lia].
  - destruct HX as [Ht Hs]. destruct Hat as [Hnd Hat]. destruct (next_loop_ok h s l it nd Ht Hnd Hat ltac:(lia)) as (r & nd' & -> & Hr). cbn [mbind option_bind]. exists r, nd'.
    destruct Hr as [[-> Hno]|(H1 & H2 & H3 & H4)].
    + destruct (Z.leb_spec (it + 1) UINT_MAX); [|lia]. split; [done|]. split; [left; split; [done|]; intros b Hb%Hs; by apply Hno|]. intros Hb%Hs%Hno. lia.
    + destruct (Z.leb_spec (it + 1) r); [|lia]. split; [done|]. split; [|done]. right. split; [|split; [done|intros b Hb%Hs; by apply H4]].
      apply Hs. unfold contents. rewrite list_elem_of_In, in_flat_map. exists nd'. by rewrite <- !list_elem_of_In.
Qed.

(** The numbers still to be visited *)
Definition rest_from (X : gset Z) (from : Z) : gset Z := filter (fun b => from <= b) X.

Lemma foreach_set_loop_ok h s l X : set_ok h s l X -> forall fuel it nd, first_from X it it -> (it ∈ X -> at_node h s l it nd) -> (size (rest_from X it) < fuel)%nat ->
  exists out, foreach_set_loop fuel h s it nd = Some out /\ StronglySorted Z.lt out /\ forall b, b ∈ out <-> b ∈ X /\ it <= b /\ b <> UINT_MAX.
Proof.
  intros HX. induction fuel as [|fuel IH]; intros it nd Hff Hat Hf; [lia|]. cbn [foreach_set_loop].
  assert (Hle : forall b, b ∈ X -> b <= UINT_MAX).
  { intros b Hb. apply (set_ok_range _ _ _ _ _ HX) in Hb. unfold in_range in Hb. unfold UINT_MAX, UINT32_MAX. unfold set_ok in HX.
    destruct (u_sparse_bitset_is_small s); [destruct HX as [_ HX]; pose proof (so_capacity _ _ HX)|]; lia. }
  destruct (Z.eqb_spec it UINT_MAX) as [->|Hn].
  { exists []. split; [done|]. split; [constructor|]. intros b. split; [by intros ?%not_elem_of_nil|]. intros (Hb & H1 & H2). specialize (Hle b Hb). lia. }
  destruct Hff as [[-> _]|(Hin & _ & _)]; [done|]. specialize (Hle it Hin). specialize (Hat Hin).
  destruct (next_set_ok h s l X it nd HX Hin ltac:(lia) Hat) as (r & nd' & -> & Hr & Hat'). cbn [mbind option_bind].
  assert (Hge : it + 1 <= r) by (destruct Hr as [[-> _]|(_ & ? & _)]; lia).
  destruct (IH r nd') as (out & -> & Hs & Hout).
  - destruct Hr as [[-> Hno]|(H1 & H2 & H3)]; [left; split; [done|]; intros b Hb; specialize (Hno b Hb); lia|right; split; [done|]; split; [lia|done]].
  - done.
  - apply Nat.lt_le_trans with (size (rest_from X it)); [|lia]. apply subset_size. unfold rest_from. split.
    + intros b [H1 H2]%elem_of_filter. apply elem_of_filter. split; [lia|done].
    + intros Hsub. assert (Hx : it ∈ rest_from X r) by (apply Hsub, elem_of_filter; split; [lia|done]). apply elem_of_filter in Hx as [Hx _]. lia.
  - cbn [mbind option_bind]. exists (it :: out). split; [done|]. split.
    + constructor; [done|]. rewrite Forall_forall. intros b (_ & Hb & _)%Hout. lia.
    + intros b. rewrite elem_of_cons, Hout. split; [intros [->|(H1 & H2 & H3)]; [split; [done|split; [lia|done]]|split; [done|split; [lia|done]]]|].
      intros (H1 & H2 & H3). destruct (Z.eq_dec b it) as [|Hne]; [by left|right]. split; [done|]. split; [|done].
      destruct Hr as [[-> Hno]|(_ & _ & Hmin)]; [specialize (Hno b H1); lia|apply Hmin; [done|lia]].
Qed.

Lemma length_contents h r l : tree_ok h r l -> (length (contents h l) <= 1024 * length l)%nat.
Proof.
  intros _. induction l as [|a l IH]; [done|]. rewrite contents_cons, length_app. cbn [length]. assert (Hn : (length (elems_at (payloads h) a) <= 1024)%nat); [|lia].
  unfold elems_at. destruct (payloads h !! a) as [n|]; cbn [from_option length]; [|lia]. unfold node_elems, dense. rewrite length_map.
  etrans; [apply length_filter|]. by rewrite length_seqZ.
Qed.
Lemma set_ok_size h s l X : set_ok h s l X -> (size X <= Z.to_nat (capacity s) + 1024 * size h)%nat.
Proof.
  unfold set_ok. destruct (u_sparse_bitset_is_small s).
  - intros [_ HX]. assert (Hsub : X ⊆ list_to_set (seqZ 0 (capacity s))).
    { intros b Hb. apply elem_of_list_to_set, elem_of_seqZ. pose proof (small_in_range _ _ _ HX Hb). lia. }
    apply subseteq_size in Hsub. rewrite size_list_to_set, length_seqZ in Hsub by apply NoDup_seqZ. lia.
  - intros [Ht Hs]. assert (E : X = list_to_set (contents h l)) by (apply leibniz_equiv; intros b; by rewrite elem_of_list_to_set, Hs).
    rewrite E, size_list_to_set by (apply numbers_nodup, (contents_sorted _ _ _ Ht)). pose proof (length_contents _ _ _ Ht).
    destruct (first_at h s l Ht) as [_ Hf]. unfold fuel_of, tree_of in Hf. cbn [cells] in Hf. lia.
Qed.

(** The loop visits the numbers of the set in increasing order, except UINT_MAX, which is its end mark. *)
Lemma foreach_set_ok h s l X : set_ok h s l X ->
  exists out, U_SPARSE_BITSET_FOREACH_SET h s = Some out /\ StronglySorted Z.lt out /\ forall b, b ∈ out <-> b ∈ X /\ b <> UINT_MAX.
Proof.
  intros HX. unfold U_SPARSE_BITSET_FOREACH_SET. pose proof (set_ok_size _ _ _ _ HX) as Hf. destruct (first_set_ok h s l X HX) as (r & nd & -> & Hr & Hat). cbn [mbind option_bind].
  destruct (foreach_set_loop_ok h s l X HX (S (Z.to_nat (capacity s) + 1024 * size h)) r nd) as (out & E & Hs & Hout); [|done| |].
  - destruct Hr as [[-> Hno]|(H1 & H2 & H3)]; [left; split; [done|]; intros b Hb; specialize (Hno b Hb); pose proof (set_ok_range _ _ _ _ _ HX Hb) as Hb'; unfold in_range in Hb'; lia|by right; split].
  - apply Nat.lt_succ_r. etrans; [|exact Hf]. apply subseteq_size. by intros b [_ Hb]%elem_of_filter.
  - exists out. split; [done|]. split; [done|]. intros b. rewrite Hout. split; [tauto|]. intros [H1 H2]. split; [done|]. split; [|done].
    assert (0 <= b) by (pose proof (set_ok_range _ _ _ _ _ HX H1) as Hb'; unfold in_range in Hb'; lia). destruct Hr as [[-> Hno]|(_ & _ & Hmin)]; [specialize (Hno b H1); lia|by apply Hmin].
Qed.

(** ** Comparing *)

Lemma sorted_unique l : forall l', StronglySorted Z.lt l -> StronglySorted Z.lt l' -> (forall b, b ∈ l <-> b ∈ l') -> l = l'.
Proof.
  induction l as [|a l IH]; intros [|a' l'] Hl Hl' H; try done.
  - specialize (H a'). set_solver.
  - specialize (H a). set_solver.
  - apply StronglySorted_inv in Hl as [Hl Ha], Hl' as [Hl' Ha']. rewrite Forall_forall in Ha, Ha'. assert (a = a').
    { assert (H1 : a ∈ a' :: l') by (apply H; set_solver). assert (H2 : a' ∈ a :: l) by (apply H; set_solver).
      apply elem_of_cons in H1 as [|H1]; [done|]. apply elem_of_cons in H2 as [|H2]; [done|]. specialize (Ha a' H2). specialize (Ha' a H1). lia. }
    subst a'. f_equal. apply IH; [done|done|]. intros b. specialize (H b). rewrite !elem_of_cons in H. split; intros Hb.
    + destruct (proj1 H (or_intror Hb)) as [->|]; [|done]. specialize (Ha a Hb). lia.
    + destruct (proj2 H (or_intror Hb)) as [->|]; [|done]. specialize (Ha' a Hb). lia.
Qed.

Definition nodes_of (h : heap) (l : list Z) : list (option u_sparse_bitset_node) := map (fun a => payloads h !! a) l.

Lemma cmp_loop_ok h a b ka kb qa : forall qb pa pb fuel, tree_ok h (tree_root a) ka -> tree_ok h (tree_root b) kb -> ka = pa ++ qa -> kb = pb ++ qb -> (length qa < fuel)%nat ->
  exists c, cmp_loop fuel h a b (hd 0 qa) (hd 0 qb) = Some c /\ (c = 0 <-> nodes_of h qa = nodes_of h qb).
Proof.
  induction qa as [|x qa IH]; intros qb pa pb [|fuel] Ha Hb Ea Eb Hf; cbn [length] in Hf; [lia| |lia|]; cbn [cmp_loop hd].
  { change (0 =? 0) with true. cbn [negb andb Z.b2z]. eexists. split; [done|]. destruct qb as [|y qb]; [done|]. destruct (node_at _ _ _ _ _ _ Hb Eb) as (E0 & _). cbn [hd]. rewrite E0. done. }
  destruct (node_at _ _ _ _ _ _ Ha Ea) as (E0 & (n & En & Hn & Ev & _) & Enext). rewrite E0. cbn [negb andb]. destruct qb as [|y qb]; cbn [hd].
  { change (0 =? 0) with true. cbn. eexists. split; [done|]. done. }
  destruct (node_at _ _ _ _ _ _ Hb Eb) as (E0' & (n' & En' & Hn' & Ev' & _) & Enext'). rewrite E0'. cbn [negb].
  assert (Ex : payloads h !! x = Some (n_aug n)) by (unfold payloads; by rewrite lookup_fmap, En). assert (Ey : payloads h !! y = Some (n_aug n')) by (unfold payloads; by rewrite lookup_fmap, En').
  unfold u_sparse_bitset_node_compare. rewrite (offset_at h x _ Ex), (offset_at h y _ Ey). cbn [nodes_of map]. rewrite Ex, Ey.
  destruct (Z.eqb_spec (u_sparse_bitset_node_comparator (offset (n_aug n)) (offset (n_aug n'))) 0) as [Ec|Ec]; cbn [negb].
  2:{ eexists. split; [done|]. split; [done|]. intros [= E _]. destruct Ec. apply comparator_zero. by rewrite E. }
  rewrite comparator_zero in Ec. rewrite Ev, Ev'. cbn [mbind option_bind].
  destruct (Z.eqb_spec (memcmp (word_bytes (vals (n_aug n))) (word_bytes (vals (n_aug n')))) 0) as [Em|Em]; cbn [negb].
  2:{ eexists. split; [done|]. split; [done|]. intros [= E _]. destruct Em. rewrite E. apply memcmp_refl. }
  apply (memcmp_words _ _ 32 (no_vals _ Hn) (no_vals _ Hn')) in Em. change (tree_of h a) with (Mem (tree_root a) h). change (tree_of h b) with (Mem (tree_root b) h).
  rewrite Enext. cbn [mbind option_bind]. rewrite Enext'. cbn [mbind option_bind].
  destruct (IH qb (pa ++ [x]) (pb ++ [y]) fuel) as (c & E & Hc); [done|done|by rewrite <- app_assoc|by rewrite <- app_assoc|lia|]. exists c. split; [exact E|]. rewrite Hc. unfold nodes_of.
  assert (Enn : n_aug n = n_aug n') by (destruct (n_aug n), (n_aug n'); cbn in *; congruence). rewrite Enn. split; [by intros ->|]. by intros [= ?].
Qed.

Lemma contents_nodes h l : contents h l = flat_map (from_option node_elems []) (nodes_of h l).
Proof. induction l as [|a l IH]; [done|]. rewrite contents_cons, IH. done. Qed.

Lemma nodes_same h ra rb ka kb : tree_ok h ra ka -> tree_ok h rb kb -> no_empty_node h ka -> no_empty_node h kb ->
  (forall b, b ∈ contents h ka <-> b ∈ contents h kb) -> forall x, x ∈ ka -> exists y, y ∈ kb /\ payloads h !! y = payloads h !! x.
Proof.
  intros Ha Hb Na Nb Hc x Hx. destruct (to_nodes _ _ _ Ha x Hx) as (n & En & Hn). specialize (Na x Hx). unfold elems_at in Na. rewrite En in Na. cbn in Na.
  destruct (node_elems n) as [|b bs] eqn:Eb; [done|]. assert (Hin : b ∈ node_elems n) by (rewrite Eb; set_solver). clear Eb Na bs.
  apply elem_of_node in Hin as (Hb0 & Ho & Hbit); [|done]. assert (Hbc : b ∈ contents h ka) by (apply (contents_at h ra ka x n b); done).
  apply Hc in Hbc. apply (elem_of_contents _ _ _ _ Hb) in Hbc as (y & n' & Hy & En' & _ & Ho' & _). exists y. split; [done|]. rewrite En, En'. f_equal.
  destruct (to_nodes _ _ _ Hb y Hy) as (n2 & En2 & Hn'). assert (n2 = n') by congruence. subst n2. pose proof (no_offset _ Hn). pose proof (no_aligned _ Hn).
  assert (Ev : vals n' = vals n); [|destruct n, n'; cbn in *; congruence]. apply (words_ext _ _ 32 (no_vals _ Hn') (no_vals _ Hn)). intros i Hi.
  assert (Ei : (offset n + i) mod 1024 = i) by dlia. pose proof (contents_at h ra ka x n (offset n + i) Ha Hx En ltac:(lia) ltac:(lia)) as H1.
  pose proof (contents_at h rb kb y n' (offset n + i) Hb Hy En' ltac:(lia) ltac:(lia)) as H2. rewrite Ei in H1, H2. specialize (Hc (offset n + i)).
  destruct (bit (vals n') i), (bit (vals n) i); intuition congruence.
Qed.

Lemma offsets_strict h r l : tree_ok h r l -> StronglySorted Z.lt (map (offset_of h) l).
Proof.
  intros Ht. pose proof (offsets_increase h l (to_sorted _ _ _ Ht) (to_distinct _ _ _ Ht)) as Hi. clear Ht.
  induction Hi as [|a l Hs IH Ha]; cbn [map]; [constructor|].
  constructor; [done|]. rewrite Forall_forall in *. intros b (c & -> & Hc)%list_elem_of_fmap. by apply Ha.
Qed.

Lemma nodes_of_unique h ra rb ka kb : tree_ok h ra ka -> tree_ok h rb kb -> no_empty_node h ka -> no_empty_node h kb ->
  (forall b, b ∈ contents h ka <-> b ∈ contents h kb) -> nodes_of h ka = nodes_of h kb.
Proof.
  intros Ha Hb Na Nb Hc. assert (Hoff : forall x y, payloads h !! y = payloads h !! x -> offset_of h y = offset_of h x) by (intros x y E; by rewrite !offset_payload, E).
  assert (E : map (offset_of h) ka = map (offset_of h) kb).
  { apply sorted_unique; [by eapply offsets_strict|by eapply offsets_strict|]. intros o. rewrite !list_elem_of_fmap. split; intros (x & -> & Hx).
    - destruct (nodes_same h ra rb ka kb Ha Hb Na Nb Hc x Hx) as (y & Hy & Ey). exists y. split; [|done]. symmetry. by apply Hoff.
    - destruct (nodes_same h rb ra kb ka Hb Ha Nb Na (fun b => iff_sym (Hc b)) x Hx) as (y & Hy & Ey). exists y. split; [|done]. symmetry. by apply Hoff. }
  assert (F : Forall2 (fun x y => offset_of h x = offset_of h y) ka kb) by (apply Forall2_fmap, list_eq_Forall2; exact E).
  unfold nodes_of. apply list_eq_Forall2, Forall2_fmap, Forall2_lookup. rewrite Forall2_lookup in F. intros i. specialize (F i).
  destruct (ka !! i) as [x|] eqn:Ex, (kb !! i) as [y|] eqn:Ey; inversion F as [? ? Exy|]; subst; constructor.
  apply list_elem_of_lookup_2 in Ex, Ey. destruct (nodes_same h ra rb ka kb Ha Hb Na Nb Hc x Ex) as (y' & Hy' & E').
  assert (y' = y) by (apply (same_offset h rb kb y' y Hb Hy' Ey); rewrite <- Exy; by apply Hoff). by subst y'.
Qed.

Lemma cmp_ok h a ka X b kb Y : set_ok h a ka X -> set_ok h b kb Y -> capacity a = capacity b ->
  exists c, u_sparse_bitset_cmp h a b = Some c /\ (c = 0 -> X = Y) /\ (no_empty_node h ka -> no_empty_node h kb -> X = Y -> c = 0).
Proof.
  intros HX HY Ecap. unfold u_sparse_bitset_cmp. rewrite Ecap, Z.eqb_refl.
  assert (Esm : u_sparse_bitset_is_small a = u_sparse_bitset_is_small b) by (unfold u_sparse_bitset_is_small; by rewrite Ecap).
  unfold set_ok in *. rewrite Esm in *. destruct (u_sparse_bitset_is_small b).
  - destruct HX as [_ HX], HY as [_ HY]. pose proof (so_words _ _ HX) as Wa. rewrite Ecap in Wa. pose proof (memcmp_words _ _ _ Wa (so_words _ _ HY)) as Hm. eexists. split; [done|]. split.
    + intros E. apply Hm in E. apply set_eq. intros x. by rewrite (so_set _ _ HX), (so_set _ _ HY), E.
    + intros _ _ ->. apply Hm, (words_ext _ _ _ Wa (so_words _ _ HY)). intros i Hi. pose proof (so_set _ _ HX i) as H1. pose proof (so_set _ _ HY i) as H2.
      destruct (bit (small_vals a) i), (bit (small_vals b) i); try done; [destruct (proj1 H2 (proj2 H1 ltac:(lia)))|destruct (proj1 H1 (proj2 H2 ltac:(lia)))]; done.
  - destruct HX as [Ta Sa], HY as [Tb Sb]. destruct (first_at h a ka Ta) as [-> Hf]. destruct (first_at h b kb Tb) as [-> _]. cbn [mbind option_bind].
    destruct (cmp_loop_ok h a b ka kb ka kb [] [] _ Ta Tb eq_refl eq_refl Hf) as (c & -> & Hc). exists c. split; [done|]. split.
    + intros E. apply Hc in E. apply set_eq. intros x. by rewrite Sa, Sb, !contents_nodes, E.
    + intros Na Nb ->. apply Hc, (nodes_of_unique h _ _ ka kb Ta Tb Na Nb). intros x. by rewrite <- Sa, <- Sb.
Qed.
