(* ===== verification/SparseRefine.v ===== *)
(** * Sparse bitsets are finite sets of numbers (src/util/sparse_bitset.h)

    A program with any number of sparse bitsets in one memory, against a program with finite
    sets. *)

From Stdlib Require Import ZArith Lia Sorted.
From stdpp Require Import base list gmap numbers option sets sorting.
From S2P Require Import Prelude FastDiv Rmq Worklist DenseBits RbTree RbInsert RbRemove RbQuery RbPayload SparseBitset SparseTree SparseOps SparseIter.
Local Open Scope Z_scope.

(** ** Programs *)

Inductive sparse_op :=
| Init (i : nat) (cap : Z) | AddBit (i : nat) (b : Z) | ClearBit (i : nat) (b : Z) | TestBit (i : nat) (b : Z)
| Merge (i j : nat) | Dup (i j : nat) | Count (i : nat) | ForeachSet (i : nat) | ClearAll (i : nat) | Free (i : nat).
Inductive sparse_result := Nothing | Answer (b : bool) | Number (n : Z) | Numbers (l : list Z).

Section programs.
Context (malloc : gset Z -> Z) (threshold : Z).

Definition sparse_step (op : sparse_op) (st : heap * gmap nat u_sparse_bitset) : option (heap * gmap nat u_sparse_bitset * sparse_result) :=
  let '(h, ss) := st in
  match op with
  | Init i cap => Some (h, <[i := init_with threshold cap]> ss, Nothing)
  | AddBit i b => s ← ss !! i; '(h, s) ← u_sparse_bitset_set malloc h s b; Some (h, <[i := s]> ss, Nothing)
  | ClearBit i b => s ← ss !! i; '(h, s) ← u_sparse_bitset_clear h s b; Some (h, <[i := s]> ss, Nothing)
  | TestBit i b => s ← ss !! i; r ← u_sparse_bitset_test h s b; Some (h, ss, Answer r)
  | Merge i j => s ← ss !! i; src ← ss !! j; '(h, s, c) ← u_sparse_bitset_merge malloc h s src; Some (h, <[i := s]> ss, Answer c)
  | Dup i j => src ← ss !! j; '(h, s) ← dup_with malloc threshold h src; Some (h, <[i := s]> ss, Nothing)
  | Count i => s ← ss !! i; n ← u_sparse_bitset_count h s; Some (h, ss, Number n)
  | ForeachSet i => s ← ss !! i; l ← U_SPARSE_BITSET_FOREACH_SET h s; Some (h, ss, Numbers l)
  | ClearAll i => s ← ss !! i; '(h, s) ← u_sparse_bitset_clear_all h s; Some (h, <[i := s]> ss, Nothing)
  | Free i => s ← ss !! i; '(h, _) ← u_sparse_bitset_free h s; Some (h, delete i ss, Nothing)
  end.

Fixpoint sparse_run (ops : list sparse_op) (st : heap * gmap nat u_sparse_bitset) : option (heap * gmap nat u_sparse_bitset * list sparse_result) :=
  match ops with
  | [] => Some (st, [])
  | op :: ops => '(st, r) ← sparse_step op st; '(st, rs) ← sparse_run ops st; Some (st, r :: rs)
  end.

(** ** The contract: a capacity, 0 for a large set, and a finite set *)

Definition effective_capacity (cap : Z) : Z := if negb (cap =? 0) && (cap <? threshold) then cap else 0.
Definition upper (cap : Z) : Z := if cap =? 0 then 2 ^ 32 else cap.
(** The numbers in increasing order; UINT_MAX is the end mark of the iteration. *)
Definition visited (X : gset Z) : list Z := merge_sort Z.le (elements (X ∖ {[UINT_MAX]})).

Definition spec_step (op : sparse_op) (sp : gmap nat (Z * gset Z)) : gmap nat (Z * gset Z) * sparse_result :=
  let at_set i (f : Z -> gset Z -> gmap nat (Z * gset Z) * sparse_result) := match sp !! i with Some (cap, X) => f cap X | None => (sp, Nothing) end in
  match op with
  | Init i cap => (<[i := (effective_capacity cap, ∅)]> sp, Nothing)
  | AddBit i b => at_set i (fun cap X => (<[i := (cap, {[b]} ∪ X)]> sp, Nothing))
  | ClearBit i b => at_set i (fun cap X => (<[i := (cap, X ∖ {[b]})]> sp, Nothing))
  | TestBit i b => at_set i (fun cap X => (sp, Answer (bool_decide (b ∈ X))))
  | Merge i j => at_set i (fun cap X => at_set j (fun _ Y => (<[i := (cap, X ∪ Y)]> sp, Answer (bool_decide (~ Y ⊆ X)))))
  | Dup i j => at_set j (fun cap Y => (<[i := (cap, Y)]> sp, Nothing))
  | Count i => at_set i (fun _ X => (sp, Number (u32 (Z.of_nat (size X)))))
  | ForeachSet i => at_set i (fun _ X => (sp, Numbers (visited X)))
  | ClearAll i => at_set i (fun cap _ => (<[i := (cap, ∅)]> sp, Nothing))
  | Free i => (delete i sp, Nothing)
  end.
Fixpoint spec_run (ops : list sparse_op) (sp : gmap nat (Z * gset Z)) : gmap nat (Z * gset Z) * list sparse_result :=
  match ops with
  | [] => (sp, [])
  | op :: ops => let '(sp, r) := spec_step op sp in let '(sp, rs) := spec_run ops sp in (sp, r :: rs)
  end.

(** What the caller must see to: sets are initialised before they are used and not twice, numbers are below the capacity, sets that
    are merged are different and have one capacity, and a small set is not counted. *)
Definition legal (op : sparse_op) (sp : gmap nat (Z * gset Z)) : Prop :=
  match op with
  | Init i cap => sp !! i = None /\ 0 <= cap < 2 ^ 32
  | AddBit i b | ClearBit i b | TestBit i b => match sp !! i with Some (cap, _) => 0 <= b < upper cap | None => False end
  | Merge i j => i <> j /\ match sp !! i, sp !! j with Some (cap, _), Some (cap', _) => cap = cap' | _, _ => False end
  | Dup i j => sp !! i = None /\ match sp !! j with Some _ => True | None => False end
  | Count i => match sp !! i with Some (cap, _) => cap = 0 | None => False end
  | ForeachSet i | ClearAll i | Free i => match sp !! i with Some _ => True | None => False end
  end.
Fixpoint legal_run (ops : list sparse_op) (sp : gmap nat (Z * gset Z)) : Prop :=
  match ops with
  | [] => True
  | op :: ops => legal op sp /\ legal_run ops (spec_step op sp).1
  end.

(** ** The invariant *)

(** [nodes i] are the nodes of set [i]; the rest of the memory is as in [h0]. *)
Record state_ok (h0 h : heap) (ss : gmap nat u_sparse_bitset) (sp : gmap nat (Z * gset Z)) (nodes : nat -> list Z) : Prop := {
  st_sets i : match ss !! i, sp !! i with
              | Some s, Some (cap, X) => capacity s = cap /\ set_ok h s (nodes i) X /\ (u_sparse_bitset_is_small s = true -> cap < threshold)
              | None, None => nodes i = []
              | _, _ => False
              end;
  st_disjoint i j : i <> j -> nodes i ## nodes j;
  st_fresh i a : a ∈ nodes i -> a ∉ dom h0;
  st_heap a : (forall i, a ∉ nodes i) -> h !! a = h0 !! a }.

Lemma st_some h0 h ss sp nodes i cap X : state_ok h0 h ss sp nodes -> sp !! i = Some (cap, X) ->
  exists s, ss !! i = Some s /\ capacity s = cap /\ set_ok h s (nodes i) X /\ (u_sparse_bitset_is_small s = true -> cap < threshold).
Proof. intros H E. pose proof (st_sets _ _ _ _ _ H i) as Hi. rewrite E in Hi. destruct (ss !! i) as [s|]; [|done]. by exists s. Qed.
Lemma st_none h0 h ss sp nodes i : state_ok h0 h ss sp nodes -> sp !! i = None -> ss !! i = None /\ nodes i = [].
Proof. intros H E. pose proof (st_sets _ _ _ _ _ H i) as Hi. rewrite E in Hi. by destruct (ss !! i). Qed.

(** Every change of one set *)
Lemma st_change h0 h h' ss sp nodes i l' n (ss' : gmap nat u_sparse_bitset) (sp' : gmap nat (Z * gset Z)) : state_ok h0 h ss sp nodes -> changes h h' (nodes i) l' n ->
  (forall j, j <> i -> ss' !! j = ss !! j /\ sp' !! j = sp !! j) ->
  (match ss' !! i, sp' !! i with
   | Some s, Some (cap, X) => capacity s = cap /\ set_ok h' s l' X /\ (u_sparse_bitset_is_small s = true -> cap < threshold)
   | None, None => l' = []
   | _, _ => False
   end) ->
  state_ok h0 h' ss' sp' (fun j => if decide (j = i) then l' else nodes j).
Proof.
  intros [S D F H] Hc Hother Hi. assert (Hsep : forall j, j <> i -> nodes j ## l').
  { intros j Hj a Ha [Hl|Hl]%(ch_new _ _ _ _ _ Hc); [by apply (D j i Hj a)|]. specialize (S j). destruct (ss !! j) as [s|], (sp !! j) as [[cap X]|]; try done; [|by rewrite S in Ha; apply not_elem_of_nil in Ha].
    destruct S as (_ & S & _). unfold set_ok in S. destruct (u_sparse_bitset_is_small s); [destruct S as [S _]; rewrite S in Ha; by apply not_elem_of_nil in Ha|].
    by apply Hl, (tree_ok_dom _ _ _ _ (lo_tree _ _ _ _ S)). }
  split.
  - intros j. case_decide as Ej; [by subst j|]. destruct (Hother j Ej) as [-> ->]. specialize (S j). destruct (ss !! j) as [s|], (sp !! j) as [[cap X]|]; try done.
    destruct S as (S1 & S2 & S3). split; [done|]. split; [|done]. apply (changes_other h h' (nodes i) l' n s (nodes j) X Hc S2). by apply D.
  - intros j k Hjk. destruct (decide (j = i)) as [->|Hj], (decide (k = i)) as [->|Hk]; [done| | |by apply D].
    + intros a Ha Hb. by apply (Hsep k Hk a).
    + by apply Hsep.
  - intros j a. case_decide as Ej; [|apply F]. intros [Ha|Ha]%(ch_new _ _ _ _ _ Hc); [by apply (F i)|].
    intros Ha0. apply Ha. apply elem_of_dom. rewrite H; [by apply elem_of_dom|]. intros k Hk. by apply (F k a).
  - intros a Ha. pose proof (Ha i) as Hai. rewrite decide_True in Hai by done. rewrite (ch_exact _ _ _ _ _ Hc a Hai). case_decide as Hin.
    + symmetry. apply not_elem_of_dom. by apply (F i).
    + apply H. intros j. destruct (decide (j = i)) as [->|Hj]; [done|]. specialize (Ha j). by rewrite decide_False in Ha.
Qed.
Lemma st_insert h0 h h' ss sp nodes i l' n s cap X : state_ok h0 h ss sp nodes -> changes h h' (nodes i) l' n -> capacity s = cap -> set_ok h' s l' X ->
  (u_sparse_bitset_is_small s = true -> cap < threshold) ->
  exists nodes', state_ok h0 h' (<[i := s]> ss) (<[i := (cap, X)]> sp) nodes'.
Proof.
  intros H Hc Ec Hs Ht. eexists. apply (st_change h0 h h' ss sp nodes i l' n); [done|done|intros j Hj; by rewrite !lookup_insert_ne|]. by rewrite !lookup_insert_eq.
Qed.

(** The nodes of a tree have different offsets. *)
Lemma tree_nodes h r l k : tree_ok h r l -> 2 ^ 32 <= 1024 * k -> Z.of_nat (length l) <= k.
Proof.
  intros Ht Hk. assert (Hle : (length (map (offset_of h) l) <= length (map (Z.mul 1024) (seqZ 0 k)))%nat).
  { apply submseteq_length, NoDup_submseteq; [exact (to_distinct _ _ _ Ht)|]. intros o (a & -> & Ha)%list_elem_of_fmap.
    destruct (to_nodes _ _ _ Ht a Ha) as (n & En & [Ho Hal _]). rewrite (offset_at h a n En). apply list_elem_of_fmap. exists (offset n / 1024).
    rewrite elem_of_seqZ. dlia. }
  rewrite !length_map, length_seqZ in Hle. lia.
Qed.
Lemma set_nodes h s l X : set_ok h s l X -> Z.of_nat (length l) <= 2 ^ 22.
Proof.
  unfold set_ok. destruct (u_sparse_bitset_is_small s); [intros [-> _]; done|]. intros [Ht _]. eapply tree_nodes; [exact Ht|lia].
Qed.

Lemma visited_unique X out : StronglySorted Z.lt out -> (forall b, b ∈ out <-> b ∈ X /\ b <> UINT_MAX) -> out = visited X.
Proof.
  intros Hs Hout. unfold visited. apply (StronglySorted_unique Z.le).
  - clear Hout. induction Hs as [|a l Hs IH Ha]; constructor; [done|]. eapply Forall_impl; [exact Ha|]. lia.
  - apply StronglySorted_merge_sort; apply _.
  - rewrite merge_sort_Permutation. apply NoDup_Permutation; [by apply numbers_nodup|apply NoDup_elements|]. intros b. rewrite Hout. set_solver.
Qed.

(** ** Every step *)

Lemma upper_range s b : 0 <= b < upper (capacity s) -> in_range s b.
Proof. unfold in_range, upper, u_sparse_bitset_is_small. by destruct (capacity s =? 0). Qed.

Context (limit : Z).
Context (malloc_fresh : forall D : gset Z, Z.of_nat (size D) < limit -> valid (malloc D) /\ malloc D ∉ D).

Lemma nat_fresh (D : gset Z) : (size D < Z.to_nat limit)%nat -> valid (malloc D) /\ malloc D ∉ D.
Proof using malloc_fresh. intros H. apply malloc_fresh. lia. Qed.

(** A step ends well: its result, the invariant, and the size of the memory. *)
Definition step_ends (h0 h : heap) (ss : gmap nat u_sparse_bitset) (sp : gmap nat (Z * gset Z)) (op : sparse_op) : Prop :=
  exists h' ss' nodes', sparse_step op (h, ss) = Some (h', ss', (spec_step op sp).2) /\ state_ok h0 h' ss' (spec_step op sp).1 nodes'
    /\ Z.of_nat (size (dom h')) <= Z.of_nat (size (dom h)) + 2 ^ 22.

Lemma changes_bound h h' l l' n : changes h h' l l' n -> Z.of_nat n <= 2 ^ 22 -> Z.of_nat (size (dom h')) <= Z.of_nat (size (dom h)) + 2 ^ 22.
Proof. intros [_ _ H] Hn. lia. Qed.

(** A step that changes one set *)
Lemma step_updates h0 h ss sp nodes op i h' s' l' n cap X r : state_ok h0 h ss sp nodes ->
  sparse_step op (h, ss) = Some (h', <[i := s']> ss, r) -> spec_step op sp = (<[i := (cap, X)]> sp, r) ->
  capacity s' = cap -> set_ok h' s' l' X -> (u_sparse_bitset_is_small s' = true -> cap < threshold) -> changes h h' (nodes i) l' n -> Z.of_nat n <= 2 ^ 22 ->
  step_ends h0 h ss sp op.
Proof.
  intros H E Es Ec Hs Ht Hc Hn. destruct (st_insert h0 h h' ss sp nodes i l' n s' cap X H Hc Ec Hs Ht) as [nodes' H']. exists h', (<[i := s']> ss), nodes'. rewrite Es.
  split; [done|]. split; [done|]. by apply (changes_bound _ _ _ _ n Hc).
Qed.
(** A step that only asks *)
Lemma step_asks h0 h ss sp nodes op r : state_ok h0 h ss sp nodes -> sparse_step op (h, ss) = Some (h, ss, r) -> spec_step op sp = (sp, r) -> step_ends h0 h ss sp op.
Proof. intros H E Es. exists h, ss, nodes. rewrite Es. split; [done|]. split; [done|]. lia. Qed.

Lemma same_small s s' : capacity s' = capacity s -> u_sparse_bitset_is_small s' = u_sparse_bitset_is_small s.
Proof. unfold u_sparse_bitset_is_small. by intros ->. Qed.

Lemma sparse_step_ok h0 h ss sp nodes op : state_ok h0 h ss sp nodes -> legal op sp -> Z.of_nat (size (dom h)) + 2 ^ 22 <= limit -> step_ends h0 h ss sp op.
Proof using malloc_fresh.
  intros H Hl Hlim. destruct op as [i cap|i b|i b|i b|i j|i j|i|i|i|i]; cbn [legal] in Hl.
  - destruct Hl as [Ei Hcap]. destruct (st_none _ _ _ _ _ _ H Ei) as [_ En]. eapply (step_updates _ _ _ _ nodes (Init i cap) i _ _ [] 0); [done|done|done|..].
    + unfold init_with, effective_capacity. by destruct (negb (cap =? 0) && (cap <? threshold)).
    + by apply sparse_init_ok.
    + unfold init_with, effective_capacity. destruct (negb (cap =? 0) && (cap <? threshold)) eqn:E; [|done]. intros _. apply andb_true_iff in E as [_ E]. by apply Z.ltb_lt.
    + rewrite En. apply changes_refl.
    + done.
  - destruct (sp !! i) as [[cap X]|] eqn:Ei; [|done]. rename Hl into Hb. destruct (st_some _ _ _ _ _ _ _ _ H Ei) as (s & Es & Ec & Hs & Ht). subst cap.
    destruct (add_ok malloc h s (nodes i) X b Hs (upper_range s b Hb)) as (h' & s' & l' & E & Ec' & Hs' & Hch). { intros _. apply malloc_fresh. lia. }
    eapply (step_updates _ _ _ _ nodes (AddBit i b) i h' s' l' 1); [done| | |exact Ec'|exact Hs'| |exact Hch|done].
    + cbn [sparse_step]. rewrite Es. cbn [mbind option_bind]. by rewrite E.
    + cbn [spec_step]. by rewrite Ei.
    + by rewrite (same_small _ _ Ec').
  - destruct (sp !! i) as [[cap X]|] eqn:Ei; [|done]. rename Hl into Hb. destruct (st_some _ _ _ _ _ _ _ _ H Ei) as (s & Es & Ec & Hs & Ht). subst cap.
    destruct (clear_ok h s (nodes i) X b Hs (upper_range s b Hb)) as (h' & s' & E & Ec' & Hs' & Hch).
    eapply (step_updates _ _ _ _ nodes (ClearBit i b) i h' s' (nodes i) 0); [done| | |exact Ec'|exact Hs'| |exact Hch|done].
    + cbn [sparse_step]. rewrite Es. cbn [mbind option_bind]. by rewrite E.
    + cbn [spec_step]. by rewrite Ei.
    + by rewrite (same_small _ _ Ec').
  - destruct (sp !! i) as [[cap X]|] eqn:Ei; [|done]. rename Hl into Hb. destruct (st_some _ _ _ _ _ _ _ _ H Ei) as (s & Es & Ec & Hs & Ht). subst cap.
    eapply (step_asks _ _ _ _ nodes); [done|cbn [sparse_step]; rewrite Es; cbn [mbind option_bind]; by rewrite (test_ok h s (nodes i) X b Hs (upper_range s b Hb))|].
    cbn [spec_step]. by rewrite Ei.
  - destruct Hl as [Hij Hl]. destruct (sp !! i) as [[cap X]|] eqn:Ei, (sp !! j) as [[cap' Y]|] eqn:Ej; try done. subst cap'. destruct (st_some _ _ _ _ _ _ _ _ H Ei) as (s & Es & Ec & Hs & Ht). destruct (st_some _ _ _ _ _ _ _ _ H Ej) as (src & Esrc & Ecsrc & Hsrc & _).
    pose proof (set_nodes _ _ _ _ Hsrc) as Hk. destruct (merge_ok malloc (Z.to_nat limit) nat_fresh h s (nodes i) X src (nodes j) Y Hs Hsrc) as (h' & s' & l' & E & Ec' & Hs' & Hch);
      [congruence|by apply (st_disjoint _ _ _ _ _ H)|lia|].
    eapply (step_updates _ _ _ _ nodes (Merge i j) i h' s' l' (length (nodes j))); [done| | | |exact Hs'| |exact Hch|done].
    + cbn [sparse_step]. rewrite Es. cbn [mbind option_bind]. rewrite Esrc. cbn [mbind option_bind]. by rewrite E.
    + cbn [spec_step]. by rewrite Ei, Ej.
    + congruence.
    + by rewrite (same_small _ _ Ec').
  - destruct Hl as [Ei Hl]. destruct (sp !! j) as [[cap Y]|] eqn:Ej; [|done]. destruct (st_none _ _ _ _ _ _ H Ei) as [_ En]. destruct (st_some _ _ _ _ _ _ _ _ H Ej) as (src & Esrc & Ec & Hs & Ht). subst cap.
    pose proof (set_nodes _ _ _ _ Hs) as Hk. destruct (dup_ok malloc (Z.to_nat limit) nat_fresh threshold h src (nodes j) Y Hs Ht) as (h' & s' & l' & E & Ec' & Hs' & Hch & _); [lia|].
    rewrite <- En in Hch. eapply (step_updates _ _ _ _ nodes (Dup i j) i h' s' l' (length (nodes j))); [done| | |exact Ec'|exact Hs'| |exact Hch|done].
    + cbn [sparse_step]. rewrite Esrc. cbn [mbind option_bind]. by rewrite E.
    + cbn [spec_step]. by rewrite Ej.
    + by rewrite (same_small _ _ Ec').
  - destruct (sp !! i) as [[cap X]|] eqn:Ei; [|done]. subst cap. destruct (st_some _ _ _ _ _ _ _ _ H Ei) as (s & Es & Ec & Hs & Ht). assert (Hsm : u_sparse_bitset_is_small s = false) by (unfold u_sparse_bitset_is_small; by rewrite Ec).
    eapply (step_asks _ _ _ _ nodes); [done|cbn [sparse_step]; rewrite Es; cbn [mbind option_bind]; by rewrite (count_ok h s (nodes i) X Hs Hsm)|]. cbn [spec_step]. by rewrite Ei.
  - destruct (sp !! i) as [[cap X]|] eqn:Ei; [|done]. destruct (st_some _ _ _ _ _ _ _ _ H Ei) as (s & Es & Ec & Hs & Ht). destruct (foreach_set_ok h s (nodes i) X Hs) as (out & E & Hsort & Hout).
    eapply (step_asks _ _ _ _ nodes); [done|cbn [sparse_step]; rewrite Es; cbn [mbind option_bind]; by rewrite E|]. cbn [spec_step]. rewrite Ei. by rewrite (visited_unique X out Hsort Hout).
  - destruct (sp !! i) as [[cap X]|] eqn:Ei; [|done]. destruct (st_some _ _ _ _ _ _ _ _ H Ei) as (s & Es & Ec & Hs & Ht). subst cap. destruct (clear_all_ok h s (nodes i) X Hs) as (h' & s' & E & Ec' & Hs' & Hch).
    eapply (step_updates _ _ _ _ nodes (ClearAll i) i h' s' [] 0); [done| | |exact Ec'|exact Hs'| |exact Hch|done].
    + cbn [sparse_step]. rewrite Es. cbn [mbind option_bind]. by rewrite E.
    + cbn [spec_step]. by rewrite Ei.
    + by rewrite (same_small _ _ Ec').
  - destruct (sp !! i) as [[cap X]|] eqn:Ei; [|done]. destruct (st_some _ _ _ _ _ _ _ _ H Ei) as (s & Es & Ec & Hs & Ht). destruct (free_ok h s (nodes i) X Hs) as (h' & s' & E & _ & Hch).
    exists h', (delete i ss), (fun j => if decide (j = i) then [] else nodes j). cbn [sparse_step spec_step fst snd]. rewrite Es. cbn [mbind option_bind]. rewrite E. split; [done|].
    split; [|by apply (changes_bound _ _ _ _ 0 Hch)]. apply (st_change h0 h h' ss sp nodes i [] 0); [done|done|intros j Hj; by rewrite !lookup_delete_ne|]. by rewrite !lookup_delete_eq.
Qed.

Lemma sparse_run_ok ops : forall h0 h ss sp nodes, state_ok h0 h ss sp nodes -> legal_run ops sp -> Z.of_nat (size (dom h)) + 2 ^ 22 * Z.of_nat (length ops) <= limit ->
  exists h' ss' nodes', sparse_run ops (h, ss) = Some (h', ss', (spec_run ops sp).2) /\ state_ok h0 h' ss' (spec_run ops sp).1 nodes'.
Proof using malloc_fresh.
  induction ops as [|op ops IH]; intros h0 h ss sp nodes H Hl Hlim; cbn [sparse_run spec_run legal_run length] in *; [by exists h, ss, nodes|].
  destruct Hl as [Hop Hl]. destruct (sparse_step_ok h0 h ss sp nodes op H Hop ltac:(lia)) as (h1 & ss1 & nodes1 & E & H1 & Hsize). rewrite E. cbn [mbind option_bind].
  destruct (spec_step op sp) as [sp1 r] eqn:Esp. cbn [fst snd] in *. destruct (IH h0 h1 ss1 sp1 nodes1 H1 Hl ltac:(lia)) as (h' & ss' & nodes' & E' & H'). rewrite E'. cbn [mbind option_bind].
  destruct (spec_run ops sp1) as [sp2 rs] eqn:Esp2. cbn [fst snd] in *. by exists h', ss', nodes'.
Qed.
End programs.

(** ** The theorem *)

(** C11: Sparse bitsets are finite sets of numbers.  Any program with any number of sparse bitsets in one memory
    (initialising, setting, clearing and testing numbers, uniting two sets, copying, counting,
    iterating, clearing and freeing) that respects the asserted preconditions runs to its end, whatever addresses the
    allocator hands out, without a failed assertion or a bad access, and every
    result is that of the same program on finite sets: tests, the counts, the flag that says whether a union added
    something, and the numbers that [U_SPARSE_BITSET_FOREACH_SET] visits, in increasing order (UINT_MAX, the mark for the end, is
    left out).  The rest of the memory is not written, and when no set is left the memory is as it was at the start: no node is lost.
    This holds for every threshold of the small-set representation. *)
Theorem u_sparse_bitset_refines (malloc : gset Z -> Z) (threshold limit : Z) (h0 : heap) (ops : list sparse_op)
    (malloc_fresh : forall D : gset Z, Z.of_nat (size D) < limit -> valid (malloc D) /\ malloc D ∉ D)
    (Hlegal : legal_run threshold ops ∅) (Hroom : Z.of_nat (size (dom h0)) + 2 ^ 22 * Z.of_nat (length ops) <= limit) :
  exists h ss, sparse_run malloc threshold ops (h0, ∅) = Some (h, ss, (spec_run threshold ops ∅).2)
    /\ (forall i, is_Some (ss !! i) <-> is_Some ((spec_run threshold ops ∅).1 !! i))
    /\ (forall a n, h0 !! a = Some n -> h !! a = Some n)
    /\ ((spec_run threshold ops ∅).1 = ∅ -> h = h0).
Proof.
  assert (Hinit : state_ok threshold h0 h0 ∅ ∅ (fun _ => [])).
  { split; [intros i; by rewrite !lookup_empty|by intros i j _ a ?%not_elem_of_nil|by intros i a ?%not_elem_of_nil|done]. }
  destruct (sparse_run_ok malloc threshold limit malloc_fresh ops h0 h0 ∅ ∅ _ Hinit Hlegal Hroom) as (h & ss & nodes & E & [S D F H]).
  exists h, ss. split; [done|]. split; [|split].
  - intros i. specialize (S i). destruct (ss !! i), ((spec_run threshold ops ∅).1 !! i) as [[? ?]|]; try done; split; by intros [? ?].
  - intros a n Ha. rewrite H; [done|]. intros i Hi. apply (F i a Hi), elem_of_dom. eauto.
  - intros Esp. apply map_eq. intros a. apply H. intros i. specialize (S i). rewrite Esp, lookup_empty in S. destruct (ss !! i); [done|]. rewrite S. apply not_elem_of_nil.
Qed.

(** ** A program *)

(** An allocator that gives the first free multiple of 16. *)
Definition first_free (limit : Z) (D : gset Z) : Z := hd 0 (filter (fun a => a ∉ D) (map (Z.mul 16) (seqZ 1 limit))).
Lemma first_free_ok limit D : limit < 2 ^ 59 -> Z.of_nat (size D) < limit -> valid (first_free limit D) /\ first_free limit D ∉ D.
Proof.
  intros Hl HD. unfold first_free. destruct (filter (fun a => a ∉ D) (map (Z.mul 16) (seqZ 1 limit))) as [|a l] eqn:E.
  - exfalso. assert (Hsub : list_to_set (map (Z.mul 16) (seqZ 1 limit)) ⊆ D).
    { intros b Hb. apply elem_of_list_to_set in Hb. destruct (decide (b ∈ D)) as [|Hn]; [done|].
      assert (Hf : b ∈ filter (fun a => a ∉ D) (map (Z.mul 16) (seqZ 1 limit))) by (by apply list_elem_of_filter). rewrite E in Hf. by apply not_elem_of_nil in Hf. }
    apply subseteq_size in Hsub. rewrite size_list_to_set, length_map, length_seqZ in Hsub; [lia|]. apply NoDup_fmap_2; [intros x y; lia|apply NoDup_seqZ].
  - assert (Ha : a ∈ filter (fun a => a ∉ D) (map (Z.mul 16) (seqZ 1 limit))) by (rewrite E; set_solver). apply list_elem_of_filter in Ha as [Hn (x & -> & Hx)%list_elem_of_fmap].
    apply elem_of_seqZ in Hx. cbn [hd]. split; [|done]. split; [lia|]. rewrite Z.even_mul. done.
Qed.

Definition sample_program : list sparse_op :=
  [Init 0 100; AddBit 0 65535; AddBit 0 7; AddBit 0 UINT_MAX; Dup 1 0; ClearBit 0 7; TestBit 0 7; Merge 0 1; Merge 0 1; ForeachSet 0; Count 0; ClearAll 1; TestBit 1 65535; Free 0; Free 1].

Lemma u_sparse_bitset_refines_witness :
  exists h ss, sparse_run (first_free (2 ^ 26)) 0 sample_program (∅, ∅)
      = Some (h, ss, [Nothing; Nothing; Nothing; Nothing; Nothing; Nothing; Answer false; Answer true; Answer false; Numbers [7; 65535]; Number 3; Nothing; Answer false; Nothing; Nothing])
    /\ (forall i, is_Some (ss !! i) <-> is_Some ((∅ : gmap nat (Z * gset Z)) !! i)) /\ (forall a n, (∅ : heap) !! a = Some n -> h !! a = Some n)
    /\ ((∅ : gmap nat (Z * gset Z)) = ∅ -> h = ∅).
Proof.
  assert (E : spec_run 0 sample_program ∅
    = (∅, [Nothing; Nothing; Nothing; Nothing; Nothing; Nothing; Answer false; Answer true; Answer false; Numbers [7; 65535]; Number 3; Nothing; Answer false; Nothing; Nothing]))
    by (vm_compute; reflexivity).
  pose proof (u_sparse_bitset_refines (first_free (2 ^ 26)) 0 (2 ^ 26) ∅ sample_program) as H. rewrite E in H. cbn [fst snd] in H. apply H.
  - intros D HD. apply first_free_ok; [lia|done].
  - vm_compute. repeat split; discriminate.
  - vm_compute. discriminate.
Defined.

(** Counting a small set of more than one number fails: it reads behind the end of the array. *)
Lemma u_sparse_bitset_count_small h s X : small_ok s X -> 1 < capacity s < 2 ^ 27 -> u_sparse_bitset_count h s = None.
Proof.
  intros HX Hc. unfold u_sparse_bitset_count, u_sparse_bitset_is_small. destruct (Z.eqb_spec (capacity s) 0); [lia|]. cbn [negb].
  apply prefix_sum_outside; try lia; [unfold UINT32_MAX; lia|]. rewrite (wo_length _ _ (so_words _ _ HX)). unfold BITSET_WORDS. dlia.
Qed.

(** After a number has been set and cleared the set is empty, but compares as different from an empty
    set. *)
Lemma u_sparse_bitset_cmp_empty_node :
  ('(h, a) ← u_sparse_bitset_set (first_free 8) ∅ (u_sparse_bitset_init 100) 5;
   '(h, a) ← u_sparse_bitset_clear h a 5;
   l ← U_SPARSE_BITSET_FOREACH_SET h a;
   c ← u_sparse_bitset_cmp h a (u_sparse_bitset_init 100);
   Some (l, c)) = Some ([], 1).
Proof. vm_compute. reflexivity. Qed.
