(* ===== verification/Ralloc.v ===== *)
(** * The hierarchical allocator (src/util/ralloc.c)

    Every allocation has a header in front of it, with links to its parent (the context it
    belongs to), its first child and its siblings.  Freeing a block frees everything below
    it.  The blocks live in a heap, a map from the address of the header; a pointer given
    to a client is the address after the header, 0 is NULL, and reading or writing a
    block that is not there, or bytes outside of it, has no result, like a failed
    assertion.

    What malloc and realloc return is an argument: a [chunk], whose address is 0 when
    the allocation fails, with the bytes that happen to be there.  Destructors are code
    of the clients; that one is called is an [event].  The sizes are those of a 64-bit
    machine, with assertions enabled. *)

From Stdlib Require Import ZArith Lia.
From stdpp Require Import base list gmap numbers option sets.
From S2P Require Import Prelude.
Local Open Scope Z_scope.

Definition CANARY : Z := 0x5A1106.
Definition HEADER_ALIGN : Z := 16.
(** [sizeof(ralloc_header)] *)
Definition HEADER_SIZE : Z := 48.

Record ralloc_header := Header {
  r_canary : Z; r_size : Z; r_parent : Z; r_child : Z; r_prev : Z; r_next : Z; r_destructor : Z;
  r_data : list Z (* the bytes after the header *)
}.
Notation heap := (gmap Z ralloc_header).

Record chunk := Chunk { addr : Z; fill : list Z }.
Inductive event := Destroy (destructor ptr : Z) | Release (info : Z).

(** ** Fields *)

Definition set_tag (size : Z) (b : ralloc_header) : ralloc_header :=
  Header CANARY size (r_parent b) (r_child b) (r_prev b) (r_next b) (r_destructor b) (r_data b).
Definition set_parent (p : Z) (b : ralloc_header) : ralloc_header :=
  Header (r_canary b) (r_size b) p (r_child b) (r_prev b) (r_next b) (r_destructor b) (r_data b).
Definition set_child (p : Z) (b : ralloc_header) : ralloc_header :=
  Header (r_canary b) (r_size b) (r_parent b) p (r_prev b) (r_next b) (r_destructor b) (r_data b).
Definition set_prev (p : Z) (b : ralloc_header) : ralloc_header :=
  Header (r_canary b) (r_size b) (r_parent b) (r_child b) p (r_next b) (r_destructor b) (r_data b).
Definition set_next (p : Z) (b : ralloc_header) : ralloc_header :=
  Header (r_canary b) (r_size b) (r_parent b) (r_child b) (r_prev b) p (r_destructor b) (r_data b).
Definition set_destructor (f : Z) (b : ralloc_header) : ralloc_header :=
  Header (r_canary b) (r_size b) (r_parent b) (r_child b) (r_prev b) (r_next b) f (r_data b).
Definition set_data (l : list Z) (b : ralloc_header) : ralloc_header :=
  Header (r_canary b) (r_size b) (r_parent b) (r_child b) (r_prev b) (r_next b) (r_destructor b) l.

Definition store (h : heap) (a : Z) (f : ralloc_header -> ralloc_header) : option heap :=
  b ← h !! a; Some (<[a := f b]> h).

Definition get_header (h : heap) (ptr : Z) : option Z :=
  let info := ptr - HEADER_SIZE in
  b ← h !! info; assert! r_canary b =? CANARY ;; Some info.
Definition PTR_FROM_HEADER (info : Z) : Z := info + HEADER_SIZE.
(** [ctx != NULL ? get_header(ctx) : NULL] *)
Definition get_header_or_null (h : heap) (ctx : Z) : option Z := if ctx =? 0 then Some 0 else get_header h ctx.

Definition fuel_of (h : heap) : nat := S (base.size h).

(** ** Linking *)

Definition add_child (h : heap) (parent info : Z) : option heap :=
  if parent =? 0 then Some h
  else
    h ← store h info (set_parent parent);
    p ← h !! parent;
    h ← store h info (set_next (r_child p));
    h ← store h parent (set_child info);
    i ← h !! info;
    if r_next i =? 0 then Some h else store h (r_next i) (set_prev info).

Definition unlink_block (h : heap) (info : Z) : option heap :=
  i ← h !! info;
  h ← (if r_parent i =? 0 then Some h
       else
         p ← h !! r_parent i;
         h ← (if r_child p =? info then store h (r_parent i) (set_child (r_next i)) else Some h);
         h ← (if r_prev i =? 0 then Some h else store h (r_prev i) (set_next (r_next i)));
         if r_next i =? 0 then Some h else store h (r_next i) (set_prev (r_prev i)));
  h ← store h info (set_parent 0);
  h ← store h info (set_prev 0);
  store h info (set_next 0).

(** ** Allocation *)

Definition block_size (size : Z) : option Z := align64 (u64 (size + HEADER_SIZE)) HEADER_ALIGN.

Definition ralloc_size (h : heap) (r : chunk) (ctx size : Z) : option (heap * Z) :=
  n ← block_size size;
  let info := addr r in
  if info =? 0 then Some (h, 0)
  else
    assert! HEADER_SIZE <=? n ;;
    let h := <[info := Header 0 0 0 0 0 0 0 (resize (Z.to_nat (n - HEADER_SIZE)) 0 (fill r))]> h in
    parent ← get_header_or_null h ctx;
    h ← add_child h parent info;
    h ← store h info (set_tag (u32 size));
    Some (h, PTR_FROM_HEADER info).
Definition ralloc_context (h : heap) (r : chunk) (ctx : Z) : option (heap * Z) := ralloc_size h r ctx 0.

(** [memcpy] and [memset] into a block *)
Definition write_bytes (h : heap) (ptr offset : Z) (bytes : list Z) : option heap :=
  let info := ptr - HEADER_SIZE in
  b ← h !! info;
  assert! (0 <=? offset) && (offset + Z.of_nat (length bytes) <=? Z.of_nat (length (r_data b))) ;;
  store h info (set_data (take (Z.to_nat offset) (r_data b) ++ bytes
                          ++ drop (Z.to_nat offset + length bytes) (r_data b))).

Definition rzalloc_size (h : heap) (r : chunk) (ctx size : Z) : option (heap * Z) :=
  '(h, ptr) ← ralloc_size h r ctx size;
  if ptr =? 0 then Some (h, 0)
  else h ← write_bytes h ptr 0 (replicate (Z.to_nat size) 0); Some (h, ptr).

(** ** Reallocation *)

(** [for (child = ...; child != NULL; child = child->next) child->parent = info;] *)
Fixpoint reparent_loop (fuel : nat) (h : heap) (info child : Z) : option heap :=
  match fuel with
  | O => None
  | S fuel =>
      if child =? 0 then Some h
      else h ← store h child (set_parent info); b ← h !! child; reparent_loop fuel h info (r_next b)
  end.

(** [realloc]: the old bytes are kept as far as they fit. *)
Definition realloc_block (h : heap) (r : chunk) (old n : Z) : option heap :=
  assert! HEADER_SIZE <=? n ;;
  b ← h !! old;
  let k := Z.to_nat (n - HEADER_SIZE) in
  Some (<[addr r := set_data (take k (r_data b ++ drop (length (r_data b)) (resize k 0 (fill r)))) b]> (delete old h)).

Definition ralloc_resize (h : heap) (r : chunk) (ptr size : Z) : option (heap * Z) :=
  old ← get_header h ptr;
  n ← block_size size;
  let info := addr r in
  if info =? 0 then Some (h, 0)
  else
    h ← realloc_block h r old n;
    i ← h !! info;
    h ← (if negb (info =? old) && negb (r_parent i =? 0) then
           p ← h !! r_parent i;
           h ← (if r_child p =? old then store h (r_parent i) (set_child info) else Some h);
           h ← (if r_prev i =? 0 then Some h else store h (r_prev i) (set_next info));
           if r_next i =? 0 then Some h else store h (r_next i) (set_prev info)
         else Some h);
    i ← h !! info;
    h ← reparent_loop (fuel_of h) h info (r_child i);
    Some (h, PTR_FROM_HEADER info).

Definition ralloc_parent (h : heap) (ptr : Z) : option Z :=
  if ptr =? 0 then Some 0
  else
    info ← get_header h ptr;
    i ← h !! info;
    Some (if r_parent i =? 0 then 0 else PTR_FROM_HEADER (r_parent i)).

Definition reralloc_size (h : heap) (r : chunk) (ctx ptr size : Z) : option (heap * Z) :=
  if ptr =? 0 then ralloc_size h r ctx size
  else
    p ← ralloc_parent h ptr;
    assert! p =? ctx ;;
    ralloc_resize h r ptr size.

Definition rerzalloc_size (h : heap) (r : chunk) (ctx ptr old_size new_size : Z) : option (heap * Z) :=
  if ptr =? 0 then rzalloc_size h r ctx new_size
  else
    p ← ralloc_parent h ptr;
    assert! p =? ctx ;;
    '(h, ptr) ← ralloc_resize h r ptr new_size;
    h ← (if new_size >? old_size then write_bytes h ptr old_size (replicate (Z.to_nat (new_size - old_size)) 0) else Some h);
    Some (h, ptr).

(** ** Arrays: [count > SIZE_MAX/size] *)

Definition array_size (size count : Z) : option (option Z) :=
  assert! negb (size =? 0) ;;
  Some (if count >? UINT64_MAX / size then None else Some (u64 (size * count))).
Definition array_call (h : heap) (size count : Z) (alloc : Z -> option (heap * Z)) : option (heap * Z) :=
  n ← array_size size count;
  match n with None => Some (h, 0) | Some n => alloc n end.

Definition ralloc_array_size (h : heap) (r : chunk) (ctx size count : Z) : option (heap * Z) :=
  array_call h size count (ralloc_size h r ctx).
Definition rzalloc_array_size (h : heap) (r : chunk) (ctx size count : Z) : option (heap * Z) :=
  array_call h size count (rzalloc_size h r ctx).
Definition reralloc_array_size (h : heap) (r : chunk) (ctx ptr size count : Z) : option (heap * Z) :=
  array_call h size count (reralloc_size h r ctx ptr).
Definition rerzalloc_array_size (h : heap) (r : chunk) (ctx ptr size old_count new_count : Z) : option (heap * Z) :=
  array_call h size new_count (rerzalloc_size h r ctx ptr (u64 (size * old_count))).

(** ** Freeing *)

(** A call for [info], or the rest of it after some children were freed. *)
Fixpoint unsafe_free (fuel : nat) (h : heap) (log : list event) (info : Z) : option (heap * list event) :=
  match fuel with
  | O => None
  | S fuel =>
      i ← h !! info;
      if r_child i =? 0 then
        let log := if r_destructor i =? 0 then log else log ++ [Destroy (r_destructor i) (PTR_FROM_HEADER info)] in
        Some (delete info h, log ++ [Release info])
      else
        let temp := r_child i in
        t ← h !! temp;
        h ← store h info (set_child (r_next t));
        '(h, log) ← unsafe_free fuel h log temp;
        unsafe_free fuel h log info
  end.

Definition ralloc_free (h : heap) (ptr : Z) : option (heap * list event) :=
  if ptr =? 0 then Some (h, [])
  else
    info ← get_header h ptr;
    h ← unlink_block h info;
    unsafe_free (fuel_of h) h [] info.

(** [while (it != NULL) { sum += ...(it); it = it->next; }], [total] being the recursive call *)
Fixpoint total_loop (total : Z -> option Z) (fuel : nat) (h : heap) (it sum : Z) : option Z :=
  match fuel with
  | O => None
  | S fuel =>
      if it =? 0 then Some sum
      else s ← total it; t ← h !! it; total_loop total fuel h (r_next t) (u32 (sum + s))
  end.
Fixpoint ralloc_total_size_internal (fuel : nat) (h : heap) (info : Z) : option Z :=
  match fuel with
  | O => None
  | S fuel =>
      i ← h !! info;
      n ← align64 (u64 (r_size i + HEADER_SIZE)) HEADER_ALIGN;
      total_loop (ralloc_total_size_internal fuel h) (fuel_of h) h (r_child i) (u32 n)
  end.
Definition ralloc_total_size (h : heap) (ptr : Z) : option Z :=
  info ← get_header h ptr; ralloc_total_size_internal (fuel_of h) h info.

(** ** Moving blocks to another context *)

Definition ralloc_steal (h : heap) (new_ctx ptr : Z) : option heap :=
  if ptr =? 0 then Some h
  else
    info ← get_header h ptr;
    parent ← get_header_or_null h new_ctx;
    h ← unlink_block h info;
    add_child h parent info.

(** The loop over the children: the last one. *)
Fixpoint adopt_loop (fuel : nat) (h : heap) (new_info child : Z) : option (heap * Z) :=
  match fuel with
  | O => None
  | S fuel =>
      b ← h !! child;
      if r_next b =? 0 then Some (h, child)
      else h ← store h child (set_parent new_info); adopt_loop fuel h new_info (r_next b)
  end.

Definition ralloc_adopt (h : heap) (new_ctx old_ctx : Z) : option heap :=
  if old_ctx =? 0 then Some h
  else
    old_info ← get_header h old_ctx;
    new_info ← get_header h new_ctx;
    o ← h !! old_info;
    if r_child o =? 0 then Some h
    else
      '(h, child) ← adopt_loop (fuel_of h) h new_info (r_child o);
      h ← store h child (set_parent new_info);
      n ← h !! new_info;
      h ← store h child (set_next (r_child n));
      h ← (if r_child n =? 0 then Some h else store h (r_child n) (set_prev child));
      o ← h !! old_info;
      h ← store h new_info (set_child (r_child o));
      store h old_info (set_child 0).

Definition ralloc_set_destructor (h : heap) (ptr destructor : Z) : option heap :=
  info ← get_header h ptr; store h info (set_destructor destructor).

(** * The forest of blocks

    A forest gives the children of every block, the first one first. *)

Notation forest := (gmap Z (list Z)).
Implicit Types (h : heap) (F : forest) (a c p x y : Z) (l : list Z).

Definition child_of F c a : Prop := exists l, F !! a = Some l /\ c ∈ l.
Definition root F a : Prop := forall p l, F !! p = Some l -> a ∉ l.
(** [c] is [a] or below [a]. *)
Definition desc F a c : Prop := rtc (fun x y => child_of F y x) a c.

Record wf F : Prop := {
  wf_pos a : a ∈ dom F -> 0 < a;
  wf_dom p l c : F !! p = Some l -> c ∈ l -> c ∈ dom F;
  wf_nodup p l : F !! p = Some l -> NoDup l;
  wf_unique p1 p2 c : child_of F c p1 -> child_of F c p2 -> p1 = p2;
  wf_acc a : Acc (child_of F) a
}.

(** What the operations do to the forest. *)
Definition detach F a : forest := filter (fun c => c <> a) <$> F.
Definition push F p a : forest := if p =? 0 then F else alter (cons a) p F.

(** ** Facts about forests *)

Lemma lookup_detach F a p : detach F a !! p = filter (fun c => c <> a) <$> F !! p.
Proof. apply lookup_fmap. Qed.
Lemma detach_child F a c p : child_of (detach F a) c p <-> child_of F c p /\ c <> a.
Proof.
  unfold child_of. rewrite lookup_detach. split.
  - intros (l & (l' & E & ->)%fmap_Some & [H1 H2]%list_elem_of_filter). split; [by exists l'|done].
  - intros [(l & E & Hc) Hne]. exists (filter (fun c => c <> a) l). split; [by rewrite E|]. by apply list_elem_of_filter.
Qed.
Lemma dom_detach F a : dom (detach F a) = dom F.
Proof. apply dom_fmap_L. Qed.
Lemma detach_root F a : root (detach F a) a.
Proof. intros p l E Ha. destruct (proj1 (detach_child F a a p)) as [_ H]; [by exists l|done]. Qed.

Lemma filter_same l a : a ∉ l -> filter (fun c => c <> a) l = l.
Proof.
  induction l as [|c l IH]; intros Ha; [done|]. rewrite filter_cons_True by set_solver. f_equal. apply IH. set_solver.
Qed.
Lemma filter_split l1 a l2 : NoDup (l1 ++ a :: l2) -> filter (fun c => c <> a) (l1 ++ a :: l2) = l1 ++ l2.
Proof.
  intros (_ & H1 & [H2 _]%NoDup_cons)%NoDup_app. rewrite filter_app, filter_cons_False by (intros []; done).
  rewrite !filter_same; [done|done|]. intros Hin. apply (H1 a Hin). set_solver.
Qed.

Lemma root_dec F a : root F a \/ exists p l1 l2, F !! p = Some (l1 ++ a :: l2).
Proof.
  destruct (decide (map_Forall (fun _ l => a ∉ l) F)) as [H|H].
  - left. intros p l E. exact (H p l E).
  - right. apply map_not_Forall in H as (p & l & E & Ha); [|apply _]. apply dec_stable in Ha.
    apply list_elem_of_split in Ha as (l1 & l2 & ->). eauto.
Qed.

Lemma wf_detach F a : wf F -> wf (detach F a).
Proof.
  intros H. split.
  - intros b. rewrite dom_detach. apply H.
  - intros p l c E Hc. rewrite dom_detach. destruct (proj1 (detach_child F a c p)) as [(l' & E' & Hc') _]; [by exists l|]. by eapply wf_dom.
  - intros p l. rewrite lookup_detach. intros (l' & E & ->)%fmap_Some. apply NoDup_filter. by eapply wf_nodup.
  - intros p1 p2 c [H1 _]%detach_child [H2 _]%detach_child. by eapply wf_unique.
  - intros b. pose proof (wf_acc F H b) as Hb. induction Hb as [b _ IH]. constructor. intros c [Hc _]%detach_child. by apply IH.
Qed.

(** Nothing is its own ancestor. *)
Lemma wf_acyclic F a c : wf F -> child_of F c a -> ~ desc F c a.
Proof.
  intros H. pose proof (wf_acc F H a) as Ha. revert c. induction Ha as [a _ IH]. intros c Hc Hd.
  destruct (rtc_inv _ _ Hd) as [->|(b & Hb & Hba)]; [by apply (IH a Hc a Hc), rtc_refl|].
  apply (IH c Hc b Hb). by eapply rtc_r.
Qed.

Lemma lookup_push F p a q : p <> 0 -> push F p a !! q = if decide (q = p) then cons a <$> F !! p else F !! q.
Proof.
  intros Hp. unfold push. destruct (Z.eqb_spec p 0); [done|]. destruct (decide (q = p)) as [->|]; [apply lookup_alter_eq|by apply lookup_alter_ne].
Qed.
Lemma dom_push F p a : dom (push F p a) = dom F.
Proof. unfold push. destruct (p =? 0); [done|apply dom_alter_L]. Qed.
Lemma push_child F p a c q : p <> 0 -> p ∈ dom F -> child_of (push F p a) c q <-> child_of F c q \/ c = a /\ q = p.
Proof.
  intros Hp [lp Ep]%elem_of_dom. unfold child_of. rewrite lookup_push by done. case_decide as E.
  - subst q. rewrite Ep. cbn. split.
    + intros (l & [= <-] & [->|Hc]%elem_of_cons); [by right|left; eauto].
    + intros [(l & [= <-] & Hc)|[-> _]]; (eexists; split; [done|]); set_solver.
  - naive_solver.
Qed.

Lemma wf_push F p a : wf F -> a ∈ dom F -> p ∈ dom F -> root F a -> ~ desc F a p -> wf (push F p a).
Proof.
  intros H Ha Hp Hr Hd. assert (Hp0 : p <> 0) by (pose proof (wf_pos F H p Hp); lia). split.
  - intros b. rewrite dom_push. apply H.
  - intros q l c E Hc. rewrite dom_push. destruct (proj1 (push_child F p a c q Hp0 Hp)) as [(l' & E' & Hc')|[-> _]]; [by exists l|by eapply wf_dom|done].
  - intros q l. rewrite lookup_push by done. case_decide; [|by eapply wf_nodup]. intros (l' & E & ->)%fmap_Some.
    constructor; [by eapply Hr|by eapply wf_nodup].
  - intros q1 q2 c. rewrite !push_child by done. intros [H1|[-> ->]] [H2|[? ->]]; [by eapply wf_unique| | |done]; subst.
    + destruct H1 as (l & E & Hc). by apply Hr in E.
    + destruct H2 as (l & E & Hc). by apply Hr in E.
  - assert (Hin : forall b, desc F a b -> Acc (child_of (push F p a)) b).
    { intros b Hb. pose proof (wf_acc F H b) as Hacc. induction Hacc as [b _ IH]. constructor. intros c [Hc|[-> ->]]%push_child; [|done..].
      apply IH; [done|]. by eapply rtc_r. }
    intros b. pose proof (wf_acc F H b) as Hacc. induction Hacc as [b _ IH]. constructor. intros c [Hc|[-> ->]]%push_child; [|apply Hin, rtc_refl|done..].
    by apply IH.
Qed.

(** ** Fields of the blocks *)

Definition fld (f : ralloc_header -> Z) h a : Z := match h !! a with Some b => f b | None => 0 end.
Definition sib h a : Z * Z * Z := (fld r_parent h a, fld r_prev h a, fld r_next h a).
Definition payload (b : ralloc_header) : Z * Z * Z * list Z := (r_canary b, r_size b, r_destructor b, r_data b).
(** The operations on links change neither contents nor destructors. *)
Definition same_payload h h' : Prop := forall a, payload <$> h' !! a = payload <$> h !! a.

Lemma store_alter h a f : a ∈ dom h -> store h a f = Some (alter f a h).
Proof.
  intros [b E]%elem_of_dom. unfold store. rewrite E. cbn [mbind option_bind]. f_equal. apply map_eq. intros x.
  destruct (decide (x = a)) as [->|]; [by rewrite lookup_insert_eq, lookup_alter_eq, E|by rewrite lookup_insert_ne, lookup_alter_ne].
Qed.
Lemma lookup_fld h a : a ∈ dom h -> exists b, h !! a = Some b /\ forall f, f b = fld f h a.
Proof. intros [b E]%elem_of_dom. exists b. split; [done|]. intros f. unfold fld. by rewrite E. Qed.
Lemma fld_alter_ne f g a x h : x <> a -> fld f (alter g a h) x = fld f h x.
Proof. intros Hx. unfold fld. by rewrite lookup_alter_ne. Qed.
Lemma fld_alter_same f g a x h : (forall b, f (g b) = f b) -> fld f (alter g a h) x = fld f h x.
Proof.
  intros Hf. unfold fld. destruct (decide (x = a)) as [->|]; [|by rewrite lookup_alter_ne]. rewrite lookup_alter_eq. destruct (h !! a); cbn; auto.
Qed.
Lemma fld_alter f g v a x h : a ∈ dom h -> (forall b, f (g b) = v) -> fld f (alter g a h) x = if decide (x = a) then v else fld f h x.
Proof.
  intros [b E]%elem_of_dom Hf. case_decide as Ex; [|by apply fld_alter_ne]. subst x. unfold fld. rewrite lookup_alter_eq, E. cbn. auto.
Qed.
Lemma payload_alter g a h : (forall b, payload (g b) = payload b) -> same_payload h (alter g a h).
Proof.
  intros Hg x. destruct (decide (x = a)) as [->|]; [|by rewrite lookup_alter_ne]. rewrite lookup_alter_eq. destruct (h !! a); cbn; [by rewrite Hg|done].
Qed.
Lemma same_payload_trans h1 h2 h3 : same_payload h1 h2 -> same_payload h2 h3 -> same_payload h1 h3.
Proof. intros H1 H2 x. by rewrite H2, H1. Qed.

(** A list of distinct blocks is shorter than the fuel of the loops. *)
Lemma fuel_enough h l : NoDup l -> (forall b, b ∈ l -> b ∈ dom h) -> (length l < fuel_of h)%nat.
Proof.
  intros Hnd Hin. unfold fuel_of. assert (Hs : (list_to_set l : gset Z) ⊆ dom h) by (intros b; rewrite elem_of_list_to_set; apply Hin).
  apply subseteq_size in Hs. rewrite size_list_to_set, size_dom in Hs by done. lia.
Qed.

Ltac in_dom := rewrite ?dom_alter_L; assumption.
(** Read the fields of a heap after stores. *)
Ltac fields :=
  repeat match goal with
  | |- context [fld ?f (alter (?s ?v) ?a ?h) ?x] =>
      first [rewrite (fld_alter_same f (s v) a x h) by (intros; reflexivity)
            | rewrite (fld_alter f (s v) v a x h) by (solve [in_dom] || (intros; reflexivity))]
  end.
(** Run a store or a read of a block. *)
Ltac run_store := rewrite store_alter by in_dom; cbn [mbind option_bind].
Ltac run_read a :=
  match goal with
  | |- context [?h !! a ≫= _] =>
      let b := fresh "b" in let E := fresh "E" in let Hb := fresh "Hb" in
      destruct (lookup_fld h a) as (b & E & Hb); [in_dom|]; rewrite E; cbn [mbind option_bind]; rewrite ?Hb; clear E Hb b
  end.

(** ** Lists of siblings *)

(** The last element of [x :: l]. *)
Fixpoint end_of x l : Z := match l with [] => x | c :: l => end_of c l end.
Lemma end_of_app x l1 c l2 : end_of x (l1 ++ c :: l2) = end_of c l2.
Proof. revert x. induction l1 as [|d l1 IH]; intros x; cbn; auto. Qed.
Lemma end_of_in x l : l <> [] -> end_of x l ∈ l.
Proof. destruct l as [|c l _] using rev_ind; [done|]. intros _. rewrite end_of_app. cbn. set_solver. Qed.
Lemma hd_in x l : l <> [] -> hd x l ∈ l.
Proof. destruct l; [done|]. set_solver. Qed.

(** The list [l] of children of [p], between the siblings [x] and [y]. *)
Fixpoint chain h p x l y : Prop :=
  match l with [] => True | c :: l => sib h c = (p, x, hd y l) /\ chain h p c l y end.

Lemma chain_app h p x l1 l2 y : chain h p x (l1 ++ l2) y <-> chain h p x l1 (hd y l2) /\ chain h p (end_of x l1) l2 y.
Proof.
  revert x. induction l1 as [|c l1 IH]; intros x; cbn [app chain end_of]; [tauto|]. rewrite IH.
  replace (hd y (l1 ++ l2)) with (hd (hd y l2) l1) by (by destruct l1). tauto.
Qed.
Lemma chain_frame h h' p x l y : (forall c, c ∈ l -> sib h' c = sib h c) -> chain h p x l y -> chain h' p x l y.
Proof.
  revert x. induction l as [|c l IH]; intros x Hf; cbn [chain]; [done|]. intros [Hc Hl]. split; [rewrite Hf by set_solver; done|].
  apply IH; [set_solver|done].
Qed.
Lemma chain_sib h p x l1 c l2 y : chain h p x (l1 ++ c :: l2) y -> sib h c = (p, end_of x l1, hd y l2).
Proof. intros (_ & H & _)%chain_app. done. Qed.

Lemma chain_parent h p x l y c : chain h p x l y -> c ∈ l -> fld r_parent h c = p.
Proof. intros Hc (l1 & l2 & ->)%list_elem_of_split. apply chain_sib in Hc. unfold sib in Hc. congruence. Qed.

(** Another parent and another neighbour at the end, or another neighbour at the start. *)
Lemma chain_move h h' p p' x l y y' : NoDup l -> chain h p x l y ->
  (forall c, c ∈ l -> fld r_parent h' c = p' /\ fld r_prev h' c = fld r_prev h c
     /\ fld r_next h' c = if decide (c = end_of x l) then y' else fld r_next h c) -> chain h' p' x l y'.
Proof.
  revert x. induction l as [|c l IH]; intros x Hnd Hc Hf; [done|]. cbn [chain end_of] in *. destruct Hc as [Hs Hc]. apply NoDup_cons in Hnd as [Hn Hnd].
  unfold sib in *. destruct (Hf c) as (-> & -> & ->); [set_solver|]. split; [|apply IH; [done|done|intros d Hd; apply Hf; set_solver]].
  destruct l as [|d l]; cbn [end_of hd] in *; [rewrite decide_True by done; congruence|]. rewrite decide_False; [congruence|].
  intros ->. apply Hn. apply (end_of_in d (d :: l)). done.
Qed.
Lemma chain_end h h' p x l y y' : NoDup l -> chain h p x l y ->
  (forall c, c ∈ l -> fld r_parent h' c = fld r_parent h c /\ fld r_prev h' c = fld r_prev h c
     /\ fld r_next h' c = if decide (c = end_of x l) then y' else fld r_next h c) -> chain h' p x l y'.
Proof.
  intros Hnd Hc Hf. eapply chain_move; [done|exact Hc|]. intros c Hin. destruct (Hf c Hin) as (-> & ? & ?). split; [|done]. by eapply chain_parent.
Qed.
Lemma chain_start h h' p x x' l y : NoDup l -> chain h p x l y ->
  (forall c, c ∈ l -> fld r_parent h' c = fld r_parent h c /\ fld r_next h' c = fld r_next h c
     /\ fld r_prev h' c = if decide (c = hd 0 l) then x' else fld r_prev h c) -> chain h' p x' l y.
Proof.
  intros Hnd Hc Hf. destruct l as [|c l]; [done|]. cbn [hd chain] in *. apply NoDup_cons in Hnd as [Hnd _]. destruct Hc as [Hs Hc]. split.
  - destruct (Hf c) as (E1 & E2 & E3); [set_solver|]. rewrite decide_True in E3 by done. unfold sib in *. rewrite E1, E2, E3. congruence.
  - eapply chain_frame; [|exact Hc]. intros d Hd. destruct (Hf d) as (E1 & E2 & E3); [set_solver|]. unfold sib. rewrite E1, E2, E3.
    destruct (decide (d = c)) as [->|]; done.
Qed.

(** ** The relation with the heap *)

Record links h F : Prop := {
  l_dom : dom h = dom F;
  l_child a l : F !! a = Some l -> fld r_child h a = hd 0 l;
  l_chain a l : F !! a = Some l -> chain h a 0 l 0;
  l_root a : a ∈ dom F -> root F a -> sib h a = (0, 0, 0)
}.
Definition tagged h : Prop := forall a, a ∈ dom h -> fld r_canary h a = CANARY.
Record repr h F : Prop := { repr_wf : wf F; repr_links : links h F; repr_tagged : tagged h }.

Lemma same_payload_tagged h h' : same_payload h h' -> dom h' = dom h -> tagged h -> tagged h'.
Proof.
  intros Hp Hd Ht a Ha. rewrite Hd in Ha. specialize (Ht a Ha). specialize (Hp a). unfold fld in *.
  destruct (h' !! a), (h !! a); cbn in Hp; try done. injection Hp as E _ _ _. congruence.
Qed.
Ltac payloads := repeat first [apply payload_alter; intros; reflexivity | eapply same_payload_trans; [|apply payload_alter; intros; reflexivity] | done].

Section place.
Context h F (Hwf : wf F) (Hl : links h F).

Lemma in_heap a : a ∈ dom F -> a ∈ dom h.
Proof using Hl. by rewrite (l_dom _ _ Hl). Qed.
Lemma sib_in p l c : F !! p = Some l -> c ∈ l -> c ∈ dom h /\ c <> 0 /\ c <> p /\ p ∈ dom h /\ p <> 0.
Proof using Hl Hwf.
  intros E Hc. pose proof (wf_dom F Hwf p l c E Hc) as Hd. pose proof (wf_pos F Hwf c Hd).
  assert (Hp : p ∈ dom F) by (by apply elem_of_dom). pose proof (wf_pos F Hwf p Hp). split_and!; [by apply in_heap|lia| |by apply in_heap|lia].
  intros ->. apply (wf_acyclic F p p Hwf); [by exists l|apply rtc_refl].
Qed.

(** The fields after a child was unlinked. *)
Lemma unlink_fields p l1 a l2 : F !! p = Some (l1 ++ a :: l2) ->
  exists h', unlink_block h a = Some h' /\ dom h' = dom h /\ same_payload h h' /\ forall c,
    fld r_child h' c = (if decide (c = p /\ l1 = []) then hd 0 l2 else fld r_child h c)
    /\ fld r_parent h' c = (if decide (c = a) then 0 else fld r_parent h c)
    /\ fld r_prev h' c = (if decide (c = a) then 0 else if decide (l2 <> [] /\ c = hd 0 l2) then end_of 0 l1 else fld r_prev h c)
    /\ fld r_next h' c = (if decide (c = a) then 0 else if decide (l1 <> [] /\ c = end_of 0 l1) then hd 0 l2 else fld r_next h c).
Proof using Hl Hwf.
  intros E. destruct (sib_in p _ a E) as (Ha & Ha0 & Hap & Hp & Hp0); [set_solver|].
  pose proof (chain_sib _ _ _ _ _ _ _ (l_chain _ _ Hl _ _ E)) as Hs. unfold sib in Hs. injection Hs as S1 S2 S3.
  pose proof (l_child _ _ Hl _ _ E) as Hc. pose proof (wf_nodup F Hwf _ _ E) as Hnd. apply NoDup_app in Hnd as (_ & Hn1 & Hn2). apply NoDup_cons in Hn2 as [Hn2 _].
  assert (H1 : l1 <> [] -> end_of 0 l1 ∈ dom h /\ end_of 0 l1 <> 0 /\ end_of 0 l1 <> a).
  { intros Hne. pose proof (end_of_in 0 l1 Hne) as Hin. destruct (sib_in p _ (end_of 0 l1) E) as (? & ? & _); [set_solver|]. split_and!; [done|done|].
    intros Eq. rewrite Eq in Hin. apply (Hn1 a Hin). set_solver. }
  assert (H2 : l2 <> [] -> hd 0 l2 ∈ dom h /\ hd 0 l2 <> 0 /\ hd 0 l2 <> a).
  { intros Hne. pose proof (hd_in 0 l2 Hne) as Hin. destruct (sib_in p _ (hd 0 l2) E) as (? & ? & _); [set_solver|]. split_and!; [done|done|].
    intros Eq. rewrite Eq in Hin. by apply Hn2. }
  unfold unlink_block. run_read a. rewrite S1, S2, S3. destruct (Z.eqb_spec p 0); [done|]. run_read p. rewrite Hc.
  assert (E1 : (hd 0 (l1 ++ a :: l2) =? a) = bool_decide (l1 = [])).
  { destruct l1 as [|c1 k1]; [apply Z.eqb_refl|]. apply Z.eqb_neq. intros Eq. cbn in Eq. subst c1. apply (Hn1 a); set_solver. }
  assert (E2 : (end_of 0 l1 =? 0) = bool_decide (l1 = [])).
  { destruct (bool_decide_reflect (l1 = [])) as [->|H0]; [done|]. apply Z.eqb_neq. by apply H1. }
  assert (E3 : (hd 0 l2 =? 0) = bool_decide (l2 = [])).
  { destruct (bool_decide_reflect (l2 = [])) as [->|H0]; [done|]. apply Z.eqb_neq. by apply H2. }
  rewrite E1, E2, E3. clear E1 E2 E3.
  destruct (bool_decide_reflect (l1 = [])) as [D1|D1], (bool_decide_reflect (l2 = [])) as [D2|D2];
    try destruct (H1 D1) as (I1 & _ & J1); try destruct (H2 D2) as (I2 & _ & J2); repeat first [run_store|progress cbn [mbind option_bind]].
  all: eexists; split; [reflexivity|]; split; [by rewrite ?dom_alter_L|]; split; [payloads|]; intros c; fields.
  all: split_and!; repeat case_decide; destruct_and?; subst; cbn in *; try done; try congruence; try (exfalso; tauto).
Qed.

Lemma other_child p q l l' c : F !! p = Some l -> F !! q = Some l' -> c ∈ l -> q <> p -> c ∉ l'.
Proof using Hwf. intros E E' Hc Hne Hc'. apply Hne. apply (wf_unique F Hwf q p c); [by exists l'|by exists l]. Qed.

(** A heap with the same links *)
Lemma links_ext h' : dom h' = dom h -> (forall c, c ∈ dom h -> fld r_child h' c = fld r_child h c) -> (forall c, c ∈ dom h -> sib h' c = sib h c) -> links h' F.
Proof using Hl Hwf.
  intros Hd Hc Hs. split.
  - rewrite Hd. apply Hl.
  - intros a l E. rewrite Hc by (apply in_heap; by apply elem_of_dom). by apply Hl.
  - intros a l E. eapply chain_frame; [|by apply (l_chain _ _ Hl)]. intros c Hin. apply Hs. exact (proj1 (sib_in a l c E Hin)).
  - intros a Ha Hr. rewrite Hs by (by apply in_heap). by apply Hl.
Qed.

Lemma unlink_links a : a ∈ dom F -> exists h', unlink_block h a = Some h' /\ same_payload h h' /\ links h' (detach F a).
Proof using Hl Hwf.
  intros Ha. pose proof (in_heap a Ha) as Ha'. destruct (root_dec F a) as [Hr|(p & l1 & l2 & E)].
  - pose proof (l_root _ _ Hl a Ha Hr) as Hs. unfold sib in Hs. injection Hs as S1 S2 S3. unfold unlink_block. run_read a. rewrite S1. cbn [Z.eqb mbind option_bind].
    repeat run_store. eexists. split; [reflexivity|]. split; [payloads|].
    replace (detach F a) with F.
    2:{ apply map_eq. intros q. rewrite lookup_detach. destruct (F !! q) as [l|] eqn:Eq; cbn; [|done]. f_equal. symmetry. apply filter_same. by eapply Hr. }
    apply links_ext; [by rewrite !dom_alter_L|intros c _; by fields|]. intros c _. unfold sib. fields. case_decide; subst; congruence.
  - destruct (unlink_fields p l1 a l2 E) as (h' & E' & Hd & Hp & Hf). exists h'. split; [done|]. split; [done|].
    pose proof (wf_nodup F Hwf _ _ E) as Hnd. pose proof Hnd as Hnd'. apply NoDup_app in Hnd' as (Hn1 & Hn12 & [Hna Hn2]%NoDup_cons).
    pose proof (l_chain _ _ Hl _ _ E) as Hch. apply chain_app in Hch as [Hc1 Hc2]. cbn [hd chain end_of] in Hc1, Hc2. destruct Hc2 as [Hs Hc2].
    assert (Hother : forall c, c ∉ l1 ++ a :: l2 -> sib h' c = sib h c).
    { intros c Hc. destruct (Hf c) as (_ & E2 & E3 & E4). unfold sib. rewrite E2, E3, E4. repeat case_decide; try done; destruct_and?; subst; exfalso; apply Hc; rewrite ?elem_of_app, ?elem_of_cons;
        auto using end_of_in, hd_in. }
    assert (Hlook : forall q, detach F a !! q = if decide (q = p) then Some (l1 ++ l2) else F !! q).
    { intros q. rewrite lookup_detach. case_decide as Eq; [subst q; rewrite E; cbn; by rewrite filter_split|].
      destruct (F !! q) as [l|] eqn:El; cbn; [|done]. f_equal. apply filter_same. eapply (other_child p q); [exact E|exact El|set_solver|done]. }
    split.
    + rewrite Hd, dom_detach. apply Hl.
    + intros q l. rewrite Hlook. destruct (Hf q) as (-> & _). case_decide as Eq.
      * subst q. intros [= <-]. rewrite (l_child _ _ Hl _ _ E). destruct l1; cbn; case_decide; naive_solver.
      * intros El. rewrite decide_False by naive_solver. by apply Hl.
    + intros q l. rewrite Hlook. case_decide as Eq; intros El.
      * subst q. injection El as <-. apply chain_app. split.
        -- destruct (decide (l1 = [])) as [->|Hne]; [done|]. eapply chain_end; [done|exact Hc1|]. intros c Hc.
           assert (Hca : c <> a) by (intros ->; apply (Hn12 a Hc); set_solver).
           destruct (Hf c) as (_ & -> & -> & ->). rewrite !(decide_False (P := c = a)) by done. split; [done|]. split.
           ++ rewrite decide_False; [done|]. intros [Hne2 ->]. apply (Hn12 _ Hc). apply elem_of_cons. right. by apply hd_in.
           ++ repeat case_decide; naive_solver.
        -- eapply chain_start; [done|exact Hc2|]. intros c Hc.
           assert (Hca : c <> a) by (intros ->; done).
           destruct (Hf c) as (_ & -> & -> & ->). rewrite !(decide_False (P := c = a)) by done. split; [done|]. split.
           ++ rewrite decide_False; [done|]. intros [Hne1 ->]. apply (Hn12 _ (end_of_in 0 l1 Hne1)). set_solver.
           ++ assert (l2 <> []) by (intros ->; by apply not_elem_of_nil in Hc). repeat case_decide; naive_solver.
      * eapply chain_frame; [|by apply (l_chain _ _ Hl)]. intros c Hc. apply Hother. intros Hin. by eapply (other_child p q); eauto.
    + intros b Hb Hr. rewrite dom_detach in Hb. destruct (decide (b = a)) as [->|Hne].
      * destruct (Hf a) as (_ & E2 & E3 & E4). unfold sib. rewrite E2, E3, E4, !decide_True by done. done.
      * assert (Hrb : root F b).
        { intros q l El Hin. eapply (Hr q); [by rewrite lookup_detach, El|]. by apply list_elem_of_filter. }
        rewrite Hother; [by apply Hl|by eapply Hrb].
Qed.

Lemma add_child_fields p a l : F !! p = Some l -> a ∈ dom h -> a <> p -> a ∉ l ->
  exists h', add_child h p a = Some h' /\ dom h' = dom h /\ same_payload h h' /\ forall c,
    fld r_child h' c = (if decide (c = p) then a else fld r_child h c)
    /\ fld r_parent h' c = (if decide (c = a) then p else fld r_parent h c)
    /\ fld r_prev h' c = (if decide (l <> [] /\ c = hd 0 l) then a else fld r_prev h c)
    /\ fld r_next h' c = (if decide (c = a) then hd 0 l else fld r_next h c).
Proof using Hl Hwf.
  intros E Ha Hap Hal. assert (Hp : p ∈ dom h) by (apply in_heap; by apply elem_of_dom).
  assert (Hp0 : p <> 0) by (pose proof (wf_pos F Hwf p ltac:(by apply elem_of_dom)); lia).
  assert (H1 : l <> [] -> hd 0 l ∈ dom h /\ hd 0 l <> 0 /\ hd 0 l <> a).
  { intros Hne. pose proof (hd_in 0 l Hne) as Hin. destruct (sib_in p _ _ E Hin) as (? & ? & _). split_and!; [done|done|]. by intros <-. }
  unfold add_child. destruct (Z.eqb_spec p 0); [done|]. run_store. run_read p. fields. rewrite (l_child _ _ Hl _ _ E). repeat run_store. run_read a. fields.
  rewrite decide_True by done. destruct (decide (l = [])) as [->|Hne].
  - cbn. eexists. split; [reflexivity|]. split; [by rewrite ?dom_alter_L|]. split; [payloads|]. intros c. fields. split_and!; repeat case_decide; naive_solver.
  - destruct (H1 Hne) as (I1 & I2 & I3). destruct (Z.eqb_spec (hd 0 l) 0); [done|]. run_store.
    eexists. split; [reflexivity|]. split; [by rewrite ?dom_alter_L|]. split; [payloads|]. intros c. fields. split_and!; repeat case_decide; naive_solver.
Qed.

Lemma add_child_links p a : a ∈ dom F -> p ∈ dom F -> root F a -> a <> p ->
  exists h', add_child h p a = Some h' /\ same_payload h h' /\ links h' (push F p a).
Proof using Hl Hwf.
  intros Ha [l E]%elem_of_dom Hr Hap. assert (Hp0 : p <> 0) by (pose proof (wf_pos F Hwf p ltac:(by apply elem_of_dom)); lia).
  pose proof (Hr p l E) as Hal. destruct (add_child_fields p a l E (in_heap a Ha) Hap Hal) as (h' & E' & Hd & Hp & Hf). exists h'. split; [done|]. split; [done|].
  assert (Hother : forall c, c <> a -> c ∉ l -> sib h' c = sib h c).
  { intros c Hc Hcl. destruct (Hf c) as (_ & E2 & E3 & E4). unfold sib. rewrite E2, E3, E4, !(decide_False (P := c = a)) by done.
    rewrite decide_False; [done|]. intros [Hne ->]. by apply Hcl, hd_in. }
  split.
  - rewrite Hd, dom_push. apply Hl.
  - intros q k. rewrite lookup_push by done. destruct (Hf q) as (-> & _). case_decide as Eq; [rewrite E; by intros [= <-]|]. apply Hl.
  - intros q k. rewrite lookup_push by done. case_decide as Eq.
    + rewrite E. intros [= <-]. subst q. cbn [chain]. split.
      * destruct (Hf a) as (_ & E2 & E3 & E4). unfold sib. rewrite E2, E3, E4, !(decide_True (P := a = a)) by done.
        pose proof (l_root _ _ Hl a Ha Hr) as Hs. unfold sib in Hs. rewrite decide_False; [congruence|]. intros [Hne Eq]. destruct Hal. rewrite Eq. by apply hd_in.
      * eapply chain_start; [by eapply wf_nodup|by apply (l_chain _ _ Hl)|]. intros c Hc.
        assert (Hca : c <> a) by (by intros ->). destruct (Hf c) as (_ & -> & -> & ->). rewrite !(decide_False (P := c = a)) by done.
        split; [done|]. split; [done|]. assert (l <> []) by (intros ->; by apply not_elem_of_nil in Hc). repeat case_decide; naive_solver.
    + intros Ek. eapply chain_frame; [|by apply (l_chain _ _ Hl)]. intros c Hc. apply Hother; [intros ->; by eapply Hr|].
      intros Hcl. by eapply (other_child p q l k c).
  - intros b Hb Hrb. rewrite dom_push in Hb. assert (Hba : b <> a).
    { intros ->. eapply (Hrb p (a :: l)); [by rewrite lookup_push, decide_True, E by done|set_solver]. }
    assert (Hbl : b ∉ l). { intros Hin. eapply (Hrb p (a :: l)); [by rewrite lookup_push, decide_True, E by done|set_solver]. }
    rewrite Hother by done. apply Hl; [done|]. intros q k Ek Hin. destruct (decide (q = p)) as [->|Hq]; [rewrite E in Ek; naive_solver|].
    eapply (Hrb q k); [by rewrite lookup_push, decide_False by done|done].
Qed.
End place.

(** ** Headers and pointers *)

(** The header of a context, 0 for NULL. *)
Definition header_of (ctx : Z) : Z := if ctx =? 0 then 0 else ctx - HEADER_SIZE.
(** A pointer to a block of the forest, or NULL. *)
Definition context F (ctx : Z) : Prop := ctx = 0 \/ header_of ctx ∈ dom F.

Lemma get_header_ok h a : tagged h -> a ∈ dom h -> get_header h (PTR_FROM_HEADER a) = Some a.
Proof.
  intros Ht Ha. unfold get_header, PTR_FROM_HEADER. replace (a + HEADER_SIZE - HEADER_SIZE) with a by lia. run_read a.
  by rewrite (Ht a Ha), Z.eqb_refl.
Qed.
Lemma get_header_null h F ctx : tagged h -> dom h = dom F -> context F ctx -> get_header_or_null h ctx = Some (header_of ctx).
Proof.
  intros Ht Hd [->|Hc]; [done|]. unfold get_header_or_null, header_of in *. destruct (Z.eqb_spec ctx 0); [done|].
  rewrite <- Hd in Hc. pose proof (get_header_ok h _ Ht Hc) as E. unfold PTR_FROM_HEADER in E. by replace (ctx - HEADER_SIZE + HEADER_SIZE) with ctx in E by lia.
Qed.
Lemma ptr_nonzero F a : wf F -> a ∈ dom F -> (PTR_FROM_HEADER a =? 0) = false.
Proof. intros H Ha. apply Z.eqb_neq. pose proof (wf_pos F H a Ha). unfold PTR_FROM_HEADER, HEADER_SIZE. lia. Qed.
Lemma header_ptr F a : wf F -> a ∈ dom F -> header_of (PTR_FROM_HEADER a) = a.
Proof. intros H Ha. unfold header_of. rewrite (ptr_nonzero F a H Ha). unfold PTR_FROM_HEADER. lia. Qed.

Lemma desc_detach F a b c : desc (detach F a) b c -> desc F b c.
Proof. intros H. induction H as [|x y z [Hc _]%detach_child _ IH]; [apply rtc_refl|by eapply rtc_l]. Qed.

(** ** Stealing *)

Definition steal F p a : forest := push (detach F a) p a.

Lemma steal_repr h F ctx a : repr h F -> a ∈ dom F -> context F ctx -> ~ desc F a (header_of ctx) ->
  exists h', ralloc_steal h ctx (PTR_FROM_HEADER a) = Some h' /\ repr h' (steal F (header_of ctx) a) /\ same_payload h h'.
Proof.
  intros [Hwf Hl Ht] Ha Hc Hd. unfold ralloc_steal. rewrite (ptr_nonzero F a Hwf Ha).
  rewrite get_header_ok by (try done; by rewrite (l_dom _ _ Hl)). cbn [mbind option_bind].
  rewrite (get_header_null h F ctx Ht (l_dom _ _ Hl) Hc). cbn [mbind option_bind].
  destruct (unlink_links h F Hwf Hl a Ha) as (h1 & -> & Hp1 & Hl1). cbn [mbind option_bind].
  pose proof (wf_detach F a Hwf) as Hwf1. unfold steal. destruct (decide (header_of ctx = 0)) as [E0|E0].
  - rewrite E0. cbn. exists h1. split; [done|]. split; [|done]. split; [done|done|].
    eapply same_payload_tagged; [exact Hp1| |done]. by rewrite (l_dom _ _ Hl1), (l_dom _ _ Hl), dom_detach.
  - destruct Hc as [->|Hc]; [done|]. assert (Hap : a <> header_of ctx) by (intros Eq; apply Hd; rewrite <- Eq; apply rtc_refl).
    destruct (add_child_links h1 _ Hwf1 Hl1 (header_of ctx) a) as (h2 & -> & Hp2 & Hl2); [by rewrite dom_detach|by rewrite dom_detach|apply detach_root|done|].
    exists h2. split; [done|]. assert (Hp : same_payload h h2) by (by eapply same_payload_trans). split; [|done]. split; [|done|].
    + apply wf_push; [done|by rewrite dom_detach|by rewrite dom_detach|apply detach_root|]. by intros H%desc_detach.
    + eapply same_payload_tagged; [exact Hp| |done]. by rewrite (l_dom _ _ Hl2), (l_dom _ _ Hl), dom_push, dom_detach.
Qed.

(** ** Allocating *)

Definition grow F a : forest := <[a := []]> F.

Lemma dom_grow F a : dom (grow F a) = {[a]} ∪ dom F.
Proof. apply dom_insert_L. Qed.
Lemma grow_child F a c p : a ∉ dom F -> child_of (grow F a) c p <-> child_of F c p.
Proof.
  intros Ha. unfold child_of, grow. destruct (decide (p = a)) as [->|]; [|by rewrite lookup_insert_ne].
  rewrite lookup_insert_eq. apply not_elem_of_dom in Ha. rewrite Ha. split; intros (l & E & Hc); [injection E as <-; by apply not_elem_of_nil in Hc|done].
Qed.
Lemma wf_grow F a : wf F -> 0 < a -> a ∉ dom F -> wf (grow F a).
Proof.
  intros H Ha Hn. split.
  - intros b. unfold grow. rewrite dom_insert_L. intros [->%elem_of_singleton|Hb]%elem_of_union; [done|by apply H].
  - intros p l c E Hc. unfold grow. rewrite dom_insert_L. apply elem_of_union_r. destruct (proj1 (grow_child F a c p Hn)) as (l' & E' & Hc'); [by exists l|].
    by eapply wf_dom.
  - intros p l. unfold grow. destruct (decide (p = a)) as [->|]; [rewrite lookup_insert_eq; intros [= <-]; constructor|]. rewrite lookup_insert_ne by done. by apply wf_nodup.
  - intros p1 p2 c. rewrite !grow_child by done. by apply wf_unique.
  - intros b. pose proof (wf_acc F H b) as Hb. induction Hb as [b _ IH]. constructor. intros c Hc%grow_child; [by apply IH|done].
Qed.
Lemma grow_root F a : wf F -> a ∉ dom F -> root (grow F a) a.
Proof. intros H Ha p l E Hin. destruct (proj1 (grow_child F a a p Ha)) as (l' & E' & Hc'); [by exists l|]. apply Ha. by eapply wf_dom. Qed.
Lemma grow_leaf F a c : wf F -> a ∉ dom F -> c ∈ dom F -> ~ desc (grow F a) a c.
Proof.
  intros H Ha Hc Hd. destruct (rtc_inv _ _ Hd) as [->|(b & (l & E & Hb) & _)]; [done|]. unfold grow in E. rewrite lookup_insert_eq in E. injection E as <-. by apply not_elem_of_nil in Hb.
Qed.

Lemma links_grow h F a b : wf F -> links h F -> a ∉ dom F -> (r_parent b, r_prev b, r_next b) = (0, 0, 0) -> r_child b = 0 ->
  links (<[a := b]> h) (grow F a).
Proof.
  intros Hwf Hl Ha Hb Hc. assert (Hf : forall f x, x ∈ dom F -> fld f (<[a := b]> h) x = fld f h x).
  { intros f x Hx. unfold fld. rewrite lookup_insert_ne; [done|]. by intros <-. }
  assert (Hs : forall x, x ∈ dom F -> sib (<[a := b]> h) x = sib h x) by (intros x Hx; unfold sib; by rewrite !Hf by done). split.
  - unfold grow. by rewrite !dom_insert_L, (l_dom _ _ Hl).
  - intros p l. unfold grow. destruct (decide (p = a)) as [->|].
    + rewrite lookup_insert_eq. intros [= <-]. unfold fld. by rewrite lookup_insert_eq.
    + rewrite lookup_insert_ne by done. intros E. rewrite Hf by (by apply elem_of_dom). by apply Hl.
  - intros p l. unfold grow. destruct (decide (p = a)) as [->|].
    + rewrite lookup_insert_eq. by intros [= <-].
    + rewrite lookup_insert_ne by done. intros E. eapply chain_frame; [|by apply (l_chain _ _ Hl)]. intros c Hin. apply Hs. by eapply wf_dom.
  - intros x Hx Hr. unfold grow in Hx. rewrite dom_insert_L in Hx. apply elem_of_union in Hx as [->%elem_of_singleton|Hx].
    + unfold sib, fld. by rewrite lookup_insert_eq.
    + rewrite Hs by done. apply Hl; [done|]. intros p l E Hin. apply (Hr p l); [|done]. unfold grow. rewrite lookup_insert_ne; [done|]. intros <-. apply Ha. by apply elem_of_dom.
Qed.

Lemma block_size_ok size : 0 <= size -> size + 64 <= 2 ^ 64 ->
  exists n, block_size size = Some n /\ HEADER_SIZE + size <= n < HEADER_SIZE + size + 16.
Proof.
  intros H0 H1. unfold block_size, HEADER_SIZE, HEADER_ALIGN in *. rewrite u64_small by lia. change 16 with (2 ^ 4) at 1. rewrite align64_pow2 by lia.
  eexists. split; [reflexivity|]. change (2 ^ 4) with 16. dlia.
Qed.

Definition allocate F p a : forest := push (grow F a) p a.

(** The new block, and the others as they were. *)
Definition fresh_block h h' a size : Prop :=
  (exists d, payload <$> h' !! a = Some (CANARY, u32 size, 0, d) /\ size <= Z.of_nat (length d))
  /\ forall x, x <> a -> payload <$> h' !! x = payload <$> h !! x.

Lemma alloc_repr h F r ctx size : repr h F -> context F ctx -> 0 < addr r -> addr r ∉ dom F -> 0 <= size -> size + 64 <= 2 ^ 64 ->
  exists h', ralloc_size h r ctx size = Some (h', PTR_FROM_HEADER (addr r)) /\ repr h' (allocate F (header_of ctx) (addr r))
    /\ fresh_block h h' (addr r) size.
Proof.
  intros [Hwf Hl Ht] Hc Ha Hn H0 H1. unfold ralloc_size. destruct (block_size_ok size H0 H1) as (n & -> & Hn1 & Hn2). cbn [mbind option_bind].
  set (a := addr r) in *. destruct (Z.eqb_spec a 0); [lia|]. destruct (Z.leb_spec HEADER_SIZE n); [|unfold HEADER_SIZE in *; lia].
  set (d := resize _ _ _). set (b := Header 0 0 0 0 0 0 0 d). set (h1 := <[a := b]> h).
  assert (Hl1 : links h1 (grow F a)) by (by apply links_grow). pose proof (wf_grow F a Hwf Ha Hn) as Hwf1.
  assert (Eg : get_header_or_null h1 ctx = Some (header_of ctx)).
  { rewrite <- (get_header_null h F ctx Ht (l_dom _ _ Hl) Hc). unfold get_header_or_null, get_header. destruct (Z.eqb_spec ctx 0); [done|].
    unfold h1. rewrite lookup_insert_ne; [done|]. destruct Hc as [|Hc]; [done|]. unfold header_of in Hc. destruct (Z.eqb_spec ctx 0); [done|]. intros Eq. by rewrite Eq in Hn. }
  rewrite Eg. cbn [mbind option_bind].
  assert (Hadd : exists h2, add_child h1 (header_of ctx) a = Some h2 /\ same_payload h1 h2 /\ links h2 (allocate F (header_of ctx) a)
                   /\ wf (allocate F (header_of ctx) a) /\ dom (allocate F (header_of ctx) a) = {[a]} ∪ dom F).
  { unfold allocate. rewrite dom_push, dom_grow. destruct (decide (header_of ctx = 0)) as [->|E0].
    - exists h1. cbn. done.
    - destruct Hc as [->|Hc]; [done|]. assert (Hc' : header_of ctx ∈ dom (grow F a)) by (rewrite dom_grow; set_solver).
      assert (Ha' : a ∈ dom (grow F a)) by (rewrite dom_grow; set_solver).
      assert (Hne : a <> header_of ctx) by (intros Eq; by rewrite <- Eq in Hc).
      destruct (add_child_links h1 _ Hwf1 Hl1 _ a Ha' Hc' (grow_root F a Hwf Hn) Hne) as (h2 & E2 & Hp2 & Hl2). exists h2.
      split; [done|]. split; [done|]. split; [done|]. split; [|done]. apply wf_push; [done|done|done|by apply grow_root|by apply grow_leaf]. }
  destruct Hadd as (h2 & -> & Hp2 & Hl2 & Hwf2 & Hd2). cbn [mbind option_bind].
  assert (Ha2 : a ∈ dom h2) by (rewrite (l_dom _ _ Hl2), Hd2; set_solver). run_store. eexists. split; [reflexivity|].
  assert (Hpay : forall x, x <> a -> payload <$> alter (set_tag (u32 size)) a h2 !! x = payload <$> h !! x).
  { intros x Hx. rewrite lookup_alter_ne by done. rewrite Hp2. unfold h1. by rewrite lookup_insert_ne. }
  split; [split; [done| |]|split; [|done]].
  - apply (links_ext h2 _ Hwf2 Hl2); [by rewrite dom_alter_L|intros c _; by fields|intros c _; unfold sib; by fields].
  - intros x Hx. rewrite dom_alter_L, (l_dom _ _ Hl2), Hd2 in Hx. unfold fld. destruct (decide (x = a)) as [->|Hne].
    + rewrite lookup_alter_eq. apply elem_of_dom in Ha2 as [b2 ->]. done.
    + assert (Hxd : x ∈ dom h) by (rewrite (l_dom _ _ Hl); set_solver). specialize (Ht x Hxd). specialize (Hpay x Hne). unfold fld in Ht.
      destruct (alter _ a h2 !! x), (h !! x); cbn in Hpay; try done. injection Hpay as E1 _ _ _. congruence.
  - exists d. specialize (Hp2 a). rewrite lookup_alter_eq. unfold h1 in Hp2. rewrite lookup_insert_eq in Hp2.
    destruct (h2 !! a) as [b2|] eqn:E2; cbn in *; [|done]. injection Hp2 as _ _ E3 E4. split; [unfold payload; cbn; by rewrite E3, E4|].
    unfold d. rewrite length_resize. unfold HEADER_SIZE in *. lia.
Qed.
