(* ===== verification/RallocTree.v ===== *)
(** * Freeing, adopting and resizing blocks (src/util/ralloc.c)

    The operations of Ralloc.v that work on whole subtrees or lists of children, and the
    theorem about sequences of operations. *)

From Stdlib Require Import ZArith Lia.
From stdpp Require Import base list gmap numbers option sets.
From S2P Require Import Prelude Ralloc.
Local Open Scope Z_scope.

Implicit Types (h : heap) (F : forest) (a c p x y : Z) (l : list Z).

(** ** Subtrees

    The blocks below a block, in the order in which they are freed: children from first to
    last, each after everything below it. *)

Inductive post F : Z -> list Z -> Prop :=
| post_block a ks l : F !! a = Some ks -> posts F ks l -> post F a (l ++ [a])
with posts F : list Z -> list Z -> Prop :=
| posts_nil : posts F [] []
| posts_cons c ks l1 l2 : post F c l1 -> posts F ks l2 -> posts F (c :: ks) (l1 ++ l2).
Scheme post_ind2 := Minimality for post Sort Prop
with posts_ind2 := Minimality for posts Sort Prop.
Combined Scheme post_posts_ind from post_ind2, posts_ind2.

(** Freeing one block *)
Definition free_event h a : list event :=
  (if fld r_destructor h a =? 0 then [] else [Destroy (fld r_destructor h a) (PTR_FROM_HEADER a)]) ++ [Release a].
Definition free_events h l : list event := l ≫= free_event h.
Definition delete_all {V} l (m : gmap Z V) : gmap Z V := foldl (fun m a => delete a m) m l.

Lemma lookup_delete_all {V} l (m : gmap Z V) x : delete_all l m !! x = if decide (x ∈ l) then None else m !! x.
Proof.
  revert m. induction l as [|a l IH]; intros m; cbn [delete_all foldl]; [done|]. fold (delete_all l (delete a m)). rewrite IH.
  destruct (decide (x ∈ l)) as [H|H]; [by rewrite decide_True by set_solver|]. destruct (decide (x = a)) as [->|Hne].
  - rewrite lookup_delete_eq, decide_True by set_solver. done.
  - rewrite lookup_delete_ne, decide_False by set_solver. done.
Qed.
Lemma elem_of_dom_delete_all {V} l (m : gmap Z V) x : x ∈ dom (delete_all l m) <-> x ∈ dom m /\ x ∉ l.
Proof.
  rewrite !elem_of_dom, lookup_delete_all. case_decide; [|tauto]. split; [intros [? [=]]|tauto].
Qed.
Lemma fld_delete_all f l h x : x ∉ l -> fld f (delete_all l h) x = fld f h x.
Proof. intros Hx. unfold fld. by rewrite lookup_delete_all, decide_False. Qed.

Section subtrees.
Context F (Hwf : wf F).

Lemma post_exists a : a ∈ dom F -> exists l, post F a l.
Proof using Hwf.
  intros Ha. pose proof (wf_acc F Hwf a) as Hacc. induction Hacc as [a _ IH]. apply elem_of_dom in Ha as [ks E].
  assert (Hks : exists l, posts F ks l).
  { assert (Hin : forall c, c ∈ ks -> exists l, post F c l) by (intros c Hc; apply IH; [by exists ks|by eapply wf_dom]).
    clear E IH. induction ks as [|c ks IHk]; [exists []; constructor|]. destruct (Hin c) as [l1 H1]; [set_solver|].
    destruct IHk as [l2 H2]; [intros d Hd; apply Hin; set_solver|]. exists (l1 ++ l2). by constructor. }
  destruct Hks as [l Hl]. exists (l ++ [a]). by econstructor.
Qed.

Lemma post_desc : (forall a l, post F a l -> forall b, b ∈ l <-> desc F a b)
  /\ (forall ks l, posts F ks l -> forall b, b ∈ l <-> exists c, c ∈ ks /\ desc F c b).
Proof using.
  apply post_posts_ind.
  - intros a ks l E _ IH b. rewrite elem_of_app, list_elem_of_singleton, IH. split.
    + intros [(c & Hc & Hd)| ->]; [|apply rtc_refl]. eapply rtc_l; [by exists ks|done].
    + intros Hd. destruct (rtc_inv _ _ Hd) as [->|(c & (l' & E' & Hc) & Hd')]; [by right|left]. exists c. split; [congruence|done].
  - intros b. split; [by intros ?%not_elem_of_nil|]. intros (c & Hc & _). by apply not_elem_of_nil in Hc.
  - intros c ks l1 l2 _ IH1 _ IH2 b. rewrite elem_of_app, IH1, IH2. setoid_rewrite elem_of_cons. naive_solver.
Qed.

Lemma post_in_dom a l : a ∈ dom F -> post F a l -> forall b, b ∈ l -> b ∈ dom F.
Proof using Hwf.
  intros Ha Hp b Hb%(proj1 post_desc _ _ Hp). destruct (rtc_inv_r _ _ Hb) as [->|(q & _ & ks & E & Hc)]; [done|by eapply wf_dom].
Qed.

(** Two blocks with a common descendant are one below the other. *)
Lemma desc_comparable a b c : desc F a c -> desc F b c -> desc F a b \/ desc F b a.
Proof using Hwf.
  intros H1 H2. revert a H1. revert c H2. refine (rtc_ind_r (fun c => forall a, desc F a c -> desc F a b \/ desc F b a) b _ _); [by left|].
  intros c d Hbc Hcd IH a H1.
  destruct (rtc_inv_r _ _ H1) as [->|(e & H3 & H4)]; [right; by eapply rtc_r|].
  rewrite (wf_unique F Hwf c e d Hcd H4) in *. by apply IH.
Qed.
Lemma siblings_disjoint p ks c1 c2 b : F !! p = Some ks -> c1 ∈ ks -> c2 ∈ ks -> desc F c1 b -> desc F c2 b -> c1 = c2.
Proof using Hwf.
  intros E H1 H2 D1 D2. assert (Hup : forall c d, c ∈ ks -> d ∈ ks -> desc F c d -> c = d).
  { intros c d Hc Hd Hcd. destruct (rtc_inv_r _ _ Hcd) as [->|(e & H3 & H4)]; [done|].
    rewrite (wf_unique F Hwf e p d H4) in H3 by (by exists ks). destruct (wf_acyclic F p c Hwf); [by exists ks|done]. }
  destruct (desc_comparable _ _ _ D1 D2); [by apply Hup|symmetry; by apply Hup].
Qed.

Lemma post_nodup : (forall a l, post F a l -> NoDup l)
  /\ (forall ks l, posts F ks l -> forall p ks0, F !! p = Some (ks0 ++ ks) -> NoDup l).
Proof using Hwf.
  apply post_posts_ind.
  - intros a ks l E Hp IH. apply NoDup_app. split_and!; [by apply (IH a [])| |apply NoDup_singleton].
    intros b Hb ->%list_elem_of_singleton. apply (proj2 post_desc _ _ Hp) in Hb as (c & Hc & Hd). by apply (wf_acyclic F a c Hwf); [exists ks|].
  - intros p ks0 _. constructor.
  - intros c ks l1 l2 Hp1 IH1 Hp2 IH2 p ks0 E. apply NoDup_app. split_and!; [done| |].
    + intros b H1 H2. apply (proj1 post_desc _ _ Hp1) in H1. apply (proj2 post_desc _ _ Hp2) in H2 as (d & Hd & H2).
      assert (c = d) as <- by (eapply (siblings_disjoint p); [exact E|set_solver|set_solver|done|done]).
      pose proof (wf_nodup F Hwf _ _ E) as (_ & _ & [Hn _]%NoDup_cons)%NoDup_app. done.
    + apply (IH2 p (ks0 ++ [c])). by rewrite <- app_assoc.
Qed.
End subtrees.

Section freeing.
Context F.

Fixpoint nexts h l : Prop := match l with [] => True | c :: l => fld r_next h c = hd 0 l /\ nexts h l end.
(** The blocks of [l] are in the heap, with the links that freeing follows. *)
Definition live h l : Prop :=
  forall b, b ∈ l -> b ∈ dom h /\ b <> 0 /\ forall ks, F !! b = Some ks -> fld r_child h b = hd 0 ks /\ nexts h ks.

Lemma nexts_frame h h' l : (forall c, c ∈ l -> fld r_next h' c = fld r_next h c) -> nexts h l -> nexts h' l.
Proof. induction l as [|c l IH]; intros Hf; cbn; [done|]. rewrite Hf by set_solver. intros [? ?]. split; [done|]. apply IH; [set_solver|done]. Qed.
Lemma chain_nexts h p x l : chain h p x l 0 -> nexts h l.
Proof. revert x. induction l as [|c l IH]; intros x; cbn; [done|]. intros [Hs Hc]. unfold sib in Hs. split; [congruence|]. by eapply IH. Qed.
Lemma links_live h l : wf F -> links h F -> (forall b, b ∈ l -> b ∈ dom F) -> live h l.
Proof.
  intros Hwf Hl Hin b Hb. specialize (Hin b Hb). split; [by rewrite (l_dom _ _ Hl)|]. split; [pose proof (wf_pos F Hwf b Hin); lia|].
  intros ks E. split; [by apply Hl|]. by eapply chain_nexts, Hl.
Qed.
(** The children of freed blocks are freed too. *)
Lemma post_closed : (forall a l, post F a l -> forall b ks c, b ∈ l -> F !! b = Some ks -> c ∈ ks -> c ∈ l)
  /\ (forall ks l, posts F ks l -> (forall b kb c, b ∈ l -> F !! b = Some kb -> c ∈ kb -> c ∈ l) /\ forall c, c ∈ ks -> c ∈ l).
Proof.
  split.
  - intros a l Hp b ks c. rewrite !(proj1 (post_desc F) _ _ Hp). intros Hb E Hc. eapply rtc_r; [exact Hb|by exists ks].
  - intros ks l Hp. split.
    + intros b kb c. rewrite !(proj2 (post_desc F) _ _ Hp). intros (d & Hd & Hb) E Hc. exists d. split; [done|]. eapply rtc_r; [exact Hb|by exists kb].
    + intros c Hc. apply (proj2 (post_desc F) _ _ Hp). exists c. split; [done|apply rtc_refl].
Qed.

Lemma live_frame h h' l l' : live h l' -> (forall b, b ∈ l -> b ∈ l') -> (forall b, b ∈ l -> b ∈ dom h') ->
  (forall b, b ∈ l -> fld r_child h' b = fld r_child h b) -> (forall b, b ∈ l -> fld r_next h' b = fld r_next h b) ->
  (forall b ks c, b ∈ l -> F !! b = Some ks -> c ∈ ks -> c ∈ l) -> live h' l.
Proof.
  intros Hv Hsub Hd Hc Hn Hcl b Hb. destruct (Hv b (Hsub b Hb)) as (_ & H0 & Hk). split; [by apply Hd|]. split; [done|].
  intros ks E. destruct (Hk ks E) as [H1 H2]. rewrite Hc by done. split; [done|]. eapply nexts_frame; [|exact H2]. intros c Hin. apply Hn. by eapply Hcl.
Qed.

Lemma free_events_frame h h' l : (forall b, b ∈ l -> fld r_destructor h' b = fld r_destructor h b) -> free_events h' l = free_events h l.
Proof.
  induction l as [|b l IH]; intros Hf; [done|]. unfold free_events in *. cbn. rewrite IH by set_solver. f_equal. unfold free_event. by rewrite Hf by set_solver.
Qed.

Lemma unsafe_free_post :
  (forall a l, post F a l -> forall h log fuel, NoDup l -> live h l -> (length l <= fuel)%nat ->
     unsafe_free fuel h log a = Some (delete_all l h, log ++ free_events h l))
  /\ (forall ks l, posts F ks l -> forall h log fuel a, NoDup l -> live h l -> a ∉ l -> a ∈ dom h -> fld r_child h a = hd 0 ks -> nexts h ks -> (length l < fuel)%nat ->
     unsafe_free fuel h log a = Some (delete a (delete_all l h), log ++ free_events h l ++ free_event h a)).
Proof.
  apply post_posts_ind.
  - intros a ks l E Hp IH h log fuel (Hn1 & Hn2 & _)%NoDup_app Hv Hf. rewrite length_app in Hf. cbn in Hf.
    destruct (Hv a) as (Ha & _ & Hk); [set_solver|]. destruct (Hk ks E) as [H1 H2].
    rewrite (IH h log fuel a); [|done| |intros Hin; apply (Hn2 a Hin); set_solver|done|done|done|lia].
    + unfold delete_all, free_events. rewrite foldl_app, bind_app. cbn. by rewrite app_nil_r.
    + eapply live_frame; [exact Hv|set_solver|intros b Hb; apply Hv; set_solver|done|done|apply (proj2 post_closed _ _ Hp)].
  - intros h log fuel a _ _ _ Ha Hc _ Hf. destruct fuel as [|fuel]; [lia|]. cbn [unsafe_free]. run_read a. rewrite Hc. cbn [hd Z.eqb].
    unfold free_events, free_event. cbn. destruct (fld r_destructor h a =? 0); [done|]. by rewrite <- app_assoc.
  - intros c ks l1 l2 Hp1 IH1 Hp2 IH2 h log fuel a Hnd Hv Ha Hda Hc Hk Hf. destruct fuel as [|fuel]; [lia|]. rewrite length_app in Hf.
    apply NoDup_app in Hnd as (Hn1 & Hn12 & Hn2). assert (Hc1 : c ∈ l1) by (apply (proj1 (post_desc F) _ _ Hp1), rtc_refl).
    destruct (Hv c) as (Hdc & Hc0 & _); [set_solver|]. destruct Hk as [Hnc Hk].
    cbn [unsafe_free]. run_read a. rewrite Hc. cbn [hd]. destruct (Z.eqb_spec c 0); [done|]. run_read c. rewrite Hnc. run_store.
    set (h1 := alter _ a h). assert (Hne : forall b, b ∈ l1 ++ l2 -> b <> a) by (intros b Hb ->; done).
    assert (Hf1 : forall f b, b ∈ l1 ++ l2 -> fld f h1 b = fld f h b) by (intros f b Hb; apply fld_alter_ne; by apply Hne).
    rewrite (IH1 h1 log fuel); [|done| |lia].
    2:{ eapply live_frame; [exact Hv|set_solver| | | |apply (proj1 post_closed _ _ Hp1)]; intros b Hb.
        - unfold h1. rewrite dom_alter_L. apply Hv. set_solver.
        - apply Hf1. set_solver.
        - apply Hf1. set_solver. }
    cbn [mbind option_bind]. set (h2 := delete_all l1 h1). destruct (proj2 post_closed _ _ Hp2) as [Hcl2 Hks2].
    assert (Hf2 : forall f b, b ∈ l2 -> fld f h2 b = fld f h b).
    { intros f b Hb. unfold h2. rewrite fld_delete_all by (intros Hb1; by apply (Hn12 b Hb1)). apply Hf1. set_solver. }
    assert (Hfa : forall f, (forall v b, f (set_child v b) = f b) -> fld f h2 a = fld f h a).
    { intros f Hfs. unfold h2. rewrite fld_delete_all by set_solver. unfold h1. apply fld_alter_same. apply Hfs. }
    rewrite (IH2 h2 (log ++ free_events h1 l1) fuel a); [|done| |set_solver| | |eapply nexts_frame; [|exact Hk]; intros b Hb; apply Hf2; by apply Hks2|].
    + f_equal. f_equal.
      * apply map_eq. intros x. destruct (decide (x = a)) as [->|Hx]; [by rewrite !lookup_delete_eq|]. rewrite !lookup_delete_ne by done.
        unfold h2, h1. rewrite !lookup_delete_all, lookup_alter_ne by done. repeat case_decide; try done; set_solver.
      * unfold free_events at 3. rewrite bind_app. fold (free_events h l1) (free_events h l2). rewrite <- !app_assoc.
        rewrite (free_events_frame h h1) by (intros b Hb; apply Hf1; set_solver). rewrite (free_events_frame h h2) by (intros b Hb; by apply Hf2).
        unfold free_event. by rewrite (Hfa r_destructor) by done.
    + eapply live_frame; [exact Hv|set_solver| | | |exact Hcl2]; intros b Hb; [|by apply Hf2|by apply Hf2].
      apply elem_of_dom_delete_all. unfold h1. rewrite dom_alter_L. split; [apply Hv; set_solver|]. intros Hb1. by apply (Hn12 b Hb1).
    + apply elem_of_dom_delete_all. unfold h1. rewrite dom_alter_L. set_solver.
    + unfold h2. rewrite fld_delete_all by set_solver. unfold h1. fields. by rewrite decide_True.
    + assert (length l1 <> 0)%nat by (intros ?%nil_length_inv; subst; by apply not_elem_of_nil in Hc1). lia.
Qed.
End freeing.

(** The forest without a subtree. *)
Definition release F a l : forest := delete_all l (detach F a).

Lemma post_detach F a : wf F -> (forall b l, post (detach F a) b l -> desc F a b -> post F b l)
  /\ (forall ks l, posts (detach F a) ks l -> (forall c, c ∈ ks -> desc F a c) -> posts F ks l).
Proof.
  intros Hwf. apply post_posts_ind.
  - intros b ks l E _ IH Hd. rewrite lookup_detach in E. apply fmap_Some in E as (ks' & E & ->).
    assert (Hna : a ∉ ks') by (intros Hin; apply (wf_acyclic F b a Hwf); [by exists ks'|done]). rewrite filter_same in IH by done.
    econstructor; [exact E|]. apply IH. intros c Hc. eapply rtc_r; [exact Hd|by exists ks'].
  - intros _. constructor.
  - intros c ks l1 l2 _ IH1 _ IH2 Hd. constructor; [apply IH1, Hd; set_solver|]. apply IH2. intros d Hin. apply Hd. set_solver.
Qed.

Section release.
Context h F a l (Hwf : wf F) (Hl : links h F) (Hroot : root F a) (Hp : post F a l).

Lemma below_closed p c : child_of F c p -> c ∈ l <-> p ∈ l.
Proof using Hwf Hroot Hp.
  intros (ks & E & Hc). rewrite !(proj1 (post_desc F) _ _ Hp). split; intros Hd.
  - destruct (rtc_inv_r _ _ Hd) as [->|(q & H1 & H2)]; [by destruct (Hroot p ks E)|]. by rewrite (wf_unique F Hwf p q c ltac:(by exists ks) H2).
  - eapply rtc_r; [exact Hd|by exists ks].
Qed.
Lemma delete_all_child p c : child_of (delete_all l F) c p <-> child_of F c p /\ p ∉ l.
Proof using. clear. unfold child_of. rewrite lookup_delete_all. case_decide; naive_solver. Qed.

Lemma wf_delete_all : wf (delete_all l F).
Proof using Hwf Hroot Hp.
  split.
  - intros b [Hb _]%elem_of_dom_delete_all. by apply Hwf.
  - intros p ks c E Hc. destruct (proj1 (delete_all_child p c)) as [Hch Hpl]; [by exists ks|]. apply elem_of_dom_delete_all.
    rewrite (below_closed p c Hch). split; [|done]. destruct Hch as (ks' & E' & Hc'). by eapply wf_dom.
  - intros p ks. rewrite lookup_delete_all. case_decide; [done|]. by apply wf_nodup.
  - intros p1 p2 c [H1 _]%delete_all_child [H2 _]%delete_all_child. by eapply wf_unique.
  - intros b. pose proof (wf_acc F Hwf b) as Hb. induction Hb as [b _ IH]. constructor. intros c [Hc _]%delete_all_child. by apply IH.
Qed.
Lemma links_delete_all : links (delete_all l h) (delete_all l F).
Proof using Hwf Hroot Hp Hl.
  assert (Hs : forall c, c ∉ l -> sib (delete_all l h) c = sib h c) by (intros c Hc; unfold sib; by rewrite !fld_delete_all by done). split.
  - apply set_eq. intros x. rewrite !elem_of_dom_delete_all. by rewrite (l_dom _ _ Hl).
  - intros p ks. rewrite lookup_delete_all. case_decide; [done|]. intros E. rewrite fld_delete_all by done. by apply Hl.
  - intros p ks. rewrite lookup_delete_all. case_decide; [done|]. intros E. eapply chain_frame; [|by apply (l_chain _ _ Hl)].
    intros c Hc. apply Hs. rewrite (below_closed p c) by (by exists ks). done.
  - intros x [Hx Hxl]%elem_of_dom_delete_all Hr. rewrite Hs by done. apply Hl; [done|]. intros p ks E Hin.
    apply (Hr p ks); [|done]. rewrite lookup_delete_all, decide_False; [done|]. rewrite <- (below_closed p x) by (by exists ks). done.
Qed.
End release.

Lemma free_repr h F a : repr h F -> a ∈ dom F ->
  exists h' l, ralloc_free h (PTR_FROM_HEADER a) = Some (h', free_events h l) /\ post F a l /\ repr h' (release F a l)
    /\ (forall x, payload <$> h' !! x = if decide (x ∈ l) then None else payload <$> h !! x).
Proof.
  intros [Hwf Hl Ht] Ha. unfold ralloc_free. rewrite (ptr_nonzero F a Hwf Ha), get_header_ok by (try done; by rewrite (l_dom _ _ Hl)). cbn [mbind option_bind].
  destruct (unlink_links h F Hwf Hl a Ha) as (h1 & -> & Hp1 & Hl1). cbn [mbind option_bind]. pose proof (wf_detach F a Hwf) as Hwf1.
  destruct (post_exists (detach F a) Hwf1 a) as [l Hpost]; [by rewrite dom_detach|]. pose proof (proj1 (post_nodup _ Hwf1) _ _ Hpost) as Hnd.
  assert (Hin : forall b, b ∈ l -> b ∈ dom (detach F a)) by (apply (post_in_dom _ Hwf1 a); [by rewrite dom_detach|done]).
  assert (Hlen : (length l < fuel_of h1)%nat) by (apply fuel_enough; [done|by rewrite (l_dom _ _ Hl1)]).
  rewrite (proj1 (unsafe_free_post (detach F a)) a l Hpost h1 [] (fuel_of h1) Hnd (links_live _ _ _ Hwf1 Hl1 Hin) ltac:(lia)).
  assert (Hd1 : dom h1 = dom h) by (by rewrite (l_dom _ _ Hl1), (l_dom _ _ Hl), dom_detach).
  assert (Hpay : forall x, payload <$> delete_all l h1 !! x = if decide (x ∈ l) then None else payload <$> h !! x).
  { intros x. rewrite lookup_delete_all. case_decide; [done|]. apply Hp1. }
  exists (delete_all l h1), l. split_and!; [|apply (post_detach F a Hwf); [done|apply rtc_refl]| |done].
  - do 2 f_equal. cbn. apply free_events_frame. intros b _. specialize (Hp1 b). unfold fld. destruct (h1 !! b), (h !! b); cbn in Hp1; try done. injection Hp1 as _ _ E _. congruence.
  - split; [by eapply wf_delete_all; [|apply detach_root|]|by eapply links_delete_all; [| |apply detach_root|]|].
    intros x [Hx Hxl]%elem_of_dom_delete_all. rewrite fld_delete_all by done. by apply (same_payload_tagged h h1 Hp1 Hd1 Ht).
Qed.

(** ** Adopting *)

Definition adopt F n o : forest := <[n := default [] (F !! o) ++ default [] (F !! n)]> (<[o := []]> F).

Section adopting.
Context F n o l k (Hwf : wf F) (Eo : F !! o = Some l) (En : F !! n = Some k) (Hd : ~ desc F o n).

Lemma adopt_ne : n <> o.
Proof using Hd. intros E. apply Hd. rewrite E. apply rtc_refl. Qed.
Lemma lookup_adopt q : adopt F n o !! q = if decide (q = n) then Some (l ++ k) else if decide (q = o) then Some [] else F !! q.
Proof using Eo En.
  unfold adopt. rewrite Eo, En. cbn [default from_option id]. repeat case_decide; subst; rewrite ?lookup_insert_eq, ?lookup_insert_ne by done; rewrite ?lookup_insert_eq, ?lookup_insert_ne by done; done.
Qed.
Lemma dom_adopt : dom (adopt F n o) = dom F.
Proof using Eo En.
  apply set_eq. intros q. rewrite !elem_of_dom, lookup_adopt. repeat case_decide; subst; rewrite ?En, ?Eo; naive_solver.
Qed.
Lemma adopt_child c q : child_of (adopt F n o) c q <-> q = n /\ c ∈ l \/ q <> o /\ child_of F c q.
Proof using Eo En Hd.
  pose proof adopt_ne as Hne. unfold child_of. rewrite lookup_adopt. destruct (decide (q = n)) as [->|Hq].
  - split.
    + intros (l' & [= <-] & [Hc|Hc]%elem_of_app); [by left|right]. split; [done|]. by exists k.
    + intros [[_ Hc]|(_ & l' & E & Hc)]; (exists (l ++ k); split; [done|]); apply elem_of_app; [by left|right; congruence].
  - destruct (decide (q = o)) as [->|Hq']; [|naive_solver]. split; [|naive_solver]. intros (l' & [= <-] & Hc). by apply not_elem_of_nil in Hc.
Qed.

Lemma wf_adopt : wf (adopt F n o).
Proof using Hwf Eo En Hd.
  pose proof adopt_ne as Hne. split.
  - intros b. rewrite dom_adopt. apply Hwf.
  - intros q ks c E Hc. rewrite dom_adopt. destruct (proj1 (adopt_child c q)) as [[_ Hc']|(_ & l' & E' & Hc')]; [by exists ks|by apply (wf_dom F Hwf o l)|by apply (wf_dom F Hwf q l')].
  - intros q ks. rewrite lookup_adopt. repeat case_decide; [|by intros [= <-]; constructor|by apply wf_nodup]. intros [= <-].
    apply NoDup_app. split_and!; [by eapply wf_nodup| |by eapply wf_nodup]. intros c H1 H2. apply Hne. symmetry. apply (wf_unique F Hwf o n c); [by exists l|by exists k].
  - intros q1 q2 c. rewrite !adopt_child. intros [[-> H1]|[Hq1 H1]] [[-> H2]|[Hq2 H2]]; [done| | |by eapply wf_unique].
    + destruct Hq2. apply (wf_unique F Hwf _ _ c); [done|by exists l].
    + destruct Hq1. apply (wf_unique F Hwf _ _ c); [done|by exists l].
  - assert (Hin : forall b, desc F o b -> b <> o -> Acc (child_of (adopt F n o)) b).
    { intros b Hb Hbo. pose proof (wf_acc F Hwf b) as Hacc. induction Hacc as [b _ IH]. constructor. intros c [[-> _]|[_ Hc]]%adopt_child; [done|].
      apply IH; [done|by eapply rtc_r|]. intros ->. by apply (wf_acyclic F b o Hwf Hc). }
    intros b. pose proof (wf_acc F Hwf b) as Hacc. induction Hacc as [b _ IH]. constructor. intros c [[-> Hc]|[_ Hc]]%adopt_child; [|by apply IH].
    apply Hin; [eapply rtc_once; by exists l|]. intros ->. apply (wf_acyclic F o o Hwf); [by exists l|apply rtc_refl].
Qed.
End adopting.

Lemma adopt_loop_fields n l1 : forall h z fuel, nexts h (l1 ++ [z]) -> (forall c, c ∈ l1 ++ [z] -> c ∈ dom h /\ c <> 0) -> (length l1 < fuel)%nat ->
  exists h', adopt_loop fuel h n (hd 0 (l1 ++ [z])) = Some (h', z) /\ dom h' = dom h /\ same_payload h h' /\ forall c,
    fld r_child h' c = fld r_child h c /\ fld r_prev h' c = fld r_prev h c /\ fld r_next h' c = fld r_next h c
    /\ fld r_parent h' c = if decide (c ∈ l1) then n else fld r_parent h c.
Proof.
  induction l1 as [|c1 l1 IH]; intros h z [|fuel] Hn Hin Hf; cbn [length] in Hf; [lia| |lia|]; cbn [app hd adopt_loop nexts] in *.
  - destruct Hn as [Hz _]. destruct (Hin z) as [Hdz _]; [set_solver|]. run_read z. rewrite Hz. cbn. by exists h.
  - destruct Hn as [Hc1 Hn]. destruct (Hin c1) as [Hd1 _]; [set_solver|]. run_read c1. rewrite Hc1.
    destruct (Hin (hd 0 (l1 ++ [z]))) as [_ H0]; [apply elem_of_cons; right; apply hd_in; by destruct l1|].
    destruct (Z.eqb_spec (hd 0 (l1 ++ [z])) 0); [done|]. run_store. set (h1 := alter _ c1 h).
    destruct (IH h1 z fuel) as (h' & E & Hd & Hp & Hfl); [| |lia|].
    { eapply nexts_frame; [|exact Hn]. intros c _. unfold h1. by fields. }
    { intros c Hc. unfold h1. rewrite dom_alter_L. apply Hin. set_solver. }
    exists h'. split; [done|]. split; [rewrite Hd; unfold h1; by rewrite dom_alter_L|]. split; [eapply same_payload_trans; [|exact Hp]; unfold h1; payloads|].
    intros c. destruct (Hfl c) as (-> & -> & -> & ->). unfold h1. fields. split_and!; [done|done|done|]. repeat case_decide; set_solver.
Qed.

Section adopt_heap.
Context h F n o l k (Hwf : wf F) (Hl : links h F) (Eo : F !! o = Some l) (En : F !! n = Some k) (Hd : ~ desc F o n) (Hne : l <> []).

Lemma adopt_fields : tagged h ->
  exists h', ralloc_adopt h (PTR_FROM_HEADER n) (PTR_FROM_HEADER o) = Some h' /\ dom h' = dom h /\ same_payload h h' /\ forall c,
    fld r_child h' c = (if decide (c = o) then 0 else if decide (c = n) then hd 0 l else fld r_child h c)
    /\ fld r_parent h' c = (if decide (c ∈ l) then n else fld r_parent h c)
    /\ fld r_prev h' c = (if decide (k <> [] /\ c = hd 0 k) then end_of 0 l else fld r_prev h c)
    /\ fld r_next h' c = (if decide (c = end_of 0 l) then hd 0 k else fld r_next h c).
Proof using Hwf Hl Eo En Hd Hne.
  intros Ht. assert (Hdo : o ∈ dom h) by (rewrite (l_dom _ _ Hl); by apply elem_of_dom). assert (Hdn : n ∈ dom h) by (rewrite (l_dom _ _ Hl); by apply elem_of_dom).
  assert (Hno : n <> o) by (intros Eq; apply Hd; rewrite Eq; apply rtc_refl).
  unfold ralloc_adopt. rewrite (ptr_nonzero F o) by (try done; by apply elem_of_dom). rewrite !get_header_ok by done. cbn [mbind option_bind].
  run_read o. rewrite (l_child _ _ Hl _ _ Eo). destruct (sib_in h F Hwf Hl o l (hd 0 l) Eo (hd_in 0 l Hne)) as (_ & H0 & _).
  destruct (Z.eqb_spec (hd 0 l) 0); [done|]. destruct (exists_last Hne) as (l1 & z & ->).
  destruct (adopt_loop_fields n l1 h z (fuel_of h)) as (h1 & -> & Hd1 & Hp1 & Hf1).
  { eapply chain_nexts. by apply (l_chain _ _ Hl). }
  { intros c Hc. destruct (sib_in h F Hwf Hl o _ c Eo Hc) as (? & ? & _). done. }
  { pose proof (fuel_enough h (l1 ++ [z])) as Hlen. rewrite length_app in Hlen. cbn in Hlen.
    enough (length l1 + 1 < fuel_of h)%nat by lia. apply Hlen; [by eapply wf_nodup|]. intros b Hb. by apply (sib_in h F Hwf Hl o _ b Eo). }
  cbn [mbind option_bind]. rewrite end_of_app. cbn [end_of].
  destruct (sib_in h F Hwf Hl o _ z Eo ltac:(set_solver)) as (Hdz & Hz0 & Hzo & _). rewrite <- Hd1 in Hdz, Hdo, Hdn.
  run_store. run_read n. fields. destruct (Hf1 n) as (-> & _). rewrite (l_child _ _ Hl _ _ En). run_store.
  assert (Hk : k <> [] -> hd 0 k ∈ dom h1 /\ hd 0 k <> 0).
  { intros Hk. rewrite Hd1. destruct (sib_in h F Hwf Hl n k (hd 0 k) En (hd_in 0 k Hk)) as (? & ? & _). done. }
  assert (Hfin : forall c, fld r_child h1 c = fld r_child h c) by (intros c; apply Hf1). pose proof (l_child _ _ Hl _ _ Eo) as Hco.
  destruct (decide (k = [])) as [->|Hk'].
  - cbn [hd Z.eqb mbind option_bind]. run_read o. fields. rewrite Hfin, Hco. run_store. run_store. eexists. split; [reflexivity|]. split; [by rewrite ?dom_alter_L|].
    split; [eapply same_payload_trans; [exact Hp1|]; payloads|]. intros c. fields. destruct (Hf1 c) as (-> & -> & -> & ->).
    assert (Hmem : c ∈ l1 ++ [z] <-> c = z \/ c ∈ l1) by (rewrite elem_of_app, list_elem_of_singleton; tauto).
    split_and!; repeat case_decide; first [done|congruence|exfalso; tauto].
  - destruct (Hk Hk') as [I1 I2]. destruct (Z.eqb_spec (hd 0 k) 0); [done|]. run_store. run_read o. fields. rewrite Hfin, Hco. run_store. run_store.
    eexists. split; [reflexivity|]. split; [by rewrite ?dom_alter_L|].
    split; [eapply same_payload_trans; [exact Hp1|]; payloads|]. intros c. fields. destruct (Hf1 c) as (-> & -> & -> & ->).
    assert (Hmem : c ∈ l1 ++ [z] <-> c = z \/ c ∈ l1) by (rewrite elem_of_app, list_elem_of_singleton; tauto).
    split_and!; repeat case_decide; first [done|congruence|exfalso; tauto].
Qed.

Lemma adopt_links : tagged h ->
  exists h', ralloc_adopt h (PTR_FROM_HEADER n) (PTR_FROM_HEADER o) = Some h' /\ same_payload h h' /\ links h' (adopt F n o).
Proof using Hwf Hl Eo En Hd Hne.
  intros Ht. destruct (adopt_fields Ht) as (h' & E & Hdom & Hp & Hf). exists h'. split; [done|]. split; [done|].
  pose proof (adopt_ne F n o Hd) as Hno. pose proof (wf_nodup F Hwf _ _ Eo) as Hnl. pose proof (wf_nodup F Hwf _ _ En) as Hnk.
  assert (Hlk : forall c, c ∈ l -> c ∉ k) by (intros c Hc; by apply (other_child F Hwf o n l k c)).
  assert (Hother : forall c, c ∉ l -> c ∉ k -> sib h' c = sib h c).
  { intros c H1 H2. destruct (Hf c) as (_ & E2 & E3 & E4). unfold sib. rewrite E2, E3, E4. rewrite (decide_False (P := c ∈ l)) by done.
    rewrite decide_False by (intros [Hk ->]; by apply H2, hd_in). rewrite decide_False; [done|]. intros ->. by apply H1, end_of_in. }
  split.
  - rewrite Hdom, (dom_adopt F n o l k Eo En). apply Hl.
  - intros q ks. rewrite (lookup_adopt F n o l k Eo En). destruct (Hf q) as (-> & _). destruct (decide (q = n)) as [->|Hqn].
    + intros [= <-]. rewrite decide_False by done. by destruct l.
    + destruct (decide (q = o)) as [->|]; [by intros [= <-]|]. apply Hl.
  - intros q ks. rewrite (lookup_adopt F n o l k Eo En). destruct (decide (q = n)) as [->|Hqn]; [|destruct (decide (q = o)) as [->|Hqo]].
    + intros [= <-]. apply chain_app. split.
      * eapply chain_move; [done|by apply (l_chain _ _ Hl _ _ Eo)|]. intros c Hc. destruct (Hf c) as (_ & -> & -> & ->).
        rewrite (decide_True (P := c ∈ l)) by done. split; [done|]. split; [|done]. rewrite decide_False; [done|]. intros [Hk ->]. apply (Hlk _ Hc). by apply hd_in.
      * eapply chain_start; [done|by apply (l_chain _ _ Hl _ _ En)|]. intros c Hc. destruct (Hf c) as (_ & -> & -> & ->).
        rewrite (decide_False (P := c ∈ l)) by (intros Hc'; by apply (Hlk c)). split; [done|]. split.
        -- rewrite decide_False; [done|]. intros ->. apply (Hlk (end_of 0 l)); [by apply end_of_in|done].
        -- assert (k <> []) by (intros ->; by apply not_elem_of_nil in Hc). repeat case_decide; first [done|exfalso; tauto].
    + by intros [= <-].
    + intros Eq. eapply chain_frame; [|by apply (l_chain _ _ Hl)]. intros c Hc. apply Hother.
      * intros Hc'. by apply (other_child F Hwf o q l ks c).
      * intros Hc'. by apply (other_child F Hwf n q k ks c).
  - intros b Hb Hr. rewrite (dom_adopt F n o l k Eo En) in Hb. assert (Hnew : b ∉ l ++ k).
    { apply (Hr n (l ++ k)). by rewrite (lookup_adopt F n o l k Eo En), decide_True by done. }
    rewrite Hother by set_solver. apply Hl; [done|]. intros q ks Eq Hin.
    destruct (decide (q = n)) as [->|Hqn]; [rewrite En in Eq; set_solver|]. destruct (decide (q = o)) as [->|Hqo]; [rewrite Eo in Eq; set_solver|].
    apply (Hr q ks); [|done]. by rewrite (lookup_adopt F n o l k Eo En), !decide_False by done.
Qed.
End adopt_heap.

Lemma adopt_repr h F n o : repr h F -> n ∈ dom F -> o ∈ dom F -> ~ desc F o n ->
  exists h', ralloc_adopt h (PTR_FROM_HEADER n) (PTR_FROM_HEADER o) = Some h' /\ repr h' (adopt F n o) /\ same_payload h h'.
Proof.
  intros [Hwf Hl Ht] Hn Ho Hd. pose proof (adopt_ne F n o Hd) as Hno. pose proof Hn as [k En]%elem_of_dom. pose proof Ho as [l Eo]%elem_of_dom.
  destruct (decide (l = [])) as [->|Hne].
  - exists h. split; [|split; [|done]].
    + unfold ralloc_adopt. assert (Hdo : o ∈ dom h) by (by rewrite (l_dom _ _ Hl)). assert (Hdn : n ∈ dom h) by (by rewrite (l_dom _ _ Hl)).
      rewrite (ptr_nonzero F o Hwf Ho), !get_header_ok by done. cbn [mbind option_bind]. run_read o. by rewrite (l_child _ _ Hl _ _ Eo).
    + replace (adopt F n o) with F; [done|]. apply map_eq. intros q. rewrite (lookup_adopt F n o [] k Eo En). repeat case_decide; subst; done.
  - destruct (adopt_links h F n o l k Hwf Hl Eo En Hd Hne Ht) as (h' & E & Hp & Hl'). exists h'. split; [done|]. split; [|done].
    split; [by apply (wf_adopt F n o l k)|done|]. eapply same_payload_tagged; [exact Hp| |done].
    by rewrite (l_dom _ _ Hl'), (l_dom _ _ Hl), (dom_adopt F n o l k Eo En).
Qed.
