(* ===== verification/RallocResize.v ===== *)
(** * Resizing blocks (src/util/ralloc.c: resize)

    realloc can move a block; then the links to it from its parent, its siblings and its
    children are renamed. *)

From Stdlib Require Import ZArith Lia.
From stdpp Require Import base list gmap numbers option sets.
From S2P Require Import Prelude Ralloc RallocTree.
Local Open Scope Z_scope.

Implicit Types (h : heap) (F : forest) (a c p x y : Z) (l : list Z).

(** ** Renaming *)

Definition swap a a' x : Z := if decide (x = a) then a' else if decide (x = a') then a else x.
Definition rename F a a' : forest := kmap (M1 := gmap Z) (M2 := gmap Z) (swap a a') (fmap (M := list) (swap a a') <$> F).

#[export] Instance swap_inj a a' : Inj (=) (=) (swap a a').
Proof. intros x y. unfold swap. repeat case_decide; congruence. Qed.
Lemma swap_swap a a' x : swap a a' (swap a a' x) = x.
Proof. unfold swap. repeat case_decide; congruence. Qed.
Lemma swap_other a a' x : x <> a -> x <> a' -> swap a a' x = x.
Proof. intros. unfold swap. by rewrite !decide_False. Qed.
Lemma swap_left a a' : swap a a' a = a'.
Proof. unfold swap. by rewrite decide_True. Qed.

Section renaming.
Context a a' (Ha : 0 < a) (Ha' : 0 < a').
Notation ren := (swap a a').

Lemma swap_0 : ren 0 = 0.
Proof using Ha Ha'. apply swap_other; lia. Qed.
Lemma lookup_rename F q : rename F a a' !! q = fmap ren <$> F !! ren q.
Proof using. clear. rewrite <- (swap_swap a a' q) at 1. unfold rename. rewrite (lookup_kmap (swap a a')), lookup_fmap. done. Qed.
Lemma elem_of_dom_rename F q : q ∈ dom (rename F a a') <-> ren q ∈ dom F.
Proof using. clear. rewrite !elem_of_dom, lookup_rename. by rewrite fmap_is_Some. Qed.
Lemma rename_child F c p : child_of (rename F a a') c p <-> child_of F (ren c) (ren p).
Proof using.
  clear. unfold child_of. rewrite lookup_rename. split.
  - intros (l & (l' & E & ->)%fmap_Some & (d & -> & Hd)%list_elem_of_fmap). exists l'. rewrite swap_swap. done.
  - intros (l & E & Hc). exists (ren <$> l). rewrite E. split; [done|]. apply list_elem_of_fmap. exists (ren c). by rewrite swap_swap.
Qed.
Lemma rename_root F c : root (rename F a a') c <-> root F (ren c).
Proof using.
  clear. split; intros Hr p l E Hin.
  - destruct (proj2 (rename_child F c (ren p))) as (l' & E' & Hin'); [rewrite swap_swap; by exists l|by apply (Hr _ _ E')].
  - destruct (proj1 (rename_child F c p)) as (l' & E' & Hin'); [by exists l|by apply (Hr _ _ E')].
Qed.

Lemma wf_rename F : wf F -> wf (rename F a a').
Proof using Ha Ha'.
  intros Hwf. split.
  - intros b Hb%elem_of_dom_rename. pose proof (wf_pos F Hwf _ Hb) as Hp. unfold swap in Hp. repeat case_decide; lia.
  - intros p l c E Hc. apply elem_of_dom_rename. destruct (proj1 (rename_child F c p)) as (l' & E' & Hc'); [by exists l|]. by eapply wf_dom.
  - intros p l. rewrite lookup_rename. intros (l' & E & ->)%fmap_Some. apply (NoDup_fmap_2 _). by eapply wf_nodup.
  - intros p1 p2 c H1%rename_child H2%rename_child. apply (inj ren). by eapply wf_unique.
  - intros b. rewrite <- (swap_swap a a' b). pose proof (wf_acc F Hwf (ren b)) as Hb. induction Hb as [b' _ IH]. constructor. intros c Hc%rename_child.
    rewrite swap_swap in Hc. rewrite <- (swap_swap a a' c). by apply IH.
Qed.

(** A heap with the renamed links *)
Definition ren_sib (s : Z * Z * Z) : Z * Z * Z := let '(p, x, y) := s in (ren p, ren x, ren y).
Lemma chain_rename h h' p x l y : (forall c, c ∈ l -> sib h' (ren c) = ren_sib (sib h c)) -> chain h p x l y -> chain h' (ren p) (ren x) (ren <$> l) (ren y).
Proof using.
  clear. revert x. induction l as [|c l IH]; intros x Hf; cbn [chain fmap list_fmap]; [done|]. intros [Hs Hc]. split.
  - rewrite Hf, Hs by set_solver. cbn. by destruct l.
  - apply IH; [set_solver|done].
Qed.
Lemma links_rename h h' F : wf F -> links h F -> (forall x, x ∈ dom h' <-> ren x ∈ dom F) ->
  (forall x, x ∈ dom F -> fld r_child h' (ren x) = ren (fld r_child h x)) -> (forall x, x ∈ dom F -> sib h' (ren x) = ren_sib (sib h x)) ->
  links h' (rename F a a').
Proof using Ha Ha'.
  intros Hwf Hl Hd Hc Hs. split.
  - apply set_eq. intros x. by rewrite Hd, elem_of_dom_rename.
  - intros q l. rewrite lookup_rename. intros (l' & E & ->)%fmap_Some. rewrite <- (swap_swap a a' q), Hc by (by apply elem_of_dom).
    rewrite (l_child _ _ Hl _ _ E). destruct l'; cbn; [apply swap_0|done].
  - intros q l. rewrite lookup_rename. intros (l' & E & ->)%fmap_Some. rewrite <- (swap_swap a a' q). rewrite <- swap_0.
    eapply chain_rename; [|by apply (l_chain _ _ Hl)]. intros c Hin. apply Hs. by eapply wf_dom.
  - intros q Hq%elem_of_dom_rename Hr%rename_root. rewrite <- (swap_swap a a' q), Hs by done. rewrite (l_root _ _ Hl _ Hq Hr). cbn. by rewrite swap_0.
Qed.
End renaming.

(** ** The loops and stores of [resize] *)

Lemma reparent_fields n l : forall h fuel, nexts h l -> (forall c, c ∈ l -> c ∈ dom h /\ c <> 0) -> (length l < fuel)%nat ->
  exists h', reparent_loop fuel h n (hd 0 l) = Some h' /\ dom h' = dom h /\ same_payload h h' /\ forall c,
    fld r_child h' c = fld r_child h c /\ fld r_prev h' c = fld r_prev h c /\ fld r_next h' c = fld r_next h c
    /\ fld r_parent h' c = if decide (c ∈ l) then n else fld r_parent h c.
Proof.
  induction l as [|c1 l IH]; intros h [|fuel] Hn Hin Hf; cbn [length] in Hf; [lia| |lia|]; cbn [hd reparent_loop nexts] in *.
  - by exists h.
  - destruct Hn as [Hc1 Hn]. destruct (Hin c1) as [Hd1 H0]; [set_solver|]. destruct (Z.eqb_spec c1 0); [done|]. run_store. set (h1 := alter _ c1 h).
    assert (Hd1' : c1 ∈ dom h1) by (unfold h1; by rewrite dom_alter_L). run_read c1. assert (E1 : fld r_next h1 c1 = hd 0 l) by (unfold h1; by fields). rewrite E1.
    destruct (IH h1 fuel) as (h' & E & Hd & Hp & Hfl); [| |lia|].
    { eapply nexts_frame; [|exact Hn]. intros c _. unfold h1. by fields. }
    { intros c Hc. unfold h1. rewrite dom_alter_L. apply Hin. set_solver. }
    exists h'. split; [done|]. split; [rewrite Hd; unfold h1; by rewrite dom_alter_L|]. split; [eapply same_payload_trans; [|exact Hp]; unfold h1; payloads|].
    intros c. destruct (Hfl c) as (-> & -> & -> & ->). unfold h1. fields.
    assert (Hmem : c ∈ c1 :: l <-> c = c1 \/ c ∈ l) by apply elem_of_cons.
    split_and!; [done|done|done|]. repeat case_decide; first [done|exfalso; tauto].
Qed.

(** The heap after [realloc]: the links of the block are found at the new address. *)
Definition moved h h1 a a' : Prop := forall x f, (forall d b, f (set_data d b) = f b) ->
  fld f h1 x = if decide (x = a') then fld f h a else if decide (x = a) then 0 else fld f h x.

Lemma realloc_moved h r a n : a ∈ dom h -> HEADER_SIZE <= n ->
  exists h1 d d', realloc_block h r a n = Some h1 /\ dom h1 = {[addr r]} ∪ (dom h ∖ {[a]}) /\ moved h h1 a (addr r)
    /\ (forall x, x <> a -> x <> addr r -> h1 !! x = h !! x)
    /\ r_data <$> h !! a = Some d
    /\ payload <$> h1 !! addr r = Some (fld r_canary h a, fld r_size h a, fld r_destructor h a, d')
    /\ Z.of_nat (length d') = n - HEADER_SIZE /\ (forall i, (i < length d)%nat -> (i < length d')%nat -> d' !! i = d !! i).
Proof.
  intros [b E]%elem_of_dom Hn. unfold realloc_block. rewrite (proj2 (Z.leb_le _ _) Hn), E. cbn [mbind option_bind].
  set (k := Z.to_nat (n - HEADER_SIZE)). set (d' := take k _). exists (<[addr r := set_data d' b]> (delete a h)), (r_data b), d'. split; [done|].
  split; [by rewrite dom_insert_L, dom_delete_L|]. split.
  { intros x f Hf. unfold fld. destruct (decide (x = addr r)) as [->|Hx]; [by rewrite lookup_insert_eq, E, Hf|]. rewrite lookup_insert_ne by done.
    destruct (decide (x = a)) as [->|]; [by rewrite lookup_delete_eq|by rewrite lookup_delete_ne]. }
  split; [intros x Hx Hx'; by rewrite lookup_insert_ne, lookup_delete_ne|]. split; [done|].
  split; [rewrite lookup_insert_eq; unfold fld; rewrite E; done|].
  assert (Hlen : length d' = k). { unfold d'. rewrite length_take, length_app, length_drop, length_resize. lia. }
  split; [rewrite Hlen; unfold k; lia|]. intros i Hi Hi'. unfold d'. rewrite lookup_take_lt by lia. by rewrite lookup_app_l.
Qed.

(** ** Which links lead to a block *)

Section leading.
Context h F (Hwf : wf F) (Hl : links h F).

Lemma sib_place x : x ∈ dom F -> sib h x = (0, 0, 0) /\ root F x
  \/ exists p l1 l2, F !! p = Some (l1 ++ x :: l2) /\ sib h x = (p, end_of 0 l1, hd 0 l2).
Proof using Hl.
  intros Hx. destruct (root_dec F x) as [Hr|(p & l1 & l2 & E)]; [left; by split; [apply Hl|]|right]. exists p, l1, l2. split; [done|].
  by apply (chain_sib h p 0 l1 x l2 0), Hl.
Qed.
Lemma next_prev x a : x ∈ dom F -> a ∈ dom F -> fld r_next h x = a <-> fld r_prev h a = x.
Proof using Hwf Hl.
  intros Hx Ha. pose proof (wf_pos F Hwf x Hx). pose proof (wf_pos F Hwf a Ha). split; intros E.
  - destruct (sib_place x Hx) as [[Hs _]|(p & l1 & l2 & Ep & Hs)]; unfold sib in Hs; injection Hs as _ _ S3; [lia|].
    destruct l2 as [|c l2]; cbn in S3; [lia|]. replace c with a in Ep by congruence. pose proof (l_chain _ _ Hl _ _ Ep) as Hc.
    replace (l1 ++ x :: a :: l2) with ((l1 ++ [x]) ++ a :: l2) in Hc by (by rewrite <- app_assoc). apply chain_sib in Hc. rewrite end_of_app in Hc. unfold sib in Hc. cbn in Hc. congruence.
  - destruct (sib_place a Ha) as [[Hs _]|(p & l1 & l2 & Ep & Hs)]; unfold sib in Hs; injection Hs as _ S2 _; [lia|].
    destruct l1 as [|c l1 _] using rev_ind; [cbn in S2; lia|]. rewrite end_of_app in S2. cbn in S2. replace c with x in Ep by congruence.
    pose proof (l_chain _ _ Hl _ _ Ep) as Hc. rewrite <- app_assoc in Hc. apply chain_sib in Hc. unfold sib in Hc. cbn in Hc. congruence.
Qed.
Lemma parent_kids x a ks : x ∈ dom F -> F !! a = Some ks -> fld r_parent h x = a <-> x ∈ ks.
Proof using Hwf Hl.
  intros Hx Ea. pose proof (wf_pos F Hwf a ltac:(by apply elem_of_dom)). split; intros E.
  - destruct (sib_place x Hx) as [[Hs _]|(p & l1 & l2 & Ep & Hs)]; unfold sib in Hs; injection Hs as S1 _ _; [lia|].
    replace p with a in Ep by congruence. rewrite Ea in Ep. injection Ep as ->. set_solver.
  - by eapply chain_parent, E; apply Hl.
Qed.
Lemma child_parent x a : x ∈ dom F -> a ∈ dom F -> fld r_child h x = a -> fld r_parent h a = x.
Proof using Hwf Hl.
  intros [l E]%elem_of_dom Ha Hc. pose proof (wf_pos F Hwf a Ha). rewrite (l_child _ _ Hl _ _ E) in Hc. destruct l as [|c l]; cbn in Hc; [lia|]. subst c.
  by apply (parent_kids a x (a :: l) Ha E), list_elem_of_here.
Qed.
(** Links lead to blocks, and not from a block to itself. *)
Lemma link_target f x : f = r_child \/ f = r_parent \/ f = r_prev \/ f = r_next -> x ∈ dom F -> fld f h x = 0 \/ fld f h x ∈ dom F /\ fld f h x <> x.
Proof using Hwf Hl.
  intros Hf Hx. pose proof Hx as [ks Ek]%elem_of_dom. destruct Hf as [->|Hf].
  - rewrite (l_child _ _ Hl _ _ Ek). destruct ks as [|c ks]; [by left|right]. cbn. destruct (sib_in h F Hwf Hl x _ c Ek ltac:(set_solver)) as (Hc & _ & Hne & _).
    by rewrite <- (l_dom _ _ Hl).
  - destruct (sib_place x Hx) as [[Hs _]|(p & l1 & l2 & Ep & Hs)]; unfold sib in Hs; injection Hs as S1 S2 S3; destruct Hf as [->|[->| ->]]; rewrite ?S1, ?S2, ?S3; try by left.
    + right. destruct (sib_in h F Hwf Hl p _ x Ep ltac:(set_solver)) as (_ & _ & Hne & Hp & _). by rewrite <- (l_dom _ _ Hl).
    + destruct l1 as [|c l1 _] using rev_ind; [by left|right]. rewrite end_of_app. cbn. split; [by eapply wf_dom; [done|exact Ep|set_solver]|].
      intros ->. pose proof (wf_nodup F Hwf _ _ Ep) as Hnd. rewrite <- app_assoc in Hnd. apply NoDup_app in Hnd as (_ & _ & [Hn _]%NoDup_cons). set_solver.
    + destruct l2 as [|c l2]; [by left|right]. cbn. split; [by eapply wf_dom; [done|exact Ep|set_solver]|].
      intros ->. pose proof (wf_nodup F Hwf _ _ Ep) as (_ & _ & [Hn _]%NoDup_cons)%NoDup_app. set_solver.
Qed.
End leading.

(** ** Resizing *)

Section relink.
Context h F a a' h1 (Hwf : wf F) (Hl : links h F) (Ha : a ∈ dom F) (Ha' : a' ∉ dom F) (Hm : moved h h1 a a') (Hd1 : dom h1 = {[a']} ∪ (dom h ∖ {[a]})).

Definition to_new (v : Z) : Z := if decide (v = a) then a' else v.
(** The links of the block are at the new address, links to it lead there; [f] are the
    links from children. *)
Definition relinked h2 : Prop :=
  (forall f, f = r_child \/ f = r_parent \/ f = r_prev \/ f = r_next -> fld f h2 a' = fld f h a)
  /\ forall x, x ∈ dom F -> x <> a -> fld r_child h2 x = to_new (fld r_child h x) /\ fld r_prev h2 x = to_new (fld r_prev h x)
       /\ fld r_next h2 x = to_new (fld r_next h x) /\ fld r_parent h2 x = fld r_parent h x.

Lemma moved_old f x : f = r_child \/ f = r_parent \/ f = r_prev \/ f = r_next -> x ∈ dom F -> x <> a -> fld f h1 x = fld f h x.
Proof using Hm Ha'. intros Hf Hx Hne. rewrite Hm by (intros; by destruct Hf as [->|[->|[->| ->]]]). rewrite !decide_False; [done|done|]. by intros ->. Qed.
Lemma moved_new f : f = r_child \/ f = r_parent \/ f = r_prev \/ f = r_next -> fld f h1 a' = fld f h a.
Proof using Hm. intros Hf. rewrite Hm by (intros; by destruct Hf as [->|[->|[->| ->]]]). by rewrite decide_True. Qed.
Lemma in_moved x : x ∈ dom F -> x <> a -> x ∈ dom h1.
Proof using Hd1 Hl. intros Hx Hne. rewrite Hd1, (l_dom _ _ Hl). apply elem_of_union_r, elem_of_difference. by rewrite elem_of_singleton. Qed.

Lemma relink_step :
  exists h2, (i ← h1 !! a';
    if negb (a' =? a) && negb (r_parent i =? 0) then
      p ← h1 !! r_parent i;
      h ← (if r_child p =? a then store h1 (r_parent i) (set_child a') else Some h1);
      h ← (if r_prev i =? 0 then Some h else store h (r_prev i) (set_next a'));
      if r_next i =? 0 then Some h else store h (r_next i) (set_prev a')
    else Some h1) = Some h2 /\ dom h2 = dom h1 /\ same_payload h1 h2 /\ relinked h2.
Proof using Hwf Hl Ha Ha' Hm Hd1.
  assert (Hna : a' <> a) by (by intros ->). assert (Hda : a' ∈ dom h1) by (rewrite Hd1; set_solver). pose proof (wf_pos F Hwf a Ha) as Ha0.
  run_read a'. rewrite !moved_new by auto. destruct (Z.eqb_spec a' a); [done|]. cbn [negb andb].
  assert (Hx : forall x, x ∈ dom F -> x <> a -> x <> a') by (intros x Hx _ ->; done).
  assert (N1 : forall x, x ∈ dom F -> fld r_next h x = a <-> fld r_prev h a = x) by (intros x H; by apply (next_prev h F)).
  assert (N2 : forall x, x ∈ dom F -> fld r_prev h x = a <-> fld r_next h a = x) by (intros x H; symmetry; by apply (next_prev h F)).
  assert (N3 : forall x, x ∈ dom F -> fld r_child h x = a -> fld r_parent h a = x) by (intros x H; by apply (child_parent h F)).
  pose proof (link_target h F Hwf Hl r_parent a ltac:(auto) Ha) as Tp. pose proof (link_target h F Hwf Hl r_prev a ltac:(auto) Ha) as Tx.
  pose proof (link_target h F Hwf Hl r_next a ltac:(auto) Ha) as Ty.
  assert (T0 : fld r_parent h a = 0 -> fld r_prev h a = 0 /\ fld r_next h a = 0).
  { intros E0. destruct (sib_place h F Hl a Ha) as [[Hs _]|(p & l1 & l2 & Ep & Hs)]; unfold sib in Hs; [by simplify_eq|].
    pose proof (wf_pos F Hwf p ltac:(by apply elem_of_dom)). injection Hs as S1 _ _. lia. }
  set (pv := fld r_parent h a) in *. set (pr := fld r_prev h a) in *. set (nx := fld r_next h a) in *.
  assert (P0 : forall x, x ∈ dom F -> x <> 0) by (intros x H; pose proof (wf_pos F Hwf x H); lia).
  assert (Hold : forall x, x ∈ dom F -> x <> a -> fld r_child h1 x = fld r_child h x /\ fld r_prev h1 x = fld r_prev h x /\ fld r_next h1 x = fld r_next h x /\ fld r_parent h1 x = fld r_parent h x)
    by (intros x H H'; rewrite !moved_old by auto; done).
  destruct (Z.eqb_spec pv 0) as [E0|E0]; cbn [negb].
  - exists h1. split; [done|]. split; [done|]. split; [done|]. split; [apply moved_new|]. destruct (T0 E0) as [E1 E2]. intros x H H'. destruct (Hold x H H') as (-> & -> & -> & ->).
    unfold to_new. specialize (N1 x H). specialize (N2 x H). specialize (N3 x H). specialize (P0 x H). rewrite !decide_False; [done| | |]; intros Eq; [apply N1 in Eq|apply N2 in Eq|apply N3 in Eq]; congruence.
  - destruct Tp as [|[Tp Tpa]]; [done|]. assert (Hdp : pv ∈ dom h1) by (by apply in_moved). run_read pv. rewrite (moved_old r_child pv) by auto.
    assert (Hdr : pr <> 0 -> pr ∈ dom h1 /\ pr ∈ dom F /\ pr <> a) by (intros Hr; destruct Tx as [|[? ?]]; [done|]; split; [by apply in_moved|done]).
    assert (Hdx : nx <> 0 -> nx ∈ dom h1 /\ nx ∈ dom F /\ nx <> a) by (intros Hr; destruct Ty as [|[? ?]]; [done|]; split; [by apply in_moved|done]).
    clear Tx Ty T0. destruct (Z.eqb_spec (fld r_child h pv) a) as [Ec|Ec], (Z.eqb_spec pr 0) as [Er|Er], (Z.eqb_spec nx 0) as [Ex|Ex];
      try destruct (Hdr Er) as (Ir & Jr & Kr); try destruct (Hdx Ex) as (Ix & Jx & Kx); repeat first [run_store|progress cbn [mbind option_bind]].
    all: eexists; split; [reflexivity|]; split; [by rewrite ?dom_alter_L|]; split; [payloads|]; split;
      [intros f Hf; rewrite ?fld_alter_ne by (intros Eq; rewrite Eq in *; by auto); by apply moved_new|].
    all: intros x H H'; fields; destruct (Hold x H H') as (-> & -> & -> & ->); specialize (N1 x H); specialize (N2 x H); specialize (N3 x H); specialize (P0 x H);
      clear Hold Hx Hdr Hdx; unfold to_new;
      assert (x = pr -> fld r_next h x = a) by (intros Eq; apply N1; congruence); assert (x = nx -> fld r_prev h x = a) by (intros Eq; apply N2; congruence); split_and!; repeat case_decide; first [done|congruence|exfalso; intuition congruence].
Qed.
End relink.

Lemma nexts_in h l c : nexts h l -> c ∈ l -> fld r_next h c = 0 \/ fld r_next h c ∈ l.
Proof.
  induction l as [|d l IH]; [by intros _ ?%not_elem_of_nil|]. intros [Hd Hn] [->|Hc]%elem_of_cons.
  - rewrite Hd. destruct l as [|e l]; [by left|right]. cbn. set_solver.
  - destruct (IH Hn Hc); [by left|right; set_solver].
Qed.
Lemma rename_same F a : rename F a a = F.
Proof.
  assert (E : forall x, swap a a x = x) by (intros x; unfold swap; repeat case_decide; congruence).
  apply map_eq. intros q. rewrite lookup_rename, E. destruct (F !! q) as [l|]; [cbn|done]. f_equal. rewrite <- (list_fmap_id l) at 2. by apply list_fmap_ext.
Qed.

(** The block after [resize]: as many of the old bytes as fit, the rest of the header as before. *)
Definition resized h h' a a' size : Prop :=
  (forall x, x <> a -> x <> a' -> payload <$> h' !! x = payload <$> h !! x)
  /\ exists d d', payload <$> h !! a = Some (CANARY, fld r_size h a, fld r_destructor h a, d)
       /\ payload <$> h' !! a' = Some (CANARY, fld r_size h a, fld r_destructor h a, d')
       /\ size <= Z.of_nat (length d') /\ forall i, (i < length d)%nat -> (i < length d')%nat -> d' !! i = d !! i.

Lemma reparent_links h F a a' h2 ks : wf F -> links h F -> 0 < a' -> a' = a \/ a' ∉ dom F -> F !! a = Some ks ->
  relinked h F a a' h2 -> (forall x, x ∈ dom h2 <-> swap a a' x ∈ dom F) ->
  exists h3, reparent_loop (fuel_of h2) h2 a' (hd 0 ks) = Some h3 /\ dom h3 = dom h2 /\ same_payload h2 h3 /\ links h3 (rename F a a').
Proof.
  intros Hwf Hl Hr0 Hr Ek [Hnew Hold] Hin2. assert (Ha : a ∈ dom F) by (by apply elem_of_dom). pose proof (wf_pos F Hwf a Ha) as Ha0.
  assert (Hka : forall c, c ∈ ks -> c ∈ dom F /\ c <> a /\ c <> 0).
  { intros c Hc. destruct (sib_in h F Hwf Hl a ks c Ek Hc) as (? & ? & ? & _). rewrite <- (l_dom _ _ Hl). done. }
  assert (Hno : forall x, x ∈ dom F -> x <> a -> x <> a') by (intros x Hx Hne ->; destruct Hr; congruence).
  assert (Hkd : forall c, c ∈ ks -> c ∈ dom h2) by (intros c Hc; destruct (Hka c Hc) as (Hc1 & Hc2 & _); apply Hin2; by rewrite swap_other by auto).
  destruct (reparent_fields a' ks h2 (fuel_of h2)) as (h3 & E3 & Hd3 & Hp3 & Hf3).
  { pose proof (chain_nexts h a 0 ks (l_chain _ _ Hl _ _ Ek)) as Hn. eapply nexts_frame; [|exact Hn]. intros c Hc. destruct (Hka c Hc) as (Hc1 & Hc2 & _).
    destruct (Hold c Hc1 Hc2) as (_ & _ & -> & _). unfold to_new. rewrite decide_False; [done|]. destruct (nexts_in h ks c Hn Hc) as [->|Hin]; [lia|by apply Hka]. }
  { intros c Hc. split; [by apply Hkd|by apply Hka]. }
  { apply fuel_enough; [by eapply wf_nodup|done]. }
  exists h3. split; [done|]. split; [done|]. split; [done|].
  assert (Htgt : forall f x, f = r_child \/ f = r_parent \/ f = r_prev \/ f = r_next -> x ∈ dom F -> swap a a' (fld f h x) = to_new a a' (fld f h x)).
  { intros f x Hf Hx. pose proof (link_target h F Hwf Hl f x Hf Hx) as Hv. unfold swap, to_new. case_decide as Eva; [done|]. case_decide as Eva'; [|done].
    rewrite Eva' in *. destruct Hv as [Hv|[Hv _]]; [lia|]. by destruct (Hno a' Hv Eva). }
  assert (Hself : forall f, f = r_child \/ f = r_parent \/ f = r_prev \/ f = r_next -> swap a a' (fld f h a) = fld f h a).
  { intros f Hf. rewrite Htgt by done. unfold to_new. rewrite decide_False; [done|]. destruct (link_target h F Hwf Hl f a Hf Ha) as [->|[_ ?]]; [lia|done]. }
  apply (links_rename a a' Ha0 Hr0 h h3 F Hwf Hl); [intros x; by rewrite Hd3, Hin2| |].
  - intros x Hx. destruct (decide (x = a)) as [->|Hxa]; [rewrite swap_left, Hself by auto|rewrite (swap_other a a' x), Htgt by auto].
    + destruct (Hf3 a') as (-> & _). by apply Hnew; auto.
    + destruct (Hf3 x) as (-> & _). by apply Hold.
  - intros x Hx. unfold sib, ren_sib. destruct (decide (x = a)) as [->|Hxa]; [rewrite swap_left, !Hself by auto|rewrite (swap_other a a' x), !Htgt by auto].
    + destruct (Hf3 a') as (_ & -> & -> & ->). rewrite !Hnew by auto. rewrite decide_False; [done|]. intros Hin. destruct (Hka a' Hin) as (Hin' & Hne & _). by apply (Hno a').
    + destruct (Hf3 x) as (_ & -> & -> & ->). destruct (Hold x Hx Hxa) as (_ & -> & -> & ->). pose proof (parent_kids h F Hwf Hl x a ks Hx Ek) as Hpk.
      do 2 f_equal. unfold to_new. repeat case_decide; tauto.
Qed.

Lemma resize_repr h F r a size : repr h F -> a ∈ dom F -> 0 < addr r -> addr r = a \/ addr r ∉ dom F -> 0 <= size -> size + 64 <= 2 ^ 64 ->
  exists h', ralloc_resize h r (PTR_FROM_HEADER a) size = Some (h', PTR_FROM_HEADER (addr r)) /\ repr h' (rename F a (addr r)) /\ resized h h' a (addr r) size.
Proof.
  intros [Hwf Hl Ht] Ha Hr0 Hr H0 H1. assert (Hda : a ∈ dom h) by (by rewrite (l_dom _ _ Hl)). pose proof (wf_pos F Hwf a Ha) as Ha0.
  unfold ralloc_resize. rewrite get_header_ok by done. destruct (block_size_ok size H0 H1) as (n & -> & Hn1 & Hn2). cbn [mbind option_bind].
  destruct (Z.eqb_spec (addr r) 0); [lia|]. destruct (realloc_moved h r a n Hda ltac:(unfold HEADER_SIZE in *; lia)) as (h1 & d & d' & -> & Hd1 & Hm & Hsame & Hd & Hpay & Hlen & Hpre).
  cbn [mbind option_bind]. set (a' := addr r) in *. rewrite (Ht a Hda) in Hpay. pose proof Ha as [ks Ek]%elem_of_dom.
  assert (Hstep : exists h2, (i ← h1 !! a'; if negb (a' =? a) && negb (r_parent i =? 0) then
      p ← h1 !! r_parent i; h ← (if r_child p =? a then store h1 (r_parent i) (set_child a') else Some h1);
      h ← (if r_prev i =? 0 then Some h else store h (r_prev i) (set_next a')); if r_next i =? 0 then Some h else store h (r_next i) (set_prev a')
    else Some h1) = Some h2 /\ dom h2 = dom h1 /\ same_payload h1 h2 /\ relinked h F a a' h2).
  { destruct Hr as [Er|Hr]; [|by apply relink_step]. exists h1. assert (Hda1 : a' ∈ dom h1) by (rewrite Hd1; set_solver).
    apply elem_of_dom in Hda1 as [b ->]. cbn [mbind option_bind]. rewrite (proj2 (Z.eqb_eq a' a) Er). cbn [negb andb].
    split; [done|]. split; [done|]. split; [done|]. unfold relinked, to_new. rewrite Er in *. split.
    - intros f Hf. rewrite Hm by (intros; by destruct Hf as [->|[->|[->| ->]]]). by rewrite decide_True.
    - intros x Hx Hne. rewrite !(Hm x) by done. rewrite !(decide_False (P := x = a)) by done. split_and!; repeat case_decide; congruence. }
  destruct Hstep as (h2 & E2 & Hd2 & Hp2 & Hrel). pose proof (proj1 Hrel r_child ltac:(auto)) as Hck.
  destruct (h1 !! a') as [i|] eqn:Ei; [|done]. cbn [mbind option_bind] in E2 |- *. rewrite E2. cbn [mbind option_bind]. clear E2.
  assert (Hda2 : a' ∈ dom h2) by (rewrite Hd2; apply elem_of_dom; by eexists).
  destruct (lookup_fld h2 a' Hda2) as (b2 & -> & Hb2). cbn [mbind option_bind]. rewrite Hb2, Hck, (l_child _ _ Hl _ _ Ek).
  destruct (reparent_links h F a a' h2 ks Hwf Hl Hr0 Hr Ek Hrel) as (h3 & -> & Hd3 & Hp3 & Hl3).
  { intros x. rewrite Hd2, Hd1, (l_dom _ _ Hl). unfold swap. destruct (decide (x = a)) as [->|Hxa]; [destruct Hr as [Er|Hr]; [rewrite Er|]; set_solver|].
    destruct (decide (x = a')) as [->|Hxa']; set_solver. }
  cbn [mbind option_bind]. exists h3. split; [done|]. rewrite <- Ei in Hpay.
  assert (Hpay3 : forall x, payload <$> h3 !! x = payload <$> h1 !! x) by (intros x; by rewrite Hp3, Hp2). split; [split; [by apply wf_rename|done|]|].
  - intros x Hx. rewrite Hd3, Hd2, Hd1 in Hx. specialize (Hpay3 x). unfold fld. destruct (decide (x = a')) as [->|Hxa'].
    + rewrite Hpay in Hpay3. destruct (h3 !! a'); cbn in Hpay3; [|done]. injection Hpay3 as -> _ _ _. done.
    + rewrite Hsame in Hpay3 by set_solver. specialize (Ht x ltac:(set_solver)). unfold fld in Ht.
      destruct (h3 !! x), (h !! x); cbn in Hpay3; try done. injection Hpay3 as -> _ _ _. done.
  - split; [intros x Hx Hx'; rewrite Hpay3; by rewrite Hsame|]. exists d, d'. split.
    + rewrite <- (Ht a Hda). destruct (lookup_fld h a Hda) as (b & Eb & _). rewrite Eb in Hd |- *. cbn in *. injection Hd as <-. unfold fld. by rewrite Eb.
    + split; [by rewrite Hpay3|]. split; [unfold HEADER_SIZE in *; lia|done].
Qed.
