(* ===== verification/RallocOps.v ===== *)
(** * What ralloc promises (src/util/ralloc.c, ralloc.h)

    The specification: an abstract state is a forest of blocks, with the destructor of
    each; a step relation says what each call does to it.  Every sequence of
    calls that the specification allows succeeds on the heap, with the same events, and
    leaves a heap with the links of the resulting forest. *)

From Stdlib Require Import ZArith Lia.
From stdpp Require Import base list gmap numbers option sets.
From S2P Require Import Prelude Ralloc RallocTree RallocResize.
Local Open Scope Z_scope.

Implicit Types (h : heap) (F : forest) (D : Z -> Z) (a c p x y : Z) (l : list Z).

(** ** Calls *)

Inductive call :=
| Alloc (r : chunk) (ctx size : Z)
| Realloc (r : chunk) (ctx ptr size : Z)
| Free (ptr : Z)
| Steal (new_ctx ptr : Z)
| Adopt (new_ctx old_ctx : Z)
| SetDestructor (ptr destructor : Z).

Definition silent (m : option heap) : option (heap * list event) := h ← m; Some (h, []).
Definition run_call h (o : call) : option (heap * list event) :=
  match o with
  | Alloc r ctx size => silent (fst <$> ralloc_size h r ctx size)
  | Realloc r ctx ptr size => silent (fst <$> reralloc_size h r ctx ptr size)
  | Free ptr => ralloc_free h ptr
  | Steal new_ctx ptr => silent (ralloc_steal h new_ctx ptr)
  | Adopt new_ctx old_ctx => silent (ralloc_adopt h new_ctx old_ctx)
  | SetDestructor ptr f => silent (ralloc_set_destructor h ptr f)
  end.
Fixpoint run_calls h (os : list call) : option (heap * list event) :=
  match os with
  | [] => Some (h, [])
  | o :: os => '(h, e1) ← run_call h o; '(h, e2) ← run_calls h os; Some (h, e1 ++ e2)
  end.

(** ** Specification *)

Definition upd D a (v : Z) : Z -> Z := fun x => if decide (x = a) then v else D x.
Definition spec_events D l : list event :=
  l ≫= fun a => (if D a =? 0 then [] else [Destroy (D a) (PTR_FROM_HEADER a)]) ++ [Release a].
Definition size_ok (size : Z) : Prop := 0 <= size /\ size + 64 <= 2 ^ 64.
(** A fresh address. *)
Definition fresh F (r : chunk) : Prop := 0 < addr r /\ addr r ∉ dom F.

Inductive spec_call F D : call -> forest -> (Z -> Z) -> list event -> Prop :=
| spec_alloc r ctx size : context F ctx -> fresh F r -> size_ok size ->
    spec_call F D (Alloc r ctx size) (allocate F (header_of ctx) (addr r)) (upd D (addr r) 0) []
| spec_alloc_fail r ctx size : context F ctx -> addr r = 0 -> size_ok size -> spec_call F D (Alloc r ctx size) F D []
| spec_realloc_null r ctx size : context F ctx -> fresh F r -> size_ok size ->
    spec_call F D (Realloc r ctx 0 size) (allocate F (header_of ctx) (addr r)) (upd D (addr r) 0) []
| spec_realloc r ctx a size : child_of F a (header_of ctx) \/ ctx = 0 /\ root F a -> a ∈ dom F -> fresh F r \/ addr r = a -> size_ok size ->
    spec_call F D (Realloc r ctx (PTR_FROM_HEADER a) size) (rename F a (addr r)) (upd D (addr r) (D a)) []
| spec_realloc_fail r ctx a size : child_of F a (header_of ctx) \/ ctx = 0 /\ root F a -> a ∈ dom F -> addr r = 0 -> size_ok size ->
    spec_call F D (Realloc r ctx (PTR_FROM_HEADER a) size) F D []
| spec_free_null : spec_call F D (Free 0) F D []
| spec_free a l : a ∈ dom F -> post F a l -> spec_call F D (Free (PTR_FROM_HEADER a)) (release F a l) D (spec_events D l)
| spec_steal ctx a : a ∈ dom F -> context F ctx -> ~ desc F a (header_of ctx) ->
    spec_call F D (Steal ctx (PTR_FROM_HEADER a)) (steal F (header_of ctx) a) D []
| spec_adopt n o : n ∈ dom F -> o ∈ dom F -> ~ desc F o n ->
    spec_call F D (Adopt (PTR_FROM_HEADER n) (PTR_FROM_HEADER o)) (adopt F n o) D []
| spec_destructor a f : a ∈ dom F -> spec_call F D (SetDestructor (PTR_FROM_HEADER a) f) F (upd D a f) [].

Inductive spec_calls F D : list call -> forest -> (Z -> Z) -> list event -> Prop :=
| spec_done : spec_calls F D [] F D []
| spec_step o os F1 D1 e1 F2 D2 e2 : spec_call F D o F1 D1 e1 -> spec_calls F1 D1 os F2 D2 e2 -> spec_calls F D (o :: os) F2 D2 (e1 ++ e2).

(** The heap implements the abstract state. *)
Definition implements h F D : Prop := repr h F /\ forall a, a ∈ dom F -> fld r_destructor h a = D a.

(** ** Refinement *)

Lemma payload_destructor h h' x y : payload <$> h' !! y = payload <$> h !! x -> fld r_destructor h' y = fld r_destructor h x.
Proof. intros E. unfold fld. destruct (h' !! y), (h !! x); cbn in E; try done. injection E as _ _ E _. done. Qed.

Lemma post_det F : (forall a l, post F a l -> forall l', post F a l' -> l = l') /\ (forall ks l, posts F ks l -> forall l', posts F ks l' -> l = l').
Proof.
  apply post_posts_ind.
  - intros a ks l E _ IH l' H. inversion H as [a' ks' l2 E' H2]; subst. f_equal. apply IH. congruence.
  - intros l' H. by inversion H.
  - intros c ks l1 l2 _ IH1 _ IH2 l' H. inversion H; subst. f_equal; auto.
Qed.

Lemma spec_free_events h D l : (forall a, a ∈ l -> fld r_destructor h a = D a) -> free_events h l = spec_events D l.
Proof.
  unfold free_events, spec_events. induction l as [|a l IH]; intros Hd; [done|]. cbn. rewrite IH by set_solver. f_equal.
  unfold free_event. by rewrite Hd by set_solver.
Qed.

Lemma dom_allocate F p a : dom (allocate F p a) = {[a]} ∪ dom F.
Proof. unfold allocate. by rewrite dom_push, dom_grow. Qed.

Lemma alloc_implements h F D r ctx size : implements h F D -> context F ctx -> fresh F r -> size_ok size ->
  exists h', ralloc_size h r ctx size = Some (h', PTR_FROM_HEADER (addr r)) /\ implements h' (allocate F (header_of ctx) (addr r)) (upd D (addr r) 0).
Proof.
  intros [Hr Hd] Hc [Hf1 Hf2] [H0 H1]. destruct (alloc_repr h F r ctx size Hr Hc Hf1 Hf2 H0 H1) as (h' & E & Hr' & (d & Hp & _) & Hsame). exists h'.
  split; [done|]. split; [done|]. intros a. rewrite dom_allocate. unfold upd. case_decide as Ea.
  - subst a. intros _. unfold fld. destruct (h' !! addr r); cbn in Hp; [|done]. injection Hp as _ _ E' _. done.
  - intros Ha. rewrite (payload_destructor h h' a a) by (by apply Hsame). apply Hd. set_solver.
Qed.

Lemma alloc_null h r ctx size : addr r = 0 -> size_ok size -> ralloc_size h r ctx size = Some (h, 0).
Proof.
  intros E [H0 H1]. unfold ralloc_size. destruct (block_size_ok size H0 H1) as (n & -> & _). cbn [mbind option_bind]. by rewrite E.
Qed.

(** The assertion of [reralloc_size] *)
Lemma parent_assert h F ctx a : repr h F -> a ∈ dom F -> child_of F a (header_of ctx) \/ ctx = 0 /\ root F a ->
  ralloc_parent h (PTR_FROM_HEADER a) = Some ctx.
Proof.
  intros [Hwf Hl Ht] Ha Hp. assert (Hda : a ∈ dom h) by (by rewrite (l_dom _ _ Hl)). unfold ralloc_parent. rewrite (ptr_nonzero F a Hwf Ha), get_header_ok by done.
  cbn [mbind option_bind]. run_read a. destruct Hp as [(ks & E & Hin)|[-> Hr]].
  - rewrite (chain_parent _ _ _ _ _ _ (l_chain _ _ Hl _ _ E) Hin). unfold header_of in *. destruct (Z.eqb_spec ctx 0) as [->|].
    + pose proof (wf_pos F Hwf 0 ltac:(by apply elem_of_dom)). lia.
    + pose proof (wf_pos F Hwf _ (proj2 (elem_of_dom F _) (ex_intro _ _ E))). destruct (Z.eqb_spec (ctx - HEADER_SIZE) 0); [lia|]. unfold PTR_FROM_HEADER. f_equal. lia.
  - pose proof (l_root _ _ Hl a Ha Hr) as Hs. unfold sib in Hs. by injection Hs as -> _ _.
Qed.

Lemma realloc_implements h F D r a size : implements h F D -> a ∈ dom F -> fresh F r \/ addr r = a -> size_ok size ->
  exists h', ralloc_resize h r (PTR_FROM_HEADER a) size = Some (h', PTR_FROM_HEADER (addr r)) /\ implements h' (rename F a (addr r)) (upd D (addr r) (D a)).
Proof.
  intros [Hr Hd] Ha Hf [H0 H1]. pose proof (wf_pos F (repr_wf _ _ Hr) a Ha) as Hpos.
  destruct (resize_repr h F r a size Hr Ha) as (h' & E & Hr' & Hsame & d & d' & Hp & Hp' & _); [destruct Hf as [[? ?]| ->]; done|destruct Hf as [[? ?]|]; auto|done|done|].
  exists h'. split; [done|]. split; [done|]. intros x Hx%elem_of_dom_rename. unfold upd, swap in *. destruct (decide (x = addr r)) as [->|Hxr].
  - unfold fld in Hp' at 2. unfold fld. rewrite <- (Hd a Ha). unfold fld. destruct (h' !! addr r); cbn in Hp'; [|done]. injection Hp' as _ _ -> _. done.
  - destruct (decide (x = a)) as [->|Hxa]; [destruct Hf as [[_ Hf]|Hf]; congruence|]. rewrite (payload_destructor h h' x x) by (by apply Hsame). by apply Hd.
Qed.

Lemma call_refines h F D o F' D' e : implements h F D -> spec_call F D o F' D' e -> exists h', run_call h o = Some (h', e) /\ implements h' F' D'.
Proof.
  intros Hi Hs. pose proof Hi as [Hr Hd]. pose proof (repr_wf _ _ Hr) as Hwf. destruct Hs as [r ctx size Hc Hf Hz|r ctx size Hc Hf Hz|r ctx size Hc Hf Hz|r ctx a size Hp Ha Hf Hz|r ctx a size Hp Ha Hf Hz| |a l Ha Hpost|ctx a Ha Hc Hn|n o Hn Ho Hno|a f Ha]; cbn [run_call].
  - destruct (alloc_implements h F D r ctx size Hi Hc Hf Hz) as (h' & -> & Hi'). by exists h'.
  - rewrite alloc_null by done. by exists h.
  - destruct (alloc_implements h F D r ctx size Hi Hc Hf Hz) as (h' & E & Hi'). exists h'. unfold reralloc_size. cbn. by rewrite E.
  - destruct (realloc_implements h F D r a size Hi Ha Hf Hz) as (h' & E & Hi'). exists h'. unfold reralloc_size.
    rewrite (ptr_nonzero F a Hwf Ha), (parent_assert h F ctx a Hr Ha Hp). cbn [mbind option_bind]. rewrite Z.eqb_refl, E. done.
  - exists h. unfold reralloc_size. rewrite (ptr_nonzero F a Hwf Ha), (parent_assert h F ctx a Hr Ha Hp). cbn [mbind option_bind]. rewrite Z.eqb_refl. unfold ralloc_resize.
    rewrite get_header_ok by (apply Hr || by rewrite (l_dom _ _ (repr_links _ _ Hr))). destruct Hz as [H0 H1]. destruct (block_size_ok size H0 H1) as (n & -> & _). cbn. by rewrite Hf.
  - by exists h.
  - destruct (free_repr h F a Hr Ha) as (h' & l' & E & Hpost' & Hr' & Hpay). rewrite (proj1 (post_det F) _ _ Hpost _ Hpost') in *.
    pose proof (post_in_dom F Hwf a l' Ha Hpost') as Hin.
    exists h'. rewrite E, (spec_free_events h D l') by (intros b Hb; by apply Hd, Hin). split; [done|]. split; [done|].
    intros x [Hx Hxl]%elem_of_dom_delete_all. rewrite dom_detach in Hx. rewrite (payload_destructor h h' x x); [by apply Hd|]. by rewrite Hpay, decide_False.
  - destruct (steal_repr h F ctx a Hr Ha Hc Hn) as (h' & -> & Hr' & Hp). exists h'. split; [done|]. split; [done|]. intros x.
    unfold steal. rewrite dom_push, dom_detach. intros Hx. rewrite (payload_destructor h h' x x); [by apply Hd|apply Hp].
  - destruct (adopt_repr h F n o Hr Hn Ho Hno) as (h' & -> & Hr' & Hp). exists h'. split; [done|]. split; [done|]. intros x.
    pose proof Hn as [k En]%elem_of_dom. pose proof Ho as [l Eo]%elem_of_dom. rewrite (dom_adopt F n o l k Eo En). intros Hx. rewrite (payload_destructor h h' x x); [by apply Hd|apply Hp].
  - pose proof Hr as [_ Hl Ht]. assert (Hda : a ∈ dom h) by (by rewrite (l_dom _ _ Hl)). unfold ralloc_set_destructor. rewrite get_header_ok by done. cbn [mbind option_bind]. run_store.
    eexists. split; [reflexivity|]. split; [split; [done| |]|].
    + apply (links_ext h F Hwf Hl); [by rewrite dom_alter_L|intros x _; by fields|intros x _; unfold sib; by fields].
    + intros x Hx. rewrite dom_alter_L in Hx. fields. by apply Ht.
    + intros x Hx. fields. unfold upd. case_decide; [done|by apply Hd].
Qed.

Lemma empty_repr : repr ∅ ∅.
Proof.
  split; [|split|]; try (intros a; by rewrite dom_empty_L; intros ?%not_elem_of_empty); try (by intros ? ? [=]); [|by rewrite !dom_empty_L].
  split; try (intros a; by rewrite dom_empty_L; intros ?%not_elem_of_empty); try (by intros ? ? [=]); try (by intros ? ? ? [=]); [by intros p1 p2 c (l & [=] & _)|].
  intros a. constructor. by intros c (l & [=] & _).
Qed.

(** C12: ralloc refines its specification: every sequence of calls that the
    specification allows (contexts and pointers that are live blocks or NULL, fresh
    addresses from malloc, no block moved below itself) succeeds from the empty heap, whatever
    malloc and realloc return, failures included; the destructor calls and the releases
    are those of the specification, in the same order, and the parent, child and sibling
    links in the resulting heap are those of the resulting forest. *)
Theorem ralloc_refines os F' D' e :
  spec_calls ∅ (fun _ => 0) os F' D' e -> exists h', run_calls ∅ os = Some (h', e) /\ implements h' F' D'.
Proof.
  assert (H0 : implements ∅ ∅ (fun _ => 0)) by (split; [apply empty_repr|intros a; by rewrite dom_empty_L; intros ?%not_elem_of_empty]).
  revert H0. generalize (∅ : heap) (∅ : forest) (fun _ : Z => 0). intros h F D Hi Hs. revert h Hi.
  induction Hs as [F D|F D o os F1 D1 e1 F2 D2 e2 Ho _ IH]; intros h Hi; [by exists h|]. destruct (call_refines h F D o F1 D1 e1 Hi Ho) as (h1 & E1 & Hi1).
  destruct (IH h1 Hi1) as (h2 & E2 & Hi2). exists h2. split; [|done]. cbn [run_calls]. rewrite E1. cbn [mbind option_bind]. by rewrite E2.
Qed.

(** A context with two blocks; the first gets a destructor and moves when it is resized, then the context is freed. *)
Definition sample_calls : list call :=
  [Alloc (Chunk 16 []) 0 0; Alloc (Chunk 96 []) 64 8; Alloc (Chunk 208 []) 64 8;
   SetDestructor 144 7; Realloc (Chunk 512 []) 64 144 100; Free 64].
Definition sample_events : list event := [Release 208; Destroy 7 560; Release 512; Release 16].

Ltac by_computation := first [split; cbn; lia | split; [cbn; lia|apply (bool_decide_unpack _); vm_compute; reflexivity] | apply (bool_decide_unpack _); vm_compute; reflexivity].

Lemma ralloc_refines_witness : exists h' F' D', run_calls ∅ sample_calls = Some (h', sample_events) /\ implements h' F' D'.
Proof.
  assert (Hs : exists F' D', spec_calls ∅ (fun _ => 0) sample_calls F' D' sample_events).
  { eexists _, _. unfold sample_calls, sample_events.
    eapply (spec_step _ _ _ _ _ _ []); [apply (spec_alloc ∅ _ (Chunk 16 []) 0 0); [by left|by_computation|by_computation]|].
    eapply (spec_step _ _ _ _ _ _ []); [apply (spec_alloc _ _ (Chunk 96 []) 64 8); [right; by_computation|by_computation|by_computation]|].
    eapply (spec_step _ _ _ _ _ _ []); [apply (spec_alloc _ _ (Chunk 208 []) 64 8); [right; by_computation|by_computation|by_computation]|].
    eapply (spec_step _ _ _ _ _ _ []); [apply (spec_destructor _ _ 96 7); by_computation|].
    eapply (spec_step _ _ _ _ _ _ []); [apply (spec_realloc _ _ (Chunk 512 []) 64 96 100); [left; exists [208; 96]; split; [by vm_compute|set_solver]|by_computation|left; by_computation|by_computation]|].
    match goal with |- spec_calls _ ?D _ _ _ ?e => change e with (spec_events D [208; 512; 16] ++ []) end.
    eapply spec_step; [|apply spec_done]. apply (spec_free _ _ 16 [208; 512; 16]); [by_computation|].
    apply (post_block _ 16 [208; 512] [208; 512]); [by vm_compute|]. apply (posts_cons _ 208 [512] [208] [512]); [apply (post_block _ 208 [] []); [by vm_compute|constructor]|].
    apply (posts_cons _ 512 [] [512] []); [apply (post_block _ 512 [] []); [by vm_compute|constructor]|constructor]. }
  destruct Hs as (F' & D' & Hs). destruct (ralloc_refines _ _ _ _ Hs) as (h' & E & Hi). by exists h', F', D'.
Defined.

(** ** Freeing *)

Definition before (c b : Z) (l : list Z) : Prop := exists l1 l2 l3, l = l1 ++ c :: l2 ++ b :: l3.

Lemma before_app_l (c b : Z) l l' : before c b l -> before c b (l ++ l').
Proof. intros (l1 & l2 & l3 & ->). exists l1, l2, (l3 ++ l'). rewrite <- app_assoc. cbn. by rewrite <- app_assoc. Qed.
Lemma before_app_r (c b : Z) l l' : before c b l' -> before c b (l ++ l').
Proof. intros (l1 & l2 & l3 & ->). exists (l ++ l1), l2, l3. by rewrite <- app_assoc. Qed.

Lemma post_before F : (forall a l, post F a l -> forall b c, child_of F c b -> b ∈ l -> before c b l)
  /\ (forall ks l, posts F ks l -> forall b c, child_of F c b -> b ∈ l -> before c b l).
Proof.
  apply post_posts_ind.
  - intros a ks l E Hp IH b c Hc [Hb| ->%list_elem_of_singleton]%elem_of_app; [by apply before_app_l, IH|].
    destruct Hc as (ks' & E' & Hin). assert (Hcl : c ∈ l) by (apply (proj2 (post_closed F) _ _ Hp); congruence).
    apply list_elem_of_split in Hcl as (l1 & l2 & ->). exists l1, l2, []. by rewrite <- app_assoc.
  - by intros b c _ ?%not_elem_of_nil.
  - intros d ks l1 l2 _ IH1 _ IH2 b c Hc [Hb|Hb]%elem_of_app; [by apply before_app_l, IH1|by apply before_app_r, IH2].
Qed.

(** C20: Freeing a block frees exactly the blocks of its subtree, each once, every block after
    all its children and right after its destructor is called, if it has one; all other blocks
    keep their contents, and the links of the rest are consistent. *)
Theorem ralloc_free_correct h F a :
  repr h F -> a ∈ dom F ->
  exists h' l, ralloc_free h (PTR_FROM_HEADER a) = Some (h', free_events h l)
    /\ NoDup l /\ (forall b, b ∈ l <-> desc F a b) /\ (forall b c, child_of F c b -> b ∈ l -> before c b l)
    /\ repr h' (release F a l) /\ (forall x, payload <$> h' !! x = if decide (x ∈ l) then None else payload <$> h !! x).
Proof.
  intros Hr Ha. destruct (free_repr h F a Hr Ha) as (h' & l & E & Hp & Hr' & Hpay). exists h', l. pose proof (repr_wf _ _ Hr) as Hwf.
  split; [done|]. split; [by apply (proj1 (post_nodup F Hwf) a)|]. split; [by apply post_desc|]. split; [|done].
  intros b c. by apply (proj1 (post_before F) a).
Qed.

(** A heap with a context and two blocks in it. *)
Definition sample_forest : forest := {[ 16 := [208; 96]; 96 := []; 208 := [] ]}.
Definition sample_heap : heap :=
  {[ 16 := Header CANARY 0 0 208 0 0 0 []; 96 := Header CANARY 8 16 0 208 0 7 [1]; 208 := Header CANARY 8 16 0 0 96 0 [65; 0] ]}.
Lemma sample_repr : repr sample_heap sample_forest.
Proof.
  assert (Hc : forall c p, child_of sample_forest c p -> p = 16 /\ (c = 208 \/ c = 96)).
  { intros c p (l & E & Hin). unfold sample_forest in E. apply lookup_insert_Some in E as [[<- <-]|[_ E]]; [set_solver|].
    apply lookup_insert_Some in E as [[<- <-]|[_ E]]; [set_solver|]. apply lookup_singleton_Some in E as [<- <-]. set_solver. }
  assert (Hd : dom sample_forest = {[16; 96; 208]}) by (by apply (bool_decide_unpack _)).
  split; [split| |].
  - rewrite Hd. set_solver by lia.
  - intros p l c E Hin. rewrite Hd. destruct (Hc c p) as [_ [-> | ->]]; [by exists l|set_solver|set_solver].
  - intros p l E. assert (Hf : map_Forall (fun _ l => NoDup l) sample_forest) by (by apply (bool_decide_unpack _)). by apply (Hf p).
  - intros p1 p2 c [-> _]%Hc [-> _]%Hc. done.
  - assert (Hleaf : forall a, a <> 16 -> Acc (child_of sample_forest) a) by (intros a Hne; constructor; by intros c [-> _]%Hc).
    intros a. destruct (decide (a = 16)) as [->|Hne]; [|by apply Hleaf]. constructor. intros c [_ [-> | ->]]%Hc; apply Hleaf; lia.
  - assert (Hf : map_Forall (fun a l => fld r_child sample_heap a = hd 0 l) sample_forest) by (by apply (bool_decide_unpack _)).
    split; [by apply (bool_decide_unpack _)|done| |].
    + intros a l E. unfold sample_forest in E. apply lookup_insert_Some in E as [[<- <-]|[_ E]]; [by vm_compute|].
      apply lookup_insert_Some in E as [[<- <-]|[_ E]]; [done|]. by apply lookup_singleton_Some in E as [<- <-].
    + intros a Ha Hr. assert (a = 16) as ->; [|by vm_compute]. rewrite Hd in Ha. assert (Hn : a ∉ [208; 96]) by (by apply (Hr 16)). set_solver.
  - assert (Hf : map_Forall (fun a b => r_canary b = CANARY) sample_heap) by (by apply (bool_decide_unpack _)).
    intros a [b E]%elem_of_dom. unfold fld. rewrite E. by apply (Hf a).
Qed.

Lemma ralloc_free_correct_witness :
  exists h' l, ralloc_free sample_heap (PTR_FROM_HEADER 16) = Some (h', free_events sample_heap l)
    /\ NoDup l /\ (forall b, b ∈ l <-> desc sample_forest 16 b) /\ (forall b c, child_of sample_forest c b -> b ∈ l -> before c b l)
    /\ repr h' (release sample_forest 16 l) /\ (forall x, payload <$> h' !! x = if decide (x ∈ l) then None else payload <$> sample_heap !! x).
Proof. apply (ralloc_free_correct sample_heap sample_forest 16 sample_repr). by apply (bool_decide_unpack _). Defined.

(** ** The total size of a subtree *)

(** The bytes that the allocation of a block took, according to the size in its header. *)
Definition block_bytes h a : Z := (fld r_size h a + HEADER_SIZE + 15) / 16 * 16.
Fixpoint sum_bytes h l : Z := match l with [] => 0 | a :: l => block_bytes h a + sum_bytes h l end.
Lemma sum_bytes_app h l1 l2 : sum_bytes h (l1 ++ l2) = sum_bytes h l1 + sum_bytes h l2.
Proof. induction l1 as [|a l1 IH]; cbn; [done|]. rewrite IH. lia. Qed.

Lemma total_size_post h F : wf F -> (forall a, a ∈ dom h -> fits 32 (fld r_size h a)) ->
  (forall a l, post F a l -> forall fuel, live F h l -> (length l <= fuel)%nat -> ralloc_total_size_internal fuel h a = Some (u32 (sum_bytes h l)))
  /\ (forall ks l, posts F ks l -> forall fuel k sum, live F h l -> nexts h ks -> (length l <= fuel)%nat -> (length ks < k)%nat ->
        total_loop (ralloc_total_size_internal fuel h) k h (hd 0 ks) (u32 sum) = Some (u32 (sum + sum_bytes h l))).
Proof.
  intros Hwf Hfit. apply post_posts_ind.
  - intros a ks l E Hp IH fuel Hv Hf. rewrite length_app in Hf. cbn in Hf. destruct fuel as [|fuel]; [lia|].
    destruct (Hv a) as (Ha & _ & Hk); [set_solver|]. destruct (Hk ks E) as [H1 H2]. specialize (Hfit a Ha). unfold fits in Hfit.
    cbn [ralloc_total_size_internal]. run_read a. unfold HEADER_SIZE, HEADER_ALIGN. rewrite u64_small by lia. change 16 with (2 ^ 4). rewrite align64_pow2 by lia. cbn [mbind option_bind].
    rewrite H1. change (2 ^ 4) with 16. replace (fld r_size h a + 48 + 16 - 1) with (fld r_size h a + HEADER_SIZE + 15) by (unfold HEADER_SIZE; lia). fold (block_bytes h a).
    assert (Hlive : live F h l) by (intros b Hb; apply Hv; set_solver).
    rewrite IH; [|done|done|lia|]; [rewrite sum_bytes_app; cbn; do 2 f_equal; lia|].
    apply fuel_enough; [by eapply wf_nodup|]. intros c Hc. apply Hlive. by apply (proj2 (post_closed F) _ _ Hp).
  - intros fuel [|k] sum _ _ _ Hk; cbn in Hk; [lia|]. cbn. f_equal. f_equal. lia.
  - intros c ks l1 l2 Hp1 IH1 Hp2 IH2 fuel [|k] sum Hv [Hn Hns] Hf Hk; cbn [length] in Hk; [lia|]. rewrite length_app in Hf. cbn [total_loop hd].
    destruct (Hv c) as (Hc & Hc0 & _); [apply elem_of_app; left; apply (proj1 (post_desc F) _ _ Hp1), rtc_refl|]. destruct (Z.eqb_spec c 0); [done|].
    rewrite IH1 by (intros b Hb; apply Hv; set_solver) || lia. cbn [mbind option_bind]. run_read c. rewrite Hn.
    replace (u32 (u32 sum + u32 (sum_bytes h l1))) with (u32 (sum + sum_bytes h l1)).
    2:{ unfold u32. rewrite wrap_wrap_add by lia. rewrite Z.add_comm, (Z.add_comm sum). by rewrite wrap_wrap_add by lia. }
    rewrite IH2; [|intros b Hb; apply Hv; set_solver|done|lia|lia]. rewrite sum_bytes_app. do 2 f_equal. lia.
Qed.

(** [ralloc_total_size] is the sum of the allocations of the subtree, modulo 2^32. *)
Theorem ralloc_total_size_correct h F a :
  repr h F -> a ∈ dom F -> (forall b, b ∈ dom F -> fits 32 (fld r_size h b)) ->
  exists l, NoDup l /\ (forall b, b ∈ l <-> desc F a b) /\ ralloc_total_size h (PTR_FROM_HEADER a) = Some (u32 (sum_bytes h l)).
Proof.
  intros [Hwf Hl Ht] Ha Hfit. destruct (post_exists F Hwf a Ha) as [l Hp]. exists l. pose proof (proj1 (post_nodup F Hwf) _ _ Hp) as Hnd. split; [done|]. split; [by apply post_desc|].
  pose proof (post_in_dom F Hwf a l Ha Hp) as Hin.
  unfold ralloc_total_size. rewrite get_header_ok by (try done; by rewrite (l_dom _ _ Hl)). cbn [mbind option_bind].
  apply (proj1 (total_size_post h F Hwf ltac:(by rewrite (l_dom _ _ Hl)))); [done|by apply links_live|].
  enough (length l < fuel_of h)%nat by lia. apply fuel_enough; [done|by rewrite (l_dom _ _ Hl)].
Qed.

(** The size in the header is not changed when a block is resized, and the total is out of date. *)
Lemma ralloc_total_size_after_resize :
  ralloc_total_size sample_heap 144 = Some 64
  /\ ('(h, ptr) ← ralloc_resize sample_heap (Chunk 96 []) 144 1000; ralloc_total_size h ptr) = Some 64.
Proof. split; by vm_compute. Qed.
