(* ===== verification/RallocString.v ===== *)
(** * Contents of blocks: zeroed memory and strings (src/util/ralloc.c)

    A C string argument that does not come from the heap is the list of its bytes without
    the terminator; NULL is [None].  The functions with a format string take the text
    that the format and its arguments stand for. *)

From Stdlib Require Import ZArith Lia.
From stdpp Require Import base list gmap numbers option sets.
From S2P Require Import Prelude Ralloc RallocTree RallocResize RallocOps.
Local Open Scope Z_scope.

Implicit Types (h : heap) (F : forest) (a c p x y : Z) (l s t d : list Z).

(** ** Operations *)

Definition len s : Z := Z.of_nat (length s).

Fixpoint strlen_bytes d : option Z :=
  match d with
  | [] => None
  | b :: d => if b =? 0 then Some 0 else n ← strlen_bytes d; Some (n + 1)
  end.
Definition strlen h (ptr : Z) : option Z := b ← h !! (ptr - HEADER_SIZE); strlen_bytes (r_data b).
Definition strnlen s (max : Z) : Z := Z.min (len s) max.

Definition ralloc_memdup h (r : chunk) (ctx : Z) (mem : list Z) : option (heap * Z) :=
  '(h, ptr) ← ralloc_size h r ctx (len mem);
  if ptr =? 0 then Some (h, 0) else h ← write_bytes h ptr 0 mem; Some (h, ptr).

(** The count of [ralloc_array] is an unsigned. *)
Definition strdup_bytes h (r : chunk) (ctx : Z) (s : list Z) : option (heap * Z) :=
  '(h, ptr) ← ralloc_array_size h r ctx 1 (u32 (len s + 1));
  h ← write_bytes h ptr 0 s;
  h ← write_bytes h ptr (len s) [0];
  Some (h, ptr).
Definition ralloc_strdup h (r : chunk) (ctx : Z) (str : option (list Z)) : option (heap * Z) :=
  match str with None => Some (h, 0) | Some s => strdup_bytes h r ctx s end.
Definition ralloc_strndup h (r : chunk) (ctx : Z) (str : option (list Z)) (max : Z) : option (heap * Z) :=
  match str with None => Some (h, 0) | Some s => strdup_bytes h r ctx (take (Z.to_nat (strnlen s max)) s) end.

(** [ralloc_str_append]: the heap, the new value of [*dest], and the result. *)
Definition ralloc_str_append h (r : chunk) (dest : Z) (str : list Z) (existing_length str_size : Z) : option (heap * Z * bool) :=
  assert! negb (dest =? 0) ;;
  '(h, both) ← ralloc_resize h r dest (u64 (existing_length + str_size + 1));
  if both =? 0 then Some (h, dest, false)
  else
    h ← write_bytes h both existing_length (take (Z.to_nat str_size) str);
    h ← write_bytes h both (existing_length + str_size) [0];
    Some (h, both, true).
Definition cat h (r : chunk) (dest : Z) (str : list Z) (n : Z) : option (heap * Z * bool) :=
  assert! negb (dest =? 0) ;;
  existing_length ← strlen h dest;
  ralloc_str_append h r dest str existing_length n.
Definition ralloc_strcat h (r : chunk) (dest : Z) (str : list Z) : option (heap * Z * bool) := cat h r dest str (len str).
Definition ralloc_strncat h (r : chunk) (dest : Z) (str : list Z) (n : Z) : option (heap * Z * bool) := cat h r dest str (strnlen str n).

Definition ralloc_vasprintf h (r : chunk) (ctx : Z) (text : list Z) : option (heap * Z) :=
  '(h, ptr) ← ralloc_size h r ctx (len text + 1);
  if ptr =? 0 then Some (h, 0) else h ← write_bytes h ptr 0 (text ++ [0]); Some (h, ptr).

(** The heap, the new values of [*str] and [*start], and the result. *)
Definition ralloc_vasprintf_rewrite_tail h (r : chunk) (str start : Z) (text : list Z) : option (heap * Z * Z * bool) :=
  if str =? 0 then
    '(h, str) ← ralloc_vasprintf h r 0 text;
    start ← strlen h str;
    Some (h, str, start, true)
  else
    '(h, ptr) ← ralloc_resize h r str (u64 (start + len text + 1));
    if ptr =? 0 then Some (h, str, start, false)
    else h ← write_bytes h ptr start (text ++ [0]); Some (h, ptr, start + len text, true).
Definition ralloc_vasprintf_append h (r : chunk) (str : Z) (text : list Z) : option (heap * Z * bool) :=
  existing_length ← (if str =? 0 then Some 0 else strlen h str);
  '(h, str, _, ok) ← ralloc_vasprintf_rewrite_tail h r str existing_length text;
  Some (h, str, ok).

(** ** Writing *)

Definition content h a : option (list Z) := r_data <$> h !! a.

Lemma write_repr h F a (off : Z) (bytes d : list Z) : repr h F -> a ∈ dom F -> content h a = Some d -> 0 <= off -> off + len bytes <= len d ->
  exists h', write_bytes h (PTR_FROM_HEADER a) off bytes = Some h' /\ repr h' F
    /\ content h' a = Some (take (Z.to_nat off) d ++ bytes ++ drop (Z.to_nat off + length bytes) d) /\ (forall x, x <> a -> h' !! x = h !! x).
Proof.
  intros [Hwf Hl Ht] Ha Hd H0 H1. assert (Hda : a ∈ dom h) by (by rewrite (l_dom _ _ Hl)). unfold write_bytes, PTR_FROM_HEADER. replace (a + HEADER_SIZE - HEADER_SIZE) with a by lia.
  unfold content in Hd. apply fmap_Some in Hd as (b & Eb & ->). rewrite Eb. cbn [mbind option_bind]. unfold len in H1.
  rewrite (proj2 (Z.leb_le 0 off) H0), (proj2 (Z.leb_le _ _) H1). cbn [andb]. run_store. eexists. split; [reflexivity|]. split; [split; [done| |]|].
  - apply (links_ext h F Hwf Hl); [by rewrite dom_alter_L|intros x _; by apply fld_alter_same|intros x _; unfold sib; by rewrite !fld_alter_same].
  - intros x Hx. rewrite dom_alter_L in Hx. rewrite fld_alter_same by done. by apply Ht.
  - unfold content. rewrite lookup_alter_eq, Eb. cbn. split; [done|]. intros x Hx. by apply lookup_alter_ne.
Qed.

(** ** Strings in the heap *)

Definition text_bytes s : Prop := Forall (fun b => b <> 0) s.
Definition cstring h a s : Prop := text_bytes s /\ exists rest, content h a = Some (s ++ 0 :: rest).
(** All other blocks are as before. *)
Definition others h h' (A : list Z) : Prop := forall x, x ∉ A -> payload <$> h' !! x = payload <$> h !! x.

Lemma strlen_bytes_text s rest : text_bytes s -> strlen_bytes (s ++ 0 :: rest) = Some (len s).
Proof.
  unfold len. induction 1 as [|b s Hb _ IH]; [done|]. cbn [app strlen_bytes length]. destruct (Z.eqb_spec b 0); [done|]. rewrite IH. cbn. f_equal. lia.
Qed.
Lemma strlen_cstring h a s : cstring h a s -> strlen h (PTR_FROM_HEADER a) = Some (len s).
Proof.
  intros [Ht (rest & E)]. unfold strlen, PTR_FROM_HEADER. replace (a + HEADER_SIZE - HEADER_SIZE) with a by lia. unfold content in E.
  apply fmap_Some in E as (b & -> & E). cbn. rewrite <- E. by apply strlen_bytes_text.
Qed.
Lemma write_others h h' a x : (forall x, x <> a -> h' !! x = h !! x) -> x <> a -> payload <$> h' !! x = payload <$> h !! x.
Proof. intros H Hx. by rewrite H. Qed.
Lemma content_payload h a (z : Z * Z * Z) d : payload <$> h !! a = Some (z, d) -> content h a = Some d.
Proof. unfold content. destruct (h !! a) as [b|]; cbn; [|done]. intros [= _ <-]. done. Qed.

(** Text written after a prefix that is already there *)
Lemma write_text h F a s t d : repr h F -> a ∈ dom F -> content h a = Some d -> take (length s) d = s -> len s + len t + 1 <= len d ->
  exists h', write_bytes h (PTR_FROM_HEADER a) (len s) (t ++ [0]) = Some h' /\ repr h' F /\ (exists rest, content h' a = Some ((s ++ t) ++ 0 :: rest)) /\ others h h' [a].
Proof.
  intros Hr Ha Hd Hs Hlen. unfold len in *. destruct (write_repr h F a (Z.of_nat (length s)) (t ++ [0]) d Hr Ha Hd) as (h' & E & Hr' & Hc & Ho); [lia|unfold len; rewrite length_app; cbn; lia|].
  exists h'. split; [done|]. split; [done|]. split; [|intros x Hx; apply (write_others h h' a); [done|set_solver]]. rewrite Nat2Z.id, Hs in Hc. eexists. rewrite Hc, <- !app_assoc. cbn. done.
Qed.
Lemma write_zero_end h F a s t d : repr h F -> a ∈ dom F -> content h a = Some d -> take (length s) d = s -> len s + len t + 1 <= len d ->
  exists h', (h1 ← write_bytes h (PTR_FROM_HEADER a) (len s) t; h2 ← write_bytes h1 (PTR_FROM_HEADER a) (len s + len t) [0]; Some h2) = Some h'
    /\ repr h' F /\ (exists rest, content h' a = Some ((s ++ t) ++ 0 :: rest)) /\ others h h' [a].
Proof.
  intros Hr Ha Hd Hs Hlen. unfold len in *. destruct (write_repr h F a (Z.of_nat (length s)) t d Hr Ha Hd) as (h1 & -> & Hr1 & Hc1 & Ho1); [lia|unfold len; lia|].
  cbn [mbind option_bind]. rewrite Nat2Z.id, Hs in Hc1. set (k := drop _ d) in *.
  destruct (write_repr h1 F a (Z.of_nat (length s) + Z.of_nat (length t)) [0] _ Hr1 Ha Hc1) as (h2 & -> & Hr2 & Hc2 & Ho2).
  { lia. } { unfold len, k. rewrite !length_app, length_drop. cbn. lia. }
  exists h2. split; [done|]. split; [done|]. split.
  - replace (Z.to_nat (Z.of_nat (length s) + Z.of_nat (length t))) with (length (s ++ t)) in Hc2 by (rewrite length_app; lia).
    rewrite (app_assoc s t k), take_app_length, drop_app_ge in Hc2 by lia. eexists. rewrite Hc2. done.
  - intros x Hx. rewrite (write_others h1 h2 a x), (write_others h h1 a x); [done|done|set_solver|done|set_solver].
Qed.

(** The prefix survives [resize]. *)
Lemma resized_prefix h h' a a' size s rest : resized h h' a a' size -> content h a = Some (s ++ rest) -> len s <= size ->
  exists d', content h' a' = Some d' /\ take (length s) d' = s /\ size <= len d'.
Proof.
  intros (_ & d & d' & Hp & Hp' & Hsz & Hpre) Hc Hle. apply content_payload in Hp, Hp'. rewrite Hc in Hp. injection Hp as <-. unfold len in *. exists d'. split; [done|]. split; [|done].
  apply list_eq. intros i. destruct (decide (i < length s)%nat) as [Hi|Hi].
  - rewrite lookup_take_lt by done. rewrite Hpre by (rewrite ?length_app; lia). by rewrite lookup_app_l.
  - rewrite lookup_take_ge, lookup_ge_None_2 by lia. done.
Qed.

(** The block that [resize] returns, as a place to write to. *)
Lemma resize_content h F r a s rest size : repr h F -> a ∈ dom F -> content h a = Some (s ++ rest) -> fresh F r \/ addr r = a -> size_ok size -> len s <= size ->
  exists h1 d', ralloc_resize h r (PTR_FROM_HEADER a) size = Some (h1, PTR_FROM_HEADER (addr r)) /\ repr h1 (rename F a (addr r))
    /\ content h1 (addr r) = Some d' /\ take (length s) d' = s /\ size <= len d' /\ others h h1 [a; addr r]
    /\ addr r ∈ dom (rename F a (addr r)) /\ (PTR_FROM_HEADER (addr r) =? 0) = false.
Proof.
  intros Hr Ha Hc Hf [Hz0 Hz1] Hle. pose proof (wf_pos F (repr_wf _ _ Hr) a Ha) as Hpos.
  assert (Hr0 : 0 < addr r) by (destruct Hf as [[? ?]| ->]; done). assert (Hf' : addr r = a \/ addr r ∉ dom F) by (destruct Hf as [[? ?]|]; auto).
  destruct (resize_repr h F r a _ Hr Ha Hr0 Hf' Hz0 Hz1) as (h1 & E & Hr1 & Hres). destruct (resized_prefix h h1 a (addr r) _ s _ Hres Hc Hle) as (d' & Hd' & Hpre & Hsz).
  assert (Ha1 : addr r ∈ dom (rename F a (addr r))).
  { apply elem_of_dom_rename. unfold swap. case_decide as Ea; [by rewrite Ea|]. by rewrite decide_True. }
  exists h1, d'. split; [done|]. split; [done|]. split; [done|]. split; [done|]. split; [done|]. split; [intros x Hx; apply Hres; set_solver|]. split; [done|].
  by apply (ptr_nonzero _ _ (repr_wf _ _ Hr1)).
Qed.

Lemma size_ok_u64 size : size_ok size -> u64 size = size.
Proof. intros [? ?]. apply u64_small. lia. Qed.

Lemma append_repr h F r a s t : repr h F -> a ∈ dom F -> cstring h a s -> text_bytes t -> fresh F r \/ addr r = a -> size_ok (len s + len t + 1) ->
  exists h', ralloc_str_append h r (PTR_FROM_HEADER a) t (len s) (len t) = Some (h', PTR_FROM_HEADER (addr r), true)
    /\ repr h' (rename F a (addr r)) /\ cstring h' (addr r) (s ++ t) /\ others h h' [a; addr r].
Proof.
  intros Hr Ha [Hs (rest & Hc)] Ht Hf Hz. pose proof (repr_wf _ _ Hr) as Hwf. unfold ralloc_str_append. rewrite (ptr_nonzero F a Hwf Ha), size_ok_u64 by done. cbn [negb].
  assert (Hlen : 0 <= len t /\ 0 <= len s) by (unfold len; lia).
  destruct (resize_content h F r a s _ _ Hr Ha Hc Hf Hz ltac:(lia)) as (h1 & d' & -> & Hr1 & Hd' & Hpre & Hsz & Ho & Ha1 & Hp1). cbn [mbind option_bind]. rewrite Hp1.
  replace (Z.to_nat (len t)) with (length t) by (unfold len; lia). rewrite firstn_all.
  destruct (write_zero_end h1 _ (addr r) s t d' Hr1 Ha1 Hd' Hpre Hsz) as (h2 & E & Hr2 & Hc2 & Ho2).
  destruct (write_bytes h1 _ (len s) t) as [h1'|]; cbn [mbind option_bind] in E |- *; [|done].
  destruct (write_bytes h1' _ _ [0]) as [h2'|]; cbn [mbind option_bind] in E |- *; [|done]. injection E as ->.
  exists h2. split; [done|]. split; [done|]. split; [split; [by apply Forall_app|done]|]. intros x Hx. rewrite Ho2 by set_solver. by apply Ho.
Qed.

(** The tail of a string is rewritten from [start]. *)
Lemma rewrite_tail_repr h F r a s1 s2 t : repr h F -> a ∈ dom F -> cstring h a (s1 ++ s2) -> text_bytes t -> fresh F r \/ addr r = a -> size_ok (len s1 + len t + 1) ->
  exists h', ralloc_vasprintf_rewrite_tail h r (PTR_FROM_HEADER a) (len s1) t = Some (h', PTR_FROM_HEADER (addr r), len (s1 ++ t), true)
    /\ repr h' (rename F a (addr r)) /\ cstring h' (addr r) (s1 ++ t) /\ others h h' [a; addr r].
Proof.
  intros Hr Ha [Hs (rest & Hc)] Ht Hf Hz. pose proof (repr_wf _ _ Hr) as Hwf. unfold ralloc_vasprintf_rewrite_tail. rewrite (ptr_nonzero F a Hwf Ha), size_ok_u64 by done.
  assert (Hlen : 0 <= len t /\ 0 <= len s1) by (unfold len; lia). rewrite <- app_assoc in Hc.
  destruct (resize_content h F r a s1 _ _ Hr Ha Hc Hf Hz ltac:(lia)) as (h1 & d' & -> & Hr1 & Hd' & Hpre & Hsz & Ho & Ha1 & Hp1). cbn [mbind option_bind]. rewrite Hp1.
  destruct (write_text h1 _ (addr r) s1 t d' Hr1 Ha1 Hd' Hpre Hsz) as (h2 & -> & Hr2 & Hc2 & Ho2). cbn [mbind option_bind].
  exists h2. split; [unfold len; rewrite length_app, Nat2Z.inj_add; done|]. split; [done|]. apply Forall_app in Hs as [Hs1 _]. split; [split; [by apply Forall_app|done]|].
  intros x Hx. rewrite Ho2 by set_solver. by apply Ho.
Qed.

Lemma resize_null h F r a size : repr h F -> a ∈ dom F -> addr r = 0 -> size_ok size -> ralloc_resize h r (PTR_FROM_HEADER a) size = Some (h, 0).
Proof.
  intros [Hwf Hl Ht] Ha Hr [H0 H1]. unfold ralloc_resize. rewrite get_header_ok by (try done; by rewrite (l_dom _ _ Hl)). destruct (block_size_ok size H0 H1) as (n & -> & _). cbn. by rewrite Hr.
Qed.

(** Appending to a string in a block, with [ralloc_strcat] or with
    [ralloc_asprintf_append], gives the concatenation of both texts, zero-terminated within
    the block, in the possibly moved block, with all links renamed and all other
    blocks untouched; if realloc fails the result is false and nothing changes. *)
Theorem ralloc_append_correct h F r a s t :
  repr h F -> a ∈ dom F -> cstring h a s -> text_bytes t -> size_ok (len s + len t + 1) ->
  (fresh F r \/ addr r = a ->
    (exists h', ralloc_strcat h r (PTR_FROM_HEADER a) t = Some (h', PTR_FROM_HEADER (addr r), true)
       /\ repr h' (rename F a (addr r)) /\ cstring h' (addr r) (s ++ t) /\ others h h' [a; addr r])
    /\ (exists h', ralloc_vasprintf_append h r (PTR_FROM_HEADER a) t = Some (h', PTR_FROM_HEADER (addr r), true)
       /\ repr h' (rename F a (addr r)) /\ cstring h' (addr r) (s ++ t) /\ others h h' [a; addr r]))
  /\ (addr r = 0 -> ralloc_strcat h r (PTR_FROM_HEADER a) t = Some (h, PTR_FROM_HEADER a, false)
       /\ ralloc_vasprintf_append h r (PTR_FROM_HEADER a) t = Some (h, PTR_FROM_HEADER a, false)).
Proof.
  intros Hr Ha Hs Ht Hz. pose proof (repr_wf _ _ Hr) as Hwf. unfold ralloc_strcat, cat, ralloc_vasprintf_append. rewrite (ptr_nonzero F a Hwf Ha), (strlen_cstring h a s Hs). cbn [negb mbind option_bind].
  split; [intros Hf; split|intros H0; split].
  - by apply append_repr.
  - rewrite <- (app_nil_r s) in Hs. destruct (rewrite_tail_repr h F r a s [] t Hr Ha Hs Ht Hf Hz) as (h' & -> & H). exists h'. done.
  - unfold ralloc_str_append. rewrite (ptr_nonzero F a Hwf Ha), size_ok_u64, (resize_null h F r a) by done. done.
  - unfold ralloc_vasprintf_rewrite_tail. rewrite (ptr_nonzero F a Hwf Ha), size_ok_u64, (resize_null h F r a) by done. done.
Qed.

Lemma ralloc_append_correct_witness :
  (exists h', ralloc_strcat sample_heap (Chunk 400 []) (PTR_FROM_HEADER 208) [66; 67] = Some (h', PTR_FROM_HEADER 400, true)
     /\ repr h' (rename sample_forest 208 400) /\ cstring h' 400 [65; 66; 67] /\ others sample_heap h' [208; 400])
  /\ (exists h', ralloc_vasprintf_append sample_heap (Chunk 400 []) (PTR_FROM_HEADER 208) [66; 67] = Some (h', PTR_FROM_HEADER 400, true)
     /\ repr h' (rename sample_forest 208 400) /\ cstring h' 400 [65; 66; 67] /\ others sample_heap h' [208; 400]).
Proof.
  apply (ralloc_append_correct sample_heap sample_forest (Chunk 400 []) 208 [65] [66; 67] sample_repr).
  - by_computation.
  - split; [repeat constructor; lia|]. exists []. by vm_compute.
  - repeat constructor; lia.
  - split; unfold len; cbn; lia.
  - left. split; [cbn; lia|by_computation].
Defined.

(** ** Copies *)

(** The block that [ralloc_size] returns, as a place to write to. *)
Lemma alloc_content h F r ctx size : repr h F -> context F ctx -> fresh F r -> size_ok size ->
  exists h' d, ralloc_size h r ctx size = Some (h', PTR_FROM_HEADER (addr r)) /\ repr h' (allocate F (header_of ctx) (addr r))
    /\ content h' (addr r) = Some d /\ size <= len d /\ others h h' [addr r] /\ addr r ∈ dom (allocate F (header_of ctx) (addr r))
    /\ (PTR_FROM_HEADER (addr r) =? 0) = false.
Proof.
  intros Hr Hc [Hf1 Hf2] [H0 H1]. destruct (alloc_repr h F r ctx size Hr Hc Hf1 Hf2 H0 H1) as (h' & E & Hr' & (d & Hp & Hlen) & Hsame). exists h', d.
  split; [done|]. split; [done|]. split; [by eapply content_payload|]. split; [done|]. split; [intros x Hx; apply Hsame; set_solver|].
  assert (Ha : addr r ∈ dom (allocate F (header_of ctx) (addr r))) by (rewrite dom_allocate; set_solver). split; [done|]. by apply (ptr_nonzero _ _ (repr_wf _ _ Hr')).
Qed.

Lemma array_call_1 h n alloc : 0 <= n < 2 ^ 64 -> array_call h 1 n alloc = alloc n.
Proof.
  intros Hn. unfold array_call, array_size. cbn [Z.eqb negb]. rewrite Z.div_1_r. destruct (Z.gtb_spec n UINT64_MAX); [unfold UINT64_MAX in *; lia|]. cbn [mbind option_bind]. by rewrite Z.mul_1_l, u64_small.
Qed.

(** [ralloc_strdup] puts a zero-terminated copy of a string (shorter than 2^32 - 1 bytes)
    in a new block of the context, [ralloc_strndup] a copy of at most [max] bytes, and
    [ralloc_memdup] a copy of the memory; the other blocks are untouched. *)
Theorem ralloc_dup_correct h F r ctx s (max : Z) :
  repr h F -> context F ctx -> fresh F r -> text_bytes s -> len s + 1 < 2 ^ 32 -> 0 <= max ->
  (exists h', ralloc_strdup h r ctx (Some s) = Some (h', PTR_FROM_HEADER (addr r))
     /\ repr h' (allocate F (header_of ctx) (addr r)) /\ cstring h' (addr r) s /\ others h h' [addr r])
  /\ (exists h', ralloc_strndup h r ctx (Some s) max = Some (h', PTR_FROM_HEADER (addr r))
     /\ repr h' (allocate F (header_of ctx) (addr r)) /\ cstring h' (addr r) (take (Z.to_nat max) s) /\ others h h' [addr r])
  /\ (exists h' rest, ralloc_memdup h r ctx s = Some (h', PTR_FROM_HEADER (addr r))
     /\ repr h' (allocate F (header_of ctx) (addr r)) /\ content h' (addr r) = Some (s ++ rest) /\ others h h' [addr r]).
Proof.
  intros Hr Hc Hf Hs Hlen Hmax.
  assert (Hdup : forall t, text_bytes t -> len t + 1 < 2 ^ 32 -> exists h', strdup_bytes h r ctx t = Some (h', PTR_FROM_HEADER (addr r))
     /\ repr h' (allocate F (header_of ctx) (addr r)) /\ cstring h' (addr r) t /\ others h h' [addr r]).
  { intros t Ht Hl. assert (H0 : 0 <= len t) by (unfold len; lia). unfold strdup_bytes, ralloc_array_size. rewrite u32_small, array_call_1 by lia.
    destruct (alloc_content h F r ctx (len t + 1) Hr Hc Hf) as (h1 & d & -> & Hr1 & Hd & Hsz & Ho & Ha & _); [split; lia|]. cbn [mbind option_bind].
    destruct (write_zero_end h1 _ (addr r) [] t d Hr1 Ha Hd) as (h2 & E & Hr2 & Hc2 & Ho2); [done|change (len []) with 0; lia|]. change (len []) with 0 in E. rewrite Z.add_0_l in E.
    destruct (write_bytes h1 _ 0 t) as [h1'|]; cbn [mbind option_bind] in E |- *; [|done]. destruct (write_bytes h1' _ _ [0]) as [h2'|]; cbn [mbind option_bind] in E |- *; [|done]. injection E as ->.
    exists h2. split; [done|]. split; [done|]. split; [done|]. intros x Hx. rewrite Ho2 by done. by apply Ho. }
  split; [by apply Hdup|]. split.
  - unfold ralloc_strndup. replace (take (Z.to_nat (strnlen s max)) s) with (take (Z.to_nat max) s).
    + apply Hdup; [by apply Forall_take|]. unfold len in *. rewrite length_take. lia.
    + unfold strnlen, len. destruct (Z.min_spec (Z.of_nat (length s)) max) as [[? ->]|[? ->]]; [|done]. rewrite Nat2Z.id, !take_ge by lia. done.
  - assert (H0 : 0 <= len s) by (unfold len; lia). unfold ralloc_memdup. destruct (alloc_content h F r ctx (len s) Hr Hc Hf) as (h1 & d & -> & Hr1 & Hd & Hsz & Ho & Ha & Hp); [split; lia|]. cbn [mbind option_bind]. rewrite Hp.
    destruct (write_repr h1 _ (addr r) 0 s d Hr1 Ha Hd) as (h2 & -> & Hr2 & Hc2 & Ho2); [lia|lia|]. cbn [mbind option_bind]. eexists h2, _. split; [done|]. split; [done|]. split; [exact Hc2|].
    intros x Hx. rewrite (write_others h1 h2 (addr r) x); [by apply Ho|done|set_solver].
Qed.

Lemma ralloc_dup_correct_witness :
  (exists h', ralloc_strdup sample_heap (Chunk 400 []) 64 (Some [66; 67]) = Some (h', PTR_FROM_HEADER 400)
     /\ repr h' (allocate sample_forest 16 400) /\ cstring h' 400 [66; 67] /\ others sample_heap h' [400])
  /\ (exists h', ralloc_strndup sample_heap (Chunk 400 []) 64 (Some [66; 67]) 1 = Some (h', PTR_FROM_HEADER 400)
     /\ repr h' (allocate sample_forest 16 400) /\ cstring h' 400 [66] /\ others sample_heap h' [400])
  /\ (exists h' rest, ralloc_memdup sample_heap (Chunk 400 []) 64 [66; 67] = Some (h', PTR_FROM_HEADER 400)
     /\ repr h' (allocate sample_forest 16 400) /\ content h' 400 = Some ([66; 67] ++ rest) /\ others sample_heap h' [400]).
Proof.
  apply (ralloc_dup_correct sample_heap sample_forest (Chunk 400 []) 64 [66; 67] 1 sample_repr).
  - right. by_computation.
  - split; [cbn; lia|by_computation].
  - repeat constructor; lia.
  - unfold len. cbn. lia.
  - lia.
Defined.

(** A failed allocation is not checked before the bytes are copied: the write to NULL. *)
Lemma ralloc_strdup_unchecked : ralloc_strdup sample_heap (Chunk 0 []) 64 (Some [66; 67]) = None.
Proof. by vm_compute. Qed.

(** ** Zeroed memory *)

(** [rzalloc_size] returns zeroes, and [rerzalloc_size] the old bytes and then zeroes. *)
Lemma rzalloc_zeroed h F r ctx size : repr h F -> context F ctx -> fresh F r -> size_ok size ->
  exists h' rest, rzalloc_size h r ctx size = Some (h', PTR_FROM_HEADER (addr r)) /\ repr h' (allocate F (header_of ctx) (addr r))
    /\ content h' (addr r) = Some (replicate (Z.to_nat size) 0 ++ rest) /\ others h h' [addr r].
Proof.
  intros Hr Hc Hf Hz. unfold rzalloc_size. destruct (alloc_content h F r ctx size Hr Hc Hf Hz) as (h1 & d & -> & Hr1 & Hd & Hsz & Ho & Ha & Hp). cbn [mbind option_bind]. rewrite Hp.
  destruct (write_repr h1 _ (addr r) 0 (replicate (Z.to_nat size) 0) d Hr1 Ha Hd) as (h2 & -> & Hr2 & Hc2 & Ho2); [lia|destruct Hz; unfold len in *; rewrite length_replicate; lia|].
  cbn [mbind option_bind]. eexists h2, _. split; [done|]. split; [done|]. split; [exact Hc2|]. intros x Hx. rewrite (write_others h1 h2 (addr r) x); [by apply Ho|done|set_solver].
Qed.

(** [rerzalloc_size] keeps the first [old_size] bytes of the block and zeroes the rest up to
    [new_size], in the possibly moved block; the other blocks are untouched. *)
Theorem rerzalloc_size_correct h F r ctx a s rest (new_size : Z) :
  repr h F -> a ∈ dom F -> child_of F a (header_of ctx) \/ ctx = 0 /\ root F a -> content h a = Some (s ++ rest) ->
  fresh F r \/ addr r = a -> len s <= new_size -> size_ok new_size ->
  exists h' rest', rerzalloc_size h r ctx (PTR_FROM_HEADER a) (len s) new_size = Some (h', PTR_FROM_HEADER (addr r))
    /\ repr h' (rename F a (addr r)) /\ content h' (addr r) = Some (s ++ replicate (Z.to_nat (new_size - len s)) 0 ++ rest') /\ others h h' [a; addr r].
Proof.
  intros Hr Ha Hp Hc Hf Hle Hz. pose proof (repr_wf _ _ Hr) as Hwf. unfold rerzalloc_size. rewrite (ptr_nonzero F a Hwf Ha), (parent_assert h F ctx a Hr Ha Hp). cbn [mbind option_bind]. rewrite Z.eqb_refl.
  destruct (resize_content h F r a s rest _ Hr Ha Hc Hf Hz Hle) as (h1 & d' & -> & Hr1 & Hd' & Hpre & Hsz & Ho & Ha1 & _). cbn [mbind option_bind].
  unfold len in *. rewrite Z.gtb_ltb. destruct (Z.ltb_spec (Z.of_nat (length s)) new_size) as [Hlt|Hge].
  - destruct (write_repr h1 _ (addr r) (Z.of_nat (length s)) (replicate (Z.to_nat (new_size - Z.of_nat (length s))) 0) d' Hr1 Ha1 Hd') as (h2 & -> & Hr2 & Hc2 & Ho2); [lia|unfold len; rewrite length_replicate; lia|].
    cbn [mbind option_bind]. rewrite Nat2Z.id, Hpre in Hc2. eexists h2, _. split; [done|]. split; [done|]. split; [exact Hc2|].
    intros x Hx. rewrite (write_others h1 h2 (addr r) x); [by apply Ho|done|set_solver].
  - cbn [mbind option_bind]. exists h1, (drop (length s) d'). split; [done|]. split; [done|]. replace (Z.to_nat (new_size - Z.of_nat (length s))) with 0%nat by lia. cbn [replicate app].
    split; [rewrite Hd'; f_equal; rewrite <- (take_drop (length s) d') at 1; by rewrite Hpre|]. done.
Qed.

Lemma rerzalloc_size_correct_witness :
  exists h' rest', rerzalloc_size sample_heap (Chunk 400 []) 64 (PTR_FROM_HEADER 208) (len [65]) 5 = Some (h', PTR_FROM_HEADER 400)
    /\ repr h' (rename sample_forest 208 400) /\ content h' 400 = Some ([65] ++ replicate (Z.to_nat (5 - len [65])) 0 ++ rest') /\ others sample_heap h' [208; 400].
Proof.
  apply (rerzalloc_size_correct sample_heap sample_forest (Chunk 400 []) 64 208 [65] [0] 5 sample_repr).
  - by_computation.
  - left. exists [208; 96]. split; [by vm_compute|set_solver].
  - by vm_compute.
  - left. split; [cbn; lia|by_computation].
  - unfold len. cbn. lia.
  - split; lia.
Defined.

(** If realloc fails, the new bytes are zeroed at NULL. *)
Lemma rerzalloc_size_unchecked : rerzalloc_size sample_heap (Chunk 0 []) 64 (PTR_FROM_HEADER 208) 1 5 = None.
Proof. by vm_compute. Qed.
