(* ===== verification/LinearAlloc.v ===== *)
(** * The linear allocator (src/util/ralloc.c: linear_alloc_child)

    A linear context hands out pieces of a buffer one after the other; when a piece does not
    fit, another buffer is allocated, as a ralloc child of the context.  The struct
    [linear_ctx] is at the start of the first buffer; since nothing else writes it, it
    is a record here, as are the canaries in front of the buffers (the offset of each,
    by the address of the buffer). *)

From Stdlib Require Import ZArith Lia.
From stdpp Require Import base list gmap numbers option sets.
From S2P Require Import Prelude Ralloc RallocTree RallocResize RallocOps RallocString.
Local Open Scope Z_scope.

Implicit Types (h : heap) (F : forest).

Definition SUBALLOC_ALIGNMENT : Z := 8.
(** [sizeof(linear_ctx)] and [sizeof(linear_node_canary)] *)
Definition LINEAR_CTX_SIZE : Z := 32.
Definition get_node_canary_size : Z := 16.

Record linear_ctx := LinearCtx { lc_self : Z; min_buffer_size : Z; lc_offset : Z; lc_size : Z; latest : Z }.
Record linear := Linear { l_heap : heap; l_ctx : linear_ctx; canaries : gmap Z Z }.

(** [ALIGN_POT] on unsigned operands *)
Definition ALIGN_POT32 (x pot_align : Z) : Z := Z.land (u32 (u32 (x + pot_align) - 1)) (not32 (pot_align - 1)).

Definition linear_context_with_opts h (r : chunk) (ralloc_ctx opts_min_buffer_size : Z) : option (option linear) :=
  let default_min_buffer_size := 2048 in
  let min_buffer_size := MAX2 (ALIGN_POT32 opts_min_buffer_size default_min_buffer_size) default_min_buffer_size in
  let size := min_buffer_size in
  let full_size := u32 (LINEAR_CTX_SIZE + get_node_canary_size + size) in
  '(h, ctx) ← ralloc_size h r ralloc_ctx full_size;
  if ctx =? 0 then Some None
  else
    let latest := ctx + LINEAR_CTX_SIZE + get_node_canary_size in
    Some (Some (Linear h (LinearCtx ctx min_buffer_size 0 size latest) {[ latest := 0 ]})).
Definition linear_context h (r : chunk) (ralloc_ctx : Z) : option (option linear) := linear_context_with_opts h r ralloc_ctx 0.

(** Taking [size] bytes from the latest buffer *)
Definition take_bytes (s : linear) (size : Z) : option (linear * Z) :=
  let c := l_ctx s in
  let ptr := latest c + lc_offset c in
  o ← canaries s !! latest c;
  assert! ptr mod SUBALLOC_ALIGNMENT =? 0 ;;
  Some (Linear (l_heap s) (LinearCtx (lc_self c) (min_buffer_size c) (u32 (lc_offset c + size)) (lc_size c) (latest c))
          (<[latest c := u32 (o + size)]> (canaries s)), ptr).

(** The size of a new buffer, for an aligned size *)
Definition node_size (c : linear_ctx) (size : Z) : Z := if size <? min_buffer_size c then min_buffer_size c else size.

Definition linear_alloc_child (s : linear) (r : chunk) (size : Z) : option (linear * Z) :=
  let c := l_ctx s in
  o ← canaries s !! latest c;
  assert! o =? lc_offset c ;;
  let size := ALIGN_POT32 size SUBALLOC_ALIGNMENT in
  if u32 (lc_offset c + size) >? lc_size c then
    let full_size := u32 (get_node_canary_size + node_size c size) in
    '(h, ptr) ← ralloc_size (l_heap s) r (lc_self c) full_size;
    if ptr =? 0 then Some (Linear h c (canaries s), 0)
    else
      let buffer := ptr + get_node_canary_size in
      if size =? node_size c size then
        assert! buffer mod SUBALLOC_ALIGNMENT =? 0 ;;
        Some (Linear h c (<[buffer := size]> (canaries s)), buffer)
      else
        take_bytes (Linear h (LinearCtx (lc_self c) (min_buffer_size c) 0 (node_size c size) buffer) (<[buffer := 0]> (canaries s))) size
  else take_bytes s size.

Definition linear_alloc_child_array (s : linear) (r : chunk) (size count : Z) : option (linear * Z) :=
  n ← array_size size count;
  match n with None => Some (s, 0) | Some n => linear_alloc_child s r (u32 n) end.

Definition linear_free_context (s : linear) : option (heap * list event) := ralloc_free (l_heap s) (lc_self (l_ctx s)).
Definition ralloc_steal_linear_context (s : linear) (new_ralloc_ctx : Z) : option heap := ralloc_steal (l_heap s) new_ralloc_ctx (lc_self (l_ctx s)).
Definition ralloc_parent_of_linear_context (s : linear) : option Z :=
  info ← get_header (l_heap s) (lc_self (l_ctx s)); i ← l_heap s !! info; Some (PTR_FROM_HEADER (r_parent i)).

(** ** Alignment *)

Lemma ALIGN_POT32_pow2 x k : 0 <= x -> 0 <= k <= 31 -> x + 2 ^ k <= 2 ^ 32 -> ALIGN_POT32 x (2 ^ k) = (x + 2 ^ k - 1) / 2 ^ k * 2 ^ k.
Proof.
  intros Hx Hk Hb. pose proof (pow2_pos k ltac:(lia)). pose proof (pow2_le k 31 ltac:(lia)). unfold ALIGN_POT32.
  assert (E : u32 (u32 (x + 2 ^ k) - 1) = x + 2 ^ k - 1).
  { transitivity (u32 (x + 2 ^ k - 1)); [apply (wrap_wrap_add 32 (x + 2 ^ k) (-1)); lia|apply u32_small; lia]. }
  rewrite E, not32_sub by lia. replace (2 ^ 32 - 1 - (2 ^ k - 1)) with (2 ^ 32 - 2 ^ k) by lia. apply (land_high_mask 32 k); [lia|unfold fits; lia].
Qed.
Lemma align_8 size : 0 <= size <= 2 ^ 31 -> exists n, ALIGN_POT32 size SUBALLOC_ALIGNMENT = 8 * n /\ size <= 8 * n < size + 8.
Proof.
  intros Hs. unfold SUBALLOC_ALIGNMENT. change 8 with (2 ^ 3) at 1. rewrite ALIGN_POT32_pow2 by lia. change (2 ^ 3) with 8. exists ((size + 8 - 1) / 8). dlia.
Qed.

(** ** The invariant *)

Notation region := (Z * Z)%type.
Definition apart (r1 r2 : region) : Prop := r1.1 + r1.2 <= r2.1 \/ r2.1 + r2.2 <= r1.1.
(** The bytes of the region are bytes of the block at [x]. *)
Definition inside h x (r : region) : Prop :=
  exists d, content h x = Some d /\ x + HEADER_SIZE <= r.1 /\ r.1 + r.2 <= x + HEADER_SIZE + len d.
(** [x] is the first block of the linear context [c], or a further one. *)
Definition buffer F c x : Prop := x = c \/ child_of F x c.

(** [regions] are the allocations that were handed out. *)
Record linear_ok (s : linear) F (regions : list region) : Prop := {
  ok_repr : repr (l_heap s) F;
  ok_self : header_of (lc_self (l_ctx s)) ∈ dom F /\ lc_self (l_ctx s) <> 0;
  ok_size : lc_size (l_ctx s) = min_buffer_size (l_ctx s) /\ 2048 <= min_buffer_size (l_ctx s) <= 2 ^ 30;
  ok_offset : 0 <= lc_offset (l_ctx s) <= lc_size (l_ctx s) /\ lc_offset (l_ctx s) mod 8 = 0;
  ok_latest : latest (l_ctx s) mod 8 = 0 /\ canaries s !! latest (l_ctx s) = Some (lc_offset (l_ctx s));
  ok_buffer : exists x, buffer F (header_of (lc_self (l_ctx s))) x /\ inside (l_heap s) x (latest (l_ctx s), lc_size (l_ctx s));
  ok_inside : Forall (fun r => exists x, buffer F (header_of (lc_self (l_ctx s))) x /\ inside (l_heap s) x r) regions;
  ok_apart : ForallOrdPairs apart regions;
  ok_free : Forall (fun r => apart r (latest (l_ctx s) + lc_offset (l_ctx s), lc_size (l_ctx s) - lc_offset (l_ctx s))) regions
}.

(** malloc returns aligned memory of [n] bytes that overlaps no block. *)
Definition malloc_ok h (r : chunk) (n : Z) : Prop :=
  addr r mod 16 = 0 /\ forall x d, content h x = Some d -> apart (x, HEADER_SIZE + len d) (addr r, n).

(** Taking bytes that are there keeps the invariant. *)
Lemma take_bytes_ok s F regions n : linear_ok s F regions -> 0 <= 8 * n -> lc_offset (l_ctx s) + 8 * n <= lc_size (l_ctx s) ->
  exists s', take_bytes s (8 * n) = Some (s', latest (l_ctx s) + lc_offset (l_ctx s))
    /\ (latest (l_ctx s) + lc_offset (l_ctx s)) mod 8 = 0
    /\ linear_ok s' F ((latest (l_ctx s) + lc_offset (l_ctx s), 8 * n) :: regions) /\ lc_self (l_ctx s') = lc_self (l_ctx s).
Proof.
  intros [H1 H2 [H3 H3'] [H4 H4'] [H5 H5'] H6 H7 H8 H9] Hn Hfit. assert (Hal : (latest (l_ctx s) + lc_offset (l_ctx s)) mod 8 = 0) by dlia.
  unfold take_bytes, SUBALLOC_ALIGNMENT. rewrite H5'. cbn [mbind option_bind]. rewrite Hal. cbn [Z.eqb]. rewrite u32_small by lia. eexists. split; [reflexivity|]. split; [done|]. split; [|done].
  split; cbn; try done.
  - split; [lia|]. dlia.
  - split; [done|]. by rewrite lookup_insert_eq.
  - constructor; [|done]. destruct H6 as (x & Hx & d & Hd & Hlo & Hhi). exists x. split; [done|]. exists d. cbn in *. split; [done|]. lia.
  - constructor; [|done]. eapply Forall_impl; [exact H9|]. intros [p k] Hp. unfold apart in *. cbn in *. lia.
  - constructor; [unfold apart; cbn; lia|]. eapply Forall_impl; [exact H9|]. intros [p k] Hp. unfold apart in *. cbn in *. lia.
Qed.

(** A new buffer: it is in the context, the others are as before, and it is apart from
    everything that was there. *)
Lemma new_buffer h F r ctx N : repr h F -> header_of ctx ∈ dom F -> ctx <> 0 -> fresh F r -> 0 <= N < 2 ^ 32 ->
  (forall n, block_size (get_node_canary_size + N) = Some n -> malloc_ok h r n) ->
  exists h', ralloc_size h r ctx (get_node_canary_size + N) = Some (h', PTR_FROM_HEADER (addr r))
    /\ (PTR_FROM_HEADER (addr r) =? 0) = false /\ repr h' (allocate F (header_of ctx) (addr r))
    /\ buffer (allocate F (header_of ctx) (addr r)) (header_of ctx) (addr r) /\ inside h' (addr r) (PTR_FROM_HEADER (addr r) + get_node_canary_size, N)
    /\ (PTR_FROM_HEADER (addr r) + get_node_canary_size) mod 8 = 0
    /\ forall reg x, buffer F (header_of ctx) x -> inside h x reg ->
         buffer (allocate F (header_of ctx) (addr r)) (header_of ctx) x /\ inside h' x reg /\ apart reg (PTR_FROM_HEADER (addr r) + get_node_canary_size, N).
Proof.
  intros Hr Hc Hc0 Hf HN Hm. unfold get_node_canary_size in *. destruct (block_size_ok (16 + N)) as (n & En & Hn & _); [lia|lia|]. destruct (Hm n En) as [Hal Hap].
  destruct (alloc_content h F r ctx (16 + N) Hr) as (h' & d & E & Hr' & Hd & Hsz & Ho & Ha & Hp); [by right|done|split; lia|]. exists h'. split; [done|]. split; [done|]. split; [done|].
  pose proof (wf_pos F (repr_wf _ _ Hr) _ Hc) as Hpos. destruct Hf as [Hf0 Hf1].
  assert (Hch : forall x, child_of (allocate F (header_of ctx) (addr r)) x (header_of ctx) <-> child_of F x (header_of ctx) \/ x = addr r).
  { intros x. unfold allocate. rewrite push_child by (try lia; rewrite dom_grow; set_solver). rewrite grow_child by done. tauto. }
  split; [right; apply Hch; by right|]. unfold PTR_FROM_HEADER, HEADER_SIZE in *. split.
  { exists d. unfold HEADER_SIZE. cbn. split; [done|]. lia. }
  split; [dlia|]. intros reg x Hb (dx & Hdx & Hlo & Hhi). unfold HEADER_SIZE in *. split; [destruct Hb as [->|Hb]; [by left|right; apply Hch; by left]|].
  assert (Hx : x <> addr r).
  { intros ->. unfold content in Hdx. destruct (h !! addr r) as [b|] eqn:Eb; [|done]. apply Hf1. rewrite <- (l_dom _ _ (repr_links _ _ Hr)). by apply elem_of_dom. }
  split.
  - exists dx. unfold HEADER_SIZE. split; [|done]. specialize (Ho x ltac:(set_solver)). unfold content in *. destruct (h' !! x), (h !! x); cbn in *; try done. injection Ho as _ _ _ ->. done.
  - specialize (Hap x dx Hdx). unfold apart in *. cbn in *. lia.
Qed.


(** ** Creating and freeing a context *)

Lemma linear_context_ok h F r ctx opts : repr h F -> context F ctx -> fresh F r -> addr r mod 16 = 0 -> 0 <= opts <= 2 ^ 30 ->
  exists s, linear_context_with_opts h r ctx opts = Some (Some s) /\ linear_ok s (allocate F (header_of ctx) (addr r)) [] /\ lc_self (l_ctx s) = PTR_FROM_HEADER (addr r).
Proof.
  intros Hr Hc Hf Hal Ho. unfold linear_context_with_opts. pose proof (ALIGN_POT32_pow2 opts 11) as Eal. change (2 ^ 11) with 2048 in Eal. rewrite Eal, MAX2_max by lia.
  set (m := Z.max _ 2048). assert (Hm : 2048 <= m <= 2 ^ 30).
  { unfold m. assert ((opts + 2048 - 1) / 2048 * 2048 <= 2 ^ 30); [|lia]. change (2 ^ 30) with (524288 * 2048) in *. dlia. }
  unfold LINEAR_CTX_SIZE, get_node_canary_size. rewrite u32_small by lia. destruct (alloc_content h F r ctx (32 + 16 + m) Hr Hc Hf) as (h' & d & -> & Hr' & Hd & Hsz & _ & Ha & Hp); [split; lia|].
  cbn [mbind option_bind]. rewrite Hp. eexists. split; [reflexivity|]. split; [|done]. assert (Hh : header_of (PTR_FROM_HEADER (addr r)) = addr r) by (apply (header_ptr _ _ (repr_wf _ _ Hr') Ha)).
  split; cbn; try done; try (by constructor).
  - rewrite Hh. split; [done|]. by apply Z.eqb_neq.
  - split; [lia|done].
  - split; [unfold PTR_FROM_HEADER, HEADER_SIZE; dlia|]. by rewrite lookup_singleton_eq.
  - exists (addr r). rewrite Hh. split; [by left|]. exists d. unfold PTR_FROM_HEADER. cbn. split; [done|]. lia.
Qed.

(** Freeing a linear context releases all of its buffers, each once. *)
Lemma linear_free_context_correct s F regions : linear_ok s F regions ->
  exists h' l, linear_free_context s = Some (h', free_events (l_heap s) l) /\ NoDup l
    /\ (forall x, buffer F (header_of (lc_self (l_ctx s))) x -> x ∈ l /\ h' !! x = None).
Proof.
  intros [Hr [Hc Hc0] _ _ _ _ _ _ _]. pose proof (repr_wf _ _ Hr) as Hwf. unfold linear_free_context.
  assert (Ep : PTR_FROM_HEADER (header_of (lc_self (l_ctx s))) = lc_self (l_ctx s)).
  { unfold header_of. destruct (Z.eqb_spec (lc_self (l_ctx s)) 0); [done|]. unfold PTR_FROM_HEADER. lia. }
  destruct (free_repr (l_heap s) F _ Hr Hc) as (h' & l & E & Hp & _ & Hpay). rewrite Ep in E. exists h', l. split; [done|]. split; [by apply (proj1 (post_nodup F Hwf) _ _ Hp)|].
  intros x Hx. assert (Hin : x ∈ l).
  { apply (proj1 (post_desc F) _ _ Hp). destruct Hx as [->|Hx]; [apply rtc_refl|by apply rtc_once]. }
  split; [done|]. specialize (Hpay x). rewrite decide_True in Hpay by done. by destruct (h' !! x).
Qed.


(** ** Sizes near 2^32 *)

(** The offset wraps around: the second allocation is given 16 bytes of room for almost 4 GB,
    and the third one overlaps the first. *)
Lemma linear_alloc_child_wraps :
  (s ← linear_context ∅ (Chunk 16 []) 0; s ← s;
   '(s, p1) ← linear_alloc_child s (Chunk 0 []) 16;
   '(s, p2) ← linear_alloc_child s (Chunk 0 []) (2 ^ 32 - 16);
   '(s, p3) ← linear_alloc_child s (Chunk 0 []) 16;
   Some (p1, p2, p3)) = Some (112, 128, 112).
Proof. by vm_compute. Qed.

(** The product of size and count is cut to 32 bits. *)
Lemma linear_alloc_child_array_truncates :
  (s ← linear_context ∅ (Chunk 16 []) 0; s ← s; '(s, p) ← linear_alloc_child_array s (Chunk 0 []) 8 (2 ^ 29 + 1); Some (p, lc_offset (l_ctx s))) = Some (112, 8).
Proof. by vm_compute. Qed.
